(* ===== verification/_CoqProject ===== *)
-Q . S2P
Prelude.v
Collections.v
Codec.v
ObjectStore.v
Retry.v
WalFormat.v
WalFactory.v
WalWriter.v
WalWriterInv.v
WalSafety.v
WalAcks.v
ObjectFormat.v
ObjectIO.v
Composite.v
WalRecover.v
WalMemory.v
LogCache.v
LogCacheProofs.v
Metadata.v
StorageRecovery.v
Upload.v
Storage.v
StorageSafety.v
StorageRuns.v
StorageDurable.v
Startup.v
CrashSafety.v
CompactPlan.v
CompactExec.v
Compaction.v
CompactionSafety.v
StreamCompactor.v
StreamCompactorSafety.v
RangeIndex.v
Stream.v
StreamClient.v
Throttle.v
Failover.v
BlockCache.v
Tasks.v
DataBlockCache.v
DataBlockSafety.v
DataBlockProgress.v
StreamReader.v
StreamReaderSound.v
StreamReaderTotal.v
CachedRead.v
SnapshotRead.v
SnapshotSafety.v
