(* ===== verification/Prelude.v ===== *)
(** * s3stream: a verified model

    s3stream keeps streams of record batches on object storage.  A node appends to a
    write-ahead log made of objects, serves fresh reads from an in-memory cache of that
    log, uploads sealed cache blocks as larger objects, registers them in a metadata
    plane, and trims the log.  After a crash, or when another node takes over, the rest of
    the log is uploaded.  Compaction rewrites small objects in the background.

    ** The parts, and where they are modelled

    - [Codec]: record batches and log record frames (s3stream-codec, [record.rs],
      [wal_record.rs], [crc.rs]).  The CRC-32 function is the class [Crc32Fast], with a
      bit-exact instance for the examples.
    - [ObjectStore]: the storage trait as the class [ObjectStorage] with its laws
      [ObjectStorageLaws], and the in-memory storage that keeps them
      (s3stream-object, [storage.rs], [memory.rs]).  [Retry]: the storage that retries
      ([retry.rs]).  [WalFactory]: bucket and log URIs, the adapter over a backend, and the log
      factory ([storage.rs]; s3stream-wal, [object/config.rs], [factory.rs]).
    - [ObjectFormat], [ObjectIO], [Composite]: metadata, keys, block index and data blocks,
      the object writer and reader, composite objects ([metadata.rs], [index.rs],
      [writer.rs], [reader.rs], [composite.rs]).
    - [WalFormat], [WalWriter], [WalWriterInv], [WalSafety], [WalAcks], [WalRecover]: the object
      log (s3stream-wal, [object/*.rs]): headers, keys, reservations, the writer as a state
      machine over its queues, recovery and range reads.  [WalMemory]: the in-memory log.
    - [LogCache], [LogCacheProofs]: the in-memory twin of the log ([cache/log_cache.rs]).
    - [Metadata]: the stream and object registry ([manager.rs], [memory.rs]), whose trait is the
      class [ObjectManager] of [Upload] and [StreamManager] of [Startup].
    - [Upload], [Storage], [StorageSafety], [StorageRuns], [StorageDurable]: the upload task and the
      storage pipeline ([storage/upload.rs], [storage/s3_storage.rs]).
    - [StorageRecovery], [Startup], [CrashSafety], [Failover]: recovery of the log into objects, startup,
      crash safety, and failover by another node ([storage/recovery.rs], [failover.rs]).
    - [CompactPlan], [CompactExec], [Compaction], [CompactionSafety]: planning, executing and
      committing a compaction round ([compact/plan.rs], [executor.rs], [mod.rs]).
      [StreamCompactor], [StreamCompactorSafety]: compaction of the objects of one stream, by
      copying and by composite objects ([compact/stream_compactor.rs]).
    - [BlockCache]: the direct cold read and [wanted], the contract of every cold read
      ([cache/block_cache.rs]).
    - [Tasks]: asynchronous tasks as trees of atomic slices, with a rely-guarantee calculus.
      [DataBlockCache], [DataBlockSafety], [DataBlockProgress]: the block cache and its size limiter;
      [StreamReader], [StreamReaderSound], [StreamReaderTotal], [CachedRead]: readers with
      readahead over it, and their registry ([cache/blockcache/*.rs]).  The [lru] crate is the
      class [LruCache], with its documented laws and a list instance.
    - [SnapshotRead], [SnapshotSafety]: the cache of another node's streams, fed by replays of
      its log and objects ([cache/snapshot_read.rs]).
    - [RangeIndex]: the node's sparse range index ([index.rs]).
    - [Stream]: the stream facade ([stream.rs]) with its concurrent calls.  [StreamClient]: the
      registry of open streams over it ([stream_client.rs]).
    - [Throttle]: the bandwidth limiter ([throttle.rs]).
    - [Collections]: strings, stable sorting, ordered maps and binary search of the standard library.

    ** How the code is rendered

    State is a record per struct, operations are functions on it, and whatever the source
    does under one lock or between two suspension points is one function.  Concurrency is
    a step relation or a list of events over such functions, so that every theorem about
    runs holds for every interleaving.  [Result] is [result]; the outer [option] is [None]
    for a panic, a failed assertion, a blocked task, or exhausted fuel.  Integers are [Z]
    with the wrap-around of release builds written out ([u64], [i32], ...); [usize] has 64
    bits.  A byte is a [Z] below 256.  [BTreeMap] and [HashMap] are [gmap], read in key order
    where the source's order is fixed.  The clock is an argument, the text of an error is
    dropped.

    ** What the theorems show

    - Nothing acknowledged is lost: [crash_recovery_keeps_acked], [failover_keeps_acked],
      [storage_acked_readable], [wal_acked_readable], [wal_recovery_exact],
      [compaction_keeps_records].  A failover fences the node it takes over:
      [failover_fences_dead_node].
    - The log is trimmed only past committed data and acknowledges in order and once:
      [storage_trim_safe], [wal_confirm_in_order], [wal_acks_exactly_once].
    - Reads return what was written: [log_cache_get], [object_write_read_roundtrip]; a cold
      read returns exactly what its contract names, directly ([direct_read_exact]) and through
      the cache ([cached_read_sound], [cached_read_returns], [read_path_keeps_sound]).
    - The block cache accounts for its memory, and its loads come to rest with none waiting:
      [block_cache_balanced], [block_cache_wakes].
    - The snapshot-read cache follows the streams it is fed and replays a log in order:
      [snapshot_put_refines], [wal_replay_in_order].
    - The stream facade: [stream_offsets_exact], [trim_waits_for_fetches],
      [graceful_close_drains]; [facade_history_continuous] discharges the assumption of the
      crash theorem that streams are appended to without gaps.  The client over it:
      [client_shutdown_final].
    - Storage calls are retried without harm, and a timeout ends them: [retried_write_durable],
      [write_timeout_terminates].  A log URI means what it says: [wal_uri_roundtrip].
    - Compaction keeps what can be read: [compaction_keeps_records],
      [stream_compaction_keeps_records], [composite_compaction_keeps_blocks].
    - The range index and the limiter: [range_index_tracks_commits], [limiter_no_starvation].
    - Behaviour the code does not intend: [prepare_failure_trims_uncommitted],
      [force_upload_ignores_failed_commit], [object_replay_slot_shift],
      [failed_object_blocks_replay], [shutdown_misses_opening]; and by example,
      [clear_stream_double_release], [composite_seen_as_plain], [late_push_starves].

    ** Fuel

    Loops that are not structural take fuel, and each has a lemma that the amount passed
    is enough: one unit per record for log recovery, per candidate pair for block merging,
    per block and builder for planning, per group for forced splits, per range and stream
    for eviction, per megabyte for the limiter's drain, per offset for the loops of a cold
    read, per queued object for an object replay.  The theorems conclude that the operation
    returns.

    ** Not modelled

    The storage takes the cold read as a parameter.  Above [Retry], storage writes complete
    (without a timeout the code retries them until they do); reads may fail.  The multipart
    upload of the [object_store] crate is left out, and so are the permits that bound the
    storage calls in flight, but for the time a call waits for one.  Futures run to their
    end: a caller that drops one halfway is not modelled.  The block cache takes the locks of
    its shards one after the other in an eviction, and counts a reader down before it takes
    one; each is one step here.
    Metrics, logging, configuration and the wiring in the [s3stream] crate have no state
    of interest.  Rate limits, timers and throttles only delay the operations they guard. *)

From stdpp Require Export base list gmap sorting.
From Stdlib Require Export ZArith Lia ZifyBool ZifyNat ZifyInst.
#[global] Open Scope Z_scope.

(** ** Results: Rust's [Result<A, E>] and the [?] operator *)

Inductive result (E A : Type) : Type :=
| Ok (a : A)
| Err (e : E).
Arguments Ok {E A} a.
Arguments Err {E A} e.

Declare Scope s3_scope.
Delimit Scope s3_scope with s3.
#[global] Open Scope s3_scope.

Notation "'let?' x := e 'in' k" :=
  (match e with Ok x => k | Err err => Err err end)
  (at level 10, x pattern, e at level 200, k at level 200,
   format "'let?'  x  :=  e  'in' '//' k") : s3_scope.
Notation "'let*' x := e 'in' k" :=
  (match e with Some x => k | None => None end)
  (at level 10, x pattern, e at level 200, k at level 200,
   format "'let*'  x  :=  e  'in' '//' k") : s3_scope.

Definition is_ok {E A} (r : result E A) : bool :=
  match r with Ok _ => true | Err _ => false end.

Definition map_err {E F A} (f : E → F) (r : result E A) : result F A :=
  match r with Ok a => Ok a | Err e => Err (f e) end.

(** ** Machine integers

    A [uN] value is a [Z] in [0, 2^N); an [iN] value a [Z] in
    [-2^(N-1), 2^(N-1)).  Casts ([as u32], ...) and the arithmetic of the
    release profile wrap, and the wrap is written out. *)

Definition wrap_u (w z : Z) : Z := z mod 2 ^ w.
Definition wrap_i (w z : Z) : Z := (z + 2 ^ (w - 1)) mod 2 ^ w - 2 ^ (w - 1).

Definition u8 : Z → Z := wrap_u 8.
Definition u16 : Z → Z := wrap_u 16.
Definition u32 : Z → Z := wrap_u 32.
Definition u64 : Z → Z := wrap_u 64.
Definition i16 : Z → Z := wrap_i 16.
Definition i32 : Z → Z := wrap_i 32.
Definition i64 : Z → Z := wrap_i 64.

Definition in_u (w z : Z) : Prop := 0 ≤ z < 2 ^ w.
Definition in_i (w z : Z) : Prop := - 2 ^ (w - 1) ≤ z < 2 ^ (w - 1).
Abbreviation is_u8 := (in_u 8).
Abbreviation is_u16 := (in_u 16).
Abbreviation is_u32 := (in_u 32).
Abbreviation is_u64 := (in_u 64).
Abbreviation is_i16 := (in_i 16).
Abbreviation is_i32 := (in_i 32).
Abbreviation is_i64 := (in_i 64).

Definition U64_MAX : Z := 2 ^ 64 - 1.
Definition I32_MAX : Z := 2 ^ 31 - 1.

(** [saturating_sub] on unsigned operands. *)
Definition sat_sub (a b : Z) : Z := Z.max 0 (a - b).

#[export] Instance in_u_dec w z : Decision (in_u w z).
Proof. unfold in_u. apply _. Defined.
#[export] Instance in_i_dec w z : Decision (in_i w z).
Proof. unfold in_i. apply _. Defined.

(** Unfold every machine-integer wrapper, then let [lia] do the rest. *)
Ltac unfold_ints :=
  unfold u8, u16, u32, u64, i16, i32, i64, wrap_u, wrap_i, in_u, in_i,
    U64_MAX, I32_MAX, sat_sub in *;
  change (64 - 1) with 63 in *; change (32 - 1) with 31 in *;
  change (16 - 1) with 15 in *; change (8 - 1) with 7 in *;
  change (2 ^ 64) with 18446744073709551616 in *;
  change (2 ^ 63) with 9223372036854775808 in *;
  change (2 ^ 32) with 4294967296 in *;
  change (2 ^ 31) with 2147483648 in *;
  change (2 ^ 16) with 65536 in *;
  change (2 ^ 15) with 32768 in *;
  change (2 ^ 8) with 256 in *;
  change (2 ^ 7) with 128 in *.
Ltac int_lia := unfold_ints; Z.div_mod_to_equations; lia.

Lemma wrap_u_small w z : in_u w z → wrap_u w z = z.
Proof. apply Z.mod_small. Qed.
Lemma u8_small z : is_u8 z → u8 z = z.
Proof. apply wrap_u_small. Qed.
Lemma u32_small z : is_u32 z → u32 z = z.
Proof. apply wrap_u_small. Qed.
Lemma u64_small z : is_u64 z → u64 z = z.
Proof. apply wrap_u_small. Qed.
Lemma i32_small z : is_i32 z → i32 z = z.
Proof. int_lia. Qed.
Lemma i64_small z : is_i64 z → i64 z = z.
Proof. int_lia. Qed.
Lemma i16_small z : is_i16 z → i16 z = z.
Proof. int_lia. Qed.
Lemma i32_u32 z : i32 (u32 z) = i32 z.
Proof. int_lia. Qed.
Lemma i64_u64 z : i64 (u64 z) = i64 z.
Proof. int_lia. Qed.
Lemma i16_u16 z : i16 (u16 z) = i16 z.
Proof. int_lia. Qed.
Lemma u64_i64 z : u64 (i64 z) = u64 z.
Proof. int_lia. Qed.
Lemma u32_u64 z : u32 (u64 z) = u32 z.
Proof. int_lia. Qed.
Lemma wrap_u_range w z : 0 ≤ w → in_u w (wrap_u w z).
Proof. intros. apply Z.mod_pos_bound. lia. Qed.
Lemma u64_range z : is_u64 (u64 z).
Proof. apply wrap_u_range. lia. Qed.
Lemma u32_range z : is_u32 (u32 z).
Proof. apply wrap_u_range. lia. Qed.

Lemma i32_range z : is_i32 (i32 z).
Proof. int_lia. Qed.
Lemma i64_range z : is_i64 (i64 z).
Proof. int_lia. Qed.

Create HintDb s3.
#[export] Hint Resolve u64_range u32_range i32_range i64_range u8_small u32_small u64_small
  i32_small i64_small i16_small : s3.
#[export] Hint Extern 4 (in_u _ _) => int_lia : s3.
#[export] Hint Extern 4 (in_i _ _) => int_lia : s3.

(** ** Byte strings

    [bytes::Bytes], [Vec<u8>] and [[u8]] are lists of [Z] in [0, 256).
    Lengths are taken in [Z] so that they mix with machine integers. *)

Abbreviation bytes := (list Z).
Definition is_bytes (l : bytes) : Prop := Forall is_u8 l.

Abbreviation len l := (Z.of_nat (length l)).

(** [buf[a..b]]: the callers' guards keep [a <= b <= buf.len()]. *)
Definition slice {A} (a b : Z) (l : list A) : list A :=
  take (Z.to_nat (b - a)) (drop (Z.to_nat a) l).

(** [take(n)]; the minimum keeps a large [n] small. *)
Definition takeZ {A} (n : Z) (l : list A) : list A := take (Z.to_nat (Z.min n (len l))) l.
Definition dropZ {A} (n : Z) (l : list A) : list A := drop (Z.to_nat n) l.

Lemma takeZ_take {A} n (l : list A) : takeZ n l = take (Z.to_nat n) l.
Proof.
  unfold takeZ. destruct (Z.le_ge_cases n (len l)); [by rewrite Z.min_l by lia|].
  rewrite Z.min_r by lia. rewrite !take_ge by lia. done.
Qed.

(** Big-endian encodings: [put_u64], [to_be_bytes] and their inverses. *)
Fixpoint be (n : nat) (z : Z) : bytes :=
  match n with
  | O => []
  | S n' => be n' (z / 256) ++ [z mod 256]
  end.

Definition unbe (l : bytes) : Z := foldl (λ a b, a * 256 + b) 0 l.

(** [uN::from_be_bytes(buf[pos..pos + n])]. *)
Definition read_be (pos n : nat) (l : bytes) : Z := unbe (take n (drop pos l)).

Lemma length_be n z : length (be n z) = n.
Proof. revert z; induction n as [|n IH]; intros z; [done|]. simpl. rewrite length_app, IH. simpl. lia. Qed.

Lemma unbe_snoc l b : unbe (l ++ [b]) = unbe l * 256 + b.
Proof. unfold unbe. by rewrite foldl_app. Qed.

Lemma unbe_be n z : unbe (be n z) = z mod 2 ^ (8 * Z.of_nat n).
Proof.
  revert z; induction n as [|n IH]; intros z.
  - simpl. by rewrite Z.mod_1_r.
  - cbn [be]. rewrite unbe_snoc, IH.
    replace (8 * Z.of_nat (S n)) with (8 + 8 * Z.of_nat n) by lia.
    rewrite Z.pow_add_r by lia. change (2 ^ 8) with 256.
    rewrite Z.rem_mul_r by lia. lia.
Qed.

Lemma be_is_bytes n z : is_bytes (be n z).
Proof.
  revert z; induction n as [|n IH]; intros z; [constructor|].
  apply Forall_app_2; [apply IH|]. repeat constructor; int_lia.
Qed.

Lemma unbe_range l : is_bytes l → 0 ≤ unbe l < 2 ^ (8 * len l).
Proof.
  induction l as [|b l IH] using rev_ind; intros Hl; [done|].
  apply Forall_app in Hl as [Hl Hb]. rewrite Forall_singleton in Hb.
  rewrite unbe_snoc, length_app. simpl length.
  replace (8 * Z.of_nat (length l + 1)) with (8 + 8 * len l) by lia.
  rewrite Z.pow_add_r by lia. specialize (IH Hl). unfold_ints. nia.
Qed.

Lemma be_unbe l : is_bytes l → be (length l) (unbe l) = l.
Proof.
  induction l as [|b l IH] using rev_ind; intros Hl; [done|].
  apply Forall_app in Hl as [Hl Hb]. rewrite Forall_singleton in Hb.
  rewrite unbe_snoc, length_app, Nat.add_comm. cbn [be Nat.add length].
  assert ((unbe l * 256 + b) / 256 = unbe l) as -> by int_lia.
  assert ((unbe l * 256 + b) mod 256 = b) as -> by int_lia.
  by rewrite IH.
Qed.

Lemma be_inj n a b :
  0 ≤ a < 2 ^ (8 * Z.of_nat n) → 0 ≤ b < 2 ^ (8 * Z.of_nat n) →
  be n a = be n b → a = b.
Proof.
  intros Ha Hb H. apply (f_equal unbe) in H. rewrite !unbe_be in H.
  by rewrite !Z.mod_small in H by done.
Qed.

Lemma unbe_be1 z : unbe (be 1 z) = u8 z.
Proof. apply unbe_be. Qed.
Lemma unbe_be2 z : unbe (be 2 z) = u16 z.
Proof. apply unbe_be. Qed.
Lemma unbe_be4 z : unbe (be 4 z) = u32 z.
Proof. apply unbe_be. Qed.
Lemma unbe_be8 z : unbe (be 8 z) = u64 z.
Proof. apply unbe_be. Qed.

Lemma read_be_skip pos n a b :
  (length a ≤ pos)%nat → read_be pos n (a ++ b) = read_be (pos - length a) n b.
Proof. intros. unfold read_be. by rewrite drop_app_ge. Qed.

Lemma read_be_here n a b : length a = n → read_be 0 n (a ++ b) = unbe a.
Proof. intros <-. unfold read_be. by rewrite drop_0, take_app_length. Qed.

Lemma read_be_all n a : length a = n → read_be 0 n a = unbe a.
Proof. intros. rewrite <- (app_nil_r a) at 1. by apply read_be_here. Qed.

Lemma is_bytes_take n l : is_bytes l → is_bytes (take n l).
Proof. apply Forall_take. Qed.
Lemma is_bytes_drop n l : is_bytes l → is_bytes (drop n l).
Proof. apply Forall_drop. Qed.
Lemma is_bytes_app l k : is_bytes l → is_bytes k → is_bytes (l ++ k).
Proof. intros; by apply Forall_app_2. Qed.

Lemma read_be_range pos n l :
  is_bytes l → 0 ≤ read_be pos n l < 2 ^ (8 * Z.of_nat n).
Proof.
  intros Hl. unfold read_be.
  pose proof (unbe_range (take n (drop pos l)) (is_bytes_take _ _ (is_bytes_drop _ _ Hl))) as [? H].
  split; [done|]. eapply Z.lt_le_trans; [exact H|].
  apply Z.pow_le_mono_r; [lia|]. rewrite length_take. lia.
Qed.

(** [read_fields] evaluates every [read_be] of a buffer written as a
    right-nested concatenation of fixed-width fields. *)
Ltac len_solve :=
  rewrite ?length_app, ?length_be, ?length_replicate; simpl; lia.
Ltac read_fields :=
  repeat first
    [ rewrite read_be_here by (rewrite ?length_be, ?length_replicate; reflexivity)
    | rewrite read_be_all by (rewrite ?length_be; reflexivity)
    | rewrite read_be_skip by len_solve;
      rewrite ?length_be, ?length_replicate; cbn [Nat.sub length Nat.add] ];
  rewrite ?unbe_be1, ?unbe_be2, ?unbe_be4, ?unbe_be8.

#[global] Arguments be : simpl never.
#[global] Arguments unbe : simpl never.

#[export] Hint Resolve be_is_bytes is_bytes_app is_bytes_take is_bytes_drop : s3.
Create Rewrite HintDb s3_len.
#[export] Hint Rewrite length_be @length_app @length_replicate : s3_len.

Lemma slice_app_skip {A} a b (l k : list A) :
  len l ≤ a → a ≤ b → slice a b (l ++ k) = slice (a - len l) (b - len l) k.
Proof.
  intros. unfold slice. rewrite drop_app_ge by lia.
  f_equal; [lia|]. f_equal. lia.
Qed.

Lemma slice_0_all {A} (l : list A) : slice 0 (len l) l = l.
Proof. unfold slice. rewrite drop_0, take_ge by lia. done. Qed.

Lemma slice_app_here {A} (l k : list A) : slice 0 (len l) (l ++ k) = l.
Proof. unfold slice. rewrite drop_0, take_app_length' by lia. done. Qed.

Lemma length_slice {A} a b (l : list A) :
  0 ≤ a ≤ b → b ≤ len l → len (slice a b l) = b - a.
Proof. intros. unfold slice. rewrite length_take, length_drop. lia. Qed.

(** The middle of a concatenation. *)
Lemma slice_middle {A} (p m s : list A) a b :
  a = len p → b = a + len m → slice a b (p ++ m ++ s) = m.
Proof.
  intros -> ->. rewrite slice_app_skip by lia.
  replace (len p - len p) with 0 by lia.
  replace (len p + len m - len p) with (len m) by lia. apply slice_app_here.
Qed.

Lemma slice_suffix {A} (p m : list A) a b :
  a = len p → b = a + len m → slice a b (p ++ m) = m.
Proof. intros. rewrite <- (app_nil_r m) at 1. by apply slice_middle. Qed.

Lemma be_read_be pos n l :
  is_bytes l → (pos + n ≤ length l)%nat → be n (read_be pos n l) = take n (drop pos l).
Proof.
  intros Hl Hn. unfold read_be.
  rewrite <- (be_unbe (take n (drop pos l))) at 2 by auto with s3.
  f_equal. rewrite length_take, length_drop. lia.
Qed.

(** Glue adjacent windows of a buffer back together. *)
Lemma window_drop {A} (l : list A) a b n :
  b = (a + n)%nat → take n (drop a l) ++ drop b l = drop a l.
Proof. intros ->. rewrite <- drop_drop. apply take_drop. Qed.

Lemma window_nil {A} (l : list A) a n :
  length l = (a + n)%nat → take n (drop a l) = drop a l.
Proof. intros. apply take_ge. rewrite length_drop. lia. Qed.

(** Decide the outermost [if] of the goal by arithmetic. *)
Ltac if_false :=
  match goal with |- context [if ?c then _ else _] => replace c with false by lia; cbv iota end.
Ltac if_true :=
  match goal with |- context [if ?c then _ else _] => replace c with true by lia; cbv iota end.

(** Split the outermost [if]/[match] guard of a hypothesis. *)
Ltac split_if H :=
  match type of H with
  | context [if ?c then _ else _] => let E := fresh "E" in destruct c eqn:E
  end.

(** ** Lists *)

Lemma filter_none {A} (P : A → Prop) `{∀ x, Decision (P x)} (l : list A) :
  (∀ x, x ∈ l → ¬ P x) → filter P l = [].
Proof.
  induction l as [|x l IH]; intros Hl; [done|]. rewrite filter_cons_False by (apply Hl; left).
  apply IH. intros y Hy. apply Hl. by right.
Qed.

Lemma filter_all {A} (P : A → Prop) `{∀ x, Decision (P x)} (l : list A) :
  (∀ x, x ∈ l → P x) → filter P l = l.
Proof.
  induction l as [|x l IH]; intros Hl; [done|]. rewrite filter_cons_True by (apply Hl; left).
  f_equal. apply IH. intros y Hy. apply Hl. by right.
Qed.

Lemma StronglySorted_filter {A} (R : relation A) (P : A → Prop) `{∀ x, Decision (P x)} l :
  StronglySorted R l → StronglySorted R (filter P l).
Proof.
  induction 1 as [|x l Hs IH Hx]; [constructor|]. rewrite filter_cons.
  destruct (decide (P x)); [|done]. constructor; [done|].
  rewrite Forall_forall in Hx |- *. intros y [_ Hy]%list_elem_of_filter. by apply Hx.
Qed.

(** Distinct images under [f] give distinct images under a finer [g]. *)
Lemma NoDup_fmap_transfer {X Y W} (f : X → Y) (g : X → W) (l : list X) :
  NoDup (f <$> l) → (∀ x y, x ∈ l → y ∈ l → g x = g y → f x = f y) → NoDup (g <$> l).
Proof.
  induction l as [|x l IH]; intros Hn Hg; [constructor|]. cbn in *.
  apply NoDup_cons in Hn as [Hx Hn]. constructor.
  - intros (y & E & Hy)%list_elem_of_fmap. apply Hx. apply list_elem_of_fmap. exists y.
    split; [|done]. apply Hg; [left|by right|done].
  - apply IH; [done|]. intros y z Hy Hz. apply Hg; by right.
Qed.

Lemma StronglySorted_lookup {X} (R : relation X) l i j a b :
  StronglySorted R l → (i < j)%nat → l !! i = Some a → l !! j = Some b → R a b.
Proof.
  intros Hs. revert i j. induction Hs as [|x l Hs IH Hx]; intros [|i] [|j] Hij Ha Hb; try (done || lia).
  - simplify_eq/=. rewrite Forall_lookup in Hx. by eapply Hx.
  - eapply (IH i j); [lia|done..].
Qed.

Lemma StronglySorted_sublist {A} (R : relation A) l k : sublist l k → StronglySorted R k → StronglySorted R l.
Proof.
  induction 1 as [|x l k Hsub IH|x l k Hsub IH]; [done|..]; intros [Hx Hs]%StronglySorted_cons.
  - constructor; [by apply IH|]. eapply Forall_forall. intros y Hy. rewrite Forall_forall in Hx. apply Hx.
    by eapply elem_of_submseteq; [|apply sublist_submseteq].
  - by apply IH.
Qed.

Lemma filter_sublist {A} (P : A → Prop) `{∀ x, Decision (P x)} (l : list A) : sublist (filter P l) l.
Proof. induction l as [|x l IH]; [constructor|]. rewrite filter_cons. case_decide; by constructor. Qed.
