(* ===== verification/Collections.v ===== *)
(** * Strings, stable sorting, and ordered maps

    What the sources use of [std]: a [String] is its UTF-8 bytes, decimal
    formatting and [str::parse], [split], [split_once], the stable [sort_by],
    and [BTreeMap] as a finite map with an ordered view. *)
From S2P Require Import Prelude.
From Stdlib Require Ascii String.
Export String.StringSyntax.

(** ** Strings as bytes *)

Fixpoint str (s : String.string) : bytes :=
  match s with
  | String.EmptyString => []
  | String.String c s' => Z.of_N (Ascii.N_of_ascii c) :: str s'
  end.

#[global] Arguments str s%_string_scope.

Definition SLASH : Z := 47.
Definition DASH : Z := 45.

(** [format!("{z}")] of an unsigned integer, at most [fuel] digits; twenty
    are enough for a [u64]. *)
Fixpoint dec_digits (fuel : nat) (z : Z) : bytes :=
  match fuel with
  | O => []
  | S f => if z <? 10 then [48 + z] else dec_digits f (z / 10) ++ [48 + z mod 10]
  end.
Definition dec (z : Z) : bytes := dec_digits 20 z.

Definition is_digit (b : Z) : bool := (48 <=? b) && (b <=? 57).

Fixpoint parse_digits (acc : Z) (s : bytes) : option Z :=
  match s with
  | [] => Some acc
  | b :: s' =>
      if is_digit b then
        let acc' := acc * 10 + (b - 48) in
        if acc' <? 2 ^ 64 then parse_digits acc' s' else None
      else None
  end.

(** [str::parse::<u64>]: one optional [+], then at least one digit, no overflow. *)
Definition parse_u64 (s : bytes) : option Z :=
  match s with
  | [] => None
  | [43] => None
  | 43 :: s' => parse_digits 0 s'
  | _ => parse_digits 0 s
  end.

(** [s.split(c)]: the pieces between separators, always at least one. *)
Fixpoint split_on (c : Z) (s : bytes) : list bytes :=
  match s with
  | [] => [[]]
  | b :: s' =>
      if b =? c then [] :: split_on c s'
      else match split_on c s' with
           | [] => [[b]]
           | p :: ps => (b :: p) :: ps
           end
  end.

(** [s.split_once(c)]: around the first separator. *)
Fixpoint split_once (c : Z) (s : bytes) : option (bytes * bytes) :=
  match s with
  | [] => None
  | b :: s' =>
      if b =? c then Some ([], s')
      else match split_once c s' with
           | Some (p, q) => Some (b :: p, q)
           | None => None
           end
  end.

Fixpoint starts_with (p s : bytes) : bool :=
  match p, s with
  | [], _ => true
  | _, [] => false
  | a :: p', b :: s' => (a =? b) && starts_with p' s'
  end.

Lemma dec_digits_props fuel z :
  0 ≤ z < 10 ^ Z.of_nat fuel → (0 < fuel)%nat →
  dec_digits fuel z ≠ [] ∧ Forall (λ b, is_digit b = true) (dec_digits fuel z).
Proof.
  revert z; induction fuel as [|f IH]; intros z Hz Hf; [lia|]. cbn [dec_digits].
  destruct (z <? 10) eqn:E.
  - split; [done|]. repeat constructor. unfold is_digit. lia.
  - assert (0 < f)%nat.
    { destruct f; [|lia]. change (10 ^ Z.of_nat 1) with 10 in Hz. lia. }
    rewrite Nat2Z.inj_succ, Z.pow_succ_r in Hz by lia.
    destruct (IH (z / 10)) as [H1 H2]; [Z.div_mod_to_equations; lia|done|].
    split; [by destruct (dec_digits f (z / 10))|].
    apply Forall_app; split; [done|]. repeat constructor.
    unfold is_digit. Z.div_mod_to_equations. lia.
Qed.

Lemma parse_digits_app acc a s :
  Forall (λ b, is_digit b = true) s →
  parse_digits acc (a ++ s)
  = match parse_digits acc a with Some acc' => parse_digits acc' s | None => None end.
Proof.
  intros _. revert acc; induction a as [|b a IH]; intros acc; simpl; [done|].
  destruct (is_digit b); [|done]. by destruct (_ <? _).
Qed.

Lemma parse_digits_dec fuel z :
  0 ≤ z < 2 ^ 64 → z < 10 ^ Z.of_nat fuel → parse_digits 0 (dec_digits fuel z) = Some z.
Proof.
  revert z; induction fuel as [|f IH]; intros z Hz Hf.
  - change (10 ^ Z.of_nat 0) with 1 in Hf. simpl. f_equal. lia.
  - cbn [dec_digits]. destruct (z <? 10) eqn:E.
    + cbn [parse_digits]. unfold is_digit. if_true. if_true. f_equal. lia.
    + rewrite parse_digits_app
        by (repeat constructor; unfold is_digit; Z.div_mod_to_equations; lia).
      rewrite Nat2Z.inj_succ, Z.pow_succ_r in Hf by lia.
      rewrite IH by (Z.div_mod_to_equations; lia). cbn [parse_digits].
      unfold is_digit. replace (_ && _) with true by (Z.div_mod_to_equations; lia).
      cbv iota. replace (_ <? _) with true by (Z.div_mod_to_equations; lia).
      cbv iota. f_equal. Z.div_mod_to_equations. lia.
Qed.

Lemma dec_props z :
  is_u64 z → dec z ≠ [] ∧ Forall (λ b, is_digit b = true) (dec z).
Proof.
  intros. apply dec_digits_props; [|lia]. unfold_ints.
  change (10 ^ Z.of_nat 20) with 100000000000000000000. lia.
Qed.

Lemma parse_u64_dec z : is_u64 z → parse_u64 (dec z) = Some z.
Proof.
  intros Hz. destruct (dec_props z Hz) as [Hne Hd].
  assert (parse_digits 0 (dec z) = Some z) as Hp.
  { apply parse_digits_dec; [done|]. unfold_ints.
    change (10 ^ Z.of_nat 20) with 100000000000000000000. lia. }
  destruct (dec z) as [|b s]; [done|]. apply Forall_cons in Hd as [Hb _].
  unfold parse_u64, is_digit in *.
  destruct (decide (b = 43)) as [->|Hne43]; [done|].
  destruct b as [|p|p]; try done.
  by repeat (destruct p as [p|p|]; try done).
Qed.

Lemma dec_no_sep c z :
  is_u64 z → is_digit c = false → c ∉ dec z.
Proof.
  intros Hz Hc Hin. destruct (dec_props z Hz) as [_ Hd].
  rewrite Forall_forall in Hd. specialize (Hd c Hin). congruence.
Qed.

Lemma split_on_app c a b :
  c ∉ a → split_on c (a ++ c :: b) = a :: split_on c b.
Proof.
  induction a as [|x a IH]; intros Hc; simpl.
  - by rewrite Z.eqb_refl.
  - apply not_elem_of_cons in Hc as [Hx Hc]. rewrite (proj2 (Z.eqb_neq x c)) by done.
    by rewrite IH.
Qed.

Lemma split_on_none c a : c ∉ a → split_on c a = [a].
Proof.
  induction a as [|x a IH]; intros Hc; simpl; [done|].
  apply not_elem_of_cons in Hc as [Hx Hc]. rewrite (proj2 (Z.eqb_neq x c)) by done.
  by rewrite IH.
Qed.

Lemma split_on_app_last c a b :
  c ∉ b → ∃ ps, split_on c (a ++ c :: b) = ps ++ [b] ∧ ps ≠ [].
Proof.
  intros Hb. induction a as [|x a (ps & Hps & Hne)]; simpl.
  - rewrite Z.eqb_refl, split_on_none by done. by exists [[]].
  - rewrite Hps. destruct (x =? c); [by exists ([] :: ps)|].
    destruct ps as [|p ps]; [done|]. by exists ((x :: p) :: ps).
Qed.

Lemma split_once_app c a b : c ∉ a → split_once c (a ++ c :: b) = Some (a, b).
Proof.
  induction a as [|x a IH]; intros Hc; simpl.
  - by rewrite Z.eqb_refl.
  - apply not_elem_of_cons in Hc as [Hx Hc]. rewrite (proj2 (Z.eqb_neq x c)) by done.
    by rewrite IH.
Qed.

Lemma starts_with_app p s : starts_with p (p ++ s) = true.
Proof. induction p as [|x p IH]; simpl; [done|]. by rewrite Z.eqb_refl. Qed.

Lemma starts_with_spec p s : starts_with p s = true ↔ ∃ s', s = p ++ s'.
Proof.
  split.
  - revert s; induction p as [|x p IH]; intros s; [by exists s|].
    destruct s as [|y s]; [done|]. simpl. intros [Hxy Hs]%andb_true_iff.
    apply Z.eqb_eq in Hxy as ->. destruct (IH s Hs) as [s' ->]. by exists s'.
  - intros [s' ->]. apply starts_with_app.
Qed.

(** ** Stable sorting

    [slice::sort_by] is stable; so is insertion from the right. *)

Section Sort.
Context {A : Type} (le : A → A → bool).

Fixpoint insert_by (x : A) (l : list A) : list A :=
  match l with
  | [] => [x]
  | y :: l' => if le x y then x :: y :: l' else y :: insert_by x l'
  end.

Definition sort_by (l : list A) : list A := foldr insert_by [] l.

Lemma insert_by_perm x l : insert_by x l ≡ₚ x :: l.
Proof.
  induction l as [|y l IH]; simpl; [done|]. destruct (le x y); [done|].
  rewrite IH. constructor.
Qed.

Lemma sort_by_perm l : sort_by l ≡ₚ l.
Proof. induction l as [|x l IH]; simpl; [done|]. by rewrite insert_by_perm, IH. Qed.

Lemma length_sort_by l : length (sort_by l) = length l.
Proof. apply Permutation_length, sort_by_perm. Qed.

Lemma elem_of_sort_by x l : x ∈ sort_by l ↔ x ∈ l.
Proof. by rewrite sort_by_perm. Qed.

(** On a sorted list nothing moves. *)
Lemma sort_by_id l : StronglySorted (λ x y, le x y = true) l → sort_by l = l.
Proof.
  induction 1 as [|x l Hs IH Hx]; [done|]. simpl. rewrite IH.
  destruct l as [|y l]; [done|]. apply Forall_cons in Hx as [Hxy _]. simpl. by rewrite Hxy.
Qed.

Hypothesis le_total : ∀ x y, le x y = true ∨ le y x = true.
Hypothesis le_trans : ∀ x y z, le x y = true → le y z = true → le x z = true.

Lemma insert_by_sorted x l :
  StronglySorted (λ x y, le x y = true) l →
  StronglySorted (λ x y, le x y = true) (insert_by x l).
Proof.
  induction 1 as [|y l Hs IH Hy]; simpl; [by repeat constructor|].
  destruct (le x y) eqn:E.
  - constructor; [by constructor|]. constructor; [done|].
    eapply Forall_impl; [exact Hy|]. intros z ?. by eapply le_trans.
  - constructor; [done|]. rewrite insert_by_perm. constructor; [|done].
    destruct (le_total x y); congruence.
Qed.

Lemma sort_by_sorted l : StronglySorted (λ x y, le x y = true) (sort_by l).
Proof. induction l as [|x l IH]; simpl; [constructor|]. by apply insert_by_sorted. Qed.
End Sort.

(** ** BTreeMap

    A [BTreeMap<u64, V>] is a [gmap Z V]; iteration goes through the
    key-ordered view [entries]. *)

Section OrderedView.
Context {V : Type}.
Implicit Types m : gmap Z V.

Definition key_le (p q : Z * V) : bool := p.1 <=? q.1.
Definition entries m : list (Z * V) := sort_by key_le (map_to_list m).
Definition keys m : list Z := (entries m).*1.
Definition values m : list V := (entries m).*2.

(** [m.range(..=hi).next_back()] and [m.iter().next_back()]. *)
Definition floor_entry (hi : Z) m : option (Z * V) :=
  last (filter (λ p, p.1 <= hi) (entries m)).
Definition last_entry m : option (Z * V) := last (entries m).

(** [m.range(lo..hi)]. *)
Definition range (lo hi : Z) m : list (Z * V) :=
  filter (λ p, lo <= p.1 ∧ p.1 < hi) (entries m).
(** [m.range(..=hi)]. *)
Definition range_to_incl (hi : Z) m : list (Z * V) :=
  filter (λ p, p.1 <= hi) (entries m).

Lemma elem_of_entries m k v : (k, v) ∈ entries m ↔ m !! k = Some v.
Proof. unfold entries. rewrite elem_of_sort_by. apply elem_of_map_to_list. Qed.

Lemma entries_perm m : entries m ≡ₚ map_to_list m.
Proof. apply sort_by_perm. Qed.

Lemma entries_sorted m : StronglySorted (λ p q, key_le p q = true) (entries m).
Proof.
  apply sort_by_sorted; unfold key_le; intros; lia.
Qed.

Lemma NoDup_keys m : NoDup (keys m).
Proof. unfold keys. rewrite entries_perm. apply NoDup_fst_map_to_list. Qed.

(** The keys come out strictly increasing. *)
Lemma keys_sorted m : StronglySorted Z.lt (keys m).
Proof.
  unfold keys. pose proof (entries_sorted m) as Hs. pose proof (NoDup_keys m) as Hn.
  unfold keys in Hn. induction Hs as [|p l Hs IH Hp]; simpl; [constructor|].
  apply NoDup_cons in Hn as [Hnot Hn]. constructor; [by apply IH|].
  rewrite Forall_fmap. rewrite Forall_forall in Hp |- *. intros q Hq.
  specialize (Hp q Hq). unfold key_le in Hp. simpl.
  assert (p.1 ≠ q.1) by (intros Heq; apply Hnot; rewrite Heq; by apply list_elem_of_fmap_2).
  lia.
Qed.

Lemma elem_of_keys m k : k ∈ keys m ↔ is_Some (m !! k).
Proof.
  unfold keys. rewrite list_elem_of_fmap. split.
  - intros ([k' v] & -> & H%elem_of_entries). by exists v.
  - intros [v Hv]. exists (k, v). split; [done|]. by apply elem_of_entries.
Qed.

Lemma last_entry_spec m k v :
  last_entry m = Some (k, v) → m !! k = Some v ∧ ∀ k', is_Some (m !! k') → k' ≤ k.
Proof.
  unfold last_entry. intros Hl.
  assert ((k, v) ∈ entries m) as Hin by (by apply last_Some_elem_of).
  split; [by apply elem_of_entries|]. intros k' [v' Hv'%elem_of_entries].
  apply last_Some in Hl as [l Hl]. pose proof (entries_sorted m) as Hs. rewrite Hl in *.
  apply elem_of_app in Hv' as [Hv'|[= -> ->]%list_elem_of_singleton]; [|lia].
  apply StronglySorted_app in Hs as (Hs & _ & _).
  specialize (Hs (k', v') (k, v) Hv' (list_elem_of_here _ _)). unfold key_le in Hs. simpl in Hs. lia.
Qed.

Lemma last_entry_None m : last_entry m = None ↔ m = ∅.
Proof.
  unfold last_entry. rewrite last_None. split.
  - intros H. apply map_empty. intros k. destruct (m !! k) as [v|] eqn:E; [|done].
    apply elem_of_entries in E. rewrite H in E. by apply not_elem_of_nil in E.
  - intros ->. done.
Qed.

Lemma lookup_foldr_delete (l : list (Z * V)) m k v :
  foldr (λ p m, delete p.1 m) m l !! k = Some v ↔ m !! k = Some v ∧ k ∉ l.*1.
Proof.
  induction l as [|[k' v'] l IH]; simpl.
  - rewrite elem_of_nil. tauto.
  - rewrite lookup_delete_Some, IH, elem_of_cons. intuition congruence.
Qed.

(** A list with increasing keys and the map's entries is the ordered view. *)
Lemma entries_unique m l :
  StronglySorted Z.lt l.*1 → (∀ k v, (k, v) ∈ l ↔ m !! k = Some v) → entries m = l.
Proof.
  intros Hs Hl. assert (AntiSymm (=) (λ p q : Z * V, p.1 < q.1)) by (intros p q ? ?; exfalso; lia).
  apply (StronglySorted_unique (λ p q : Z * V, p.1 < q.1)).
  - pose proof (keys_sorted m) as Hk. unfold keys in Hk. clear -Hk.
    induction (entries m) as [|p es IH]; [constructor|]. rewrite fmap_cons in Hk. apply StronglySorted_cons in Hk as [Hp Hk].
    constructor; [by apply IH|]. by rewrite Forall_fmap in Hp.
  - clear -Hs. induction l as [|p l IH]; [constructor|]. rewrite fmap_cons in Hs. apply StronglySorted_cons in Hs as [Hp Hs].
    constructor; [by apply IH|]. by rewrite Forall_fmap in Hp.
  - apply NoDup_Permutation.
    + apply (NoDup_fmap_1 fst), (NoDup_keys m).
    + apply (NoDup_fmap_1 fst). clear -Hs. induction Hs as [|k ks Hs IH Hk]; [constructor|]. constructor; [|done].
      intros Hin. rewrite Forall_forall in Hk. specialize (Hk k Hin). lia.
    + intros [k v]. by rewrite elem_of_entries, Hl.
Qed.
End OrderedView.

Lemma NoDup_fmap_elem {A B} (f : A → B) (l : list A) x y : NoDup (f <$> l) → x ∈ l → y ∈ l → f x = f y → x = y.
Proof.
  induction l as [|a l IH]; [by intros _ ?%not_elem_of_nil|]. cbn. intros [Ha Hl]%NoDup_cons.
  intros [->|Hx]%elem_of_cons [->|Hy]%elem_of_cons E; [done|..|by apply IH];
    exfalso; apply Ha, list_elem_of_fmap; by eexists.
Qed.

(** ** Grouping

    [map.entry(f(x)).or_default().push(x)] over a list: the elements of each key, in
    list order. *)
Section GroupBy.
Context {A : Type} (f : A → Z).

Definition push_at (m : gmap Z (list A)) (x : A) : gmap Z (list A) :=
  <[f x := default [] (m !! f x) ++ [x]]> m.
Definition group_by (l : list A) : gmap Z (list A) := foldl push_at ∅ l.

Lemma group_by_snoc l x : group_by (l ++ [x]) = push_at (group_by l) x.
Proof. unfold group_by. by rewrite foldl_app. Qed.

Lemma group_by_lookup l k : default [] (group_by l !! k) = filter (λ x, f x = k) l.
Proof.
  induction l as [|x l IH] using rev_ind; [done|]. rewrite group_by_snoc, filter_app. unfold push_at.
  destruct (decide (f x = k)) as [<-|Hne].
  - rewrite lookup_insert_eq. cbn. rewrite IH. by rewrite decide_True.
  - rewrite lookup_insert_ne by done. rewrite IH. cbn. by rewrite decide_False, app_nil_r.
Qed.

Lemma group_by_Some l k g : group_by l !! k = Some g ↔ g = filter (λ x, f x = k) l ∧ g ≠ [].
Proof.
  split.
  - intros H. pose proof (group_by_lookup l k) as E. rewrite H in E. cbn in E. split; [done|].
    clear E. revert g H. induction l as [|x l IH] using rev_ind; intros g H; [unfold group_by in H; cbn [foldl] in H; by rewrite lookup_empty in H|].
    rewrite group_by_snoc in H. unfold push_at in H.
    apply lookup_insert_Some in H as [[_ <-]|[_ H]]; [by intros [_ ?]%app_eq_nil|by eapply IH].
  - intros [-> Hne]. pose proof (group_by_lookup l k) as E. destruct (group_by l !! k); cbn in E; congruence.
Qed.

Lemma group_by_perm l : concat (values (group_by l)) ≡ₚ l.
Proof.
  unfold values. rewrite entries_perm.
  induction l as [|x l IH] using rev_ind; [done|]. rewrite group_by_snoc. unfold push_at.
  destruct (group_by l !! f x) as [g|] eqn:E.
  - cbn. rewrite <- insert_delete_eq. rewrite map_to_list_insert by apply lookup_delete_eq. cbn.
    rewrite <- (insert_delete_id _ _ _ E), map_to_list_insert in IH by apply lookup_delete_eq. cbn in IH.
    rewrite <- app_assoc, (Permutation_app_comm [x]), app_assoc. by rewrite IH.
  - cbn. rewrite map_to_list_insert by done. cbn. rewrite IH. apply Permutation_cons_append.
Qed.
End GroupBy.

(** ** [slice::binary_search_by]

    The standard library's loop: halve the window, keep the half whose first element does
    not compare [Gt].  [Ok] is the index of a match, [Err] where one would be inserted. *)
Section BinarySearch.
Context {A : Type} (f : A → comparison).

Fixpoint halving (fuel : nat) (l : list A) (base size : nat) : option nat :=
  match fuel with
  | O => None
  | S fuel =>
      if (size <=? 1)%nat then Some base
      else
        let half := Nat.div2 size in
        let mid := (base + half)%nat in
        let* x := l !! mid in
        halving fuel l (match f x with Gt => base | _ => mid end) (size - half)
  end.

Definition binary_search_by (l : list A) : option (result nat nat) :=
  match l with
  | [] => Some (Err 0%nat)
  | _ =>
      let* base := halving (S (length l)) l 0 (length l) in
      let* x := l !! base in
      Some (match f x with
            | Eq => Ok base
            | Lt => Err (S base)
            | Gt => Err base
            end)
  end.

(** The elements that do not compare [Gt] are the first [k]. *)
Definition cut_at (l : list A) (k : nat) : Prop :=
  (k ≤ length l)%nat ∧ ∀ i x, l !! i = Some x → (f x ≠ Gt ↔ (i < k)%nat).

Lemma div2_bounds n : (2 ≤ n)%nat → (1 ≤ Nat.div2 n < n ∧ 2 * Nat.div2 n ≤ n)%nat.
Proof. intros Hn. pose proof (Nat.div2_odd n) as H. destruct (Nat.odd n); cbn in H; lia. Qed.

Lemma halving_spec fuel l k base size :
  cut_at l k → (size < fuel)%nat → (1 ≤ size)%nat → (base + size ≤ length l)%nat →
  (base < k)%nat ∨ base = 0%nat → (k ≤ base + size)%nat →
  halving fuel l base size = Some (pred k).
Proof.
  intros [Hk Hcut]. revert base size; induction fuel as [|fuel IH]; intros base size Hf Hs Hb Hlo Hhi; [lia|]. cbn [halving].
  destruct (size <=? 1)%nat eqn:E; [f_equal; lia|].
  destruct (div2_bounds size ltac:(lia)) as [H1 H2]. set (half := Nat.div2 size) in *. clearbody half.
  destruct (lookup_lt_is_Some_2 l (base + half)) as [x Hx]; [lia|]. rewrite Hx. specialize (Hcut _ _ Hx).
  destruct (f x) eqn:Ef.
  - assert (base + half < k)%nat by (by apply Hcut). apply IH; lia.
  - assert (base + half < k)%nat by (by apply Hcut). apply IH; lia.
  - assert (¬ (base + half < k)%nat) by (by intros ?%Hcut). apply IH; lia.
Qed.

(** Where the cut is: the last element before it, if any, decides between match and insertion. *)
Lemma binary_search_by_spec l k :
  cut_at l k →
  binary_search_by l
  = Some (match l !! pred k with
          | Some x => if (0 <? k)%nat then match f x with Eq => Ok (pred k) | _ => Err k end else Err 0%nat
          | None => Err 0%nat
          end).
Proof.
  intros Hc. pose proof Hc as [Hk Hcut]. destruct l as [|a l'] eqn:El; [by rewrite lookup_nil|]. rewrite <- El in *.
  unfold binary_search_by. replace (match l with [] => _ | _ => _ end) with
    (let* base := halving (S (length l)) l 0 (length l) in let* x := l !! base in
     Some (match f x with Eq => Ok base | Lt => Err (S base) | Gt => Err base end)) by (by rewrite El).
  assert (1 ≤ length l)%nat by (rewrite El; cbn; lia).
  rewrite (halving_spec _ l k) by (done || lia). cbv beta iota.
  destruct (lookup_lt_is_Some_2 l (pred k)) as [x Hx]; [lia|]. rewrite Hx. specialize (Hcut _ _ Hx).
  destruct k as [|k']; cbn [pred Nat.ltb Nat.leb] in *.
  - destruct (f x); [assert (0 < 0)%nat by (by apply Hcut); lia..|done].
  - destruct (f x); [done|done|]. assert (k' < S k')%nat as H0 by lia. by apply Hcut in H0.
Qed.
End BinarySearch.
