(* ===== verification/Codec.v ===== *)
(** * s3stream-codec: record batches, WAL record frames, CRC

    Models [s3stream-codec/src/{codec,crc,error,record,wal_record}.rs].
    [crc32fast::hash] is a third-party function: it is the class method
    [crc32fast_hash], a parameter of everything that frames records. *)
From S2P Require Import Prelude.

(** ** error.rs *)

Inductive CodecError : Type :=
| InvalidMagic (expected actual : Z)
| BufferTooShort (need have : Z)
| CrcMismatch (expected computed : Z).

#[export] Instance CodecError_eq_dec : EqDecision CodecError.
Proof. solve_decision. Defined.

(** ** codec.rs: the byte layout of an encoded batch *)

Definition MAGIC_V0 : Z := 0x22.
Definition MAGIC_POS : nat := 0.
Definition STREAM_ID_POS : nat := 1.
Definition EPOCH_POS : nat := STREAM_ID_POS + 8.
Definition BASE_OFFSET_POS : nat := EPOCH_POS + 8.
Definition LAST_OFFSET_DELTA_POS : nat := BASE_OFFSET_POS + 8.
Definition PAYLOAD_LENGTH_POS : nat := LAST_OFFSET_DELTA_POS + 4.
Definition PAYLOAD_POS : nat := PAYLOAD_LENGTH_POS + 4.
Definition HEADER_SIZE : nat := PAYLOAD_POS.

(** ** record.rs *)

Definition OBJECT_OVERHEAD : Z := 48.

Record StreamRecordBatch : Type := mkBatch { encoded : bytes }.

#[export] Instance StreamRecordBatch_eq_dec : EqDecision StreamRecordBatch.
Proof. solve_decision. Defined.

Definition read_u64 (buf : bytes) (pos : nat) : Z := read_be pos 8 buf.
Definition read_i32 (buf : bytes) (pos : nat) : Z := i32 (read_be pos 4 buf).

Definition new (stream_id epoch base_offset count : Z) (payload : bytes) : StreamRecordBatch :=
  mkBatch (be 1 MAGIC_V0 ++ be 8 stream_id ++ be 8 epoch ++ be 8 base_offset
    ++ be 4 count ++ be 4 (u32 (len payload)) ++ payload).

(** [parse(&mut buf)]: the batch and the advanced buffer; on [Err] the
    caller's buffer is untouched. *)
Definition parse (buf : bytes) : result CodecError (StreamRecordBatch * bytes) :=
  if len buf <? Z.of_nat HEADER_SIZE
  then Err (BufferTooShort (Z.of_nat HEADER_SIZE) (len buf))
  else
    let magic := read_be MAGIC_POS 1 buf in
    if negb (magic =? MAGIC_V0) then Err (InvalidMagic MAGIC_V0 magic)
    else
      let payload_len := read_i32 buf PAYLOAD_LENGTH_POS in
      if payload_len <? 0
      then Err (BufferTooShort (Z.of_nat HEADER_SIZE) (len buf))
      else
        let encoded_size := Z.of_nat PAYLOAD_POS + payload_len in
        if len buf <? encoded_size
        then Err (BufferTooShort encoded_size (len buf))
        else Ok (mkBatch (takeZ encoded_size buf), dropZ encoded_size buf).

Definition from_encoded_unchecked (b : bytes) : StreamRecordBatch := mkBatch b.

Definition stream_id (r : StreamRecordBatch) : Z := read_u64 (encoded r) STREAM_ID_POS.
Definition epoch (r : StreamRecordBatch) : Z := read_u64 (encoded r) EPOCH_POS.
Definition base_offset (r : StreamRecordBatch) : Z := read_u64 (encoded r) BASE_OFFSET_POS.
Definition count (r : StreamRecordBatch) : Z := read_i32 (encoded r) LAST_OFFSET_DELTA_POS.

Definition last_offset (r : StreamRecordBatch) : Z :=
  let count := count r in
  let base := i64 (base_offset r) in
  if 0 <? count then u64 (i64 (base + count)) else u64 (i64 (base - count)).

Definition payload (r : StreamRecordBatch) : bytes := drop PAYLOAD_POS (encoded r).
Definition size (r : StreamRecordBatch) : Z := u64 (read_i32 (encoded r) PAYLOAD_LENGTH_POS).
Definition occupied_size (r : StreamRecordBatch) : Z := u64 (size r + OBJECT_OVERHEAD).

(** ** crc.rs *)

Class Crc32Fast : Type := crc32fast_hash : bytes → Z.

Definition wal_crc32 `{Crc32Fast} (data : bytes) : Z :=
  Z.land (crc32fast_hash data) 0x7FFFFFFF.

(** ** wal_record.rs *)

Definition WAL_RECORD_HEADER_SIZE : nat := 24.
Definition WAL_RECORD_HEADER_WITHOUT_CRC_SIZE : nat := WAL_RECORD_HEADER_SIZE - 4.
Definition RECORD_DATA_MAGIC : Z := 0x87654321.
Definition RECORD_EMPTY_MAGIC : Z := 0x76543210.

Record WalRecordHeader : Type := mkWalRecordHeader {
  rh_magic : Z;
  rh_body_length : Z;
  rh_body_offset : Z;
  rh_body_crc : Z;
  rh_header_crc : Z;
}.

Definition header_data (offset body_length body_crc : Z) : WalRecordHeader :=
  {| rh_magic := RECORD_DATA_MAGIC; rh_body_length := body_length;
     rh_body_offset := u64 (offset + Z.of_nat WAL_RECORD_HEADER_SIZE);
     rh_body_crc := body_crc; rh_header_crc := 0 |}.

Definition header_padding (offset body_length : Z) : WalRecordHeader :=
  {| rh_magic := RECORD_EMPTY_MAGIC; rh_body_length := body_length;
     rh_body_offset := u64 (offset + Z.of_nat WAL_RECORD_HEADER_SIZE);
     rh_body_crc := 0; rh_header_crc := 0 |}.

Definition is_padding (h : WalRecordHeader) : bool := rh_magic h =? RECORD_EMPTY_MAGIC.

(** The twenty bytes the header CRC covers. *)
Definition header_prefix (h : WalRecordHeader) : bytes :=
  be 4 (rh_magic h) ++ be 4 (rh_body_length h) ++ be 8 (rh_body_offset h)
    ++ be 4 (rh_body_crc h).

Section Frames.
Context `{!Crc32Fast}.

Definition marshal (h : WalRecordHeader) : bytes :=
  let buf := header_prefix h in
  buf ++ be 4 (wal_crc32 buf).

Definition unmarshal (buf : bytes) : result CodecError WalRecordHeader :=
  if len buf <? Z.of_nat WAL_RECORD_HEADER_SIZE
  then Err (BufferTooShort (Z.of_nat WAL_RECORD_HEADER_SIZE) (len buf))
  else
    let stored_crc := read_be 20 4 buf in
    let computed_crc := wal_crc32 (take WAL_RECORD_HEADER_WITHOUT_CRC_SIZE buf) in
    if negb (stored_crc =? computed_crc) then Err (CrcMismatch stored_crc computed_crc)
    else
      let magic := read_be 0 4 buf in
      if negb (magic =? RECORD_DATA_MAGIC) && negb (magic =? RECORD_EMPTY_MAGIC)
      then Err (InvalidMagic RECORD_DATA_MAGIC magic)
      else Ok {| rh_magic := magic;
                 rh_body_length := read_be 4 4 buf;
                 rh_body_offset := read_be 8 8 buf;
                 rh_body_crc := read_be 16 4 buf;
                 rh_header_crc := stored_crc |}.

Definition frame_record (offset : Z) (body : bytes) : bytes :=
  marshal (header_data offset (u32 (len body)) (wal_crc32 body)) ++ body.

(** [None] is the [assert!] on [total_length]. *)
Definition frame_padding_record (offset total_length : Z) : option bytes :=
  if total_length <? Z.of_nat WAL_RECORD_HEADER_SIZE then None
  else
    let body_length := total_length - Z.of_nat WAL_RECORD_HEADER_SIZE in
    let header := header_padding offset (u32 body_length) in
    Some (marshal header ++ replicate (Z.to_nat body_length) 0).

Definition decode_record (buf : bytes) : result CodecError (StreamRecordBatch * bytes) :=
  let? header := unmarshal buf in
  if negb (rh_magic header =? RECORD_DATA_MAGIC)
  then Err (InvalidMagic RECORD_DATA_MAGIC (rh_magic header))
  else
    let total := Z.of_nat WAL_RECORD_HEADER_SIZE + rh_body_length header in
    if len buf <? total then Err (BufferTooShort total (len buf))
    else
      let body := slice (Z.of_nat WAL_RECORD_HEADER_SIZE) total buf in
      let computed := wal_crc32 body in
      if negb (computed =? rh_body_crc header)
      then Err (CrcMismatch (rh_body_crc header) computed)
      else
        let? (record, body_buf) := parse body in
        if negb (len body_buf =? 0)
        then Err (BufferTooShort (rh_body_length header)
                    (rh_body_length header - len body_buf))
        else Ok (record, dropZ total buf).
End Frames.

(** ** Well-formed batches *)

(** What [new] builds and [parse] accepts: a magic byte, a full header and
    a payload of exactly the declared, non-negative length. *)
Definition wf_batch (r : StreamRecordBatch) : Prop :=
  is_bytes (encoded r)
  ∧ (HEADER_SIZE ≤ length (encoded r))%nat
  ∧ read_be MAGIC_POS 1 (encoded r) = MAGIC_V0
  ∧ read_i32 (encoded r) PAYLOAD_LENGTH_POS = len (encoded r) - Z.of_nat HEADER_SIZE.

Ltac unfold_layout :=
  unfold PAYLOAD_POS, PAYLOAD_LENGTH_POS, LAST_OFFSET_DELTA_POS, BASE_OFFSET_POS,
    EPOCH_POS, STREAM_ID_POS, MAGIC_POS, HEADER_SIZE in *;
  unfold PAYLOAD_POS, PAYLOAD_LENGTH_POS, LAST_OFFSET_DELTA_POS, BASE_OFFSET_POS,
    EPOCH_POS, STREAM_ID_POS in *;
  cbn [Nat.add Nat.sub] in *.

Lemma length_new s e b c p : length (encoded (new s e b c p)) = (33 + length p)%nat.
Proof. unfold new. cbn [encoded]. rewrite !length_app, !length_be. lia. Qed.

Lemma stream_id_new s e b c p : stream_id (new s e b c p) = u64 s.
Proof. unfold stream_id, read_u64, new. unfold_layout. cbn [encoded]. by read_fields. Qed.
Lemma epoch_new s e b c p : epoch (new s e b c p) = u64 e.
Proof. unfold epoch, read_u64, new. unfold_layout. cbn [encoded]. by read_fields. Qed.
Lemma base_offset_new s e b c p : base_offset (new s e b c p) = u64 b.
Proof. unfold base_offset, read_u64, new. unfold_layout. cbn [encoded]. by read_fields. Qed.
Lemma count_new s e b c p : count (new s e b c p) = i32 c.
Proof.
  unfold count, read_i32, new. unfold_layout. cbn [encoded]. read_fields. apply i32_u32.
Qed.
Lemma payload_new s e b c p : payload (new s e b c p) = p.
Proof.
  unfold payload, new. unfold_layout. cbn [encoded]. rewrite !app_assoc.
  apply drop_app_length'. rewrite !length_app, !length_be. done.
Qed.
Lemma read_len_new s e b c p :
  read_i32 (encoded (new s e b c p)) PAYLOAD_LENGTH_POS = i32 (len p).
Proof.
  unfold read_i32, new. unfold_layout. cbn [encoded]. read_fields. by rewrite !i32_u32.
Qed.
Lemma magic_new s e b c p : read_be MAGIC_POS 1 (encoded (new s e b c p)) = MAGIC_V0.
Proof. unfold new. unfold_layout. cbn [encoded]. by read_fields. Qed.
Lemma is_bytes_new s e b c p : is_bytes p → is_bytes (encoded (new s e b c p)).
Proof. intros. unfold new. cbn [encoded]. auto 10 with s3. Qed.

#[export] Hint Rewrite stream_id_new epoch_new base_offset_new count_new payload_new
  length_new : s3_len.

(** [new] is well formed exactly when the payload length fits an [i32]. *)
Lemma wf_new s e b c p : is_bytes p → len p < 2 ^ 31 → wf_batch (new s e b c p).
Proof.
  intros Hp Hlen. split_and!.
  - by apply is_bytes_new.
  - rewrite length_new. unfold_layout. lia.
  - apply magic_new.
  - rewrite read_len_new, length_new. unfold_layout. rewrite i32_small; int_lia.
Qed.

(** [parse] takes exactly one well-formed batch off the front. *)
Lemma parse_app r rest : wf_batch r → parse (encoded r ++ rest) = Ok (r, rest).
Proof.
  intros (Hb & Hlen & Hmagic & Hsize). unfold parse.
  assert (∀ pos n, (pos + n ≤ 33)%nat →
    read_be pos n (encoded r ++ rest) = read_be pos n (encoded r)) as Hread.
  { intros pos n ?. unfold read_be. unfold_layout.
    rewrite drop_app_le, take_app_le by (rewrite ?length_drop; lia). done. }
  unfold read_i32 in *. unfold_layout. rewrite !Hread by lia.
  rewrite Hmagic, Hsize, length_app.
  do 4 if_false.
  rewrite takeZ_take; unfold dropZ. rewrite take_app_length', drop_app_length' by lia.
  by destruct r.
Qed.

Lemma parse_ok_wf buf r rest :
  is_bytes buf → parse buf = Ok (r, rest) → wf_batch r ∧ buf = encoded r ++ rest.
Proof.
  intros Hb. unfold parse, wf_batch, dropZ. rewrite takeZ_take.
  destruct (len buf <? _) eqn:E1; [done|].
  destruct (negb _) eqn:E2; [done|].
  destruct (_ <? 0) eqn:E3; [done|].
  destruct (len buf <? _ + _) eqn:E4; [done|]. intros [= <- <-]. cbn [encoded].
  unfold read_i32 in *. set (n := Z.to_nat _). unfold_layout.
  assert (∀ pos k, (pos + k ≤ 33)%nat → read_be pos k (take n buf) = read_be pos k buf) as Hread.
  { intros pos k ?. unfold read_be.
    rewrite <- (take_drop n buf) at 2. rewrite drop_app_le, take_app_le; [done|..];
      rewrite ?length_drop, ?length_take; lia. }
  split; [|by rewrite take_drop]. split_and!.
  - by apply is_bytes_take.
  - rewrite length_take. lia.
  - rewrite Hread by lia. destruct (Z.eqb_spec (read_be 0 1 buf) MAGIC_V0); [done|done].
  - rewrite Hread by lia. rewrite length_take. lia.
Qed.

(** A well-formed batch is the canonical encoding of its accessors. *)
Lemma new_accessors r :
  wf_batch r →
  new (stream_id r) (epoch r) (base_offset r) (count r) (payload r) = r.
Proof.
  intros (Hb & Hlen & Hmagic & Hsize).
  unfold new, stream_id, epoch, base_offset, count, payload, read_u64, read_i32 in *.
  destruct r as [buf]. unfold_layout. cbn [encoded] in *. f_equal.
  replace (be 1 MAGIC_V0) with (take 1 (drop 0 buf)) by (rewrite <- Hmagic; symmetry; by apply be_read_be; [|lia]).
  rewrite !be_read_be by (done || lia).
  assert (∀ z, be 4 (i32 z) = be 4 z) as Hi32.
  { intros z. rewrite <- (be_unbe (be 4 (i32 z))), length_be by auto with s3.
    rewrite unbe_be4. rewrite <- (be_unbe (be 4 z)), length_be by auto with s3.
    rewrite unbe_be4. f_equal. int_lia. }
  rewrite Hi32, be_read_be by (done || lia).
  replace (be 4 (u32 (len (drop 33 buf)))) with (take 4 (drop 29 buf)).
  2: { rewrite length_drop. rewrite <- be_read_be by (done || lia).
       f_equal. pose proof (read_be_range 29 4 buf Hb). int_lia. }
  by rewrite !window_drop.
Qed.

(** The exclusive last offset, link records included, modulo the wrap. *)
Lemma last_offset_spec r :
  is_bytes (encoded r) → last_offset r = u64 (base_offset r + Z.abs (count r)).
Proof.
  intros Hb. unfold last_offset.
  assert (is_u64 (base_offset r)) by apply (read_be_range _ 8 _ Hb).
  destruct (0 <? count r) eqn:E.
  - rewrite u64_i64, Z.abs_eq by lia. int_lia.
  - rewrite u64_i64, Z.abs_neq by lia. int_lia.
Qed.

Lemma wf_is_bytes r : wf_batch r → is_bytes (encoded r).
Proof. by intros (? & _). Qed.

Lemma wf_length r : wf_batch r → len (encoded r) = 33 + size r.
Proof.
  intros (Hb & Hlen & _ & Hs). unfold size. rewrite Hs. unfold_layout.
  assert (is_i32 (len (encoded r) - Z.of_nat 33)) by (rewrite <- Hs; apply i32_range).
  rewrite u64_small; int_lia.
Qed.

Lemma wf_size_range r : wf_batch r → 0 ≤ size r < 2 ^ 31.
Proof.
  intros (Hb & Hlen & _ & Hs). unfold size. rewrite Hs. unfold_layout.
  assert (is_i32 (len (encoded r) - Z.of_nat 33)) by (rewrite <- Hs; apply i32_range).
  rewrite u64_small; int_lia.
Qed.

#[export] Hint Resolve wf_new wf_is_bytes : s3.

(** ** Frames *)

Section FrameLemmas.
Context `{!Crc32Fast}.

Lemma wal_crc32_range d : 0 ≤ wal_crc32 d < 2 ^ 31.
Proof.
  unfold wal_crc32. change 0x7FFFFFFF with (Z.ones 31).
  rewrite Z.land_ones by lia. apply Z.mod_pos_bound. lia.
Qed.

Lemma wal_crc32_u32 d : u32 (wal_crc32 d) = wal_crc32 d.
Proof. apply u32_small. pose proof (wal_crc32_range d). int_lia. Qed.

Lemma length_header_prefix h : length (header_prefix h) = 20%nat.
Proof. unfold header_prefix. by rewrite !length_app, !length_be. Qed.

Lemma length_marshal h : length (marshal h) = 24%nat.
Proof. unfold marshal. by rewrite length_app, length_header_prefix, length_be. Qed.

Lemma length_frame_record off body : length (frame_record off body) = (24 + length body)%nat.
Proof. unfold frame_record. by rewrite length_app, length_marshal. Qed.

Definition wf_header (h : WalRecordHeader) : Prop :=
  (rh_magic h = RECORD_DATA_MAGIC ∨ rh_magic h = RECORD_EMPTY_MAGIC)
  ∧ is_u32 (rh_body_length h) ∧ is_u64 (rh_body_offset h) ∧ is_u32 (rh_body_crc h).

Lemma unmarshal_marshal h rest :
  wf_header h →
  unmarshal (marshal h ++ rest)
  = Ok {| rh_magic := rh_magic h; rh_body_length := rh_body_length h;
          rh_body_offset := rh_body_offset h; rh_body_crc := rh_body_crc h;
          rh_header_crc := wal_crc32 (header_prefix h) |}.
Proof.
  intros (Hm & Hl & Ho & Hc). unfold unmarshal.
  rewrite length_app, length_marshal. unfold WAL_RECORD_HEADER_SIZE, WAL_RECORD_HEADER_WITHOUT_CRC_SIZE.
  if_false. unfold marshal. rewrite <- app_assoc.
  rewrite take_app_length' by (by rewrite length_header_prefix).
  rewrite (read_be_skip 20) by (rewrite length_header_prefix; lia).
  rewrite length_header_prefix. cbn [Nat.sub]. rewrite read_be_here by apply length_be.
  rewrite unbe_be4, wal_crc32_u32. if_false.
  unfold header_prefix. rewrite <- !app_assoc. read_fields.
  assert (is_u32 (rh_magic h)) by (destruct Hm as [-> | ->]; done).
  rewrite !u32_small, u64_small by done.
  if_false. done.
Qed.

Lemma decode_frame off r rest :
  wf_batch r → decode_record (frame_record off (encoded r) ++ rest) = Ok (r, rest).
Proof.
  intros Hwf. pose proof (wf_length _ Hwf). pose proof (wf_size_range _ Hwf).
  unfold decode_record, frame_record. rewrite <- app_assoc, unmarshal_marshal.
  2: { unfold wf_header, header_data; cbn. split_and!; auto with s3.
       pose proof (wal_crc32_range (encoded r)). int_lia. }
  cbn [header_data rh_magic rh_body_length rh_body_crc].
  rewrite u32_small by int_lia. rewrite !length_app, length_marshal.
  unfold WAL_RECORD_HEADER_SIZE. do 2 if_false.
  rewrite (slice_middle (marshal _) (encoded r)) by (rewrite ?length_marshal; lia).
  if_false. rewrite <- (app_nil_r (encoded r)) at 1. rewrite parse_app by done.
  cbn [length Z.of_nat Z.eqb negb]. f_equal. f_equal. unfold dropZ. rewrite app_assoc.
  apply drop_app_length'. rewrite length_app, length_marshal. lia.
Qed.

(** [unmarshal] accepts nothing but what [marshal] writes. *)
Lemma unmarshal_ok buf h :
  is_bytes buf → unmarshal buf = Ok h →
  wf_header h ∧ buf = marshal h ++ drop 24 buf.
Proof.
  intros Hb. unfold unmarshal, WAL_RECORD_HEADER_WITHOUT_CRC_SIZE, WAL_RECORD_HEADER_SIZE. cbn [Nat.sub].
  destruct (_ <? _) eqn:E1; [done|]. cbn [Nat.sub].
  destruct (negb (read_be 20 4 buf =? _)) eqn:E2; [done|].
  destruct (negb _ && negb _) eqn:E3; [done|]. intros [= <-].
  assert (header_prefix {| rh_magic := read_be 0 4 buf; rh_body_length := read_be 4 4 buf;
    rh_body_offset := read_be 8 8 buf; rh_body_crc := read_be 16 4 buf;
    rh_header_crc := read_be 20 4 buf |} = take 20 buf) as Hp.
  { unfold header_prefix. cbn. rewrite !be_read_be by (done || lia).
    rewrite <- (take_drop 20 buf) at 1 2 3 4.
    set (p := take 20 buf). assert (length p = 20%nat) by (unfold p; rewrite length_take; lia).
    repeat rewrite drop_app_le, take_app_le by (rewrite ?length_drop; lia).
    rewrite (window_nil p 16) by done. by rewrite !window_drop. }
  split.
  - unfold wf_header; cbn. split_and!; [lia|apply (read_be_range _ 4), Hb|
      apply (read_be_range _ 8), Hb|apply (read_be_range _ 4), Hb].
  - unfold marshal. rewrite Hp.
    assert (wal_crc32 (take 20 buf) = read_be 20 4 buf) as -> by lia.
    rewrite be_read_be, <- app_assoc, window_drop by (done || lia).
    by rewrite take_drop.
Qed.

Lemma decode_ok buf r rest :
  is_bytes buf → decode_record buf = Ok (r, rest) →
  wf_batch r ∧ ∃ off, is_u64 off ∧ buf = frame_record off (encoded r) ++ rest.
Proof.
  intros Hb. unfold decode_record.
  destruct (unmarshal buf) as [h|] eqn:Hu; [|done].
  apply unmarshal_ok in Hu as [(Hm & Hl & Ho & Hc) Hbuf]; [|done].
  destruct (negb (rh_magic h =? _)) eqn:E1; [done|]. unfold WAL_RECORD_HEADER_SIZE.
  destruct (len buf <? _) eqn:E2; [done|].
  destruct (negb (_ =? rh_body_crc h)) eqn:E3; [done|].
  set (body := slice _ _ _) in *.
  assert (is_bytes body) by (unfold body, slice; auto with s3).
  destruct (parse body) as [[r' b']|] eqn:Hp; [|done].
  apply parse_ok_wf in Hp as [Hwf Hbody]; [|done].
  destruct (negb (len b' =? 0)) eqn:E4; [done|]. intros [= <- <-].
  assert (b' = []) as -> by (destruct b'; [done|simpl in *; lia]).
  rewrite app_nil_r in Hbody. split; [done|].
  assert (len body = rh_body_length h) as Hbl by (unfold body; rewrite length_slice; unfold_ints; lia).
  exists (u64 (rh_body_offset h - 24)). split; [auto with s3|].
  rewrite Hbuf at 1. unfold frame_record. rewrite <- app_assoc. f_equal.
  - unfold marshal, header_prefix, header_data, WAL_RECORD_HEADER_SIZE. cbn.
    rewrite <- Hbody. rewrite (u32_small (len body)) by (by rewrite Hbl).
    replace (u64 (u64 (rh_body_offset h - 24) + Z.of_nat 24)) with (rh_body_offset h) by int_lia.
    replace (rh_magic h) with RECORD_DATA_MAGIC by lia.
    rewrite <- Hbl.
    by replace (rh_body_crc h) with (wal_crc32 body) by lia.
  - rewrite <- Hbody. unfold body, slice, dropZ.
    rewrite window_drop; [done|]. unfold_ints. lia.
Qed.
End FrameLemmas.

#[export] Hint Rewrite @length_marshal @length_frame_record : s3_len.

(** ** CRC-32/ISO-HDLC, bit by bit

    The polynomial [crc.rs] names; the concrete [Crc32Fast] the witnesses and
    the golden vectors of [conformance/fixtures] are evaluated with. *)
Module Crc32IsoHdlc.
Fixpoint shift_bits (n : nat) (c : Z) : Z :=
  match n with
  | O => c
  | S n' => shift_bits n' (if Z.odd c then Z.lxor (Z.shiftr c 1) 0xEDB88320
                           else Z.shiftr c 1)
  end.

Definition hash (data : bytes) : Z :=
  Z.lxor (foldl (λ c b, shift_bits 8 (Z.lxor c b)) 0xFFFFFFFF data) 0xFFFFFFFF.

#[export] Instance crc32_iso_hdlc : Crc32Fast := hash.

Example check_value : wal_crc32 [49; 50; 51; 52; 53; 54; 55; 56; 57] = 0x4BF43926.
Proof. reflexivity. Qed.

Example golden_record_basic :
  encoded (new 1 2 3 2 [104; 101; 108; 108; 111])
  = [34; 0; 0; 0; 0; 0; 0; 0; 1; 0; 0; 0; 0; 0; 0; 0; 2; 0; 0; 0; 0; 0; 0; 0; 3;
     0; 0; 0; 2; 0; 0; 0; 5; 104; 101; 108; 108; 111].
Proof. reflexivity. Qed.

Example golden_frame_at_zero :
  frame_record 0 [104; 101; 108; 108; 111; 32; 119; 97; 108]
  = [135; 101; 67; 33; 0; 0; 0; 9; 0; 0; 0; 0; 0; 0; 0; 24; 120; 149; 54; 159; 66;
     146; 5; 108; 104; 101; 108; 108; 111; 32; 119; 97; 108].
Proof. reflexivity. Qed.

Example golden_padding_64 : frame_padding_record 8192 64 = Some ([118; 84; 50; 16; 0; 0; 0; 40; 0; 0; 0; 0; 0; 0; 32; 24; 0; 0; 0; 0; 44; 55; 208; 155]
  ++ replicate 40 0).
Proof. reflexivity. Qed.
End Crc32IsoHdlc.

(** ** Properties *)

(** Encoding a batch and parsing it off the front of any buffer gives the
    same batch and leaves the rest; every accessor returns what was encoded,
    and the last offset is base + |count| (link records have a negative count). *)
Theorem batch_roundtrip s e b c p rest :
  is_u64 s → is_u64 e → is_u64 b → is_i32 c → is_bytes p → len p < 2 ^ 31 →
  let r := new s e b c p in
  parse (encoded r ++ rest) = Ok (r, rest)
  ∧ stream_id r = s ∧ epoch r = e ∧ base_offset r = b ∧ count r = c ∧ payload r = p
  ∧ size r = len p ∧ last_offset r = u64 (b + Z.abs c).
Proof.
  intros Hs He Hb Hc Hp Hlen r.
  assert (wf_batch r) as Hwf by (by apply wf_new).
  split_and!.
  - by apply parse_app.
  - unfold r. rewrite stream_id_new. by apply u64_small.
  - unfold r. rewrite epoch_new. by apply u64_small.
  - unfold r. rewrite base_offset_new. by apply u64_small.
  - unfold r. rewrite count_new. by apply i32_small.
  - apply payload_new.
  - pose proof (wf_length r Hwf) as Hl. unfold r in *. rewrite length_new in Hl. lia.
  - rewrite last_offset_spec by auto with s3. unfold r.
    rewrite base_offset_new, count_new, (u64_small b), (i32_small c) by done. done.
Qed.

Lemma batch_roundtrip_witness :
  parse (encoded (new 42 7 1000 3 [104; 105]) ++ [255])
  = Ok (new 42 7 1000 3 [104; 105], [255]).
Proof.
  apply (batch_roundtrip 42 7 1000 3 [104; 105] [255]);
    [done|done|done|done|repeat constructor; done|reflexivity].
Defined.

(** [parse] accepts exactly the canonical encodings: it returns [Ok (r, rest)]
    iff the buffer is [new]'s encoding of in-range fields with a payload shorter
    than 2^31 bytes, followed by [rest]. *)
Theorem parse_exact buf r rest :
  is_bytes buf →
  parse buf = Ok (r, rest) ↔
  ∃ s e b c p, is_u64 s ∧ is_u64 e ∧ is_u64 b ∧ is_i32 c ∧ is_bytes p ∧ len p < 2 ^ 31
    ∧ r = new s e b c p ∧ buf = encoded r ++ rest.
Proof.
  intros Hb. split.
  - intros [Hwf Hbuf]%parse_ok_wf; [|done].
    pose proof (wf_size_range _ Hwf). pose proof (wf_length _ Hwf).
    pose proof (wf_is_bytes _ Hwf) as Hr.
    exists (stream_id r), (epoch r), (base_offset r), (count r), (payload r).
    split_and!; try done.
    + apply (read_be_range _ 8), Hr.
    + apply (read_be_range _ 8), Hr.
    + apply (read_be_range _ 8), Hr.
    + apply i32_range.
    + by apply is_bytes_drop.
    + unfold payload. rewrite length_drop. unfold_layout. int_lia.
    + by rewrite new_accessors.
  - intros (s & e & b & c & p & ? & ? & ? & ? & ? & ? & -> & ->).
    by apply parse_app, wf_new.
Qed.

Lemma parse_exact_witness :
  parse (encoded (new 5 3 1000 (-8) [1; 2]) ++ [9]) = Ok (new 5 3 1000 (-8) [1; 2], [9]).
Proof.
  apply parse_exact.
  - repeat constructor; done.
  - exists 5, 3, 1000, (-8), [1; 2]. split_and!; try done. repeat constructor; done.
Defined.

(** [decode_record] accepts exactly the frames [frame_record] writes: the
    header and body CRCs, the magic and the lengths leave no other input, and what
    is left of the buffer is untouched. *)
Theorem decode_record_exact `{!Crc32Fast} buf r rest :
  is_bytes buf →
  decode_record buf = Ok (r, rest) ↔
  wf_batch r ∧ ∃ off, is_u64 off ∧ buf = frame_record off (encoded r) ++ rest.
Proof.
  intros Hb. split; [by apply decode_ok|].
  intros (Hwf & off & _ & ->). by apply decode_frame.
Qed.

Lemma decode_record_exact_witness :
  let r := new 3 1 77 2 [98; 111; 100; 121] in
  @decode_record Crc32IsoHdlc.hash (@frame_record Crc32IsoHdlc.hash 512 (encoded r) ++ [1])
  = Ok (r, [1]).
Proof.
  intros r. apply (@decode_record_exact Crc32IsoHdlc.hash).
  - vm_compute. repeat constructor; done.
  - split.
    + apply wf_new; [repeat constructor; done|reflexivity].
    + exists 512. done.
Defined.

(** A torn frame is never decoded: every proper prefix of a frame is rejected
    as too short, whatever the checksum function is. *)
Theorem torn_frame_rejected `{!Crc32Fast} off r k :
  wf_batch r → (k < length (frame_record off (encoded r)))%nat →
  ∃ need, decode_record (take k (frame_record off (encoded r)))
          = Err (BufferTooShort need (Z.of_nat k)) ∧ Z.of_nat k < need.
Proof.
  intros Hwf Hk. rewrite length_frame_record in Hk.
  pose proof (wf_length _ Hwf). pose proof (wf_size_range _ Hwf).
  unfold decode_record. destruct (decide (k < 24)%nat).
  - exists 24. unfold unmarshal, WAL_RECORD_HEADER_SIZE.
    rewrite length_take, length_frame_record. if_true. split; [|lia].
    f_equal. f_equal. lia.
  - unfold frame_record. rewrite take_app_ge by (rewrite length_marshal; lia).
    rewrite length_marshal, unmarshal_marshal.
    2: { unfold wf_header, header_data; cbn. split_and!; auto with s3.
         pose proof (wal_crc32_range (encoded r)). int_lia. }
    cbn [header_data rh_magic rh_body_length]. unfold WAL_RECORD_HEADER_SIZE.
    rewrite u32_small by int_lia.
    rewrite length_app, length_marshal, length_take.
    if_false. if_true. eexists. split; [do 2 f_equal; lia|lia].
Qed.

Lemma torn_frame_rejected_witness :
  ∃ need, @decode_record Crc32IsoHdlc.hash
    (take 30 (@frame_record Crc32IsoHdlc.hash 0 (encoded (new 1 1 0 1 [7]))))
    = Err (BufferTooShort need (Z.of_nat 30)) ∧ Z.of_nat 30 < need.
Proof.
  apply (@torn_frame_rejected Crc32IsoHdlc.hash 0 (new 1 1 0 1 [7]) 30).
  - apply wf_new; [repeat constructor; done|reflexivity].
  - vm_compute. lia.
Defined.
