(* ===== verification/ObjectStore.v ===== *)
(** * Object storage: the trait and its in-memory implementation

    Models [s3stream-object/src/{error,memory}.rs] and the trait and
    types of [storage.rs].  The trait is the class [ObjectStorage] over a store
    state; [MemoryObjectStorage] is its instance.  Error messages are dropped,
    the error constructors kept; the wall clock is an argument. *)
From S2P Require Import Prelude Collections Codec.

(** ** error.rs *)

(** The variants of [object_store::Error] the code names; [BE_Other] is any other. *)
Inductive BackendError : Type :=
| BE_NotFound | BE_NotModified | BE_InvalidPath | BE_AlreadyExists | BE_Precondition | BE_NotSupported | BE_NotImplemented
| BE_PermissionDenied | BE_Unauthenticated | BE_UnknownConfigurationKey | BE_Other.

Inductive ObjectError : Type :=
| OE_Codec (e : CodecError)
| OE_NotFound (key : bytes)
| OE_InvalidFormat
| OE_OrderingViolation
| OE_Backend (e : BackendError)
| OE_Timeout (key : bytes)
| OE_Io.

#[export] Instance BackendError_eq_dec : EqDecision BackendError.
Proof. solve_decision. Defined.

#[export] Instance ObjectError_eq_dec : EqDecision ObjectError.
Proof. solve_decision. Defined.

Definition is_not_found (e : ObjectError) : bool :=
  match e with
  | OE_NotFound _ => true
  | OE_Backend BE_NotFound => true
  | _ => false
  end.

(** ** storage.rs: types *)

Inductive ThrottleStrategy : Type := Bypass | Compaction | Tail | CatchUp | IcebergWrite.

#[export] Instance ThrottleStrategy_eq_dec : EqDecision ThrottleStrategy.
Proof. solve_decision. Defined.

Definition priority (t : ThrottleStrategy) : Z :=
  match t with
  | Bypass => 0
  | Compaction => 1
  | Tail => 2
  | CatchUp => 3
  | IcebergWrite => 4
  end.

Record ObjectPath : Type := { op_bucket_id : Z; op_key : bytes }.
Record ObjectInfo : Type := {
  oi_path : ObjectPath;
  oi_timestamp_ms : Z;
  oi_size : Z;
}.

#[export] Instance ObjectPath_eq_dec : EqDecision ObjectPath.
Proof. solve_decision. Defined.

(** ** The trait *)

(** What every implementation promises the layers above: a missing key is
    [NotFound], a completed write is readable in full and disturbs no other
    key, deletes are idempotent, and [list] returns exactly the keys under the
    prefix. *)
Class ObjectStorage (S : Type) : Type := {
  os_range_read : S → bytes → Z → option Z → result ObjectError bytes;
  os_write : S → Z → bytes → bytes → S;
  os_list : S → bytes → list ObjectInfo;
  os_delete : S → list ObjectPath → S;
  os_bucket_id : S → Z;
}.

Definition os_read {S} `{ObjectStorage S} (s : S) (key : bytes) : result ObjectError bytes :=
  os_range_read s key 0 None.

Class ObjectStorageLaws (S : Type) `{ObjectStorage S} : Prop := {
  os_read_write s now key data :
    os_read (os_write s now key data) key = Ok data;
  os_range_write s now key data a b :
    0 ≤ a ≤ b → b ≤ len data →
    os_range_read (os_write s now key data) key a (Some b) = Ok (slice a b data);
  os_write_other s now key key' data a b :
    key ≠ key' →
    os_range_read (os_write s now key data) key' a b = os_range_read s key' a b;
  os_delete_gone s paths key :
    key ∈ op_key <$> paths →
    os_read (os_delete s paths) key = Err (OE_NotFound key);
  os_delete_other s paths key a b :
    key ∉ op_key <$> paths →
    os_range_read (os_delete s paths) key a b = os_range_read s key a b;
  os_list_exact s prefix key :
    key ∈ (op_key ∘ oi_path) <$> os_list s prefix
    ↔ starts_with prefix key = true ∧ is_ok (os_read s key) = true;
}.

(** ** memory.rs *)

(** [String]'s order is the lexicographic order of the bytes. *)
Fixpoint lex_le (a b : bytes) : bool :=
  match a, b with
  | [], _ => true
  | _ :: _, [] => false
  | x :: a', y :: b' => (x <? y) || ((x =? y) && lex_le a' b')
  end.

Record MemoryObjectStorage : Type := {
  ms_objects : gmap bytes (bytes * Z);
  ms_bucket_id : Z;
}.

Definition ms_new (bucket_id : Z) : MemoryObjectStorage :=
  {| ms_objects := ∅; ms_bucket_id := bucket_id |}.

Definition ms_entries (s : MemoryObjectStorage) : list (bytes * (bytes * Z)) :=
  sort_by (λ p q, lex_le p.1 q.1) (map_to_list (ms_objects s)).

Definition ms_range_read (s : MemoryObjectStorage) (key : bytes) (start : Z) (end_ : option Z)
  : result ObjectError bytes :=
  match ms_objects s !! key with
  | None => Err (OE_NotFound key)
  | Some (data, _) =>
      let n := len data in
      let start := Z.min start n in
      let end_ := Z.min (default n end_) n in
      Ok (slice start (Z.max end_ start) data)
  end.

Definition ms_write (s : MemoryObjectStorage) (now : Z) (key data : bytes) : MemoryObjectStorage :=
  {| ms_objects := <[key := (data, now)]> (ms_objects s); ms_bucket_id := ms_bucket_id s |}.

Fixpoint take_while {A} (f : A → bool) (l : list A) : list A :=
  match l with
  | [] => []
  | x :: l' => if f x then x :: take_while f l' else []
  end.

Definition ms_list (s : MemoryObjectStorage) (prefix : bytes) : list ObjectInfo :=
  (λ p, {| oi_path := {| op_bucket_id := ms_bucket_id s; op_key := p.1 |};
           oi_timestamp_ms := p.2.2; oi_size := len p.2.1 |})
  <$> take_while (λ p, starts_with prefix p.1)
        (filter (λ p, lex_le prefix p.1 = true) (ms_entries s)).

Definition ms_delete (s : MemoryObjectStorage) (paths : list ObjectPath) : MemoryObjectStorage :=
  {| ms_objects := foldl (λ m p, delete (op_key p) m) (ms_objects s) paths;
     ms_bucket_id := ms_bucket_id s |}.

#[export] Instance memory_object_storage : ObjectStorage MemoryObjectStorage := {
  os_range_read := ms_range_read;
  os_write := ms_write;
  os_list := ms_list;
  os_delete := ms_delete;
  os_bucket_id := ms_bucket_id;
}.

(** [MemoryMultipartWriter]: parts pile up in [buf], [finish] writes once. *)
Record MemoryMultipartWriter : Type := { mw_key : bytes; mw_buf : bytes }.
Definition mw_new (key : bytes) : MemoryMultipartWriter := {| mw_key := key; mw_buf := [] |}.
Definition mw_write (w : MemoryMultipartWriter) (part : bytes) : MemoryMultipartWriter :=
  {| mw_key := mw_key w; mw_buf := mw_buf w ++ part |}.
Definition mw_finish (w : MemoryMultipartWriter) (s : MemoryObjectStorage) (now : Z)
  : MemoryObjectStorage * MemoryMultipartWriter :=
  (ms_write s now (mw_key w) (mw_buf w), {| mw_key := mw_key w; mw_buf := [] |}).

(** ** The instance keeps the promises *)

Lemma lex_le_total a b : lex_le a b = true ∨ lex_le b a = true.
Proof.
  revert b; induction a as [|x a IH]; intros [|y b]; simpl; auto.
  destruct (IH b); destruct (Z.lt_total x y) as [?|[->|?]]; lia.
Qed.

Lemma lex_le_trans a b c : lex_le a b = true → lex_le b c = true → lex_le a c = true.
Proof.
  revert b c; induction a as [|x a IH]; intros [|y b] [|z c]; simpl; try done.
  intros H1 H2. specialize (IH b c). lia.
Qed.

(** Between a prefix and one of its extensions there are only extensions. *)
Lemma lex_between p k s :
  lex_le p k = true → lex_le k (p ++ s) = true → starts_with p k = true.
Proof.
  revert k; induction p as [|x p IH]; intros [|y k]; simpl; try done.
  intros H1 H2. specialize (IH k). lia.
Qed.

Lemma lex_le_prefix p s : lex_le p (p ++ s) = true.
Proof. induction p as [|x p IH]; simpl; [done|]. lia. Qed.

Lemma ms_entries_sorted s :
  StronglySorted (λ p q : bytes * (bytes * Z), lex_le p.1 q.1 = true) (ms_entries s).
Proof.
  apply (sort_by_sorted (λ p q : bytes * (bytes * Z), lex_le p.1 q.1)); intros.
  - apply lex_le_total.
  - by eapply lex_le_trans.
Qed.

Lemma elem_of_ms_entries s k v : (k, v) ∈ ms_entries s ↔ ms_objects s !! k = Some v.
Proof. unfold ms_entries. rewrite elem_of_sort_by. apply elem_of_map_to_list. Qed.

(** On a sorted list whose elements are all at or after the prefix, the
    [take_while] of the prefix test loses nothing. *)
Lemma take_while_prefix (p : bytes) (l : list (bytes * (bytes * Z))) :
  StronglySorted (λ p q : bytes * (bytes * Z), lex_le p.1 q.1 = true) l →
  Forall (λ e, lex_le p e.1 = true) l →
  take_while (λ e, starts_with p e.1) l = filter (λ e, starts_with p e.1 = true) l.
Proof.
  induction 1 as [|e l Hs IH He]; intros Hge; [done|].
  apply Forall_cons in Hge as [Hp Hge]. rewrite filter_cons. simpl.
  destruct (starts_with p e.1) eqn:E.
  - rewrite decide_True by done. f_equal. by apply IH.
  - rewrite decide_False by done. symmetry. apply filter_none.
    rewrite Forall_forall in He. intros e' Hin Hst.
    apply starts_with_spec in Hst as [s Heq]. specialize (He e' Hin).
    rewrite Heq in He. apply lex_between in He; [|done]. congruence.
Qed.

Lemma ms_delete_lookup s paths key :
  ms_objects (ms_delete s paths) !! key
  = if decide (key ∈ op_key <$> paths) then None else ms_objects s !! key.
Proof.
  unfold ms_delete; cbn [ms_objects]. generalize (ms_objects s) as m.
  induction paths as [|p paths IH]; intros m; cbn [foldl fmap list_fmap].
  - by rewrite decide_False by apply not_elem_of_nil.
  - rewrite IH. destruct (decide (key ∈ op_key <$> paths)) as [Hin|Hin].
    + by rewrite decide_True by by right.
    + destruct (decide (key = op_key p)) as [->|Hne].
      * rewrite decide_True by left. apply lookup_delete_eq.
      * rewrite decide_False by (intros [?|?]%elem_of_cons; done).
        by apply lookup_delete_ne.
Qed.

Lemma ms_list_keys s prefix key :
  key ∈ (op_key ∘ oi_path) <$> ms_list s prefix
  ↔ starts_with prefix key = true ∧ is_Some (ms_objects s !! key).
Proof.
  unfold ms_list. rewrite <- list_fmap_compose.
  rewrite take_while_prefix;
    [|apply StronglySorted_filter, ms_entries_sorted
     |apply Forall_forall; intros e [? _]%list_elem_of_filter; done].
  rewrite list_elem_of_fmap. split.
  - intros ([k v] & -> & [Hst [Hle Hin]%list_elem_of_filter]%list_elem_of_filter).
    split; [done|]. exists v. by apply elem_of_ms_entries.
  - intros [Hst [v Hv]]. exists (key, v). split; [done|].
    apply list_elem_of_filter. split; [done|]. apply list_elem_of_filter.
    split; [|by apply elem_of_ms_entries].
    apply starts_with_spec in Hst as [s' ->]. apply lex_le_prefix.
Qed.

#[export] Instance memory_storage_ok : ObjectStorageLaws MemoryObjectStorage.
Proof.
  split; unfold os_read;
    cbn [os_range_read os_write os_list os_delete memory_object_storage]; unfold ms_range_read.
  - intros s now key data. cbn [ms_write ms_objects]. rewrite lookup_insert_eq. simpl.
    rewrite Z.min_l, Z.min_id, Z.max_l by lia. by rewrite slice_0_all.
  - intros s now key data a b Ha Hb. cbn [ms_write ms_objects]. rewrite lookup_insert_eq. simpl.
    by rewrite !Z.min_l, Z.max_l by lia.
  - intros s now key key' data a b Hne. cbn [ms_write ms_objects]. by rewrite lookup_insert_ne.
  - intros s paths key Hin. rewrite ms_delete_lookup. by rewrite decide_True.
  - intros s paths key a b Hin. rewrite ms_delete_lookup. by rewrite decide_False.
  - intros s prefix key. rewrite ms_list_keys.
    destruct (ms_objects s !! key) as [[d t]|]; simpl; [by split; intros [? ?]; eauto|].
    split; [by intros [_ [? ?]]|by intros [_ ?]].
Qed.

(** The in-memory object storage keeps every promise of the trait: written
    objects read back in full and by range, other keys are undisturbed, deletes
    remove exactly the named keys, and [list] returns exactly the stored keys
    under the prefix. *)
Theorem memory_storage_laws : ObjectStorageLaws MemoryObjectStorage.
Proof. apply memory_storage_ok. Qed.
