(* ===== verification/Retry.v ===== *)
(** * Retrying storage

    Models [s3stream-object/src/retry.rs].  A duration or an instant is a number of
    nanoseconds.  What happens at an attempt (how long it takes, the random part of the delay
    behind it, whether it fails and what a failed one leaves behind) comes from outside: a
    call takes the list of its attempts to come, and is [None] when it would go on to one
    that is not there, or when a delay overflows, which panics.  So does [waited], the time a
    call waits for its permit before its first attempt. *)
From S2P Require Import Prelude Collections Codec ObjectStore.

(** ** Which failures are retried *)

Inductive RetryClass : Type := Abort_ | Retry_.

Definition retry_class (e : ObjectError) : RetryClass :=
  match e with
  | OE_NotFound _ | OE_InvalidFormat | OE_OrderingViolation | OE_Codec _ | OE_Timeout _ => Abort_
  | OE_Backend be =>
      match be with
      | BE_NotFound | BE_NotModified | BE_InvalidPath | BE_AlreadyExists | BE_Precondition | BE_NotSupported | BE_NotImplemented
      | BE_PermissionDenied | BE_Unauthenticated | BE_UnknownConfigurationKey => Abort_
      | BE_Other => Retry_
      end
  | OE_Io => Retry_
  end.

(** ** Delays *)

Definition NANOS_PER_SEC : Z := 1000 * 1000 * 1000.
Definition NANOS_PER_MILLI : Z := 1000 * 1000.
Definition U32_MAX : Z := 2 ^ 32 - 1.
(** [Duration::MAX]. *)
Definition DURATION_MAX : Z := U64_MAX * NANOS_PER_SEC + (NANOS_PER_SEC - 1).

Record RetryConfig : Type := mkRetryConfig {
  rc_max_inflight_writes : Z;
  rc_max_inflight_reads : Z;
  rc_base_delay : Z;
  rc_max_delay : Z;
  rc_jitter : Z;
}.

(** [RetryConfig::default] on so many cores. *)
Definition retry_config_default (cores : Z) : RetryConfig :=
  let concurrency := Z.min (Z.max (u64 (cores * 25)) 50) 1000 in
  mkRetryConfig concurrency concurrency NANOS_PER_SEC (60 * NANOS_PER_SEC) NANOS_PER_SEC.

Definition jitter_ms (config : RetryConfig) : Z := u64 (rc_jitter config / NANOS_PER_MILLI).

(** [random] is the draw from [0..=jitter_ms]. *)
Definition backoff_delay (config : RetryConfig) (retries random : Z) : option Z :=
  let exp := Z.min (Z.min (rc_base_delay config * u32 (Z.shiftl 1 (Z.min retries 16))) DURATION_MAX) (rc_max_delay config) in
  let delay := exp + random * NANOS_PER_MILLI in
  if DURATION_MAX <? delay then None else Some delay.

(** ** The loop *)

Record Attempt (W A : Type) : Type := mkAttempt {
  at_took : Z;
  at_random : Z;
  at_run : W → result ObjectError A * W;
}.
Arguments mkAttempt {W A} _ _ _.
Arguments at_took {W A} _.
Arguments at_random {W A} _.
Arguments at_run {W A} _.

Definition past (deadline : option Z) (at_ : Z) : bool :=
  match deadline with Some d => d <=? at_ | None => false end.

(** The outcome, with the world and the time it is returned at. *)
Fixpoint retry_until_definitive {W A} (config : RetryConfig) (key : bytes) (deadline : option Z) (retries now : Z)
    (attempts : list (Attempt W A)) (w : W) : option (result ObjectError A * W * Z) :=
  match attempts with
  | [] => None
  | a :: attempts =>
      let '(r, w) := at_run a w in
      let now := now + at_took a in
      match r with
      | Ok value => Some (Ok value, w, now)
      | Err e =>
          match retry_class e with
          | Abort_ => Some (Err e, w, now)
          | Retry_ =>
              let* delay := backoff_delay config retries (at_random a) in
              if past deadline (now + delay) then Some (Err (OE_Timeout key), w, now)
              else retry_until_definitive config key deadline (Z.min (retries + 1) U32_MAX) (now + delay) attempts w
          end
      end
  end.

(** ** The storage calls *)

(** A call of the inner storage: it may fail, having been carried out or not, in whole or in
    part, as [left] says. *)
Record Call (F : Type) : Type := mkCall { ca_took : Z; ca_random : Z; ca_clock : Z; ca_fault : option (ObjectError * F) }.
Arguments mkCall {F} _ _ _ _.
Arguments ca_took {F} _.
Arguments ca_random {F} _.
Arguments ca_clock {F} _.
Arguments ca_fault {F} _.

Section Storage.
Context {S : Type} `{!ObjectStorage S}.

Definition attempt {F A} (ok : Z → S → result ObjectError A * S) (left : Z → F → S → S) (c : Call F) : Attempt S A :=
  mkAttempt (ca_took c) (ca_random c)
    (λ s, match ca_fault c with None => ok (ca_clock c) s | Some (e, f) => (Err e, left (ca_clock c) f s) end).

Definition retrying_range_read (config : RetryConfig) (key : bytes) (start : Z) (end_ : option Z) (waited now : Z) (calls : list (Call unit)) (s : S)
  : option (result ObjectError bytes * S * Z) :=
  retry_until_definitive config key None 0 (now + waited) (attempt (λ _ s, (os_range_read s key start end_, s)) (λ _ _ s, s) <$> calls) s.

Definition retrying_list (config : RetryConfig) (prefix : bytes) (waited now : Z) (calls : list (Call unit)) (s : S)
  : option (result ObjectError (list ObjectInfo) * S * Z) :=
  retry_until_definitive config prefix None 0 (now + waited) (attempt (λ _ s, (Ok (os_list s prefix), s)) (λ _ _ s, s) <$> calls) s.

(** A failed write may have been carried out. *)
Definition write_left (key data : bytes) (clock : Z) (applied : bool) (s : S) : S := if applied then os_write s clock key data else s.
Definition retrying_write (config : RetryConfig) (timeout : option Z) (key data : bytes) (waited now : Z) (calls : list (Call bool)) (s : S)
  : option (result ObjectError unit * S * Z) :=
  let now := now + waited in
  let deadline := (λ t, now + t) <$> timeout in
  retry_until_definitive config key deadline 0 now (attempt (λ clock s, (Ok tt, os_write s clock key data)) (write_left key data) <$> calls) s.

(** A failed delete may have deleted some of the paths in front. *)
Definition delete_left (paths : list ObjectPath) (_ : Z) (n : nat) (s : S) : S := os_delete s (take n paths).
Definition retrying_delete (config : RetryConfig) (paths : list ObjectPath) (waited now : Z) (calls : list (Call nat)) (s : S)
  : option (result ObjectError unit * S * Z) :=
  retry_until_definitive config (str "batch") None 0 (now + waited) (attempt (λ _ s, (Ok tt, os_delete s paths)) (delete_left paths) <$> calls) s.

(** [RetryingMultipartWriter] with the parts it passed on: a part is not retried, the end of
    the upload is. *)
Record RetryingMultipartWriter : Type := mkMultipart { mw_key : bytes; mw_parts : list bytes }.
Definition multipart_write (fault : option ObjectError) (part : bytes) (m : RetryingMultipartWriter) : result ObjectError RetryingMultipartWriter :=
  match fault with
  | Some e => Err e
  | None => Ok (mkMultipart (mw_key m) (mw_parts m ++ [part]))
  end.
Definition multipart_finish (config : RetryConfig) (m : RetryingMultipartWriter) (waited now : Z) (calls : list (Call bool)) (s : S)
  : option (result ObjectError unit * S * Z) :=
  let data := concat (mw_parts m) in
  retry_until_definitive config (mw_key m) None 0 (now + waited) (attempt (λ clock s, (Ok tt, os_write s clock (mw_key m) data)) (write_left (mw_key m) data) <$> calls) s.
End Storage.

(** ** Delays are bounded *)

Record config_ok (config : RetryConfig) : Prop := {
  ck_base : 0 ≤ rc_base_delay config;
  ck_max : 0 ≤ rc_max_delay config;
  ck_jitter : 0 ≤ rc_jitter config;
  ck_sum : rc_max_delay config + rc_jitter config ≤ DURATION_MAX;
}.
Definition least_delay (config : RetryConfig) : Z := Z.min (rc_base_delay config) (rc_max_delay config).
Definition random_ok (config : RetryConfig) (random : Z) : Prop := 0 ≤ random ≤ jitter_ms config.

Lemma factor_range retries : 0 ≤ retries → 1 ≤ u32 (Z.shiftl 1 (Z.min retries 16)) ≤ 2 ^ 16.
Proof.
  intros Hr. assert (0 < 2 ^ Z.min retries 16 ≤ 2 ^ 16) as Hp by (split; [apply Z.pow_pos_nonneg; lia|apply Z.pow_le_mono_r; lia]).
  rewrite Z.shiftl_mul_pow2 by lia. unfold u32, wrap_u. rewrite Z.mod_small; lia.
Qed.

Lemma backoff_delay_bounds config retries random :
  config_ok config → 0 ≤ retries → random_ok config random →
  ∃ d, backoff_delay config retries random = Some d ∧ least_delay config ≤ d ≤ rc_max_delay config + rc_jitter config.
Proof.
  intros [H1 H2 H3 H4] Hr [Hlo Hhi]. pose proof (factor_range retries Hr) as Hf. unfold backoff_delay, least_delay. cbv zeta.
  set (f := u32 _) in *. set (b := rc_base_delay config) in *. set (m := rc_max_delay config) in *.
  assert (random * NANOS_PER_MILLI ≤ rc_jitter config) as Hj.
  { unfold jitter_ms, u64, wrap_u in Hhi. pose proof (Z.mod_le (rc_jitter config / NANOS_PER_MILLI) (2 ^ 64)) as Hm. unfold NANOS_PER_MILLI in *.
    assert (0 ≤ rc_jitter config / (1000 * 1000)) by (apply Z.div_pos; lia). assert (random ≤ rc_jitter config / (1000 * 1000)) by lia.
    pose proof (Z.mul_div_le (rc_jitter config) (1000 * 1000)). lia. }
  assert (0 ≤ random * NANOS_PER_MILLI) by (unfold NANOS_PER_MILLI; lia). assert (b ≤ b * f) by nia. clearbody f b m.
  destruct (Z.ltb_spec DURATION_MAX (Z.min (Z.min (b * f) DURATION_MAX) m + random * NANOS_PER_MILLI)); [lia|]. eexists. split; [done|]. lia.
Qed.

(** ** The loop *)

Section Loop.
Context {W A : Type} (config : RetryConfig) (key : bytes).
Implicit Types attempts : list (Attempt W A).

Definition definitive (r : result ObjectError A) : Prop :=
  match r with Ok _ => True | Err e => retry_class e = Abort_ end.

(** What every attempt keeps holds at the end, which is a definitive attempt or the deadline. *)
Lemma retry_sound (P : W → Prop) deadline retries now attempts w r w' now' :
  (∀ a w, a ∈ attempts → P w → P (at_run a w).2) → P w → retry_until_definitive config key deadline retries now attempts w = Some (r, w', now') →
  P w' ∧ ((∃ a w0, a ∈ attempts ∧ P w0 ∧ at_run a w0 = (r, w') ∧ definitive r) ∨ (is_Some deadline ∧ r = Err (OE_Timeout key))).
Proof.
  revert retries now w; induction attempts as [|a attempts IH]; intros retries now w HP Hw; cbn [retry_until_definitive]; [done|].
  pose proof (HP a w ltac:(left) Hw) as Ha. destruct (at_run a w) as [[v|e] w1] eqn:Er; cbn [snd] in Ha.
  { intros [= <- <- <-]. split; [done|]. left. exists a, w. split_and!; [left|done..]. }
  destruct (retry_class e) eqn:Ec.
  { intros [= <- <- <-]. split; [done|]. left. exists a, w. split_and!; [left|done..]. }
  destruct (backoff_delay _ _ _) as [delay|]; [|done]. destruct (past deadline _) eqn:Ep.
  { intros [= <- <- <-]. split; [done|]. right. split; [|done]. by destruct deadline. }
  intros H. destruct (IH _ _ _ (λ b w Hb, HP b w ltac:(by right)) Ha H) as [H1 H2]. split; [done|]. destruct H2 as [(b & w0 & Hb & H2)|H2]; [|by right].
  left. exists b, w0. split; [by right|done].
Qed.

Definition transient (a : Attempt W A) : Prop := ∀ w, ∃ e, (at_run a w).1 = Err e ∧ retry_class e = Retry_.

(** Without a deadline the loop gets to the first attempt that is definitive. *)
Lemma retry_returns retries now fs a rest w :
  config_ok config → Forall (λ a, random_ok config (at_random a)) fs → 0 ≤ retries → Forall transient fs → (∀ w, definitive (at_run a w).1) →
  ∃ w0 now', retry_until_definitive config key None retries now (fs ++ a :: rest) w = Some (at_run a w0, now').
Proof.
  intros Hc Hr. revert retries now w; induction Hr as [|f fs Hf Hr IH]; intros retries now w Hret Hfs Ha; cbn [app retry_until_definitive].
  - exists w. specialize (Ha w). destruct (at_run a w) as [[v|e] w1]; cbn in *; [by eexists|]. rewrite Ha. by eexists.
  - apply Forall_cons in Hfs as [Ht Hfs]. destruct (Ht w) as (e & Ee & Ec). destruct (at_run f w) as [x w1]. cbn in Ee. subst x. rewrite Ec.
    destruct (backoff_delay_bounds config retries (at_random f)) as (d & -> & _); [done..|]. cbn [past]. apply IH; [unfold U32_MAX; lia|done|done].
Qed.

(** With a deadline it returns whatever the attempts do, and starts none behind the deadline. *)
Lemma retry_deadline_returns deadline retries now attempts w :
  config_ok config → Forall (λ a, random_ok config (at_random a) ∧ 0 ≤ at_took a) attempts → 0 ≤ retries →
  attempts ≠ [] → deadline - now ≤ least_delay config * len attempts →
  is_Some (retry_until_definitive config key (Some deadline) retries now attempts w).
Proof.
  intros Hc Hall. revert retries now w; induction Hall as [|a attempts [Hra Hta] Hall IH]; intros retries now w Hret Hne Hlen; [done|]. cbn [retry_until_definitive].
  destruct (at_run a w) as [[v|e] w1]; [by eexists|]. destruct (retry_class e); [by eexists|].
  destruct (backoff_delay_bounds config retries (at_random a)) as (d & -> & Hd & _); [done..|]. unfold past. destruct (Z.leb_spec deadline (now + at_took a + d)); [by eexists|].
  cbn [length] in Hlen. rewrite Nat2Z.inj_succ, Z.mul_succ_r in Hlen. apply IH; [unfold U32_MAX; lia| |lia].
  intros ->. cbn [length] in Hlen. change (Z.of_nat 0) with 0 in Hlen. lia.
Qed.

Lemma retry_deadline_in_time bound deadline retries now attempts w r w' now' :
  Forall (λ a, at_took a ≤ bound) attempts → now < deadline →
  retry_until_definitive config key (Some deadline) retries now attempts w = Some (r, w', now') → now' < deadline + bound.
Proof.
  intros Hall. revert retries now w; induction Hall as [|a attempts Ha Hall IH]; intros retries now w Hnow; cbn [retry_until_definitive]; [done|].
  destruct (at_run a w) as [[v|e] w1]; [intros [= <- <- <-]; lia|]. destruct (retry_class e); [intros [= <- <- <-]; lia|].
  destruct (backoff_delay _ _ _) as [d|]; [|done]. unfold past. destruct (Z.leb_spec deadline (now + at_took a + d)); [intros [= <- <- <-]; lia|]. by apply IH.
Qed.
End Loop.

(** ** The storage calls *)

Section Calls.
Context {S : Type} `{!ObjectStorage S} `{!ObjectStorageLaws S}.

(** A call that fails in passing, and one that does not fail. *)
Definition passing {F} (c : Call F) : Prop := match ca_fault c with Some (e, _) => retry_class e = Retry_ | None => False end.
Definition call_ok {F} (config : RetryConfig) (c : Call F) : Prop := random_ok config (ca_random c).

(** Calls that fail in passing are retried up to the first that does not fail. *)
Lemma calls_return {F A} (ok : Z → S → result ObjectError A * S) left config key now fs (c : Call F) rest s :
  config_ok config → Forall (call_ok config) fs → Forall passing fs → ca_fault c = None → (∀ clock s, definitive (ok clock s).1) →
  ∃ s0 now', retry_until_definitive config key None 0 now (attempt ok left <$> fs ++ c :: rest) s = Some (ok (ca_clock c) s0, now').
Proof.
  intros Hc Hok Hfs Hf Hdef. rewrite fmap_app. cbn [fmap list_fmap].
  destruct (retry_returns config key 0 now (attempt ok left <$> fs) (attempt ok left c) (attempt ok left <$> rest) s) as (s0 & now' & E); [done| |lia| | |].
  - apply Forall_fmap. eapply Forall_impl; [exact Hok|]. by intros f Hf'.
  - apply Forall_fmap. eapply Forall_impl; [exact Hfs|]. intros f Hp w. unfold passing in Hp. cbn. destruct (ca_fault f) as [[e x]|]; [|done]. by exists e.
  - intros w. cbn. rewrite Hf. apply Hdef.
  - exists s0, now'. rewrite E. unfold attempt at 1. cbn [at_run]. by rewrite Hf.
Qed.

(** What a call to write may leave: the object, or what was there; nothing else changes. *)
Definition all_or_nothing (key data : bytes) (s s' : S) : Prop :=
  (∀ key' a b, key' ≠ key → os_range_read s' key' a b = os_range_read s key' a b) ∧ (os_read s' key = Ok data ∨ os_read s' key = os_read s key).

Lemma written_all key data clock s s' : all_or_nothing key data s s' → all_or_nothing key data s (os_write s' clock key data).
Proof. intros [H1 _]. split; [|left; apply os_read_write]. intros key' a b Hk. rewrite os_write_other by done. by apply H1. Qed.

Lemma writes_sound config key data deadline now calls s r s' now' :
  retry_until_definitive config key deadline 0 now (attempt (λ clock s, (Ok tt, os_write s clock key data)) (write_left key data) <$> calls) s = Some (r, s', now') →
  all_or_nothing key data s s' ∧ (r = Ok tt → os_read s' key = Ok data).
Proof.
  intros E. eapply (retry_sound config key (all_or_nothing key data s)) in E as [H1 H2]; [| |split; [done|by right]].
  - split; [done|]. intros ->. destruct H2 as [(a & w0 & (c & -> & _)%list_elem_of_fmap & _ & Ea & _)|[_ ?]]; [|done]. cbn in Ea.
    destruct (ca_fault c) as [[e f]|]; [done|]. injection Ea as <-. apply os_read_write.
  - intros a w (c & -> & _)%list_elem_of_fmap Hw. cbn. destruct (ca_fault c) as [[e []]|]; cbn; [by apply written_all|done|by apply written_all].
Qed.
End Calls.

(** C15: a retried write is all or nothing for its key and leaves every other key alone,
    however many of its attempts fail and whether or not a failed one took effect; it
    reports success only when the object is there in full, and without a timeout it gets
    through as soon as an attempt does after failures in passing.  The same holds of the end of a
    multipart upload, for the parts in order. *)
Theorem retried_write_durable {S : Type} `{!ObjectStorage S} `{!ObjectStorageLaws S} config timeout key data parts waited now calls (s : S) :
  config_ok config → Forall (call_ok config) calls →
  (∀ r s' now', retrying_write config timeout key data waited now calls s = Some (r, s', now') →
     all_or_nothing key data s s' ∧ (r = Ok tt → os_read s' key = Ok data))
  ∧ (∀ r s' now', multipart_finish config (mkMultipart key parts) waited now calls s = Some (r, s', now') →
     all_or_nothing key (concat parts) s s' ∧ (r = Ok tt → os_read s' key = Ok (concat parts)))
  ∧ ∀ fs c rest, calls = fs ++ c :: rest → Forall passing fs → ca_fault c = None →
     (∃ s' now', retrying_write config None key data waited now calls s = Some (Ok tt, s', now'))
     ∧ ∃ s' now', multipart_finish config (mkMultipart key parts) waited now calls s = Some (Ok tt, s', now').
Proof.
  intros Hc Hall. split_and!.
  - intros r s' now' E. by eapply writes_sound.
  - intros r s' now' E. by eapply writes_sound.
  - intros fs c rest -> Hfs Hf. apply Forall_app in Hall as [Hall _]. split.
    + destruct (calls_return (λ clock s, (Ok tt, os_write s clock key data)) (write_left key data) config key (now + waited) fs c rest s) as (s0 & now' & E); [done..|]. by do 2 eexists.
    + destruct (calls_return (λ clock s, (Ok tt, os_write s clock key (concat parts))) (write_left key (concat parts)) config key (now + waited) fs c rest s) as (s0 & now' & E); [done..|]. by do 2 eexists.
Qed.

(** Two failures, the first of which took effect. *)
Lemma retried_write_durable_witness :
  let calls := [mkCall 5 0 10 (Some (OE_Io, true)); mkCall 5 3 11 (Some (OE_Backend BE_Other, false)); mkCall 5 0 12 None] in
  ∃ s' now', retrying_write (retry_config_default 4) None [1] [2; 3] 4 0 calls (ms_new 0) = Some (Ok tt, s', now') ∧ os_read s' [1] = Ok [2; 3].
Proof.
  cbv zeta. set (calls := [_; _; _]).
  destruct (retried_write_durable (retry_config_default 4) None [1] [2; 3] [] 4 0 calls (ms_new 0)) as (H1 & _ & H3).
  - constructor; vm_compute; done.
  - repeat constructor; vm_compute; done.
  - destruct (H3 [mkCall 5 0 10 (Some (OE_Io, true)); mkCall 5 3 11 (Some (OE_Backend BE_Other, false))] (mkCall 5 0 12 None) [] eq_refl) as [(s' & now' & E) _]; [repeat constructor|done|].
    exists s', now'. split; [exact E|]. destruct (H1 _ _ _ E) as [_ H]. by apply H.
Defined.

(** C17: a write with a timeout always ends.  When the least delay between two attempts is
    positive, it needs at most one attempt more than such delays fit into the timeout, whatever
    the attempts do; and it returns, counted from when it got its permit, before the timeout
    and the time of one attempt have passed. *)
Theorem write_timeout_terminates {S : Type} `{!ObjectStorage S} config timeout bound key data waited now calls (s : S) :
  config_ok config → 0 < timeout → 0 < least_delay config → Forall (λ c, call_ok config c ∧ 0 ≤ ca_took c ≤ bound) calls →
  timeout / least_delay config + 1 ≤ len calls →
  ∃ r s' now', retrying_write config (Some timeout) key data waited now calls s = Some (r, s', now')
    ∧ now' < (now + waited) + timeout + bound.
Proof.
  intros Hc Ht Hm Hall Hlen. unfold retrying_write. cbn [fmap option_fmap option_map]. generalize (now + waited). clear now waited. intros now.
  set (attempts := attempt _ _ <$> calls).
  assert (timeout ≤ least_delay config * len attempts) as Hen.
  { unfold attempts in *. rewrite length_fmap. pose proof (Z.mul_succ_div_gt timeout (least_delay config) Hm). nia. }
  destruct (retry_deadline_returns config key (now + timeout) 0 now attempts s) as [[[r s'] now'] E]; [done| |lia| |lia|].
  - apply Forall_fmap. eapply Forall_impl; [exact Hall|]. intros c [H1 H2]. split; [exact H1|apply H2].
  - unfold attempts. destruct calls; [|done]. change (len []) with 0 in Hlen. pose proof (Z.div_pos timeout (least_delay config)). lia.
  - exists r, s', now'. split; [exact E|]. refine (retry_deadline_in_time config key bound (now + timeout) 0 now attempts s r s' now' _ _ E); [|lia]. apply Forall_fmap. eapply Forall_impl; [exact Hall|]. by intros c [_ [_ H]].
Qed.

(** Three attempts at most in two seconds and a half. *)
Lemma write_timeout_terminates_witness :
  let calls := replicate 3 (mkCall 7 0 0 (Some (OE_Io, false))) in
  ∃ r s' now', retrying_write (retry_config_default 4) (Some 2500000000) [1] [2] 40 0 calls (ms_new 0) = Some (r, s', now')
    ∧ now' < (0 + 40) + 2500000000 + 7 ∧ r = Err (OE_Timeout [1]).
Proof.
  cbv zeta. destruct (write_timeout_terminates (retry_config_default 4) 2500000000 7 [1] [2] 40 0 (replicate 3 (mkCall 7 0 0 (Some (OE_Io, false)))) (ms_new 0)) as (r & s' & now' & E & H).
  - constructor; vm_compute; done.
  - lia.
  - vm_compute. done.
  - repeat constructor; vm_compute; done.
  - vm_compute. done.
  - exists r, s', now'. split_and!; [exact E|exact H|]. revert E. vm_compute. by intros [= <- _ _].
Defined.
