(* ===== verification/WalFormat.v ===== *)
(** * Object WAL: object headers, keys, alignment, reservation

    Models [s3stream-wal/src/object/{header,keys,reservation}.rs] and the plain
    types of [s3stream-wal/src/{lib,error}.rs].  [hex::encode_upper(Md5::digest(_))]
    is the parameter [md5_hex_upper]. *)
From S2P Require Import Prelude Collections Codec ObjectStore.

(** ** error.rs and lib.rs: plain types *)

Inductive WalError : Type :=
| WE_OverCapacity (unconfirmed_bytes cap_bytes : Z)
| WE_Fenced (node_id our_epoch : Z)
| WE_NotInitialized
| WE_RecordTooLarge (size max : Z)
| WE_Recovery
| WE_Shutdown
| WE_Unmarshal (e : CodecError)
| WE_Storage (e : ObjectError)
| WE_Io.

#[export] Instance WalError_eq_dec : EqDecision WalError.
Proof. solve_decision. Defined.

Record RecordOffset : Type := { ro_epoch : Z; ro_offset : Z; ro_size : Z }.

#[export] Instance RecordOffset_eq_dec : EqDecision RecordOffset.
Proof. solve_decision. Defined.

Definition end_offset (r : RecordOffset) : Z := u64 (ro_offset r + ro_size r).

Record AppendResult : Type := { ar_record_offset : RecordOffset; ar_next_offset : RecordOffset }.

Record RecoverResult : Type := {
  rr_record : StreamRecordBatch;
  rr_record_offset : RecordOffset;
}.

Inductive OpenMode : Type := ReadWrite | Recovery.

#[export] Instance OpenMode_eq_dec : EqDecision OpenMode.
Proof. solve_decision. Defined.

(** ** header.rs *)

Definition WAL_HEADER_MAGIC_V0 : Z := 0x12345678.
Definition WAL_HEADER_SIZE_V0 : nat := 4 + 8 + 8 + 8 + 4 + 8.
Definition WAL_HEADER_MAGIC_V1 : Z := 0xEDCBA987.
Definition WAL_HEADER_SIZE_V1 : nat := WAL_HEADER_SIZE_V0 + 8.
Definition MAX_WAL_HEADER_SIZE : nat := WAL_HEADER_SIZE_V1.
Definition TRIM_OFFSET_NONE : Z := -1.

Record WalObjectHeader : Type := {
  wh_magic : Z;
  wh_start_offset : Z;
  wh_body_length : Z;
  wh_sticky_record_length : Z;
  wh_node_id : Z;
  wh_epoch : Z;
  wh_trim_offset : Z;
}.

Definition header_v1 (start_offset body_length node_id epoch trim_offset : Z) : WalObjectHeader :=
  {| wh_magic := WAL_HEADER_MAGIC_V1; wh_start_offset := start_offset;
     wh_body_length := body_length; wh_sticky_record_length := 0;
     wh_node_id := node_id; wh_epoch := epoch; wh_trim_offset := trim_offset |}.

Definition header_size (h : WalObjectHeader) : nat :=
  if wh_magic h =? WAL_HEADER_MAGIC_V1 then WAL_HEADER_SIZE_V1 else WAL_HEADER_SIZE_V0.

Definition header_marshal (h : WalObjectHeader) : bytes :=
  be 4 (wh_magic h) ++ be 8 (wh_start_offset h) ++ be 8 (wh_body_length h)
    ++ be 8 (wh_sticky_record_length h) ++ be 4 (wh_node_id h) ++ be 8 (wh_epoch h)
    ++ (if wh_magic h =? WAL_HEADER_MAGIC_V1 then be 8 (wh_trim_offset h) else []).

Definition header_unmarshal (buf : bytes) : result WalError WalObjectHeader :=
  if len buf <? 4 then Err WE_Recovery
  else
    let magic := read_be 0 4 buf in
    let? size :=
      (if magic =? WAL_HEADER_MAGIC_V0 then Ok WAL_HEADER_SIZE_V0
       else if magic =? WAL_HEADER_MAGIC_V1 then Ok WAL_HEADER_SIZE_V1
       else Err WE_Recovery) in
    if len buf <? Z.of_nat size then Err WE_Recovery
    else Ok {| wh_magic := magic;
               wh_start_offset := read_be 4 8 buf;
               wh_body_length := read_be 12 8 buf;
               wh_sticky_record_length := read_be 20 8 buf;
               wh_node_id := read_be 28 4 buf;
               wh_epoch := read_be 32 8 buf;
               wh_trim_offset :=
                 if magic =? WAL_HEADER_MAGIC_V1 then i64 (read_be 40 8 buf)
                 else TRIM_OFFSET_NONE |}.

Definition calculate_end_offset_v0 (start_offset object_size : Z) : Z :=
  u64 (start_offset + object_size - Z.of_nat WAL_HEADER_SIZE_V0).

(** ** keys.rs *)

Definition DATA_FILE_ALIGN_SIZE : Z := 64 * 1024 * 1024.
Definition OBJECT_PATH_OFFSET_DELIMITER : Z := DASH.
Definition KAFKA_NAMESPACE : bytes := str "_kafka_".
Definition TRIM_RECORD_SENTINEL : Z := U64_MAX.

Record WalObject : Type := {
  wo_bucket_id : Z;
  wo_key : bytes;
  wo_epoch : Z;
  wo_start_offset : Z;
  wo_end_offset : Z;
  wo_size : Z;
}.

#[export] Instance WalObject_eq_dec : EqDecision WalObject.
Proof. solve_decision. Defined.

(** [hex::encode_upper(Md5::digest(input))]: third-party code. *)
Class Md5HexUpper : Type := md5_hex_upper : bytes → bytes.

Definition is_space (b : Z) : bool := (b =? 32) || ((9 <=? b) && (b <=? 13)).

(** [wal_type.trim().is_empty()] on ASCII type tags. *)
Definition node_prefix `{Md5HexUpper} (cluster_id : bytes) (node_id : Z) (wal_type : option bytes)
  : bytes :=
  let type_suffix :=
    match wal_type with
    | Some t => if forallb is_space t then [] else str "_" ++ t
    | None => []
    end in
  md5_hex_upper (dec node_id) ++ str "/" ++ KAFKA_NAMESPACE ++ cluster_id ++ str "/"
    ++ dec node_id ++ type_suffix ++ str "/".

Definition gen_object_path_v1 (node_prefix : bytes) (epoch start_offset end_offset : Z) : bytes :=
  node_prefix ++ dec epoch ++ str "/wal/" ++ dec start_offset
    ++ [OBJECT_PATH_OFFSET_DELIMITER] ++ dec end_offset.

Definition gen_object_path_v1_aligned (node_prefix : bytes) (epoch start_offset : Z) : bytes :=
  gen_object_path_v1 node_prefix epoch start_offset (u64 (start_offset + DATA_FILE_ALIGN_SIZE)).

(** One listing entry: [None] is the "invalid WAL object" warning. *)
Definition parse_wal_object (object : ObjectInfo) : option WalObject :=
  let key := op_key (oi_path object) in
  let parts := split_on SLASH key in
  if (length parts <? 3)%nat then None
  else
    let raw_offset := default [] (last parts) in
    let* epoch := parse_u64 (default [] (parts !! (length parts - 3)%nat)) in
    match split_once OBJECT_PATH_OFFSET_DELIMITER raw_offset with
    | Some (start, end_) =>
        let* start_offset := parse_u64 start in
        let* end_offset := parse_u64 end_ in
        Some {| wo_bucket_id := op_bucket_id (oi_path object); wo_key := key;
                wo_epoch := epoch; wo_start_offset := start_offset;
                wo_end_offset := end_offset; wo_size := oi_size object |}
    | None =>
        let* start_offset := parse_u64 raw_offset in
        Some {| wo_bucket_id := op_bucket_id (oi_path object); wo_key := key;
                wo_epoch := epoch; wo_start_offset := start_offset;
                wo_end_offset := calculate_end_offset_v0 start_offset (oi_size object);
                wo_size := oi_size object |}
    end.

Definition wal_object_le (a b : WalObject) : bool :=
  (wo_epoch a <? wo_epoch b)
  || ((wo_epoch a =? wo_epoch b) && (wo_start_offset a <=? wo_start_offset b)).

Definition parse_wal_objects (objects : list ObjectInfo) : list WalObject :=
  sort_by wal_object_le (omap parse_wal_object objects).

(** The loop never moves [last_object] past the first object. *)
Definition overlap_loop (objects : list WalObject) : list WalObject :=
  match objects with
  | [] => []
  | last :: rest =>
      (λ _, last) <$> filter (λ o, wo_epoch last ≠ wo_epoch o ∧ wo_end_offset last > wo_start_offset o) rest
  end.

(** [if let Some(pos) = position(..) { remove(pos) }]: the first equal object. *)
Fixpoint remove_first (o : WalObject) (l : list WalObject) : list WalObject :=
  match l with
  | [] => []
  | x :: l' => if decide (x = o) then l' else x :: remove_first o l'
  end.

(** The kept objects and the dropped ones. *)
Definition skip_overlap_objects (objects : list WalObject) : list WalObject * list WalObject :=
  let overlap_objects := overlap_loop objects in
  (foldl (λ l o, remove_first o l) objects overlap_objects, overlap_objects).

Definition floor_align_offset (offset : Z) : Z :=
  u64 (offset / DATA_FILE_ALIGN_SIZE * DATA_FILE_ALIGN_SIZE).

(** [u64::div_ceil]. *)
Definition div_ceil (a b : Z) : Z := if a mod b =? 0 then a / b else a / b + 1.
Definition ceil_align_offset (offset : Z) : Z :=
  u64 (div_ceil offset DATA_FILE_ALIGN_SIZE * DATA_FILE_ALIGN_SIZE).

(** ** reservation.rs *)

Definition S3_RESERVATION_OBJECT_MAGIC_CODE : Z := 0x12345678.
Definition S3_RESERVATION_OBJECT_LENGTH : nat := 4 + 8 + 8 + 1.

Definition reservation_path (cluster_id : bytes) (node_id : Z) : bytes :=
  str "reservation/" ++ KAFKA_NAMESPACE ++ cluster_id ++ str "/" ++ dec node_id.

Definition target_bytes (node_id epoch : Z) (failover : bool) : bytes :=
  be 4 S3_RESERVATION_OBJECT_MAGIC_CODE ++ be 8 (i64 node_id) ++ be 8 (i64 epoch)
    ++ be 1 (if failover then 1 else 0).

Section Reservation.
Context {S : Type} `{!ObjectStorage S}.

Definition acquire (s : S) (now : Z) (cluster_id : bytes) (node_id epoch : Z) (failover : bool) : S :=
  os_write s now (reservation_path cluster_id node_id) (target_bytes node_id epoch failover).

(** [Ok(false)] on a failed read: an unreachable reservation fences. *)
Definition verify (s : S) (cluster_id : bytes) (node_id epoch : Z) (failover : bool) : bool :=
  match os_range_read s (reservation_path cluster_id node_id) 0
          (Some (Z.of_nat S3_RESERVATION_OBJECT_LENGTH)) with
  | Ok b =>
      if negb (len b =? Z.of_nat S3_RESERVATION_OBJECT_LENGTH) then false
      else bool_decide (b = target_bytes node_id epoch failover)
  | Err _ => false
  end.
End Reservation.

(** ** Alignment *)

Definition aligned (z : Z) : Prop := z mod DATA_FILE_ALIGN_SIZE = 0.

Ltac align_lia :=
  unfold aligned, ceil_align_offset, floor_align_offset, div_ceil, DATA_FILE_ALIGN_SIZE in *;
  change (64 * 1024 * 1024) with 67108864 in *;
  repeat match goal with
  | |- context [if ?c then _ else _] => destruct c eqn:?
  | H : context [if ?c then _ else _] |- _ => destruct c eqn:?
  end;
  int_lia.

(** The next aligned offset, as long as it is a [u64]. *)
Lemma ceil_align_spec z :
  0 ≤ z ≤ 2 ^ 64 - DATA_FILE_ALIGN_SIZE →
  aligned (ceil_align_offset z) ∧ z ≤ ceil_align_offset z < z + DATA_FILE_ALIGN_SIZE.
Proof. intros. align_lia. Qed.

Lemma floor_align_spec z :
  is_u64 z → aligned (floor_align_offset z) ∧ floor_align_offset z ≤ z < floor_align_offset z + DATA_FILE_ALIGN_SIZE.
Proof. intros. align_lia. Qed.

(** A non-empty body of at most one slot, starting on a boundary, ends in its slot. *)
Lemma ceil_align_slot base n :
  aligned base → 0 ≤ base → 0 < n ≤ DATA_FILE_ALIGN_SIZE →
  base + DATA_FILE_ALIGN_SIZE < 2 ^ 64 →
  ceil_align_offset (base + n) = base + DATA_FILE_ALIGN_SIZE.
Proof. intros. align_lia. Qed.

Lemma floor_align_slot base o :
  aligned base → 0 ≤ base → base ≤ o < base + DATA_FILE_ALIGN_SIZE →
  base + DATA_FILE_ALIGN_SIZE < 2 ^ 64 →
  floor_align_offset o = base.
Proof. intros. align_lia. Qed.

(** ** Header round trip *)

Definition wf_wal_header (h : WalObjectHeader) : Prop :=
  is_u64 (wh_start_offset h) ∧ is_u64 (wh_body_length h) ∧ is_u64 (wh_sticky_record_length h)
  ∧ is_u32 (wh_node_id h) ∧ is_u64 (wh_epoch h)
  ∧ ((wh_magic h = WAL_HEADER_MAGIC_V1 ∧ is_i64 (wh_trim_offset h))
     ∨ (wh_magic h = WAL_HEADER_MAGIC_V0 ∧ wh_trim_offset h = TRIM_OFFSET_NONE)).

Lemma length_header_marshal h :
  length (header_marshal h) = header_size h.
Proof.
  unfold header_marshal, header_size, WAL_HEADER_SIZE_V1, WAL_HEADER_SIZE_V0.
  destruct (wh_magic h =? _); rewrite !length_app, ?length_be; done.
Qed.

Lemma header_unmarshal_marshal h rest :
  wf_wal_header h → header_unmarshal (header_marshal h ++ rest) = Ok h.
Proof.
  intros (H1 & H2 & H3 & H4 & H5 & H6). unfold header_unmarshal.
  rewrite length_app, length_header_marshal. unfold header_size.
  destruct H6 as [[Hm Ht]|[Hm Ht]]; unfold header_marshal; destruct h as [m ? ? ? ? ? t];
    cbn [wh_magic wh_start_offset wh_body_length wh_sticky_record_length wh_node_id wh_epoch
         wh_trim_offset] in *; subst m.
  - rewrite Z.eqb_refl. cbn iota. rewrite <- !app_assoc. read_fields.
    replace (u32 WAL_HEADER_MAGIC_V1) with WAL_HEADER_MAGIC_V1 by reflexivity.
    change (WAL_HEADER_MAGIC_V1 =? WAL_HEADER_MAGIC_V0) with false. rewrite Z.eqb_refl. cbn iota.
    unfold WAL_HEADER_SIZE_V1, WAL_HEADER_SIZE_V0 in *. cbn [Nat.add]. do 2 if_false.
    by rewrite i64_u64, (i64_small t), !u64_small, u32_small by done.
  - change (WAL_HEADER_MAGIC_V0 =? WAL_HEADER_MAGIC_V1) with false. cbn iota.
    rewrite <- !app_assoc. read_fields.
    replace (u32 WAL_HEADER_MAGIC_V0) with WAL_HEADER_MAGIC_V0 by reflexivity.
    rewrite Z.eqb_refl. cbn iota. change (WAL_HEADER_MAGIC_V0 =? WAL_HEADER_MAGIC_V1) with false.
    unfold WAL_HEADER_SIZE_V0 in *. cbn [Nat.add]. do 2 if_false.
    by rewrite !u64_small, u32_small, Ht by done.
Qed.

(** ** Key round trip *)

Lemma not_digit_slash : is_digit SLASH = false.
Proof. done. Qed.
Lemma not_digit_dash : is_digit DASH = false.
Proof. done. Qed.

(** The last three components of a v1 key, whatever the prefix holds. *)
Lemma split_v1_key prefix e s t :
  is_u64 e → is_u64 s → is_u64 t → 
  ∃ ps, split_on SLASH (gen_object_path_v1 (prefix ++ [SLASH]) e s t)
        = ps ++ [dec e; str "wal"; dec s ++ [DASH] ++ dec t] ∧ ps ≠ [].
Proof.
  intros He Hs Ht. unfold gen_object_path_v1, OBJECT_PATH_OFFSET_DELIMITER.
  pose proof (dec_no_sep _ e He not_digit_slash).
  pose proof (dec_no_sep _ s Hs not_digit_slash).
  pose proof (dec_no_sep _ t Ht not_digit_slash).
  assert (SLASH ∉ dec s ++ [DASH] ++ dec t) as Hraw.
  { rewrite !elem_of_app, list_elem_of_singleton. by intros [?|[?|?]]. }
  assert (∀ a, split_on SLASH (dec e ++ str "/wal/" ++ a)
               = [dec e; str "wal"] ++ split_on SLASH a) as Hmid.
  { assert (SLASH ∉ str "wal") by (by apply (bool_decide_unpack _)).
    intros a. change (str "/wal/" ++ a) with (SLASH :: str "wal" ++ SLASH :: a).
    rewrite split_on_app, split_on_app by done. done. }
  rewrite <- app_assoc. cbn [app].
  induction prefix as [|x prefix IH]; cbn [app split_on].
  - exists [[]]. rewrite Hmid, split_on_none by done. done.
  - destruct IH as (ps & Hps & Hne). rewrite Hps. destruct (x =? SLASH).
    + by exists ([] :: ps).
    + destruct ps as [|p ps]; [done|]. by exists ((x :: p) :: ps).
Qed.

Lemma parse_gen_object_path_v1 prefix e s t bucket ts size :
  is_u64 e → is_u64 s → is_u64 t →
  let key := gen_object_path_v1 (prefix ++ [SLASH]) e s t in
  parse_wal_object {| oi_path := {| op_bucket_id := bucket; op_key := key |};
                      oi_timestamp_ms := ts; oi_size := size |}
  = Some {| wo_bucket_id := bucket; wo_key := key; wo_epoch := e;
            wo_start_offset := s; wo_end_offset := t; wo_size := size |}.
Proof.
  intros He Hs Ht key. unfold parse_wal_object. cbn [oi_path op_key op_bucket_id oi_size].
  destruct (split_v1_key prefix e s t He Hs Ht) as (ps & Hps & Hne).
  fold key in Hps. rewrite Hps, length_app. cbn [length].
  replace (_ <? 3)%nat with false by (symmetry; apply Nat.ltb_ge; lia). cbv iota.
  replace (length ps + 3 - 3)%nat with (length ps) by lia.
  rewrite list_lookup_middle by done.
  rewrite (last_app _ [_; _; _]). cbn [last from_option id].
  rewrite (parse_u64_dec e He). unfold OBJECT_PATH_OFFSET_DELIMITER. cbn [app].
  rewrite split_once_app by (by apply dec_no_sep).
  by rewrite (parse_u64_dec s Hs), (parse_u64_dec t Ht).
Qed.

(** ** Overlap *)

(** What the loop really removes: only the head of the sorted list, and only
    when it overlaps an object of another epoch. *)
Lemma skip_overlap_spec o rest :
  (skip_overlap_objects (o :: rest)).1
  = if decide (Exists (λ x, wo_epoch o ≠ wo_epoch x ∧ wo_end_offset o > wo_start_offset x) rest)
    then foldl (λ l x, remove_first x l) rest
           (tail (overlap_loop (o :: rest)))
    else o :: rest.
Proof.
  unfold skip_overlap_objects, overlap_loop. cbn [fst].
  set (P := λ x : WalObject, wo_epoch o ≠ wo_epoch x ∧ wo_end_offset o > wo_start_offset x).
  destruct (filter P rest) as [|x l] eqn:E; case_decide as Hex.
  - apply Exists_exists in Hex as (x & Hx & HP). exfalso.
    by eapply (filter_nil_not_elem_of P rest x).
  - done.
  - cbn [fmap list_fmap foldl remove_first tail]. by rewrite decide_True.
  - destruct Hex. apply Exists_exists. exists x.
    assert (x ∈ filter P rest) as [? ?]%list_elem_of_filter by (rewrite E; left). done.
Qed.

(** Nothing is invented: kept and dropped objects come from the listing. *)
Lemma remove_first_sub o l x : x ∈ remove_first o l → x ∈ l.
Proof.
  induction l as [|y l IH]; simpl; [done|]. case_decide; [by right|].
  intros [->|?]%elem_of_cons; [left|right; auto].
Qed.

Lemma skip_overlap_sub l x :
  x ∈ (skip_overlap_objects l).1 ∨ x ∈ (skip_overlap_objects l).2 → x ∈ l.
Proof.
  unfold skip_overlap_objects. cbn [fst snd]. intros [Hx|Hx].
  - revert Hx. generalize (overlap_loop l) as ov. intros ov. revert l.
    induction ov as [|o ov IH]; intros l; simpl; [done|]. intros ?%IH. by eapply remove_first_sub.
  - destruct l as [|o l]; simpl in Hx; [by apply not_elem_of_nil in Hx|].
    apply list_elem_of_fmap in Hx as (? & -> & _). left.
Qed.

Lemma skip_overlap_nil : skip_overlap_objects [] = ([], []).
Proof. done. Qed.

(** ** Reservation *)

Lemma length_target_bytes n e f : length (target_bytes n e f) = S3_RESERVATION_OBJECT_LENGTH.
Proof. unfold target_bytes. by rewrite !length_app, !length_be. Qed.

Lemma i64_be8_inj a b : is_u64 a → is_u64 b → be 8 (i64 a) = be 8 (i64 b) → a = b.
Proof.
  intros Ha Hb H. apply (f_equal unbe) in H. rewrite !unbe_be8, !u64_i64 in H.
  by rewrite !u64_small in H by done.
Qed.

Lemma target_bytes_inj n e f n' e' f' :
  is_u32 n → is_u32 n' → is_u64 e → is_u64 e' →
  target_bytes n e f = target_bytes n' e' f' → n = n' ∧ e = e' ∧ f = f'.
Proof.
  intros Hn Hn' He He' H. unfold target_bytes in H.
  apply app_inj_1 in H as [_ H]; [|by rewrite !length_be].
  apply app_inj_1 in H as [H1 H]; [|by rewrite !length_be].
  apply app_inj_1 in H as [H2 H3]; [|by rewrite !length_be].
  split_and!.
  - apply i64_be8_inj; [int_lia..|done].
  - by apply i64_be8_inj.
  - by destruct f, f'.
Qed.

(** ** Properties *)

(** A WAL object header read back from the front of the object is the header
    that was written, for v1 (with the trim watermark) and v0 (trim reported as -1). *)
Theorem wal_header_roundtrip h rest :
  wf_wal_header h →
  header_unmarshal (header_marshal h ++ rest) = Ok h
  ∧ drop (header_size h) (header_marshal h ++ rest) = rest.
Proof.
  intros Hwf. split; [by apply header_unmarshal_marshal|].
  apply drop_app_length'. by rewrite length_header_marshal.
Qed.

Lemma wal_header_roundtrip_witness :
  header_unmarshal (header_marshal (header_v1 67108864 100 7 3 (-1)) ++ [1; 2])
  = Ok (header_v1 67108864 100 7 3 (-1)).
Proof.
  apply (wal_header_roundtrip (header_v1 67108864 100 7 3 (-1)) [1; 2]).
  split_and!; try done. left. done.
Defined.

(** Listing what the writer stored gives the objects back: every key built by
    [gen_object_path_v1] under a node prefix parses to its epoch and offsets, foreign
    keys are skipped, and the result is sorted by (epoch, start offset). *)
Theorem wal_listing_roundtrip prefix (ws : list (Z * Z * Z * Z)) foreign bucket :
  Forall (λ '(e, s, t, _), is_u64 e ∧ is_u64 s ∧ is_u64 t) ws →
  Forall (λ o, parse_wal_object o = None) foreign →
  let info := λ '(e, s, t, size),
    {| oi_path := {| op_bucket_id := bucket; op_key := gen_object_path_v1 (prefix ++ [SLASH]) e s t |};
       oi_timestamp_ms := 0; oi_size := size |} in
  let object := λ '(e, s, t, size),
    {| wo_bucket_id := bucket; wo_key := gen_object_path_v1 (prefix ++ [SLASH]) e s t;
       wo_epoch := e; wo_start_offset := s; wo_end_offset := t; wo_size := size |} in
  let listed := parse_wal_objects ((info <$> ws) ++ foreign) in
  listed ≡ₚ object <$> ws
  ∧ StronglySorted (λ a b, wo_epoch a < wo_epoch b
      ∨ (wo_epoch a = wo_epoch b ∧ wo_start_offset a ≤ wo_start_offset b)) listed.
Proof.
  intros Hws Hf info object. unfold parse_wal_objects.
  assert (omap parse_wal_object ((info <$> ws) ++ foreign) = object <$> ws) as ->.
  { rewrite omap_app.
    replace (omap parse_wal_object foreign) with (@nil WalObject).
    2: { induction Hf as [|o l Ho _ IH]; [done|]. cbn. by rewrite Ho. }
    rewrite app_nil_r. induction Hws as [|[[[e s] t] size] l (? & ? & ?) _ IH]; [done|].
    cbn [fmap list_fmap]. unfold info at 1. unfold object at 1.
    cbn [omap list_omap]. rewrite parse_gen_object_path_v1 by done. by f_equal. }
  split; [apply sort_by_perm|].
  assert (∀ l, StronglySorted (λ a b, wal_object_le a b = true) l →
    StronglySorted (λ a b, wo_epoch a < wo_epoch b
      ∨ (wo_epoch a = wo_epoch b ∧ wo_start_offset a ≤ wo_start_offset b)) l) as Himp.
  { induction 1 as [|x l _ IH Hx]; constructor; [done|].
    eapply Forall_impl; [exact Hx|]. unfold wal_object_le. intros y ?. lia. }
  apply Himp, sort_by_sorted; unfold wal_object_le; intros; lia.
Qed.

Lemma wal_listing_roundtrip_witness :
  let info k := {| oi_path := {| op_bucket_id := 0; op_key := k |};
                   oi_timestamp_ms := 0; oi_size := 48 |} in
  parse_wal_objects
    [ info (gen_object_path_v1 (str "N/") 3 67108864 134217728);
      info (gen_object_path_v1 (str "N/") 3 0 67108864); info (str "junk") ]
  ≡ₚ [ {| wo_bucket_id := 0; wo_key := gen_object_path_v1 (str "N/") 3 67108864 134217728;
          wo_epoch := 3; wo_start_offset := 67108864; wo_end_offset := 134217728; wo_size := 48 |};
       {| wo_bucket_id := 0; wo_key := gen_object_path_v1 (str "N/") 3 0 67108864;
          wo_epoch := 3; wo_start_offset := 0; wo_end_offset := 67108864; wo_size := 48 |} ].
Proof.
  intros info.
  apply (wal_listing_roundtrip (str "N") [(3, 67108864, 134217728, 48); (3, 0, 67108864, 48)]
    [info (str "junk")] 0); repeat constructor; done.
Defined.

(** Fencing by reservation: over any storage that keeps the trait's promises,
    after an acquisition for a node the check succeeds for exactly the (epoch,
    failover) pair that acquired last, and other nodes' reservations are untouched. *)
Theorem reservation_fences {S : Type} `{!ObjectStorage S} `{!ObjectStorageLaws S}
    (s : S) now cluster n e f n' e' f' :
  is_u32 n → is_u32 n' → is_u64 e → is_u64 e' →
  verify (acquire s now cluster n e f) cluster n e' f' = bool_decide (e = e' ∧ f = f')
  ∧ (n ≠ n' → verify (acquire s now cluster n e f) cluster n' e' f' = verify s cluster n' e' f').
Proof.
  intros Hn Hn' He He'. unfold verify, acquire. split.
  - rewrite os_range_write by (rewrite ?length_target_bytes; lia).
    rewrite <- (length_target_bytes n e f) at 1 2. rewrite slice_0_all.
    rewrite length_target_bytes, Z.eqb_refl. cbn [negb].
    apply bool_decide_ext. split; [|by intros [-> ->]].
    intros (_ & -> & ->)%target_bytes_inj; done.
  - intros Hne. rewrite os_write_other; [done|].
    unfold reservation_path. intros Heq. do 4 apply app_inv_head in Heq.
    apply Hne. apply (f_equal parse_u64) in Heq.
    rewrite !parse_u64_dec in Heq by int_lia. by injection Heq.
Qed.

Lemma reservation_fences_witness :
  let s := acquire (ms_new 0) 0 (str "c") 7 1 false in
  verify (acquire s 0 (str "c") 7 2 false) (str "c") 7 1 false = false.
Proof.
  intros s.
  apply (reservation_fences s 0 (str "c") 7 2 false 8 1 false); done.
Defined.
