(* ===== verification/WalFactory.v ===== *)
(** * Storage and log URIs

    Models the bucket URI and the adapter over the [object_store] crate of
    [s3stream-object/src/storage.rs], the log configuration of
    [s3stream-wal/src/object/config.rs] and [s3stream-wal/src/factory.rs].  The backend behind
    the adapter is the class [Backend]; what its builders return is an argument. *)
From S2P Require Import Prelude Collections Codec ObjectStore WalFormat.

(** ** Strings *)

(** [s.split_once(p)] for a string [p]. *)
Fixpoint split_once_str (p s : bytes) : option (bytes * bytes) :=
  if starts_with p s then Some ([], drop (length p) s)
  else
    match s with
    | [] => None
    | b :: s' => let* (x, y) := split_once_str p s' in Some (b :: x, y)
    end.

(** [str::parse::<i16>]: one optional sign, then at least one digit, in range. *)
Definition parse_i16 (s : bytes) : option Z :=
  match s with
  | [] => None
  | b :: digits =>
      let negative := b =? 45 in
      let digits := if negative || (b =? 43) then digits else s in
      match digits with
      | [] => None
      | _ =>
          let* n := parse_digits 0 digits in
          let n := if negative then - n else n in
          if (- 2 ^ 15 <=? n) && (n <? 2 ^ 15) then Some n else None
      end
  end.

Definition to_ascii_uppercase (s : bytes) : bytes := (λ b, if (97 <=? b) && (b <=? 122) then b - 32 else b) <$> s.
Definition eq_ignore_ascii_case (a b : bytes) : bool := bool_decide (to_ascii_uppercase a = to_ascii_uppercase b).

(** ** The bucket URI *)

Record IdUri : Type := mkIdUri {
  iu_id : Z;
  iu_protocol : bytes;
  iu_path : bytes;
  iu_extension : list (bytes * bytes);
}.

Definition AT : Z := 64.
Definition QUESTION : Z := 63.
Definition AMPERSAND : Z := 38.
Definition EQUALS : Z := 61.

Definition parse_pair (pair : bytes) : bytes * bytes := default (pair, []) (split_once EQUALS pair).

Definition id_uri_parse (raw : bytes) : result ObjectError IdUri :=
  match split_once AT raw with
  | None => Err OE_InvalidFormat
  | Some (id_part, rest) =>
      match parse_i16 id_part with
      | None => Err OE_InvalidFormat
      | Some id =>
          match split_once_str (str "://") rest with
          | None => Err OE_InvalidFormat
          | Some (protocol, rest) =>
              let '(path, query) := match split_once QUESTION rest with Some (p, q) => (p, Some q) | None => (rest, None) end in
              let extension := match query with None => [] | Some query => parse_pair <$> filter (λ s, s ≠ []) (split_on AMPERSAND query) end in
              Ok (mkIdUri id protocol path extension)
          end
      end
  end.

Definition extension_str (key : bytes) (u : IdUri) : option bytes := snd <$> head (filter (λ e, e.1 = key) (iu_extension u)).
Definition extension_bool (key : bytes) (default_ : bool) (u : IdUri) : bool :=
  default default_ ((λ v, eq_ignore_ascii_case v (str "true")) <$> extension_str key u).

(** ** The adapter *)

(** The [object_store] calls the adapter makes. *)
Class Backend (B : Type) : Type := {
  be_get_range : B → bytes → Z → Z → result BackendError bytes;
  be_get_from : B → bytes → option Z → result BackendError bytes;
  be_put : B → bytes → bytes → result BackendError unit * B;
  be_delete : B → bytes → result BackendError unit * B;
  be_list : B → bytes → result BackendError (list (bytes * Z * Z));
}.

Definition backend_error (key : bytes) (e : BackendError) : ObjectError :=
  match e with BE_NotFound => OE_NotFound key | other => OE_Backend other end.

Record ObjectStoreAdapter (B : Type) : Type := mkAdapter { ad_inner : B; ad_bucket_id : Z }.
Arguments mkAdapter {B} _ _.
Arguments ad_inner {B} _.
Arguments ad_bucket_id {B} _.

Definition S3_EXPRESS_BUCKET_SUFFIX : bytes := str "--x-s3".
Definition ends_with (p s : bytes) : bool := starts_with (rev p) (rev s).

(** What [s3_builder] sets on the builder. *)
Record S3Builder : Type := mkBuilder {
  sb_bucket : bytes;
  sb_region : option bytes;
  sb_endpoint : option bytes;
  sb_allow_http : bool;
  sb_path_style : bool;
  sb_s3_express : bool;
}.
Definition s3_builder (u : IdUri) : S3Builder :=
  let endpoint := extension_str (str "endpoint") u in
  mkBuilder (iu_path u) (extension_str (str "region") u) endpoint
    (match endpoint with Some e => starts_with (str "http://") e | None => false end)
    (extension_bool (str "pathStyle") false u)
    (extension_bool (str "s3Express") false u || ends_with S3_EXPRESS_BUCKET_SUFFIX (iu_path u)).

Section Adapter.
Context {B : Type} (build_s3 : S3Builder → result BackendError B) (build_file : bytes → result BackendError B) (in_memory : B).

Definition from_bucket_uri (uri : bytes) : result ObjectError (ObjectStoreAdapter B) :=
  let? u := id_uri_parse uri in
  let? inner :=
    if bool_decide (iu_protocol u = str "s3") then map_err OE_Backend (build_s3 (s3_builder u))
    else if bool_decide (iu_protocol u = str "file") then map_err OE_Backend (build_file (iu_path u))
    else if bool_decide (iu_protocol u = str "mem") then Ok in_memory
    else Err OE_InvalidFormat in
  Ok (mkAdapter inner (iu_id u)).

Context `{!Backend B}.

Definition adapter_range_read (a : ObjectStoreAdapter B) (key : bytes) (start : Z) (end_ : option Z) : result ObjectError bytes :=
  map_err (backend_error key)
    match end_ with
    | Some end_ => be_get_range (ad_inner a) key start end_
    | None => be_get_from (ad_inner a) key (if 0 <? start then Some start else None)
    end.

Definition adapter_write (a : ObjectStoreAdapter B) (key data : bytes) : result ObjectError Z * ObjectStoreAdapter B :=
  let '(r, inner) := be_put (ad_inner a) key data in
  (match r with Ok _ => Ok (ad_bucket_id a) | Err e => Err (backend_error key e) end, mkAdapter inner (ad_bucket_id a)).

Definition adapter_list (a : ObjectStoreAdapter B) (prefix : bytes) : result ObjectError (list ObjectInfo) :=
  match be_list (ad_inner a) prefix with
  | Err e => Err (backend_error prefix e)
  | Ok metas => Ok ((λ m, Build_ObjectInfo (Build_ObjectPath (ad_bucket_id a) m.1.1) m.1.2 m.2) <$> metas)
  end.

Fixpoint adapter_delete (paths : list ObjectPath) (a : ObjectStoreAdapter B) : result ObjectError unit * ObjectStoreAdapter B :=
  match paths with
  | [] => (Ok tt, a)
  | path :: paths =>
      let '(r, inner) := be_delete (ad_inner a) (op_key path) in
      let a := mkAdapter inner (ad_bucket_id a) in
      match r with
      | Ok _ | Err BE_NotFound => adapter_delete paths a
      | Err e => (Err (backend_error (op_key path) e), a)
      end
  end.

(** The probe of a process. *)
Definition readiness_check (process_id : Z) (a : ObjectStoreAdapter B) : result ObjectError unit * ObjectStoreAdapter B :=
  let key := str "__pico/readiness_check/" ++ dec process_id in
  let '(r, inner) := be_put (ad_inner a) key (str "ok") in
  match r with
  | Err e => (Err (backend_error key e), mkAdapter inner (ad_bucket_id a))
  | Ok _ =>
      let '(r, inner) := be_delete inner key in
      (map_err (backend_error key) r, mkAdapter inner (ad_bucket_id a))
  end.
End Adapter.

(** ** The configuration of a log *)

Record ObjectWalConfig : Type := mkObjectWalConfig {
  wc_uri : bytes;
  wc_cluster_id : bytes;
  wc_node_id : Z;
  wc_epoch : Z;
  wc_open_mode : OpenMode;
  wc_bucket_id : Z;
  wc_wal_type : bytes;
  wc_batch_interval : Z;
  wc_max_bytes_in_batch : Z;
  wc_max_unflushed_bytes : Z;
  wc_max_inflight_upload_count : Z;
  wc_readahead_data_size : Z;
}.

Definition wal_config_defaults : ObjectWalConfig :=
  mkObjectWalConfig [] [] 0 0 ReadWrite 0 [] 250 (8 * 1024 * 1024) (1024 * 1024 * 1024) 50 (100 * 1024 * 1024).

(** A number of 64 bits, without a sign. *)
Definition numeric (s : bytes) : option Z :=
  if bool_decide (s = []) || negb (forallb is_digit s) then None else parse_u64 s.

Definition parameter (key : bytes) (u : IdUri) (f : Z → Z) (default_ : Z) : Z :=
  match extension_str key u ≫= numeric with Some v => f v | None => default_ end.

Definition wal_config_from_uri (uri : bytes) : result WalError ObjectWalConfig :=
  let? u := map_err WE_Storage (id_uri_parse uri) in
  let d := wal_config_defaults in
  Ok (mkObjectWalConfig uri (wc_cluster_id d) (wc_node_id d) (wc_epoch d) (wc_open_mode d) (iu_id u) (wc_wal_type d)
    (parameter (str "batchInterval") u id (wc_batch_interval d))
    (parameter (str "maxBytesInBatch") u id (wc_max_bytes_in_batch d))
    (parameter (str "maxUnflushedBytes") u id (wc_max_unflushed_bytes d))
    (parameter (str "maxInflightUploadCount") u (λ v, Z.max v 1) (wc_max_inflight_upload_count d))
    (parameter (str "readaheadDataSize") u (λ v, Z.max v 1) (wc_readahead_data_size d))).

Definition wal_config_from_uri_or_defaults (uri : bytes) : result WalError ObjectWalConfig :=
  if bool_decide (uri = []) then Ok wal_config_defaults else wal_config_from_uri uri.

(** ** The factory and the handle *)

Record BuildOptions : Type := mkBuildOptions { bo_node_epoch : Z; bo_open_mode : OpenMode }.
Definition build_options_validate (o : BuildOptions) : result WalError unit := if bo_node_epoch o =? 0 then Err WE_Recovery else Ok tt.

Definition check_object_wal_protocol (protocol : bytes) : result WalError unit :=
  let p := to_ascii_uppercase protocol in
  if bool_decide (p = str "S3") || bool_decide (p = str "MEM") || bool_decide (p = str "FILE") then Ok tt else Err WE_Recovery.

Section Factory.
(** [connect] is [ObjectStoreAdapter::from_bucket_uri] behind the retrying storage. *)
Context {S : Type} `{!ObjectStorage S} (connect : bytes → result ObjectError S).

Definition storage_for (storage : option S) (uri : bytes) : result WalError S :=
  match storage with Some s => Ok s | None => map_err WE_Storage (connect uri) end.

(** The storage with the reservation in it. *)
Definition acquire_permission (cluster_id : bytes) (storage : option S) (now node_id node_epoch : Z) (wal_config : bytes) (failover_mode : bool) : result WalError S :=
  let? u := map_err WE_Storage (id_uri_parse wal_config) in
  let? _ := check_object_wal_protocol (iu_protocol u) in
  let? s := storage_for storage wal_config in
  Ok (acquire s now cluster_id node_id node_epoch failover_mode).

Definition release_permission (wal_config : bytes) : result WalError unit :=
  let? u := map_err WE_Storage (id_uri_parse wal_config) in
  check_object_wal_protocol (iu_protocol u).

Definition wal_build (cluster_id : bytes) (node_id : Z) (storage : option S) (uri : bytes) (options : BuildOptions) : result WalError (S * ObjectWalConfig) :=
  let? _ := build_options_validate options in
  let? u := map_err WE_Storage (id_uri_parse uri) in
  let? _ := check_object_wal_protocol (iu_protocol u) in
  let? s := storage_for storage uri in
  let? c := wal_config_from_uri uri in
  Ok (s, mkObjectWalConfig (wc_uri c) cluster_id node_id (bo_node_epoch options) (bo_open_mode options) (wc_bucket_id c) (wc_wal_type c)
    (wc_batch_interval c) (wc_max_bytes_in_batch c) (wc_max_unflushed_bytes c) (wc_max_inflight_upload_count c) (wc_readahead_data_size c)).
End Factory.

(** ** Round trips *)

Definition dec_i (z : Z) : bytes := if z <? 0 then 45 :: dec (- z) else dec z.

Fixpoint join (c : Z) (l : list bytes) : bytes :=
  match l with
  | [] => []
  | [s] => s
  | s :: l => s ++ c :: join c l
  end.

(** The documented form, [{id}@{scheme}://{path}?k=v&k2=v2]. *)
Definition id_uri_print (u : IdUri) : bytes :=
  dec_i (iu_id u) ++ AT :: iu_protocol u ++ str "://" ++ iu_path u
    ++ match iu_extension u with [] => [] | ext => QUESTION :: join AMPERSAND ((λ e, e.1 ++ EQUALS :: e.2) <$> ext) end.

Record wf_uri (u : IdUri) : Prop := {
  wu_id : is_i16 (iu_id u);
  wu_protocol : 58 ∉ iu_protocol u;
  wu_path : QUESTION ∉ iu_path u;
  wu_extension : Forall (λ e, (EQUALS ∉ e.1) ∧ (AMPERSAND ∉ e.1) ∧ (AMPERSAND ∉ e.2)) (iu_extension u);
}.

Lemma parse_digits_all acc s n : parse_digits acc s = Some n → forallb is_digit s = true.
Proof. revert acc; induction s as [|b s IH]; intros acc; cbn; [done|]. destruct (is_digit b); [|done]. destruct (_ <? _); [apply IH|done]. Qed.

Lemma parse_digits_dec64 z : is_u64 z → parse_digits 0 (dec z) = Some z.
Proof. intros Hz. apply parse_digits_dec; [done|]. change (10 ^ Z.of_nat 20) with 100000000000000000000. unfold_ints. lia. Qed.

Lemma i16_in_range z : is_i16 z → (- 2 ^ 15 <=? z) && (z <? 2 ^ 15) = true.
Proof. unfold in_i. change (16 - 1) with 15. lia. Qed.

Lemma parse_i16_dec z : is_i16 z → parse_i16 (dec_i z) = Some z.
Proof.
  intros Hz. unfold dec_i. destruct (Z.ltb_spec z 0).
  - assert (is_u64 (- z)) as Hu by (unfold_ints; lia). unfold parse_i16. destruct (dec_props _ Hu) as [Hne _]. pose proof (parse_digits_dec64 _ Hu) as Hp.
    change (45 =? 45) with true. cbn [orb]. destruct (dec (- z)) as [|b s]; [done|]. rewrite Hp, Z.opp_involutive. by rewrite i16_in_range.
  - assert (is_u64 z) as Hu by (unfold_ints; lia). destruct (dec_props _ Hu) as [Hne Hd]. pose proof (parse_digits_dec64 z Hu) as Hp. unfold parse_i16.
    destruct (dec z) as [|b s] eqn:Ed; [done|]. apply Forall_cons in Hd as [Hb _]. unfold is_digit in Hb. destruct (Z.eqb_spec b 45); [lia|]. destruct (Z.eqb_spec b 43); [lia|]. cbn [orb].
    rewrite Hp. by rewrite i16_in_range.
Qed.

Lemma dec_i_no_at z : is_i16 z → AT ∉ dec_i z.
Proof.
  intros Hz. unfold dec_i. destruct (Z.ltb_spec z 0).
  - intros [Hc|Hc]%elem_of_cons; [done|]. revert Hc. apply dec_no_sep; [unfold_ints; lia|done].
  - apply dec_no_sep; [unfold_ints; lia|done].
Qed.

Lemma split_once_none c s : c ∉ s → split_once c s = None.
Proof.
  induction s as [|b s IH]; cbn; [done|]. intros [Hb Hs]%not_elem_of_cons. rewrite (proj2 (Z.eqb_neq b c)) by done. by rewrite IH.
Qed.

Lemma split_once_str_app a b : 58 ∉ a → split_once_str (str "://") (a ++ str "://" ++ b) = Some (a, b).
Proof.
  induction a as [|x a IH]; [done|]. intros [Hx Ha]%not_elem_of_cons. cbn [app split_once_str]. change (starts_with (str "://") (x :: a ++ str "://" ++ b)) with ((58 =? x) && starts_with (str "//") (a ++ str "://" ++ b)).
  rewrite (proj2 (Z.eqb_neq 58 x)) by done. cbn [andb]. by rewrite IH.
Qed.

Lemma split_on_join c l : l ≠ [] → Forall (λ s, c ∉ s) l → split_on c (join c l) = l.
Proof.
  intros Hne Hl. induction Hl as [|s l Hs Hl IH]; [done|]. destruct l as [|s' l]; [by apply split_on_none|].
  change (join c (s :: s' :: l)) with (s ++ c :: join c (s' :: l)). rewrite split_on_app by done. by rewrite IH.
Qed.

Lemma id_uri_parse_print u : wf_uri u → id_uri_parse (id_uri_print u) = Ok u.
Proof.
  intros [H1 H2 H3 H4]. unfold id_uri_parse, id_uri_print. rewrite split_once_app by (by apply dec_i_no_at). rewrite parse_i16_dec by done. rewrite split_once_str_app by done.
  destruct u as [id protocol path ext]. cbn [iu_id iu_protocol iu_path iu_extension] in *. destruct ext as [|e ext]; [by rewrite app_nil_r, split_once_none by done|].
  rewrite split_once_app by done. rewrite split_on_join; [|done|].
  - rewrite filter_all; [|intros x ([k v] & -> & _)%list_elem_of_fmap; by destruct k]. rewrite <- list_fmap_compose. do 2 f_equal. revert H4. generalize (e :: ext). intros l Hl.
    induction Hl as [|[k v] l (Hk & _) Hl IH]; [done|]. cbn [fmap list_fmap]. rewrite IH. f_equal. unfold compose, parse_pair. cbn [fst snd]. by rewrite split_once_app.
  - apply Forall_fmap. eapply Forall_impl; [exact H4|]. intros [k v] (_ & Hk & Hv). cbn in *. rewrite elem_of_app, elem_of_cons. by intros [?|[?|?]].
Qed.

Lemma numeric_dec v : is_u64 v → numeric (dec v) = Some v.
Proof.
  intros Hv. unfold numeric. destruct (dec_props v Hv) as [Hne _]. rewrite bool_decide_false by done. rewrite (parse_digits_all 0 _ v) by (by apply parse_digits_dec64).
  cbn [orb negb]. by apply parse_u64_dec.
Qed.

Lemma parameter_dec key u f d v : is_u64 v → extension_str key u = Some (dec v) → parameter key u f d = f v.
Proof. intros Hv E. unfold parameter. rewrite E. cbn [mbind option_bind]. by rewrite numeric_dec. Qed.

(** What is not read as a number: an absent key, an empty value, a byte that is no digit. *)
Definition not_numeric (o : option bytes) : Prop := ∀ v, o = Some v → v = [] ∨ ∃ b, b ∈ v ∧ is_digit b = false.

Lemma parameter_default key u f d : not_numeric (extension_str key u) → parameter key u f d = d.
Proof.
  intros Hn. unfold parameter. destruct (extension_str key u) as [v|]; [|done]. cbn [mbind option_bind]. unfold numeric.
  destruct (Hn v eq_refl) as [->|(b & Hb & Hd)]; [done|]. destruct (forallb is_digit v) eqn:E; [|by rewrite orb_true_r].
  rewrite forallb_forall in E. specialize (E b). rewrite E in Hd; [done|]. by apply list_elem_of_In.
Qed.

Lemma parameter_least key u d : 1 ≤ d → 1 ≤ parameter key u (λ v, Z.max v 1) d.
Proof. intros Hd. unfold parameter. destruct (_ ≫= _); lia. Qed.

(** C18: a bucket URI written in the documented form parses back to its parts, and the log it
    configures is the one it says: its bucket, each of the five parameters that is given as a
    64-bit decimal number, the default of each one whose key is absent, whose value is empty or
    has a character that is no digit, and at least one upload in flight and one byte of
    readahead. *)
Theorem wal_uri_roundtrip u :
  wf_uri u → id_uri_parse (id_uri_print u) = Ok u
  ∧ ∃ c, wal_config_from_uri (id_uri_print u) = Ok c ∧ wc_bucket_id c = iu_id u ∧ 1 ≤ wc_max_inflight_upload_count c ∧ 1 ≤ wc_readahead_data_size c
    ∧ (∀ key v, is_u64 v → extension_str key u = Some (dec v) →
         (key = str "batchInterval" → wc_batch_interval c = v) ∧ (key = str "maxBytesInBatch" → wc_max_bytes_in_batch c = v)
         ∧ (key = str "maxUnflushedBytes" → wc_max_unflushed_bytes c = v) ∧ (key = str "maxInflightUploadCount" → wc_max_inflight_upload_count c = Z.max v 1)
         ∧ (key = str "readaheadDataSize" → wc_readahead_data_size c = Z.max v 1))
    ∧ (not_numeric (extension_str (str "batchInterval") u) → wc_batch_interval c = 250)
    ∧ (not_numeric (extension_str (str "maxBytesInBatch") u) → wc_max_bytes_in_batch c = 8 * 1024 * 1024)
    ∧ (not_numeric (extension_str (str "maxUnflushedBytes") u) → wc_max_unflushed_bytes c = 1024 * 1024 * 1024)
    ∧ (not_numeric (extension_str (str "maxInflightUploadCount") u) → wc_max_inflight_upload_count c = 50)
    ∧ (not_numeric (extension_str (str "readaheadDataSize") u) → wc_readahead_data_size c = 100 * 1024 * 1024).
Proof.
  intros Hu. pose proof (id_uri_parse_print u Hu) as Hp. split; [done|]. eexists. unfold wal_config_from_uri. rewrite Hp. cbn [map_err]. split; [reflexivity|].
  cbn [wc_bucket_id wc_max_inflight_upload_count wc_readahead_data_size wc_batch_interval wc_max_bytes_in_batch wc_max_unflushed_bytes]. split_and!; [done|apply parameter_least; cbn; lia|apply parameter_least; cbn; lia| |apply parameter_default..].
  intros key v Hv E. split_and!; intros ->; exact (parameter_dec _ u _ _ v Hv E).
Qed.

Lemma wal_uri_roundtrip_witness :
  let u := mkIdUri (-2) (str "s3") (str "bucket") [(str "maxBytesInBatch", dec 4096); (str "maxInflightUploadCount", dec 0); (str "batchInterval", str "1s")] in
  id_uri_print u = str "-2@s3://bucket?maxBytesInBatch=4096&maxInflightUploadCount=0&batchInterval=1s"
  ∧ ∃ c, wal_config_from_uri (id_uri_print u) = Ok c ∧ wc_max_bytes_in_batch c = 4096 ∧ wc_max_inflight_upload_count c = 1 ∧ wc_bucket_id c = -2
    ∧ wc_batch_interval c = 250 ∧ wc_readahead_data_size c = 100 * 1024 * 1024.
Proof.
  cbv zeta. split; [vm_compute; reflexivity|]. set (u := mkIdUri _ _ _ _).
  destruct (wal_uri_roundtrip u) as (_ & c & E & H1 & _ & _ & H2 & H5 & _ & _ & _ & H6).
  - constructor; [vm_compute; done|by apply (bool_decide_unpack _); vm_compute..|]. repeat constructor; by apply (bool_decide_unpack _); vm_compute.
  - exists c. split; [exact E|]. destruct (H2 (str "maxBytesInBatch") 4096) as (_ & H3 & _); [vm_compute; done|vm_compute; done|].
    destruct (H2 (str "maxInflightUploadCount") 0) as (_ & _ & _ & H4 & _); [vm_compute; done|vm_compute; done|]. split_and!; [by apply H3|by apply H4|exact H1|apply H5|by apply H6].
    intros v [= <-]. right. exists 115. by split; [right; left|].
Defined.

(** A node that acquires permission for a log URI and builds the log from the same URI gets
    the log of its own identity, epoch and bucket; from then on the reservation checks succeed
    for exactly that epoch and mode, so that every other holder is fenced. *)
Theorem wal_permission_fences {S : Type} `{!ObjectStorage S} `{!ObjectStorageLaws S} (connect : bytes → result ObjectError S) cluster_id u (s : S) now n e failover_mode mode :
  wf_uri u → check_object_wal_protocol (iu_protocol u) = Ok tt → is_u32 n → is_u64 e → 0 < e →
  ∃ s' c, acquire_permission connect cluster_id (Some s) now n e (id_uri_print u) failover_mode = Ok s'
    ∧ wal_build connect cluster_id n (Some s') (id_uri_print u) (mkBuildOptions e mode) = Ok (s', c)
    ∧ (wc_cluster_id c, wc_node_id c, wc_epoch c, wc_open_mode c, wc_bucket_id c) = (cluster_id, n, e, mode, iu_id u)
    ∧ release_permission (id_uri_print u) = Ok tt
    ∧ ∀ e' failover', is_u64 e' → verify s' cluster_id n e' failover' = bool_decide (e = e' ∧ failover_mode = failover').
Proof.
  intros Hu Hp Hn He Hpos. pose proof (id_uri_parse_print u Hu) as Eu. unfold acquire_permission, wal_build, release_permission, wal_config_from_uri, build_options_validate.
  rewrite Eu. cbn [map_err bo_node_epoch bo_open_mode storage_for]. rewrite Hp. rewrite (proj2 (Z.eqb_neq e 0)) by lia. do 2 eexists. split_and!; [reflexivity|reflexivity|reflexivity|done|].
  intros e' f' He'. by apply (reservation_fences s now cluster_id n e failover_mode n e' f').
Qed.

Lemma wal_permission_fences_witness :
  let u := mkIdUri 0 (str "mem") (str "wal") [] in
  ∃ s' c, acquire_permission (λ _, Err OE_Io) (str "c") (Some (ms_new 0)) 0 7 2 (id_uri_print u) true = Ok s'
    ∧ wal_build (λ _, Err OE_Io) (str "c") 7 (Some s') (id_uri_print u) (mkBuildOptions 2 ReadWrite) = Ok (s', c)
    ∧ verify s' (str "c") 7 1 false = false ∧ verify s' (str "c") 7 2 true = true.
Proof.
  cbv zeta. set (u := mkIdUri _ _ _ _).
  destruct (wal_permission_fences (λ _, Err OE_Io) (str "c") u (ms_new 0) 0 7 2 true ReadWrite) as (s' & c & H1 & H2 & _ & _ & H3).
  - constructor; [vm_compute; done|by apply (bool_decide_unpack _); vm_compute..|constructor].
  - reflexivity.
  - done.
  - done.
  - lia.
  - exists s', c. split_and!; [exact H1|exact H2|rewrite H3 by done; reflexivity|rewrite H3 by done; reflexivity].
Defined.

(** ** The adapter keeps the contract of deletes *)

Section Deletes.
Context {B : Type} `{!Backend B}.
Context (delete_gone : ∀ (b b' : B) key r start end_, be_delete b key = (r, b') → r = Ok tt ∨ r = Err BE_NotFound → be_get_range b' key start end_ = Err BE_NotFound).
Context (delete_other : ∀ (b b' : B) key key' r start end_, be_delete b key = (r, b') → key' ≠ key → be_get_range b' key' start end_ = be_get_range b key' start end_).

Lemma adapter_delete_other paths a r a' key start end_ :
  adapter_delete paths a = (r, a') → key ∉ op_key <$> paths → be_get_range (ad_inner a') key start end_ = be_get_range (ad_inner a) key start end_.
Proof.
  revert a; induction paths as [|p paths IH]; intros a; cbn [adapter_delete]; [by intros [= <- <-]|].
  destruct (be_delete (ad_inner a) (op_key p)) as [x b] eqn:E. intros H [Hk Hks]%not_elem_of_cons. rewrite <- (delete_other _ _ _ _ _ start end_ E Hk).
  destruct x as [[]|[]]; first [by apply (IH _ H) | by injection H as <- <-].
Qed.

(** A batch that succeeds leaves no key of it, whether or not the keys were there. *)
Lemma adapter_delete_gone paths a a' key start end_ :
  adapter_delete paths a = (Ok tt, a') → key ∈ op_key <$> paths → adapter_range_read a' key start (Some end_) = Err (OE_NotFound key).
Proof.
  revert a; induction paths as [|p paths IH]; intros a; cbn [adapter_delete]; [by intros _ ?%not_elem_of_nil|].
  destruct (be_delete (ad_inner a) (op_key p)) as [x b] eqn:E. intros H Hk.
  assert (adapter_delete paths (mkAdapter b (ad_bucket_id a)) = (Ok tt, a') ∧ (x = Ok tt ∨ x = Err BE_NotFound)) as [H' Hx] by (destruct x as [[]|[]]; first [done | by split; [|left] | by split; [|right]]).
  destruct (decide (key ∈ op_key <$> paths)) as [Hin|Hin]; [by apply (IH _ H')|]. apply elem_of_cons in Hk as [->|Hk]; [|done].
  unfold adapter_range_read. rewrite (adapter_delete_other _ _ _ _ _ start end_ H' Hin). cbn [ad_inner]. by rewrite (delete_gone _ _ _ _ _ _ E Hx).
Qed.
End Deletes.
