(* ===== verification/WalWriter.v ===== *)
(** * The object WAL writer and reader

    Models [s3stream-wal/src/object/writer.rs] and the point read of
    [service.rs].  The writer's mutex-protected state and atomics are one
    record; each critical section is one function; the tokio tasks (bulk timers,
    PUTs, the callback loop, trims, delayed deletes) are the steps of [step], so
    that every interleaving of them is a sequence of steps.  Durations are not
    modelled: a timer may fire at any time. *)
From S2P Require Import Prelude Collections Codec ObjectStore WalFormat.

Record WalConfig : Type := {
  c_node_prefix : bytes;
  c_node_id : Z;
  c_epoch : Z;
  c_open_mode : OpenMode;
  c_max_bytes_in_batch : Z;
  c_max_unflushed_bytes : Z;
  c_max_inflight_upload_count : nat;
}.

Definition object_prefix (c : WalConfig) : bytes :=
  c_node_prefix c ++ dec (c_epoch c) ++ str "/wal/".

Definition object_path (object_prefix : bytes) (start_offset end_offset : Z) : bytes :=
  object_prefix ++ dec start_offset ++ str "-" ++ dec end_offset.

(** The [oneshot] acknowledgement channel is named by a ticket. *)
Record PendingRecord : Type := {
  pr_record : StreamRecordBatch;
  pr_size : Z;
  pr_offset : Z;
  pr_ack : nat;
}.

Record Bulk : Type := {
  bk_seq : Z;
  bk_base_offset : Z;
  bk_size : Z;
  bk_records : list PendingRecord;
}.

Definition bulk_end_offset (b : Bulk) : Z := u64 (bk_base_offset b + bk_size b).

Record UploadingBulk : Type := {
  ub_seq : Z;
  ub_end_offset_aligned : Z;
  ub_records : option (list PendingRecord);
  ub_done : option (result WalError unit);
}.

(** A spawned [upload_bulk] task; [j_trim] is the trim watermark it has put
    in the object header once it has built its payload. *)
Record UploadJob : Type := {
  j_seq : Z;
  j_base_offset : Z;
  j_records : list PendingRecord;
  j_trim : option Z;
}.

(** An acknowledgement sent to a caller. *)
Record Ack : Type := {
  ack_ticket : nat;
  ack_record : StreamRecordBatch;
  ack_result : result WalError AppendResult;
}.

(** A call of the append listener. *)
Record Confirm : Type := {
  cf_record : StreamRecordBatch;
  cf_offset : RecordOffset;
  cf_next : RecordOffset;
}.

Record Writer (S : Type) : Type := mkWriter {
  (* WriterState *)
  w_previous_objects : list WalObject;
  w_last_record_offset_to_object : gmap Z WalObject;
  w_active : option Bulk;
  w_bulk_seq : Z;
  w_last_inactive : option Z;
  w_waiting : list Bulk;
  w_uploading : list UploadingBulk;
  (* atomics *)
  w_buffered_data_bytes : Z;
  w_object_data_bytes : Z;
  w_next_offset : Z;
  w_flushed_offset : Z;
  w_trim_offset : Z;
  w_closed : bool;
  w_fenced : bool;
  w_completed_trim : Z;
  (* spawned tasks *)
  w_jobs : list UploadJob;
  w_callback : list UploadingBulk;
  w_trimming : list (nat * Z);
  w_delayed_deletes : list (list ObjectPath);
  w_unresolved : gmap nat Z;
  (* outputs *)
  w_completed : list Z;
  w_acks : list Ack;
  w_confirms : list Confirm;
  w_puts : list Z;
  w_store : S;
}.
Arguments mkWriter {S}.
Arguments w_previous_objects {S}.
Arguments w_last_record_offset_to_object {S}.
Arguments w_active {S}.
Arguments w_bulk_seq {S}.
Arguments w_last_inactive {S}.
Arguments w_waiting {S}.
Arguments w_uploading {S}.
Arguments w_buffered_data_bytes {S}.
Arguments w_object_data_bytes {S}.
Arguments w_next_offset {S}.
Arguments w_flushed_offset {S}.
Arguments w_trim_offset {S}.
Arguments w_closed {S}.
Arguments w_fenced {S}.
Arguments w_completed_trim {S}.
Arguments w_jobs {S}.
Arguments w_callback {S}.
Arguments w_trimming {S}.
Arguments w_delayed_deletes {S}.
Arguments w_unresolved {S}.
Arguments w_completed {S}.
Arguments w_acks {S}.
Arguments w_confirms {S}.
Arguments w_puts {S}.
Arguments w_store {S}.

(** Field updates, one per assignment the code makes. *)
Definition set_previous_objects {S} (previous_objects : list WalObject) (w : Writer S) : Writer S :=
  mkWriter previous_objects (w_last_record_offset_to_object w) (w_active w) (w_bulk_seq w)
    (w_last_inactive w) (w_waiting w) (w_uploading w) (w_buffered_data_bytes w)
    (w_object_data_bytes w) (w_next_offset w) (w_flushed_offset w) (w_trim_offset w)
    (w_closed w) (w_fenced w) (w_completed_trim w) (w_jobs w) (w_callback w) (w_trimming w)
    (w_delayed_deletes w) (w_unresolved w) (w_completed w) (w_acks w) (w_confirms w) (w_puts
    w) (w_store w).
Definition set_last_record_offset_to_object {S} (last_record_offset_to_object : gmap Z WalObject) (w : Writer S) : Writer S :=
  mkWriter (w_previous_objects w) last_record_offset_to_object (w_active w) (w_bulk_seq w)
    (w_last_inactive w) (w_waiting w) (w_uploading w) (w_buffered_data_bytes w)
    (w_object_data_bytes w) (w_next_offset w) (w_flushed_offset w) (w_trim_offset w)
    (w_closed w) (w_fenced w) (w_completed_trim w) (w_jobs w) (w_callback w) (w_trimming w)
    (w_delayed_deletes w) (w_unresolved w) (w_completed w) (w_acks w) (w_confirms w) (w_puts
    w) (w_store w).
Definition set_active {S} (active : option Bulk) (w : Writer S) : Writer S :=
  mkWriter (w_previous_objects w) (w_last_record_offset_to_object w) active (w_bulk_seq w)
    (w_last_inactive w) (w_waiting w) (w_uploading w) (w_buffered_data_bytes w)
    (w_object_data_bytes w) (w_next_offset w) (w_flushed_offset w) (w_trim_offset w)
    (w_closed w) (w_fenced w) (w_completed_trim w) (w_jobs w) (w_callback w) (w_trimming w)
    (w_delayed_deletes w) (w_unresolved w) (w_completed w) (w_acks w) (w_confirms w) (w_puts
    w) (w_store w).
Definition set_bulk_seq {S} (bulk_seq : Z) (w : Writer S) : Writer S :=
  mkWriter (w_previous_objects w) (w_last_record_offset_to_object w) (w_active w) bulk_seq
    (w_last_inactive w) (w_waiting w) (w_uploading w) (w_buffered_data_bytes w)
    (w_object_data_bytes w) (w_next_offset w) (w_flushed_offset w) (w_trim_offset w)
    (w_closed w) (w_fenced w) (w_completed_trim w) (w_jobs w) (w_callback w) (w_trimming w)
    (w_delayed_deletes w) (w_unresolved w) (w_completed w) (w_acks w) (w_confirms w) (w_puts
    w) (w_store w).
Definition set_last_inactive {S} (last_inactive : option Z) (w : Writer S) : Writer S :=
  mkWriter (w_previous_objects w) (w_last_record_offset_to_object w) (w_active w) (w_bulk_seq w)
    last_inactive (w_waiting w) (w_uploading w) (w_buffered_data_bytes w)
    (w_object_data_bytes w) (w_next_offset w) (w_flushed_offset w) (w_trim_offset w)
    (w_closed w) (w_fenced w) (w_completed_trim w) (w_jobs w) (w_callback w) (w_trimming w)
    (w_delayed_deletes w) (w_unresolved w) (w_completed w) (w_acks w) (w_confirms w) (w_puts
    w) (w_store w).
Definition set_waiting {S} (waiting : list Bulk) (w : Writer S) : Writer S :=
  mkWriter (w_previous_objects w) (w_last_record_offset_to_object w) (w_active w) (w_bulk_seq w)
    (w_last_inactive w) waiting (w_uploading w) (w_buffered_data_bytes w)
    (w_object_data_bytes w) (w_next_offset w) (w_flushed_offset w) (w_trim_offset w)
    (w_closed w) (w_fenced w) (w_completed_trim w) (w_jobs w) (w_callback w) (w_trimming w)
    (w_delayed_deletes w) (w_unresolved w) (w_completed w) (w_acks w) (w_confirms w) (w_puts
    w) (w_store w).
Definition set_uploading {S} (uploading : list UploadingBulk) (w : Writer S) : Writer S :=
  mkWriter (w_previous_objects w) (w_last_record_offset_to_object w) (w_active w) (w_bulk_seq w)
    (w_last_inactive w) (w_waiting w) uploading (w_buffered_data_bytes w)
    (w_object_data_bytes w) (w_next_offset w) (w_flushed_offset w) (w_trim_offset w)
    (w_closed w) (w_fenced w) (w_completed_trim w) (w_jobs w) (w_callback w) (w_trimming w)
    (w_delayed_deletes w) (w_unresolved w) (w_completed w) (w_acks w) (w_confirms w) (w_puts
    w) (w_store w).
Definition set_buffered_data_bytes {S} (buffered_data_bytes : Z) (w : Writer S) : Writer S :=
  mkWriter (w_previous_objects w) (w_last_record_offset_to_object w) (w_active w) (w_bulk_seq w)
    (w_last_inactive w) (w_waiting w) (w_uploading w) buffered_data_bytes
    (w_object_data_bytes w) (w_next_offset w) (w_flushed_offset w) (w_trim_offset w)
    (w_closed w) (w_fenced w) (w_completed_trim w) (w_jobs w) (w_callback w) (w_trimming w)
    (w_delayed_deletes w) (w_unresolved w) (w_completed w) (w_acks w) (w_confirms w) (w_puts
    w) (w_store w).
Definition set_object_data_bytes {S} (object_data_bytes : Z) (w : Writer S) : Writer S :=
  mkWriter (w_previous_objects w) (w_last_record_offset_to_object w) (w_active w) (w_bulk_seq w)
    (w_last_inactive w) (w_waiting w) (w_uploading w) (w_buffered_data_bytes w)
    object_data_bytes (w_next_offset w) (w_flushed_offset w) (w_trim_offset w) (w_closed w)
    (w_fenced w) (w_completed_trim w) (w_jobs w) (w_callback w) (w_trimming w)
    (w_delayed_deletes w) (w_unresolved w) (w_completed w) (w_acks w) (w_confirms w) (w_puts
    w) (w_store w).
Definition set_next_offset {S} (next_offset : Z) (w : Writer S) : Writer S :=
  mkWriter (w_previous_objects w) (w_last_record_offset_to_object w) (w_active w) (w_bulk_seq w)
    (w_last_inactive w) (w_waiting w) (w_uploading w) (w_buffered_data_bytes w)
    (w_object_data_bytes w) next_offset (w_flushed_offset w) (w_trim_offset w) (w_closed w)
    (w_fenced w) (w_completed_trim w) (w_jobs w) (w_callback w) (w_trimming w)
    (w_delayed_deletes w) (w_unresolved w) (w_completed w) (w_acks w) (w_confirms w) (w_puts
    w) (w_store w).
Definition set_flushed_offset {S} (flushed_offset : Z) (w : Writer S) : Writer S :=
  mkWriter (w_previous_objects w) (w_last_record_offset_to_object w) (w_active w) (w_bulk_seq w)
    (w_last_inactive w) (w_waiting w) (w_uploading w) (w_buffered_data_bytes w)
    (w_object_data_bytes w) (w_next_offset w) flushed_offset (w_trim_offset w) (w_closed w)
    (w_fenced w) (w_completed_trim w) (w_jobs w) (w_callback w) (w_trimming w)
    (w_delayed_deletes w) (w_unresolved w) (w_completed w) (w_acks w) (w_confirms w) (w_puts
    w) (w_store w).
Definition set_trim_offset {S} (trim_offset : Z) (w : Writer S) : Writer S :=
  mkWriter (w_previous_objects w) (w_last_record_offset_to_object w) (w_active w) (w_bulk_seq w)
    (w_last_inactive w) (w_waiting w) (w_uploading w) (w_buffered_data_bytes w)
    (w_object_data_bytes w) (w_next_offset w) (w_flushed_offset w) trim_offset (w_closed w)
    (w_fenced w) (w_completed_trim w) (w_jobs w) (w_callback w) (w_trimming w)
    (w_delayed_deletes w) (w_unresolved w) (w_completed w) (w_acks w) (w_confirms w) (w_puts
    w) (w_store w).
Definition set_closed {S} (closed : bool) (w : Writer S) : Writer S :=
  mkWriter (w_previous_objects w) (w_last_record_offset_to_object w) (w_active w) (w_bulk_seq w)
    (w_last_inactive w) (w_waiting w) (w_uploading w) (w_buffered_data_bytes w)
    (w_object_data_bytes w) (w_next_offset w) (w_flushed_offset w) (w_trim_offset w) closed
    (w_fenced w) (w_completed_trim w) (w_jobs w) (w_callback w) (w_trimming w)
    (w_delayed_deletes w) (w_unresolved w) (w_completed w) (w_acks w) (w_confirms w) (w_puts
    w) (w_store w).
Definition set_fenced {S} (fenced : bool) (w : Writer S) : Writer S :=
  mkWriter (w_previous_objects w) (w_last_record_offset_to_object w) (w_active w) (w_bulk_seq w)
    (w_last_inactive w) (w_waiting w) (w_uploading w) (w_buffered_data_bytes w)
    (w_object_data_bytes w) (w_next_offset w) (w_flushed_offset w) (w_trim_offset w)
    (w_closed w) fenced (w_completed_trim w) (w_jobs w) (w_callback w) (w_trimming w)
    (w_delayed_deletes w) (w_unresolved w) (w_completed w) (w_acks w) (w_confirms w) (w_puts
    w) (w_store w).
Definition set_completed_trim {S} (completed_trim : Z) (w : Writer S) : Writer S :=
  mkWriter (w_previous_objects w) (w_last_record_offset_to_object w) (w_active w) (w_bulk_seq w)
    (w_last_inactive w) (w_waiting w) (w_uploading w) (w_buffered_data_bytes w)
    (w_object_data_bytes w) (w_next_offset w) (w_flushed_offset w) (w_trim_offset w)
    (w_closed w) (w_fenced w) completed_trim (w_jobs w) (w_callback w) (w_trimming w)
    (w_delayed_deletes w) (w_unresolved w) (w_completed w) (w_acks w) (w_confirms w) (w_puts
    w) (w_store w).
Definition set_jobs {S} (jobs : list UploadJob) (w : Writer S) : Writer S :=
  mkWriter (w_previous_objects w) (w_last_record_offset_to_object w) (w_active w) (w_bulk_seq w)
    (w_last_inactive w) (w_waiting w) (w_uploading w) (w_buffered_data_bytes w)
    (w_object_data_bytes w) (w_next_offset w) (w_flushed_offset w) (w_trim_offset w)
    (w_closed w) (w_fenced w) (w_completed_trim w) jobs (w_callback w) (w_trimming w)
    (w_delayed_deletes w) (w_unresolved w) (w_completed w) (w_acks w) (w_confirms w) (w_puts
    w) (w_store w).
Definition set_callback {S} (callback : list UploadingBulk) (w : Writer S) : Writer S :=
  mkWriter (w_previous_objects w) (w_last_record_offset_to_object w) (w_active w) (w_bulk_seq w)
    (w_last_inactive w) (w_waiting w) (w_uploading w) (w_buffered_data_bytes w)
    (w_object_data_bytes w) (w_next_offset w) (w_flushed_offset w) (w_trim_offset w)
    (w_closed w) (w_fenced w) (w_completed_trim w) (w_jobs w) callback (w_trimming w)
    (w_delayed_deletes w) (w_unresolved w) (w_completed w) (w_acks w) (w_confirms w) (w_puts
    w) (w_store w).
Definition set_trimming {S} (trimming : list (nat * Z)) (w : Writer S) : Writer S :=
  mkWriter (w_previous_objects w) (w_last_record_offset_to_object w) (w_active w) (w_bulk_seq w)
    (w_last_inactive w) (w_waiting w) (w_uploading w) (w_buffered_data_bytes w)
    (w_object_data_bytes w) (w_next_offset w) (w_flushed_offset w) (w_trim_offset w)
    (w_closed w) (w_fenced w) (w_completed_trim w) (w_jobs w) (w_callback w) trimming
    (w_delayed_deletes w) (w_unresolved w) (w_completed w) (w_acks w) (w_confirms w) (w_puts
    w) (w_store w).
Definition set_delayed_deletes {S} (delayed_deletes : list (list ObjectPath)) (w : Writer S) : Writer S :=
  mkWriter (w_previous_objects w) (w_last_record_offset_to_object w) (w_active w) (w_bulk_seq w)
    (w_last_inactive w) (w_waiting w) (w_uploading w) (w_buffered_data_bytes w)
    (w_object_data_bytes w) (w_next_offset w) (w_flushed_offset w) (w_trim_offset w)
    (w_closed w) (w_fenced w) (w_completed_trim w) (w_jobs w) (w_callback w) (w_trimming w)
    delayed_deletes (w_unresolved w) (w_completed w) (w_acks w) (w_confirms w) (w_puts w)
    (w_store w).
Definition set_unresolved {S} (unresolved : gmap nat Z) (w : Writer S) : Writer S :=
  mkWriter (w_previous_objects w) (w_last_record_offset_to_object w) (w_active w) (w_bulk_seq w)
    (w_last_inactive w) (w_waiting w) (w_uploading w) (w_buffered_data_bytes w)
    (w_object_data_bytes w) (w_next_offset w) (w_flushed_offset w) (w_trim_offset w)
    (w_closed w) (w_fenced w) (w_completed_trim w) (w_jobs w) (w_callback w) (w_trimming w)
    (w_delayed_deletes w) unresolved (w_completed w) (w_acks w) (w_confirms w) (w_puts w)
    (w_store w).
Definition set_completed {S} (completed : list Z) (w : Writer S) : Writer S :=
  mkWriter (w_previous_objects w) (w_last_record_offset_to_object w) (w_active w) (w_bulk_seq w)
    (w_last_inactive w) (w_waiting w) (w_uploading w) (w_buffered_data_bytes w)
    (w_object_data_bytes w) (w_next_offset w) (w_flushed_offset w) (w_trim_offset w)
    (w_closed w) (w_fenced w) (w_completed_trim w) (w_jobs w) (w_callback w) (w_trimming w)
    (w_delayed_deletes w) (w_unresolved w) completed (w_acks w) (w_confirms w) (w_puts w)
    (w_store w).
Definition set_acks {S} (acks : list Ack) (w : Writer S) : Writer S :=
  mkWriter (w_previous_objects w) (w_last_record_offset_to_object w) (w_active w) (w_bulk_seq w)
    (w_last_inactive w) (w_waiting w) (w_uploading w) (w_buffered_data_bytes w)
    (w_object_data_bytes w) (w_next_offset w) (w_flushed_offset w) (w_trim_offset w)
    (w_closed w) (w_fenced w) (w_completed_trim w) (w_jobs w) (w_callback w) (w_trimming w)
    (w_delayed_deletes w) (w_unresolved w) (w_completed w) acks (w_confirms w) (w_puts w)
    (w_store w).
Definition set_confirms {S} (confirms : list Confirm) (w : Writer S) : Writer S :=
  mkWriter (w_previous_objects w) (w_last_record_offset_to_object w) (w_active w) (w_bulk_seq w)
    (w_last_inactive w) (w_waiting w) (w_uploading w) (w_buffered_data_bytes w)
    (w_object_data_bytes w) (w_next_offset w) (w_flushed_offset w) (w_trim_offset w)
    (w_closed w) (w_fenced w) (w_completed_trim w) (w_jobs w) (w_callback w) (w_trimming w)
    (w_delayed_deletes w) (w_unresolved w) (w_completed w) (w_acks w) confirms (w_puts w)
    (w_store w).
Definition set_puts {S} (puts : list Z) (w : Writer S) : Writer S :=
  mkWriter (w_previous_objects w) (w_last_record_offset_to_object w) (w_active w) (w_bulk_seq w)
    (w_last_inactive w) (w_waiting w) (w_uploading w) (w_buffered_data_bytes w)
    (w_object_data_bytes w) (w_next_offset w) (w_flushed_offset w) (w_trim_offset w)
    (w_closed w) (w_fenced w) (w_completed_trim w) (w_jobs w) (w_callback w) (w_trimming w)
    (w_delayed_deletes w) (w_unresolved w) (w_completed w) (w_acks w) (w_confirms w) puts
    (w_store w).
Definition set_store {S} (store : S) (w : Writer S) : Writer S :=
  mkWriter (w_previous_objects w) (w_last_record_offset_to_object w) (w_active w) (w_bulk_seq w)
    (w_last_inactive w) (w_waiting w) (w_uploading w) (w_buffered_data_bytes w)
    (w_object_data_bytes w) (w_next_offset w) (w_flushed_offset w) (w_trim_offset w)
    (w_closed w) (w_fenced w) (w_completed_trim w) (w_jobs w) (w_callback w) (w_trimming w)
    (w_delayed_deletes w) (w_unresolved w) (w_completed w) (w_acks w) (w_confirms w) (w_puts
    w) store.

Ltac wsimpl :=
  cbn [set_previous_objects set_last_record_offset_to_object set_active set_bulk_seq set_last_inactive set_waiting set_uploading set_buffered_data_bytes set_object_data_bytes set_next_offset set_flushed_offset set_trim_offset set_closed set_fenced set_completed_trim set_jobs set_callback set_trimming set_delayed_deletes set_unresolved set_completed set_acks set_confirms set_puts set_store
    w_previous_objects w_last_record_offset_to_object w_active w_bulk_seq w_last_inactive w_waiting w_uploading w_buffered_data_bytes w_object_data_bytes w_next_offset w_flushed_offset w_trim_offset w_closed w_fenced w_completed_trim w_jobs w_callback w_trimming w_delayed_deletes w_unresolved w_completed w_acks w_confirms w_puts w_store] in *.

Section Operations.
Context {S : Type} `{!ObjectStorage S} `{!Crc32Fast}.
Context (c : WalConfig).
Implicit Types w : Writer S.

(** [ObjectWalWriter::new]. *)
Definition writer_new (store : S) : Writer S :=
  mkWriter [] ∅ None 0 None [] [] 0 0 0 0 TRIM_OFFSET_NONE true false TRIM_OFFSET_NONE
    [] [] [] [] ∅ [] [] [] [] store.

(** [check_status] *)
Definition check_status w : result WalError unit :=
  if w_closed w then Err WE_NotInitialized
  else if w_fenced w then Err (WE_Fenced (c_node_id c) (c_epoch c))
  else Ok tt.

(** [start], given the answer of the reservation check. The overlap objects'
    deletion is spawned, hence a delayed delete. *)
Definition writer_start (verified : result WalError bool) w : Writer S * result WalError unit :=
  match verified with
  | Err e => (w, Err e)
  | Ok false => (set_fenced true w, Err (WE_Fenced (c_node_id c) (c_epoch c)))
  | Ok true =>
      let objects := parse_wal_objects (os_list (w_store w) (c_node_prefix c)) in
      let '(objects, overlap) := skip_overlap_objects objects in
      let paths := (λ o, {| op_bucket_id := wo_bucket_id o; op_key := wo_key o |}) <$> overlap in
      let w := if decide (overlap = []) then w
               else set_delayed_deletes (w_delayed_deletes w ++ [paths]) w in
      let newer := match last objects with
                   | Some o => c_epoch c <? wo_epoch o
                   | None => false
                   end in
      if newer then (set_fenced true w, Ok tt)
      else
        let total := u64 (foldr (λ o a, wo_size o + a) 0 objects) in
        let flushed := match last objects with Some o => wo_end_offset o | None => 0 end in
        (set_closed false
           (set_next_offset flushed
             (set_flushed_offset flushed
               (set_previous_objects (w_previous_objects w ++ objects)
                 (set_object_data_bytes (u64 (w_object_data_bytes w + total)) w)))), Ok tt)
  end.

Definition new_active_bulk w : Writer S :=
  let seq := u64 (w_bulk_seq w + 1) in
  set_active (Some {| bk_seq := seq; bk_base_offset := w_next_offset w;
                      bk_size := 0; bk_records := [] |})
    (set_bulk_seq seq w).

Definition seal_active w : Writer S :=
  match w_active w with
  | None => w
  | Some bulk =>
      let next := ceil_align_offset (u64 (w_next_offset w + bk_size bulk)) in
      set_waiting (w_waiting w ++ [bulk])
        (set_last_inactive (Some (bk_seq bulk))
          (set_next_offset next (set_active None w)))
  end.

(** The admission loop over the waiting bulks, and the tasks it spawns. *)
Fixpoint admit_bulks (room : nat) (waiting : list Bulk)
  : list UploadingBulk * list UploadJob * list Bulk :=
  match room, waiting with
  | Datatypes.S room', b :: waiting' =>
      let '(us, js, rest) := admit_bulks room' waiting' in
      ({| ub_seq := bk_seq b; ub_end_offset_aligned := ceil_align_offset (bulk_end_offset b);
          ub_records := None; ub_done := None |} :: us,
       {| j_seq := bk_seq b; j_base_offset := bk_base_offset b;
          j_records := bk_records b; j_trim := None |} :: js,
       rest)
  | _, _ => ([], [], waiting)
  end.

Definition try_upload_waiting w : Writer S :=
  let room := (c_max_inflight_upload_count c - length (w_uploading w))%nat in
  let '(us, js, rest) := admit_bulks room (w_waiting w) in
  set_jobs (w_jobs w ++ js)
    (set_uploading (w_uploading w ++ us) (set_waiting rest w)).

Definition data_size (record : StreamRecordBatch) : Z :=
  u64 (len (encoded record) + Z.of_nat WAL_RECORD_HEADER_SIZE).

(** Push one record on the active bulk. *)
Definition push_active (p : PendingRecord) w : Writer S :=
  match w_active w with
  | None => w
  | Some b =>
      set_active (Some {| bk_seq := bk_seq b; bk_base_offset := bk_base_offset b;
                          bk_size := u64 (bk_size b + pr_size p);
                          bk_records := bk_records b ++ [p] |}) w
  end.

Definition active_size w : Z := match w_active w with Some b => bk_size b | None => 0 end.

(** [submit]: the synchronous part; the record's [durable] future is the ticket. *)
Definition submit (ticket : nat) (record : StreamRecordBatch) w
  : Writer S * result WalError unit :=
  match check_status w with
  | Err e => (w, Err e)
  | Ok _ =>
      let buffered := w_buffered_data_bytes w in
      if c_max_unflushed_bytes c <? buffered
      then (w, Err (WE_OverCapacity buffered (c_max_unflushed_bytes c)))
      else
        let size := data_size record in
        if DATA_FILE_ALIGN_SIZE <? size
        then (w, Err (WE_RecordTooLarge size DATA_FILE_ALIGN_SIZE))
        else
          let w := match w_active w with None => new_active_bulk w | Some _ => w end in
          let w := if DATA_FILE_ALIGN_SIZE <? u64 (size + active_size w)
                   then new_active_bulk (seal_active w) else w in
          let w := set_buffered_data_bytes (u64 (w_buffered_data_bytes w + size)) w in
          let w := push_active {| pr_record := record; pr_size := size; pr_offset := 0;
                                  pr_ack := ticket |} w in
          let w := set_unresolved (<[ticket := size]> (w_unresolved w)) w in
          if (c_max_bytes_in_batch c <? active_size w) || bool_decide (c_open_mode c = Recovery)
          then (try_upload_waiting (seal_active w), Ok tt)
          else (w, Ok tt)
  end.

(** The caller's future resolves: the buffered bytes are given back. *)
Definition durable_resolved (ticket : nat) w : Writer S :=
  match w_unresolved w !! ticket with
  | None => w
  | Some size =>
      set_buffered_data_bytes (u64 (w_buffered_data_bytes w - size))
        (set_unresolved (delete ticket (w_unresolved w)) w)
  end.

(** The timer of bulk [seq] fires. *)
Definition timer_fires (seq : Z) w : Writer S :=
  match w_active w with
  | Some b => if bk_seq b =? seq then try_upload_waiting (seal_active w) else w
  | None => w
  end.

(** [flush] and [close]: the critical section; the caller then waits for the
    bulk named by [w_last_inactive]. *)
Definition flush w : Writer S := try_upload_waiting (seal_active w).
Definition close w : Writer S := flush (set_closed true w).

Definition confirm_offset w : RecordOffset :=
  {| ro_epoch := c_epoch c; ro_offset := w_flushed_offset w; ro_size := 0 |}.

(** *** upload_bulk *)

Definition record_le (a b : PendingRecord) : bool :=
  (stream_id (pr_record a) <? stream_id (pr_record b))
  || ((stream_id (pr_record a) =? stream_id (pr_record b))
      && (base_offset (pr_record a) <=? base_offset (pr_record b))).

(** Offsets are assigned in (stream, base offset) order. *)
Fixpoint assign_offsets (next : Z) (records : list PendingRecord) : list PendingRecord :=
  match records with
  | [] => []
  | r :: rs =>
      {| pr_record := pr_record r; pr_size := pr_size r; pr_offset := next; pr_ack := pr_ack r |}
        :: assign_offsets (u64 (next + pr_size r)) rs
  end.

Definition sum_sizes (records : list PendingRecord) : Z :=
  foldr (λ r a, pr_size r + a) 0 records.

Definition placed (base : Z) (records : list PendingRecord) : list PendingRecord :=
  assign_offsets base (sort_by record_le records).

Definition last_record_offset (base : Z) (records : list PendingRecord) : Z :=
  match last (placed base records) with Some r => pr_offset r | None => base end.

Definition build_payload (base trim : Z) (records : list PendingRecord) : bytes :=
  let data_length := u64 (sum_sizes records) in
  header_marshal (header_v1 base data_length (c_node_id c) (c_epoch c) trim)
    ++ concat ((λ r, frame_record (pr_offset r) (encoded (pr_record r))) <$> placed base records).

Definition job_end_offset (base : Z) (records : list PendingRecord) : Z :=
  ceil_align_offset (u64 (base + sum_sizes records)).

(** What the PUT of a bulk ended with. An error may or may not have left the
    object behind. *)
Inductive PutOutcome : Type :=
| PutOk (bucket_id : Z)
| PutErr (e : ObjectError) (landed : bool).

Definition finish_entry (seq : Z) (records : list PendingRecord) (r : result WalError unit)
    (us : list UploadingBulk) : list UploadingBulk :=
  (λ u, if ub_seq u =? seq
        then {| ub_seq := ub_seq u; ub_end_offset_aligned := ub_end_offset_aligned u;
                ub_records := Some records; ub_done := Some r |}
        else u) <$> us.

(** The end of an upload task that put [trim] in its header. *)
Definition upload_done (now : Z) (j : UploadJob) (trim : Z) (out : PutOutcome) w : Writer S :=
  let base := j_base_offset j in
  let records := placed base (j_records j) in
  let payload := build_payload base trim (j_records j) in
  let end_offset := job_end_offset base (j_records j) in
  let path := object_path (object_prefix c) base end_offset in
  let object_length := len payload in
  let w := set_jobs (filter (λ j', j_seq j' ≠ j_seq j) (w_jobs w)) w in
  match out with
  | PutOk bucket =>
      let object := {| wo_bucket_id := bucket; wo_key := path; wo_epoch := c_epoch c;
                       wo_start_offset := base; wo_end_offset := end_offset;
                       wo_size := object_length |} in
      set_store (os_write (w_store w) now path payload)
        (set_puts (w_puts w ++ [base])
          (set_object_data_bytes (u64 (w_object_data_bytes w + object_length))
            (set_last_record_offset_to_object
              (<[last_record_offset base (j_records j) := object]> (w_last_record_offset_to_object w))
              (set_uploading (finish_entry (j_seq j) records (Ok tt) (w_uploading w)) w))))
  | PutErr e landed =>
      set_store (if landed : bool then os_write (w_store w) now path payload else w_store w)
        (set_fenced true
          (set_uploading (finish_entry (j_seq j) records (Err (WE_Storage e)) (w_uploading w)) w))
  end.

(** *** callback_loop *)

Fixpoint pop_done (us : list UploadingBulk) : list UploadingBulk * list UploadingBulk :=
  match us with
  | u :: us' =>
      match ub_done u with
      | Some _ => let '(d, rest) := pop_done us' in (u :: d, rest)
      | None => ([], us)
      end
  | [] => ([], [])
  end.

(** First half: take the completed prefix, let more bulks in. *)
Definition callback_collect w : Writer S :=
  let '(completed, rest) := pop_done (w_uploading w) in
  if decide (completed = []) then w
  else try_upload_waiting (set_callback completed (set_uploading rest w)).

(** [complete_bulk]: one acknowledgement per record, the listener first. *)
Fixpoint complete_records (fenced : bool) (records : list PendingRecord) : list Ack * list Confirm :=
  match records with
  | [] => ([], [])
  | r :: rs =>
      let '(acks, cfs) := complete_records fenced rs in
      if fenced then
        ({| ack_ticket := pr_ack r; ack_record := pr_record r;
            ack_result := Err (WE_Fenced (c_node_id c) (c_epoch c)) |} :: acks, cfs)
      else
        let next := match rs with
                    | [] => ceil_align_offset (u64 (pr_offset r + pr_size r))
                    | _ => u64 (pr_offset r + pr_size r)
                    end in
        let res := {| ar_record_offset := {| ro_epoch := c_epoch c; ro_offset := pr_offset r;
                                             ro_size := u32 (pr_size r) |};
                      ar_next_offset := {| ro_epoch := c_epoch c; ro_offset := next; ro_size := 0 |} |} in
        ({| ack_ticket := pr_ack r; ack_record := pr_record r; ack_result := Ok res |} :: acks,
         if stream_id (pr_record r) =? TRIM_RECORD_SENTINEL then cfs
         else {| cf_record := pr_record r; cf_offset := ar_record_offset res;
                 cf_next := ar_next_offset res |} :: cfs)
  end.

Definition complete_bulk (fenced : bool) (u : UploadingBulk) w : Writer S :=
  let '(acks, cfs) := complete_records fenced (default [] (ub_records u)) in
  let w := if fenced then w else set_flushed_offset (ub_end_offset_aligned u) w in
  set_completed (w_completed w ++ [ub_seq u])
    (set_confirms (w_confirms w ++ cfs) (set_acks (w_acks w ++ acks) w)).

(** Second half, after the lease check answered. *)
Definition callback_finish (lease : result WalError bool) w : Writer S :=
  let w := match lease with Ok true => w | _ => set_fenced true w end in
  let fenced := w_fenced w in
  set_callback [] (foldl (λ w u, complete_bulk fenced u w) w (w_callback w)).

(** *** trim *)

Definition fake_trim_record : StreamRecordBatch :=
  new TRIM_RECORD_SENTINEL TRIM_RECORD_SENTINEL 0 0 [].

Inductive TrimPhase : Type := TrimWait | TrimAppend.

(** [trim0] up to the append of the fake record. *)
Definition trim_begin (offset : Z) w : Writer S * result WalError TrimPhase :=
  match check_status w with
  | Err e => (w, Err e)
  | Ok _ =>
      if offset <=? w_trim_offset w then (w, Ok TrimWait)
      else (set_trim_offset offset w, Ok TrimAppend)
  end.

Definition object_to_path (o : WalObject) : ObjectPath :=
  {| op_bucket_id := wo_bucket_id o; op_key := wo_key o |}.

(** The objects a trim at [offset] releases: own objects whose last record is
    covered, except the newest; then the covered prefix of the previous ones. *)
Definition trim_own (offset : Z) w : list (Z * WalObject) :=
  match last_entry (w_last_record_offset_to_object w) with
  | None => []
  | Some (last_flushed, _) =>
      filter (λ p, p.1 ≠ last_flushed)
        (range_to_incl (Z.max offset 0) (w_last_record_offset_to_object w))
  end.

Definition trim_previous (offset : Z) (own_empty : bool) (prev : list WalObject) : list WalObject :=
  let bound := (length prev - (if own_empty then 1 else 0))%nat in
  take_while (λ o, i64 (wo_end_offset o) <=? offset) (take bound prev).

(** [trim0] after the fake record is durable. [deleted] is what the backend
    really removed of the delete list. *)
Definition trim_finish (offset : Z) (deleted : list ObjectPath) w : Writer S :=
  let own := trim_own offset w in
  let prev := trim_previous offset (bool_decide (own = [])) (w_previous_objects w) in
  let delete_list := (object_to_path <$> own.*2) ++ (object_to_path <$> prev) in
  let deleted_size := u64 (foldr (λ o a, wo_size o + a) 0 (own.*2 ++ prev)) in
  let w := set_last_record_offset_to_object
             (foldr (λ p m, delete p.1 m) (w_last_record_offset_to_object w) own)
             (set_previous_objects (drop (length prev) (w_previous_objects w)) w) in
  let w := if decide (delete_list = []) then w
           else set_delayed_deletes (w_delayed_deletes w ++ [delete_list])
                  (set_object_data_bytes (u64 (w_object_data_bytes w - deleted_size))
                    (set_store (os_delete (w_store w) deleted) w)) in
  set_completed_trim (Z.max (w_completed_trim w) offset) w.

Definition trim_delete_list (offset : Z) w : list ObjectPath :=
  let own := trim_own offset w in
  (object_to_path <$> own.*2)
    ++ (object_to_path <$> trim_previous offset (bool_decide (own = [])) (w_previous_objects w)).

(** [reset]: [None] when there is nothing to trim. *)
Definition reset_offset w : option Z :=
  if w_next_offset w =? 0 then None else Some (i64 (w_next_offset w) - 1).

Definition object_list w : result WalError (list WalObject) :=
  match check_status w with
  | Err e => Err e
  | Ok _ => Ok (w_previous_objects w ++ values (w_last_record_offset_to_object w))
  end.

(** *** Every interleaving *)

Definition set_job_trim (seq t : Z) (js : list UploadJob) : list UploadJob :=
  (λ j, if j_seq j =? seq
        then {| j_seq := j_seq j; j_base_offset := j_base_offset j;
                j_records := j_records j; j_trim := Some t |}
        else j) <$> js.

(** An allocation has at most [isize::MAX] bytes; tickets are fresh channels. *)
Inductive step : Writer S → Writer S → Prop :=
| step_submit w ticket record :
    len (encoded record) < 2 ^ 63 →
    ticket ∉ ack_ticket <$> w_acks w →
    w_unresolved w !! ticket = None →
    step w (submit ticket record w).1
| step_timer w seq : step w (timer_fires seq w)
| step_flush w : step w (flush w)
| step_close w : step w (close w)
| step_build w j :
    j ∈ w_jobs w → j_trim j = None →
    step w (set_jobs (set_job_trim (j_seq j) (w_trim_offset w) (w_jobs w)) w)
| step_upload_done w now j trim out :
    j ∈ w_jobs w → j_trim j = Some trim →
    step w (upload_done now j trim out w)
| step_callback_collect w :
    w_callback w = [] → step w (callback_collect w)
| step_callback_finish w lease :
    w_callback w ≠ [] → step w (callback_finish lease w)
| step_resolve w ticket :
    ticket ∈ ack_ticket <$> w_acks w → step w (durable_resolved ticket w)
| step_trim_begin w offset ticket w' :
    trim_begin offset w = (w', Ok TrimAppend) →
    ticket ∉ ack_ticket <$> w_acks w →
    w_unresolved w !! ticket = None →
    step w (match submit ticket fake_trim_record w' with
            | (w'', Ok _) => set_trimming (w_trimming w'' ++ [(ticket, offset)]) w''
            | (w'', Err _) => w''
            end)
| step_trim_finish w ticket offset res deleted :
    (ticket, offset) ∈ w_trimming w →
    (∃ a, a ∈ w_acks w ∧ ack_ticket a = ticket ∧ ack_result a = Ok res) →
    deleted ⊆ trim_delete_list offset w →
    step w (trim_finish offset deleted
              (set_trimming (filter (λ p, p.1 ≠ ticket) (w_trimming w)) w))
| step_delayed_delete w paths deleted :
    paths ∈ w_delayed_deletes w → deleted ⊆ paths →
    step w (set_store (os_delete (w_store w) deleted) w).

(** *** The point read of [service.rs] *)

Definition get (store : S) (offset : RecordOffset) : result WalError StreamRecordBatch :=
  let object_start := floor_align_offset (ro_offset offset) in
  let path := gen_object_path_v1_aligned (c_node_prefix c) (ro_epoch offset) object_start in
  let relative_start := u64 (ro_offset offset - object_start + Z.of_nat WAL_HEADER_SIZE_V1) in
  let? buf := map_err WE_Storage
    (os_range_read store path relative_start (Some (u64 (relative_start + ro_size offset)))) in
  let? (record, _) := map_err WE_Unmarshal (decode_record buf) in
  Ok record.
End Operations.
