(* ===== verification/WalWriterInv.v ===== *)
(** * Correctness of the object WAL writer

    Invariants of [WalWriter.step], proved step by step and lifted to every
    interleaving.  [Layout] is the in-memory pipeline: one aligned slot per bulk,
    consecutive from the flushed offset to the next offset.  [Durable] is what
    the store holds for acknowledged records.  The offset space is assumed not
    to be exhausted: a step starts with at least [4] free slots below [2^64]
    ([OFFSET_LIMIT]), one step consumes at most two. *)
From S2P Require Import Prelude Collections Codec ObjectStore WalFormat WalWriter.

Abbreviation A := DATA_FILE_ALIGN_SIZE.
Definition OFFSET_LIMIT : Z := 2 ^ 64 - 4 * A.

(** An offset lies in one slot. *)
Lemma slot_unique b b' k :
  aligned b → aligned b' → b ≤ k < b + A → b' ≤ k < b' + A → b = b'.
Proof. intros. align_lia. Qed.

(** Consecutive slots from [lo] to [hi]. *)
Fixpoint chain (lo : Z) (l : list Z) (hi : Z) : Prop :=
  match l with
  | [] => lo = hi
  | b :: l' => b = lo ∧ chain (lo + A) l' hi
  end.

Lemma chain_app lo l1 l2 hi :
  chain lo (l1 ++ l2) hi ↔ ∃ mid, chain lo l1 mid ∧ chain mid l2 hi.
Proof.
  revert lo; induction l1 as [|b l1 IH]; intros lo; simpl.
  - split; [by eauto|]. by intros (? & -> & ?).
  - rewrite IH. split; [intros (-> & mid & ? & ?); eauto|]. intros (mid & [-> ?] & ?); eauto.
Qed.

Lemma chain_snoc lo l hi : chain lo l hi → chain lo (l ++ [hi]) (hi + A).
Proof. intros. apply chain_app. exists hi. simpl. auto. Qed.

Lemma chain_le lo l hi : chain lo l hi → lo ≤ hi.
Proof.
  revert lo; induction l as [|b l IH]; simpl; intros lo; [lia|].
  intros [_ H%IH]. align_lia.
Qed.

Lemma chain_elem lo l hi b :
  chain lo l hi → b ∈ l → lo ≤ b ∧ b + A ≤ hi ∧ (aligned lo → aligned b).
Proof.
  revert lo; induction l as [|b' l IH]; simpl; intros lo; [by intros _ ?%not_elem_of_nil|].
  intros [-> H] [->|Hb]%elem_of_cons.
  - apply chain_le in H. split_and!; [done..|by auto].
  - destruct (IH _ H Hb) as (? & ? & Ha). split_and!; [align_lia|done|].
    intros. apply Ha. align_lia.
Qed.

Lemma chain_NoDup lo l hi : chain lo l hi → NoDup l.
Proof.
  revert lo; induction l as [|b l IH]; simpl; intros lo; [constructor|].
  intros [-> H]. constructor; [|eauto]. intros Hin.
  destruct (chain_elem _ _ _ _ H Hin) as [? _]. align_lia.
Qed.

Lemma chain_aligned lo l hi : chain lo l hi → aligned lo → aligned hi.
Proof.
  revert lo; induction l as [|b l IH]; simpl; intros lo; [by intros ->|].
  intros [_ H] ?. apply (IH _ H). align_lia.
Qed.

(** Every slot boundary between the ends is in the chain. *)
Lemma chain_covers lo l hi b :
  chain lo l hi → aligned lo → aligned b → lo ≤ b < hi → b ∈ l.
Proof.
  revert lo; induction l as [|b' l IH]; simpl; intros lo; [lia|].
  intros [-> H] Hlo Hb Hr. destruct (decide (b = lo)) as [->|]; [left|right].
  apply (IH (lo + A)); [done|align_lia|done|align_lia].
Qed.

Lemma sum_sizes_app l k : sum_sizes (l ++ k) = sum_sizes l + sum_sizes k.
Proof. induction l as [|r l IH]; simpl; [done|]. unfold sum_sizes in *. simpl. lia. Qed.

#[export] Instance sum_sizes_perm : Proper ((≡ₚ) ==> (=)) sum_sizes.
Proof. intros l k. unfold sum_sizes. induction 1; simpl; lia. Qed.

(** A buffered record's framed size. *)
Definition rec_ok (r : PendingRecord) : Prop :=
  pr_size r = len (encoded (pr_record r)) + Z.of_nat WAL_RECORD_HEADER_SIZE.

Definition recs_ok (rs : list PendingRecord) : Prop :=
  rs ≠ [] ∧ Forall rec_ok rs ∧ sum_sizes rs ≤ A.

Definition bulk_ok (b : Bulk) : Prop :=
  bk_size b = sum_sizes (bk_records b) ∧ recs_ok (bk_records b).

Lemma rec_ok_pos r : rec_ok r → 24 ≤ pr_size r.
Proof. unfold rec_ok, WAL_RECORD_HEADER_SIZE. lia. Qed.

Lemma sum_sizes_nonneg rs : Forall rec_ok rs → 0 ≤ sum_sizes rs.
Proof.
  induction 1 as [|r rs Hr _ IH]; [done|]. apply rec_ok_pos in Hr. unfold sum_sizes in *. simpl. lia.
Qed.

Lemma recs_ok_pos rs : recs_ok rs → 0 < sum_sizes rs ≤ A.
Proof.
  intros (Hne & Hf & Hs). split; [|done]. destruct rs as [|r rs]; [done|].
  inversion Hf as [|?? Hr Hf']; subst. apply rec_ok_pos in Hr.
  pose proof (sum_sizes_nonneg _ Hf'). unfold sum_sizes in *. simpl. lia.
Qed.

(** ** Where [upload_bulk] places the records of a bulk *)

Lemma placed_split next rs i r :
  assign_offsets next rs !! i = Some r →
  Forall rec_ok rs → 0 ≤ next → next + sum_sizes rs < 2 ^ 64 →
  ∃ r0, rs !! i = Some r0 ∧ pr_record r = pr_record r0 ∧ pr_size r = pr_size r0
        ∧ pr_ack r = pr_ack r0 ∧ pr_offset r = next + sum_sizes (take i rs).
Proof.
  revert next i; induction rs as [|r0 rs IH]; intros next i Hi Hf Hn Hs; [done|].
  inversion Hf as [|?? Hr Hf']; subst. pose proof (rec_ok_pos _ Hr).
  pose proof (sum_sizes_nonneg _ Hf').
  change (next + (pr_size r0 + sum_sizes rs) < 2 ^ 64) in Hs.
  destruct i as [|i]; simplify_eq/=.
  - eexists. split_and!; [done..|]. unfold sum_sizes; simpl. lia.
  - rewrite u64_small in Hi by int_lia.
    destruct (IH _ _ Hi Hf') as (r1 & ? & ? & ? & ? & Ho); [lia|lia|].
    exists r1. split_and!; [done..|]. rewrite Ho. unfold sum_sizes. simpl. lia.
Qed.

Lemma length_assign_offsets next rs : length (assign_offsets next rs) = length rs.
Proof. revert next; induction rs as [|r rs IH]; intros next; simpl; [done|]. by rewrite IH. Qed.

Lemma recs_ok_sorted rs : recs_ok rs → recs_ok (sort_by record_le rs).
Proof.
  intros (Hne & Hf & Hs). split_and!; [|by rewrite (sort_by_perm record_le)..].
  intros E. apply Hne, length_zero_iff_nil. by rewrite <- (length_sort_by record_le), E.
Qed.

Lemma sum_sizes_take_le i rs : Forall rec_ok rs → sum_sizes (take i rs) ≤ sum_sizes rs.
Proof.
  intros Hf. rewrite <- (take_drop i rs) at 2. rewrite sum_sizes_app.
  pose proof (sum_sizes_nonneg (drop i rs) (Forall_drop _ _ _ Hf)). lia.
Qed.

(** Each record's offset is the base plus the sizes of the records before it,
    and the whole record lies in its slot. *)
Lemma placed_spec base rs i r :
  recs_ok rs → 0 ≤ base → base + A < 2 ^ 64 → placed base rs !! i = Some r →
  rec_ok r
  ∧ pr_offset r = base + sum_sizes (take i (placed base rs))
  ∧ base ≤ pr_offset r ∧ pr_offset r + pr_size r ≤ base + A.
Proof.
  intros Hok Hb HA Hi. unfold placed in *. pose proof (recs_ok_sorted _ Hok) as (_ & Hf & Hs).
  set (rs' := sort_by record_le rs) in *.
  destruct (placed_split _ _ _ _ Hi Hf Hb) as (r0 & Hi0 & Hrec & Hsz & _ & Ho); [lia|].
  assert (rec_ok r) as Hr.
  { unfold rec_ok. rewrite Hrec, Hsz. rewrite Forall_lookup in Hf. by apply (Hf i). }
  assert (sum_sizes (take i (assign_offsets base rs')) = sum_sizes (take i rs')) as E.
  { clear. generalize base. revert i; induction rs' as [|r0 rs' IH]; intros [|i] b; simpl; [done..|].
    unfold sum_sizes in *. simpl. by rewrite IH. }
  rewrite E. split_and!; [done..| |].
  - rewrite Ho. pose proof (sum_sizes_nonneg (take i rs') (Forall_take _ _ _ Hf)). lia.
  - rewrite Ho, Hsz. apply take_S_r in Hi0 as Hi1.
    pose proof (sum_sizes_take_le (Datatypes.S i) rs' Hf) as Hle.
    rewrite Hi1, sum_sizes_app in Hle. unfold sum_sizes at 2 in Hle. simpl in Hle. lia.
Qed.

Lemma placed_nonempty base rs : rs ≠ [] → placed base rs ≠ [].
Proof.
  intros Hne E. apply Hne. apply length_zero_iff_nil.
  apply (f_equal length) in E. unfold placed in E.
  rewrite length_assign_offsets, length_sort_by in E. done.
Qed.

(** The key under which a bulk's object is indexed: the offset of its last record. *)
Lemma last_record_offset_spec base rs :
  recs_ok rs → 0 ≤ base → base + A < 2 ^ 64 →
  base ≤ last_record_offset base rs < base + A
  ∧ ∀ r, r ∈ placed base rs → pr_offset r ≤ last_record_offset base rs.
Proof.
  intros Hok Hb HA. unfold last_record_offset.
  pose proof Hok as (Hne & _). apply (placed_nonempty base) in Hne.
  destruct (last (placed base rs)) as [rl|] eqn:El; [|by apply last_None in El].
  rewrite last_lookup in El. destruct (placed_spec _ _ _ _ Hok Hb HA El) as (Hr & Ho & ? & ?).
  apply rec_ok_pos in Hr. split; [lia|].
  intros r [i Hi]%list_elem_of_lookup. destruct (placed_spec _ _ _ _ Hok Hb HA Hi) as (Hr' & Ho' & _).
  apply lookup_lt_Some in Hi. rewrite Ho, Ho'.
  assert (Forall rec_ok (placed base rs)) as Hf.
  { apply Forall_lookup. intros j x Hj. by destruct (placed_spec _ _ _ _ Hok Hb HA Hj). }
  replace (take i (placed base rs)) with (take i (take (pred (length (placed base rs))) (placed base rs)))
    by (rewrite take_take; f_equal; lia).
  pose proof (sum_sizes_take_le i _ (Forall_take _ (pred (length (placed base rs))) _ Hf)). lia.
Qed.

Definition ub_base (u : UploadingBulk) : Z := ub_end_offset_aligned u - A.

Section Layout.
Context {S : Type} `{!ObjectStorage S} `{!Crc32Fast}.
Context (c : WalConfig) (s0 : Z).
Implicit Types w : Writer S.

(** The bases of every sealed bulk not completed yet, oldest first. *)
Definition pipe w : list Z :=
  (ub_base <$> w_callback w) ++ (ub_base <$> w_uploading w) ++ (bk_base_offset <$> w_waiting w).

(** Bulk numbers count the slots from the start offset. *)
Definition seq_at (seq base : Z) : Prop := base = s0 + A * (seq - 1).

Definition active_ok (full : bool) w : Prop :=
  match w_active w with
  | None => w_next_offset w = s0 + A * w_bulk_seq w
  | Some b =>
      bk_base_offset b = w_next_offset w ∧ bk_seq b = w_bulk_seq w
      ∧ seq_at (bk_seq b) (bk_base_offset b)
      ∧ bk_size b = sum_sizes (bk_records b) ∧ Forall rec_ok (bk_records b)
      ∧ sum_sizes (bk_records b) ≤ A ∧ (full = true → bk_records b ≠ [])
  end.

Record Layout (full : bool) w : Prop := {
  lay_start : 0 ≤ s0 ∧ aligned s0;
  lay_next : w_next_offset w < 2 ^ 64;
  lay_seq_pos : 0 ≤ w_bulk_seq w;
  lay_chain : ∃ lo, chain lo (pipe w) (w_next_offset w) ∧ aligned lo
    ∧ s0 ≤ w_flushed_offset w ≤ lo ∧ (w_fenced w = false → w_flushed_offset w = lo);
  lay_active : active_ok full w;
  lay_waiting : ∀ b, b ∈ w_waiting w → bulk_ok b ∧ seq_at (bk_seq b) (bk_base_offset b);
  lay_uploading : ∀ u, u ∈ w_uploading w → seq_at (ub_seq u) (ub_base u);
  lay_jobs : ∀ j, j ∈ w_jobs w →
    recs_ok (j_records j) ∧ seq_at (j_seq j) (j_base_offset j)
    ∧ ∃ u, u ∈ w_uploading w ∧ ub_seq u = j_seq j ∧ ub_done u = None;
  lay_callback : ∀ u, u ∈ w_callback w → ub_done u ≠ None;
  lay_error : ∀ u e, u ∈ w_callback w ++ w_uploading w → ub_done u = Some (Err e) →
    w_fenced w = true;
  lay_puts : ∀ b, b ∈ w_puts w →
    s0 ≤ b < w_next_offset w ∧ aligned b
    ∧ (∀ u, u ∈ w_uploading w → ub_base u = b → ub_done u ≠ None)
    ∧ (∀ k, k ∈ w_waiting w → bk_base_offset k ≠ b);
}.

Lemma lay_aligned full w : Layout full w → aligned (w_next_offset w).
Proof. intros []. destruct lay_chain0 as (lo & Hc & Ha & _). by eapply chain_aligned. Qed.

Lemma lay_next_pos full w : Layout full w → s0 ≤ w_next_offset w.
Proof. intros []. destruct lay_chain0 as (lo & Hc%chain_le & ?). lia. Qed.

Lemma lay_elem full w b :
  Layout full w → b ∈ pipe w →
  s0 ≤ b ∧ aligned b ∧ b + A ≤ w_next_offset w ∧ w_flushed_offset w ≤ b.
Proof.
  intros [] Hb. destruct lay_chain0 as (lo & Hc & ? & ? & _).
  destruct (chain_elem _ _ _ _ Hc Hb) as (? & ? & Hal). split_and!; auto; lia.
Qed.

Lemma seq_at_base s b b' : seq_at s b → seq_at s b' → b = b'.
Proof. unfold seq_at. align_lia. Qed.
Lemma seq_at_seq s s' b : seq_at s b → seq_at s' b → s = s'.
Proof. unfold seq_at. align_lia. Qed.

Lemma active_full w : active_ok true w → active_ok false w.
Proof. unfold active_ok. destruct (w_active w); [|done]. intros (?&?&?&?&?&?&?). by split_and!. Qed.

Lemma layout_weaken w : Layout true w → Layout false w.
Proof. intros []. constructor; auto using active_full. Qed.

Lemma layout_new_active w :
  Layout true w → w_active w = None → w_next_offset w + A < 2 ^ 64 → Layout false (new_active_bulk w).
Proof.
  intros L E Hn. pose proof (lay_next_pos _ _ L). destruct L.
  assert (u64 (w_bulk_seq w + 1) = w_bulk_seq w + 1) as Hu.
  { unfold active_ok in *. rewrite E in *. apply u64_small. align_lia. }
  constructor; unfold new_active_bulk, pipe in *; wsimpl; rewrite ?Hu; auto; [lia|].
  unfold active_ok in *; wsimpl. rewrite E in *. unfold seq_at. cbn.
  split_and!; auto; unfold sum_sizes; simpl; align_lia.
Qed.

Lemma layout_push p w :
  Layout false w → w_active w ≠ None → rec_ok p → active_size w + pr_size p ≤ A →
  Layout true (push_active p w).
Proof.
  intros L E Hp Hs. destruct L. unfold push_active, active_size in *.
  destruct (w_active w) as [b|] eqn:Eb; [|done].
  unfold active_ok in *. rewrite Eb in *. destruct_and! lay_active0.
  constructor; unfold pipe in *; wsimpl; auto. unfold active_ok; wsimpl. cbn [bk_base_offset bk_seq bk_size bk_records].
  rewrite sum_sizes_app. change (sum_sizes [p]) with (pr_size p + 0).
  pose proof (rec_ok_pos _ Hp). pose proof (sum_sizes_nonneg (bk_records b) ltac:(done)).
  split_and!; auto; try lia.
  - rewrite u64_small; align_lia.
  - apply Forall_app_2; auto.
  - intros _ E'. by apply app_nil in E' as [_ ?].
Qed.

Lemma layout_seal w :
  Layout true w → w_next_offset w + A < 2 ^ 64 → Layout true (seal_active w).
Proof.
  intros L Hn. pose proof (lay_next_pos _ _ L). pose proof (lay_aligned _ _ L).
  destruct L. unfold seal_active. destruct (w_active w) as [b|] eqn:Eb; [|by constructor].
  unfold active_ok in *. rewrite Eb in *. destruct_and! lay_active0.
  assert (recs_ok (bk_records b)) as Hr by (split_and!; auto).
  pose proof (recs_ok_pos _ Hr).
  assert (ceil_align_offset (u64 (w_next_offset w + bk_size b)) = w_next_offset w + A) as Hc.
  { rewrite u64_small by align_lia. apply ceil_align_slot; align_lia. }
  destruct lay_chain0 as (lo & Hch & Hlo & Hfl & Hfe).
  constructor; unfold pipe in *; wsimpl; rewrite ?Hc; auto.
  - exists lo. split_and!; auto; try lia. rewrite fmap_app. simpl.
    match goal with H : bk_base_offset b = _ |- _ => rewrite H end.
    rewrite !app_assoc. apply chain_snoc. by rewrite <- !app_assoc.
  - unfold active_ok; wsimpl. unfold seq_at in *. align_lia.
  - intros b' [?|Hb']%elem_of_app; [by auto|]. apply list_elem_of_singleton in Hb' as ->. by split.
  - intros o Ho. destruct (lay_puts0 o Ho) as (? & ? & ? & Hw). split_and!; auto; [align_lia|align_lia|].
    intros k [?|Hk]%elem_of_app; [by auto|]. apply list_elem_of_singleton in Hk as ->. lia.
Qed.

(** The admission loop moves a prefix of the waiting bulks. *)
Definition entry_of (b : Bulk) : UploadingBulk :=
  {| ub_seq := bk_seq b; ub_end_offset_aligned := ceil_align_offset (bulk_end_offset b);
     ub_records := None; ub_done := None |}.
Definition job_of (b : Bulk) : UploadJob :=
  {| j_seq := bk_seq b; j_base_offset := bk_base_offset b;
     j_records := bk_records b; j_trim := None |}.

Lemma admit_spec room waiting :
  admit_bulks room waiting
  = (entry_of <$> take room waiting, job_of <$> take room waiting, drop room waiting).
Proof.
  revert waiting; induction room as [|room IH]; intros [|b waiting]; simpl; [done..|].
  by rewrite IH.
Qed.

Lemma entry_base full w b : Layout full w → b ∈ w_waiting w → ub_base (entry_of b) = bk_base_offset b.
Proof.
  intros L Hb. destruct (lay_waiting _ _ L b Hb) as ((Hs & Hr) & _).
  destruct (lay_elem _ _ (bk_base_offset b) L) as (? & ? & ? & _).
  { unfold pipe. rewrite !elem_of_app. right; right. by apply list_elem_of_fmap_2. }
  pose proof (recs_ok_pos _ Hr). pose proof (lay_next _ _ L). pose proof (lay_start _ _ L).
  unfold ub_base, entry_of, bulk_end_offset; cbn. rewrite u64_small by align_lia.
  rewrite Hs, ceil_align_slot; align_lia.
Qed.

(** The fields [Layout] reads. *)
Definition lay_view w :=
  (w_active w, w_bulk_seq w, w_waiting w, w_uploading w, w_next_offset w,
   w_flushed_offset w, w_fenced w, w_jobs w, w_callback w, w_puts w).

Lemma layout_view full w w' : lay_view w' = lay_view w → Layout full w → Layout full w'.
Proof.
  unfold lay_view. intros [= E1 E2 E3 E4 E5 E6 E7 E8 E9 E10] [].
  constructor; unfold active_ok, pipe in *;
    rewrite ?E1, ?E2, ?E3, ?E4, ?E5, ?E6, ?E7, ?E8, ?E9, ?E10; auto.
Qed.

Lemma layout_try_upload full w : Layout full w → Layout full (try_upload_waiting c w).
Proof.
  intros L. unfold try_upload_waiting. rewrite admit_spec.
  set (room := (c_max_inflight_upload_count c - length (w_uploading w))%nat).
  assert (∀ b, b ∈ take room (w_waiting w) → b ∈ w_waiting w) as Htake.
  { intros b Hb. rewrite <- (take_drop room (w_waiting w)). apply elem_of_app. by left. }
  assert (∀ b, b ∈ drop room (w_waiting w) → b ∈ w_waiting w) as Hdrop.
  { intros b Hb. rewrite <- (take_drop room (w_waiting w)). apply elem_of_app. by right. }
  assert (∀ b, b ∈ take room (w_waiting w) → ub_base (entry_of b) = bk_base_offset b) as Hbase.
  { intros. eapply entry_base; eauto. }
  destruct L. constructor; unfold pipe, active_ok in *; wsimpl; auto.
  - destruct lay_chain0 as (lo & Hch & ?). exists lo. split; [|done].
    replace (ub_base <$> w_uploading w ++ (entry_of <$> take room (w_waiting w)))
      with ((ub_base <$> w_uploading w) ++ (bk_base_offset <$> take room (w_waiting w))).
    + by rewrite <- app_assoc, <- fmap_app, take_drop.
    + rewrite fmap_app, <- list_fmap_compose. f_equal. apply list_fmap_ext.
      intros i b Hb. symmetry. apply Hbase. by eapply list_elem_of_lookup_2.
  - intros u [?|(b & -> & Hb)%list_elem_of_fmap]%elem_of_app; [by auto|].
    rewrite Hbase by done. cbn. by apply lay_waiting0, Htake.
  - intros j [Hj|(b & -> & Hb)%list_elem_of_fmap]%elem_of_app.
    + destruct (lay_jobs0 j Hj) as (? & ? & u & ? & ?). split_and!; [done..|].
      exists u. split; [|done]. apply elem_of_app. by left.
    + destruct (lay_waiting0 b (Htake _ Hb)) as ((? & ?) & ?). split_and!; [done..|].
      exists (entry_of b). split; [|done]. apply elem_of_app. right. by apply list_elem_of_fmap_2.
  - intros u e Hu He. rewrite app_assoc in Hu.
    apply elem_of_app in Hu as [Hu|(b & -> & _)%list_elem_of_fmap]; [by eauto|done].
  - intros o Ho. destruct (lay_puts0 o Ho) as (? & ? & Hu & Hw). split_and!; auto; [lia..|].
    intros u [?|(b & -> & Hb)%list_elem_of_fmap]%elem_of_app; [by auto|].
    rewrite Hbase by done. intros E. exfalso. by apply (Hw b); [apply Htake|].
Qed.

Lemma data_size_ok record :
  len (encoded record) + 24 < 2 ^ 64 →
  rec_ok {| pr_record := record; pr_size := data_size record; pr_offset := 0; pr_ack := 0 |}.
Proof. intros. unfold rec_ok, data_size, WAL_RECORD_HEADER_SIZE. cbn. apply u64_small. int_lia. Qed.

Lemma seal_next w : w_active w ≠ None → w_active (seal_active w) = None.
Proof. unfold seal_active. by destruct (w_active w). Qed.

Lemma seal_next_offset w :
  Layout true w → w_next_offset w + A < 2 ^ 64 → w_next_offset (seal_active w) ≤ w_next_offset w + A.
Proof.
  intros L Hn. pose proof (layout_seal _ L Hn) as L'. destruct L'. clear -L Hn.
  pose proof (lay_next_pos _ _ L). pose proof (lay_aligned _ _ L). destruct L.
  unfold seal_active, active_ok in *. destruct (w_active w) as [b|]; wsimpl; [|align_lia].
  destruct_and! lay_active0. pose proof (sum_sizes_nonneg (bk_records b) ltac:(done)).
  rewrite u64_small; align_lia.
Qed.

(** The state of [submit] once there is room in the active bulk. *)
Lemma layout_make_room size w :
  Layout true w → w_next_offset w ≤ OFFSET_LIMIT → 0 < size ≤ A →
  let w1 := match w_active w with None => new_active_bulk w | Some _ => w end in
  let w2 := if A <? u64 (size + active_size w1) then new_active_bulk (seal_active w1) else w1 in
  Layout false w2 ∧ w_active w2 ≠ None ∧ active_size w2 + size ≤ A
  ∧ w_next_offset w2 ≤ w_next_offset w + A.
Proof.
  intros L Hn Hs w1 w2. unfold OFFSET_LIMIT in *.
  destruct (w_active w) as [b|] eqn:Eb.
  - assert (0 ≤ bk_size b ≤ A) as Hb.
    { pose proof (lay_active _ _ L) as Ha. unfold active_ok in Ha. rewrite Eb in Ha.
      destruct_and! Ha. pose proof (sum_sizes_nonneg (bk_records b) ltac:(done)). lia. }
    subst w1 w2. unfold active_size. rewrite Eb.
    rewrite u64_small by align_lia. destruct (A <? size + bk_size b) eqn:Ec.
    + assert (w_active w ≠ None) as Hne by congruence.
      pose proof (seal_next_offset w L ltac:(align_lia)).
      split_and!; [apply layout_new_active; [apply layout_seal; [done|align_lia]|by apply seal_next|align_lia]|done|unfold new_active_bulk; wsimpl; cbn; lia|done].
    + rewrite Eb. split_and!; [by apply layout_weaken|congruence|lia|align_lia].
  - subst w1 w2. change (active_size (new_active_bulk w)) with 0.
    rewrite u64_small by align_lia. replace (A <? size + 0) with false by lia.
    split_and!; [apply layout_new_active; [done..|align_lia]|done|unfold active_size, new_active_bulk; wsimpl; cbn; lia|].
    unfold new_active_bulk; wsimpl. align_lia.
Qed.

Lemma try_upload_next w : w_next_offset (try_upload_waiting c w) = w_next_offset w.
Proof. unfold try_upload_waiting. by rewrite admit_spec. Qed.

Lemma layout_flush w :
  Layout true w → w_next_offset w + A < 2 ^ 64 → Layout true (try_upload_waiting c (seal_active w)).
Proof. intros. by apply layout_try_upload, layout_seal. Qed.

Lemma layout_submit ticket record w :
  Layout true w → w_next_offset w ≤ OFFSET_LIMIT → len (encoded record) < 2 ^ 63 →
  Layout true (submit c ticket record w).1.
Proof.
  intros L Hn Hlen. unfold submit. destruct (check_status c w); [|done].
  case_match; [done|]. destruct (A <? data_size record) eqn:Es; [done|].
  pose proof (data_size_ok record ltac:(int_lia)) as Hd.
  pose proof (rec_ok_pos _ Hd) as Hp; cbn in Hp.
  destruct (layout_make_room (data_size record) w L Hn ltac:(lia)) as (L2 & Ha & Hsz & Hno).
  match type of L2 with Layout _ ?x => set (w2 := x) in * end.
  assert (Layout true (push_active {| pr_record := record; pr_size := data_size record;
            pr_offset := 0; pr_ack := ticket |}
            (set_buffered_data_bytes (u64 (w_buffered_data_bytes w2 + data_size record)) w2))) as L3.
  { apply layout_push; [by eapply layout_view; [|exact L2]|done|exact Hd|exact Hsz]. }
  cbv zeta. unfold OFFSET_LIMIT in *.
  match type of L3 with Layout _ ?x => set (w3 := x) in *;
    assert (w_next_offset w3 = w_next_offset w2) as Hn3
      by (unfold w3, push_active; wsimpl; by destruct (w_active w2)) end.
  case_match; cbn [fst].
  - apply layout_flush; [by eapply layout_view; [|exact L3]|wsimpl; align_lia].
  - by eapply layout_view; [|exact L3].
Qed.

Lemma layout_build seq t w :
  Layout true w → Layout true (set_jobs (set_job_trim seq t (w_jobs w)) w).
Proof.
  intros L. destruct L. constructor; unfold pipe, active_ok in *; wsimpl; auto.
  intros j (j' & -> & Hj)%list_elem_of_fmap. apply lay_jobs0 in Hj. by destruct (j_seq j' =? seq).
Qed.

Lemma finish_entry_bases seq rs r us : ub_base <$> finish_entry seq rs r us = ub_base <$> us.
Proof. unfold finish_entry. rewrite <- list_fmap_compose. apply list_fmap_ext. intros i u _. unfold compose. by destruct (ub_seq u =? seq). Qed.

Lemma elem_of_finish_entry seq rs r us u :
  u ∈ finish_entry seq rs r us →
  (u ∈ us ∧ ub_seq u ≠ seq)
  ∨ (ub_seq u = seq ∧ ub_done u = Some r ∧ ub_records u = Some rs
     ∧ ∃ u0, u0 ∈ us ∧ ub_seq u0 = seq ∧ ub_base u0 = ub_base u).
Proof.
  unfold finish_entry. intros (u0 & -> & Hu)%list_elem_of_fmap.
  destruct (ub_seq u0 =? seq) eqn:E; [right|left; split; [done|lia]].
  cbn. split_and!; [lia|done..|]. exists u0. split_and!; [done|lia|done].
Qed.

Lemma finish_entry_other seq rs r us u :
  u ∈ us → ub_seq u ≠ seq → u ∈ finish_entry seq rs r us.
Proof.
  intros Hu Hs. unfold finish_entry. apply list_elem_of_fmap. exists u. split; [|done].
  replace (ub_seq u =? seq) with false by lia. done.
Qed.

(** The entry of the bulk a job uploads. *)
Lemma job_entry full w j :
  Layout full w → j ∈ w_jobs w →
  ∃ u, u ∈ w_uploading w ∧ ub_seq u = j_seq j ∧ ub_base u = j_base_offset j ∧ ub_done u = None.
Proof.
  intros L Hj. destruct (lay_jobs _ _ L j Hj) as (_ & Hs & u & Hu & Hsu & Hd).
  exists u. split_and!; auto. rewrite <- Hsu in Hs. eapply seq_at_base; [by eapply lay_uploading|done].
Qed.

Lemma job_base full w j :
  Layout full w → j ∈ w_jobs w →
  s0 ≤ j_base_offset j ∧ aligned (j_base_offset j) ∧ j_base_offset j + A ≤ w_next_offset w
  ∧ j_base_offset j ∉ w_puts w.
Proof.
  intros L Hj. destruct (job_entry _ _ _ L Hj) as (u & Hu & _ & Hb & Hd).
  destruct (lay_elem _ _ (j_base_offset j) L) as (? & ? & ? & _).
  { unfold pipe. rewrite !elem_of_app, <- Hb. right; left. by apply list_elem_of_fmap_2. }
  split_and!; auto. intros Hp. destruct (lay_puts _ _ L _ Hp) as (_ & _ & Hx & _).
  by apply (Hx u).
Qed.

(** Slots are used once: an uploading bulk's slot is not a waiting one's. *)
Lemma uploading_not_waiting full w u k :
  Layout full w → u ∈ w_uploading w → k ∈ w_waiting w → bk_base_offset k ≠ ub_base u.
Proof.
  intros [] Hu Hk Hb. destruct lay_chain0 as (lo & Hc & _). apply chain_NoDup in Hc.
  unfold pipe in Hc. rewrite app_assoc, NoDup_app in Hc. destruct Hc as (_ & Hc & _).
  apply (Hc (ub_base u)).
  - apply elem_of_app. right. by apply list_elem_of_fmap_2.
  - rewrite <- Hb. by apply list_elem_of_fmap_2.
Qed.

(** What [upload_done] does to the pipeline, on both outcomes. *)
Lemma layout_finish j rs r w w' :
  Layout true w → j ∈ w_jobs w →
  w_uploading w' = finish_entry (j_seq j) rs r (w_uploading w) →
  w_jobs w' = filter (λ j', j_seq j' ≠ j_seq j) (w_jobs w) →
  (∀ e, r = Err e → w_fenced w' = true) → (w_fenced w = true → w_fenced w' = true) →
  (∀ b, b ∈ w_puts w' → b ∈ w_puts w ∨ b = j_base_offset j) →
  (w_active w', w_bulk_seq w', w_waiting w', w_next_offset w', w_flushed_offset w', w_callback w')
  = (w_active w, w_bulk_seq w, w_waiting w, w_next_offset w, w_flushed_offset w, w_callback w) →
  Layout true w'.
Proof.
  intros L Hj Hup Hjo Hfe Hfe' Hpu [= Ea Es Ew En Ef Ec].
  destruct (job_base _ _ _ L Hj) as (? & ? & ? & _).
  destruct (job_entry _ _ _ L Hj) as (u1 & Hu1 & Hs1 & Hb1 & _).
  pose proof L as [].
  constructor; unfold pipe, active_ok in *; rewrite ?Hup, ?Hjo, ?Ea, ?Es, ?Ew, ?En, ?Ef, ?Ec; auto.
  - destruct lay_chain0 as (lo & ? & ? & ? & Hlo). exists lo. rewrite finish_entry_bases.
    split_and!; auto; lia.
  - intros u [[? _]|(<- & _ & _ & u0 & Hu0 & Hs0 & Hb)]%elem_of_finish_entry; [by auto|].
    rewrite <- Hb, <- Hs0. by auto.
  - intros j' [Hne Hj']%list_elem_of_filter. destruct (lay_jobs0 j' Hj') as (? & ? & u & ? & ? & ?).
    split_and!; auto. exists u. split_and!; auto. apply finish_entry_other; [done|congruence].
  - intros u e [Hu|[[Hu ?]|(_ & Hd & _)]%elem_of_finish_entry]%elem_of_app He.
    + apply Hfe', (lay_error0 u e); [apply elem_of_app; by left|done].
    + apply Hfe', (lay_error0 u e); [apply elem_of_app; by right|done].
    + apply (Hfe e). congruence.
  - intros o [Ho| ->]%Hpu.
    + destruct (lay_puts0 o Ho) as (? & ? & Hu & ?). split_and!; auto; [lia..|].
      intros u [[? _]|(_ & Hd & _)]%elem_of_finish_entry; [by auto|by rewrite Hd].
    + split_and!; [lia|align_lia|done| |].
      * intros u [[Hu Hne]|(_ & Hd & _)]%elem_of_finish_entry; [|by rewrite Hd].
        intros Hb. exfalso. apply Hne. rewrite <- Hs1. eapply seq_at_seq; [by apply lay_uploading0|].
        rewrite Hb, <- Hb1. by apply lay_uploading0.
      * intros k Hk. rewrite <- Hb1. by eapply uploading_not_waiting.
Qed.

Lemma layout_upload_done now j trim out w :
  Layout true w → j ∈ w_jobs w → Layout true (upload_done c now j trim out w).
Proof.
  intros L Hj. unfold upload_done. destruct out as [bucket|e landed];
    (eapply (layout_finish j); [exact L|exact Hj|wsimpl; reflexivity..| | | |]); wsimpl; auto; try done.
  intros b [?|?%list_elem_of_singleton]%elem_of_app; auto.
Qed.

Lemma pop_done_spec us d rest :
  pop_done us = (d, rest) → us = d ++ rest ∧ ∀ u, u ∈ d → ub_done u ≠ None.
Proof.
  revert d rest; induction us as [|u us IH]; intros d rest; simpl; [naive_solver set_solver|].
  destruct (ub_done u) eqn:Ed.
  - destruct (pop_done us) as [d' rest'] eqn:Ep. intros [= <- <-].
    destruct (IH _ _ eq_refl) as (-> & Hd). split; [done|].
    intros u' [->|?]%elem_of_cons; [congruence|by auto].
  - intros [= <- <-]. split; [done|]. by intros u' ?%not_elem_of_nil.
Qed.

Lemma layout_collected d rest w :
  Layout true w → w_callback w = [] → w_uploading w = d ++ rest → (∀ u, u ∈ d → ub_done u ≠ None) →
  Layout true (set_callback d (set_uploading rest w)).
Proof.
  intros L Hcb Hup Hd. destruct L.
  constructor; unfold pipe, active_ok in *; wsimpl; rewrite ?Hcb, ?Hup in *; auto.
  - destruct lay_chain0 as (lo & Hc & ?). exists lo. split; [|done].
    by rewrite fmap_app, <- app_assoc in Hc.
  - intros u Hu. apply lay_uploading0, elem_of_app. by right.
  - intros j Hj. destruct (lay_jobs0 j Hj) as (? & ? & u & Hu & ? & Hn). split_and!; auto.
    exists u. split_and!; auto. apply elem_of_app in Hu as [Hu|]; [|done]. by destruct (Hd u Hu).
  - intros o Ho. destruct (lay_puts0 o Ho) as (? & ? & Hu & ?). split_and!; auto; [lia..|].
    intros u Hu'. apply Hu. apply elem_of_app. by right.
Qed.

Lemma layout_collect w :
  Layout true w → w_callback w = [] → Layout true (callback_collect c w).
Proof.
  intros L Hcb. unfold callback_collect.
  destruct (pop_done (w_uploading w)) as [d rest] eqn:Ep. case_decide; [done|].
  apply pop_done_spec in Ep as (Hup & Hd). by apply layout_try_upload, layout_collected.
Qed.

(** Completing the collected bulks, in order. *)
Lemma complete_all fenced us w :
  foldl (λ w u, complete_bulk c fenced u w) w us
  = set_completed (w_completed w ++ (ub_seq <$> us))
      (set_confirms (w_confirms w
          ++ (us ≫= λ u, (complete_records c fenced (default [] (ub_records u))).2))
        (set_acks (w_acks w
            ++ (us ≫= λ u, (complete_records c fenced (default [] (ub_records u))).1))
          (set_flushed_offset
            (if fenced then w_flushed_offset w
             else default (w_flushed_offset w) (ub_end_offset_aligned <$> last us)) w))).
Proof.
  revert w; induction us as [|u us IH]; intros w.
  - destruct w, fenced; cbn; by rewrite !app_nil_r.
  - cbn [foldl]. rewrite IH. unfold complete_bulk.
    destruct (complete_records c fenced (default [] (ub_records u))) as [acks cfs] eqn:E.
    destruct w. cbn [mbind list_bind fmap list_fmap]. rewrite E. destruct fenced; wsimpl; cbn [fst snd].
    + rewrite <- !app_assoc. done.
    + rewrite <- !app_assoc, last_cons. by destruct (last us).
Qed.

Lemma chain_last_end lo us mid u :
  chain lo (ub_base <$> us) mid → last us = Some u → ub_end_offset_aligned u = mid.
Proof.
  intros Hc [us' ->]%last_Some. rewrite fmap_app in Hc. apply chain_app in Hc as (m & _ & Hc).
  cbn in Hc. destruct Hc as [<- <-]. unfold ub_base. lia.
Qed.

Lemma layout_callback_finish lease w :
  Layout true w → Layout true (callback_finish c lease w).
Proof.
  intros L. unfold callback_finish.
  set (w1 := match lease with Ok true => w | _ => set_fenced true w end).
  assert (Layout true w1) as L1.
  { subst w1. repeat case_match; try done; destruct L; constructor; unfold pipe, active_ok in *; wsimpl; auto.
    all: destruct lay_chain0 as (lo & ? & ? & ? & ?); exists lo; split_and!; auto; lia. }
  clearbody w1. clear L. rewrite complete_all. destruct L1.
  destruct lay_chain0 as (lo & Hc & Hal & Hfl & Hfe).
  unfold pipe in Hc. apply chain_app in Hc as (mid & Hc1 & Hc2).
  pose proof (chain_le _ _ _ Hc1). pose proof (chain_aligned _ _ _ Hc1 Hal).
  constructor; unfold pipe, active_ok in *; wsimpl; auto.
  - exists mid. cbn [fmap list_fmap]. split_and!; [done..| | |].
    + destruct (w_fenced w1) eqn:Ef; [lia|].
      destruct (last (w_callback w1)) as [u|] eqn:El; cbn; [|lia].
      rewrite (chain_last_end _ _ _ _ Hc1 El). lia.
    + destruct (w_fenced w1) eqn:Ef; [lia|].
      destruct (last (w_callback w1)) as [u|] eqn:El; cbn; [|lia].
      rewrite (chain_last_end _ _ _ _ Hc1 El). lia.
    + intros Ef. rewrite Ef. destruct (last (w_callback w1)) as [u|] eqn:El; cbn.
      * by rewrite (chain_last_end _ _ _ _ Hc1 El).
      * apply last_None in El. rewrite El in Hc1. cbn in Hc1. rewrite <- Hc1. auto.
  - by intros u ?%not_elem_of_nil.
  - intros u e Hu. apply lay_error0. apply elem_of_app. by right.
Qed.

Lemma layout_step w w' :
  step c w w' → w_next_offset w ≤ OFFSET_LIMIT → Layout true w → Layout true w'.
Proof.
  intros Hst Hn L. assert (w_next_offset w + A < 2 ^ 64) by (unfold OFFSET_LIMIT in *; align_lia).
  destruct Hst as [w ticket record Hlen|w seq|w|w|w j|w now j trim out Hj|w Hcb|w lease|w ticket
    |w offset ticket w' Hb|w ticket offset res deleted|w paths deleted].
  - by apply layout_submit.
  - unfold timer_fires. repeat case_match; try done. by apply layout_flush.
  - by apply layout_flush.
  - apply layout_flush; [by eapply layout_view; [|exact L]|done].
  - by apply layout_build.
  - by apply layout_upload_done.
  - by apply layout_collect.
  - by apply layout_callback_finish.
  - unfold durable_resolved. case_match; [|done]. by eapply layout_view; [|exact L].
  - unfold trim_begin in Hb. repeat case_match; simplify_eq.
    all: match goal with H : submit _ _ _ ?x = (?w2, _) |- _ =>
           assert (Layout true w2) as L2 by
             (change w2 with (w2, 0).1; replace (w2, 0).1 with (submit c ticket fake_trim_record x).1
                by (by rewrite H); apply layout_submit; [by eapply layout_view; [|exact L]|done|by vm_compute]) end.
    + by eapply layout_view; [|exact L2].
    + done.
  - unfold trim_finish. case_decide; by eapply layout_view; [|exact L].
  - by eapply layout_view; [|exact L].
Qed.
End Layout.

(** ** What the store holds *)

Section Durable.
Context {S : Type} `{!ObjectStorage S} `{!ObjectStorageLaws S} `{!Crc32Fast}.
Context (c : WalConfig) (s0 : Z).
Implicit Types w : Writer S.

Definition slot_path (b : Z) : bytes := object_path (object_prefix c) b (b + A).

Lemma slot_path_inj b b' : is_u64 b → is_u64 b' → slot_path b = slot_path b' → b = b'.
Proof.
  unfold slot_path, object_path. intros Hb Hb' E. apply app_inv_head in E.
  change (str "-") with [DASH] in E. cbn [app] in E.
  apply (f_equal (split_once DASH)) in E.
  rewrite !split_once_app in E by (by apply dec_no_sep). injection E as E _.
  apply (f_equal parse_u64) in E. rewrite !parse_u64_dec in E by done. congruence.
Qed.

Definition holds (store : S) (key data : bytes) : Prop :=
  ∀ x y, 0 ≤ x ≤ y → y ≤ len data → os_range_read store key x (Some y) = Ok (slice x y data).

(** The object of slot [b] is durable with records [rs], or its last record
    is covered by the trim watermark. *)
Definition slot_ok w (b : Z) (rs : list PendingRecord) : Prop :=
  b ∈ w_puts w ∧ recs_ok rs ∧
  ((∃ t o, w_last_record_offset_to_object w !! last_record_offset b rs = Some o
           ∧ wo_start_offset o = b ∧ holds (w_store w) (slot_path b) (build_payload c b t rs))
   ∨ last_record_offset b rs ≤ w_trim_offset w).

(** An acknowledged record sits in a bulk that was stored. *)
Definition acked_ok w (a : Ack) : Prop :=
  ∀ res, ack_result a = Ok res →
  ∃ b rs r, slot_ok w b rs ∧ r ∈ placed b rs ∧ pr_record r = ack_record a
    ∧ ar_record_offset res
      = {| ro_epoch := c_epoch c; ro_offset := pr_offset r; ro_size := u32 (pr_size r) |}
    ∧ b + A ≤ w_flushed_offset w.

Definition own_slot (b : Z) : Prop := s0 ≤ b ∧ aligned b ∧ b + A < 2 ^ 64.

Record Durable w : Prop := {
  du_trim : -1 ≤ w_trim_offset w;
  du_trimming : ∀ t o, (t, o) ∈ w_trimming w → 0 ≤ o ≤ w_trim_offset w;
  du_map : ∀ k o, w_last_record_offset_to_object w !! k = Some o →
    wo_start_offset o ∈ w_puts w ∧ wo_key o = slot_path (wo_start_offset o)
    ∧ wo_start_offset o ≤ k < wo_start_offset o + A;
  du_map_inj : ∀ k k' o o', w_last_record_offset_to_object w !! k = Some o →
    w_last_record_offset_to_object w !! k' = Some o' →
    wo_start_offset o = wo_start_offset o' → k = k';
  du_done : ∀ u v, u ∈ w_callback w ++ w_uploading w → ub_done u = Some (Ok v) →
    ∃ rs, ub_records u = Some (placed (ub_base u) rs) ∧ slot_ok w (ub_base u) rs;
  du_acks : ∀ a, a ∈ w_acks w → acked_ok w a;
  du_deletes : ∀ p b, p ∈ concat (w_delayed_deletes w) → own_slot b → op_key p = slot_path b →
    b ∈ w_puts w ∧ ∀ k o, w_last_record_offset_to_object w !! k = Some o → wo_start_offset o ≠ b;
  du_prev : ∀ o b, o ∈ w_previous_objects w → own_slot b → wo_key o ≠ slot_path b;
  du_holes : ∀ b, aligned b → s0 ≤ b < w_flushed_offset w → b ∈ w_puts w;
}.

(** Steps that neither complete nor release anything. *)
Definition dur_view w :=
  (w_puts w, w_last_record_offset_to_object w, w_store w, w_trim_offset w, w_trimming w,
   w_delayed_deletes w, w_previous_objects w, w_acks w, w_flushed_offset w, w_confirms w).

Definition quiet w w' : Prop :=
  dur_view w' = dur_view w
  ∧ ∀ u v, u ∈ w_callback w' ++ w_uploading w' → ub_done u = Some v → u ∈ w_callback w ++ w_uploading w.

#[local] Instance quiet_preorder : PreOrder quiet.
Proof.
  split; [done|]. intros w1 w2 w3 [E1 H1] [E2 H2]. split; [congruence|]. eauto.
Qed.

Lemma durable_quiet w w' : quiet w w' → Durable w → Durable w'.
Proof.
  intros [[= E1 E2 E3 E4 E5 E6 E7 E8 E9 _] Hd] [].
  constructor; unfold acked_ok, slot_ok in *; rewrite ?E1, ?E2, ?E3, ?E4, ?E5, ?E6, ?E7, ?E8, ?E9; eauto.
Qed.

Lemma quiet_seal w : quiet w (seal_active w).
Proof. unfold seal_active. by case_match. Qed.
Lemma quiet_push p w : quiet w (push_active p w).
Proof. unfold push_active. by case_match. Qed.

Lemma quiet_try_upload w : quiet w (try_upload_waiting c w).
Proof.
  unfold try_upload_waiting. rewrite admit_spec. split; [done|]. wsimpl.
  intros u v. rewrite app_assoc. intros [?|(b & -> & _)%list_elem_of_fmap]%elem_of_app; [done|].
  done.
Qed.

Lemma quiet_flush w : quiet w (try_upload_waiting c (seal_active w)).
Proof. etrans; [apply quiet_seal|apply quiet_try_upload]. Qed.

Lemma quiet_submit ticket record w : quiet w (submit c ticket record w).1.
Proof.
  unfold submit. destruct (check_status c w); [|done]. case_match; [done|]. case_match; [done|].
  set (w1 := match w_active w with None => _ | Some _ => w end).
  assert (quiet w w1) as Q1 by (subst w1; by case_match).
  set (w2 := if _ <? u64 _ then _ else w1).
  assert (quiet w w2) as Q2.
  { subst w2. case_match; [|done]. etrans; [exact Q1|]. exact (quiet_seal w1). }
  cbv zeta. etrans; [exact Q2|].
  match goal with |- quiet _ (if ?b then (try_upload_waiting _ (seal_active ?x), _) else _).1 =>
    assert (quiet w2 x) as Q3; [|destruct b; cbn [fst]; [|done]; etrans; [exact Q3|apply quiet_flush]] end.
  set (w3 := set_buffered_data_bytes _ w2). etrans; [|apply (quiet_push _ w3)]. done.
Qed.

(** *** Writing one slot *)

Lemma puts_own w b : Layout s0 true w → b ∈ w_puts w → own_slot b ∧ is_u64 b.
Proof.
  intros L Hb. destruct (lay_puts _ _ _ L b Hb) as (? & ? & _).
  pose proof (lay_start _ _ _ L). pose proof (lay_next _ _ _ L). pose proof (lay_aligned _ _ _ L).
  unfold own_slot. split_and!; [lia|done|align_lia|int_lia].
Qed.

Lemma own_u64 b : 0 ≤ s0 → own_slot b → is_u64 b.
Proof. unfold own_slot. intros. align_lia. Qed.

Lemma holds_write store now b data b' data' :
  is_u64 b → is_u64 b' → b ≠ b' → holds store (slot_path b') data' →
  holds (os_write store now (slot_path b) data) (slot_path b') data'.
Proof.
  intros ??? Hh x y Hx Hy. rewrite os_write_other; [by apply Hh|].
  intros E. by apply slot_path_inj in E.
Qed.

Lemma job_path w j :
  Layout s0 true w → j ∈ w_jobs w →
  object_path (object_prefix c) (j_base_offset j) (job_end_offset (j_base_offset j) (j_records j))
  = slot_path (j_base_offset j)
  ∧ job_end_offset (j_base_offset j) (j_records j) = j_base_offset j + A.
Proof.
  intros L Hj. destruct (job_base _ _ _ _ L Hj) as (? & ? & ? & _).
  destruct (lay_jobs _ _ _ L j Hj) as (Hr & _). pose proof (recs_ok_pos _ Hr).
  pose proof (lay_start _ _ _ L). pose proof (lay_next _ _ _ L).
  unfold slot_path, job_end_offset. rewrite u64_small by align_lia.
  rewrite ceil_align_slot by align_lia. done.
Qed.

(** A PUT of a fresh slot keeps every stored slot. *)
Lemma slot_ok_write w w' j now data b rs :
  Layout s0 true w → j ∈ w_jobs w → slot_ok w b rs →
  (∀ x, x ∈ w_puts w → x ∈ w_puts w') → w_trim_offset w' = w_trim_offset w →
  (∀ k o, w_last_record_offset_to_object w !! k = Some o → b ≤ k < b + A →
          w_last_record_offset_to_object w' !! k = Some o) →
  (w_store w' = w_store w ∨ w_store w' = os_write (w_store w) now (slot_path (j_base_offset j)) data) →
  slot_ok w' b rs.
Proof.
  intros L Hj (Hb & Hr & Hs) Hp Ht Hm Hst. destruct (puts_own _ _ L Hb) as [(? & ? & ?) ?].
  destruct (job_base _ _ _ _ L Hj) as (? & ? & ? & Hnp).
  pose proof (lay_start _ _ _ L). pose proof (lay_next _ _ _ L).
  split_and!; auto. destruct Hs as [(t & o & Ho & Hb' & Hh)|Hle]; [left|right; by rewrite Ht].
  exists t, o. split_and!; [|done|].
  - apply Hm; [done|]. apply last_record_offset_spec; auto; lia.
  - destruct Hst as [-> | ->]; [done|]. apply holds_write; auto; [align_lia|congruence].
Qed.

Lemma durable_put_ok now j trim bucket w :
  Layout s0 true w → j ∈ w_jobs w → Durable w → Durable (upload_done c now j trim (PutOk bucket) w).
Proof.
  intros L Hj D. destruct (job_base _ _ _ _ L Hj) as (? & ? & ? & Hnp).
  destruct (job_path _ _ L Hj) as [Hpath Hend]. destruct (lay_jobs _ _ _ L j Hj) as (Hr & _).
  pose proof (lay_start _ _ _ L). pose proof (lay_next _ _ _ L).
  destruct (last_record_offset_spec (j_base_offset j) (j_records j)) as [Hk _]; [done|lia..|].
  set (b := j_base_offset j) in *. set (k := last_record_offset b (j_records j)) in *.
  assert (∀ k' o, w_last_record_offset_to_object w !! k' = Some o →
    wo_start_offset o ≠ b ∧ k' ≠ k) as Hfresh.
  { intros k' o Ho. destruct (du_map _ D k' o Ho) as (Hin & _ & ?).
    destruct (puts_own _ _ L Hin) as [(? & ? & ?) _]. split; [congruence|].
    intros ->. assert (wo_start_offset o = b) by (eapply slot_unique; eauto). congruence. }
  assert (∀ b' rs, slot_ok w b' rs → slot_ok (upload_done c now j trim (PutOk bucket) w) b' rs) as Hmono.
  { intros b' rs Hs. eapply slot_ok_write; [exact L|exact Hj|exact Hs|..]; unfold upload_done; wsimpl; auto.
    - intros. apply elem_of_app. by left.
    - intros k' o Ho _. rewrite lookup_insert_ne; [done|]. by destruct (Hfresh _ _ Ho).
    - right. fold b. by rewrite Hpath. }
  assert (slot_ok (upload_done c now j trim (PutOk bucket) w) b (j_records j)) as Hnew.
  { split_and!; [unfold upload_done; wsimpl; apply elem_of_app; right; by apply list_elem_of_singleton|done|].
    left. exists trim. eexists. unfold upload_done; wsimpl. split_and!; [by rewrite lookup_insert_eq|done|].
    intros x y ??. fold b. rewrite Hpath. by apply os_range_write. }
  destruct D. constructor; try (unfold upload_done; wsimpl; auto; fail).
  - unfold upload_done; wsimpl. fold b k. intros k' o [[<- <-]|[Hne Ho]]%lookup_insert_Some; cbn.
    + rewrite Hpath. split_and!; [apply elem_of_app; right; by apply list_elem_of_singleton|done|lia..].
    + destruct (du_map0 _ _ Ho) as (? & ? & ?). split_and!; [apply elem_of_app; by left|done|lia..].
  - unfold upload_done; wsimpl. fold b k.
    intros k1 k2 o1 o2 [[<- <-]|[Hne1 Ho1]]%lookup_insert_Some [[<- <-]|[Hne2 Ho2]]%lookup_insert_Some; cbn;
      [done| | |by eauto].
    + intros E. by destruct (Hfresh _ _ Ho2) as [[] _].
    + intros E. by destruct (Hfresh _ _ Ho1) as [[] _].
  - intros u v Hu Hd. replace (w_callback (upload_done c now j trim (PutOk bucket) w)) with (w_callback w) in Hu by done.
    replace (w_uploading (upload_done c now j trim (PutOk bucket) w))
      with (finish_entry (j_seq j) (placed b (j_records j)) (Ok tt) (w_uploading w)) in Hu by done.
    apply elem_of_app in Hu as [Hu|[[Hu _]|(Hsq & _ & Hrs & u0 & Hu0 & Hs0 & Hb0)]%elem_of_finish_entry].
    + destruct (du_done0 u v) as (rs & ? & ?); [apply elem_of_app; by left|done|]. eauto.
    + destruct (du_done0 u v) as (rs & ? & ?); [apply elem_of_app; by right|done|]. eauto.
    + assert (ub_base u = b) as ->; [|by eauto].
      rewrite <- Hb0. destruct (lay_jobs _ _ _ L j Hj) as (_ & Hsj & _).
      eapply seq_at_base; [by eapply lay_uploading|by rewrite Hs0].
  - intros a Ha res Hres. destruct (du_acks0 a Ha res Hres) as (b' & rs & r & ? & ?).
    exists b', rs, r. split; [by auto|done].
  - unfold upload_done; wsimpl. fold b k. intros p b' Hp Hown Hkey.
    destruct (du_deletes0 p b' Hp Hown Hkey) as [Hin Hno]. split; [apply elem_of_app; by left|].
    intros k' o [[<- <-]|[Hne Ho]]%lookup_insert_Some; cbn; [|by eauto]. intros ->. done.
  - unfold upload_done; wsimpl. intros. apply elem_of_app. left. auto.
Qed.

Lemma durable_put_err now j trim e landed w :
  Layout s0 true w → j ∈ w_jobs w → Durable w → Durable (upload_done c now j trim (PutErr e landed) w).
Proof.
  intros L Hj D. destruct (job_path _ _ L Hj) as [Hpath _].
  set (w' := upload_done c now j trim (PutErr e landed) w).
  assert (∀ b rs, slot_ok w b rs → slot_ok w' b rs) as Hmono.
  { intros b rs Hs. eapply slot_ok_write; [exact L|exact Hj|exact Hs|done..|].
    subst w'; unfold upload_done; wsimpl. rewrite Hpath. destruct landed; [by right|by left]. }
  destruct D. constructor; try (subst w'; unfold upload_done; wsimpl; auto; fail).
  - intros u v Hu Hd.
    replace (w_callback w') with (w_callback w) in Hu by done.
    replace (w_uploading w') with
      (finish_entry (j_seq j) (placed (j_base_offset j) (j_records j)) (Err (WE_Storage e)) (w_uploading w)) in Hu by done.
    assert (u ∈ w_callback w ++ w_uploading w) as Hu'.
    { apply elem_of_app in Hu as [Hu|[[Hu _]|(_ & Hd' & _)]%elem_of_finish_entry];
        [apply elem_of_app; by left|apply elem_of_app; by right|congruence]. }
    destruct (du_done0 u v Hu' Hd) as (rs & ? & ?). eauto.
  - intros a Ha res Hres. destruct (du_acks0 a Ha res Hres) as (b & rs & r & ? & ?).
    exists b, rs, r. split; [by auto|done].
Qed.

(** *** Completion *)

Lemma complete_records_err a rs res : a ∈ (complete_records c true rs).1 → ack_result a ≠ Ok res.
Proof.
  induction rs as [|r rs IH]; cbn; [by intros ?%not_elem_of_nil|].
  destruct (complete_records c true rs); cbn in *. by intros [->|?]%elem_of_cons; auto.
Qed.

Lemma complete_records_ok a rs :
  a ∈ (complete_records c false rs).1 →
  ∃ r res, r ∈ rs ∧ ack_record a = pr_record r ∧ ack_ticket a = pr_ack r ∧ ack_result a = Ok res
    ∧ ar_record_offset res
      = {| ro_epoch := c_epoch c; ro_offset := pr_offset r; ro_size := u32 (pr_size r) |}.
Proof.
  induction rs as [|r rs IH]; cbn; [by intros ?%not_elem_of_nil|].
  destruct (complete_records c false rs) as [acks cfs]; cbn [fst] in *. intros [->|Ha]%elem_of_cons; cbn.
  - exists r. eexists. split_and!; [left|done..].
  - destruct (IH Ha) as (r' & res & ? & ?). exists r', res. split; [by right|done].
Qed.

(** The state in which the collected bulks are completed. *)
Definition lease_checked (lease : result WalError bool) w : Writer S :=
  match lease with Ok true => w | _ => set_fenced true w end.

Lemma callback_ok lease w u :
  Layout s0 true w → Durable w → w_fenced (lease_checked lease w) = false → u ∈ w_callback w →
  ∃ rs, ub_records u = Some (placed (ub_base u) rs) ∧ slot_ok w (ub_base u) rs.
Proof.
  intros L D Hf Hu. assert (u ∈ w_callback w ++ w_uploading w) as Hu' by (apply elem_of_app; by left).
  pose proof (lay_callback _ _ _ L u Hu). destruct (ub_done u) as [[v|e]|] eqn:Ed; [|exfalso|done].
  - by eapply du_done.
  - pose proof (lay_error _ _ _ L u e Hu' Ed). unfold lease_checked in Hf.
    destruct lease as [[]|]; wsimpl; congruence.
Qed.

Lemma flushed_advance lease w :
  Layout s0 true w → w_flushed_offset w ≤ w_flushed_offset (callback_finish c lease w)
  ∧ ((∀ u, u ∈ w_callback w → w_fenced (lease_checked lease w) = false →
        ub_base u + A ≤ w_flushed_offset (callback_finish c lease w))
    ∧ ∀ b, aligned b → w_flushed_offset w ≤ b < w_flushed_offset (callback_finish c lease w) →
       w_fenced (lease_checked lease w) = false ∧ b ∈ ub_base <$> w_callback w).
Proof.
  intros L. destruct (lay_chain _ _ _ L) as (lo & Hc & Hal & Hfl & Hfe).
  unfold pipe in Hc. apply chain_app in Hc as (mid & Hc & _). pose proof (chain_le _ _ _ Hc).
  unfold callback_finish. fold (lease_checked lease w). rewrite complete_all.
  assert (w_flushed_offset (lease_checked lease w) = w_flushed_offset w
    ∧ w_callback (lease_checked lease w) = w_callback w
    ∧ (w_fenced w = true → w_fenced (lease_checked lease w) = true)) as (E1 & E2 & E3).
  { unfold lease_checked. by repeat case_match. }
  wsimpl. rewrite E1, E2. destruct (w_fenced (lease_checked lease w)) eqn:Ef.
  { split_and!; [lia|done|]. intros b ??. lia. }
  assert (w_fenced w = false) as Hf by (destruct (w_fenced w); [by specialize (E3 eq_refl)|done]).
  specialize (Hfe Hf). destruct (last (w_callback w)) as [u|] eqn:El; cbn.
  - rewrite (chain_last_end _ _ _ _ Hc El). split_and!; [lia| |].
    + intros u' Hu _. eapply chain_elem; [exact Hc|]. by apply list_elem_of_fmap_2.
    + intros b Hb Hr. split; [done|]. rewrite Hfe in Hr. by eapply chain_covers.
  - apply last_None in El. rewrite El. split_and!; [done|by intros u ?%not_elem_of_nil|]. intros b ??. lia.
Qed.

Lemma durable_callback_finish lease w :
  Layout s0 true w → Durable w → Durable (callback_finish c lease w).
Proof.
  intros L D. destruct (flushed_advance lease w L) as (Hle & Hend & Hcov).
  pose proof (callback_ok lease w) as Hok. pose proof D as [].
  assert (dur_view (lease_checked lease w) = dur_view w
    ∧ w_callback (lease_checked lease w) = w_callback w
    ∧ w_uploading (lease_checked lease w) = w_uploading w) as ([= E1 E2 E3 E4 E5 E6 E7 E8 E9 _] & Ecb & Eup).
  { unfold lease_checked. by repeat case_match. }
  assert (∀ b rs, slot_ok w b rs → slot_ok (callback_finish c lease w) b rs) as Hmono.
  { unfold callback_finish. fold (lease_checked lease w). rewrite complete_all.
    intros b rs. unfold slot_ok; wsimpl. by rewrite E1, E2, E3, E4. }
  constructor; try (unfold callback_finish; fold (lease_checked lease w); rewrite complete_all; wsimpl;
    rewrite ?E1, ?E2, ?E3, ?E4, ?E5, ?E6, ?E7, ?E8; auto; fail).
  - intros u v Hu Hd. destruct (du_done0 u v) as (rs & ? & ?); [|done|by eauto].
    revert Hu. unfold callback_finish. fold (lease_checked lease w). rewrite complete_all. wsimpl.
    rewrite Eup. cbn [app]. intros. apply elem_of_app. by right.
  - intros a Ha. assert (a ∈ w_acks w ∨ ∃ u, u ∈ w_callback w ∧
      a ∈ (complete_records c (w_fenced (lease_checked lease w)) (default [] (ub_records u))).1) as [Hold|(u & Hu & Hin)].
    { revert Ha. unfold callback_finish. fold (lease_checked lease w). rewrite complete_all. wsimpl.
      rewrite E8, Ecb. intros [?|(u & ? & ?)%list_elem_of_bind]%elem_of_app; [by left|right; by eauto]. }
    + intros res Hres. destruct (du_acks0 a Hold res Hres) as (b & rs & r & ? & ? & ? & ? & ?).
      exists b, rs, r. split_and!; auto. lia.
    + intros res Hres. destruct (w_fenced (lease_checked lease w)) eqn:Ef.
      { by destruct (complete_records_err _ _ res Hin). }
      destruct (Hok u L D eq_refl Hu) as (rs & Hrs & Hs). rewrite Hrs in Hin. cbn in Hin.
      apply complete_records_ok in Hin as (r & res' & Hr & ? & _ & ? & ?). simplify_eq.
      exists (ub_base u), rs, r. split_and!; auto. congruence.
  - intros b Hb Hr. replace (w_puts (callback_finish c lease w)) with (w_puts w).
    2: { unfold callback_finish. fold (lease_checked lease w). rewrite complete_all. wsimpl. congruence. }
    destruct (decide (b < w_flushed_offset w)); [apply du_holes0; [done|lia]|].
    destruct (Hcov b Hb) as [Ef (u & -> & Hu)%list_elem_of_fmap]; [lia|].
    by destruct (Hok u L D Ef Hu) as (rs & _ & ? & _).
Qed.

(** *** Trim *)

Lemma trim_own_spec offset w k o :
  (k, o) ∈ trim_own offset w →
  w_last_record_offset_to_object w !! k = Some o ∧ k ≤ Z.max offset 0
  ∧ ∃ k' o', last_entry (w_last_record_offset_to_object w) = Some (k', o') ∧ k ≠ k'.
Proof.
  unfold trim_own. destruct (last_entry _) as [[k' o']|] eqn:E; [|by intros ?%not_elem_of_nil].
  intros [Hne [Hle Hin%elem_of_entries]%list_elem_of_filter]%list_elem_of_filter; cbn in *. eauto 6.
Qed.

Lemma take_while_sub {B} (f : B → bool) l x : x ∈ take_while f l → x ∈ l.
Proof.
  induction l as [|y l IH]; simpl; [done|]. case_match; [|by intros ?%not_elem_of_nil].
  intros [->|?]%elem_of_cons; [left|right; auto].
Qed.

Lemma take_while_true {B} (f : B → bool) l x : x ∈ take_while f l → f x = true.
Proof.
  induction l as [|y l IH]; simpl; [by intros ?%not_elem_of_nil|].
  destruct (f y) eqn:E; [|by intros ?%not_elem_of_nil].
  intros [->|?]%elem_of_cons; auto.
Qed.

Lemma trim_previous_sub offset e prev o : o ∈ trim_previous offset e prev → o ∈ prev.
Proof.
  unfold trim_previous. intros Ho%take_while_sub. by apply subseteq_take in Ho.
Qed.

(** A path the trim releases is either a released own slot or a previous object. *)
Lemma trim_delete_list_spec offset w p :
  p ∈ trim_delete_list offset w →
  (∃ k o, (k, o) ∈ trim_own offset w ∧ op_key p = wo_key o)
  ∨ ∃ o, o ∈ w_previous_objects w ∧ op_key p = wo_key o.
Proof.
  unfold trim_delete_list. intros [(o & -> & Ho)%list_elem_of_fmap|(o & -> & Ho)%list_elem_of_fmap]%elem_of_app.
  - apply list_elem_of_fmap in Ho as ([k o'] & -> & Ho). left. by exists k, o'.
  - right. exists o. split; [by eapply trim_previous_sub|done].
Qed.

Lemma holds_delete store paths key data :
  (∀ p, p ∈ paths → op_key p ≠ key) → holds store key data → holds (os_delete store paths) key data.
Proof.
  intros Hp Hh x y ??. rewrite os_delete_other; [by apply Hh|].
  intros (p & -> & ?)%list_elem_of_fmap. by eapply Hp.
Qed.

(** What a deletion leaves: every indexed slot, if the deleted paths are not theirs. *)
Lemma slot_ok_delete w paths b rs :
  Layout s0 true w → Durable w → slot_ok w b rs →
  (∀ p k o, p ∈ paths → w_last_record_offset_to_object w !! k = Some o →
     op_key p ≠ slot_path (wo_start_offset o)) →
  slot_ok (set_store (os_delete (w_store w) paths) w) b rs.
Proof.
  intros L D (Hb & Hr & Hs) Hp. split_and!; [done..|].
  destruct Hs as [(t & o & Ho & Hb' & Hh)|?]; [left|by right]. exists t, o. split_and!; [done..|].
  wsimpl. apply holds_delete; [|done]. intros p Hin. subst b. by eapply Hp.
Qed.

Lemma durable_store_delete w paths :
  Layout s0 true w → Durable w →
  (∀ p k o, p ∈ paths → w_last_record_offset_to_object w !! k = Some o →
     op_key p ≠ slot_path (wo_start_offset o)) →
  Durable (set_store (os_delete (w_store w) paths) w).
Proof.
  intros L D Hp. pose proof D as []. constructor; wsimpl; auto.
  - intros u v Hu Hd. destruct (du_done0 u v Hu Hd) as (rs & ? & ?). exists rs. split; [done|].
    by apply slot_ok_delete.
  - intros a Ha res Hres. destruct (du_acks0 a Ha res Hres) as (b & rs & r & ? & ?).
    exists b, rs, r. split; [by apply slot_ok_delete|done].
Qed.

(** Forgetting covered entries of the index. *)
Definition forget (own : list (Z * WalObject)) (prev : list WalObject) w : Writer S :=
  set_last_record_offset_to_object
    (foldr (λ p m, delete p.1 m) (w_last_record_offset_to_object w) own)
    (set_previous_objects prev w).

Lemma durable_forget own prev w :
  Durable w → (∀ k o, (k, o) ∈ own → k ≤ w_trim_offset w) →
  (∀ o, o ∈ prev → o ∈ w_previous_objects w) →
  Durable (forget own prev w).
Proof.
  intros D Hown Hprev. pose proof D as [].
  assert (∀ b rs, slot_ok w b rs → slot_ok (forget own prev w) b rs) as Hmono.
  { intros b rs (Hb & Hr & Hs). split_and!; [done..|].
    destruct Hs as [(t & o & Ho & ? & ?)|?]; [|by right].
    destruct (decide (last_record_offset b rs ∈ own.*1)) as [([k o'] & Hk & Hin)%list_elem_of_fmap|Hn].
    - right. cbn in Hk. rewrite Hk. by eapply Hown.
    - left. exists t, o. split_and!; [|done..]. unfold forget; wsimpl. by apply lookup_foldr_delete. }
  unfold forget in *. constructor; wsimpl; auto.
  - intros k o [? _]%lookup_foldr_delete. by apply du_map0.
  - intros k k' o o' [? _]%lookup_foldr_delete [? _]%lookup_foldr_delete. by eapply du_map_inj0.
  - intros u v Hu Hd. destruct (du_done0 u v Hu Hd) as (rs & ? & ?). eauto.
  - intros a Ha res Hres. destruct (du_acks0 a Ha res Hres) as (b & rs & r & ? & ?). eauto 6.
  - intros p b Hp Ho Hk. destruct (du_deletes0 p b Hp Ho Hk) as [? Hn]. split; [done|].
    intros k o [? _]%lookup_foldr_delete. by eapply Hn.
Qed.

Lemma durable_add_deletes paths w :
  Durable w →
  (∀ p b, p ∈ paths → own_slot b → op_key p = slot_path b →
    b ∈ w_puts w ∧ ∀ k o, w_last_record_offset_to_object w !! k = Some o → wo_start_offset o ≠ b) →
  Durable (set_delayed_deletes (w_delayed_deletes w ++ [paths]) w).
Proof.
  intros [] Hp. constructor; wsimpl; auto.
  intros p b. rewrite concat_app. cbn. rewrite app_nil_r. intros [?|?]%elem_of_app; eauto.
Qed.

Lemma released_not_live offset w p b :
  Layout s0 true w → Durable w → p ∈ trim_delete_list offset w → own_slot b → op_key p = slot_path b →
  b ∈ w_puts w ∧ ∀ k o,
    foldr (λ p m, delete p.1 m) (w_last_record_offset_to_object w) (trim_own offset w) !! k = Some o →
    wo_start_offset o ≠ b.
Proof.
  intros L D Hp Hb Hk. pose proof (lay_start _ _ _ L) as [? _].
  apply trim_delete_list_spec in Hp as [(k' & o' & Hin & E)|(o' & Hin & E)];
    [|exfalso; eapply (du_prev _ D o' b); congruence].
  destruct (trim_own_spec _ _ _ _ Hin) as (Ho' & _ & _).
  destruct (du_map _ D _ _ Ho') as (Hput & Hkey & _).
  assert (wo_start_offset o' = b) as Heq.
  { apply slot_path_inj; [by eapply puts_own|by apply own_u64|congruence]. }
  split; [congruence|]. intros k o [Ho Hn]%lookup_foldr_delete E'.
  apply Hn. rewrite (du_map_inj _ D k k' o o'); [|done..|congruence].
  by apply (list_elem_of_fmap_2 fst) in Hin.
Qed.

Lemma durable_trim_finish offset deleted w :
  Layout s0 true w → Durable w → 0 ≤ offset ≤ w_trim_offset w →
  deleted ⊆ trim_delete_list offset w → Durable (trim_finish offset deleted w).
Proof.
  intros L D Ho Hsub. pose proof (released_not_live offset w) as Hrel.
  set (prev := trim_previous offset (bool_decide (trim_own offset w = [])) (w_previous_objects w)).
  set (w1 := forget (trim_own offset w) (drop (length prev) (w_previous_objects w)) w).
  assert (Durable w1) as D1.
  { apply durable_forget; [done| |].
    - intros k o Hin. apply trim_own_spec in Hin as (_ & ? & _). lia.
    - intros o Hin. by apply subseteq_drop in Hin. }
  assert (Layout s0 true w1) as L1 by (by eapply layout_view; [|exact L]).
  unfold trim_finish. fold prev. fold (forget (trim_own offset w) (drop (length prev) (w_previous_objects w)) w).
  fold w1. case_decide; [by eapply durable_quiet; [|exact D1]|].
  assert (Durable (set_store (os_delete (w_store w1) deleted) w1)) as D2.
  { apply durable_store_delete; [done..|]. intros p k o Hp Hk Hkey.
    pose proof (du_map _ D1 _ _ Hk) as (Hin & _).
    destruct (puts_own _ _ L1 Hin) as [Hs _]. by eapply Hrel in Hkey as [_ []]; eauto. }
  eapply durable_quiet; [|eapply (durable_add_deletes (trim_delete_list offset w)); [exact D2|]].
  - split; [done|by wsimpl].
  - intros p b Hp Hb Hkey. wsimpl. by apply (Hrel p b).
Qed.

Lemma durable_trim_begin offset w :
  Durable w → w_trim_offset w ≤ offset → Durable (set_trim_offset offset w).
Proof.
  intros [] Hle. constructor; wsimpl; auto; try lia.
  - intros t o Ht. specialize (du_trimming0 t o Ht). lia.
  - intros u v Hu Hd. destruct (du_done0 u v Hu Hd) as (rs & ? & ? & ? & Hs). exists rs. split; [done|].
    split_and!; [done..|]. destruct Hs as [?|?]; [by left|right; wsimpl; lia].
  - intros a Ha res Hres. destruct (du_acks0 a Ha res Hres) as (b & rs & r & (? & ? & Hs) & ?).
    exists b, rs, r. split; [|done]. split_and!; [done..|]. destruct Hs as [?|?]; [by left|right; wsimpl; lia].
Qed.

Lemma durable_trimming l w :
  Durable w → (∀ t o, (t, o) ∈ l → 0 ≤ o ≤ w_trim_offset w) → Durable (set_trimming l w).
Proof. intros [] Hl. constructor; wsimpl; auto. Qed.

Lemma quiet_collect w : w_callback w = [] → quiet w (callback_collect c w).
Proof.
  intros Hcb. unfold callback_collect. destruct (pop_done (w_uploading w)) as [d rest] eqn:Ep.
  case_decide; [done|]. etrans; [|apply quiet_try_upload]. split; [done|]. wsimpl.
  apply pop_done_spec in Ep as [-> _]. by rewrite Hcb.
Qed.

(** Completing bulks is the only step that moves the flushed offset, calls
    the listener or acknowledges. *)
Lemma step_completes w w' :
  step c w w' →
  (w_acks w', w_confirms w', w_flushed_offset w') = (w_acks w, w_confirms w, w_flushed_offset w)
  ∨ ∃ lease, w' = callback_finish c lease w.
Proof.
  assert (∀ w', quiet w w' → (w_acks w', w_confirms w', w_flushed_offset w')
    = (w_acks w, w_confirms w, w_flushed_offset w)) as Hq.
  { intros x [[= _ _ _ _ _ _ _ E1 E2 E3] _]. congruence. }
  intros Hst. destruct Hst as [w ticket record Hlen|w seq|w|w|w j|w now j trim out Hj|w Hcb|w lease|w ticket
    |w offset ticket w' Hb|w ticket offset res deleted Ht _ Hd|w paths deleted Hp Hd];
    [left..|by right; exists lease|left|left|left|left].
  - apply Hq, quiet_submit.
  - apply Hq. unfold timer_fires. repeat case_match; try done. apply quiet_flush.
  - apply Hq, quiet_flush.
  - apply Hq. etrans; [|apply quiet_flush]. done.
  - done.
  - unfold upload_done. by destruct out.
  - by apply Hq, quiet_collect.
  - apply Hq. unfold durable_resolved. by case_match.
  - pose proof (quiet_submit ticket fake_trim_record w') as [[= _ _ _ _ _ _ _ E1 E2 E3] _].
    assert ((w_acks w', w_confirms w', w_flushed_offset w') = (w_acks w, w_confirms w, w_flushed_offset w)) as [= <- <- <-].
    { unfold trim_begin in Hb. by repeat case_match; simplify_eq. }
    destruct (submit c ticket fake_trim_record w') as [w2 [?|?]]; cbn [fst] in *; wsimpl; congruence.
  - unfold trim_finish. by case_decide.
  - done.
Qed.

Lemma durable_step w w' :
  step c w w' → Layout s0 true w → Durable w → Durable w'.
Proof.
  intros Hst L D.
  destruct Hst as [w ticket record Hlen|w seq|w|w|w j|w now j trim out Hj|w Hcb|w lease|w ticket
    |w offset ticket w' Hb|w ticket offset res deleted Ht _ Hd|w paths deleted Hp Hd].
  - eapply durable_quiet; [apply quiet_submit|done].
  - eapply durable_quiet; [|done]. unfold timer_fires. repeat case_match; try done. apply quiet_flush.
  - eapply durable_quiet; [apply quiet_flush|done].
  - eapply durable_quiet; [apply quiet_flush|]. by eapply durable_quiet; [|exact D].
  - by eapply durable_quiet; [|exact D].
  - destruct out; [by apply durable_put_ok|by apply durable_put_err].
  - eapply durable_quiet; [by apply quiet_collect|done].
  - by apply durable_callback_finish.
  - eapply durable_quiet; [|exact D]. unfold durable_resolved. by case_match.
  - assert (w_trim_offset w < offset ∧ w' = set_trim_offset offset w) as [? ->].
    { unfold trim_begin in Hb. repeat case_match; simplify_eq. split; [lia|done]. }
    pose proof (quiet_submit ticket fake_trim_record (set_trim_offset offset w)) as Hq.
    destruct (submit c ticket fake_trim_record (set_trim_offset offset w)) as [w2 [?|?]]; cbn [fst] in Hq.
    + pose proof Hq as [[= _ _ _ Et Etr _ _ _ _ _] _]. wsimpl.
      apply durable_trimming; [eapply durable_quiet; [exact Hq|]; apply durable_trim_begin; [done|lia]|].
      pose proof (du_trim _ D). intros t o [Hin|[= -> ->]%list_elem_of_singleton]%elem_of_app; [|lia].
      rewrite Etr in Hin. pose proof (du_trimming _ D t o Hin). lia.
    + eapply durable_quiet; [exact Hq|]. apply durable_trim_begin; [done|lia].
  - pose proof (du_trimming _ D _ _ Ht). apply durable_trim_finish; [by eapply layout_view; [|exact L]| |done|done].
    apply durable_trimming; [done|]. intros t o [_ ?]%list_elem_of_filter. by eapply du_trimming.
  - apply durable_store_delete; [done..|]. intros p k o Hin Hk Hkey.
    pose proof (du_map _ D _ _ Hk) as (Hput & _). destruct (puts_own _ _ L Hput) as [Hs _].
    destruct (du_deletes _ D p (wo_start_offset o)) as [_ Hn]; [|done..|by eapply Hn].
    apply list_elem_of_In, in_concat. exists paths. rewrite <- !list_elem_of_In. split; [done|by apply Hd].
Qed.
End Durable.

(** ** The body of a WAL object *)

Section Payload.
Context `{!Crc32Fast} (c : WalConfig).

Definition frame_of (r : PendingRecord) : bytes :=
  frame_record (pr_offset r) (encoded (pr_record r)).

Lemma len_frame r : rec_ok r → len (frame_of r) = pr_size r.
Proof.
  unfold rec_ok, frame_of, WAL_RECORD_HEADER_SIZE. intros ->. rewrite length_frame_record. lia.
Qed.

Lemma len_frames rs : Forall rec_ok rs → len (concat (frame_of <$> rs)) = sum_sizes rs.
Proof.
  induction 1 as [|r rs Hr _ IH]; [done|]. cbn [fmap list_fmap concat].
  rewrite length_app, Nat2Z.inj_add, IH, len_frame by done. done.
Qed.

Lemma len_header base n node epoch trim :
  length (header_marshal (header_v1 base n node epoch trim)) = WAL_HEADER_SIZE_V1.
Proof. unfold header_marshal, header_v1. cbn. by rewrite !length_app, !length_be. Qed.

(** Every record of a bulk sits in the object at its WAL offset. *)
Lemma payload_at base t rs r :
  recs_ok rs → 0 ≤ base → base + A < 2 ^ 64 → r ∈ placed base rs →
  ∃ pre post, build_payload c base t rs = pre ++ frame_of r ++ post
    ∧ len pre = Z.of_nat WAL_HEADER_SIZE_V1 + (pr_offset r - base).
Proof.
  intros Hok Hb HA [i Hi]%list_elem_of_lookup.
  destruct (placed_spec _ _ _ _ Hok Hb HA Hi) as (_ & Ho & _).
  assert (Forall rec_ok (placed base rs)) as Hf.
  { apply Forall_lookup. intros j x Hj. by destruct (placed_spec _ _ _ _ Hok Hb HA Hj). }
  assert (concat (frame_of <$> placed base rs)
    = concat (frame_of <$> take i (placed base rs))
      ++ frame_of r ++ concat (frame_of <$> drop (Datatypes.S i) (placed base rs))) as E.
  { rewrite <- (take_drop_middle _ _ _ Hi) at 1. by rewrite fmap_app, concat_app. }
  unfold build_payload. fold frame_of. setoid_rewrite E.
  eexists _, _. split; [by rewrite (app_assoc (header_marshal _))|].
  rewrite length_app, Nat2Z.inj_add, len_header, len_frames by (by apply Forall_take).
  rewrite Ho. lia.
Qed.
End Payload.
