(* ===== verification/WalSafety.v ===== *)
(** * Guarantees of the object WAL

    The properties of every run of the writer, from [start] on, for every
    interleaving of appends, timers, uploads, lease checks, trims and deferred
    deletes, over any storage that satisfies [ObjectStorageLaws]. *)
From S2P Require Import Prelude Collections Codec ObjectStore WalFormat WalWriter WalWriterInv.

Section Runs.
Context {S : Type} `{!ObjectStorage S} `{!ObjectStorageLaws S} `{!Crc32Fast}.
Context (c : WalConfig).
Implicit Types w : Writer S.

(** A run that has offsets left. *)
Definition bstep w w' : Prop := w_next_offset w ≤ OFFSET_LIMIT ∧ step c w w'.

(** The state [start] leaves: nothing in flight, and no object of this epoch
    at or past the start offset [s0]. *)
Record initial (s0 : Z) w : Prop := {
  ini_start : 0 ≤ s0 < 2 ^ 64 ∧ aligned s0;
  ini_offsets : w_next_offset w = s0 ∧ w_flushed_offset w = s0;
  ini_idle : w_active w = None ∧ w_bulk_seq w = 0 ∧ w_waiting w = [] ∧ w_uploading w = []
    ∧ w_callback w = [] ∧ w_jobs w = [] ∧ w_trimming w = [];
  ini_index : w_last_record_offset_to_object w = ∅;
  ini_trim : w_trim_offset w = TRIM_OFFSET_NONE;
  ini_outputs : w_acks w = [] ∧ w_confirms w = [] ∧ w_puts w = [];
  ini_buffer : w_buffered_data_bytes w = 0 ∧ w_unresolved w = ∅;
  ini_previous : ∀ o b, o ∈ w_previous_objects w → own_slot s0 b → wo_key o ≠ slot_path c b;
  ini_deletes : ∀ p b, p ∈ concat (w_delayed_deletes w) → own_slot s0 b → op_key p ≠ slot_path c b;
}.

Lemma initial_layout s0 w : initial s0 w → Layout s0 true w.
Proof.
  intros []. destruct ini_offsets0, ini_idle0 as (Ea & Es & Ew & Eu & Ec & Ej & Et), ini_outputs0 as (Ek & Ef & Ep).
  constructor; unfold pipe, active_ok; rewrite ?Ea, ?Es, ?Ew, ?Eu, ?Ec, ?Ej, ?Ep; cbn; try (intros *; rewrite elem_of_nil; done);
    try lia.
  - tauto.
  - exists s0. split_and!; try lia; tauto.
Qed.

Lemma initial_durable s0 w : initial s0 w → Durable c s0 w.
Proof.
  intros []. destruct ini_offsets0, ini_idle0 as (Ea & Es & Ew & Eu & Ec & Ej & Et), ini_outputs0 as (Ek & Ef & Ep).
  constructor; rewrite ?Ea, ?Es, ?Ew, ?Eu, ?Ec, ?Ej, ?Ek, ?Ep, ?Et, ?ini_index0, ?ini_trim0; cbn;
    try (intros *; rewrite elem_of_nil; done); try (intros *; rewrite lookup_empty; done); auto.
  - done.
  - intros p b Hp Hb Hk. by destruct (ini_deletes0 p b).
  - lia.
Qed.

(** Both invariants along a run. *)
Lemma run_invariant s0 w w' :
  initial s0 w → rtc bstep w w' → Layout s0 true w' ∧ Durable c s0 w'.
Proof.
  intros Hi Hr. pose proof (initial_layout _ _ Hi) as L. pose proof (initial_durable _ _ Hi) as D.
  clear Hi. induction Hr as [w|w w1 w2 [Hn Hst] _ IH]; [done|].
  apply IH; [by eapply layout_step|by eapply durable_step].
Qed.

Lemma gen_path_slot b :
  b + A < 2 ^ 64 → 0 ≤ b → gen_object_path_v1_aligned (c_node_prefix c) (c_epoch c) b = slot_path c b.
Proof.
  intros. unfold gen_object_path_v1_aligned, gen_object_path_v1, slot_path, object_path, object_prefix.
  rewrite u64_small by align_lia. rewrite <- !app_assoc. done.
Qed.

(** [start] leaves an initial state when the listing holds no object of this
    epoch past the offset it resumes from. *)
Lemma start_initial store w prefix :
  is_u64 (c_epoch c) → c_node_prefix c = prefix ++ [SLASH] →
  writer_start c (Ok true) (writer_new store) = (w, Ok tt) → w_fenced w = false →
  aligned (w_next_offset w) → 0 ≤ w_next_offset w < 2 ^ 64 →
  (∀ o, o ∈ parse_wal_objects (os_list store (c_node_prefix c)) →
     wo_epoch o = c_epoch c → wo_start_offset o < w_next_offset w) →
  initial (w_next_offset w) w.
Proof.
  intros He Hpre Hst Hf Hal Hr Hown. unfold writer_start in Hst.
  set (all := parse_wal_objects (os_list (w_store (writer_new store)) (c_node_prefix c))) in *.
  assert (∀ o b, o ∈ all → own_slot (w_next_offset w) b → wo_key o ≠ slot_path c b) as Hkey.
  { intros o b Ho (Hb & _ & Hb') E. apply elem_of_sort_by in Ho as Ho'.
    apply list_elem_of_omap in Ho' as ([[bu k] ts sz] & _ & Hp).
    assert (k = gen_object_path_v1 (prefix ++ [SLASH]) (c_epoch c) b (b + A)) as ->.
    { assert (wo_key o = k) as <- by (unfold parse_wal_object in Hp; repeat case_match; simplify_eq; done).
      rewrite E, <- gen_path_slot by lia. unfold gen_object_path_v1_aligned. rewrite Hpre, u64_small by align_lia. done. }
    rewrite parse_gen_object_path_v1 in Hp by align_lia. simplify_eq.
    specialize (Hown _ Ho eq_refl). cbn in Hown. lia. }
  pose proof (skip_overlap_sub all) as Hsub.
  destruct (skip_overlap_objects all) as [objects overlap]; cbn [fst snd] in Hsub.
  assert (∀ p b, p ∈ concat (if decide (overlap = []) then []
      else [(λ o, {| op_bucket_id := wo_bucket_id o; op_key := wo_key o |}) <$> overlap]) →
      own_slot (w_next_offset w) b → op_key p ≠ slot_path c b) as Hdel.
  { intros p b. case_decide; cbn; [by intros ?%not_elem_of_nil|]. rewrite app_nil_r.
    intros (o & -> & Ho)%list_elem_of_fmap Hb. apply Hkey; [by apply Hsub; right|done]. }
  assert (∀ o, o ∈ objects → o ∈ all) as Hobj by (intros; apply Hsub; by left).
  clear Hsub. match type of Hst with (if ?b then _ else _) = _ => destruct b end;
    simplify_eq; wsimpl; try done.
  constructor; try (case_decide; by wsimpl).
  intros o b Ho. apply Hkey, Hobj. case_decide; by wsimpl.
Qed.

(** Reading a record of a stored slot. *)
Lemma get_stored store b t rs r :
  aligned b → 0 ≤ b → b + A < 2 ^ 64 → recs_ok rs → r ∈ placed b rs → wf_batch (pr_record r) →
  holds store (slot_path c b) (build_payload c b t rs) →
  get c store {| ro_epoch := c_epoch c; ro_offset := pr_offset r; ro_size := u32 (pr_size r) |}
  = Ok (pr_record r).
Proof.
  intros Hal Hb HA Hok Hr Hwf Hh.
  destruct (payload_at c b t rs r Hok Hb HA Hr) as (pre & post & Hpay & Hpre).
  apply list_elem_of_lookup in Hr as [i Hi].
  destruct (placed_spec _ _ _ _ Hok Hb HA Hi) as (Hrec & _ & Hlo & Hhi).
  pose proof (rec_ok_pos _ Hrec). unfold get. cbn [ro_epoch ro_offset ro_size].
  rewrite (floor_align_slot b) by (done || align_lia). rewrite gen_path_slot by lia.
  assert (Z.of_nat WAL_HEADER_SIZE_V1 = 48) as E48 by done. rewrite E48 in *.
  rewrite (u32_small (pr_size r)) by align_lia. rewrite !u64_small by align_lia.
  pose proof (len_frame r Hrec).
  rewrite Hh; [|align_lia|rewrite Hpay, !length_app; lia].
  rewrite Hpay, (slice_middle pre (frame_of r) post) by lia. cbn [map_err].
  unfold frame_of. rewrite <- (app_nil_r (frame_record _ _)), decode_frame by done. done.
Qed.

Lemma slot_bounds s0 w b :
  Layout s0 true w → b ∈ w_puts w → aligned b ∧ s0 ≤ b ∧ 0 ≤ b ∧ b + A < 2 ^ 64.
Proof.
  intros L Hb. pose proof (lay_start _ _ _ L). destruct (puts_own s0 _ _ L Hb) as [(? & ? & ?) _].
  split_and!; auto; lia.
Qed.

(** *** The order of the confirm callbacks *)

Definition cf_before (x y : Confirm) : Prop := ro_offset (cf_next x) ≤ ro_offset (cf_offset y).

(** Records laid out back to back from [o]. *)
Fixpoint laid (o : Z) (l : list PendingRecord) : Prop :=
  match l with
  | [] => True
  | r :: l' => pr_offset r = o ∧ 0 < pr_size r ∧ laid (o + pr_size r) l'
  end.

Lemma laid_assign o rs :
  Forall rec_ok rs → 0 ≤ o → o + sum_sizes rs < 2 ^ 64 →
  laid o (assign_offsets o rs) ∧ sum_sizes (assign_offsets o rs) = sum_sizes rs.
Proof.
  revert o; induction rs as [|r rs IH]; intros o Hf Ho Hs; [done|].
  inversion Hf as [|?? Hr Hf']; subst. pose proof (rec_ok_pos _ Hr). pose proof (sum_sizes_nonneg _ Hf').
  change (o + (pr_size r + sum_sizes rs) < 2 ^ 64) in Hs. cbn [assign_offsets laid pr_offset pr_size].
  rewrite u64_small by int_lia. destruct (IH (o + pr_size r)) as [? E]; [done|lia..|].
  split_and!; [done|lia|done|]. unfold sum_sizes in *. cbn. lia.
Qed.

(** The callbacks of one bulk stay in its slot, in offset order. *)
Lemma complete_records_order b o l :
  aligned b → 0 ≤ b → b + A < 2 ^ 64 → b ≤ o → laid o l → o + sum_sizes l ≤ b + A →
  StronglySorted cf_before (complete_records c false l).2
  ∧ ∀ x, x ∈ (complete_records c false l).2 →
      o ≤ ro_offset (cf_offset x) < ro_offset (cf_next x) ∧ ro_offset (cf_next x) ≤ b + A.
Proof.
  intros Hal Hb HA. revert o; induction l as [|r l IH]; intros o Ho Hl Hs.
  { split; [constructor|]. by intros x ?%not_elem_of_nil. }
  destruct Hl as (Hoff & Hpos & Hl). change (o + (pr_size r + sum_sizes l) ≤ b + A) in Hs.
  assert (0 ≤ sum_sizes l) as Hnn.
  { clear -Hl. revert Hl. generalize (o + pr_size r) as q. induction l as [|r' l IH]; intros q; [done|].
    intros (_ & ? & ?%IH). unfold sum_sizes in *; cbn; lia. }
  destruct (IH (o + pr_size r)) as [Hsort Hin]; [lia|done|lia|].
  cbn [complete_records]. destruct (complete_records c false l) as [acks cfs] eqn:E; cbn [snd] in *.
  set (next := match l with [] => _ | _ => _ end).
  assert (pr_offset r < next ≤ b + A ∧ (l ≠ [] → next = o + pr_size r)) as [Hnext Hne].
  { subst next. rewrite u64_small by align_lia. destruct l; [|split; [lia|intros; lia]].
    rewrite Hoff. replace (o + pr_size r) with (b + (o - b + pr_size r)) by lia.
    rewrite ceil_align_slot by (done || lia). split; [align_lia|done]. }
  case_match; cbn.
  - split; [done|]. intros x Hx. specialize (Hin x Hx). lia.
  - split.
    + constructor; [done|]. apply Forall_forall. intros x Hx. specialize (Hin x Hx).
      unfold cf_before; cbn. destruct l; [by simplify_eq/=; apply not_elem_of_nil in Hx|]. rewrite Hne by done. lia.
    + intros x [->|Hx]%elem_of_cons; [cbn; lia|]. specialize (Hin x Hx). lia.
Qed.

Lemma bulk_confirms b rs :
  aligned b → 0 ≤ b → b + A < 2 ^ 64 → recs_ok rs →
  StronglySorted cf_before (complete_records c false (placed b rs)).2
  ∧ ∀ x, x ∈ (complete_records c false (placed b rs)).2 →
      b ≤ ro_offset (cf_offset x) < ro_offset (cf_next x) ∧ ro_offset (cf_next x) ≤ b + A.
Proof.
  intros ??? Hok. destruct (recs_ok_sorted _ Hok) as (_ & Hf & Hs).
  destruct (laid_assign b (sort_by record_le rs)) as [Hl E]; [done|lia..|].
  apply complete_records_order; auto; [lia|]. unfold placed. rewrite E. lia.
Qed.

(** The callbacks of consecutive bulks. *)
Lemma chain_confirms lo us mid :
  chain lo (ub_base <$> us) mid → aligned lo → 0 ≤ lo → mid < 2 ^ 64 →
  (∀ u, u ∈ us → ∃ rs, ub_records u = Some (placed (ub_base u) rs) ∧ recs_ok rs) →
  let cfs := us ≫= λ u, (complete_records c false (default [] (ub_records u))).2 in
  StronglySorted cf_before cfs
  ∧ ∀ x, x ∈ cfs → lo ≤ ro_offset (cf_offset x) < ro_offset (cf_next x) ∧ ro_offset (cf_next x) ≤ mid.
Proof.
  revert lo; induction us as [|u us IH]; intros lo Hc Hal Hlo Hmid Hrs; cbn.
  { split; [constructor|]. by intros x ?%not_elem_of_nil. }
  destruct Hc as [Hb Hc]. pose proof (chain_le _ _ _ Hc).
  destruct (Hrs u) as (rs & -> & Hok); [left|]. cbn [default from_option]. rewrite Hb in *.
  destruct (IH (lo + A)) as [Hs Hin]; [done|align_lia|align_lia|done|intros; apply Hrs; by right|].
  destruct (bulk_confirms lo rs) as [Hs' Hin']; [done|done|lia|done|].
  split.
  - apply StronglySorted_app. split_and!; auto. intros x y Hx Hy.
    specialize (Hin y Hy). specialize (Hin' x Hx). unfold cf_before. lia.
  - intros x [Hx|Hx]%elem_of_app; [specialize (Hin' x Hx); lia|].
    specialize (Hin x Hx). align_lia.
Qed.

Record Confirmed w : Prop := {
  co_sorted : StronglySorted cf_before (w_confirms w);
  co_bound : ∀ x, x ∈ w_confirms w →
    ro_offset (cf_offset x) < ro_offset (cf_next x) ≤ w_flushed_offset w;
}.

Lemma confirmed_step s0 w w' :
  step c w w' → Layout s0 true w → Durable c s0 w → Confirmed w → Confirmed w'.
Proof.
  intros Hst L D []. destruct (step_completes _ _ _ Hst) as [[= E1 E2 E3]|[lease ->]].
  { constructor; by rewrite ?E2, ?E3. }
  destruct (flushed_advance c s0 lease w L) as (Hle & Hend & _).
  pose proof (λ u, callback_ok c s0 lease w u L D) as Hok.
  destruct (lay_chain _ _ _ L) as (lo & Hc & Hal & Hfl & Hfe).
  unfold pipe in Hc. apply chain_app in Hc as (mid & Hc & Hc2%chain_le).
  pose proof (lay_start _ _ _ L). pose proof (lay_next _ _ _ L).
  assert (w_confirms (callback_finish c lease w) = w_confirms w ++
    (w_callback w ≫= λ u, (complete_records c (w_fenced (lease_checked lease w)) (default [] (ub_records u))).2)) as Ec.
  { unfold callback_finish. fold (lease_checked lease w). rewrite complete_all. wsimpl.
    unfold lease_checked. by repeat case_match. }
  destruct (w_fenced (lease_checked lease w)) eqn:Ef.
  - assert (w_callback w ≫= (λ u, (complete_records c true (default [] (ub_records u))).2) = []) as En.
    { clear. induction (w_callback w) as [|u us IH]; cbn; [done|]. rewrite IH, app_nil_r.
      induction (default [] (ub_records u)) as [|r rs IH']; cbn; [done|].
      by destruct (complete_records c true rs). }
    rewrite En, app_nil_r in Ec. constructor; rewrite Ec; [done|].
    intros x Hx. specialize (co_bound0 x Hx). lia.
  - destruct (chain_confirms lo (w_callback w) mid Hc Hal) as [Hs Hin]; [lia|lia| |].
    { intros u Hu. destruct (Hok u eq_refl Hu) as (rs & ? & _ & ? & _). eauto. }
    constructor; rewrite Ec.
    + apply StronglySorted_app. split_and!; auto. intros x y Hx Hy.
      specialize (co_bound0 x Hx). specialize (Hin y Hy). unfold cf_before. lia.
    + intros x [Hx|Hx]%elem_of_app; [specialize (co_bound0 x Hx); lia|].
      specialize (Hin x Hx). split; [lia|].
      apply list_elem_of_bind in Hx as (u & Hx & Hu). destruct (Hok u eq_refl Hu) as (rs & Hrs & Hput & Hrok & _).
      destruct (slot_bounds _ _ _ L Hput) as (? & ? & ? & ?). specialize (Hend u Hu eq_refl).
      rewrite Hrs in Hx. cbn in Hx. destruct (bulk_confirms (ub_base u) rs) as [_ Hb]; [done..|].
      specialize (Hb x Hx). lia.
Qed.

Lemma run_confirmed s0 w w' : initial s0 w → rtc bstep w w' → Confirmed w'.
Proof.
  intros Hi Hr. assert (Confirmed w) as Hc.
  { destruct (ini_outputs _ _ Hi) as (_ & E & _). constructor; rewrite E; [constructor|].
    by intros x ?%not_elem_of_nil. }
  pose proof (initial_layout _ _ Hi) as L. pose proof (initial_durable _ _ Hi) as D.
  clear Hi. induction Hr as [w|w w1 w2 [Hn Hst] _ IH]; [done|].
  apply IH; [by eapply confirmed_step|by eapply layout_step|by eapply durable_step].
Qed.

(** *** Fencing *)

Lemma fenced_try_upload w : w_fenced (try_upload_waiting c w) = w_fenced w.
Proof. unfold try_upload_waiting. by rewrite admit_spec. Qed.
Lemma fenced_seal w : w_fenced (seal_active w) = w_fenced w.
Proof. unfold seal_active. by case_match. Qed.
Lemma fenced_push p w : w_fenced (push_active p w) = w_fenced w.
Proof. unfold push_active. by case_match. Qed.

(** Under a fence [submit] changes nothing. *)
Lemma submit_fenced ticket record w :
  w_fenced w = true → ∃ e, submit c ticket record w = (w, Err e).
Proof. intros Hf. unfold submit, check_status. rewrite Hf. destruct (w_closed w); eauto. Qed.

Lemma fenced_callback_finish lease w :
  w_fenced (callback_finish c lease w) = w_fenced (lease_checked lease w).
Proof. unfold callback_finish. fold (lease_checked lease w). by rewrite complete_all. Qed.

Lemma step_fenced w w' : step c w w' → w_fenced w = true → w_fenced w' = true.
Proof.
  intros Hst Hf. destruct Hst as [w ticket record Hlen|w seq|w|w|w j|w now j trim out Hj|w Hcb|w lease|w ticket
    |w offset ticket w' Hb|w ticket offset res deleted Ht _ Hd|w paths deleted Hp Hd].
  - destruct (submit_fenced ticket record w Hf) as [e ->]. done.
  - unfold timer_fires. repeat case_match; try done. by rewrite fenced_try_upload, fenced_seal.
  - unfold flush. by rewrite fenced_try_upload, fenced_seal.
  - unfold close, flush. by rewrite fenced_try_upload, fenced_seal.
  - done.
  - unfold upload_done. by destruct out.
  - unfold callback_collect. destruct (pop_done _). case_decide; [done|]. by rewrite fenced_try_upload.
  - rewrite fenced_callback_finish. unfold lease_checked. by repeat case_match.
  - unfold durable_resolved. by case_match.
  - unfold trim_begin, check_status in Hb. rewrite Hf in Hb. by destruct (w_closed w).
  - unfold trim_finish. by case_decide.
  - done.
Qed.

(** Under a fence, completing a bulk only produces errors. *)
Lemma callback_finish_fenced lease w :
  w_fenced (lease_checked lease w) = true →
  w_flushed_offset (callback_finish c lease w) = w_flushed_offset w
  ∧ w_confirms (callback_finish c lease w) = w_confirms w
  ∧ ∀ a, a ∈ w_acks (callback_finish c lease w) → a ∈ w_acks w ∨ ∃ e, ack_result a = Err e.
Proof.
  intros Hf. unfold callback_finish. fold (lease_checked lease w). rewrite complete_all, Hf. wsimpl.
  assert (∀ us, us ≫= (λ u, (complete_records c true (default [] (ub_records u))).2) = []) as En.
  { induction us as [|u us IH]; cbn; [done|]. rewrite IH, app_nil_r.
    induction (default [] (ub_records u)) as [|r rs IH']; cbn; [done|].
    by destruct (complete_records c true rs). }
  rewrite En, app_nil_r.
  assert (w_flushed_offset (lease_checked lease w) = w_flushed_offset w
    ∧ w_confirms (lease_checked lease w) = w_confirms w
    ∧ w_acks (lease_checked lease w) = w_acks w) as (-> & -> & ->).
  { unfold lease_checked. by repeat case_match. }
  split_and!; [done..|]. intros a [?|(u & Ha & _)%list_elem_of_bind]%elem_of_app; [by left|right].
  destruct (ack_result a) as [res|e] eqn:Er; [|by eauto].
  by destruct (complete_records_err c a _ res Ha).
Qed.
End Runs.

(** ** Durability of acknowledged records *)

(** C20: A record whose append was acknowledged can be read back from the object
    store at the offset the acknowledgement gave, in every reachable state and
    under any interleaving of further appends, uploads, trims and deferred
    deletes, until a trim at or past its offset is requested. *)
Theorem wal_acked_readable {S : Type} `{!ObjectStorage S} `{!ObjectStorageLaws S} `{!Crc32Fast}
    (c : WalConfig) s0 (w0 w : Writer S) a res :
  initial c s0 w0 → rtc (bstep c) w0 w →
  a ∈ w_acks w → ack_result a = Ok res → wf_batch (ack_record a) →
  w_trim_offset w < ro_offset (ar_record_offset res) →
  get c (w_store w) (ar_record_offset res) = Ok (ack_record a).
Proof.
  intros Hi Hr Ha Hres Hwf Ht. destruct (run_invariant _ _ _ _ Hi Hr) as [L D].
  destruct (du_acks _ _ _ D a Ha res Hres) as (b & rs & r & (Hb & Hok & Hs) & Hin & Hrec & Hoff & _).
  destruct (slot_bounds _ _ _ L Hb) as (? & ? & ? & ?). rewrite Hoff in Ht |- *. cbn in Ht.
  destruct Hs as [(t & o & _ & _ & Hh)|Hle].
  - rewrite <- Hrec in *. by eapply get_stored.
  - destruct (last_record_offset_spec b rs) as [_ Hmax]; [done..|]. specialize (Hmax r Hin). lia.
Qed.

(** A run of the writer over the in-memory storage: one record appended, flushed,
    uploaded, confirmed, then trimmed by nobody. *)
Module Demo.
Import Crc32IsoHdlc.

Definition cfg : WalConfig :=
  {| c_node_prefix := str "N/"; c_node_id := 1; c_epoch := 3; c_open_mode := ReadWrite;
     c_max_bytes_in_batch := 4096; c_max_unflushed_bytes := 65536;
     c_max_inflight_upload_count := 2 |}.
Definition record : StreamRecordBatch := new 7 0 10 2 [1; 2; 3].

Definition w0 : Writer MemoryObjectStorage := (writer_start cfg (Ok true) (writer_new (ms_new 0))).1.
Definition w1 := (submit cfg 0 record w0).1.
Definition w2 := flush cfg w1.
Definition job (t : option Z) : UploadJob :=
  {| j_seq := 1; j_base_offset := 0; j_trim := t;
     j_records := [{| pr_record := record; pr_size := 60; pr_offset := 0; pr_ack := 0 |}] |}.
Definition w3 := set_jobs (set_job_trim 1 (w_trim_offset w2) (w_jobs w2)) w2.
Definition w4 := upload_done cfg 5 (job (Some (-1))) (-1) (PutOk 0) w3.
Definition w5 := callback_collect cfg w4.
Definition w6 := callback_finish cfg (Ok true) w5.

Definition result : AppendResult :=
  {| ar_record_offset := {| ro_epoch := 3; ro_offset := 0; ro_size := 60 |};
     ar_next_offset := {| ro_epoch := 3; ro_offset := 67108864; ro_size := 0 |} |}.
Definition ack : Ack := {| ack_ticket := 0; ack_record := record; ack_result := Ok result |}.

Lemma initial_w0 : initial cfg 0 w0.
Proof.
  constructor; [by vm_compute..| |]; intros * H; by apply not_elem_of_nil in H.
Qed.

Ltac demo_step w := apply (rtc_l _ _ w); [split; [by vm_compute|]|].

Lemma run_w6 : rtc (bstep cfg) w0 w6.
Proof.
  demo_step w1.
  { apply (step_submit cfg w0 0 record); [by vm_compute|apply not_elem_of_nil|by vm_compute]. }
  demo_step w2. { apply (step_flush cfg w1). }
  demo_step w3.
  { apply (step_build cfg w2 (job None)); [|done].
    replace (w_jobs w2) with [job None] by (by vm_compute). left. }
  demo_step w4.
  { apply (step_upload_done cfg w3 5 (job (Some (-1))) (-1) (PutOk 0)); [|done].
    replace (w_jobs w3) with [job (Some (-1))] by (by vm_compute). left. }
  demo_step w5. { apply (step_callback_collect cfg w4). by vm_compute. }
  demo_step w6. { apply (step_callback_finish cfg w5 (Ok true)). by vm_compute. }
  reflexivity.
Qed.
End Demo.
#[local] Existing Instance Crc32IsoHdlc.crc32_iso_hdlc.

Lemma wal_acked_readable_witness :
  get Demo.cfg (w_store Demo.w6) (ar_record_offset Demo.result) = Ok Demo.record.
Proof.
  apply (wal_acked_readable Demo.cfg 0 Demo.w0 Demo.w6 Demo.ack Demo.result Demo.initial_w0 Demo.run_w6).
  - replace (w_acks Demo.w6) with [Demo.ack] by (by vm_compute). left.
  - reflexivity.
  - apply wf_new; [repeat constructor; by vm_compute|by vm_compute].
  - by vm_compute.
Defined.

(** C21: The append listener is called in WAL order without gaps: the offset ranges
    it is given are increasing and disjoint and end below the confirm offset, and
    every slot below the confirm offset has been written to the object store, no
    matter in which order the uploads finished. *)
Theorem wal_confirm_in_order {S : Type} `{!ObjectStorage S} `{!ObjectStorageLaws S} `{!Crc32Fast}
    (c : WalConfig) s0 (w0 w : Writer S) :
  initial c s0 w0 → rtc (bstep c) w0 w →
  StronglySorted cf_before (w_confirms w)
  ∧ (∀ x, x ∈ w_confirms w →
       ro_offset (cf_offset x) < ro_offset (cf_next x) ≤ ro_offset (confirm_offset c w))
  ∧ (∀ b, aligned b → s0 ≤ b < ro_offset (confirm_offset c w) → b ∈ w_puts w)
  ∧ ro_offset (confirm_offset c w) ≤ w_next_offset w.
Proof.
  intros Hi Hr. destruct (run_invariant _ _ _ _ Hi Hr) as [L D].
  destruct (run_confirmed _ _ _ _ Hi Hr) as [Hs Hb]. split_and!; [done|done|exact (du_holes _ _ _ D)|].
  destruct (lay_chain _ _ _ L) as (lo & Hc%chain_le & _ & ? & _). unfold confirm_offset; cbn. lia.
Qed.

Lemma wal_confirm_in_order_witness :
  StronglySorted cf_before (w_confirms Demo.w6) ∧ 0 ∈ w_puts Demo.w6.
Proof.
  destruct (wal_confirm_in_order Demo.cfg 0 Demo.w0 Demo.w6 Demo.initial_w0 Demo.run_w6) as (Hs & _ & Hp & _).
  split; [exact Hs|]. apply Hp; [by vm_compute|]. vm_compute. split; [discriminate|reflexivity].
Defined.

(** Fencing is final. Once the writer is fenced (a failed upload, a lost or
    unverifiable lease), it stays fenced, the confirm offset and the listener
    calls freeze, every later acknowledgement is an error, and new appends are
    refused. *)
Theorem wal_fenced_is_final {S : Type} `{!ObjectStorage S} `{!Crc32Fast}
    (c : WalConfig) (w w' : Writer S) :
  step c w w' → w_fenced w = true →
  w_fenced w' = true
  ∧ w_flushed_offset w' = w_flushed_offset w ∧ w_confirms w' = w_confirms w
  ∧ (∀ a, a ∈ w_acks w' → a ∈ w_acks w ∨ ∃ e, ack_result a = Err e)
  ∧ ∀ ticket record, is_ok (submit c ticket record w').2 = false.
Proof.
  intros Hst Hf. pose proof (step_fenced _ _ _ Hst Hf) as Hf'. split; [done|].
  assert (∀ ticket record, is_ok (submit c ticket record w').2 = false) as Hsub.
  { intros t r. by destruct (submit_fenced c t r w' Hf') as [e ->]. }
  destruct (step_completes _ _ _ Hst) as [[= E1 E2 E3]|[lease ->]].
  - split_and!; [done..| |done]. intros a Ha. left. congruence.
  - rewrite fenced_callback_finish in Hf'. destruct (callback_finish_fenced c lease w Hf') as (? & ? & ?).
    by split_and!.
Qed.

Lemma wal_fenced_is_final_witness :
  let w := set_fenced true Demo.w5 in
  w_confirms (callback_finish Demo.cfg (Ok true) w) = [] ∧ w_fenced (callback_finish Demo.cfg (Ok true) w) = true.
Proof.
  intros w. destruct (wal_fenced_is_final Demo.cfg w (callback_finish Demo.cfg (Ok true) w)) as (Hf & _ & Hc & _).
  - apply step_callback_finish. by vm_compute.
  - reflexivity.
  - split; [rewrite Hc; reflexivity|exact Hf].
Defined.
