(* ===== verification/WalAcks.v ===== *)
(** * Acknowledgements of the object WAL

    Every accepted append is acknowledged at most once and never lost: its ticket
    is in exactly one of the pipeline's queues until it is acknowledged, and the
    buffered-bytes counter that backpressure reads is the sum of the sizes of the
    appends whose futures have not resolved. *)
From S2P Require Import Prelude Collections Codec ObjectStore WalFormat WalWriter WalWriterInv WalSafety.

Section Tickets.
Context {S : Type} `{!ObjectStorage S} `{!ObjectStorageLaws S} `{!Crc32Fast}.
Context (c : WalConfig) (s0 : Z).
Implicit Types w : Writer S.

Definition active_records w : list PendingRecord :=
  match w_active w with Some b => bk_records b | None => [] end.
Definition ub_recs (u : UploadingBulk) : list PendingRecord := default [] (ub_records u).

(** The records of accepted appends not acknowledged yet. *)
Definition pending_records w : list PendingRecord :=
  active_records w ++ (w_waiting w ≫= bk_records) ++ (w_jobs w ≫= j_records)
    ++ (w_callback w ≫= ub_recs) ++ (w_uploading w ≫= ub_recs).
Definition pending w : list nat := pr_ack <$> pending_records w.
Definition acked w : list nat := ack_ticket <$> w_acks w.

Definition total (m : gmap nat Z) : Z := map_fold (λ _ s a, s + a) 0 m.

Record Tickets w : Prop := {
  tk_nodup : NoDup (pending w ++ acked w);
  tk_known : ∀ t, t ∈ pending w → is_Some (w_unresolved w !! t);
  tk_unresolved : ∀ t, is_Some (w_unresolved w !! t) → t ∈ pending w ++ acked w;
  tk_undone : ∀ u, u ∈ w_uploading w → ub_done u = None → ub_records u = None;
  tk_jobs : NoDup (j_seq <$> w_jobs w);
  tk_total : w_buffered_data_bytes w = u64 (total (w_unresolved w));
}.

(** Records move through the pipeline; none appears or disappears. *)
Definition moves w w' : Prop :=
  pending w' ++ acked w' ≡ₚ pending w ++ acked w
  ∧ (∀ t, t ∈ pending w' → t ∈ pending w)
  ∧ w_unresolved w' = w_unresolved w ∧ w_buffered_data_bytes w' = w_buffered_data_bytes w.

Lemma moves_pending w w' :
  pending_records w' ≡ₚ pending_records w → acked w' = acked w →
  w_unresolved w' = w_unresolved w → w_buffered_data_bytes w' = w_buffered_data_bytes w → moves w w'.
Proof.
  intros Hp Ha Hu Hb. unfold moves, pending. rewrite Ha, Hp. split_and!; [done| |done..].
  intros t. by rewrite Hp.
Qed.

#[local] Instance moves_preorder : PreOrder moves.
Proof.
  split; [done|]. intros w1 w2 w3 (? & ? & ? & ?) (? & ? & ? & ?). split_and!; [by etrans|eauto|congruence..].
Qed.

Lemma tickets_moves w w' :
  moves w w' → NoDup (j_seq <$> w_jobs w') →
  (∀ u, u ∈ w_uploading w' → ub_done u = None → ub_records u = None) → Tickets w → Tickets w'.
Proof.
  intros (Hp & Hs & Hu & Hb) Hj Hd []. constructor; rewrite ?Hu, ?Hb; auto.
  - by rewrite Hp.
  - intros t Ht. rewrite Hp. by auto.
Qed.

Lemma moves_seal w : moves w (seal_active w).
Proof.
  unfold seal_active. destruct (w_active w) as [b|] eqn:E; [|done]. apply moves_pending; try done.
  unfold pending_records, active_records; wsimpl. rewrite E. rewrite bind_app. cbn. rewrite app_nil_r.
  solve_Permutation.
Qed.

Lemma moves_try_upload w : moves w (try_upload_waiting c w).
Proof.
  unfold try_upload_waiting. rewrite admit_spec.
  match goal with |- context [take ?n _] => set (k := n) end.
  apply moves_pending; try done. unfold pending_records, active_records; wsimpl.
  rewrite !bind_app.
  assert ((entry_of <$> take k (w_waiting w)) ≫= ub_recs = []) as ->.
  { induction (take k (w_waiting w)) as [|b l IH]; [done|]. cbn. by rewrite IH. }
  assert ((job_of <$> take k (w_waiting w)) ≫= j_records = take k (w_waiting w) ≫= bk_records) as ->.
  { induction (take k (w_waiting w)) as [|b l IH]; [done|]. cbn. by rewrite IH. }
  rewrite <- (take_drop k (w_waiting w)) at 3. rewrite bind_app. solve_Permutation.
Qed.

Lemma uploading_seqs w : Layout s0 true w → NoDup (ub_seq <$> w_uploading w).
Proof.
  intros L. destruct (lay_chain _ _ _ L) as (lo & Hc%chain_NoDup & _).
  unfold pipe in Hc. rewrite !NoDup_app in Hc. destruct Hc as (_ & _ & Hn & _).
  eapply NoDup_fmap_transfer; [exact Hn|]. intros x y Hx Hy E.
  eapply seq_at_base; [by eapply lay_uploading|]. rewrite E. by eapply lay_uploading.
Qed.

Lemma waiting_seqs w : Layout s0 true w → NoDup (bk_seq <$> w_waiting w).
Proof.
  intros L. destruct (lay_chain _ _ _ L) as (lo & Hc%chain_NoDup & _).
  unfold pipe in Hc. rewrite !NoDup_app in Hc. destruct Hc as (_ & _ & _ & _ & Hn).
  eapply NoDup_fmap_transfer; [exact Hn|]. intros x y Hx Hy E.
  destruct (lay_waiting _ _ _ L x Hx) as [_ ?], (lay_waiting _ _ _ L y Hy) as [_ ?].
  eapply seq_at_base; [done|]. by rewrite E.
Qed.

(** Pushing the whole chain of conditions through the admission of bulks. *)
Lemma tickets_try_upload w : Layout s0 true w → Tickets w → Tickets (try_upload_waiting c w).
Proof.
  intros L T. eapply tickets_moves; [apply moves_try_upload| | |exact T].
  - unfold try_upload_waiting. rewrite admit_spec.
    match goal with |- context [take ?n _] => set (k := n) end.
    wsimpl. rewrite fmap_app, <- list_fmap_compose. apply NoDup_app. split_and!.
    + apply T.
    + intros sq (j & -> & Hj)%list_elem_of_fmap (b & E & Hb)%list_elem_of_fmap.
      destruct (job_entry _ _ _ _ L Hj) as (u & Hu & Hs & _).
      apply subseteq_take in Hb. destruct (lay_waiting _ _ _ L b Hb) as [_ Hsq].
      eapply (uploading_not_waiting s0 true w u b); [done..|]. cbn in E.
      eapply seq_at_base; [exact Hsq|]. rewrite <- E, <- Hs. by eapply lay_uploading.
    + pose proof (waiting_seqs _ L) as Hn. rewrite <- (take_drop k (w_waiting w)), fmap_app, NoDup_app in Hn.
      by destruct Hn.
  - unfold try_upload_waiting. rewrite admit_spec. wsimpl.
    intros u [?|(b & -> & _)%list_elem_of_fmap]%elem_of_app; [by eapply tk_undone|done].
Qed.

Lemma tickets_flush w :
  Layout s0 true w → w_next_offset w + A < 2 ^ 64 → Tickets w →
  Tickets (try_upload_waiting c (seal_active w)).
Proof.
  intros L Hn T. apply tickets_try_upload; [by apply layout_seal|].
  eapply tickets_moves; [apply moves_seal| | |exact T]; unfold seal_active; case_match; by destruct T.
Qed.

Lemma tickets_view w w' :
  (w_active w', w_waiting w', w_jobs w', w_callback w', w_uploading w', w_acks w', w_unresolved w',
   w_buffered_data_bytes w')
  = (w_active w, w_waiting w, w_jobs w, w_callback w, w_uploading w, w_acks w, w_unresolved w,
     w_buffered_data_bytes w) →
  Tickets w → Tickets w'.
Proof.
  intros [= E1 E2 E3 E4 E5 E6 E7 E8] [].
  constructor; unfold pending, pending_records, active_records, acked in *;
    rewrite ?E1, ?E2, ?E3, ?E4, ?E5, ?E6, ?E7, ?E8; auto.
Qed.

(** The state [submit] pushes a record in. *)
Definition made_room (size : Z) w : Writer S :=
  let w := match w_active w with None => new_active_bulk w | Some _ => w end in
  if A <? u64 (size + active_size w) then new_active_bulk (seal_active w) else w.

Lemma moves_made_room size w : moves w (made_room size w).
Proof.
  assert (∀ w', w_active w' = None → moves w' (new_active_bulk w')) as Hnew.
  { intros w' E. apply moves_pending; try done.
    unfold pending_records, active_records, new_active_bulk; wsimpl. by rewrite E. }
  assert (∀ w', w_active w' ≠ None → moves w' (new_active_bulk (seal_active w'))) as Hseal.
  { intros w' E. etrans; [apply moves_seal|]. by apply Hnew, seal_next. }
  unfold made_room. destruct (w_active w) as [b|] eqn:E.
  - case_match; [|done]. apply Hseal. congruence.
  - case_match; [|by apply Hnew]. etrans; [by apply Hnew|]. by apply Hseal.
Qed.

Lemma total_insert (m : gmap nat Z) t x : m !! t = None → total (<[t := x]> m) = x + total m.
Proof. intros. unfold total. rewrite map_fold_insert_L; [done|intros; lia|done]. Qed.
Lemma total_delete (m : gmap nat Z) t x : m !! t = Some x → total m = x + total (delete t m).
Proof. intros. unfold total. rewrite (map_fold_delete_L _ _ t x m); [done|intros; lia|done]. Qed.

Lemma tickets_push ticket record size w :
  Tickets w → w_active w ≠ None → ticket ∉ acked w → w_unresolved w !! ticket = None →
  let w' := push_active {| pr_record := record; pr_size := size; pr_offset := 0; pr_ack := ticket |}
              (set_buffered_data_bytes (u64 (w_buffered_data_bytes w + size)) w) in
  Tickets (set_unresolved (<[ticket := size]> (w_unresolved w')) w').
Proof.
  intros [] Ha Hna Hun. cbv zeta. unfold push_active; wsimpl. destruct (w_active w) as [b|] eqn:E; [|done].
  set (w' := set_unresolved _ _).
  assert (pending w' ≡ₚ ticket :: pending w) as Hp.
  { subst w'. unfold pending, pending_records, active_records; wsimpl. rewrite E. cbn [bk_records].
    rewrite !fmap_app. cbn. solve_Permutation. }
  assert (ticket ∉ pending w) as Hnp.
  { intros Hin. apply tk_known0 in Hin as [? ?]. congruence. }
  constructor; try done.
  - rewrite Hp. change (acked w') with (acked w). cbn. constructor; [|done].
    rewrite elem_of_app. tauto.
  - intros t. rewrite Hp. subst w'; wsimpl. intros [->|Ht]%elem_of_cons; [by rewrite lookup_insert_eq|].
    rewrite lookup_insert_is_Some'. auto.
  - intros t. rewrite Hp. change (acked w') with (acked w). subst w'; wsimpl. rewrite lookup_insert_is_Some'.
    intros [<-|Ht]; [left|]. apply tk_unresolved0 in Ht. by right.
  - subst w'; wsimpl. rewrite total_insert, tk_total0 by done. int_lia.
Qed.

Lemma tickets_submit ticket record w :
  Layout s0 true w → w_next_offset w ≤ OFFSET_LIMIT → len (encoded record) < 2 ^ 63 →
  Tickets w → ticket ∉ acked w → w_unresolved w !! ticket = None →
  Tickets (submit c ticket record w).1
  ∧ (submit c ticket record w).1.(w_unresolved)
    = if is_ok (submit c ticket record w).2 then <[ticket := data_size record]> (w_unresolved w) else w_unresolved w.
Proof.
  intros L Hn Hlen T Hna Hun. pose proof (layout_submit c s0 ticket record w L Hn Hlen) as L'.
  unfold submit in *. destruct (check_status c w); [|done].
  case_match; [done|]. destruct (A <? data_size record) eqn:Es; [done|].
  pose proof (rec_ok_pos _ (data_size_ok record ltac:(int_lia))) as Hp; cbn in Hp.
  destruct (layout_make_room s0 (data_size record) w L Hn ltac:(lia)) as (L2 & Ha & Hsz & Hno).
  cbv zeta in *. fold (made_room (data_size record) w) in *.
  pose proof (moves_made_room (data_size record) w) as Hmv.
  set (w2 := made_room (data_size record) w) in *.
  assert (w_unresolved w2 = w_unresolved w ∧ acked w2 = acked w ∧ w_jobs w2 = w_jobs w ∧ w_uploading w2 = w_uploading w)
    as (Eu & Eacked & Ej & Eup).
  { subst w2. unfold made_room, seal_active. by repeat case_match. }
  assert (Tickets w2) as T2.
  { eapply tickets_moves; [exact Hmv| | |exact T]; rewrite ?Ej, ?Eup; apply T. }
  rewrite <- Eu in Hun. rewrite <- Eacked in Hna.
  pose proof (tickets_push ticket record (data_size record) w2 T2 Ha Hna Hun) as T3.
  cbv zeta in T3. match type of T3 with Tickets ?x => set (w3 := x) in * end.
  assert (w_unresolved w3 = <[ticket := data_size record]> (w_unresolved w)) as Eu3.
  { subst w3. unfold push_active. wsimpl. rewrite <- Eu. by destruct (w_active w2). }
  assert (Layout s0 true w3) as L3.
  { subst w3. match goal with |- Layout _ _ (set_unresolved _ ?x) => assert (Layout s0 true x) as L3 end.
    - apply layout_push; [by eapply layout_view; [|exact L2]|done|exact (data_size_ok record ltac:(int_lia))|exact Hsz].
    - by eapply layout_view; [|exact L3]. }
  assert (w_next_offset w3 = w_next_offset w2) as Hn3.
  { unfold w3, push_active; wsimpl. by destruct (w_active w2). }
  case_match; cbn [fst snd is_ok].
  - split; [apply tickets_flush; [done|unfold OFFSET_LIMIT in *; align_lia|done]|].
    rewrite <- Eu3. unfold try_upload_waiting. rewrite admit_spec. wsimpl.
    unfold seal_active. by case_match.
  - done.
Qed.

(** *** Upload and completion *)

Lemma filter_seq_out (j : UploadJob) js1 js2 :
  NoDup (j_seq <$> js1 ++ j :: js2) →
  filter (λ j', j_seq j' ≠ j_seq j) (js1 ++ j :: js2) = js1 ++ js2.
Proof.
  rewrite fmap_app, NoDup_app. cbn. rewrite NoDup_cons. intros (_ & Hd & Hn & _).
  rewrite filter_app, filter_cons_False by tauto. f_equal; apply filter_all; intros x Hx E.
  - apply (Hd (j_seq x)); [by apply list_elem_of_fmap_2|]. rewrite E. left.
  - apply Hn. rewrite <- E. by apply list_elem_of_fmap_2.
Qed.

Lemma finish_entry_id seq rs r us : seq ∉ ub_seq <$> us → finish_entry seq rs r us = us.
Proof.
  intros Hn. unfold finish_entry. induction us as [|u us IH]; [done|]. cbn in *.
  rewrite not_elem_of_cons in Hn. destruct Hn as [Hne Hn].
  replace (ub_seq u =? seq) with false by lia. f_equal. by apply IH.
Qed.

Lemma finish_entry_split seq rs r us u us1 us2 :
  NoDup (ub_seq <$> us) → us = us1 ++ u :: us2 → ub_seq u = seq →
  ∃ u', finish_entry seq rs r us = us1 ++ u' :: us2 ∧ ub_records u' = Some rs ∧ ub_done u' = Some r.
Proof.
  intros Hn -> <-. rewrite fmap_app, NoDup_app in Hn. cbn in Hn. rewrite NoDup_cons in Hn.
  destruct Hn as (_ & Hd & Hu & _). unfold finish_entry. rewrite fmap_app. cbn.
  rewrite Z.eqb_refl. eexists. split.
  - f_equal; [|f_equal].
    + apply finish_entry_id. intros E. apply (Hd _ E). left.
    + by apply finish_entry_id.
  - done.
Qed.

Lemma placed_tickets base rs : pr_ack <$> placed base rs ≡ₚ pr_ack <$> rs.
Proof.
  unfold placed. assert (∀ o l, pr_ack <$> assign_offsets o l = pr_ack <$> l) as ->.
  { intros o l. revert o; induction l as [|r l IH]; intros o; [done|]. cbn. by rewrite IH. }
  by rewrite sort_by_perm.
Qed.

Lemma tickets_finish j r rs w w' :
  Layout s0 true w → Tickets w → j ∈ w_jobs w →
  (pr_ack <$> rs) ≡ₚ (pr_ack <$> j_records j) →
  w_jobs w' = filter (λ j', j_seq j' ≠ j_seq j) (w_jobs w) →
  w_uploading w' = finish_entry (j_seq j) rs r (w_uploading w) →
  (w_active w', w_waiting w', w_callback w', w_acks w', w_unresolved w', w_buffered_data_bytes w')
  = (w_active w, w_waiting w, w_callback w, w_acks w, w_unresolved w, w_buffered_data_bytes w) →
  Tickets w'.
Proof.
  intros L T Hj Hrs Ej Eu [= E1 E2 E3 E4 E5 E6].
  destruct (job_entry _ _ _ _ L Hj) as (u & Hu & Hs & _ & Hd).
  pose proof (tk_undone _ T u Hu Hd) as Hnone. pose proof (tk_jobs _ T) as Hjn.
  apply list_elem_of_split in Hj as (js1 & js2 & Hjs), Hu as (us1 & us2 & Hus).
  destruct (finish_entry_split (j_seq j) rs r (w_uploading w) u us1 us2) as (u' & Hf & Hr' & Hd');
    [by apply uploading_seqs|done|done|].
  rewrite Hjs, filter_seq_out in Ej by (by rewrite <- Hjs). rewrite Hf in Eu.
  eapply tickets_moves; [|rewrite Ej|rewrite Eu|exact T].
  - assert (pending w' ≡ₚ pending w) as Hp.
    { unfold pending, pending_records, active_records.
      rewrite E1, E2, E3, Ej, Eu, Hjs, Hus, !bind_app. cbn [mbind list_bind].
      assert (ub_recs u' = rs) as -> by (unfold ub_recs; by rewrite Hr').
      assert (ub_recs u = []) as -> by (unfold ub_recs; by rewrite Hnone).
      rewrite !fmap_app, Hrs. solve_Permutation. }
    unfold moves. rewrite Hp. unfold acked. rewrite E4. split_and!; try done. intros t. by rewrite Hp.
  - rewrite Hjs, fmap_app in Hjn. rewrite fmap_app. cbn in Hjn.
    rewrite NoDup_app in Hjn |- *. rewrite NoDup_cons in Hjn. destruct Hjn as (? & Hx & ? & ?).
    split_and!; auto. intros x Hx1 Hx2. apply (Hx x Hx1). by right.
  - intros x Hx Hxd. eapply (tk_undone _ T x); [|done]. rewrite Hus.
    apply elem_of_app in Hx as [Hx|[->|Hx]%elem_of_cons]; [apply elem_of_app; by left|congruence|].
    apply elem_of_app. right. by right.
Qed.

Lemma tickets_upload_done now j trim out w :
  Layout s0 true w → Tickets w → j ∈ w_jobs w → Tickets (upload_done c now j trim out w).
Proof.
  intros L T Hj. unfold upload_done.
  destruct out; (eapply (tickets_finish j); [exact L|exact T|exact Hj|apply placed_tickets|done..]).
Qed.

Lemma complete_records_tickets fenced rs :
  ack_ticket <$> (complete_records c fenced rs).1 = pr_ack <$> rs.
Proof.
  induction rs as [|r rs IH]; cbn; [done|]. destruct (complete_records c fenced rs); cbn in *.
  by destruct fenced; cbn; rewrite IH.
Qed.

Lemma tickets_callback_finish lease w : Tickets w → Tickets (callback_finish c lease w).
Proof.
  intros T. unfold callback_finish. fold (lease_checked lease w). rewrite complete_all.
  assert (Tickets (lease_checked lease w)) as T1.
  { eapply tickets_view; [|exact T]. unfold lease_checked. by repeat case_match. }
  set (w1 := lease_checked lease w) in *. clearbody w1. clear T.
  eapply tickets_moves; [|apply T1|apply T1|exact T1].
  assert (∀ us, ack_ticket <$> (us ≫= λ u, (complete_records c (w_fenced w1) (default [] (ub_records u))).1)
    = pr_ack <$> (us ≫= ub_recs)) as Eu.
  { induction us as [|u us IH]; [done|]. cbn. by rewrite !fmap_app, IH, complete_records_tickets. }
  unfold moves, pending, pending_records, active_records, acked; wsimpl.
  split_and!; try done.
  - rewrite !fmap_app, Eu. cbn. solve_Permutation.
  - intros t. rewrite !fmap_app, !elem_of_app. cbn. rewrite elem_of_nil. tauto.
Qed.

Lemma tickets_collect w :
  Layout s0 true w → w_callback w = [] → Tickets w → Tickets (callback_collect c w).
Proof.
  intros L Hcb T. unfold callback_collect.
  destruct (pop_done (w_uploading w)) as [d rest] eqn:Ep. case_decide; [done|].
  set (w1 := set_callback d (set_uploading rest w)).
  apply pop_done_spec in Ep as (Hup & Hd).
  assert (Layout s0 true w1) as L1 by (by apply layout_collected).
  apply tickets_try_upload; [done|].
  eapply tickets_moves; [|apply T| |exact T].
  - apply moves_pending; try done. subst w1. unfold pending_records, active_records; wsimpl.
    rewrite Hcb, Hup, bind_app. done.
  - intros u Hu. apply T. rewrite Hup. apply elem_of_app. by right.
Qed.

Lemma tickets_resolve ticket w :
  Tickets w → ticket ∈ acked w → Tickets (durable_resolved ticket w).
Proof.
  intros T Ha. unfold durable_resolved. destruct (w_unresolved w !! ticket) as [size|] eqn:E; [|done].
  pose proof T as []. constructor; try done; wsimpl.
  - intros t Ht. rewrite lookup_delete_ne; [by apply tk_known0|]. intros <-.
    apply NoDup_app in tk_nodup0 as (_ & Hd & _). by apply (Hd ticket).
  - intros t Hs. apply tk_unresolved0. destruct (decide (ticket = t)) as [->|]; [by eauto|].
    by rewrite lookup_delete_ne in Hs.
  - rewrite tk_total0, (total_delete _ _ _ E). int_lia.
Qed.

Lemma tickets_step w w' :
  step c w w' → w_next_offset w ≤ OFFSET_LIMIT → Layout s0 true w → Tickets w → Tickets w'.
Proof.
  intros Hst Hn L T. assert (w_next_offset w + A < 2 ^ 64) by (unfold OFFSET_LIMIT in *; align_lia).
  destruct Hst as [w ticket record Hlen Hna Hun|w seq|w|w|w j _ _|w now j trim out Hj|w Hcb|w lease|w ticket Ha
    |w offset ticket w' Hb Hna Hun|w ticket offset res deleted|w paths deleted].
  - by apply tickets_submit.
  - unfold timer_fires. repeat case_match; try done. by apply tickets_flush.
  - by apply tickets_flush.
  - apply tickets_flush; [by eapply layout_view; [|exact L]|done|by eapply tickets_view; [|exact T]].
  - eapply tickets_moves; [|wsimpl|apply T|exact T].
    + apply moves_pending; try done. unfold pending_records, active_records; wsimpl.
      replace (set_job_trim (j_seq j) (w_trim_offset w) (w_jobs w) ≫= j_records) with (w_jobs w ≫= j_records); [done|].
      unfold set_job_trim. induction (w_jobs w) as [|j' js IH]; [done|]. cbn. rewrite <- IH. by destruct (j_seq j' =? j_seq j).
    + replace (j_seq <$> set_job_trim (j_seq j) (w_trim_offset w) (w_jobs w)) with (j_seq <$> w_jobs w); [apply T|].
      unfold set_job_trim. rewrite <- list_fmap_compose. apply list_fmap_ext. intros i j' _. unfold compose. by case_match.
  - by apply tickets_upload_done.
  - by apply tickets_collect.
  - by apply tickets_callback_finish.
  - by apply tickets_resolve.
  - assert (w' = set_trim_offset offset w) as -> by (unfold trim_begin in Hb; by repeat case_match; simplify_eq).
    destruct (tickets_submit ticket fake_trim_record (set_trim_offset offset w)) as [T2 _];
      [by eapply layout_view; [|exact L]|done|by vm_compute|by eapply tickets_view; [|exact T]|done|done|].
    destruct (submit c ticket fake_trim_record (set_trim_offset offset w)) as [w2 [?|?]]; cbn [fst] in T2;
      [by eapply tickets_view; [|exact T2]|done].
  - unfold trim_finish. case_decide; by eapply tickets_view; [|exact T].
  - by eapply tickets_view; [|exact T].
Qed.

Lemma run_tickets w w' : initial c s0 w → rtc (bstep c) w w' → Tickets w'.
Proof.
  intros Hi Hr. pose proof (initial_layout _ _ _ Hi) as L.
  assert (Tickets w) as T.
  { destruct Hi. destruct ini_idle as (Ea & _ & Ew & Eu & Ec & Ej & _), ini_outputs as (Ek & _), ini_buffer as (Eb & Er).
    constructor; unfold pending, pending_records, active_records, acked;
      rewrite ?Ea, ?Ew, ?Eu, ?Ec, ?Ej, ?Ek, ?Er; cbn; try constructor.
    - by intros t ?%not_elem_of_nil.
    - intros t [? E]. by rewrite lookup_empty in E.
    - by intros t ?%not_elem_of_nil.
    - done. }
  clear Hi. induction Hr as [w|w w1 w2 [Hn Hst] _ IH]; [done|].
  apply IH; [by eapply layout_step|by eapply tickets_step].
Qed.
End Tickets.

(** C31: Every accepted append is acknowledged at most once and none is lost: in every
    reachable state its ticket is held by exactly one queue of the pipeline or has
    been acknowledged, never both, and the backpressure counter is the total size of
    the appends whose futures have not resolved. *)
Theorem wal_acks_exactly_once {S : Type} `{!ObjectStorage S} `{!ObjectStorageLaws S} `{!Crc32Fast}
    (c : WalConfig) s0 (w0 w : Writer S) :
  initial c s0 w0 → rtc (bstep c) w0 w →
  NoDup (pending w ++ acked w)
  ∧ (∀ t, is_Some (w_unresolved w !! t) → t ∈ pending w ∨ t ∈ acked w)
  ∧ (∀ t, t ∈ pending w → is_Some (w_unresolved w !! t))
  ∧ w_buffered_data_bytes w = u64 (total (w_unresolved w)).
Proof.
  intros Hi Hr. destruct (run_tickets _ _ _ _ Hi Hr) as []. split_and!; auto.
  intros t Ht. by apply elem_of_app, tk_unresolved0.
Qed.

Lemma wal_acks_exactly_once_witness : 0%nat ∈ pending Demo.w6 ∨ 0%nat ∈ acked Demo.w6.
Proof.
  destruct (wal_acks_exactly_once (H := Crc32IsoHdlc.crc32_iso_hdlc) Demo.cfg 0 Demo.w0 Demo.w6 Demo.initial_w0 Demo.run_w6) as (_ & Hu & _).
  apply Hu. exists 60. reflexivity.
Defined.

(** A trim forgets exactly the objects of this epoch whose last record it covers,
    except the newest one, and hands exactly those (and a prefix of the previous
    epochs' objects that end at or below the trim offset) to deletion; every other
    entry stays indexed. *)
Theorem trim_releases_covered {S : Type} `{!ObjectStorage S}
    offset deleted (w : Writer S) k o :
  0 ≤ offset →
  (w_last_record_offset_to_object (trim_finish offset deleted w) !! k = Some o
   ↔ w_last_record_offset_to_object w !! k = Some o
     ∧ (offset < k ∨ last_entry (w_last_record_offset_to_object w) = Some (k, o)))
  ∧ (∀ p, p ∈ trim_delete_list offset w →
       (∃ k' o', p = object_to_path o' ∧ w_last_record_offset_to_object w !! k' = Some o'
          ∧ k' ≤ offset ∧ ∃ kl ol, last_entry (w_last_record_offset_to_object w) = Some (kl, ol) ∧ k' < kl)
       ∨ (∃ o', o' ∈ w_previous_objects w ∧ p = object_to_path o' ∧ i64 (wo_end_offset o') ≤ offset)).
Proof.
  intros Ho. split.
  - assert (w_last_record_offset_to_object (trim_finish offset deleted w)
      = foldr (λ p m, delete p.1 m) (w_last_record_offset_to_object w) (trim_own offset w)) as ->.
    { unfold trim_finish. by case_decide. }
    rewrite lookup_foldr_delete. unfold trim_own.
    destruct (last_entry (w_last_record_offset_to_object w)) as [[kl ol]|] eqn:El.
    + destruct (last_entry_spec _ _ _ El) as [Hl Hmax]. split.
      * intros [Hk Hn]. split; [done|]. destruct (decide (k = kl)) as [->|Hne]; [right; congruence|left].
        apply Z.nle_gt. intros Hle. apply Hn. apply list_elem_of_fmap. exists (k, o). split; [done|].
        unfold range_to_incl. rewrite !list_elem_of_filter, elem_of_entries. cbn. split_and!; [done|lia|done].
      * intros [Hk Hor]. split; [done|].
        intros ([k' o'] & Heq & Hin)%list_elem_of_fmap. cbn in Heq. subst k'.
        unfold range_to_incl in Hin. rewrite !list_elem_of_filter in Hin. cbn in Hin.
        destruct Hor as [?|[= -> ->]]; [lia|tauto].
    + cbn. rewrite elem_of_nil. apply last_entry_None in El. rewrite El, lookup_empty. split; by intros [? _].
  - intros p Hp. unfold trim_delete_list in Hp.
    apply elem_of_app in Hp as [(o' & -> & Hin)%list_elem_of_fmap|(o' & -> & Hin)%list_elem_of_fmap].
    + left. apply list_elem_of_fmap in Hin as ([k' o''] & -> & Hin).
      destruct (trim_own_spec _ _ _ _ Hin) as (Hk & Hle & kl & ol & El & Hne).
      destruct (last_entry_spec _ _ _ El) as [_ Hmax]. exists k', o''.
      split_and!; [done|done|lia|]. exists kl, ol. split; [done|].
      specialize (Hmax k' ltac:(by eauto)). lia.
    + right. exists o'. split_and!; [by eapply trim_previous_sub|done|].
      unfold trim_previous in Hin. apply take_while_true in Hin. lia.
Qed.

Lemma trim_releases_covered_witness :
  let object s := {| wo_bucket_id := 0; wo_key := slot_path Demo.cfg s; wo_epoch := 3;
                     wo_start_offset := s; wo_end_offset := s + A; wo_size := 108 |} in
  let w := set_last_record_offset_to_object (<[0 := object 0]> {[A := object A]}) Demo.w0 in
  w_last_record_offset_to_object (trim_finish A [] w) !! A = Some (object A)
  ∧ w_last_record_offset_to_object (trim_finish A [] w) !! 0 = None.
Proof.
  intros object w. split.
  - apply (trim_releases_covered A [] w); [vm_compute; discriminate|]. split; [reflexivity|].
    right. vm_compute. reflexivity.
  - destruct (w_last_record_offset_to_object (trim_finish A [] w) !! 0) as [o|] eqn:E; [|reflexivity].
    apply (trim_releases_covered A [] w) in E as [_ [Hlt|Hl]]; [| |vm_compute; discriminate].
    + exfalso. vm_compute in Hlt. discriminate Hlt.
    + exfalso. vm_compute in Hl. discriminate Hl.
Defined.
