(* ===== verification/ObjectFormat.v ===== *)
(** * Object metadata, block index and data blocks

    Models [s3stream-object/src/{metadata,index}.rs] and the data-block encoding
    of [writer.rs] and [reader.rs]: packed attributes, storage keys, the 36-byte
    index entries with their binary search and range lookup, and the encoding of
    a block of record batches. *)
From S2P Require Import Prelude Collections Codec ObjectStore.

(** ** metadata.rs *)

Definition NOOP_OBJECT_ID : Z := U64_MAX.
Definition NOOP_OFFSET : Z := U64_MAX.

Inductive S3ObjectType : Type := StreamSet | Stream.

#[export] Instance S3ObjectType_eq_dec : EqDecision S3ObjectType.
Proof. solve_decision. Defined.

(** [ObjectAttributes(u32)]. *)
Definition ObjectAttributes : Type := Z.
Definition DEEP_DELETE_MASK : Z := Z.shiftl 1 18.

Definition attributes_new (bucket_id : Z) (composite deep_delete : bool) : ObjectAttributes :=
  let attributes := 0 in
  let attributes := if composite then Z.lor attributes 1 else attributes in
  let attributes := Z.lor attributes (u32 (Z.shiftl (u16 bucket_id) 2)) in
  if deep_delete then Z.lor attributes DEEP_DELETE_MASK else attributes.

Definition attributes_bucket_id (a : ObjectAttributes) : Z := i16 (Z.land (Z.shiftr a 2) 0xFFFF).
Definition is_composite (a : ObjectAttributes) : bool := Z.land a 0x3 =? 1.
Definition deep_delete (a : ObjectAttributes) : bool := negb (Z.land a DEEP_DELETE_MASK =? 0).

Record StreamOffsetRange : Type := {
  sr_stream_id : Z;
  sr_start_offset : Z;
  sr_end_offset : Z;
}.
#[export] Instance StreamOffsetRange_eq_dec : EqDecision StreamOffsetRange.
Proof. solve_decision. Defined.

Record S3ObjectMetadata : Type := {
  om_object_id : Z;
  om_object_type : S3ObjectType;
  om_offset_ranges : list StreamOffsetRange;
  om_object_size : Z;
  om_attributes : ObjectAttributes;
  om_committed_timestamp_ms : Z;
  om_data_timestamp_ms : Z;
}.
#[export] Instance S3ObjectMetadata_eq_dec : EqDecision S3ObjectMetadata.
Proof. unfold ObjectAttributes. solve_decision. Defined.

(** [format!("{z:08x}")]: lower-case hexadecimal, at least eight digits. *)
Definition hex_digit (z : Z) : Z := if z <? 10 then 48 + z else 87 + z.
Fixpoint hex_digits (fuel : nat) (z : Z) : bytes :=
  match fuel with
  | O => []
  | S f => if z <? 16 then [hex_digit z] else hex_digits f (z / 16) ++ [hex_digit (z mod 16)]
  end.
Definition hex08 (z : Z) : bytes :=
  let d := hex_digits 16 z in replicate (8 - length d) 48 ++ d.

Definition DEFAULT_NAMESPACE : bytes := str "DEFAULT".

(** [None] is the [assert_eq!] on the key scheme version. *)
Definition gen_object_key_in (version : Z) (namespace : bytes) (object_id : Z) : option bytes :=
  if version =? 0
  then Some (rev (hex08 object_id) ++ str "/" ++ namespace ++ str "/" ++ dec object_id)
  else None.
Definition gen_object_key (version object_id : Z) : option bytes :=
  gen_object_key_in version DEFAULT_NAMESPACE object_id.
(** [gen_object_key(0, object_id)], the only version the code asks for. *)
Definition object_key (object_id : Z) : bytes := default [] (gen_object_key 0 object_id).
Definition metadata_key (m : S3ObjectMetadata) : bytes := object_key (om_object_id m).

Definition java_string_hash (s : bytes) : Z := foldl (λ h c, i32 (i32 (h * 31) + c)) 0 s.

Definition gen_index_key_in (version : Z) (namespace : bytes) (node_id : Z) : option bytes :=
  if version =? 0
  then Some (hex08 (u32 (java_string_hash (str "sparse-index" ++ dec node_id)))
             ++ str "/" ++ namespace ++ str "/node-" ++ dec node_id)
  else None.
Definition gen_index_key (version node_id : Z) : option bytes :=
  gen_index_key_in version DEFAULT_NAMESPACE node_id.

(** ** index.rs *)

Definition BLOCK_INDEX_SIZE : nat := 36.

Record DataBlockIndex : Type := {
  bi_block_id : Z;
  bi_stream_id : Z;
  bi_start_offset : Z;
  bi_end_offset_delta : Z;
  bi_record_count : Z;
  bi_start_position : Z;
  bi_size : Z;
}.
#[export] Instance DataBlockIndex_eq_dec : EqDecision DataBlockIndex.
Proof. solve_decision. Defined.

Definition bi_end_offset (e : DataBlockIndex) : Z := u64 (bi_start_offset e + bi_end_offset_delta e).
Definition bi_end_position (e : DataBlockIndex) : Z := u64 (bi_start_position e + bi_size e).

Definition index_encode (e : DataBlockIndex) : bytes :=
  be 8 (bi_stream_id e) ++ be 8 (bi_start_offset e) ++ be 4 (bi_end_offset_delta e)
    ++ be 4 (bi_record_count e) ++ be 8 (bi_start_position e) ++ be 4 (bi_size e).

Definition index_decode (block_id : Z) (buf : bytes) : result ObjectError DataBlockIndex :=
  if len buf <? Z.of_nat BLOCK_INDEX_SIZE then Err OE_InvalidFormat
  else Ok {| bi_block_id := block_id;
             bi_stream_id := read_be 0 8 buf;
             bi_start_offset := read_be 8 8 buf;
             bi_end_offset_delta := read_be 16 4 buf;
             bi_record_count := read_be 20 4 buf;
             bi_start_position := read_be 24 8 buf;
             bi_size := read_be 32 4 buf |}.

Record FindIndexResult : Type := {
  fi_fulfilled : bool;
  fi_next_start_offset : Z;
  fi_next_max_bytes : Z;
  fi_blocks : list DataBlockIndex;
}.

(** [IndexBlock] is its entries. *)
Definition IndexBlock : Type := list DataBlockIndex.

(** The loop of [parse]: entry [i] sits at [i * 36]. *)
Fixpoint parse_entries (n i : nat) (data : bytes) : result ObjectError IndexBlock :=
  match n with
  | O => Ok []
  | S n' =>
      let? e := index_decode (i32 (Z.of_nat i)) (drop (i * BLOCK_INDEX_SIZE) data) in
      let? es := parse_entries n' (S i) data in
      Ok (e :: es)
  end.

Definition index_block_parse (data : bytes) : result ObjectError IndexBlock :=
  if negb (len data mod Z.of_nat BLOCK_INDEX_SIZE =? 0) then Err OE_InvalidFormat
  else parse_entries (length data / BLOCK_INDEX_SIZE) 0 data.

Definition index_block_encode (es : IndexBlock) : bytes := concat (index_encode <$> es).

(** [search]; the interval shrinks, so [length + 1] rounds are enough. *)
Fixpoint search_loop (fuel : nat) (lo hi : Z) (es : IndexBlock) (stream_id offset : Z) : Z + Z :=
  match fuel with
  | O => inr lo
  | S fuel' =>
      if lo <=? hi then
        let mid := (lo + hi) ÷ 2 in
        match es !! Z.to_nat mid with
        | None => inr lo
        | Some e =>
            let is_less := (bi_stream_id e <? stream_id)
                           || ((bi_stream_id e =? stream_id) && (bi_end_offset e <=? offset)) in
            let is_greater := (stream_id <? bi_stream_id e)
                              || ((bi_stream_id e =? stream_id) && (offset <? bi_start_offset e)) in
            if is_less then search_loop fuel' (mid + 1) hi es stream_id offset
            else if is_greater then search_loop fuel' lo (mid - 1) es stream_id offset
            else inl mid
        end
      else inr lo
  end.

Definition search (es : IndexBlock) (stream_id offset : Z) : Z + Z :=
  search_loop (S (length es)) 0 (len es - 1) es stream_id offset.

(** The loop of [find] over the entries from the start index on. *)
Fixpoint find_loop (es : IndexBlock) (stream_id end_offset next_start next_max : Z) (matched : bool)
    (blocks : list DataBlockIndex) : FindIndexResult :=
  let stop fulfilled next_start next_max blocks :=
    {| fi_fulfilled := fulfilled; fi_next_start_offset := next_start;
       fi_next_max_bytes := next_max; fi_blocks := blocks |} in
  match es with
  | [] => stop false next_start next_max blocks
  | e :: es' =>
      if bi_stream_id e =? stream_id then
        if next_start <? bi_start_offset e then stop false next_start next_max blocks
        else if bi_end_offset e <=? next_start
        then find_loop es' stream_id end_offset next_start next_max matched blocks
        else
          let matched := next_start =? bi_start_offset e in
          let next_start := bi_end_offset e in
          let blocks := blocks ++ [e] in
          let next_max :=
            if matched then
              let record_payload_size :=
                sat_sub (sat_sub (bi_size e) (u64 (bi_record_count e * 33))) 10 in
              next_max - Z.min next_max record_payload_size
            else next_max in
          if (negb (end_offset =? NOOP_OFFSET) && (end_offset <=? next_start)) || (next_max =? 0)
          then stop true next_start next_max blocks
          else find_loop es' stream_id end_offset next_start next_max matched blocks
      else if matched then stop false next_start next_max blocks
      else find_loop es' stream_id end_offset next_start next_max matched blocks
  end.

Definition find (es : IndexBlock) (stream_id start_offset end_offset max_bytes : Z) : FindIndexResult :=
  match search es stream_id start_offset with
  | inr _ => {| fi_fulfilled := false; fi_next_start_offset := start_offset;
                fi_next_max_bytes := max_bytes; fi_blocks := [] |}
  | inl i => find_loop (dropZ i es) stream_id end_offset start_offset max_bytes false []
  end.

(** ** Data blocks: writer.rs, reader.rs *)

Definition DATA_BLOCK_MAGIC : Z := 0x5A.
Definition DATA_BLOCK_DEFAULT_FLAG : Z := 0x02.
Definition BLOCK_HEADER_SIZE : nat := 10.
Definition FOOTER_SIZE : nat := 48.
Definition FOOTER_MAGIC : Z := 0x88E241B785F4CFF7.
Definition MIN_PART_SIZE : Z := 5 * 1024 * 1024.

(** [None] is the [assert!] on an empty block. *)
Definition encode_data_block (records : list StreamRecordBatch) : option bytes :=
  match records with
  | [] => None
  | _ =>
      let data := concat (encoded <$> records) in
      Some (be 1 DATA_BLOCK_MAGIC ++ be 1 DATA_BLOCK_DEFAULT_FLAG ++ be 4 (u32 (len records))
              ++ be 4 (u32 (len data)) ++ data)
  end.

(** [for _ in 0..record_count]: the batches and what is left of the data. *)
Fixpoint parse_batches (n : nat) (data : bytes)
  : result ObjectError (list StreamRecordBatch * bytes) :=
  match n with
  | O => Ok ([], data)
  | S n' =>
      let? (r, data) := map_err OE_Codec (parse data) in
      let? (rs, data) := parse_batches n' data in
      Ok (r :: rs, data)
  end.

(** [decode_data_block]: a block takes at least its header, so [length] rounds
    are enough. *)
Fixpoint decode_blocks (fuel : nat) (buf : bytes) : result ObjectError (list StreamRecordBatch) :=
  match fuel, buf with
  | _, [] => Ok []
  | O, _ => Err OE_InvalidFormat
  | S fuel', _ =>
      if len buf <? Z.of_nat BLOCK_HEADER_SIZE then Err OE_InvalidFormat
      else if negb (read_be 0 1 buf =? DATA_BLOCK_MAGIC) then Err OE_InvalidFormat
      else
        let record_count := read_be 2 4 buf in
        let data_length := read_be 6 4 buf in
        if len buf <? Z.of_nat BLOCK_HEADER_SIZE + data_length then Err OE_InvalidFormat
        else
          let buf := drop BLOCK_HEADER_SIZE buf in
          let? (rs, tail) := parse_batches (Z.to_nat record_count) (takeZ data_length buf) in
          match tail with
          | _ :: _ => Err OE_InvalidFormat
          | [] =>
              let? rest := decode_blocks fuel' (dropZ data_length buf) in
              Ok (rs ++ rest)
          end
  end.

Definition decode_data_block (block : bytes) : result ObjectError (list StreamRecordBatch) :=
  decode_blocks (length block) block.

(** ** Lemmas *)

(** *** Attributes *)

Definition attributes_ok (b : Z) (c d : bool) : bool :=
  let a := attributes_new b c d in
  (Z.land (Z.shiftr a 2) 0xFFFF =? b) && Bool.eqb (is_composite a) c && Bool.eqb (deep_delete a) d.

Lemma land_disjoint x y n : 0 ≤ n → 0 ≤ x < 2 ^ n → Z.land x (y * 2 ^ n) = 0.
Proof.
  intros Hn Hx. apply Z.bits_inj'. intros i Hi. rewrite Z.land_spec, Z.bits_0.
  destruct (Z.lt_ge_cases i n) as [Hlt|Hge].
  - by rewrite Z.mul_pow2_bits_low, andb_false_r by lia.
  - rewrite <- (Z.mod_small x (2 ^ n)) by done. by rewrite Z.mod_pow2_bits_high by lia.
Qed.

Lemma lor_disjoint x y n : 0 ≤ n → 0 ≤ x < 2 ^ n → Z.lor x (y * 2 ^ n) = x + y * 2 ^ n.
Proof. intros. symmetry. by apply Z.add_nocarry_lor, land_disjoint. Qed.

(** The three fields do not overlap. *)
Lemma attributes_new_sum b c d :
  0 ≤ b < 65536 → attributes_new b c d = Z.b2z c + b * 2 ^ 2 + Z.b2z d * 2 ^ 18.
Proof.
  intros Hb. unfold attributes_new. cbv zeta.
  replace (u32 (Z.shiftl (u16 b) 2)) with (b * 2 ^ 2) by (rewrite Z.shiftl_mul_pow2 by lia; int_lia).
  replace (if c then Z.lor 0 1 else 0) with (Z.b2z c) by (by destruct c).
  assert (0 ≤ Z.b2z c < 2 ^ 2) by (destruct c; cbn; lia).
  rewrite (lor_disjoint (Z.b2z c) b 2) by lia.
  destruct d; [|cbn [Z.b2z]; lia].
  change DEEP_DELETE_MASK with (1 * 2 ^ 18). rewrite lor_disjoint; [done|lia|lia].
Qed.

Lemma attributes_u16 b c d : 0 ≤ b < 65536 → attributes_ok b c d = true.
Proof.
  intros Hb. unfold attributes_ok, is_composite, deep_delete. rewrite (attributes_new_sum b c d Hb).
  assert (0 ≤ Z.b2z c < 2 ∧ 0 ≤ Z.b2z d < 2) as [Hc Hd] by (destruct c, d; cbn; lia).
  rewrite Z.shiftr_div_pow2 by lia.
  change 0xFFFF with (Z.ones 16). change 0x3 with (Z.ones 2). rewrite !Z.land_ones by lia.
  replace ((Z.b2z c + b * 2 ^ 2 + Z.b2z d * 2 ^ 18) / 2 ^ 2 mod 2 ^ 16) with b by (Z.div_mod_to_equations; lia).
  replace ((Z.b2z c + b * 2 ^ 2 + Z.b2z d * 2 ^ 18) mod 2 ^ 2) with (Z.b2z c) by (Z.div_mod_to_equations; lia).
  rewrite <- (lor_disjoint (Z.b2z c + b * 2 ^ 2)) by lia.
  rewrite Z.land_lor_distr_l. change DEEP_DELETE_MASK with (1 * 2 ^ 18) at 1.
  rewrite (land_disjoint (Z.b2z c + b * 2 ^ 2)) by lia. rewrite Z.eqb_refl. by destruct c, d.
Qed.

(** *** Keys *)

Lemma object_key_spec id : object_key id = rev (hex08 id) ++ SLASH :: str "DEFAULT" ++ SLASH :: dec id.
Proof. done. Qed.

Lemma object_key_last id : is_u64 id → last (split_on SLASH (object_key id)) = Some (dec id).
Proof.
  intros Hid. rewrite object_key_spec, app_comm_cons, app_assoc.
  destruct (split_on_app_last SLASH (rev (hex08 id) ++ SLASH :: str "DEFAULT") (dec id)) as (ps & -> & _);
    [by apply dec_no_sep|]. apply last_snoc.
Qed.

Lemma object_key_inj a b : is_u64 a → is_u64 b → object_key a = object_key b → a = b.
Proof.
  intros Ha Hb E. apply (f_equal (λ k, last (split_on SLASH k))) in E.
  rewrite !object_key_last in E by done. injection E as E.
  apply (f_equal parse_u64) in E. rewrite !parse_u64_dec in E by done. congruence.
Qed.

(** *** Index entries *)

Definition wf_index (e : DataBlockIndex) : Prop :=
  is_u64 (bi_stream_id e) ∧ is_u64 (bi_start_offset e) ∧ is_u32 (bi_end_offset_delta e)
  ∧ is_u32 (bi_record_count e) ∧ is_u64 (bi_start_position e) ∧ is_u32 (bi_size e).

(** The reader numbers the entries. *)
Definition with_id (i : Z) (e : DataBlockIndex) : DataBlockIndex :=
  {| bi_block_id := i; bi_stream_id := bi_stream_id e; bi_start_offset := bi_start_offset e;
     bi_end_offset_delta := bi_end_offset_delta e; bi_record_count := bi_record_count e;
     bi_start_position := bi_start_position e; bi_size := bi_size e |}.

Definition numbered (es : IndexBlock) : IndexBlock := imap (λ i e, with_id (Z.of_nat i) e) es.

Lemma length_index_encode e : length (index_encode e) = BLOCK_INDEX_SIZE.
Proof. unfold index_encode. by rewrite !length_app, !length_be. Qed.

Lemma index_decode_encode i e rest :
  wf_index e → index_decode i (index_encode e ++ rest) = Ok (with_id i e).
Proof.
  intros (?&?&?&?&?&?). unfold index_decode. rewrite length_app, length_index_encode.
  if_false. unfold index_encode. rewrite <- !app_assoc. read_fields.
  by rewrite !u64_small, !u32_small.
Qed.

Lemma length_index_block_encode es : length (index_block_encode es) = (length es * BLOCK_INDEX_SIZE)%nat.
Proof.
  unfold index_block_encode. induction es as [|e es IH]; [done|].
  cbn [fmap list_fmap concat]. rewrite length_app, IH, length_index_encode. done.
Qed.

Lemma parse_entries_encode es pre i :
  Forall wf_index es → length pre = (i * BLOCK_INDEX_SIZE)%nat →
  Z.of_nat (i + length es) < 2 ^ 31 →
  parse_entries (length es) i (pre ++ index_block_encode es)
  = Ok (imap (λ k e, with_id (Z.of_nat (i + k)) e) es).
Proof.
  revert pre i; induction es as [|e es IH]; intros pre i Hf Hp Hn; [done|].
  inversion Hf as [|?? He Hf']; subst. cbn [length parse_entries].
  change (index_block_encode (e :: es)) with (index_encode e ++ index_block_encode es).
  rewrite drop_app_ge by lia. rewrite Hp, Nat.sub_diag, drop_0.
  rewrite index_decode_encode by done. cbn [length] in Hn.
  rewrite i32_small by int_lia. rewrite app_assoc, (IH (pre ++ index_encode e) (S i)); [|done| |lia].
  - f_equal. cbn [imap]. f_equal; [f_equal; lia|]. apply imap_ext. intros k x _. unfold compose. f_equal. lia.
  - rewrite length_app, Hp, length_index_encode. unfold BLOCK_INDEX_SIZE. lia.
Qed.

Lemma index_block_parse_encode es :
  Forall wf_index es → len es < 2 ^ 31 → index_block_parse (index_block_encode es) = Ok (numbered es).
Proof.
  intros Hf Hn. unfold index_block_parse. rewrite length_index_block_encode.
  rewrite Nat2Z.inj_mul, Z.mod_mul by done. cbn [Z.eqb negb].
  rewrite Nat.div_mul by done. by apply (parse_entries_encode es []).
Qed.

(** *** The search *)

(** As written: streams in order, a stream's ranges in order and disjoint. *)
Definition idx_before (a b : DataBlockIndex) : Prop :=
  bi_stream_id a < bi_stream_id b
  ∨ (bi_stream_id a = bi_stream_id b ∧ bi_end_offset a ≤ bi_start_offset b).
Definition sorted_index (es : IndexBlock) : Prop :=
  StronglySorted idx_before es ∧ Forall (λ e, bi_start_offset e < bi_end_offset e) es.

Definition contains (s o : Z) (e : DataBlockIndex) : Prop :=
  bi_stream_id e = s ∧ bi_start_offset e ≤ o < bi_end_offset e.
Definition less (s o : Z) (e : DataBlockIndex) : Prop :=
  bi_stream_id e < s ∨ (bi_stream_id e = s ∧ bi_end_offset e ≤ o).
Definition greater (s o : Z) (e : DataBlockIndex) : Prop :=
  s < bi_stream_id e ∨ (bi_stream_id e = s ∧ o < bi_start_offset e).

Lemma sorted_lookup es i j a b :
  sorted_index es → (i < j)%nat → es !! i = Some a → es !! j = Some b → idx_before a b.
Proof. intros [Hs _] ? Ha Hb. by eapply (StronglySorted_lookup _ _ i j). Qed.

Lemma sorted_nonempty es i e : sorted_index es → es !! i = Some e → bi_start_offset e < bi_end_offset e.
Proof. intros [_ Hf] Hi. rewrite Forall_lookup in Hf. by eapply Hf. Qed.

Lemma less_down es s o i j a b :
  sorted_index es → (i < j)%nat → es !! i = Some a → es !! j = Some b → less s o b → less s o a.
Proof.
  intros Hs Hij Ha Hb. pose proof (sorted_lookup _ _ _ _ _ Hs Hij Ha Hb).
  pose proof (sorted_nonempty _ _ _ Hs Hb). unfold less, idx_before in *. lia.
Qed.

Lemma greater_up es s o i j a b :
  sorted_index es → (i < j)%nat → es !! i = Some a → es !! j = Some b → greater s o a → greater s o b.
Proof.
  intros Hs Hij Ha Hb. pose proof (sorted_lookup _ _ _ _ _ Hs Hij Ha Hb).
  pose proof (sorted_nonempty _ _ _ Hs Ha). unfold greater, idx_before in *. lia.
Qed.

Lemma search_loop_spec fuel lo hi es s o :
  sorted_index es → 0 ≤ lo → hi < len es → lo ≤ hi + 1 → hi - lo + 1 < Z.of_nat fuel →
  (∀ i e, es !! i = Some e → Z.of_nat i < lo → less s o e) →
  (∀ i e, es !! i = Some e → hi < Z.of_nat i → greater s o e) →
  match search_loop fuel lo hi es s o with
  | inl i => 0 ≤ i ∧ ∃ e, es !! Z.to_nat i = Some e ∧ contains s o e
  | inr _ => ∀ e, e ∈ es → ¬ contains s o e
  end.
Proof.
  intros Hs. revert lo hi. induction fuel as [|fuel IH]; intros lo hi Hlo Hhi Hle Hfuel Hl Hg; [lia|].
  cbn [search_loop]. destruct (lo <=? hi) eqn:Elh.
  - rewrite Z.quot_div_nonneg by lia.
    assert (lo ≤ (lo + hi) / 2 ≤ hi) as Hm by (Z.div_mod_to_equations; lia).
    set (mid := (lo + hi) / 2) in *.
    destruct (es !! Z.to_nat mid) as [e|] eqn:Ee.
    2: { apply lookup_ge_None in Ee. lia. }
    destruct ((bi_stream_id e <? s) || ((bi_stream_id e =? s) && (bi_end_offset e <=? o))) eqn:E1.
    { assert (less s o e) by (unfold less; lia). apply IH; try lia; [|done].
      intros i x Hi Him. destruct (decide (i = Z.to_nat mid)) as [->|]; [by simplify_eq|].
      eapply less_down; [done| |done|exact Ee|done]. lia. }
    destruct ((s <? bi_stream_id e) || ((bi_stream_id e =? s) && (o <? bi_start_offset e))) eqn:E2.
    { assert (greater s o e) by (unfold greater; lia). apply IH; try lia; [done|].
      intros i x Hi Him. destruct (decide (i = Z.to_nat mid)) as [->|]; [by simplify_eq|].
      eapply greater_up; [done| |exact Ee|done|done]. lia. }
    split; [lia|]. exists e. split; [done|]. unfold contains. lia.
  - intros e [i Hi]%list_elem_of_lookup Hc.
    destruct (decide (Z.of_nat i < lo)) as [H|H].
    + specialize (Hl _ _ Hi H). unfold less, contains in *. lia.
    + specialize (Hg _ _ Hi ltac:(lia)). unfold greater, contains in *. lia.
Qed.

Lemma search_spec es s o :
  sorted_index es →
  match search es s o with
  | inl i => 0 ≤ i ∧ ∃ e, es !! Z.to_nat i = Some e ∧ contains s o e
  | inr _ => ∀ e, e ∈ es → ¬ contains s o e
  end.
Proof.
  intros Hs. apply search_loop_spec; [done|lia..| |].
  - intros i e _ ?. lia.
  - intros i e Hi%lookup_lt_Some ?. lia.
Qed.

(** *** The range lookup *)

(** A run of consecutive blocks of [s] from [o] to [o']. *)
Fixpoint covers (s o : Z) (bs : list DataBlockIndex) (o' : Z) : Prop :=
  match bs with
  | [] => o = o'
  | b :: bs' => contains s o b ∧ covers s (bi_end_offset b) bs' o'
  end.

Lemma covers_snoc s o bs o1 b :
  covers s o bs o1 → contains s o1 b → covers s o (bs ++ [b]) (bi_end_offset b).
Proof.
  revert o; induction bs as [|x bs IH]; intros o; cbn.
  - intros ->. auto.
  - intros [? ?] ?. auto.
Qed.

(** Entries of [es] only get added in their order, each starting where the previous ended. *)
Lemma find_loop_spec es s start end_ next max matched bs :
  Forall (λ e, bi_start_offset e < bi_end_offset e) es → 0 ≤ max →
  covers s start bs next →
  let r := find_loop es s end_ next max matched bs in
  ∃ new, fi_blocks r = bs ++ new ∧ new `sublist_of` es
    ∧ covers s start (fi_blocks r) (fi_next_start_offset r)
    ∧ 0 ≤ fi_next_max_bytes r ≤ max
    ∧ (fi_fulfilled r = true →
         (end_ ≠ NOOP_OFFSET ∧ end_ ≤ fi_next_start_offset r) ∨ fi_next_max_bytes r = 0).
Proof.
  revert next max matched bs. induction es as [|e es IH]; intros next max matched bs Hf Hmax Hc; cbn.
  { exists []. rewrite app_nil_r. split_and!; [done..|lia|lia|done]. }
  inversion Hf as [|?? He Hf']; subst.
  assert (∀ m bs, (0 ≤ m ≤ max) → covers s start bs next → 
    let r := {| fi_fulfilled := false; fi_next_start_offset := next; fi_next_max_bytes := m; fi_blocks := bs |} in
    ∃ new, fi_blocks r = bs ++ new ∧ new `sublist_of` e :: es
    ∧ covers s start (fi_blocks r) (fi_next_start_offset r)
    ∧ 0 ≤ fi_next_max_bytes r ≤ max
    ∧ (fi_fulfilled r = true →
         (end_ ≠ NOOP_OFFSET ∧ end_ ≤ fi_next_start_offset r) ∨ fi_next_max_bytes r = 0)) as Hstop.
  { intros m l Hm Hl. exists []. cbn. rewrite app_nil_r. split_and!; [done|apply sublist_nil_l|done|lia|lia|done]. }
  destruct (bi_stream_id e =? s) eqn:Es.
  2: { destruct matched; [by apply Hstop|].
       destruct (IH next max false bs Hf' Hmax Hc) as (new & ? & ? & ? & ? & ?).
       exists new. split_and!; auto; try lia. by apply sublist_cons. }
  destruct (next <? bi_start_offset e) eqn:E1; [by apply Hstop|].
  destruct (bi_end_offset e <=? next) eqn:E2.
  { destruct (IH next max matched bs Hf' Hmax Hc) as (new & ? & ? & ? & ? & ?).
    exists new. split_and!; auto; try lia. by apply sublist_cons. }
  set (max' := if next =? bi_start_offset e then _ else max).
  assert (0 ≤ max' ≤ max) as Hm' by (subst max'; case_match; unfold sat_sub; lia).
  assert (covers s start (bs ++ [e]) (bi_end_offset e)) as Hc'.
  { eapply covers_snoc; [exact Hc|]. unfold contains. lia. }
  destruct ((negb (end_ =? NOOP_OFFSET) && (end_ <=? bi_end_offset e)) || (max' =? 0)) eqn:E3; cbn.
  - exists [e]. split_and!; [done|apply sublist_skip, sublist_nil_l|done|lia|lia|].
    intros _. destruct (max' =? 0) eqn:E4; [right; lia|left]. lia.
  - destruct (IH (bi_end_offset e) max' (next =? bi_start_offset e) (bs ++ [e]) Hf' ltac:(lia) Hc')
      as (new & Hb & Hsub & ? & ? & ?).
    exists (e :: new). split_and!; auto; try lia.
    + rewrite Hb, <- app_assoc. done.
    + by apply sublist_skip.
Qed.

Lemma find_loop_mono es s end_ next max matched bs :
  next ≤ fi_next_start_offset (find_loop es s end_ next max matched bs).
Proof.
  revert next max matched bs; induction es as [|e es IH]; intros next max matched bs; cbn; [lia|].
  repeat case_match; cbn; try lia; try apply IH.
  all: etrans; [|apply IH]; lia.
Qed.

(** The block that contains the start is returned. *)
Lemma find_loop_first e es s start end_ max matched :
  contains s start e → fi_blocks (find_loop (e :: es) s end_ start max matched []) ≠ [].
Proof.
  intros (Hstr & Hlo & Hhi). cbn. rewrite Hstr, Z.eqb_refl.
  replace (start <? bi_start_offset e) with false by lia.
  replace (bi_end_offset e <=? start) with false by lia.
  assert (∀ l n m k bs, bs ≠ [] → fi_blocks (find_loop l s end_ n m k bs) ≠ []) as Hne.
  { induction l as [|x l IH]; intros n m k bs Hbs; cbn; [done|].
    assert (bs ++ [x] ≠ []) by (intros Hn; by apply app_nil in Hn as [_ ?]).
    repeat case_match; cbn; try done; by apply IH. }
  case_match; cbn; [done|]. by apply Hne.
Qed.

(** When the lookup stops unfulfilled, nothing in the index continues it. *)
Lemma find_loop_complete es s end_ next max matched bs :
  StronglySorted idx_before es → Forall (λ e, bi_start_offset e < bi_end_offset e) es →
  (matched = true → Forall (λ e, s ≤ bi_stream_id e) es) →
  fi_fulfilled (find_loop es s end_ next max matched bs) = false →
  ∀ e, e ∈ es → ¬ contains s (fi_next_start_offset (find_loop es s end_ next max matched bs)) e.
Proof.
  revert next max matched bs; induction es as [|e es IH]; intros next max matched bs Hs Hf Hm Hu x Hx.
  { by apply not_elem_of_nil in Hx. }
  pose proof Hs as [Hall Hs']%StronglySorted_cons. pose proof Hf as [Hne Hf']%Forall_cons.
  rewrite Forall_forall in Hall. pose proof (Hall x) as He.
  cbn in Hu |- *. destruct (bi_stream_id e =? s) eqn:Es.
  - destruct (next <? bi_start_offset e) eqn:E1; cbn.
    { apply elem_of_cons in Hx as [->|Hx]; unfold contains; [lia|]. specialize (He Hx). unfold idx_before in He. lia. }
    assert (Forall (λ e0, s ≤ bi_stream_id e0) es) as Hge.
    { apply Forall_forall. intros y Hy. specialize (Hall y Hy). unfold idx_before in Hall. lia. }
    destruct (bi_end_offset e <=? next) eqn:E2.
    + apply elem_of_cons in Hx as [->|Hx]; [|by apply IH; auto].
      pose proof (find_loop_mono es s end_ next max matched bs). unfold contains. lia.
    + match goal with |- context [if ?b then _ else _] => destruct b eqn:E3 end; [done|].
      apply elem_of_cons in Hx as [->|Hx]; [|by apply IH; auto].
      match goal with |- context [find_loop es s end_ ?n ?m ?k ?l] => pose proof (find_loop_mono es s end_ n m k l) end.
      unfold contains. lia.
  - destruct matched.
    + cbn. specialize (Hm eq_refl). rewrite Forall_forall in Hm. unfold contains.
      intros [Hx' _]. apply elem_of_cons in Hx as [->|Hx]; [lia|].
      specialize (He Hx). specialize (Hm e ltac:(left)). unfold idx_before in He. lia.
    + apply elem_of_cons in Hx as [->|Hx]; [unfold contains; lia|]. by apply IH.
Qed.

(** *** Data blocks *)

Lemma parse_batches_app rs rest :
  Forall wf_batch rs → parse_batches (length rs) (concat (encoded <$> rs) ++ rest) = Ok (rs, rest).
Proof.
  induction 1 as [|r rs Hr _ IH]; [done|].
  cbn [length parse_batches fmap list_fmap concat]. rewrite <- app_assoc, parse_app by done.
  cbn [map_err]. by rewrite IH.
Qed.

(** What a block must satisfy to be encodable: its counts fit the header. *)
Definition wf_block (rs : list StreamRecordBatch) : Prop :=
  rs ≠ [] ∧ Forall wf_batch rs ∧ len rs < 2 ^ 32 ∧ len (concat (encoded <$> rs)) < 2 ^ 32.

Lemma encode_data_block_spec rs :
  rs ≠ [] →
  encode_data_block rs
  = Some (be 1 DATA_BLOCK_MAGIC ++ be 1 DATA_BLOCK_DEFAULT_FLAG ++ be 4 (u32 (len rs))
            ++ be 4 (u32 (len (concat (encoded <$> rs)))) ++ concat (encoded <$> rs)).
Proof. by destruct rs. Qed.

Lemma decode_blocks_step fuel rs b rest :
  wf_block rs → encode_data_block rs = Some b →
  decode_blocks (S fuel) (b ++ rest) = let? tl := decode_blocks fuel rest in Ok (rs ++ tl).
Proof.
  intros (Hne & Hwf & Hn & Hd) Hb. rewrite encode_data_block_spec in Hb by done.
  apply (inj Some) in Hb as <-. set (data := concat (encoded <$> rs)) in *.
  rewrite <- !app_assoc. set (buf := be 1 _ ++ _).
  assert (len buf = 10 + len data + len rest) as Hlen.
  { subst buf. rewrite !length_app, !length_be. lia. }
  assert (buf ≠ []) as Hbuf by (intros E; rewrite E in Hlen; cbn in Hlen; lia).
  assert (drop BLOCK_HEADER_SIZE buf = data ++ rest) as Hdrop.
  { subst buf. unfold BLOCK_HEADER_SIZE. rewrite !(drop_app_ge (be _ _)) by (rewrite !length_be; lia).
    rewrite !length_be. apply drop_0. }
  assert (read_be 0 1 buf = DATA_BLOCK_MAGIC) as Hmagic.
  { subst buf. rewrite read_be_here by apply length_be. by rewrite unbe_be1. }
  assert (read_be 2 4 buf = len rs) as Hcount.
  { subst buf. read_fields. by rewrite !u32_small by (rewrite ?u32_small; int_lia). }
  assert (read_be 6 4 buf = len data) as Hdl.
  { subst buf. read_fields. by rewrite !u32_small by (rewrite ?u32_small; int_lia). }
  clearbody buf. destruct buf as [|x buf]; [done|]. cbn [decode_blocks].
  rewrite Hmagic, Hcount, Hdl, Hdrop, Hlen. unfold BLOCK_HEADER_SIZE.
  if_false. rewrite Z.eqb_refl. cbn [negb]. if_false.
  assert (takeZ (len data) (data ++ rest) = data) as Ht.
  { by rewrite takeZ_take, Nat2Z.id, take_app_length. }
  rewrite Ht.
  assert (dropZ (len data) (data ++ rest) = rest) as Hr.
  { unfold dropZ. by rewrite Nat2Z.id, drop_app_length. }
  rewrite Hr, Nat2Z.id. rewrite <- (app_nil_r data). subst data.
  by rewrite parse_batches_app.
Qed.

Lemma encode_data_block_len rs b : encode_data_block rs = Some b → (0 < length b)%nat.
Proof.
  intros Hb. destruct rs as [|r rs]; [done|]. rewrite encode_data_block_spec in Hb by done.
  apply (inj Some) in Hb as <-. rewrite length_app, length_be. lia.
Qed.

Lemma decode_blocks_concat fuel groups blocks :
  Forall wf_block groups → mapM encode_data_block groups = Some blocks →
  (length (concat blocks) ≤ fuel)%nat →
  decode_blocks fuel (concat blocks) = Ok (concat groups).
Proof.
  revert fuel blocks; induction groups as [|g gs IH]; intros fuel blocks Hwf Hm Hfuel; cbn in Hm.
  { injection Hm as <-. by destruct fuel. }
  inversion Hwf as [|?? Hg Hgs]; subst.
  destruct (encode_data_block g) as [b|] eqn:Eb; cbn in Hm; [|done].
  destruct (mapM encode_data_block gs) as [bs|] eqn:Ebs; cbn in Hm; [|done].
  injection Hm as <-. pose proof (encode_data_block_len _ _ Eb). cbn [concat] in *.
  rewrite length_app in Hfuel. destruct fuel as [|fuel]; [lia|].
  rewrite (decode_blocks_step _ g) by done. rewrite (IH fuel bs); [done|done|done|lia].
Qed.

(** ** Properties *)

(** Packed attributes give back the bucket, the composite bit and the deep-delete
    mark they were built from, and object ids have distinct storage keys. *)
Theorem object_identity a b bucket composite deep :
  is_i16 bucket → is_u64 a → is_u64 b →
  let at_ := attributes_new bucket composite deep in
  attributes_bucket_id at_ = bucket ∧ is_composite at_ = composite ∧ deep_delete at_ = deep
  ∧ (object_key a = object_key b ↔ a = b).
Proof.
  intros Hk Ha Hb at_. pose proof (attributes_u16 (u16 bucket) composite deep ltac:(int_lia)) as H.
  unfold attributes_ok in H.
  assert (attributes_new (u16 bucket) composite deep = at_) as E.
  { unfold at_, attributes_new. assert (u16 (u16 bucket) = u16 bucket) as -> by int_lia. done. }
  rewrite E in H. rewrite !andb_true_iff, Z.eqb_eq, !Bool.eqb_true_iff in H. destruct H as [[H1 H2] H3].
  split_and!; [|done..|split; [by apply object_key_inj|congruence]].
  unfold attributes_bucket_id. rewrite H1, i16_u16. by apply i16_small.
Qed.

Lemma object_identity_witness :
  attributes_bucket_id (attributes_new (-2) true true) = -2 ∧ object_key 1 ≠ object_key 16.
Proof.
  destruct (object_identity 1 16 (-2) true true) as (Hb & _ & _ & Hk); [vm_compute; intuition discriminate..|].
  split; [exact Hb|]. intros E. apply Hk in E. discriminate E.
Defined.

(** Looking up a range in a sorted index: the binary search decides whether a block
    contains the start offset; if none does the answer is empty. Otherwise the blocks
    returned are entries of the index that cover the stream from the start offset on
    without a gap, up to the reported next offset; a fulfilled answer reached the
    requested end or spent the byte budget, and an unfulfilled one stopped where the
    index has no further block for the stream. *)
Theorem index_find_covers es s start end_ max :
  sorted_index es → 0 ≤ max →
  let r := find es s start end_ max in
  (fi_blocks r = [] ↔ ∀ e, e ∈ es → ¬ contains s start e)
  ∧ fi_blocks r `sublist_of` es
  ∧ covers s start (fi_blocks r) (fi_next_start_offset r)
  ∧ 0 ≤ fi_next_max_bytes r ≤ max
  ∧ (fi_fulfilled r = true →
       (end_ ≠ NOOP_OFFSET ∧ end_ ≤ fi_next_start_offset r) ∨ fi_next_max_bytes r = 0)
  ∧ (fi_fulfilled r = false → ∀ e, e ∈ es → ¬ contains s (fi_next_start_offset r) e).
Proof.
  intros Hs Hmax r. pose proof (search_spec es s start Hs) as Hsearch. subst r. unfold find.
  destruct (search es s start) as [i|i].
  2: { cbn. split_and!; [done|apply sublist_nil_l|done|lia|lia|done|done]. }
  destruct Hsearch as (Hi & e & He & Hc). pose proof Hs as [Hss Hf].
  unfold dropZ. rewrite (drop_S _ _ _ He).
  set (tl := drop (S (Z.to_nat i)) es).
  assert (es = take (Z.to_nat i) es ++ e :: tl) as Esplit by (unfold tl; by rewrite take_drop_middle).
  assert (StronglySorted idx_before (e :: tl) ∧ Forall (λ e, bi_start_offset e < bi_end_offset e) (e :: tl)) as [Hst Hft].
  { rewrite Esplit in Hss, Hf. apply StronglySorted_app in Hss as (_ & _ & ?). by apply Forall_app in Hf as [_ ?]. }
  destruct (find_loop_spec (e :: tl) s start end_ start max false [] Hft Hmax eq_refl)
    as (new & Hb & Hsub & Hcov & Hm & Hful). cbv zeta in *.
  pose proof (find_loop_complete (e :: tl) s end_ start max false [] Hst Hft ltac:(done)) as Hcompl.
  pose proof (find_loop_mono (e :: tl) s end_ start max false []) as Hmono.
  set (r := find_loop (e :: tl) s end_ start max false []) in *.
  split_and!; [|rewrite Hb|done|lia|lia|done|].
  - split.
    + intros Hnil. by destruct (find_loop_first e tl s start end_ max false).
    + intros Hn. destruct (Hn e); [|done]. rewrite Esplit. apply elem_of_app. right. left.
  - etrans; [exact Hsub|]. rewrite Esplit. apply sublist_inserts_l. done.
  - intros Hu x Hx. rewrite Esplit in Hx. apply elem_of_app in Hx as [Hx|Hx]; [|by apply Hcompl].
    rewrite Esplit in Hss. apply StronglySorted_app in Hss as (Hcross & _ & _).
    specialize (Hcross x e Hx ltac:(left)). unfold idx_before, contains in *. lia.
Qed.

Lemma index_find_covers_witness :
  let e o d p := {| bi_block_id := 0; bi_stream_id := 7; bi_start_offset := o;
                    bi_end_offset_delta := d; bi_record_count := 1; bi_start_position := p; bi_size := 100 |} in
  let es := [e 0 10 0; e 10 5 100; e 20 5 200] in
  covers 7 3 (fi_blocks (find es 7 3 NOOP_OFFSET 1000)) (fi_next_start_offset (find es 7 3 NOOP_OFFSET 1000))
  ∧ fi_next_start_offset (find es 7 3 NOOP_OFFSET 1000) = 15.
Proof.
  intros e es. split; [|reflexivity].
  apply (index_find_covers es 7 3 NOOP_OFFSET 1000); [|lia].
  split.
  - unfold es. repeat apply SSorted_cons; [apply SSorted_nil|..];
      repeat first [apply Forall_nil_2 | apply Forall_cons_2; [right; split; vm_compute; [reflexivity|discriminate]|]].
  - unfold es. repeat first [apply Forall_nil_2 | apply Forall_cons_2; [vm_compute; reflexivity|]].
Defined.
