(* ===== verification/ObjectIO.v ===== *)
(** * Writing and reading objects

    Models [ObjectWriter] of [s3stream-object/src/writer.rs] and [ObjectReader] of
    [reader.rs], over the storage class.  The multipart writer is what has been
    handed to it: [finish] makes the concatenated parts the object.  A panic
    ([records[0]] of an empty block) is [None]. *)
From S2P Require Import Prelude Collections Codec ObjectStore ObjectFormat.

(** ** ObjectWriter *)

Record ObjectStreamRange : Type := {
  or_stream_id : Z;
  or_epoch : Z;
  or_start_offset : Z;
  or_end_offset : Z;
  or_size : Z;
}.

Record DataBlock : Type := {
  db_encoded : bytes;
  db_stream_id : Z;
  db_epoch : Z;
  db_start_offset : Z;
  db_end_offset : Z;
  db_record_count : Z;
}.

Definition data_block_new (stream_id : Z) (records : list StreamRecordBatch) : option DataBlock :=
  let* enc := encode_data_block records in
  let* r0 := head records in
  let* rn := last records in
  Some {| db_encoded := enc; db_stream_id := stream_id; db_epoch := epoch r0;
          db_start_offset := base_offset r0; db_end_offset := last_offset rn;
          db_record_count := u32 (len records) |}.

Definition db_size (b : DataBlock) : Z := len (db_encoded b).

(** [ow_parts] is what [writer.write] received so far. *)
Record ObjectWriter : Type := mkOW {
  ow_key : bytes;
  ow_parts : list bytes;
  ow_block_size_threshold : Z;
  ow_part_size_threshold : Z;
  ow_waiting : list DataBlock;
  ow_waiting_size : Z;
  ow_completed : list DataBlock;
  ow_group_acc : Z;
  ow_object_size : Z;
  ow_last : option (Z * Z);
}.

Definition ow_open (object_id block_size_threshold part_size_threshold : Z) : ObjectWriter :=
  mkOW (object_key object_id) [] block_size_threshold (Z.max part_size_threshold MIN_PART_SIZE)
    [] 0 [] 0 0 None.

Definition check (stream_id : Z) (records : list StreamRecordBatch) (w : ObjectWriter)
  : result ObjectError (option (Z * Z)) :=
  match head records, last records with
  | Some r0, Some rn =>
      let records_end := last_offset rn in
      match ow_last w with
      | None => Ok (Some (stream_id, records_end))
      | Some (last_stream_id, last_end_offset) =>
          if stream_id <? last_stream_id then Err OE_OrderingViolation
          else if (last_stream_id =? stream_id) && (base_offset r0 <? last_end_offset)
          then Err OE_OrderingViolation
          else Ok (Some (stream_id, records_end))
      end
  | _, _ => Ok (ow_last w)
  end.

(** [group_by_block]: the accumulator survives the call. *)
Fixpoint group_loop (threshold acc : Z) (cur records : list StreamRecordBatch)
  : Z * list (list StreamRecordBatch) :=
  match records with
  | [] => (acc, match cur with [] => [] | _ => [cur] end)
  | r :: rs =>
      let acc := u64 (acc + size r) in
      let cur := cur ++ [r] in
      if threshold <=? acc
      then let '(acc', blocks) := group_loop threshold 0 [] rs in (acc', cur :: blocks)
      else group_loop threshold acc cur rs
  end.

(** How many waiting blocks make a part, and their size. *)
Fixpoint part_prefix (threshold part_size : Z) (blocks : list DataBlock) : nat * Z :=
  match blocks with
  | [] => (O, part_size)
  | b :: bs =>
      let part_size := u64 (part_size + db_size b) in
      if threshold <=? part_size then (1%nat, part_size)
      else let '(n, s) := part_prefix threshold part_size bs in (S n, s)
  end.

(** [try_upload_part]: every round takes at least one waiting block. *)
Fixpoint try_upload_part (fuel : nat) (w : ObjectWriter) : ObjectWriter :=
  match fuel with
  | O => w
  | S fuel' =>
      let '(n, part_size) := part_prefix (ow_part_size_threshold w) 0 (ow_waiting w) in
      if part_size <? ow_part_size_threshold w then w
      else
        let blocks := take n (ow_waiting w) in
        try_upload_part fuel'
          (mkOW (ow_key w) (ow_parts w ++ [concat (db_encoded <$> blocks)])
             (ow_block_size_threshold w) (ow_part_size_threshold w)
             (drop n (ow_waiting w))
             (foldl (λ s b, u64 (s - db_size b)) (ow_waiting_size w) blocks)
             (ow_completed w ++ blocks) (ow_group_acc w) (ow_object_size w) (ow_last w))
  end.

Definition ow_write (stream_id : Z) (records : list StreamRecordBatch) (w : ObjectWriter)
  : option (ObjectWriter * result ObjectError unit) :=
  match check stream_id records w with
  | Err e => Some (w, Err e)
  | Ok last =>
      let '(acc, groups) := group_loop (ow_block_size_threshold w) (ow_group_acc w) [] records in
      let* blocks := mapM (data_block_new stream_id) groups in
      let w := mkOW (ow_key w) (ow_parts w) (ow_block_size_threshold w) (ow_part_size_threshold w)
                 (ow_waiting w ++ blocks)
                 (foldl (λ s b, u64 (s + db_size b)) (ow_waiting_size w) blocks)
                 (ow_completed w) acc (ow_object_size w) last in
      if ow_part_size_threshold w <=? ow_waiting_size w
      then Some (try_upload_part (S (length (ow_waiting w))) w, Ok tt)
      else Some (w, Ok tt)
  end.

(** Index entries, with [id i] as the ordinal: [-1] in [close], [i] in [block_indexes]. *)
Fixpoint index_entries (id : nat → Z) (i : nat) (position : Z) (blocks : list DataBlock)
  : list DataBlockIndex :=
  match blocks with
  | [] => []
  | b :: bs =>
      {| bi_block_id := id i; bi_stream_id := db_stream_id b; bi_start_offset := db_start_offset b;
         bi_end_offset_delta := u32 (u64 (db_end_offset b - db_start_offset b));
         bi_record_count := db_record_count b; bi_start_position := position;
         bi_size := u32 (db_size b) |}
      :: index_entries id (S i) (u64 (position + db_size b)) bs
  end.

Definition footer (index_position index_size magic : Z) : bytes :=
  be 8 index_position ++ be 4 (u32 index_size) ++ replicate 28 0 ++ be 8 magic.

(** [close]: the writer, the object as stored, and its size. *)
Definition ow_close (w : ObjectWriter) : ObjectWriter * bytes :=
  let completed := ow_completed w ++ ow_waiting w in
  let index_buf := index_block_encode (index_entries (λ _, -1) 0 0 completed) in
  let index_position := foldl (λ p b, u64 (p + db_size b)) 0 completed in
  let tail := concat (db_encoded <$> ow_waiting w) ++ index_buf
                ++ footer index_position (len index_buf) FOOTER_MAGIC in
  let parts := ow_parts w ++ [tail] in
  (mkOW (ow_key w) parts (ow_block_size_threshold w) (ow_part_size_threshold w)
     [] 0 completed (ow_group_acc w)
     (u64 (index_position + len index_buf + Z.of_nat FOOTER_SIZE)) (ow_last w), concat parts).

(** [stream_ranges]: consecutive blocks of a stream merge. *)
Fixpoint merge_ranges (cur : option ObjectStreamRange) (blocks : list DataBlock) : list ObjectStreamRange :=
  match blocks with
  | [] => match cur with Some r => [r] | None => [] end
  | b :: bs =>
      let fresh := {| or_stream_id := db_stream_id b; or_epoch := db_epoch b;
                      or_start_offset := db_start_offset b; or_end_offset := db_end_offset b;
                      or_size := db_size b |} in
      match cur with
      | Some r =>
          if or_stream_id r =? db_stream_id b
          then merge_ranges (Some {| or_stream_id := or_stream_id r; or_epoch := or_epoch r;
                                     or_start_offset := or_start_offset r;
                                     or_end_offset := db_end_offset b;
                                     or_size := u64 (or_size r + db_size b) |}) bs
          else r :: merge_ranges (Some fresh) bs
      | None => merge_ranges (Some fresh) bs
      end
  end.
Definition stream_ranges (w : ObjectWriter) : list ObjectStreamRange := merge_ranges None (ow_completed w).

Definition block_indexes (w : ObjectWriter) : list DataBlockIndex :=
  index_entries (λ i, i32 (Z.of_nat i)) 0 0 (ow_completed w).

(** ** ObjectReader *)

Record BasicObjectInfo : Type := {
  boi_data_block_size : Z;
  boi_index_block : IndexBlock;
}.

Section Reader.
Context {S : Type} `{!ObjectStorage S}.

Definition basic_object_info (s : S) (key : bytes) (object_size : Z) : result ObjectError BasicObjectInfo :=
  if object_size <? Z.of_nat FOOTER_SIZE then Err OE_InvalidFormat
  else
    let? footer := os_range_read s key (object_size - Z.of_nat FOOTER_SIZE) (Some object_size) in
    if negb (len footer =? Z.of_nat FOOTER_SIZE) then Err OE_InvalidFormat
    else if negb (read_be 40 8 footer =? FOOTER_MAGIC) then Err OE_InvalidFormat
    else
      let index_position := read_be 0 8 footer in
      let index_size := read_be 8 4 footer in
      if negb (u64 (index_position + index_size + Z.of_nat FOOTER_SIZE) =? object_size)
      then Err OE_InvalidFormat
      else
        let? index_bytes :=
          os_range_read s key index_position (Some (u64 (index_position + index_size))) in
        let? index_block := index_block_parse index_bytes in
        Ok {| boi_data_block_size := index_position; boi_index_block := index_block |}.

Definition reader_find (s : S) (key : bytes) (object_size stream_id start_offset end_offset max_bytes : Z)
  : result ObjectError FindIndexResult :=
  let? info := basic_object_info s key object_size in
  Ok (find (boi_index_block info) stream_id start_offset end_offset max_bytes).

Definition read_block (s : S) (key : bytes) (index : DataBlockIndex) : result ObjectError bytes :=
  os_range_read s key (bi_start_position index) (Some (bi_end_position index)).
End Reader.

(** ** The writer's blocks *)

Definition ow_blocks (w : ObjectWriter) : list DataBlock := ow_completed w ++ ow_waiting w.

(** What was handed to the multipart writer is the completed blocks. *)
Definition parts_ok (w : ObjectWriter) : Prop :=
  concat (ow_parts w) = concat (db_encoded <$> ow_completed w).

Lemma try_upload_blocks fuel w :
  ow_blocks (try_upload_part fuel w) = ow_blocks w
  ∧ (parts_ok w → parts_ok (try_upload_part fuel w))
  ∧ ow_last (try_upload_part fuel w) = ow_last w ∧ ow_key (try_upload_part fuel w) = ow_key w.
Proof.
  revert w; induction fuel as [|fuel IH]; intros w; cbn; [done|].
  destruct (part_prefix _ _ _) as [n sz]. case_match; [done|].
  match goal with |- context [try_upload_part fuel ?x] => destruct (IH x) as (E & Hp & El & Ek) end.
  rewrite E, El, Ek. split_and!; [|intros Hw; apply Hp|done..].
  - unfold ow_blocks; cbn. by rewrite <- app_assoc, take_drop.
  - unfold parts_ok in *; cbn. rewrite !concat_app, fmap_app, concat_app, Hw. cbn. by rewrite app_nil_r.
Qed.

Lemma group_loop_spec thr acc cur rs :
  concat (group_loop thr acc cur rs).2 = cur ++ rs ∧ Forall (λ g, g ≠ []) (group_loop thr acc cur rs).2.
Proof.
  revert acc cur; induction rs as [|r rs IH]; intros acc cur; cbn.
  - destruct cur; cbn; [done|]. rewrite !app_nil_r. split; [done|]. by constructor.
  - case_match.
    + destruct (IH 0 []) as [E Hf]. destruct (group_loop thr 0 [] rs) as [a bs]; cbn in *.
      rewrite E, <- app_assoc. split; [done|]. constructor; [|done].
      intros E'. by apply app_nil in E' as [_ ?].
    + destruct (IH (u64 (acc + size r)) (cur ++ [r])) as [E Hf]. rewrite E, <- app_assoc. done.
Qed.

(** A block and the records it was made of. *)
Definition block_of (s : Z) (g : list StreamRecordBatch) (b : DataBlock) : Prop :=
  data_block_new s g = Some b.

(** A successful write appends its records, cut into blocks. *)
Lemma ow_write_spec s rs w w' :
  parts_ok w → ow_write s rs w = Some (w', Ok tt) →
  parts_ok w' ∧ check s rs w = Ok (ow_last w') ∧ ow_key w' = ow_key w
  ∧ ∃ groups blocks, concat groups = rs ∧ Forall2 (block_of s) groups blocks
      ∧ Forall (λ g, g ≠ []) groups ∧ ow_blocks w' = ow_blocks w ++ blocks.
Proof.
  intros Hp Hw. unfold ow_write in Hw. destruct (check s rs w) as [l|e] eqn:Ec; [|done].
  destruct (group_loop_spec (ow_block_size_threshold w) (ow_group_acc w) [] rs) as [Eg Hne].
  destruct (group_loop _ _ [] rs) as [acc groups]; cbn in Eg, Hne.
  destruct (mapM (data_block_new s) groups) as [blocks|] eqn:Em; [|done].
  apply mapM_Some in Em. cbv zeta in Hw.
  match type of Hw with context [mkOW ?a ?b ?c ?d ?e ?f ?g ?h ?i ?j] =>
    set (w1 := mkOW a b c d e f g h i j) in Hw end.
  assert (ow_blocks w1 = ow_blocks w ++ blocks ∧ parts_ok w1 ∧ ow_last w1 = l ∧ ow_key w1 = ow_key w) as (E1 & P1 & L1 & K1).
  { subst w1. unfold ow_blocks; cbn. by rewrite app_assoc. }
  case_match; simplify_eq.
  - destruct (try_upload_blocks (S (length (ow_waiting w1))) w1) as (E & P & L & K).
    rewrite L, K. split_and!; [by apply P|congruence|done|].
    exists groups, blocks. rewrite E. by split_and!.
  - split_and!; [done|congruence|done|]. exists groups, blocks. by split_and!.
Qed.

(** A sequence of successful writes. *)
Fixpoint ow_writes (ops : list (Z * list StreamRecordBatch)) (w : ObjectWriter) : option ObjectWriter :=
  match ops with
  | [] => Some w
  | (s, rs) :: ops' =>
      match ow_write s rs w with
      | Some (w', Ok _) => ow_writes ops' w'
      | _ => None
      end
  end.

(** The records of a list of (stream, records) pairs, tagged. *)
Definition tagged (ops : list (Z * list StreamRecordBatch)) : list (Z * StreamRecordBatch) :=
  ops ≫= λ p, (p.1,.) <$> p.2.

Lemma tagged_groups s (gs : list (list StreamRecordBatch)) :
  tagged ((s,.) <$> gs) = (s,.) <$> concat gs.
Proof.
  unfold tagged. induction gs as [|g gs IH]; [done|]. cbn. by rewrite IH, fmap_app.
Qed.

Lemma ow_writes_spec ops w w' :
  parts_ok w → ow_writes ops w = Some w' →
  parts_ok w' ∧ ow_key w' = ow_key w
  ∧ ∃ groups blocks, tagged groups = tagged ops
      ∧ Forall2 (λ p b, block_of p.1 p.2 b) groups blocks
      ∧ Forall (λ p, p.2 ≠ []) groups
      ∧ ow_blocks w' = ow_blocks w ++ blocks.
Proof.
  revert w; induction ops as [|[s rs] ops IH]; intros w Hp Hw; cbn in Hw.
  { simplify_eq. split_and!; [done..|]. exists [], []. rewrite app_nil_r. split_and!; [done|constructor..|done]. }
  destruct (ow_write s rs w) as [[w1 [[]|]]|] eqn:E1; try done.
  destruct (ow_write_spec _ _ _ _ Hp E1) as (P1 & _ & K1 & gs & bs & Eg & F & Hne & Eb).
  destruct (IH w1 P1 Hw) as (P2 & K2 & gs' & bs' & Et & F' & Hne' & Eb').
  split_and!; [done|congruence|].
  exists (((s,.) <$> gs) ++ gs'), (bs ++ bs'). split_and!.
  - unfold tagged in *. rewrite bind_app. fold (tagged ((s,.) <$> gs)).
    rewrite tagged_groups, Eg, Et. done.
  - apply Forall2_app; [|done]. rewrite Forall2_fmap_l. done.
  - apply Forall_app. split; [|done]. rewrite Forall_fmap. done.
  - rewrite Eb', Eb, app_assoc. done.
Qed.

(** ** What the reader finds *)

Fixpoint total_size (blocks : list DataBlock) : Z :=
  match blocks with
  | [] => 0
  | b :: bs => db_size b + total_size bs
  end.

Lemma total_size_nonneg bs : 0 ≤ total_size bs.
Proof. induction bs; cbn; unfold db_size; lia. Qed.

Lemma total_size_app l l' : total_size (l ++ l') = total_size l + total_size l'.
Proof. induction l; cbn; lia. Qed.

Lemma total_size_concat bs : len (concat (db_encoded <$> bs)) = total_size bs.
Proof. induction bs as [|b bs IH]; [done|]. cbn. rewrite length_app. unfold db_size. lia. Qed.

Lemma index_position_spec p bs :
  0 ≤ p → p + total_size bs < 2 ^ 64 → foldl (λ p b, u64 (p + db_size b)) p bs = p + total_size bs.
Proof.
  revert p; induction bs as [|b bs IH]; intros p Hp Ht; cbn in *; [lia|].
  pose proof (total_size_nonneg bs). unfold db_size in *.
  rewrite u64_small by int_lia. rewrite IH; lia.
Qed.

(** Entry [i] points at block [i]. *)
Lemma index_entries_lookup id i p bs k e :
  0 ≤ p → p + total_size bs < 2 ^ 64 →
  index_entries id i p bs !! k = Some e →
  ∃ b, bs !! k = Some b ∧ bi_block_id e = id (i + k)%nat ∧ bi_stream_id e = db_stream_id b
    ∧ bi_start_offset e = db_start_offset b
    ∧ bi_end_offset_delta e = u32 (u64 (db_end_offset b - db_start_offset b))
    ∧ bi_record_count e = db_record_count b ∧ bi_size e = u32 (db_size b)
    ∧ bi_start_position e = p + total_size (take k bs).
Proof.
  revert i p k; induction bs as [|b bs IH]; intros i p k Hp Ht Hk; [done|].
  cbn in Ht. pose proof (total_size_nonneg bs). cbn in Hk.
  destruct k as [|k]; cbn in Hk.
  - simplify_eq. exists b. cbn. rewrite Nat.add_0_r. split_and!; [done..|lia].
  - unfold db_size in *. rewrite u64_small in Hk by int_lia.
    destruct (IH (S i) (p + len (db_encoded b)) k ltac:(lia) ltac:(lia) Hk) as (b' & ? & ? & ? & ? & ? & ? & ? & Hpos).
    exists b'. split_and!; [done| |done..|].
    + rewrite <- Nat.add_succ_comm. done.
    + rewrite Hpos. cbn. unfold db_size. lia.
Qed.

Lemma length_index_entries id i p bs : length (index_entries id i p bs) = length bs.
Proof. revert i p; induction bs as [|b bs IH]; intros i p; cbn; [done|]. by rewrite IH. Qed.

Lemma index_entries_numbered p bs id :
  imap (λ k e, with_id (id k) e) (index_entries (λ _, -1) 0 p bs) = index_entries id 0 p bs.
Proof.
  assert (∀ i p, imap (λ k e, with_id (id (i + k)%nat) e) (index_entries (λ _, -1) i p bs) = index_entries id i p bs) as H.
  { induction bs as [|b bs IH]; intros i q; [done|]. cbn. f_equal.
    - unfold with_id; cbn. by rewrite Nat.add_0_r.
    - rewrite <- (IH (S i)). apply imap_ext. intros k x _. unfold compose. by rewrite <- Nat.add_succ_comm. }
  apply (H 0%nat p).
Qed.

Lemma ow_close_data w :
  parts_ok w →
  let index := index_block_encode (index_entries (λ _, -1) 0 0 (ow_blocks w)) in
  (ow_close w).2 = concat (db_encoded <$> ow_blocks w) ++ index
    ++ footer (foldl (λ p b, u64 (p + db_size b)) 0 (ow_blocks w)) (len index) FOOTER_MAGIC
  ∧ ow_completed (ow_close w).1 = ow_blocks w ∧ ow_key (ow_close w).1 = ow_key w.
Proof.
  intros Hp index. unfold ow_close; cbn. fold (ow_blocks w). fold index.
  rewrite concat_app, Hp. cbn. rewrite app_nil_r. split_and!; [|done..].
  unfold ow_blocks at 2. rewrite fmap_app, concat_app. by rewrite <- app_assoc.
Qed.

Lemma len_footer p n m : length (footer p n m) = FOOTER_SIZE.
Proof. unfold footer. by rewrite !length_app, !length_be, length_replicate. Qed.

(** The blocks of an object whose fields fit their widths. *)
Definition fits (blocks : list DataBlock) : Prop :=
  total_size blocks + len blocks * 36 + 48 < 2 ^ 64 ∧ len blocks * 36 < 2 ^ 32
  ∧ Forall (λ b, is_u64 (db_stream_id b) ∧ is_u64 (db_start_offset b) ∧ is_u32 (db_record_count b)
                 ∧ db_size b < 2 ^ 32) blocks.

Lemma index_entries_wf id blocks : fits blocks → Forall wf_index (index_entries id 0 0 blocks).
Proof.
  intros (Ht & _ & Hf). apply Forall_lookup. intros k e Hk.
  destruct (index_entries_lookup id 0 0 blocks k e (Z.le_refl 0) ltac:(lia) Hk)
    as (b & Hb & _ & Es & Eo & Ed & Ec & Ez & Ep).
  rewrite Forall_lookup in Hf. destruct (Hf _ _ Hb) as (? & ? & ? & ?).
  unfold wf_index. rewrite Es, Eo, Ed, Ec, Ez, Ep. split_and!; auto using u32_range.
  pose proof (total_size_nonneg (take k blocks)).
  assert (total_size (take k blocks) ≤ total_size blocks).
  { pose proof (total_size_nonneg (drop k blocks)).
    pose proof (total_size_app (take k blocks) (drop k blocks)) as E. rewrite take_drop in E. lia. }
  int_lia.
Qed.

Section RoundTrip.
Context {S : Type} `{!ObjectStorage S} `{!ObjectStorageLaws S}.

(** An object as [close] lays it out. *)
Definition object_bytes (blocks : list DataBlock) : bytes :=
  let index := index_block_encode (index_entries (λ _, -1) 0 0 blocks) in
  concat (db_encoded <$> blocks) ++ index ++ footer (total_size blocks) (len index) FOOTER_MAGIC.

Lemma len_index_buf id blocks :
  len (index_block_encode (index_entries id 0 0 blocks)) = len blocks * 36.
Proof. rewrite length_index_block_encode, length_index_entries. unfold BLOCK_INDEX_SIZE. lia. Qed.

Lemma len_object_bytes blocks : len (object_bytes blocks) = total_size blocks + len blocks * 36 + 48.
Proof.
  unfold object_bytes. rewrite !length_app, !Nat2Z.inj_add, len_index_buf, len_footer, total_size_concat.
  unfold FOOTER_SIZE. lia.
Qed.

Lemma basic_object_info_written s now key blocks :
  fits blocks →
  basic_object_info (os_write s now key (object_bytes blocks)) key (len (object_bytes blocks))
  = Ok {| boi_data_block_size := total_size blocks;
          boi_index_block := index_entries Z.of_nat 0 0 blocks |}.
Proof.
  intros Hfit. pose proof Hfit as (Ht & Hn & _). pose proof (total_size_nonneg blocks).
  pose proof (len_object_bytes blocks) as Hlen. pose proof (len_index_buf (λ _, -1) blocks) as Hil.
  set (index := index_block_encode (index_entries (λ _, -1) 0 0 blocks)) in *.
  unfold basic_object_info. assert (Z.of_nat FOOTER_SIZE = 48) as -> by done.
  rewrite Hlen at 1. if_false.
  rewrite os_range_write by lia.
  assert (slice (len (object_bytes blocks) - 48) (len (object_bytes blocks)) (object_bytes blocks)
          = footer (total_size blocks) (len index) FOOTER_MAGIC) as ->.
  { rewrite Hlen. unfold object_bytes. fold index. rewrite app_assoc.
    apply slice_suffix; rewrite ?length_app, ?len_footer, ?Nat2Z.inj_add, ?total_size_concat;
      unfold FOOTER_SIZE; lia. }
  rewrite len_footer. cbn [negb Z.eqb]. assert (negb (Z.of_nat FOOTER_SIZE =? 48) = false) as -> by done.
  assert (read_be 40 8 (footer (total_size blocks) (len index) FOOTER_MAGIC) = FOOTER_MAGIC) as ->.
  { unfold footer. read_fields. by rewrite u64_small. }
  rewrite Z.eqb_refl. cbn [negb].
  assert (read_be 0 8 (footer (total_size blocks) (len index) FOOTER_MAGIC) = total_size blocks) as ->.
  { unfold footer. read_fields. apply u64_small. int_lia. }
  assert (read_be 8 4 (footer (total_size blocks) (len index) FOOTER_MAGIC) = len index) as ->.
  { unfold footer. read_fields. rewrite !u32_small; [done|int_lia|rewrite u32_small; int_lia]. }
  rewrite Hil. rewrite !u64_small by int_lia. rewrite Hlen, Z.eqb_refl. cbn [negb].
  rewrite os_range_write by lia.
  assert (slice (total_size blocks) (total_size blocks + len blocks * 36) (object_bytes blocks) = index) as ->.
  { unfold object_bytes. fold index. apply slice_middle; rewrite ?total_size_concat; lia. }
  unfold index. rewrite index_block_parse_encode; [|by apply index_entries_wf|rewrite length_index_entries; lia].
  unfold numbered. by rewrite index_entries_numbered.
Qed.

Lemma read_block_written s now key blocks k e :
  fits blocks → index_entries Z.of_nat 0 0 blocks !! k = Some e →
  ∃ b, blocks !! k = Some b ∧ bi_stream_id e = db_stream_id b
    ∧ read_block (os_write s now key (object_bytes blocks)) key e = Ok (db_encoded b).
Proof.
  intros Hfit Hk. pose proof Hfit as (Ht & Hn & Hf).
  destruct (index_entries_lookup Z.of_nat 0 0 blocks k e (Z.le_refl 0) ltac:(lia) Hk)
    as (b & Hb & _ & Es & _ & _ & _ & Ez & Ep).
  exists b. split_and!; [done..|]. rewrite Forall_lookup in Hf. destruct (Hf _ _ Hb) as (_ & _ & _ & Hsz).
  pose proof (take_drop_middle _ _ _ Hb) as Esplit.
  assert (concat (db_encoded <$> blocks) = concat (db_encoded <$> take k blocks)
    ++ db_encoded b ++ concat (db_encoded <$> drop (Datatypes.S k) blocks)) as Econ.
  { rewrite <- Esplit at 1. by rewrite fmap_app, concat_app. }
  pose proof (total_size_concat blocks) as Htot. rewrite Econ, !length_app in Htot.
  pose proof (total_size_concat (take k blocks)) as Htk. pose proof (len_object_bytes blocks).
  assert (0 ≤ db_size b) by (unfold db_size; lia). unfold db_size in *.
  unfold read_block, bi_end_position. rewrite Ep, Ez, u32_small by int_lia. rewrite u64_small by int_lia.
  rewrite os_range_write by lia. f_equal. unfold object_bytes. rewrite Econ, <- !app_assoc.
  apply slice_middle; unfold db_size; lia.
Qed.

Lemma decode_block_of s g b : block_of s g b → wf_block g → decode_data_block (db_encoded b) = Ok g.
Proof.
  intros Hb Hg. unfold block_of, data_block_new in Hb.
  destruct (encode_data_block g) as [enc|] eqn:Ee; [|done]. repeat case_match; simplify_eq; cbn.
  unfold decode_data_block. rewrite <- (app_nil_r enc) at 2.
  change (enc ++ []) with (concat [enc]). rewrite (decode_blocks_concat _ [g]).
  - cbn. by rewrite app_nil_r.
  - by constructor.
  - cbn. by rewrite Ee.
  - cbn. rewrite app_nil_r. lia.
Qed.
End RoundTrip.

(** ** The index is in search order *)

(** The records of one write: non-empty ranges, in order. *)
Definition ordered_records (rs : list StreamRecordBatch) : Prop :=
  StronglySorted (λ a b, last_offset a ≤ base_offset b) rs
  ∧ Forall (λ r, base_offset r < last_offset r) rs.

Definition blk_before (a b : DataBlock) : Prop :=
  db_stream_id a < db_stream_id b
  ∨ (db_stream_id a = db_stream_id b ∧ db_end_offset a ≤ db_start_offset b).

Lemma block_of_fields s g b :
  block_of s g b → db_stream_id b = s
  ∧ ∃ r0 rn, head g = Some r0 ∧ last g = Some rn
      ∧ db_start_offset b = base_offset r0 ∧ db_end_offset b = last_offset rn
      ∧ db_record_count b = u32 (len g).
Proof.
  unfold block_of, data_block_new. intros H. repeat case_match; simplify_eq. cbn.
  split; [done|]. eexists _, _. by split_and!.
Qed.

(** In an ordered run every record lies between the first start and the last end. *)
Lemma ordered_bounds rs r0 rn r :
  ordered_records rs → head rs = Some r0 → last rs = Some rn → r ∈ rs →
  base_offset r0 ≤ base_offset r ∧ last_offset r ≤ last_offset rn.
Proof.
  intros [Hs Hf] H0 Hn [i Hi]%list_elem_of_lookup. rewrite Forall_lookup in Hf.
  rewrite head_lookup in H0. rewrite last_lookup in Hn.
  split.
  - destruct i as [|i]; [simplify_eq; lia|].
    pose proof (StronglySorted_lookup _ _ 0 (S i) _ _ Hs ltac:(lia) H0 Hi) as H. cbn in H.
    specialize (Hf _ _ H0). cbn in Hf. lia.
  - destruct (decide (i = pred (length rs))) as [->|]; [simplify_eq; lia|].
    pose proof (lookup_lt_Some _ _ _ Hi).
    pose proof (StronglySorted_lookup _ _ i (pred (length rs)) _ _ Hs ltac:(lia) Hi Hn) as Hle. cbn in Hle.
    specialize (Hf _ _ Hn). cbn in Hf. lia.
Qed.

Lemma blocks_of_groups s groups blocks :
  ordered_records (concat groups) → Forall2 (block_of s) groups blocks →
  StronglySorted blk_before blocks
  ∧ ∀ b, b ∈ blocks → db_stream_id b = s ∧ db_start_offset b < db_end_offset b
      ∧ ∃ r r', r ∈ concat groups ∧ r' ∈ concat groups
          ∧ db_start_offset b = base_offset r ∧ db_end_offset b = last_offset r'.
Proof.
  intros Hord Hf. induction Hf as [|g b gs bs Hb _ IH]; cbn in *.
  { split; [constructor|]. by intros b ?%not_elem_of_nil. }
  destruct Hord as [Hs Hp]. apply StronglySorted_app in Hs as (Hx & Hs1 & Hs2).
  apply Forall_app in Hp as [Hp1 Hp2].
  destruct IH as [IHs IHb]; [by split|].
  destruct (block_of_fields _ _ _ Hb) as (Hst & r0 & rn & H0 & Hn & Eo & Ee & _).
  assert (r0 ∈ g) as Hr0 by (by apply head_Some_elem_of). assert (rn ∈ g) as Hrn by (by apply last_Some_elem_of).
  destruct (ordered_bounds g r0 rn r0) as [_ Hle]; [by split|done..|].
  rewrite Forall_forall in Hp1. pose proof (Hp1 _ Hr0) as Hne. cbn in Hne.
  split.
  - constructor; [done|]. apply Forall_forall. intros b' Hb'.
    destruct (IHb b' Hb') as (Hst' & _ & r & _ & Hr & _ & Es' & _). right. split; [congruence|].
    rewrite Ee, Es'. by apply Hx.
  - intros b' [->|Hb']%elem_of_cons.
    + split_and!; [done|lia|]. exists r0, rn. rewrite !elem_of_app. auto.
    + destruct (IHb b' Hb') as (? & ? & r & r' & ? & ? & ? & ?). split_and!; [done..|].
      exists r, r'. rewrite !elem_of_app. auto.
Qed.

(** Everything written so far is before the ordering cursor. *)
Definition cursor_ok (w : ObjectWriter) : Prop :=
  StronglySorted blk_before (ow_blocks w)
  ∧ (∀ b, b ∈ ow_blocks w → db_start_offset b < db_end_offset b
       ∧ ∃ ls le, ow_last w = Some (ls, le)
           ∧ (db_stream_id b < ls ∨ (db_stream_id b = ls ∧ db_end_offset b ≤ le))).

Lemma cursor_write s rs w w' :
  parts_ok w → ordered_records rs → ow_write s rs w = Some (w', Ok tt) → cursor_ok w → cursor_ok w'.
Proof.
  intros Hp Ho Hw [Hs Hb]. destruct (ow_write_spec _ _ _ _ Hp Hw) as (_ & Hc & _ & gs & bs & Eg & F & _ & Eb).
  subst rs. destruct (blocks_of_groups _ _ _ Ho F) as [Hs' Hb'].
  unfold check in Hc. destruct (head (concat gs)) as [r0|] eqn:E0.
  2: { apply head_None in E0. assert (bs = []) as ->.
       { destruct bs as [|b bs]; [done|]. destruct (Hb' b) as (_ & _ & r & _ & Hr & _); [left|].
         rewrite E0 in Hr. by apply not_elem_of_nil in Hr. }
       cbn in Hc. injection Hc as Hc. unfold cursor_ok. rewrite Eb, app_nil_r, <- Hc. done. }
  destruct (last (concat gs)) as [rn|] eqn:En; [|apply last_None in En; by rewrite En in E0].
  assert (ow_last w' = Some (s, last_offset rn)
    ∧ ∀ ls le, ow_last w = Some (ls, le) → ls < s ∨ (ls = s ∧ le ≤ base_offset r0)) as [El Hcur].
  { destruct (ow_last w) as [[ls le]|]; [|split; [congruence|done]].
    repeat case_match; simplify_eq. split; [congruence|]. intros ?? [= <- <-]. lia. }
  unfold cursor_ok. rewrite Eb, El. split.
  - apply StronglySorted_app. split_and!; auto. intros x y Hx Hy.
    destruct (Hb x Hx) as (_ & ls & le & Hl & Hxl). specialize (Hcur _ _ Hl).
    destruct (Hb' y Hy) as (Hst & _ & r & _ & Hr & _ & Es & _).
    destruct (ordered_bounds _ r0 rn r Ho E0 En Hr) as [? _]. unfold blk_before. lia.
  - intros b [Hx|Hx]%elem_of_app.
    + destruct (Hb b Hx) as (? & ls & le & Hl & Hxl). specialize (Hcur _ _ Hl). split; [done|].
      exists s, (last_offset rn). split; [done|].
      assert (r0 ∈ concat gs) as Hr0 by (by apply head_Some_elem_of).
      destruct (ordered_bounds _ r0 rn r0 Ho E0 En Hr0) as [_ ?].
      destruct Ho as [_ Hf]. rewrite Forall_forall in Hf. specialize (Hf _ Hr0). cbn in Hf. lia.
    + destruct (Hb' b Hx) as (Hst & ? & _ & r' & _ & Hr' & _ & Ee). split; [done|].
      exists s, (last_offset rn). split; [done|]. right.
      destruct (ordered_bounds _ r0 rn r' Ho E0 En Hr') as [_ ?]. lia.
Qed.

Lemma cursor_writes ops w w' :
  parts_ok w → Forall (λ p, ordered_records p.2) ops → ow_writes ops w = Some w' → cursor_ok w → cursor_ok w'.
Proof.
  revert w; induction ops as [|[s rs] ops IH]; intros w Hp Hf Hw Hc; cbn in Hw; [by simplify_eq|].
  inversion Hf as [|?? Ho Hf']; subst.
  destruct (ow_write s rs w) as [[w1 [[]|]]|] eqn:E1; try done.
  destruct (ow_write_spec _ _ _ _ Hp E1) as (P1 & _). apply (IH w1); [done..|]. exact (cursor_write _ _ _ _ Hp Ho E1 Hc).
Qed.

(** A block whose offsets fit the index entry. *)
Definition offsets_fit (b : DataBlock) : Prop :=
  0 ≤ db_start_offset b ∧ db_end_offset b < 2 ^ 64 ∧ db_end_offset b - db_start_offset b < 2 ^ 32.

#[export] Instance offsets_fit_dec b : Decision (offsets_fit b).
Proof. unfold offsets_fit. apply _. Defined.

Lemma index_entries_sorted id blocks :
  total_size blocks < 2 ^ 64 → Forall offsets_fit blocks →
  StronglySorted blk_before blocks → Forall (λ b, db_start_offset b < db_end_offset b) blocks →
  sorted_index (index_entries id 0 0 blocks).
Proof.
  intros _ Hf Hs Hne.
  assert (∀ i p, (∀ e, e ∈ index_entries id i p blocks → ∃ b, b ∈ blocks ∧ bi_stream_id e = db_stream_id b
    ∧ bi_start_offset e = db_start_offset b ∧ bi_end_offset e = db_end_offset b ∧ offsets_fit b
    ∧ db_start_offset b < db_end_offset b)
    ∧ StronglySorted idx_before (index_entries id i p blocks)) as H.
  { clear -Hf Hs Hne. induction blocks as [|b bs IH]; intros i p; cbn.
    { split; [by intros e ?%not_elem_of_nil|constructor]. }
    apply Forall_cons in Hf as [Hb Hf], Hne as [Hn Hne]. apply StronglySorted_cons in Hs as [Hall Hs].
    destruct (IH Hf Hs Hne (S i) (u64 (p + db_size b))) as [Hin Hss].
    set (e0 := {| bi_block_id := _ |}).
    assert (bi_end_offset e0 = db_end_offset b) as He.
    { unfold bi_end_offset, e0; cbn. unfold offsets_fit in Hb. rewrite (u64_small (db_end_offset b - _)) by int_lia.
      rewrite u32_small by int_lia. rewrite u64_small; int_lia. }
    split.
    - intros e [->|He']%elem_of_cons.
      + exists b. split_and!; [left|done..].
      + destruct (Hin e He') as (b' & ? & ?). exists b'. split; [by right|done].
    - constructor; [done|]. apply Forall_forall. intros e He'.
      destruct (Hin e He') as (b' & Hb' & Es & Eo & _). rewrite Forall_forall in Hall.
      specialize (Hall b' Hb'). unfold idx_before, blk_before in *. rewrite He, Es, Eo. done. }
  destruct (H 0%nat 0) as [Hin Hss]. split; [done|]. apply Forall_forall. intros e He.
  destruct (Hin e He) as (b & _ & _ & -> & -> & _ & ?). done.
Qed.

(** ** Properties *)

(** Sizes and counts that fit the footer and the index entries. *)
Definition object_fits (blocks : list DataBlock) : Prop :=
  total_size blocks + len blocks * 36 + 48 < 2 ^ 64 ∧ len blocks * 36 < 2 ^ 32
  ∧ Forall (λ b, db_size b < 2 ^ 32) blocks.

Definition wf_ops (ops : list (Z * list StreamRecordBatch)) : Prop :=
  Forall (λ p, is_u64 p.1 ∧ Forall wf_batch p.2) ops.

Lemma tagged_elem ops s r : (s, r) ∈ tagged ops ↔ ∃ rs, (s, rs) ∈ ops ∧ r ∈ rs.
Proof.
  unfold tagged. rewrite list_elem_of_bind. split.
  - intros ([s' rs] & H & Hin). apply list_elem_of_fmap in H as (r' & [= -> ->] & Hr). eauto.
  - intros (rs & Hin & Hr). exists (s, rs). split; [|done]. cbn. by apply list_elem_of_fmap_2.
Qed.

(** The blocks of well-formed writes are well-formed. *)
Lemma groups_wf ops groups blocks :
  wf_ops ops → tagged groups = tagged ops → Forall2 (λ p b, block_of p.1 p.2 b) groups blocks →
  Forall (λ p, p.2 ≠ []) groups → object_fits blocks →
  fits blocks ∧ Forall (λ p, wf_block p.2) groups.
Proof.
  intros Hops Et F Hne (Ht & Hn & Hsz).
  assert (∀ s g r, (s, g) ∈ groups → r ∈ g → is_u64 s ∧ wf_batch r) as Hin.
  { intros s g r Hg Hr. assert ((s, r) ∈ tagged ops) as Hop by (rewrite <- Et; apply tagged_elem; eauto).
    apply tagged_elem in Hop as (rs & Hop & Hr'). unfold wf_ops in Hops. rewrite Forall_forall in Hops.
    destruct (Hops _ Hop) as [? Hwf]. cbn in *. rewrite Forall_forall in Hwf. auto. }
  assert (∀ i s g b, groups !! i = Some (s, g) → blocks !! i = Some b → block_of s g b ∧ g ≠ [] ∧ wf_block g
    ∧ is_u64 (db_stream_id b) ∧ is_u64 (db_start_offset b) ∧ is_u32 (db_record_count b)) as Hall.
  { intros i s g b Hg Hb. pose proof (Forall2_lookup_lr _ _ _ _ _ _ F Hg Hb) as Hbl. cbn in Hbl.
    rewrite Forall_lookup in Hne. rewrite Forall_lookup in Hsz. specialize (Hne _ _ Hg). specialize (Hsz _ _ Hb). cbn in Hne.
    apply list_elem_of_lookup_2 in Hg.
    assert (Forall wf_batch g) as Hwf by (apply Forall_forall; intros r Hr; by eapply Hin).
    destruct (block_of_fields _ _ _ Hbl) as (Es & r0 & rn & H0 & _ & Eo & _ & Ec).
    assert (len (concat (encoded <$> g)) < 2 ^ 32 ∧ len g ≤ len (concat (encoded <$> g))) as [Hd Hc].
    { split.
      - unfold block_of, data_block_new in Hbl. destruct (encode_data_block g) as [enc|] eqn:Ee; [|done].
        assert (db_encoded b = enc) as Eenc by (destruct (head g), (last g); try done; by injection Hbl as <-).
        rewrite encode_data_block_spec in Ee by done. apply (inj Some) in Ee.
        unfold db_size in Hsz. rewrite Eenc, <- Ee, !length_app, !length_be in Hsz. lia.
      - clear -Hwf. induction Hwf as [|r g Hr _ IH]; [done|]. cbn [fmap list_fmap concat length].
        pose proof (wf_length _ Hr). pose proof (wf_size_range _ Hr). rewrite length_app. lia. }
    split_and!; [done|done|unfold wf_block; split_and!; [done|done|lia|lia]| | |].
    - rewrite Es. apply head_Some_elem_of in H0. by destruct (Hin s g r0 Hg H0).
    - rewrite Eo. apply head_Some_elem_of in H0. destruct (Hin s g r0 Hg H0) as [_ Hr0].
      unfold base_offset, read_u64. pose proof (read_be_range BASE_OFFSET_POS 8 (encoded r0) (wf_is_bytes _ Hr0)).
      int_lia.
    - rewrite Ec. apply u32_range. }
  pose proof (Forall2_length _ _ _ F) as Hlen. split.
  - split_and!; [done..|]. apply Forall_lookup. intros i b Hb. destruct (lookup_lt_is_Some_2 groups i) as [[s g] Hg].
    { rewrite Hlen. by eapply lookup_lt_Some. }
    destruct (Hall _ _ _ _ Hg Hb) as (_ & _ & _ & ? & ? & ?). rewrite Forall_lookup in Hsz. eauto.
  - apply Forall_lookup. intros i [s g] Hg. destruct (lookup_lt_is_Some_2 blocks i) as [b Hb].
    { rewrite <- Hlen. by eapply lookup_lt_Some. }
    by destruct (Hall _ _ _ _ Hg Hb) as (_ & _ & ? & _).
Qed.

Lemma ow_close_bytes w :
  parts_ok w → total_size (ow_blocks w) + len (ow_blocks w) * 36 + 48 < 2 ^ 64 →
  (ow_close w).2 = object_bytes (ow_blocks w) ∧ ow_completed (ow_close w).1 = ow_blocks w
  ∧ ow_object_size (ow_close w).1 = len (object_bytes (ow_blocks w)).
Proof.
  intros Hp Ht. pose proof (total_size_nonneg (ow_blocks w)).
  destruct (ow_close_data w Hp) as (-> & -> & _).
  rewrite index_position_spec by lia. rewrite Z.add_0_l. split_and!; [done..|].
  unfold ow_close; cbn. fold (ow_blocks w).
  rewrite index_position_spec, len_index_buf, len_object_bytes by lia. unfold FOOTER_SIZE.
  apply u64_small. int_lia.
Qed.

(** What a reader gets from the object: its index parses, and its blocks read and
    decode, one after the other, to the records of [ops] under their streams. *)
Definition object_reads {S : Type} `{!ObjectStorage S} (s : S) (key : bytes) (size : Z)
    (index : IndexBlock) (ops : list (Z * list StreamRecordBatch)) : Prop :=
  (∃ n, basic_object_info s key size = Ok {| boi_data_block_size := n; boi_index_block := index |})
  ∧ ∃ groups, tagged groups = tagged ops ∧ length groups = length index
      ∧ ∀ i e, index !! i = Some e →
          ∃ g, groups !! i = Some (bi_stream_id e, g)
            ∧ (let? b := read_block s key e in decode_data_block b) = Ok g.

Lemma written_object_reads {S : Type} `{!ObjectStorage S} `{!ObjectStorageLaws S}
    (s : S) now id bt pt ops w :
  ow_writes ops (ow_open id bt pt) = Some w → wf_ops ops → object_fits (ow_blocks w) →
  let w' := (ow_close w).1 in
  let data := (ow_close w).2 in
  let s' := os_write s now (object_key id) data in
  ow_object_size w' = len data
  ∧ basic_object_info s' (object_key id) (len data)
    = Ok {| boi_data_block_size := total_size (ow_completed w'); boi_index_block := block_indexes w' |}
  ∧ ∃ groups, tagged groups = tagged ops ∧ length groups = length (block_indexes w')
      ∧ ∀ i e, block_indexes w' !! i = Some e →
          ∃ g, groups !! i = Some (bi_stream_id e, g)
            ∧ (let? b := read_block s' (object_key id) e in decode_data_block b) = Ok g.
Proof.
  intros Hw Hops Hfit w' data s'.
  destruct (ow_writes_spec ops (ow_open id bt pt) w) as (Hp & _ & groups & blocks & Et & F & Hne & Eb); [done..|].
  change (ow_blocks w = blocks) in Eb.
  destruct (groups_wf ops groups blocks) as [Hfits Hwf]; [done..|by rewrite <- Eb|].
  pose proof Hfit as (Ht & Hn & _).
  destruct (ow_close_bytes w Hp Ht) as (Hdata & Hcomp & Hsize). rewrite Eb in *.
  assert (block_indexes w' = index_entries Z.of_nat 0 0 blocks) as Ebi.
  { subst w'. unfold block_indexes. rewrite Hcomp. rewrite <- (index_entries_numbered 0 blocks (λ i, i32 (Z.of_nat i))), <- (index_entries_numbered 0 blocks Z.of_nat).
    apply imap_ext. intros k x Hk%lookup_lt_Some. rewrite length_index_entries in Hk.
    rewrite i32_small; [done|int_lia]. }
  subst data s' w'. rewrite Hdata, Ebi, Hcomp. split_and!; [done| |].
  - by rewrite basic_object_info_written.
  - exists groups. split_and!; [done| |].
    + rewrite length_index_entries. by eapply Forall2_length.
    + intros i e He. destruct (read_block_written s now (object_key id) blocks i e Hfits He) as (b & Hb & Es & ->).
      destruct (lookup_lt_is_Some_2 groups i) as [[st g] Hg].
      { rewrite (Forall2_length _ _ _ F). by eapply lookup_lt_Some. }
      pose proof (Forall2_lookup_lr _ _ _ _ _ _ F Hg Hb) as Hbl. cbn in Hbl.
      rewrite Forall_lookup in Hwf. specialize (Hwf _ _ Hg). cbn in Hwf.
      exists g. split; [|by eapply decode_block_of].
      rewrite Es. destruct (block_of_fields _ _ _ Hbl) as (-> & _). done.
Qed.

(** C25: What an [ObjectWriter] stores, an [ObjectReader] reads back: after any sequence of
    successful writes and [close], the reported size is the object's length, the
    footer and index parse to the writer's block indexes, and reading and decoding
    block after block yields exactly the records written, in order, each under its
    stream. *)
Theorem object_write_read_roundtrip {S : Type} `{!ObjectStorage S} `{!ObjectStorageLaws S}
    (s : S) now id bt pt ops w :
  ow_writes ops (ow_open id bt pt) = Some w → wf_ops ops → object_fits (ow_blocks w) →
  let w' := (ow_close w).1 in
  let data := (ow_close w).2 in
  let s' := os_write s now (object_key id) data in
  ow_object_size w' = len data
  ∧ basic_object_info s' (object_key id) (len data)
    = Ok {| boi_data_block_size := total_size (ow_completed w'); boi_index_block := block_indexes w' |}
  ∧ ∃ groups, tagged groups = tagged ops ∧ length groups = length (block_indexes w')
      ∧ ∀ i e, block_indexes w' !! i = Some e →
          ∃ g, groups !! i = Some (bi_stream_id e, g)
            ∧ (let? b := read_block s' (object_key id) e in decode_data_block b) = Ok g.
Proof. apply written_object_reads. Qed.

Definition demo_ops : list (Z * list StreamRecordBatch) :=
  [(1, [new 1 0 0 10 [1]; new 1 0 10 5 [2; 3]]); (2, [new 2 0 7 1 [9]])].
Definition demo_writer : ObjectWriter := default (ow_open 5 2 0) (ow_writes demo_ops (ow_open 5 2 0)).

Lemma object_write_read_roundtrip_witness :
  let s' := os_write (ms_new 0) 0 (object_key 5) (ow_close demo_writer).2 in
  match block_indexes (ow_close demo_writer).1 !! 1%nat with
  | Some e => ∃ g, (let? b := read_block s' (object_key 5) e in decode_data_block b) = Ok g
  | None => False
  end.
Proof.
  intros s'.
  destruct (object_write_read_roundtrip (ms_new 0) 0 5 2 0 demo_ops demo_writer) as (_ & _ & groups & _ & _ & H).
  - vm_compute. reflexivity.
  - unfold demo_ops. repeat first [apply Forall_nil_2 | apply Forall_cons_2];
      (split; [vm_compute; intuition discriminate|]);
      repeat first [apply Forall_nil_2 | apply Forall_cons_2];
      (apply wf_new; [repeat constructor; vm_compute; intuition discriminate|vm_compute; reflexivity]).
  - split; [vm_compute; reflexivity|]. split; [vm_compute; reflexivity|].
    apply Forall_forall. intros b Hb. revert b Hb. apply Forall_forall.
    apply (bool_decide_unpack _). vm_compute. exact I.
  - destruct (block_indexes (ow_close demo_writer).1 !! 1%nat) as [e|] eqn:E.
    + destruct (H 1%nat e E) as (g & _ & Hg). exists g. exact Hg.
    + vm_compute in E. discriminate E.
Defined.

(** The ordering checks of the writer make the index searchable: when each write
    presents non-empty record ranges in order, the index of the closed object is
    sorted by stream, with a stream's blocks in order and disjoint, which is what the
    reader's binary search needs. *)
Theorem object_index_sorted id bt pt ops w :
  ow_writes ops (ow_open id bt pt) = Some w → Forall (λ p, ordered_records p.2) ops →
  total_size (ow_blocks w) < 2 ^ 64 → Forall offsets_fit (ow_blocks w) →
  sorted_index (block_indexes (ow_close w).1).
Proof.
  intros Hw Ho Ht Hf.
  assert (cursor_ok w) as [Hs Hb].
  { eapply (cursor_writes ops (ow_open id bt pt)); [done..|]. split; [constructor|].
    by intros b ?%not_elem_of_nil. }
  change (block_indexes (ow_close w).1) with (index_entries (λ i, i32 (Z.of_nat i)) 0 0 (ow_blocks w)).
  apply index_entries_sorted; auto. apply Forall_forall. intros b Hin. by destruct (Hb b Hin).
Qed.

Lemma object_index_sorted_witness : sorted_index (block_indexes (ow_close demo_writer).1).
Proof.
  apply (object_index_sorted 5 2 0 demo_ops).
  - vm_compute. reflexivity.
  - unfold demo_ops. repeat first [apply Forall_nil_2 | apply Forall_cons_2]; split;
      repeat first [apply SSorted_nil | apply SSorted_cons | apply Forall_nil_2 | apply Forall_cons_2];
      vm_compute; first [reflexivity | discriminate].
  - vm_compute. reflexivity.
  - apply Forall_forall. intros b Hb. revert b Hb. apply Forall_forall.
    apply (bool_decide_unpack _). vm_compute. exact I.
Defined.
