(* ===== verification/Composite.v ===== *)
(** * Composite objects

    Models [s3stream-object/src/composite.rs]: a composite links the blocks of its
    component objects without copying them.  The writer checks that the blocks
    continue one stream; the reader resolves a block ordinal to its component. *)
From S2P Require Import Prelude Collections Codec ObjectStore ObjectFormat ObjectIO.

Definition OBJECTS_BLOCK_MAGIC : Z := 0x52.
Definition OBJECT_BLOCK_HEADER_SIZE : nat := 5.
Definition OBJECT_UNIT_SIZE : nat := 14.
Definition COMPOSITE_FOOTER_MAGIC : Z := 0x88E241B785F4CFF8.

Record ObjectIndex : Type := {
  ox_object_id : Z;
  ox_block_start_index : Z;
  ox_block_end_index : Z;
  ox_bucket_id : Z;
}.

Record CompositeObjectWriter : Type := {
  cw_storage_key : bytes;
  cw_components : list (S3ObjectMetadata * list DataBlockIndex);
  cw_next_block_start_index : Z;
  cw_retained_size : Z;
  cw_cursor : option (Z * Z * Z);
}.

Definition cw_new (object_id : Z) : CompositeObjectWriter :=
  {| cw_storage_key := object_key object_id; cw_components := [];
     cw_next_block_start_index := 0; cw_retained_size := 0; cw_cursor := None |}.

(** The continuity check over the added blocks; the cursor moves even when a later
    block is rejected. *)
Fixpoint continue_cursor (cursor : option (Z * Z * Z)) (indexes : list DataBlockIndex)
  : option (Z * Z * Z) * result ObjectError unit :=
  match indexes with
  | [] => (cursor, Ok tt)
  | index :: rest =>
      match cursor with
      | None =>
          continue_cursor (Some (bi_stream_id index, bi_end_offset index, bi_start_offset index)) rest
      | Some (stream_id, expect_offset, first) =>
          if negb (stream_id =? bi_stream_id index) || negb (expect_offset =? bi_start_offset index)
          then (cursor, Err OE_OrderingViolation)
          else continue_cursor (Some (stream_id, bi_end_offset index, first)) rest
      end
  end.

Definition add_component (component : S3ObjectMetadata) (block_indexes : list DataBlockIndex)
    (w : CompositeObjectWriter) : CompositeObjectWriter * result ObjectError unit :=
  match continue_cursor (cw_cursor w) block_indexes with
  | (cursor, Err e) =>
      ({| cw_storage_key := cw_storage_key w; cw_components := cw_components w;
          cw_next_block_start_index := cw_next_block_start_index w;
          cw_retained_size := cw_retained_size w; cw_cursor := cursor |}, Err e)
  | (cursor, Ok _) =>
      ({| cw_storage_key := cw_storage_key w;
          cw_components := cw_components w ++ [(component, block_indexes)];
          cw_next_block_start_index :=
            u32 (cw_next_block_start_index w + u32 (len block_indexes));
          cw_retained_size :=
            u64 (cw_retained_size w + u64 (foldr (λ i a, bi_size i + a) 0 block_indexes));
          cw_cursor := cursor |}, Ok tt)
  end.

(** The objects block: one unit per component. *)
Fixpoint object_units (block_start_index : Z) (components : list (S3ObjectMetadata * list DataBlockIndex))
  : bytes :=
  match components with
  | [] => []
  | (m, indexes) :: rest =>
      be 8 (om_object_id m) ++ be 4 block_start_index ++ be 2 (attributes_bucket_id (om_attributes m))
        ++ object_units (u32 (block_start_index + u32 (len indexes))) rest
  end.

(** [close]: the bytes written under the storage key; their length is returned. *)
Definition cw_close (w : CompositeObjectWriter) : bytes :=
  let objects_block_size := Z.of_nat (OBJECT_BLOCK_HEADER_SIZE + OBJECT_UNIT_SIZE * length (cw_components w)) in
  let indexes := concat (cw_components w).*2 in
  let indexes_block_size := Z.of_nat (BLOCK_INDEX_SIZE * length indexes) in
  be 1 OBJECTS_BLOCK_MAGIC ++ be 4 (u32 (len (cw_components w)))
    ++ object_units 0 (cw_components w)
    ++ index_block_encode indexes
    ++ footer objects_block_size indexes_block_size COMPOSITE_FOOTER_MAGIC.

Definition cw_stream_range (w : CompositeObjectWriter) : option (Z * Z * Z) :=
  match cw_cursor w with
  | Some (stream_id, next, first) => Some (stream_id, first, next)
  | None => None
  end.

Record CompositeObjectInfo : Type := {
  ci_objects : list ObjectIndex;
  ci_index_block : IndexBlock;
}.

Definition component_of (info : CompositeObjectInfo) (block_id : Z) : result ObjectError ObjectIndex :=
  match list_find (λ o, ox_block_start_index o <= block_id ∧ block_id < ox_block_end_index o) (ci_objects info) with
  | Some (_, o) => Ok o
  | None => Err OE_InvalidFormat
  end.

(** Unit [i] of [count]; the end index is the next unit's start, or the block count. *)
Definition parse_unit (buf : bytes) (count total_blocks : Z) (i : nat) : ObjectIndex :=
  let base := (OBJECT_BLOCK_HEADER_SIZE + i * OBJECT_UNIT_SIZE)%nat in
  {| ox_object_id := read_be base 8 buf;
     ox_block_start_index := read_be (base + 8) 4 buf;
     ox_block_end_index :=
       if Z.of_nat i <? count - 1 then read_be (base + OBJECT_UNIT_SIZE + 8) 4 buf else total_blocks;
     ox_bucket_id := i16 (read_be (base + 12) 2 buf) |}.

(** [None] is the panic of [Bytes::slice] when a corrupt footer's sum wraps. *)
Definition parse_composite (buf : bytes) : option (result ObjectError CompositeObjectInfo) :=
  if len buf <? Z.of_nat (FOOTER_SIZE + OBJECT_BLOCK_HEADER_SIZE) then Some (Err OE_InvalidFormat)
  else
    let n := length buf in
    if negb (read_be (n - 8) 8 buf =? COMPOSITE_FOOTER_MAGIC) then Some (Err OE_InvalidFormat)
    else
      let index_position := read_be (n - FOOTER_SIZE) 8 buf in
      let index_size := read_be (n - 40) 4 buf in
      let index_end := u64 (index_position + index_size) in
      if negb (u64 (index_end + Z.of_nat FOOTER_SIZE) =? Z.of_nat n)
      then Some (Err OE_InvalidFormat)
      else if negb ((index_position <=? index_end) && (index_end <=? Z.of_nat n)) then None
      else Some (
        let? index_block := index_block_parse (slice index_position index_end buf) in
        let total_blocks := u32 (len index_block) in
        if negb (read_be 0 1 buf =? OBJECTS_BLOCK_MAGIC) then Err OE_InvalidFormat
        else
          let count := read_be 1 4 buf in
          if negb (Z.of_nat OBJECT_BLOCK_HEADER_SIZE + count * Z.of_nat OBJECT_UNIT_SIZE =? index_position)
          then Err OE_InvalidFormat
          else Ok {| ci_objects := parse_unit buf count total_blocks <$> seq 0 (Z.to_nat count);
                     ci_index_block := index_block |}).

Section Reader.
Context {S : Type} `{!ObjectStorage S}.

Definition composite_info (s : S) (key : bytes) : option (result ObjectError CompositeObjectInfo) :=
  match os_range_read s key 0 None with
  | Err e => Some (Err e)
  | Ok buf => parse_composite buf
  end.

Definition composite_find (s : S) (key : bytes) (stream_id start_offset end_offset max_bytes : Z)
  : option (result ObjectError FindIndexResult) :=
  let* info := composite_info s key in
  Some (let? info := info in
        Ok (find (ci_index_block info) stream_id start_offset end_offset max_bytes)).

Definition composite_read_block (s : S) (key : bytes) (index : DataBlockIndex)
  : option (result ObjectError bytes) :=
  let* info := composite_info s key in
  Some (let? info := info in
        let? component := component_of info (u32 (bi_block_id index)) in
        os_range_read s (object_key (ox_object_id component)) (bi_start_position index)
          (Some (bi_end_position index))).

(** [delete_composite]: the components, then the composite. *)
Definition delete_composite (s : S) (m : S3ObjectMetadata) : option (S * result ObjectError unit) :=
  let* info := composite_info s (metadata_key m) in
  Some (match info with
        | Err e => (s, Err e)
        | Ok info =>
            let paths := (λ o, {| op_bucket_id := ox_bucket_id o; op_key := object_key (ox_object_id o) |})
                           <$> ci_objects info in
            (os_delete (os_delete s paths)
               [{| op_bucket_id := attributes_bucket_id (om_attributes m); op_key := metadata_key m |}], Ok tt)
        end).
End Reader.

(** ** Lemmas *)

(** The block ranges of the components, in order. *)
Fixpoint layout_of (start : Z) (components : list (S3ObjectMetadata * list DataBlockIndex)) : list ObjectIndex :=
  match components with
  | [] => []
  | (m, ixs) :: rest =>
      {| ox_object_id := om_object_id m; ox_block_start_index := start;
         ox_block_end_index := start + len ixs;
         ox_bucket_id := attributes_bucket_id (om_attributes m) |}
      :: layout_of (start + len ixs) rest
  end.

Definition block_total (components : list (S3ObjectMetadata * list DataBlockIndex)) : Z :=
  len (concat components.*2).

Lemma block_total_cons m ixs cs : block_total ((m, ixs) :: cs) = len ixs + block_total cs.
Proof. unfold block_total. cbn [fmap list_fmap concat snd]. rewrite length_app. lia. Qed.

Lemma length_object_units k cs : length (object_units k cs) = (OBJECT_UNIT_SIZE * length cs)%nat.
Proof.
  revert k; induction cs as [|[m ixs] cs IH]; intros k; [done|]. cbn [object_units length].
  rewrite !length_app, !length_be, IH. unfold OBJECT_UNIT_SIZE. lia.
Qed.

Definition wf_components (cs : list (S3ObjectMetadata * list DataBlockIndex)) : Prop :=
  Forall (λ c, is_u64 (om_object_id c.1)) cs
  ∧ Forall wf_index (concat cs.*2)
  ∧ len cs * 14 + block_total cs * 36 + 53 < 2 ^ 32.

Lemma bucket_range a : is_i16 (attributes_bucket_id a).
Proof. unfold attributes_bucket_id. int_lia. Qed.

(** A component's unit, read at its place. *)
Lemma object_units_lookup k cs i m ixs rest :
  0 ≤ k → k + block_total cs < 2 ^ 32 → cs !! i = Some (m, ixs) → is_u64 (om_object_id m) →
  let buf := object_units k cs ++ rest in
  read_be (i * OBJECT_UNIT_SIZE) 8 buf = om_object_id m
  ∧ read_be (i * OBJECT_UNIT_SIZE + 8) 4 buf = k + block_total (take i cs)
  ∧ i16 (read_be (i * OBJECT_UNIT_SIZE + 12) 2 buf) = attributes_bucket_id (om_attributes m).
Proof.
  revert k i; induction cs as [|[m0 ixs0] cs IH]; intros k i Hk Ht Hi Hid; [done|].
  rewrite block_total_cons in Ht. assert (0 ≤ block_total cs) by (unfold block_total; lia).
  cbn [object_units]. rewrite (u32_small (len ixs0)) by int_lia. rewrite (u32_small (k + len ixs0)) by int_lia.
  destruct i as [|i]; cbn [lookup list_lookup] in Hi.
  - injection Hi as -> ->. cbv zeta. rewrite <- !app_assoc. cbn [Nat.mul Nat.add]. split_and!.
    + read_fields. by apply u64_small.
    + read_fields. rewrite u32_small by int_lia. cbn. change (block_total []) with 0. lia.
    + read_fields. rewrite i16_u16. apply i16_small, bucket_range.
  - destruct (IH (k + len ixs0) i) as (H1 & H2 & H3); [lia..|done|done|].
    cbv zeta. rewrite <- !app_assoc.
    assert (∀ p n l, read_be (S i * OBJECT_UNIT_SIZE + p) n
      (be 8 (om_object_id m0) ++ be 4 k ++ be 2 (attributes_bucket_id (om_attributes m0)) ++ l)
      = read_be (i * OBJECT_UNIT_SIZE + p) n l) as Hskip.
    { intros p n l. unfold OBJECT_UNIT_SIZE.
      rewrite !read_be_skip by (rewrite !length_be; lia). rewrite !length_be. f_equal. lia. }
    rewrite <- (Nat.add_0_r (S i * OBJECT_UNIT_SIZE)) at 1. rewrite !Hskip, Nat.add_0_r, H1, H2, H3.
    split_and!; [done| |done]. cbn [take]. rewrite block_total_cons. lia.
Qed.

Lemma layout_of_lookup start cs i m ixs :
  cs !! i = Some (m, ixs) →
  layout_of start cs !! i
  = Some {| ox_object_id := om_object_id m; ox_block_start_index := start + block_total (take i cs);
            ox_block_end_index := start + block_total (take i cs) + len ixs;
            ox_bucket_id := attributes_bucket_id (om_attributes m) |}.
Proof.
  revert start i; induction cs as [|[m0 ixs0] cs IH]; intros start [|i] Hi; [done..| |]; cbn in Hi |- *.
  - injection Hi as -> ->. change (block_total []) with 0. by rewrite Z.add_0_r.
  - rewrite (IH _ _ Hi), block_total_cons. f_equal. f_equal; lia.
Qed.

Lemma length_layout_of start cs : length (layout_of start cs) = length cs.
Proof. revert start; induction cs as [|[m ixs] cs IH]; intros start; cbn; [done|]. by rewrite IH. Qed.

Lemma block_total_take_S cs i m ixs :
  cs !! i = Some (m, ixs) → block_total (take (S i) cs) = block_total (take i cs) + len ixs.
Proof.
  intros Hi. rewrite (take_S_r _ _ _ Hi). unfold block_total. rewrite fmap_app, concat_app, length_app.
  cbn. rewrite app_nil_r. lia.
Qed.

Lemma block_total_take_le cs i j : (i ≤ j)%nat → block_total (take i cs) ≤ block_total (take j cs).
Proof.
  intros Hij. unfold block_total. rewrite <- (take_drop i (take j cs)), take_take, Nat.min_l by done.
  rewrite fmap_app, concat_app, length_app. lia.
Qed.

(** The units of the objects block, as parsed. *)
Lemma parse_units cs rest :
  Forall (λ c, is_u64 (om_object_id c.1)) cs → block_total cs < 2 ^ 32 → len cs < 2 ^ 32 →
  let buf := be 1 OBJECTS_BLOCK_MAGIC ++ be 4 (u32 (len cs)) ++ object_units 0 cs ++ rest in
  (parse_unit buf (len cs) (block_total cs)) <$> seq 0 (length cs) = layout_of 0 cs.
Proof.
  intros Hid Ht Hn buf. apply list_eq. intros i. rewrite list_lookup_fmap.
  destruct (cs !! i) as [[m ixs]|] eqn:Ei.
  2: { apply lookup_ge_None in Ei. rewrite lookup_seq_ge by done. symmetry. apply lookup_ge_None.
       by rewrite length_layout_of. }
  pose proof (lookup_lt_Some _ _ _ Ei) as Hlt. rewrite lookup_seq_lt by done. cbn [fmap option_fmap option_map].
  rewrite (layout_of_lookup _ _ _ _ _ Ei). f_equal. rewrite Forall_lookup in Hid.
  pose proof (Hid _ _ Ei) as Hidm. cbn in Hidm.
  destruct (object_units_lookup 0 cs i m ixs rest) as (H1 & H2 & H3); [lia|lia|done|done|].
  assert (∀ p n, read_be (OBJECT_BLOCK_HEADER_SIZE + p) n buf = read_be p n (object_units 0 cs ++ rest)) as Hhead.
  { intros p n. subst buf. unfold OBJECT_BLOCK_HEADER_SIZE.
    rewrite !read_be_skip by (rewrite !length_be; lia). rewrite !length_be. f_equal. lia. }
  unfold parse_unit. rewrite Nat.add_0_l.
  assert (∀ k, OBJECT_BLOCK_HEADER_SIZE + i * OBJECT_UNIT_SIZE + k = OBJECT_BLOCK_HEADER_SIZE + (i * OBJECT_UNIT_SIZE + k))%nat as Eassoc by lia.
  rewrite !Eassoc, !Hhead, H1, H2, H3. f_equal.
  destruct (Z.of_nat i <? len cs - 1) eqn:Elast.
  - destruct (cs !! S i) as [[m' ixs']|] eqn:Es; [|apply lookup_ge_None in Es; lia].
    pose proof (Hid _ _ Es) as Hid'. cbn in Hid'.
    destruct (object_units_lookup 0 cs (S i) m' ixs' rest) as (_ & H4 & _); [lia|lia|done|done|].
    match goal with |- context [read_be ?x 4 buf] =>
      replace x with (OBJECT_BLOCK_HEADER_SIZE + (S i * OBJECT_UNIT_SIZE + 8))%nat by lia end.
    rewrite Hhead, H4. rewrite (block_total_take_S _ _ _ _ Ei). lia.
  - assert (take (S i) cs = cs) as Eall by (apply take_ge; lia).
    pose proof (block_total_take_S _ _ _ _ Ei) as E. rewrite Eall in E. lia.
Qed.

Lemma parse_composite_close w :
  wf_components (cw_components w) →
  parse_composite (cw_close w)
  = Some (Ok {| ci_objects := layout_of 0 (cw_components w);
                ci_index_block := numbered (concat (cw_components w).*2) |}).
Proof.
  intros (Hid & Hix & Hsz). set (cs := cw_components w) in *.
  assert (0 ≤ block_total cs) by (unfold block_total; lia).
  set (index := index_block_encode (concat cs.*2)).
  assert (len index = block_total cs * 36) as Hil.
  { subst index. rewrite length_index_block_encode. unfold block_total, BLOCK_INDEX_SIZE. lia. }
  set (ft := footer (5 + 14 * len cs) (36 * block_total cs) COMPOSITE_FOOTER_MAGIC).
  set (pre := be 1 OBJECTS_BLOCK_MAGIC ++ be 4 (u32 (len cs)) ++ object_units 0 cs).
  assert (len pre = 5 + 14 * len cs) as Hpl.
  { subst pre. rewrite !length_app, !length_be, length_object_units. unfold OBJECT_UNIT_SIZE. lia. }
  assert (cw_close w = pre ++ index ++ ft) as Ebuf.
  { unfold cw_close. fold cs index. subst pre ft. rewrite <- !app_assoc. repeat f_equal;
      unfold OBJECT_BLOCK_HEADER_SIZE, OBJECT_UNIT_SIZE, BLOCK_INDEX_SIZE, block_total; lia. }
  assert (length ft = 48%nat) as Hfl by apply len_footer.
  assert (∀ p n, read_be (length pre + length index + p) n (cw_close w) = read_be p n ft) as Hft.
  { intros p n. rewrite Ebuf. rewrite !read_be_skip by lia. f_equal. lia. }
  assert (length (cw_close w) = (length pre + length index + 48)%nat) as Hn.
  { rewrite Ebuf, !length_app, Hfl. lia. }
  assert (read_be 40 8 ft = COMPOSITE_FOOTER_MAGIC ∧ read_be 0 8 ft = 5 + 14 * len cs
    ∧ read_be 8 4 ft = 36 * block_total cs) as (F1 & F2 & F3).
  { subst ft. unfold footer. split_and!; read_fields.
    - done.
    - apply u64_small. int_lia.
    - rewrite !u32_small; [done|int_lia|rewrite u32_small; int_lia]. }
  unfold parse_composite. rewrite Hn. unfold FOOTER_SIZE, OBJECT_BLOCK_HEADER_SIZE.
  replace (Z.of_nat (length pre + length index + 48) <? Z.of_nat (48 + 5)) with false by lia.
  replace (length pre + length index + 48 - 8)%nat with (length pre + length index + 40)%nat by lia.
  replace (length pre + length index + 48 - 48)%nat with (length pre + length index + 0)%nat by lia.
  replace (length pre + length index + 48 - 40)%nat with (length pre + length index + 8)%nat by lia.
  rewrite !Hft, F1, F2, F3, Z.eqb_refl. cbn [negb].
  rewrite (u64_small (5 + _ + _)) by int_lia. rewrite (u64_small (_ + _ + Z.of_nat 48)) by int_lia.
  replace (5 + 14 * len cs + 36 * block_total cs + Z.of_nat 48 =? _) with true by lia. cbn [negb].
  match goal with |- (if negb ?b then _ else _) = _ => replace b with true by lia end. cbn [negb].
  assert (slice (5 + 14 * len cs) (5 + 14 * len cs + 36 * block_total cs) (cw_close w) = index) as ->.
  { rewrite Ebuf. apply slice_middle; lia. }
  subst index. rewrite index_block_parse_encode; [|done|unfold block_total in *; lia].
  assert (read_be 0 1 (cw_close w) = OBJECTS_BLOCK_MAGIC) as ->.
  { rewrite Ebuf. subst pre. rewrite <- !app_assoc. rewrite read_be_here by apply length_be. by rewrite unbe_be1. }
  rewrite Z.eqb_refl. cbn [negb].
  assert (read_be 1 4 (cw_close w) = len cs) as ->.
  { rewrite Ebuf. subst pre. rewrite <- !app_assoc. read_fields.
    rewrite !u32_small; [done|int_lia|rewrite u32_small; int_lia]. }
  unfold OBJECT_UNIT_SIZE. replace (Z.of_nat 5 + len cs * Z.of_nat 14 =? _) with true by lia. cbn [negb].
  rewrite Nat2Z.id.
  replace (u32 (len (numbered (concat cs.*2)))) with (block_total cs).
  2: { unfold numbered. rewrite length_imap. rewrite u32_small; unfold block_total in *; [done|int_lia]. }
  do 3 f_equal. rewrite Ebuf. subst pre. rewrite <- !app_assoc. apply parse_units; [done|lia|lia].
Qed.

(** The component that owns a block ordinal. *)
Lemma component_of_layout cs c m ixs j index :
  cs !! c = Some (m, ixs) → 0 ≤ j < len ixs →
  component_of {| ci_objects := layout_of 0 cs; ci_index_block := index |} (block_total (take c cs) + j)
  = Ok {| ox_object_id := om_object_id m; ox_block_start_index := block_total (take c cs);
          ox_block_end_index := block_total (take c cs) + len ixs;
          ox_bucket_id := attributes_bucket_id (om_attributes m) |}.
Proof.
  intros Hc Hj. unfold component_of. cbn [ci_objects].
  pose proof (layout_of_lookup 0 _ _ _ _ Hc) as Hl. rewrite !Z.add_0_l in Hl.
  erewrite (proj2 (list_find_Some _ _ c _)); [reflexivity|].
  split_and!; [exact Hl|cbn; lia|cbn; lia|].
  intros i o Ho Hi. destruct (cs !! i) as [[m' ixs']|] eqn:Ei.
  - rewrite (layout_of_lookup 0 _ _ _ _ Ei) in Ho. injection Ho as <-. cbn.
    pose proof (block_total_take_S _ _ _ _ Ei). pose proof (block_total_take_le cs (S i) c ltac:(lia)). lia.
  - apply lookup_ge_None in Ei. apply lookup_lt_Some in Hc. lia.
Qed.

Lemma concat_lookup_block cs c m ixs j e :
  cs !! c = Some (m, ixs) → ixs !! j = Some e →
  concat cs.*2 !! (Z.to_nat (block_total (take c cs)) + j)%nat = Some e.
Proof.
  revert c; induction cs as [|[m0 ixs0] cs IH]; intros [|c] Hc He; [done..| |]; cbn in Hc.
  - injection Hc as -> ->. cbn. rewrite lookup_app_l; [done|]. by eapply lookup_lt_Some.
  - cbn [take fmap list_fmap concat snd]. rewrite block_total_cons.
    assert (0 ≤ block_total (take c cs)) by (unfold block_total; lia).
    rewrite lookup_app_r by lia.
    replace (Z.to_nat (len ixs0 + block_total (take c cs)) + j - length ixs0)%nat
      with (Z.to_nat (block_total (take c cs)) + j)%nat by lia. by apply IH.
Qed.

(** *** Continuity *)

Lemma continue_cursor_covers cursor ixs cursor' s first o :
  (cursor = None ∧ True ∨ cursor = Some (s, o, first)) →
  continue_cursor cursor ixs = (cursor', Ok tt) → Forall (λ e, bi_start_offset e < bi_end_offset e) ixs →
  match cursor with
  | Some _ => ∃ o', cursor' = Some (s, o', first) ∧ covers s o ixs o'
  | None => match ixs with
            | [] => cursor' = None
            | e :: _ => ∃ o', cursor' = Some (bi_stream_id e, o', bi_start_offset e)
                          ∧ covers (bi_stream_id e) (bi_start_offset e) ixs o'
            end
  end.
Proof.
  assert (∀ ixs s o first cursor', continue_cursor (Some (s, o, first)) ixs = (cursor', Ok tt) →
    Forall (λ e, bi_start_offset e < bi_end_offset e) ixs →
    ∃ o', cursor' = Some (s, o', first) ∧ covers s o ixs o') as Hsome.
  { clear. induction ixs as [|e ixs IH]; intros s o first cursor' Hc Hf; cbn in Hc.
    - injection Hc as <-. by exists o.
    - inversion Hf as [|?? He Hf']; subst. case_match eqn:E; [done|].
      destruct (IH _ _ _ _ Hc Hf') as (o' & -> & Hcov). exists o'. split; [done|].
      cbn. split; [unfold contains; lia|done]. }
  intros [[-> _]| ->] Hc Hf; [|by eapply Hsome].
  destruct ixs as [|e ixs]; cbn in Hc; [by injection Hc as <-|].
  inversion Hf as [|?? He Hf']; subst. destruct (Hsome _ _ _ _ _ Hc Hf') as (o' & -> & Hcov).
  exists o'. split; [done|]. cbn. split; [unfold contains; lia|done].
Qed.

Fixpoint add_components (cs : list (S3ObjectMetadata * list DataBlockIndex)) (w : CompositeObjectWriter)
  : option CompositeObjectWriter :=
  match cs with
  | [] => Some w
  | (m, ixs) :: rest =>
      match add_component m ixs w with
      | (w', Ok _) => add_components rest w'
      | _ => None
      end
  end.

Definition cursor_covers (w : CompositeObjectWriter) : Prop :=
  match cw_cursor w with
  | None => concat (cw_components w).*2 = []
  | Some (s, next, first) => covers s first (concat (cw_components w).*2) next
  end.

Lemma covers_app s o bs o1 bs' o2 : covers s o bs o1 → covers s o1 bs' o2 → covers s o (bs ++ bs') o2.
Proof. revert o; induction bs as [|b bs IH]; intros o; cbn; [by intros ->|]. intros [? ?] ?. auto. Qed.

Lemma add_component_covers m ixs w w' :
  cursor_covers w → Forall (λ e, bi_start_offset e < bi_end_offset e) ixs →
  add_component m ixs w = (w', Ok tt) →
  cursor_covers w' ∧ cw_components w' = cw_components w ++ [(m, ixs)].
Proof.
  intros Hw Hf Ha. unfold add_component in Ha.
  destruct (continue_cursor (cw_cursor w) ixs) as [cursor [[]|e]] eqn:Ec; [|done].
  injection Ha as <-. split; [|done]. unfold cursor_covers in *. cbn.
  rewrite fmap_app, concat_app. cbn. rewrite app_nil_r.
  destruct (cw_cursor w) as [[[s next] first]|] eqn:Ecur.
  - destruct (continue_cursor_covers (Some (s, next, first)) ixs cursor s first next) as (o' & -> & Hcov); [by right|done..|].
    by eapply covers_app.
  - rewrite Hw. pose proof (continue_cursor_covers None ixs cursor 0 0 0 ltac:(left; done) Ec Hf) as H.
    destruct ixs as [|e ixs]; [by rewrite H|]. destruct H as (o' & -> & Hcov). done.
Qed.

(** A block of a component, through the composite. *)
Lemma composite_resolves {S : Type} `{!ObjectStorage S} `{!ObjectStorageLaws S}
    (s : S) now key w c m ixs j e :
  wf_components (cw_components w) →
  cw_components w !! c = Some (m, ixs) → ixs !! j = Some e →
  let s' := os_write s now key (cw_close w) in
  let i := block_total (take c (cw_components w)) + Z.of_nat j in
  ∃ info, composite_info s' key = Some (Ok info)
    ∧ ci_index_block info !! Z.to_nat i = Some (with_id i e)
    ∧ composite_read_block s' key (with_id i e) = Some (read_block s' (object_key (om_object_id m)) e).
Proof.
  intros Hwf Hc Hj s' i. pose proof Hwf as (_ & _ & Hsz).
  assert (composite_info s' key = Some (Ok {| ci_objects := layout_of 0 (cw_components w);
    ci_index_block := numbered (concat (cw_components w).*2) |})) as Hinfo.
  { subst s'. unfold composite_info. pose proof (os_read_write s now key (cw_close w)) as E.
    unfold os_read in E. rewrite E. by apply parse_composite_close. }
  pose proof (lookup_lt_Some _ _ _ Hj) as Hjl.
  assert (0 ≤ block_total (take c (cw_components w)) ∧ i < block_total (cw_components w)) as [H0 Hi].
  { split; [unfold block_total; lia|]. pose proof (block_total_take_S _ _ _ _ Hc).
    pose proof (block_total_take_le (cw_components w) (Datatypes.S c) (length (cw_components w))) as Hle.
    rewrite (take_ge _ (length _)) in Hle by lia. apply lookup_lt_Some in Hc. specialize (Hle ltac:(lia)). lia. }
  eexists. split_and!; [exact Hinfo| |].
  - change (numbered (concat (cw_components w).*2) !! Z.to_nat i = Some (with_id i e)).
    unfold numbered, IndexBlock. rewrite list_lookup_imap.
    replace (Z.to_nat i) with (Z.to_nat (block_total (take c (cw_components w))) + j)%nat by lia.
    rewrite (concat_lookup_block _ _ _ _ _ _ Hc Hj). cbn. do 2 f_equal. lia.
  - unfold composite_read_block. rewrite Hinfo. cbn [with_id bi_block_id].
    rewrite u32_small by (unfold block_total in *; int_lia).
    subst i. rewrite (component_of_layout _ _ _ _ _ _ Hc) by lia. done.
Qed.

(** A composite object resolves every linked block to the component that holds it:
    the stored bytes parse to the components' block ranges and the concatenated,
    renumbered index, and reading a block through the composite reads the
    component's object at the block's own position. *)
Theorem composite_resolves_blocks {S : Type} `{!ObjectStorage S} `{!ObjectStorageLaws S}
    (s : S) now key w c m ixs j e :
  wf_components (cw_components w) →
  cw_components w !! c = Some (m, ixs) → ixs !! j = Some e →
  let s' := os_write s now key (cw_close w) in
  let i := block_total (take c (cw_components w)) + Z.of_nat j in
  ∃ info, composite_info s' key = Some (Ok info)
    ∧ ci_index_block info !! Z.to_nat i = Some (with_id i e)
    ∧ composite_read_block s' key (with_id i e) = Some (read_block s' (object_key (om_object_id m)) e).
Proof. apply composite_resolves. Qed.

(** The composite writer only accepts blocks that continue one stream: after any
    sequence of accepted components, the linked blocks cover the reported stream
    range without a gap. *)
Theorem composite_is_continuous id cs w :
  add_components cs (cw_new id) = Some w →
  Forall (λ c, Forall (λ e, bi_start_offset e < bi_end_offset e) c.2) cs →
  cw_components w = cs
  ∧ match cw_stream_range w with
    | Some (stream, first, next) => covers stream first (concat cs.*2) next
    | None => concat cs.*2 = []
    end.
Proof.
  intros Ha Hf.
  assert (∀ w0, cursor_covers w0 → add_components cs w0 = Some w →
    cursor_covers w ∧ cw_components w = cw_components w0 ++ cs) as Hgen.
  { clear Ha. induction cs as [|[m ixs] cs IH]; intros w0 Hc Ha; cbn in Ha.
    - injection Ha as <-. by rewrite app_nil_r.
    - inversion Hf as [|?? Hm Hf']; subst. destruct (add_component m ixs w0) as [w1 [[]|]] eqn:E1; [|done].
      destruct (add_component_covers _ _ _ _ Hc Hm E1) as [Hc1 Ec1].
      destruct (IH Hf' w1 Hc1 Ha) as [? E]. split; [done|]. by rewrite E, Ec1, <- app_assoc. }
  destruct (Hgen (cw_new id)) as [Hc E]; [done..|]. cbn in E. split; [done|].
  unfold cursor_covers in Hc. unfold cw_stream_range. rewrite E in Hc. by destruct (cw_cursor w) as [[[? ?] ?]|].
Qed.

Module DemoComposite.
Definition meta (id : Z) : S3ObjectMetadata :=
  {| om_object_id := id; om_object_type := Stream; om_offset_ranges := []; om_object_size := 200;
     om_attributes := attributes_new 3 false false; om_committed_timestamp_ms := 0;
     om_data_timestamp_ms := 0 |}.
Definition block (o d p : Z) : DataBlockIndex :=
  {| bi_block_id := 0; bi_stream_id := 7; bi_start_offset := o; bi_end_offset_delta := d;
     bi_record_count := 1; bi_start_position := p; bi_size := 100 |}.
Definition parts : list (S3ObjectMetadata * list DataBlockIndex) :=
  [(meta 11, [block 0 10 0; block 10 5 100]); (meta 12, [block 15 5 0])].
Definition writer : CompositeObjectWriter := default (cw_new 20) (add_components parts (cw_new 20)).
End DemoComposite.

#[export] Instance wf_index_dec e : Decision (wf_index e).
Proof. unfold wf_index. apply _. Defined.
#[export] Instance wf_components_dec cs : Decision (wf_components cs).
Proof. unfold wf_components. apply _. Defined.

Lemma composite_resolves_blocks_witness :
  composite_read_block (os_write (ms_new 0) 0 (object_key 20) (cw_close DemoComposite.writer)) (object_key 20)
    (with_id 2 (DemoComposite.block 15 5 0))
  = Some (Err (OE_NotFound (object_key 12))).
Proof.
  destruct (composite_resolves_blocks (ms_new 0) 0 (object_key 20) DemoComposite.writer 1 (DemoComposite.meta 12)
    [DemoComposite.block 15 5 0] 0 (DemoComposite.block 15 5 0)) as (info & _ & _ & H).
  - apply (bool_decide_unpack _). vm_compute. exact I.
  - reflexivity.
  - reflexivity.
  - exact H.
Defined.

Lemma composite_is_continuous_witness :
  covers 7 0 (concat DemoComposite.parts.*2) 20.
Proof.
  destruct (composite_is_continuous 20 DemoComposite.parts DemoComposite.writer) as [_ H].
  - reflexivity.
  - apply Forall_forall. intros x Hx. revert x Hx. apply Forall_forall. apply (bool_decide_unpack _). vm_compute. exact I.
  - exact H.
Defined.
