(* ===== verification/WalRecover.v ===== *)
(** * Recovery and range reads of the object WAL

    Models [s3stream-wal/src/object/recover.rs] (discovery, the trim filter, the
    prefetching iterator and the recovery stream) and the range read of
    [service.rs].  The store does not change while a recovery runs, so a prefetch
    task is its result.  The recovery stream is drained as one loop: [next] skips
    trimmed and fake records, the stream ends at the first error. *)
From S2P Require Import Prelude Collections Codec ObjectStore WalFormat WalWriter WalWriterInv.

Section Recover.
Context {S : Type} `{!ObjectStorage S} `{!Crc32Fast}.

Definition discover_wal_objects (s : S) (node_prefix : bytes) : list WalObject :=
  (skip_overlap_objects (parse_wal_objects (os_list s node_prefix))).1.

Definition get_trim_offset (objects : list WalObject) (s : S) : result WalError Z :=
  match last objects with
  | None => Ok TRIM_OFFSET_NONE
  | Some object =>
      let? buffer := map_err WE_Storage
        (os_range_read s (wo_key object) 0 (Some (Z.min (Z.of_nat MAX_WAL_HEADER_SIZE) (wo_size object)))) in
      let? header := header_unmarshal buffer in
      Ok (wh_trim_offset header)
  end.

(** The first object that ends past the trim offset, and the run of objects that
    continue it. *)
Fixpoint continuous_run (end_offset : Z) (objects : list WalObject) : list WalObject :=
  match objects with
  | [] => []
  | o :: rest => if wo_start_offset o =? end_offset then o :: continuous_run (wo_end_offset o) rest else []
  end.

Fixpoint get_continuous_from_trim_offset (objects : list WalObject) (trim_offset : Z) : list WalObject :=
  match objects with
  | [] => []
  | o :: rest =>
      if trim_offset <? i64 (wo_end_offset o) then o :: continuous_run (wo_end_offset o) rest
      else get_continuous_from_trim_offset rest trim_offset
  end.

(** The start offset of each epoch's first object. *)
Fixpoint epoch_map (last_epoch : option Z) (objects : list WalObject) (m : gmap Z Z) : gmap Z Z :=
  match objects with
  | [] => m
  | o :: rest =>
      if bool_decide (last_epoch = Some (wo_epoch o)) then epoch_map last_epoch rest m
      else epoch_map (Some (wo_epoch o)) rest (<[wo_start_offset o := wo_epoch o]> m)
  end.

Record RecoverIterator : Type := mkRI {
  ri_max_readahead : Z;
  ri_trim_offset : Z;
  ri_objects : list WalObject;
  ri_next_index : nat;
  ri_readahead : list (result ObjectError bytes);
  ri_readahead_size : Z;
  ri_data : bytes;
  ri_epochs : gmap Z Z;
}.

(** [try_read_ahead] starts at most one read per remaining object. *)
Fixpoint read_ahead (s : S) (fuel : nat) (it : RecoverIterator) : RecoverIterator :=
  match fuel with
  | O => it
  | Datatypes.S fuel' =>
      if ri_readahead_size it <? ri_max_readahead it then
        match ri_objects it !! ri_next_index it with
        | None => it
        | Some object =>
            read_ahead s fuel'
              (mkRI (ri_max_readahead it) (ri_trim_offset it) (ri_objects it)
                 (Datatypes.S (ri_next_index it))
                 (ri_readahead it ++ [os_range_read s (wo_key object) 0 (Some (wo_size object))])
                 (u64 (ri_readahead_size it + wo_size object)) (ri_data it) (ri_epochs it))
        end
      else it
  end.
Definition try_read_ahead (s : S) (it : RecoverIterator) : RecoverIterator :=
  read_ahead s (length (ri_objects it) - ri_next_index it) it.

Definition iterator_new (s : S) (all_objects : list WalObject) (max_readahead : Z)
  : result WalError RecoverIterator :=
  let? trim_offset := get_trim_offset all_objects s in
  let filtered := get_continuous_from_trim_offset all_objects trim_offset in
  Ok (try_read_ahead s
        (mkRI max_readahead trim_offset filtered 0 [] 0 [] (epoch_map None all_objects ∅))).

Definition has_next0 (it : RecoverIterator) : bool :=
  negb (bool_decide (ri_data it = [])) || negb (bool_decide (ri_readahead it = []))
  || (ri_next_index it <? length (ri_objects it))%nat.

Definition set_data (data : bytes) (it : RecoverIterator) : RecoverIterator :=
  mkRI (ri_max_readahead it) (ri_trim_offset it) (ri_objects it) (ri_next_index it)
    (ri_readahead it) (ri_readahead_size it) data (ri_epochs it).

Definition load_next_buffer (it : RecoverIterator) : result WalError RecoverIterator :=
  match ri_readahead it with
  | [] => Err WE_Recovery
  | Err e :: _ => Err (WE_Storage e)
  | Ok buffer :: rest =>
      let? header := header_unmarshal buffer in
      Ok (mkRI (ri_max_readahead it) (ri_trim_offset it) (ri_objects it) (ri_next_index it)
            rest (sat_sub (ri_readahead_size it) (len buffer))
            (drop (header_size header) buffer) (ri_epochs it))
  end.

(** The body: in the current buffer, or continued at the start of the next. *)
Definition take_body (length_ : Z) (it : RecoverIterator) : result WalError (bytes * RecoverIterator) :=
  if len (ri_data it) <? length_ then
    let assembled := ri_data it in
    if bool_decide (ri_readahead it = []) && (length (ri_objects it) <=? ri_next_index it)%nat
    then Err WE_Recovery
    else
      let? it := load_next_buffer it in
      let need := length_ - len assembled in
      if len (ri_data it) <? need then Err WE_Recovery
      else Ok (assembled ++ takeZ need (ri_data it), set_data (dropZ need (ri_data it)) it)
  else Ok (takeZ length_ (ri_data it), set_data (dropZ length_ (ri_data it)) it).

Definition next0 (s : S) (it : RecoverIterator) : result WalError (RecoverResult * RecoverIterator) :=
  let? it := match ri_data it with [] => load_next_buffer it | _ => Ok it end in
  let it := try_read_ahead s it in
  if len (ri_data it) <? Z.of_nat WAL_RECORD_HEADER_SIZE then Err WE_Recovery
  else
    let? header := map_err WE_Unmarshal (unmarshal (take WAL_RECORD_HEADER_SIZE (ri_data it))) in
    let it := set_data (drop WAL_RECORD_HEADER_SIZE (ri_data it)) it in
    if negb (rh_magic header =? RECORD_DATA_MAGIC) then Err WE_Recovery
    else
      let length_ := rh_body_length header in
      let? (body, it) := take_body length_ it in
      if negb (rh_body_crc header =? wal_crc32 body) then Err WE_Recovery
      else
        let offset := u64 (rh_body_offset header - Z.of_nat WAL_RECORD_HEADER_SIZE) in
        let size := u32 (length_ + Z.of_nat WAL_RECORD_HEADER_SIZE) in
        let? (record, _) := map_err WE_Unmarshal (parse body) in
        match floor_entry offset (ri_epochs it) with
        | None => Err WE_Recovery
        | Some (_, epoch) =>
            Ok ({| rr_record := record;
                   rr_record_offset := {| ro_epoch := epoch; ro_offset := offset; ro_size := size |} |}, it)
        end.

(** What [next] does not yield. *)
Definition skipped (trim_offset : Z) (r : RecoverResult) : bool :=
  (i64 (ro_offset (rr_record_offset r)) <=? trim_offset)
  || ((stream_id (rr_record r) =? TRIM_RECORD_SENTINEL)
      && (epoch (rr_record r) =? TRIM_RECORD_SENTINEL)).

(** [next] until the stream ends; [None] when the fuel runs out. *)
Fixpoint drain (s : S) (fuel : nat) (it : RecoverIterator)
  : option (list RecoverResult * option WalError) :=
  match fuel with
  | O => None
  | Datatypes.S fuel' =>
      if negb (has_next0 it) then Some ([], None)
      else
        match next0 s it with
        | Err e => Some ([], Some e)
        | Ok (r, it') =>
            let* (rs, e) := drain s fuel' it' in
            Some (if skipped (ri_trim_offset it) r then (rs, e) else (r :: rs, e))
        end
  end.

Definition recover_stream (s : S) (fuel : nat) (objects : list WalObject) (max_readahead : Z)
  : option (list RecoverResult * option WalError) :=
  match iterator_new s objects max_readahead with
  | Err e => Some ([], Some e)
  | Ok it => drain s fuel it
  end.

(** ** service.rs: range reads *)

Record ReaderIndex : Type := { rx_map : gmap Z Z; rx_largest_epoch : option Z }.
Definition reader_index_new : ReaderIndex := {| rx_map := ∅; rx_largest_epoch := None |}.

Definition ensure_index (s : S) (node_prefix : bytes) (epoch : Z) (index : ReaderIndex) : ReaderIndex :=
  if match rx_largest_epoch index with Some largest => epoch <=? largest | None => false end
  then index
  else
    let objects := parse_wal_objects (os_list s node_prefix) in
    {| rx_map := epoch_map None objects ∅; rx_largest_epoch := wo_epoch <$> last objects |}.

(** The object reads of one epoch: [(read_from, path, relative_start)]. *)
Fixpoint epoch_reads (fuel : nat) (node_prefix : bytes) (epoch epoch_end end_offset next : Z)
  : list (Z * bytes * Z) * Z :=
  match fuel with
  | O => ([], next)
  | Datatypes.S fuel' =>
      if (next <? epoch_end) && (next <? end_offset) then
        let object_start := floor_align_offset next in
        let path := gen_object_path_v1_aligned node_prefix epoch object_start in
        let relative_start := u64 (next - object_start + Z.of_nat WAL_HEADER_SIZE_V1) in
        let '(reads, n) := epoch_reads fuel' node_prefix epoch epoch_end end_offset
                             (u64 (object_start + DATA_FILE_ALIGN_SIZE)) in
        ((next, path, relative_start) :: reads, n)
      else ([], next)
  end.

Fixpoint plan_reads (fuel : nat) (node_prefix : bytes) (entries : list (Z * Z)) (end_offset next : Z)
  : list (Z * bytes * Z) :=
  match entries with
  | [] => []
  | (_, epoch) :: rest =>
      let epoch_end := match rest with [] => U64_MAX | (k, _) :: _ => k end in
      let '(reads, next) := epoch_reads fuel node_prefix epoch epoch_end end_offset next in
      reads ++ plan_reads fuel node_prefix rest end_offset next
  end.

(** The records of one object from [next_record_offset] to [end_offset]. *)
Fixpoint decode_range (fuel : nat) (buf : bytes) (next_record_offset end_offset : Z)
  : result WalError (list StreamRecordBatch) :=
  match fuel, buf with
  | _, [] => Ok []
  | O, _ => Ok []
  | Datatypes.S fuel', _ =>
      if next_record_offset <? end_offset then
        let? (batch, rest) := map_err WE_Unmarshal (decode_record buf) in
        let consumed := len buf - len rest in
        let is_trim := (count batch =? 0) && (stream_id batch =? TRIM_RECORD_SENTINEL)
                       && (Codec.epoch batch =? TRIM_RECORD_SENTINEL) in
        let? batches := decode_range fuel' rest (u64 (next_record_offset + consumed)) end_offset in
        Ok (if is_trim then batches else batch :: batches)
      else Ok []
  end.

Fixpoint read_all (s : S) (reads : list (Z * bytes * Z)) (end_offset : Z)
  : result WalError (list StreamRecordBatch) :=
  match reads with
  | [] => Ok []
  | (read_from, path, relative_start) :: rest =>
      let? buf := map_err WE_Storage (os_range_read s path relative_start None) in
      let? batches := decode_range (length buf) buf read_from end_offset in
      let? more := read_all s rest end_offset in
      Ok (batches ++ more)
  end.

(** [get_range]; one read per slot, so [fuel] is the number of slots of the range.
    [None] is the panic of [BTreeMap::range] on an inverted range. *)
Definition get_range (s : S) (node_prefix : bytes) (index : ReaderIndex) (start end_ : RecordOffset)
  : option (ReaderIndex * result WalError (list StreamRecordBatch)) :=
  if ro_offset start =? ro_offset end_ then Some (index, Ok [])
  else
    let index := ensure_index s node_prefix (ro_epoch end_) index in
    match floor_entry (ro_offset start) (rx_map index) with
    | None => Some (index, Err WE_Recovery)
    | Some (floor_key, _) =>
        if ro_offset end_ <? floor_key then None
        else
          let entries := range floor_key (ro_offset end_) (rx_map index) in
          if bool_decide (entries = []) then Some (index, Err WE_Recovery)
          else
            let fuel := Z.to_nat ((ro_offset end_ - ro_offset start) / DATA_FILE_ALIGN_SIZE + 2) in
            Some (index, read_all s (plan_reads fuel node_prefix entries (ro_offset end_) (ro_offset start))
                           (ro_offset end_))
    end.
End Recover.

(** ** The epoch of an offset *)

Lemma floor_entry_max {V} (m : gmap Z V) hi k v :
  m !! k = Some v → k ≤ hi → (∀ k', is_Some (m !! k') → k' ≤ hi → k' ≤ k) →
  floor_entry hi m = Some (k, v).
Proof.
  intros Hk Hle Hmax. unfold floor_entry.
  set (l := filter (λ p, p.1 <= hi) (entries m)).
  assert ((k, v) ∈ l) as Hin.
  { apply list_elem_of_filter. split; [done|]. by apply elem_of_entries. }
  destruct (last l) as [[k' v']|] eqn:El.
  - assert ((k', v') ∈ l) as [Hle' Hin'%elem_of_entries]%list_elem_of_filter by (by apply last_Some_elem_of).
    cbn in Hle'. assert (k' ≤ k) by (apply Hmax; [by eexists|done]).
    assert (k ≤ k').
    { apply last_Some in El as [l' El].
      assert (StronglySorted (λ p q, key_le p q = true) l) as Hs by (apply StronglySorted_filter, entries_sorted).
      rewrite El in Hs, Hin. apply elem_of_app in Hin as [Hin|Hin%list_elem_of_singleton]; [|simplify_eq; lia].
      apply StronglySorted_app in Hs as (Hx & _ & _). specialize (Hx _ (k', v') Hin ltac:(left)).
      unfold key_le in Hx. cbn in Hx. lia. }
    assert (k' = k) by lia. subst. congruence.
  - apply last_None in El. rewrite El in Hin. by apply not_elem_of_nil in Hin.
Qed.

Lemma epoch_map_keys le objs m k :
  is_Some (epoch_map le objs m !! k) → is_Some (m !! k) ∨ ∃ o, o ∈ objs ∧ wo_start_offset o = k.
Proof.
  revert le m; induction objs as [|o objs IH]; intros le m H; cbn in H; [by left|].
  case_bool_decide.
  - destruct (IH _ _ H) as [?|(o' & ? & ?)]; [by left|right]. exists o'. split; [by right|done].
  - destruct (IH _ _ H) as [Hk|(o' & ? & ?)].
    + apply lookup_insert_is_Some' in Hk as [Hk|?]; [right|by left]. exists o. split; [left|done].
    + right. exists o'. split; [by right|done].
Qed.

Lemma epoch_map_keep le objs m k v :
  m !! k = Some v → (∀ o, o ∈ objs → wo_start_offset o ≠ k) → epoch_map le objs m !! k = Some v.
Proof.
  revert le m; induction objs as [|o objs IH]; intros le m Hk Hn; cbn; [done|].
  case_bool_decide; apply IH; try done; try (intros; apply Hn; by right).
  rewrite lookup_insert_ne; [done|]. apply Hn. left.
Qed.

(** Objects in order with disjoint ranges, as a listing of one WAL gives them. *)
Definition ascending (objs : list WalObject) : Prop :=
  StronglySorted (λ a b, wo_end_offset a ≤ wo_start_offset b) objs
  ∧ Forall (λ o, wo_start_offset o < wo_end_offset o) objs.

(** The epoch found for an offset is its object's. *)
Lemma epoch_floor le objs m off o :
  ascending objs → o ∈ objs → wo_start_offset o ≤ off < wo_end_offset o →
  (∀ k o', is_Some (m !! k) → o' ∈ objs → k ≤ wo_start_offset o') →
  (∀ e, le = Some e → ∃ kf, m !! kf = Some e ∧ (∀ k, is_Some (m !! k) → k ≤ kf)
     ∧ ∀ o', o' ∈ objs → kf < wo_start_offset o') →
  ∃ k, floor_entry off (epoch_map le objs m) = Some (k, wo_epoch o).
Proof.
  revert le m; induction objs as [|h objs IH]; intros le m [Hs Hf] Ho Hoff Hm Hle.
  { by apply not_elem_of_nil in Ho. }
  apply StronglySorted_cons in Hs as [Hall Hs]. rewrite Forall_forall in Hall.
  apply Forall_cons in Hf as [Hh Hf].
  assert (∀ o', o' ∈ objs → wo_start_offset h < wo_start_offset o') as Hafter.
  { intros o' Ho'. specialize (Hall _ Ho'). cbn in Hall. lia. }
  assert (∀ m' kf, m' !! kf = Some (wo_epoch h) → (∀ k, is_Some (m' !! k) → k ≤ kf) → kf ≤ wo_start_offset h → o = h →
    ∃ k, floor_entry off (epoch_map (Some (wo_epoch h)) objs m') = Some (k, wo_epoch o)) as Hhead.
  { intros m' kf Hkf Hmax Hkh ->. exists kf. apply floor_entry_max; [|lia|].
    - apply epoch_map_keep; [done|]. intros o' Ho' E. specialize (Hafter _ Ho'). lia.
    - intros k' [?|(o' & Ho' & <-)]%epoch_map_keys ?; [by apply Hmax|].
      specialize (Hall _ Ho'). cbn in Hall. lia. }
  cbn. case_bool_decide as Hb.
  - destruct (Hle _ Hb) as (kf & Hkf & Hmax & Hlt). specialize (Hlt h ltac:(left)).
    apply elem_of_cons in Ho as [->|Ho].
    + rewrite Hb. by apply (Hhead m kf); [|done|lia|].
    + apply IH; [done|done|done| |].
      * intros k o' Hk Ho'. apply Hm; [done|by right].
      * intros e He. destruct (Hle e He) as (kf' & ? & ? & Hlt'). exists kf'. split_and!; auto.
        intros o' Ho'. apply Hlt'. by right.
  - assert (∀ k, is_Some (<[wo_start_offset h:=wo_epoch h]> m !! k) → k ≤ wo_start_offset h) as Hmax.
    { intros k [<-|Hk]%lookup_insert_is_Some'; [lia|]. apply Hm; [done|left]. }
    apply elem_of_cons in Ho as [->|Ho].
    + apply (Hhead _ (wo_start_offset h)); [by rewrite lookup_insert_eq|done|lia|done].
    + apply IH; [done|done|done| |].
      * intros k o' Hk Ho'. specialize (Hmax k Hk). specialize (Hafter _ Ho'). lia.
      * intros e [= <-]. exists (wo_start_offset h). split_and!; [by rewrite lookup_insert_eq|done|done].
Qed.

(** ** What a WAL object holds *)

(** A WAL object with its header and its framed records, by offset. *)
Record Stored : Type := {
  st_object : WalObject;
  st_header : WalObjectHeader;
  st_records : list (Z * StreamRecordBatch);
}.

(** A record with the object it is in. *)
Definition tagged (x : Stored) : list (WalObject * (Z * StreamRecordBatch)) :=
  (λ p, (st_object x, p)) <$> st_records x.

Definition recovered_of (t : WalObject * (Z * StreamRecordBatch)) : RecoverResult :=
  {| rr_record := t.2.2;
     rr_record_offset := {| ro_epoch := wo_epoch t.1; ro_offset := t.2.1;
                            ro_size := Z.of_nat WAL_RECORD_HEADER_SIZE + len (encoded t.2.2) |} |}.

Definition results_of (xs : list Stored) : list RecoverResult := recovered_of <$> (xs ≫= tagged).

(** Objects that continue each other from offset [e], and where they end. *)
Fixpoint linked (e : Z) (xs : list Stored) : Prop :=
  match xs with
  | [] => True
  | x :: xs' => wo_start_offset (st_object x) = e ∧ linked (wo_end_offset (st_object x)) xs'
  end.
Fixpoint run_end (e : Z) (xs : list Stored) : Z :=
  match xs with [] => e | x :: xs' => run_end (wo_end_offset (st_object x)) xs' end.

Lemma continuous_run_split e xs :
  ∃ run tail, xs = run ++ tail ∧ continuous_run e (st_object <$> xs) = st_object <$> run
    ∧ linked e run ∧ (∀ y, head tail = Some y → wo_start_offset (st_object y) ≠ run_end e run).
Proof.
  revert e; induction xs as [|x xs IH]; intros e; cbn; [by exists [], []|].
  destruct (Z.eqb_spec (wo_start_offset (st_object x)) e) as [He|He].
  - destruct (IH (wo_end_offset (st_object x))) as (run & tail & -> & -> & Hl & Ht).
    by exists (x :: run), tail.
  - exists [], (x :: xs). split_and!; try done. intros y [= <-]. done.
Qed.

(** The trimmed prefix, the run that is recovered, what lies past a gap. *)
Record split_at (t : Z) (dropped run tail : list Stored) : Prop := {
  sp_dropped : Forall (λ x, i64 (wo_end_offset (st_object x)) ≤ t) dropped;
  sp_first x : head run = Some x → t < i64 (wo_end_offset (st_object x));
  sp_linked x rest : run = x :: rest → linked (wo_end_offset (st_object x)) rest;
  sp_gap x rest y : run = x :: rest → head tail = Some y →
    wo_start_offset (st_object y) ≠ run_end (wo_end_offset (st_object x)) rest;
  sp_none : run = [] → tail = [];
}.

Lemma continuous_split t xs :
  ∃ dropped run tail, xs = dropped ++ run ++ tail ∧ split_at t dropped run tail
    ∧ get_continuous_from_trim_offset (st_object <$> xs) t = st_object <$> run.
Proof.
  induction xs as [|x xs IH]; cbn; [by exists [], [], []|].
  destruct (t <? _) eqn:E.
  - destruct (continuous_run_split (wo_end_offset (st_object x)) xs) as (run & tail & -> & -> & Hl & Ht).
    exists [], (x :: run), tail. split_and!; [done| |done]. constructor; try done.
    + intros y [= <-]. lia.
    + by intros y rest [= <- <-].
    + intros z rest y [= <- <-]. apply Ht.
  - destruct IH as (dropped & run & tail & -> & [Hd ? ? ? ?] & ->).
    exists (x :: dropped), run, tail. split_and!; [done| |done]. constructor; try done.
    apply Forall_cons. split; [lia|done].
Qed.

Definition header_trim (xs : list Stored) : Z :=
  match last xs with Some x => wh_trim_offset (st_header x) | None => TRIM_OFFSET_NONE end.

Section RecoverSpec.
Context {S : Type} `{!ObjectStorage S} `{!Crc32Fast} (s : S).

Definition frames_of (rs : list (Z * StreamRecordBatch)) : bytes :=
  concat ((λ p, frame_record p.1 (encoded p.2)) <$> rs).

Definition object_data (x : Stored) : bytes := header_marshal (st_header x) ++ frames_of (st_records x).

Record stored_ok (x : Stored) : Prop := {
  so_header : wf_wal_header (st_header x);
  so_data : holds s (wo_key (st_object x)) (object_data x);
  so_size : wo_size (st_object x) = len (object_data x);
  so_records : st_records x ≠ [];
  so_record off r : (off, r) ∈ st_records x →
    wf_batch r ∧ wo_start_offset (st_object x) ≤ off < wo_end_offset (st_object x);
  so_bounds : 0 ≤ wo_start_offset (st_object x) ∧ wo_end_offset (st_object x) < 2 ^ 63;
}.

Lemma read_stored x :
  stored_ok x →
  os_range_read s (wo_key (st_object x)) 0 (Some (wo_size (st_object x))) = Ok (object_data x).
Proof. intros Hx. rewrite (so_size _ Hx), (so_data _ Hx) by lia. by rewrite slice_0_all. Qed.

(** ** The iterator between two calls *)

Fixpoint sizes (xs : list Stored) : Z :=
  match xs with [] => 0 | x :: xs' => wo_size (st_object x) + sizes xs' end.

Lemma sizes_app xs ys : sizes (xs ++ ys) = sizes xs + sizes ys.
Proof. induction xs as [|x xs IH]; cbn; [done|]. rewrite IH. lia. Qed.

Lemma sizes_pos xs : Forall stored_ok xs → 0 ≤ sizes xs.
Proof. induction 1 as [|x xs Hx _ IH]; cbn; [lia|]. rewrite (so_size _ Hx). lia. Qed.

(** [cur] is left of the current object, [ahead] is prefetched, [rest] is not. *)
Record Cursor (cur : list (WalObject * (Z * StreamRecordBatch))) (ahead rest : list Stored)
    (it : RecoverIterator) : Prop := {
  cu_max : 0 < ri_max_readahead it;
  cu_objects : drop (ri_next_index it) (ri_objects it) = st_object <$> rest;
  cu_index : (ri_next_index it ≤ length (ri_objects it))%nat;
  cu_ahead : ri_readahead it = (λ x, Ok (object_data x)) <$> ahead;
  cu_size : ri_readahead_size it = sizes ahead;
  cu_data : ri_data it = frames_of cur.*2;
  cu_ok : Forall stored_ok (ahead ++ rest);
  cu_total : sizes (ahead ++ rest) < 2 ^ 64;
}.

Lemma cursor_pump fuel cur ahead rest it :
  Cursor cur ahead rest it → (length rest ≤ fuel)%nat →
  ∃ a r, ahead ++ rest = a ++ r ∧ Cursor cur a r (read_ahead s fuel it)
    ∧ (a = [] → r = []) ∧ ri_epochs (read_ahead s fuel it) = ri_epochs it
    ∧ ri_trim_offset (read_ahead s fuel it) = ri_trim_offset it.
Proof.
  revert ahead rest it; induction fuel as [|fuel IH]; intros ahead rest it Hc Hf; cbn.
  { exists ahead, rest. destruct rest; [|cbn in Hf; lia]. done. }
  destruct (_ <? _) eqn:El.
  2: { exists ahead, rest. split_and!; try done. intros ->. destruct Hc. cbn in *. lia. }
  destruct (ri_objects it !! ri_next_index it) as [o|] eqn:Eo.
  2: { exists ahead, rest. split_and!; try done. intros _. destruct Hc as [_ Ho ? _ _ _ _ _].
       apply lookup_ge_None in Eo. rewrite drop_ge in Ho by lia. by destruct rest. }
  pose proof Hc as [Hm Ho Hi Ha Hs Hd Hok Ht].
  rewrite (drop_S _ _ _ Eo) in Ho. destruct rest as [|x rest]; [done|]. injection Ho as Hox Ho.
  destruct (IH (ahead ++ [x]) rest (mkRI (ri_max_readahead it) (ri_trim_offset it) (ri_objects it)
     (Datatypes.S (ri_next_index it))
     (ri_readahead it ++ [os_range_read s (wo_key o) 0 (Some (wo_size o))])
     (u64 (ri_readahead_size it + wo_size o)) (ri_data it) (ri_epochs it))) as (a & r & E & ?).
  - assert (stored_ok x) as Hx. { rewrite Forall_app, Forall_cons in Hok. by destruct Hok as (_ & ? & _). }
    assert (sizes (ahead ++ [x]) < 2 ^ 64 ∧ 0 ≤ sizes ahead ∧ 0 ≤ wo_size o) as (Hsz & ? & ?).
    { rewrite Forall_app, Forall_cons in Hok. destruct Hok as (Hok1 & _ & Hok2).
      rewrite sizes_app in *. cbn in Ht |- *. pose proof (sizes_pos _ Hok1). pose proof (sizes_pos _ Hok2).
      rewrite Hox, (so_size _ Hx) in *. lia. }
    constructor; cbn; try done.
    + by apply lookup_lt_Some in Eo.
    + by rewrite Ha, fmap_app, Hox, read_stored.
    + rewrite Hs, sizes_app in *. cbn in *. rewrite Hox in *. rewrite u64_small; [lia|]. int_lia.
    + by rewrite <- app_assoc.
    + by rewrite <- app_assoc.
  - cbn in Hf. lia.
  - rewrite <- app_assoc in E. exists a, r. done.
Qed.

Lemma cursor_read_ahead cur ahead rest it :
  Cursor cur ahead rest it →
  ∃ a r, ahead ++ rest = a ++ r ∧ Cursor cur a r (try_read_ahead s it)
    ∧ (a = [] → r = []) ∧ ri_epochs (try_read_ahead s it) = ri_epochs it
    ∧ ri_trim_offset (try_read_ahead s it) = ri_trim_offset it.
Proof.
  intros Hc. apply cursor_pump; [done|]. destruct Hc as [_ Ho ? _ _ _ _ _].
  apply (f_equal length) in Ho. rewrite length_drop, length_fmap in Ho. lia.
Qed.

Lemma cursor_load x ahead rest it :
  Cursor [] (x :: ahead) rest it →
  ∃ it', load_next_buffer it = Ok it' ∧ Cursor (tagged x) ahead rest it'
    ∧ ri_epochs it' = ri_epochs it ∧ ri_trim_offset it' = ri_trim_offset it.
Proof.
  intros [Hm Ho Hi Ha Hs Hd Hok Ht]. unfold load_next_buffer. rewrite Ha. cbn [fmap list_fmap].
  cbn in Hok. apply Forall_cons in Hok as [Hx Hok].
  unfold object_data at 1. rewrite (header_unmarshal_marshal _ _ (so_header _ Hx)).
  eexists. split; [reflexivity|]. split; [|done]. cbn in Ht.
  pose proof (sizes_pos _ Hok). rewrite sizes_app in *.
  assert (0 ≤ sizes ahead) by (apply sizes_pos; by apply Forall_app in Hok as [? _]).
  constructor; cbn [ri_max_readahead ri_objects ri_next_index ri_readahead ri_readahead_size ri_data]; try done.
  - rewrite Hs. cbn. rewrite (so_size _ Hx). int_lia.
  - unfold object_data. rewrite drop_app_length' by (symmetry; apply length_header_marshal).
    unfold tagged. rewrite <- list_fmap_compose. f_equal.
    symmetry. rewrite <- (list_fmap_id (st_records x)) at 2. done.
  - rewrite sizes_app. rewrite (so_size _ Hx) in Ht. lia.
Qed.

Lemma cursor_set_data t cur ahead rest it :
  Cursor (t :: cur) ahead rest it → Cursor cur ahead rest (set_data (frames_of cur.*2) it).
Proof. intros []. by constructor. Qed.

Lemma set_data_twice a b it : set_data a (set_data b it) = set_data a it.
Proof. done. Qed.

Lemma take_body_here body k it :
  ri_data it = body ++ k → take_body (len body) it = Ok (body, set_data k it).
Proof.
  intros E. unfold take_body. rewrite E, length_app. if_false.
  rewrite takeZ_take; unfold dropZ. by rewrite take_app_length', drop_app_length' by lia.
Qed.

Lemma parse_whole r : wf_batch r → parse (encoded r) = Ok (r, []).
Proof. intros Hwf. rewrite <- (app_nil_r (encoded r)) at 1. by apply parse_app. Qed.

(** One call yields the first record left, wherever it is. *)
Lemma next0_spec cur ahead rest it t ts :
  Cursor cur ahead rest it → (ahead = [] → rest = []) →
  cur ++ ((ahead ++ rest) ≫= tagged) = t :: ts →
  wf_batch t.2.2 → is_u64 t.2.1 → (∃ k, floor_entry t.2.1 (ri_epochs it) = Some (k, wo_epoch t.1)) →
  ∃ cur' ahead' rest' it', next0 s it = Ok (recovered_of t, it')
    ∧ Cursor cur' ahead' rest' it' ∧ (ahead' = [] → rest' = [])
    ∧ cur' ++ ((ahead' ++ rest') ≫= tagged) = ts
    ∧ ri_epochs it' = ri_epochs it ∧ ri_trim_offset it' = ri_trim_offset it.
Proof.
  intros Hc Hpump Hts Hwf Hoff [k Hk].
  assert (∃ cur1 ahead1 it1,
    match ri_data it with [] => load_next_buffer it | _ => Ok it end = Ok it1
    ∧ Cursor (t :: cur1) ahead1 rest it1 ∧ cur1 ++ ((ahead1 ++ rest) ≫= tagged) = ts
    ∧ ri_epochs it1 = ri_epochs it ∧ ri_trim_offset it1 = ri_trim_offset it)
    as (cur1 & ahead1 & it1 & E1 & Hc1 & Hts1 & He1 & Ht1).
  { destruct cur as [|t' cur].
    - rewrite (cu_data _ _ _ _ Hc). cbn [fmap list_fmap frames_of concat].
      destruct ahead as [|x ahead]; [by rewrite (Hpump eq_refl) in Hts|].
      destruct (cursor_load _ _ _ _ Hc) as (it1 & E1 & Hc1 & ? & ?).
      assert (stored_ok x) as Hx. { pose proof (cu_ok _ _ _ _ Hc) as Hok. by apply Forall_cons in Hok as [? _]. }
      pose proof (so_records _ Hx). cbn [app mbind list_bind] in Hts.
      unfold tagged in Hc1, Hts at 1. destruct (st_records x) as [|p rs]; [done|]. injection Hts as Hp <-.
      rewrite <- Hp. by exists ((λ p, (st_object x, p)) <$> rs), ahead, it1.
    - injection Hts as -> <-. exists cur, ahead, it. split_and!; try done.
      rewrite (cu_data _ _ _ _ Hc). unfold frames_of. cbn [fmap list_fmap concat].
      destruct (_ ++ _) eqn:E; [|done].
      apply (f_equal length) in E. rewrite length_app, length_frame_record in E. cbn in E. lia. }
  destruct (cursor_read_ahead _ _ _ _ Hc1) as (a & r & Ear & Hc2 & Hpump2 & He2 & Ht2).
  unfold next0. rewrite E1. cbv zeta. set (it2 := try_read_ahead s it1) in *.
  pose proof (wf_length _ Hwf). pose proof (wf_size_range _ Hwf).
  assert (ri_data it2 = marshal (header_data t.2.1 (len (encoded t.2.2)) (wal_crc32 (encoded t.2.2)))
     ++ encoded t.2.2 ++ frames_of cur1.*2) as Hd.
  { rewrite (cu_data _ _ _ _ Hc2). unfold frames_of. cbn [fmap list_fmap concat]. unfold frame_record.
    rewrite u32_small by int_lia. by rewrite <- app_assoc. }
  rewrite Hd, length_app, length_marshal. unfold WAL_RECORD_HEADER_SIZE. if_false.
  rewrite take_app_length', drop_app_length' by (by rewrite length_marshal).
  rewrite <- (app_nil_r (marshal _)), unmarshal_marshal; cbn [header_data rh_magic rh_body_length rh_body_offset rh_body_crc].
  2: { unfold wf_header; cbn. split_and!; [by left|int_lia|auto with s3|].
       pose proof (wal_crc32_range (encoded t.2.2)). int_lia. }
  cbn [map_err rh_magic rh_body_length rh_body_offset rh_body_crc]. if_false.
  rewrite (take_body_here (encoded t.2.2) (frames_of cur1.*2)) by done. rewrite set_data_twice. if_false.
  rewrite parse_whole by done. cbn [map_err].
  unfold WAL_RECORD_HEADER_SIZE.
  replace (u64 (u64 (t.2.1 + Z.of_nat 24) - Z.of_nat 24)) with t.2.1 by int_lia.
  cbn [set_data ri_epochs]. rewrite He2, He1, Hk.
  rewrite u32_small by int_lia.
  exists cur1, a, r, (set_data (frames_of cur1.*2) it2). split_and!.
  - do 3 f_equal. unfold recovered_of, WAL_RECORD_HEADER_SIZE. f_equal. f_equal. lia.
  - by apply cursor_set_data with t.
  - done.
  - by rewrite <- Ear.
  - cbn. congruence.
  - cbn. congruence.
Qed.

Lemma has_next_spec cur ahead rest it :
  Cursor cur ahead rest it → has_next0 it = true ↔ cur ++ ((ahead ++ rest) ≫= tagged) ≠ [].
Proof.
  intros [_ Ho Hi Ha _ Hd Hok _]. unfold has_next0. rewrite Hd, Ha.
  destruct cur as [|t cur].
  2: { unfold frames_of. cbn [fmap list_fmap concat]. case_bool_decide as E; [|done].
       apply (f_equal length) in E. rewrite length_app, length_frame_record in E. cbn in E. lia. }
  cbn [fmap list_fmap frames_of concat app]. rewrite bool_decide_true by done.
  assert (∀ x xs, Forall stored_ok (x :: xs) → (x :: xs) ≫= tagged ≠ []) as Hne.
  { intros x xs [Hx _]%Forall_cons. pose proof (so_records _ Hx). cbn. unfold tagged at 1.
    by destruct (st_records x). }
  destruct ahead as [|x ahead]; cbn [app] in *.
  - apply (f_equal length) in Ho. rewrite length_drop, length_fmap in Ho.
    destruct rest as [|x rest]; cbn [fmap list_fmap length] in *.
    + rewrite bool_decide_true by done. cbn [negb orb mbind list_bind].
      split; [|done]. intros H1%Nat.ltb_lt. lia.
    + split; [intros _; by apply Hne|]. intros _. rewrite bool_decide_true by done. cbn [negb orb].
      apply Nat.ltb_lt. lia.
  - split; [intros _; by apply Hne|done].
Qed.

(** Draining yields every record left that [next] does not skip, and no error. *)
Lemma drain_spec fuel cur ahead rest it :
  Cursor cur ahead rest it → (ahead = [] → rest = []) →
  let ts := cur ++ ((ahead ++ rest) ≫= tagged) in
  Forall (λ t, wf_batch t.2.2 ∧ is_u64 t.2.1
    ∧ ∃ k, floor_entry t.2.1 (ri_epochs it) = Some (k, wo_epoch t.1)) ts →
  (length ts < fuel)%nat →
  drain s fuel it
  = Some (filter (λ r, skipped (ri_trim_offset it) r = false) (recovered_of <$> ts), None).
Proof.
  revert cur ahead rest it; induction fuel as [|fuel IH]; intros cur ahead rest it Hc Hp ts Hts Hf; [lia|].
  cbn [drain]. pose proof (has_next_spec _ _ _ _ Hc) as Hn. fold ts in Hn.
  destruct ts as [|t ts'] eqn:Ets; subst ts.
  { destruct (has_next0 it); [|done]. by destruct (proj1 Hn eq_refl). }
  rewrite (proj2 Hn) by done. cbn [negb].
  apply Forall_cons in Hts as [(Hwf & Ho & Hk) Hts].
  destruct (next0_spec _ _ _ _ _ _ Hc Hp Ets Hwf Ho Hk) as (cur' & a & r & it' & -> & Hc' & Hp' & E & He & Ht).
  rewrite (IH cur' a r it' Hc' Hp'); rewrite ?E, ?He; [|done|cbn in Hf; lia].
  rewrite Ht. cbn [fmap list_fmap]. rewrite filter_cons.
  destruct (skipped _ (recovered_of t)) eqn:Es; [rewrite decide_False by done|rewrite decide_True by done]; done.
Qed.

Lemma trim_offset_read xs : Forall stored_ok xs → get_trim_offset (st_object <$> xs) s = Ok (header_trim xs).
Proof.
  intros Hok. unfold get_trim_offset, header_trim. rewrite fmap_last.
  destruct (last xs) as [x|] eqn:El; [|done]. cbn [fmap option_fmap option_map].
  assert (stored_ok x) as Hx by (rewrite Forall_forall in Hok; by apply Hok, last_Some_elem_of).
  assert (Z.of_nat (header_size (st_header x)) ≤ Z.of_nat MAX_WAL_HEADER_SIZE) as Hle.
  { unfold header_size, MAX_WAL_HEADER_SIZE, WAL_HEADER_SIZE_V1, WAL_HEADER_SIZE_V0. destruct (_ =? _); lia. }
  pose proof (length_header_marshal (st_header x)).
  assert (len (object_data x) = Z.of_nat (header_size (st_header x)) + len (frames_of (st_records x))) as El'.
  { unfold object_data. rewrite length_app. lia. }
  rewrite (so_data _ Hx) by (rewrite (so_size _ Hx); lia). cbn [map_err].
  set (n := Z.min _ _). assert (header_size (st_header x) ≤ Z.to_nat n)%nat as Hn.
  { unfold n. rewrite (so_size _ Hx), El'. lia. }
  unfold slice, object_data. rewrite drop_0, take_app_ge by lia.
  by rewrite (header_unmarshal_marshal _ _ (so_header _ Hx)).
Qed.

(** Every record of the run finds the epoch of its object. *)
Lemma run_records xs run t :
  ascending (st_object <$> xs) → Forall stored_ok xs → run ⊆ xs → t ∈ run ≫= tagged →
  wf_batch t.2.2 ∧ is_u64 t.2.1
  ∧ ∃ k, floor_entry t.2.1 (epoch_map None (st_object <$> xs) ∅) = Some (k, wo_epoch t.1).
Proof.
  intros Hasc Hok Hsub (x & Ht & Hx)%list_elem_of_bind.
  unfold tagged in Ht. apply list_elem_of_fmap in Ht as ([off r] & -> & Hr). cbn.
  apply Hsub in Hx. rewrite Forall_forall in Hok. specialize (Hok _ Hx).
  destruct (so_record _ Hok _ _ Hr) as [Hwf Hoff]. pose proof (so_bounds _ Hok).
  split_and!; [done|int_lia|].
  apply epoch_floor; [done| |done| |done].
  - apply list_elem_of_fmap. by exists x.
  - intros k o' [v Hv]. by rewrite lookup_empty in Hv.
Qed.

Lemma recover_run xs max_readahead fuel :
  ascending (st_object <$> xs) → Forall stored_ok xs → sizes xs < 2 ^ 64 → 0 < max_readahead →
  (length (xs ≫= tagged) < fuel)%nat →
  ∃ dropped run tail, xs = dropped ++ run ++ tail ∧ split_at (header_trim xs) dropped run tail
    ∧ recover_stream s fuel (st_object <$> xs) max_readahead
      = Some (filter (λ r, skipped (header_trim xs) r = false) (results_of run), None).
Proof.
  intros Hasc Hok Hsz Hmax Hfuel.
  destruct (continuous_split (header_trim xs) xs) as (dropped & run & tail & Exs & Hsp & Hrun).
  exists dropped, run, tail. split_and!; [done|done|].
  unfold recover_stream, iterator_new. rewrite trim_offset_read by done. cbv zeta. rewrite Hrun.
  pose proof Hok as Hok'. rewrite Exs in Hok', Hsz. rewrite !sizes_app in Hsz.
  apply Forall_app in Hok' as [Hokd [Hokr Hokt]%Forall_app].
  pose proof (sizes_pos _ Hokd). pose proof (sizes_pos _ Hokt).
  set (it0 := mkRI _ _ _ _ _ _ _ _).
  assert (Cursor [] [] run it0) as Hc0 by (constructor; cbn; [done|by rewrite drop_0|lia|done|done|done|done|lia]).
  destruct (cursor_read_ahead _ _ _ _ Hc0) as (a & r & E & Hc & Hp & He & Ht).
  cbn [app] in E.
  rewrite (drain_spec fuel [] a r _ Hc Hp); rewrite ?He, ?Ht; cbn [app]; rewrite <- ?E; [done| |].
  - apply Forall_forall. intros t Hin. apply (run_records xs run); [done|done| |done].
    intros x Hx. rewrite Exs. apply elem_of_app. right. apply elem_of_app. by left.
  - rewrite Exs, !bind_app, !length_app in Hfuel. lia.
Qed.
End RecoverSpec.

Lemma linked_app e l1 l2 : linked e (l1 ++ l2) → linked e l1 ∧ linked (run_end e l1) l2.
Proof. revert e; induction l1 as [|x l1 IH]; intros e; cbn; [done|]. intros [? ?%IH]. tauto. Qed.

Lemma split_linked t dropped run tail :
  split_at t dropped run tail → (∃ e, linked e (dropped ++ run ++ tail)) → tail = [].
Proof.
  intros Hsp [e [_ Hl]%linked_app].
  destruct run as [|x rest]; [by apply Hsp|]. destruct Hl as [_ [_ Ht]%linked_app].
  destruct tail as [|y tail]; [done|]. destruct Ht as [Ht _].
  by destruct (sp_gap _ _ _ _ Hsp x rest y eq_refl eq_refl).
Qed.

Lemma dropped_skipped {S : Type} `{!ObjectStorage S} `{!Crc32Fast} (s : S) t dropped :
  Forall (stored_ok s) dropped → Forall (λ x, i64 (wo_end_offset (st_object x)) ≤ t) dropped →
  filter (λ r, skipped t r = false) (results_of dropped) = [].
Proof.
  intros Hok Hd. apply filter_none. intros r Hr.
  unfold results_of in Hr. apply list_elem_of_fmap in Hr as (p & -> & Hp).
  apply list_elem_of_bind in Hp as (x & Hp & Hx). unfold tagged in Hp.
  apply list_elem_of_fmap in Hp as ([off b] & -> & Hr).
  rewrite Forall_forall in Hok, Hd. specialize (Hok _ Hx). specialize (Hd _ Hx). cbn in Hd.
  destruct (so_record _ _ Hok _ _ Hr) as [_ ?]. pose proof (so_bounds _ _ Hok).
  assert (is_i64 (wo_end_offset (st_object x)) ∧ is_i64 off) as [He Ho] by (split; int_lia).
  unfold skipped. cbn. rewrite (i64_small off) by done. rewrite i64_small in Hd by done.
  assert ((off <=? t) = true) as -> by lia. done.
Qed.

(** Nothing is lost when the objects continue each other. *)
Lemma recover_complete {S : Type} `{!ObjectStorage S} `{!Crc32Fast} (s : S) xs e max_readahead fuel :
  linked e xs → ascending (st_object <$> xs) → Forall (stored_ok s) xs → sizes xs < 2 ^ 64 →
  0 < max_readahead → (length (xs ≫= tagged) < fuel)%nat →
  recover_stream s fuel (st_object <$> xs) max_readahead
  = Some (filter (λ r, skipped (header_trim xs) r = false) (results_of xs), None).
Proof.
  intros Hl Hasc Hok Hsz Hmax Hf.
  destruct (recover_run s xs max_readahead fuel) as (dropped & run & tail & Exs & Hsp & ->); try done.
  assert (tail = []) as Ht. { apply (split_linked _ _ _ _ Hsp). exists e. by rewrite <- Exs. }
  rewrite Ht, app_nil_r in Exs. rewrite Exs in Hok. apply Forall_app in Hok as [Hokd _].
  assert (results_of xs = results_of dropped ++ results_of run) as ->.
  { rewrite Exs. unfold results_of. by rewrite bind_app, fmap_app. }
  rewrite filter_app, (dropped_skipped s _ dropped Hokd) by apply Hsp. done.
Qed.

(** ** Properties *)

(** C22: recovery over any set of stored WAL objects yields, without an error and
    in order, exactly the records of the continuous run that starts at the first
    object past the newest header's trim offset, less trimmed and fake records,
    each with its offset, its framed size and the epoch of its own object; it
    always terminates, whatever the prefetch budget is. *)
Theorem wal_recovery_exact {S : Type} `{!ObjectStorage S} `{!Crc32Fast} (s : S) xs max_readahead fuel :
  ascending (st_object <$> xs) → Forall (stored_ok s) xs → sizes xs < 2 ^ 64 → 0 < max_readahead →
  (length (xs ≫= tagged) < fuel)%nat →
  ∃ dropped run tail, xs = dropped ++ run ++ tail ∧ split_at (header_trim xs) dropped run tail
    ∧ recover_stream s fuel (st_object <$> xs) max_readahead
      = Some (filter (λ r, skipped (header_trim xs) r = false) (results_of run), None).
Proof. apply recover_run. Qed.

(** When the objects continue each other, recovery loses nothing: it yields
    every record of every object that is past the trim offset and not a fake trim
    record, exactly once and in WAL order. *)
Theorem wal_recovery_complete {S : Type} `{!ObjectStorage S} `{!Crc32Fast} (s : S) xs e max_readahead fuel :
  linked e xs → ascending (st_object <$> xs) → Forall (stored_ok s) xs → sizes xs < 2 ^ 64 →
  0 < max_readahead → (length (xs ≫= tagged) < fuel)%nat →
  recover_stream s fuel (st_object <$> xs) max_readahead
  = Some (filter (λ r, skipped (header_trim xs) r = false) (results_of xs), None).
Proof. apply recover_complete. Qed.

(** Two epochs of one node: the second one's header trims the first record. *)
Module RecoverDemo.
#[local] Existing Instance Crc32IsoHdlc.crc32_iso_hdlc.

Definition object (key : bytes) (epoch start_offset size : Z) : WalObject :=
  {| wo_bucket_id := 0; wo_key := key; wo_epoch := epoch; wo_start_offset := start_offset;
     wo_end_offset := start_offset + DATA_FILE_ALIGN_SIZE; wo_size := size |}.
Definition x0 : Stored :=
  {| st_object := object [97] 1 0 164; st_header := header_v1 0 116 3 1 (-1);
     st_records := [(0, new 7 1 0 1 [1]); (58, new 7 1 1 1 [2])] |}.
Definition x1 : Stored :=
  {| st_object := object [98] 2 DATA_FILE_ALIGN_SIZE 163;
     st_header := header_v1 DATA_FILE_ALIGN_SIZE 115 3 2 0;
     st_records := [(DATA_FILE_ALIGN_SIZE, new U64_MAX U64_MAX 0 0 []);
                    (DATA_FILE_ALIGN_SIZE + 57, new 7 2 2 1 [3])] |}.
Definition store : MemoryObjectStorage :=
  ms_write (ms_write (ms_new 0) 5 [97] (object_data x0)) 6 [98] (object_data x1).

Lemma wf_small a b c d p : is_bytes p → len p < 10 → wf_batch (new a b c d p).
Proof. intros. apply wf_new; [done|lia]. Qed.

Lemma x0_ok : stored_ok store x0.
Proof.
  constructor; try done.
  - unfold wf_wal_header. cbn. split_and!; try done. by left.
  - intros x y ? ?. unfold store.
    change (os_range_read (os_write (os_write (ms_new 0) 5 [97] (object_data x0)) 6 [98] (object_data x1)) [97] x (Some y)
      = Ok (slice x y (object_data x0))).
    rewrite os_write_other by done. by apply os_range_write.
  - intros off r Hin. cbn in Hin. apply elem_of_cons in Hin as [[= -> ->]|Hin%list_elem_of_singleton].
    + split; [apply wf_small; [repeat constructor; done|done]|done].
    + simplify_eq. split; [apply wf_small; [repeat constructor; done|done]|done].
Qed.

Lemma x1_ok : stored_ok store x1.
Proof.
  constructor; try done.
  - unfold wf_wal_header. cbn. split_and!; try done. by left.
  - intros x y ? ?. unfold store.
    change (os_range_read (os_write (os_write (ms_new 0) 5 [97] (object_data x0)) 6 [98] (object_data x1)) [98] x (Some y)
      = Ok (slice x y (object_data x1))).
    by apply os_range_write.
  - intros off r Hin. cbn in Hin. apply elem_of_cons in Hin as [[= -> ->]|Hin%list_elem_of_singleton].
    + split; [apply wf_small; [repeat constructor; done|done]|done].
    + simplify_eq. split; [apply wf_small; [repeat constructor; done|done]|done].
Qed.

Lemma stored : Forall (stored_ok store) [x0; x1].
Proof. apply Forall_cons. split; [apply x0_ok|]. apply Forall_singleton, x1_ok. Qed.

Lemma ordered : ascending (st_object <$> [x0; x1]).
Proof. split; repeat constructor; done. Qed.
End RecoverDemo.

Lemma wal_recovery_exact_witness :
  ∃ dropped run tail, [RecoverDemo.x0; RecoverDemo.x1] = dropped ++ run ++ tail
    ∧ split_at 0 dropped run tail
    ∧ @recover_stream _ _ Crc32IsoHdlc.hash RecoverDemo.store 5
        (st_object <$> [RecoverDemo.x0; RecoverDemo.x1]) 100
      = Some (filter (λ r, skipped 0 r = false) (results_of run), None).
Proof.
  apply (@wal_recovery_exact _ _ Crc32IsoHdlc.hash RecoverDemo.store [RecoverDemo.x0; RecoverDemo.x1] 100 5).
  - apply RecoverDemo.ordered.
  - apply RecoverDemo.stored.
  - done.
  - done.
  - vm_compute. lia.
Defined.

Lemma wal_recovery_complete_witness :
  @recover_stream _ _ Crc32IsoHdlc.hash RecoverDemo.store 5
    (st_object <$> [RecoverDemo.x0; RecoverDemo.x1]) 100
  = Some ([ {| rr_record := new 7 1 1 1 [2];
               rr_record_offset := {| ro_epoch := 1; ro_offset := 58; ro_size := 58 |} |};
            {| rr_record := new 7 2 2 1 [3];
               rr_record_offset := {| ro_epoch := 2; ro_offset := DATA_FILE_ALIGN_SIZE + 57; ro_size := 58 |} |} ], None).
Proof.
  rewrite (@wal_recovery_complete _ _ Crc32IsoHdlc.hash RecoverDemo.store [RecoverDemo.x0; RecoverDemo.x1] 0 100 5).
  - reflexivity.
  - done.
  - apply RecoverDemo.ordered.
  - apply RecoverDemo.stored.
  - done.
  - done.
  - vm_compute. lia.
Defined.
