(* ===== verification/WalMemory.v ===== *)
(** * The in-memory write-ahead log

    Models [s3stream-wal/src/memory.rs]: appends are durable and confirmed the moment
    they are placed.  [mem_submit] returns the append result with which the confirm
    listener is called.  The theorem relates it to the log it stands for: the list of
    all appended records and a watermark. *)
From S2P Require Import Prelude Collections Codec WalFormat.

Record MemoryWriteAheadLog : Type := mkMW {
  mw_node_id : Z;
  mw_epoch : Z;
  mw_started : bool;
  mw_records : gmap Z StreamRecordBatch;
  mw_next_offset : Z;
  mw_trim_offset : Z;
}.

Definition FRAME_OVERHEAD : Z := Z.of_nat WAL_RECORD_HEADER_SIZE.

Definition mem_new (node_id epoch : Z) : MemoryWriteAheadLog := mkMW node_id epoch false ∅ 0 0.
Definition set_started (b : bool) (w : MemoryWriteAheadLog) : MemoryWriteAheadLog :=
  mkMW (mw_node_id w) (mw_epoch w) b (mw_records w) (mw_next_offset w) (mw_trim_offset w).
Definition mem_start (w : MemoryWriteAheadLog) : MemoryWriteAheadLog := set_started true w.
Definition mem_shutdown_gracefully (w : MemoryWriteAheadLog) : MemoryWriteAheadLog := set_started false w.

Definition ensure_started (w : MemoryWriteAheadLog) : result WalError unit :=
  if mw_started w then Ok tt else Err WE_NotInitialized.

Definition framed_size (r : StreamRecordBatch) : Z := u32 (u64 (len (encoded r) + FRAME_OVERHEAD)).

Definition mem_submit (record : StreamRecordBatch) (w : MemoryWriteAheadLog)
  : MemoryWriteAheadLog * result WalError AppendResult :=
  match ensure_started w with
  | Err e => (w, Err e)
  | Ok _ =>
      let size := framed_size record in
      let offset := mw_next_offset w in
      let next_offset := u64 (offset + size) in
      (mkMW (mw_node_id w) (mw_epoch w) (mw_started w) (<[offset := record]> (mw_records w)) next_offset
         (mw_trim_offset w),
       Ok {| ar_record_offset := {| ro_epoch := mw_epoch w; ro_offset := offset; ro_size := size |};
             ar_next_offset := {| ro_epoch := mw_epoch w; ro_offset := next_offset; ro_size := 0 |} |})
  end.

Definition mem_get (offset : RecordOffset) (w : MemoryWriteAheadLog) : result WalError StreamRecordBatch :=
  let? _ := ensure_started w in
  match mw_records w !! ro_offset offset with Some r => Ok r | None => Err WE_NotInitialized end.

Definition mem_get_range (start end_ : RecordOffset) (w : MemoryWriteAheadLog)
  : result WalError (list StreamRecordBatch) :=
  let? _ := ensure_started w in Ok (range (ro_offset start) (ro_offset end_) (mw_records w)).*2.

Definition mem_confirm_offset (w : MemoryWriteAheadLog) : RecordOffset :=
  {| ro_epoch := mw_epoch w; ro_offset := mw_next_offset w; ro_size := 0 |}.

Definition recovered (epoch : Z) (p : Z * StreamRecordBatch) : RecoverResult :=
  {| rr_record := p.2;
     rr_record_offset := {| ro_epoch := epoch; ro_offset := p.1; ro_size := framed_size p.2 |} |}.

Definition mem_recover (w : MemoryWriteAheadLog) : list (result WalError RecoverResult) :=
  (Ok ∘ recovered (mw_epoch w)) <$> entries (mw_records w).

Definition mem_reset (w : MemoryWriteAheadLog) : MemoryWriteAheadLog :=
  mkMW (mw_node_id w) (mw_epoch w) (mw_started w) ∅ (mw_next_offset w) (mw_next_offset w).

Definition mem_trim (offset : RecordOffset) (w : MemoryWriteAheadLog) : MemoryWriteAheadLog :=
  let trim := Z.max (mw_trim_offset w) (end_offset offset) in
  mkMW (mw_node_id w) (mw_epoch w) (mw_started w) (filter (λ p, trim <= p.1) (mw_records w)) (mw_next_offset w) trim.

(** ** The log it stands for *)

(** Every record ever appended, at its offset, and the watermark below which the log
    was trimmed. *)
Record AbstractLog : Type := mkLog { al_records : list (Z * StreamRecordBatch); al_trim : Z }.

Inductive LogOp : Type := LogAppend (r : StreamRecordBatch) | LogTrim (o : RecordOffset) | LogReset.

Definition log_end (l : AbstractLog) : Z :=
  match last (al_records l) with Some (o, r) => o + framed_size r | None => 0 end.
Definition log_step (op : LogOp) (l : AbstractLog) : AbstractLog :=
  match op with
  | LogAppend r => mkLog (al_records l ++ [(log_end l, r)]) (al_trim l)
  | LogTrim o => mkLog (al_records l) (Z.max (al_trim l) (end_offset o))
  | LogReset => mkLog (al_records l) (log_end l)
  end.
Definition log_live (l : AbstractLog) : list (Z * StreamRecordBatch) := filter (λ p, al_trim l <= p.1) (al_records l).

Definition mem_step (op : LogOp) (w : MemoryWriteAheadLog) : MemoryWriteAheadLog :=
  match op with
  | LogAppend r => (mem_submit r w).1
  | LogTrim o => mem_trim o w
  | LogReset => mem_reset w
  end.

(** The offsets stay below 2^64, a record is not larger than a frame can say, and a
    trim does not exceed what was confirmed. *)
Definition op_fits (op : LogOp) (l : AbstractLog) : Prop :=
  match op with
  | LogAppend r => len (encoded r) + FRAME_OVERHEAD < 2 ^ 32 ∧ log_end l + framed_size r < 2 ^ 64
  | LogTrim o => end_offset o ≤ log_end l
  | LogReset => True
  end.

Record stands_for (w : MemoryWriteAheadLog) (l : AbstractLog) : Prop := {
  sf_started : mw_started w = true;
  sf_next : mw_next_offset w = log_end l;
  sf_trim : mw_trim_offset w = al_trim l;
  sf_trim_le : al_trim l ≤ log_end l;
  sf_end : 0 ≤ log_end l < 2 ^ 64;
  sf_sorted : StronglySorted Z.lt (al_records l).*1;
  sf_below : Forall (λ p, p.1 < log_end l) (al_records l);
  sf_records : ∀ k v, mw_records w !! k = Some v ↔ (k, v) ∈ log_live l;
}.

Lemma framed_size_pos r : len (encoded r) + FRAME_OVERHEAD < 2 ^ 32 → 0 < framed_size r.
Proof.
  intros H. unfold framed_size, FRAME_OVERHEAD in *. rewrite u64_small by int_lia. rewrite u32_small by int_lia.
  unfold WAL_RECORD_HEADER_SIZE. lia.
Qed.

Lemma log_end_append l r :
  log_end (mkLog (al_records l ++ [(log_end l, r)]) (al_trim l)) = log_end l + framed_size r.
Proof. unfold log_end at 1. cbn. by rewrite last_snoc. Qed.

Lemma mem_step_ok op w l : stands_for w l → op_fits op l → stands_for (mem_step op w) (log_step op l).
Proof.
  intros [Hst Hn Ht Ht0 He Hs Hb Hr] Hop. destruct op as [r|o|]; cbn [mem_step log_step].
  - destruct Hop as [Hsz Hfit]. pose proof (framed_size_pos r Hsz) as Hpos.
    unfold mem_submit, ensure_started. rewrite Hst. cbn [fst]. constructor; rewrite ?log_end_append;
      cbn [al_records al_trim mw_started mw_next_offset mw_trim_offset mw_records]; try done; [|lia|lia|..].
    + rewrite Hn. apply u64_small. int_lia.
    + rewrite fmap_app. apply StronglySorted_app. split_and!; [|done|repeat constructor].
      intros x y Hx ->%list_elem_of_singleton. apply list_elem_of_fmap in Hx as (p & -> & Hp).
      rewrite Forall_forall in Hb. by apply Hb.
    + apply Forall_app. split; [|by apply Forall_singleton; cbn; lia].
      eapply Forall_impl; [exact Hb|]. intros p Hp. cbn in *. lia.
    + intros k v. unfold log_live in *. cbn [al_records al_trim]. rewrite filter_app, elem_of_app, Hn, lookup_insert_Some, Hr.
      rewrite (list_elem_of_filter _ [_]), list_elem_of_singleton. split.
      * intros [[<- <-]|[? ?]]; [|by left]. right. cbn. by split.
      * intros [H|[_ [= -> ->]]]; [|by left]. right. split; [|done]. apply list_elem_of_filter in H as [_ H].
        rewrite Forall_forall in Hb. specialize (Hb _ H). cbn in Hb. lia.
  - assert (log_end (mkLog (al_records l) (Z.max (al_trim l) (end_offset o))) = log_end l) as El by done.
    cbn in Hop. constructor; rewrite ?El; cbn [al_records al_trim mem_trim mw_started mw_next_offset mw_trim_offset]; try done; [congruence|lia|].
    intros k v. unfold mem_trim. cbn [mw_records]. rewrite map_lookup_filter_Some, Hr, Ht. unfold log_live. cbn [al_trim al_records].
    rewrite !list_elem_of_filter. cbn. split; [intros [[? ?] ?]|intros [? ?]]; (split; [|done || lia]); [done|split; [lia|done]].
  - assert (log_end (mkLog (al_records l) (log_end l)) = log_end l) as El by done.
    constructor; rewrite ?El; cbn [al_records al_trim mem_reset mw_started mw_next_offset mw_trim_offset mw_records]; try done.
    intros k v. rewrite lookup_empty. split; [done|]. unfold log_live. cbn [al_trim al_records].
    intros [H1 H2]%list_elem_of_filter. rewrite Forall_forall in Hb. specialize (Hb _ H2). cbn in *. lia.
Qed.

Lemma new_stands_for node_id epoch : stands_for (mem_start (mem_new node_id epoch)) (mkLog [] 0).
Proof. constructor; try done; [constructor|]. intros k v. cbn. rewrite lookup_empty. split; [done|]. intros H%not_elem_of_nil. done. Qed.

(** Runs of operations, each within its bounds. *)
Inductive mem_run : MemoryWriteAheadLog → AbstractLog → list LogOp → MemoryWriteAheadLog → AbstractLog → Prop :=
| mem_run_nil w l : mem_run w l [] w l
| mem_run_cons w l op ops w' l' :
    op_fits op l → mem_run (mem_step op w) (log_step op l) ops w' l' → mem_run w l (op :: ops) w' l'.

Lemma mem_run_ok w l ops w' l' : mem_run w l ops w' l' → stands_for w l → stands_for w' l'.
Proof. induction 1 as [|w l op ops w' l' Hop _ IH]; [done|]. intros H. by apply IH, mem_step_ok. Qed.

Lemma mem_epoch_run w l ops w' l' : mem_run w l ops w' l' → mw_epoch w' = mw_epoch w.
Proof.
  induction 1 as [|w l op ops w' l' _ _ IH]; [done|]. rewrite IH. destruct op; try done.
  cbn. unfold mem_submit. by destruct (ensure_started w).
Qed.

(** The in-memory log refines the write-ahead log contract: after any run of appends,
    trims up to the confirmed end and resets, recovery yields exactly the appended
    records past the watermark, in order and at their offsets, each of them is read
    back at its offset, and the confirm offset is the end of the log. *)
Theorem memory_wal_refines node_id epoch ops w l :
  mem_run (mem_start (mem_new node_id epoch)) (mkLog [] 0) ops w l →
  mem_recover w = (Ok ∘ recovered epoch) <$> log_live l
  ∧ (∀ o r, (o, r) ∈ log_live l →
       mem_get {| ro_epoch := epoch; ro_offset := o; ro_size := framed_size r |} w = Ok r)
  ∧ ro_offset (mem_confirm_offset w) = log_end l.
Proof.
  intros Hrun. pose proof (mem_run_ok _ _ _ _ _ Hrun (new_stands_for _ _)) as [Hst Hn Ht Ht0 He Hs Hb Hr].
  split_and!; [|intros o r Ho|done].
  - unfold mem_recover. rewrite (mem_epoch_run _ _ _ _ _ Hrun). f_equal. apply entries_unique.
    + unfold log_live. clear -Hs. induction (al_records l) as [|p ps IH]; [constructor|].
      rewrite fmap_cons in Hs. apply StronglySorted_cons in Hs as [Hp Hs]. rewrite filter_cons. case_decide; [|by apply IH].
      constructor; [by apply IH|]. apply Forall_fmap, Forall_forall. intros q [_ Hq]%list_elem_of_filter.
      rewrite Forall_fmap, Forall_forall in Hp. by apply Hp.
    + intros k v. by rewrite Hr.
  - unfold mem_get, ensure_started. rewrite Hst. cbn. by rewrite (proj2 (Hr o r) Ho).
Qed.

Lemma memory_wal_refines_witness :
  let a := new 7 0 0 1 [1] in
  let b := new 7 0 1 1 [2] in
  let ops := [LogAppend a; LogAppend b; LogTrim {| ro_epoch := 3; ro_offset := 0; ro_size := framed_size a |}] in
  let w := foldl (λ w op, mem_step op w) (mem_start (mem_new 1 3)) ops in
  mem_recover w = [Ok (recovered 3 (framed_size a, b))].
Proof.
  intros a b ops w.
  destruct (memory_wal_refines 1 3 ops w (foldl (λ l op, log_step op l) (mkLog [] 0) ops)) as [H _].
  - repeat (apply mem_run_cons; [vm_compute; intuition discriminate|]). apply mem_run_nil.
  - rewrite H. vm_compute. reflexivity.
Defined.
