(* ===== verification/LogCache.v ===== *)
(** * LogCache: the readable in-memory twin of the delta WAL

    Models [s3stream-core/src/cache/log_cache.rs].  A block is shared by [Arc]
    between the cache and the upload task; the cache's list holds the shared state
    and a block is named by its [block_id].  Reads update the per-stream position
    hints, so every read returns the new state.  The block creation time and the log
    lines are left out; the static id allocator is a field of the cache. *)
From S2P Require Import Prelude Collections Codec WalFormat.

Definition MATCH_ALL_STREAMS : Z := U64_MAX.
Definition MAX_BLOCKS_COUNT : nat := 64.
Definition MERGE_BLOCK_THRESHOLD : nat := 8.
Definition DEFAULT_MAX_BLOCK_STREAM_COUNT : Z := 10000.

(** ** StreamCache *)

Record StreamCache : Type := mkSC {
  sc_records : list StreamRecordBatch;
  sc_start_offset : option Z;
  sc_end_offset : option Z;
  sc_offset_index_map : gmap Z (nat * Z);
}.

Definition stream_cache_new : StreamCache := mkSC [] None None ∅.

(** A discontinuous base offset is only logged. *)
Definition sc_add (record : StreamRecordBatch) (c : StreamCache) : StreamCache * bool :=
  let effective_start := default (base_offset record) (sc_start_offset c) in
  if I32_MAX <? u64 (last_offset record - effective_start) then (c, false)
  else
    (mkSC (sc_records c ++ [record])
       (Some (default (base_offset record) (sc_start_offset c)))
       (Some (last_offset record)) (sc_offset_index_map c), true).

Fixpoint search_records (fuel : nat) (records : list StreamRecordBatch) (start_offset : Z) (lo hi : nat)
  : option nat :=
  match fuel with
  | O => None
  | S fuel' =>
      if (lo <? hi)%nat then
        let mid := ((lo + hi) / 2)%nat in
        let* record := records !! mid in
        if start_offset <? base_offset record then search_records fuel' records start_offset lo mid
        else if last_offset record <=? start_offset
        then search_records fuel' records start_offset (mid + 1) hi
        else Some mid
      else None
  end.

Definition search_start_index (start_offset : Z) (c : StreamCache) : StreamCache * option nat :=
  match sc_offset_index_map c !! start_offset with
  | Some (index, count) =>
      let hints := if count <=? 1 then delete start_offset (sc_offset_index_map c)
                   else <[start_offset := (index, count - 1)]> (sc_offset_index_map c) in
      (mkSC (sc_records c) (sc_start_offset c) (sc_end_offset c) hints, Some index)
  | None =>
      (c, search_records (S (length (sc_records c))) (sc_records c) start_offset 0 (length (sc_records c)))
  end.

(** The records taken from the front of [records]: until the end offset is covered
    or the bytes are used up. *)
Fixpoint take_batches (end_offset remaining : Z) (records : list StreamRecordBatch)
  : list StreamRecordBatch :=
  match records with
  | [] => []
  | record :: rest =>
      let remaining := remaining - Z.min remaining (size record) in
      if (end_offset <=? last_offset record) || (remaining =? 0) then [record]
      else record :: take_batches end_offset remaining rest
  end.

Definition sc_get (start_offset end_offset max_bytes : Z) (c : StreamCache)
  : StreamCache * list StreamRecordBatch :=
  match sc_start_offset c, sc_end_offset c with
  | Some cache_start, Some cache_end =>
      if (start_offset <? cache_start) || (cache_end <=? start_offset) then (c, [])
      else
        let '(c, found) := search_start_index start_offset c in
        match found with
        | None => (c, [])
        | Some start_index =>
            let records := take_batches end_offset max_bytes (drop start_index (sc_records c)) in
            let end_index := (start_index + length records)%nat in
            let c :=
              match last records with
              | None => c
              | Some record =>
                  let hits := match sc_offset_index_map c !! last_offset record with
                              | Some (_, n) => n
                              | None => 0
                              end in
                  mkSC (sc_records c) (sc_start_offset c) (sc_end_offset c)
                    (<[last_offset record := (end_index, u32 (hits + 1))]> (sc_offset_index_map c))
              end in
            (c, records)
        end
  | _, _ => (c, [])
  end.

Definition sc_range (c : StreamCache) : option (Z * Z) :=
  match sc_start_offset c, sc_end_offset c with
  | Some s, Some e => Some (s, e)
  | _, _ => None
  end.

(** ** LogCacheBlock *)

Record StreamRangeBound : Type := { sb_stream_id : Z; sb_start_offset : Z; sb_end_offset : Z }.

(** A free listener is a callback; it is named by a number. *)
Record LogCacheBlock : Type := mkLB {
  lb_block_id : Z;
  lb_max_size : Z;
  lb_max_stream_count : Z;
  lb_map : gmap Z StreamCache;
  lb_last_record_offset : option RecordOffset;
  lb_free_listeners : list Z;
  lb_size : Z;
  lb_overflow : bool;
  lb_free : bool;
}.

Definition block_new (id max_size max_stream_count : Z) : LogCacheBlock :=
  mkLB id max_size max_stream_count ∅ None [] 0 false false.

Definition set_map (m : gmap Z StreamCache) (b : LogCacheBlock) : LogCacheBlock :=
  mkLB (lb_block_id b) (lb_max_size b) (lb_max_stream_count b) m (lb_last_record_offset b)
    (lb_free_listeners b) (lb_size b) (lb_overflow b) (lb_free b).

Definition is_full (b : LogCacheBlock) : bool :=
  lb_overflow b || (lb_max_size b <=? lb_size b)
  || (lb_max_stream_count b <=? Z.of_nat (base.size (lb_map b))).

(** A refused record leaves its stream's (possibly empty) entry behind. *)
Definition block_put (record : StreamRecordBatch) (b : LogCacheBlock) : LogCacheBlock * bool :=
  if is_full b then (b, false)
  else
    let cache := default stream_cache_new (lb_map b !! stream_id record) in
    let '(cache, added) := sc_add record cache in
    let b := set_map (<[stream_id record := cache]> (lb_map b)) b in
    if negb added then
      (mkLB (lb_block_id b) (lb_max_size b) (lb_max_stream_count b) (lb_map b) (lb_last_record_offset b)
         (lb_free_listeners b) (lb_size b) true (lb_free b), false)
    else
      (mkLB (lb_block_id b) (lb_max_size b) (lb_max_stream_count b) (lb_map b) (lb_last_record_offset b)
         (lb_free_listeners b) (u64 (lb_size b + occupied_size record)) (lb_overflow b) (lb_free b), true).

Definition block_get (stream start_offset end_offset max_bytes : Z) (b : LogCacheBlock)
  : LogCacheBlock * list StreamRecordBatch :=
  match lb_map b !! stream with
  | None => (b, [])
  | Some cache =>
      let '(cache, records) := sc_get start_offset end_offset max_bytes cache in
      (set_map (<[stream := cache]> (lb_map b)) b, records)
  end.

Definition stream_range (stream : Z) (b : LogCacheBlock) : option (Z * Z) :=
  lb_map b !! stream ≫= sc_range.

Definition block_records (b : LogCacheBlock) : gmap Z (list StreamRecordBatch) :=
  sc_records <$> lb_map b.

Definition block_set_last_record_offset (offset : RecordOffset) (b : LogCacheBlock) : LogCacheBlock :=
  mkLB (lb_block_id b) (lb_max_size b) (lb_max_stream_count b) (lb_map b) (Some offset)
    (lb_free_listeners b) (lb_size b) (lb_overflow b) (lb_free b).

(** The first record with that base offset is replaced. *)
Fixpoint replace_first (base : Z) (decoded : StreamRecordBatch) (l : list StreamRecordBatch)
  : list StreamRecordBatch :=
  match l with
  | [] => []
  | r :: l' => if base_offset r =? base then decoded :: l' else r :: replace_first base decoded l'
  end.

Definition replace_record (stream base : Z) (decoded : StreamRecordBatch) (b : LogCacheBlock)
  : LogCacheBlock :=
  match lb_map b !! stream with
  | None => b
  | Some c =>
      set_map (<[stream := mkSC (replace_first base decoded (sc_records c)) (sc_start_offset c)
                             (sc_end_offset c) (sc_offset_index_map c)]> (lb_map b)) b
  end.

Definition contains_stream (stream : Z) (b : LogCacheBlock) : bool :=
  (stream =? MATCH_ALL_STREAMS) || bool_decide (is_Some (lb_map b !! stream)).

Definition add_free_listener (listener : Z) (b : LogCacheBlock) : LogCacheBlock :=
  mkLB (lb_block_id b) (lb_max_size b) (lb_max_stream_count b) (lb_map b) (lb_last_record_offset b)
    (lb_free_listeners b ++ [listener]) (lb_size b) (lb_overflow b) (lb_free b).

(** The bounds each listener is called with, in the order of the calls. *)
Definition free_and_notify (b : LogCacheBlock)
  : LogCacheBlock * list (Z * list StreamRangeBound) :=
  let bounds := omap (λ p, let* r := sc_range p.2 in
      Some {| sb_stream_id := p.1; sb_start_offset := r.1; sb_end_offset := r.2 |}) (entries (lb_map b)) in
  (mkLB (lb_block_id b) (lb_max_size b) (lb_max_stream_count b) ∅ (lb_last_record_offset b)
     [] (lb_size b) (lb_overflow b) (lb_free b), (λ l, (l, bounds)) <$> lb_free_listeners b).

Definition occupied (l : list StreamRecordBatch) : Z := foldr (λ r a, occupied_size r + a) 0 l.

Definition free_stream (stream : Z) (b : LogCacheBlock) : LogCacheBlock * Z :=
  match lb_map b !! stream with
  | None => (b, 0)
  | Some cache => (set_map (delete stream (lb_map b)) b, u64 (occupied (sc_records cache)))
  end.

(** ** LogCache *)

(** A block is shared by reference; its number names it, so the counter behind
    [lc_next_id] does not wrap. *)
Record LogCache : Type := mkLC {
  lc_capacity : Z;
  lc_block_max_size : Z;
  lc_max_stream_count : Z;
  lc_size : Z;
  lc_blocks : list LogCacheBlock;
  lc_last_record_offset : option RecordOffset;
  lc_next_id : Z;
}.

Definition log_cache_new (capacity block_max_size max_stream_count id : Z) : LogCache :=
  mkLC capacity block_max_size max_stream_count 0 [block_new id block_max_size max_stream_count]
    None (id + 1).

Definition set_blocks (blocks : list LogCacheBlock) (c : LogCache) : LogCache :=
  mkLC (lc_capacity c) (lc_block_max_size c) (lc_max_stream_count c) (lc_size c) blocks
    (lc_last_record_offset c) (lc_next_id c).
Definition set_size (size : Z) (c : LogCache) : LogCache :=
  mkLC (lc_capacity c) (lc_block_max_size c) (lc_max_stream_count c) size (lc_blocks c)
    (lc_last_record_offset c) (lc_next_id c).

Definition over (c : LogCache) (size : Z) (blocks : nat) : bool :=
  (lc_capacity c / 10 * 9 <? size) || (MAX_BLOCKS_COUNT <? blocks)%nat.

(** The freed prefix of the blocks, its size, and what is kept. *)
Fixpoint real_free (c : LogCache) (free_size : Z) (blocks : list LogCacheBlock)
  : list LogCacheBlock * Z * list LogCacheBlock :=
  match blocks with
  | [] => ([], free_size, [])
  | b :: rest =>
      if negb (over c (u64 (lc_size c - free_size)) (length blocks)) then ([], free_size, blocks)
      else if negb (lb_free b) then ([], free_size, blocks)
      else
        let '(removed, n, kept) := real_free c (u64 (free_size + lb_size b)) rest in
        (b :: removed, n, kept)
  end.

(** The removed blocks go to the cache's listener, then each to its own. *)
Definition try_real_free (c : LogCache) : LogCache * list LogCacheBlock :=
  if negb (over c (lc_size c) (length (lc_blocks c))) then (c, [])
  else
    let '(removed, free_size, kept) := real_free c 0 (lc_blocks c) in
    (set_size (u64 (lc_size c - free_size)) (set_blocks kept c), removed).

(** Update the block at the end of the list ([expect] on an empty one). *)
Fixpoint on_active {B} (f : LogCacheBlock → LogCacheBlock * B) (blocks : list LogCacheBlock)
  : option (list LogCacheBlock * B) :=
  match blocks with
  | [] => None
  | [b] => let '(b', r) := f b in Some ([b'], r)
  | b :: rest => let* (rest', r) := on_active f rest in Some (b :: rest', r)
  end.

Definition put (record : StreamRecordBatch) (c : LogCache) : option (LogCache * bool) :=
  let '(c, _) := try_real_free c in
  let* (blocks, added) := on_active (block_put record) (lc_blocks c) in
  let c := set_blocks blocks c in
  Some (if added : bool then set_size (u64 (lc_size c + occupied_size record)) c else c, added).

Definition total_size (l : list StreamRecordBatch) : Z := foldr (λ r a, size r + a) 0 l.

(** The first loop of [get0]: the records found, and whether they are enough. *)
Fixpoint get_pass (stream next_start_offset end_offset next_max_bytes : Z) (blocks : list LogCacheBlock)
  : list LogCacheBlock * list StreamRecordBatch * bool :=
  match blocks with
  | [] => ([], [], false)
  | b :: rest =>
      let '(b, records) := block_get stream next_start_offset end_offset next_max_bytes b in
      match last records with
      | None =>
          let '(rest, rst, fulfill) := get_pass stream next_start_offset end_offset next_max_bytes rest in
          (b :: rest, rst, fulfill)
      | Some l =>
          let next_start_offset := last_offset l in
          let next_max_bytes := next_max_bytes - Z.min next_max_bytes (u64 (total_size records)) in
          if (end_offset <=? next_start_offset) || (next_max_bytes =? 0) then (b :: rest, records, true)
          else
            let '(rest, rst, fulfill) := get_pass stream next_start_offset end_offset next_max_bytes rest in
            (b :: rest, records ++ rst, fulfill)
      end
  end.

(** The start of the longest continuous run that ends the stream, from the newest
    block backwards. *)
Fixpoint tail_start (current : option Z) (ranges : list (Z * Z)) : option Z :=
  match ranges with
  | [] => current
  | (range_start, range_end) :: rest =>
      match current with
      | None => tail_start (Some range_start) rest
      | Some cur => if cur =? range_end then tail_start (Some range_start) rest else current
      end
  end.

(** [get0] calls itself at most once; [None] is a third level. *)
Fixpoint get0 (fuel : nat) (stream start_offset end_offset max_bytes : Z) (blocks : list LogCacheBlock)
  : option (list LogCacheBlock * list StreamRecordBatch) :=
  match fuel with
  | O => None
  | S fuel' =>
      let '(blocks, rst, fulfill) := get_pass stream start_offset end_offset max_bytes blocks in
      if fulfill : bool then Some (blocks, rst)
      else
        match tail_start None (omap (stream_range stream) (reverse blocks)) with
        | None => Some (blocks, [])
        | Some tail =>
            if end_offset <=? tail then Some (blocks, [])
            else if tail <=? start_offset then Some (blocks, [])
            else get0 fuel' stream tail end_offset max_bytes blocks
        end
  end.

Definition get (stream start_offset end_offset max_bytes : Z) (c : LogCache)
  : option (LogCache * list StreamRecordBatch) :=
  let* (blocks, records) := get0 2 stream start_offset end_offset max_bytes (lc_blocks c) in
  Some (set_blocks blocks c, records).

(** The sealed block and the cache with a new active one. *)
Definition archive_current_block (c : LogCache) : option (LogCache * LogCacheBlock) :=
  let seal b := match lc_last_record_offset c with
                | Some offset => block_set_last_record_offset offset b
                | None => b
                end in
  let* (blocks, block) := on_active (λ b, (seal b, seal b)) (lc_blocks c) in
  let active := block_new (lc_next_id c) (lc_block_max_size c) (lc_max_stream_count c) in
  Some (mkLC (lc_capacity c) (lc_block_max_size c) (lc_max_stream_count c) (lc_size c)
          (blocks ++ [active]) (lc_last_record_offset c) (lc_next_id c + 1), block).

Definition archive_current_block_if_contains (stream : Z) (c : LogCache)
  : option (LogCache * option LogCacheBlock) :=
  let* active := last (lc_blocks c) in
  let should_archive := if stream =? MATCH_ALL_STREAMS then 0 <? lb_size active
                        else contains_stream stream active in
  if should_archive then
    let* (c, block) := archive_current_block c in Some (c, Some block)
  else Some (c, None).

Definition is_discontinuous (left right : LogCacheBlock) : bool :=
  existsb (λ p, match lb_map right !! p.1 with
                | None => false
                | Some r => negb (bool_decide (sc_end_offset p.2 = sc_start_offset r))
                end) (map_to_list (lb_map left)).

Definition merge_cache (merged source : option StreamCache) : option StreamCache :=
  match merged, source with
  | None, Some s => Some (mkSC (sc_records s) (sc_start_offset s) (sc_end_offset s) ∅)
  | Some m, Some s => Some (mkSC (sc_records m ++ sc_records s) (sc_start_offset m) (sc_end_offset s) ∅)
  | m, None => m
  end.

Definition merge_block (merged source : LogCacheBlock) : LogCacheBlock :=
  mkLB (lb_block_id merged) (lb_max_size merged) (lb_max_stream_count merged)
    (merge merge_cache (lb_map merged) (lb_map source))
    (match lb_last_record_offset source with Some o => Some o | None => lb_last_record_offset merged end)
    (lb_free_listeners merged) (u64 (lb_size merged + lb_size source)) (lb_overflow merged) (lb_free merged).

Definition set_free (b : LogCacheBlock) : LogCacheBlock :=
  mkLB (lb_block_id b) (lb_max_size b) (lb_max_stream_count b) (lb_map b) (lb_last_record_offset b)
    (lb_free_listeners b) (lb_size b) (lb_overflow b) true.

(** Every round drops a block or moves the index up. *)
Fixpoint merge_loop (fuel : nat) (merge_start_index : nat) (c : LogCache) : LogCache :=
  match fuel with
  | O => c
  | S fuel' =>
      let n := length (lc_blocks c) in
      if (n <=? MERGE_BLOCK_THRESHOLD)%nat || (n <=? merge_start_index + 1)%nat then c
      else
        match lc_blocks c !! merge_start_index, lc_blocks c !! S merge_start_index with
        | Some l, Some r =>
            if negb (lb_free l) || negb (lb_free r) then c
            else if lc_block_max_size c <=? u64 (lb_size l + lb_size r)
            then merge_loop fuel' (S merge_start_index) c
            else if is_discontinuous l r then merge_loop fuel' (S merge_start_index) c
            else
              let merged := block_new (lc_next_id c) U64_MAX DEFAULT_MAX_BLOCK_STREAM_COUNT in
              let merged := set_free (merge_block (merge_block merged l) r) in
              merge_loop fuel' merge_start_index
                (mkLC (lc_capacity c) (lc_block_max_size c) (lc_max_stream_count c) (lc_size c)
                   (take merge_start_index (lc_blocks c)
                      ++ merged :: drop (S (S merge_start_index)) (lc_blocks c))
                   (lc_last_record_offset c) (lc_next_id c + 1))
        | _, _ => c
        end
  end.
Definition try_merge (c : LogCache) : LogCache := merge_loop (length (lc_blocks c)) 0 c.

Definition mark_free (id : Z) (c : LogCache) : LogCache :=
  let c := set_blocks ((λ b, if lb_block_id b =? id then set_free b else b) <$> lc_blocks c) c in
  try_merge (try_real_free c).1.

Definition set_last_record_offset (offset : RecordOffset) (c : LogCache) : LogCache :=
  mkLC (lc_capacity c) (lc_block_max_size c) (lc_max_stream_count c) (lc_size c) (lc_blocks c)
    (Some offset) (lc_next_id c).

Definition clear_stream_records (stream : Z) (c : LogCache) : LogCache :=
  let freed := foldr (λ b a, (free_stream stream b).2 + a) 0 (lc_blocks c) in
  set_size (u64 (lc_size c - u64 freed)) (set_blocks ((fst ∘ free_stream stream) <$> lc_blocks c) c).
