(* ===== verification/LogCacheProofs.v ===== *)
(** * The log cache serves contiguous records and loses none before their upload

    The invariant of the blocks of [LogCache.v], the specification of reads, the
    effect of each operation on the cached records and on the size accounting. *)
From S2P Require Import Prelude Collections Codec WalFormat LogCache.

(** ** Contiguous records *)

Fixpoint runs (lo : Z) (l : list StreamRecordBatch) (hi : Z) : Prop :=
  match l with
  | [] => lo = hi
  | r :: l' => base_offset r = lo ∧ base_offset r < last_offset r ∧ runs (last_offset r) l' hi
  end.

Lemma runs_app lo l k hi : runs lo (l ++ k) hi ↔ ∃ mid, runs lo l mid ∧ runs mid k hi.
Proof.
  revert lo; induction l as [|r l IH]; intros lo; cbn.
  - split; [by exists lo|]. by intros (? & -> & ?).
  - rewrite IH. split; [intros (? & ? & mid & ? & ?); by exists mid|].
    intros (mid & (? & ? & ?) & ?). by repeat split; [..|exists mid].
Qed.

Lemma runs_le lo l hi : runs lo l hi → lo ≤ hi.
Proof.
  revert lo; induction l as [|r l IH]; intros lo; cbn; [lia|].
  intros (? & ? & ?%IH). lia.
Qed.

Lemma runs_fun lo l a b : runs lo l a → runs lo l b → a = b.
Proof.
  revert lo; induction l as [|r l IH]; intros lo; cbn; [congruence|].
  intros (_ & _ & ?) (_ & _ & ?). by eapply IH.
Qed.

Lemma runs_nonempty lo l hi : runs lo l hi → lo < hi → l ≠ [].
Proof. destruct l; cbn; [lia|done]. Qed.

Lemma runs_last lo l hi r : runs lo l hi → last l = Some r → last_offset r = hi ∧ lo < hi.
Proof.
  intros H [l' ->]%last_Some. apply runs_app in H as (mid & H & Hb & Hl & Hh).
  cbn in Hh. apply runs_le in H. lia.
Qed.

Lemma runs_head lo l hi r : runs lo l hi → head l = Some r → base_offset r = lo ∧ last_offset r ≤ hi.
Proof. destruct l; [done|]. cbn. intros (? & _ & ?%runs_le) [= <-]. done. Qed.

(** The records before and after a position. *)
Lemma runs_at lo l hi i r :
  runs lo l hi → l !! i = Some r →
  runs lo (take i l) (base_offset r) ∧ runs (base_offset r) (drop i l) hi ∧ base_offset r < last_offset r.
Proof.
  intros H Hi. pose proof (take_drop_middle _ _ _ Hi) as E. rewrite <- E in H.
  apply runs_app in H as (mid & H1 & H2). rewrite (drop_S _ _ _ Hi).
  destruct H2 as (E2 & H2 & H3). rewrite E2. split_and!; [done|by rewrite <- E2|by rewrite <- E2].
Qed.

Lemma runs_find lo l hi off :
  runs lo l hi → lo ≤ off < hi → ∃ i r, l !! i = Some r ∧ base_offset r ≤ off < last_offset r.
Proof.
  revert lo; induction l as [|r l IH]; intros lo; cbn; [lia|].
  intros (? & ? & Hc) Hoff. destruct (decide (off < last_offset r)).
  - exists 0%nat, r. split; [done|lia].
  - destruct (IH _ Hc) as (i & r' & ? & ?); [lia|]. by exists (S i), r'.
Qed.

Lemma runs_mono lo l hi i j r r' :
  runs lo l hi → l !! i = Some r → l !! j = Some r' → (i < j)%nat → last_offset r ≤ base_offset r'.
Proof.
  intros Hc Hi Hj Hij. destruct (runs_at _ _ _ _ _ Hc Hi) as (_ & Hd & _).
  rewrite (drop_S _ _ _ Hi) in Hd. destruct Hd as (_ & _ & Hd).
  assert (drop (S i) l !! (j - S i)%nat = Some r') as Hj'.
  { rewrite lookup_drop. by replace (S i + (j - S i))%nat with j by lia. }
  destruct (runs_at _ _ _ _ _ Hd Hj') as (H%runs_le & _). done.
Qed.

Lemma search_records_spec fuel lo0 l hi0 off lo hi i r :
  runs lo0 l hi0 → l !! i = Some r → base_offset r ≤ off < last_offset r →
  (lo ≤ i < hi)%nat → (hi ≤ length l)%nat → (hi - lo < fuel)%nat →
  search_records fuel l off lo hi = Some i.
Proof.
  intros Hc Hi Hoff. revert lo hi; induction fuel as [|fuel IH]; intros lo hi Hlo Hhi Hf; [lia|].
  cbn [search_records]. rewrite (proj2 (Nat.ltb_lt lo hi)) by lia.
  set (mid := ((lo + hi) / 2)%nat).
  assert (lo ≤ mid < hi)%nat as Hmid.
  { unfold mid. split; [apply Nat.div_le_lower_bound; lia|apply Nat.Div0.div_lt_upper_bound; lia]. }
  destruct (l !! mid) as [rm|] eqn:Em; [|apply lookup_ge_None in Em; lia].
  destruct (lt_eq_lt_dec mid i) as [[Hlt| ->]|Hgt].
  - pose proof (runs_mono _ _ _ _ _ _ _ Hc Em Hi Hlt). destruct (runs_at _ _ _ _ _ Hc Em) as (_ & _ & ?).
    destruct (off <? base_offset rm) eqn:E1; [lia|]. destruct (last_offset rm <=? off) eqn:E2; [|lia].
    apply IH; lia.
  - rewrite Hi in Em. injection Em as <-.
    destruct (off <? base_offset r) eqn:E1; [lia|]. destruct (last_offset r <=? off) eqn:E2; [lia|done].
  - pose proof (runs_mono _ _ _ _ _ _ _ Hc Hi Em Hgt).
    destruct (off <? base_offset rm) eqn:E1; [|lia]. apply IH; lia.
Qed.

(** ** What a read takes *)

Lemma size_nonneg r : 0 ≤ size r.
Proof. apply u64_range. Qed.

Lemma batches_size_app l k : total_size (l ++ k) = total_size l + total_size k.
Proof. unfold total_size. induction l as [|r l IH]; cbn; lia. Qed.

Lemma batches_size_nonneg l : 0 ≤ total_size l.
Proof. unfold total_size. induction l as [|r l IH]; cbn; [lia|]. pose proof (size_nonneg r). lia. Qed.

Lemma take_batches_spec end_ rem lo l hi :
  runs lo l hi → l ≠ [] → 0 ≤ rem →
  ∃ k mid, take_batches end_ rem l = take k l ∧ (0 < k ≤ length l)%nat ∧ runs lo (take k l) mid
    ∧ (end_ ≤ mid ∨ rem ≤ total_size (take k l) ∨ mid = hi).
Proof.
  revert lo rem; induction l as [|r l IH]; intros lo rem; [done|]. intros (<- & Hr & Hc) _ Hrem.
  cbn [take_batches]. pose proof (size_nonneg r). cbv zeta.
  destruct ((end_ <=? last_offset r) || _) eqn:E.
  - exists 1%nat, (last_offset r). cbn [take length]. rewrite take_0.
    split; [done|]. split; [lia|]. split; [done|]. unfold total_size. cbn. lia.
  - destruct l as [|r' l].
    + exists 1%nat, (last_offset r). split; [done|]. split; [cbn; lia|]. split; [done|]. auto.
    + destruct (IH (last_offset r) (rem - Z.min rem (size r))) as (k & mid & -> & Hk & Hm & Hend); [done|done|lia|].
      exists (S k), mid. cbn [take length] in *. split; [done|]. split; [lia|]. split; [done|].
      unfold total_size in *. cbn [foldr] in *. lia.
Qed.

(** ** The stream cache *)

Definition hints_ok (s : Z) (c : StreamCache) : Prop :=
  ∀ off i n, sc_offset_index_map c !! off = Some (i, n) →
    (i ≤ length (sc_records c))%nat ∧ runs s (take i (sc_records c)) off.

(** Either nothing was ever added, or the records run from the start to the end
    offset and every position hint points at a record boundary. *)
Definition sc_ok (c : StreamCache) : Prop :=
  match sc_start_offset c, sc_end_offset c with
  | None, None => sc_records c = [] ∧ sc_offset_index_map c = ∅
  | Some s, Some e => s < e ∧ runs s (sc_records c) e ∧ hints_ok s c
  | _, _ => False
  end.

(** Only the hints differ. *)
Definition sc_same (c c' : StreamCache) : Prop :=
  sc_records c' = sc_records c ∧ sc_start_offset c' = sc_start_offset c ∧ sc_end_offset c' = sc_end_offset c.

Lemma search_start_index_spec s e off c :
  sc_start_offset c = Some s → sc_end_offset c = Some e → sc_ok c → s ≤ off < e →
  ∃ c' i r, search_start_index off c = (c', Some i) ∧ sc_ok c' ∧ sc_same c c'
    ∧ sc_records c !! i = Some r ∧ base_offset r ≤ off < last_offset r.
Proof.
  intros Es Ee Hok Hoff. pose proof Hok as Hok'. unfold sc_ok in Hok'. rewrite Es, Ee in Hok'.
  destruct Hok' as (Hse & Hc & Hh). unfold search_start_index.
  destruct (sc_offset_index_map c !! off) as [[i n]|] eqn:Em.
  - destruct (Hh _ _ _ Em) as [Hi Ht].
    assert (runs off (drop i (sc_records c)) e) as Hd.
    { rewrite <- (take_drop i (sc_records c)) in Hc. apply runs_app in Hc as (mid & Hc1 & Hc2).
      by rewrite (runs_fun _ _ _ _ Ht Hc1). }
    destruct (drop i (sc_records c)) as [|r l] eqn:Ed; [cbn in Hd; lia|].
    assert (sc_records c !! i = Some r) as Hr.
    { pose proof (lookup_drop (sc_records c) i 0) as El. rewrite Ed, Nat.add_0_r in El. done. }
    destruct Hd as (<- & Hlt & _).
    eexists _, i, r. split; [reflexivity|]. split_and!; try done.
    unfold sc_ok. cbn. rewrite Es, Ee. split_and!; [done|done|].
    intros off' i' n'. cbn. destruct (n <=? 1).
    + intros [_ ?]%lookup_delete_Some. by eapply Hh.
    + intros [[<- [= <- <-]]|[_ ?]]%lookup_insert_Some; [done|by eapply Hh].
  - destruct (runs_find _ _ _ _ Hc Hoff) as (i & r & Hi & Hr).
    exists c, i, r. split_and!; try done; try lia. f_equal.
    pose proof (lookup_lt_Some _ _ _ Hi). eapply search_records_spec; try done; lia.
Qed.

(** The answer of one read: contiguous records whose first covers the start offset. *)
Record served (start_offset : Z) (rs : list StreamRecordBatch) (lo hi : Z) : Prop := {
  sv_runs : runs lo rs hi;
  sv_first r : head rs = Some r → lo ≤ start_offset < last_offset r;
  sv_some : rs ≠ [];
}.

Lemma sc_get_spec c off end_ m :
  sc_ok c → 0 ≤ m →
  ∃ c' rs, sc_get off end_ m c = (c', rs) ∧ sc_ok c' ∧ sc_same c c' ∧ (∀ x, x ∈ rs → x ∈ sc_records c)
    ∧ total_size rs ≤ total_size (sc_records c)
    ∧ match sc_range c with
      | Some (s, e) =>
          if decide (s ≤ off < e) then
            ∃ lo hi, served off rs lo hi ∧ s ≤ lo ∧ hi ≤ e ∧ (end_ ≤ hi ∨ m ≤ total_size rs ∨ hi = e)
          else rs = []
      | None => rs = []
      end.
Proof.
  intros Hok Hm. unfold sc_get, sc_range.
  assert (∀ x : StreamRecordBatch, x ∈ [] → x ∈ sc_records c) as Hnil by (intros x Hx; by apply not_elem_of_nil in Hx).
  pose proof (batches_size_nonneg (sc_records c)).
  destruct (sc_start_offset c) as [s|] eqn:Es; [|by exists c, []].
  destruct (sc_end_offset c) as [e|] eqn:Ee; [|by exists c, []].
  destruct (decide (s ≤ off < e)) as [Hoff|Hoff].
  2: { destruct (_ || _) eqn:E; [by exists c, []|lia]. }
  replace ((off <? s) || (e <=? off)) with false by lia.
  destruct (search_start_index_spec _ _ _ _ Es Ee Hok Hoff) as (c1 & i & r & -> & Hok1 & (Er & Es1 & Ee1) & Hi & Hr).
  unfold sc_ok in Hok1. rewrite Es1, Ee1, Es, Ee, Er in Hok1. destruct Hok1 as (Hse & Hc & Hh).
  destruct (runs_at _ _ _ _ _ Hc Hi) as (Hpre & Hd & _). rewrite Er.
  assert (drop i (sc_records c) ≠ []) as Hne by (by rewrite (drop_S _ _ _ Hi)).
  destruct (take_batches_spec end_ m _ _ _ Hd Hne Hm) as (k & mid & -> & Hk & Hmid & Hend).
  set (rs := take k (drop i (sc_records c))) in *.
  assert (rs ≠ []) as Hrs. { unfold rs. rewrite (drop_S _ _ _ Hi). destruct k; [lia|done]. }
  assert (length rs = k) as Hlen by (unfold rs; rewrite length_take; lia).
  destruct (last rs) as [rl|] eqn:El; [|by apply last_None in El].
  destruct (runs_last _ _ _ _ Hmid El) as [Hrl Hlt].
  eexists _, rs. split; [reflexivity|]. split_and!.
  - unfold sc_ok. cbn. rewrite Es1, Ee1, Es, Ee. split_and!; [done|by rewrite ?Er|].
    intros off' i' n'. cbn. rewrite ?Er, Hlen.
    intros [[<- [= <- <-]]|[_ Ho]]%lookup_insert_Some.
    + rewrite length_drop in Hk. split; [lia|]. rewrite <- take_take_drop. apply runs_app.
      exists (base_offset r). split; [done|]. by rewrite Hrl.
    + destruct (Hh _ _ _ Ho) as [Hi' Ht]. rewrite Er in Hi', Ht. done.
  - by repeat split.
  - intros x Hx. unfold rs in Hx.
    by apply (subseteq_drop i), (subseteq_take k).
  - rewrite <- (take_drop i (sc_records c)), batches_size_app. pose proof (batches_size_nonneg (take i (sc_records c))).
    rewrite <- (take_drop k (drop i (sc_records c))), batches_size_app. fold rs.
    pose proof (batches_size_nonneg (drop k (drop i (sc_records c)))). lia.
  - exists (base_offset r), mid. split_and!; [|by apply runs_le in Hpre| |done].
    + split; [done| |done]. intros r' Hh'. unfold rs in Hh'. rewrite (drop_S _ _ _ Hi) in Hh'.
      destruct k; [lia|]. injection Hh' as <-. lia.
    + pose proof Hd as Hd'. rewrite <- (take_drop k (drop i (sc_records c))) in Hd'.
      apply runs_app in Hd' as (mid' & Hm1 & Hm2). fold rs in Hm1. rewrite (runs_fun _ _ _ _ Hmid Hm1).
      by apply runs_le in Hm2.
Qed.

(** ** Blocks *)

Definition block_ok (b : LogCacheBlock) : Prop := ∀ stream c, lb_map b !! stream = Some c → sc_ok c.

(** Only position hints differ. *)
Definition block_same (b b' : LogCacheBlock) : Prop :=
  (∀ stream, option_Forall2 sc_same (lb_map b !! stream) (lb_map b' !! stream))
  ∧ b' = set_map (lb_map b') b.

Definition stream_records (stream : Z) (b : LogCacheBlock) : list StreamRecordBatch :=
  default [] (sc_records <$> lb_map b !! stream).

Lemma sc_same_refl c : sc_same c c.
Proof. done. Qed.

Lemma sc_same_range c c' : sc_same c c' → sc_range c' = sc_range c.
Proof. intros (_ & Es & Ee). unfold sc_range. by rewrite Es, Ee. Qed.

Lemma block_same_refl b : block_same b b.
Proof. split; [|by destruct b]. intros stream. destruct (lb_map b !! stream); by constructor. Qed.

#[export] Instance block_same_preorder : PreOrder block_same.
Proof.
  split; [intros b; apply block_same_refl|]. intros b1 b2 b3 [Ha Hb] [Hc Hd]. split.
  - intros st. specialize (Ha st). specialize (Hc st).
    destruct Ha as [c1 c2 (? & ? & ?)|]; inversion Hc as [? c3 (? & ? & ?)|]; subst; constructor.
    repeat split; congruence.
  - rewrite Hd at 1. rewrite Hb at 1. done.
Qed.

Lemma block_same_range b b' stream : block_same b b' → stream_range stream b' = stream_range stream b.
Proof.
  intros [Hm _]. unfold stream_range. destruct (Hm stream) as [c c' Hc|]; [|done].
  cbn. by apply sc_same_range.
Qed.

Lemma block_same_records b b' stream : block_same b b' → stream_records stream b' = stream_records stream b.
Proof.
  intros [Hm _]. unfold stream_records. destruct (Hm stream) as [c c' Hc|]; [|done]. cbn. apply Hc.
Qed.

Lemma block_get_spec b stream off end_ m :
  block_ok b → 0 ≤ m →
  ∃ b' rs, block_get stream off end_ m b = (b', rs) ∧ block_ok b' ∧ block_same b b'
    ∧ (∀ x, x ∈ rs → x ∈ stream_records stream b) ∧ total_size rs ≤ total_size (stream_records stream b)
    ∧ match stream_range stream b with
      | Some (s, e) =>
          if decide (s ≤ off < e) then
            ∃ lo hi, served off rs lo hi ∧ s ≤ lo ∧ hi ≤ e ∧ (end_ ≤ hi ∨ m ≤ total_size rs ∨ hi = e)
          else rs = []
      | None => rs = []
      end.
Proof.
  intros Hok Hm. unfold block_get, stream_range, stream_records.
  destruct (lb_map b !! stream) as [c|] eqn:Ec.
  2: { exists b, []. split; [done|]. split; [done|]. split; [apply block_same_refl|].
       split; [|done]. intros x Hx. by apply not_elem_of_nil in Hx. }
  destruct (sc_get_spec c off end_ m (Hok _ _ Ec) Hm) as (c' & rs & -> & Hok' & Hs & Hin & Hsz & Hr).
  exists (set_map (<[stream:=c']> (lb_map b)) b), rs.
  split; [done|]. split; [|split; [split; [|done]|done]].
  - intros st c2. cbn. intros [[<- <-]|[_ ?]]%lookup_insert_Some; [done|by eapply Hok].
  - intros st. cbn. destruct (decide (st = stream)) as [->|Hne].
    + rewrite lookup_insert_eq, Ec. by constructor.
    + rewrite lookup_insert_ne by done. apply block_same_refl.
Qed.

(** ** Reads over the blocks *)

Definition ranges_of (stream : Z) (blocks : list LogCacheBlock) : list (Z * Z) :=
  omap (stream_range stream) blocks.

(** The blocks hold each stream's ranges in order. *)
Definition ranges_ok (stream : Z) (blocks : list LogCacheBlock) : Prop :=
  StronglySorted (λ p q, p.2 ≤ q.1) (ranges_of stream blocks).

Definition contents (stream : Z) (blocks : list LogCacheBlock) : list StreamRecordBatch :=
  blocks ≫= stream_records stream.

Lemma stream_range_spec b stream s e :
  block_ok b → stream_range stream b = Some (s, e) → s < e ∧ runs s (stream_records stream b) e.
Proof.
  intros Hok. unfold stream_range, stream_records, sc_range.
  destruct (lb_map b !! stream) as [c|] eqn:Ec; [|done]. cbn.
  pose proof (Hok _ _ Ec) as Hc. unfold sc_ok in Hc.
  destruct (sc_start_offset c) as [s'|], (sc_end_offset c) as [e'|]; try done.
  intros [= <- <-]. by destruct Hc as (? & ? & _).
Qed.

(** The bytes of a stream in one block are addressable. *)
Definition addressable (stream : Z) (b : LogCacheBlock) : Prop := total_size (stream_records stream b) < 2 ^ 64.

(** How far the blocks run without a gap from [off]. *)
Fixpoint reach (off : Z) (ranges : list (Z * Z)) : Z :=
  match ranges with
  | [] => off
  | (s, e) :: rest => if decide (s ≤ off < e) then reach e rest else reach off rest
  end.

Lemma reach_ge off ranges : off ≤ reach off ranges.
Proof.
  revert off; induction ranges as [|[s e] ranges IH]; intros off; cbn; [lia|].
  case_decide; [specialize (IH e); lia|apply IH].
Qed.

(** A read that got as far as the request or used up its bytes. *)
Definition enough (end_ m hi : Z) (rs : list StreamRecordBatch) : Prop := end_ ≤ hi ∨ m ≤ total_size rs.

Record passed (stream off end_ m : Z) (blocks blocks' : list LogCacheBlock)
    (rs : list StreamRecordBatch) (fulfill : bool) : Prop := {
  pa_ok : Forall block_ok blocks';
  pa_same : Forall2 block_same blocks blocks';
  pa_elem x : x ∈ rs → x ∈ contents stream blocks;
  pa_served : rs = [] ∨ ∃ lo hi, served off rs lo hi
    ∧ (∀ s, Forall (λ p, s ≤ p.1) (ranges_of stream blocks) → s ≤ lo)
    ∧ (∀ e, (off, e) ∈ ranges_of stream blocks → lo = off)
    ∧ hi ≤ reach off (ranges_of stream blocks)
    ∧ (fulfill = true → enough end_ m hi rs);
  pa_some : fulfill = true → rs ≠ [];
  pa_reach : fulfill = false → off < end_ → reach off (ranges_of stream blocks) < end_;
}.

Lemma served_app off rs1 rs2 lo mid hi :
  served off rs1 lo mid → runs mid rs2 hi → served off (rs1 ++ rs2) lo hi.
Proof.
  intros [Hr Hf Hs] H2. split.
  - apply runs_app. by exists mid.
  - intros r. destruct rs1; [done|]. apply Hf.
  - by destruct rs1.
Qed.

Lemma served_last off rs lo hi r : served off rs lo hi → last rs = Some r → last_offset r = hi ∧ off < hi.
Proof.
  intros [Hr Hf Hs] Hl. destruct (runs_last _ _ _ _ Hr Hl) as [? ?]. split; [done|].
  destruct rs as [|r0 rs]; [done|]. destruct Hr as (_ & _ & Hr%runs_le).
  specialize (Hf r0 eq_refl). lia.
Qed.

Lemma pass_skip stream off end_ m b b' blocks blocks' rs f :
  block_ok b → block_ok b' → block_same b b' →
  (match stream_range stream b with Some (s, e) => ¬ (s ≤ off < e) | None => True end) →
  passed stream off end_ m blocks blocks' rs f →
  passed stream off end_ m (b :: blocks) (b' :: blocks') rs f.
Proof.
  intros Hb0 Hb Hs Hr [Hok Hsame Hel Hserved Hsome Hreach].
  assert (reach off (ranges_of stream (b :: blocks)) = reach off (ranges_of stream blocks)) as Er.
  { unfold ranges_of. cbn. destruct (stream_range stream b) as [[s e]|]; [|done]. cbn. by rewrite decide_False. }
  constructor; try done.
  - by constructor.
  - by constructor.
  - intros x Hx. apply elem_of_app. right. by apply Hel.
  - destruct Hserved as [->|(lo & hi & ? & Hlo & Hex & ? & ?)]; [by left|right]. exists lo, hi.
    rewrite Er. unfold ranges_of in *. cbn [omap list_omap].
    destruct (stream_range stream b) as [[s e]|] eqn:Esr; [|done].
    destruct (stream_range_spec _ _ _ _ Hb0 Esr) as [? _]. split_and!; try done.
    + intros s' [_ Hf]%Forall_cons. by apply Hlo.
    + intros e' [[= <- <-]|He]%elem_of_cons; [lia|by eapply Hex].
  - by rewrite Er.
Qed.

Lemma get_pass_spec stream off end_ m blocks :
  Forall block_ok blocks → Forall (addressable stream) blocks → ranges_ok stream blocks → 0 ≤ m →
  ∃ blocks' rs f, get_pass stream off end_ m blocks = (blocks', rs, f)
    ∧ passed stream off end_ m blocks blocks' rs f.
Proof.
  revert off m; induction blocks as [|b blocks IH]; intros off m Hok Had Hr Hm; cbn [get_pass].
  { exists [], [], false. split; [done|]. constructor; try done. by left. }
  apply Forall_cons in Hok as [Hb Hok]. apply Forall_cons in Had as [Hbad Had].
  assert (ranges_ok stream blocks) as Hr'.
  { unfold ranges_ok, ranges_of in *. cbn in Hr. destruct (stream_range stream b); [|done].
    by apply StronglySorted_cons in Hr as [_ ?]. }
  destruct (block_get_spec b stream off end_ m Hb Hm) as (b' & r1 & -> & Hb' & Hs & Hin & Hsz & Hget).
  unfold addressable in Hbad.
  destruct (last r1) as [l|] eqn:El.
  2: { apply last_None in El as ->. destruct (IH off m Hok Had Hr' Hm) as (bs' & rs & f & -> & Hp).
       exists (b' :: bs'), rs, f. split; [done|]. apply pass_skip; try done.
       destruct (stream_range stream b) as [[s e]|]; [|done].
       intros Hd. rewrite decide_True in Hget by done. by destruct Hget as (lo & hi & [] & _). }
  assert (r1 ≠ []) as Hne by (by destruct r1).
  destruct (stream_range stream b) as [[s e]|] eqn:Esr; [|done].
  case_decide as Hd; [|done]. destruct Hget as (lo & hi & Hsv & Hlo & Hhi & Hend).
  destruct (served_last _ _ _ _ _ Hsv El) as [-> Hoff].
  pose proof (batches_size_nonneg r1).
  assert (u64 (total_size r1) = total_size r1) as Eu by (apply u64_small; int_lia).
  assert (∀ x, x ∈ r1 → x ∈ contents stream (b :: blocks)) as Hin'.
  { intros x Hx. apply elem_of_app. left. by apply Hin. }
  assert (ranges_of stream (b :: blocks) = (s, e) :: ranges_of stream blocks) as Ero.
  { unfold ranges_of. cbn. by rewrite Esr. }
  assert (reach off (ranges_of stream (b :: blocks)) = reach e (ranges_of stream blocks)) as Er.
  { rewrite Ero. cbn. by rewrite decide_True. }
  assert (∀ s', Forall (λ p, s' ≤ p.1) (ranges_of stream (b :: blocks)) → s' ≤ lo) as Hlow.
  { intros s' Hf. rewrite Ero in Hf. apply Forall_cons in Hf as [Hf _]. cbn in Hf. lia. }
  pose proof (reach_ge e (ranges_of stream blocks)).
  assert (∀ e', (off, e') ∈ ranges_of stream (b :: blocks) → lo = off) as Hex.
  { unfold ranges_ok in Hr. rewrite Ero in Hr |- *. apply StronglySorted_cons in Hr as [Hall _].
    rewrite Forall_forall in Hall. destruct Hsv as [_ Hf _]. destruct r1 as [|r0 r1]; [done|].
    specialize (Hf r0 eq_refl). intros e' [[= <- <-]|He]%elem_of_cons; [lia|].
    specialize (Hall _ He). cbn in Hall. lia. }
  destruct ((end_ <=? hi) || _) eqn:E.
  - exists (b' :: blocks), r1, true. split; [done|]. constructor; try done.
    + by constructor.
    + constructor; [done|]. apply Forall2_same_length_lookup_2; [done|]. intros i x y Hx Hy.
      simplify_eq. apply block_same_refl.
    + right. exists lo, hi. split_and!; try done; [lia|]. intros _.
      unfold enough. lia.
  - destruct (IH hi (m - Z.min m (u64 (total_size r1))) Hok Had Hr') as (bs' & rs & f & -> & Hp); [lia|].
    exists (b' :: bs'), (r1 ++ rs), f. split; [done|].
    assert (hi = e) as Hhe by lia.
    destruct Hp as [Hok2 Hsame Hel Hserved Hsome Hreach]. unfold ranges_ok in Hr. rewrite Ero in Hr.
    apply StronglySorted_cons in Hr as [Hall _].
    constructor.
    + by constructor.
    + by constructor.
    + intros x [Hx|Hx]%elem_of_app; [by apply Hin'|]. apply elem_of_app. right. by apply Hel.
    + right. destruct Hserved as [->|(lo2 & hi2 & Hsv2 & Hlo2 & _ & Hhi2 & Hend2)].
      * rewrite app_nil_r. exists lo, hi. split_and!; try done; [lia|]. intros Hf. by destruct (Hsome Hf).
      * specialize (Hlo2 e Hall).
        assert (lo2 = hi) as ->.
        { destruct Hsv2 as [Hr2 Hf2 Hs2]. destruct rs as [|r2 rs]; [done|].
          specialize (Hf2 r2 eq_refl). lia. }
        exists lo, hi2. split_and!; try done.
        -- by apply served_app with hi; [|apply Hsv2].
        -- rewrite Er. by rewrite <- Hhe.
        -- intros Hf. destruct (Hend2 Hf) as [?|?]; [by left|right].
           rewrite batches_size_app. lia.
    + intros Hf. by destruct r1.
    + intros Hf Hlt. rewrite Er. specialize (Hreach Hf).
      rewrite <- Hhe. apply Hreach. lia.
Qed.

Lemma same_ranges stream blocks blocks' :
  Forall2 block_same blocks blocks' → ranges_of stream blocks' = ranges_of stream blocks.
Proof.
  induction 1 as [|b b' bs bs' Hb _ IH]; [done|]. unfold ranges_of in *. cbn.
  by rewrite (block_same_range _ _ _ Hb), IH.
Qed.

Lemma get_pass_ranges stream off end_ m blocks blocks' rs f stream' :
  passed stream off end_ m blocks blocks' rs f → ranges_of stream' blocks' = ranges_of stream' blocks.
Proof.
  intros H. apply same_ranges, H.
Qed.

Lemma same_contents stream blocks blocks' :
  Forall2 block_same blocks blocks' → contents stream blocks' = contents stream blocks.
Proof.
  induction 1 as [|b b' bs bs' Hb _ IH]; [done|]. unfold contents in *. cbn.
  by rewrite (block_same_records _ _ _ Hb), IH.
Qed.

Lemma same_addressable stream blocks blocks' :
  Forall2 block_same blocks blocks' → Forall (addressable stream) blocks → Forall (addressable stream) blocks'.
Proof.
  induction 1 as [|b b' bs bs' Hb _ IH]; [done|]. intros [? ?]%Forall_cons. constructor; [|by apply IH].
  unfold addressable. by rewrite (block_same_records _ _ _ Hb).
Qed.

(** ** The continuous tail *)

Definition tail_of (stream : Z) (blocks : list LogCacheBlock) : option Z :=
  tail_start None (reverse (ranges_of stream blocks)).

Lemma omap_reverse {A B} (f : A → option B) l : omap f (reverse l) = reverse (omap f l).
Proof.
  induction l as [|x l IH]; [done|]. rewrite reverse_cons, omap_app, IH. cbn [omap list_omap].
  destruct (f x); [by rewrite reverse_cons|]. by rewrite app_nil_r.
Qed.

Lemma reach_skip off l l2 : Forall (λ p, p.2 ≤ off) l → reach off (l ++ l2) = reach off l2.
Proof.
  induction 1 as [|[s e] l Hp _ IH]; [done|]. cbn in *. by rewrite decide_False by lia.
Qed.

Lemma tail_start_reach l l2 cur e T :
  StronglySorted (λ p q, p.2 ≤ q.1) (l ++ (cur, e) :: l2) → Forall (λ p, p.1 < p.2) l →
  tail_start (Some cur) (reverse l) = Some T →
  reach T (l ++ (cur, e) :: l2) = reach cur ((cur, e) :: l2)
  ∧ ∃ e', (T, e') ∈ l ++ (cur, e) :: l2.
Proof.
  revert cur e l2; induction l as [|[s e0] l IH] using rev_ind; intros cur e l2 Hs Hf.
  { cbn. intros [= <-]. split; [done|]. exists e. left. }
  rewrite reverse_snoc. apply Forall_app in Hf as [Hf [Hlt _]%Forall_cons]. cbn [tail_start fst snd] in *.
  destruct (Z.eqb_spec cur e0) as [->|Hne].
  - rewrite <- app_assoc in *. intros HT. cbn [app] in *.
    destruct (IH s e0 ((e0, e) :: l2) Hs Hf HT) as [-> ?]. split; [|done].
    cbn [reach]. rewrite (decide_True (P := s ≤ s < e0)) by lia. done.
  - intros [= <-]. split; [|exists e; apply elem_of_app; right; left].
    apply reach_skip. apply StronglySorted_app in Hs as (Hx & _ & _). apply Forall_forall.
    intros p Hp. apply (Hx p (cur, e) Hp). left.
Qed.

Lemma tail_spec ranges T :
  StronglySorted (λ p q, p.2 ≤ q.1) ranges → Forall (λ p, p.1 < p.2) ranges →
  tail_start None (reverse ranges) = Some T →
  (∃ s E, last ranges = Some (s, E) ∧ reach T ranges = E) ∧ ∃ e, (T, e) ∈ ranges.
Proof.
  destruct ranges as [|[s E] l _] using rev_ind; [done|].
  intros Hs Hf HT. rewrite reverse_snoc in HT. cbn [tail_start] in HT.
  apply Forall_app in Hf as [Hf [Hlt _]%Forall_cons]. cbn in Hlt.
  destruct (tail_start_reach l [] s E T Hs Hf HT) as [-> ?]. split; [|done].
  exists s, E. rewrite last_snoc. split; [done|]. cbn. by rewrite decide_True by lia.
Qed.

Lemma ranges_pos stream blocks : Forall block_ok blocks → Forall (λ p, p.1 < p.2) (ranges_of stream blocks).
Proof.
  induction 1 as [|b bs Hb _ IH]; [constructor|]. unfold ranges_of in *. cbn.
  destruct (stream_range stream b) as [[s e]|] eqn:E; [|done]. constructor; [|done].
  by destruct (stream_range_spec _ _ _ _ Hb E).
Qed.

(** ** The cache *)

Record cache_ok (c : LogCache) : Prop := {
  co_blocks : Forall block_ok (lc_blocks c);
  co_ranges stream : ranges_ok stream (lc_blocks c);
  co_memory stream : total_size (contents stream (lc_blocks c)) < 2 ^ 64;
  co_active : ∃ b, last (lc_blocks c) = Some b ∧ lb_free b = false;
}.

Lemma contents_app stream l k : contents stream (l ++ k) = contents stream l ++ contents stream k.
Proof. apply bind_app. Qed.

Lemma contents_addressable stream blocks :
  total_size (contents stream blocks) < 2 ^ 64 → Forall (addressable stream) blocks.
Proof.
  induction blocks as [|b bs IH]; [constructor|]. intros H. constructor.
  - unfold addressable. cbn in H. rewrite batches_size_app in H.
    pose proof (batches_size_nonneg (bs ≫= stream_records stream)). lia.
  - apply IH. cbn in H. rewrite batches_size_app in H.
    pose proof (batches_size_nonneg (stream_records stream b)). unfold contents. lia.
Qed.

(** What a read from [start_offset] answers with. *)
Record answer (stream start_offset end_offset max_bytes : Z) (blocks : list LogCacheBlock)
    (rs : list StreamRecordBatch) : Prop := {
  an_elem x : x ∈ rs → x ∈ contents stream blocks;
  an_runs : rs = [] ∨ ∃ lo hi, runs lo rs hi ∧ enough end_offset max_bytes hi rs
    ∧ (served start_offset rs lo hi ∨ (start_offset < lo < end_offset ∧ tail_of stream blocks = Some lo));
  an_hit : end_offset ≤ reach start_offset (ranges_of stream blocks) →
    ∃ lo hi, served start_offset rs lo hi;
  an_tail T : tail_of stream blocks = Some T → start_offset < T < end_offset →
    end_offset ≤ reach T (ranges_of stream blocks) → rs ≠ [];
}.

Lemma get0_step fuel stream start end_ m blocks bs rs f :
  get_pass stream start end_ m blocks = (bs, rs, f) →
  get0 (S fuel) stream start end_ m blocks
  = if f : bool then Some (bs, rs)
    else match tail_of stream bs with
         | None => Some (bs, [])
         | Some tail =>
             if end_ <=? tail then Some (bs, [])
             else if tail <=? start then Some (bs, [])
             else get0 fuel stream tail end_ m bs
         end.
Proof. intros E. cbn [get0]. rewrite E. unfold tail_of, ranges_of. by rewrite omap_reverse. Qed.

Lemma tail_of_ranges stream blocks blocks' :
  ranges_of stream blocks' = ranges_of stream blocks → tail_of stream blocks' = tail_of stream blocks.
Proof. unfold tail_of. by intros ->. Qed.

Section Get.
Context (stream end_ m : Z) (blocks : list LogCacheBlock).
Hypothesis Hok : Forall block_ok blocks.
Hypothesis Had : Forall (addressable stream) blocks.
Hypothesis Hr : ranges_ok stream blocks.
Hypothesis Hm : 0 ≤ m.

(** A read from the start of the tail does not look further. *)
Lemma get0_tail T fuel :
  tail_of stream blocks = Some T → T < end_ →
  ∃ blocks' rs, get0 (S fuel) stream T end_ m blocks = Some (blocks', rs)
    ∧ Forall block_ok blocks' ∧ Forall2 block_same blocks blocks'
    ∧ (∀ x, x ∈ rs → x ∈ contents stream blocks)
    ∧ (rs = [] ∨ ∃ hi, runs T rs hi ∧ enough end_ m hi rs)
    ∧ (end_ ≤ reach T (ranges_of stream blocks) → rs ≠ []).
Proof.
  intros HT Hlt. destruct (get_pass_spec stream T end_ m blocks Hok Had Hr Hm) as (bs' & rs & f & E & Hp).
  rewrite (get0_step _ _ _ _ _ _ _ _ _ E). destruct (tail_spec _ _ Hr (ranges_pos stream blocks Hok) HT) as [_ [e He]].
  pose proof (get_pass_ranges _ _ _ _ _ _ _ _ stream Hp) as Er. destruct Hp as [? ? ? Hsv Hsome Hreach].
  destruct f.
  - exists bs', rs. split_and!; try done; [|by intros _; apply Hsome].
    destruct Hsv as [->|(lo & hi & [Hrun _ _] & _ & Hex & _ & Hend)]; [by left|right].
    rewrite (Hex _ He) in Hrun. exists hi. split; [done|by apply Hend].
  - rewrite (tail_of_ranges _ _ _ Er), HT.
    rewrite Z.leb_refl. rewrite (proj2 (Z.leb_gt end_ T)) by lia. exists bs', [].
    split_and!; try done; [|by left|].
    + intros x Hx. by apply not_elem_of_nil in Hx.
    + intros Hle _. specialize (Hreach eq_refl Hlt). lia.
Qed.
End Get.

(** Two levels are always enough. *)
Lemma get0_spec stream start end_ m blocks :
  Forall block_ok blocks → Forall (addressable stream) blocks → ranges_ok stream blocks → 0 ≤ m → start < end_ →
  ∃ blocks' rs, get0 2 stream start end_ m blocks = Some (blocks', rs)
    ∧ Forall block_ok blocks' ∧ Forall2 block_same blocks blocks' ∧ answer stream start end_ m blocks rs.
Proof.
  intros Hok Had Hr Hm Hlt.
  destruct (get_pass_spec stream start end_ m blocks Hok Had Hr Hm) as (bs & rs & f & E & Hp).
  assert (∀ x : StreamRecordBatch, x ∈ [] → x ∈ contents stream blocks) as Hnil.
  { intros x Hx. by apply not_elem_of_nil in Hx. }
  rewrite (get0_step _ _ _ _ _ _ _ _ _ E). pose proof (get_pass_ranges _ _ _ _ _ _ _ _ stream Hp) as Er.
  destruct Hp as [Hok1 Hs1 Hin1 Hsv1 Hsome1 Hreach1]. destruct f.
  { exists bs, rs. split_and!; try done. specialize (Hsome1 eq_refl).
    destruct Hsv1 as [->|(lo & hi & Hsv & _ & _ & _ & Hend)]; [done|]. constructor; try done.
    - right. exists lo, hi. split_and!; [apply Hsv|by apply Hend|by left].
    - by exists lo, hi. }
  specialize (Hreach1 eq_refl Hlt).
  rewrite (tail_of_ranges _ _ _ Er).
  assert (∀ bs', (tail_of stream blocks = None ∨ ∃ T, tail_of stream blocks = Some T ∧ (end_ ≤ T ∨ T ≤ start)) →
    Forall block_ok bs' → Forall2 block_same blocks bs' →
    ∃ blocks' rs, Some (bs', []) = Some (blocks', rs) ∧ Forall block_ok blocks'
      ∧ Forall2 block_same blocks blocks' ∧ answer stream start end_ m blocks rs) as Hmiss.
  { intros bs' HT ? ?. exists bs', []. split_and!; try done. constructor; [done|by left|lia|].
    intros T ET ? _. destruct HT as [?|(T' & ? & ?)]; [congruence|]. simplify_eq. lia. }
  destruct (tail_of stream blocks) as [T|] eqn:HT; [|by apply Hmiss; [left|..]].
  destruct (end_ <=? T) eqn:E1; [apply Hmiss; [right; exists T; split; [done|lia]|done|done]|].
  destruct (T <=? start) eqn:E2; [apply Hmiss; [right; exists T; split; [done|lia]|done|done]|].
  assert (tail_of stream bs = Some T) as HT' by (by rewrite (tail_of_ranges _ _ _ Er)).
  destruct (get0_tail stream end_ m bs Hok1 (same_addressable _ _ _ Hs1 Had)
              ltac:(unfold ranges_ok; by rewrite Er) Hm T 0 HT' ltac:(lia))
    as (bs2 & rs2 & -> & Hok2 & Hs2 & Hin2 & Hrun2 & Htail2).
  rewrite Er in Htail2. rewrite (same_contents _ _ _ Hs1) in Hin2.
  exists bs2, rs2. split; [done|]. split; [done|]. split.
  { by transitivity bs. }
  constructor.
  - done.
  - destruct Hrun2 as [->|(hi & ? & ?)]; [by left|right]. exists T, hi. split_and!; try done. right. split; [lia|done].
  - lia.
  - intros T' HT2 _ Hle. assert (T' = T) as -> by congruence. by apply Htail2.
Qed.

(** ** Effect of the writes *)

(** What is not yet marked free: the records whose upload is not committed. *)
Definition pending (stream : Z) (blocks : list LogCacheBlock) : list StreamRecordBatch :=
  contents stream (filter (λ b, lb_free b = false) blocks).

Lemma pending_app stream l k : pending stream (l ++ k) = pending stream l ++ pending stream k.
Proof. unfold pending. by rewrite filter_app, contents_app. Qed.

Lemma pending_free stream l : Forall (λ b, lb_free b = true) l → pending stream l = [].
Proof.
  intros Hl. unfold pending. rewrite filter_none; [done|]. rewrite Forall_forall in Hl.
  intros b Hb. rewrite (Hl b Hb). done.
Qed.

Fixpoint block_sizes (blocks : list LogCacheBlock) : Z :=
  match blocks with [] => 0 | b :: rest => lb_size b + block_sizes rest end.

Lemma block_sizes_app l k : block_sizes (l ++ k) = block_sizes l + block_sizes k.
Proof. induction l as [|b l IH]; cbn; lia. Qed.

(** The cache's size is the sum of its blocks' sizes. *)
Definition size_ok (c : LogCache) : Prop := lc_size c = u64 (block_sizes (lc_blocks c)).

Lemma real_free_spec c n blocks :
  ∃ removed kept m, real_free c n blocks = (removed, m, kept) ∧ blocks = removed ++ kept
    ∧ Forall (λ b, lb_free b = true) removed ∧ u64 m = u64 (n + block_sizes removed).
Proof.
  revert n; induction blocks as [|b bs IH]; intros n; cbn [real_free].
  { exists [], [], n. split_and!; try done. by rewrite Z.add_0_r. }
  destruct (negb (over _ _ _)).
  { exists [], (b :: bs), n. split_and!; try done. by rewrite Z.add_0_r. }
  destruct (lb_free b) eqn:E; cbn [negb].
  - destruct (IH (u64 (n + lb_size b))) as (removed & kept & m & -> & -> & Hf & Hm).
    exists (b :: removed), kept, m. split_and!; try done; [by constructor|].
    rewrite Hm. cbn. int_lia.
  - exists [], (b :: bs), n. split_and!; try done. by rewrite Z.add_0_r.
Qed.

Lemma try_real_free_spec c :
  ∃ removed, lc_blocks c = removed ++ lc_blocks (try_real_free c).1
    ∧ (try_real_free c).2 = removed ∧ Forall (λ b, lb_free b = true) removed
    ∧ (size_ok c → size_ok (try_real_free c).1)
    ∧ lc_block_max_size (try_real_free c).1 = lc_block_max_size c
    ∧ lc_last_record_offset (try_real_free c).1 = lc_last_record_offset c.
Proof.
  unfold try_real_free. destruct (negb _); [by exists []|].
  destruct (real_free_spec c 0 (lc_blocks c)) as (removed & kept & m & -> & E & Hf & Hm).
  exists removed. cbn. split_and!; try done.
  unfold size_ok. cbn. intros ->. rewrite E, block_sizes_app. int_lia.
Qed.

Lemma cache_ok_kept c c' removed :
  lc_blocks c = removed ++ lc_blocks c' → Forall (λ b, lb_free b = true) removed → cache_ok c → cache_ok c'.
Proof.
  intros E Hf [Hb Hr Hm (a & Ha & Hfree)]. rewrite E in *. constructor.
  - by apply Forall_app in Hb as [_ ?].
  - intros st. specialize (Hr st). unfold ranges_ok, ranges_of in *. rewrite omap_app in Hr.
    by apply StronglySorted_app in Hr as (_ & _ & ?).
  - intros st. specialize (Hm st). rewrite contents_app, batches_size_app in Hm.
    pose proof (batches_size_nonneg (contents st removed)). lia.
  - destruct (lc_blocks c') as [|b bs]; [|exists a; by rewrite last_app_cons in Ha].
    rewrite app_nil_r in Ha. apply last_Some_elem_of in Ha. rewrite Forall_forall in Hf.
    specialize (Hf _ Ha). congruence.
Qed.

Lemma on_active_snoc {B} (f : LogCacheBlock → LogCacheBlock * B) l b :
  on_active f (l ++ [b]) = Some (l ++ [(f b).1], (f b).2).
Proof.
  induction l as [|x l IH]; cbn [app on_active]; [by destruct (f b)|].
  rewrite IH. by destruct (l ++ [b]) eqn:E; [destruct l|].
Qed.

Lemma sc_add_spec r c :
  sc_ok c → base_offset r < last_offset r → (∀ s e, sc_range c = Some (s, e) → base_offset r = e) →
  sc_ok (sc_add r c).1
  ∧ sc_records (sc_add r c).1 = sc_records c ++ (if (sc_add r c).2 then [r] else [])
  ∧ sc_range (sc_add r c).1
    = if (sc_add r c).2 then Some (default (base_offset r) (sc_start_offset c), last_offset r) else sc_range c.
Proof.
  intros Hok Hr Hb. unfold sc_add. destruct (_ <? _); cbn.
  { split; [done|]. by rewrite app_nil_r. }
  split; [|by split]. unfold sc_ok, sc_range, hints_ok in *. cbn.
  destruct (sc_start_offset c) as [s|], (sc_end_offset c) as [e|]; try done; cbn.
  - destruct Hok as (Hse & Hc & Hh). specialize (Hb _ _ eq_refl). split_and!; [lia| |].
    + apply runs_app. exists e. by repeat split.
    + intros off i n Hi. destruct (Hh _ _ _ Hi) as [Hle Hrun].
      rewrite length_app, take_app_le by lia. split; [lia|done].
  - destruct Hok as [-> ->]. cbn. split_and!; try done.
Qed.

(** What a block becomes by a [put]. *)
Lemma block_put_spec r b :
  block_ok b → base_offset r < last_offset r →
  (∀ s e, stream_range (stream_id r) b = Some (s, e) → base_offset r = e) →
  let '(b', added) := block_put r b in
  block_ok b' ∧ lb_free b' = lb_free b ∧ lb_block_id b' = lb_block_id b
  ∧ u64 (lb_size b') = u64 (lb_size b + if added then occupied_size r else 0)
  ∧ (∀ st, stream_records st b' = stream_records st b ++ if added && (st =? stream_id r) then [r] else [])
  ∧ (∀ st, stream_range st b' = stream_range st b
       ∨ added = true ∧ st = stream_id r
         ∧ stream_range st b' = Some (match stream_range st b with Some (s, _) => s | None => base_offset r end,
                                      last_offset r)).
Proof.
  intros Hok Hr Hb. unfold block_put. destruct (is_full b).
  { split_and!; try done; [by rewrite Z.add_0_r| |by left]. intros st. by rewrite app_nil_r. }
  set (c := default stream_cache_new (lb_map b !! stream_id r)).
  assert (sc_ok c) as Hc.
  { unfold c. destruct (lb_map b !! stream_id r) eqn:E; [by eapply Hok|]. done. }
  assert (sc_range c = stream_range (stream_id r) b) as Ec.
  { unfold c, stream_range. by destruct (lb_map b !! stream_id r). }
  assert (sc_records c = stream_records (stream_id r) b) as Erec.
  { unfold c, stream_records. by destruct (lb_map b !! stream_id r). }
  destruct (sc_add_spec r c Hc Hr) as (Hc' & Hrec & Hrange); [by rewrite Ec|].
  destruct (sc_add r c) as [c' added]. cbn [fst snd] in *.
  assert (∀ st, stream_records st (set_map (<[stream_id r:=c']> (lb_map b)) b)
    = stream_records st b ++ if added && (st =? stream_id r) then [r] else []) as Hrecs.
  { intros st. unfold stream_records at 1. cbn. destruct (Z.eqb_spec st (stream_id r)) as [->|Hne].
    - rewrite lookup_insert_eq. cbn. rewrite Hrec, Erec. by rewrite andb_true_r.
    - rewrite lookup_insert_ne by done. by rewrite andb_false_r, app_nil_r. }
  assert (block_ok (set_map (<[stream_id r:=c']> (lb_map b)) b)) as Hok'.
  { intros st c2. cbn. intros [[<- <-]|[_ ?]]%lookup_insert_Some; [done|by eapply Hok]. }
  assert (∀ st, stream_range st (set_map (<[stream_id r:=c']> (lb_map b)) b)
     = if decide (st = stream_id r) then sc_range c' else stream_range st b) as Hranges.
  { intros st. unfold stream_range at 1. cbn. case_decide as E.
    - subst. by rewrite lookup_insert_eq.
    - by rewrite lookup_insert_ne. }
  destruct added; cbn [negb].
  - split_and!; try done; [cbn; int_lia|].
    intros st. change (stream_range st _) with (stream_range st (set_map (<[stream_id r:=c']> (lb_map b)) b)) at 1 3.
    rewrite Hranges. case_decide as E; [right|by left]. subst st. split_and!; try done.
    rewrite Hrange, <- Ec. unfold sc_range. f_equal. f_equal.
    unfold sc_ok in Hc. by destruct (sc_start_offset c), (sc_end_offset c).
  - split_and!; try done; [cbn; by rewrite Z.add_0_r|].
    intros st. left. change (stream_range st _) with (stream_range st (set_map (<[stream_id r:=c']> (lb_map b)) b)) at 1.
    rewrite Hranges. case_decide as E; [|done]. subst st. by rewrite Hrange, Ec.
Qed.

(** The record continues its stream. *)
Record appendable (r : StreamRecordBatch) (c : LogCache) : Prop := {
  ap_span : base_offset r < last_offset r;
  ap_after p : p ∈ ranges_of (stream_id r) (lc_blocks c) → p.2 ≤ base_offset r;
  ap_active b s e : last (lc_blocks c) = Some b → stream_range (stream_id r) b = Some (s, e) → base_offset r = e;
  ap_memory : total_size (contents (stream_id r) (lc_blocks c)) + size r < 2 ^ 64;
}.

Lemma appendable_kept r c c' removed :
  lc_blocks c = removed ++ lc_blocks c' → lc_blocks c' ≠ [] → appendable r c → appendable r c'.
Proof.
  intros E Hne [Hs Ha Hact Hm]. rewrite E in *. constructor; try done.
  - intros p Hp. apply Ha. unfold ranges_of. rewrite omap_app. apply elem_of_app. by right.
  - intros b s e Hl. apply Hact. destruct (lc_blocks c'); [done|]. by rewrite last_app_cons.
  - rewrite contents_app, batches_size_app in Hm.
    pose proof (batches_size_nonneg (contents (stream_id r) removed)). lia.
Qed.

Definition added_to (st : Z) (r : StreamRecordBatch) (added : bool) : list StreamRecordBatch :=
  if added && (st =? stream_id r) then [r] else [].

Lemma put_active_spec r c l b :
  cache_ok c → appendable r c → lc_blocks c = l ++ [b] →
  let b' := (block_put r b).1 in
  let added := (block_put r b).2 in
  cache_ok (set_blocks (l ++ [b']) c)
  ∧ (∀ st, pending st (l ++ [b']) = pending st (l ++ [b]) ++ added_to st r added)
  ∧ (∀ st, contents st (l ++ [b']) = contents st (l ++ [b]) ++ added_to st r added)
  ∧ u64 (block_sizes (l ++ [b'])) = u64 (block_sizes (l ++ [b]) + if added then occupied_size r else 0).
Proof.
  intros [Hok Hr Hm (a & Ha & Hfree)] [Hs Haf Hact Hmem] E b' added. rewrite E in *.
  rewrite last_snoc in Ha, Hact. injection Ha as <-.
  apply Forall_app in Hok as [Hokl [Hokb _]%Forall_cons].
  pose proof (block_put_spec r b Hokb Hs (λ s e H, Hact b s e eq_refl H)) as Hp.
  subst b' added. destruct (block_put r b) as [b' added]. cbn [fst snd].
  destruct Hp as (Hokb' & Hf' & _ & Hsz & Hrec & Hrg).
  assert (∀ st, contents st (l ++ [b']) = contents st (l ++ [b]) ++ added_to st r added) as Hcont.
  { intros st. rewrite !contents_app, <- app_assoc. f_equal. cbn. rewrite !app_nil_r. apply Hrec. }
  split_and!.
  - constructor; cbn [lc_blocks set_blocks].
    + apply Forall_app. split; [done|]. by apply Forall_singleton.
    + intros st. specialize (Hr st). unfold ranges_ok, ranges_of in *. rewrite omap_app in *.
      apply StronglySorted_app in Hr as (Hx & Hl & _). apply StronglySorted_app. split_and!; [|done|].
      * intros p q Hp Hq. cbn in Hq, Hx.
        destruct (Hrg st) as [Eq|(-> & -> & Eq)]; rewrite Eq in Hq.
        -- by apply Hx.
        -- apply list_elem_of_singleton in Hq as ->. cbn.
           destruct (stream_range (stream_id r) b) as [[s e]|]; [apply (Hx p (s, e) Hp); left|].
           apply Haf, elem_of_app. by left.
      * cbn. destruct (stream_range st b'); repeat constructor.
    + intros st. rewrite Hcont, batches_size_app. unfold added_to. destruct added; cbn [andb]; [|specialize (Hm st); cbn; lia].
      destruct (Z.eqb_spec st (stream_id r)) as [->|]; [|specialize (Hm st); cbn; lia]. cbn. lia.
    + exists b'. rewrite last_snoc. split; [done|]. congruence.
  - intros st. rewrite !pending_app, <- app_assoc. f_equal. unfold pending.
    rewrite !filter_cons, !filter_nil. rewrite Hf', Hfree. rewrite !decide_True by done.
    cbn. rewrite !app_nil_r. apply Hrec.
  - done.
  - rewrite !block_sizes_app. cbn. int_lia.
Qed.

Lemma cache_nonempty c : cache_ok c → ∃ l b, lc_blocks c = l ++ [b] ∧ lb_free b = false.
Proof. intros [_ _ _ (b & [l Hl]%last_Some & ?)]. by exists l, b. Qed.

Lemma put_spec r c :
  cache_ok c → appendable r c →
  ∃ c' added removed, put r c = Some (c', added) ∧ cache_ok c' ∧ (size_ok c → size_ok c')
    ∧ Forall (λ b, lb_free b = true) removed
    ∧ (∀ st, pending st (lc_blocks c') = pending st (lc_blocks c) ++ added_to st r added)
    ∧ (∀ st, contents st removed ++ contents st (lc_blocks c') = contents st (lc_blocks c) ++ added_to st r added).
Proof.
  intros Hok Hap. unfold put. destruct (try_real_free_spec c) as (removed & E & _ & Hf & Hsz & _).
  destruct (try_real_free c) as [c1 rem]. cbn [fst] in *.
  assert (cache_ok c1) as Hok1 by (by eapply cache_ok_kept).
  destruct (cache_nonempty _ Hok1) as (l & b & El & Hb).
  assert (appendable r c1) as Hap1 by (eapply appendable_kept; [done| |done]; rewrite El; by destruct l).
  destruct (put_active_spec r c1 l b Hok1 Hap1 El) as (Hok2 & Hp & Hc & Hs).
  rewrite El, on_active_snoc. destruct (block_put r b) as [b' added]. cbn [fst snd] in *.
  eexists _, added, removed. split; [reflexivity|]. split_and!; try done.
  - destruct added; [|done]. by destruct Hok2.
  - intros Hs0. specialize (Hsz Hs0). unfold size_ok in *. rewrite El in Hsz.
    destruct added; cbn; rewrite Hs, Hsz; int_lia.
  - intros st. rewrite E, pending_app, (pending_free _ removed) by done. cbn [app]. rewrite El.
    destruct added; cbn; apply Hp.
  - intros st. rewrite E, contents_app, <- app_assoc. f_equal. rewrite El. destruct added; cbn; apply Hc.
Qed.

(** ** Merging free blocks *)

Definition merged_of (id : Z) (l r : LogCacheBlock) : LogCacheBlock :=
  set_free (merge_block (merge_block (block_new id U64_MAX DEFAULT_MAX_BLOCK_STREAM_COUNT) l) r).

Lemma merged_lookup id l r st :
  lb_map (merged_of id l r) !! st = merge_cache (merge_cache None (lb_map l !! st)) (lb_map r !! st).
Proof.
  cbn. rewrite lookup_merge, lookup_merge, lookup_empty. unfold diag_None.
  by destruct (lb_map l !! st), (lb_map r !! st).
Qed.

Lemma not_discontinuous l r st cl cr :
  is_discontinuous l r = false → lb_map l !! st = Some cl → lb_map r !! st = Some cr →
  sc_end_offset cl = sc_start_offset cr.
Proof.
  intros Hd Hl Hr. unfold is_discontinuous in Hd.
  rewrite <- not_true_iff_false, existsb_exists in Hd.
  destruct (decide (sc_end_offset cl = sc_start_offset cr)) as [?|Hne]; [done|]. destruct Hd.
  exists (st, cl). split; [by apply list_elem_of_In, elem_of_map_to_list|]. cbn. rewrite Hr.
  by rewrite bool_decide_false.
Qed.

Lemma merged_records id l r st :
  stream_records st (merged_of id l r) = stream_records st l ++ stream_records st r.
Proof.
  unfold stream_records. rewrite merged_lookup.
  destruct (lb_map l !! st), (lb_map r !! st); cbn; by rewrite ?app_nil_r.
Qed.

Lemma merged_ok id l r st c :
  block_ok l → block_ok r → is_discontinuous l r = false →
  lb_map (merged_of id l r) !! st = Some c →
  sc_ok c ∧ sc_range c = match stream_range st l, stream_range st r with
                         | Some (s, _), Some (_, e) => Some (s, e)
                         | None, x => x
                         | x, None => x
                         end.
Proof.
  intros Hl Hr Hd. rewrite merged_lookup. unfold stream_range.
  destruct (lb_map l !! st) as [cl|] eqn:El, (lb_map r !! st) as [cr|] eqn:Er; cbn; [..|done].
  - pose proof (not_discontinuous _ _ _ _ _ Hd El Er) as He.
    intros [= <-]. pose proof (Hl _ _ El) as Hcl. pose proof (Hr _ _ Er) as Hcr.
    unfold sc_ok, sc_range, hints_ok in *. cbn.
    destruct (sc_start_offset cl) as [s|], (sc_end_offset cl) as [e|]; try done;
    destruct (sc_start_offset cr) as [s'|], (sc_end_offset cr) as [e'|]; try done; simplify_eq.
    + destruct Hcl as (? & ? & _), Hcr as (? & ? & _). split; [|done].
      split; [lia|]. split; [apply runs_app; by exists s'|]. intros off i n Hi. by rewrite lookup_empty in Hi.
    + destruct Hcl as [-> _], Hcr as [-> _]. done.
  - intros [= <-]. pose proof (Hl _ _ El) as Hcl. unfold sc_ok, sc_range, hints_ok in *. cbn.
    destruct (sc_start_offset cl) as [s|], (sc_end_offset cl) as [e|]; try done; [|by destruct Hcl].
    destruct Hcl as (? & ? & _). split; [|done]. split; [lia|]. split; [done|].
    intros off i n Hi. by rewrite lookup_empty in Hi.
  - intros [= <-]. pose proof (Hr _ _ Er) as Hcr. unfold sc_ok, sc_range, hints_ok in *. cbn.
    destruct (sc_start_offset cr) as [s|], (sc_end_offset cr) as [e|]; try done; [|by destruct Hcr].
    destruct Hcr as (? & ? & _). split; [|done]. split; [lia|]. split; [done|].
    intros off i n Hi. by rewrite lookup_empty in Hi.
Qed.

Lemma merged_range id l r st :
  block_ok l → block_ok r → is_discontinuous l r = false →
  stream_range st (merged_of id l r) = match stream_range st l, stream_range st r with
                                       | Some (s, _), Some (_, e) => Some (s, e)
                                       | None, x => x
                                       | x, None => x
                                       end.
Proof.
  intros Hl Hr Hd. unfold stream_range at 1.
  destruct (lb_map (merged_of id l r) !! st) as [c|] eqn:E; cbn.
  - by destruct (merged_ok id l r st c Hl Hr Hd E).
  - rewrite merged_lookup in E. unfold stream_range.
    by destruct (lb_map l !! st), (lb_map r !! st).
Qed.

Lemma merged_ranges_ok id st pre l r post :
  block_ok l → block_ok r → is_discontinuous l r = false →
  ranges_ok st (pre ++ l :: r :: post) → ranges_ok st (pre ++ merged_of id l r :: post).
Proof.
  intros Hl Hr Hd. unfold ranges_ok, ranges_of. rewrite !omap_app. cbn [omap list_omap].
  rewrite (merged_range id l r st Hl Hr Hd).
  destruct (stream_range st l) as [[s e]|] eqn:El; [|by destruct (stream_range st r) as [[]|]].
  destruct (stream_range st r) as [[s' e']|] eqn:Er; [|done].
  destruct (stream_range_spec _ _ _ _ Hl El) as [? _]. destruct (stream_range_spec _ _ _ _ Hr Er) as [? _].
  intros (Hx & Hp & [Ha [Hb Hs]%StronglySorted_cons]%StronglySorted_cons)%StronglySorted_app.
  apply StronglySorted_app. split_and!; [|done|].
  - intros p q Hpp [->|Hq]%elem_of_cons; [apply (Hx p (s, e) Hpp); left|].
    apply (Hx p q Hpp). right. by right.
  - apply StronglySorted_cons. split; [|done]. done.
Qed.

(** The merge loop has stopped before its fuel is used up. *)
Lemma merge_loop_enough fuel i c :
  (length (lc_blocks c) - i ≤ fuel)%nat → merge_loop (S fuel) i c = merge_loop fuel i c.
Proof.
  revert i c; induction fuel as [|fuel IH]; intros i c Hf.
  { cbn [merge_loop]. rewrite (proj2 (Nat.leb_le _ (i + 1))) by lia. by rewrite orb_true_r. }
  remember (S fuel) as f eqn:Ef. cbn [merge_loop].
  replace (merge_loop f i c) with (merge_loop (S fuel) i c) by (by rewrite Ef). cbn [merge_loop]. subst f.
  destruct ((_ <=? MERGE_BLOCK_THRESHOLD)%nat || _) eqn:Es; [done|].
  apply orb_false_iff in Es as [_ Es%Nat.leb_gt].
  destruct (lc_blocks c !! i) as [l|] eqn:El; [|done].
  destruct (lc_blocks c !! S i) as [r|] eqn:Er; [|done].
  destruct (negb _ || _); [done|].
  destruct (_ <=? u64 _); [apply IH; lia|]. destruct (is_discontinuous l r); [apply IH; lia|].
  apply IH. cbn [lc_blocks]. rewrite length_app, length_take. cbn [length]. rewrite length_drop. lia.
Qed.

Lemma two_middle {A} (l : list A) i x y :
  l !! i = Some x → l !! S i = Some y → l = take i l ++ x :: y :: drop (S (S i)) l.
Proof.
  intros Hx Hy. rewrite <- (take_drop i l) at 1. f_equal.
  by rewrite (drop_S _ _ _ Hx), (drop_S _ _ _ Hy).
Qed.

Record same_view (c c' : LogCache) : Prop := {
  vw_contents st : contents st (lc_blocks c') = contents st (lc_blocks c);
  vw_pending st : pending st (lc_blocks c') = pending st (lc_blocks c);
}.

Lemma merge_step c pre l r post :
  cache_ok c → lc_blocks c = pre ++ l :: r :: post → lb_free l = true → lb_free r = true →
  is_discontinuous l r = false →
  let c' := mkLC (lc_capacity c) (lc_block_max_size c) (lc_max_stream_count c) (lc_size c)
              (pre ++ merged_of (lc_next_id c) l r :: post) (lc_last_record_offset c) (lc_next_id c + 1) in
  cache_ok c' ∧ same_view c c' ∧ (size_ok c → size_ok c').
Proof.
  intros [Hok Hr Hm (a & Ha & Hfa)] E Hl Hrr Hd c'. rewrite E in *.
  pose proof Hok as Hok0. apply Forall_app in Hok0 as [Hokp [Hokl [Hokr Hokq]%Forall_cons]%Forall_cons].
  assert (∀ st, contents st (lc_blocks c') = contents st (pre ++ l :: r :: post)) as Hc.
  { intros st. cbn [c' lc_blocks]. rewrite !contents_app. f_equal. unfold contents. cbn.
    by rewrite merged_records, <- app_assoc. }
  split_and!.
  - constructor.
    + apply Forall_app. split; [done|]. constructor; [|done].
      intros st sc Hsc. by destruct (merged_ok _ l r st sc Hokl Hokr Hd Hsc).
    + intros st. by apply merged_ranges_ok.
    + intros st. by rewrite Hc.
    + exists a. split; [|done]. unfold c'. cbn [lc_blocks]. rewrite last_app_cons in Ha |- *.
      destruct post as [|q post]; [|by rewrite !last_cons_cons in *].
      injection Ha as ->. congruence.
  - constructor; rewrite E; [done|]. intros st. cbn [c' lc_blocks]. rewrite !pending_app. f_equal.
    unfold pending. rewrite !filter_cons. rewrite Hl, Hrr. cbn [lb_free merged_of set_free].
    by rewrite !decide_False by done.
  - unfold size_ok. cbn [c' lc_size lc_blocks]. rewrite E. intros ->. rewrite !block_sizes_app. cbn. int_lia.
Qed.

Lemma merge_loop_spec fuel i c :
  cache_ok c → let c' := merge_loop fuel i c in cache_ok c' ∧ same_view c c' ∧ (size_ok c → size_ok c').
Proof.
  revert i c; induction fuel as [|fuel IH]; intros i c Hok; cbn [merge_loop]; [by split_and!|].
  destruct ((_ <=? MERGE_BLOCK_THRESHOLD)%nat || _); [by split_and!|].
  destruct (lc_blocks c !! i) as [l|] eqn:El; [|by split_and!].
  destruct (lc_blocks c !! S i) as [r|] eqn:Er; [|by split_and!].
  destruct (negb _ || _) eqn:Ef; [by split_and!|].
  destruct (_ <=? u64 _); [by apply IH|]. destruct (is_discontinuous l r) eqn:Ed; [by apply IH|].
  apply orb_false_iff in Ef as [Hl%negb_false_iff Hr%negb_false_iff].
  destruct (merge_step c _ _ _ _ Hok (two_middle _ _ _ _ El Er) Hl Hr Ed) as (Hok1 & [Hc1 Hp1] & Hs1).
  fold (merged_of (lc_next_id c) l r).
  destruct (IH i _ Hok1) as (Hok2 & [Hc2 Hp2] & Hs2). split_and!; [done| |by auto].
  constructor; intros st; [by rewrite Hc2, Hc1|by rewrite Hp2, Hp1].
Qed.

Lemma contents_single st b : contents st [b] = stream_records st b.
Proof. unfold contents. cbn [mbind list_bind]. apply app_nil_r. Qed.

Lemma records_new st id n m : stream_records st (block_new id n m) = [].
Proof. unfold stream_records. cbn. by rewrite lookup_empty. Qed.

Lemma range_new st id n m : stream_range st (block_new id n m) = None.
Proof. unfold stream_range. cbn. by rewrite lookup_empty. Qed.

Lemma pending_single st b : pending st [b] = if lb_free b then [] else stream_records st b.
Proof.
  unfold pending. rewrite filter_cons, filter_nil.
  destruct (lb_free b); [by rewrite decide_False|rewrite decide_True by done; apply contents_single].
Qed.

Lemma archive_spec c :
  cache_ok c →
  ∃ c' block, archive_current_block c = Some (c', block) ∧ cache_ok c' ∧ same_view c c' ∧ (size_ok c → size_ok c')
    ∧ (∃ b, last (lc_blocks c) = Some b ∧ lb_map block = lb_map b ∧ lb_block_id block = lb_block_id b
         ∧ (∀ o, lc_last_record_offset c = Some o → lb_last_record_offset block = Some o)).
Proof.
  intros Hok. destruct (cache_nonempty _ Hok) as (l & b & E & Hb).
  unfold archive_current_block. rewrite E, on_active_snoc. cbv beta iota zeta. cbn [fst snd].
  set (b' := match lc_last_record_offset c with Some o => block_set_last_record_offset o b | None => b end).
  assert (lb_map b' = lb_map b ∧ lb_free b' = lb_free b ∧ lb_size b' = lb_size b ∧ lb_block_id b' = lb_block_id b)
    as (Em & Ef & Es & Ei) by (unfold b'; by destruct (lc_last_record_offset c)).
  set (n := block_new _ _ _).
  assert (∀ st, stream_records st b' = stream_records st b) as Hrec by (intros st; unfold stream_records; by rewrite Em).
  assert (∀ st, stream_range st b' = stream_range st b) as Hrng by (intros st; unfold stream_range; by rewrite Em).
  assert (∀ st, contents st ((l ++ [b']) ++ [n]) = contents st (l ++ [b])) as Hc.
  { intros st. rewrite !contents_app, !contents_single, Hrec. unfold n. by rewrite records_new, app_nil_r. }
  eexists _, b'. split; [reflexivity|]. destruct Hok as [Hok Hr Hm _]. rewrite E in *. split_and!.
  - constructor; cbn [lc_blocks].
    + apply Forall_app in Hok as [Hl [Hbo _]%Forall_cons]. repeat (apply Forall_app; split); [done|..].
      * apply Forall_singleton. intros st c0. rewrite Em. by apply Hbo.
      * apply Forall_singleton. intros st c0 Hx. cbn in Hx. by rewrite lookup_empty in Hx.
    + intros st. specialize (Hr st). unfold ranges_ok, ranges_of in *. rewrite !omap_app in *. cbn [omap list_omap] in *.
      rewrite Hrng. unfold n. by rewrite range_new, app_nil_r.
    + intros st. by rewrite Hc.
    + exists n. by rewrite last_snoc.
  - constructor; cbn [lc_blocks]; rewrite E; [done|]. intros st. rewrite !pending_app, <- app_assoc. f_equal.
    rewrite !pending_single, Ef, Hb. unfold n. cbn [lb_free block_new]. by rewrite records_new, Hrec, app_nil_r.
  - unfold size_ok. cbn [lc_size lc_blocks]. rewrite E. intros ->. rewrite !block_sizes_app. cbn. rewrite Es. f_equal. lia.
  - exists b. rewrite last_snoc. split_and!; try done. unfold b'. intros o ->. done.
Qed.

(** Marking sealed blocks free changes no record; it takes them off the pending ones. *)
Lemma mark_spec id c :
  cache_ok c → (∀ b, last (lc_blocks c) = Some b → lb_block_id b ≠ id) →
  let c' := set_blocks ((λ b, if lb_block_id b =? id then set_free b else b) <$> lc_blocks c) c in
  cache_ok c' ∧ (size_ok c → size_ok c')
  ∧ ∀ st, contents st (lc_blocks c') = contents st (lc_blocks c)
    ∧ pending st (lc_blocks c')
      = contents st (filter (λ b, lb_free b = false ∧ lb_block_id b ≠ id) (lc_blocks c)).
Proof.
  intros [Hok Hr Hm (a & Ha & Hf)] Hid c'. specialize (Hid _ Ha).
  set (f := λ b, if lb_block_id b =? id then set_free b else b).
  assert (∀ b, lb_map (f b) = lb_map b ∧ lb_size (f b) = lb_size b) as Hf'.
  { intros b. unfold f. by destruct (_ =? _). }
  assert (∀ st bs, ranges_of st (f <$> bs) = ranges_of st bs) as Hrng.
  { intros st bs. unfold ranges_of. induction bs as [|b bs IH]; [done|]. cbn [fmap list_fmap omap list_omap].
    rewrite IH. unfold stream_range. by rewrite (proj1 (Hf' b)). }
  assert (∀ st bs, contents st (f <$> bs) = contents st bs) as Hc.
  { intros st bs. unfold contents. induction bs as [|b bs IH]; [done|]. cbn [fmap list_fmap mbind list_bind].
    rewrite IH. unfold stream_records at 1. by rewrite (proj1 (Hf' b)). }
  split_and!.
  - constructor; cbn [c' lc_blocks set_blocks]; fold f.
    + apply Forall_fmap. eapply Forall_impl; [done|]. intros b Hb st sc. unfold compose.
      rewrite (proj1 (Hf' b)). apply Hb.
    + intros st. unfold ranges_ok. rewrite Hrng. apply Hr.
    + intros st. rewrite Hc. apply Hm.
    + exists a. rewrite fmap_last, Ha. cbn. split; [|done]. f_equal. unfold f.
      by rewrite (proj2 (Z.eqb_neq _ _)).
  - unfold size_ok. cbn [c' lc_size lc_blocks set_blocks]. fold f. intros ->. f_equal.
    clear -Hf'. induction (lc_blocks c) as [|b bs IH]; [done|]. cbn. by rewrite <- IH, (proj2 (Hf' b)).
  - intros st. cbn [c' lc_blocks set_blocks]. fold f. split; [apply Hc|].
    unfold pending. clear -Hf'. induction (lc_blocks c) as [|b bs IH]; [done|].
    cbn [fmap list_fmap]. rewrite !filter_cons.
    assert (stream_records st (f b) = stream_records st b) as Er.
    { unfold stream_records. by rewrite (proj1 (Hf' b)). }
    assert (lb_free (f b) = false ↔ lb_free b = false ∧ lb_block_id b ≠ id) as Hiff.
    { unfold f. destruct (Z.eqb_spec (lb_block_id b) id); cbn; split; [done|by intros []|by split|by intros []]. }
    destruct (decide (lb_free b = false ∧ lb_block_id b ≠ id)) as [Hd|Hd].
    + rewrite decide_True by (by apply Hiff). unfold contents in *. cbn [mbind list_bind]. by rewrite IH, Er.
    + rewrite decide_False by (by rewrite Hiff). done.
Qed.

Lemma mark_free_spec id c :
  cache_ok c → (∀ b, last (lc_blocks c) = Some b → lb_block_id b ≠ id) →
  let c' := mark_free id c in
  cache_ok c' ∧ (size_ok c → size_ok c')
  ∧ (∀ st, pending st (lc_blocks c')
           = contents st (filter (λ b, lb_free b = false ∧ lb_block_id b ≠ id) (lc_blocks c)))
  ∧ ∀ st, contents st (lc_blocks c') `suffix_of` contents st (lc_blocks c).
Proof.
  intros Hok Hid. unfold mark_free. destruct (mark_spec id c Hok Hid) as (Hok1 & Hs1 & Hv1).
  set (c1 := set_blocks _ c) in *. cbv zeta.
  destruct (try_real_free_spec c1) as (removed & E & _ & Hf & Hs2 & _).
  assert (cache_ok (try_real_free c1).1) as Hok2 by (by eapply cache_ok_kept).
  unfold try_merge. destruct (merge_loop_spec (length (lc_blocks (try_real_free c1).1)) 0 _ Hok2) as (Hok3 & [Hc3 Hp3] & Hs3).
  split_and!; [done|by auto|intros st..].
  - rewrite Hp3. destruct (Hv1 st) as [_ <-]. rewrite E, pending_app, (pending_free _ removed) by done. done.
  - rewrite Hc3. destruct (Hv1 st) as [<- _]. rewrite E, contents_app. by exists (contents st removed).
Qed.

(** ** Operations as one step *)

Inductive LogCacheOp : Type :=
| OpPut (r : StreamRecordBatch)
| OpGet (stream start_offset end_offset max_bytes : Z)
| OpArchive
| OpMarkFree (id : Z)
| OpSetLastOffset (o : RecordOffset).

Definition exec (op : LogCacheOp) (c : LogCache) : option LogCache :=
  match op with
  | OpPut r => let* (c, _) := put r c in Some c
  | OpGet stream s e m => let* (c, _) := get stream s e m c in Some c
  | OpArchive => let* (c, _) := archive_current_block c in Some c
  | OpMarkFree id => Some (mark_free id c)
  | OpSetLastOffset o => Some (set_last_record_offset o c)
  end.

(** A record continues its stream; a block is marked free after it was sealed. *)
Definition op_pre (op : LogCacheOp) (c : LogCache) : Prop :=
  match op with
  | OpPut r => appendable r c
  | OpGet _ s e m => 0 ≤ m ∧ s < e
  | OpMarkFree id => ∀ b, last (lc_blocks c) = Some b → lb_block_id b ≠ id
  | OpArchive | OpSetLastOffset _ => True
  end.

(** The records of [stream] that must still be there. *)
Definition must_keep (op : LogCacheOp) (stream : Z) (c : LogCache) : list StreamRecordBatch :=
  match op with
  | OpPut r => pending stream (lc_blocks c) ++ added_to stream r (default false (snd <$> put r c))
  | OpMarkFree id => contents stream (filter (λ b, lb_free b = false ∧ lb_block_id b ≠ id) (lc_blocks c))
  | _ => pending stream (lc_blocks c)
  end.

Lemma same_pending st bs bs' : Forall2 block_same bs bs' → pending st bs' = pending st bs.
Proof.
  unfold pending. induction 1 as [|b b' bs bs' Hb _ IH]; [done|]. rewrite !filter_cons.
  pose proof (block_same_records b b' st Hb) as Er. destruct Hb as [_ ->]. cbn [lb_free set_map].
  destruct (decide _); [|done]. unfold contents in *. cbn [mbind list_bind]. rewrite IH.
  by rewrite <- Er.
Qed.

Lemma get_spec stream s e m c :
  cache_ok c → 0 ≤ m → s < e →
  ∃ c' rs, get stream s e m c = Some (c', rs) ∧ cache_ok c' ∧ (size_ok c → size_ok c') ∧ same_view c c'
    ∧ answer stream s e m (lc_blocks c) rs.
Proof.
  intros [Hok Hr Hm (a & Ha & Hfa)] Hm0 Hlt. unfold get.
  destruct (get0_spec stream s e m (lc_blocks c) Hok (contents_addressable _ _ (Hm stream)) (Hr stream) Hm0 Hlt)
    as (bs & rs & -> & Hok' & Hs & Han).
  eexists _, rs. split; [reflexivity|]. split_and!; try done.
  - constructor; cbn [lc_blocks set_blocks]; [done|..].
    + intros st. unfold ranges_ok. rewrite (same_ranges _ _ _ Hs). apply Hr.
    + intros st. by rewrite (same_contents _ _ _ Hs).
    + apply last_Some in Ha as [l El]. rewrite El in Hs. apply Forall2_app_inv_l in Hs as (l' & k & Hl & Hk & ->).
      apply Forall2_cons_inv_l in Hk as (b' & k' & Hb & Hn & ->). apply Forall2_nil_inv_l in Hn as ->.
      exists b'. rewrite last_snoc. split; [done|]. destruct Hb as [_ ->]. done.
  - unfold size_ok. cbn [lc_size lc_blocks set_blocks]. intros ->. f_equal. clear -Hs.
    induction Hs as [|b b' bs bs' [_ Hb] _ IH]; [done|]. cbn. rewrite IH, Hb. done.
  - constructor; intros st; cbn [lc_blocks set_blocks]; [by apply same_contents|by apply same_pending].
Qed.

Lemma new_ok capacity n m id : cache_ok (log_cache_new capacity n m id) ∧ size_ok (log_cache_new capacity n m id).
Proof.
  split; [|done]. constructor; cbn [lc_blocks log_cache_new].
  - apply Forall_singleton. intros st c Hc. cbn in Hc. by rewrite lookup_empty in Hc.
  - intros st. unfold ranges_ok, ranges_of. cbn [omap list_omap]. rewrite range_new. constructor.
  - intros st. by rewrite contents_single, records_new.
  - by eexists.
Qed.

(** ** Properties *)

(** C23: a read of the log cache always returns (two levels of [get0] suffice), leaves
    the cached records as they are, and answers with contiguous cached records of the
    stream that reach the end of the request or fill its bytes: from the batch that
    covers the start when the range is cached, else from the start of the continuous
    tail, else with nothing. *)
Theorem log_cache_get stream start_offset end_offset max_bytes c :
  cache_ok c → 0 ≤ max_bytes → start_offset < end_offset →
  ∃ c' rs, get stream start_offset end_offset max_bytes c = Some (c', rs)
    ∧ cache_ok c' ∧ same_view c c' ∧ answer stream start_offset end_offset max_bytes (lc_blocks c) rs.
Proof.
  intros Hok Hm Hlt. destruct (get_spec stream _ _ _ c Hok Hm Hlt) as (c' & rs & ? & ? & _ & ? & ?).
  by exists c', rs.
Qed.

(** C24: every operation of the log cache succeeds, keeps its invariant and its size
    accounting, and drops no record before its block was marked free: the pending
    records are exactly the old ones, plus an added record, less the marked block's. *)
Theorem log_cache_keeps_pending op c :
  cache_ok c → op_pre op c →
  ∃ c', exec op c = Some c' ∧ cache_ok c' ∧ (size_ok c → size_ok c')
    ∧ ∀ stream, pending stream (lc_blocks c') = must_keep op stream c.
Proof.
  intros Hok Hpre. destruct op as [r|st s e m| |id|o]; cbn in Hpre; unfold exec, must_keep.
  - destruct (put_spec r c Hok Hpre) as (c' & added & removed & -> & ? & ? & _ & ? & _). by exists c'.
  - destruct (get_spec st s e m c Hok) as (c' & rs & -> & ? & ? & [_ ?] & _); [lia|lia|]. by exists c'.
  - destruct (archive_spec c Hok) as (c' & b & -> & ? & [_ ?] & ? & _). by exists c'.
  - destruct (mark_free_spec id c Hok Hpre) as (? & ? & ? & _). by exists (mark_free id c).
  - exists (set_last_record_offset o c). split_and!; try done. by destruct Hok.
Qed.

(** The loop that merges free blocks ends: with one unit of fuel per block, more
    fuel changes nothing, and merging changes neither the cached records of any stream
    nor the pending ones nor the accounted size. *)
Theorem log_cache_merge_terminates fuel c :
  cache_ok c → (length (lc_blocks c) ≤ fuel)%nat →
  merge_loop fuel 0 c = try_merge c ∧ same_view c (try_merge c) ∧ (size_ok c → size_ok (try_merge c)).
Proof.
  intros Hok Hf. split; [|by destruct (merge_loop_spec (length (lc_blocks c)) 0 c Hok) as (_ & ? & ?)].
  unfold try_merge. induction Hf as [|fuel Hf IH]; [done|]. rewrite merge_loop_enough by lia. done.
Qed.

Module LogCacheDemo.
Definition r1 : StreamRecordBatch := new 7 0 0 5 [1; 2; 3].
Definition r2 : StreamRecordBatch := new 7 0 5 5 [4; 5].
Definition c0 : LogCache := log_cache_new 1000 10000 100 0.
Definition c1 : LogCache := default c0 (exec (OpPut r1) c0).
Definition c2 : LogCache := default c0 (exec OpArchive c1).
Definition c3 : LogCache := default c0 (exec (OpPut r2) c2).

Lemma c0_ok : cache_ok c0.
Proof. apply new_ok. Qed.

Lemma r1_pre : op_pre (OpPut r1) c0.
Proof.
  constructor; [done| | |done].
  - intros p Hp. vm_compute in Hp. by apply not_elem_of_nil in Hp.
  - intros b s e Hl. vm_compute in Hl. injection Hl as <-. by vm_compute.
Qed.

Lemma c1_ok : cache_ok c1.
Proof.
  destruct (put_spec r1 c0 c0_ok r1_pre) as (c' & a & rm & E & Hok & _).
  unfold c1, exec. by rewrite E.
Qed.

Lemma c2_ok : cache_ok c2.
Proof.
  destruct (archive_spec c1 c1_ok) as (c' & b & E & Hok & _). unfold c2, exec. by rewrite E.
Qed.

Lemma r2_pre : op_pre (OpPut r2) c2.
Proof.
  constructor; [done| | |done].
  - intros p Hp. replace (ranges_of _ _) with [(0, 5)] in Hp by reflexivity.
    apply list_elem_of_singleton in Hp as ->. done.
  - intros b s e Hl. vm_compute in Hl. injection Hl as <-. by vm_compute.
Qed.

Lemma c3_ok : cache_ok c3.
Proof.
  destruct (put_spec r2 c2 c2_ok r2_pre) as (c' & a & rm & E & Hok & _).
  unfold c3, exec. by rewrite E.
Qed.
End LogCacheDemo.

Lemma log_cache_get_witness :
  ∃ c' rs, get 7 2 10 100 LogCacheDemo.c3 = Some (c', rs)
    ∧ cache_ok c' ∧ same_view LogCacheDemo.c3 c' ∧ answer 7 2 10 100 (lc_blocks LogCacheDemo.c3) rs.
Proof. apply log_cache_get; [apply LogCacheDemo.c3_ok|done|done]. Defined.

Example log_cache_get_evaluates :
  snd <$> get 7 2 10 100 LogCacheDemo.c3 = Some [LogCacheDemo.r1; LogCacheDemo.r2].
Proof. reflexivity. Qed.

Lemma log_cache_keeps_pending_witness :
  ∃ c', exec (OpPut LogCacheDemo.r2) LogCacheDemo.c2 = Some c' ∧ cache_ok c'
    ∧ (size_ok LogCacheDemo.c2 → size_ok c')
    ∧ ∀ stream, pending stream (lc_blocks c') = must_keep (OpPut LogCacheDemo.r2) stream LogCacheDemo.c2.
Proof. apply log_cache_keeps_pending; [apply LogCacheDemo.c2_ok|apply LogCacheDemo.r2_pre]. Defined.

Lemma log_cache_merge_terminates_witness :
  merge_loop 5 0 LogCacheDemo.c3 = try_merge LogCacheDemo.c3
  ∧ same_view LogCacheDemo.c3 (try_merge LogCacheDemo.c3)
  ∧ (size_ok LogCacheDemo.c3 → size_ok (try_merge LogCacheDemo.c3)).
Proof. apply log_cache_merge_terminates; [apply LogCacheDemo.c3_ok|vm_compute; lia]. Defined.

(** Clearing a stream takes its bytes off the cache's size but not off its block's, so
    releasing the block takes them off a second time and the size wraps below zero. *)
Definition after_clear : option LogCache :=
  let* (c, _) := put (new 7 0 0 1 (replicate 100 0)) (log_cache_new 100 10000 100 0) in
  let* (c, b) := archive_current_block c in
  let c := clear_stream_records 7 c in
  let* (c, _) := put (new 8 0 0 1 (replicate 50 0)) c in
  Some (mark_free (lb_block_id b) c).

(** The accounting defect of [clear_stream_records]: the bytes of the cleared stream
    are taken off the cache's size and stay in the block's, so releasing the block takes
    them off again. After one put, seal, clear, put and free, 98 bytes are cached and
    the recorded size is 2^64 - 50. *)
Theorem clear_stream_double_release :
  ∃ c, after_clear = Some c ∧ lc_size c = 2 ^ 64 - 50 ∧ block_sizes (lc_blocks c) = 98.
Proof. eexists. split; [reflexivity|]. split; reflexivity. Qed.
