(* ===== verification/Metadata.v ===== *)
(** * The metadata plane: stream and object registries

    Models [s3stream-core/src/api/error.rs], the types of [manager.rs] and the
    in-memory manager and key-value client of [memory.rs].  A metadata listener is
    named by a number; an operation returns the notifications it sends.  The wall
    clock is the argument [now]. *)
From S2P Require Import Prelude Collections Codec ObjectStore WalFormat ObjectFormat ObjectIO.

(** ** api/error.rs *)

Inductive StreamError : Type :=
| SE_Fenced (stream_id epoch : Z)
| SE_Closed (stream_id : Z)
| SE_NotExist (stream_id : Z)
| SE_OffsetOutOfRange (stream_id start end_ valid_start valid_end : Z)
| SE_FastReadFailFast
| SE_OverCapacity
| SE_ObjectNotExist (object_id : Z)
| SE_BlockNotContinuous
| SE_Wal (e : WalError)
| SE_Object (e : ObjectError)
| SE_Unexpected.

(** ** manager.rs: types *)

Inductive StreamState : Type := StreamClosed | StreamOpened.
#[export] Instance StreamState_eq_dec : EqDecision StreamState.
Proof. solve_decision. Defined.

Record StreamMetadata : Type := mkStream {
  sm_stream_id : Z;
  sm_epoch : Z;
  sm_start_offset : Z;
  sm_end_offset : Z;
  sm_state : StreamState;
  sm_node_id : Z;
}.
#[export] Instance StreamMetadata_eq_dec : EqDecision StreamMetadata.
Proof. solve_decision. Defined.

Record StreamObject : Type := {
  so_object_id : Z;
  so_object_size : Z;
  so_stream_id : Z;
  so_start_offset : Z;
  so_end_offset : Z;
  so_attributes : Z;
}.

Record CommitStreamSetObjectRequest : Type := {
  cr_object_id : Z;
  cr_object_size : Z;
  cr_attributes : Z;
  cr_stream_ranges : list ObjectStreamRange;
  cr_stream_objects : list StreamObject;
  cr_compacted_object_ids : list Z;
}.

(** [CompactOperations] of [compact/plan.rs]: how a source object is disposed of. *)
Inductive CompactOperations : Type := OpDelete | OpKeepData | OpDeepDelete.

Record CompactStreamObjectRequest : Type := {
  cs_object_id : Z;
  cs_object_size : Z;
  cs_stream_id : Z;
  cs_stream_epoch : Z;
  cs_start_offset : Z;
  cs_end_offset : Z;
  cs_source_object_ids : list Z;
  cs_operations : list CompactOperations;
  cs_attributes : Z;
}.

(** ** memory.rs: MemoryMetadataManager *)

Record MetadataState : Type := mkMeta {
  ms_stream_set_objects : gmap Z S3ObjectMetadata;
  ms_stream_objects : gmap Z (gmap Z S3ObjectMetadata);
  ms_streams : gmap Z StreamMetadata;
  ms_next_stream_id : Z;
  ms_listeners : gmap Z (list Z);
  ms_next_listener_id : Z;
  ms_object_id_alloc : Z;
}.

Definition manager_new : MetadataState := mkMeta ∅ ∅ ∅ 0 ∅ 0 1.

Definition set_streams (streams : gmap Z StreamMetadata) (m : MetadataState) : MetadataState :=
  mkMeta (ms_stream_set_objects m) (ms_stream_objects m) streams (ms_next_stream_id m)
    (ms_listeners m) (ms_next_listener_id m) (ms_object_id_alloc m).

(** A notification: the listener and the metadata it is called with. *)
Definition Notification : Type := Z * StreamMetadata.

Definition prepare_object (count : Z) (m : MetadataState) : MetadataState * Z :=
  (mkMeta (ms_stream_set_objects m) (ms_stream_objects m) (ms_streams m) (ms_next_stream_id m)
     (ms_listeners m) (ms_next_listener_id m) (u64 (ms_object_id_alloc m + count)),
   ms_object_id_alloc m).

Definition sso_metadata (now : Z) (r : CommitStreamSetObjectRequest) : S3ObjectMetadata :=
  {| om_object_id := cr_object_id r; om_object_type := StreamSet;
     om_offset_ranges := (λ x, {| sr_stream_id := or_stream_id x; sr_start_offset := or_start_offset x;
                                  sr_end_offset := or_end_offset x |}) <$> cr_stream_ranges r;
     om_object_size := cr_object_size r; om_attributes := cr_attributes r;
     om_committed_timestamp_ms := now; om_data_timestamp_ms := now |}.

Definition so_metadata (now object_id object_size stream_id start_offset end_offset attributes : Z)
  : S3ObjectMetadata :=
  {| om_object_id := object_id; om_object_type := Stream;
     om_offset_ranges := [ {| sr_stream_id := stream_id; sr_start_offset := start_offset;
                              sr_end_offset := end_offset |} ];
     om_object_size := object_size; om_attributes := attributes;
     om_committed_timestamp_ms := now; om_data_timestamp_ms := now |}.

Definition insert_stream_object (now : Z) (m : gmap Z (gmap Z S3ObjectMetadata)) (so : StreamObject)
  : gmap Z (gmap Z S3ObjectMetadata) :=
  <[so_stream_id so :=
      <[so_start_offset so :=
          so_metadata now (so_object_id so) (so_object_size so) (so_stream_id so)
            (so_start_offset so) (so_end_offset so) (so_attributes so)]>
        (default ∅ (m !! so_stream_id so))]> m.

Definition set_end_offset (e : Z) (s : StreamMetadata) : StreamMetadata :=
  mkStream (sm_stream_id s) (sm_epoch s) (sm_start_offset s) e (sm_state s) (sm_node_id s).

(** One advance: the new streams and the notifications to send. *)
Fixpoint advance (listeners : gmap Z (list Z)) (advances : list (Z * Z)) (streams : gmap Z StreamMetadata)
  : gmap Z StreamMetadata * list Notification :=
  match advances with
  | [] => (streams, [])
  | (stream_id, end_offset) :: rest =>
      match streams !! stream_id with
      | None => advance listeners rest streams
      | Some stream =>
          let stream := set_end_offset (Z.max (sm_end_offset stream) end_offset) stream in
          let '(streams, notes) := advance listeners rest (<[stream_id := stream]> streams) in
          (streams, ((λ l, (l, stream)) <$> default [] (listeners !! stream_id)) ++ notes)
      end
  end.

Definition advances_of (r : CommitStreamSetObjectRequest) : list (Z * Z) :=
  ((λ x, (or_stream_id x, or_end_offset x)) <$> cr_stream_ranges r)
  ++ ((λ s, (so_stream_id s, so_end_offset s)) <$> cr_stream_objects r).

Definition commit_stream_set_object (now : Z) (r : CommitStreamSetObjectRequest) (m : MetadataState)
  : MetadataState * list Notification :=
  let set_objects :=
    if negb (cr_object_id r =? NOOP_OBJECT_ID)
    then <[cr_object_id r := sso_metadata now r]> (ms_stream_set_objects m)
    else ms_stream_set_objects m in
  let stream_objects := foldl (insert_stream_object now) (ms_stream_objects m) (cr_stream_objects r) in
  let set_objects := foldl (λ o id, delete id o) set_objects (cr_compacted_object_ids r) in
  let '(streams, notes) := advance (ms_listeners m) (advances_of r) (ms_streams m) in
  (mkMeta set_objects stream_objects streams (ms_next_stream_id m) (ms_listeners m)
     (ms_next_listener_id m) (ms_object_id_alloc m), notes).

Definition compact_stream_object (now : Z) (r : CompactStreamObjectRequest) (m : MetadataState)
  : MetadataState :=
  let per_stream := default ∅ (ms_stream_objects m !! cs_stream_id r) in
  let per_stream := filter (λ p, om_object_id p.2 ∉ cs_source_object_ids r) per_stream in
  let per_stream :=
    if negb (cs_object_id r =? NOOP_OBJECT_ID)
    then <[cs_start_offset r :=
             so_metadata now (cs_object_id r) (cs_object_size r) (cs_stream_id r)
               (cs_start_offset r) (cs_end_offset r) (cs_attributes r)]> per_stream
    else per_stream in
  mkMeta (ms_stream_set_objects m) (<[cs_stream_id r := per_stream]> (ms_stream_objects m))
    (ms_streams m) (ms_next_stream_id m) (ms_listeners m) (ms_next_listener_id m) (ms_object_id_alloc m).

(** The range overlaps [start_offset, end_offset). *)
Definition overlaps (start_offset end_offset : Z) (r : StreamOffsetRange) : bool :=
  (sr_start_offset r <? end_offset) && (start_offset <? sr_end_offset r).

Definition slice_le (a b : Z * S3ObjectMetadata) : bool :=
  (a.1 <? b.1) || ((a.1 =? b.1) && (om_object_id a.2 <=? om_object_id b.2)).

(** The slices of stream set objects, one per range of the stream. *)
Definition set_slices (stream_id start_offset end_offset : Z) (objects : list S3ObjectMetadata)
  : list (Z * S3ObjectMetadata) :=
  objects ≫= λ o,
    omap (λ r, if (sr_stream_id r =? stream_id) && overlaps start_offset end_offset r
               then Some (sr_start_offset r, o) else None) (om_offset_ranges o).

(** [None]: the index [offset_ranges[0]] of an object without ranges. *)
Definition stream_slices (start_offset end_offset : Z) (objects : list S3ObjectMetadata)
  : option (list (Z * S3ObjectMetadata)) :=
  let* ranges := mapM (λ o, head (om_offset_ranges o)) objects in
  Some (omap (λ p, if overlaps start_offset end_offset p.2 then Some (sr_start_offset p.2, p.1) else None)
          (zip objects ranges)).

Definition get_objects (stream_id start_offset end_offset limit : Z) (m : MetadataState)
  : option (list S3ObjectMetadata) :=
  let* own := stream_slices start_offset end_offset
                (values (default ∅ (ms_stream_objects m !! stream_id))) in
  let slices := set_slices stream_id start_offset end_offset (values (ms_stream_set_objects m)) ++ own in
  Some (takeZ (Z.max limit 1) (sort_by slice_le slices).*2).

Definition get_server_objects (m : MetadataState) : list S3ObjectMetadata := values (ms_stream_set_objects m).

Definition get_stream_objects (stream_id start_offset end_offset limit : Z) (m : MetadataState)
  : option (list S3ObjectMetadata) :=
  let* own := stream_slices start_offset end_offset
                (values (default ∅ (ms_stream_objects m !! stream_id))) in
  Some (takeZ (Z.max limit 1) own.*2).

Definition is_object_exist (object_id : Z) (m : MetadataState) : bool :=
  bool_decide (is_Some (ms_stream_set_objects m !! object_id))
  || existsb (λ p : Z * gmap Z S3ObjectMetadata,
                existsb (λ q : Z * S3ObjectMetadata, om_object_id q.2 =? object_id) (map_to_list p.2))
       (map_to_list (ms_stream_objects m)).

(** *** Streams *)

Definition get_opening_streams (m : MetadataState) : list StreamMetadata :=
  filter (λ s, sm_state s = StreamOpened) (values (ms_streams m)).

Definition get_streams (ids : list Z) (m : MetadataState) : list StreamMetadata :=
  omap (λ id, ms_streams m !! id) ids.

Definition create_stream (m : MetadataState) : MetadataState * Z :=
  let id := ms_next_stream_id m in
  (mkMeta (ms_stream_set_objects m) (ms_stream_objects m)
     (<[id := mkStream id 0 0 0 StreamClosed (-1)]> (ms_streams m)) (u64 (id + 1))
     (ms_listeners m) (ms_next_listener_id m) (ms_object_id_alloc m), id).

Definition open_stream (stream_id epoch : Z) (m : MetadataState)
  : MetadataState * result StreamError StreamMetadata :=
  match ms_streams m !! stream_id with
  | None => (m, Err (SE_NotExist stream_id))
  | Some s =>
      if (epoch <? sm_epoch s) || ((sm_epoch s =? epoch) && bool_decide (sm_state s = StreamOpened))
      then (m, Err (SE_Fenced stream_id epoch))
      else
        let s := mkStream (sm_stream_id s) epoch (sm_start_offset s) (sm_end_offset s) StreamOpened (sm_node_id s) in
        (set_streams (<[stream_id := s]> (ms_streams m)) m, Ok s)
  end.

Definition trim_stream (stream_id epoch new_start_offset : Z) (m : MetadataState)
  : MetadataState * result StreamError (list Notification) :=
  match ms_streams m !! stream_id with
  | None => (m, Err (SE_NotExist stream_id))
  | Some s =>
      if negb (sm_epoch s =? epoch) then (m, Err (SE_Fenced stream_id epoch))
      else
        let s := mkStream (sm_stream_id s) (sm_epoch s) (Z.max (sm_start_offset s) new_start_offset)
                   (sm_end_offset s) (sm_state s) (sm_node_id s) in
        (set_streams (<[stream_id := s]> (ms_streams m)) m,
         Ok ((λ l, (l, s)) <$> default [] (ms_listeners m !! stream_id)))
  end.

Definition close_stream (stream_id epoch : Z) (m : MetadataState)
  : MetadataState * result StreamError unit :=
  match ms_streams m !! stream_id with
  | None => (m, Err (SE_NotExist stream_id))
  | Some s =>
      if negb (sm_epoch s =? epoch) then (m, Err (SE_Fenced stream_id epoch))
      else
        let s := mkStream (sm_stream_id s) (sm_epoch s) (sm_start_offset s) (sm_end_offset s)
                   StreamClosed (sm_node_id s) in
        (set_streams (<[stream_id := s]> (ms_streams m)) m, Ok tt)
  end.

Definition delete_stream (stream_id epoch : Z) (m : MetadataState)
  : MetadataState * result StreamError unit :=
  match ms_streams m !! stream_id with
  | None => (m, Err (SE_NotExist stream_id))
  | Some s =>
      if sm_epoch s =? epoch then
        (mkMeta (ms_stream_set_objects m) (delete stream_id (ms_stream_objects m))
           (delete stream_id (ms_streams m)) (ms_next_stream_id m) (ms_listeners m)
           (ms_next_listener_id m) (ms_object_id_alloc m), Ok tt)
      else (m, Err (SE_Fenced stream_id epoch))
  end.

Definition set_node_id (stream_id node_id : Z) (m : MetadataState) : MetadataState :=
  match ms_streams m !! stream_id with
  | None => m
  | Some s =>
      set_streams (<[stream_id := mkStream (sm_stream_id s) (sm_epoch s) (sm_start_offset s) (sm_end_offset s)
                                    (sm_state s) node_id]> (ms_streams m)) m
  end.

Definition set_listeners (listeners : gmap Z (list Z)) (next : Z) (m : MetadataState) : MetadataState :=
  mkMeta (ms_stream_set_objects m) (ms_stream_objects m) (ms_streams m) (ms_next_stream_id m)
    listeners next (ms_object_id_alloc m).

(** The registration id names the listener; the handle carries it. *)
Definition add_metadata_listener (stream_id : Z) (m : MetadataState) : MetadataState * Z :=
  let id := ms_next_listener_id m in
  (set_listeners (<[stream_id := default [] (ms_listeners m !! stream_id) ++ [id]]> (ms_listeners m))
     (u64 (id + 1)) m, id).

Definition close_listener (stream_id id : Z) (m : MetadataState) : MetadataState :=
  set_listeners (alter (filter (λ l, l ≠ id)) stream_id (ms_listeners m)) (ms_next_listener_id m) m.

(** ** memory.rs: MemoryKvClient *)

Definition MemoryKvClient : Type := gmap bytes bytes.
Definition KeyValue : Type := bytes * bytes.

Definition put_kv_if_absent (kv : KeyValue) (c : MemoryKvClient) : MemoryKvClient * bytes :=
  match c !! kv.1 with
  | Some v => (c, v)
  | None => (<[kv.1 := kv.2]> c, kv.2)
  end.
Definition put_kv (kv : KeyValue) (c : MemoryKvClient) : MemoryKvClient * bytes := (<[kv.1 := kv.2]> c, kv.2).
Definition get_kv (key : bytes) (c : MemoryKvClient) : option bytes := c !! key.
Definition del_kv (key : bytes) (c : MemoryKvClient) : MemoryKvClient * option bytes := (delete key c, c !! key).
Definition del_kv_if (key expected : bytes) (c : MemoryKvClient) : MemoryKvClient * option bytes :=
  match c !! key with
  | Some current => if bool_decide (current = expected) then (delete key c, Some current) else (c, None)
  | None => (c, None)
  end.
Definition list_kv (prefix : bytes) (c : MemoryKvClient) : list KeyValue :=
  sort_by (λ a b, lex_le a.1 b.1) (filter (λ p, starts_with prefix p.1 = true) (map_to_list c)).

(** ** The manager as a transition system *)

Inductive mstep : MetadataState → MetadataState → Prop :=
| ms_prepare m count : mstep m (prepare_object count m).1
| ms_commit m now r : mstep m (commit_stream_set_object now r m).1
| ms_compact m now r : mstep m (compact_stream_object now r m)
| ms_create m : ms_next_stream_id m + 1 < 2 ^ 64 → mstep m (create_stream m).1
| ms_open m id e : mstep m (open_stream id e m).1
| ms_trim m id e o : mstep m (trim_stream id e o m).1
| ms_close m id e : mstep m (close_stream id e m).1
| ms_delete m id e : mstep m (delete_stream id e m).1
| ms_node m id n : mstep m (set_node_id id n m)
| ms_listen m id : mstep m (add_metadata_listener id m).1
| ms_unlisten m id l : mstep m (close_listener id l m).

(** Streams are registered under their id, below the next one; a stream object has
    one range, of its stream, and is filed under its start offset. *)
Record manager_ok (m : MetadataState) : Prop := {
  mo_next : 0 ≤ ms_next_stream_id m;
  mo_streams id s : ms_streams m !! id = Some s → sm_stream_id s = id ∧ 0 ≤ id < ms_next_stream_id m;
  mo_objects id per k o : ms_stream_objects m !! id = Some per → per !! k = Some o →
    ∃ e, om_offset_ranges o = [ {| sr_stream_id := id; sr_start_offset := k; sr_end_offset := e |} ];
}.

(** [stream]'s entry may only move forward, or go for good. *)
Definition stream_le (id : Z) (m m' : MetadataState) : Prop :=
  match ms_streams m !! id, ms_streams m' !! id with
  | Some s, Some s' => sm_epoch s ≤ sm_epoch s' ∧ sm_start_offset s ≤ sm_start_offset s'
                       ∧ sm_end_offset s ≤ sm_end_offset s'
  | None, Some _ => ms_next_stream_id m ≤ id
  | _, None => True
  end.

Lemma advance_lookup listeners advs streams id :
  (advance listeners advs streams).1 !! id
  = (λ s, set_end_offset (foldr (λ p a, if p.1 =? id then Z.max p.2 a else a) (sm_end_offset s) advs) s)
    <$> streams !! id.
Proof.
  revert streams; induction advs as [|[i e] advs IH]; intros streams; cbn.
  { destruct (streams !! id) as [s|]; [|done]. cbn. by destruct s. }
  destruct (streams !! i) as [s|] eqn:Es.
  - destruct (advance listeners advs _) as [st' notes] eqn:E. cbn.
    specialize (IH (<[i := set_end_offset (Z.max (sm_end_offset s) e) s]> streams)). rewrite E in IH. cbn in IH.
    rewrite IH. destruct (Z.eqb_spec i id) as [->|Hne].
    + rewrite lookup_insert_eq, Es. cbn. f_equal. unfold set_end_offset; cbn. f_equal.
      clear. induction advs as [|[j x] advs IH]; cbn; [lia|]. destruct (_ =? _); lia.
    + by rewrite lookup_insert_ne.
  - rewrite IH. destruct (Z.eqb_spec i id) as [->|]; [by rewrite Es|done].
Qed.

Lemma advance_ge advs id s :
  s ≤ foldr (λ (p : Z * Z) a, if p.1 =? id then Z.max p.2 a else a) s advs.
Proof. induction advs as [|[j x] advs IH]; cbn; [lia|]. destruct (_ =? _); lia. Qed.

Lemma commit_streams now r m id :
  ms_streams (commit_stream_set_object now r m).1 !! id
  = (λ s, set_end_offset (foldr (λ p a, if p.1 =? id then Z.max p.2 a else a) (sm_end_offset s) (advances_of r)) s)
    <$> ms_streams m !! id.
Proof.
  unfold commit_stream_set_object. rewrite <- (advance_lookup (ms_listeners m)).
  by destruct (advance _ _ _).
Qed.

(** The four fields every step but a commit or a compaction leaves alone. *)
Lemma commit_rest now r m :
  ms_next_stream_id (commit_stream_set_object now r m).1 = ms_next_stream_id m
  ∧ ms_stream_objects (commit_stream_set_object now r m).1
    = foldl (insert_stream_object now) (ms_stream_objects m) (cr_stream_objects r)
  ∧ ms_stream_set_objects (commit_stream_set_object now r m).1
    = foldl (λ o id, delete id o)
        (if negb (cr_object_id r =? NOOP_OBJECT_ID)
         then <[cr_object_id r := sso_metadata now r]> (ms_stream_set_objects m)
         else ms_stream_set_objects m) (cr_compacted_object_ids r).
Proof. unfold commit_stream_set_object. by destruct (advance _ _ _). Qed.

Lemma insert_objects_ok now l objs :
  let ok (m : gmap Z (gmap Z S3ObjectMetadata)) := ∀ id per k o, m !! id = Some per → per !! k = Some o →
    ∃ e, om_offset_ranges o = [ {| sr_stream_id := id; sr_start_offset := k; sr_end_offset := e |} ] in
  ok objs → ok (foldl (insert_stream_object now) objs l).
Proof.
  intros ok. revert objs; induction l as [|so l IH]; intros objs Hok; cbn; [done|]. apply IH.
  intros id per k o. unfold insert_stream_object.
  intros [[<- <-]|[_ Hp]]%lookup_insert_Some; [|by eapply Hok].
  intros [[<- <-]|[_ Hk]]%lookup_insert_Some; [by eexists|].
  destruct (objs !! so_stream_id so) as [per|] eqn:E; cbn in Hk; [by eapply Hok|by rewrite lookup_empty in Hk].
Qed.

Lemma manager_new_ok : manager_ok manager_new.
Proof. constructor; cbn; [done|..]; intros *; by rewrite lookup_empty. Qed.

Lemma update_stream_step m id s s' :
  manager_ok m → ms_streams m !! id = Some s → sm_stream_id s' = sm_stream_id s →
  sm_epoch s ≤ sm_epoch s' → sm_start_offset s ≤ sm_start_offset s' → sm_end_offset s ≤ sm_end_offset s' →
  let m' := set_streams (<[id := s']> (ms_streams m)) m in
  manager_ok m' ∧ ∀ i, stream_le i m m'.
Proof.
  intros [Hn Hs Ho] E Hid He Hst Hen m'. destruct (Hs _ _ E) as [Eid ?]. split.
  - constructor; [done| |done]. intros i x. cbn.
    intros [[<- <-]|[_ ?]]%lookup_insert_Some; [split; [congruence|done]|by apply Hs].
  - intros i. unfold stream_le. cbn. destruct (decide (i = id)) as [->|Hne].
    + rewrite lookup_insert_eq, E. done.
    + rewrite lookup_insert_ne by done. destruct (ms_streams m !! i); [lia|done].
Qed.

Lemma stream_le_same i m m' : ms_streams m' = ms_streams m → stream_le i m m'.
Proof. intros E. unfold stream_le. rewrite E. destruct (ms_streams m !! i); [lia|done]. Qed.

Lemma mstep_ok m m' :
  mstep m m' → manager_ok m →
  manager_ok m' ∧ (∀ id, stream_le id m m') ∧ ms_next_stream_id m ≤ ms_next_stream_id m'.
Proof.
  intros Hst Hok. pose proof Hok as [Hn Hs Ho].
  assert (∀ m', ms_streams m' = ms_streams m → ms_stream_objects m' = ms_stream_objects m →
    ms_next_stream_id m' = ms_next_stream_id m →
    manager_ok m' ∧ (∀ id, stream_le id m m') ∧ ms_next_stream_id m ≤ ms_next_stream_id m') as Hsame.
  { intros m1 E1 E2 E3. split_and!; [|intros id; by apply stream_le_same|lia].
    constructor; rewrite ?E1, ?E2, ?E3; done. }
  assert (∀ id s s', ms_streams m !! id = Some s → sm_stream_id s' = sm_stream_id s →
    sm_epoch s ≤ sm_epoch s' → sm_start_offset s ≤ sm_start_offset s' → sm_end_offset s ≤ sm_end_offset s' →
    let m1 := set_streams (<[id := s']> (ms_streams m)) m in
    manager_ok m1 ∧ (∀ id, stream_le id m m1) ∧ ms_next_stream_id m ≤ ms_next_stream_id m1) as Hup.
  { intros id s s' E ? ? ? ? m1. destruct (update_stream_step m id s s' Hok E) as [? ?]; [done..|]. cbn. split_and!; [done|done|lia]. }
  destruct Hst as [m count|m now r|m now r|m Hlt|m id e|m id e o|m id e|m id e|m id n|m id|m id l].
  - by apply Hsame.
  - destruct (commit_rest now r m) as (En & Eo & _). split_and!; [|intros id|lia].
    + constructor; rewrite ?En; [done| |rewrite Eo; by apply insert_objects_ok].
      intros id s. rewrite commit_streams, fmap_Some. intros (s0 & E & ->). cbn. by apply Hs.
    + unfold stream_le. rewrite commit_streams. destruct (ms_streams m !! id) as [s|]; [|done]. cbn.
      split_and!; [lia|lia|apply advance_ge].
  - unfold compact_stream_object. split_and!; [|intros id; by apply stream_le_same|done].
    constructor; cbn; [done|done|]. intros id per k o.
    intros [[<- <-]|[_ Hp]]%lookup_insert_Some; [|by eapply Ho].
    assert (∀ k o, filter (λ p : Z * S3ObjectMetadata, om_object_id p.2 ∉ cs_source_object_ids r)
      (default ∅ (ms_stream_objects m !! cs_stream_id r)) !! k = Some o →
      ∃ e, om_offset_ranges o = [ {| sr_stream_id := cs_stream_id r; sr_start_offset := k; sr_end_offset := e |} ]) as Hfil.
    { intros k0 o0 [Hk _]%map_lookup_filter_Some.
      destruct (ms_stream_objects m !! cs_stream_id r) eqn:E; cbn in Hk; [by eapply Ho|by rewrite lookup_empty in Hk]. }
    destruct (negb _); [|apply Hfil].
    intros [[<- <-]|[_ Hk]]%lookup_insert_Some; [by eexists|by apply Hfil].
  - unfold create_stream. assert (is_u64 (ms_next_stream_id m + 1)) as Hu by (split; lia).
    cbn. rewrite u64_small by done. split_and!; [|intros id|lia].
    + constructor; cbn; [lia| |done]. intros id s.
      intros [[<- <-]|[_ E]]%lookup_insert_Some; [cbn; lia|]. destruct (Hs _ _ E). split; [done|lia].
    + unfold stream_le. cbn. destruct (decide (id = ms_next_stream_id m)) as [->|Hne].
      * rewrite lookup_insert_eq. destruct (ms_streams m !! ms_next_stream_id m) as [s|] eqn:E; [|done].
        destruct (Hs _ _ E). lia.
      * rewrite lookup_insert_ne by done. destruct (ms_streams m !! id); [lia|done].
  - unfold open_stream. destruct (ms_streams m !! id) as [s|] eqn:E; [|by apply Hsame].
    destruct (_ || _) eqn:Ec; [by apply Hsame|]. apply (Hup _ s); cbn; [done|done|lia|lia|lia].
  - unfold trim_stream. destruct (ms_streams m !! id) as [s|] eqn:E; [|by apply Hsame].
    destruct (negb _); [by apply Hsame|]. apply (Hup _ s); cbn; [done|done|lia|lia|lia].
  - unfold close_stream. destruct (ms_streams m !! id) as [s|] eqn:E; [|by apply Hsame].
    destruct (negb _); [by apply Hsame|]. apply (Hup _ s); cbn; [done|done|lia|lia|lia].
  - unfold delete_stream. destruct (ms_streams m !! id) as [s|] eqn:E; [|by apply Hsame].
    destruct (_ =? _); [|by apply Hsame]. split_and!; [|intros i|done].
    + constructor; cbn; [done|..].
      * intros i x [_ ?]%lookup_delete_Some. by apply Hs.
      * intros i per k o [_ ?]%lookup_delete_Some. by apply Ho.
    + unfold stream_le. cbn. destruct (decide (i = id)) as [->|Hne].
      * by rewrite lookup_delete_eq, E.
      * rewrite lookup_delete_ne by done. destruct (ms_streams m !! i); [lia|done].
  - unfold set_node_id. destruct (ms_streams m !! id) as [s|] eqn:E; [|by apply Hsame].
    apply (Hup _ s); cbn; [done|done|lia|lia|lia].
  - by apply Hsame.
  - by apply Hsame.
Qed.

Lemma stream_le_trans id m1 m2 m3 :
  manager_ok m1 → ms_next_stream_id m1 ≤ ms_next_stream_id m2 →
  stream_le id m1 m2 → stream_le id m2 m3 → stream_le id m1 m3.
Proof.
  intros [_ Hs _] Hn. unfold stream_le. specialize (Hs id).
  destruct (ms_streams m1 !! id) as [s1|], (ms_streams m2 !! id) as [s2|], (ms_streams m3 !! id) as [s3|];
    try done; try lia.
  intros _ Hlt. destruct (Hs s1 eq_refl) as [_ ?]. lia.
Qed.

Lemma run_ok m m' :
  rtc mstep m m' → manager_ok m →
  manager_ok m' ∧ (∀ id, stream_le id m m') ∧ ms_next_stream_id m ≤ ms_next_stream_id m'.
Proof.
  induction 1 as [m|m1 m2 m3 Hst _ IH]; intros Hok.
  - split_and!; [done|intros id; by apply stream_le_same|lia].
  - destruct (mstep_ok _ _ Hst Hok) as (Hok2 & Hle & Hn). destruct (IH Hok2) as (? & Hle' & ?).
    split_and!; [done|intros id; by apply stream_le_trans with m2|lia].
Qed.

(** ** Lookup of objects *)

(** An object with a range of the stream that overlaps the request. *)
Definition covering (m : MetadataState) (stream_id start_offset end_offset : Z) (st : Z) (o : S3ObjectMetadata)
  : Prop :=
  (∃ oid r, ms_stream_set_objects m !! oid = Some o ∧ r ∈ om_offset_ranges o ∧ sr_stream_id r = stream_id
     ∧ overlaps start_offset end_offset r = true ∧ sr_start_offset r = st)
  ∨ (∃ per k r, ms_stream_objects m !! stream_id = Some per ∧ per !! k = Some o ∧ om_offset_ranges o = [r]
     ∧ overlaps start_offset end_offset r = true ∧ sr_start_offset r = st).

Lemma elem_of_values {V} (m : gmap Z V) v : v ∈ values m ↔ ∃ k, m !! k = Some v.
Proof.
  unfold values. rewrite list_elem_of_fmap. split.
  - intros ([k x] & -> & H%elem_of_entries). by exists k.
  - intros [k H]. exists (k, v). split; [done|]. by apply elem_of_entries.
Qed.

Lemma elem_of_set_slices id s e objs st o :
  (st, o) ∈ set_slices id s e objs ↔
  o ∈ objs ∧ ∃ r, r ∈ om_offset_ranges o ∧ sr_stream_id r = id ∧ overlaps s e r = true ∧ sr_start_offset r = st.
Proof.
  unfold set_slices. rewrite list_elem_of_bind. split.
  - intros (x & Hin & Hx). apply list_elem_of_omap in Hin as (r & Hr & E).
    destruct (_ && _) eqn:Ec; [|done]. injection E as <- <-.
    apply andb_true_iff in Ec as [?%Z.eqb_eq ?]. split; [done|]. by exists r.
  - intros (Ho & r & Hr & Hid & Hov & Hst). exists o. split; [|done].
    apply list_elem_of_omap. exists r. split; [done|]. by rewrite Hid, Z.eqb_refl, Hov, Hst.
Qed.

Lemma stream_slices_spec id s e objs :
  (∀ o, o ∈ objs → ∃ k x, om_offset_ranges o = [ {| sr_stream_id := id; sr_start_offset := k; sr_end_offset := x |} ]) →
  ∃ l, stream_slices s e objs = Some l
    ∧ ∀ st o, (st, o) ∈ l ↔ o ∈ objs ∧ ∃ r, om_offset_ranges o = [r] ∧ overlaps s e r = true ∧ sr_start_offset r = st.
Proof.
  unfold stream_slices. induction objs as [|o objs IH]; intros Hok.
  { exists []. split; [done|]. intros st o. rewrite !elem_of_nil. tauto. }
  destruct (Hok o ltac:(left)) as (k & x & Er).
  destruct IH as (l & Hl & Hin). { intros o' Ho'. apply Hok. by right. }
  cbn. rewrite Er. cbn. destruct (mapM _ objs) as [ranges|] eqn:Em; [|done]. cbn. injection Hl as El.
  set (r := {| sr_stream_id := id; sr_start_offset := k; sr_end_offset := x |}) in *.
  destruct (overlaps s e r) eqn:Eo; (eexists; split; [reflexivity|]); intros st o'; rewrite El.
  - rewrite !elem_of_cons, Hin. split.
    + intros [[= -> ->]|[? ?]]; [split; [by left|by exists r]|split; [by right|done]].
    + intros [[->|?] (r' & Hr' & ? & ?)]; [left|right; split; [done|by exists r']].
      rewrite Er in Hr'. simplify_eq. done.
  - rewrite elem_of_cons, Hin. split; [intros [? ?]; split; [by right|done]|].
    intros [[->|?] (r' & Hr' & ? & ?)]; [|split; [done|by exists r']]. rewrite Er in Hr'. injection Hr' as <-. congruence.
Qed.

Lemma get_objects_spec m id s e :
  manager_ok m →
  ∃ l, (∀ limit, get_objects id s e limit m = Some (takeZ (Z.max limit 1) l.*2))
    ∧ StronglySorted (λ a b, slice_le a b = true) l
    ∧ ∀ st o, (st, o) ∈ l ↔ covering m id s e st o.
Proof.
  intros [_ _ Ho]. unfold get_objects.
  destruct (stream_slices_spec id s e (values (default ∅ (ms_stream_objects m !! id)))) as (own & -> & Hown).
  { intros o [k Hk]%elem_of_values. destruct (ms_stream_objects m !! id) as [per|] eqn:Ep; cbn in Hk; [|by rewrite lookup_empty in Hk].
    destruct (Ho _ _ _ _ Ep Hk) as [x ?]. by exists k, x. }
  eexists. split; [reflexivity|]. split.
  - apply sort_by_sorted.
    + intros [a x] [b y]. unfold slice_le. cbn. lia.
    + intros [a x] [b y] [c z]. unfold slice_le. cbn. lia.
  - intros st o. rewrite elem_of_sort_by, elem_of_app, elem_of_set_slices, Hown, !elem_of_values.
    unfold covering. split.
    + intros [([k Hk] & r & ?)|([k Hk] & r & ?)]; [left; by exists k, r|right].
      destruct (ms_stream_objects m !! id) as [per|] eqn:Ep; cbn in Hk; [by exists per, k, r|by rewrite lookup_empty in Hk].
    + intros [(oid & r & Hk & ?)|(per & k & r & Hp & Hk & ?)]; [left|right].
      * split; [by exists oid|by exists r].
      * split; [exists k; by rewrite Hp|by exists r].
Qed.

(** ** Commits *)

Definition find_object (id start : Z) (objs : gmap Z (gmap Z S3ObjectMetadata)) : option S3ObjectMetadata :=
  objs !! id ≫= (λ per : gmap Z S3ObjectMetadata, per !! start).

Definition so_key (so : StreamObject) : Z * Z := (so_stream_id so, so_start_offset so).
Definition so_meta (now : Z) (so : StreamObject) : S3ObjectMetadata :=
  so_metadata now (so_object_id so) (so_object_size so) (so_stream_id so) (so_start_offset so)
    (so_end_offset so) (so_attributes so).

Lemma insert_one now objs so id st :
  find_object id st (insert_stream_object now objs so)
  = if decide ((id, st) = so_key so) then Some (so_meta now so) else find_object id st objs.
Proof.
  unfold find_object, insert_stream_object, so_key. case_decide as E.
  - injection E as -> ->. rewrite lookup_insert_eq. cbn. by rewrite lookup_insert_eq.
  - destruct (decide (id = so_stream_id so)) as [->|Hne]; [|by rewrite lookup_insert_ne].
    rewrite lookup_insert_eq. cbn. rewrite lookup_insert_ne by congruence.
    destruct (objs !! so_stream_id so); [done|]. cbn. by rewrite lookup_empty.
Qed.

Lemma insert_all now l objs id st :
  (id, st) ∉ so_key <$> l → find_object id st (foldl (insert_stream_object now) objs l) = find_object id st objs.
Proof.
  revert objs; induction l as [|so l IH]; intros objs; cbn; [done|].
  rewrite not_elem_of_cons. intros [Hne Hnin]. rewrite IH by done. rewrite insert_one. by rewrite decide_False.
Qed.

Lemma insert_member now l objs so :
  NoDup (so_key <$> l) → so ∈ l →
  find_object (so_stream_id so) (so_start_offset so) (foldl (insert_stream_object now) objs l) = Some (so_meta now so).
Proof.
  intros Hnd (l1 & l2 & ->)%list_elem_of_split. rewrite foldl_app. cbn.
  rewrite fmap_app, fmap_cons in Hnd. apply NoDup_app in Hnd as (_ & _ & [Hn _]%NoDup_cons).
  rewrite insert_all by done. rewrite insert_one. by rewrite decide_True.
Qed.

Lemma lookup_delete_all {V} (l : list Z) (m : gmap Z V) id :
  id ∉ l → foldl (λ o i, delete i o) m l !! id = m !! id.
Proof.
  revert m; induction l as [|x l IH]; intros m; cbn; [done|].
  rewrite not_elem_of_cons. intros [? ?]. rewrite IH by done. by rewrite lookup_delete_ne.
Qed.

(** What a commit makes visible: the request's ranges and stream objects. *)
Definition committed (now : Z) (r : CommitStreamSetObjectRequest) (id st e : Z) (o : S3ObjectMetadata) : Prop :=
  (∃ x, x ∈ cr_stream_ranges r ∧ or_stream_id x = id ∧ or_start_offset x = st ∧ or_end_offset x = e
     ∧ cr_object_id r ≠ NOOP_OBJECT_ID ∧ (cr_object_id r ∉ cr_compacted_object_ids r) ∧ o = sso_metadata now r)
  ∨ (∃ so, so ∈ cr_stream_objects r ∧ so_stream_id so = id ∧ so_start_offset so = st ∧ so_end_offset so = e
     ∧ o = so_meta now so).

Lemma commit_covering now r m id st e o s t :
  NoDup (so_key <$> cr_stream_objects r) → committed now r id st e o → st < t → s < e →
  covering (commit_stream_set_object now r m).1 id s t st o.
Proof.
  intros Hnd Hc Hst Hse. destruct (commit_rest now r m) as (_ & Eo & Es).
  destruct Hc as [(x & Hx & <- & <- & <- & Hn & Hc & ->)|(so & Hso & <- & <- & <- & ->)].
  - left. exists (cr_object_id r). eexists. rewrite Es, lookup_delete_all by done.
    rewrite (proj2 (Z.eqb_neq _ _) Hn). cbn [negb]. rewrite lookup_insert_eq. split; [done|]. split.
    + cbn. apply list_elem_of_fmap. by exists x.
    + split_and!; try done. unfold overlaps. cbn. lia.
  - right. pose proof (insert_member now _ (ms_stream_objects m) so Hnd Hso) as H. unfold find_object in H.
    apply bind_Some in H as (per & Hp & Hk). exists per, (so_start_offset so). eexists. rewrite Eo.
    split; [done|]. split; [done|]. split_and!; try done. unfold overlaps. cbn. lia.
Qed.

(** ** Properties *)

(** Opening a stream fences every older epoch for good: from then on, whatever
    else happens, an open, trim, close or delete with a smaller epoch is refused and
    changes nothing. *)
Theorem metadata_fences_old_epochs m m1 m' id e s e' o :
  manager_ok m → open_stream id e m = (m1, Ok s) → rtc mstep m1 m' → e' < e →
  ∃ err, (err = SE_Fenced id e' ∨ err = SE_NotExist id)
    ∧ open_stream id e' m' = (m', Err err) ∧ trim_stream id e' o m' = (m', Err err)
    ∧ close_stream id e' m' = (m', Err err) ∧ delete_stream id e' m' = (m', Err err).
Proof.
  intros Hok Hopen Hrun Hlt.
  assert (manager_ok m1) as Hok1.
  { pose proof (ms_open m id e) as Hst. rewrite Hopen in Hst. by destruct (mstep_ok _ _ Hst Hok) as (? & _). }
  destruct (run_ok _ _ Hrun Hok1) as (_ & Hle & _). specialize (Hle id).
  assert (∃ s1, ms_streams m1 !! id = Some s1 ∧ sm_epoch s1 = e) as (s1 & E1 & Ee).
  { unfold open_stream in Hopen. destruct (ms_streams m !! id); [|done]. destruct (_ || _); [done|].
    injection Hopen as <- _. eexists. cbn. by rewrite lookup_insert_eq. }
  unfold stream_le in Hle. rewrite E1 in Hle.
  unfold open_stream, trim_stream, close_stream, delete_stream.
  destruct (ms_streams m' !! id) as [s'|].
  - exists (SE_Fenced id e'). replace (e' <? sm_epoch s') with true by lia.
    replace (sm_epoch s' =? e') with false by lia. cbn. split_and!; try done. by left.
  - exists (SE_NotExist id). split_and!; try done. by right.
Qed.

Lemma metadata_fences_old_epochs_witness :
  let m := (create_stream manager_new).1 in
  let m1 := (open_stream 0 3 m).1 in
  ∃ err, (err = SE_Fenced 0 2 ∨ err = SE_NotExist 0)
    ∧ open_stream 0 2 m1 = (m1, Err err) ∧ trim_stream 0 2 9 m1 = (m1, Err err)
    ∧ close_stream 0 2 m1 = (m1, Err err) ∧ delete_stream 0 2 m1 = (m1, Err err).
Proof.
  intros m m1. apply (metadata_fences_old_epochs m m1 m1 0 3 (mkStream 0 3 0 0 StreamOpened (-1))).
  - apply (mstep_ok manager_new); [by apply ms_create|apply manager_new_ok].
  - vm_compute. reflexivity.
  - apply rtc_refl.
  - done.
Defined.

(** Whatever the registries go through, a stream's epoch, start and end offset
    never go back, and a deleted stream id is never handed out again. *)
Theorem metadata_monotone m m' :
  manager_ok m → rtc mstep m m' → manager_ok m' ∧ ∀ id, stream_le id m m'.
Proof. intros Hok Hrun. by destruct (run_ok _ _ Hrun Hok) as (? & ? & _). Qed.

Lemma metadata_monotone_witness :
  manager_ok (create_stream manager_new).1 ∧ ∀ id, stream_le id manager_new (create_stream manager_new).1.
Proof.
  apply metadata_monotone; [apply manager_new_ok|].
  apply rtc_once. by apply ms_create.
Defined.

(** A commit makes all of its ranges and stream objects visible at once: a lookup
    lists, sorted by start offset, exactly the objects that overlap the request (up to
    the limit), the committed ones among them, and the stream's end offset covers them. *)
Theorem metadata_commit_visible m now r id st e o start end_ limit :
  manager_ok m → NoDup (so_key <$> cr_stream_objects r) → committed now r id st e o → st < end_ → start < e →
  let m' := (commit_stream_set_object now r m).1 in
  (∃ l, get_objects id start end_ limit m' = Some (takeZ (Z.max limit 1) l.*2)
     ∧ StronglySorted (λ a b, slice_le a b = true) l
     ∧ (∀ st o, (st, o) ∈ l ↔ covering m' id start end_ st o) ∧ (st, o) ∈ l)
  ∧ ∀ s, ms_streams m !! id = Some s → ∃ s', ms_streams m' !! id = Some s' ∧ e ≤ sm_end_offset s'.
Proof.
  intros Hok Hnd Hc Hst Hse m'. split.
  - destruct (get_objects_spec m' id start end_) as (l & ? & ? & Hl).
    { by apply (mstep_ok m _ (ms_commit m now r)). }
    exists l. split_and!; try done. apply Hl. by eapply commit_covering.
  - intros s Es. unfold m'. rewrite commit_streams, Es. eexists. split; [reflexivity|]. cbn.
    assert ((id, e) ∈ advances_of r) as Hin.
    { unfold advances_of. apply elem_of_app.
      destruct Hc as [(x & Hx & <- & _ & <- & _)|(so & Hso & <- & _ & <- & _)]; [left|right];
        apply list_elem_of_fmap; by eexists. }
    induction (advances_of r) as [|[i a] l IH]; [by apply not_elem_of_nil in Hin|]. cbn.
    apply elem_of_cons in Hin as [[= <- <-]|Hin]; [rewrite Z.eqb_refl; lia|].
    specialize (IH Hin). destruct (_ =? _); lia.
Qed.

Lemma metadata_commit_visible_witness :
  let r := {| cr_object_id := NOOP_OBJECT_ID; cr_object_size := 0; cr_attributes := 0; cr_stream_ranges := [];
              cr_stream_objects := [ {| so_object_id := 5; so_object_size := 100; so_stream_id := 0;
                                        so_start_offset := 0; so_end_offset := 10; so_attributes := 0 |} ];
              cr_compacted_object_ids := [] |} in
  let m := (create_stream manager_new).1 in
  let m' := (commit_stream_set_object 7 r m).1 in
  let o := so_metadata 7 5 100 0 0 10 0 in
  (∃ l, get_objects 0 3 8 4 m' = Some (takeZ (Z.max 4 1) l.*2)
     ∧ StronglySorted (λ a b, slice_le a b = true) l
     ∧ (∀ st o, (st, o) ∈ l ↔ covering m' 0 3 8 st o) ∧ (0, o) ∈ l)
  ∧ ∀ s, ms_streams m !! 0 = Some s → ∃ s', ms_streams m' !! 0 = Some s' ∧ 10 ≤ sm_end_offset s'.
Proof.
  intros r m m' o. apply (metadata_commit_visible m 7 r 0 0 10 o 3 8 4).
  - apply (mstep_ok manager_new); [by apply ms_create|apply manager_new_ok].
  - apply NoDup_singleton.
  - right. eexists. split; [left|]. done.
  - done.
  - done.
Defined.
