(* ===== verification/StorageRecovery.v ===== *)
(** * Recovery of the delta WAL into upload blocks

    Models [s3stream-core/src/storage/recovery.rs].  The WAL stream is the list of its
    items; the block handler and the link decoder are callbacks of the caller.  On an
    error the caller drops the end-offset map, so the map returned with an error is
    not updated by the block that failed. *)
From S2P Require Import Prelude Collections Codec ObjectStore WalFormat WalWriter WalWriterInv WalRecover LogCache LogCacheProofs Metadata.

(** [None] if the record was added or dropped, [Some] when the block was full. *)
Definition process_record (result : RecoverResult) (ends : gmap Z Z) (block : LogCacheBlock)
  : gmap Z Z * LogCacheBlock * option RecoverResult :=
  let record := rr_record result in
  match ends !! stream_id record with
  | None => (ends, block, None)
  | Some expected_next_offset =>
      if base_offset record <? expected_next_offset then (ends, block, None)
      else if expected_next_offset <? base_offset record then (ends, block, None)
      else
        match block_put record block with
        | (block, false) => (ends, block, Some result)
        | (block, true) => (<[stream_id record := last_offset record]> ends, block, None)
        end
  end.

Section Recovery.
Context (link_decoder : option (StreamRecordBatch → result StreamError StreamRecordBatch)).
Context {X : Type} (block_handler : LogCacheBlock → X → option (X * result StreamError unit)).

(** The link records of the block, stream by stream, over a copy of its records. *)
Fixpoint decode_records (records : list StreamRecordBatch) (block : LogCacheBlock)
  : result StreamError LogCacheBlock :=
  match records with
  | [] => Ok block
  | record :: rest =>
      if 0 <=? count record then decode_records rest block
      else
        match link_decoder with
        | None => Err SE_Unexpected
        | Some decode =>
            let? decoded := decode record in
            decode_records rest (replace_record (stream_id record) (base_offset record) decoded block)
        end
  end.

Definition decode_link_records (block : LogCacheBlock) : result StreamError LogCacheBlock :=
  decode_records (concat (values (block_records block))) block.

(** What one block's loop ends with. *)
Record Filled : Type := mkFilled {
  fl_ends : gmap Z Z;
  fl_block : LogCacheBlock;
  fl_last : option RecordOffset;
  fl_next : option RecoverResult;
  fl_pending : option RecoverResult;
  fl_it : list (result WalError RecoverResult);
  fl_eof : bool;
}.

(** The loop once nothing was read ahead. *)
Fixpoint fill_it (it : list (result WalError RecoverResult)) (eof : bool) (ends : gmap Z Z)
    (block : LogCacheBlock) (last : option RecordOffset) : result StreamError Filled :=
  if is_full block then Ok (mkFilled ends block last None None it eof)
  else if eof then Ok (mkFilled ends block last None None it eof)
  else
    match it with
    | [] => Ok (mkFilled ends block last None None [] true)
    | Err e :: _ => Err (SE_Wal e)
    | Ok result :: it' =>
        match process_record result ends block with
        | (ends, block, None) => fill_it it' eof ends block (Some (rr_record_offset result))
        | (ends, block, Some r) => Ok (mkFilled ends block last None (Some r) it' eof)
        end
    end.

Definition fill (next : option RecoverResult) (it : list (result WalError RecoverResult)) (eof : bool)
    (ends : gmap Z Z) (block : LogCacheBlock) (last : option RecordOffset) : result StreamError Filled :=
  match next with
  | None => fill_it it eof ends block last
  | Some result =>
      if is_full block then Ok (mkFilled ends block last next None it eof)
      else
        match process_record result ends block with
        | (ends, block, None) => fill_it it eof ends block (Some (rr_record_offset result))
        | (ends, block, Some r) => Ok (mkFilled ends block last None (Some r) it eof)
        end
  end.

(** The outer loop: the end offsets, the handler's state and the result. [None] when
    the handler panics or the fuel runs out. *)
Fixpoint recover_loop (fuel : nat) (max_cache_size id : Z) (pending next : option RecoverResult)
    (it : list (result WalError RecoverResult)) (eof : bool) (ends : gmap Z Z) (x : X)
  : option (gmap Z Z * X * result StreamError unit) :=
  match fuel with
  | O => None
  | S fuel' =>
      let fetched :=
        match pending, next with
        | None, None =>
            if eof then None
            else match it with
                 | [] => None
                 | Err e :: _ => Some (Err (SE_Wal e))
                 | Ok r :: it' => Some (Ok (Some r, it'))
                 end
        | _, _ => Some (Ok (next, it))
        end in
      match fetched with
      | None => Some (ends, x, Ok tt)
      | Some (Err e) => Some (ends, x, Err e)
      | Some (Ok (next, it)) =>
          let block := block_new id max_cache_size DEFAULT_MAX_BLOCK_STREAM_COUNT in
          let '(ends, block, last) :=
            match pending with
            | None => (ends, block, None)
            | Some carried =>
                (<[stream_id (rr_record carried) := last_offset (rr_record carried)]> ends,
                 (block_put (rr_record carried) block).1, Some (rr_record_offset carried))
            end in
          match fill next it eof ends block last with
          | Err e => Some (ends, x, Err e)
          | Ok f =>
              let block := match fl_last f with
                           | Some o => block_set_last_record_offset o (fl_block f)
                           | None => fl_block f
                           end in
              match decode_link_records block with
              | Err e => Some (fl_ends f, x, Err e)
              | Ok block =>
                  let* (x, r) := block_handler block x in
                  match r with
                  | Err e => Some (fl_ends f, x, Err e)
                  | Ok _ => recover_loop fuel' max_cache_size (id + 1) (fl_pending f) (fl_next f) (fl_it f)
                              (fl_eof f) (fl_ends f) x
                  end
              end
          end
      end
  end.

Definition recover (fuel : nat) (max_cache_size : Z) (it : list (result WalError RecoverResult))
    (opening_stream_end_offsets : gmap Z Z) (x : X) : option (gmap Z Z * X * result StreamError unit) :=
  recover_loop fuel max_cache_size 0 None None it false opening_stream_end_offsets x.
End Recovery.

(** ** What recovery accepts *)

(** In WAL order: the records that continue a stream still open. *)
Fixpoint accept (ends : gmap Z Z) (rs : list RecoverResult) : gmap Z Z * list StreamRecordBatch :=
  match rs with
  | [] => (ends, [])
  | r :: rs' =>
      let record := rr_record r in
      if decide (ends !! stream_id record = Some (base_offset record)) then
        let '(ends', l) := accept (<[stream_id record := last_offset record]> ends) rs' in
        (ends', record :: l)
      else accept ends rs'
  end.

Lemma accept_app ends l k :
  accept ends (l ++ k)
  = ((accept (accept ends l).1 k).1, (accept ends l).2 ++ (accept (accept ends l).1 k).2).
Proof.
  revert ends; induction l as [|r l IH]; intros ends; cbn; [by destruct (accept ends k)|].
  case_decide; [|apply IH]. rewrite IH. by destruct (accept _ l) as [e1 l1].
Qed.

Definition of_stream (st : Z) (l : list StreamRecordBatch) : list StreamRecordBatch :=
  filter (λ r, stream_id r = st) l.

Lemma of_stream_app st l k : of_stream st (l ++ k) = of_stream st l ++ of_stream st k.
Proof. apply filter_app. Qed.

Lemma of_stream_snoc st l r : of_stream st (l ++ [r]) = of_stream st l ++ if decide (stream_id r = st) then [r] else [].
Proof. rewrite of_stream_app. f_equal. Qed.

Definition nonempty {A} (l : list A) : option (list A) := match l with [] => None | _ => Some l end.

Lemma nonempty_Some {A} (l k : list A) : nonempty l = Some k → l ≠ [] ∧ l = k.
Proof. destruct l; [done|]. by intros [= <-]. Qed.

(** The block holds [l], per stream and in order; without the last record it is within
    the size limit. *)
Record block_holds (max_cache_size : Z) (b : LogCacheBlock) (l : list StreamRecordBatch) : Prop := {
  bh_records st : block_records b !! st = nonempty (of_stream st l);
  bh_size : lb_size b = occupied l;
  bh_limit : l = [] ∨ ∃ l' r, l = l' ++ [r] ∧ occupied l' < max_cache_size;
}.

(** Each block holds what was accepted from its part of the WAL, and its offset is
    that of the last record of the part. *)
Fixpoint blocks_match (max_cache_size : Z) (ends : gmap Z Z) (blocks : list LogCacheBlock)
    (parts : list (list RecoverResult)) : Prop :=
  match blocks, parts with
  | [], [] => True
  | b :: blocks', p :: parts' =>
      lb_last_record_offset b = rr_record_offset <$> last p
      ∧ block_holds max_cache_size b (accept ends p).2
      ∧ blocks_match max_cache_size (accept ends p).1 blocks' parts'
  | _, _ => False
  end.

(** The handler run on each block in turn, up to its first error. *)
Fixpoint handle_all {X : Type} (block_handler : LogCacheBlock → X → option (X * result StreamError unit))
    (blocks : list LogCacheBlock) (x : X) : option (X * result StreamError unit) :=
  match blocks with
  | [] => Some (x, Ok tt)
  | b :: blocks' =>
      let* (x, r) := block_handler b x in
      match r with Ok _ => handle_all block_handler blocks' x | Err e => Some (x, Err e) end
  end.

(** Recovery does with [blocks] what the handler does, and ends with [ends]. *)
Definition handled {X : Type} (block_handler : LogCacheBlock → X → option (X * result StreamError unit))
    (blocks : list LogCacheBlock) (ends : gmap Z Z) (x : X) (res : option (gmap Z Z * X * result StreamError unit))
  : Prop :=
  match handle_all block_handler blocks x with
  | None => res = None
  | Some (x', Ok _) => res = Some (ends, x', Ok tt)
  | Some (x', Err e) => ∃ ends', res = Some (ends', x', Err e)
  end.

(** ** A put into a block *)

Lemma block_put_records r b st :
  stream_records st (block_put r b).1 = stream_records st b ++ added_to st r (block_put r b).2.
Proof.
  unfold block_put, added_to. destruct (is_full b); cbn; [by rewrite app_nil_r|].
  unfold sc_add. set (c := default stream_cache_new _).
  assert (sc_records c = stream_records (stream_id r) b) as Ec.
  { unfold c, stream_records. by destruct (lb_map b !! stream_id r). }
  destruct (I32_MAX <? _); cbn; unfold stream_records at 1; cbn;
    (destruct (Z.eqb_spec st (stream_id r)) as [->|Hne];
      [rewrite lookup_insert_eq; cbn; by rewrite Ec, ?app_nil_r
      |rewrite lookup_insert_ne by done; by rewrite ?app_nil_r]).
Qed.

Lemma block_put_keeps r b :
  lb_last_record_offset (block_put r b).1 = lb_last_record_offset b
  ∧ lb_max_size (block_put r b).1 = lb_max_size b.
Proof. unfold block_put. destruct (is_full b); [done|]. destruct (sc_add _ _) as [c []]; done. Qed.

(** A record of at most [i32::MAX] offsets fits an empty block. *)
Definition fits_block (r : StreamRecordBatch) : Prop := 0 ≤ last_offset r - base_offset r ≤ I32_MAX.

(** Batches as the appends produce them: some offsets, no links, less than 512 MiB. *)
Definition plain_record (r : RecoverResult) : Prop :=
  0 ≤ count (rr_record r) ∧ 0 < last_offset (rr_record r) - base_offset (rr_record r) ≤ I32_MAX
  ∧ size (rr_record r) < 2 ^ 29.

Lemma plain_fits r : plain_record r → fits_block (rr_record r).
Proof. intros (_ & ? & _). unfold fits_block. lia. Qed.

Lemma occupied_app l k : occupied (l ++ k) = occupied l + occupied k.
Proof. unfold occupied. induction l as [|r l IH]; cbn; lia. Qed.

Lemma occupied_nonneg l : 0 ≤ occupied l.
Proof.
  unfold occupied. induction l as [|r l IH]; cbn; [lia|].
  assert (0 ≤ occupied_size r) by apply u64_range. lia.
Qed.

Lemma occupied_plain r : plain_record r → 0 < occupied_size (rr_record r) < 2 ^ 30.
Proof.
  intros (_ & _ & H). pose proof (size_nonneg (rr_record r)).
  unfold occupied_size, OBJECT_OVERHEAD. rewrite u64_small by int_lia. lia.
Qed.

Lemma stream_records_lookup st b : stream_records st b = default [] (block_records b !! st).
Proof. unfold stream_records, block_records. by rewrite lookup_fmap. Qed.

Lemma block_put_holds max l b r :
  max ≤ 2 ^ 62 → lb_max_size b = max → block_holds max b l → plain_record r →
  block_holds max (block_put (rr_record r) b).1 (if (block_put (rr_record r) b).2 then l ++ [rr_record r] else l).
Proof.
  intros Hmax Hm Hb Hp. pose proof (block_put_records (rr_record r) b) as Hput. unfold block_put in *.
  destruct (is_full b) eqn:Ef; [done|]. destruct Hb as [Hr Hs Hl].
  apply orb_false_iff in Ef as [[_ Ef]%orb_false_iff _]. rewrite Hm in Ef. apply Z.leb_gt in Ef.
  pose proof (occupied_plain r Hp) as Hocc. apply plain_fits in Hp as Hf.
  set (c := default stream_cache_new (lb_map b !! stream_id (rr_record r))) in *.
  assert (sc_records c = of_stream (stream_id (rr_record r)) l) as Ec.
  { unfold c. specialize (Hr (stream_id (rr_record r))). unfold block_records in Hr. rewrite lookup_fmap in Hr.
    destruct (lb_map b !! stream_id (rr_record r)) as [x|]; cbn [fmap option_fmap option_map] in Hr;
      destruct (of_stream (stream_id (rr_record r)) l); try done. cbn. by injection Hr as ->. }
  assert (0 ≤ lb_size b) as Hnn.
  { rewrite Hs. apply occupied_nonneg. }
  destruct (sc_add (rr_record r) c) as [c' added] eqn:Ea. unfold sc_add in Ea.
  destruct (I32_MAX <? _) eqn:El; injection Ea as <- <-; cbn [negb fst snd] in *.
  - constructor; [|done|done]. intros st. rewrite <- Hr. unfold block_records. cbn. rewrite fmap_insert.
    destruct (decide (st = stream_id (rr_record r))) as [->|Hne]; [|by rewrite lookup_insert_ne].
    rewrite lookup_insert_eq, lookup_fmap. destruct (lb_map b !! stream_id (rr_record r)) as [x|] eqn:Ex; [done|].
    exfalso. unfold c in El. cbn in El. unfold fits_block in Hf. rewrite u64_small in El by int_lia. lia.
  - constructor.
    + intros st. rewrite of_stream_snoc. unfold block_records. cbn [lb_map set_map]. rewrite fmap_insert.
      specialize (Hr st). unfold block_records in Hr. case_decide as Hd.
      * subst st. rewrite lookup_insert_eq. cbn [sc_records]. rewrite Ec.
        by destruct (of_stream (stream_id (rr_record r)) l).
      * rewrite app_nil_r, lookup_insert_ne by done. exact Hr.
    + cbn. rewrite occupied_app, <- Hs. cbn. rewrite u64_small by int_lia. lia.
    + right. exists l, (rr_record r). split; [done|]. by rewrite <- Hs.
Qed.

Lemma block_put_fresh r id n :
  0 < n → fits_block r → (block_put r (block_new id n DEFAULT_MAX_BLOCK_STREAM_COUNT)).2 = true.
Proof.
  intros Hn Hr. unfold block_put.
  assert (is_full (block_new id n DEFAULT_MAX_BLOCK_STREAM_COUNT) = false) as ->.
  { unfold is_full. cbn. rewrite (proj2 (Z.leb_gt n 0)) by lia. done. }
  cbn. rewrite lookup_empty. cbn. unfold sc_add. cbn.
  assert (u64 (last_offset r - base_offset r) ≤ I32_MAX) by (unfold fits_block in Hr; int_lia).
  by rewrite (proj2 (Z.ltb_ge _ _)).
Qed.

(** ** The loops *)

Section Loops.
Context (max_cache_size : Z) (max_le : max_cache_size ≤ 2 ^ 62).

(** After the part [p] of the WAL went into block [b]. *)
Record Filling (ends0 : gmap Z Z) (p : list RecoverResult) (ends : gmap Z Z) (b : LogCacheBlock)
    (last : option RecordOffset) : Prop := {
  fi_ends : ends = (accept ends0 p).1;
  fi_holds : block_holds max_cache_size b (accept ends0 p).2;
  fi_last : last = rr_record_offset <$> list.last p;
  fi_offset : lb_last_record_offset b = None;
  fi_max : lb_max_size b = max_cache_size;
}.

Lemma accept_one ends r :
  accept ends [r] = if decide (ends !! stream_id (rr_record r) = Some (base_offset (rr_record r)))
                    then (<[stream_id (rr_record r) := last_offset (rr_record r)]> ends, [rr_record r])
                    else (ends, []).
Proof. cbn. by case_decide. Qed.

Lemma filling_put ends0 p ends b last r :
  Filling ends0 p ends b last → plain_record r → ends !! stream_id (rr_record r) = Some (base_offset (rr_record r)) →
  (block_put (rr_record r) b).2 = true →
  Filling ends0 (p ++ [r]) (<[stream_id (rr_record r) := last_offset (rr_record r)]> ends)
    (block_put (rr_record r) b).1 (Some (rr_record_offset r)).
Proof.
  intros [He Hr Hl Ho Hm] Hp Hin Hadd. constructor.
  - rewrite accept_app, accept_one, <- He. by rewrite decide_True.
  - rewrite accept_app, accept_one, <- He. rewrite decide_True by done. cbn [fst snd].
    pose proof (block_put_holds _ _ _ _ max_le Hm Hr Hp) as H. by rewrite Hadd in H.
  - by rewrite last_snoc.
  - by rewrite (proj1 (block_put_keeps _ _)).
  - by rewrite (proj2 (block_put_keeps _ _)).
Qed.

Lemma filling_skip ends0 p ends b last r :
  Filling ends0 p ends b last → ends !! stream_id (rr_record r) ≠ Some (base_offset (rr_record r)) →
  Filling ends0 (p ++ [r]) ends b (Some (rr_record_offset r)).
Proof.
  intros [He Hr Hl Ho Hm] Hn. constructor; [..|done|done].
  - rewrite accept_app, accept_one, <- He. by rewrite decide_False.
  - rewrite accept_app, accept_one, <- He. rewrite decide_False by done. cbn. by rewrite app_nil_r.
  - by rewrite last_snoc.
Qed.

Lemma filling_process ends0 p ends b last r :
  Filling ends0 p ends b last → plain_record r →
  match process_record r ends b with
  | (ends', b', None) => Filling ends0 (p ++ [r]) ends' b' (Some (rr_record_offset r))
  | (ends', b', Some r') => r' = r ∧ ends' = ends ∧ Filling ends0 p ends b' last
      ∧ ends !! stream_id (rr_record r) = Some (base_offset (rr_record r))
      ∧ (block_put (rr_record r) b).2 = false
  end.
Proof.
  intros Hf Hpl. unfold process_record. destruct (ends !! stream_id (rr_record r)) as [x|] eqn:E.
  2: { eapply filling_skip; [done|congruence]. }
  destruct (base_offset _ <? x) eqn:E1; [eapply filling_skip; [done|]; rewrite E; intros [= ?]; lia|].
  destruct (x <? base_offset _) eqn:E2; [eapply filling_skip; [done|]; rewrite E; intros [= ?]; lia|].
  assert (x = base_offset (rr_record r)) as -> by lia.
  pose proof (filling_put ends0 p ends b last r Hf Hpl E) as Hp.
  pose proof (block_put_holds _ _ _ _ max_le (fi_max _ _ _ _ _ Hf) (fi_holds _ _ _ _ _ Hf) Hpl) as Hrec.
  pose proof (block_put_keeps (rr_record r) b) as [Hk Hk'].
  destruct (block_put (rr_record r) b) as [b' []]; cbn [fst snd] in *; [by apply Hp|].
  split_and!; try done. destruct Hf as [He Hr Hl Ho Hm]. constructor; try done; congruence.
Qed.

Definition opt_list {A} (o : option A) : list A := match o with Some x => [x] | None => [] end.

(** What is left after a block. *)
Record Left (ends0 : gmap Z Z) (p rs : list RecoverResult) (f : Filled) : Prop := {
  le_split : ∃ p' rest, rs = p' ++ opt_list (fl_pending f) ++ rest ∧ fl_it f = Ok <$> rest
    ∧ Filling ends0 (p ++ p') (fl_ends f) (fl_block f) (fl_last f);
  le_next : fl_next f = None;
  le_eof : fl_eof f = true → fl_it f = [];
  le_pending r : fl_pending f = Some r → fl_ends f !! stream_id (rr_record r) = Some (base_offset (rr_record r));
}.

Lemma fill_it_spec ends0 p rs eof ends b last :
  Filling ends0 p ends b last → Forall plain_record rs → (eof = true → rs = []) →
  ∃ f, fill_it (Ok <$> rs) eof ends b last = Ok f ∧ Left ends0 p rs f.
Proof.
  intros Hf Hpl. revert p ends b last Hf; induction Hpl as [|r rs Hr Hpl IH]; intros p ends b last Hf He.
  - assert (∀ e, Left ends0 p [] (mkFilled ends b last None None [] e)) as Hn.
    { intros e. constructor; try done. exists [], []. split; [done|]. split; [done|]. by rewrite app_nil_r. }
    cbn. destruct (is_full b); [by eexists|]. destruct eof; by eexists.
  - destruct eof; [by specialize (He eq_refl)|]. cbn [fmap list_fmap fill_it].
    destruct (is_full b).
    { eexists. split; [reflexivity|]. constructor; try done. exists [], (r :: rs). split; [done|]. split; [done|]. by rewrite app_nil_r. }
    pose proof (filling_process ends0 p ends b last r Hf Hr) as Hp.
    destruct (process_record r ends b) as [[ends' b'] [r'|]].
    + destruct Hp as (-> & -> & Hf' & Hin & _). eexists. split; [reflexivity|].
      constructor; try done; [|by intros ? [= <-]]. exists [], rs. split; [done|]. split; [done|]. by rewrite app_nil_r.
    + destruct (IH _ _ _ _ Hp) as (f & -> & [(p' & rest & E & Ei & Hf2) Hnx Heo Hpe]); [done|].
      exists f. split; [done|]. constructor; try done. exists (r :: p'), rest. rewrite E.
      split; [done|]. split; [done|]. by rewrite <- app_assoc in Hf2.
Qed.

Lemma accept_sub ends rs x : x ∈ (accept ends rs).2 → ∃ r, r ∈ rs ∧ x = rr_record r.
Proof.
  revert ends; induction rs as [|r rs IH]; intros ends; cbn; [intros Hx; by apply not_elem_of_nil in Hx|].
  case_decide.
  - destruct (accept _ rs) as [e l] eqn:E. cbn. intros [->|Hx]%elem_of_cons; [exists r; split; [left|done]|].
    specialize (IH (<[stream_id (rr_record r):=last_offset (rr_record r)]> ends)). rewrite E in IH.
    destruct (IH Hx) as (r' & ? & ?). exists r'. split; [by right|done].
  - intros (r' & ? & ?)%IH. exists r'. split; [by right|done].
Qed.

Context (link_decoder : option (StreamRecordBatch → result StreamError StreamRecordBatch)).
Context {X : Type} (block_handler : LogCacheBlock → X → option (X * result StreamError unit)).
Context (max_pos : 0 < max_cache_size).

Lemma decode_plain l b : Forall (λ r, 0 ≤ count r) l → decode_records link_decoder l b = Ok b.
Proof. induction 1 as [|r l Hr _ IH]; cbn; [done|]. by rewrite (proj2 (Z.leb_le _ _)). Qed.

Lemma decode_block_plain ends0 p ends b last :
  Filling ends0 p ends b last → Forall plain_record p →
  ∀ b', lb_map b' = lb_map b → decode_link_records link_decoder b' = Ok b'.
Proof.
  intros [_ Hr _ _ _] Hp b' Em. apply decode_plain, Forall_forall. intros x Hx%list_elem_of_In.
  apply in_concat in Hx as (l & Hx%list_elem_of_In & Hl%list_elem_of_In).
  assert (block_records b' = block_records b) as Eb by (unfold block_records; by rewrite Em).
  rewrite Eb in Hx. apply elem_of_values in Hx as [st Hst].
  rewrite (bh_records _ _ _ Hr) in Hst. apply nonempty_Some in Hst as [_ <-].
  apply list_elem_of_filter in Hl as [_ (r & Hin & ->)%accept_sub].
  rewrite Forall_forall in Hp. by apply Hp.
Qed.

Lemma filling_new ends0 id : Filling ends0 [] ends0 (block_new id max_cache_size DEFAULT_MAX_BLOCK_STREAM_COUNT) None.
Proof. constructor; try done. constructor; [done|done|by left]. Qed.

Lemma new_not_full id : is_full (block_new id max_cache_size DEFAULT_MAX_BLOCK_STREAM_COUNT) = false.
Proof. unfold is_full. cbn. by rewrite (proj2 (Z.leb_gt max_cache_size 0)) by lia. Qed.

(** The end of a round: the block is handed over and the next one starts. *)
Definition finish_round (fuel : nat) (id : Z) (f : Filled) (x : X)
  : option (gmap Z Z * X * result StreamError unit) :=
  let block := match fl_last f with
               | Some o => block_set_last_record_offset o (fl_block f)
               | None => fl_block f
               end in
  match decode_link_records link_decoder block with
  | Err e => Some (fl_ends f, x, Err e)
  | Ok block =>
      let* (x, r) := block_handler block x in
      match r with
      | Err e => Some (fl_ends f, x, Err e)
      | Ok _ => recover_loop link_decoder block_handler fuel max_cache_size id (fl_pending f) (fl_next f) (fl_it f)
                  (fl_eof f) (fl_ends f) x
      end
  end.

(** The rest of one round, from a block that holds the part [p]. *)
Lemma round_spec fuel id ends0 p ends b last rs eof :
  Filling ends0 p ends b last → (eof = true → rs = []) → Forall plain_record (p ++ rs) →
  ∃ f b', fill_it (Ok <$> rs) eof ends b last = Ok f ∧ Left ends0 p rs f
    ∧ (∃ p' rest, rs = p' ++ opt_list (fl_pending f) ++ rest ∧ fl_it f = Ok <$> rest
        ∧ lb_last_record_offset b' = rr_record_offset <$> list.last (p ++ p')
        ∧ block_holds max_cache_size b' (accept ends0 (p ++ p')).2
        ∧ fl_ends f = (accept ends0 (p ++ p')).1)
    ∧ (∀ x, finish_round fuel id f x
       = let* (x, r) := block_handler b' x in
         match r with
         | Err e => Some (fl_ends f, x, Err e)
         | Ok _ => recover_loop link_decoder block_handler fuel max_cache_size id (fl_pending f) None (fl_it f)
                     (fl_eof f) (fl_ends f) x
         end).
Proof.
  intros Hf He Hc. destruct (fill_it_spec ends0 p rs eof ends b last Hf) as (f & E & Hl);
    [by apply Forall_app in Hc as [_ ?]|done|].
  pose proof Hl as [(p' & rest & Ers & Eit & Hf') Hnx _ _].
  set (b' := match fl_last f with Some o => block_set_last_record_offset o (fl_block f) | None => fl_block f end).
  exists f, b'. split; [done|]. split; [done|]. split.
  - exists p', rest. pose proof Hf' as [H1 H2 H3 H4 H5]. split; [done|]. split; [done|]. split_and!; [| |done].
    + unfold b'. rewrite <- H3. by destruct (fl_last f).
    + destruct H2 as [? ? ?]. unfold b'. destruct (fl_last f); by constructor.
  - intros x. unfold finish_round. cbv zeta. fold b'. rewrite (decode_block_plain ends0 (p ++ p') _ _ _ Hf').
    + by rewrite Hnx.
    + rewrite Ers, app_assoc in Hc. by apply Forall_app in Hc as [? _].
    + unfold b'. by destruct (fl_last f).
Qed.

Lemma recover_loop_spec fuel id pending rs eof ends :
  (eof = true → rs = []) →
  (∀ r, pending = Some r → ends !! stream_id (rr_record r) = Some (base_offset (rr_record r))) →
  Forall plain_record (opt_list pending ++ rs) →
  (length (opt_list pending ++ rs) < fuel)%nat →
  ∃ blocks parts,
    (∀ x, handled block_handler blocks (accept ends (opt_list pending ++ rs)).1 x
            (recover_loop link_decoder block_handler fuel max_cache_size id pending None (Ok <$> rs) eof ends x))
    ∧ concat parts = opt_list pending ++ rs ∧ blocks_match max_cache_size ends blocks parts.
Proof.
  revert id pending rs eof ends; induction fuel as [|fuel IH]; intros id pending rs eof ends He Hp Hall Hfuel; [lia|].
  assert (∀ p b rs', opt_list pending ++ rs = p ++ rs' → p ≠ [] → (eof = true → rs' = []) →
    Filling ends p (accept ends p).1 b (rr_record_offset <$> list.last p) →
    ∃ f, fill_it (Ok <$> rs') eof (accept ends p).1 b (rr_record_offset <$> list.last p) = Ok f ∧
    ∃ blocks parts,
    (∀ x, handled block_handler blocks (accept ends (opt_list pending ++ rs)).1 x (finish_round fuel (id + 1) f x))
      ∧ concat parts = opt_list pending ++ rs ∧ blocks_match max_cache_size ends blocks parts) as Hround.
  { intros p b rs' E Hne He' Hf. rewrite E in Hall, Hfuel |- *.
    destruct (round_spec fuel (id + 1) ends p _ b _ rs' eof Hf He') as (f & b' & Ef & Hl & (p' & rest & Ers & Eit & Hlast & Hrec & Hends) & Ek); [done|].
    exists f. split; [done|]. destruct Hl as [_ _ Heo Hpe].
    destruct (IH (id + 1) (fl_pending f) rest (fl_eof f) (fl_ends f)) as (blocks & parts & Hh & Ec & Hm).
    + intros Hx. specialize (Heo Hx). rewrite Eit in Heo. by apply fmap_nil_inv in Heo.
    + done.
    + rewrite Ers, app_assoc in Hall. by apply Forall_app in Hall as [_ ?].
    + rewrite Ers, !length_app in Hfuel. destruct p; [done|]. cbn in Hfuel. rewrite length_app. lia.
    + exists (b' :: blocks), ((p ++ p') :: parts). split_and!.
      * intros x. rewrite Ek, Eit. unfold handled. cbn [handle_all].
        destruct (block_handler b' x) as [[x1 [[]|e]]|]; [|by eexists|done].
        rewrite Ers, (app_assoc p p'), (accept_app ends (p ++ p')). cbn [fst]. rewrite <- Hends. apply Hh.
      * cbn [concat]. by rewrite Ec, Ers, <- app_assoc.
      * cbn. split_and!; [done|done|]. by rewrite <- Hends. }
  cbn [recover_loop]. destruct pending as [r|].
  - destruct (Hround [r] (block_put (rr_record r) (block_new id max_cache_size DEFAULT_MAX_BLOCK_STREAM_COUNT)).1 rs) as (f & Ef & Hres); [done|done|done| |].
    + rewrite accept_one. rewrite decide_True by (by apply Hp). cbn [fst].
      apply Forall_cons in Hall as [Hfit _].
      apply (filling_put ends [] ends _ None r (filling_new ends id)); [done|by apply Hp|].
      by apply block_put_fresh, plain_fits.
    + rewrite accept_one in Ef. rewrite decide_True in Ef by (by apply Hp). cbn [fst list.last fmap option_fmap option_map] in Ef.
      cbn [fill]. rewrite Ef. exact Hres.
  - destruct rs as [|r rs].
    { cbn. exists [], []. split_and!; try done. by destruct eof. }
    destruct eof; [by specialize (He eq_refl)|]. cbn [fmap list_fmap fill].
    rewrite new_not_full.
    pose proof Hall as [Hr _]%Forall_cons.
    pose proof (filling_process ends [] ends _ None r (filling_new ends id) Hr) as Hpr.
    destruct (process_record r ends (block_new id max_cache_size DEFAULT_MAX_BLOCK_STREAM_COUNT)) as [[ends' b'] [r'|]].
    + destruct Hpr as (_ & _ & _ & _ & Hfail).
      rewrite (block_put_fresh _ id max_cache_size max_pos (plain_fits _ Hr)) in Hfail. done.
    + destruct (Hround [r] b' rs) as (f & Ef & Hres); [done|done|done| |].
      * pose proof (fi_ends _ _ _ _ _ Hpr) as Ee. cbn [app] in *. by rewrite <- Ee.
      * pose proof (fi_ends _ _ _ _ _ Hpr) as Ee. cbn [app] in Ee. rewrite <- Ee in Ef.
        cbn [list.last fmap option_fmap option_map] in Ef. rewrite Ef. exact Hres.
Qed.
End Loops.

(** The accepted records of a stream run on from its committed end. *)
Lemma accept_runs ends rs st e0 :
  Forall (λ r, base_offset (rr_record r) < last_offset (rr_record r)) rs → ends !! st = Some e0 →
  ∃ e1, (accept ends rs).1 !! st = Some e1 ∧ runs e0 (of_stream st (accept ends rs).2) e1.
Proof.
  intros Hf. revert ends e0; induction Hf as [|r rs Hr _ IH]; intros ends e0 He; cbn; [by exists e0|].
  case_decide as Hd; [|by apply IH].
  destruct (decide (stream_id (rr_record r) = st)) as [<-|Hne].
  - rewrite Hd in He. injection He as <-.
    destruct (IH (<[stream_id (rr_record r):=last_offset (rr_record r)]> ends) (last_offset (rr_record r)))
      as (e1 & H1 & H2); [by rewrite lookup_insert_eq|].
    destruct (accept _ rs) as [ends' l]. cbn [fst snd] in *. exists e1. split; [done|]. unfold of_stream in *.
    rewrite filter_cons, decide_True by done. done.
  - destruct (IH (<[stream_id (rr_record r):=last_offset (rr_record r)]> ends) e0) as (e1 & H1 & H2).
    { by rewrite lookup_insert_ne. }
    destruct (accept _ rs) as [ends' l]. cbn [fst snd] in *. exists e1. split; [done|]. unfold of_stream in *.
    by rewrite filter_cons, decide_False by done.
Qed.

(** Recovery cuts the WAL into consecutive parts, one block each, hands the blocks over
    in order up to the handler's first error, and per stream the accepted records run on
    without a gap from the committed end offset to the recovered one. *)
Lemma recover_plain {X : Type} link_decoder (block_handler : LogCacheBlock → X → option (X * result StreamError unit))
    max_cache_size rs ends fuel :
  0 < max_cache_size ≤ 2 ^ 62 → Forall plain_record rs → (length rs < fuel)%nat →
  ∃ blocks parts,
    (∀ x, handled block_handler blocks (accept ends rs).1 x
            (recover link_decoder block_handler fuel max_cache_size (Ok <$> rs) ends x))
    ∧ concat parts = rs ∧ blocks_match max_cache_size ends blocks parts
    ∧ ∀ st e0, ends !! st = Some e0 →
        ∃ e1, (accept ends rs).1 !! st = Some e1 ∧ runs e0 (of_stream st (accept ends rs).2) e1.
Proof.
  intros [Hm Hle] Hp Hf. unfold recover.
  destruct (recover_loop_spec max_cache_size Hle link_decoder block_handler Hm fuel 0 None rs false ends)
    as (blocks & parts & E & Ec & Hb); [done..|].
  exists blocks, parts. split_and!; try done. intros st e0 He. apply accept_runs; [|done].
  eapply Forall_impl; [exact Hp|]. intros r (_ & ? & _). lia.
Qed.

(** ** From the WAL objects to the blocks *)

(** The items of the WAL's recovery stream. *)
Definition stream_items (o : list RecoverResult * option WalError) : list (result WalError RecoverResult) :=
  (Ok <$> o.1) ++ match o.2 with Some e => [Err e] | None => [] end.

(** Recovery of a node: the WAL's stream, drained into blocks. *)
Definition recover_node {S X : Type} `{!ObjectStorage S} `{!Crc32Fast} (s : S)
    (link_decoder : option (StreamRecordBatch → result StreamError StreamRecordBatch))
    (block_handler : LogCacheBlock → X → option (X * result StreamError unit))
    (fuel : nat) (objects : list WalObject) (max_readahead max_cache_size : Z) (ends : gmap Z Z) (x : X)
  : option (gmap Z Z * X * result StreamError unit) :=
  let* o := recover_stream s fuel objects max_readahead in
  recover link_decoder block_handler fuel max_cache_size (stream_items o) ends x.

(** ** Properties *)

(** End to end, from the objects in the store to the blocks handed to the upload:
    when the WAL objects continue each other and the store holds them, recovery of a
    node cuts the records past the trim offset into consecutive parts, one block each.
    A block holds exactly the records of its part that continue a stream still open,
    per stream and in order, and carries the WAL offset of the part's last record, so
    trimming to it cannot outrun the upload; the blocks are handed over in order, up to
    the handler's first error, which is returned; per stream the accepted records run
    without a gap from the committed end offset to the recovered one. *)
Theorem node_recovery_end_to_end {S X : Type} `{!ObjectStorage S} `{!Crc32Fast} (s : S) xs e0
    link_decoder (block_handler : LogCacheBlock → X → option (X * result StreamError unit))
    max_readahead max_cache_size ends fuel :
  linked e0 xs → ascending (st_object <$> xs) → Forall (stored_ok s) xs → sizes xs < 2 ^ 64 →
  0 < max_readahead → 0 < max_cache_size ≤ 2 ^ 62 →
  Forall plain_record (filter (λ r, skipped (header_trim xs) r = false) (results_of xs)) →
  (length (xs ≫= tagged) < fuel)%nat →
  let rs := filter (λ r, skipped (header_trim xs) r = false) (results_of xs) in
  ∃ blocks parts,
    (∀ x, handled block_handler blocks (accept ends rs).1 x
            (recover_node s link_decoder block_handler fuel (st_object <$> xs) max_readahead max_cache_size ends x))
    ∧ concat parts = rs ∧ blocks_match max_cache_size ends blocks parts
    ∧ ∀ st e0, ends !! st = Some e0 →
        ∃ e1, (accept ends rs).1 !! st = Some e1 ∧ runs e0 (of_stream st (accept ends rs).2) e1.
Proof.
  intros Hl Ha Hs Hz Hr Hm Hp Hf rs. unfold recover_node.
  rewrite (recover_complete s xs e0 max_readahead fuel) by done. fold rs. unfold stream_items. cbn [fst snd].
  rewrite app_nil_r. apply recover_plain; [done|done|].
  assert (length rs ≤ length (xs ≫= tagged))%nat; [|lia].
  unfold rs. etransitivity; [apply length_filter|]. unfold results_of. by rewrite length_fmap.
Qed.

(** The blocks are collected; the third one is refused. *)
Definition collect (b : LogCacheBlock) (x : list LogCacheBlock) : option (list LogCacheBlock * result StreamError unit) :=
  Some (x ++ [b], if decide (length x < 2)%nat then Ok tt else Err SE_Unexpected).

Lemma node_recovery_end_to_end_witness :
  let xs := [RecoverDemo.x0; RecoverDemo.x1] in
  let rs := filter (λ r, skipped (header_trim xs) r = false) (results_of xs) in
  ∃ blocks parts,
    (∀ x, handled collect blocks (accept {[7 := 1]} rs).1 x
            (@recover_node _ _ _ Crc32IsoHdlc.hash RecoverDemo.store None collect 5 (st_object <$> xs) 100 1000 {[7 := 1]} x))
    ∧ concat parts = rs ∧ blocks_match 1000 {[7 := 1]} blocks parts.
Proof.
  destruct (@node_recovery_end_to_end _ _ _ Crc32IsoHdlc.hash RecoverDemo.store [RecoverDemo.x0; RecoverDemo.x1] 0
    None collect 100 1000 {[7 := 1]} 5) as (blocks & parts & H1 & H2 & H3 & _).
  - done.
  - apply RecoverDemo.ordered.
  - apply RecoverDemo.stored.
  - done.
  - done.
  - done.
  - match goal with |- Forall _ ?l => let v := eval vm_compute in l in replace l with v by reflexivity end.
    repeat (apply Forall_cons; split; [split; [done|split; [done|vm_compute; reflexivity]]|]). constructor.
  - vm_compute. lia.
  - by exists blocks, parts.
Defined.
