(* ===== verification/Upload.v ===== *)
(** * The delta-WAL upload task

    Models [s3stream-core/src/storage/upload.rs]: the plan, the three phases and the
    objects they write.  The rate limiter only delays the task and is left out; the
    split stream objects are written under distinct keys, so their concurrent writes
    are sequenced.  The metadata plane is the class [ObjectManager]. *)
From S2P Require Import Prelude Collections Codec ObjectStore ObjectFormat ObjectIO Metadata.

(** What the upload uses of the host's object registry. *)
Class ObjectManager (M : Type) : Type := {
  mgr_prepare_object : M → Z → M * result StreamError Z;
  mgr_commit : M → Z → CommitStreamSetObjectRequest → M * result StreamError unit;
}.

#[export] Instance memory_object_manager : ObjectManager MetadataState := {
  mgr_prepare_object m count := let '(m, id) := prepare_object count m in (m, Ok id);
  mgr_commit m now r := ((commit_stream_set_object now r m).1, Ok tt);
}.

Record S3StorageConfig : Type := {
  cfg_wal_cache_size : Z;
  cfg_wal_upload_threshold : Z;
  cfg_wal_upload_interval_ms : Z;
  cfg_stream_split_size : Z;
  cfg_max_stream_num_per_stream_set_object : Z;
  cfg_object_block_size : Z;
  cfg_object_part_size : Z;
  cfg_snapshot_read_enable : bool;
}.

Record UploadWalTask : Type := mkTask {
  ut_stream_set_object_map : gmap Z (list StreamRecordBatch);
  ut_stream_object_map : gmap Z (list StreamRecordBatch);
  ut_object_block_size : Z;
  ut_object_part_size : Z;
  ut_prepared_object_id : option Z;
  ut_commit_request : option CommitStreamSetObjectRequest;
}.

Definition stream_size (records : list StreamRecordBatch) : Z :=
  u64 (foldr (λ r a, size r + a) 0 records).

Definition plan (config : S3StorageConfig) (records : gmap Z (list StreamRecordBatch)) : UploadWalTask :=
  let '(set_map, object_map) :=
    if (base.size records =? 1)%nat then (∅, records)
    else (filter (λ p, stream_size p.2 < cfg_stream_split_size config) records,
          filter (λ p, cfg_stream_split_size config <= stream_size p.2) records) in
  mkTask set_map object_map (cfg_object_block_size config) (cfg_object_part_size config) None None.

Definition object_count (t : UploadWalTask) : Z :=
  Z.of_nat (base.size (ut_stream_object_map t))
  + (if bool_decide (ut_stream_set_object_map t = ∅) then 0 else 1).

Definition prepare {M} `{ObjectManager M} (t : UploadWalTask) (m : M) : M * result StreamError UploadWalTask :=
  match mgr_prepare_object m (object_count t) with
  | (m, Err e) => (m, Err e)
  | (m, Ok id) => (m, Ok (mkTask (ut_stream_set_object_map t) (ut_stream_object_map t)
                          (ut_object_block_size t) (ut_object_part_size t) (Some id) (ut_commit_request t)))
  end.

Section Upload.
Context {S : Type} `{!ObjectStorage S}.

(** [ObjectWriter]: open, the writes in order, close; the object lands under its key.
    [None] is a panic. *)
Fixpoint write_all (ops : list (Z * list StreamRecordBatch)) (w : ObjectWriter)
  : option (result ObjectError ObjectWriter) :=
  match ops with
  | [] => Some (Ok w)
  | (stream, records) :: rest =>
      let* (w, r) := ow_write stream records w in
      match r with
      | Err e => Some (Err e)
      | Ok _ => write_all rest w
      end
  end.

Definition write_object (s : S) (now object_id block_size part_size : Z)
    (ops : list (Z * list StreamRecordBatch)) : option (S * result ObjectError Z) :=
  let* r := write_all ops (ow_open object_id block_size part_size) in
  match r with
  | Err e => Some (s, Err e)
  | Ok w =>
      let '(w, data) := ow_close w in
      Some (os_write s now (object_key object_id) data, Ok (ow_object_size w))
  end.

Definition write_stream_object (s : S) (now object_id stream : Z) (records : list StreamRecordBatch)
    (block_size part_size : Z) : option (S * result StreamError StreamObject) :=
  let* (s, r) := write_object s now object_id block_size part_size [(stream, records)] in
  match r with
  | Err e => Some (s, Err (SE_Object e))
  | Ok size =>
      let* first := head records in
      let* last := last records in
      Some (s, Ok {| so_object_id := object_id; so_object_size := size; so_stream_id := stream;
                     so_start_offset := base_offset first; so_end_offset := last_offset last;
                     so_attributes := attributes_new (os_bucket_id s) false false |})
  end.

(** The split streams in ascending stream order, with consecutive object ids. *)
Fixpoint write_stream_objects (s : S) (now object_id block_size part_size : Z)
    (streams : list (Z * list StreamRecordBatch)) : option (S * result StreamError (list StreamObject)) :=
  match streams with
  | [] => Some (s, Ok [])
  | (stream, records) :: rest =>
      let* (s, r) := write_stream_object s now object_id stream records block_size part_size in
      match r with
      | Err e => Some (s, Err e)
      | Ok so =>
          let* (s, r) := write_stream_objects s now (u64 (object_id + 1)) block_size part_size rest in
          Some (s, let? sos := r in Ok (so :: sos))
      end
  end.

Definition sso_range (p : Z * list StreamRecordBatch) : option ObjectStreamRange :=
  let* first := head p.2 in
  let* last := last p.2 in
  Some {| or_stream_id := p.1; or_epoch := U64_MAX; or_start_offset := base_offset first;
          or_end_offset := last_offset last; or_size := stream_size p.2 |}.

Definition upload (now : Z) (t : UploadWalTask) (s : S) : option (S * result StreamError UploadWalTask) :=
  let* object_id := ut_prepared_object_id t in
  let set_streams := entries (ut_stream_set_object_map t) in
  let no_set := bool_decide (ut_stream_set_object_map t = ∅) in
  let stream_set_object_id := if no_set then NOOP_OBJECT_ID else object_id in
  let object_id := if no_set then object_id else u64 (object_id + 1) in
  let* (s, r) := write_stream_objects s now object_id (ut_object_block_size t) (ut_object_part_size t)
                   (entries (ut_stream_object_map t)) in
  match r with
  | Err e => Some (s, Err e)
  | Ok stream_objects =>
      let* (s, r) :=
        if stream_set_object_id =? NOOP_OBJECT_ID then Some (s, Ok (0, 0, []))
        else
          let* ranges := mapM sso_range set_streams in
          let* (s, r) := write_object s now stream_set_object_id (ut_object_block_size t)
                           (ut_object_part_size t) set_streams in
          Some (s, let? size := map_err SE_Object r in
                   Ok (size, attributes_new (os_bucket_id s) false false, ranges)) in
      match r with
      | Err e => Some (s, Err e)
      | Ok (size, attributes, ranges) =>
          Some (s, Ok (mkTask (ut_stream_set_object_map t) (ut_stream_object_map t)
                         (ut_object_block_size t) (ut_object_part_size t) (ut_prepared_object_id t)
                         (Some {| cr_object_id := stream_set_object_id; cr_object_size := size;
                                  cr_attributes := attributes; cr_stream_ranges := ranges;
                                  cr_stream_objects := stream_objects; cr_compacted_object_ids := [] |})))
      end
  end.
End Upload.

(** [None] is the [expect] on a task that has not uploaded. *)
Definition commit {M} `{ObjectManager M} (now : Z) (t : UploadWalTask) (m : M)
  : option (M * result StreamError unit) :=
  let* request := ut_commit_request t in
  Some (mgr_commit m now request).

(** ** Writing one object *)

Lemma write_all_writes ops w w' : ow_writes ops w = Some w' → write_all ops w = Some (Ok w').
Proof.
  revert w; induction ops as [|[st rs] ops IH]; intros w; cbn; [congruence|].
  destruct (ow_write st rs w) as [[w1 [|]]|]; [apply IH|done|done].
Qed.

Lemma data_block_new_ok st g : g ≠ [] → is_Some (data_block_new st g).
Proof.
  intros Hg. unfold data_block_new. rewrite encode_data_block_spec by done.
  destruct g as [|r g]; [done|]. cbn [head].
  destruct (last (r :: g)) eqn:El; [by eexists|by apply last_None in El].
Qed.

Lemma ow_write_ok st rs w l :
  check st rs w = Ok l → ∃ w', ow_write st rs w = Some (w', Ok tt) ∧ ow_last w' = l.
Proof.
  intros Hc. unfold ow_write. rewrite Hc.
  destruct (group_loop_spec (ow_block_size_threshold w) (ow_group_acc w) [] rs) as [_ Hne].
  destruct (group_loop _ _ [] rs) as [acc groups]. cbn in Hne.
  destruct (mapM_is_Some_2 (data_block_new st) groups) as [blocks ->].
  { eapply Forall_impl; [exact Hne|]. intros g. apply data_block_new_ok. }
  cbv zeta. set (w1 := mkOW _ _ _ _ _ _ _ _ _ _).
  destruct (_ <=? _); eexists; (split; [reflexivity|]); [|done].
  by destruct (try_upload_blocks (S (length (ow_waiting w1))) w1) as (_ & _ & -> & _).
Qed.

(** Streams in ascending order pass the writer's ordering check. *)
Lemma ow_writes_ok ops w :
  StronglySorted Z.lt ops.*1 → Forall (λ p, p.2 ≠ []) ops →
  (∀ st e, ow_last w = Some (st, e) → Forall (λ p, st < p.1) ops) →
  ∃ w', ow_writes ops w = Some w'.
Proof.
  revert w; induction ops as [|[st rs] ops IH]; intros w Hs Hne Hl; cbn; [by eexists|].
  apply StronglySorted_cons in Hs as [Hall Hs]. apply Forall_cons in Hne as [Hr Hne].
  destruct rs as [|r0 rs]; [done|].
  destruct (last (r0 :: rs)) as [rn|] eqn:El; [|by apply last_None in El].
  assert (check st (r0 :: rs) w = Ok (Some (st, last_offset rn))) as Hc.
  { unfold check. cbn [head]. rewrite El. destruct (ow_last w) as [[st' e']|] eqn:Ew; [|done].
    specialize (Hl _ _ eq_refl). apply Forall_cons in Hl as [Hl _]. cbn in Hl.
    rewrite (proj2 (Z.ltb_ge st st')) by lia. by rewrite (proj2 (Z.eqb_neq st' st)) by lia. }
  destruct (ow_write_ok _ _ _ _ Hc) as (w' & -> & Hw'). apply IH; [done|done|].
  intros st2 e2. rewrite Hw'. intros [= <- <-].
  apply Forall_forall. intros p Hp. rewrite Forall_forall in Hall. by apply Hall, list_elem_of_fmap_2.
Qed.

(** *** Size of an object *)

Fixpoint encoded_size (rs : list (Z * StreamRecordBatch)) : Z :=
  match rs with [] => 0 | p :: rs' => len (encoded p.2) + encoded_size rs' end.

(** At most 4 GiB with the block headers and the index. *)
Definition small_object (ops : list (Z * list StreamRecordBatch)) : Prop :=
  46 * len (tagged ops) + encoded_size (tagged ops) + 48 < 2 ^ 32.

Lemma encoded_size_app l k : encoded_size (l ++ k) = encoded_size l + encoded_size k.
Proof. induction l as [|p l IH]; cbn; lia. Qed.

Lemma encoded_size_nonneg l : 0 ≤ encoded_size l.
Proof. induction l as [|p l IH]; cbn; lia. Qed.

Lemma len_concat_encoded st g : len (concat (encoded <$> g)) = encoded_size ((st,.) <$> g).
Proof. induction g as [|r g IH]; cbn; [done|]. rewrite length_app. lia. Qed.

Lemma groups_size groups blocks :
  Forall2 (λ p b, block_of p.1 p.2 b) groups blocks → Forall (λ p, p.2 ≠ []) groups →
  total_size blocks = 10 * len blocks + encoded_size (tagged groups)
  ∧ len blocks ≤ len (tagged groups)
  ∧ Forall (λ b, db_size b ≤ 10 + encoded_size (tagged groups)) blocks.
Proof.
  induction 1 as [|[st g] b gs bs Hb _ IH]; intros Hne; [done|].
  apply Forall_cons in Hne as [Hg Hne]. destruct (IH Hne) as (E & Hl & Hf). cbn in Hb, Hg.
  assert (db_size b = 10 + encoded_size ((st,.) <$> g)) as Eb.
  { unfold block_of, data_block_new in Hb. rewrite encode_data_block_spec in Hb by done.
    destruct (head g); [|done]. destruct (last g); [|done]. apply (inj Some) in Hb. rewrite <- Hb. unfold db_size.
    cbn [db_encoded]. rewrite !length_app, !length_be, <- (len_concat_encoded st). lia. }
  unfold tagged in *. cbn [mbind list_bind fst snd total_size length].
  rewrite encoded_size_app, length_app, length_fmap, Eb, E.
  pose proof (encoded_size_nonneg ((st,.) <$> g)). pose proof (encoded_size_nonneg (gs ≫= λ p, (p.1,.) <$> p.2)).
  assert (0 < length g)%nat by (destruct g; [done|cbn; lia]).
  split_and!; [lia|lia|]. constructor; [lia|]. eapply Forall_impl; [exact Hf|]. intros x Hx. cbn in Hx. lia.
Qed.

Lemma small_object_fits ops id bt pt w :
  ow_writes ops (ow_open id bt pt) = Some w → small_object ops → object_fits (ow_blocks w).
Proof.
  intros Hw Hs. destruct (ow_writes_spec ops (ow_open id bt pt) w) as (_ & _ & groups & blocks & Et & F & Hne & Eb); [done..|].
  change (ow_blocks w = blocks) in Eb. destruct (groups_size _ _ F Hne) as (E & Hl & Hf).
  rewrite Et in *. unfold small_object in Hs. pose proof (encoded_size_nonneg (tagged ops)).
  unfold object_fits. rewrite Eb. split_and!; [lia|lia|].
  eapply Forall_impl; [exact Hf|]. intros b Hb. cbn in Hb. lia.
Qed.

Section Written.
Context {S : Type} `{!ObjectStorage S} `{!ObjectStorageLaws S}.

Lemma write_object_spec (s : S) now id bt pt ops :
  StronglySorted Z.lt ops.*1 → Forall (λ p, p.2 ≠ []) ops → wf_ops ops → small_object ops →
  ∃ data size index, write_object s now id bt pt ops = Some (os_write s now (object_key id) data, Ok size)
    ∧ object_reads (os_write s now (object_key id) data) (object_key id) size index ops.
Proof.
  intros Hs Hne Hwf Hsm. destruct (ow_writes_ok ops (ow_open id bt pt) Hs Hne) as [w Hw]; [done|].
  destruct (written_object_reads s now id bt pt ops w Hw Hwf (small_object_fits _ _ _ _ _ Hw Hsm)) as (Hsz & Hinfo & Hrd).
  unfold write_object. rewrite (write_all_writes _ _ _ Hw).
  destruct (ow_close w) as [w' data] eqn:Ec. cbn [fst snd] in *.
  exists data, (ow_object_size w'), (block_indexes w'). split; [done|]. rewrite Hsz. split; [by eexists|done].
Qed.

Lemma object_reads_other (s : S) now key key' data size index ops :
  key ≠ key' → object_reads s key size index ops → object_reads (os_write s now key' data) key size index ops.
Proof.
  intros Hne [[n Hi] Hg]. split.
  - exists n. rewrite <- Hi. unfold basic_object_info. destruct (_ <? _); [done|].
    rewrite os_write_other by done. destruct (os_range_read s key _ _); [|done].
    destruct (negb _); [done|]. destruct (negb _); [done|]. destruct (negb _); [done|].
    by rewrite os_write_other by done.
  - unfold read_block in *. destruct Hg as (groups & Ht & Hl & Hg). exists groups. split_and!; [done|done|].
    intros i e He. destruct (Hg i e He) as (g & Hgr & Hd). exists g. split; [done|]. by rewrite os_write_other.
Qed.

(** A stream's records as a sealed block has them. *)
Definition stream_ok (p : Z * list StreamRecordBatch) : Prop :=
  p.2 ≠ [] ∧ is_u64 p.1 ∧ Forall wf_batch p.2.

(** [so] describes the object of stream [st], which reads back as its records. *)
Record describes (s : S) (id st : Z) (rs : list StreamRecordBatch) (so : StreamObject) : Prop := {
  de_id : so_object_id so = id;
  de_stream : so_stream_id so = st;
  de_start : base_offset <$> head rs = Some (so_start_offset so);
  de_end : last_offset <$> last rs = Some (so_end_offset so);
  de_reads : ∃ index, object_reads s (object_key id) (so_object_size so) index [(st, rs)];
}.

Lemma describes_other (s : S) now id id' data st rs so :
  is_u64 id → is_u64 id' → id ≠ id' → describes s id st rs so →
  describes (os_write s now (object_key id') data) id st rs so.
Proof.
  intros ? ? Hne [? ? ? ? [ix ?]]. constructor; try done. exists ix.
  apply object_reads_other; [|done]. intros E. by apply Hne, object_key_inj.
Qed.

Lemma write_stream_object_spec (s : S) now id st rs bt pt :
  stream_ok (st, rs) → small_object [(st, rs)] →
  ∃ data so, write_stream_object s now id st rs bt pt = Some (os_write s now (object_key id) data, Ok so)
    ∧ describes (os_write s now (object_key id) data) id st rs so.
Proof.
  intros (Hne & Hst & Hwf) Hsm. cbn in Hne, Hst, Hwf. unfold write_stream_object.
  destruct (write_object_spec s now id bt pt [(st, rs)]) as (data & size & index & -> & Hr).
  - repeat constructor.
  - by apply Forall_singleton.
  - by apply Forall_singleton.
  - done.
  - destruct rs as [|r0 rs]; [done|]. cbn [head].
    destruct (last (r0 :: rs)) as [rn|] eqn:El; [|by apply last_None in El].
    eexists data, _. split; [reflexivity|]. constructor; cbn; try done; [by rewrite El|by exists index].
Qed.

(** Keys of ids outside the range are left alone. *)
Definition untouched (s s' : S) (id n : Z) : Prop :=
  ∀ id' size index ops, is_u64 id' → ¬ (id ≤ id' < id + n) →
    object_reads s (object_key id') size index ops → object_reads s' (object_key id') size index ops.

Lemma write_stream_objects_spec (s : S) now id bt pt streams :
  Forall stream_ok streams → Forall (λ p, small_object [p]) streams →
  0 ≤ id → id + len streams < 2 ^ 64 →
  ∃ s' sos, write_stream_objects s now id bt pt streams = Some (s', Ok sos)
    ∧ length sos = length streams ∧ untouched s s' id (len streams)
    ∧ ∀ i st rs, streams !! i = Some (st, rs) →
        ∃ so, sos !! i = Some so ∧ describes s' (id + Z.of_nat i) st rs so.
Proof.
  intros Hok. revert s id; induction Hok as [|[st rs] streams Hst _ IH]; intros s id Hsm Hid Hn.
  { exists s, []. split; [done|]. split; [done|]. split; [by intros ? ? ? ? ? ? ?|].
    intros i st rs Hi. by rewrite lookup_nil in Hi. }
  apply Forall_cons in Hsm as [Hs1 Hsm]. cbn [length] in Hn. cbn [write_stream_objects].
  destruct (write_stream_object_spec s now id st rs bt pt Hst Hs1) as (data & so & -> & Hd).
  rewrite u64_small by int_lia.
  destruct (IH (os_write s now (object_key id) data) (id + 1) Hsm) as (s' & sos & -> & Hl & Hu & Hi); [lia|lia|].
  exists s', (so :: sos). split; [done|]. split; [cbn; lia|]. split.
  - intros id' size index ops Hid' Hout Hr. cbn [length] in Hout. apply Hu; [done|lia|].
    apply object_reads_other; [|done]. intros E. apply object_key_inj in E; [lia|done|int_lia].
  - intros [|i] st' rs' Hlk; cbn in Hlk.
    + injection Hlk as <- <-. exists so. split; [done|]. rewrite Z.add_0_r.
      destruct Hd as [? ? ? ? [ix ?]]. constructor; try done. exists ix. apply Hu; [int_lia|lia|done].
    + destruct (Hi i st' rs' Hlk) as (so' & ? & ?). exists so'. split; [done|].
      by replace (id + Z.of_nat (Datatypes.S i)) with (id + 1 + Z.of_nat i) by lia.
Qed.
End Written.

(** ** The plan *)

Section Plan.
Context (config : S3StorageConfig) (records : gmap Z (list StreamRecordBatch)).

Lemma plan_split st rs :
  records !! st = Some rs ↔
  ut_stream_set_object_map (plan config records) !! st = Some rs
  ∨ ut_stream_object_map (plan config records) !! st = Some rs.
Proof.
  unfold plan. destruct (_ =? 1)%nat; cbn; [rewrite lookup_empty; naive_solver|].
  rewrite !map_lookup_filter_Some. cbn. split; [|tauto].
  intros Hr. destruct (Z.lt_ge_cases (stream_size rs) (cfg_stream_split_size config)); [left|right]; auto.
Qed.

Lemma plan_disjoint st rs rs' :
  ut_stream_set_object_map (plan config records) !! st = Some rs →
  ut_stream_object_map (plan config records) !! st = Some rs' → False.
Proof.
  unfold plan. destruct (_ =? 1)%nat; cbn; [by rewrite lookup_empty|].
  rewrite !map_lookup_filter_Some. cbn. intros [E ?] [E' ?]. simplify_eq. lia.
Qed.
End Plan.


(** ** The task *)

#[export] Instance encoded_size_proper : Proper (Permutation ==> (=)) encoded_size.
Proof. intros l k H. induction H; cbn; lia. Qed.

#[export] Instance tagged_proper : Proper (Permutation ==> Permutation) tagged.
Proof. intros l k H. unfold tagged. by rewrite H. Qed.

Lemma small_submseteq ops ops' : ops ⊆+ ops' → small_object ops' → small_object ops.
Proof.
  intros [k H]%submseteq_Permutation. unfold small_object. rewrite H.
  unfold tagged. rewrite bind_app, length_app, encoded_size_app. fold (tagged ops) (tagged k).
  pose proof (encoded_size_nonneg (tagged k)). lia.
Qed.

Lemma small_submap (m m' : gmap Z (list StreamRecordBatch)) :
  m ⊆ m' → small_object (entries m') → small_object (entries m).
Proof. intros H. apply small_submseteq. rewrite !entries_perm. by apply map_to_list_submseteq. Qed.

(** A sealed block as the cache hands it over, small enough for one object. *)
Definition records_ok (records : gmap Z (list StreamRecordBatch)) : Prop :=
  (∀ st rs, records !! st = Some rs → stream_ok (st, rs)) ∧ small_object (entries records).

Lemma records_ok_submap m m' : m ⊆ m' → records_ok m' → records_ok m.
Proof.
  intros Hm [Hs Hb]. split; [|by eapply small_submap]. intros st rs H. apply Hs. by eapply lookup_weaken.
Qed.

Lemma records_ok_all m : records_ok m → Forall stream_ok (entries m) ∧ Forall (λ p, small_object [p]) (entries m).
Proof.
  intros [Hs Hb]. split; apply Forall_forall; intros [st rs] Hin.
  - by apply Hs, elem_of_entries.
  - eapply small_submseteq; [|exact Hb]. by apply singleton_submseteq_l.
Qed.

(** The range of a stream in the stream set object. *)
Definition ranges_over (p : Z * list StreamRecordBatch) (x : ObjectStreamRange) : Prop :=
  or_stream_id x = p.1 ∧ base_offset <$> head p.2 = Some (or_start_offset x)
  ∧ last_offset <$> last p.2 = Some (or_end_offset x).

Lemma sso_range_ok p : p.2 ≠ [] → ∃ x, sso_range p = Some x ∧ ranges_over p x.
Proof.
  destruct p as [st [|r0 rs]]; [done|]; intros _. unfold sso_range, ranges_over. cbn [fst snd head].
  destruct (last (r0 :: rs)) as [rn|] eqn:El; [|by apply last_None in El]. by eexists.
Qed.

Lemma sso_ranges_ok ops :
  Forall stream_ok ops → ∃ ranges, mapM sso_range ops = Some ranges ∧ Forall2 ranges_over ops ranges.
Proof.
  induction 1 as [|p ops (Hne & _) _ (ranges & E & IH)]; [by exists []|].
  destruct (sso_range_ok p Hne) as (x & Ex & Hx). exists (x :: ranges). split; [|by constructor].
  cbn. by rewrite Ex, E.
Qed.

Section Task.
Context {S : Type} `{!ObjectStorage S} `{!ObjectStorageLaws S}.

(** Object [oid] of the request holds the records [rs] of stream [st] under the offsets
    the request gives it. *)
Definition placed (s : S) (r : CommitStreamSetObjectRequest) (st : Z) (rs : list StreamRecordBatch) (oid : Z)
  : Prop :=
  ∃ start end_ size index ops,
    base_offset <$> head rs = Some start ∧ last_offset <$> last rs = Some end_
    ∧ object_reads s (object_key oid) size index ops ∧ (st, rs) ∈ ops
    ∧ ((∃ x, x ∈ cr_stream_ranges r ∧ or_stream_id x = st ∧ or_start_offset x = start ∧ or_end_offset x = end_
         ∧ cr_object_id r = oid ∧ cr_object_size r = size ∧ oid ≠ NOOP_OBJECT_ID)
       ∨ (∃ so, so ∈ cr_stream_objects r ∧ so_object_id so = oid ∧ so_object_size so = size
         ∧ so_stream_id so = st ∧ so_start_offset so = start ∧ so_end_offset so = end_)).

(** What an upload of the two maps under the ids from [id] leaves. *)
Record uploaded (s s' : S) (set objs : gmap Z (list StreamRecordBatch)) (id : Z)
    (r : CommitStreamSetObjectRequest) : Prop := {
  up_placed st rs : set !! st = Some rs ∨ objs !! st = Some rs →
    ∃ oid, id ≤ oid < id + (Z.of_nat (base.size objs) + (if bool_decide (set = ∅) then 0 else 1))
      ∧ placed s' r st rs oid;
  up_set_streams : or_stream_id <$> cr_stream_ranges r = keys set;
  up_split_streams : so_stream_id <$> cr_stream_objects r = keys objs;
  up_split_starts so : so ∈ cr_stream_objects r →
    ∃ rs, objs !! so_stream_id so = Some rs ∧ base_offset <$> head rs = Some (so_start_offset so);
  up_object_id : cr_object_id r = if bool_decide (set = ∅) then NOOP_OBJECT_ID else id;
  up_compacted : cr_compacted_object_ids r = [];
  up_rest : untouched s s' id (Z.of_nat (base.size objs) + (if bool_decide (set = ∅) then 0 else 1));
}.

Lemma length_entries {V} (m : gmap Z V) : length (entries m) = base.size m.
Proof. by rewrite entries_perm, length_map_to_list. Qed.

(** The split streams on their own. *)
Lemma upload_split (s : S) now id bt pt objs :
  records_ok objs → 0 ≤ id → id + Z.of_nat (base.size objs) < 2 ^ 64 →
  ∃ s' sos, write_stream_objects s now id bt pt (entries objs) = Some (s', Ok sos)
    ∧ so_stream_id <$> sos = keys objs ∧ untouched s s' id (Z.of_nat (base.size objs))
    ∧ (∀ st rs, objs !! st = Some rs → ∃ oid so, id ≤ oid < id + Z.of_nat (base.size objs)
        ∧ so ∈ sos ∧ describes s' oid st rs so)
    ∧ ∀ so, so ∈ sos → ∃ rs, objs !! so_stream_id so = Some rs ∧ base_offset <$> head rs = Some (so_start_offset so).
Proof.
  intros Hok Hid Hn. destruct (records_ok_all _ Hok) as [Ha Hb].
  destruct (write_stream_objects_spec s now id bt pt (entries objs) Ha Hb Hid) as (s' & sos & E & Hl & Hu & Hd);
    [by rewrite length_entries|].
  rewrite length_entries in Hl, Hu. exists s', sos. split; [done|]. split; [|split; [done|split]].
  - unfold keys. apply list_eq_same_length with (n := base.size objs);
      rewrite ?length_fmap, ?length_entries; [done|done|].
    intros i x y Hi Hx Hy. rewrite !list_lookup_fmap in *.
    destruct (entries objs !! i) as [[st rs]|] eqn:Ei; [|done]. destruct (Hd _ _ _ Ei) as (so & Eso & []).
    rewrite Eso in Hx. cbn in Hx, Hy. congruence.
  - intros st rs [i Hi]%elem_of_entries%list_elem_of_lookup. destruct (Hd _ _ _ Hi) as (so & Eso & Hso).
    exists (id + Z.of_nat i), so. apply lookup_lt_Some in Hi. rewrite length_entries in Hi.
    split; [lia|]. split; [by eapply list_elem_of_lookup_2|done].
  - intros so [i Hi]%list_elem_of_lookup. pose proof (lookup_lt_Some _ _ _ Hi) as Hlt.
    destruct (lookup_lt_is_Some_2 (entries objs) i) as [[st rs] Ei]; [rewrite length_entries; lia|].
    destruct (Hd _ _ _ Ei) as (so' & Eso & [_ Hst' Hstart _ _]). rewrite Hi in Eso. injection Eso as <-.
    exists rs. rewrite Hst'. split; [|done]. apply elem_of_entries. by eapply list_elem_of_lookup_2.
Qed.

Lemma describes_placed (s : S) r oid st rs so :
  so ∈ cr_stream_objects r → describes s oid st rs so → placed s r st rs oid.
Proof.
  intros Hin [? ? ? ? [index Hr]]. exists (so_start_offset so), (so_end_offset so), (so_object_size so), index, [(st, rs)].
  split; [done|]. split; [done|]. split; [done|]. split; [by apply list_elem_of_singleton|]. right. by exists so.
Qed.

Lemma describes_keep (s s' : S) id n oid st rs so :
  untouched s s' id n → is_u64 oid → ¬ (id ≤ oid < id + n) → describes s oid st rs so → describes s' oid st rs so.
Proof. intros Hu ? ? [? ? ? ? [index Hr]]. constructor; try done. exists index. by apply Hu. Qed.

Lemma untouched_write (s : S) now id data n :
  is_u64 id → 1 ≤ n → untouched s (os_write s now (object_key id) data) id n.
Proof.
  intros Hid Hn id' size index ops ? Hout Hr. apply object_reads_other; [|done].
  intros E. apply object_key_inj in E; [lia|done|done].
Qed.

(** The stream set object on its own. *)
Lemma upload_set (s : S) now id bt pt set :
  records_ok set →
  ∃ data size index ranges, mapM sso_range (entries set) = Some ranges
    ∧ write_object s now id bt pt (entries set) = Some (os_write s now (object_key id) data, Ok size)
    ∧ object_reads (os_write s now (object_key id) data) (object_key id) size index (entries set)
    ∧ Forall2 ranges_over (entries set) ranges.
Proof.
  intros Hok. destruct (records_ok_all _ Hok) as [Ha _]. destruct (sso_ranges_ok _ Ha) as (ranges & E & HF).
  destruct (write_object_spec s now id bt pt (entries set)) as (data & size & index & E' & Hr).
  - apply (keys_sorted set).
  - eapply Forall_impl; [exact Ha|]. by intros p (? & _).
  - eapply Forall_impl; [exact Ha|]. by intros p (_ & ?).
  - apply Hok.
  - by exists data, size, index, ranges.
Qed.

Lemma ranges_streams ops ranges : Forall2 ranges_over ops ranges → or_stream_id <$> ranges = ops.*1.
Proof. induction 1 as [|p x ops ranges (E & _) _ IH]; cbn; congruence. Qed.

Lemma ranges_elem ops ranges p :
  Forall2 ranges_over ops ranges → p ∈ ops → ∃ x, x ∈ ranges ∧ ranges_over p x.
Proof.
  intros HF [i Hi]%list_elem_of_lookup. destruct (Forall2_lookup_l _ _ _ _ _ HF Hi) as (x & Hx & ?).
  exists x. split; [by eapply list_elem_of_lookup_2|done].
Qed.

(** The upload of a prepared task writes every stream and describes it. *)
Lemma upload_spec (s : S) now set objs bt pt id :
  records_ok set → records_ok objs → 0 ≤ id →
  let n := Z.of_nat (base.size objs) + (if bool_decide (set = ∅) then 0 else 1) in
  id + n < 2 ^ 64 →
  ∃ s' r, upload now (mkTask set objs bt pt (Some id) None) s = Some (s', Ok (mkTask set objs bt pt (Some id) (Some r)))
    ∧ uploaded s s' set objs id r.
Proof.
  intros Hset Hobjs Hid n Hn. unfold upload. cbn [ut_prepared_object_id ut_stream_set_object_map ut_stream_object_map
    ut_object_block_size ut_object_part_size mbind option_bind]. subst n.
  destruct (bool_decide_reflect (set = ∅)) as [->|Hne].
  - destruct (upload_split s now id bt pt objs Hobjs Hid) as (s' & sos & -> & Hst & Hu & Hd & Hso); [lia|].
    rewrite Z.eqb_refl. eexists s', _. split; [reflexivity|]. constructor; rewrite ?bool_decide_eq_true_2 by done;
      cbn [cr_stream_ranges cr_stream_objects cr_compacted_object_ids]; try done.
    + intros st rs [H|H]; [by rewrite lookup_empty in H|]. destruct (Hd _ _ H) as (oid & so & ? & ? & ?).
      exists oid. split; [lia|]. by eapply describes_placed.
    + by rewrite Z.add_0_r.
  - rewrite u64_small by int_lia.
    destruct (upload_split s now (id + 1) bt pt objs Hobjs) as (s1 & sos & -> & Hst & Hu & Hd & Hso); [lia|lia|].
    assert (id ≠ NOOP_OBJECT_ID) as Hnoop by (unfold NOOP_OBJECT_ID, U64_MAX; lia).
    rewrite (proj2 (Z.eqb_neq id NOOP_OBJECT_ID) Hnoop).
    destruct (upload_set s1 now id bt pt set Hset) as (data & size & index & ranges & -> & -> & Hr & HF).
    eexists _, _. split; [reflexivity|]. constructor; cbn [cr_stream_ranges cr_stream_objects cr_compacted_object_ids]; try done.
    + rewrite (bool_decide_eq_false_2 _ Hne). intros st rs [H|H].
      * exists id. split; [lia|]. apply elem_of_entries in H. destruct (ranges_elem _ _ _ HF H) as (x & Hx & ? & ? & ?).
        exists (or_start_offset x), (or_end_offset x), size, index, (entries set).
        split; [done|]. split; [done|]. split; [done|]. split; [done|]. left. exists x.
        by split_and!.
      * destruct (Hd _ _ H) as (oid & so & ? & ? & ?). exists oid. split; [lia|]. eapply describes_placed; [done|].
        eapply describes_keep; [apply (untouched_write _ _ id _ 1); int_lia| | |done]; int_lia.
    + by apply ranges_streams.
    + by rewrite (bool_decide_eq_false_2 _ Hne).
    + rewrite (bool_decide_eq_false_2 _ Hne). intros id' size' index' ops ? Hout Hr'.
      apply (untouched_write _ _ id _ 1); [int_lia|lia|done|lia|]. apply Hu; [done|lia|done].
Qed.
End Task.

(** The plan puts every stream of the block in one of the two maps. *)
Lemma plan_fields config records :
  plan config records
  = mkTask (ut_stream_set_object_map (plan config records)) (ut_stream_object_map (plan config records))
      (cfg_object_block_size config) (cfg_object_part_size config) None None.
Proof. unfold plan. by destruct (_ =? 1)%nat. Qed.

Lemma plan_submaps config records :
  ut_stream_set_object_map (plan config records) ⊆ records
  ∧ ut_stream_object_map (plan config records) ⊆ records.
Proof. split; apply map_subseteq_spec; intros st rs H; apply (plan_split config records); auto. Qed.

Lemma plan_keys config records :
  keys (ut_stream_set_object_map (plan config records)) ++ keys (ut_stream_object_map (plan config records))
  ≡ₚ keys records.
Proof.
  apply NoDup_Permutation; [apply NoDup_app; split_and!| |]; try apply NoDup_keys.
  - intros st [rs H]%elem_of_keys [rs' H']%elem_of_keys. by eapply plan_disjoint.
  - intros st. rewrite elem_of_app, !elem_of_keys. unfold is_Some. setoid_rewrite (plan_split config records).
    naive_solver.
Qed.

Section Whole.
Context {S : Type} `{!ObjectStorage S} `{!ObjectStorageLaws S}.

Definition prepared (t : UploadWalTask) (id : Z) (r : option CommitStreamSetObjectRequest) : UploadWalTask :=
  mkTask (ut_stream_set_object_map t) (ut_stream_object_map t) (ut_object_block_size t) (ut_object_part_size t)
    (Some id) r.

Lemma upload_planned (s : S) now config records id :
  let t := plan config records in
  records_ok records → 0 ≤ id → id + object_count t < 2 ^ 64 →
  ∃ s' r, upload now (prepared t id None) s = Some (s', Ok (prepared t id (Some r)))
    ∧ uploaded s s' (ut_stream_set_object_map t) (ut_stream_object_map t) id r.
Proof.
  intros t Hok Hid Hn. destruct (plan_submaps config records) as [? ?].
  apply upload_spec; [by eapply records_ok_submap|by eapply records_ok_submap|done|exact Hn].
Qed.

(** The upload of a planned and prepared block succeeds; every stream of the block
    ends up in exactly one object of the request, whose id is one of those prepared,
    under the offsets of its first and last record, and the stored object reads back
    to its records; other objects of the bucket are left alone. *)
Theorem upload_exact (s : S) now config records id :
  let t := plan config records in
  records_ok records → 0 ≤ id → id + object_count t < 2 ^ 64 →
  ∃ s' r, upload now (prepared t id None) s = Some (s', Ok (prepared t id (Some r)))
    ∧ (∀ st rs, records !! st = Some rs → ∃ oid, id ≤ oid < id + object_count t ∧ placed s' r st rs oid)
    ∧ (or_stream_id <$> cr_stream_ranges r) ++ (so_stream_id <$> cr_stream_objects r) ≡ₚ keys records
    ∧ untouched s s' id (object_count t).
Proof.
  intros t Hok Hid Hn. destruct (upload_planned s now config records id Hok Hid Hn) as (s' & r & E & [Hp Hs Ho _ _ _ Hu]).
  exists s', r. split; [done|]. split; [|split; [|done]].
  - intros st rs H. apply Hp. by apply plan_split.
  - rewrite Hs, Ho. apply plan_keys.
Qed.

Lemma placed_committed (s : S) now r st rs oid :
  cr_compacted_object_ids r = [] → placed s r st rs oid →
  ∃ start end_ o index ops, base_offset <$> head rs = Some start ∧ last_offset <$> last rs = Some end_
    ∧ committed now r st start end_ o
    ∧ object_reads s (object_key (om_object_id o)) (om_object_size o) index ops ∧ (st, rs) ∈ ops.
Proof.
  intros Hc (start & end_ & size & index & ops & ? & ? & Hr & Hin & [(x & Hx & <- & <- & <- & <- & <- & Hno)|(so & Hx & <- & <- & <- & <- & <-)]).
  - exists (or_start_offset x), (or_end_offset x), (sso_metadata now r), index, ops.
    split; [done|]. split; [done|]. split; [|done]. left. exists x. rewrite Hc.
    split_and!; try done. apply not_elem_of_nil.
  - exists (so_start_offset so), (so_end_offset so), (so_meta now so), index, ops.
    split; [done|]. split; [done|]. split; [|done]. right. by exists so.
Qed.

(** Prepare, upload and commit of a sealed block against the in-memory metadata
    plane: afterwards a lookup over any range that touches a stream of the block lists,
    at the stream's first offset, an object that reads back to the stream's records. *)
Theorem upload_commit_readable (s : S) (m : MetadataState) now config records :
  records_ok records → manager_ok m →
  0 ≤ ms_object_id_alloc m → ms_object_id_alloc m + object_count (plan config records) < 2 ^ 64 →
  ∃ m1 t1 s2 t2 m2,
    prepare (plan config records) m = (m1, Ok t1)
    ∧ upload now t1 s = Some (s2, Ok t2)
    ∧ commit now t2 m1 = Some (m2, Ok tt)
    ∧ ∀ st rs lo hi, records !! st = Some rs →
        ∃ start end_ l o index ops,
          base_offset <$> head rs = Some start ∧ last_offset <$> last rs = Some end_
          ∧ (∀ limit, get_objects st lo hi limit m2 = Some (takeZ (Z.max limit 1) l.*2))
          ∧ StronglySorted (λ a b, slice_le a b = true) l
          ∧ (start < hi → lo < end_ → (start, o) ∈ l)
          ∧ object_reads s2 (object_key (om_object_id o)) (om_object_size o) index ops ∧ (st, rs) ∈ ops.
Proof.
  intros Hok Hm Hid Hn.
  destruct (upload_planned s now config records (ms_object_id_alloc m) Hok Hid Hn) as (s2 & r & E & [Hp _ Ho _ _ Hc _]).
  exists (prepare_object (object_count (plan config records)) m).1, (prepared (plan config records) (ms_object_id_alloc m) None),
    s2, (prepared (plan config records) (ms_object_id_alloc m) (Some r)),
    (commit_stream_set_object now r (prepare_object (object_count (plan config records)) m).1).1.
  split; [unfold prepare; by rewrite (plan_fields config records)|]. split; [done|]. split; [done|].
  intros st rs lo hi H. destruct (Hp st rs) as (oid & _ & Hpl); [by apply plan_split|].
  destruct (placed_committed _ now _ _ _ _ Hc Hpl) as (start & end_ & o & index & ops & Hs & He & Hco & Hr & Hin).
  set (m1 := (prepare_object _ m).1).
  destruct (get_objects_spec (commit_stream_set_object now r m1).1 st lo hi) as (l & El & Hl & Hx).
  { apply (mstep_ok m1 _ (ms_commit m1 now r)), (mstep_ok m _ (ms_prepare m _)), Hm. }
  exists start, end_, l, o, index, ops. split; [done|]. split; [done|]. split; [done|]. split; [done|].
  split; [|done]. intros ? ?. apply Hx. eapply commit_covering; try done.
  apply (NoDup_fmap_1 fst). rewrite <- list_fmap_compose. change (fst ∘ so_key) with so_stream_id.
  rewrite Ho. apply NoDup_keys.
Qed.
End Whole.

Definition demo_config : S3StorageConfig :=
  {| cfg_wal_cache_size := 4096; cfg_wal_upload_threshold := 1000; cfg_wal_upload_interval_ms := 0;
     cfg_stream_split_size := 1000; cfg_max_stream_num_per_stream_set_object := 10; cfg_object_block_size := 64;
     cfg_object_part_size := 0; cfg_snapshot_read_enable := false |}.
Definition demo_records : gmap Z (list StreamRecordBatch) :=
  <[1 := [new 1 0 0 10 [1]; new 1 0 10 5 [2; 3]]]> (<[2 := [new 2 0 7 1 [9]]]> ∅).

Lemma demo_records_ok : records_ok demo_records.
Proof.
  split; [|vm_compute; reflexivity].
  intros st rs. unfold demo_records.
  intros [[<- <-]|[_ [[<- <-]|[_ H]]%lookup_insert_Some]]%lookup_insert_Some;
    [..|by rewrite lookup_empty in H]; (split; [done|]); (split; [vm_compute; intuition discriminate|]);
    repeat first [apply Forall_nil_2 | apply Forall_cons_2];
    (apply wf_new; [repeat constructor; vm_compute; intuition discriminate|vm_compute; reflexivity]).
Qed.

Lemma upload_exact_witness :
  ∃ s' r, upload 0 (prepared (plan demo_config demo_records) 1 None) (ms_new 0)
          = Some (s', Ok (prepared (plan demo_config demo_records) 1 (Some r)))
    ∧ ∃ oid, placed s' r 2 [new 2 0 7 1 [9]] oid.
Proof.
  destruct (upload_exact (ms_new 0) 0 demo_config demo_records 1) as (s' & r & E & H & _ & _).
  - apply demo_records_ok.
  - done.
  - vm_compute. reflexivity.
  - exists s', r. split; [done|]. destruct (H 2 [new 2 0 7 1 [9]]) as (oid & _ & ?); [done|]. by exists oid.
Defined.

Lemma upload_commit_readable_witness :
  ∃ m1 t1 s2 t2 m2 l o index ops, prepare (plan demo_config demo_records) (create_stream manager_new).1 = (m1, Ok t1)
    ∧ upload 3 t1 (ms_new 0) = Some (s2, Ok t2) ∧ commit 3 t2 m1 = Some (m2, Ok tt)
    ∧ (∀ limit, get_objects 2 7 8 limit m2 = Some (takeZ (Z.max limit 1) l.*2)) ∧ (7, o) ∈ l
    ∧ object_reads s2 (object_key (om_object_id o)) (om_object_size o) index ops ∧ (2, [new 2 0 7 1 [9]]) ∈ ops.
Proof.
  destruct (upload_commit_readable (ms_new 0) (create_stream manager_new).1 3 demo_config demo_records)
    as (m1 & t1 & s2 & t2 & m2 & ? & ? & ? & H).
  - apply demo_records_ok.
  - apply (mstep_ok manager_new); [by apply ms_create|apply manager_new_ok].
  - done.
  - vm_compute. reflexivity.
  - destruct (H 2 [new 2 0 7 1 [9]] 7 8) as (start & end_ & l & o & index & ops & Hs & He & ? & _ & Hin & ? & ?); [done|].
    assert (start = 7) as -> by (vm_compute in Hs; congruence).
    assert (end_ = 8) as -> by (vm_compute in He; congruence).
    exists m1, t1, s2, t2, m2, l, o, index, ops. split_and!; try done. by apply Hin.
Defined.
