(* ===== verification/Storage.v ===== *)
(** * S3Storage: appends, the upload pipeline, trims and stitched reads

    Models [s3stream-core/src/storage/s3_storage.rs].  Every critical section (the code
    under [cache_put_lock], one turn of a worker or of a spawned task) is one operation
    on the state; [None] is a panic or a task that still waits.  A spawned task is an
    entry of a task list, a channel is a queue of context indices, and the [Arc] of a
    context is its index.  Rates and clocks only delay tasks and are left out; the
    listeners of the confirm WAL are callbacks of the host. *)
From S2P Require Import Prelude Collections Codec ObjectStore WalFormat WalMemory ObjectFormat ObjectIO LogCache Metadata Upload.

(** What the storage uses of its write-ahead log. *)
Class WriteAheadLog (W : Type) : Type := {
  wal_start : W → W * result WalError unit;
  wal_shutdown_gracefully : W → W;
  wal_submit : W → StreamRecordBatch → W * result WalError unit;
  wal_trim : W → RecordOffset → W * result WalError unit;
  wal_recover : W → list (result WalError RecoverResult);
  wal_reset : W → W * result WalError unit;
}.

#[export] Instance memory_wal : WriteAheadLog MemoryWriteAheadLog := {
  wal_start w := (mem_start w, Ok tt);
  wal_shutdown_gracefully := mem_shutdown_gracefully;
  wal_submit w r := let '(w, res) := mem_submit r w in (w, let? _ := res in Ok tt);
  wal_trim w o := (mem_trim o w, Ok tt);
  wal_recover := mem_recover;
  wal_reset w := (mem_reset w, Ok tt);
}.

(** ** Completions *)

(** The first result stays; the text of an error is dropped. *)
Definition Completion : Type := option (result unit unit).
Definition complete (r : result unit unit) (c : Completion) : Completion :=
  match c with None => Some r | Some _ => c end.
Definition wait (c : Completion) : option (result StreamError unit) := map_err (λ _, SE_Unexpected) <$> c.

(** Waiting for several in order, up to the first error. *)
Fixpoint wait_all (cs : list Completion) : Completion :=
  match cs with
  | [] => Some (Ok tt)
  | None :: _ => None
  | Some (Err e) :: _ => Some (Err e)
  | Some (Ok _) :: rest => wait_all rest
  end.

Definition failed : result unit unit := Err tt.
Definition outcome {E A} (r : result E A) : result unit unit :=
  match r with Ok _ => Ok tt | Err _ => failed end.

(** ** The pipeline *)

Record TaskContext : Type := mkCtx {
  tc_cache : LogCacheBlock;
  tc_task : UploadWalTask;
  tc_cf : Completion;
  tc_trim_cf : Completion;
  tc_upload_done : Completion;
  tc_force : bool;
}.

Definition set_task (t : UploadWalTask) (c : TaskContext) : TaskContext :=
  mkCtx (tc_cache c) t (tc_cf c) (tc_trim_cf c) (tc_upload_done c) (tc_force c).
Definition complete_cf (r : result unit unit) (c : TaskContext) : TaskContext :=
  mkCtx (tc_cache c) (tc_task c) (complete r (tc_cf c)) (tc_trim_cf c) (tc_upload_done c) (tc_force c).
Definition complete_trim (r : result unit unit) (c : TaskContext) : TaskContext :=
  mkCtx (tc_cache c) (tc_task c) (tc_cf c) (complete r (tc_trim_cf c)) (tc_upload_done c) (tc_force c).
Definition complete_upload (r : result unit unit) (c : TaskContext) : TaskContext :=
  mkCtx (tc_cache c) (tc_task c) (tc_cf c) (tc_trim_cf c) (complete r (tc_upload_done c)) (tc_force c).
Definition burst (c : TaskContext) : TaskContext :=
  mkCtx (tc_cache c) (tc_task c) (tc_cf c) (tc_trim_cf c) (tc_upload_done c) true.

(** A spawned trim: at once, or a timer that pops the delayed queue. *)
Inductive TrimTask : Type :=
| TrimNow (offset : RecordOffset) (k : nat)
| TrimTimer.

Section Storage.
Context {S M W : Type} `{!ObjectStorage S} `{!ObjectManager M} `{!WriteAheadLog W}.
Context (config : S3StorageConfig) (delay_trim_ms : Z).

(** [pl_trims] are the calls of [trim] on the log so far. *)
Record Pipeline : Type := mkPipe {
  pl_store : S;
  pl_manager : M;
  pl_wal : W;
  pl_cache : LogCache;
  pl_contexts : list TaskContext;
  pl_inflight : list nat;
  pl_prepare : list nat;
  pl_uploads : list nat;
  pl_commit : list nat;
  pl_poisoned : bool;
  pl_trim_tasks : list TrimTask;
  pl_trim_queue : list (RecordOffset * nat);
  pl_trims : list RecordOffset;
}.

Definition set_store (s : S) (p : Pipeline) : Pipeline :=
  mkPipe s (pl_manager p) (pl_wal p) (pl_cache p) (pl_contexts p) (pl_inflight p) (pl_prepare p) (pl_uploads p)
    (pl_commit p) (pl_poisoned p) (pl_trim_tasks p) (pl_trim_queue p) (pl_trims p).
Definition set_manager (m : M) (p : Pipeline) : Pipeline :=
  mkPipe (pl_store p) m (pl_wal p) (pl_cache p) (pl_contexts p) (pl_inflight p) (pl_prepare p) (pl_uploads p)
    (pl_commit p) (pl_poisoned p) (pl_trim_tasks p) (pl_trim_queue p) (pl_trims p).
Definition set_wal (w : W) (p : Pipeline) : Pipeline :=
  mkPipe (pl_store p) (pl_manager p) w (pl_cache p) (pl_contexts p) (pl_inflight p) (pl_prepare p) (pl_uploads p)
    (pl_commit p) (pl_poisoned p) (pl_trim_tasks p) (pl_trim_queue p) (pl_trims p).
Definition set_cache (c : LogCache) (p : Pipeline) : Pipeline :=
  mkPipe (pl_store p) (pl_manager p) (pl_wal p) c (pl_contexts p) (pl_inflight p) (pl_prepare p) (pl_uploads p)
    (pl_commit p) (pl_poisoned p) (pl_trim_tasks p) (pl_trim_queue p) (pl_trims p).
Definition set_contexts (cs : list TaskContext) (p : Pipeline) : Pipeline :=
  mkPipe (pl_store p) (pl_manager p) (pl_wal p) (pl_cache p) cs (pl_inflight p) (pl_prepare p) (pl_uploads p)
    (pl_commit p) (pl_poisoned p) (pl_trim_tasks p) (pl_trim_queue p) (pl_trims p).
Definition set_queues (inflight prepare uploads commit : list nat) (p : Pipeline) : Pipeline :=
  mkPipe (pl_store p) (pl_manager p) (pl_wal p) (pl_cache p) (pl_contexts p) inflight prepare uploads commit
    (pl_poisoned p) (pl_trim_tasks p) (pl_trim_queue p) (pl_trims p).
Definition poison (p : Pipeline) : Pipeline :=
  mkPipe (pl_store p) (pl_manager p) (pl_wal p) (pl_cache p) (pl_contexts p) (pl_inflight p) (pl_prepare p)
    (pl_uploads p) (pl_commit p) true (pl_trim_tasks p) (pl_trim_queue p) (pl_trims p).
Definition set_trim (tasks : list TrimTask) (queue : list (RecordOffset * nat)) (trims : list RecordOffset)
    (p : Pipeline) : Pipeline :=
  mkPipe (pl_store p) (pl_manager p) (pl_wal p) (pl_cache p) (pl_contexts p) (pl_inflight p) (pl_prepare p)
    (pl_uploads p) (pl_commit p) (pl_poisoned p) tasks queue trims.

Definition on_ctx (f : TaskContext → TaskContext) (k : nat) (p : Pipeline) : Pipeline :=
  set_contexts (alter f k (pl_contexts p)) p.

Definition remove_inflight (k : nat) (p : Pipeline) : Pipeline :=
  set_queues (filter (λ i, i ≠ k) (pl_inflight p)) (pl_prepare p) (pl_uploads p) (pl_commit p) p.

(** The index stands for the completion of the new context. *)
Definition submit_block_upload (block : LogCacheBlock) (force : bool) (p : Pipeline) : Pipeline * nat :=
  let k := length (pl_contexts p) in
  let context := mkCtx block (plan config (block_records block)) None None None force in
  let inflight := pl_inflight p ++ [k] in
  let contexts := pl_contexts p ++ [context] in
  let contexts := if force then foldr (alter burst) contexts inflight else contexts in
  (set_queues inflight (pl_prepare p ++ [k]) (pl_uploads p) (pl_commit p) (set_contexts contexts p), k).

(** [upload_delta_wal] under the lock; no index stands for a completed future. *)
Definition archive_and_submit (stream : Z) (force : bool) (p : Pipeline) : option (Pipeline * option nat) :=
  let* (cache, block) := archive_current_block_if_contains stream (pl_cache p) in
  let p := set_cache cache p in
  match block with
  | Some block => let '(p, k) := submit_block_upload block force p in Some (p, Some k)
  | None => Some (p, None)
  end.

(** [handle_append_confirm] under the lock: whether a block was archived and whether
    the record was added. *)
Definition confirm_put (record : StreamRecordBatch) (offset : RecordOffset) (p : Pipeline)
  : option (Pipeline * bool * bool) :=
  let* (cache, added) := put record (pl_cache p) in
  let p := set_cache cache p in
  let* (p, archived, added) :=
    if added : bool then Some (p, false, true)
    else
      let* (p, k) := archive_and_submit MATCH_ALL_STREAMS false p in
      let* (cache, added) := put record (pl_cache p) in
      Some (set_cache cache p, bool_decide (is_Some k), added) in
  Some (set_cache (set_last_record_offset offset (pl_cache p)) p, archived, added).

(** *** Workers *)

(** One turn of [prepare_worker]. *)
Definition prepare_one (p : Pipeline) : option Pipeline :=
  match pl_prepare p with
  | [] => None
  | k :: rest =>
      let* context := pl_contexts p !! k in
      match prepare (tc_task context) (pl_manager p) with
      | (m, Err _) =>
          let p := set_manager m (set_queues (pl_inflight p) rest (pl_uploads p) (pl_commit p) p) in
          Some (remove_inflight k (on_ctx (complete_trim failed ∘ complete_cf failed) k p))
      | (m, Ok task) =>
          let p := set_manager m (set_queues (pl_inflight p) rest (pl_uploads p ++ [k]) (pl_commit p ++ [k]) p) in
          Some (on_ctx (set_task task) k p)
      end
  end.

(** The spawned upload of context [k]. *)
Definition upload_one (now : Z) (k : nat) (p : Pipeline) : option Pipeline :=
  if bool_decide (k ∈ pl_uploads p) then
    let* context := pl_contexts p !! k in
    let* (s, r) := upload now (tc_task context) (pl_store p) in
    let p := set_store s (set_queues (pl_inflight p) (pl_prepare p) (filter (λ i, i ≠ k) (pl_uploads p)) (pl_commit p) p) in
    Some (match r with
          | Ok task => on_ctx (complete_upload (Ok tt) ∘ set_task task) k p
          | Err _ => on_ctx (complete_upload failed) k p
          end)
  else None.

Definition delay_trim (offset : RecordOffset) (k : nat) (p : Pipeline) : Pipeline :=
  if delay_trim_ms =? 0 then set_trim (pl_trim_tasks p ++ [TrimNow offset k]) (pl_trim_queue p) (pl_trims p) p
  else set_trim (pl_trim_tasks p ++ [TrimTimer]) (pl_trim_queue p ++ [(offset, k)]) (pl_trims p) p.

(** The context of a failed, or not tried, commit. *)
Definition drop_context (k : nat) (p : Pipeline) : Pipeline :=
  remove_inflight k (on_ctx (complete_trim failed ∘ complete_cf failed) k p).

(** One turn of [commit_worker]. *)
Definition commit_one (now : Z) (p : Pipeline) : option Pipeline :=
  match pl_commit p with
  | [] => None
  | k :: rest =>
      let* context := pl_contexts p !! k in
      let p := set_queues (pl_inflight p) (pl_prepare p) (pl_uploads p) rest p in
      if pl_poisoned p then Some (drop_context k p)
      else
        let* uploaded := tc_upload_done context in
        match uploaded with
        | Err _ => Some (poison (drop_context k p))
        | Ok _ =>
            let* (m, r) := commit now (tc_task context) (pl_manager p) in
            let p := set_manager m p in
            match r with
            | Err _ => Some (poison (drop_context k p))
            | Ok _ =>
                let p := match lb_last_record_offset (tc_cache context) with
                         | Some offset => delay_trim offset k p
                         | None => on_ctx (complete_trim (Ok tt)) k p
                         end in
                let p := set_cache (mark_free (lb_block_id (tc_cache context)) (pl_cache p)) p in
                Some (remove_inflight k (on_ctx (complete_cf (Ok tt)) k p))
            end
        end
  end.

(** *** Trims *)

Definition trim_now (offset : RecordOffset) (k : nat) (p : Pipeline) : Pipeline :=
  let '(w, r) := wal_trim (pl_wal p) offset in
  on_ctx (complete_trim (outcome r)) k
    (set_wal w (set_trim (pl_trim_tasks p) (pl_trim_queue p) (pl_trims p ++ [offset]) p)).

(** One spawned trim task runs. *)
Definition run_trim (i : nat) (p : Pipeline) : option Pipeline :=
  let* task := pl_trim_tasks p !! i in
  let p := set_trim (delete i (pl_trim_tasks p)) (pl_trim_queue p) (pl_trims p) p in
  match task with
  | TrimNow offset k => Some (trim_now offset k p)
  | TrimTimer =>
      match pl_trim_queue p with
      | [] => Some p
      | (offset, k) :: rest => Some (trim_now offset k (set_trim (pl_trim_tasks p) rest (pl_trims p) p))
      end
  end.

(** The first half of [delay_trim_close]; it then waits for the spawned trims. *)
Definition flush_trims (p : Pipeline) : Pipeline :=
  foldl (λ p q, trim_now q.1 q.2 p) (set_trim (pl_trim_tasks p) [] (pl_trims p) p) (pl_trim_queue p).

(** ** Admission, forced and lazy uploads *)

Record WalWriteRequest : Type := mkReq { rq_record : StreamRecordBatch; rq_ack : nat }.

(** [ad_submitted] is what the log accepted, [ad_durable] the acknowledgements that
    wait for durability, [ad_acks] those given. *)
Record Admission : Type := mkAdm {
  ad_backoff : list WalWriteRequest;
  ad_submitted : list StreamRecordBatch;
  ad_durable : list nat;
  ad_acks : list (nat * result StreamError unit);
}.

(** A forced upload waits for the tick, then for a completion. *)
Inductive ForceTask : Type :=
| ForceTick
| ForceWait (k : option nat).

Record ForceUploads : Type := mkForce {
  fu_scheduled : bool;
  fu_need : bool;
  fu_tasks : list ForceTask;
}.

Record LazyCommit : Type := { lz_linger_ms : Z; lz_await_trim : bool }.
Record LazyCommitState : Type := mkLazy { lz_commit_cf : Completion; lz_trim_cf : Completion }.

(** The task spawned by a notification: whom to complete, what to wait for, and
    whether the commits are through. *)
Record Notifier : Type := mkNotifier {
  nt_tasks : list nat;
  nt_inflight : list nat;
  nt_committed : bool;
}.

Record LazyUploads : Type := mkLU {
  lu_states : list LazyCommitState;
  lu_queue : list nat;
  lu_timers : list (nat * LazyCommit);
  lu_notifiers : list Notifier;
}.

Record StorageInner : Type := mkStorage {
  si_pipe : Pipeline;
  si_snapshot_log_cache : LogCache;
  si_admission : Admission;
  si_force : ForceUploads;
  si_lazy : LazyUploads;
  si_shutdown : bool;
}.

Definition set_pipe (p : Pipeline) (st : StorageInner) : StorageInner :=
  mkStorage p (si_snapshot_log_cache st) (si_admission st) (si_force st) (si_lazy st) (si_shutdown st).
Definition set_admission (a : Admission) (st : StorageInner) : StorageInner :=
  mkStorage (si_pipe st) (si_snapshot_log_cache st) a (si_force st) (si_lazy st) (si_shutdown st).
Definition set_force (f : ForceUploads) (st : StorageInner) : StorageInner :=
  mkStorage (si_pipe st) (si_snapshot_log_cache st) (si_admission st) f (si_lazy st) (si_shutdown st).
Definition set_lazy (l : LazyUploads) (st : StorageInner) : StorageInner :=
  mkStorage (si_pipe st) (si_snapshot_log_cache st) (si_admission st) (si_force st) l (si_shutdown st).

Definition notify_lazy_upload (st : StorageInner) : StorageInner :=
  let l := si_lazy st in
  if decide (lu_queue l = []) then st
  else set_lazy (mkLU (lu_states l) [] (lu_timers l)
                   (lu_notifiers l ++ [mkNotifier (lu_queue l) (pl_inflight (si_pipe st)) false])) st.

Definition cf_of (p : Pipeline) (k : nat) : Completion := pl_contexts p !! k ≫= tc_cf.
Definition trim_cf_of (p : Pipeline) (k : nat) : Completion := pl_contexts p !! k ≫= tc_trim_cf.

(** A turn of the task spawned by [notify_lazy_upload]. *)
Definition run_notifier (i : nat) (st : StorageInner) : option StorageInner :=
  let l := si_lazy st in
  let* n := lu_notifiers l !! i in
  if nt_committed n then
    let* r := wait_all (trim_cf_of (si_pipe st) <$> nt_inflight n) in
    let done s := mkLazy (lz_commit_cf s) (complete r (lz_trim_cf s)) in
    Some (set_lazy (mkLU (foldr (alter done) (lu_states l) (nt_tasks n)) (lu_queue l) (lu_timers l)
                      (delete i (lu_notifiers l))) st)
  else
    let* r := wait_all (cf_of (si_pipe st) <$> nt_inflight n) in
    let done s := mkLazy (complete r (lz_commit_cf s)) (lz_trim_cf s) in
    Some (set_lazy (mkLU (foldr (alter done) (lu_states l) (nt_tasks n)) (lu_queue l) (lu_timers l)
                      (<[i := mkNotifier (nt_tasks n) (nt_inflight n) true]> (lu_notifiers l))) st).

Definition upload_delta_wal (stream : Z) (force : bool) (st : StorageInner) : option (StorageInner * option nat) :=
  let* (p, k) := archive_and_submit stream force (si_pipe st) in
  Some (notify_lazy_upload (set_pipe p st), k).

Definition handle_append_confirm (record : StreamRecordBatch) (offset : RecordOffset) (st : StorageInner)
  : option StorageInner :=
  let* (p, archived, added) := confirm_put record offset (si_pipe st) in
  let st := set_pipe p st in
  let st := if archived : bool then notify_lazy_upload st else st in
  if added : bool then Some st else fst <$> upload_delta_wal MATCH_ALL_STREAMS false st.

Definition force_upload_all (st : StorageInner) : StorageInner :=
  let f := si_force st in set_force (mkForce (fu_scheduled f) (fu_need f) (fu_tasks f ++ [ForceTick])) st.

Definition maybe_force_upload (st : StorageInner) : StorageInner :=
  let f := si_force st in
  let need := set_force (mkForce (fu_scheduled f) true (fu_tasks f)) st in
  if existsb (λ k, default false (tc_force <$> pl_contexts (si_pipe st) !! k)) (pl_inflight (si_pipe st)) then need
  else if negb (fu_scheduled f) then force_upload_all (set_force (mkForce true (fu_need f) (fu_tasks f)) st)
  else need.

(** A turn of a task spawned by [force_upload_all]. *)
Definition run_force (i : nat) (st : StorageInner) : option StorageInner :=
  let* task := fu_tasks (si_force st) !! i in
  match task with
  | ForceTick =>
      let* (st, k) := upload_delta_wal MATCH_ALL_STREAMS true st in
      let f := si_force st in
      Some (set_force (mkForce (fu_scheduled f) (fu_need f) (<[i := ForceWait k]> (fu_tasks f))) st)
  | ForceWait k =>
      let* _ := match k with Some k => cf_of (si_pipe st) k | None => Some (Ok tt) end in
      let f := si_force st in
      let st := set_force (mkForce false false (delete i (fu_tasks f))) st in
      Some (if fu_need f then force_upload_all st else st)
  end.

(** The pushed state and its timer; the caller waits on the state. *)
Definition lazy_upload (lazy : LazyCommit) (st : StorageInner) : StorageInner * nat :=
  let l := si_lazy st in
  let k := length (lu_states l) in
  (set_lazy (mkLU (lu_states l ++ [mkLazy None None]) (lu_queue l ++ [k]) (lu_timers l ++ [(k, lazy)])
               (lu_notifiers l)) st, k).

(** The linger of timer [i] is over. *)
Definition run_lazy_timer (i : nat) (st : StorageInner) : option StorageInner :=
  let l := si_lazy st in
  let* (k, lazy) := lu_timers l !! i in
  let st := set_lazy (mkLU (lu_states l) (lu_queue l) (delete i (lu_timers l)) (lu_notifiers l)) st in
  if bool_decide (k ∈ lu_queue l) then
    if lz_linger_ms lazy =? 0 then Some (force_upload_all st)
    else fst <$> upload_delta_wal MATCH_ALL_STREAMS false st
  else Some st.

(** [force_upload] after its tick: the completions it then waits for, in order. *)
Definition force_upload (stream : Z) (st : StorageInner) : option (StorageInner * list nat) :=
  let* (st, _) := upload_delta_wal stream true st in
  let p := si_pipe st in
  Some (st, filter (λ k, default false (contains_stream stream ∘ tc_cache <$> pl_contexts p !! k) = true)
              (pl_inflight p)).
Definition force_upload_result (waits : list nat) (st : StorageInner) : option (result StreamError unit) :=
  wait (wait_all (cf_of (si_pipe st) <$> waits)).

(** *** append *)

Definition try_acquire_permit (st : StorageInner) : bool :=
  lc_size (pl_cache (si_pipe st)) <? lc_capacity (pl_cache (si_pipe st)).

Definition push_backoff (r : WalWriteRequest) (st : StorageInner) : StorageInner :=
  let a := si_admission st in
  set_admission (mkAdm (ad_backoff a ++ [r]) (ad_submitted a) (ad_durable a) (ad_acks a)) st.

Definition spawn_durable_ack (r : WalWriteRequest) (st : StorageInner) : StorageInner :=
  let a := si_admission st in
  set_admission (mkAdm (ad_backoff a) (ad_submitted a ++ [rq_record r]) (ad_durable a ++ [rq_ack r]) (ad_acks a)) st.

Definition fail_request (ack : nat) (e : WalError) (st : StorageInner) : StorageInner :=
  let a := si_admission st in
  set_admission (mkAdm (ad_backoff a) (ad_submitted a) (ad_durable a) (ad_acks a ++ [(ack, Err (SE_Wal e))])) st.

Definition is_over_capacity (r : result WalError unit) : bool :=
  match r with Err (WE_OverCapacity _ _) => true | _ => false end.

(** What the log's answer does to a request that left the queue. *)
Definition submitted (r : WalWriteRequest) (res : result WalError unit) (st : StorageInner) : StorageInner :=
  match res with
  | Ok _ => spawn_durable_ack r st
  | Err e => fail_request (rq_ack r) e st
  end.

Definition append0 (r : WalWriteRequest) (st : StorageInner) : StorageInner * bool :=
  if negb (bool_decide (ad_backoff (si_admission st) = [])) then (push_backoff r st, true)
  else if negb (try_acquire_permit st) then (push_backoff r st, true)
  else
    let '(w, res) := wal_submit (pl_wal (si_pipe st)) (rq_record r) in
    let st := set_pipe (set_wal w (si_pipe st)) st in
    if is_over_capacity res then (push_backoff r (maybe_force_upload st), true)
    else (submitted r res st, false).

(** One round of [try_drain_backoff_records], and whether the loop goes on. *)
Definition drain_one (st : StorageInner) : StorageInner * bool :=
  match ad_backoff (si_admission st) with
  | [] => (st, false)
  | r :: rest =>
      if negb (try_acquire_permit st) then (st, false)
      else
        let '(w, res) := wal_submit (pl_wal (si_pipe st)) (rq_record r) in
        let st := set_pipe (set_wal w (si_pipe st)) st in
        if is_over_capacity res then (maybe_force_upload st, false)
        else
          let a := si_admission st in
          (submitted r res (set_admission (mkAdm rest (ad_submitted a) (ad_durable a) (ad_acks a)) st), true)
  end.

(** Every round but the last takes a request off the queue. *)
Fixpoint drain_loop (fuel : nat) (st : StorageInner) : StorageInner :=
  match fuel with
  | O => st
  | Datatypes.S fuel' => let '(st, again) := drain_one st in if again : bool then drain_loop fuel' st else st
  end.
Definition try_drain_backoff_records (st : StorageInner) : StorageInner :=
  drain_loop (length (ad_backoff (si_admission st))) st.

(** The durable future of ticket [ack] resolves. *)
Definition durable_ack (ack : nat) (res : result WalError unit) (st : StorageInner) : option StorageInner :=
  let a := si_admission st in
  if bool_decide (ack ∈ ad_durable a) then
    Some (set_admission (mkAdm (ad_backoff a) (ad_submitted a) (filter (λ t, t ≠ ack) (ad_durable a))
                           (ad_acks a ++ [(ack, map_err SE_Wal res)])) st)
  else None.

(** The requests in the queue fail and the queued trims run. *)
Definition shutdown (st : StorageInner) : StorageInner :=
  let a := si_admission st in
  let dropped := (λ r, (rq_ack r, Err SE_Unexpected)) <$> ad_backoff a in
  mkStorage (flush_trims (si_pipe st)) (si_snapshot_log_cache st)
    (mkAdm [] (ad_submitted a) (ad_durable a) (ad_acks a ++ dropped)) (si_force st) (si_lazy st) true.

(** Once the spawned trims are through, the log is shut down. *)
Definition finish_shutdown (st : StorageInner) : option StorageInner :=
  if si_shutdown st && bool_decide (pl_trim_tasks (si_pipe st) = [])
  then Some (set_pipe (set_wal (wal_shutdown_gracefully (pl_wal (si_pipe st))) (si_pipe st)) st)
  else None.

(** [S3Storage::new]: the cache sizes, with the upload threshold clamped to two fifths
    of the delta-WAL cache. *)
Definition delta_wal_cache_size : Z :=
  if cfg_snapshot_read_enable config then Z.max (cfg_wal_cache_size config / 3) (10 * 1024 * 1024)
  else cfg_wal_cache_size config.
Definition snapshot_read_cache_size : Z :=
  if cfg_snapshot_read_enable config then Z.max (u64 (cfg_wal_cache_size config / 3 * 2)) (10 * 1024 * 1024) else 0.
Definition clamped_threshold : Z := Z.min (u64 (delta_wal_cache_size * 2) / 5) (cfg_wal_upload_threshold config).

Definition storage_new (s : S) (m : M) (w : W) : StorageInner :=
  let log_cache := log_cache_new delta_wal_cache_size (Z.max clamped_threshold 1)
                     (cfg_max_stream_num_per_stream_set_object config) 0 in
  let snapshot_log_cache := log_cache_new snapshot_read_cache_size (Z.max (snapshot_read_cache_size / 6) 1)
                              DEFAULT_MAX_BLOCK_STREAM_COUNT 0 in
  mkStorage (mkPipe s m w log_cache [] [] [] [] [] false [] [] []) snapshot_log_cache
    (mkAdm [] [] [] []) (mkForce false false []) (mkLU [] [] [] []) false.
End Storage.

Definition delay_trim_of (config : S3StorageConfig) : Z := if cfg_snapshot_read_enable config then 30000 else 0.

(** ** Reads *)

Inductive CacheAccessType : Type := DeltaWalCacheHit | BlockCacheHit | BlockCacheMiss.
Record FetchContext : Type := { fc_snapshot_read : bool; fc_fast_read : bool }.
Record ReadDataBlock : Type := mkRead { rd_records : list StreamRecordBatch; rd_cache_access : CacheAccessType }.

Fixpoint continuous_from (expected : Z) (records : list StreamRecordBatch) : result StreamError unit :=
  match records with
  | [] => Ok tt
  | r :: rest => if base_offset r =? expected then continuous_from (last_offset r) rest else Err SE_Unexpected
  end.
Definition continuous_check (records : list StreamRecordBatch) : result StreamError unit :=
  match records with [] => Ok tt | r :: rest => continuous_from (last_offset r) rest end.

(** The cached records after the block cache's, while bytes are left. *)
Fixpoint stitch (remaining : Z) (records : list StreamRecordBatch) : list StreamRecordBatch :=
  match records with
  | [] => []
  | r :: rest => if remaining =? 0 then [] else r :: stitch (sat_sub remaining (size r)) rest
  end.

(** [block_cache_read] is the block cache, [None] a panic of the log cache. *)
Definition read0 (block_cache_read : Z → Z → Z → Z → result StreamError ReadDataBlock)
    (context : FetchContext) (stream start_offset end_offset max_bytes : Z) (log_cache snapshot_log_cache : LogCache)
  : option (LogCache * LogCache * result StreamError ReadDataBlock) :=
  let* (caches, records) :=
    if fc_snapshot_read context then
      let* (c, records) := get stream start_offset end_offset max_bytes snapshot_log_cache in
      Some ((log_cache, c), records)
    else
      let* (c, records) := get stream start_offset end_offset max_bytes log_cache in
      Some ((c, snapshot_log_cache), records) in
  let hit := match records with r :: _ => base_offset r <=? start_offset | [] => false end in
  Some (caches,
    if hit then Ok (mkRead records DeltaWalCacheHit)
    else if fc_fast_read context then Err SE_FastReadFailFast
    else
      let cache_end_offset := match records with r :: _ => base_offset r | [] => end_offset end in
      let? block := block_cache_read stream start_offset cache_end_offset max_bytes in
      let remaining := sat_sub max_bytes (u64 (total_size (rd_records block))) in
      let records := rd_records block ++ stitch remaining records in
      let? _ := continuous_check records in
      Ok (mkRead records (rd_cache_access block))).
