(* ===== verification/StorageSafety.v ===== *)
(** * Safety of the upload pipeline

    The storage as a transition system over the critical sections of [Storage.v], the
    invariant of its queues, and what it gives: the log is only trimmed past records
    whose block was committed, commits happen in seal order, and no confirmed record
    is lost on the way. *)
From S2P Require Import Prelude Collections Codec ObjectStore WalFormat ObjectFormat ObjectIO WalWriter WalWriterInv WalRecover LogCache LogCacheProofs Metadata StorageRecovery Upload Storage.

(** ** The active block *)

Definition active (c : LogCache) : option LogCacheBlock := last (lc_blocks c).

(** What the pipeline needs to know about a cache besides its active block. *)
Definition same_config (c c' : LogCache) : Prop :=
  lc_block_max_size c' = lc_block_max_size c ∧ lc_max_stream_count c' = lc_max_stream_count c.

Lemma try_real_free_active c b :
  active c = Some b → lb_free b = false →
  let c' := (try_real_free c).1 in
  active c' = Some b ∧ same_config c c' ∧ lc_next_id c' = lc_next_id c
  ∧ lc_last_record_offset c' = lc_last_record_offset c.
Proof.
  unfold active. intros Ha Hf. destruct (try_real_free_spec c) as (removed & E & _ & Hr & _).
  assert (last (lc_blocks (try_real_free c).1) = Some b) as Hl.
  { rewrite E in Ha. destruct (lc_blocks (try_real_free c).1) as [|x xs]; [|by rewrite last_app_cons in Ha].
    rewrite app_nil_r in Ha. apply last_Some_elem_of in Ha. rewrite Forall_forall in Hr.
    specialize (Hr b Ha). cbn in Hr. congruence. }
  cbv zeta. split; [done|]. unfold try_real_free. destruct (negb _); [done|].
  by destruct (real_free _ _ _) as [[? ?] ?].
Qed.

Lemma put_active r c b :
  active c = Some b → lb_free b = false →
  ∃ c', put r c = Some (c', (block_put r b).2) ∧ active c' = Some (block_put r b).1
    ∧ same_config c c' ∧ lc_next_id c' = lc_next_id c ∧ lc_last_record_offset c' = lc_last_record_offset c.
Proof.
  intros Ha Hf. destruct (try_real_free_active c b Ha Hf) as (Ha' & Hc & Hn & Hl). unfold put.
  destruct (try_real_free c) as [c1 removed]. cbn [fst] in *. unfold active in Ha'.
  apply last_Some in Ha' as [l El]. rewrite El, on_active_snoc.
  destruct (block_put r b) as [b' added]. cbn [fst snd].
  eexists. split; [reflexivity|]. unfold active. destruct added; cbn; rewrite last_snoc; by split_and!.
Qed.

Definition sealed_with (o : option RecordOffset) (b : LogCacheBlock) : LogCacheBlock :=
  match o with Some o => block_set_last_record_offset o b | None => b end.

Lemma archive_active c b :
  active c = Some b →
  ∃ c', archive_current_block c = Some (c', sealed_with (lc_last_record_offset c) b)
    ∧ active c' = Some (block_new (lc_next_id c) (lc_block_max_size c) (lc_max_stream_count c))
    ∧ same_config c c' ∧ lc_next_id c' = lc_next_id c + 1
    ∧ lc_last_record_offset c' = lc_last_record_offset c.
Proof.
  intros Ha. unfold active in Ha. apply last_Some in Ha as [l El]. unfold archive_current_block.
  rewrite El, on_active_snoc. eexists. split; [reflexivity|]. unfold active. cbn. by rewrite last_snoc.
Qed.

Lemma merge_loop_active fuel i c b :
  active c = Some b → lb_free b = false →
  let c' := merge_loop fuel i c in
  active c' = Some b ∧ same_config c c' ∧ lc_next_id c ≤ lc_next_id c'
  ∧ lc_last_record_offset c' = lc_last_record_offset c.
Proof.
  intros Ha Hf. revert i c Ha. induction fuel as [|fuel IH]; intros i c Ha; cbn [merge_loop]; [by split_and!|].
  destruct (_ || _); [by split_and!|].
  destruct (lc_blocks c !! i) as [l|] eqn:El; [|by split_and!].
  destruct (lc_blocks c !! S i) as [r|] eqn:Er; [|by split_and!].
  destruct (negb (lb_free l) || negb (lb_free r)) eqn:Ef; [by split_and!|].
  destruct (_ <=? _); [by apply IH|]. destruct (is_discontinuous l r); [by apply IH|].
  apply orb_false_iff in Ef as [_ Hr%negb_false_iff].
  set (c1 := mkLC _ _ _ _ _ _ _). destruct (IH i c1) as (H1 & [H2 H3] & H4 & H5).
  - unfold active in *. cbn. rewrite (two_middle _ _ _ _ El Er) in Ha. rewrite last_app_cons in Ha |- *.
    destruct (drop (S (S i)) (lc_blocks c)) as [|x xs]; cbn in Ha |- *; [congruence|done].
  - cbn in H2, H3, H4, H5. split; [done|]. split; [by split|]. split; [lia|done].
Qed.

Lemma mark_free_active id c b :
  active c = Some b → lb_free b = false → lb_block_id b ≠ id →
  let c' := mark_free id c in
  active c' = Some b ∧ same_config c c' ∧ lc_next_id c ≤ lc_next_id c'
  ∧ lc_last_record_offset c' = lc_last_record_offset c.
Proof.
  intros Ha Hf Hid. unfold mark_free. set (c1 := set_blocks _ c).
  assert (active c1 = Some b) as Ha1.
  { unfold active in *. cbn. rewrite fmap_last, Ha. cbn. by rewrite (proj2 (Z.eqb_neq _ _) Hid). }
  destruct (try_real_free_active c1 b Ha1 Hf) as (Ha2 & [? ?] & Hn & Hl).
  destruct (merge_loop_active (length (lc_blocks (try_real_free c1).1)) 0 _ b Ha2 Hf) as (? & [? ?] & ? & ?).
  cbv zeta. unfold try_merge. split; [done|]. split; [split; [by etrans|by etrans]|]. split; [|by etrans].
  change (lc_next_id c) with (lc_next_id c1). lia.
Qed.

(** *** Reads only move position hints *)

Lemma search_start_index_same off c : sc_same c (search_start_index off c).1.
Proof. unfold search_start_index. by destruct (sc_offset_index_map c !! off) as [[? ?]|]. Qed.

Lemma sc_get_same off end_ m c : sc_same c (sc_get off end_ m c).1.
Proof.
  unfold sc_get. destruct (sc_start_offset c) eqn:Es; [|done]. destruct (sc_end_offset c) eqn:Ee; [|done].
  destruct (_ || _); [done|]. pose proof (search_start_index_same off c) as H.
  destruct (search_start_index off c) as [c1 [i|]]; [|done]. cbn in H.
  repeat case_match; cbn; done.
Qed.

Lemma block_get_same st off end_ m b : block_same b (block_get st off end_ m b).1.
Proof.
  unfold block_get. destruct (lb_map b !! st) as [c|] eqn:E; [|apply block_same_refl].
  pose proof (sc_get_same off end_ m c) as H. destruct (sc_get off end_ m c) as [c' rs]. cbn in H |- *.
  split; [|done]. intros st'. cbn. destruct (decide (st = st')) as [<-|Hne].
  - rewrite E, lookup_insert_eq. by constructor.
  - rewrite lookup_insert_ne by done. destruct (lb_map b !! st'); by constructor.
Qed.

Lemma get_pass_same st off end_ m bs : Forall2 block_same bs (get_pass st off end_ m bs).1.1.
Proof.
  revert off m; induction bs as [|b bs IH]; intros off m; cbn [get_pass]; [done|].
  pose proof (block_get_same st off end_ m b) as Hb. destruct (block_get st off end_ m b) as [b' rs]. cbn in Hb.
  destruct (last rs) as [l|].
  - destruct (_ || _).
    + constructor; [done|]. clear. induction bs; constructor; [apply block_same_refl|done].
    + pose proof (IH (last_offset l) (m - Z.min m (u64 (total_size rs)))) as H. destruct (get_pass _ _ _ _ bs) as [[? ?] ?].
      by constructor.
  - pose proof (IH off m) as H. destruct (get_pass _ _ _ _ bs) as [[? ?] ?]. by constructor.
Qed.

Lemma get0_same fuel st off end_ m bs bs' rs :
  get0 fuel st off end_ m bs = Some (bs', rs) → Forall2 block_same bs bs'.
Proof.
  revert off bs; induction fuel as [|fuel IH]; intros off bs; cbn [get0]; [done|].
  pose proof (get_pass_same st off end_ m bs) as H. destruct (get_pass st off end_ m bs) as [[bs1 rs1] f]. cbn in H.
  destruct f; [by intros [= <- <-]|]. destruct (tail_start _ _) as [t|]; [|by intros [= <- <-]].
  destruct (_ <=? _); [by intros [= <- <-]|]. destruct (_ <=? _); [by intros [= <- <-]|].
  intros H2%IH. etrans; done.
Qed.

Lemma get_active st off end_ m c c' rs b :
  get st off end_ m c = Some (c', rs) → active c = Some b →
  ∃ b', active c' = Some b' ∧ block_same b b' ∧ c' = set_blocks (lc_blocks c') c.
Proof.
  unfold get, active. destruct (get0 2 st off end_ m (lc_blocks c)) as [[bs rs']|] eqn:E; [|done].
  cbn. intros [= <- <-] Ha. apply get0_same in E. apply last_Some in Ha as [l El]. rewrite El in E.
  apply Forall2_app_inv_l in E as (l1 & l2 & _ & H2 & ->).
  apply Forall2_cons_inv_l in H2 as (b' & ? & Hb & ->%Forall2_nil_inv_l & ->).
  exists b'. cbn. by rewrite last_snoc.
Qed.

(** ** The storage as a transition system *)

(** The confirmed records with their places in the log, oldest first. *)
Definition History : Type := list (StreamRecordBatch * RecordOffset).

(** What the log hands to the confirm hook: a batch that fits a cache block, after
    everything it handed over before. *)
Definition confirmable (hist : History) (r : StreamRecordBatch) (o : RecordOffset) : Prop :=
  fits_block r ∧ 0 < occupied_size r < 2 ^ 63
  ∧ Forall (λ q, ro_offset q.2 < ro_offset o) hist.

Section Steps.
Context {S M W : Type} `{!ObjectStorage S} `{!ObjectManager M} `{!WriteAheadLog W}.
Context (config : S3StorageConfig) (delay_trim_ms : Z).

Inductive sstep : History * StorageInner (S:=S) (M:=M) (W:=W) → History * StorageInner → Prop :=
| ss_confirm hist st r o st' :
    confirmable hist r o → handle_append_confirm config r o st = Some st' → sstep (hist, st) (hist ++ [(r, o)], st')
| ss_upload_delta hist st stream force st' k :
    upload_delta_wal config stream force st = Some (st', k) → sstep (hist, st) (hist, st')
| ss_force_upload hist st stream st' waits :
    force_upload config stream st = Some (st', waits) → sstep (hist, st) (hist, st')
| ss_prepare hist st p : prepare_one (si_pipe st) = Some p → sstep (hist, st) (hist, set_pipe p st)
| ss_upload hist st now k p : upload_one now k (si_pipe st) = Some p → sstep (hist, st) (hist, set_pipe p st)
| ss_commit hist st now p : commit_one delay_trim_ms now (si_pipe st) = Some p → sstep (hist, st) (hist, set_pipe p st)
| ss_trim hist st i p : run_trim i (si_pipe st) = Some p → sstep (hist, st) (hist, set_pipe p st)
| ss_notifier hist st i st' : run_notifier i st = Some st' → sstep (hist, st) (hist, st')
| ss_force hist st i st' : run_force config i st = Some st' → sstep (hist, st) (hist, st')
| ss_lazy hist st lazy : sstep (hist, st) (hist, (lazy_upload lazy st).1)
| ss_lazy_timer hist st i st' : run_lazy_timer config i st = Some st' → sstep (hist, st) (hist, st')
| ss_append hist st r : sstep (hist, st) (hist, (append0 r st).1)
| ss_drain hist st : sstep (hist, st) (hist, (drain_one st).1)
| ss_durable hist st ack res st' : durable_ack ack res st = Some st' → sstep (hist, st) (hist, st')
| ss_read hist st stream off end_ m c rs :
    get stream off end_ m (pl_cache (si_pipe st)) = Some (c, rs) →
    sstep (hist, st) (hist, set_pipe (set_cache c (si_pipe st)) st)
| ss_shutdown hist st : sstep (hist, st) (hist, shutdown st)
| ss_finish_shutdown hist st st' : finish_shutdown st = Some st' → sstep (hist, st) (hist, st').

(** The same, as far as the pipeline is concerned. *)
Inductive pstep : History * Pipeline (S:=S) (M:=M) (W:=W) → History * Pipeline → Prop :=
| ps_confirm hist p r o p' archived added :
    confirmable hist r o → confirm_put config r o p = Some (p', archived, added) → pstep (hist, p) (hist ++ [(r, o)], p')
| ps_archive hist p stream force p' k :
    archive_and_submit config stream force p = Some (p', k) → pstep (hist, p) (hist, p')
| ps_prepare hist p p' : prepare_one p = Some p' → pstep (hist, p) (hist, p')
| ps_upload hist p now k p' : upload_one now k p = Some p' → pstep (hist, p) (hist, p')
| ps_commit hist p now p' : commit_one delay_trim_ms now p = Some p' → pstep (hist, p) (hist, p')
| ps_trim hist p i p' : run_trim i p = Some p' → pstep (hist, p) (hist, p')
| ps_read hist p stream off end_ m c rs :
    get stream off end_ m (pl_cache p) = Some (c, rs) → pstep (hist, p) (hist, set_cache c p)
| ps_wal hist p w : pstep (hist, p) (hist, set_wal w p)
| ps_flush hist p : pstep (hist, p) (hist, flush_trims p).

Lemma notify_pipe (st : StorageInner (S:=S) (M:=M) (W:=W)) : si_pipe (notify_lazy_upload st) = si_pipe st.
Proof. unfold notify_lazy_upload. by destruct (decide _). Qed.

Lemma maybe_force_pipe (st : StorageInner (S:=S) (M:=M) (W:=W)) : si_pipe (maybe_force_upload st) = si_pipe st.
Proof. unfold maybe_force_upload. destruct (existsb _ _); [done|]. by destruct (negb _). Qed.

Lemma submitted_pipe r res (st : StorageInner (S:=S) (M:=M) (W:=W)) : si_pipe (submitted r res st) = si_pipe st.
Proof. by destruct res. Qed.

Lemma upload_delta_steps hist st stream force st' k :
  upload_delta_wal config stream force st = Some (st', k) → rtc pstep (hist, si_pipe st) (hist, si_pipe st').
Proof.
  unfold upload_delta_wal. destruct (archive_and_submit _ _ _ _) as [[p k']|] eqn:E; [|done]. cbn.
  intros [= <- <-]. rewrite notify_pipe. by eapply rtc_once, ps_archive.
Qed.

Lemma confirm_steps hist st r o st' :
  confirmable hist r o → handle_append_confirm config r o st = Some st' →
  rtc pstep (hist, si_pipe st) (hist ++ [(r, o)], si_pipe st').
Proof.
  intros Hc. unfold handle_append_confirm. destruct (confirm_put _ _ _ _) as [[[p archived] added]|] eqn:E; [|done].
  cbn. set (st1 := if archived then _ else _).
  assert (si_pipe st1 = p) as E1 by (unfold st1; destruct archived; [apply notify_pipe|done]).
  intros H. eapply rtc_l; [by eapply ps_confirm|]. rewrite <- E1.
  destruct added; [injection H as <-; apply rtc_refl|].
  destruct (upload_delta_wal _ _ _ st1) as [[st2 k]|] eqn:Eu; [|done]. injection H as <-.
  by eapply upload_delta_steps.
Qed.

Lemma append_steps hist r (st : StorageInner) : rtc pstep (hist, si_pipe st) (hist, si_pipe (append0 r st).1).
Proof.
  unfold append0. destruct (negb _); [apply rtc_refl|]. destruct (negb _); [apply rtc_refl|].
  destruct (wal_submit _ _) as [w res]. destruct (is_over_capacity res); cbn [fst].
  - unfold push_backoff. cbn. rewrite maybe_force_pipe. apply rtc_once, ps_wal.
  - rewrite submitted_pipe. apply rtc_once, ps_wal.
Qed.

Lemma drain_steps hist (st : StorageInner) : rtc pstep (hist, si_pipe st) (hist, si_pipe (drain_one st).1).
Proof.
  unfold drain_one. destruct (ad_backoff _) as [|r rest]; [apply rtc_refl|]. destruct (negb _); [apply rtc_refl|].
  destruct (wal_submit _ _) as [w res]. destruct (is_over_capacity res); cbn [fst].
  - rewrite maybe_force_pipe. apply rtc_once, ps_wal.
  - rewrite submitted_pipe. apply rtc_once, ps_wal.
Qed.

Lemma sstep_psteps x y : sstep x y → rtc pstep (x.1, si_pipe x.2) (y.1, si_pipe y.2).
Proof.
  destruct 1 as [hist st r o st' Hc H|hist st stream force st' k H|hist st stream st' waits H|hist st p H|hist st now k p H
    |hist st now p H|hist st i p H|hist st i st' H|hist st i st' H|hist st lazy|hist st i st' H|hist st r|hist st
    |hist st ack res st' H|hist st stream off end_ m c rs H|hist st|hist st st' H]; cbn [fst snd].
  - by eapply confirm_steps.
  - by eapply upload_delta_steps.
  - unfold force_upload in H. destruct (upload_delta_wal _ _ _ _) as [[st1 k]|] eqn:E; [|done]. cbn in H.
    injection H as <- <-. by eapply upload_delta_steps.
  - by apply rtc_once, ps_prepare.
  - by eapply rtc_once, ps_upload.
  - by eapply rtc_once, ps_commit.
  - by eapply rtc_once, ps_trim.
  - assert (si_pipe st' = si_pipe st) as ->; [|apply rtc_refl].
    unfold run_notifier in H. destruct (_ !! i); [|done]. cbn in H. destruct (nt_committed _);
      (destruct (wait_all _); [|done]); cbn in H; by injection H as <-.
  - unfold run_force in H. destruct (_ !! i) as [[|k]|]; [..|done]; cbn in H.
    + destruct (upload_delta_wal _ _ _ _) as [[st1 k]|] eqn:E; [|done]. injection H as <-.
      exact (upload_delta_steps hist _ _ _ _ _ E).
    + destruct (match k with Some _ => _ | None => _ end); [|done]. cbn in H. injection H as <-.
      destruct (fu_need _); apply rtc_refl.
  - apply rtc_refl.
  - unfold run_lazy_timer in H. destruct (_ !! i) as [[k lazy]|]; [|done]. cbn in H.
    destruct (bool_decide _); [|injection H as <-; apply rtc_refl].
    destruct (_ =? _); [injection H as <-; apply rtc_refl|].
    destruct (upload_delta_wal _ _ _ _) as [[st1 k']|] eqn:E; [|done]. injection H as <-.
    exact (upload_delta_steps hist _ _ _ _ _ E).
  - apply append_steps.
  - apply drain_steps.
  - unfold durable_ack in H. destruct (bool_decide _); [|done]. injection H as <-. apply rtc_refl.
  - by eapply rtc_once, ps_read.
  - apply rtc_once, ps_flush.
  - unfold finish_shutdown in H. destruct (_ && _); [|done]. injection H as <-. apply rtc_once, ps_wal.
Qed.

Lemma ssteps_psteps x y : rtc sstep x y → rtc pstep (x.1, si_pipe x.2) (y.1, si_pipe y.2).
Proof. induction 1 as [|a b c Hab _ IH]; [done|]. etrans; [by apply sstep_psteps|done]. Qed.
End Steps.

(** ** The invariant *)

(** The block holds the records [l], and no stream without records. *)
Definition holds_records (l : History) (b : LogCacheBlock) : Prop :=
  (∀ st, stream_records st b = of_stream st l.*1) ∧ (∀ st c, lb_map b !! st = Some c → sc_records c ≠ []).

(** An active block that was given [l] since it was new. *)
Record active_ok (max cnt : Z) (l : History) (b : LogCacheBlock) : Prop := {
  ac_records : holds_records l b;
  ac_free : lb_free b = false;
  ac_max : lb_max_size b = max;
  ac_cnt : lb_max_stream_count b = cnt;
  ac_last : lb_last_record_offset b = None;
  ac_size : 0 < lb_size b ∨ (lb_map b = ∅ ∧ lb_overflow b = false ∧ lb_size b = 0);
}.

Lemma active_ok_new max cnt id : active_ok max cnt [] (block_new id max cnt).
Proof.
  constructor; try done. by right.
Qed.

Lemma holds_records_snoc l b b' r o :
  holds_records l b → (∀ st, stream_records st b' = stream_records st b ++ added_to st r true) →
  (∀ st c, lb_map b' !! st = Some c → sc_records c ≠ []) → holds_records (l ++ [(r, o)]) b'.
Proof.
  intros [Hl _] Hb Hne. split; [|done]. intros st. rewrite Hb, Hl, fmap_app, of_stream_app. f_equal.
  unfold added_to, of_stream. cbn [fmap list_fmap andb fst]. rewrite filter_cons, filter_nil.
  destruct (Z.eqb_spec st (stream_id r)); case_decide; congruence.
Qed.

Section Put.
Context (max cnt : Z) (Hmax : 0 < max ≤ 2 ^ 63) (Hcnt : 0 < cnt).

Lemma block_put_ok l b hist r o :
  active_ok max cnt l b → confirmable hist r o →
  let b' := (block_put r b).1 in
  if (block_put r b).2 then active_ok max cnt (l ++ [(r, o)]) b'
  else active_ok max cnt l b' ∧ 0 < lb_size b'.
Proof.
  intros [Hrec Hfree Hm Hc Hlast Hsz] (Hfit & Hocc & _). pose proof (block_put_records r b) as Hput. unfold block_put in *.
  destruct (is_full b) eqn:Ef.
  { split; [by constructor|]. destruct Hsz as [?|(Hmap & Hov & Hs0)]; [done|]. exfalso.
    unfold is_full in Ef. rewrite Hov, Hs0, Hm, Hc, Hmap, map_size_empty in Ef. cbn in Ef. lia. }
  set (c := default stream_cache_new (lb_map b !! stream_id r)) in *.
  destruct (sc_add r c) as [c' added] eqn:Ea. cbv zeta. destruct added; cbn [negb fst snd] in *.
  - constructor; cbn; try done.
    + eapply holds_records_snoc; [done|done|]. cbn. intros st x [[_ <-]|[_ Hx]]%lookup_insert_Some; [|by eapply Hrec].
      unfold sc_add in Ea. destruct (_ <? _); [done|]. injection Ea as <-. cbn. by destruct (sc_records c).
    + left. assert (0 ≤ lb_size b) by (destruct Hsz as [?|(_ & _ & ?)]; lia).
      unfold is_full in Ef. rewrite Hm in Ef. apply orb_false_iff in Ef as [[_ Ef]%orb_false_iff _].
      rewrite u64_small by int_lia. lia.
  - assert (lb_map b !! stream_id r ≠ None) as Hne.
    { intros E. unfold c, sc_add in Ea. rewrite E in Ea. cbn in Ea.
      destruct (I32_MAX <? _) eqn:El; [|done]. unfold fits_block in Hfit. int_lia. }
    assert (0 < lb_size b) as Hpos by (destruct Hsz as [?|(E & _)]; [done|by rewrite E, lookup_empty in Hne]).
    split; [|done]. constructor; cbn; try done; [|by left].
    split; [intros st; rewrite Hput; unfold added_to; cbn; rewrite app_nil_r; apply Hrec|].
    cbn. intros st x [[_ <-]|[_ Hx]]%lookup_insert_Some; [|by eapply Hrec].
    unfold sc_add in Ea. destruct (_ <? _); [|done]. injection Ea as <-. unfold c.
    destruct (lb_map b !! stream_id r) eqn:E; [|done]. by eapply Hrec.
Qed.

(** A new block takes any record the log may confirm. *)
Lemma block_put_new hist r o id :
  confirmable hist r o → (block_put r (block_new id max cnt)).2 = true.
Proof.
  intros (Hfit & _ & _). unfold block_put.
  assert (is_full (block_new id max cnt) = false) as ->.
  { unfold is_full. cbn. rewrite map_size_empty. cbn. lia. }
  cbn. rewrite lookup_empty. cbn. unfold sc_add. cbn.
  rewrite (proj2 (Z.ltb_ge _ _)); [done|]. unfold fits_block in Hfit. int_lia.
Qed.
End Put.

Section Invariant.
Context {S M W : Type} `{!ObjectStorage S} `{!ObjectManager M} `{!WriteAheadLog W}.
Context (config : S3StorageConfig) (delay_trim_ms : Z).
Context (max cnt : Z) (Hmax : 0 < max ≤ 2 ^ 63) (Hcnt : 0 < cnt).
(** The metadata plane hands out object ids. *)
Context (prepares : ∀ (m : M) n, ∃ m' id, mgr_prepare_object m n = (m', Ok id)).

Abbreviation Pipe := (Pipeline (S:=S) (M:=M) (W:=W)).

(** What matters of a context: its block and its completion. *)
Definition ctx_view (c : TaskContext) : LogCacheBlock * Completion := (tc_cache c, tc_cf c).
Definition views (p : Pipe) : list (LogCacheBlock * Completion) := ctx_view <$> pl_contexts p.

(** The history split in the sealed blocks' parts and the active one. *)
Record layout (hist : History) (p : Pipe) (chunks : list History) (tail : History) : Prop := {
  ly_hist : hist = concat chunks ++ tail;
  ly_sorted : StronglySorted (λ a b : StreamRecordBatch * RecordOffset, ro_offset a.2 < ro_offset b.2) hist;
  ly_length : length chunks = length (pl_contexts p);
  ly_block k b cf : views p !! k = Some (b, cf) →
    ∃ ch, chunks !! k = Some ch ∧ holds_records ch b
      ∧ lb_last_record_offset b = snd <$> last (concat (take (Datatypes.S k) chunks));
  ly_active : ∃ a, active (pl_cache p) = Some a ∧ active_ok max cnt tail a ∧ lb_block_id a < lc_next_id (pl_cache p)
    ∧ ∀ k b cf, views p !! k = Some (b, cf) → lb_block_id b < lb_block_id a;
  ly_last : lc_last_record_offset (pl_cache p) = snd <$> last hist;
  ly_max : lc_block_max_size (pl_cache p) = max;
  ly_cnt : lc_max_stream_count (pl_cache p) = cnt;
}.

(** Contexts below [e] are committed, below [i] through, below [j] prepared. *)
Definition cf_at (e i k : nat) : Completion :=
  if decide (k < e)%nat then Some (Ok tt) else if decide (k < i)%nat then Some failed else None.

(** A trim of committed context [k]. *)
Definition trim_of (p : Pipe) (e : nat) (o : RecordOffset) (k : nat) : Prop :=
  (k < e)%nat ∧ ∃ b cf, views p !! k = Some (b, cf) ∧ lb_last_record_offset b = Some o.

Record queues (p : Pipe) (e i j : nat) : Prop := {
  qu_le : (e ≤ i ≤ j)%nat ∧ (j ≤ length (pl_contexts p))%nat;
  qu_inflight : pl_inflight p = seq i (length (pl_contexts p) - i);
  qu_commit : pl_commit p = seq i (j - i);
  qu_prepare : pl_prepare p = seq j (length (pl_contexts p) - j);
  qu_cf k b cf : views p !! k = Some (b, cf) → cf = cf_at e i k;
  qu_poisoned : pl_poisoned p = false → e = i;
  qu_tasks o k : TrimNow o k ∈ pl_trim_tasks p → trim_of p e o k;
  qu_queue o k : (o, k) ∈ pl_trim_queue p → trim_of p e o k;
  qu_trims o : o ∈ pl_trims p → ∃ k, trim_of p e o k;
}.

Definition pipe_ok (hist : History) (p : Pipe) : Prop :=
  ∃ chunks tail e i j, layout hist p chunks tail ∧ queues p e i j.

(** *** Context updates *)

Lemma views_alter f k (p : Pipe) :
  (∀ c, ctx_view (f c) = ctx_view c) → views (on_ctx f k p) = views p.
Proof.
  intros Hf. unfold views, on_ctx. cbn. apply list_eq. intros i. rewrite !list_lookup_fmap.
  destruct (decide (i = k)) as [->|Hne].
  - rewrite list_lookup_alter_eq. destruct (pl_contexts p !! k); cbn; [by rewrite Hf|done].
  - by rewrite list_lookup_alter_ne.
Qed.

Lemma views_burst (contexts : list TaskContext) (ks : list nat) : ctx_view <$> foldr (alter burst) contexts ks = ctx_view <$> contexts.
Proof.
  induction ks as [|k ks IH]; [done|]. cbn. rewrite <- IH. apply list_eq. intros i. rewrite !list_lookup_fmap.
  destruct (decide (i = k)) as [->|Hne].
  - rewrite list_lookup_alter_eq. by destruct (foldr (alter burst) contexts ks !! k).
  - by rewrite list_lookup_alter_ne.
Qed.

Lemma length_burst (contexts : list TaskContext) (ks : list nat) : length (foldr (alter burst) contexts ks) = length contexts.
Proof. induction ks as [|k ks IH]; [done|]. cbn. by rewrite length_alter. Qed.

(** The layout only looks at the contexts' views and the cache. *)
Lemma layout_same hist (p p' : Pipe) chunks tail :
  views p' = views p → pl_cache p' = pl_cache p → layout hist p chunks tail → layout hist p' chunks tail.
Proof.
  intros Ev Ec [? ? Hl Hb Ha ? ? ?]. constructor; rewrite ?Ev, ?Ec; try done.
  rewrite Hl. apply (f_equal length) in Ev. unfold views in Ev. by rewrite !length_fmap in Ev.
Qed.

Lemma queues_same (p p' : Pipe) e i j :
  views p' = views p → pl_inflight p' = pl_inflight p → pl_commit p' = pl_commit p → pl_prepare p' = pl_prepare p →
  pl_poisoned p' = pl_poisoned p →
  (∀ o k, TrimNow o k ∈ pl_trim_tasks p' → trim_of p e o k) →
  (∀ o k, (o, k) ∈ pl_trim_queue p' → trim_of p e o k) →
  (∀ o, o ∈ pl_trims p' → ∃ k, trim_of p e o k) →
  queues p e i j → queues p' e i j.
Proof.
  intros Ev Ei Ec Ep Eo Ht Hq Hr [? ? ? ? ? ? _ _ _].
  assert (length (pl_contexts p') = length (pl_contexts p)) as El.
  { apply (f_equal length) in Ev. unfold views in Ev. by rewrite !length_fmap in Ev. }
  constructor; unfold trim_of; rewrite ?Ev, ?El, ?Ei, ?Ec, ?Ep, ?Eo; done.
Qed.

(** *** Confirming a record *)

Lemma sorted_snoc hist r o :
  StronglySorted (λ a b : StreamRecordBatch * RecordOffset, ro_offset a.2 < ro_offset b.2) hist →
  confirmable hist r o →
  StronglySorted (λ a b : StreamRecordBatch * RecordOffset, ro_offset a.2 < ro_offset b.2) (hist ++ [(r, o)]).
Proof.
  intros Hs (_ & _ & Hb). apply StronglySorted_app. split_and!; [|done|repeat constructor].
  intros x y Hx ->%list_elem_of_singleton. rewrite Forall_forall in Hb. by apply Hb.
Qed.

Lemma put_ok hist (p : Pipe) chunks tail r o c added :
  layout hist p chunks tail → confirmable hist r o → put r (pl_cache p) = Some (c, added) →
  if added then layout (hist ++ [(r, o)]) (set_cache (set_last_record_offset o c) p) chunks (tail ++ [(r, o)])
  else layout hist (set_cache c p) chunks tail ∧ ∃ a, active c = Some a ∧ 0 < lb_size a.
Proof.
  intros [Hh Hs Hlen Hb (a & Ha & Hok & Hid & Hids) Hl Hm Hc] Hcf Hput.
  destruct (put_active r _ a Ha (ac_free _ _ _ _ Hok)) as (c' & E & Ha' & [Em Ec] & En & El).
  rewrite E in Hput. injection Hput as <- <-.
  pose proof (block_put_ok max cnt Hmax Hcnt _ a hist r o Hok Hcf) as Hput.
  assert (lb_block_id (block_put r a).1 = lb_block_id a) as Eid.
  { unfold block_put. destruct (is_full a); [done|]. by destruct (sc_add _ _) as [? []]. }
  destruct (block_put r a).2.
  - constructor; cbn; try done; [by rewrite Hh, app_assoc|by apply sorted_snoc| |by rewrite last_snoc|congruence..].
    exists (block_put r a).1. rewrite Eid. unfold active in *. cbn. rewrite En. by split_and!.
  - destruct Hput as [Hok' Hpos]. split; [|by exists (block_put r a).1].
    constructor; cbn; try done; [|congruence..].
    exists (block_put r a).1. rewrite Eid, En. by split_and!.
Qed.

(** *** Sealing a block *)

Lemma views_submit block force (p : Pipe) :
  views (submit_block_upload config block force p).1 = views p ++ [(block, None)].
Proof.
  unfold submit_block_upload, views. cbn. destruct force; [rewrite views_burst|]; by rewrite fmap_app.
Qed.

Lemma submit_layout hist (p : Pipe) chunks tail c a force :
  layout hist p chunks tail → active (pl_cache p) = Some a →
  archive_current_block (pl_cache p) = Some (c, sealed_with (lc_last_record_offset (pl_cache p)) a) →
  let b := sealed_with (lc_last_record_offset (pl_cache p)) a in
  layout hist (submit_block_upload config b force (set_cache c p)).1 (chunks ++ [tail]) [].
Proof.
  intros [Hh Hs Hlen Hb (a' & Ha & Hok & Hid & Hids) Hl Hm Hc] Ha' Har b.
  rewrite Ha in Ha'. injection Ha' as ->.
  destruct (archive_active _ a Ha) as (c' & E & Hact & [Em Ec] & En & El).
  rewrite E in Har. injection Har as ->. fold b in E.
  assert (∀ p0 : Pipe, pl_cache (submit_block_upload config b force p0).1 = pl_cache p0) as Ecache by done.
  assert (lb_map b = lb_map a ∧ lb_block_id b = lb_block_id a) as [Emap Eid]
    by (unfold b, sealed_with; by destruct (lc_last_record_offset _)).
  constructor; rewrite ?Ecache, ?views_submit; cbn [pl_cache set_cache]; try done.
  - by rewrite concat_app, Hh; cbn; rewrite !app_nil_r.
  - cbn. destruct force; rewrite ?length_burst, !length_app, Hlen; done.
  - intros k b' cf Hk. apply lookup_app_Some in Hk as [Hk|[Hk1 Hk2]].
    + destruct (Hb k b' cf Hk) as (ch & Hch & ? & ?). exists ch.
      pose proof (lookup_lt_Some _ _ _ Hch). rewrite lookup_app_l by done. rewrite take_app_le by lia. by split_and!.
    + apply list_lookup_singleton_Some in Hk2 as [Hk2 [= <- <-]]. unfold views in Hk1, Hk2. cbn in Hk1, Hk2.
      rewrite length_fmap in Hk1, Hk2.
      exists tail. assert (k = length chunks) as -> by lia. rewrite lookup_app_r, Nat.sub_diag by lia. split; [done|].
      split; [split; [intros st; unfold stream_records; rewrite Emap|intros st x; rewrite Emap]; by apply Hok|].
      rewrite take_ge by (rewrite length_app; cbn; lia). rewrite concat_app. cbn. rewrite app_nil_r, <- Hh.
      unfold b, sealed_with. rewrite Hl. destruct (snd <$> last hist); [done|apply Hok].
  - exists (block_new (lc_next_id (pl_cache p)) (lc_block_max_size (pl_cache p)) (lc_max_stream_count (pl_cache p))).
    rewrite Hm, Hc in *. split; [done|]. split; [apply active_ok_new|]. cbn. split; [lia|].
    intros k b' cf Hk. apply lookup_app_Some in Hk as [Hk|[_ Hk]].
    + specialize (Hids _ _ _ Hk). lia.
    + apply list_lookup_singleton_Some in Hk as [_ [= <- <-]]. lia.
  - congruence.
  - congruence.
  - congruence.
Qed.

Lemma submit_queues block force (p : Pipe) c e i j :
  queues p e i j → queues (submit_block_upload config block force (set_cache c p)).1 e i j.
Proof.
  intros [[? ?] Hi Hcm Hp Hcf Hpo Ht Hq Htr].
  assert (length (pl_contexts (submit_block_upload config block force (set_cache c p)).1)
          = Datatypes.S (length (pl_contexts p))) as El.
  { cbn. destruct force; rewrite ?length_burst, length_app; cbn; lia. }
  assert (∀ o k, trim_of p e o k → trim_of (submit_block_upload config block force (set_cache c p)).1 e o k) as Htrim.
  { intros o k [? (b & cf & Hb & ?)]. split; [done|]. exists b, cf. rewrite views_submit. split; [|done].
    by apply lookup_app_l_Some. }
  constructor; rewrite ?El; try done.
  - lia.
  - cbn. rewrite Hi. replace (Datatypes.S (length (pl_contexts p)) - i)%nat with (length (pl_contexts p) - i + 1)%nat by lia.
    rewrite seq_app. cbn. do 2 f_equal. lia.
  - cbn. rewrite Hp. replace (Datatypes.S (length (pl_contexts p)) - j)%nat with (length (pl_contexts p) - j + 1)%nat by lia.
    rewrite seq_app. cbn. do 2 f_equal. lia.
  - intros k b cf Hk. rewrite views_submit in Hk. apply lookup_app_Some in Hk as [Hk|[Hk1 Hk2]]; [by eapply Hcf|].
    apply list_lookup_singleton_Some in Hk2 as [_ [= <- <-]]. unfold views in Hk1. cbn in Hk1.
    rewrite length_fmap in Hk1. unfold cf_at. rewrite !decide_False by lia. done.
  - intros o k Hk. by apply Htrim, Ht.
  - intros o k Hk. by apply Htrim, Hq.
  - intros o Ho. destruct (Htr o Ho) as [k ?]. exists k. by apply Htrim.
Qed.

(** Either nothing was to be sealed, or the active block became a new context and an
    empty block took its place. *)
Lemma archive_cases hist (p p' : Pipe) chunks tail stream force k :
  layout hist p chunks tail → archive_and_submit config stream force p = Some (p', k) →
  (k = None ∧ p' = p ∧ ∃ a, active (pl_cache p) = Some a
     ∧ (if stream =? MATCH_ALL_STREAMS then 0 <? lb_size a else contains_stream stream a) = false)
  ∨ (is_Some k ∧ layout hist p' (chunks ++ [tail]) [] ∧ ∀ e i j, queues p e i j → queues p' e i j).
Proof.
  intros Hl. pose proof Hl as [_ _ _ _ (a & Ha & _) _ _ _].
  unfold archive_and_submit, archive_current_block_if_contains. unfold active in Ha. rewrite Ha. cbn [mbind option_bind].
  destruct (if stream =? MATCH_ALL_STREAMS then _ else _) eqn:Es.
  - destruct (archive_active _ a Ha) as (c & E & _). rewrite E. cbn [mbind option_bind].
    intros H. right. destruct (submit_block_upload config _ force (set_cache c p)) as [p1 k1] eqn:Esub.
    injection H as <- <-. apply (f_equal fst) in Esub. cbn in Esub. subst p1. split; [done|]. split.
    + by apply submit_layout.
    + intros e i j. apply submit_queues.
  - intros H. left. injection H as <- <-. split; [done|]. split; [by destruct p|]. by exists a.
Qed.

Lemma set_cache_queues (p : Pipe) c e i j : queues p e i j → queues (set_cache c p) e i j.
Proof. intros Hq. by apply (queues_same p); try apply Hq. Qed.

Lemma confirm_ok hist (p p' : Pipe) r o archived added :
  pipe_ok hist p → confirmable hist r o → confirm_put config r o p = Some (p', archived, added) →
  pipe_ok (hist ++ [(r, o)]) p' ∧ added = true.
Proof.
  intros (chunks & tail & e & i & j & Hl & Hq) Hcf. unfold confirm_put.
  destruct (put r (pl_cache p)) as [[c added1]|] eqn:Ep; [|done]. cbn [mbind option_bind].
  pose proof (put_ok _ _ _ _ _ _ _ _ Hl Hcf Ep) as Hp. destruct added1.
  { intros [= <- <- <-]. split; [|done]. exists chunks, (tail ++ [(r, o)]), e, i, j.
    split; [done|]. by do 2 apply set_cache_queues. }
  destruct Hp as [Hl1 (a & Ha & Hpos)].
  destruct (archive_and_submit config MATCH_ALL_STREAMS false (set_cache c p)) as [[p2 k]|] eqn:Ea; [|done].
  cbn [mbind option_bind].
  destruct (archive_cases _ _ _ _ _ _ _ _ Hl1 Ea) as [(_ & _ & a' & Ha' & Hz)|(_ & Hl2 & Hq2)].
  { exfalso. cbn [pl_cache set_cache] in Ha'. rewrite Ha in Ha'. injection Ha' as <-. rewrite Z.eqb_refl in Hz. lia. }
  destruct (put r (pl_cache p2)) as [[c2 added2]|] eqn:Ep2; [|done]. cbn [mbind option_bind].
  intros [= <- <- <-]. pose proof (put_ok _ _ _ _ _ _ _ _ Hl2 Hcf Ep2) as Hp2.
  assert (added2 = true) as ->.
  { pose proof Hl2 as [_ _ _ _ (a2 & Ha2 & Hok2 & _) _ _ _].
    destruct (put_active r _ a2 Ha2 (ac_free _ _ _ _ Hok2)) as (c' & E & _). rewrite E in Ep2. injection Ep2 as _ <-.
    pose proof Ea as Ea'. unfold archive_and_submit, archive_current_block_if_contains in Ea'.
    unfold active in Ha. cbn [pl_cache set_cache] in Ea'. rewrite Ha in Ea'. cbn [mbind option_bind] in Ea'.
    change (MATCH_ALL_STREAMS =? MATCH_ALL_STREAMS) with true in Ea'. cbv iota in Ea'.
    rewrite (proj2 (Z.ltb_lt 0 (lb_size a)) Hpos) in Ea'.
    destruct (archive_active c a Ha) as (c3 & E3 & Hact & _). rewrite E3 in Ea'. cbn in Ea'. injection Ea' as <- _.
    cbn in Ha2. rewrite Hact in Ha2. injection Ha2 as <-.
    pose proof (ly_max _ _ _ _ Hl1) as Em. pose proof (ly_cnt _ _ _ _ Hl1) as Ec. cbn in Em, Ec. rewrite Em, Ec.
    by eapply block_put_new. }
  split; [|done]. exists (chunks ++ [tail]), ([] ++ [(r, o)]), e, i, j. split; [done|].
  do 2 apply set_cache_queues. apply (set_cache_queues _ c) in Hq. eauto.
Qed.

(** *** Prepare, upload, read *)

Lemma prepare_ok hist (p p' : Pipe) : pipe_ok hist p → prepare_one p = Some p' → pipe_ok hist p'.
Proof.
  intros (chunks & tail & e & i & j & Hl & Hq). unfold prepare_one.
  destruct (pl_prepare p) as [|k rest] eqn:Ep; [done|].
  destruct (pl_contexts p !! k) as [ctx|] eqn:Ek; [|done]. cbn [mbind option_bind].
  unfold prepare. destruct (prepares (pl_manager p) (object_count (tc_task ctx))) as (m & id & ->).
  intros [= <-]. set (p1 := set_manager _ _). set (task := mkTask _ _ _ _ _ _).
  assert (views (on_ctx (set_task task) k p1) = views p) as Ev by (by apply (views_alter _ _ p1)).
  pose proof Hq as [[? ?] Hi Hc Hpr Hcf Hpo Ht Hqq Htr]. rewrite Ep in Hpr.
  destruct (length (pl_contexts p) - j)%nat as [|d] eqn:Ed; [done|]. injection Hpr as -> ->.
  exists chunks, tail, e, i, (Datatypes.S j). split; [by eapply layout_same|].
  assert (length (pl_contexts (on_ctx (set_task task) j p1)) = length (pl_contexts p)) as El by (cbn; apply length_alter).
  constructor; unfold trim_of; rewrite ?Ev, ?El; try done.
  - lia.
  - cbn. rewrite Hc. replace (Datatypes.S j - i)%nat with (j - i + 1)%nat by lia. rewrite seq_app. cbn. do 2 f_equal. lia.
  - cbn. f_equal. lia.
Qed.

Lemma upload_ok hist (p p' : Pipe) now k : pipe_ok hist p → upload_one now k p = Some p' → pipe_ok hist p'.
Proof.
  intros (chunks & tail & e & i & j & Hl & Hq). unfold upload_one. destruct (bool_decide _); [|done].
  destruct (pl_contexts p !! k) as [ctx|]; [|done]. cbn [mbind option_bind].
  destruct (upload now (tc_task ctx) (pl_store p)) as [[s r]|]; [|done]. cbn [mbind option_bind].
  intros [= <-]. set (p1 := set_store _ _). exists chunks, tail, e, i, j.
  destruct r as [task|err]; (split; [apply (layout_same hist p); [by apply (views_alter _ _ p1)|done|done]
                                    |apply (queues_same p); [by apply (views_alter _ _ p1)|..]]); done || apply Hq.
Qed.

Lemma read_ok hist (p : Pipe) stream off end_ m c rs :
  pipe_ok hist p → get stream off end_ m (pl_cache p) = Some (c, rs) → pipe_ok hist (set_cache c p).
Proof.
  intros (chunks & tail & e & i & j & Hl & Hq) Hg. exists chunks, tail, e, i, j.
  split; [|by apply set_cache_queues].
  destruct Hl as [Hh Hs Hlen Hb (a & Ha & [Hrec Hf Hmx Hct Hlst Hsz] & Hid & Hids) Hlast Hm Hc].
  destruct (get_active _ _ _ _ _ _ _ _ Hg Ha) as (b' & Hb' & Hsame & Ec).
  constructor; cbn [pl_cache set_cache]; try done; rewrite Ec; try done. clear Ec.
  exists b'. split; [done|]. pose proof Hsame as [Hmap Eb].
  assert (∀ st, lb_map b' !! st = None ↔ lb_map a !! st = None) as Hdom.
  { intros st. specialize (Hmap st). by inversion Hmap. }
  split; [|rewrite Eb; cbn; split; [done|exact Hids]].
  constructor; try (rewrite Eb; cbn; done).
  - destruct Hrec as [Hr1 Hr2]. split.
    + intros st. by rewrite (block_same_records a b' st Hsame).
    + intros st x Hx. specialize (Hmap st). rewrite Hx in Hmap. inversion Hmap as [y z (E & _) Ey|]; subst.
      rewrite E. by eapply Hr2.
  - rewrite Eb. cbn. destruct Hsz as [?|(E & ? & ?)]; [by left|]. right. split_and!; try done.
    apply map_empty. intros st. apply Hdom. by rewrite E.
Qed.

(** *** Commit *)

(** The layout over other completions and a cache with the same active block. *)
Lemma layout_active hist (p p' : Pipe) chunks tail :
  (views p').*1 = (views p).*1 →
  (∀ a, active (pl_cache p) = Some a → lb_free a = false → (∀ k b cf, views p !! k = Some (b, cf) → lb_block_id b < lb_block_id a) →
     active (pl_cache p') = Some a ∧ same_config (pl_cache p) (pl_cache p')
     ∧ lc_next_id (pl_cache p) ≤ lc_next_id (pl_cache p')
     ∧ lc_last_record_offset (pl_cache p') = lc_last_record_offset (pl_cache p)) →
  layout hist p chunks tail → layout hist p' chunks tail.
Proof.
  intros Ev Hc [Hh Hs Hlen Hb (a & Ha & Hok & Hid & Hids) Hl Hm Hn].
  destruct (Hc a Ha (ac_free _ _ _ _ Hok) Hids) as (Ha' & [Em En] & Hid' & Hl').
  assert (∀ k b cf, views p' !! k = Some (b, cf) → ∃ cf', views p !! k = Some (b, cf')) as Hv.
  { intros k b cf Hk. assert ((views p').*1 !! k = Some b) as Hk' by (by rewrite list_lookup_fmap, Hk).
    rewrite Ev, list_lookup_fmap in Hk'. destruct (views p !! k) as [[b' cf']|]; [|done]. injection Hk' as ->. by exists cf'. }
  constructor; try done; [| | |congruence..].
  - rewrite Hlen. apply (f_equal length) in Ev. unfold views in Ev. by rewrite !length_fmap in Ev.
  - intros k b cf Hk. destruct (Hv _ _ _ Hk) as [cf' Hk']. by eapply Hb.
  - exists a. split; [done|]. split; [done|]. split; [lia|]. intros k b cf Hk.
    destruct (Hv _ _ _ Hk) as [cf' Hk']. by eapply Hids.
Qed.

(** Completing a context leaves its block. *)
Lemma views_complete f r k (p : Pipe) :
  (∀ c, tc_cache (f c) = tc_cache c ∧ tc_cf (f c) = complete r (tc_cf c)) →
  views (on_ctx f k p) = alter (λ v, (v.1, complete r v.2)) k (views p).
Proof.
  intros Hf. unfold views, on_ctx. cbn. apply list_eq. intros i. rewrite list_lookup_fmap.
  destruct (decide (i = k)) as [->|Hne].
  - rewrite !list_lookup_alter_eq, list_lookup_fmap. destruct (pl_contexts p !! k) as [c|]; cbn; [|done].
    unfold ctx_view. by destruct (Hf c) as [-> ->].
  - by rewrite !list_lookup_alter_ne, list_lookup_fmap by done.
Qed.

Lemma alter_blocks r k (vs : list (LogCacheBlock * Completion)) :
  (alter (λ v, (v.1, complete r v.2)) k vs).*1 = vs.*1.
Proof.
  apply list_eq. intros i. rewrite !list_lookup_fmap. destruct (decide (i = k)) as [->|Hne].
  - rewrite list_lookup_alter_eq. by destruct (vs !! k).
  - by rewrite list_lookup_alter_ne.
Qed.

Lemma filter_seq_head i n : filter (λ x, x ≠ i) (seq i n) = seq (Datatypes.S i) (n - 1).
Proof.
  destruct n as [|n]; [done|]. cbn [seq]. rewrite filter_cons, decide_False by (intros H; by apply H).
  rewrite Nat.sub_1_r. cbn [Nat.pred]. apply filter_all. intros x Hx%elem_of_seq. lia.
Qed.

(** The head of the commit queue is through, with result [r]. *)
Lemma finish_queues (p p' : Pipe) e i j r d :
  queues p e i j → (j - i = Datatypes.S d)%nat →
  views p' = alter (λ v, (v.1, complete r v.2)) i (views p) →
  pl_inflight p' = filter (λ x, x ≠ i) (pl_inflight p) → pl_commit p' = seq (Datatypes.S i) d →
  pl_prepare p' = pl_prepare p →
  (r = Ok tt ∧ e = i ∨ r = failed ∧ pl_poisoned p' = true) →
  let e' := match r with Ok _ => Datatypes.S i | Err _ => e end in
  (∀ o k, TrimNow o k ∈ pl_trim_tasks p' → trim_of p' e' o k) →
  (∀ o k, (o, k) ∈ pl_trim_queue p' → trim_of p' e' o k) →
  (∀ o, o ∈ pl_trims p' → ∃ k, trim_of p' e' o k) →
  queues p' e' (Datatypes.S i) j.
Proof.
  intros [[? ?] Hi Hc Hp Hcf Hpo _ _ _] Hd Hv Ei Ec Ep Hr e' Ht Hq Htr.
  assert (length (pl_contexts p') = length (pl_contexts p)) as El.
  { apply (f_equal length) in Hv. unfold views in Hv. by rewrite length_alter, !length_fmap in Hv. }
  assert (e' ≤ Datatypes.S i)%nat as He' by (unfold e'; destruct r; lia).
  constructor; try done; rewrite ?El; try done.
  - lia.
  - rewrite Ei, Hi, filter_seq_head. f_equal. lia.
  - rewrite Ec. f_equal. lia.
  - congruence.
  - intros k b cf Hk. rewrite Hv in Hk. destruct (decide (k = i)) as [->|Hne].
    + rewrite list_lookup_alter_eq in Hk. destruct (views p !! i) as [[b' cf']|] eqn:E; [|done]. cbn in Hk.
      injection Hk as <- <-. rewrite (Hcf _ _ _ E). unfold cf_at, e'. rewrite !(decide_False (P:=(i < _)%nat)) by lia.
      cbn. destruct Hr as [[-> ->]|[-> _]]; cbn; [by rewrite decide_True by lia|].
      rewrite decide_False by lia. by rewrite decide_True by lia.
    + rewrite list_lookup_alter_ne in Hk by done. rewrite (Hcf _ _ _ Hk). unfold cf_at, e'.
      destruct Hr as [[-> ->]|[-> _]]; cbn; repeat case_decide; try done; lia.
  - unfold e'. destruct Hr as [[-> ->]|[-> ->]]; [done|done].
Qed.

Lemma trim_of_mono (p p' : Pipe) e e' o k :
  (views p').*1 = (views p).*1 → (e ≤ e')%nat → trim_of p e o k → trim_of p' e' o k.
Proof.
  intros Ev He [Hk (b & cf & Hb & Ho)]. split; [lia|].
  assert ((views p').*1 !! k = Some b) as Hb' by (by rewrite Ev, list_lookup_fmap, Hb).
  rewrite list_lookup_fmap in Hb'. destruct (views p' !! k) as [[b' cf']|]; [|done]. injection Hb' as ->.
  by exists b, cf'.
Qed.

(** A context that failed, or that a poisoned pipeline drops. *)
Lemma drop_ok hist (p : Pipe) chunks tail e i j d (p0 p' : Pipe) :
  layout hist p chunks tail → queues p e i j → (j - i = Datatypes.S d)%nat →
  views p0 = views p → pl_cache p0 = pl_cache p → pl_inflight p0 = pl_inflight p → pl_prepare p0 = pl_prepare p →
  pl_commit p0 = seq (Datatypes.S i) d → pl_trim_tasks p0 = pl_trim_tasks p → pl_trim_queue p0 = pl_trim_queue p →
  pl_trims p0 = pl_trims p →
  (p' = drop_context i p0 ∧ pl_poisoned p0 = true ∨ p' = poison (drop_context i p0)) →
  pipe_ok hist p'.
Proof.
  intros Hl Hq Hd Ev Ec Ei Ep Ecm Et Eq Etr Hp'. pose proof Hq as [_ _ _ _ _ _ Ht Hqq Htr].
  assert (views p' = alter (λ v, (v.1, complete failed v.2)) i (views p)) as Ev'.
  { rewrite <- Ev. assert (views p' = views (on_ctx (complete_trim failed ∘ complete_cf failed) i p0)) as ->
      by (by destruct Hp' as [[-> _]| ->]).
    by apply views_complete. }
  assert ((views p').*1 = (views p).*1) as Eb by (rewrite Ev'; apply alter_blocks).
  exists chunks, tail, e, (Datatypes.S i), j. split.
  - apply (layout_active _ p); [done| |done]. intros a Ha _ _.
    assert (pl_cache p' = pl_cache p) as ->; [by destruct Hp' as [[-> _]| ->]|]. done.
  - assert (∀ o k, trim_of p e o k → trim_of p' e o k) as Hm by (intros o k; by apply trim_of_mono).
    assert (pl_trim_tasks p' = pl_trim_tasks p ∧ pl_trim_queue p' = pl_trim_queue p ∧ pl_trims p' = pl_trims p)
      as (E1 & E2 & E3) by (by destruct Hp' as [[-> _]| ->]).
    apply (finish_queues p p' e i j failed d); rewrite ?E1, ?E2, ?E3; try done.
    + destruct Hp' as [[-> _]| ->]; cbn; by rewrite Ei.
    + by destruct Hp' as [[-> _]| ->].
    + by destruct Hp' as [[-> _]| ->].
    + right. by destruct Hp' as [[-> ?]| ->].
    + intros o k Hk. by apply Hm, Ht.
    + intros o k Hk. by apply Hm, Hqq.
    + intros o Ho. destruct (Htr o Ho) as [k ?]. exists k. by apply Hm.
Qed.

(** The context whose commit went through. *)
Lemma committed_ok hist (p : Pipe) chunks tail e i j d ctx (p0 : Pipe) :
  layout hist p chunks tail → queues p e i j → (j - i = Datatypes.S d)%nat → e = i →
  pl_contexts p !! i = Some ctx → pl_poisoned p0 = false →
  pl_contexts p0 = pl_contexts p → pl_cache p0 = pl_cache p → pl_inflight p0 = pl_inflight p → pl_prepare p0 = pl_prepare p →
  pl_commit p0 = seq (Datatypes.S i) d → pl_trim_tasks p0 = pl_trim_tasks p → pl_trim_queue p0 = pl_trim_queue p →
  pl_trims p0 = pl_trims p →
  let p1 := match lb_last_record_offset (tc_cache ctx) with
            | Some offset => delay_trim delay_trim_ms offset i p0
            | None => on_ctx (complete_trim (Ok tt)) i p0
            end in
  let p2 := set_cache (mark_free (lb_block_id (tc_cache ctx)) (pl_cache p1)) p1 in
  pipe_ok hist (remove_inflight i (on_ctx (complete_cf (Ok tt)) i p2)).
Proof.
  intros Hl Hq Hd He Hctx Hpo Ex Ec Ei Ep Ecm Et Eq Etr p1 p2. pose proof Hq as [_ _ _ _ _ _ Ht Hqq Htr].
  set (p' := remove_inflight _ _).
  assert (views p1 = views p) as Ev1.
  { unfold p1. destruct (lb_last_record_offset _) as [o|].
    - unfold delay_trim, views. destruct (_ =? 0); cbn; by rewrite Ex.
    - rewrite views_alter by done. unfold views. by rewrite Ex. }
  assert (views p' = alter (λ v, (v.1, complete (Ok tt) v.2)) i (views p)) as Ev'.
  { rewrite <- Ev1. by apply (views_complete _ _ _ p2). }
  assert ((views p').*1 = (views p).*1) as Eb by (rewrite Ev'; apply alter_blocks).
  assert (views p !! i = Some (tc_cache ctx, tc_cf ctx)) as Hvi by (unfold views; by rewrite list_lookup_fmap, Hctx).
  assert (∀ o k, trim_of p e o k → trim_of p' (Datatypes.S i) o k) as Hm
    by (intros o k; apply trim_of_mono; [done|lia]).
  assert (∀ o, lb_last_record_offset (tc_cache ctx) = Some o → trim_of p' (Datatypes.S i) o i) as Hnew.
  { intros o Ho. apply (trim_of_mono p p' (Datatypes.S i)); [done|lia|]. split; [lia|]. by eexists _, _. }
  assert (pl_cache p1 = pl_cache p) as Ec1.
  { unfold p1. destruct (lb_last_record_offset _); [|done]. unfold delay_trim. by destruct (_ =? 0). }
  exists chunks, tail, (Datatypes.S i), (Datatypes.S i), j. split.
  - apply (layout_active _ p); [done| |done]. intros a Ha Hf Hids. cbn. rewrite Ec1.
    apply mark_free_active; [done|done|]. specialize (Hids _ _ _ Hvi). lia.
  - apply (finish_queues p p' e i j (Ok tt) d); try done.
    + unfold p', p2, p1. destruct (lb_last_record_offset _); [unfold delay_trim; destruct (_ =? 0)|]; cbn; by rewrite Ei.
    + unfold p', p2, p1. destruct (lb_last_record_offset _); [unfold delay_trim; destruct (_ =? 0)|]; done.
    + unfold p', p2, p1. destruct (lb_last_record_offset _); [unfold delay_trim; destruct (_ =? 0)|]; done.
    + by left.
    + intros o k Hk. unfold p', p2, p1 in Hk. destruct (lb_last_record_offset _) as [o'|].
      * unfold delay_trim in Hk. destruct (_ =? 0); cbn in Hk; rewrite Et in Hk; apply elem_of_app in Hk as [Hk|Hk].
        -- by apply Hm, Ht.
        -- apply list_elem_of_singleton in Hk as [= -> ->]. by apply Hnew.
        -- by apply Hm, Ht.
        -- by apply list_elem_of_singleton in Hk.
      * cbn in Hk. rewrite Et in Hk. by apply Hm, Ht.
    + intros o k Hk. unfold p', p2, p1 in Hk. destruct (lb_last_record_offset _) as [o'|].
      * unfold delay_trim in Hk. destruct (_ =? 0); cbn in Hk; rewrite Eq in Hk; [by apply Hm, Hqq|].
        apply elem_of_app in Hk as [Hk|[= -> ->]%list_elem_of_singleton]; [by apply Hm, Hqq|by apply Hnew].
      * cbn in Hk. rewrite Eq in Hk. by apply Hm, Hqq.
    + intros o Ho. assert (o ∈ pl_trims p) as Ho'.
      { rewrite <- Etr. unfold p', p2, p1 in Ho. destruct (lb_last_record_offset _); [|done].
        unfold delay_trim in Ho. by destruct (_ =? 0). }
      destruct (Htr o Ho') as [k ?]. exists k. by apply Hm.
Qed.

Lemma commit_ok hist (p p' : Pipe) now : pipe_ok hist p → commit_one delay_trim_ms now p = Some p' → pipe_ok hist p'.
Proof.
  intros (chunks & tail & e & i & j & Hl & Hq). unfold commit_one.
  pose proof (qu_commit _ _ _ _ Hq) as Ec. destruct (j - i)%nat as [|d] eqn:Ed; [by rewrite Ec|].
  rewrite Ec. cbn [seq]. destruct (pl_contexts p !! i) as [ctx|] eqn:Ek; [|done]. cbn [mbind option_bind].
  destruct (pl_poisoned (set_queues _ _ _ _ p)) eqn:Epo.
  { intros [= <-]. eapply drop_ok; [exact Hl|exact Hq|exact Ed|..|left; by split]; done. }
  assert (e = i) as He by (by apply (qu_poisoned _ _ _ _ Hq)).
  destruct (tc_upload_done ctx) as [[u|u]|]; [..|done]; cbn [mbind option_bind].
  - destruct (commit now (tc_task ctx) _) as [[m [v|err]]|]; [..|done]; cbn [mbind option_bind]; intros [= <-].
    + by eapply committed_ok.
    + eapply drop_ok; [exact Hl|exact Hq|exact Ed|..|right; reflexivity]; done.
  - intros [= <-]. eapply drop_ok; [exact Hl|exact Hq|exact Ed|..|right; reflexivity]; done.
Qed.

(** *** Trims *)

Lemma trim_now_ok hist (p : Pipe) chunks tail e i j o k :
  layout hist p chunks tail → queues p e i j → trim_of p e o k →
  layout hist (trim_now o k p) chunks tail ∧ queues (trim_now o k p) e i j
  ∧ views (trim_now o k p) = views p ∧ pl_trim_queue (trim_now o k p) = pl_trim_queue p.
Proof.
  intros Hl Hq Ho. unfold trim_now. destruct (wal_trim (pl_wal p) o) as [w r]. set (p1 := set_wal _ _).
  assert (views (on_ctx (complete_trim (outcome r)) k p1) = views p) as Ev by (by apply (views_alter _ _ p1)).
  split; [by apply (layout_same hist p)|]. split; [|done].
  apply (queues_same p); try done; try apply Hq. intros o' Ho'. cbn in Ho'.
  apply elem_of_app in Ho' as [Ho'|[= ->]%list_elem_of_singleton]; [by apply Hq|by exists k].
Qed.

Lemma set_trim_ok hist (p : Pipe) chunks tail e i j tasks queue :
  layout hist p chunks tail → queues p e i j → (∀ t, t ∈ tasks → t ∈ pl_trim_tasks p) →
  (∀ q, q ∈ queue → q ∈ pl_trim_queue p) →
  let p' := set_trim tasks queue (pl_trims p) p in layout hist p' chunks tail ∧ queues p' e i j.
Proof.
  intros Hl Hq Ht Hqq p'. split; [by apply (layout_same hist p)|].
  apply (queues_same p); try done.
  - intros o k Hk. by apply (qu_tasks _ _ _ _ Hq), Ht.
  - intros o k Hk. by apply (qu_queue _ _ _ _ Hq), Hqq.
  - apply Hq.
Qed.

Lemma run_trim_ok hist (p p' : Pipe) n : pipe_ok hist p → run_trim n p = Some p' → pipe_ok hist p'.
Proof.
  intros (chunks & tail & e & i & j & Hl & Hq). unfold run_trim.
  destruct (pl_trim_tasks p !! n) as [t|] eqn:En; [|done]. cbn [mbind option_bind].
  assert (∀ t, t ∈ delete n (pl_trim_tasks p) → t ∈ pl_trim_tasks p) as Hdel.
  { intros t' Ht'. by eapply elem_of_submseteq, sublist_submseteq, sublist_delete. }
  destruct (set_trim_ok hist p chunks tail e i j (delete n (pl_trim_tasks p)) (pl_trim_queue p)) as [Hl1 Hq1]; [done..|].
  destruct t as [o k|].
  - intros [= <-]. exists chunks, tail, e, i, j. apply list_elem_of_lookup_2, (qu_tasks _ _ _ _ Hq) in En.
    by destruct (trim_now_ok hist _ chunks tail e i j o k Hl1 Hq1) as (? & ? & _).
  - cbn [pl_trim_queue set_trim pl_trim_tasks pl_trims]. destruct (pl_trim_queue p) as [|[o k] rest] eqn:Eq.
    + intros [= <-]. by exists chunks, tail, e, i, j.
    + intros [= <-]. exists chunks, tail, e, i, j.
      destruct (set_trim_ok hist p chunks tail e i j (delete n (pl_trim_tasks p)) rest) as [Hl2 Hq2]; [done..| |].
      { intros q Hin. rewrite Eq. by right. }
      assert (trim_of p e o k) as Ho by (apply (qu_queue _ _ _ _ Hq); rewrite Eq; by left).
      by destruct (trim_now_ok hist _ chunks tail e i j o k Hl2 Hq2 Ho) as (? & ? & _).
Qed.

Lemma flush_ok hist (p : Pipe) : pipe_ok hist p → pipe_ok hist (flush_trims p).
Proof.
  intros (chunks & tail & e & i & j & Hl & Hq). exists chunks, tail, e, i, j. unfold flush_trims.
  destruct (set_trim_ok hist p chunks tail e i j (pl_trim_tasks p) []) as [Hl1 Hq1]; [done..| |].
  { by intros q ?%not_elem_of_nil. }
  set (p1 := set_trim _ _ _ p) in *.
  assert (∀ q, q ∈ pl_trim_queue p → trim_of p1 e q.1 q.2) as Hall.
  { intros [o k] H. by apply (qu_queue _ _ _ _ Hq). }
  clearbody p1. clear Hl Hq. revert p1 Hl1 Hq1 Hall.
  induction (pl_trim_queue p) as [|[o k] queue IH]; intros p1 Hl1 Hq1 Hall; [done|]. cbn.
  destruct (trim_now_ok hist p1 chunks tail e i j o k Hl1 Hq1) as (Hl2 & Hq2 & Ev & _); [apply (Hall (o, k)); by left|].
  apply IH; [done|done|]. intros q Hin. unfold trim_of. rewrite Ev. apply Hall. by right.
Qed.

Lemma pstep_ok x y : pstep config delay_trim_ms x y → pipe_ok x.1 x.2 → pipe_ok y.1 y.2.
Proof.
  destruct 1 as [hist p r o p' archived added Hc H|hist p stream force p' k H|hist p p' H|hist p now k p' H
    |hist p now p' H|hist p i p' H|hist p stream off end_ m c rs H|hist p w|hist p]; cbn [fst snd]; intros Hok.
  - by eapply confirm_ok.
  - destruct Hok as (chunks & tail & e & i & j & Hl & Hq).
    destruct (archive_cases _ _ _ _ _ _ _ _ Hl H) as [(_ & -> & _)|(_ & Hl' & Hq')].
    + by exists chunks, tail, e, i, j.
    + exists (chunks ++ [tail]), [], e, i, j. auto.
  - by eapply prepare_ok.
  - by eapply upload_ok.
  - by eapply commit_ok.
  - by eapply run_trim_ok.
  - by eapply read_ok.
  - destruct Hok as (chunks & tail & e & i & j & Hl & Hq). exists chunks, tail, e, i, j.
    split; [by apply (layout_same hist p)|]. apply (queues_same p); try done; apply Hq.
  - by apply flush_ok.
Qed.

Lemma run_pipe_ok x y : rtc (sstep config delay_trim_ms) x y → pipe_ok x.1 (si_pipe x.2) → pipe_ok y.1 (si_pipe y.2).
Proof.
  induction 1 as [|x y z Hxy _ IH]; [done|]. intros Hok. apply IH. clear IH.
  apply sstep_psteps in Hxy. remember (x.1, si_pipe x.2) as a eqn:Ea. remember (y.1, si_pipe y.2) as b eqn:Eb.
  assert (pipe_ok a.1 a.2) as Ha by (by rewrite Ea). assert (pipe_ok b.1 b.2) as Hb; [|by rewrite Eb in Hb].
  clear Ea Eb Hok. induction Hxy as [|u v w Huv _ IH]; [done|]. by apply IH, (pstep_ok u).
Qed.
End Invariant.

(** ** What the invariant gives *)

Section Safety.
Context {S M W : Type} `{!ObjectStorage S} `{!ObjectManager M} `{!WriteAheadLog W}.
Context (config : S3StorageConfig).

Lemma threshold_range : 0 < Z.max (clamped_threshold config) 1 ≤ 2 ^ 63.
Proof.
  unfold clamped_threshold. pose proof (u64_range (delta_wal_cache_size config * 2)).
  assert (u64 (delta_wal_cache_size config * 2) / 5 ≤ 2 ^ 63) by (apply Z.div_le_upper_bound; int_lia). lia.
Qed.

Abbreviation block_max := (Z.max (clamped_threshold config) 1).
Abbreviation block_cnt := (cfg_max_stream_num_per_stream_set_object config).

Lemma new_pipe_ok (s : S) (m : M) (w : W) :
  pipe_ok block_max block_cnt [] (si_pipe (storage_new config s m w)).
Proof.
  exists [], [], 0%nat, 0%nat, 0%nat. split.
  - constructor; try done; [constructor|].
    exists (block_new 0 block_max block_cnt). split; [done|]. split; [apply active_ok_new|]. split; [done|].
    intros k b cf Hk. done.
  - constructor; try done; intros * H; by apply not_elem_of_nil in H.
Qed.

(** The contexts whose commit went through. *)
Definition committed_ctx (p : Pipeline (S:=S) (M:=M) (W:=W)) (k : nat) (ctx : TaskContext) : Prop :=
  pl_contexts p !! k = Some ctx ∧ tc_cf ctx = Some (Ok tt).

Lemma chunk_before (chunks : list History) (tail : History) k (o : RecordOffset) r o' :
  StronglySorted (λ a b : StreamRecordBatch * RecordOffset, ro_offset a.2 < ro_offset b.2) (concat chunks ++ tail) →
  snd <$> last (concat (take (Datatypes.S k) chunks)) = Some o →
  (r, o') ∈ concat chunks ++ tail → ro_offset o' ≤ ro_offset o →
  ∃ i ch, (i ≤ k)%nat ∧ chunks !! i = Some ch ∧ (r, o') ∈ ch.
Proof.
  intros Hs Ho Hin Hle. rewrite <- (take_drop (Datatypes.S k) chunks), concat_app, <- app_assoc in Hs, Hin.
  apply elem_of_app in Hin as [Hin|Hin].
  - apply list_elem_of_In, in_concat in Hin as (ch & Hch & Hin). apply list_elem_of_In in Hch, Hin.
    apply list_elem_of_lookup in Hch as [i Hi]. apply lookup_take_Some in Hi as [Hi ?].
    exists i, ch. split; [lia|done].
  - exfalso. destruct (last (concat (take (Datatypes.S k) chunks))) as [[r0 o0]|] eqn:El; [|done]. injection Ho as ->.
    apply last_Some_elem_of in El. apply StronglySorted_app in Hs as (Hx & _ & _).
    specialize (Hx _ _ El Hin). cbn in Hx. lia.
Qed.

Lemma holds_elem (ch : History) b r o : holds_records ch b → (r, o) ∈ ch → r ∈ stream_records (stream_id r) b.
Proof.
  intros [Hr _] Hin. rewrite Hr. unfold of_stream. apply list_elem_of_filter. split; [done|].
  apply list_elem_of_fmap. by exists (r, o).
Qed.

Lemma pipe_partition max cnt hist (p : Pipeline (S:=S) (M:=M) (W:=W)) st :
  pipe_ok max cnt hist p →
  ∃ a, active (pl_cache p) = Some a
    ∧ of_stream st hist.*1 = (pl_contexts p ≫= λ c, stream_records st (tc_cache c)) ++ stream_records st a.
Proof.
  intros (chunks & tail & e & i & j & [Hh _ Hlen Hb (a & Ha & Hok & _) _ _ _] & _). exists a. split; [done|].
  rewrite Hh, fmap_app, of_stream_app. rewrite (proj1 (ac_records _ _ _ _ Hok)). f_equal.
  assert (Forall2 (λ ch c, holds_records ch (tc_cache c)) chunks (pl_contexts p)) as HF.
  { apply Forall2_same_length_lookup_2; [done|]. intros k ch c Hch Hc. destruct (Hb k (tc_cache c) (tc_cf c)) as (ch' & E & ? & _).
    - unfold views. by rewrite list_lookup_fmap, Hc.
    - congruence. }
  clear -HF. induction HF as [|ch c chunks ctxs [Hr _] _ IH]; [done|]. cbn [concat].
  rewrite fmap_app, of_stream_app, IH. cbn [mbind list_bind]. by rewrite Hr.
Qed.

Lemma pipe_trim_safe max cnt hist (p : Pipeline (S:=S) (M:=M) (W:=W)) o r o' :
  pipe_ok max cnt hist p → o ∈ pl_trims p → (r, o') ∈ hist → ro_offset o' ≤ ro_offset o →
  ∃ k ctx, committed_ctx p k ctx ∧ r ∈ stream_records (stream_id r) (tc_cache ctx).
Proof.
  intros (chunks & tail & e & i & j & [Hh Hs Hlen Hb _ _ _ _] & Hq) Ho Hin Hle.
  destruct (qu_trims _ _ _ _ Hq o Ho) as (k & Hk & b & cf & Hv & Hlast).
  destruct (Hb _ _ _ Hv) as (ch & Hch & _ & Hl). rewrite Hl in Hlast. rewrite Hh in Hs, Hin.
  destruct (chunk_before _ _ _ _ _ _ Hs Hlast Hin Hle) as (n & ch' & Hn & Hch' & Hin').
  destruct (lookup_lt_is_Some_2 (pl_contexts p) n) as [ctx Hctx].
  { rewrite <- Hlen. by apply lookup_lt_Some in Hch'. }
  assert (views p !! n = Some (tc_cache ctx, tc_cf ctx)) as Hvn by (unfold views; by rewrite list_lookup_fmap, Hctx).
  destruct (Hb _ _ _ Hvn) as (ch'' & E & Hrec & _). rewrite Hch' in E. injection E as <-.
  exists n, ctx. split; [split; [done|]|by eapply holds_elem].
  rewrite (qu_cf _ _ _ _ Hq _ _ _ Hvn). unfold cf_at. by rewrite decide_True by lia.
Qed.

Lemma pipe_prefix max cnt hist (p : Pipeline (S:=S) (M:=M) (W:=W)) :
  pipe_ok max cnt hist p → ∃ e, ∀ k ctx, pl_contexts p !! k = Some ctx → (tc_cf ctx = Some (Ok tt) ↔ (k < e)%nat).
Proof.
  intros (chunks & tail & e & i & j & _ & Hq). exists e. intros k ctx Hk.
  rewrite (qu_cf _ _ _ _ Hq k (tc_cache ctx) (tc_cf ctx)) by (unfold views; by rewrite list_lookup_fmap, Hk).
  unfold cf_at. repeat case_decide; split; try done; lia.
Qed.

(** C19: the upload pipeline loses nothing and trims nothing early. In every state the
    storage can reach, whatever its tasks are interleaved with, per stream the sealed
    blocks and the active one hold exactly the confirmed records, in order; commits
    happen in seal order; and the log is only trimmed past records whose block was
    committed, even after failed uploads and commits, if object ids are always granted. *)
Theorem storage_trim_safe (s : S) (m : M) (w : W) hist st :
  0 < block_cnt → (∀ (m : M) n, ∃ m' id, mgr_prepare_object m n = (m', Ok id)) →
  rtc (sstep config (delay_trim_of config)) ([], storage_new config s m w) (hist, st) →
  let p := si_pipe st in
  (∀ stream, ∃ a, active (pl_cache p) = Some a
     ∧ of_stream stream hist.*1
       = (pl_contexts p ≫= λ c, stream_records stream (tc_cache c)) ++ stream_records stream a)
  ∧ (∃ e, ∀ k ctx, pl_contexts p !! k = Some ctx → (tc_cf ctx = Some (Ok tt) ↔ (k < e)%nat))
  ∧ ∀ t r o, t ∈ pl_trims p → (r, o) ∈ hist → ro_offset o ≤ ro_offset t →
      ∃ k ctx, committed_ctx p k ctx ∧ r ∈ stream_records (stream_id r) (tc_cache ctx).
Proof.
  intros Hcnt Hprep Hrun p.
  assert (pipe_ok block_max block_cnt hist p) as Hok.
  { apply (run_pipe_ok config (delay_trim_of config) _ _ threshold_range Hcnt Hprep _ _ Hrun), new_pipe_ok. }
  split; [intros stream; by eapply pipe_partition|]. split; [by eapply pipe_prefix|].
  intros t r o. by eapply pipe_trim_safe.
Qed.
End Safety.
