(* ===== verification/StorageRuns.v ===== *)
(** * Concrete runs of the storage

    An executable driver for the transition system of [StorageSafety.v], used to exhibit
    runs: a normal one, and two in which the metadata plane fails a call and the
    storage breaks a promise of its specification. *)
From S2P Require Import Prelude Collections Codec ObjectStore WalFormat WalMemory ObjectFormat ObjectIO LogCache LogCacheProofs Metadata StorageRecovery Upload Storage StorageSafety.

#[export] Instance confirmable_dec hist r o : Decision (confirmable hist r o).
Proof. unfold confirmable, fits_block. apply _. Defined.

Inductive StorageOp : Type :=
| OpConfirm (r : StreamRecordBatch) (o : RecordOffset)
| OpUploadDelta (stream : Z) (force : bool)
| OpForceUpload (stream : Z)
| OpPrepare
| OpUpload (now : Z) (k : nat)
| OpCommit (now : Z)
| OpTrim (i : nat).

Section Driver.
Context {S M W : Type} `{!ObjectStorage S} `{!ObjectManager M} `{!WriteAheadLog W}.
Context (config : S3StorageConfig).

Abbreviation State := (History * StorageInner (S:=S) (M:=M) (W:=W))%type.

Definition exec_op (op : StorageOp) (x : State) : option State :=
  let '(hist, st) := x in
  match op with
  | OpConfirm r o =>
      if decide (confirmable hist r o)
      then let* st := handle_append_confirm config r o st in Some (hist ++ [(r, o)], st) else None
  | OpUploadDelta stream force => let* (st, _) := upload_delta_wal config stream force st in Some (hist, st)
  | OpForceUpload stream => let* (st, _) := force_upload config stream st in Some (hist, st)
  | OpPrepare => let* p := prepare_one (si_pipe st) in Some (hist, set_pipe p st)
  | OpUpload now k => let* p := upload_one now k (si_pipe st) in Some (hist, set_pipe p st)
  | OpCommit now => let* p := commit_one (delay_trim_of config) now (si_pipe st) in Some (hist, set_pipe p st)
  | OpTrim i => let* p := run_trim i (si_pipe st) in Some (hist, set_pipe p st)
  end.

Fixpoint exec_ops (ops : list StorageOp) (x : State) : option State :=
  match ops with
  | [] => Some x
  | op :: rest => let* x := exec_op op x in exec_ops rest x
  end.

Lemma exec_op_step op x y : exec_op op x = Some y → sstep config (delay_trim_of config) x y.
Proof.
  destruct x as [hist st]. destruct op; cbn [exec_op]; intros H.
  - case_decide; [|done]. destruct (handle_append_confirm _ _ _ _) eqn:E; [|done]. injection H as <-. by constructor.
  - destruct (upload_delta_wal _ _ _ _) as [[st' k]|] eqn:E; [|done]. injection H as <-. by eapply ss_upload_delta.
  - destruct (Storage.force_upload _ _ _) as [[st' k]|] eqn:E; [|done]. injection H as <-. by eapply ss_force_upload.
  - destruct (prepare_one _) eqn:E; [|done]. injection H as <-. by constructor.
  - destruct (upload_one _ _ _) eqn:E; [|done]. injection H as <-. by eapply ss_upload.
  - destruct (commit_one _ _ _) eqn:E; [|done]. injection H as <-. by eapply ss_commit.
  - destruct (run_trim _ _) eqn:E; [|done]. injection H as <-. by eapply ss_trim.
Qed.

Lemma exec_ops_run ops x y : exec_ops ops x = Some y → rtc (sstep config (delay_trim_of config)) x y.
Proof.
  revert x; induction ops as [|op ops IH]; intros x; cbn; [intros [= ->]; apply rtc_refl|].
  destruct (exec_op op x) as [z|] eqn:E; [|done]. cbn. intros H. eapply rtc_l; [by eapply exec_op_step|by apply IH].
Qed.

Lemma exec_ops_check (ops : list StorageOp) (x : State) (check : State → bool) :
  match exec_ops ops x with Some y => check y | None => false end = true →
  ∃ y, rtc (sstep config (delay_trim_of config)) x y ∧ check y = true.
Proof. destruct (exec_ops ops x) as [y|] eqn:E; [|done]. intros H. exists y. split; [by eapply exec_ops_run|done]. Qed.
End Driver.

(** ** A metadata plane that fails some calls *)

(** The scripts say which of the next prepares and commits fail. *)
Record FlakyManager : Type := mkFlaky {
  fm_state : MetadataState;
  fm_prepare_fails : list bool;
  fm_commit_fails : list bool;
}.

#[export] Instance flaky_object_manager : ObjectManager FlakyManager := {
  mgr_prepare_object m count :=
    let rest := mkFlaky (fm_state m) (tail (fm_prepare_fails m)) (fm_commit_fails m) in
    if default false (head (fm_prepare_fails m)) then (rest, Err SE_Unexpected)
    else let '(s, id) := prepare_object count (fm_state m) in
         (mkFlaky s (tail (fm_prepare_fails m)) (fm_commit_fails m), Ok id);
  mgr_commit m now r :=
    if default false (head (fm_commit_fails m))
    then (mkFlaky (fm_state m) (fm_prepare_fails m) (tail (fm_commit_fails m)), Err SE_Unexpected)
    else (mkFlaky (commit_stream_set_object now r (fm_state m)).1 (fm_prepare_fails m) (tail (fm_commit_fails m)), Ok tt);
}.

Module Runs.
Definition config : S3StorageConfig :=
  {| cfg_wal_cache_size := 4096; cfg_wal_upload_threshold := 1000; cfg_wal_upload_interval_ms := 0;
     cfg_stream_split_size := 1000; cfg_max_stream_num_per_stream_set_object := 10; cfg_object_block_size := 64;
     cfg_object_part_size := 0; cfg_snapshot_read_enable := false |}.
Definition r1 : StreamRecordBatch := new 7 0 0 1 [1].
Definition r2 : StreamRecordBatch := new 7 0 1 1 [2].
Definition o1 : RecordOffset := {| ro_epoch := 0; ro_offset := 0; ro_size := 60 |}.
Definition o2 : RecordOffset := {| ro_epoch := 0; ro_offset := 60; ro_size := 60 |}.
Definition start {M} `{!ObjectManager M} (m : M) : History * StorageInner :=
  ([], storage_new config (ms_new 0) m (mem_start (mem_new 1 0))).

(** Two blocks; the first cannot get an object id. *)
Definition prepare_fails : list StorageOp :=
  [OpConfirm r1 o1; OpUploadDelta 7 false; OpConfirm r2 o2; OpUploadDelta 7 false;
   OpPrepare; OpPrepare; OpUpload 0 1; OpCommit 0; OpTrim 0].

(** One block whose commit fails. *)
Definition commit_fails : list StorageOp :=
  [OpConfirm r1 o1; OpUploadDelta 7 false; OpPrepare; OpUpload 0 0; OpCommit 0].

Definition holds (r : StreamRecordBatch) (c : TaskContext) : bool :=
  bool_decide (r ∈ stream_records (stream_id r) (tc_cache c)).
End Runs.

(** Neither the record nor its block is committed. *)
Definition uncommitted {S M W} (r : StreamRecordBatch) (p : Pipeline (S:=S) (M:=M) (W:=W)) : bool :=
  forallb (λ c, match tc_cf c with Some (Ok _) => negb (Runs.holds r c) | _ => true end) (pl_contexts p).

Lemma uncommitted_spec {S M W} r (p : Pipeline (S:=S) (M:=M) (W:=W)) :
  uncommitted r p = true →
  ∀ k ctx, committed_ctx p k ctx → ¬ (r ∈ stream_records (stream_id r) (tc_cache ctx)).
Proof.
  unfold uncommitted. rewrite forallb_forall. intros H k ctx [Hk Hcf] Hin.
  specialize (H ctx). rewrite <- list_elem_of_In in H. specialize (H (list_elem_of_lookup_2 _ _ _ Hk)).
  rewrite Hcf in H. apply negb_true_iff in H. unfold Runs.holds in H. by apply bool_decide_eq_false_1 in H.
Qed.

(** C32: a failed prepare lets the log be trimmed past records that were never uploaded.
    The prepare worker drops the failed block and goes on, the next block commits, and
    the trim to its last offset covers the dropped block's record. (The specification
    says the trim offset never passes the last committed upload.) *)
Theorem prepare_failure_trims_uncommitted :
  let m := mkFlaky manager_new [true; false] [] in
  ∃ hist st, rtc (sstep Runs.config (delay_trim_of Runs.config)) (Runs.start m) (hist, st)
    ∧ (Runs.r1, Runs.o1) ∈ hist
    ∧ (∃ t, t ∈ pl_trims (si_pipe st) ∧ ro_offset Runs.o1 ≤ ro_offset t)
    ∧ ∀ k ctx, committed_ctx (si_pipe st) k ctx →
        ¬ (Runs.r1 ∈ stream_records (stream_id Runs.r1) (tc_cache ctx)).
Proof.
  intros m.
  destruct (exec_ops_check Runs.config Runs.prepare_fails (Runs.start m)
    (λ x, bool_decide ((Runs.r1, Runs.o1) ∈ x.1) && bool_decide (Runs.o2 ∈ pl_trims (si_pipe x.2))
          && uncommitted Runs.r1 (si_pipe x.2))) as ([hist st] & Hrun & Hc); [vm_compute; reflexivity|].
  apply andb_prop in Hc as [[H1%bool_decide_eq_true_1 H2%bool_decide_eq_true_1]%andb_prop H3].
  exists hist, st. split; [done|]. split; [done|]. split; [by exists Runs.o2|]. by apply uncommitted_spec.
Qed.

(** C33: after a failed commit, a forced upload of the stream reports success although its
    records are not committed: the failed task has left the inflight list and nothing
    else holds the stream. (The contract says it resolves when everything buffered for
    the stream is committed; the stream is closed on that answer.) *)
Theorem force_upload_ignores_failed_commit :
  let m := mkFlaky manager_new [] [true] in
  ∃ hist st st' waits, rtc (sstep Runs.config (delay_trim_of Runs.config)) (Runs.start m) (hist, st)
    ∧ (Runs.r1, Runs.o1) ∈ hist
    ∧ Storage.force_upload Runs.config (stream_id Runs.r1) st = Some (st', waits)
    ∧ force_upload_result waits st' = Some (Ok tt)
    ∧ ∀ k ctx, committed_ctx (si_pipe st') k ctx →
        ¬ (Runs.r1 ∈ stream_records (stream_id Runs.r1) (tc_cache ctx)).
Proof.
  intros m.
  destruct (exec_ops_check Runs.config Runs.commit_fails (Runs.start m)
    (λ x, bool_decide ((Runs.r1, Runs.o1) ∈ x.1)
          && match Storage.force_upload Runs.config (stream_id Runs.r1) x.2 with
             | Some (st', waits) => match force_upload_result waits st' with Some (Ok _) => true | _ => false end
                                    && uncommitted Runs.r1 (si_pipe st')
             | None => false
             end)) as ([hist st] & Hrun & Hc); [vm_compute; reflexivity|]. cbn [fst snd] in Hc.
  apply andb_prop in Hc as [H1%bool_decide_eq_true_1 Hc].
  destruct (Storage.force_upload _ _ st) as [[st' waits]|] eqn:E; [|done].
  apply andb_prop in Hc as [H2 H3].
  exists hist, st, st', waits. split; [done|]. split; [done|]. split; [done|]. split; [|by apply uncommitted_spec].
  by destruct (force_upload_result waits st') as [[[]|]|].
Qed.

(** A normal run: two blocks through the pipeline, in order. *)
Definition normal_run : list StorageOp :=
  [OpConfirm Runs.r1 Runs.o1; OpUploadDelta 7 false; OpConfirm Runs.r2 Runs.o2; OpUploadDelta 7 false;
   OpPrepare; OpPrepare; OpUpload 0 1; OpUpload 0 0; OpCommit 0; OpCommit 0; OpTrim 1].

Lemma storage_trim_safe_witness :
  ∃ hist st, rtc (sstep Runs.config (delay_trim_of Runs.config)) (Runs.start manager_new) (hist, st)
    ∧ ∃ k ctx, committed_ctx (si_pipe st) k ctx ∧ Runs.r1 ∈ stream_records (stream_id Runs.r1) (tc_cache ctx).
Proof.
  destruct (exec_ops_check Runs.config normal_run (Runs.start manager_new)
    (λ x, bool_decide ((Runs.r1, Runs.o1) ∈ x.1) && bool_decide (Runs.o2 ∈ pl_trims (si_pipe x.2))))
    as ([hist st] & Hrun & Hc); [vm_compute; reflexivity|].
  apply andb_prop in Hc as [H1%bool_decide_eq_true_1 H2%bool_decide_eq_true_1].
  exists hist, st. split; [done|].
  destruct (storage_trim_safe Runs.config (ms_new 0) manager_new (mem_start (mem_new 1 0)) hist st) as (_ & _ & H).
  - done.
  - intros m n. cbn. by eexists _, _.
  - exact Hrun.
  - by apply (H Runs.o2 Runs.r1 Runs.o1).
Defined.
