(* ===== verification/StorageDurable.v ===== *)
(** * Acknowledged records stay readable

    The upload pipeline over the in-memory metadata plane and any object storage that
    keeps the storage laws.  A record the log has confirmed is either above every trim
    the storage has asked for, or in a registered object that reads back to it. *)
From S2P Require Import Prelude Collections Codec ObjectStore WalFormat WalMemory ObjectFormat ObjectIO WalWriter WalWriterInv WalRecover LogCache LogCacheProofs Metadata StorageRecovery Upload Storage StorageSafety StorageRuns.

(** ** Registered objects *)

(** The object [o] is registered for offsets [start, end_) of stream [st]. *)
Definition registered (m : MetadataState) (st start end_ : Z) (o : S3ObjectMetadata) : Prop :=
  (∃ id x, ms_stream_set_objects m !! id = Some o ∧ x ∈ om_offset_ranges o
     ∧ sr_stream_id x = st ∧ sr_start_offset x = start ∧ sr_end_offset x = end_)
  ∨ (find_object st start (ms_stream_objects m) = Some o
     ∧ om_offset_ranges o = [ {| sr_stream_id := st; sr_start_offset := start; sr_end_offset := end_ |} ]).

Lemma registered_covering m st start end_ o lo hi :
  registered m st start end_ o → start < hi → lo < end_ → covering m st lo hi start o.
Proof.
  intros [(id & x & ? & ? & <- & <- & <-)|[Hf Ho]] ? ?.
  - left. exists id, x. split_and!; try done. unfold overlaps. lia.
  - right. unfold find_object in Hf. apply bind_Some in Hf as (per & ? & ?). eexists per, _, _.
    split_and!; try done. unfold overlaps. cbn. lia.
Qed.

Lemma commit_registers now r m st start end_ o :
  NoDup (so_key <$> cr_stream_objects r) → committed now r st start end_ o →
  registered (commit_stream_set_object now r m).1 st start end_ o.
Proof.
  intros Hnd Hc. destruct (commit_rest now r m) as (_ & Eo & Es).
  destruct Hc as [(x & Hx & <- & <- & <- & Hn & Hc & ->)|(so & Hso & <- & <- & <- & ->)].
  - left. exists (cr_object_id r). eexists. rewrite Es, lookup_delete_all by done.
    rewrite (proj2 (Z.eqb_neq _ _) Hn). cbn [negb]. rewrite lookup_insert_eq. split; [done|].
    split; [cbn; apply list_elem_of_fmap; by exists x|done].
  - right. rewrite Eo. by rewrite (insert_member now _ (ms_stream_objects m) so Hnd Hso).
Qed.

(** A commit of new ids and new start offsets keeps what is registered. *)
Lemma commit_keeps now r m st start end_ o :
  cr_compacted_object_ids r = [] →
  (cr_object_id r ≠ NOOP_OBJECT_ID → ms_stream_set_objects m !! cr_object_id r = None) →
  (∀ so o, so ∈ cr_stream_objects r → find_object (so_stream_id so) (so_start_offset so) (ms_stream_objects m) = Some o → False) →
  registered m st start end_ o → registered (commit_stream_set_object now r m).1 st start end_ o.
Proof.
  intros Hc Hid Hso. destruct (commit_rest now r m) as (_ & Eo & Es). rewrite Hc in Es. cbn in Es.
  intros [(id & x & Hx & ?)|[Hf ?]].
  - left. exists id, x. rewrite Es. destruct (Z.eqb_spec (cr_object_id r) NOOP_OBJECT_ID); cbn; [done|].
    rewrite lookup_insert_ne; [done|]. intros E. rewrite <- E, Hid in Hx; done.
  - right. rewrite Eo, insert_all; [done|]. intros (so & E & Hin)%list_elem_of_fmap. injection E as -> ->.
    by eapply Hso.
Qed.

(** What a commit adds to the two registries. *)
Lemma commit_set_objects now r m id o :
  cr_compacted_object_ids r = [] → ms_stream_set_objects (commit_stream_set_object now r m).1 !! id = Some o →
  ms_stream_set_objects m !! id = Some o ∨ (id = cr_object_id r ∧ id ≠ NOOP_OBJECT_ID).
Proof.
  intros Hc. destruct (commit_rest now r m) as (_ & _ & Es). rewrite Es, Hc. cbn.
  destruct (Z.eqb_spec (cr_object_id r) NOOP_OBJECT_ID); cbn; [by left|].
  intros [[<- _]|[_ ?]]%lookup_insert_Some; [by right|by left].
Qed.

Lemma commit_find_object now r m st start o :
  find_object st start (ms_stream_objects (commit_stream_set_object now r m).1) = Some o →
  find_object st start (ms_stream_objects m) = Some o ∨ (st, start) ∈ so_key <$> cr_stream_objects r.
Proof.
  destruct (commit_rest now r m) as (_ & Eo & _). rewrite Eo.
  destruct (decide ((st, start) ∈ so_key <$> cr_stream_objects r)); [by right|]. rewrite insert_all by done. by left.
Qed.

Lemma commit_alloc now r m : ms_object_id_alloc (commit_stream_set_object now r m).1 = ms_object_id_alloc m.
Proof. unfold commit_stream_set_object. by destruct (advance _ _ _). Qed.

(** ** Placed records *)

Section Placed.
Context {S : Type} `{!ObjectStorage S} `{!ObjectStorageLaws S}.

Lemma placed_keep (s s' : S) r st rs oid id n :
  untouched s s' id n → is_u64 oid → ¬ (id ≤ oid < id + n) → placed s r st rs oid → placed s' r st rs oid.
Proof.
  intros Hu Hid Hout (start & end_ & size & index & ops & ? & ? & Hr & ? & ?).
  exists start, end_, size, index, ops. split_and!; try done. by apply Hu.
Qed.

(** An object registered for [rs], the records of stream [st], reads back to them. *)
Record readable (s : S) (m : MetadataState) (st : Z) (rs : list StreamRecordBatch) (start end_ : Z)
    (o : S3ObjectMetadata) : Prop := {
  re_start : base_offset <$> head rs = Some start;
  re_end : last_offset <$> last rs = Some end_;
  re_registered : registered m st start end_ o;
  re_reads : ∃ index ops, object_reads s (object_key (om_object_id o)) (om_object_size o) index ops ∧ (st, rs) ∈ ops;
}.

Lemma placed_object (s : S) now r st rs oid :
  cr_compacted_object_ids r = [] → placed s r st rs oid →
  ∃ start end_ o, base_offset <$> head rs = Some start ∧ last_offset <$> last rs = Some end_
    ∧ committed now r st start end_ o ∧ om_object_id o = oid
    ∧ ∃ index ops, object_reads s (object_key oid) (om_object_size o) index ops ∧ (st, rs) ∈ ops.
Proof.
  intros Hc (start & end_ & size & index & ops & ? & ? & Hr & Hin & [(x & Hx & <- & <- & <- & <- & <- & Hno)|(so & Hx & <- & <- & <- & <- & <-)]).
  - exists (or_start_offset x), (or_end_offset x), (sso_metadata now r).
    split; [done|]. split; [done|]. split; [|split; [done|by exists index, ops]]. left. exists x. rewrite Hc.
    split_and!; try done. apply not_elem_of_nil.
  - exists (so_start_offset so), (so_end_offset so), (so_meta now so).
    split; [done|]. split; [done|]. split; [|split; [done|by exists index, ops]]. right. by exists so.
Qed.

Lemma placed_readable (s : S) now r m st rs oid :
  cr_compacted_object_ids r = [] → NoDup (so_key <$> cr_stream_objects r) → placed s r st rs oid →
  ∃ start end_ o, readable s (commit_stream_set_object now r m).1 st rs start end_ o ∧ om_object_id o = oid.
Proof.
  intros Hc Hnd Hp. destruct (placed_object s now r st rs oid Hc Hp) as (start & end_ & o & ? & ? & Hco & <- & Hr).
  exists start, end_, o. split; [|done]. constructor; try done. by apply commit_registers.
Qed.

(** Read back after later uploads and commits. *)
Lemma readable_store (s s' : S) m st rs start end_ o id n :
  untouched s s' id n → is_u64 (om_object_id o) → ¬ (id ≤ om_object_id o < id + n) →
  readable s m st rs start end_ o → readable s' m st rs start end_ o.
Proof. intros Hu ? ? [? ? ? (index & ops & Hr & ?)]. constructor; try done. exists index, ops. split; [|done]. by apply Hu. Qed.

Lemma readable_meta (s : S) m m' st rs start end_ o :
  (∀ st start end_ o, registered m st start end_ o → registered m' st start end_ o) →
  readable s m st rs start end_ o → readable s m' st rs start end_ o.
Proof. intros Hm [? ? ? ?]. constructor; try done. by apply Hm. Qed.
End Placed.

(** A lookup of the record's offsets lists, among all objects that overlap them, one
    whose stored bytes read back to the record. *)
Definition record_readable {S : Type} `{!ObjectStorage S} (s : S) (m : MetadataState) (r : StreamRecordBatch) : Prop :=
  ∃ (l : list (Z * S3ObjectMetadata)) start o index ops rs,
    (∀ limit, get_objects (stream_id r) (base_offset r) (last_offset r) limit m = Some (takeZ (Z.max limit 1) l.*2))
    ∧ (start, o) ∈ l
    ∧ object_reads s (object_key (om_object_id o)) (om_object_size o) index ops
    ∧ (stream_id r, rs) ∈ ops ∧ r ∈ rs.

(** From a registered object of a run of records to each of them. *)
Lemma readable_record {S : Type} `{!ObjectStorage S} (s : S) m st rs start end_ o r :
  manager_ok m → readable s m st rs start end_ o → r ∈ rs → stream_id r = st →
  StronglySorted (λ a b, base_offset a < base_offset b) rs → Forall (λ r, base_offset r < last_offset r) rs →
  record_readable s m r.
Proof.
  intros Hm [Hs He Hreg (index & ops & Hrd & Hin)] Hr <- Hsort Hspan. rewrite Forall_forall in Hspan.
  destruct (get_objects_spec m (stream_id r) (base_offset r) (last_offset r) Hm) as (l & El & _ & Hl).
  exists l, start, o, index, ops, rs. split; [done|]. split; [|done]. apply Hl. pose proof (Hspan r Hr).
  apply registered_covering with end_; [done|..].
  - destruct rs as [|r0 rs]; [done|]. injection Hs as <-. apply StronglySorted_cons in Hsort as [Hall _].
    rewrite Forall_forall in Hall. apply elem_of_cons in Hr as [->|Hr]; [done|]. specialize (Hall r Hr). lia.
  - destruct (last rs) as [rn|] eqn:El'; [|done]. injection He as <-. apply last_Some in El' as [l' ->].
    assert (base_offset rn < last_offset rn) by (apply Hspan, elem_of_app; right; left).
    apply StronglySorted_app in Hsort as (Hx & _ & _).
    apply elem_of_app in Hr as [Hr|[= ->]%list_elem_of_singleton]; [|done].
    specialize (Hx r rn Hr (list_elem_of_here _ _)). cbn in Hx. lia.
Qed.

(** ** The invariant *)

Section Durable.
Context {S W : Type} `{!ObjectStorage S} `{!ObjectStorageLaws S} `{!WriteAheadLog W}.
Context (config : S3StorageConfig) (delay_trim_ms : Z) (m0 : MetadataState).

Abbreviation Pipe := (Pipeline (S:=S) (M:=MetadataState) (W:=W)).

(** A context's block, task and upload. *)
Definition core (c : TaskContext) : LogCacheBlock * UploadWalTask * Completion := (tc_cache c, tc_task c, tc_upload_done c).
Definition cores (p : Pipe) := core <$> pl_contexts p.
Definition blocks (p : Pipe) : list LogCacheBlock := tc_cache <$> pl_contexts p.

Definition task_of (b : LogCacheBlock) : UploadWalTask := plan config (block_records b).
Definition ids_of (b : LogCacheBlock) : Z := object_count (task_of b).

(** The ids are handed out in seal order: the first id of block [k]. *)
Fixpoint total_ids (bs : list LogCacheBlock) (k : nat) : Z :=
  match k, bs with
  | Datatypes.S k', b :: bs' => ids_of b + total_ids bs' k'
  | _, _ => 0
  end.
Definition first_id (bs : list LogCacheBlock) (k : nat) : Z := ms_object_id_alloc m0 + total_ids bs k.

Lemma ids_nonneg b : 0 ≤ ids_of b.
Proof. unfold ids_of, object_count. destruct (bool_decide _); lia. Qed.

Lemma first_id_S bs k b : bs !! k = Some b → first_id bs (Datatypes.S k) = first_id bs k + ids_of b.
Proof.
  unfold first_id. revert k; induction bs as [|b' bs IH]; intros k; [done|]. destruct k as [|k]; cbn.
  - intros [= ->]. destruct bs; cbn; lia.
  - intros H. specialize (IH k H). cbn in IH. lia.
Qed.

Lemma first_id_app bs b k : (k ≤ length bs)%nat → first_id (bs ++ [b]) k = first_id bs k.
Proof.
  unfold first_id. revert k; induction bs as [|b' bs IH]; intros k Hk; cbn in Hk.
  - by replace k with 0%nat by lia.
  - destruct k as [|k]; [done|]. cbn. specialize (IH k ltac:(lia)). lia.
Qed.

Lemma total_ids_nonneg bs k : 0 ≤ total_ids bs k.
Proof.
  revert k; induction bs as [|b bs IH]; intros [|k]; cbn; try lia. specialize (IH k). pose proof (ids_nonneg b). lia.
Qed.

Lemma first_id_mono bs k k' : (k ≤ k')%nat → first_id bs k ≤ first_id bs k'.
Proof.
  unfold first_id. revert k k'; induction bs as [|b bs IH]; intros k k' Hk; [by destruct k, k'|].
  destruct k as [|k], k' as [|k']; cbn; try lia.
  - pose proof (ids_nonneg b). pose proof (total_ids_nonneg bs k'). lia.
  - specialize (IH k k' ltac:(lia)). lia.
Qed.

(** The history keeps each stream's offsets in order, past those already registered. *)
Definition ordered (hist : History) : Prop :=
  (∀ st, StronglySorted (λ a b, base_offset a < base_offset b) (of_stream st hist.*1))
  ∧ (∀ st start o, find_object st start (ms_stream_objects m0) = Some o →
      ∀ r, r ∈ of_stream st hist.*1 → start < base_offset r)
  ∧ Forall (λ q, base_offset q.1 < last_offset q.1) hist.

(** The sealed blocks each fit an object, and their ids do not run out. *)
Definition fits (p : Pipe) : Prop :=
  Forall (λ b, records_ok (block_records b)) (blocks p) ∧ first_id (blocks p) (length (blocks p)) < 2 ^ 64.

(** The upload of block [b] under the ids from [id], with its request. *)
Record uploaded_block (s : S) (b : LogCacheBlock) (id : Z) (r : CommitStreamSetObjectRequest) : Prop := {
  ub_placed st rs : block_records b !! st = Some rs → ∃ oid, id ≤ oid < id + ids_of b ∧ placed s r st rs oid;
  ub_compacted : cr_compacted_object_ids r = [];
  ub_keys : NoDup (so_key <$> cr_stream_objects r);
  ub_id : cr_object_id r ≠ NOOP_OBJECT_ID → id ≤ cr_object_id r < id + ids_of b;
  ub_starts so : so ∈ cr_stream_objects r →
    ∃ rs, block_records b !! so_stream_id so = Some rs ∧ base_offset <$> head rs = Some (so_start_offset so);
  ub_advances st e : (st, e) ∈ advances_of r ↔
    ∃ rs, block_records b !! st = Some rs ∧ last_offset <$> last rs = Some e;
}.

Record durable (p : Pipe) (i j : nat) : Prop := {
  du_le : (i ≤ j)%nat ∧ (j ≤ length (pl_contexts p))%nat;
  du_poisoned : pl_poisoned p = false;
  du_tail k b t u : cores p !! k = Some (b, t, u) → (j ≤ k)%nat → t = task_of b ∧ u = None;
  du_prep k b t u : cores p !! k = Some (b, t, u) → (k < j)%nat →
    (u = None ∧ t = prepared (task_of b) (first_id (blocks p) k) None)
    ∨ (u = Some (Ok tt) ∧ ∃ r, t = prepared (task_of b) (first_id (blocks p) k) (Some r)
         ∧ uploaded_block (pl_store p) b (first_id (blocks p) k) r);
  du_uploads k : k ∈ pl_uploads p → (i ≤ k < j)%nat ∧ ∀ b t u, cores p !! k = Some (b, t, u) → u = None;
  du_alloc : ms_object_id_alloc (pl_manager p) = first_id (blocks p) j;
  du_manager : manager_ok (pl_manager p);
  du_readable k b : blocks p !! k = Some b → (k < i)%nat → ∀ st rs, block_records b !! st = Some rs →
    ∃ start end_ o, readable (pl_store p) (pl_manager p) st rs start end_ o
      ∧ first_id (blocks p) k ≤ om_object_id o < first_id (blocks p) (Datatypes.S k);
  du_set id o : ms_stream_set_objects (pl_manager p) !! id = Some o → id < first_id (blocks p) i;
  du_starts st start o : find_object st start (ms_stream_objects (pl_manager p)) = Some o →
    (∃ o0, find_object st start (ms_stream_objects m0) = Some o0)
    ∨ ∃ k b r, (k < i)%nat ∧ blocks p !! k = Some b ∧ r ∈ stream_records st b ∧ start = base_offset r;
}.

Lemma cores_blocks (p : Pipe) k b t u : cores p !! k = Some (b, t, u) → blocks p !! k = Some b.
Proof.
  unfold cores, blocks. rewrite !list_lookup_fmap. destruct (pl_contexts p !! k) as [c|]; [|done]. cbn. by intros [= <- <- <-].
Qed.

Lemma blocks_of_cores (p : Pipe) : blocks p = (λ x, x.1.1) <$> cores p.
Proof. unfold blocks, cores. by rewrite <- list_fmap_compose. Qed.

Lemma length_blocks (p : Pipe) : length (blocks p) = length (pl_contexts p).
Proof. apply length_fmap. Qed.

Lemma durable_same (p p' : Pipe) i j :
  cores p' = cores p → pl_store p' = pl_store p → pl_manager p' = pl_manager p → pl_uploads p' = pl_uploads p →
  pl_poisoned p' = pl_poisoned p → durable p i j → durable p' i j.
Proof.
  intros Ec Es Em Eu Ep [[? ?] ? ? ? ? ? ? ? ? ?].
  assert (blocks p' = blocks p) as Eb by (by rewrite !blocks_of_cores, Ec).
  assert (length (pl_contexts p') = length (pl_contexts p)) as El by (by rewrite <- !length_blocks, Eb).
  constructor; rewrite ?Ec, ?Eb, ?Es, ?Em, ?Eu, ?Ep, ?El; done.
Qed.

(** A new context at the end. *)
Lemma durable_submit (p p' : Pipe) i j b :
  cores p' = cores p ++ [(b, task_of b, None)] → pl_store p' = pl_store p → pl_manager p' = pl_manager p →
  pl_uploads p' = pl_uploads p → pl_poisoned p' = pl_poisoned p → durable p i j → durable p' i j.
Proof.
  intros Ec Es Em Eu Ep [[? ?] Hpo Ht Hp Hu Ha Hm Hr Hs Hst].
  assert (blocks p' = blocks p ++ [b]) as Eb by (by rewrite !blocks_of_cores, Ec, fmap_app).
  assert (length (pl_contexts p') = Datatypes.S (length (pl_contexts p))) as El.
  { rewrite <- !length_blocks, Eb, length_app. cbn. lia. }
  assert (∀ k, (k ≤ j)%nat → first_id (blocks p') k = first_id (blocks p) k) as Eid.
  { intros k Hk. rewrite Eb. apply first_id_app. rewrite length_blocks. lia. }
  assert (length (cores p) = length (pl_contexts p)) as Elc by apply length_fmap.
  assert (∀ k x, (k < j)%nat → cores p' !! k = Some x → cores p !! k = Some x) as Hk.
  { intros k x Hlt. rewrite Ec, lookup_app_l by lia. done. }
  constructor; rewrite ?Es, ?Em, ?El; try done.
  - lia.
  - congruence.
  - intros k b' t u Hc Hge. rewrite Ec in Hc. apply lookup_app_Some in Hc as [Hc|[_ Hc]]; [by eapply Ht|].
    by apply list_lookup_singleton_Some in Hc as [_ [= <- <- <-]].
  - intros k b' t u Hc Hlt. rewrite Eid by lia. by apply Hp; [apply Hk|].
  - intros k Hin. rewrite Eu in Hin. destruct (Hu k Hin) as [Hlt Hn]. split; [done|].
    intros b' t u Hc. eapply Hn, Hk; [lia|done].
  - by rewrite Ha, Eid.
  - intros k b' Hb Hlt st rs Hrs. rewrite Eb, lookup_app_l in Hb by (rewrite length_blocks; lia).
    rewrite !Eid by lia. by eapply Hr.
  - intros id o Hid. rewrite Eid by lia. by eapply Hs.
  - intros st start o Ho. destruct (Hst _ _ _ Ho) as [?|(k & b' & r & ? & Hb & ? & ?)]; [by left|right].
    exists k, b', r. split_and!; try done. rewrite Eb. by apply lookup_app_l_Some.
Qed.

Context (alloc_nonneg : 0 ≤ ms_object_id_alloc m0).

Lemma first_id_range (p : Pipe) k : fits p → (k ≤ length (pl_contexts p))%nat → 0 ≤ first_id (blocks p) k < 2 ^ 64.
Proof.
  intros [_ Hf] Hk. pose proof (first_id_mono (blocks p) k (length (blocks p))) as Hm. rewrite length_blocks in *.
  specialize (Hm Hk). pose proof (total_ids_nonneg (blocks p) k). unfold first_id in *. lia.
Qed.

Lemma fits_block_ok (p : Pipe) k b : fits p → blocks p !! k = Some b → records_ok (block_records b).
Proof. intros [Hf _] Hb. rewrite Forall_forall in Hf. apply Hf. by eapply list_elem_of_lookup_2. Qed.

(** Setting the task and the upload of one context. *)
Lemma cores_update f k (p : Pipe) c :
  pl_contexts p !! k = Some c → (∀ x, tc_cache (f x) = tc_cache x) →
  cores (on_ctx f k p) = <[k := core (f c)]> (cores p) ∧ blocks (on_ctx f k p) = blocks p.
Proof.
  intros Hc Hf. unfold cores, blocks, on_ctx. cbn. split; apply list_eq; intros n.
  - destruct (decide (n = k)) as [->|Hne].
    + rewrite list_lookup_fmap, list_lookup_alter_eq, Hc, list_lookup_insert_eq; [done|].
      rewrite length_fmap. by eapply lookup_lt_Some.
    + by rewrite list_lookup_insert_ne, !list_lookup_fmap, list_lookup_alter_ne.
  - rewrite !list_lookup_fmap. destruct (decide (n = k)) as [->|Hne].
    + rewrite list_lookup_alter_eq, Hc. cbn. by rewrite Hf.
    + by rewrite list_lookup_alter_ne.
Qed.

Lemma prepare_durable (p p' : Pipe) i j :
  durable p i j → fits p → pl_prepare p = seq j (length (pl_contexts p) - j) → prepare_one p = Some p' →
  durable p' i (Datatypes.S j).
Proof.
  intros [[? ?] Hpo Ht Hp Hu Ha Hm Hr Hs Hst] Hfit Eq. unfold prepare_one.
  destruct (pl_prepare p) as [|k rest] eqn:Ep; [done|].
  destruct (length (pl_contexts p) - j)%nat as [|d] eqn:Ed; [done|]. injection Eq as -> ->.
  destruct (pl_contexts p !! j) as [c|] eqn:Ec; [|done]. cbn [mbind option_bind].
  assert (cores p !! j = Some (core c)) as Hc by (unfold cores; by rewrite list_lookup_fmap, Ec).
  assert (blocks p !! j = Some (tc_cache c)) as Hb by (unfold blocks; by rewrite list_lookup_fmap, Ec).
  destruct (Ht j _ _ _ Hc) as [Et Eu]; [lia|]. unfold prepare. cbn [mgr_prepare_object memory_object_manager prepare_object].
  intros [= <-]. set (task := mkTask _ _ _ _ _ _). set (p1 := set_manager _ _).
  assert (task = prepared (task_of (tc_cache c)) (first_id (blocks p) j) None) as Etask.
  { unfold task, prepared. rewrite Et, Ha. unfold task_of. by rewrite (plan_fields config (block_records (tc_cache c))). }
  destruct (cores_update (set_task task) j p1 c Ec) as [Eco Ebl]; [done|]. change (cores p1) with (cores p) in Eco.
  change (blocks p1) with (blocks p) in Ebl. set (p' := on_ctx _ j p1) in *.
  assert (length (pl_contexts p') = length (pl_contexts p)) as El by (by rewrite <- !length_blocks, Ebl).
  assert (∀ k x, k ≠ j → cores p' !! k = Some x → cores p !! k = Some x) as Hother.
  { intros k x Hne. by rewrite Eco, list_lookup_insert_ne. }
  assert (∀ b t u, cores p' !! j = Some (b, t, u) → b = tc_cache c ∧ t = task ∧ u = None) as Hself.
  { intros b t u. rewrite Eco, list_lookup_insert_eq by (by eapply lookup_lt_Some). unfold core. cbn.
    rewrite Eu. by intros [= <- <- <-]. }
  constructor; rewrite ?Ebl, ?El; try done.
  - lia.
  - intros k b t u Hk Hge. eapply Ht; [apply Hother; [|exact Hk]|]; lia.
  - intros k b t u Hk Hlt. destruct (decide (k = j)) as [->|Hne].
    + destruct (Hself _ _ _ Hk) as (-> & -> & ->). by left.
    + apply Hp; [by apply Hother|lia].
  - intros k Hin. cbn in Hin. apply elem_of_app in Hin as [Hin|[= ->]%list_elem_of_singleton].
    + destruct (Hu k Hin) as [Hlt Hn]. split; [lia|]. intros b t u Hk. eapply Hn, Hother; [lia|done].
    + split; [lia|]. intros b t u Hk. by destruct (Hself _ _ _ Hk) as (_ & _ & ?).
  - cbn. rewrite Et, Ha. fold (ids_of (tc_cache c)). rewrite (first_id_S _ _ _ Hb). apply u64_small.
    pose proof (first_id_range p (Datatypes.S j) Hfit ltac:(lia)) as Hrg. rewrite (first_id_S _ _ _ Hb) in Hrg. int_lia.
  - destruct (mstep_ok _ _ (ms_prepare (pl_manager p) (object_count (tc_task c))) Hm) as [? _]. done.
  - intros k b Hk Hlt st rs Hrs. destruct (Hr k b Hk Hlt st rs Hrs) as (start & end_ & o & Hrd & Hid).
    exists start, end_, o. split; [|done]. eapply readable_meta; [|exact Hrd]. done.
Qed.

(** A request advances each stream of the block to its last record. *)
Lemma uploaded_advances (s s' : S) set objs id r st e :
  set ##ₘ objs → uploaded s s' set objs id r →
  (st, e) ∈ advances_of r ↔ ∃ rs, (set !! st = Some rs ∨ objs !! st = Some rs) ∧ last_offset <$> last rs = Some e.
Proof.
  intros Hdis [Hp Hs Ho _ _ _ _]. unfold advances_of. split.
  - assert (∀ rs rs', set !! st = Some rs → objs !! st = Some rs' → False) as Hx.
    { intros rs rs' H H'. by eapply map_disjoint_spec. }
    intros [(x & E & Hin)%list_elem_of_fmap|(so & E & Hin)%list_elem_of_fmap]%elem_of_app; injection E as -> ->.
    + assert (or_stream_id x ∈ keys set) as [rs Hrs]%elem_of_keys by (rewrite <- Hs; by apply list_elem_of_fmap_2).
      exists rs. split; [by left|]. destruct (Hp _ _ (or_introl Hrs)) as (oid & _ & start & end_ & size & index & ops & _ & Hl & _ & _ & [(y & Hy & Ey & _ & <- & _)|(so & Hso & _ & _ & Eso & _)]).
      * rewrite Hl. do 2 f_equal. eapply NoDup_fmap_elem; [|done|done|done]. rewrite Hs. apply NoDup_keys.
      * assert (so_stream_id so ∈ keys objs) as [rs' Hrs']%elem_of_keys by (rewrite <- Ho; by apply list_elem_of_fmap_2).
        rewrite Eso in Hrs'. exfalso. by eapply Hx.
    + assert (so_stream_id so ∈ keys objs) as [rs Hrs]%elem_of_keys by (rewrite <- Ho; by apply list_elem_of_fmap_2).
      exists rs. split; [by right|]. destruct (Hp _ _ (or_intror Hrs)) as (oid & _ & start & end_ & size & index & ops & _ & Hl & _ & _ & [(y & Hy & Ey & _)|(so' & Hso & _ & _ & Eso & _ & <-)]).
      * assert (or_stream_id y ∈ keys set) as [rs' Hrs']%elem_of_keys by (rewrite <- Hs; by apply list_elem_of_fmap_2).
        rewrite Ey in Hrs'. exfalso. by eapply Hx.
      * rewrite Hl. do 2 f_equal. eapply NoDup_fmap_elem; [|done|done|done]. rewrite Ho. apply NoDup_keys.
  - intros (rs & Hrs & He). destruct (Hp _ _ Hrs) as (oid & _ & start & end_ & size & index & ops & _ & Hl & _ & _ & Hx).
    rewrite Hl in He. injection He as ->. apply elem_of_app.
    destruct Hx as [(y & Hy & <- & _ & <- & _)|(so & Hso & _ & _ & <- & _ & <-)]; [left|right];
      apply list_elem_of_fmap; by eexists.
Qed.

(** The upload of a planned block. *)
Lemma upload_block (s : S) now b id :
  records_ok (block_records b) → 0 ≤ id → id + ids_of b < 2 ^ 64 →
  ∃ s' r, upload now (prepared (task_of b) id None) s = Some (s', Ok (prepared (task_of b) id (Some r)))
    ∧ uploaded_block s' b id r ∧ untouched s s' id (ids_of b).
Proof.
  intros Hok Hid Hn. destruct (upload_planned s now config (block_records b) id Hok Hid Hn) as (s' & r & E & Hup).
  pose proof Hup as [Hp _ Ho Hst Hoid Hc Hu].
  exists s', r. split; [done|]. split; [|done]. constructor; try done.
  - intros st rs H. by apply Hp, plan_split.
  - apply (NoDup_fmap_1 fst). rewrite <- list_fmap_compose. change (fst ∘ so_key) with so_stream_id.
    rewrite Ho. apply NoDup_keys.
  - rewrite Hoid. unfold ids_of, object_count, task_of. destruct (bool_decide _); [done|]. lia.
  - intros so Hin. destruct (Hst so Hin) as (rs & Hrs & ?). exists rs. split; [|done]. apply (plan_split config). by right.
  - intros st e. rewrite (uploaded_advances _ _ _ _ _ _ st e (proj2 (map_disjoint_spec _ _) (plan_disjoint config _)) Hup).
    split; intros (rs & Hrs & ?); exists rs; (split; [|done]); by apply (plan_split config).
Qed.

(** Blocks have disjoint ids. *)
Lemma ids_apart (p : Pipe) k k' b b' oid :
  blocks p !! k = Some b → blocks p !! k' = Some b' → k ≠ k' →
  first_id (blocks p) k ≤ oid < first_id (blocks p) k + ids_of b →
  ¬ (first_id (blocks p) k' ≤ oid < first_id (blocks p) k' + ids_of b').
Proof.
  intros Hb Hb' Hne Hin. rewrite <- (first_id_S _ _ _ Hb) in Hin. rewrite <- (first_id_S _ _ _ Hb').
  destruct (Nat.lt_total k k') as [Hlt|[?|Hlt]]; [|done|].
  - pose proof (first_id_mono (blocks p) (Datatypes.S k) k' ltac:(lia)). lia.
  - pose proof (first_id_mono (blocks p) (Datatypes.S k') k ltac:(lia)). lia.
Qed.

Lemma block_ids_u64 (p : Pipe) k b oid :
  fits p → blocks p !! k = Some b → first_id (blocks p) k ≤ oid < first_id (blocks p) k + ids_of b → is_u64 oid.
Proof.
  intros Hf Hb Hin. rewrite <- (first_id_S _ _ _ Hb) in Hin. pose proof (lookup_lt_Some _ _ _ Hb) as Hlt.
  rewrite length_blocks in Hlt. pose proof (first_id_range p k Hf ltac:(lia)).
  pose proof (first_id_range p (Datatypes.S k) Hf ltac:(lia)). unfold is_u64. lia.
Qed.

Lemma upload_durable (p p' : Pipe) now k i j :
  durable p i j → fits p → upload_one now k p = Some p' → durable p' i j.
Proof.
  intros [[? ?] Hpo Ht Hp Hu Ha Hm Hr Hs Hst] Hfit. unfold upload_one.
  destruct (bool_decide_reflect (k ∈ pl_uploads p)) as [Hin|]; [|done].
  destruct (pl_contexts p !! k) as [c|] eqn:Ec; [|done]. cbn [mbind option_bind].
  assert (cores p !! k = Some (core c)) as Hc by (unfold cores; by rewrite list_lookup_fmap, Ec).
  assert (blocks p !! k = Some (tc_cache c)) as Hb by (unfold blocks; by rewrite list_lookup_fmap, Ec).
  destruct (Hu k Hin) as [Hlt Hnone]. specialize (Hnone _ _ _ Hc). cbn in Hnone.
  destruct (Hp k _ _ _ Hc) as [[_ Et]|[Hx _]]; [lia| |congruence]. rewrite Et.
  pose proof (first_id_range p (Datatypes.S k) Hfit ltac:(lia)) as Hrg. rewrite (first_id_S _ _ _ Hb) in Hrg.
  pose proof (first_id_range p k Hfit ltac:(lia)) as Hrg0.
  destruct (upload_block (pl_store p) now (tc_cache c) (first_id (blocks p) k)) as (s' & r & -> & Hub & Hunt);
    [by eapply fits_block_ok|lia|lia|].
  cbn [mbind option_bind]. intros [= <-]. set (task := prepared _ _ (Some r)). set (p1 := set_store _ _).
  set (f := complete_upload (Ok tt) ∘ set_task task).
  destruct (cores_update f k p1 c Ec) as [Eco Ebl]; [done|]. change (cores p1) with (cores p) in Eco.
  change (blocks p1) with (blocks p) in Ebl. set (p' := on_ctx f k p1) in *.
  assert (length (pl_contexts p') = length (pl_contexts p)) as El by (by rewrite <- !length_blocks, Ebl).
  assert (∀ n x, n ≠ k → cores p' !! n = Some x → cores p !! n = Some x) as Hother.
  { intros n x Hne. by rewrite Eco, list_lookup_insert_ne. }
  assert (∀ n b oid, n ≠ k → blocks p !! n = Some b →
    first_id (blocks p) n ≤ oid < first_id (blocks p) n + ids_of b →
    is_u64 oid ∧ ¬ (first_id (blocks p) k ≤ oid < first_id (blocks p) k + ids_of (tc_cache c))) as Hapart.
  { intros n b oid Hne Hbn Hoid. split; [by eapply block_ids_u64|by eapply ids_apart]. }
  constructor; rewrite ?Ebl, ?El; try done.
  - intros n b t u Hn Hge. eapply Ht; [apply Hother; [|exact Hn]|]; lia.
  - intros n b t u Hn Hlt'. destruct (decide (n = k)) as [->|Hne].
    + rewrite Eco, list_lookup_insert_eq in Hn by (by eapply lookup_lt_Some). injection Hn as <- <- <-. right.
      cbn. rewrite Hnone. split; [done|]. by exists r.
    + apply Hother in Hn; [|done]. destruct (Hp n b t u Hn Hlt') as [?|(? & r' & ? & [H1 H2 H3 H4 H5 H6])]; [by left|right].
      split; [done|]. exists r'. split; [done|]. constructor; try done. intros st rs Hrs.
      destruct (H1 st rs Hrs) as (oid & Hoid & Hpl). exists oid. split; [done|].
      destruct (Hapart n b oid Hne (cores_blocks _ _ _ _ _ Hn) Hoid). by eapply placed_keep.
  - intros n Hn. apply list_elem_of_filter in Hn as [Hne Hn]. destruct (Hu n Hn) as [? Hz]. split; [done|].
    intros b t u Hcn. by eapply Hz, Hother.
  - intros n b Hn Hlt' st rs Hrs. destruct (Hr n b Hn Hlt' st rs Hrs) as (start & end_ & o & Hrd & Hid).
    exists start, end_, o. split; [|done]. rewrite (first_id_S _ _ _ Hn) in Hid.
    destruct (Hapart n b (om_object_id o) ltac:(lia) Hn Hid). by eapply readable_store.
Qed.

(** *** Commit *)

Lemma block_record_elem b st rs r : block_records b !! st = Some rs → r ∈ rs → r ∈ stream_records st b.
Proof.
  unfold block_records, stream_records. rewrite lookup_fmap. destruct (lb_map b !! st) as [c|]; [|done]. cbn. by intros [= <-].
Qed.

(** Earlier blocks hold earlier records. *)
Lemma blocks_ordered max cnt hist (p : Pipe) k k' b b' st r r' :
  pipe_ok max cnt hist p → ordered hist → blocks p !! k = Some b → blocks p !! k' = Some b' → (k < k')%nat →
  r ∈ stream_records st b → r' ∈ stream_records st b' → base_offset r < base_offset r'.
Proof.
  intros Hok [Hs _] Hb Hb' Hlt Hr Hr'. destruct (pipe_partition _ _ _ _ st Hok) as (a & _ & E). specialize (Hs st).
  rewrite E in Hs. apply StronglySorted_app in Hs as (_ & Hs & _).
  unfold blocks in *. rewrite list_lookup_fmap in Hb, Hb'.
  destruct (pl_contexts p !! k) as [c|] eqn:Ek; [|done]. injection Hb as <-.
  destruct (pl_contexts p !! k') as [c'|] eqn:Ek'; [|done]. injection Hb' as <-.
  rewrite <- (take_drop k' (pl_contexts p)), bind_app in Hs. apply StronglySorted_app in Hs as (Hx & _ & _). apply Hx.
  - apply list_elem_of_bind. exists c. split; [done|]. apply (list_elem_of_lookup_2 _ k). by rewrite lookup_take_lt.
  - apply list_elem_of_bind. exists c'. split; [done|]. apply (list_elem_of_lookup_2 _ 0%nat).
    by rewrite lookup_drop, Nat.add_0_r.
Qed.

Lemma block_in_history max cnt hist (p : Pipe) k b st r :
  pipe_ok max cnt hist p → blocks p !! k = Some b → r ∈ stream_records st b → r ∈ of_stream st hist.*1.
Proof.
  intros Hok Hb Hr. destruct (pipe_partition _ _ _ _ st Hok) as (a & _ & ->). apply elem_of_app. left.
  unfold blocks in Hb. rewrite list_lookup_fmap in Hb. destruct (pl_contexts p !! k) as [c|] eqn:Ek; [|done]. injection Hb as <-.
  apply list_elem_of_bind. exists c. split; [done|]. by eapply list_elem_of_lookup_2.
Qed.

(** The request of the next block to commit names new ids and new offsets. *)
Lemma request_fresh max cnt hist (p : Pipe) i j b r :
  pipe_ok max cnt hist p → ordered hist → durable p i j → blocks p !! i = Some b →
  uploaded_block (pl_store p) b (first_id (blocks p) i) r →
  (cr_object_id r ≠ NOOP_OBJECT_ID → ms_stream_set_objects (pl_manager p) !! cr_object_id r = None)
  ∧ ∀ so o, so ∈ cr_stream_objects r →
      find_object (so_stream_id so) (so_start_offset so) (ms_stream_objects (pl_manager p)) = Some o → False.
Proof.
  intros Hok Hord Hdu Hb [_ _ _ Hid Hst _]. split.
  - intros Hne. destruct (ms_stream_set_objects (pl_manager p) !! cr_object_id r) as [o|] eqn:E; [|done].
    apply (du_set _ _ _ Hdu) in E. specialize (Hid Hne). lia.
  - intros so o Hin Ho. destruct (Hst so Hin) as (rs & Hrs & Hhd).
    destruct (head rs) as [r0|] eqn:Eh; [|done]. injection Hhd as Hbase.
    assert (r0 ∈ stream_records (so_stream_id so) b) as Hr0.
    { eapply block_record_elem; [done|]. destruct rs; [done|]. injection Eh as ->. by left. }
    destruct (du_starts _ _ _ Hdu _ _ _ Ho) as [[o0 Ho0]|(k & b' & r' & Hk & Hb' & Hr' & Hst')].
    + destruct Hord as (_ & Hord & _). specialize (Hord _ _ _ Ho0 r0 (block_in_history _ _ _ _ _ _ _ _ Hok Hb Hr0)). lia.
    + pose proof (blocks_ordered _ _ _ _ _ _ _ _ _ _ _ Hok Hord Hb' Hb Hk Hr' Hr0). lia.
Qed.

Lemma commit_manager_durable max cnt hist (p p' : Pipe) now i j b r :
  pipe_ok max cnt hist p → ordered hist → durable p i j → (i < j)%nat → blocks p !! i = Some b →
  uploaded_block (pl_store p) b (first_id (blocks p) i) r → i ∉ pl_uploads p →
  cores p' = cores p → pl_store p' = pl_store p → pl_uploads p' = pl_uploads p → pl_poisoned p' = pl_poisoned p →
  pl_manager p' = (commit_stream_set_object now r (pl_manager p)).1 →
  durable p' (Datatypes.S i) j.
Proof.
  intros Hok Hord Hdu Hlt Hb Hub Hnu Ec Es Eu Ep Em.
  destruct (request_fresh _ _ _ _ _ _ _ _ Hok Hord Hdu Hb Hub) as [Hf1 Hf2].
  destruct Hub as [Hpl Hcp Hnd Hid Hsts _]. destruct Hdu as [[? ?] Hpo Ht Hp Hu Ha Hm Hr Hs Hst].
  assert (blocks p' = blocks p) as Eb by (by rewrite !blocks_of_cores, Ec).
  assert (length (pl_contexts p') = length (pl_contexts p)) as El by (by rewrite <- !length_blocks, Eb).
  pose proof (first_id_S _ _ _ Hb) as Eid. pose proof (ids_nonneg b) as Hnn.
  constructor; rewrite ?Ec, ?Eb, ?Es, ?Eu, ?Ep, ?El, ?Em; try done.
  - intros k Hk. destruct (Hu k Hk) as [? ?]. split; [|done]. assert (k ≠ i) by (intros ->; done). lia.
  - by rewrite commit_alloc.
  - by destruct (mstep_ok _ _ (ms_commit (pl_manager p) now r) Hm) as [? _].
  - intros k b' Hk Hlt' st rs Hrs. destruct (decide (k = i)) as [->|Hne].
    + rewrite Hb in Hk. injection Hk as <-. destruct (Hpl st rs Hrs) as (oid & Hoid & Hplc).
      destruct (placed_readable (pl_store p) now r (pl_manager p) st rs oid Hcp Hnd Hplc) as (start & end_ & o & Hrd & <-).
      exists start, end_, o. split; [done|]. rewrite Eid. lia.
    + destruct (Hr k b' Hk ltac:(lia) st rs Hrs) as (start & end_ & o & Hrd & Ho). exists start, end_, o. split; [|done].
      eapply readable_meta; [|exact Hrd]. intros. by apply commit_keeps.
  - intros id o Ho. rewrite Eid. destruct (commit_set_objects now r _ id o Hcp Ho) as [Ho'|[-> Hne]].
    + specialize (Hs _ _ Ho'). lia.
    + specialize (Hid Hne). lia.
  - intros st start o Ho. apply commit_find_object in Ho as [Ho|(so & E & Hin)%list_elem_of_fmap].
    + destruct (Hst _ _ _ Ho) as [?|(k & b' & r' & ? & ?)]; [by left|right]. exists k, b', r'. split; [lia|done].
    + right. injection E as -> ->. destruct (Hsts so Hin) as (rs & Hrs & Hhd).
      destruct rs as [|r0 rs]; [done|]. injection Hhd as Hbase. exists i, b, r0. split_and!; try done; [lia|].
      eapply block_record_elem; [done|]. by left.
Qed.

(** *** All steps *)

(** How many contexts are through, and how many are prepared. *)
Definition done_of (p : Pipe) : nat := (length (pl_contexts p) - length (pl_inflight p))%nat.
Definition prepared_of (p : Pipe) : nat := (length (pl_contexts p) - length (pl_prepare p))%nat.

Lemma queues_counts (p : Pipe) e i j : queues p e i j → done_of p = i ∧ prepared_of p = j.
Proof.
  intros [[? ?] Hi _ Hp _ _ _ _ _]. unfold done_of, prepared_of. rewrite Hi, Hp, !length_seq. lia.
Qed.

Definition durable_now (p : Pipe) : Prop := durable p (done_of p) (prepared_of p).

Lemma now_same (p p' : Pipe) :
  cores p' = cores p → pl_store p' = pl_store p → pl_manager p' = pl_manager p → pl_uploads p' = pl_uploads p →
  pl_poisoned p' = pl_poisoned p → pl_inflight p' = pl_inflight p → pl_prepare p' = pl_prepare p →
  durable_now p → durable_now p'.
Proof.
  intros Ec Es Em Eu Ep Ei Eq. unfold durable_now, done_of, prepared_of.
  assert (length (pl_contexts p') = length (pl_contexts p)) as El.
  { apply (f_equal length) in Ec. unfold cores in Ec. by rewrite !length_fmap in Ec. }
  rewrite Ei, Eq, El. by apply durable_same.
Qed.

Lemma cores_burst (contexts : list TaskContext) (ks : list nat) :
  core <$> foldr (alter burst) contexts ks = core <$> contexts.
Proof.
  induction ks as [|k ks IH]; [done|]. cbn. rewrite <- IH. apply list_eq. intros i. rewrite !list_lookup_fmap.
  destruct (decide (i = k)) as [->|Hne].
  - rewrite list_lookup_alter_eq. by destruct (foldr (alter burst) contexts ks !! k).
  - by rewrite list_lookup_alter_ne.
Qed.

Lemma archive_durable (p p' : Pipe) stream force k :
  archive_and_submit config stream force p = Some (p', k) → durable_now p → durable_now p'.
Proof.
  unfold archive_and_submit. destruct (archive_current_block_if_contains _ _) as [[c [b|]]|]; [..|done]; cbn [mbind option_bind].
  - unfold submit_block_upload. intros [= <- <-] Hd. unfold durable_now in *.
    set (contexts := if force then _ else _). set (p1 := set_queues _ _ _ _ _).
    assert (length contexts = Datatypes.S (length (pl_contexts p))) as El.
    { unfold contexts. destruct force; cbn; rewrite ?length_alter, ?length_burst, length_app; cbn; lia. }
    assert (done_of p1 = done_of p ∧ prepared_of p1 = prepared_of p) as [-> ->].
    { unfold done_of, prepared_of. cbn. rewrite El, !length_app. cbn. lia. }
    apply (durable_submit p _ _ _ b); try done. unfold cores. cbn. unfold contexts.
    destruct force; [rewrite cores_burst|]; by rewrite fmap_app.
  - intros [= <- <-]. by apply now_same.
Qed.

Lemma confirm_durable (p p' : Pipe) r o archived added :
  confirm_put config r o p = Some (p', archived, added) → durable_now p → durable_now p'.
Proof.
  unfold confirm_put. destruct (put r (pl_cache p)) as [[c added1]|]; [|done]. cbn [mbind option_bind].
  destruct added1; [intros [= <- <- <-]; by apply now_same|].
  destruct (archive_and_submit _ _ _ _) as [[p2 k]|] eqn:E; [|done]. cbn [mbind option_bind].
  destruct (put r (pl_cache p2)) as [[c2 added2]|]; [|done]. cbn [mbind option_bind]. intros [= <- <- <-] Hd.
  eapply now_same; [..|eapply archive_durable; [exact E|by eapply now_same, Hd]]; done.
Qed.

Lemma cores_alter f k (p : Pipe) : (∀ c, core (f c) = core c) → cores (on_ctx f k p) = cores p.
Proof.
  intros Hf. unfold cores, on_ctx. cbn. apply list_eq. intros i. rewrite !list_lookup_fmap.
  destruct (decide (i = k)) as [->|Hne].
  - rewrite list_lookup_alter_eq. destruct (pl_contexts p !! k); cbn; [by rewrite Hf|done].
  - by rewrite list_lookup_alter_ne.
Qed.

Lemma trim_now_durable o k (p : Pipe) : durable_now p → durable_now (trim_now o k p).
Proof.
  unfold trim_now. destruct (wal_trim (pl_wal p) o) as [w r]. apply now_same; try done. by rewrite cores_alter.
Qed.

Lemma run_trim_durable n (p p' : Pipe) : run_trim n p = Some p' → durable_now p → durable_now p'.
Proof.
  unfold run_trim. destruct (pl_trim_tasks p !! n) as [t|]; [|done]. cbn [mbind option_bind]. intros H Hd.
  destruct t as [o k|].
  - injection H as <-. apply trim_now_durable. by apply (now_same p).
  - cbn [pl_trim_queue set_trim] in H. destruct (pl_trim_queue p) as [|[o k] rest]; injection H as <-.
    + by apply (now_same p).
    + apply trim_now_durable. by apply (now_same p).
Qed.

Lemma flush_durable (p : Pipe) : durable_now p → durable_now (flush_trims p).
Proof.
  intros Hd. unfold flush_trims. set (p1 := set_trim _ _ _ p). assert (durable_now p1) as Hd1 by (by apply (now_same p)).
  clearbody p1. clear Hd. revert p1 Hd1. induction (pl_trim_queue p) as [|q queue IH]; intros p1 Hd1; [done|].
  apply IH. by apply trim_now_durable.
Qed.

(** What a turn of the commit worker does. *)
Record commit_effect (p p' : Pipe) (now : Z) (b : LogCacheBlock) (r : CommitStreamSetObjectRequest) : Prop := {
  ce_lt : (done_of p < prepared_of p)%nat;
  ce_block : blocks p !! done_of p = Some b;
  ce_uploaded : uploaded_block (pl_store p) b (first_id (blocks p) (done_of p)) r;
  ce_uploads : ¬ (done_of p ∈ pl_uploads p);
  ce_cores : cores p' = cores p;
  ce_store : pl_store p' = pl_store p;
  ce_upl : pl_uploads p' = pl_uploads p;
  ce_poisoned : pl_poisoned p' = pl_poisoned p;
  ce_manager : pl_manager p' = (commit_stream_set_object now r (pl_manager p)).1;
  ce_done : done_of p' = Datatypes.S (done_of p);
  ce_prepared : prepared_of p' = prepared_of p;
}.

Lemma commit_one_effect max cnt hist (p p' : Pipe) now :
  pipe_ok max cnt hist p → durable_now p → commit_one delay_trim_ms now p = Some p' →
  ∃ b r, commit_effect p p' now b r.
Proof.
  intros Hok Hd. pose proof Hok as (chunks & tail & e & i & j & _ & Hq). unfold commit_one, durable_now in *.
  destruct (queues_counts _ _ _ _ Hq) as [Ei Ej]. rewrite Ei, Ej in Hd.
  pose proof (qu_commit _ _ _ _ Hq) as Ecm. destruct (j - i)%nat as [|d] eqn:Ed; [by rewrite Ecm|].
  rewrite Ecm. cbn [seq]. destruct (pl_contexts p !! i) as [c|] eqn:Ec; [|done]. cbn [mbind option_bind pl_poisoned set_queues].
  rewrite (du_poisoned _ _ _ Hd).
  assert (cores p !! i = Some (core c)) as Hc by (unfold cores; by rewrite list_lookup_fmap, Ec).
  assert (blocks p !! i = Some (tc_cache c)) as Hb by (unfold blocks; by rewrite list_lookup_fmap, Ec).
  destruct (tc_upload_done c) as [u|] eqn:Eu; [|done]. cbn [mbind option_bind].
  destruct (du_prep _ _ _ Hd i _ _ _ Hc) as [[Hx _]|(Hx & r & Et & Hub)]; [lia|congruence|].
  rewrite Eu in Hx. injection Hx as ->. rewrite Et. unfold commit. cbn [prepared ut_commit_request mbind option_bind mgr_commit memory_object_manager].
  intros [= <-]. set (p1 := set_manager _ _).
  set (p2 := match lb_last_record_offset (tc_cache c) with Some o => _ | None => _ end).
  set (p' := remove_inflight _ _).
  assert (cores p2 = cores p) as E2.
  { unfold p2. destruct (lb_last_record_offset _); [|by rewrite cores_alter].
    unfold delay_trim. by destruct (_ =? 0). }
  assert (cores p' = cores p) as E'.
  { unfold p'. change (cores (on_ctx (complete_cf (Ok tt)) i (set_cache (mark_free (lb_block_id (tc_cache c)) (pl_cache p2)) p2)) = cores p).
    by rewrite cores_alter. }
  assert (length (pl_contexts p') = length (pl_contexts p)) as El.
  { apply (f_equal length) in E'. unfold cores in E'. by rewrite !length_fmap in E'. }
  assert (pl_store p' = pl_store p ∧ pl_uploads p' = pl_uploads p ∧ pl_poisoned p' = pl_poisoned p
    ∧ pl_manager p' = (commit_stream_set_object now r (pl_manager p)).1
    ∧ pl_inflight p' = filter (λ x, x ≠ i) (pl_inflight p) ∧ pl_prepare p' = pl_prepare p) as (? & ? & ? & ? & Einf & Epr).
  { unfold p', p2. destruct (lb_last_record_offset _); [unfold delay_trim; destruct (_ =? 0)|]; done. }
  assert (done_of p' = Datatypes.S i ∧ prepared_of p' = j) as [Ed' Ep'].
  { pose proof (qu_le _ _ _ _ Hq). unfold done_of, prepared_of in *. rewrite El, Einf, Epr, (qu_inflight _ _ _ _ Hq), filter_seq_head, length_seq. lia. }
  exists (tc_cache c), r. constructor; rewrite ?Ei, ?Ej; try done; [lia|].
  intros Hin. destruct (du_uploads _ _ _ Hd i Hin) as [_ Hn]. specialize (Hn _ _ _ Hc). congruence.
Qed.

Lemma commit_durable max cnt hist (p p' : Pipe) now :
  pipe_ok max cnt hist p → ordered hist → durable_now p → commit_one delay_trim_ms now p = Some p' → durable_now p'.
Proof.
  intros Hok Hord Hd Hc. destruct (commit_one_effect _ _ _ _ _ _ Hok Hd Hc) as (b & r & []).
  unfold durable_now in *. rewrite ce_done0, ce_prepared0. by eapply (commit_manager_durable max cnt hist p).
Qed.

Lemma pstep_durable max cnt x y :
  pipe_ok max cnt x.1 x.2 → fits x.2 → ordered x.1 → pstep config delay_trim_ms x y → durable_now x.2 → durable_now y.2.
Proof.
  intros Hok Hf Hord.
  destruct 1 as [hist p r o p' archived added Hc H|hist p stream force p' k H|hist p p' H|hist p now k p' H
    |hist p now p' H|hist p i p' H|hist p stream off end_ m c rs H|hist p w|hist p]; cbn [fst snd] in *; intros Hd.
  - by eapply confirm_durable.
  - by eapply archive_durable.
  - pose proof Hok as (chunks & tail & e & i & j & _ & Hq). destruct (queues_counts _ _ _ _ Hq) as [Ei Ej].
    unfold durable_now in *. rewrite Ei, Ej in Hd.
    pose proof (prepare_durable _ _ _ _ Hd Hf (qu_prepare _ _ _ _ Hq) H) as Hd'.
    assert (done_of p' = i ∧ prepared_of p' = Datatypes.S j) as [-> ->]; [|done].
    unfold prepare_one in H. rewrite (qu_prepare _ _ _ _ Hq) in H. pose proof (qu_le _ _ _ _ Hq).
    destruct (length (pl_contexts p) - j)%nat as [|d] eqn:Ed; [done|]. cbn [seq] in H.
    destruct (pl_contexts p !! j); [|done]. cbn in H. injection H as <-.
    unfold done_of, prepared_of. cbn. rewrite length_alter, length_seq, (qu_inflight _ _ _ _ Hq), length_seq. lia.
  - pose proof Hok as (chunks & tail & e & i & j & _ & Hq). destruct (queues_counts _ _ _ _ Hq) as [Ei Ej].
    unfold durable_now in *. rewrite Ei, Ej in Hd. pose proof (upload_durable _ _ _ _ _ _ Hd Hf H) as Hd'.
    assert (done_of p' = done_of p ∧ prepared_of p' = prepared_of p) as [-> ->]; [|by rewrite Ei, Ej].
    unfold upload_one in H. destruct (bool_decide _); [|done]. destruct (pl_contexts p !! k); [|done]. cbn in H.
    destruct (upload _ _ _) as [[s [?|?]]|]; [..|done]; injection H as <-; unfold done_of, prepared_of; cbn; by rewrite length_alter.
  - by eapply commit_durable.
  - by eapply run_trim_durable.
  - by apply (now_same p).
  - by apply (now_same p).
  - by apply flush_durable.
Qed.

(** *** Blocks and history only grow *)

Lemma blocks_alter f k (p : Pipe) : (∀ c, tc_cache (f c) = tc_cache c) → blocks (on_ctx f k p) = blocks p.
Proof.
  intros Hf. unfold blocks, on_ctx. cbn. apply list_eq. intros i. rewrite !list_lookup_fmap.
  destruct (decide (i = k)) as [->|Hne].
  - rewrite list_lookup_alter_eq. destruct (pl_contexts p !! k); cbn; [by rewrite Hf|done].
  - by rewrite list_lookup_alter_ne.
Qed.

Lemma archive_blocks (p p' : Pipe) stream force k :
  archive_and_submit config stream force p = Some (p', k) → blocks p `prefix_of` blocks p'.
Proof.
  unfold archive_and_submit. destruct (archive_current_block_if_contains _ _) as [[c [b|]]|]; [..|done]; cbn [mbind option_bind].
  - unfold submit_block_upload. intros [= <- <-]. exists [b]. unfold blocks. cbn.
    destruct force; [|by rewrite fmap_app].
    change (tc_cache <$> foldr (alter burst) (pl_contexts p ++ [mkCtx b (plan config (block_records b)) None None None true])
      (pl_inflight p ++ [length (pl_contexts p)]) = (tc_cache <$> pl_contexts p) ++ [b]).
    assert (∀ cs ks, tc_cache <$> foldr (alter burst) cs ks = tc_cache <$> cs) as ->; [|by rewrite fmap_app].
    intros cs ks. pose proof (cores_burst cs ks) as E. apply (f_equal (fmap (λ x, x.1.1))) in E.
    by rewrite <- !list_fmap_compose in E.
  - by intros [= <- <-].
Qed.

Lemma trim_now_blocks o k (p : Pipe) : blocks (trim_now o k p) = blocks p.
Proof. unfold trim_now. destruct (wal_trim (pl_wal p) o). by rewrite blocks_alter. Qed.

Lemma commit_blocks (p p' : Pipe) now : commit_one delay_trim_ms now p = Some p' → blocks p' = blocks p.
Proof.
  unfold commit_one. destruct (pl_commit p) as [|k rest]; [done|]. destruct (pl_contexts p !! k) as [c|]; [|done].
  cbn [mbind option_bind]. set (p0 := set_queues _ _ _ _ p).
  assert (∀ q : Pipe, blocks (drop_context k q) = blocks q) as Hdrop.
  { intros q. unfold drop_context. change (blocks (on_ctx (complete_trim failed ∘ complete_cf failed) k q) = blocks q).
    by apply blocks_alter. }
  destruct (pl_poisoned p0); [intros [= <-]; exact (Hdrop p0)|].
  destruct (tc_upload_done c) as [[u|u]|]; [..|done]; cbn [mbind option_bind]; [|intros [= <-]; exact (Hdrop p0)].
  destruct (commit now (tc_task c) (pl_manager p0)) as [[m [v|v]]|]; [..|done]; cbn [mbind option_bind]; intros [= <-];
    [|exact (Hdrop (set_manager m p0))].
  set (p2 := match lb_last_record_offset (tc_cache c) with Some o => _ | None => _ end).
  change (blocks (on_ctx (complete_cf (Ok tt)) k (set_cache (mark_free (lb_block_id (tc_cache c)) (pl_cache p2)) p2)) = blocks p).
  rewrite blocks_alter by done. unfold p2. destruct (lb_last_record_offset _); [|by apply (blocks_alter _ _ (set_manager m p0))].
  unfold delay_trim. by destruct (_ =? 0).
Qed.

Lemma pstep_grows x y : pstep config delay_trim_ms x y → x.1 `prefix_of` y.1 ∧ blocks x.2 `prefix_of` blocks y.2.
Proof.
  destruct 1 as [hist p r o p' archived added Hc H|hist p stream force p' k H|hist p p' H|hist p now k p' H
    |hist p now p' H|hist p i p' H|hist p stream off end_ m c rs H|hist p w|hist p]; cbn [fst snd];
    (split; [try done; by eexists|]); try done.
  - unfold confirm_put in H. destruct (put r (pl_cache p)) as [[c added1]|]; [|done]. cbn [mbind option_bind] in H.
    destruct added1; [by injection H as <- <- <-|].
    destruct (archive_and_submit _ _ _ _) as [[p2 k]|] eqn:E; [|done]. cbn [mbind option_bind] in H.
    destruct (put r (pl_cache p2)) as [[c2 added2]|]; [|done]. cbn [mbind option_bind] in H. injection H as <- <- <-.
    by apply archive_blocks in E.
  - by eapply archive_blocks.
  - unfold prepare_one in H. destruct (pl_prepare p) as [|k rest]; [done|]. destruct (pl_contexts p !! k); [|done].
    cbn in H. injection H as <-. by rewrite blocks_alter.
  - unfold upload_one in H. destruct (bool_decide _); [|done]. destruct (pl_contexts p !! k); [|done]. cbn in H.
    destruct (upload _ _ _) as [[s [?|?]]|]; [..|done]; injection H as <-; by rewrite blocks_alter.
  - by rewrite (commit_blocks _ _ _ H).
  - unfold run_trim in H. destruct (pl_trim_tasks p !! i) as [[o k|]|]; [..|done]; cbn in H.
    + injection H as <-. by rewrite trim_now_blocks.
    + destruct (pl_trim_queue p) as [|[o k] rest]; injection H as <-; [done|]. by rewrite trim_now_blocks.
  - unfold flush_trims. assert (∀ q (p1 : Pipe), blocks (foldl (λ p q, trim_now q.1 q.2 p) p1 q) = blocks p1) as ->; [|done].
    intros q. induction q as [|x q IH]; intros p1; [done|]. cbn. by rewrite IH, trim_now_blocks.
Qed.

Lemma ordered_prefix h h' : h `prefix_of` h' → ordered h' → ordered h.
Proof.
  intros [k ->] (Hs & Hm & Hf). split; [|split; [|by apply Forall_app in Hf as [? _]]].
  - intros st. specialize (Hs st). rewrite fmap_app, of_stream_app in Hs. by apply StronglySorted_app in Hs as (_ & ? & _).
  - intros st start o Ho r Hr. eapply Hm; [done|]. rewrite fmap_app, of_stream_app. apply elem_of_app. by left.
Qed.

Lemma fits_prefix (p p' : Pipe) : blocks p `prefix_of` blocks p' → fits p' → fits p.
Proof.
  intros [k E] [Hf Hid]. unfold fits. rewrite E in *. apply Forall_app in Hf as [Hf _]. split; [done|].
  rewrite length_app in Hid. clear E Hf. induction k as [|b k IH] using rev_ind.
  - by rewrite app_nil_r, Nat.add_0_r in Hid.
  - apply IH. pose proof (first_id_mono ((blocks p ++ k) ++ [b]) (length (blocks p ++ k)) (length (blocks p) + length (k ++ [b]))) as Hm.
    rewrite !length_app in *. rewrite app_assoc in Hid. specialize (Hm ltac:(lia)).
    rewrite first_id_app in Hm by (rewrite length_app; lia). lia.
Qed.

Lemma psteps_durable max cnt (Hmax : 0 < max ≤ 2 ^ 63) (Hcnt : 0 < cnt) x y :
  rtc (pstep config delay_trim_ms) x y → pipe_ok max cnt x.1 x.2 → fits y.2 → ordered y.1 → durable_now x.2 →
  pipe_ok max cnt y.1 y.2 ∧ durable_now y.2 ∧ x.1 `prefix_of` y.1 ∧ blocks x.2 `prefix_of` blocks y.2.
Proof.
  intros Hrun. induction Hrun as [x|x z y Hxz Hzy IH]; [done|]. intros Hok Hf Hord Hd.
  assert (∀ a b, rtc (pstep config delay_trim_ms) a b → a.1 `prefix_of` b.1 ∧ blocks a.2 `prefix_of` blocks b.2) as Hgrow.
  { induction 1 as [|a b c Hab _ [? ?]]; [done|]. destruct (pstep_grows _ _ Hab). split; by etrans. }
  destruct (Hgrow x y) as [Hp1 Hp2]; [by eapply rtc_l|].
  assert (fits x.2) by (by eapply fits_prefix). assert (ordered x.1) by (by eapply ordered_prefix).
  destruct IH as (? & ? & ? & ?); [| done | done | |done].
  - eapply pstep_ok; try done. intros m n. cbn. by eexists _, _.
  - by eapply pstep_durable.
Qed.

Lemma ssteps_durable max cnt (Hmax : 0 < max ≤ 2 ^ 63) (Hcnt : 0 < cnt) x y :
  rtc (sstep config delay_trim_ms) x y → pipe_ok max cnt x.1 (si_pipe x.2) → fits (si_pipe y.2) → ordered y.1 →
  durable_now (si_pipe x.2) → pipe_ok max cnt y.1 (si_pipe y.2) ∧ durable_now (si_pipe y.2).
Proof.
  intros Hrun Hok Hf Hord Hd.
  pose proof (ssteps_psteps config delay_trim_ms _ _ Hrun) as H.
  by destruct (psteps_durable max cnt Hmax Hcnt _ _ H) as (? & ? & _).
Qed.

Lemma new_durable (s : S) (w : W) :
  manager_ok m0 → (∀ id o, ms_stream_set_objects m0 !! id = Some o → id < ms_object_id_alloc m0) →
  durable_now (si_pipe (storage_new config s m0 w)).
Proof.
  intros Hm Hset. constructor; try done.
  - intros k H. by apply not_elem_of_nil in H.
  - cbn. unfold first_id. cbn. lia.
  - intros id o Ho. unfold first_id. cbn. specialize (Hset id o Ho). lia.
  - intros st start o Ho. left. by exists o.
Qed.

Lemma committed_done max cnt hist (p : Pipe) k ctx :
  pipe_ok max cnt hist p → committed_ctx p k ctx → (k < done_of p)%nat ∧ blocks p !! k = Some (tc_cache ctx).
Proof.
  intros (chunks & tail & e & i & j & _ & Hq) [Hctx Hcf]. destruct (queues_counts _ _ _ _ Hq) as [-> _].
  split; [|unfold blocks; by rewrite list_lookup_fmap, Hctx].
  pose proof (qu_le _ _ _ _ Hq). rewrite (qu_cf _ _ _ _ Hq k (tc_cache ctx) (tc_cf ctx)) in Hcf
    by (unfold views; by rewrite list_lookup_fmap, Hctx). unfold cf_at in Hcf. repeat case_decide; try done. lia.
Qed.

(** A record of a committed block is found and read back. *)
Lemma committed_found max cnt hist (p : Pipe) k ctx r :
  pipe_ok max cnt hist p → durable_now p → ordered hist → committed_ctx p k ctx →
  r ∈ stream_records (stream_id r) (tc_cache ctx) →
  record_readable (pl_store p) (pl_manager p) r.
Proof.
  intros Hok Hd Hord Hcom Hr. destruct (committed_done _ _ _ _ _ _ Hok Hcom) as [Hk Hb]. destruct Hcom as [Hctx _].
  pose proof Hr as Hr'. unfold stream_records in Hr'. destruct (lb_map (tc_cache ctx) !! stream_id r) as [c|] eqn:Ec; [|by apply not_elem_of_nil in Hr'].
  cbn in Hr'. assert (block_records (tc_cache ctx) !! stream_id r = Some (sc_records c)) as Hrs
    by (unfold block_records; by rewrite lookup_fmap, Ec).
  destruct (du_readable _ _ _ Hd k _ Hb Hk _ _ Hrs) as (start & end_ & o & [Hs He Hreg (index & ops & Hrd & Hin)] & _).
  eapply readable_record; [apply Hd|by constructor; [..|exists index, ops]|done|done|..].
  - destruct (pipe_partition _ _ _ _ (stream_id r) Hok) as (a & _ & E).
    destruct Hord as (Hsort & _ & _). specialize (Hsort (stream_id r)). rewrite E in Hsort.
    apply StronglySorted_app in Hsort as (_ & Hsort & _).
    rewrite <- (take_drop_middle _ _ _ Hctx), bind_app in Hsort. apply StronglySorted_app in Hsort as (_ & _ & Hsort).
    cbn [mbind list_bind] in Hsort. apply StronglySorted_app in Hsort as (_ & Hsort & _).
    unfold stream_records in Hsort. by rewrite Ec in Hsort.
  - apply Forall_forall. intros x Hx. assert (x ∈ of_stream (stream_id r) hist.*1) as Hxh.
    { eapply block_in_history; [done|done|]. unfold stream_records. by rewrite Ec. }
    apply list_elem_of_filter in Hxh as [_ Hxh]. apply list_elem_of_fmap in Hxh as ([x' o'] & -> & Hxh).
    destruct Hord as (_ & _ & Hspan). rewrite Forall_forall in Hspan. by apply (Hspan (x', o')).
Qed.

(** C3: an acknowledged record is never lost. In every state the storage can reach over
    the in-memory metadata plane, whatever the interleaving of confirms, seals, uploads,
    commits, trims and reads, each record the log has confirmed is still above every trim
    the storage issued, or a lookup of its offsets lists a registered object that reads
    back to it. The assumptions: a stream's batches are confirmed in offset order, sealed
    blocks fit one object, and the object ids do not overflow. *)
Theorem storage_acked_readable (s : S) (w : W) hist st r o :
  0 < cfg_max_stream_num_per_stream_set_object config → manager_ok m0 →
  (∀ id o, ms_stream_set_objects m0 !! id = Some o → id < ms_object_id_alloc m0) →
  rtc (sstep config delay_trim_ms) ([], storage_new config s m0 w) (hist, st) →
  ordered hist → fits (si_pipe st) → (r, o) ∈ hist →
  (∀ t, t ∈ pl_trims (si_pipe st) → ro_offset t < ro_offset o)
  ∨ record_readable (pl_store (si_pipe st)) (pl_manager (si_pipe st)) r.
Proof.
  intros Hcnt Hm Hset Hrun Hord Hf Hin.
  destruct (ssteps_durable _ _ (threshold_range config) Hcnt _ _ Hrun (new_pipe_ok config s m0 w) Hf Hord
    (new_durable s w Hm Hset)) as [Hok Hd]. cbn [fst snd] in *.
  destruct (decide (Forall (λ t, ro_offset t < ro_offset o) (pl_trims (si_pipe st)))) as [Hall|Hex].
  - left. by rewrite Forall_forall in Hall.
  - right. apply not_Forall_Exists, Exists_exists in Hex as (t & Ht & Hle); [|apply _].
    destruct (pipe_trim_safe _ _ _ _ t r o Hok Ht Hin) as (k & ctx & Hk & Hr); [cbn in Hle; lia|].
    by eapply committed_found.
Qed.
End Durable.

(** ** The normal run of [StorageRuns.v] *)

Module NormalRun.
Definition history : History := [(Runs.r1, Runs.o1); (Runs.r2, Runs.o2)].
Definition block_maps : list (gmap Z (list StreamRecordBatch)) := [{[7 := [Runs.r1]]}; {[7 := [Runs.r2]]}].

Definition check {S W} (x : History * StorageInner (S:=S) (M:=MetadataState) (W:=W)) : bool :=
  bool_decide (x.1 = history) && bool_decide (block_records <$> blocks (si_pipe x.2) = block_maps)
  && (first_id Runs.config manager_new (blocks (si_pipe x.2)) (length (blocks (si_pipe x.2))) <? 2 ^ 64)
  && bool_decide (Runs.o2 ∈ pl_trims (si_pipe x.2)).

Lemma block_maps_ok : Forall records_ok block_maps.
Proof.
  unfold block_maps. repeat apply Forall_cons_2; [..|constructor]; (split; [|vm_compute; reflexivity]);
    intros st rs [<- <-]%lookup_singleton_Some; (split; [done|]);
    (split; [vm_compute; intuition discriminate|]); apply Forall_singleton;
    (apply wf_new; [repeat constructor; vm_compute; intuition discriminate|vm_compute; reflexivity]).
Qed.

Lemma history_ordered : ordered manager_new history.
Proof.
  split; [|split].
  - intros st. unfold of_stream, history. cbn [fmap list_fmap].
    rewrite !filter_cons, filter_nil. change (stream_id (Runs.r1, Runs.o1).1) with 7.
    change (stream_id (Runs.r2, Runs.o2).1) with 7.
    case_decide; repeat constructor.
  - intros st start o H. done.
  - repeat constructor.
Qed.
End NormalRun.

Lemma storage_acked_readable_witness :
  ∃ hist st, rtc (sstep Runs.config (delay_trim_of Runs.config)) (Runs.start manager_new) (hist, st)
    ∧ Runs.o2 ∈ pl_trims (si_pipe st)
    ∧ ∃ ob index ops rs,
        object_reads (pl_store (si_pipe st)) (object_key (om_object_id ob)) (om_object_size ob) index ops
        ∧ (7, rs) ∈ ops ∧ Runs.r1 ∈ rs.
Proof.
  destruct (exec_ops_check Runs.config normal_run (Runs.start manager_new) NormalRun.check)
    as ([hist st] & Hrun & Hc); [vm_compute; reflexivity|].
  apply andb_prop in Hc as [[[H1%bool_decide_eq_true_1 H2%bool_decide_eq_true_1]%andb_prop H3%Z.ltb_lt]%andb_prop
    H4%bool_decide_eq_true_1]. cbn [fst snd] in *.
  exists hist, st. split; [done|]. split; [done|].
  destruct (storage_acked_readable Runs.config (delay_trim_of Runs.config) manager_new ltac:(done)
    (ms_new 0) (mem_start (mem_new 1 0)) hist st Runs.r1 Runs.o1) as [H|H].
  - done.
  - apply manager_new_ok.
  - intros id o H. done.
  - exact Hrun.
  - rewrite H1. apply NormalRun.history_ordered.
  - split; [|done]. change (Forall (records_ok ∘ block_records) (blocks (si_pipe st))).
    rewrite <- Forall_fmap, H2. apply NormalRun.block_maps_ok.
  - rewrite H1. left.
  - specialize (H _ H4). done.
  - destruct H as (l & start & ob & index & ops & rs & _ & _ & ? & ? & ?). by exists ob, index, ops, rs.
Defined.
