(* ===== verification/Startup.v ===== *)
(** * Startup: the delta WAL is recovered into objects

    Models [S3Storage::recover] and [startup] of [storage/s3_storage.rs]: the records
    past each opening stream's committed end offset are uploaded block by block and
    committed, the streams are closed, and the log is reset.  The future of
    [wal.reset()] is made before the streams are closed and runs when it is awaited,
    after them.  The clock is an argument; the fuel is one more than the items of the
    log. *)
From S2P Require Import Prelude Collections Codec ObjectStore WalFormat WalMemory ObjectFormat ObjectIO LogCache LogCacheProofs Metadata StorageRecovery Upload Storage StorageSafety StorageDurable.

(** What recovery uses of the host's stream registry. *)
Class StreamManager (M : Type) : Type := {
  mgr_get_opening_streams : M → result StreamError (list StreamMetadata);
  mgr_close_stream : M → Z → Z → M * result StreamError unit;
}.

#[export] Instance memory_stream_manager : StreamManager MetadataState := {
  mgr_get_opening_streams m := Ok (get_opening_streams m);
  mgr_close_stream m id epoch := close_stream id epoch m;
}.

Section Startup.
Context {S M W : Type} `{!ObjectStorage S} `{!ObjectManager M} `{!StreamManager M} `{!WriteAheadLog W}.
Context (config : S3StorageConfig) (now : Z).

(** The handler of one block: upload and commit. *)
Definition recover_block (block : LogCacheBlock) (x : S * M) : option (S * M * result StreamError unit) :=
  let '(s, m) := x in
  if lb_size block =? 0 then Some (s, m, Ok tt)
  else
    match prepare (plan config (block_records block)) m with
    | (m, Err e) => Some (s, m, Err e)
    | (m, Ok task) =>
        let* (s, r) := upload now task s in
        match r with
        | Err e => Some (s, m, Err e)
        | Ok task => let* (m, r) := commit now task m in Some (s, m, r)
        end
    end.

Definition end_offsets (streams : list StreamMetadata) : gmap Z Z :=
  foldl (λ ends s, <[sm_stream_id s := sm_end_offset s]> ends) ∅ streams.

Fixpoint close_streams (streams : list StreamMetadata) (m : M) : M * result StreamError unit :=
  match streams with
  | [] => (m, Ok tt)
  | s :: rest =>
      match mgr_close_stream m (sm_stream_id s) (sm_epoch s) with
      | (m, Err e) => (m, Err e)
      | (m, Ok _) => close_streams rest m
      end
  end.

Definition MAX_RECOVER_BLOCK_SIZE : Z := Z.shiftl 1 29.

(** [None] is a panic; see [recover_plain] for the fuel. *)
Definition storage_recover (fuel : nat) (w : W) (s : S) (m : M) : option (W * S * M * result StreamError unit) :=
  match mgr_get_opening_streams m with
  | Err e => Some (w, s, m, Err e)
  | Ok streams =>
      let* (_, (s, m), r) :=
        recover None recover_block fuel MAX_RECOVER_BLOCK_SIZE (wal_recover w) (end_offsets streams) (s, m) in
      match r with
      | Err e => Some (w, s, m, Err e)
      | Ok _ =>
          match close_streams streams m with
          | (m, Err e) => Some (w, s, m, Err e)
          | (m, Ok _) => let '(w, r) := wal_reset w in Some (w, s, m, map_err SE_Wal r)
          end
      end
  end.

Definition startup (fuel : nat) (w : W) (s : S) (m : M) : option (W * S * M * result StreamError unit) :=
  match wal_start w with
  | (w, Err e) => Some (w, s, m, Err (SE_Wal e))
  | (w, Ok _) => storage_recover fuel w s m
  end.
End Startup.

(** ** What a block needs and leaves *)

(** The registry: ids below the next one, stream objects below their stream's end. *)
Record world_ok (m : MetadataState) : Prop := {
  wo_manager : manager_ok m;
  wo_alloc : 0 ≤ ms_object_id_alloc m;
  wo_ids id o : ms_stream_set_objects m !! id = Some o → id < ms_object_id_alloc m;
  wo_starts st start o x : find_object st start (ms_stream_objects m) = Some o → ms_streams m !! st = Some x →
    start < sm_end_offset x;
}.

Definition stream_end (e : Z) (rs : list StreamRecordBatch) : Z := default e (last_offset <$> last rs).

Lemma stream_end_app e l k : stream_end e (l ++ k) = stream_end (stream_end e l) k.
Proof.
  unfold stream_end. destruct k as [|r k] using rev_ind; [by rewrite app_nil_r|].
  by rewrite app_assoc, !last_snoc.
Qed.

Lemma runs_stream_end lo l hi : runs lo l hi → hi = stream_end lo l.
Proof.
  revert lo; induction l as [|r l IH]; intros lo; cbn [runs]; [by intros ->|]. intros (_ & _ & H).
  change (r :: l) with ([r] ++ l). rewrite stream_end_app. by apply IH.
Qed.

(** [l] was recovered: its records are readable, the streams end after them, and what
    was readable still is. *)
Record recovered_to {S : Type} `{!ObjectStorage S} (l : list StreamRecordBatch) (s : S) (m : MetadataState) (s' : S)
    (m' : MetadataState) : Prop := {
  rt_world : world_ok m';
  rt_alloc : ms_object_id_alloc m ≤ ms_object_id_alloc m' ≤ ms_object_id_alloc m + Z.of_nat (length l);
  rt_keep st rs start end_ o : readable s m st rs start end_ o → 0 ≤ om_object_id o < ms_object_id_alloc m →
    readable s' m' st rs start end_ o;
  rt_read r : r ∈ l → ∃ rs start end_ o, readable s' m' (stream_id r) rs start end_ o
    ∧ 0 ≤ om_object_id o < ms_object_id_alloc m' ∧ r ∈ rs ∧ ∃ lo hi, runs lo rs hi;
  rt_streams st : ms_streams m' !! st
    = (λ x, set_end_offset (stream_end (sm_end_offset x) (of_stream st l)) x) <$> ms_streams m !! st;
}.

Section Blocks.
Context {S : Type} `{!ObjectStorage S} `{!ObjectStorageLaws S}.

Lemma recovered_nil (s : S) m : world_ok m → recovered_to [] s m s m.
Proof.
  intros H. constructor; try done.
  - cbn. lia.
  - intros r Hr. by apply not_elem_of_nil in Hr.
  - intros st. destruct (ms_streams m !! st) as [x|]; [|done]. cbn. by destruct x.
Qed.

Lemma recovered_app l k (s s1 s2 : S) m m1 m2 :
  recovered_to l s m s1 m1 → recovered_to k s1 m1 s2 m2 → recovered_to (l ++ k) s m s2 m2.
Proof.
  intros [_ Ha Hk Hr Hs] [Hw Ha' Hk' Hr' Hs']. constructor; [done|..].
  - rewrite length_app. lia.
  - intros st rs start end_ o Hrd Hid. apply Hk'; [by apply Hk|lia].
  - intros r [Hin|Hin]%elem_of_app; [|by apply Hr'].
    destruct (Hr r Hin) as (rs & start & end_ & o & ? & ? & ?). exists rs, start, end_, o.
    split; [by apply Hk'|]. split; [lia|done].
  - intros st. rewrite Hs', Hs. destruct (ms_streams m !! st) as [x|]; [|done]. cbn. f_equal.
    unfold set_end_offset. cbn. by rewrite of_stream_app, stream_end_app.
Qed.

(** *** One block *)

Lemma advance_to st advs e0 e :
  (∀ x, (st, x) ∈ advs → x = e) → (st, e) ∈ advs → e0 ≤ e →
  foldr (λ (p : Z * Z) a, if p.1 =? st then Z.max p.2 a else a) e0 advs = e.
Proof.
  intros Hx Hin Hle. assert (∀ advs, (∀ x, (st, x) ∈ advs → x = e) →
    let a := foldr (λ (p : Z * Z) a, if p.1 =? st then Z.max p.2 a else a) e0 advs in
    a ≤ e ∧ ((st, e) ∈ advs → e ≤ a)) as Hb.
  { clear Hx Hin. induction advs0 as [|[i x] advs0 IH]; cbn; intros Hx; [split; [done|by intros ?%not_elem_of_nil]|].
    destruct IH as [H1 H2]; [intros y Hy; apply Hx; by right|]. destruct (Z.eqb_spec i st) as [->|Hne].
    - rewrite (Hx x) by left. split; [lia|]. intros _. lia.
    - split; [done|]. intros [[= -> ->]|?]%elem_of_cons; [done|by apply H2]. }
  destruct (Hb advs Hx) as [? H]. specialize (H Hin). lia.
Qed.

Lemma advance_none st advs e0 :
  (∀ x, ¬ ((st, x) ∈ advs)) → foldr (λ (p : Z * Z) a, if p.1 =? st then Z.max p.2 a else a) e0 advs = e0.
Proof.
  induction advs as [|[i x] advs IH]; cbn; intros Hx; [done|].
  rewrite IH by (intros y Hy; apply (Hx y); by right). destruct (Z.eqb_spec i st) as [->|]; [|done].
  exfalso. apply (Hx x). left.
Qed.

(** A request moves a stream that continues to its last record. *)
Lemma advances_end config (s : S) b id r st e :
  uploaded_block config s b id r →
  (∀ rs, block_records b !! st = Some rs → rs ≠ [] ∧ ∃ hi, runs e rs hi) →
  foldr (λ (p : Z * Z) a, if p.1 =? st then Z.max p.2 a else a) e (advances_of r) = stream_end e (stream_records st b).
Proof.
  intros Hub Hb. rewrite stream_records_lookup. destruct (block_records b !! st) as [rs|] eqn:Hrs.
  - destruct (Hb rs eq_refl) as (Hne & hi & Hruns). change (default [] (Some rs)) with rs. rewrite <- (runs_stream_end _ _ _ Hruns).
    pose proof (runs_le _ _ _ Hruns) as Hle.
    assert (last_offset <$> last rs = Some hi) as Hlast.
    { pose proof (runs_stream_end _ _ _ Hruns) as E. unfold stream_end in E.
      destruct (last rs) eqn:El; [cbn in *; by subst|]. by apply last_None in El. }
    apply advance_to; [|apply (ub_advances _ _ _ _ _ Hub); by exists rs|done].
    intros y (rs' & Hrs' & Hy)%(ub_advances _ _ _ _ _ Hub). congruence.
  - apply advance_none. intros x (rs & Hrs' & _)%(ub_advances _ _ _ _ _ Hub). congruence.
Qed.

(** The streams of [l] go on where the registry says they end. *)
Definition continues (m : MetadataState) (l : list StreamRecordBatch) : Prop :=
  ∀ st, of_stream st l ≠ [] → ∃ x hi, ms_streams m !! st = Some x ∧ runs (sm_end_offset x) (of_stream st l) hi.

Lemma ids_bound config max b l : block_holds max b l → ids_of config b ≤ Z.of_nat (length l).
Proof.
  intros [Hr _ _]. unfold ids_of, object_count, task_of. pose proof (plan_keys config (block_records b)) as Hk.
  apply Permutation_length in Hk. rewrite length_app in Hk. unfold keys in Hk.
  rewrite !length_fmap, !length_entries in Hk.
  assert (base.size (block_records b) ≤ length l)%nat as Hl.
  { rewrite <- (size_dom (D := gset Z)).
    trans (base.size (list_to_set (stream_id <$> l) : gset Z)).
    - apply subseteq_size. intros st [rs Hst]%elem_of_dom. rewrite Hr in Hst. apply nonempty_Some in Hst as [Hne _].
      apply elem_of_list_to_set, list_elem_of_fmap. destruct (of_stream st l) as [|r k] eqn:E; [done|].
      assert (r ∈ of_stream st l) as [<- ?]%list_elem_of_filter by (rewrite E; left). by exists r.
    - clear. induction l as [|r l IH]; [done|]. cbn. rewrite size_union_alt, size_singleton.
      pose proof (subseteq_size (list_to_set (stream_id <$> l) ∖ {[stream_id r]} : gset Z) (list_to_set (stream_id <$> l)) (subseteq_difference_l _ _ _ (reflexivity _))). lia. }
  case_bool_decide as He; [lia|]. apply map_size_non_empty_iff in He. lia.
Qed.

Lemma prepared_world m n :
  world_ok m → 0 ≤ n → ms_object_id_alloc m + n < 2 ^ 64 →
  world_ok (prepare_object n m).1 ∧ ms_object_id_alloc (prepare_object n m).1 = ms_object_id_alloc m + n.
Proof.
  intros [Hm Ha Hi Hs] Hn Hlt. assert (ms_object_id_alloc (prepare_object n m).1 = ms_object_id_alloc m + n) as E
    by (cbn; apply u64_small; int_lia). split; [|done].
  constructor; [|rewrite E; lia|intros id o Ho; rewrite E; specialize (Hi id o Ho); lia|exact Hs].
  by destruct (mstep_ok _ _ (ms_prepare m n) Hm).
Qed.

Lemma runs_span lo l hi : runs lo l hi → Forall (λ r, base_offset r < last_offset r) l.
Proof. revert lo; induction l as [|r l IH]; intros lo; cbn; [constructor|]. intros (_ & ? & ?). constructor; [done|by eapply IH]. Qed.

Lemma runs_sorted lo l hi : runs lo l hi → StronglySorted (λ a b, base_offset a < base_offset b) l.
Proof.
  revert lo; induction l as [|r l IH]; intros lo; cbn; [constructor|]. intros (_ & ? & H). constructor; [by eapply IH|].
  assert (∀ lo l, runs lo l hi → Forall (λ b, lo ≤ base_offset b) l) as Hge.
  { clear. intros lo l; revert lo; induction l as [|r l IH]; intros lo; cbn; [constructor|]. intros (<- & ? & ?).
    constructor; [done|]. eapply Forall_impl; [by eapply IH|]. cbn. lia. }
  eapply Forall_impl; [by eapply Hge|]. cbn. lia.
Qed.

Section OneBlock.
Context (config : S3StorageConfig) (now max : Z) (s s' : S) (m : MetadataState) (b : LogCacheBlock)
  (l : list StreamRecordBatch) (r : CommitStreamSetObjectRequest).
Context (Hw : world_ok m) (Hb : block_holds max b l) (Hc : continues m l).
Context (Hlt : ms_object_id_alloc m + ids_of config b < 2 ^ 64).
Context (Hub : uploaded_block config s' b (ms_object_id_alloc m) r).
Context (Hun : untouched s s' (ms_object_id_alloc m) (ids_of config b)).

Let m1 := (prepare_object (ids_of config b) m).1.
Let m2 := (commit_stream_set_object now r m1).1.

Lemma block_streams st :
  ms_streams m2 !! st = (λ x, set_end_offset (stream_end (sm_end_offset x) (of_stream st l)) x) <$> ms_streams m !! st.
Proof.
  unfold m2. rewrite commit_streams. change (ms_streams m1) with (ms_streams m).
  destruct (ms_streams m !! st) as [x|] eqn:Ex; [|done]. cbn [fmap option_fmap option_map]. do 2 f_equal.
  rewrite (advances_end config s' b (ms_object_id_alloc m) r); [|done|].
  - rewrite stream_records_lookup, (bh_records _ _ _ Hb). by destruct (of_stream st l).
  - intros rs Hrs. rewrite (bh_records _ _ _ Hb) in Hrs. apply nonempty_Some in Hrs as [Hne <-]. split; [done|].
    destruct (Hc st Hne) as (x' & hi & Ex' & Hruns). rewrite Ex in Ex'. injection Ex' as <-. by exists hi.
Qed.

Lemma request_new :
  (cr_object_id r ≠ NOOP_OBJECT_ID → ms_stream_set_objects m1 !! cr_object_id r = None)
  ∧ ∀ so o, so ∈ cr_stream_objects r →
      find_object (so_stream_id so) (so_start_offset so) (ms_stream_objects m1) = Some o → False.
Proof.
  split.
  - intros Hne. destruct (ms_stream_set_objects m1 !! cr_object_id r) as [o|] eqn:E; [|done].
    apply (wo_ids _ Hw) in E. pose proof (ub_id _ _ _ _ _ Hub Hne). lia.
  - intros so o Hin Ho. destruct (ub_starts _ _ _ _ _ Hub so Hin) as (rs & Hrs & Hhd).
    rewrite (bh_records _ _ _ Hb) in Hrs. apply nonempty_Some in Hrs as [Hne <-].
    destruct (Hc _ Hne) as (x & hi & Ex & Hruns). pose proof (wo_starts _ Hw _ _ _ _ Ho Ex) as Hst.
    destruct (of_stream _ l) as [|r0 k]; [done|]. injection Hhd as Hbase. cbn in Hruns. lia.
Qed.

Lemma block_world : world_ok m2.
Proof.
  destruct (prepared_world m (ids_of config b) Hw (ids_nonneg config b) Hlt) as [Hw1 Ea]. fold m1 in Hw1, Ea.
  constructor.
  - by destruct (mstep_ok _ _ (ms_commit m1 now r) (wo_manager _ Hw1)).
  - unfold m2. rewrite commit_alloc. apply Hw1.
  - intros id o Ho. unfold m2 in *. rewrite commit_alloc.
    destruct (commit_set_objects now r m1 id o (ub_compacted _ _ _ _ _ Hub) Ho) as [Ho'|[-> Hne]].
    + by eapply wo_ids.
    + pose proof (ub_id _ _ _ _ _ Hub Hne). rewrite Ea. lia.
  - intros st start o x Ho Hx. rewrite block_streams in Hx. change (ms_streams m) with (ms_streams m1) in Hx.
    destruct (ms_streams m1 !! st) as [x0|] eqn:Ex; [|done]. injection Hx as <-. cbn.
    assert (∀ e, start < e → (of_stream st l ≠ [] → start < stream_end e (of_stream st l))
      → start < stream_end e (of_stream st l)) as Hcase.
    { intros e He H. destruct (decide (of_stream st l = [])) as [->|Hne]; [done|by apply H]. }
    apply commit_find_object in Ho as [Ho|(so & E & Hin)%list_elem_of_fmap].
    + pose proof (wo_starts _ Hw1 _ _ _ _ Ho Ex) as Hst. apply Hcase; [done|]. intros Hne.
      destruct (Hc st Hne) as (x' & hi & Ex' & Hruns). change (ms_streams m) with (ms_streams m1) in Ex'.
      rewrite Ex in Ex'. injection Ex' as <-. rewrite <- (runs_stream_end _ _ _ Hruns). apply runs_le in Hruns. lia.
    + injection E as -> ->. destruct (ub_starts _ _ _ _ _ Hub so Hin) as (rs & Hrs & Hhd).
      rewrite (bh_records _ _ _ Hb) in Hrs. apply nonempty_Some in Hrs as [Hne <-].
      destruct (Hc _ Hne) as (x' & hi & Ex' & Hruns). change (ms_streams m) with (ms_streams m1) in Ex'.
      rewrite Ex in Ex'. injection Ex' as <-. rewrite <- (runs_stream_end _ _ _ Hruns).
      destruct (of_stream _ l) as [|r0 k]; [done|]. injection Hhd as Hbase. cbn in Hruns. destruct Hruns as (? & ? & Hruns).
      apply runs_le in Hruns. lia.
Qed.

Lemma commit_recovers : recovered_to l s m s' m2.
Proof.
  destruct (prepared_world m (ids_of config b) Hw (ids_nonneg config b) Hlt) as [Hw1 Ea]. fold m1 in Hw1, Ea.
  destruct request_new as [Hid Hso]. pose proof (wo_alloc _ Hw) as Ha0. pose proof (ids_nonneg config b) as Hnn.
  constructor; [apply block_world| | | |apply block_streams].
  - unfold m2. rewrite commit_alloc, Ea. pose proof (ids_bound config _ _ _ Hb). lia.
  - intros st rs start end_ o Hrd Ho.
    apply (readable_meta s' m); [|eapply (readable_store s); [exact Hun|unfold is_u64; lia|lia|exact Hrd]].
    intros ? ? ? ? Hreg. apply (commit_keeps now r m1); [apply (ub_compacted _ _ _ _ _ Hub)|done|done|exact Hreg].
  - intros x Hx. assert (x ∈ of_stream (stream_id x) l) as Hin by (by apply list_elem_of_filter).
    assert (of_stream (stream_id x) l ≠ []) as Hne by (intros E; rewrite E in Hin; by apply not_elem_of_nil in Hin).
    assert (block_records b !! stream_id x = Some (of_stream (stream_id x) l)) as Hrs.
    { rewrite (bh_records _ _ _ Hb). by destruct (of_stream (stream_id x) l). }
    destruct (ub_placed _ _ _ _ _ Hub _ _ Hrs) as (oid & Hoid & Hpl).
    destruct (placed_readable s' now r m1 _ _ oid (ub_compacted _ _ _ _ _ Hub) (ub_keys _ _ _ _ _ Hub) Hpl)
      as (start & end_ & o & Hrd & <-).
    exists (of_stream (stream_id x) l), start, end_, o. split; [done|]. split; [unfold m2; rewrite commit_alloc, Ea; lia|].
    split; [done|]. destruct (Hc _ Hne) as (y & hi & _ & Hruns). by eexists _, _.
Qed.
End OneBlock.
End Blocks.

(** ** A block of recovered records fits an object *)

(** Grouping by stream keeps the records. *)
Lemma tagged_group l (m : gmap Z (list StreamRecordBatch)) :
  (∀ st, m !! st = nonempty (of_stream st l)) → ObjectIO.tagged (entries m) ≡ₚ (λ r, (stream_id r, r)) <$> l.
Proof.
  unfold ObjectIO.tagged. rewrite entries_perm. revert l. induction m as [|k rs m Hk IH] using map_ind; intros l Hl.
  - rewrite map_to_list_empty. destruct l as [|r l]; [done|]. specialize (Hl (stream_id r)).
    rewrite lookup_empty in Hl. unfold of_stream in Hl. rewrite filter_cons, decide_True in Hl by done. done.
  - rewrite map_to_list_insert by done. cbn [mbind list_bind fst snd].
    pose proof (Hl k) as Hrs. rewrite lookup_insert_eq in Hrs. symmetry in Hrs. apply nonempty_Some in Hrs as [_ <-].
    rewrite (IH (filter (λ r, ¬ (stream_id r = k)) l)).
    + assert ((k,.) <$> of_stream k l = (λ r, (stream_id r, r)) <$> of_stream k l) as ->.
      { unfold of_stream. clear. induction l as [|r l IH]; [done|]. rewrite filter_cons. case_decide as E; [|done].
        cbn. by rewrite IH, E. }
      rewrite <- fmap_app. apply fmap_Permutation, filter_app_complement.
    + intros st. specialize (Hl st). destruct (decide (st = k)) as [->|Hne].
      * rewrite Hk. unfold of_stream. rewrite list_filter_filter.
        rewrite (list_filter_iff _ (λ _, False)) by (intros x; tauto).
        assert (filter (λ _ : StreamRecordBatch, False) l = []) as ->; [|done]. clear. induction l; done.
      * rewrite lookup_insert_ne in Hl by done. rewrite Hl. f_equal. unfold of_stream. rewrite list_filter_filter.
        apply list_filter_iff. intros x. split; [intros <-; done|tauto].
Qed.

Definition recoverable (r : RecoverResult) : Prop := plain_record r ∧ wf_batch (rr_record r).

Lemma wf_stream_id r : wf_batch r → is_u64 (stream_id r).
Proof.
  intros (Hb & _). apply (read_be_range STREAM_ID_POS 8). done.
Qed.

Lemma encoded_occupied r : wf_batch r → size r < 2 ^ 29 → 46 + len (encoded r) ≤ 2 * occupied_size r.
Proof.
  intros Hw Hs. pose proof (wf_size_range r Hw). rewrite (wf_length r Hw).
  unfold occupied_size, OBJECT_OVERHEAD. rewrite u64_small by int_lia. lia.
Qed.

Lemma block_records_ok b l :
  block_holds MAX_RECOVER_BLOCK_SIZE b l → Forall (λ r, wf_batch r ∧ size r < 2 ^ 29) l → records_ok (block_records b).
Proof.
  intros [Hr _ Hl] Hall. rewrite Forall_forall in Hall. split.
  - intros st rs Hst. rewrite Hr in Hst. apply nonempty_Some in Hst as [Hne <-]. split; [done|]. split.
    + destruct (of_stream st l) as [|r k] eqn:E; [done|].
      assert (r ∈ of_stream st l) as [<- Hin]%list_elem_of_filter by (rewrite E; left). by apply wf_stream_id, Hall.
    + apply Forall_forall. intros r [_ Hin]%list_elem_of_filter. by apply Hall.
  - unfold small_object. pose proof (tagged_group l _ Hr) as Hp.
    assert (∀ a k, a ≡ₚ k → encoded_size a = encoded_size k) as Hsum by (induction 1; cbn; lia).
    rewrite (Hsum _ _ Hp), (Permutation_length Hp), length_fmap.
    assert (∀ k, Forall (λ r, wf_batch r ∧ size r < 2 ^ 29) k →
      46 * len k + encoded_size ((λ r, (stream_id r, r)) <$> k) ≤ 2 * occupied k) as Hb.
    { induction 1 as [|r k [? ?] _ IH]; [done|]. pose proof (encoded_occupied r ltac:(done) ltac:(done)).
      unfold occupied in *. cbn [foldr fmap list_fmap encoded_size length snd]. lia. }
    specialize (Hb l ltac:(by apply Forall_forall)).
    destruct Hl as [->|(l' & r & -> & Hlim)]; [cbn in *; lia|].
    rewrite occupied_app in Hb. cbn in Hb. destruct (Hall r) as [_ Hs]; [apply elem_of_app; right; left|].
    pose proof (size_nonneg r). unfold MAX_RECOVER_BLOCK_SIZE in Hlim. change (Z.shiftl 1 29) with (2 ^ 29) in Hlim.
    assert (occupied_size r ≤ 2 ^ 29 + 48) by (unfold occupied_size, OBJECT_OVERHEAD; rewrite u64_small by int_lia; lia). lia.
Qed.

(** ** All blocks *)

Lemma accept_dom ends rs st : is_Some ((accept ends rs).1 !! st) ↔ is_Some (ends !! st).
Proof.
  revert ends; induction rs as [|r rs IH]; intros ends; cbn; [done|]. case_decide as Hd; [|by apply IH].
  specialize (IH (<[stream_id (rr_record r):=last_offset (rr_record r)]> ends)). destruct (accept _ rs) as [e l].
  cbn in *. rewrite IH, lookup_insert_is_Some'. split; [|by right]. intros [<-|?]; [by eexists|done].
Qed.

Lemma accept_open ends rs r : r ∈ (accept ends rs).2 → is_Some (ends !! stream_id r).
Proof.
  revert ends; induction rs as [|x rs IH]; intros ends; cbn; [by intros ?%not_elem_of_nil|]. case_decide as Hd; [|by apply IH].
  specialize (IH (<[stream_id (rr_record x):=last_offset (rr_record x)]> ends)). destruct (accept _ rs) as [e l].
  cbn in *. intros [->|Hin]%elem_of_cons; [by eexists|]. specialize (IH Hin).
  apply lookup_insert_is_Some' in IH as [E|?]; [|done]. rewrite <- E. by eexists.
Qed.

Lemma length_accept ends rs : (length (accept ends rs).2 ≤ length rs)%nat.
Proof.
  revert ends; induction rs as [|r rs IH]; intros ends; cbn; [done|]. case_decide; [|specialize (IH ends); lia].
  specialize (IH (<[stream_id (rr_record r):=last_offset (rr_record r)]> ends)). destruct (accept _ rs). cbn in *. lia.
Qed.

Definition ends_match (ends : gmap Z Z) (m : MetadataState) : Prop :=
  ∀ st e, ends !! st = Some e → ∃ x, ms_streams m !! st = Some x ∧ sm_end_offset x = e.

Lemma recoverable_span rs :
  Forall recoverable rs → Forall (λ r, base_offset (rr_record r) < last_offset (rr_record r)) rs.
Proof. intros H. eapply Forall_impl; [exact H|]. intros r [(_ & ? & _) _]. lia. Qed.

Lemma accept_continues ends m rs :
  ends_match ends m → Forall recoverable rs → continues m (accept ends rs).2.
Proof.
  intros He Hr st Hne. destruct (of_stream st (accept ends rs).2) as [|r k] eqn:E; [done|].
  assert (r ∈ of_stream st (accept ends rs).2) as [<- Hin]%list_elem_of_filter by (rewrite E; left).
  destruct (accept_open _ _ _ Hin) as [e0 Ee]. destruct (He _ _ Ee) as (x & Ex & <-).
  destruct (accept_runs ends rs _ _ (recoverable_span _ Hr) Ee) as (e1 & _ & Hruns). exists x, e1.
  split; [done|]. by rewrite <- E.
Qed.

Section AllBlocks.
Context {S : Type} `{!ObjectStorage S} `{!ObjectStorageLaws S}.
Context (config : S3StorageConfig) (now : Z).

Lemma recover_block_ok (s : S) m b l :
  world_ok m → block_holds MAX_RECOVER_BLOCK_SIZE b l → Forall (λ r, wf_batch r ∧ size r < 2 ^ 29) l → continues m l →
  ms_object_id_alloc m + Z.of_nat (length l) < 2 ^ 64 →
  ∃ s' m', recover_block config now b (s, m) = Some (s', m', Ok tt) ∧ recovered_to l s m s' m'.
Proof.
  intros Hw Hb Hall Hc Hlt. unfold recover_block. destruct (Z.eqb_spec (lb_size b) 0) as [Hz|Hz].
  - exists s, m. split; [done|]. assert (l = []) as ->; [|by apply recovered_nil].
    rewrite (bh_size _ _ _ Hb) in Hz. destruct l as [|r l]; [done|]. exfalso. apply Forall_cons in Hall as [[Hwf ?] _].
    unfold occupied in Hz. cbn in Hz. pose proof (occupied_nonneg l) as Hn. unfold occupied in Hn.
    assert (0 < occupied_size r); [|lia]. pose proof (wf_size_range r Hwf). unfold occupied_size, OBJECT_OVERHEAD.
    rewrite u64_small by int_lia. lia.
  - pose proof (ids_bound config _ _ _ Hb) as Hids. pose proof (wo_alloc _ Hw).
    assert (prepare (plan config (block_records b)) m
      = ((prepare_object (ids_of config b) m).1, Ok (prepared (task_of config b) (ms_object_id_alloc m) None))) as ->.
    { unfold prepare. cbn. unfold task_of, prepared. by rewrite (plan_fields config (block_records b)). }
    destruct (upload_block config s now b (ms_object_id_alloc m)) as (s' & r & -> & Hub & Hun);
      [by eapply block_records_ok|done|lia|].
    cbn [mbind option_bind]. unfold commit. cbn [prepared ut_commit_request mbind option_bind mgr_commit memory_object_manager].
    eexists _, _. split; [reflexivity|]. eapply commit_recovers; try done. lia.
Qed.

Lemma handle_recovers blocks parts ends (s : S) m :
  blocks_match MAX_RECOVER_BLOCK_SIZE ends blocks parts → Forall recoverable (concat parts) →
  world_ok m → ends_match ends m → ms_object_id_alloc m + Z.of_nat (length (concat parts)) < 2 ^ 64 →
  ∃ s' m', handle_all (recover_block config now) blocks (s, m) = Some (s', m', Ok tt)
    ∧ recovered_to (accept ends (concat parts)).2 s m s' m'.
Proof.
  revert parts ends s m; induction blocks as [|b blocks IH]; intros [|p parts] ends s m; try done.
  - intros _ _ Hw _ _. exists s, m. split; [done|]. by apply recovered_nil.
  - intros (_ & Hb & Hm) Hall Hw He Hlt. cbn [concat] in *. apply Forall_app in Hall as [Hp Hall].
    rewrite length_app in Hlt. pose proof (length_accept ends p) as Hlen.
    destruct (recover_block_ok s m b (accept ends p).2) as (s1 & m1 & E & Hrt); [done|done| | |lia|].
    { apply Forall_forall. intros r (x & Hx & ->)%accept_sub. rewrite Forall_forall in Hp.
      destruct (Hp x Hx) as [(_ & _ & ?) ?]. done. }
    { by apply accept_continues. }
    assert (ends_match (accept ends p).1 m1) as He1.
    { intros st e Hst. destruct (proj1 (accept_dom ends p st)) as [e0 Ee]; [by eexists|].
      destruct (accept_runs ends p _ _ (recoverable_span _ Hp) Ee) as (e1 & E1 & Hruns). rewrite Hst in E1. injection E1 as <-.
      destruct (He _ _ Ee) as (x & Ex & <-). eexists. rewrite (rt_streams _ _ _ _ _ Hrt), Ex. split; [reflexivity|].
      cbn. symmetry. by apply runs_stream_end. }
    pose proof (rt_alloc _ _ _ _ _ Hrt) as Ha.
    destruct (IH parts (accept ends p).1 s1 m1) as (s2 & m2 & E2 & Hrt2); [done|done|apply Hrt|done|lia|].
    exists s2, m2. cbn [handle_all]. rewrite E. cbn [mbind option_bind]. split; [done|].
    rewrite accept_app. cbn [snd]. by eapply recovered_app.
Qed.
End AllBlocks.

(** ** The whole recovery *)

Definition closed (x : StreamMetadata) : StreamMetadata :=
  mkStream (sm_stream_id x) (sm_epoch x) (sm_start_offset x) (sm_end_offset x) StreamClosed (sm_node_id x).

(** Only the stream registry changed. *)
Definition same_objects (m m' : MetadataState) : Prop :=
  ms_stream_set_objects m' = ms_stream_set_objects m ∧ ms_stream_objects m' = ms_stream_objects m
  ∧ ms_object_id_alloc m' = ms_object_id_alloc m.

Lemma close_all streams m :
  manager_ok m →
  (∀ x, x ∈ streams → ∃ y, ms_streams m !! sm_stream_id x = Some y ∧ sm_epoch y = sm_epoch x) →
  ∃ m', close_streams streams m = (m', Ok tt) ∧ same_objects m m' ∧ manager_ok m'
    ∧ ∀ st, ms_streams m' !! st
        = (λ y, if bool_decide (st ∈ sm_stream_id <$> streams) then closed y else y) <$> ms_streams m !! st.
Proof.
  revert m; induction streams as [|x streams IH]; intros m Hm He.
  - exists m. split_and!; try done. intros st. by destruct (ms_streams m !! st).
  - destruct (He x) as (y & Hy & Ee); [by left|]. cbn [close_streams mgr_close_stream memory_stream_manager].
    assert (close_stream (sm_stream_id x) (sm_epoch x) m
      = (set_streams (<[sm_stream_id x := closed y]> (ms_streams m)) m, Ok tt)) as E.
    { unfold close_stream. rewrite Hy, Ee, Z.eqb_refl. unfold closed. by rewrite Ee. }
    pose proof (mstep_ok _ _ (ms_close m (sm_stream_id x) (sm_epoch x)) Hm) as [Hm1 _]. rewrite E in *. cbn [fst] in Hm1.
    destruct (IH _ Hm1) as (m' & -> & (? & ? & ?) & Hm' & Hs).
    { intros z Hz. destruct (He z) as (yz & Hyz & Ez); [by right|]. cbn.
      destruct (decide (sm_stream_id x = sm_stream_id z)) as [Eid|Hne].
      - rewrite Eid, lookup_insert_eq. eexists. split; [done|]. cbn. rewrite Eid, Hyz in Hy. by injection Hy as <-.
      - rewrite lookup_insert_ne by done. by exists yz. }
    exists m'. split; [done|]. split; [done|]. split; [done|]. intros st. rewrite Hs. cbn [ms_streams set_streams fmap list_fmap].
    destruct (decide (st = sm_stream_id x)) as [->|Hne].
    + rewrite lookup_insert_eq, Hy. cbn. rewrite (bool_decide_eq_true_2 (_ ∈ sm_stream_id x :: _)) by left.
      by case_bool_decide.
    + rewrite lookup_insert_ne by done.
      rewrite (bool_decide_ext (st ∈ sm_stream_id x :: _) (st ∈ sm_stream_id <$> streams)); [done|].
      rewrite elem_of_cons. tauto.
Qed.

Lemma end_offsets_lookup (l : list StreamMetadata) st e :
  NoDup (sm_stream_id <$> l) →
  end_offsets l !! st = Some e ↔ ∃ x, x ∈ l ∧ sm_stream_id x = st ∧ sm_end_offset x = e.
Proof.
  induction l as [|x l IH] using rev_ind; intros Hnd.
  - split; [done|]. intros (x & Hx & _). by apply not_elem_of_nil in Hx.
  - unfold end_offsets in *. rewrite foldl_snoc. rewrite fmap_app in Hnd. apply NoDup_app in Hnd as (Hl & Hx & _).
    rewrite lookup_insert_Some, IH by done. split.
    + intros [[<- <-]|[_ (y & Hy & <- & <-)]]; [exists x|exists y]; (split; [apply elem_of_app|done]); [right; left|by left].
    + intros (y & [Hy|[= ->]%list_elem_of_singleton]%elem_of_app & <- & <-); [right|by left]. split; [|by exists y].
      intros E. apply (Hx (sm_stream_id y)); [by apply list_elem_of_fmap_2|]. rewrite <- E. left.
Qed.

Lemma opening_streams m x :
  manager_ok m → x ∈ get_opening_streams m ↔ ms_streams m !! sm_stream_id x = Some x ∧ sm_state x = StreamOpened.
Proof.
  intros Hm. unfold get_opening_streams. rewrite list_elem_of_filter, elem_of_values. split.
  - intros [? [k Hk]]. by destruct (mo_streams _ Hm _ _ Hk) as [-> _].
  - intros [? ?]. split; [done|by eexists].
Qed.

Lemma opening_ids m : manager_ok m → NoDup (sm_stream_id <$> get_opening_streams m).
Proof.
  intros Hm. unfold get_opening_streams, values. pose proof (NoDup_keys (ms_streams m)) as Hk. unfold keys in Hk.
  assert (∀ k x, (k, x) ∈ entries (ms_streams m) → sm_stream_id x = k) as He.
  { intros k x Hx%elem_of_entries. by destruct (mo_streams _ Hm _ _ Hx). }
  revert Hk He. generalize (entries (ms_streams m)). induction l as [|[k x] l IH]; intros Hk He; [constructor|].
  rewrite fmap_cons in Hk. rewrite fmap_cons. cbn [fst snd] in *. apply NoDup_cons in Hk as [Hn Hk].
  specialize (IH Hk ltac:(intros; apply He; by right)). rewrite filter_cons. case_decide; [|done]. rewrite fmap_cons. constructor; [|done].
  intros (y & E & [_ Hy]%list_elem_of_filter)%list_elem_of_fmap. apply list_elem_of_fmap in Hy as ([k' y'] & -> & Hy).
  apply Hn, list_elem_of_fmap. exists (k', y'). split; [|done]. cbn in *.
  rewrite <- (He k x) by left. rewrite <- (He k' y') by (by right). done.
Qed.

Lemma opening_ends m st e :
  manager_ok m → end_offsets (get_opening_streams m) !! st = Some e ↔
    ∃ x, ms_streams m !! st = Some x ∧ sm_state x = StreamOpened ∧ sm_end_offset x = e.
Proof.
  intros Hm. rewrite end_offsets_lookup by (by apply opening_ids). split.
  - intros (x & [? ?]%opening_streams & <- & <-); [by exists x|done].
  - intros (x & Hx & ? & <-). pose proof (mo_streams _ Hm _ _ Hx) as [E _]. exists x. split; [|done].
    apply opening_streams; [done|]. by rewrite E.
Qed.

Section Whole.
Context {S W : Type} `{!ObjectStorage S} `{!ObjectStorageLaws S} `{!WriteAheadLog W}.
Context (config : S3StorageConfig) (now : Z).

Lemma same_objects_readable (s : S) m m' st rs start end_ o :
  same_objects m m' → readable s m st rs start end_ o → readable s m' st rs start end_ o.
Proof.
  intros (Es & Eo & _). apply readable_meta. intros ? ? ? ?. unfold registered. by rewrite Es, Eo.
Qed.

Lemma recover_durable (s : S) m (w w' : W) rs fuel :
  world_ok m → wal_recover w = Ok <$> rs → wal_reset w = (w', Ok tt) → Forall recoverable rs → (length rs < fuel)%nat →
  ms_object_id_alloc m + Z.of_nat (length rs) < 2 ^ 64 →
  let ends := end_offsets (get_opening_streams m) in
  ∃ s' m', storage_recover config now fuel w s m = Some (w', s', m', Ok tt) ∧ manager_ok m'
    ∧ (∀ r, r ∈ (accept ends rs).2 → record_readable s' m' r)
    ∧ (∀ st l start end_ o, readable s m st l start end_ o → 0 ≤ om_object_id o < ms_object_id_alloc m →
         readable s' m' st l start end_ o)
    ∧ ∀ st x, ms_streams m !! st = Some x → sm_state x = StreamOpened →
        ∃ e, runs (sm_end_offset x) (of_stream st (accept ends rs).2) e
          ∧ ms_streams m' !! st = Some (closed (set_end_offset e x)).
Proof.
  intros Hw Hrec Hreset Hall Hfuel Hlt ends. unfold storage_recover. cbn [mgr_get_opening_streams memory_stream_manager].
  destruct (recover_plain None (recover_block config now) MAX_RECOVER_BLOCK_SIZE rs ends fuel)
    as (blocks & parts & Hh & Hc & Hm & Hruns); [done| |done|].
  { eapply Forall_impl; [exact Hall|]. by intros r []. }
  assert (ends_match ends m) as He.
  { intros st e (x & ? & _ & ?)%opening_ends; [by exists x|apply Hw]. }
  rewrite <- Hc in Hall, Hlt. destruct (handle_recovers config now blocks parts ends s m Hm Hall Hw He Hlt) as (s1 & m1 & E1 & Hrt).
  rewrite Hc in Hrt. specialize (Hh (s, m)). unfold handled in Hh. rewrite E1 in Hh. fold ends. rewrite Hrec, Hh.
  cbn [mbind option_bind]. destruct (close_all (get_opening_streams m) m1) as (m2 & -> & Hsame & Hm2 & Hst).
  { apply Hrt. }
  { intros x [Hx ?]%opening_streams; [|apply Hw]. rewrite (rt_streams _ _ _ _ _ Hrt), Hx. by eexists. }
  rewrite Hreset. exists s1, m2. split; [done|]. split; [done|]. split; [|split].
  - intros r Hr. destruct (rt_read _ _ _ _ _ Hrt r Hr) as (l & start & end_ & o & Hrd & _ & Hin & lo & hi & Hl).
    eapply (readable_record s1 m2 _ l); [done|by eapply same_objects_readable|done|done|by eapply runs_sorted|by eapply runs_span].
  - intros st l start end_ o Hrd Hid. eapply same_objects_readable; [done|]. by apply (rt_keep _ _ _ _ _ Hrt).
  - intros st x Hx Hop. destruct (Hruns st (sm_end_offset x)) as (e & _ & Hr).
    { apply opening_ends; [apply Hw|]. by exists x. }
    exists e. split; [done|]. rewrite Hst, (rt_streams _ _ _ _ _ Hrt), Hx. cbn. rewrite <- (runs_stream_end _ _ _ Hr).
    rewrite bool_decide_eq_true_2; [done|]. apply list_elem_of_fmap. exists x.
    pose proof (mo_streams _ (wo_manager _ Hw) _ _ Hx) as [E _]. split; [done|]. apply opening_streams; [apply Hw|]. by rewrite E.
Qed.
End Whole.
