(* ===== verification/CrashSafety.v ===== *)
(** * No acknowledged record is lost in a crash

    The storage stops at any point of any run; a new process recovers from the objects,
    the registry and the log.  Every record the log had confirmed is then readable from
    a registered object. *)
From S2P Require Import Prelude Collections Codec ObjectStore WalFormat WalMemory ObjectFormat ObjectIO LogCache LogCacheProofs Metadata StorageRecovery Upload Storage StorageSafety StorageRuns StorageDurable Startup.

(** ** What recovery accepts of one stream *)

Fixpoint accept_one_stream (e : Z) (l : list StreamRecordBatch) : list StreamRecordBatch :=
  match l with
  | [] => []
  | r :: l' => if base_offset r =? e then r :: accept_one_stream (last_offset r) l' else accept_one_stream e l'
  end.

Lemma accept_stream ends rs st e :
  ends !! st = Some e → of_stream st (accept ends rs).2 = accept_one_stream e (of_stream st (rr_record <$> rs)).
Proof.
  revert ends e; induction rs as [|r rs IH]; intros ends e He; [done|]. cbn [accept fmap list_fmap].
  unfold of_stream in *. rewrite filter_cons. case_decide as Hd.
  - destruct (decide (stream_id (rr_record r) = st)) as [<-|Hne].
    + rewrite He in Hd. injection Hd as ->. cbn [accept_one_stream]. rewrite Z.eqb_refl.
      specialize (IH (<[stream_id (rr_record r):=last_offset (rr_record r)]> ends) (last_offset (rr_record r))
        ltac:(by rewrite lookup_insert_eq)).
      destruct (accept _ rs) as [ends' l]. cbn [snd] in *. by rewrite filter_cons, decide_True, IH.
    + specialize (IH (<[stream_id (rr_record r):=last_offset (rr_record r)]> ends) e
        ltac:(by rewrite lookup_insert_ne)).
      destruct (accept _ rs) as [ends' l]. cbn [snd] in *. by rewrite filter_cons, decide_False, IH.
  - rewrite (IH _ _ He). destruct (decide (stream_id (rr_record r) = st)) as [<-|Hne]; [|done].
    cbn [accept_one_stream]. destruct (Z.eqb_spec (base_offset (rr_record r)) e) as [<-|]; done.
Qed.

Lemma accept_skip e k l : Forall (λ r, base_offset r < e) k → accept_one_stream e (k ++ l) = accept_one_stream e l.
Proof. induction 1 as [|r k Hr _ IH]; [done|]. cbn. by rewrite (proj2 (Z.eqb_neq _ _)) by lia. Qed.

Lemma accept_all e l hi k : runs e l hi → accept_one_stream e (l ++ k) = l ++ accept_one_stream hi k.
Proof.
  revert e; induction l as [|r l IH]; intros e; cbn; [by intros ->|]. intros (-> & _ & H). rewrite Z.eqb_refl. by rewrite (IH _ H).
Qed.

Lemma runs_below lo l hi : runs lo l hi → Forall (λ r, lo ≤ base_offset r ∧ base_offset r < hi) l.
Proof.
  revert lo; induction l as [|r l IH]; intros lo; [constructor|]. cbn. intros (<- & ? & H). pose proof (runs_le _ _ _ H).
  constructor; [lia|]. eapply Forall_impl; [by apply IH|]. cbn. lia.
Qed.

Section Crash.
Context {S W : Type} `{!ObjectStorage S} `{!ObjectStorageLaws S} `{!WriteAheadLog W}.
Context (config : S3StorageConfig) (delay_trim_ms : Z) (m0 : MetadataState) (world0 : world_ok m0).

Abbreviation Pipe := (Pipeline (S:=S) (M:=MetadataState) (W:=W)).

(** Each stream is open and appended to without a gap from its registered end. *)
Definition continuous (hist : History) : Prop :=
  ∀ st, of_stream st hist.*1 ≠ [] →
    ∃ x e, ms_streams m0 !! st = Some x ∧ sm_state x = StreamOpened ∧ runs (sm_end_offset x) (of_stream st hist.*1) e.

Lemma continuous_prefix h h' : h `prefix_of` h' → continuous h' → continuous h.
Proof.
  intros [k ->] Hc st Hne. specialize (Hc st). rewrite fmap_app, of_stream_app in Hc.
  destruct Hc as (x & e & ? & ? & (mid & ? & _)%runs_app); [by destruct (of_stream st h.*1)|]. by exists x, mid.
Qed.

Lemma in_stream (hist : History) q : q ∈ hist → q.1 ∈ of_stream (stream_id q.1) hist.*1.
Proof. intros Hq. apply list_elem_of_filter. split; [done|]. by apply list_elem_of_fmap_2. Qed.

Lemma continuous_of hist st r :
  continuous hist → r ∈ of_stream st hist.*1 →
  ∃ x e, ms_streams m0 !! st = Some x ∧ sm_state x = StreamOpened ∧ runs (sm_end_offset x) (of_stream st hist.*1) e.
Proof. intros Hc Hr. apply Hc. intros E. rewrite E in Hr. by apply not_elem_of_nil in Hr. Qed.

Lemma continuous_ordered hist : continuous hist → ordered m0 hist.
Proof.
  intros Hc. split; [|split].
  - intros st. destruct (decide (of_stream st hist.*1 = [])) as [->|Hne]; [constructor|].
    destruct (Hc st Hne) as (x & e & _ & _ & Hr). by eapply runs_sorted.
  - intros st start o Ho r Hr. destruct (continuous_of _ _ _ Hc Hr) as (x & e & Hx & _ & Hruns).
    pose proof (wo_starts _ world0 _ _ _ _ Ho Hx). apply runs_below in Hruns. rewrite Forall_forall in Hruns.
    specialize (Hruns r Hr). cbn in Hruns. lia.
  - apply Forall_forall. intros q Hq. pose proof (in_stream _ _ Hq) as Hr.
    destruct (continuous_of _ _ _ Hc Hr) as (x & e & _ & _ & Hruns). apply runs_span in Hruns.
    rewrite Forall_forall in Hruns. by apply Hruns.
Qed.

(** The records of a stream that survive a crash: the confirmed ones, then those of the
    log's further records [extra] that continue the stream. *)
Definition survivors (hist : History) (extra : list StreamRecordBatch) (st : Z) (x : StreamMetadata) : list StreamRecordBatch :=
  of_stream st hist.*1 ++ accept_one_stream (stream_end (sm_end_offset x) (of_stream st hist.*1)) (of_stream st extra).

(** The records of the committed blocks. *)
Definition committed_of (st : Z) (p : Pipe) : list StreamRecordBatch := take (done_of p) (blocks p) ≫= stream_records st.

(** The registry ends each stream where its committed records end. *)
Definition ends_now (p : Pipe) : Prop :=
  ∀ st, ms_streams (pl_manager p) !! st
    = (λ x, set_end_offset (stream_end (sm_end_offset x) (committed_of st p)) x) <$> ms_streams m0 !! st.

(** The records of a stream: the committed blocks, then the others. *)
Lemma history_split max cnt hist (p : Pipe) st :
  pipe_ok max cnt hist p →
  ∃ l, of_stream st hist.*1 = committed_of st p ++ l
    ∧ ∀ b, blocks p !! done_of p = Some b → ∃ l', l = stream_records st b ++ l'.
Proof.
  intros Hok. destruct (pipe_partition _ _ _ _ st Hok) as (a & _ & E).
  assert (pl_contexts p ≫= (λ c, stream_records st (tc_cache c)) = blocks p ≫= stream_records st) as Eb.
  { unfold blocks. clear. induction (pl_contexts p) as [|c l IH]; [done|]. cbn. by rewrite IH. }
  assert (blocks p ≫= stream_records st = committed_of st p ++ (drop (done_of p) (blocks p) ≫= stream_records st)) as Ec
    by (unfold committed_of; by rewrite <- bind_app, take_drop).
  rewrite Eb, Ec, <- app_assoc in E. eexists. split; [exact E|]. intros b Hb. rewrite (drop_S _ _ _ Hb). cbn [mbind list_bind]. rewrite <- app_assoc.
  by eexists.
Qed.

Lemma block_nonempty max cnt hist (p : Pipe) k b st rs :
  pipe_ok max cnt hist p → blocks p !! k = Some b → block_records b !! st = Some rs → rs ≠ [].
Proof.
  intros (chunks & tail & e & i & j & Hlay & _) Hb Hrs. unfold blocks in Hb. rewrite list_lookup_fmap in Hb.
  destruct (pl_contexts p !! k) as [c|] eqn:Ek; [|done]. injection Hb as <-.
  destruct (ly_block _ _ _ _ _ _ Hlay k (tc_cache c) (tc_cf c)) as (ch & _ & [_ Hne] & _).
  { unfold views. by rewrite list_lookup_fmap, Ek. }
  unfold block_records in Hrs. rewrite lookup_fmap in Hrs. destruct (lb_map (tc_cache c) !! st) eqn:E; [|done].
  injection Hrs as <-. by eapply Hne.
Qed.

Lemma done_le (p : Pipe) : (done_of p ≤ length (blocks p))%nat.
Proof. unfold done_of. rewrite length_blocks. lia. Qed.

Lemma ends_same (p p' : Pipe) :
  ms_streams (pl_manager p') = ms_streams (pl_manager p) → done_of p' = done_of p → blocks p `prefix_of` blocks p' →
  ends_now p → ends_now p'.
Proof.
  intros Em Ed [k Eb] He st. rewrite Em, He.
  assert (committed_of st p' = committed_of st p) as ->; [|done].
  unfold committed_of. rewrite Ed, Eb, take_app_le; [done|]. apply done_le.
Qed.

Lemma archive_done (p p' : Pipe) stream force k :
  archive_and_submit config stream force p = Some (p', k) → done_of p' = done_of p ∧ pl_manager p' = pl_manager p.
Proof.
  unfold archive_and_submit. destruct (archive_current_block_if_contains _ _) as [[c [b|]]|]; [..|done]; cbn [mbind option_bind].
  - unfold submit_block_upload. intros [= <- <-]. split; [|done]. unfold done_of. cbn.
    rewrite length_app. destruct force; cbn; rewrite ?length_alter, ?length_burst, !length_app; cbn; lia.
  - by intros [= <- <-].
Qed.

Lemma trim_now_done o k (p : Pipe) :
  done_of (trim_now o k p) = done_of p ∧ pl_manager (trim_now o k p) = pl_manager p.
Proof. unfold trim_now. destruct (wal_trim (pl_wal p) o). unfold done_of. cbn. by rewrite length_alter. Qed.

(** Every step but a commit leaves the streams and the committed blocks alone. *)
Lemma pstep_done max cnt x y :
  pipe_ok max cnt x.1 x.2 → durable_now config m0 x.2 → pstep config delay_trim_ms x y →
  (done_of y.2 = done_of x.2 ∧ ms_streams (pl_manager y.2) = ms_streams (pl_manager x.2))
  ∨ ∃ now b r, commit_effect config m0 x.2 y.2 now b r.
Proof.
  intros Hok Hd.
  destruct 1 as [hist p r o p' archived added Hc H|hist p stream force p' k H|hist p p' H|hist p now k p' H
    |hist p now p' H|hist p i p' H|hist p stream off end_ m c rs H|hist p w|hist p]; cbn [fst snd] in *; try by left.
  - left. unfold confirm_put in H. destruct (put r (pl_cache p)) as [[c added1]|]; [|done]. cbn [mbind option_bind] in H.
    destruct added1; [by injection H as <- <- <-|].
    destruct (archive_and_submit _ _ _ _) as [[p2 k]|] eqn:E; [|done]. cbn [mbind option_bind] in H.
    destruct (put r (pl_cache p2)) as [[c2 added2]|]; [|done]. cbn [mbind option_bind] in H. injection H as <- <- <-.
    apply archive_done in E as [Ed Em]. change (pl_manager p2 = pl_manager p) in Em. split; [exact Ed|]. cbn. by rewrite Em.
  - left. apply archive_done in H as [? ->]. done.
  - left. unfold prepare_one in H. destruct (pl_prepare p) as [|k rest]; [done|]. destruct (pl_contexts p !! k); [|done].
    cbn in H. injection H as <-. unfold done_of. cbn. by rewrite length_alter.
  - left. unfold upload_one in H. destruct (bool_decide _); [|done]. destruct (pl_contexts p !! k); [|done]. cbn in H.
    destruct (upload _ _ _) as [[s [?|?]]|]; [..|done]; injection H as <-; unfold done_of; cbn; by rewrite length_alter.
  - right. destruct (commit_one_effect config delay_trim_ms m0 _ _ _ _ _ _ Hok Hd H) as (b & r & ?). by exists now, b, r.
  - left. unfold run_trim in H. destruct (pl_trim_tasks p !! i) as [[o k|]|]; [..|done]; cbn in H.
    + injection H as <-. match goal with |- context [trim_now o k ?q] => destruct (trim_now_done o k q) as [-> ->] end. done.
    + destruct (pl_trim_queue p) as [|[o k] rest]; injection H as <-; [done|].
      match goal with |- context [trim_now o k ?q] => destruct (trim_now_done o k q) as [-> ->] end. done.
  - left. unfold flush_trims. assert (∀ q (p1 : Pipe), done_of (foldl (λ p q, trim_now q.1 q.2 p) p1 q) = done_of p1
      ∧ pl_manager (foldl (λ p q, trim_now q.1 q.2 p) p1 q) = pl_manager p1) as Hq.
    { intros q. induction q as [|z q IH]; intros p1; [done|]. cbn. destruct (IH (trim_now z.1 z.2 p1)) as [-> ->]. apply trim_now_done. }
    match goal with |- context [foldl _ ?q ?l] => destruct (Hq l q) as [-> ->] end. done.
Qed.

Lemma pstep_ends max cnt x y :
  pipe_ok max cnt x.1 x.2 → durable_now config m0 x.2 → continuous x.1 → pstep config delay_trim_ms x y →
  ends_now x.2 → ends_now y.2.
Proof.
  intros Hok Hd Hc Hstep He. destruct (pstep_grows config delay_trim_ms x y Hstep) as [_ Hg].
  destruct (pstep_done _ _ _ _ Hok Hd Hstep) as [[Ed Em]|(now & b & r & [_ Hb Hub _ Ec _ _ _ Em Ed _])]; [by eapply ends_same|].
  intros st. rewrite Em, commit_streams, He.
  destruct (ms_streams m0 !! st) as [z|] eqn:Ez; [|done]. cbn [fmap option_fmap option_map]. unfold set_end_offset. cbn. do 2 f_equal.
  assert (committed_of st y.2 = committed_of st x.2 ++ stream_records st b) as Ecom.
  { unfold committed_of. rewrite Ed. rewrite (blocks_of_cores y.2), Ec, <- blocks_of_cores, (take_S_r _ _ _ Hb), bind_app.
    cbn. by rewrite app_nil_r. }
  rewrite Ecom, stream_end_app. apply (advances_end config _ b _ r _ _ Hub). intros rs Hrs.
  destruct (history_split _ _ _ _ st Hok) as (l & El & Hl). destruct (Hl b Hb) as (l' & ->).
  rewrite stream_records_lookup, Hrs in El. change (default [] (Some rs)) with rs in El.
  assert (rs ≠ []) as Hne.
  { by eapply block_nonempty. }
  split; [done|]. destruct (Hc st) as (z' & e' & Ez' & _ & Hruns).
  { rewrite El. destruct rs; [done|]. by destruct (committed_of st x.2). }
  rewrite Ez in Ez'. injection Ez' as <-. rewrite El in Hruns.
  apply runs_app in Hruns as (mid & H1 & (mid' & H2 & _)%runs_app). exists mid'. by rewrite <- (runs_stream_end _ _ _ H1).
Qed.

Lemma psteps_ends max cnt (Hmax : 0 < max ≤ 2 ^ 63) (Hcnt : 0 < cnt) x y :
  rtc (pstep config delay_trim_ms) x y → pipe_ok max cnt x.1 x.2 → durable_now config m0 x.2 → ends_now x.2 →
  fits config m0 y.2 → continuous y.1 →
  pipe_ok max cnt y.1 y.2 ∧ durable_now config m0 y.2 ∧ ends_now y.2.
Proof.
  intros Hrun Hok Hd He. revert y Hrun. refine (rtc_ind_r _ _ _ _); [done|]. intros y z Hxy Hyz IH Hf Hc.
  destruct (pstep_grows config delay_trim_ms _ _ Hyz) as [Hp1 Hp2].
  assert (fits config m0 y.2) as Hfy by (by eapply (fits_prefix config m0)).
  assert (continuous y.1) as Hcy by (by eapply continuous_prefix).
  destruct (IH Hfy Hcy) as (Hok' & Hd' & He'). split; [|split].
  - eapply pstep_ok; try done. intros m n. cbn. by eexists _, _.
  - eapply (pstep_durable config delay_trim_ms m0); try done; [apply world0|by apply continuous_ordered].
  - by eapply pstep_ends.
Qed.

Lemma new_ends (s : S) (w : W) : ends_now (si_pipe (storage_new config s m0 w)).
Proof. intros st. cbn. destruct (ms_streams m0 !! st) as [x|]; [|done]. cbn. by destruct x. Qed.

(** The registry a crash leaves is one that recovery can start from. *)
Lemma crashed_world max cnt hist (p : Pipe) :
  pipe_ok max cnt hist p → durable_now config m0 p → ends_now p → fits config m0 p → continuous hist →
  world_ok (pl_manager p).
Proof.
  intros Hok Hd He Hf Hc. pose proof (wo_alloc _ world0) as H0. pose proof Hd as [[? ?] _ _ _ _ Ha Hm _ Hs Hst].
  constructor; [done|..].
  - rewrite Ha. by apply (first_id_range config m0 H0 p).
  - intros id o Ho. apply Hs in Ho. rewrite Ha. pose proof (first_id_mono config m0 (blocks p) (done_of p) (prepared_of p)). lia.
  - intros st start o x Ho Hx. rewrite He in Hx. destruct (ms_streams m0 !! st) as [z|] eqn:Ez; [|done]. injection Hx as <-. cbn.
    destruct (history_split _ _ _ _ st Hok) as (l & El & _).
    assert (∀ r, r ∈ committed_of st p → sm_end_offset z ≤ base_offset r
      ∧ base_offset r < stream_end (sm_end_offset z) (committed_of st p)) as Hrun.
    { intros r Hr. destruct (continuous_of hist st r Hc) as (z' & e & Ez' & _ & Hruns); [rewrite El; apply elem_of_app; by left|].
      rewrite Ez in Ez'. injection Ez' as <-. rewrite El in Hruns. apply runs_app in Hruns as (mid & Hruns & _).
      rewrite <- (runs_stream_end _ _ _ Hruns). apply runs_below in Hruns. rewrite Forall_forall in Hruns. by apply Hruns. }
    destruct (Hst _ _ _ Ho) as [[o0 Ho0]|(k & b & r & Hk & Hb & Hr & ->)].
    + pose proof (wo_starts _ world0 _ _ _ _ Ho0 Ez). destruct (committed_of st p) as [|r k]; [done|].
      destruct (Hrun r) as [? ?]; [left|]. lia.
    + apply Hrun. apply list_elem_of_bind. exists b. split; [done|]. apply (list_elem_of_lookup_2 _ k). by rewrite lookup_take_lt.
Qed.

(** A committed record is still read back after the recovery. *)
Lemma committed_kept max cnt hist (p : Pipe) (s' : S) m' r :
  pipe_ok max cnt hist p → durable_now config m0 p → fits config m0 p → continuous hist → manager_ok m' →
  (∀ st l start end_ o, readable (pl_store p) (pl_manager p) st l start end_ o →
     0 ≤ om_object_id o < ms_object_id_alloc (pl_manager p) → readable s' m' st l start end_ o) →
  r ∈ committed_of (stream_id r) p → record_readable s' m' r.
Proof.
  intros Hok Hd Hf Hc Hm' Hkeep Hr. pose proof (wo_alloc _ world0) as H0.
  pose proof Hd as [[Hle Hle2] _ _ _ _ Ha _ Hrd _ _].
  pose proof Hr as (b & Hrb & Hb)%list_elem_of_bind. apply list_elem_of_lookup in Hb as [k Hb].
  apply lookup_take_Some in Hb as [Hb Hk].
  assert (∃ rs, block_records b !! stream_id r = Some rs ∧ r ∈ rs) as (rs & Hrs & Hin).
  { rewrite stream_records_lookup in Hrb. destruct (block_records b !! stream_id r) as [rs|]; [by exists rs|].
    by apply not_elem_of_nil in Hrb. }
  destruct (Hrd k b Hb Hk _ _ Hrs) as (start & end_ & o & Hread & Hid).
  assert (∃ lo hi, runs lo rs hi) as (lo & hi & Hruns).
  { destruct (history_split _ _ _ _ (stream_id r) Hok) as (l & El & _).
    destruct (continuous_of hist (stream_id r) r Hc) as (z & e & _ & _ & Hruns); [rewrite El; apply elem_of_app; by left|].
    rewrite El in Hruns. apply runs_app in Hruns as (mid & Hruns & _). unfold committed_of in Hruns.
    rewrite <- (take_drop_middle (take (done_of p) (blocks p)) k b) in Hruns by (by rewrite lookup_take_lt).
    rewrite bind_app in Hruns. apply runs_app in Hruns as (a & _ & Hruns). cbn [mbind list_bind] in Hruns.
    apply runs_app in Hruns as (c & Hruns & _). rewrite stream_records_lookup, Hrs in Hruns. by exists a, c. }
  eapply readable_record; [done|apply Hkeep; [exact Hread|]|done|done|by eapply runs_sorted|by eapply runs_span].
  rewrite Ha. pose proof (first_id_mono config m0 (blocks p) (Datatypes.S k) (prepared_of p)).
  pose proof (first_id_range config m0 H0 p k Hf). lia.
Qed.

Lemma survivors_stream hist extra st x r : r ∈ survivors hist extra st x → stream_id r = st.
Proof.
  assert (∀ l e, r ∈ accept_one_stream e l → r ∈ l) as Hsub.
  { intros l. induction l as [|y l IH]; intros e; cbn; [done|].
    destruct (_ =? _); [rewrite !elem_of_cons; intros [->|?%IH]; tauto|intros ?%IH; by right]. }
  unfold survivors. rewrite elem_of_app. by intros [[? _]%list_elem_of_filter|[? _]%Hsub%list_elem_of_filter].
Qed.

(** The committed records of a stream run up to its registered end. *)
Lemma committed_runs max cnt hist (p : Pipe) st x :
  pipe_ok max cnt hist p → continuous hist → ms_streams m0 !! st = Some x →
  runs (sm_end_offset x) (committed_of st p) (stream_end (sm_end_offset x) (committed_of st p)).
Proof.
  intros Hok Hc Hx. destruct (history_split _ _ _ _ st Hok) as (l & El & _).
  destruct (decide (committed_of st p = [])) as [->|Hne]; [done|].
  destruct (Hc st) as (z & e & Ez & _ & Hruns); [rewrite El; by destruct (committed_of st p)|].
  rewrite Hx in Ez. injection Ez as <-. rewrite El in Hruns. apply runs_app in Hruns as (mid & H1 & _).
  by rewrite <- (runs_stream_end _ _ _ H1).
Qed.

Lemma committed_trimmed max cnt hist (p : Pipe) n st r :
  pipe_ok max cnt hist p → (∀ q, q ∈ take n hist → ∃ t, t ∈ pl_trims p ∧ ro_offset q.2 ≤ ro_offset t) →
  r ∈ of_stream st (take n hist).*1 → r ∈ committed_of st p.
Proof.
  intros Hok Htrim [<- Hr]%list_elem_of_filter. apply list_elem_of_fmap in Hr as ([r' o] & -> & Hq).
  destruct (Htrim _ Hq) as (t & Ht & Hle). cbn [fst snd] in *.
  destruct (pipe_trim_safe _ _ _ _ t r' o Hok Ht) as (k & ctx & Hcom & Hin); [|done|].
  { rewrite <- (take_drop n hist). apply elem_of_app. by left. }
  destruct (committed_done _ _ _ _ _ _ Hok Hcom) as [Hk Hb]. apply list_elem_of_bind. exists (tc_cache ctx).
  split; [done|]. apply (list_elem_of_lookup_2 _ k). by rewrite lookup_take_lt.
Qed.

(** What recovery accepts of a stream, from a log that lost at most trimmed records and may
    hold further ones. *)
Lemma recovered_rest max cnt hist (p : Pipe) n extra rs st z :
  pipe_ok max cnt hist p → durable_now config m0 p → ends_now p → continuous hist →
  rr_record <$> rs = (drop n hist).*1 ++ extra →
  (∀ q, q ∈ take n hist → ∃ t, t ∈ pl_trims p ∧ ro_offset q.2 ≤ ro_offset t) →
  ms_streams m0 !! st = Some z → sm_state z = StreamOpened →
  survivors hist extra st z
  = committed_of st p ++ of_stream st (accept (end_offsets (get_opening_streams (pl_manager p))) rs).2.
Proof.
  intros Hok Hd He Hc Hrs Htrim Ez Hop. unfold survivors.
  assert (end_offsets (get_opening_streams (pl_manager p)) !! st = Some (stream_end (sm_end_offset z) (committed_of st p))) as Hend.
  { apply opening_ends; [apply Hd|]. rewrite He, Ez. eexists. split; [reflexivity|]. done. }
  rewrite (accept_stream _ _ _ _ Hend), Hrs, of_stream_app. destruct (history_split _ _ _ _ st Hok) as (l & El & _).
  rewrite El, stream_end_app, <- app_assoc. f_equal.
  destruct (decide (of_stream st hist.*1 = [])) as [Hnil|Hne].
  { rewrite Hnil in El. symmetry in El. apply app_nil in El as [-> ->].
    assert (of_stream st (drop n hist).*1 = []) as ->; [|done].
    rewrite <- (take_drop n hist), fmap_app, of_stream_app in Hnil. by apply app_nil in Hnil as [_ ?]. }
  destruct (Hc st Hne) as (z' & e & Ez' & _ & Hruns). rewrite Ez in Ez'. injection Ez' as <-.
  rewrite El in Hruns. apply runs_app in Hruns as (mid & H1 & H2). pose proof H1 as Hm1. rewrite (runs_stream_end _ _ _ H1) in H2.
  rewrite <- (runs_stream_end _ _ _ H2).
  set (hd := of_stream st (take n hist).*1). set (tl := of_stream st (drop n hist).*1).
  assert (committed_of st p ++ l = hd ++ tl) as Esplit.
  { rewrite <- El. rewrite <- (take_drop n hist) at 1. by rewrite fmap_app, of_stream_app. }
  assert (length hd ≤ length (committed_of st p))%nat as Hlen.
  { destruct (le_lt_dec (length hd) (length (committed_of st p))) as [?|Hgt]; [done|exfalso].
    destruct (lookup_lt_is_Some_2 _ _ Hgt) as [r Hr]. pose proof Hr as Hr'. apply list_elem_of_lookup_2 in Hr'.
    assert (r ∈ l) as Hl.
    { apply (list_elem_of_lookup_2 _ 0%nat). apply (lookup_app_l_Some hd tl) in Hr. rewrite <- Esplit, lookup_app_r in Hr by lia.
      by rewrite Nat.sub_diag in Hr. }
    pose proof (committed_trimmed _ _ _ _ _ _ _ Hok Htrim Hr') as Hin.
    apply runs_below in H1, H2. rewrite Forall_forall in H1, H2. specialize (H1 r Hin). specialize (H2 r Hl). cbn in H1, H2.
    rewrite <- (runs_stream_end _ _ _ Hm1) in H2. lia. }
  apply app_eq_inv in Esplit as [(k & Ek & El')|(k & Ek & El')].
  - rewrite El', <- app_assoc, accept_skip; [symmetry; by eapply accept_all|]. rewrite Ek in H1 |- *.
    pose proof (runs_stream_end _ _ _ H1) as <-. apply runs_app in H1 as (a & _ & H1). apply runs_below in H1.
    eapply Forall_impl; [exact H1|]. cbn. lia.
  - rewrite Ek, length_app in Hlen. destruct k; [|cbn in Hlen; lia]. rewrite app_nil_r in *. cbn in El'. subst l.
    symmetry. by eapply accept_all.
Qed.

(** Recovery over what a stopped run left; shared with the failover of another node. *)
Lemma recover_after_crash (s : S) (w w1 w2 : W) hist st n extra rs fuel now :
  0 < cfg_max_stream_num_per_stream_set_object config →
  rtc (sstep config delay_trim_ms) ([], storage_new config s m0 w) (hist, st) →
  continuous hist → fits config m0 (si_pipe st) →
  wal_recover w1 = Ok <$> rs → rr_record <$> rs = (drop n hist).*1 ++ extra →
  (∀ q, q ∈ take n hist → ∃ t, t ∈ pl_trims (si_pipe st) ∧ ro_offset q.2 ≤ ro_offset t) →
  wal_reset w1 = (w2, Ok tt) → Forall recoverable rs → (length rs < fuel)%nat →
  ms_object_id_alloc (pl_manager (si_pipe st)) + Z.of_nat (length rs) < 2 ^ 64 →
  ∃ s' m',
    storage_recover config now fuel w1 (pl_store (si_pipe st)) (pl_manager (si_pipe st)) = Some (w2, s', m', Ok tt)
    ∧ (∀ r o, (r, o) ∈ hist → record_readable s' m' r)
    ∧ ∀ id x, ms_streams m0 !! id = Some x → sm_state x = StreamOpened →
        ∃ e, runs (sm_end_offset x) (survivors hist extra id x) e
          ∧ Forall (record_readable s' m') (survivors hist extra id x)
          ∧ ms_streams m' !! id = Some (closed (set_end_offset e x)).
Proof.
  intros Hcnt Hrun Hc Hf Hrec Hrs Htrim Hreset Hall Hfuel Hid.
  pose proof (ssteps_psteps config delay_trim_ms _ _ Hrun) as Hp.
  destruct (psteps_ends _ _ (threshold_range config) Hcnt _ _ Hp (new_pipe_ok config s m0 w)) as (Hok & Hd & He); cbn [fst snd] in *;
    [apply new_durable; apply world0|apply new_ends|done|done|].
  pose proof (crashed_world _ _ _ _ Hok Hd He Hf Hc) as Hw.
  destruct (recover_durable config now (pl_store (si_pipe st)) (pl_manager (si_pipe st)) w1 w2 rs fuel)
    as (s' & m' & E & Hm' & Hread & Hkeep & Hst); [done..|].
  assert (∀ id x r, ms_streams m0 !! id = Some x → sm_state x = StreamOpened → r ∈ survivors hist extra id x →
    record_readable s' m' r) as Hsurv.
  { intros id x r Hx Hop Hr. pose proof Hr as Hid'%survivors_stream.
    rewrite (recovered_rest _ _ _ _ n extra rs _ x Hok Hd He Hc Hrs Htrim Hx Hop) in Hr.
    apply elem_of_app in Hr as [Hr|[_ Hr]%list_elem_of_filter]; [|by apply Hread].
    subst id. by eapply committed_kept. }
  exists s', m'. split; [done|]. split.
  - intros r o Hin. pose proof (in_stream _ _ Hin) as Hr. cbn [fst] in Hr.
    destruct (continuous_of _ _ _ Hc Hr) as (z & _ & Ez & Hop & _).
    eapply Hsurv; [done..|]. apply elem_of_app. by left.
  - intros id x Hx Hop. pose proof (He id) as Hx'. rewrite Hx in Hx'.
    destruct (Hst id _ Hx') as (e & Hruns & Hcl); [done|]. exists e. split_and!.
    + rewrite (recovered_rest _ _ _ _ n extra rs _ x Hok Hd He Hc Hrs Htrim Hx Hop).
      apply runs_app. eexists. split; [|exact Hruns]. by eapply committed_runs.
    + apply Forall_forall. intros r. by apply Hsurv.
    + rewrite Hcl. by destruct x.
Qed.

(** C1: no acknowledged record is lost in a crash. The storage runs from an empty state
    through any interleaving of appends, seals, uploads, commits and trims and stops; a
    new process then recovers from what it left: the objects, the registry, and the log.
    The log is taken to have kept every confirmed record above the storage's trims, in
    order; after them it may hold any further records, written but not yet confirmed when
    the process stopped. Then the recovery succeeds, every record the log had ever
    confirmed is found by a lookup of its offsets in an object that reads back to it, so
    are those of the further records that continue their stream, and each open stream is
    closed, without a gap, at the end of the last of these records. *)
Theorem crash_recovery_keeps_acked (s : S) (w w1 w2 : W) hist st n extra rs fuel now :
  0 < cfg_max_stream_num_per_stream_set_object config →
  rtc (sstep config delay_trim_ms) ([], storage_new config s m0 w) (hist, st) →
  continuous hist → fits config m0 (si_pipe st) →
  wal_recover w1 = Ok <$> rs → rr_record <$> rs = (drop n hist).*1 ++ extra →
  (∀ q, q ∈ take n hist → ∃ t, t ∈ pl_trims (si_pipe st) ∧ ro_offset q.2 ≤ ro_offset t) →
  wal_reset w1 = (w2, Ok tt) → Forall recoverable rs → (length rs < fuel)%nat →
  ms_object_id_alloc (pl_manager (si_pipe st)) + Z.of_nat (length rs) < 2 ^ 64 →
  ∃ s' m',
    storage_recover config now fuel w1 (pl_store (si_pipe st)) (pl_manager (si_pipe st)) = Some (w2, s', m', Ok tt)
    ∧ (∀ r o, (r, o) ∈ hist → record_readable s' m' r)
    ∧ ∀ id x, ms_streams m0 !! id = Some x → sm_state x = StreamOpened →
        ∃ e, runs (sm_end_offset x) (survivors hist extra id x) e
          ∧ Forall (record_readable s' m') (survivors hist extra id x)
          ∧ ms_streams m' !! id = Some (closed (set_end_offset e x)).
Proof. apply recover_after_crash. Qed.
End Crash.

(** ** A crash with one committed and one confirmed record *)

Module CrashRun.
Definition registry : MetadataState := (open_stream 0 1 (create_stream manager_new).1).1.
Definition r1 : StreamRecordBatch := new 0 1 0 1 [1].
Definition r2 : StreamRecordBatch := new 0 1 1 2 [2].
Definition run : list StorageOp :=
  [OpConfirm r1 Runs.o1; OpUploadDelta 0 false; OpConfirm r2 Runs.o2; OpPrepare; OpUpload 0 0; OpCommit 0; OpTrim 0].
Definition start := ([] : History, storage_new Runs.config (ms_new 0) registry (mem_start (mem_new 1 0))).

(** The log kept the confirmed [r2], and [r3] was written to it but not confirmed. *)
Definition r3 : StreamRecordBatch := new 0 1 3 1 [3].
Definition log : MemoryWriteAheadLog := (mem_submit r3 (mem_submit r2 (mem_start (mem_new 1 1))).1).1.
Definition items : list RecoverResult := [recovered 1 (0, r2); recovered 1 (framed_size r2, r3)].

Definition check {S W} (x : History * StorageInner (S:=S) (M:=MetadataState) (W:=W)) : bool :=
  bool_decide (x.1 = [(r1, Runs.o1); (r2, Runs.o2)])
  && bool_decide (block_records <$> blocks (si_pipe x.2) = [{[0 := [r1]]}])
  && (first_id Runs.config registry (blocks (si_pipe x.2)) (length (blocks (si_pipe x.2))) <? 2 ^ 64)
  && bool_decide (Runs.o1 ∈ pl_trims (si_pipe x.2))
  && (ms_object_id_alloc (pl_manager (si_pipe x.2)) + 2 <? 2 ^ 64).

Lemma registry_ok : world_ok registry.
Proof.
  constructor; [|done|done|done].
  apply (mstep_ok (create_stream manager_new).1 _ (ms_open _ 0 1)).
  apply (mstep_ok manager_new _ (ms_create manager_new ltac:(done))), manager_new_ok.
Qed.

Lemma wf_r : wf_batch r1 ∧ wf_batch r2 ∧ wf_batch r3.
Proof. split_and!; (apply wf_new; [repeat constructor; vm_compute; intuition discriminate|vm_compute; reflexivity]). Qed.

Lemma history_continuous : continuous registry [(r1, Runs.o1); (r2, Runs.o2)].
Proof.
  intros st. unfold of_stream. cbn [fmap list_fmap fst]. rewrite !filter_cons, filter_nil.
  change (stream_id r1) with 0. change (stream_id r2) with 0. case_decide; [subst st|done]. intros _.
  exists (mkStream 0 1 0 0 StreamOpened (-1)), 3. split; [done|]. split; [done|]. repeat split; done.
Qed.

Lemma items_ok : Forall recoverable items.
Proof. repeat constructor; try apply wf_r; vm_compute; intuition discriminate. Qed.

Lemma block_ok : records_ok {[0 := [r1]]}.
Proof.
  split; [|vm_compute; reflexivity]. intros st rs [<- <-]%lookup_singleton_Some. split; [done|].
  split; [done|]. apply Forall_singleton, wf_r.
Qed.
End CrashRun.

Lemma crash_recovery_keeps_acked_witness :
  ∃ st, rtc (sstep Runs.config (delay_trim_of Runs.config)) CrashRun.start ([(CrashRun.r1, Runs.o1); (CrashRun.r2, Runs.o2)], st)
    ∧ ∃ s' m', storage_recover Runs.config 5 3 CrashRun.log (pl_store (si_pipe st)) (pl_manager (si_pipe st))
                = Some (mem_reset CrashRun.log, s', m', Ok tt)
        ∧ record_readable s' m' CrashRun.r1 ∧ record_readable s' m' CrashRun.r2 ∧ record_readable s' m' CrashRun.r3
        ∧ sm_end_offset <$> ms_streams m' !! 0 = Some 4.
Proof.
  destruct (exec_ops_check Runs.config CrashRun.run CrashRun.start CrashRun.check)
    as ([hist st] & Hrun & Hc); [vm_compute; reflexivity|]. unfold CrashRun.check in Hc. cbn [fst snd] in Hc.
  apply andb_prop in Hc as [[[[H1%bool_decide_eq_true_1 H2%bool_decide_eq_true_1]%andb_prop H3%Z.ltb_lt]%andb_prop
    H4%bool_decide_eq_true_1]%andb_prop H5%Z.ltb_lt]. subst hist.
  exists st. split; [done|].
  destruct (crash_recovery_keeps_acked Runs.config (delay_trim_of Runs.config) CrashRun.registry CrashRun.registry_ok
    (ms_new 0) (mem_start (mem_new 1 0)) CrashRun.log (mem_reset CrashRun.log)
    [(CrashRun.r1, Runs.o1); (CrashRun.r2, Runs.o2)] st 1 [CrashRun.r3] CrashRun.items 3 5) as (s' & m' & E & Hr & Hs).
  - done.
  - exact Hrun.
  - apply CrashRun.history_continuous.
  - split; [|done]. change (Forall (records_ok ∘ block_records) (blocks (si_pipe st))). rewrite <- Forall_fmap, H2.
    apply Forall_singleton, CrashRun.block_ok.
  - vm_compute. reflexivity.
  - reflexivity.
  - intros q ->%list_elem_of_singleton. by exists Runs.o1.
  - reflexivity.
  - apply CrashRun.items_ok.
  - cbn. lia.
  - exact H5.
  - destruct (Hs 0 (mkStream 0 1 0 0 StreamOpened (-1)) eq_refl eq_refl) as (e & Hruns & Hall & He).
    assert (survivors [(CrashRun.r1, Runs.o1); (CrashRun.r2, Runs.o2)] [CrashRun.r3] 0 (mkStream 0 1 0 0 StreamOpened (-1))
      = [CrashRun.r1; CrashRun.r2; CrashRun.r3]) as Es by (vm_compute; reflexivity).
    rewrite Es in Hruns, Hall. rewrite Forall_forall in Hall.
    exists s', m'. split_and!; [exact E|apply Hall; rewrite !elem_of_cons; tauto..|].
    apply runs_stream_end in Hruns. rewrite He, Hruns. vm_compute. reflexivity.
Defined.
