(* ===== verification/CompactPlan.v ===== *)
(** * Compaction planning

    Models [s3stream-core/src/compact/plan.rs]: the blocks, the object builder with its
    current-stream window, the analyzer that turns the blocks of the node's stream set
    objects into memory-bounded stages, and the two stateful grouping predicates.

    A [HashMap] is a [gmap]; its iteration order is the one of [map_to_list].  [None] is
    a panic or, for the two loops, exhausted fuel; the theorems below give the fuel that
    is enough. *)
From S2P Require Import Prelude Collections ObjectFormat.

Record StreamDataBlock : Type := mkBlock {
  bk_object_id : Z;
  bk_index : DataBlockIndex;
}.
#[export] Instance StreamDataBlock_eq_dec : EqDecision StreamDataBlock.
Proof. solve_decision. Defined.

Definition sdb_new (stream_id start_offset end_offset object_id block_position block_size record_count : Z)
  : StreamDataBlock :=
  mkBlock object_id
    {| bi_block_id := -1; bi_stream_id := stream_id; bi_start_offset := start_offset;
       bi_end_offset_delta := u32 (u64 (end_offset - start_offset)); bi_record_count := record_count;
       bi_start_position := block_position; bi_size := block_size |}.

Definition bk_stream_id (b : StreamDataBlock) : Z := bi_stream_id (bk_index b).
Definition bk_start_offset (b : StreamDataBlock) : Z := bi_start_offset (bk_index b).
Definition bk_end_offset (b : StreamDataBlock) : Z := bi_end_offset (bk_index b).
Definition bk_start_position (b : StreamDataBlock) : Z := bi_start_position (bk_index b).
Definition bk_end_position (b : StreamDataBlock) : Z := bi_end_position (bk_index b).
Definition bk_size (b : StreamDataBlock) : Z := bi_size (bk_index b).

(** [iter().map(|b| b.block_size() as u64).sum()] *)
Definition sum_sizes (blocks : list StreamDataBlock) : Z := foldl (λ a b, u64 (a + bk_size b)) 0 blocks.

Inductive CompactionType : Type := Split | Compact.
#[export] Instance CompactionType_eq_dec : EqDecision CompactionType.
Proof. solve_decision. Defined.

Record CompactedObject : Type := mkCompacted {
  co_type : CompactionType;
  co_blocks : list StreamDataBlock;
}.
Definition co_size (o : CompactedObject) : Z := sum_sizes (co_blocks o).

Record CompactionPlan : Type := mkPlan {
  cp_order : Z;
  cp_compacted_objects : list CompactedObject;
  cp_blocks_map : gmap Z (list StreamDataBlock);
}.

(** ** CompactedObjectBuilder *)

Record CompactedObjectBuilder : Type := mkBuilder {
  cb_type : CompactionType;
  cb_blocks : list StreamDataBlock;
  cb_head : Z;
  cb_tail : Z;
}.

Definition cb_new : CompactedObjectBuilder := mkBuilder Compact [] (-1) (-1).

Definition cb_last_stream_id (b : CompactedObjectBuilder) : option Z := bk_stream_id <$> last (cb_blocks b).
Definition cb_last_offset (b : CompactedObjectBuilder) : option Z := bk_end_offset <$> last (cb_blocks b).

Definition cb_add_block (b : CompactedObjectBuilder) (block : StreamDataBlock) : CompactedObjectBuilder :=
  let head :=
    if bool_decide (Some (bk_stream_id block) = cb_last_stream_id b) then cb_head b else len (cb_blocks b) in
  let blocks := cb_blocks b ++ [block] in
  mkBuilder (cb_type b) blocks head (len blocks).

(** The loop over the blocks: current stream, head and tail. *)
Fixpoint window_loop (i : Z) (curr_stream_id : option Z) (head tail : Z) (blocks : list StreamDataBlock) : Z * Z :=
  match blocks with
  | [] => (head, tail)
  | block :: rest =>
      let head := if bool_decide (curr_stream_id = Some (bk_stream_id block)) then head else i in
      window_loop (i + 1) (Some (bk_stream_id block)) head (i + 1) rest
  end.

Definition cb_reset_curr_stream_position (b : CompactedObjectBuilder) : CompactedObjectBuilder :=
  let '(head, tail) := window_loop 0 None (-1) (-1) (cb_blocks b) in
  mkBuilder (cb_type b) (cb_blocks b) head tail.

Definition set_type (t : CompactionType) (b : CompactedObjectBuilder) : CompactedObjectBuilder :=
  mkBuilder t (cb_blocks b) (cb_head b) (cb_tail b).

(** The remaining builder and the one split off; [drain] panics outside the vector. *)
Definition cb_split (start end_ : Z) (b : CompactedObjectBuilder)
  : option (CompactedObjectBuilder * CompactedObjectBuilder) :=
  if (start <? 0) || (cb_tail b <? end_) then Some (b, cb_new)
  else if (end_ <? start) || (len (cb_blocks b) <? end_) then None
  else
    let builder := foldl cb_add_block cb_new (slice start end_ (cb_blocks b)) in
    let rest := mkBuilder (cb_type b) (takeZ start (cb_blocks b) ++ dropZ end_ (cb_blocks b)) (cb_head b) (cb_tail b) in
    Some (cb_reset_curr_stream_position rest, set_type (cb_type b) builder).

Definition cb_split_current_stream (b : CompactedObjectBuilder)
  : option (CompactedObjectBuilder * CompactedObjectBuilder) :=
  cb_split (cb_head b) (cb_tail b) b.

Definition cb_total_stream_num (b : CompactedObjectBuilder) : Z :=
  Z.of_nat (base.size (list_to_set (bk_stream_id <$> cb_blocks b) : gset Z)).

Definition cb_curr_stream_block_size (b : CompactedObjectBuilder) : option Z :=
  if (cb_head b <? 0) || (cb_tail b <? 0) then Some 0
  else if (cb_tail b <? cb_head b) || (len (cb_blocks b) <? cb_tail b) then None
  else Some (sum_sizes (slice (cb_head b) (cb_tail b) (cb_blocks b))).

Definition cb_unique_object_ids (b : CompactedObjectBuilder) : gset Z := list_to_set (bk_object_id <$> cb_blocks b).
Definition cb_total_block_size (b : CompactedObjectBuilder) : Z := sum_sizes (cb_blocks b).

Definition cb_merge (b other : CompactedObjectBuilder) : CompactedObjectBuilder :=
  if bool_decide (cb_type other = Split) then b
  else cb_reset_curr_stream_position (mkBuilder (cb_type b) (cb_blocks b ++ cb_blocks other) (cb_head b) (cb_tail b)).

Definition cb_build (b : CompactedObjectBuilder) : CompactedObject := mkCompacted (cb_type b) (cb_blocks b).

(** ** CompactionStats *)

Record CompactionStats : Type := mkStats {
  st_stream_num_in_stream_set : Z;
  st_stream_object_num : Z;
  st_object_to_compacted_object_num : gmap Z Z;
}.

Definition stats_of_one (s : CompactionStats) (b : CompactedObjectBuilder) : CompactionStats :=
  let object_map :=
    foldl (λ m id, <[id := u64 (default 0 (m !! id) + 1)]> m) (st_object_to_compacted_object_num s)
      (elements (cb_unique_object_ids b)) in
  if bool_decide (cb_type b = Split ∧ cb_blocks b ≠ [])
  then mkStats (st_stream_num_in_stream_set s) (u64 (st_stream_object_num s + 1)) object_map
  else if bool_decide (cb_type b = Compact)
  then mkStats (u64 (st_stream_num_in_stream_set s + cb_total_stream_num b)) (st_stream_object_num s) object_map
  else mkStats (st_stream_num_in_stream_set s) (st_stream_object_num s) object_map.

Definition stats_of (builders : list CompactedObjectBuilder) : CompactionStats :=
  foldl stats_of_one (mkStats 0 0 ∅) builders.

Definition total_object_stats (b : CompactedObjectBuilder) (stats : gmap Z Z) : Z :=
  foldl (λ a id, u64 (a + default 0 (stats !! id))) 0 (elements (cb_unique_object_ids b)).

(** ** Sorting and filtering the blocks *)

Abbreviation BlockMap := (gmap Z (list StreamDataBlock)).

Definition map_blocks (m : BlockMap) : list StreamDataBlock := concat (map_to_list m).*2.

Definition start_le (a b : StreamDataBlock) : bool := bk_start_offset a <=? bk_start_offset b.

Definition sort_stream_range_positions (m : BlockMap) : list StreamDataBlock :=
  concat (sort_by start_le <$> values (group_by bk_stream_id (map_blocks m))).

(** [map.entry(k).or_default().insert(x)] *)
Definition insert_at (m : gmap Z (gset Z)) (k x : Z) : gmap Z (gset Z) :=
  <[k := {[x]} ∪ default ∅ (m !! k)]> m.

Definition filter_blocks_to_compact (m : BlockMap) : BlockMap :=
  let stream_to_object_ids : gmap Z (gset Z) :=
    foldl (λ acc b, insert_at acc (bk_stream_id b) (bk_object_id b)) ∅ (map_blocks m) in
  let objects_to_compact : gset Z :=
    ⋃ (filter (λ ids : gset Z, (1 < base.size ids)%nat) (map_to_list stream_to_object_ids).*2) in
  filter (λ p, p.1 ∈ objects_to_compact) m.

(** ** Grouping consecutive blocks

    The predicate is stateful: [test] returns the new state and the verdict. *)
Fixpoint group_loop {P} (test : P → StreamDataBlock → P * bool) (p : P) (curr blocks : list StreamDataBlock)
  : list (list StreamDataBlock) :=
  match blocks with
  | [] => match curr with [] => [] | _ => [curr] end
  | block :: rest =>
      let '(p, ok) := test p block in
      if ok then group_loop test p (curr ++ [block]) rest
      else match curr with
           | [] => group_loop test p [] rest
           | _ => curr :: group_loop test p [block] rest
           end
  end.

Definition group_stream_data_blocks {P} (test : P → StreamDataBlock → P * bool) (p : P)
    (blocks : list StreamDataBlock) : list (list StreamDataBlock) :=
  group_loop test p [] blocks.

Record GroupByLimitPredicate : Type := mkLimit {
  gl_block_size_threshold : Z;
  gl_stream_id : Z;
  gl_start_offset : Z;
  gl_next_start_offset : Z;
  gl_block_size : Z;
  gl_record_cnt : Z;
}.

Definition limit_new (block_size_threshold : Z) : GroupByLimitPredicate :=
  mkLimit block_size_threshold (-1) 0 0 0 0.

Definition limit_test (p : GroupByLimitPredicate) (b : StreamDataBlock) : GroupByLimitPredicate * bool :=
  let cut :=
    (gl_stream_id p =? -1)
    || negb (i64 (bk_stream_id b) =? gl_stream_id p)
    || negb (bk_start_offset b =? gl_next_start_offset p)
    || (gl_block_size_threshold p <=? u64 (gl_block_size p + bk_size b))
    || (I32_MAX <? u64 (gl_record_cnt p + bi_record_count (bk_index b)))
    || (I32_MAX <? u64 (bk_end_offset b - gl_start_offset p)) in
  let flag := negb cut || (gl_stream_id p =? -1) in
  let '(stream_id, start_offset, block_size, record_cnt) :=
    if cut then (i64 (bk_stream_id b), bk_start_offset b, 0, 0)
    else (gl_stream_id p, gl_start_offset p, gl_block_size p, gl_record_cnt p) in
  (mkLimit (gl_block_size_threshold p) stream_id start_offset (bk_end_offset b)
     (u64 (block_size + bk_size b)) (u64 (record_cnt + bi_record_count (bk_index b))), flag).

Record GroupByOffsetPredicate : Type := mkOffset {
  go_curr_stream_id : Z;
  go_next_start_offset : Z;
}.

Definition offset_new : GroupByOffsetPredicate := mkOffset (-1) 0.

Definition offset_test (p : GroupByOffsetPredicate) (b : StreamDataBlock) : GroupByOffsetPredicate * bool :=
  if go_curr_stream_id p =? -1 then (mkOffset (i64 (bk_stream_id b)) (bk_end_offset b), true)
  else if (go_curr_stream_id p =? i64 (bk_stream_id b)) && (go_next_start_offset p =? bk_start_offset b)
  then (mkOffset (go_curr_stream_id p) (bk_end_offset b), true)
  else (mkOffset (i64 (bk_stream_id b)) (bk_end_offset b), false).

(** ** CompactionAnalyzer *)

Record CompactionAnalyzer : Type := mkAnalyzer {
  ca_compaction_cache_size : Z;
  ca_stream_split_size : Z;
  ca_max_stream_num_in_stream_set : Z;
  ca_max_stream_object_num : Z;
}.

Section Analyzer.
Context (a : CompactionAnalyzer).

(** The builders pushed and the builder to go on with. *)
Definition split_object (builder : CompactedObjectBuilder)
  : option (list CompactedObjectBuilder * CompactedObjectBuilder) :=
  let* (builder, split_builder) := cb_split_current_stream builder in
  let split_builder := set_type Split split_builder in
  Some ((if negb (cb_total_block_size builder =? 0) then [builder] else []) ++ [split_builder], cb_new).

Definition split_and_add_block (builder : CompactedObjectBuilder) (block : StreamDataBlock)
  : option (list CompactedObjectBuilder * CompactedObjectBuilder) :=
  let* size := cb_curr_stream_block_size builder in
  if ca_stream_split_size a <? size then
    let* (pushed, builder) := split_object builder in
    Some (pushed, cb_add_block builder block)
  else Some ([], cb_add_block builder block).

(** The outer [option] is a panic, the inner one the method's own: [None] when a block
    starts inside the one before it. *)
Fixpoint compact_loop (builder : CompactedObjectBuilder) (sorted_blocks : list StreamDataBlock)
  : option (option (list CompactedObjectBuilder)) :=
  match sorted_blocks with
  | [] =>
      let* size := cb_curr_stream_block_size builder in
      if ca_stream_split_size a <? size then
        let* (pushed, _) := split_object builder in Some (Some pushed)
      else Some (Some [builder])
  | block :: rest =>
      match cb_last_stream_id builder with
      | None => compact_loop (cb_add_block builder block) rest
      | Some last_stream_id =>
          if last_stream_id =? bk_stream_id block then
            let* last_offset := cb_last_offset builder in
            if last_offset <? bk_start_offset block then
              let* (pushed, builder) := split_object builder in
              let* r := compact_loop (cb_add_block builder block) rest in
              Some (let* builders := r in Some (pushed ++ builders))
            else if bk_start_offset block =? last_offset then compact_loop (cb_add_block builder block) rest
            else Some None
          else
            let* (pushed, builder) := split_and_add_block builder block in
            let* r := compact_loop builder rest in
            Some (let* builders := r in Some (pushed ++ builders))
      end
  end.

Definition compact_objects (sorted_blocks : list StreamDataBlock) : option (option (list CompactedObjectBuilder)) :=
  compact_loop cb_new sorted_blocks.

Definition pair_le (x y : Z * Z) : bool := (x.1 <? y.1) || ((x.1 =? y.1) && (x.2 <=? y.2)).

(** [Iterator::min]: the first minimal element. *)
Definition iter_min {A} (le : A → A → bool) (l : list A) : option A :=
  match l with
  | [] => None
  | x :: l => Some (foldl (λ m y, if le m y then m else y) x l)
  end.

(** Both maps of the [Compact] case are filled in one pass, so the indexing of
    [object_stream_ids_map] always finds its key. *)
Definition add_objects_to_remove (compaction_type : CompactionType) (builders : list CompactedObjectBuilder)
    (stats : CompactionStats) : gset Z :=
  let candidates := filter (λ b, cb_type b = compaction_type) builders in
  match candidates with
  | [] => ∅
  | _ =>
      match compaction_type with
      | Split =>
          let key b := (len (cb_blocks b), total_object_stats b (st_object_to_compacted_object_num stats)) in
          match sort_by (λ b c, pair_le (key b) (key c)) candidates with
          | [] => ∅
          | b :: _ => cb_unique_object_ids b
          end
      | Compact =>
          let blocks := concat (cb_blocks <$> candidates) in
          let stream_object_ids_map := foldl (λ m b, insert_at m (bk_stream_id b) (bk_object_id b)) ∅ blocks in
          let object_stream_ids_map := foldl (λ m b, insert_at m (bk_object_id b) (bk_stream_id b)) ∅ blocks in
          let dispersion (ids : gset Z) : Z :=
            foldl (λ n id, u64 (n + Z.of_nat (base.size (default ∅ (object_stream_ids_map !! id))))) 0 (elements ids) in
          match iter_min pair_le ((λ p, (dispersion p.2, p.1)) <$> entries stream_object_ids_map) with
          | Some (_, stream_id) => default ∅ (stream_object_ids_map !! stream_id)
          | None => ∅
          end
      end
  end.

(** The outer [option]: panic or no fuel. The result: the method's own option, and the
    excluded objects. *)
Fixpoint group_limits_loop (fuel : nat) (stats : option CompactionStats) (builders : list CompactedObjectBuilder)
    (sorted_blocks : list StreamDataBlock) (m : BlockMap) (excluded : gset Z)
  : option (option (list CompactedObjectBuilder) * gset Z) :=
  match fuel with
  | O => None
  | S fuel =>
      let objects_to_remove : gset Z :=
        match stats with
        | None => ∅
        | Some stats =>
            if ca_max_stream_object_num a <? st_stream_object_num stats
            then add_objects_to_remove Split builders stats
            else add_objects_to_remove Compact builders stats
        end in
      if bool_decide (is_Some stats ∧ objects_to_remove = ∅) then Some (None, excluded)
      else
        let excluded := excluded ∪ objects_to_remove in
        let sorted_blocks := filter (λ b, bk_object_id b ∉ objects_to_remove) sorted_blocks in
        let m := filter_blocks_to_compact (filter (λ p, p.1 ∉ objects_to_remove) m) in
        if bool_decide (m = ∅) then Some (None, excluded)
        else
          let* r := compact_objects sorted_blocks in
          match r with
          | None => Some (None, excluded)
          | Some builders =>
              let new_stats := stats_of builders in
              if (ca_max_stream_num_in_stream_set a <? st_stream_num_in_stream_set new_stats)
                 || (ca_max_stream_object_num a <? st_stream_object_num new_stats)
              then group_limits_loop fuel (Some new_stats) builders sorted_blocks m excluded
              else Some (Some builders, excluded)
          end
  end.

Definition group_object_with_limits (m : BlockMap) (excluded : gset Z)
  : option (option (list CompactedObjectBuilder) * gset Z) :=
  let sorted_blocks := sort_stream_range_positions m in
  group_limits_loop (S (S (length sorted_blocks))) None [] sorted_blocks m excluded.

Definition add_or_merge (builder : CompactedObjectBuilder) (compacted_objects : list CompactedObject)
    (stream_set_builder : option CompactedObjectBuilder) : list CompactedObject * option CompactedObjectBuilder :=
  if bool_decide (cb_type builder = Split) then (compacted_objects ++ [cb_build builder], stream_set_builder)
  else (compacted_objects, Some (cb_merge (default cb_new stream_set_builder) builder)).

Definition position_le (x y : StreamDataBlock) : bool := bk_start_position x <=? bk_start_position y.

Definition generate_plan (order : Z) (compacted_objects : list CompactedObject)
    (stream_set_builder : option CompactedObjectBuilder) : CompactionPlan :=
  let compacted_objects :=
    match stream_set_builder with
    | Some b => compacted_objects ++ [cb_build b]
    | None => compacted_objects
    end in
  mkPlan order compacted_objects
    (sort_by position_le <$> group_by bk_object_id (concat (co_blocks <$> compacted_objects))).

(** The first block with which the stage would exceed the cache, 0 when there is none. *)
Fixpoint cut_point (j tmp_size : Z) (blocks : list StreamDataBlock) : Z :=
  match blocks with
  | [] => 0
  | block :: rest =>
      let tmp_size := u64 (tmp_size + bk_size block) in
      if ca_compaction_cache_size a <? tmp_size then j else cut_point (j + 1) tmp_size rest
  end.

Fixpoint generate_plan_loop (fuel : nat) (builders : list CompactedObjectBuilder)
    (compacted_objects : list CompactedObject) (stream_set_builder : option CompactedObjectBuilder)
    (total_size order : Z) : option (list CompactionPlan) :=
  match fuel with
  | O => None
  | S fuel =>
      match builders with
      | [] =>
          Some (if bool_decide (compacted_objects ≠ [] ∨ is_Some stream_set_builder)
                then [generate_plan order compacted_objects stream_set_builder] else [])
      | builder :: rest =>
          if ca_compaction_cache_size a <? u64 (total_size + cb_total_block_size builder) then
            let end_offset := cut_point 0 total_size (cb_blocks builder) in
            let* (builder, compacted_objects, stream_set_builder) :=
              if negb (end_offset =? 0) then
                let* (builder, prefix) := cb_split 0 end_offset builder in
                let '(compacted_objects, stream_set_builder) :=
                  add_or_merge prefix compacted_objects stream_set_builder in
                Some (builder, compacted_objects, stream_set_builder)
              else Some (builder, compacted_objects, stream_set_builder) in
            let* plans := generate_plan_loop fuel (builder :: rest) [] None 0 (u32 (order + 1)) in
            Some (generate_plan order compacted_objects stream_set_builder :: plans)
          else
            let '(compacted_objects', stream_set_builder') :=
              add_or_merge builder compacted_objects stream_set_builder in
            generate_plan_loop fuel rest compacted_objects' stream_set_builder'
              (u64 (total_size + cb_total_block_size builder)) order
      end
  end.

(** Every round consumes a builder, shortens one, or closes a non-empty stage. *)
Definition plan_fuel (builders : list CompactedObjectBuilder) : nat :=
  (2 * length (concat (cb_blocks <$> builders)) + 2 * length builders + 2)%nat.

Definition generate_plan_with_cache_limit (builders : list CompactedObjectBuilder) : option (list CompactionPlan) :=
  generate_plan_loop (plan_fuel builders) builders [] None 0 0.

Definition analyze (m : BlockMap) (excluded : gset Z) : option (list CompactionPlan * gset Z) :=
  if bool_decide (m = ∅) then Some ([], excluded)
  else
    let m := filter_blocks_to_compact m in
    if bool_decide (m = ∅) then Some ([], excluded)
    else
      let* (r, excluded) := group_object_with_limits m excluded in
      match r with
      | Some builders => let* plans := generate_plan_with_cache_limit builders in Some (plans, excluded)
      | None => Some ([], excluded)
      end.
End Analyzer.

(** ** Sizes *)

Fixpoint total (blocks : list StreamDataBlock) : Z :=
  match blocks with
  | [] => 0
  | b :: rest => bk_size b + total rest
  end.

Lemma total_app l k : total (l ++ k) = total l + total k.
Proof. induction l as [|b l IH]; cbn; [done|]. rewrite IH. lia. Qed.

Lemma total_perm l k : l ≡ₚ k → total l = total k.
Proof. induction 1; cbn; lia. Qed.

(** Non-empty blocks whose sizes fit their width. *)
Definition sized (b : StreamDataBlock) : Prop := 0 < bk_size b < 2 ^ 32.
#[export] Instance sized_dec b : Decision (sized b).
Proof. unfold sized. apply _. Defined.

Lemma total_nonneg l : Forall sized l → 0 ≤ total l.
Proof. induction 1 as [|b l Hb _ IH]; cbn; [done|]. unfold sized in Hb. lia. Qed.

Lemma total_pos l : Forall sized l → l ≠ [] → 0 < total l.
Proof. intros [|b k Hb H]; [done|]. intros _. cbn. pose proof (total_nonneg _ H). unfold sized in Hb. lia. Qed.

Lemma sum_sizes_total l : Forall sized l → total l < 2 ^ 64 → sum_sizes l = total l.
Proof.
  unfold sum_sizes. intros Hs. enough (∀ acc, 0 ≤ acc → acc + total l < 2 ^ 64 →
    foldl (λ a b, u64 (a + bk_size b)) acc l = acc + total l) as H by (intros; rewrite H; lia).
  induction Hs as [|b l Hb Hl IH]; intros acc Ha Hlt; cbn in *; [lia|].
  pose proof (total_nonneg _ Hl). unfold sized in Hb. rewrite u64_small by int_lia. rewrite IH; lia.
Qed.

(** ** Runs of blocks *)

(** Neighbours of one stream are continuous. *)
Definition chained (l : list StreamDataBlock) : Prop :=
  ∀ i x y, l !! i = Some x → l !! S i = Some y → bk_stream_id x = bk_stream_id y → bk_end_offset x = bk_start_offset y.

Definition one_stream (l : list StreamDataBlock) : Prop :=
  ∀ x y, x ∈ l → y ∈ l → bk_stream_id x = bk_stream_id y.

Lemma chained_nil : chained [].
Proof. intros i x y Hx. by rewrite lookup_nil in Hx. Qed.

Lemma chained_snoc l b :
  chained l → (∀ x, last l = Some x → bk_stream_id x = bk_stream_id b → bk_end_offset x = bk_start_offset b) →
  chained (l ++ [b]).
Proof.
  intros Hc Hl i x y Hx Hy Hs. apply lookup_app_Some in Hy as [Hy|[Hge Hy]].
  - assert (S i < length l)%nat by (by eapply lookup_lt_Some). rewrite lookup_app_l in Hx by lia. by eapply Hc.
  - apply list_lookup_singleton_Some in Hy as [Hi <-]. rewrite lookup_app_l in Hx.
    2:{ destruct (decide (i < length l)%nat); [done|]. exfalso. apply lookup_lt_Some in Hx. rewrite length_app in Hx. cbn in Hx.
        destruct (decide (i = length l)); lia. }
    apply Hl; [|done]. rewrite last_lookup. assert (i = Nat.pred (length l)) as -> by lia. done.
Qed.

Lemma chained_drop n l : chained l → chained (drop n l).
Proof. intros Hc i x y. rewrite !lookup_drop. intros Hx Hy. rewrite <- plus_n_Sm in Hy. by eapply Hc. Qed.

Lemma chained_take n l : chained l → chained (take n l).
Proof.
  intros Hc i x y Hx Hy. apply lookup_take_Some in Hx as [Hx _], Hy as [Hy _]. by eapply Hc.
Qed.

Lemma one_stream_sub l k : (∀ x, x ∈ k → x ∈ l) → one_stream l → one_stream k.
Proof. intros Hs H x y Hx Hy. apply H; auto. Qed.

(** ** The builder's window *)

Record cb_wf (b : CompactedObjectBuilder) : Prop := {
  wf_empty : cb_blocks b = [] → cb_head b = -1 ∧ cb_tail b = -1;
  wf_tail : cb_blocks b ≠ [] → cb_tail b = len (cb_blocks b);
  wf_head : cb_blocks b ≠ [] → 0 ≤ cb_head b < len (cb_blocks b);
  wf_window : one_stream (dropZ (cb_head b) (cb_blocks b));
}.

Lemma cb_wf_new : cb_wf cb_new.
Proof. constructor; cbn; try done. intros x y Hx. by apply not_elem_of_nil in Hx. Qed.

Lemma cb_wf_add b x : cb_wf b → cb_wf (cb_add_block b x).
Proof.
  intros [He Ht Hh Hw]. unfold cb_add_block. constructor; cbn.
  - by intros [_ ?]%app_eq_nil.
  - done.
  - intros _. rewrite length_app. cbn. case_bool_decide as E; [|lia].
    assert (cb_blocks b ≠ []) as Hne by (intros E'; unfold cb_last_stream_id in E; by rewrite E' in E).
    specialize (Hh Hne). lia.
  - case_bool_decide as E.
    + assert (cb_blocks b ≠ []) as Hne by (intros E'; unfold cb_last_stream_id in E; by rewrite E' in E).
      specialize (Hh Hne). unfold dropZ in *. rewrite drop_app_le by lia.
      unfold cb_last_stream_id in E. destruct (last (cb_blocks b)) as [y|] eqn:El; [|done]. injection E as E.
      assert (y ∈ drop (Z.to_nat (cb_head b)) (cb_blocks b)) as Hy.
      { apply list_elem_of_lookup. exists (Nat.pred (length (cb_blocks b)) - Z.to_nat (cb_head b))%nat.
        rewrite lookup_drop. rewrite last_lookup in El. rewrite <- El. f_equal. lia. }
      assert (∀ z, z ∈ drop (Z.to_nat (cb_head b)) (cb_blocks b) ++ [x] → bk_stream_id z = bk_stream_id y) as Hz.
      { intros z [Hz|Hz%list_elem_of_singleton]%elem_of_app; [by apply Hw|by subst z]. }
      intros z z' Hz1 Hz2. by rewrite (Hz z), (Hz z').
    + unfold dropZ. rewrite Nat2Z.id, drop_app_length.
      intros z z' ->%list_elem_of_singleton ->%list_elem_of_singleton. done.
Qed.

Lemma fold_add_wf l b : cb_wf b → cb_wf (foldl cb_add_block b l).
Proof. revert b; induction l as [|x l IH]; intros b Hb; cbn; [done|]. by apply IH, cb_wf_add. Qed.

Lemma fold_add_blocks l b :
  cb_blocks (foldl cb_add_block b l) = cb_blocks b ++ l ∧ cb_type (foldl cb_add_block b l) = cb_type b.
Proof.
  revert b; induction l as [|x l IH]; intros b; cbn; [by rewrite app_nil_r|].
  destruct (IH (cb_add_block b x)) as [-> ->]. cbn. by rewrite <- app_assoc.
Qed.

Lemma window_loop_snoc i c h t l x :
  window_loop i c h t (l ++ [x])
  = (if bool_decide (match last l with Some y => Some (bk_stream_id y) | None => c end = Some (bk_stream_id x))
     then (window_loop i c h t l).1 else i + len l, i + len l + 1).
Proof.
  revert i c h t; induction l as [|y l IH]; intros i c h t; cbn [window_loop app last length].
  { cbn. rewrite !Z.add_0_r. reflexivity. }
  rewrite IH. replace (i + 1 + len l) with (i + Z.of_nat (S (length l))) by lia.
  destruct l as [|z l]; [done|]. change (last (y :: z :: l)) with (last (z :: l)).
  destruct (last (z :: l)) eqn:E; [done|]. by apply last_None in E.
Qed.

(** Recomputing the window is adding the blocks one by one. *)
Lemma reset_is_fold b :
  cb_reset_curr_stream_position b = set_type (cb_type b) (foldl cb_add_block cb_new (cb_blocks b)).
Proof.
  unfold cb_reset_curr_stream_position, set_type. destruct (fold_add_blocks (cb_blocks b) cb_new) as [-> _]. cbn.
  generalize (cb_type b). generalize (cb_blocks b) as l. clear b. intros l t.
  assert (window_loop 0 None (-1) (-1) l
          = (cb_head (foldl cb_add_block cb_new l), cb_tail (foldl cb_add_block cb_new l))) as ->; [|done].
  induction l as [|x l IH] using rev_ind; [done|].
  rewrite window_loop_snoc, IH, foldl_app. cbn. destruct (fold_add_blocks l cb_new) as [El _]. cbn in El.
  unfold cb_last_stream_id. rewrite El, length_app. cbn. f_equal; [|lia].
  destruct (last l) as [y|] eqn:E; cbn.
  - rewrite Z.add_0_l. do 2 case_bool_decide; congruence.
  - apply last_None in E as ->. done.
Qed.

Lemma set_type_wf t b : cb_wf b → cb_wf (set_type t b).
Proof. intros []. by constructor. Qed.

Lemma reset_wf b : cb_wf (cb_reset_curr_stream_position b).
Proof. rewrite reset_is_fold. apply set_type_wf, fold_add_wf, cb_wf_new. Qed.

Lemma reset_fields b :
  cb_blocks (cb_reset_curr_stream_position b) = cb_blocks b ∧ cb_type (cb_reset_curr_stream_position b) = cb_type b.
Proof. unfold cb_reset_curr_stream_position. by destruct (window_loop _ _ _ _ _). Qed.

Lemma cb_split_spec start end_ b :
  cb_wf b → cb_blocks b ≠ [] → 0 ≤ start ≤ end_ → end_ ≤ len (cb_blocks b) →
  ∃ r p, cb_split start end_ b = Some (r, p) ∧ cb_wf r ∧ cb_wf p
    ∧ cb_blocks r = takeZ start (cb_blocks b) ++ dropZ end_ (cb_blocks b)
    ∧ cb_blocks p = slice start end_ (cb_blocks b) ∧ cb_type r = cb_type b ∧ cb_type p = cb_type b.
Proof.
  intros Hw Hne Hs He. unfold cb_split. rewrite (wf_tail _ Hw Hne).
  assert ((start <? 0) || (len (cb_blocks b) <? end_) = false) as -> by lia.
  assert ((end_ <? start) || (len (cb_blocks b) <? end_) = false) as -> by lia.
  eexists _, _. split; [reflexivity|]. rewrite (proj1 (reset_fields _)), (proj2 (reset_fields _)).
  split; [apply reset_wf|]. split; [apply set_type_wf, fold_add_wf, cb_wf_new|]. cbn.
  split; [done|]. split; [|done]. by destruct (fold_add_blocks (slice start end_ (cb_blocks b)) cb_new) as [-> _].
Qed.

(** ** What the builders hold *)

Record builder_ok (b : CompactedObjectBuilder) : Prop := {
  ok_wf : cb_wf b;
  ok_chained : chained (cb_blocks b);
  ok_split : cb_type b = Split → cb_blocks b ≠ [] ∧ one_stream (cb_blocks b);
}.

Definition builders_blocks (l : list CompactedObjectBuilder) : list StreamDataBlock := concat (cb_blocks <$> l).

Lemma builders_blocks_app l k : builders_blocks (l ++ k) = builders_blocks l ++ builders_blocks k.
Proof. unfold builders_blocks. by rewrite fmap_app, concat_app. Qed.

(** No block starts inside the block of its stream right before it. *)
Fixpoint no_overlap (prev : option StreamDataBlock) (l : list StreamDataBlock) : Prop :=
  match l with
  | [] => True
  | b :: rest =>
      (∀ x, prev = Some x → bk_stream_id x = bk_stream_id b → bk_end_offset x ≤ bk_start_offset b)
      ∧ no_overlap (Some b) rest
  end.

Section Builders.
Context (a : CompactionAnalyzer).

Lemma slice_to_end {A} (h : Z) (l : list A) : 0 ≤ h → slice h (len l) l = dropZ h l.
Proof.
  intros Hh. unfold slice, dropZ. apply take_ge. rewrite length_drop. lia.
Qed.

Lemma split_object_spec b :
  cb_wf b → cb_blocks b ≠ [] → cb_type b = Compact → chained (cb_blocks b) →
  Forall sized (cb_blocks b) → total (cb_blocks b) < 2 ^ 64 →
  ∃ pushed, split_object b = Some (pushed, cb_new) ∧ builders_blocks pushed = cb_blocks b ∧ Forall builder_ok pushed.
Proof.
  intros Hw Hne Ht Hc Hs Hlt. pose proof (wf_tail _ Hw Hne) as Htl. pose proof (wf_head _ Hw Hne) as Hhd.
  unfold split_object, cb_split_current_stream.
  destruct (cb_split_spec (cb_head b) (cb_tail b) b Hw Hne) as (r & p & -> & Hr & Hp & Er & Ep & Tr & Tp); [lia..|].
  assert (cb_blocks r = takeZ (cb_head b) (cb_blocks b)) as Er'.
  { rewrite Er, Htl. unfold dropZ. rewrite drop_ge by lia. apply app_nil_r. }
  assert (cb_blocks p = dropZ (cb_head b) (cb_blocks b)) as Ep' by (rewrite Ep, Htl; apply slice_to_end; lia).
  assert (Forall sized (cb_blocks r)) as Hsr by (rewrite Er'; by apply Forall_take).
  assert (total (cb_blocks r) ≤ total (cb_blocks b)) as Hle.
  { rewrite Er'. rewrite takeZ_take. pose proof (total_nonneg (drop (Z.to_nat (cb_head b)) (cb_blocks b)) ltac:(by apply Forall_drop)).
    pose proof (total_app (take (Z.to_nat (cb_head b)) (cb_blocks b)) (drop (Z.to_nat (cb_head b)) (cb_blocks b))) as E.
    rewrite take_drop in E. lia. }
  assert (builder_ok (set_type Split p)) as Hop.
  { constructor; [by apply set_type_wf|cbn; rewrite Ep'; by apply chained_drop|]. intros _. cbn. rewrite Ep'. split.
    - intros E. apply (f_equal length) in E. unfold dropZ in E. rewrite length_drop in E. cbn in E. lia.
    - by apply Hw. }
  assert (builder_ok r) as Hor.
  { constructor; [done|rewrite Er'; by apply chained_take|]. rewrite Tr, Ht. done. }
  eexists. split; [reflexivity|]. rewrite builders_blocks_app. unfold cb_total_block_size.
  rewrite sum_sizes_total by (done || lia).
  destruct (total (cb_blocks r) =? 0) eqn:E; cbn [negb].
  - assert (cb_blocks r = []) as Hnil.
    { destruct (cb_blocks r) eqn:E'; [done|]. pose proof (total_pos _ Hsr ltac:(done)). lia. }
    split; [|by apply Forall_singleton]. cbn. rewrite app_nil_r, Ep'. rewrite Er' in Hnil.
    rewrite <- (take_drop (Z.to_nat (cb_head b)) (cb_blocks b)) at 2. rewrite takeZ_take in Hnil. by rewrite Hnil.
  - split; [|apply Forall_app; split; by apply Forall_singleton]. cbn. rewrite !app_nil_r, Er', Ep', takeZ_take. apply take_drop.
Qed.

Lemma curr_stream_block_size_some b : cb_wf b → ∃ n, cb_curr_stream_block_size b = Some n ∧ (cb_blocks b = [] → n = 0).
Proof.
  intros Hw. unfold cb_curr_stream_block_size. destruct (decide (cb_blocks b = [])) as [E|Hne].
  - destruct (wf_empty _ Hw E) as [-> ->]. cbn. by exists 0.
  - rewrite (wf_tail _ Hw Hne). pose proof (wf_head _ Hw Hne).
    assert ((cb_head b <? 0) || (len (cb_blocks b) <? 0) = false) as -> by lia.
    assert ((len (cb_blocks b) <? cb_head b) || (len (cb_blocks b) <? len (cb_blocks b)) = false) as -> by lia.
    by eexists.
Qed.

(** The open builder of the loop. *)
Definition open_ok (b : CompactedObjectBuilder) (rest : list StreamDataBlock) : Prop :=
  cb_wf b ∧ cb_type b = Compact ∧ chained (cb_blocks b)
  ∧ Forall sized (cb_blocks b ++ rest) ∧ total (cb_blocks b ++ rest) < 2 ^ 64.

Lemma open_ok_add b x rest :
  open_ok b (x :: rest) →
  (∀ y, last (cb_blocks b) = Some y → bk_stream_id y = bk_stream_id x → bk_end_offset y = bk_start_offset x) →
  open_ok (cb_add_block b x) rest.
Proof.
  intros (Hw & Ht & Hc & Hs & Hlt) Hl. unfold open_ok. cbn. split; [by apply cb_wf_add|]. split; [done|].
  split; [by apply chained_snoc|]. by rewrite <- app_assoc.
Qed.

Lemma open_ok_new x b rest : open_ok b (x :: rest) → open_ok (cb_add_block cb_new x) rest.
Proof.
  intros (Hw & Ht & Hc & Hs & Hlt). apply open_ok_add; [|done]. split; [apply cb_wf_new|]. split; [done|].
  split; [apply chained_nil|]. cbn [app cb_blocks cb_new]. apply Forall_app in Hs as [Hs1 Hs]. split; [done|].
  rewrite total_app in Hlt. pose proof (total_nonneg _ Hs1). lia.
Qed.

Lemma open_ok_split b rest :
  open_ok b rest → cb_blocks b ≠ [] →
  ∃ pushed, split_object b = Some (pushed, cb_new) ∧ builders_blocks pushed = cb_blocks b ∧ Forall builder_ok pushed.
Proof.
  intros (Hw & Ht & Hc & [Hs Hs']%Forall_app & Hlt) Hne. apply split_object_spec; try done.
  rewrite total_app in Hlt. pose proof (total_nonneg _ Hs'). lia.
Qed.

Lemma open_ok_builder b rest : open_ok b rest → builder_ok b.
Proof. intros (Hw & Ht & Hc & _). constructor; [done..|]. by rewrite Ht. Qed.

(** Every block lands in exactly one builder, in order. *)
Lemma compact_loop_spec b sorted :
  0 ≤ ca_stream_split_size a → open_ok b sorted →
  ∃ r, compact_loop a b sorted = Some r
    ∧ ∀ l, r = Some l → builders_blocks l = cb_blocks b ++ sorted ∧ Forall builder_ok l.
Proof.
  intros Hsp. revert b; induction sorted as [|x rest IH]; intros b Hok; cbn [compact_loop].
  - pose proof Hok as (Hw & _). destruct (curr_stream_block_size_some b Hw) as (n & -> & Hn).
    destruct (ca_stream_split_size a <? n) eqn:E.
    + destruct (open_ok_split b [] Hok) as (pushed & -> & Hp & Hf); [intros E'; specialize (Hn E'); lia|].
      eexists. split; [reflexivity|]. intros l [= <-]. rewrite app_nil_r. done.
    + eexists. split; [reflexivity|]. intros l [= <-]. rewrite app_nil_r. split; [cbn; by rewrite app_nil_r|]. by eapply Forall_singleton, open_ok_builder.
  - unfold cb_last_stream_id, cb_last_offset. destruct (last (cb_blocks b)) as [y|] eqn:El; cbn [fmap option_fmap option_map].
    2:{ destruct (IH (cb_add_block b x)) as (r & -> & Hr); [apply open_ok_add; [done|]; by rewrite El|].
        exists r. split; [done|]. intros l Hl. destruct (Hr l Hl) as [E Hf]. split; [|done]. rewrite E. cbn. by rewrite <- app_assoc. }
    assert (cb_blocks b ≠ []) as Hne by (intros E; by rewrite E in El).
    assert (∀ pushed r, builders_blocks pushed = cb_blocks b → Forall builder_ok pushed →
      (∀ l, r = Some l → builders_blocks l = x :: rest ∧ Forall builder_ok l) →
      ∀ l, (let* builders := r in Some (pushed ++ builders)) = Some l →
        builders_blocks l = cb_blocks b ++ x :: rest ∧ Forall builder_ok l) as Hjoin.
    { intros pushed r Hp Hf Hr l Hl. destruct r as [k|]; [|done]. injection Hl as <-. destruct (Hr k eq_refl) as [Ek Hk].
      split; [by rewrite builders_blocks_app, Hp, Ek|by apply Forall_app]. }
    destruct (bk_stream_id y =? bk_stream_id x) eqn:Es.
    + destruct (bk_end_offset y <? bk_start_offset x) eqn:Elt.
      * destruct (open_ok_split b _ Hok Hne) as (pushed & -> & Hp & Hf).
        destruct (IH (cb_add_block cb_new x)) as (r & -> & Hr); [by eapply open_ok_new|].
        eexists. split; [reflexivity|]. by apply Hjoin.
      * destruct (bk_start_offset x =? bk_end_offset y) eqn:Eeq; [|by eexists].
        destruct (IH (cb_add_block b x)) as (r & -> & Hr); [apply open_ok_add; [done|]; intros z Hz; rewrite El in Hz; injection Hz as <-; lia|].
        exists r. split; [done|]. intros l Hl. destruct (Hr l Hl) as [E Hf]. split; [|done]. rewrite E. cbn. by rewrite <- app_assoc.
    + unfold split_and_add_block. pose proof Hok as (Hw & _). destruct (curr_stream_block_size_some b Hw) as (n & -> & _).
      destruct (ca_stream_split_size a <? n) eqn:E.
      * destruct (open_ok_split b _ Hok Hne) as (pushed & -> & Hp & Hf).
        destruct (IH (cb_add_block cb_new x)) as (r & -> & Hr); [by eapply open_ok_new|].
        eexists. split; [reflexivity|]. by apply Hjoin.
      * destruct (IH (cb_add_block b x)) as (r & -> & Hr).
        { apply open_ok_add; [done|]. intros z Hz Hs. rewrite El in Hz. injection Hz as <-. lia. }
        eexists. split; [reflexivity|]. intros l Hl. destruct r as [k|]; [|done]. injection Hl as <-.
        destruct (Hr k eq_refl) as [Ek Hf]. split; [|done]. rewrite Ek. cbn. by rewrite <- app_assoc.
Qed.

(** The method gives up on overlapping blocks. *)
Lemma compact_loop_no_overlap b sorted l :
  compact_loop a b sorted = Some (Some l) → no_overlap (last (cb_blocks b)) sorted.
Proof.
  revert b l; induction sorted as [|x rest IH]; intros b l; cbn [compact_loop no_overlap]; [done|].
  assert (∀ b' l', compact_loop a (cb_add_block b' x) rest = Some (Some l') → no_overlap (Some x) rest) as Hadd.
  { intros b' l' H. pose proof (IH _ _ H) as Hn. cbn in Hn. by rewrite last_snoc in Hn. }
  assert (∀ (pushed : list CompactedObjectBuilder) b' r,
    (let* r := compact_loop a (cb_add_block b' x) rest in Some (let* builders := r in Some (pushed ++ builders))) = Some (Some r)
    → no_overlap (Some x) rest) as Hjoin.
  { intros pushed b' r H. destruct (compact_loop a (cb_add_block b' x) rest) as [[k|]|] eqn:E; try done. by eapply Hadd. }
  unfold cb_last_stream_id, cb_last_offset. destruct (last (cb_blocks b)) as [y|] eqn:El; cbn [fmap option_fmap option_map].
  2:{ intros H. split; [done|]. by eapply Hadd. }
  destruct (bk_stream_id y =? bk_stream_id x) eqn:Es.
  - destruct (bk_end_offset y <? bk_start_offset x) eqn:Elt.
    + destruct (split_object b) as [[pushed b']|]; [|done]. intros H. split; [intros z [= <-] _; lia|]. by eapply Hjoin.
    + destruct (bk_start_offset x =? bk_end_offset y) eqn:Eeq; [|done]. intros H.
      split; [intros z [= <-] _; lia|]. by eapply Hadd.
  - unfold split_and_add_block. destruct (cb_curr_stream_block_size b) as [n|]; [|done].
    destruct (ca_stream_split_size a <? n).
    + destruct (split_object b) as [[pushed b']|]; [|done]. intros H. split; [intros z [= <-]; lia|]. by eapply Hjoin.
    + intros H. split; [intros z [= <-]; lia|]. by eapply (Hjoin []).
Qed.

Lemma compact_objects_spec sorted :
  0 ≤ ca_stream_split_size a → Forall sized sorted → total sorted < 2 ^ 64 →
  ∃ r, compact_objects a sorted = Some r
    ∧ ∀ l, r = Some l → builders_blocks l = sorted ∧ Forall builder_ok l ∧ no_overlap None sorted.
Proof.
  intros Hsp Hs Ht. destruct (compact_loop_spec cb_new sorted Hsp) as (r & E & H).
  { split; [apply cb_wf_new|]. split; [done|]. split; [apply chained_nil|done]. }
  exists r. split; [done|]. intros l Hl. destruct (H l Hl). split; [done|]. split; [done|].
  subst r. by apply (compact_loop_no_overlap cb_new _ l).
Qed.
End Builders.

(** ** The sorted blocks *)

Definition blk_le (x y : StreamDataBlock) : Prop :=
  bk_stream_id x < bk_stream_id y ∨ (bk_stream_id x = bk_stream_id y ∧ bk_start_offset x ≤ bk_start_offset y).

Lemma concat_fmap_perm {A} (f : list A → list A) (ls : list (list A)) :
  (∀ l, f l ≡ₚ l) → concat (f <$> ls) ≡ₚ concat ls.
Proof. intros Hf. induction ls as [|l ls IH]; cbn; [done|]. by rewrite Hf, IH. Qed.

Lemma sort_positions_perm m : sort_stream_range_positions m ≡ₚ map_blocks m.
Proof.
  unfold sort_stream_range_positions. rewrite concat_fmap_perm by apply sort_by_perm. apply group_by_perm.
Qed.

Lemma sort_positions_sorted m : StronglySorted blk_le (sort_stream_range_positions m).
Proof.
  unfold sort_stream_range_positions, values. pose proof (keys_sorted (group_by bk_stream_id (map_blocks m))) as Hk.
  assert (∀ p, p ∈ entries (group_by bk_stream_id (map_blocks m)) → ∀ b, b ∈ p.2 → bk_stream_id b = p.1) as Hb.
  { intros [k g] Hg b Hb. apply elem_of_entries, group_by_Some in Hg as [-> _]. by apply list_elem_of_filter in Hb as [? _]. }
  unfold keys in Hk. revert Hk Hb. generalize (entries (group_by bk_stream_id (map_blocks m))) as es.
  induction es as [|[k g] es IH]; intros Hk Hb; cbn; [constructor|].
  rewrite fmap_cons in Hk. apply StronglySorted_cons in Hk as [Hlt Hk].
  apply StronglySorted_app. split_and!.
  - intros x y Hx Hy. left. apply elem_of_sort_by in Hx. rewrite (Hb (k, g) (list_elem_of_here _ _) x Hx). cbn.
    apply list_elem_of_In, in_concat in Hy as (l & Hl & Hy). apply list_elem_of_In in Hl, Hy.
    apply list_elem_of_fmap in Hl as (l' & -> & Hl'). apply list_elem_of_fmap in Hl' as ([k' g'] & -> & Hin).
    apply elem_of_sort_by in Hy. rewrite (Hb (k', g') (list_elem_of_further _ _ _ Hin) y Hy). cbn.
    rewrite Forall_fmap, Forall_forall in Hlt. exact (Hlt _ Hin).
  - pose proof (sort_by_sorted start_le ltac:(unfold start_le; intros; lia) ltac:(unfold start_le; intros; lia) g) as Hs.
    assert (∀ b, b ∈ sort_by start_le g → bk_stream_id b = k) as Hst.
    { intros b Hin%elem_of_sort_by. exact (Hb (k, g) (list_elem_of_here _ _) b Hin). }
    change (foldr (insert_by start_le) [] g) with (sort_by start_le g).
    revert Hs Hst. generalize (sort_by start_le g) as l0. clear. intros l0 Hs Hst. induction Hs as [|x l Hs IH Hx]; constructor; [apply IH; intros; apply Hst; by right|].
    rewrite Forall_forall in Hx |- *. intros y Hy. right. rewrite (Hst x), (Hst y) by (by left || by right).
    split; [done|]. specialize (Hx y Hy). unfold start_le in Hx. lia.
  - apply IH; [done|]. intros p Hp. apply Hb. by right.
Qed.

(** One block before another in the new object: earlier stream, or earlier offsets. *)
Definition before (x y : StreamDataBlock) : Prop :=
  bk_stream_id x < bk_stream_id y ∨ (bk_stream_id x = bk_stream_id y ∧ bk_end_offset x ≤ bk_start_offset y).

Lemma before_sorted_from x l :
  Forall (λ b, bk_start_offset b < bk_end_offset b) (x :: l) → StronglySorted blk_le (x :: l) → no_overlap (Some x) l →
  StronglySorted before (x :: l).
Proof.
  revert x; induction l as [|y l IH]; intros x [Hx Hsp]%Forall_cons [Hle Hs]%StronglySorted_cons Hn; [by repeat constructor|].
  destruct Hn as [Hxy Hn]. specialize (IH y Hsp Hs Hn). constructor; [done|].
  apply Forall_cons in Hle as [Hle _], Hsp as [Hy _].
  assert (before x y) as Hb by (destruct Hle as [?|[E _]]; [by left|right; split; [done|by apply Hxy]]).
  apply StronglySorted_cons in IH as [Hall _]. constructor; [done|]. eapply Forall_impl; [exact Hall|].
  intros z Hz. unfold before in *. lia.
Qed.

Lemma before_sorted l :
  Forall (λ b, bk_start_offset b < bk_end_offset b) l → StronglySorted blk_le l → no_overlap None l →
  StronglySorted before l.
Proof. destruct l as [|x l]; [constructor|]. intros ? ? [_ Hn]. by apply before_sorted_from. Qed.

(** ** Excluding objects *)

Lemma fold_insert_at (k v : StreamDataBlock → Z) blocks m key x :
  x ∈ default ∅ (foldl (λ m b, insert_at m (k b) (v b)) m blocks !! key) ↔
  x ∈ default ∅ (m !! key) ∨ ∃ b, b ∈ blocks ∧ k b = key ∧ v b = x.
Proof.
  revert m; induction blocks as [|b blocks IH]; intros m; cbn.
  { split; [by left|]. intros [?|(b & Hb & _)]; [done|]. by apply not_elem_of_nil in Hb. }
  rewrite IH. setoid_rewrite elem_of_cons. unfold insert_at. destruct (decide (k b = key)) as [<-|Hne].
  - rewrite lookup_insert_eq. cbn. rewrite elem_of_union, elem_of_singleton. naive_solver.
  - rewrite lookup_insert_ne by done. naive_solver.
Qed.

Lemma size_one (X : gset Z) x : x ∈ X → (1 < base.size X)%nat ↔ ∃ y, y ∈ X ∧ y ≠ x.
Proof.
  intros Hx. split.
  - intros Hs. destruct (decide (X ∖ {[x]} = ∅)) as [E|[y Hy]%set_choose_L].
    + assert (base.size X ≤ base.size ({[x]} : gset Z))%nat as Hsub.
      { apply subseteq_size. intros y Hy. destruct (decide (y = x)) as [->|Hne]; [by apply elem_of_singleton|].
        exfalso. apply (not_elem_of_empty (C:=gset Z) y). rewrite <- E. apply elem_of_difference. by rewrite elem_of_singleton. }
      rewrite size_singleton in Hsub. lia.
    + exists y. by apply elem_of_difference in Hy as [? ?%not_elem_of_singleton].
  - intros (y & Hy & Hne). assert (base.size ({[x; y]} : gset Z) ≤ base.size X)%nat as Hsub.
    { apply subseteq_size. intros z [Hz|Hz]%elem_of_union; apply elem_of_singleton in Hz; by subst z. }
    rewrite size_union, !size_singleton in Hsub; [lia|]. intros z ->%elem_of_singleton ?%elem_of_singleton. done.
Qed.

(** The object shares a stream with another one. *)
Definition shares (m : BlockMap) (id : Z) : Prop :=
  ∃ b c, b ∈ map_blocks m ∧ c ∈ map_blocks m ∧ bk_object_id b = id ∧ bk_object_id c ≠ id
    ∧ bk_stream_id b = bk_stream_id c.

(** Exactly the objects that share a stream are kept, whole. *)
Lemma filter_blocks_spec m id l : filter_blocks_to_compact m !! id = Some l ↔ m !! id = Some l ∧ shares m id.
Proof.
  unfold filter_blocks_to_compact. cbv zeta. rewrite map_lookup_filter_Some. f_equiv. cbn [fst].
  set (ids := foldl _ ∅ (map_blocks m)).
  assert (∀ st x, x ∈ default ∅ (ids !! st) ↔ ∃ b, b ∈ map_blocks m ∧ bk_stream_id b = st ∧ bk_object_id b = x) as Hids.
  { intros st x. subst ids. rewrite fold_insert_at, lookup_empty. cbn. set_solver. }
  rewrite elem_of_union_list. split.
  - intros (X & [Hsz HX]%list_elem_of_filter & Hid). apply list_elem_of_fmap in HX as ([st X'] & -> & HX%elem_of_map_to_list).
    cbn in *. apply (size_one X' id Hid) in Hsz as (y & Hy & Hne). pose proof (Hids st id) as H1. pose proof (Hids st y) as H2.
    rewrite HX in H1, H2. cbn in H1, H2. apply H1 in Hid as (b & ? & ? & ?). apply H2 in Hy as (c & ? & ? & <-).
    exists b, c. split_and!; congruence.
  - intros (b & c & Hb & Hc & Eb & Ec & Es).
    assert (id ∈ default ∅ (ids !! bk_stream_id b)) as H1 by (apply Hids; eauto).
    assert (bk_object_id c ∈ default ∅ (ids !! bk_stream_id b)) as H2 by (apply Hids; eauto).
    destruct (ids !! bk_stream_id b) as [X|] eqn:EX; [|by apply not_elem_of_empty in H1]. cbn in H1, H2.
    exists X. split; [|done]. apply list_elem_of_filter. split; [apply (size_one X id H1); eauto|].
    apply list_elem_of_fmap. exists (bk_stream_id b, X). split; [done|]. by apply elem_of_map_to_list.
Qed.

Lemma filter_blocks_sub m : filter_blocks_to_compact m ⊆ m.
Proof. apply map_subseteq_spec. intros id l Hl. by apply filter_blocks_spec in Hl as [? _]. Qed.

Lemma concat_submseteq {A} (l k : list (list A)) : l ⊆+ k → concat l ⊆+ concat k.
Proof.
  induction 1 as [|x l k _ IH|x y l|x l k _ IH|l k j _ IH1 _ IH2]; cbn; [done|..].
  - by apply submseteq_app.
  - rewrite !app_assoc. apply Permutation_submseteq, Permutation_app_tail, Permutation_app_comm.
  - by apply submseteq_inserts_l.
  - by etrans.
Qed.

Lemma map_blocks_sub m m' : m' ⊆ m → map_blocks m' ⊆+ map_blocks m.
Proof. intros Hs. apply concat_submseteq, fmap_submseteq. by apply map_to_list_submseteq. Qed.

Lemma candidates_sub t builders b :
  b ∈ builders_blocks (filter (λ b, cb_type b = t) builders) → b ∈ builders_blocks builders.
Proof.
  unfold builders_blocks. intros (l & Hl & Hb)%list_elem_of_In%in_concat. apply list_elem_of_In, in_concat.
  exists l. split; [|done]. apply list_elem_of_In. apply list_elem_of_In in Hl.
  apply list_elem_of_fmap in Hl as (c & -> & Hc). apply list_elem_of_filter in Hc as [_ Hc]. by apply list_elem_of_fmap_2.
Qed.

(** An object is only excluded when it has a block in the builders. *)
Lemma objects_to_remove_sub t builders stats x :
  x ∈ add_objects_to_remove t builders stats → ∃ b, b ∈ builders_blocks builders ∧ bk_object_id b = x.
Proof.
  unfold add_objects_to_remove. pose proof (candidates_sub t builders) as Hsub.
  destruct (filter _ builders) as [|c cs] eqn:Ec; [by intros ?%not_elem_of_empty|]. rewrite <- Ec in *.
  destruct t.
  - destruct (sort_by _ _) as [|b l] eqn:Es; [by intros ?%not_elem_of_empty|].
    unfold cb_unique_object_ids. intros (y & -> & Hy)%elem_of_list_to_set%list_elem_of_fmap.
    assert (b ∈ filter (λ b, cb_type b = Split) builders) as Hb by (eapply elem_of_sort_by; rewrite Es; left).
    exists y. split; [|done]. apply Hsub. unfold builders_blocks. apply list_elem_of_In, in_concat.
    exists (cb_blocks b). split; apply list_elem_of_In; [by apply list_elem_of_fmap_2|done].
  - destruct (iter_min _ _) as [[d st]|]; [|by intros ?%not_elem_of_empty].
    intros [Hin|(b & Hb & _ & <-)]%fold_insert_at; [by rewrite lookup_empty in Hin; apply not_elem_of_empty in Hin|].
    exists b. split; [by apply Hsub|done].
Qed.

Section Limits.
Context (a : CompactionAnalyzer).
Hypothesis split_nonneg : 0 ≤ ca_stream_split_size a.

Lemma total_sublist l k : sublist l k → Forall sized k → total l ≤ total k.
Proof.
  induction 1 as [|x l k _ IH|x l k _ IH]; cbn; [done|..]; intros [Hx Hk]%Forall_cons; specialize (IH Hk); unfold sized in Hx; lia.
Qed.

Lemma filter_strict {A} (P : A → Prop) `{∀ x, Decision (P x)} (l : list A) x :
  x ∈ l → ¬ P x → (length (filter P l) < length l)%nat.
Proof.
  induction l as [|y l IH]; [by intros ?%not_elem_of_nil|]. intros [->|Hx]%elem_of_cons Hn; rewrite filter_cons.
  - rewrite decide_False by done. cbn. pose proof (length_filter P l). lia.
  - specialize (IH Hx Hn). case_decide; cbn; lia.
Qed.

(** The loop ends, and keeps whole objects. *)
Lemma group_limits_loop_spec fuel stats builders sorted m excluded :
  Forall sized sorted → total sorted < 2 ^ 64 →
  (is_Some stats → builders_blocks builders = sorted) →
  (S (length sorted) + (if decide (is_Some stats) then 0 else 1) ≤ fuel)%nat →
  ∃ r removed, group_limits_loop a fuel stats builders sorted m excluded = Some (r, excluded ∪ removed)
    ∧ ∀ l, r = Some l →
        builders_blocks l = filter (λ b, bk_object_id b ∉ removed) sorted ∧ Forall builder_ok l
        ∧ no_overlap None (builders_blocks l).
Proof.
  revert stats builders sorted m excluded; induction fuel as [|fuel IH]; intros stats builders sorted m excluded Hs Ht Hb Hf; [lia|].
  cbn [group_limits_loop].
  set (rem := match stats with None => ∅ | Some st => if ca_max_stream_object_num a <? st_stream_object_num st
    then add_objects_to_remove Split builders st else add_objects_to_remove Compact builders st end : gset Z).
  assert (∀ x, x ∈ rem → ∃ b, b ∈ sorted ∧ bk_object_id b = x) as Hrem.
  { intros x Hx. subst rem. destruct stats as [st|]; [|by apply not_elem_of_empty in Hx].
    rewrite <- (Hb ltac:(by eexists)). by destruct (_ <? _); apply objects_to_remove_sub in Hx. }
  case_bool_decide as Hend; [exists None, ∅; split; [by rewrite (right_id_L ∅ (∪))|done]|].
  set (sorted' := filter (λ b, bk_object_id b ∉ rem) sorted).
  assert (sublist sorted' sorted) as Hsub by apply filter_sublist.
  assert (Forall sized sorted') as Hs'.
  { rewrite Forall_forall in Hs |- *. intros b [_ Hb']%list_elem_of_filter. by apply Hs. }
  assert (total sorted' < 2 ^ 64) as Ht' by (pose proof (total_sublist _ _ Hsub Hs); lia).
  case_bool_decide; [by exists None, rem|].
  destruct (compact_objects_spec a sorted' split_nonneg Hs' Ht') as (r & -> & Hr).
  destruct r as [l|]; [|by exists None, rem]. destruct (Hr l eq_refl) as (El & Hl & Hov).
  destruct (_ || _).
  - destruct (IH (Some (stats_of l)) l sorted' (filter_blocks_to_compact (filter (λ p, p.1 ∉ rem) m)) (excluded ∪ rem))
      as (r' & removed & -> & Hr'); [done..| |].
    + rewrite decide_True by (by eexists). case_decide as Hst.
      * assert (rem ≠ ∅) as [x Hx]%set_choose_L by (intros E; by apply Hend).
        destruct (Hrem x Hx) as (b & Hb' & <-).
        assert (length sorted' < length sorted)%nat by (eapply filter_strict; [done|]; by intros Hn).
        lia.
      * pose proof (sublist_length _ _ Hsub). lia.
    + exists r', (rem ∪ removed). rewrite (assoc_L (∪)). split; [done|].
      intros k Hk. destruct (Hr' k Hk) as (Ek & Hk' & Hov'). split; [|done]. rewrite Ek. unfold sorted'.
      rewrite list_filter_filter. apply list_filter_iff. set_solver.
  - exists (Some l), rem. split; [done|]. intros k [= <-]. by rewrite El.
Qed.

Lemma group_object_with_limits_spec m excluded :
  Forall sized (map_blocks m) → total (map_blocks m) < 2 ^ 64 →
  ∃ r removed, group_object_with_limits a m excluded = Some (r, excluded ∪ removed)
    ∧ ∀ l, r = Some l →
        builders_blocks l = filter (λ b, bk_object_id b ∉ removed) (sort_stream_range_positions m)
        ∧ Forall builder_ok l ∧ no_overlap None (builders_blocks l).
Proof.
  intros Hs Ht. apply group_limits_loop_spec.
  - by rewrite sort_positions_perm.
  - by rewrite (total_perm _ _ (sort_positions_perm m)).
  - by intros [? ?].
  - rewrite decide_False by (by intros [? ?]). lia.
Qed.
End Limits.

(** ** The stages *)

Definition plan_blocks (p : CompactionPlan) : list StreamDataBlock :=
  concat (co_blocks <$> cp_compacted_objects p).

(** The blocks a plan sends to the new stream set object. *)
Definition set_blocks (p : CompactionPlan) : list StreamDataBlock :=
  concat (co_blocks <$> filter (λ o, co_type o = Compact) (cp_compacted_objects p)).

(** A split object is a continuous run of one stream. *)
Definition run_ok (o : CompactedObject) : Prop :=
  co_type o = Split → co_blocks o ≠ [] ∧ one_stream (co_blocks o) ∧ chained (co_blocks o).

(** A stage fits the cache, its split objects are runs, and its read list has each
    source object's blocks in position order. *)
Record stage_ok (cache : Z) (p : CompactionPlan) : Prop := {
  sg_fits : total (plan_blocks p) ≤ cache;
  sg_runs : Forall run_ok (cp_compacted_objects p);
  sg_reads id l : cp_blocks_map p !! id = Some l →
    l ≠ [] ∧ l ≡ₚ filter (λ b, bk_object_id b = id) (plan_blocks p)
    ∧ StronglySorted (λ x y, bk_start_position x ≤ bk_start_position y) l;
  sg_reads_all b : b ∈ plan_blocks p → is_Some (cp_blocks_map p !! bk_object_id b);
}.

Definition ssb_blocks (ssb : option CompactedObjectBuilder) : list StreamDataBlock :=
  match ssb with Some b => cb_blocks b | None => [] end.

(** The open stage: objects so far, all split; the stream set builder, compact. *)
Definition open_stage (objs : list CompactedObject) (ssb : option CompactedObjectBuilder) : Prop :=
  Forall (λ o, co_type o = Split ∧ run_ok o) objs ∧ (∀ b, ssb = Some b → cb_type b = Compact).

Definition stage_blocks (objs : list CompactedObject) (ssb : option CompactedObjectBuilder) : list StreamDataBlock :=
  concat (co_blocks <$> objs) ++ ssb_blocks ssb.

Definition compact_of (b : CompactedObjectBuilder) : list StreamDataBlock :=
  if bool_decide (cb_type b = Split) then [] else cb_blocks b.

Lemma add_or_merge_spec b objs ssb :
  builder_ok b → open_stage objs ssb →
  let '(objs', ssb') := add_or_merge b objs ssb in
  open_stage objs' ssb' ∧ stage_blocks objs' ssb' ≡ₚ stage_blocks objs ssb ++ cb_blocks b
  ∧ ssb_blocks ssb' = ssb_blocks ssb ++ compact_of b.
Proof.
  intros [Hw Hc Hs] [Ho Hb]. unfold add_or_merge, stage_blocks, compact_of. case_bool_decide as E.
  - split; [|split].
    + split; [|done]. apply Forall_app. split; [done|]. apply Forall_singleton. split; [done|]. intros _. cbn.
      destruct (Hs E). done.
    + rewrite fmap_app, concat_app. cbn. rewrite app_nil_r, <- !app_assoc. f_equiv. apply Permutation_app_comm.
    + by rewrite app_nil_r.
  - set (t := default cb_new ssb). assert (cb_type t = Compact ∧ cb_blocks t = ssb_blocks ssb) as [Ht Et].
    { subst t. destruct ssb as [b'|]; cbn; [split; [by apply Hb|done]|done]. }
    unfold cb_merge. rewrite bool_decide_false by done. destruct (reset_fields (mkBuilder (cb_type t) (cb_blocks t ++ cb_blocks b) (cb_head t) (cb_tail t))) as [Eb Ety].
    cbn [cb_blocks cb_type] in Eb, Ety. split; [|split].
    + split; [done|]. intros b' [= <-]. by rewrite Ety.
    + cbn [ssb_blocks]. by rewrite Eb, Et, app_assoc.
    + cbn [ssb_blocks]. by rewrite Eb, Et.
Qed.

Lemma open_stage_new : open_stage [] None.
Proof. split; [constructor|done]. Qed.

Lemma compact_filter_nil objs :
  Forall (λ o, co_type o = Split ∧ run_ok o) objs → filter (λ o, co_type o = Compact) objs = [].
Proof. induction 1 as [|o l [Ho _] _ IH]; [done|]. rewrite filter_cons, decide_False; [done|by rewrite Ho]. Qed.

Lemma generate_plan_spec cache order objs ssb :
  open_stage objs ssb → total (stage_blocks objs ssb) ≤ cache →
  let p := generate_plan order objs ssb in
  stage_ok cache p ∧ plan_blocks p = stage_blocks objs ssb ∧ set_blocks p = ssb_blocks ssb.
Proof.
  intros [Ho Hb] Ht p.
  assert (plan_blocks p = stage_blocks objs ssb) as Ep.
  { subst p. unfold plan_blocks, stage_blocks, generate_plan. cbn. destruct ssb as [b|]; cbn; [|by rewrite app_nil_r].
    rewrite fmap_app, concat_app. cbn. by rewrite app_nil_r. }
  assert (set_blocks p = ssb_blocks ssb) as Es.
  { subst p. unfold set_blocks, generate_plan. cbn. destruct ssb as [b|]; cbn.
    - rewrite filter_app, compact_filter_nil by done. cbn. rewrite decide_True by (by apply Hb). cbn. by rewrite app_nil_r.
    - by rewrite compact_filter_nil. }
  split; [|done]. constructor.
  - by rewrite Ep.
  - subst p. cbn. assert (Forall run_ok objs) as Hf by (eapply Forall_impl; [done|]; by intros o [_ ?]).
    destruct ssb as [b|]; [|done]. apply Forall_app. split; [done|]. apply Forall_singleton.
    intros E. cbn in E. by rewrite (Hb b eq_refl) in E.
  - intros id l Hl. change (cp_blocks_map p) with (sort_by position_le <$> group_by bk_object_id (plan_blocks p)) in Hl.
    apply lookup_fmap_Some in Hl as (g & <- & Hg). apply group_by_Some in Hg as [-> Hne]. split; [|split; [apply sort_by_perm|]].
    { intros E. apply Hne, Permutation_nil_r. by rewrite <- E, sort_by_perm. }
    assert (∀ x y : StreamDataBlock, bk_start_position x ≤ bk_start_position y ↔ position_le x y = true) as E by (unfold position_le; intros; lia).
    assert (∀ (R R' : relation StreamDataBlock) l, (∀ x y, R x y → R' x y) → StronglySorted R l → StronglySorted R' l) as Himp.
    { clear. intros R R' l HR. induction 1 as [|x l Hs IH Hx]; constructor; [done|]. eapply Forall_impl; [done|]. auto. }
    eapply Himp; [intros x y; apply E|]. apply sort_by_sorted; unfold position_le; intros; lia.
  - intros b Hin. change (cp_blocks_map p) with (sort_by position_le <$> group_by bk_object_id (plan_blocks p)).
    rewrite lookup_fmap, fmap_is_Some. exists (filter (λ x, bk_object_id x = bk_object_id b) (plan_blocks p)).
    apply group_by_Some. split; [done|]. intros E. assert (b ∈ filter (λ x, bk_object_id x = bk_object_id b) (plan_blocks p)) as Hb' by (by apply list_elem_of_filter).
    rewrite E in Hb'. by apply not_elem_of_nil in Hb'.
Qed.

Section Staging.
Context (a : CompactionAnalyzer).
Let cache := ca_compaction_cache_size a.

Lemma cut_point_spec i t blocks :
  Forall sized blocks → 0 ≤ t ≤ cache → t + total blocks < 2 ^ 64 → cache < t + total blocks →
  ∃ j, cut_point a i t blocks = i + Z.of_nat j ∧ (j < length blocks)%nat
    ∧ t + total (take j blocks) ≤ cache ∧ cache < t + total (take (S j) blocks).
Proof.
  intros Hs. revert i t; induction Hs as [|b l Hb Hl IH]; intros i t Ht Hlt Hc; cbn [total cut_point] in *; [lia|].
  unfold sized in Hb. pose proof (total_nonneg _ Hl). rewrite u64_small by int_lia. fold cache.
  destruct (cache <? t + bk_size b) eqn:E.
  - exists 0%nat. split; [lia|]. split; [cbn; lia|]. cbn. rewrite take_0. cbn. lia.
  - destruct (IH (i + 1) (t + bk_size b)) as (j & -> & Hj & H1 & H2); [lia..|].
    exists (S j). split; [lia|]. split; [cbn; lia|]. change (take (S (S j)) (b :: l)) with (b :: take (S j) l). change (take (S j) (b :: l)) with (b :: take j l).
    cbn [total]. lia.
Qed.

(** Cutting a builder at [j]. *)
Lemma builder_cut b (j : nat) :
  builder_ok b → (0 < j < length (cb_blocks b))%nat →
  ∃ r p, cb_split 0 (Z.of_nat j) b = Some (r, p) ∧ builder_ok r ∧ builder_ok p
    ∧ cb_blocks p = take j (cb_blocks b) ∧ cb_blocks r = drop j (cb_blocks b)
    ∧ cb_type r = cb_type b ∧ cb_type p = cb_type b.
Proof.
  intros [Hw Hc Hs] Hj. destruct (cb_split_spec 0 (Z.of_nat j) b Hw) as (r & p & -> & Hr & Hp & Er & Ep & Tr & Tp);
    [by intros E; rewrite E in Hj; cbn in Hj; lia|lia|lia|].
  assert (cb_blocks p = take j (cb_blocks b)) as Ep'. { rewrite Ep. unfold slice. rewrite drop_0. f_equal. lia. }
  assert (cb_blocks r = drop j (cb_blocks b)) as Er'. { rewrite Er. rewrite ?takeZ_take; unfold dropZ. rewrite Nat2Z.id. done. }
  assert (∀ k, (∀ x, x ∈ k → x ∈ cb_blocks b) → k ≠ [] → cb_type b = Split → k ≠ [] ∧ one_stream k) as Hsub.
  { intros k Hk Hne E. split; [done|]. destruct (Hs E) as [_ H]. by eapply one_stream_sub. }
  exists r, p. split; [done|]. split; [|split; [|done]].
  - constructor; [done|rewrite Er'; by apply chained_drop|]. rewrite Tr, Er'. apply Hsub.
    + intros x Hx. rewrite <- (take_drop j (cb_blocks b)). apply elem_of_app. by right.
    + intros E. apply (f_equal length) in E. rewrite length_drop in E. cbn in E. lia.
  - constructor; [done|rewrite Ep'; by apply chained_take|]. rewrite Tp, Ep'. apply Hsub.
    + intros x Hx. rewrite <- (take_drop j (cb_blocks b)). apply elem_of_app. by left.
    + intros E. apply (f_equal length) in E. rewrite length_take in E. cbn in E. lia.
Qed.

Definition plan_measure (builders : list CompactedObjectBuilder) (t : Z) : nat :=
  (2 * length (builders_blocks builders) + 2 * length builders + (if decide (0 < t)%Z then 1 else 0))%nat.

(** The loop ends within its fuel, its stages hold the blocks exactly once, the stream
    set's part in order. *)
Lemma generate_plan_loop_spec fuel builders objs ssb t order :
  Forall builder_ok builders → open_stage objs ssb →
  Forall sized (stage_blocks objs ssb ++ builders_blocks builders) →
  Forall (λ b, bk_size b ≤ cache) (builders_blocks builders) →
  total (stage_blocks objs ssb ++ builders_blocks builders) < 2 ^ 64 →
  t = total (stage_blocks objs ssb) → t ≤ cache → (plan_measure builders t < fuel)%nat →
  ∃ plans, generate_plan_loop a fuel builders objs ssb t order = Some plans
    ∧ concat (plan_blocks <$> plans) ≡ₚ stage_blocks objs ssb ++ builders_blocks builders
    ∧ concat (set_blocks <$> plans) = ssb_blocks ssb ++ concat (compact_of <$> builders)
    ∧ Forall (stage_ok cache) plans.
Proof.
  revert builders objs ssb t order; induction fuel as [|fuel IH]; intros builders objs ssb t order Hok Hst Hsz Hle Hlt -> Ht Hf; [lia|].
  cbn [generate_plan_loop]. destruct builders as [|b rest].
  { eexists. split; [reflexivity|]. cbn [builders_blocks fmap list_fmap concat]. rewrite !app_nil_r.
    destruct (generate_plan_spec cache order objs ssb Hst Ht) as (Hp & Eb & Es). case_bool_decide as E.
    - cbn [fmap list_fmap concat]. rewrite !app_nil_r. split; [by rewrite Eb|]. split; [done|by apply Forall_singleton].
    - assert (objs = []) as -> by (destruct objs; [done|]; exfalso; apply E; by left).
      destruct ssb as [s|]; [exfalso; apply E; right; by eexists|]. done. }
  apply Forall_cons in Hok as [Hb Hok]. change (builders_blocks (b :: rest)) with (cb_blocks b ++ builders_blocks rest) in *.
  apply Forall_app in Hsz as [Hsz1 Hsz2]. pose proof Hsz2 as [Hszb Hszr]%Forall_app. apply Forall_app in Hle as [Hleb Hler].
  rewrite !total_app in Hlt. pose proof (total_nonneg _ Hsz1). pose proof (total_nonneg _ Hszb). pose proof (total_nonneg _ Hszr).
  unfold cb_total_block_size. rewrite sum_sizes_total by (done || lia). rewrite u64_small by int_lia. fold cache.
  destruct (cache <? total (stage_blocks objs ssb) + total (cb_blocks b)) eqn:Ec.
  - destruct (cut_point_spec 0 (total (stage_blocks objs ssb)) (cb_blocks b)) as (j & -> & Hj & Hj1 & Hj2); [done|lia|lia|lia|].
    rewrite Z.add_0_l.
    assert (∃ b' objs' ssb', (if negb (Z.of_nat j =? 0) then
        let* (b0, prefix) := cb_split 0 (Z.of_nat j) b in
        let '(o, s) := add_or_merge prefix objs ssb in Some (b0, o, s) else Some (b, objs, ssb)) = Some (b', objs', ssb')
      ∧ open_stage objs' ssb' ∧ stage_blocks objs' ssb' ≡ₚ stage_blocks objs ssb ++ take j (cb_blocks b)
      ∧ ssb_blocks ssb' ++ compact_of b' = ssb_blocks ssb ++ compact_of b
      ∧ builder_ok b' ∧ cb_blocks b' = drop j (cb_blocks b)) as (b' & objs' & ssb' & -> & Hst' & Eb & Es & Hb' & Ebb).
    { destruct (decide (j = 0%nat)) as [->|Hj0].
      - cbn. exists b, objs, ssb. rewrite take_0, app_nil_r. done.
      - rewrite (proj2 (Z.eqb_neq _ _)) by lia. cbn [negb].
        destruct (builder_cut b j Hb) as (r & p & -> & Hr & Hp & Ep & Er & Tr & Tp); [lia|].
        pose proof (add_or_merge_spec p objs ssb Hp Hst) as Ha. destruct (add_or_merge p objs ssb) as [o s]. destruct Ha as (? & Ha & Ha').
        exists r, o, s. rewrite <- Ep. split; [done|]. split; [done|]. split; [done|]. split; [|done].
        rewrite Ha', <- app_assoc. f_equal. unfold compact_of. rewrite Tr, Tp.
        case_bool_decide; [done|]. rewrite Ep, Er. apply take_drop. }
    assert (total (take j (cb_blocks b)) + total (drop j (cb_blocks b)) = total (cb_blocks b)) as Etd by (by rewrite <- total_app, take_drop).
    assert (Forall sized (drop j (cb_blocks b))) as Hszd by (by apply Forall_drop). pose proof (total_nonneg _ Hszd).
    pose proof (total_nonneg (take j (cb_blocks b)) ltac:(by apply Forall_take)).
    destruct (IH (b' :: rest) [] None 0 (u32 (order + 1))) as (plans & -> & P1 & P2 & P3).
    + by constructor.
    + apply open_stage_new.
    + cbn. unfold builders_blocks in *. cbn. rewrite Ebb. by apply Forall_app.
    + unfold builders_blocks in *. cbn. rewrite Ebb. apply Forall_app. split; [by apply Forall_drop|done].
    + change (stage_blocks [] None) with ([] : list StreamDataBlock). cbn [app]. change (builders_blocks (b' :: rest)) with (cb_blocks b' ++ builders_blocks rest).
      rewrite total_app, Ebb. lia.
    + done.
    + lia.
    + unfold plan_measure in *. change (builders_blocks (b' :: rest)) with (cb_blocks b' ++ builders_blocks rest).
      change (builders_blocks (b :: rest)) with (cb_blocks b ++ builders_blocks rest) in Hf.
      rewrite Ebb. rewrite !length_app in *. rewrite length_drop. cbn [length] in *. rewrite decide_False by lia.
      destruct (decide (j = 0%nat)) as [->|Hj0]; [|case_decide; lia]. rewrite decide_True in Hf; [lia|].
      destruct (cb_blocks b) as [|x l]; [cbn in Hj; lia|]. cbn [take total] in Hj2. rewrite take_0 in Hj2. cbn in Hj2.
      apply Forall_cons in Hleb as [? _]. lia.
    + assert (total (stage_blocks objs' ssb') ≤ cache) as Hfit by (rewrite (total_perm _ _ Eb), total_app; lia).
      destruct (generate_plan_spec cache order objs' ssb' Hst' Hfit) as (Hp & Epb & Esb).
      eexists. split; [reflexivity|]. cbn [fmap list_fmap concat]. rewrite P1, Epb, Eb, P2, Esb.
      change (stage_blocks [] None) with ([] : list StreamDataBlock). change (builders_blocks (b' :: rest)) with (cb_blocks b' ++ builders_blocks rest).
      cbn [app ssb_blocks fmap list_fmap concat]. split; [|split; [|by constructor]].
      * rewrite Ebb, <- !app_assoc. f_equiv. rewrite !app_assoc. by rewrite take_drop.
      * by rewrite !app_assoc, Es.
  - pose proof (add_or_merge_spec b objs ssb Hb Hst) as Ha. destruct (add_or_merge b objs ssb) as [o s]. destruct Ha as (Hst' & Eb & Es).
    destruct (IH rest o s (total (stage_blocks objs ssb) + total (cb_blocks b)) order) as (plans & -> & P1 & P2 & P3); try done.
    + rewrite Eb, <- app_assoc. apply Forall_app. done.
    + rewrite !total_app, (total_perm _ _ Eb), total_app. lia.
    + by rewrite (total_perm _ _ Eb), total_app.
    + lia.
    + unfold plan_measure in *. change (builders_blocks (b :: rest)) with (cb_blocks b ++ builders_blocks rest) in Hf.
      rewrite length_app in Hf. cbn [length] in Hf. do 2 case_decide; lia.
    + exists plans. split; [done|]. rewrite P1, P2, Eb, Es, <- !app_assoc. done.
Qed.

Lemma generate_plan_with_cache_limit_spec builders :
  Forall builder_ok builders → Forall sized (builders_blocks builders) →
  Forall (λ b, bk_size b ≤ cache) (builders_blocks builders) → 0 ≤ cache → total (builders_blocks builders) < 2 ^ 64 →
  ∃ plans, generate_plan_with_cache_limit a builders = Some plans
    ∧ concat (plan_blocks <$> plans) ≡ₚ builders_blocks builders
    ∧ concat (set_blocks <$> plans) = concat (compact_of <$> builders)
    ∧ Forall (stage_ok cache) plans.
Proof.
  intros Hok Hs Hle Hc Ht. apply (generate_plan_loop_spec _ builders [] None 0); try done.
  unfold plan_measure, plan_fuel, builders_blocks. rewrite decide_False by lia. lia.
Qed.
End Staging.

(** ** Properties *)

Lemma total_submseteq l k : l ⊆+ k → Forall sized k → total l ≤ total k.
Proof.
  intros (j & E)%submseteq_Permutation Hs. rewrite E in Hs. rewrite (total_perm _ _ E), total_app.
  apply Forall_app in Hs as [_ Hj]. pose proof (total_nonneg _ Hj). lia.
Qed.

Lemma compact_of_sublist l : sublist (concat (compact_of <$> l)) (builders_blocks l).
Proof.
  unfold builders_blocks. induction l as [|b l IH]; cbn; [done|]. apply sublist_app; [|done].
  unfold compact_of. case_bool_decide; [apply sublist_nil_l|done].
Qed.

(** The blocks of the objects of the map. *)
Lemma map_blocks_elem m b : b ∈ map_blocks m ↔ ∃ id l, m !! id = Some l ∧ b ∈ l.
Proof.
  unfold map_blocks. rewrite list_elem_of_In, in_concat. split.
  - intros (l & Hl%list_elem_of_In & Hb%list_elem_of_In). apply list_elem_of_fmap in Hl as ([id l'] & -> & Hl%elem_of_map_to_list). eauto.
  - intros (id & l & Hl & Hb). exists l. rewrite <- !list_elem_of_In. split; [|done]. apply list_elem_of_fmap.
    exists (id, l). split; [done|]. by apply elem_of_map_to_list.
Qed.

Section Analyze.
Context (a : CompactionAnalyzer).

(** What the caller has checked of the blocks, see [compact_once]. *)
Record input_ok (m : BlockMap) : Prop := {
  in_sized : Forall sized (map_blocks m);
  in_cache : Forall (λ b, bk_size b ≤ ca_compaction_cache_size a) (map_blocks m);
  in_total : total (map_blocks m) < 2 ^ 64;
  in_span : Forall (λ b, bk_start_offset b < bk_end_offset b) (map_blocks m);
}.

Lemma analyze_spec m excluded :
  0 ≤ ca_stream_split_size a → 0 ≤ ca_compaction_cache_size a → input_ok m →
  ∃ plans removed, analyze a m excluded = Some (plans, excluded ∪ removed)
    ∧ (plans = []
       ∨ concat (plan_blocks <$> plans)
           ≡ₚ filter (λ b, bk_object_id b ∉ removed) (map_blocks (filter_blocks_to_compact m))
         ∧ StronglySorted before (concat (set_blocks <$> plans))
         ∧ Forall (stage_ok (ca_compaction_cache_size a)) plans).
Proof.
  intros Hsp Hc [Hs Hle Ht Hspan]. unfold analyze.
  case_bool_decide; [exists [], ∅; rewrite (right_id_L ∅ (∪)); by auto|].
  case_bool_decide; [exists [], ∅; rewrite (right_id_L ∅ (∪)); by auto|].
  set (m' := filter_blocks_to_compact m) in *. pose proof (map_blocks_sub m m' (filter_blocks_sub m)) as Hsub.
  assert (∀ P : StreamDataBlock → Prop, Forall P (map_blocks m) → Forall P (map_blocks m')) as Hall.
  { intros P HP. apply submseteq_Permutation in Hsub as (k & E). rewrite E in HP. by apply Forall_app in HP as [? _]. }
  pose proof (total_submseteq _ _ Hsub Hs).
  destruct (group_object_with_limits_spec a Hsp m' excluded) as (r & removed & -> & Hr); [by apply Hall|lia|].
  destruct r as [l|]; [|exists [], removed; by auto]. destruct (Hr l eq_refl) as (El & Hl & Hov). clear Hr.
  assert (builders_blocks l ≡ₚ filter (λ b, bk_object_id b ∉ removed) (map_blocks m')) as Ep by (by rewrite El, sort_positions_perm).
  assert (∀ P : StreamDataBlock → Prop, Forall P (map_blocks m) → Forall P (builders_blocks l)) as Hall'.
  { intros P HP. rewrite Ep. rewrite Forall_forall. intros b [_ Hb]%list_elem_of_filter. by eapply Forall_forall in HP; [|by eapply elem_of_submseteq]. }
  assert (total (builders_blocks l) < 2 ^ 64).
  { rewrite (total_perm _ _ Ep). pose proof (total_sublist _ _ (filter_sublist (λ b, bk_object_id b ∉ removed) (map_blocks m')) (Hall _ Hs)). lia. }
  destruct (generate_plan_with_cache_limit_spec a l) as (plans & -> & P1 & P2 & P3); [done|by apply Hall'|by apply Hall'|done|done|].
  exists plans, removed. split; [done|]. right. split; [by rewrite P1|]. split; [|done]. rewrite P2.
  eapply StronglySorted_sublist; [apply compact_of_sublist|]. apply before_sorted; [by apply Hall'| |done]. rewrite El.
  eapply StronglySorted_sublist; [apply filter_sublist|]. apply sort_positions_sorted.
Qed.
End Analyze.

(** Planning a compaction terminates for every set of stream set objects whose
    blocks are non-empty and fit the cache, and the plans move exactly the right blocks:
    together the stages hold every block of the objects that share a stream with another
    one, less the objects reported as excluded, each block exactly once; each stage fits
    the compaction cache, each split object is one stream's continuous run, the blocks
    bound for the new stream set object come in stream and offset order, without overlap,
    across the stages, and a stage's read list is its blocks by source object and position. *)
Theorem compaction_plan_exact a m excluded :
  0 ≤ ca_stream_split_size a → 0 ≤ ca_compaction_cache_size a → input_ok a m →
  ∃ plans removed m', analyze a m excluded = Some (plans, excluded ∪ removed)
    ∧ (∀ id l, m' !! id = Some l ↔ m !! id = Some l ∧ shares m id)
    ∧ (plans = []
       ∨ concat (plan_blocks <$> plans) ≡ₚ filter (λ b, bk_object_id b ∉ removed) (map_blocks m')
         ∧ StronglySorted before (concat (set_blocks <$> plans))
         ∧ Forall (stage_ok (ca_compaction_cache_size a)) plans).
Proof.
  intros Hsp Hc Hin. destruct (analyze_spec a m excluded Hsp Hc Hin) as (plans & removed & E & H).
  exists plans, removed, (filter_blocks_to_compact m). split; [done|]. split; [apply filter_blocks_spec|done].
Qed.

Definition demo_analyzer : CompactionAnalyzer := mkAnalyzer 100 60 10 10.
Definition demo_map : BlockMap :=
  <[1 := [sdb_new 1 0 5 1 0 40 5; sdb_new 2 0 3 1 40 20 3]]>
    (<[2 := [sdb_new 1 5 9 2 0 50 4; sdb_new 2 7 8 2 50 30 1]]> ∅).

Lemma demo_input_ok : input_ok demo_analyzer demo_map.
Proof.
  split; [..|vm_compute; reflexivity|]; apply (bool_decide_unpack _); vm_compute; exact I.
Qed.

Lemma compaction_plan_exact_witness :
  ∃ plans removed, analyze demo_analyzer demo_map ∅ = Some (plans, ∅ ∪ removed)
    ∧ (length <$> (plan_blocks <$> plans)) = [2; 2]%nat
    ∧ (plans = [] ∨ StronglySorted before (concat (set_blocks <$> plans))).
Proof.
  destruct (compaction_plan_exact demo_analyzer demo_map ∅) as (plans & removed & m' & E & _ & H).
  - vm_compute. discriminate.
  - vm_compute. discriminate.
  - apply demo_input_ok.
  - exists plans, removed. split; [done|]. split; [|destruct H as [?|(_ & ? & _)]; by auto].
    assert (∃ ps x, analyze demo_analyzer demo_map ∅ = Some (ps, x) ∧ (length <$> (plan_blocks <$> ps)) = [2; 2]%nat)
      as (ps & x & E' & Hl).
    { destruct (analyze demo_analyzer demo_map ∅) as [[ps x]|] eqn:Ea; [|vm_compute in Ea; discriminate Ea].
      exists ps, x. split; [done|]. revert Ea. vm_compute. by intros [= <- _]. }
    rewrite E in E'. by injection E' as <- _.
Defined.
