(* ===== verification/CompactExec.v ===== *)
(** * Compaction execution

    Models [s3stream-core/src/compact/executor.rs]: the reader that coalesces adjacent
    blocks into range reads, the writer that copies block bytes verbatim under a fresh
    index, and the uploader of one compaction round.  The read throttle only delays.
    [None] is a panic (a slice out of range, a missing map entry, a failed assertion) or
    exhausted fuel of a read loop; [read_blocks_each] shows that the fuel is enough. *)
From S2P Require Import Prelude Collections Codec ObjectStore ObjectFormat ObjectIO Metadata Upload CompactPlan.

Definition S3_OBJECT_TTL_MINUTES : Z := 24 * 60.
Definition S3_OBJECT_MAX_READ_BATCH : Z := 16 * 1024 * 1024.

Record FetchedBlock : Type := mkFetched {
  fb_block : StreamDataBlock;
  fb_data : bytes;
}.

(** ** DataBlockReader *)

Section Reader.
Context {S : Type} `{!ObjectStorage S} (s : S) (metadata : S3ObjectMetadata).

(** What a read returns: [None] for a panic or no fuel, errors as values. *)
Abbreviation fetch := (option (result StreamError (list FetchedBlock))).

Definition parse_data_block_index : result StreamError (list StreamDataBlock) :=
  let? info := map_err SE_Object (basic_object_info s (metadata_key metadata) (om_object_size metadata)) in
  Ok (mkBlock (om_object_id metadata) <$> boi_index_block info).

Definition range_read (start end_ : Z) : result StreamError bytes :=
  map_err SE_Object (os_range_read s (metadata_key metadata) start (Some end_)).

(** [data.slice(cursor..cursor + size)] for each block. *)
Fixpoint slice_blocks (cursor : Z) (data : bytes) (blocks : list StreamDataBlock) : option (list FetchedBlock) :=
  match blocks with
  | [] => Some []
  | block :: rest =>
      let end_ := u64 (cursor + bk_size block) in
      if (end_ <? cursor) || (len data <? end_) then None
      else
        let* fetched := slice_blocks end_ data rest in
        Some (mkFetched block (slice cursor end_ data) :: fetched)
  end.

Definition read_run (blocks : list StreamDataBlock) : fetch :=
  let* first := head blocks in
  let* last := last blocks in
  match range_read (bk_start_position first) (bk_end_position last) with
  | Err e => Some (Err e)
  | Ok data => let* fetched := slice_blocks 0 data blocks in Some (Ok fetched)
  end.

(** A single oversized block in [max_read_batch_size] chunks. *)
Fixpoint read_chunks (fuel : nat) (position block_end max_read_batch_size : Z) (chunks : bytes)
  : option (result StreamError bytes) :=
  match fuel with
  | O => None
  | Datatypes.S fuel =>
      if position <? block_end then
        let end_ := Z.min block_end (u64 (position + max_read_batch_size)) in
        match range_read position end_ with
        | Err e => Some (Err e)
        | Ok data => read_chunks fuel end_ block_end max_read_batch_size (chunks ++ data)
        end
      else Some (Ok chunks)
  end.

Definition chunk_fuel (block : StreamDataBlock) : nat := Datatypes.S (Z.to_nat (bk_size block)).

(** [run] is [blocks[start..i]]; [out] what was pushed so far. *)
Fixpoint read_continuous_loop (fuel : nat) (max_read_batch_size : Z) (run : list StreamDataBlock) (current : Z)
    (blocks : list StreamDataBlock) (out : list FetchedBlock) : fetch :=
  match fuel with
  | O => None
  | Datatypes.S fuel =>
      match blocks with
      | [] =>
          match run with
          | [] => Some (Ok out)
          | _ =>
              let* r := read_run run in
              Some (let? fetched := r in Ok (out ++ fetched))
          end
      | block :: rest =>
          let current := u64 (current + bk_size block) in
          if (0 <? max_read_batch_size) && (max_read_batch_size <=? current) then
            match run with
            | [] =>
                let* r := read_chunks (chunk_fuel block) (bk_start_position block) (bk_end_position block)
                            max_read_batch_size [] in
                match r with
                | Err e => Some (Err e)
                | Ok data => read_continuous_loop fuel max_read_batch_size [] 0 rest (out ++ [mkFetched block data])
                end
            | _ =>
                let* r := read_run run in
                match r with
                | Err e => Some (Err e)
                | Ok fetched => read_continuous_loop fuel max_read_batch_size [] 0 blocks (out ++ fetched)
                end
            end
          else read_continuous_loop fuel max_read_batch_size (run ++ [block]) current rest out
      end
  end.

Definition read_continuous (blocks : list StreamDataBlock) (max_read_batch_size : Z) (out : list FetchedBlock)
  : fetch :=
  read_continuous_loop (2 * length blocks + 1) max_read_batch_size [] 0 blocks out.

(** [run] is [blocks[start..end]]. *)
Fixpoint read_blocks_loop (max_read_batch_size : Z) (run : list StreamDataBlock) (offset : option Z)
    (blocks : list StreamDataBlock) (fetched : list FetchedBlock) : fetch :=
  match blocks with
  | [] =>
      match run with
      | [] => Some (Ok fetched)
      | _ => read_continuous run max_read_batch_size fetched
      end
  | block :: rest =>
      let gap := match offset with Some expected => negb (bk_start_position block =? expected) | None => false end in
      let offset := Some (bk_end_position block) in
      if gap then
        let* r := read_continuous run max_read_batch_size fetched in
        match r with
        | Err e => Some (Err e)
        | Ok fetched => read_blocks_loop max_read_batch_size [block] offset rest fetched
        end
      else read_blocks_loop max_read_batch_size (run ++ [block]) offset rest fetched
  end.

Definition read_blocks (blocks : list StreamDataBlock) (max_read_batch_size : Z) : fetch :=
  read_blocks_loop max_read_batch_size [] None blocks [].
End Reader.

(** ** DataBlockWriter

    [dw_parts] is what the multipart writer received so far. *)
Record DataBlockWriter : Type := mkDW {
  dw_object_id : Z;
  dw_part_size_threshold : Z;
  dw_parts : list bytes;
  dw_waiting : bytes;
  dw_completed_blocks : list StreamDataBlock;
  dw_next_data_block_position : Z;
}.

Definition DATA_BLOCK_GROUP_SIZE_THRESHOLD : Z := 1024 * 1024.

Definition dw_open (object_id part_size_threshold : Z) : DataBlockWriter :=
  mkDW object_id part_size_threshold [] [] [] 0.

Definition dw_write (w : DataBlockWriter) (fetched : FetchedBlock) : DataBlockWriter :=
  let waiting := dw_waiting w ++ fb_data fetched in
  let flush := dw_part_size_threshold w <=? len waiting in
  mkDW (dw_object_id w) (dw_part_size_threshold w)
    (if flush then dw_parts w ++ [waiting] else dw_parts w)
    (if flush then [] else waiting)
    (dw_completed_blocks w ++ [fb_block fetched])
    (u64 (dw_next_data_block_position w + bk_size (fb_block fetched))).

(** One entry per non-empty group, positions running on. *)
Fixpoint indices_from_group (position : Z) (groups : list (list StreamDataBlock)) : list DataBlockIndex :=
  match groups with
  | [] => []
  | group :: rest =>
      match head group, last group with
      | Some first, Some last =>
          let group_size := sum_sizes group in
          {| bi_block_id := -1; bi_stream_id := bk_stream_id first; bi_start_offset := bk_start_offset first;
             bi_end_offset_delta := u32 (u64 (bk_end_offset last - bk_start_offset first));
             bi_record_count := foldl (λ n b, u32 (n + bi_record_count (bk_index b))) 0 group;
             bi_start_position := position; bi_size := u32 group_size |}
          :: indices_from_group (u64 (position + group_size)) rest
      | _, _ => indices_from_group position rest
      end
  end.

Definition build_data_block_indices_from_group (groups : list (list StreamDataBlock)) : list DataBlockIndex :=
  indices_from_group 0 groups.

Definition build_object_stream_ranges_from_group (groups : list (list StreamDataBlock)) : list ObjectStreamRange :=
  omap (λ g,
    match head g, last g with
    | Some first, Some last =>
        Some {| or_stream_id := bk_stream_id first; or_epoch := U64_MAX;
                or_start_offset := bk_start_offset first; or_end_offset := bk_end_offset last;
                or_size := sum_sizes g |}
    | _, _ => None
    end) groups.

(** The object as stored and its reported size. *)
Definition dw_close (w : DataBlockWriter) : bytes * Z :=
  let index_position := dw_next_data_block_position w in
  let groups := group_stream_data_blocks limit_test (limit_new DATA_BLOCK_GROUP_SIZE_THRESHOLD)
                  (dw_completed_blocks w) in
  let indices := build_data_block_indices_from_group groups in
  let index_size := len indices * Z.of_nat BLOCK_INDEX_SIZE in
  let tail := dw_waiting w ++ index_block_encode indices ++ footer index_position index_size FOOTER_MAGIC in
  (concat (dw_parts w ++ [tail]), u64 (index_position + index_size + Z.of_nat FOOTER_SIZE)).

(** [close]: the multipart upload completes under the object's key. *)
Definition dw_finish {S} `{ObjectStorage S} (s : S) (now : Z) (w : DataBlockWriter) : S * (Z * Z) :=
  let '(data, size) := dw_close w in
  let s := os_write s now (object_key (dw_object_id w)) data in
  (s, (size, os_bucket_id s)).

(** The blocks' fetched bytes, by source object and position. *)
Abbreviation BlockData := (gmap (Z * Z) bytes).

Definition data_of (data : BlockData) (block : StreamDataBlock) : option bytes :=
  data !! (bk_object_id block, bk_start_position block).

Fixpoint write_blocks (data : BlockData) (w : DataBlockWriter) (blocks : list StreamDataBlock)
  : option DataBlockWriter :=
  match blocks with
  | [] => Some w
  | block :: rest =>
      let* bytes := data_of data block in
      write_blocks data (dw_write w (mkFetched block bytes)) rest
  end.

(** ** CompactionUploader *)

Record CompactionUploader : Type := mkUploader {
  cu_part_size : Z;
  cu_stream_set_object_id : option Z;
  cu_stream_set_writer : option DataBlockWriter;
  cu_bucket_id : Z;
}.

Definition uploader_new (part_size : Z) : CompactionUploader := mkUploader part_size None None 0.

Section Uploader.
Context {S : Type} `{!ObjectStorage S} {M : Type} `{!ObjectManager M}.

Definition write_stream_set_object (u : CompactionUploader) (compacted : CompactedObject) (data : BlockData) (m : M)
  : option (CompactionUploader * M * result StreamError unit) :=
  if negb (bool_decide (co_type compacted = Compact)) then None
  else if bool_decide (co_blocks compacted = []) then Some (u, m, Ok tt)
  else
    let '(u, m, r) :=
      match cu_stream_set_writer u with
      | Some _ => (u, m, Ok tt)
      | None =>
          match mgr_prepare_object m 1 with
          | (m, Err e) => (u, m, Err e)
          | (m, Ok id) => (mkUploader (cu_part_size u) (Some id) (Some (dw_open id (cu_part_size u))) (cu_bucket_id u), m, Ok tt)
          end
      end in
    match r with
    | Err e => Some (u, m, Err e)
    | Ok _ =>
        let* w := cu_stream_set_writer u in
        let* w := write_blocks data w (co_blocks compacted) in
        Some (mkUploader (cu_part_size u) (cu_stream_set_object_id u) (Some w) (cu_bucket_id u), m, Ok tt)
    end.

Definition write_split_object (u : CompactionUploader) (now : Z) (compacted : CompactedObject) (data : BlockData)
    (s : S) (m : M) : option (S * M * result StreamError (option StreamObject)) :=
  if negb (bool_decide (co_type compacted = Split)) then None
  else
    match head (co_blocks compacted), last (co_blocks compacted) with
    | Some first, Some last =>
        match mgr_prepare_object m 1 with
        | (m, Err e) => Some (s, m, Err e)
        | (m, Ok id) =>
            let* w := write_blocks data (dw_open id (cu_part_size u)) (co_blocks compacted) in
            let '(s, (size, bucket_id)) := dw_finish s now w in
            Some (s, m, Ok (Some {| so_object_id := id; so_object_size := size; so_stream_id := bk_stream_id first;
                                    so_start_offset := bk_start_offset first; so_end_offset := bk_end_offset last;
                                    so_attributes := attributes_new bucket_id false false |}))
        end
    | _, _ => Some (s, m, Ok None)
    end.

(** The uploader and the size of the stream set object, 0 when none was written. *)
Definition complete (u : CompactionUploader) (now : Z) (s : S) : S * CompactionUploader * Z :=
  match cu_stream_set_writer u with
  | None => (s, u, 0)
  | Some w =>
      let '(s, (size, bucket_id)) := dw_finish s now w in
      (s, mkUploader (cu_part_size u) (cu_stream_set_object_id u) None bucket_id, size)
  end.

(** The abort of the multipart upload leaves no object. *)
Definition release (u : CompactionUploader) : CompactionUploader :=
  mkUploader (cu_part_size u) None None (cu_bucket_id u).
End Uploader.

(** ** Coalesced reads *)

Lemma slice_slice {A} a b s e (l : list A) :
  0 ≤ s → 0 ≤ a ≤ b → b ≤ e - s → slice a b (slice s e l) = slice (s + a) (s + b) l.
Proof.
  intros Hs Ha Hb. unfold slice.
  replace (Z.to_nat (e - s)) with (Z.to_nat a + Z.to_nat (e - s - a))%nat by lia.
  rewrite <- take_drop_commute, drop_drop, take_take. f_equal; [lia|]. f_equal. lia.
Qed.

Lemma slice_join {A} a b c (l : list A) : 0 ≤ a ≤ b → b ≤ c → slice a b l ++ slice b c l = slice a c l.
Proof.
  intros Ha Hb. unfold slice. replace (Z.to_nat b) with (Z.to_nat a + Z.to_nat (b - a))%nat by lia.
  rewrite <- drop_drop, take_take_drop. f_equal. lia.
Qed.

Lemma slice_empty {A} a (l : list A) : slice a a l = [].
Proof. unfold slice. by rewrite Z.sub_diag. Qed.

(** The object under [key] is [data], for every range of it. *)
Definition stored {S} `{ObjectStorage S} (s : S) (key data : bytes) : Prop :=
  ∀ a b, 0 ≤ a ≤ b → b ≤ len data → os_range_read s key a (Some b) = Ok (slice a b data).

Lemma stored_written {S} `{ObjectStorageLaws S} (s : S) now key data : stored (os_write s now key data) key data.
Proof. intros a b Ha Hb. by apply os_range_write. Qed.

Lemma stored_other {S} `{ObjectStorageLaws S} (s : S) now key key' data data' :
  key' ≠ key → stored s key data → stored (os_write s now key' data') key data.
Proof. intros Hne Hs a b Ha Hb. rewrite os_write_other by done. by apply Hs. Qed.

(** The block's range lies in the object. *)
Definition in_object (data : bytes) (b : StreamDataBlock) : Prop :=
  0 ≤ bk_start_position b ∧ 0 ≤ bk_size b ∧ bk_start_position b + bk_size b ≤ len data.

Definition block_bytes (data : bytes) (b : StreamDataBlock) : bytes :=
  slice (bk_start_position b) (bk_start_position b + bk_size b) data.
Definition fetched_of (data : bytes) (b : StreamDataBlock) : FetchedBlock := mkFetched b (block_bytes data b).

(** Blocks that follow one another from position [p]. *)
Fixpoint adjacent (p : Z) (l : list StreamDataBlock) : Prop :=
  match l with
  | [] => True
  | b :: rest => bk_start_position b = p ∧ adjacent (p + bk_size b) rest
  end.

Fixpoint end_of (p : Z) (l : list StreamDataBlock) : Z :=
  match l with
  | [] => p
  | b :: rest => end_of (p + bk_size b) rest
  end.

Lemma adjacent_snoc p l b : adjacent p (l ++ [b]) ↔ adjacent p l ∧ bk_start_position b = end_of p l.
Proof. revert p; induction l as [|x l IH]; intros p; cbn; [tauto|]. rewrite IH. tauto. Qed.

Lemma adjacent_app p l k : adjacent p (l ++ k) ↔ adjacent p l ∧ adjacent (end_of p l) k.
Proof. revert p; induction l as [|x l IH]; intros p; cbn; [tauto|]. rewrite IH. tauto. Qed.

Lemma end_of_app p l k : end_of p (l ++ k) = end_of (end_of p l) k.
Proof. revert p; induction l as [|x l IH]; intros p; cbn; [done|]. apply IH. Qed.

Section ReadEach.
Context {S : Type} `{!ObjectStorage S} (s : S) (md : S3ObjectMetadata) (data : bytes).
Hypothesis Hstored : stored s (metadata_key md) data.
Hypothesis Hlen : len data < 2 ^ 63.

(** The reference: one range read per block. *)
Fixpoint read_each (blocks : list StreamDataBlock) : result StreamError (list FetchedBlock) :=
  match blocks with
  | [] => Ok []
  | b :: rest =>
      let? d := range_read s md (bk_start_position b) (bk_end_position b) in
      let? fetched := read_each rest in
      Ok (mkFetched b d :: fetched)
  end.

Lemma end_position b : in_object data b → bk_end_position b = bk_start_position b + bk_size b.
Proof. intros (? & ? & ?). unfold bk_end_position, bi_end_position. apply u64_small. unfold bk_start_position, bk_size in *. int_lia. Qed.

Lemma range_read_ok a b : 0 ≤ a ≤ b → b ≤ len data → range_read s md a b = Ok (slice a b data).
Proof. intros Ha Hb. unfold range_read. by rewrite Hstored. Qed.

Lemma read_each_ok blocks : Forall (in_object data) blocks → read_each blocks = Ok (fetched_of data <$> blocks).
Proof.
  induction 1 as [|b l Hb _ IH]; cbn; [done|]. rewrite end_position by done. destruct Hb as (? & ? & ?).
  rewrite range_read_ok by lia. by rewrite IH.
Qed.

Lemma end_of_ge p l : Forall (in_object data) l → p ≤ end_of p l.
Proof. intros H. revert p; induction H as [|b l (_ & ? & _) _ IH]; intros p; cbn; [lia|]. specialize (IH (p + bk_size b)). lia. Qed.

Lemma end_of_le p l : Forall (in_object data) l → adjacent p l → l ≠ [] → end_of p l ≤ len data.
Proof.
  intros H. revert p; induction H as [|b l (? & ? & ?) _ IH]; intros p Ha Hne; [done|]. destruct Ha as [Eb Ha]. cbn.
  destruct l as [|x l]; [cbn; lia|]. by apply IH.
Qed.

Lemma end_of_last p l b : last l = Some b → adjacent p l → end_of p l = bk_start_position b + bk_size b.
Proof.
  intros [k ->]%last_Some [Ha Eb]%adjacent_snoc. rewrite end_of_app. cbn. lia.
Qed.

Lemma slice_blocks_ok start end_ p l :
  0 ≤ start ≤ p → end_ ≤ len data → adjacent p l → end_of p l ≤ end_ → Forall (in_object data) l →
  slice_blocks (p - start) (slice start end_ data) l = Some (fetched_of data <$> l).
Proof.
  intros Hp He Ha Hend Hin. revert p Hp Ha Hend; induction Hin as [|b l Hb Hl IH]; intros p Hp Ha Hend; [done|].
  cbn in Ha, Hend. destruct Ha as [Eb Ha]. destruct Hb as (Hb1 & Hb2 & Hb3).
  pose proof (end_of_ge (p + bk_size b) l Hl). cbn [slice_blocks].
  rewrite u64_small by int_lia. rewrite length_slice by lia.
  match goal with |- context [if ?c then None else _] => assert (c = false) as -> by lia end.
  replace (p - start + bk_size b) with (p + bk_size b - start) by lia. rewrite IH by (done || lia).
  cbn. unfold fetched_of, block_bytes. do 3 f_equal. rewrite slice_slice by lia. f_equal; lia.
Qed.

Lemma read_run_ok l p :
  l ≠ [] → adjacent p l → Forall (in_object data) l → read_run s md l = Some (Ok (fetched_of data <$> l)).
Proof.
  intros Hne Ha Hin. unfold read_run. destruct l as [|b l]; [done|]. cbn [head].
  destruct (last (b :: l)) as [z|] eqn:El; [|by apply last_None in El].
  pose proof (end_of_last _ _ _ El Ha) as Ee. pose proof (end_of_ge p _ Hin) as Hge. pose proof (end_of_le p _ Hin Ha Hne) as Hle.
  pose proof Ha as [Eb _]. assert (in_object data z) as Hz by (eapply Forall_forall; [done|by apply last_Some_elem_of]).
  rewrite end_position by done. destruct Hz as (? & ? & ?). apply Forall_cons in Hin as Hin'. destruct Hin' as [(? & ? & ?) _].
  rewrite range_read_ok by lia.
  replace 0 with (bk_start_position b - bk_start_position b) by lia.
  rewrite slice_blocks_ok; [done|lia|lia|by rewrite Eb|rewrite Eb; lia|done].
Qed.

Lemma read_chunks_ok max fuel p e chunks :
  0 < max < 2 ^ 63 → 0 ≤ p ≤ e → e ≤ len data → (Z.to_nat (e - p) < fuel)%nat →
  read_chunks s md fuel p e max chunks = Some (Ok (chunks ++ slice p e data)).
Proof.
  intros Hmax. revert p chunks; induction fuel as [|fuel IH]; intros p chunks Hp He Hf; [lia|]. cbn [read_chunks].
  destruct (p <? e) eqn:E.
  - rewrite u64_small by int_lia. set (e' := Z.min e (p + max)). rewrite range_read_ok by lia.
    rewrite IH by lia. by rewrite <- app_assoc, slice_join by lia.
  - replace e with p by lia. by rewrite slice_empty, app_nil_r.
Qed.

Lemma read_continuous_loop_ok max fuel run current blocks out p :
  0 ≤ max < 2 ^ 63 → adjacent p (run ++ blocks) → Forall (in_object data) (run ++ blocks) →
  (2 * length blocks + (if decide (run = []) then 0 else 1) < fuel)%nat →
  read_continuous_loop s md fuel max run current blocks out
  = Some (Ok (out ++ (fetched_of data <$> (run ++ blocks)))).
Proof.
  intros Hmax. revert run current blocks out p; induction fuel as [|fuel IH]; intros run current blocks out p Ha Hin Hf; [lia|].
  cbn [read_continuous_loop].
  assert (run ≠ [] → read_run s md run = Some (Ok (fetched_of data <$> run))) as Hrun.
  { intros Hne. apply adjacent_app in Ha as [Ha _]. apply Forall_app in Hin as [Hin _]. by eapply read_run_ok. }
  destruct blocks as [|b rest].
  { rewrite app_nil_r in *. destruct run as [|x run]; [by rewrite app_nil_r|]. by rewrite Hrun. }
  destruct ((0 <? max) && _) eqn:Em.
  - destruct run as [|x run].
    + cbn [app] in *. apply Forall_cons in Hin as [Hb Hin]. destruct Ha as [Eb Ha]. rewrite end_position by done.
      destruct Hb as (? & ? & ?). rewrite read_chunks_ok; [|lia|lia|lia|unfold chunk_fuel; lia].
      cbn [app]. rewrite (IH [] 0 rest _ (p + bk_size b)); [|done|done|cbn [length] in Hf; rewrite decide_True by done; rewrite decide_True in Hf by done; lia].
      cbn. by rewrite <- app_assoc.
    + rewrite Hrun by done. rewrite (IH [] 0 (b :: rest) _ (end_of p (x :: run))).
      * cbn [app]. rewrite <- app_assoc, <- fmap_app. done.
      * by apply adjacent_app in Ha as [_ Ha].
      * by apply Forall_app in Hin as [_ Hin].
      * rewrite decide_True by done. rewrite decide_False in Hf by done. lia.
  - rewrite (IH (run ++ [b]) _ rest out p).
    + by rewrite <- app_assoc.
    + by rewrite <- app_assoc.
    + by rewrite <- app_assoc.
    + cbn [length] in Hf. do 2 case_decide; lia.
Qed.

Lemma read_blocks_loop_ok max run offset blocks fetched p :
  0 ≤ max < 2 ^ 63 → adjacent p run → offset = (if decide (run = []) then None else Some (end_of p run)) →
  Forall (in_object data) (run ++ blocks) →
  read_blocks_loop s md max run offset blocks fetched
  = Some (Ok (fetched ++ (fetched_of data <$> (run ++ blocks)))).
Proof.
  intros Hmax. revert run offset fetched p; induction blocks as [|b rest IH]; intros run offset fetched p Ha Ho Hin; cbn [read_blocks_loop].
  - destruct run as [|x run]; [by rewrite app_nil_r|]. unfold read_continuous.
    rewrite (read_continuous_loop_ok max _ [] 0 (x :: run) fetched p); [by rewrite app_nil_r|done|done|by rewrite app_nil_r in Hin|].
    rewrite decide_True by done. lia.
  - assert (in_object data b) as Hb by (by apply Forall_app in Hin as [_ [? _]%Forall_cons]).
    rewrite end_position by done. destruct offset as [e|].
    + destruct (decide (run = [])) as [->|Hne]; [done|]. injection Ho as ->.
      destruct (bk_start_position b =? end_of p run) eqn:E; cbn [negb].
      * rewrite (IH (run ++ [b]) _ fetched p); [by rewrite <- app_assoc| | |by rewrite <- app_assoc].
        -- apply adjacent_snoc. split; [done|lia].
        -- rewrite decide_False by (by intros [_ ?]%app_eq_nil). rewrite end_of_app. cbn. f_equal. lia.
      * apply Forall_app in Hin as [Hin1 Hin2].
        unfold read_continuous. rewrite (read_continuous_loop_ok max _ [] 0 run fetched p); [|done|done|done|rewrite decide_True by done; lia].
        rewrite (IH [b] _ _ (bk_start_position b)); [|done|done|done].
        cbn [app]. by rewrite <- app_assoc, <- fmap_app.
    + destruct (decide (run = [])) as [->|Hne]; [|done]. cbn [app] in *.
      rewrite (IH [b] _ fetched (bk_start_position b)); done.
Qed.

(** Coalescing, splitting at the batch size and slicing are invisible. *)
Lemma read_blocks_each max blocks :
  0 ≤ max < 2 ^ 63 → Forall (in_object data) blocks → read_blocks s md blocks max = Some (read_each blocks).
Proof.
  intros Hmax Hin. unfold read_blocks. rewrite (read_blocks_loop_ok max [] None blocks [] 0); [|done|done|by rewrite decide_True|done].
  by rewrite read_each_ok.
Qed.
End ReadEach.

(** ** Grouping consecutive blocks *)

Section Grouping.
Context {P : Type} (test : P → StreamDataBlock → P * bool) (p0 : P).
(** [I p g]: the predicate's state [p] describes the open group [g]. *)
Context (I : P → list StreamDataBlock → Prop) (Q : StreamDataBlock → Prop).
Hypothesis first_ok : ∀ b, Q b → (test p0 b).2 = true ∧ I (test p0 b).1 [b].
Hypothesis next_ok : ∀ p g b, Q b → g ≠ [] → I p g →
  if (test p b).2 then I (test p b).1 (g ++ [b]) else I (test p b).1 [b].

Definition group_inv (g : list StreamDataBlock) : Prop := g ≠ [] ∧ ∃ p, I p g.

Lemma offset_groups_spec p g blocks :
  Forall Q blocks → g ≠ [] → I p g →
  concat (group_loop test p g blocks) = g ++ blocks ∧ Forall group_inv (group_loop test p g blocks).
Proof.
  intros HQ. revert p g; induction HQ as [|b rest Hb _ IH]; intros p g Hne Hi; cbn [group_loop].
  - destruct g as [|x g]; [done|]. cbn. rewrite app_nil_r. split; [done|]. apply Forall_singleton. by split; [|exists p].
  - pose proof (next_ok p g b Hb Hne Hi) as Hn. destruct (test p b) as [p' ok]. cbn in Hn. destruct ok.
    + destruct (IH p' (g ++ [b])) as [-> ?]; [by intros [_ ?]%app_eq_nil|done|]. by rewrite <- app_assoc.
    + destruct (IH p' [b]) as [E Hf]; [done|done|]. destruct g as [|x g]; [done|]. cbn [concat]. rewrite E.
      split; [done|]. constructor; [|done]. by split; [|exists p].
Qed.

Lemma group_spec blocks :
  Forall Q blocks →
  concat (group_stream_data_blocks test p0 blocks) = blocks
  ∧ Forall group_inv (group_stream_data_blocks test p0 blocks).
Proof.
  unfold group_stream_data_blocks. intros HQ. destruct HQ as [|b rest Hb HQ]; [done|]. cbn [group_loop].
  destruct (first_ok b Hb) as [Et Hi]. destruct (test p0 b) as [p ok]. cbn in Et, Hi. subst ok. by apply (offset_groups_spec p [b]).
Qed.
End Grouping.

(** A block as an object's index describes it: fields in range, a non-empty offset
    range, a stream id other than the sentinel of the predicates. *)
Record block_ok (b : StreamDataBlock) : Prop := {
  bo_sized : sized b;
  bo_stream : 0 ≤ bk_stream_id b < U64_MAX;
  bo_offsets : 0 ≤ bk_start_offset b < bk_end_offset b;
  bo_end : bk_end_offset b = bk_start_offset b + bi_end_offset_delta (bk_index b);
  bo_delta : is_u32 (bi_end_offset_delta (bk_index b));
  bo_count : is_u32 (bi_record_count (bk_index b));
}.

Lemma bo_end_u64 b : block_ok b → bk_end_offset b < 2 ^ 64.
Proof. intros _. unfold bk_end_offset, bi_end_offset. pose proof (u64_range (bi_start_offset (bk_index b) + bi_end_offset_delta (bk_index b))). int_lia. Qed.

Lemma i64_sentinel z : 0 ≤ z < U64_MAX → i64 z ≠ -1.
Proof. int_lia. Qed.

Lemma i64_eq x y : 0 ≤ x < U64_MAX → 0 ≤ y < U64_MAX → i64 x = i64 y → x = y.
Proof. int_lia. Qed.

Lemma one_stream_singleton b : one_stream [b].
Proof. intros x y Hx Hy. apply list_elem_of_singleton in Hx, Hy. congruence. Qed.

Lemma chained_singleton b : chained [b].
Proof. intros i x y Hx Hy. apply list_lookup_singleton_Some in Hx as [-> _]. done. Qed.

Lemma one_stream_snoc g z b : one_stream g → last g = Some z → bk_stream_id b = bk_stream_id z → one_stream (g ++ [b]).
Proof.
  intros Ho Hl Hs. apply last_Some_elem_of in Hl.
  assert (∀ x, x ∈ g ++ [b] → bk_stream_id x = bk_stream_id z) as H.
  { intros x [Hx|Hx%list_elem_of_singleton]%elem_of_app; [by apply Ho|by subst]. }
  intros x y Hx Hy. by rewrite (H x), (H y).
Qed.

Definition offset_inv (p : GroupByOffsetPredicate) (g : list StreamDataBlock) : Prop :=
  one_stream g ∧ chained g
  ∧ ∃ z, last g = Some z ∧ block_ok z ∧ p = mkOffset (i64 (bk_stream_id z)) (bk_end_offset z).

Lemma offset_first b : block_ok b → (offset_test offset_new b).2 = true ∧ offset_inv (offset_test offset_new b).1 [b].
Proof.
  intros Hb. cbn. split; [done|]. split; [apply one_stream_singleton|]. split; [apply chained_singleton|]. by exists b.
Qed.

Lemma offset_next p g b :
  block_ok b → g ≠ [] → offset_inv p g →
  if (offset_test p b).2 then offset_inv (offset_test p b).1 (g ++ [b]) else offset_inv (offset_test p b).1 [b].
Proof.
  intros Hb Hne (Ho & Hc & z & Hl & Hz & ->). unfold offset_test. cbn [go_curr_stream_id go_next_start_offset].
  rewrite (proj2 (Z.eqb_neq _ _) (i64_sentinel _ (bo_stream _ Hz))).
  destruct (_ && _) eqn:E; cbn [fst snd].
  - apply andb_true_iff in E as [Es%Z.eqb_eq Eo%Z.eqb_eq]. pose proof (i64_eq _ _ (bo_stream _ Hz) (bo_stream _ Hb) Es) as Est.
    split; [by eapply one_stream_snoc|]. split.
    + apply chained_snoc; [done|]. intros x Hx _. rewrite Hl in Hx. by injection Hx as <-.
    + exists b. rewrite last_snoc. split; [done|]. split; [done|]. by rewrite Es.
  - split; [apply one_stream_singleton|]. split; [apply chained_singleton|]. by exists b.
Qed.

Record limit_inv (thr : Z) (p : GroupByLimitPredicate) (g : list StreamDataBlock) : Prop := {
  li_stream : one_stream g;
  li_chain : chained g;
  li_sized : Forall sized g;
  li_thr : gl_block_size_threshold p = thr;
  li_ends : ∃ a z, head g = Some a ∧ last g = Some z ∧ block_ok a ∧ block_ok z ∧ bk_start_offset a < bk_end_offset z
    ∧ gl_stream_id p = i64 (bk_stream_id z) ∧ gl_start_offset p = bk_start_offset a ∧ gl_next_start_offset p = bk_end_offset z
    ∧ bk_end_offset z - bk_start_offset a < 2 ^ 32;
  li_size : gl_block_size p = total g;
  li_bound : total g < 2 ^ 32;
}.

Lemma limit_single thr p b n :
  block_ok b →
  p = mkLimit thr (i64 (bk_stream_id b)) (bk_start_offset b) (bk_end_offset b) (u64 (0 + bk_size b)) n →
  limit_inv thr p [b].
Proof.
  intros Hb ->. pose proof (bo_sized _ Hb) as Hs. pose proof (bo_offsets _ Hb). pose proof (bo_end _ Hb). pose proof (bo_delta _ Hb).
  unfold sized in Hs. constructor; cbn; try done.
  - apply one_stream_singleton.
  - by apply Forall_singleton.
  - exists b, b. split_and!; try done; int_lia.
  - rewrite u64_small; int_lia.
  - lia.
Qed.

Lemma limit_first thr b :
  block_ok b → (limit_test (limit_new thr) b).2 = true ∧ limit_inv thr (limit_test (limit_new thr) b).1 [b].
Proof. intros Hb. cbn. split; [done|]. by eapply limit_single. Qed.

Lemma limit_next thr p g b :
  0 ≤ thr ≤ 2 ^ 32 → block_ok b → g ≠ [] → limit_inv thr p g →
  if (limit_test p b).2 then limit_inv thr (limit_test p b).1 (g ++ [b]) else limit_inv thr (limit_test p b).1 [b].
Proof.
  intros Ht Hb Hne [Ho Hc Hs Hthr (a & z & Ha & Hl & Hoa & Hz & Haz & Es & Eso & En & Hd) Esz Hbd]. unfold limit_test.
  assert (gl_stream_id p =? -1 = false) as E1 by (rewrite Es; apply Z.eqb_neq, i64_sentinel, Hz). rewrite E1. cbn [orb].
  match goal with |- context [if ?c then (i64 _, _, _, _) else _] => destruct c eqn:E end; cbn [negb fst snd orb].
  - rewrite Hthr. by eapply limit_single.
  - rewrite !orb_false_iff in E. destruct E as ((((E2 & E3) & E4) & E5) & E6).
    apply negb_false_iff, Z.eqb_eq in E2, E3. rewrite Es in E2. rewrite En in E3.
    pose proof (i64_eq _ _ (bo_stream _ Hb) (bo_stream _ Hz) E2) as Est. pose proof (total_nonneg _ Hs).
    pose proof (bo_sized _ Hb) as Hsb. pose proof (bo_offsets _ Hb). pose proof (bo_end_u64 _ Hb). pose proof (bo_offsets _ Hoa).
    unfold sized in Hsb. rewrite Esz in E4. rewrite Eso in E6. rewrite Hthr in E4.
    rewrite u64_small in E4 by int_lia. rewrite u64_small in E6 by int_lia.
    constructor; cbn.
    + by eapply one_stream_snoc.
    + apply chained_snoc; [done|]. intros x Hx _. rewrite Hl in Hx. by injection Hx as <-.
    + apply Forall_app. split; [done|]. by apply Forall_singleton.
    + done.
    + exists a, b. rewrite last_snoc. destruct g as [|x g]; [done|]. cbn in Ha |- *. injection Ha as ->. split_and!; try done; [lia|by rewrite Es, Est|]. int_lia.
    + rewrite Esz, total_app. cbn. rewrite u64_small; int_lia.
    + rewrite total_app. cbn. lia.
Qed.

(** ** What the writer stores *)

Lemma group_limit_spec blocks :
  Forall block_ok blocks →
  let groups := group_stream_data_blocks limit_test (limit_new DATA_BLOCK_GROUP_SIZE_THRESHOLD) blocks in
  concat groups = blocks ∧ Forall (group_inv (limit_inv DATA_BLOCK_GROUP_SIZE_THRESHOLD)) groups.
Proof.
  intros Hb. apply (group_spec limit_test _ (limit_inv DATA_BLOCK_GROUP_SIZE_THRESHOLD) block_ok); [|..|done].
  - apply limit_first.
  - intros p g b. by apply limit_next.
Qed.

Lemma group_offset_spec blocks :
  Forall block_ok blocks →
  let groups := group_stream_data_blocks offset_test offset_new blocks in
  concat groups = blocks ∧ Forall (group_inv offset_inv) groups.
Proof. intros Hb. apply (group_spec offset_test _ offset_inv block_ok); [apply offset_first|apply offset_next|done]. Qed.

Section Writer.
(** The bytes of each block, as fetched. *)
Context (data : StreamDataBlock → bytes).

Definition sizes_match (blocks : list StreamDataBlock) : Prop := Forall (λ b, len (data b) = bk_size b) blocks.

Definition dw_writes (w : DataBlockWriter) (blocks : list StreamDataBlock) : DataBlockWriter :=
  foldl (λ w b, dw_write w (mkFetched b (data b))) w blocks.

(** Writing from a map that has every block's bytes. *)
Lemma write_blocks_ok (m : BlockData) w blocks :
  Forall (λ b, data_of m b = Some (data b)) blocks → write_blocks m w blocks = Some (dw_writes w blocks).
Proof. intros H. revert w; induction H as [|b l Hb _ IH]; intros w; cbn; [done|]. rewrite Hb. apply IH. Qed.

Lemma dw_writes_app w l k : dw_writes w (l ++ k) = dw_writes (dw_writes w l) k.
Proof. apply foldl_app. Qed.

Definition dw_bytes (w : DataBlockWriter) : bytes := concat (dw_parts w) ++ dw_waiting w.

Lemma dw_writes_spec w blocks :
  Forall sized blocks → 0 ≤ dw_next_data_block_position w → dw_next_data_block_position w + total blocks < 2 ^ 64 →
  let w' := dw_writes w blocks in
  dw_object_id w' = dw_object_id w ∧ dw_bytes w' = dw_bytes w ++ concat (data <$> blocks)
  ∧ dw_completed_blocks w' = dw_completed_blocks w ++ blocks
  ∧ dw_next_data_block_position w' = dw_next_data_block_position w + total blocks.
Proof.
  intros Hs. revert w; induction Hs as [|b l Hb Hl IH]; intros w Hw Ht; [cbn; rewrite !app_nil_r; split_and!; [done..|lia]|].
  cbn in Ht. change (dw_writes w (b :: l)) with (dw_writes (dw_write w (mkFetched b (data b))) l). cbn zeta. pose proof (total_nonneg _ Hl). unfold sized in Hb.
  assert (u64 (dw_next_data_block_position w + bk_size b) = dw_next_data_block_position w + bk_size b) as Eu by (apply u64_small; int_lia).
  destruct (IH (dw_write w (mkFetched b (data b)))) as (-> & -> & -> & ->); [cbn; lia|cbn; lia|]. cbn. rewrite Eu.
  split; [done|]. split; [|split; [by rewrite <- app_assoc|lia]].
  unfold dw_bytes. cbn. destruct (_ <=? _); rewrite ?concat_app; cbn; rewrite ?app_nil_r, <- !app_assoc; done.
Qed.

(** A group of blocks as one block of an [ObjectWriter]. *)
Definition group_block (g : list StreamDataBlock) : DataBlock :=
  {| db_encoded := concat (data <$> g);
     db_stream_id := default 0 (bk_stream_id <$> head g); db_epoch := 0;
     db_start_offset := default 0 (bk_start_offset <$> head g);
     db_end_offset := default 0 (bk_end_offset <$> last g);
     db_record_count := foldl (λ n b, u32 (n + bi_record_count (bk_index b))) 0 g |}.

Lemma group_block_size g : sizes_match g → db_size (group_block g) = total g.
Proof.
  unfold db_size. cbn. induction 1 as [|b l Hb _ IH]; cbn; [done|]. rewrite length_app, Nat2Z.inj_add, Hb. by rewrite IH.
Qed.

Lemma groups_total groups : Forall sizes_match groups → total_size (group_block <$> groups) = total (concat groups).
Proof. induction 1 as [|g gs Hg _ IH]; cbn; [done|]. by rewrite group_block_size, IH, total_app. Qed.

Lemma indices_from_group_spec id i p groups :
  (∀ j, id j = -1) → Forall (λ g, g ≠ []) groups → Forall sizes_match groups → Forall (Forall sized) groups →
  0 ≤ p → p + total (concat groups) < 2 ^ 64 →
  indices_from_group p groups = index_entries id i p (group_block <$> groups).
Proof.
  intros Hid Hne. revert i p; induction Hne as [|g gs Hg _ IH]; intros i p Hm Hs Hp Ht; [done|].
  apply Forall_cons in Hm as [Hm1 Hm], Hs as [Hs1 Hs]. cbn in Ht. rewrite total_app in Ht.
  pose proof (total_nonneg _ Hs1). assert (0 ≤ total (concat gs)) by (apply total_nonneg; by apply Forall_concat).
  cbn [indices_from_group fmap list_fmap index_entries].
  destruct g as [|b g]; [done|]. cbn [head]. destruct (last (b :: g)) as [z|] eqn:El; [|by apply last_None in El].
  rewrite group_block_size, sum_sizes_total by (done || lia). rewrite (u64_small (p + total (b :: g))) by int_lia.
  rewrite (IH (S i)) by (done || lia). f_equal. rewrite Hid. unfold group_block. cbn [db_stream_id db_start_offset db_end_offset db_record_count head fmap option_fmap option_map default].
  by rewrite El.
Qed.

(** The stored object is byte for byte what an [ObjectWriter] would store for the groups. *)
Lemma dw_close_bytes id part blocks :
  Forall block_ok blocks → sizes_match blocks → len blocks * 36 < 2 ^ 32 → total blocks + len blocks * 36 + 48 < 2 ^ 64 →
  let groups := group_stream_data_blocks limit_test (limit_new DATA_BLOCK_GROUP_SIZE_THRESHOLD) blocks in
  let out := dw_close (dw_writes (dw_open id part) blocks) in
  out = (object_bytes (group_block <$> groups), len (object_bytes (group_block <$> groups))) ∧ fits (group_block <$> groups).
Proof.
  intros Hok Hm Hn Ht groups out.
  assert (Forall sized blocks) as Hs by (eapply Forall_impl; [exact Hok|apply bo_sized]).
  destruct (group_limit_spec blocks Hok) as [Eg Hg]. fold groups in Eg, Hg.
  assert (len groups ≤ len blocks) as Hlen.
  { rewrite <- Eg. clear -Hg. induction Hg as [|g gs [Hg _] _ IH]; cbn; [done|]. rewrite length_app. destruct g; [done|]. cbn. lia. }
  assert (Forall sizes_match groups) as Hmg by (apply Forall_concat; by rewrite Eg).
  assert (Forall (Forall sized) groups) as Hsg by (apply Forall_concat; by rewrite Eg).
  assert (Forall (λ g, g ≠ []) groups) as Hne by (eapply Forall_impl; [exact Hg|]; by intros g [? _]).
  pose proof (total_nonneg _ Hs).
  assert (fits (group_block <$> groups)) as Hfit.
  { unfold fits. rewrite groups_total, Eg, length_fmap by done. split; [lia|]. split; [lia|]. apply Forall_fmap, Forall_forall.
    intros g Hin. rewrite Forall_forall in Hg. destruct (Hg g Hin) as [_ [p [_ _ _ _ (a & z & Ha & Hl & Hoa & Hz & _) _ Hb]]].
    rewrite Forall_forall in Hmg. cbn. rewrite (group_block_size g (Hmg g Hin)), Ha. cbn.
    pose proof (bo_stream _ Hoa). pose proof (bo_offsets _ Hoa). pose proof (bo_end_u64 _ Hoa). split_and!; [int_lia|int_lia| |done].
    clear. induction g as [|b g IH] using rev_ind; [cbn; int_lia|]. rewrite foldl_app. cbn. apply u32_range. }
  split; [|done]. subst out. unfold dw_close.
  destruct (dw_writes_spec (dw_open id part) blocks Hs) as (_ & Eb & Ec & Ep); [done|cbn; lia|]. cbn in Eb, Ec, Ep.
  rewrite Ec, Ep. fold groups. rewrite len_object_bytes, groups_total, Eg, length_fmap by done.
  assert (build_data_block_indices_from_group groups = index_entries (λ _, -1) 0 0 (group_block <$> groups)) as ->.
  { apply indices_from_group_spec; try done. rewrite Eg. lia. }
  rewrite length_index_entries, length_fmap. unfold BLOCK_INDEX_SIZE, FOOTER_SIZE. rewrite u64_small by int_lia.
  f_equal. rewrite concat_app. cbn. rewrite app_nil_r, app_assoc. fold (dw_bytes (dw_writes (dw_open id part) blocks)).
  rewrite Eb. unfold object_bytes. rewrite len_index_buf, groups_total, Eg, length_fmap by done.
  f_equal. rewrite <- Eg at 1. clear. induction groups as [|g gs IH]; cbn; [done|]. by rewrite fmap_app, concat_app, IH.
Qed.
End Writer.

(** ** The records of the blocks *)

(** The bytes of a block: encoded data blocks, one after the other, whose records lie in
    the block's stream and offset range. *)
Definition content (b : StreamDataBlock) (d : bytes) (rs : list StreamRecordBatch) : Prop :=
  (∃ gs encs, Forall wf_block gs ∧ mapM encode_data_block gs = Some encs ∧ d = concat encs ∧ rs = concat gs)
  ∧ Forall (λ r, stream_id r = bk_stream_id b ∧ bk_start_offset b ≤ base_offset r
                 ∧ base_offset r < last_offset r ∧ last_offset r ≤ bk_end_offset b) rs.

Lemma mapM_app_some {A B} (f : A → option B) l k x y :
  mapM f l = Some x → mapM f k = Some y → mapM f (l ++ k) = Some (x ++ y).
Proof.
  revert x; induction l as [|a l IH]; intros x Hx Hy; cbn in *; [by injection Hx as <-|].
  destruct (f a); cbn in *; [|done]. destruct (mapM f l); cbn in *; [|done]. injection Hx as <-. by rewrite (IH _ eq_refl Hy).
Qed.

(** The groups of blocks that share an index entry. *)
Abbreviation index_groups := (group_stream_data_blocks limit_test (limit_new DATA_BLOCK_GROUP_SIZE_THRESHOLD)).

Section Contents.
Context (data : StreamDataBlock → bytes) (recs : StreamDataBlock → list StreamRecordBatch).

(** Concatenated bytes decode to the concatenated records. *)
Lemma concat_decodes g :
  Forall (λ b, content b (data b) (recs b)) g → decode_data_block (concat (data <$> g)) = Ok (concat (recs <$> g)).
Proof.
  intros H. assert (∃ gs encs, Forall wf_block gs ∧ mapM encode_data_block gs = Some encs
    ∧ concat (data <$> g) = concat encs ∧ concat (recs <$> g) = concat gs) as (gs & encs & Hwf & Hm & -> & ->).
  { induction H as [|b l [(gs & encs & Hwf & Hm & Ed & Er) _] _ (gs' & encs' & Hwf' & Hm' & Ed' & Er')]; [by exists [], []|].
    exists (gs ++ gs'), (encs ++ encs'). split; [by apply Forall_app|]. split; [by apply mapM_app_some|].
    cbn. by rewrite !concat_app, Ed, Er, Ed', Er'. }
  unfold decode_data_block. by apply decode_blocks_concat.
Qed.

(** The records of each index group, under its stream. *)
Definition group_ops (groups : list (list StreamDataBlock)) : list (Z * list StreamRecordBatch) :=
  (λ g, (default 0 (bk_stream_id <$> head g), concat (recs <$> g))) <$> groups.

Lemma group_ops_elem groups b r :
  Forall (λ g, one_stream g) groups → b ∈ concat groups → content b (data b) (recs b) → r ∈ recs b →
  ∃ rs, (stream_id r, rs) ∈ group_ops groups ∧ r ∈ rs.
Proof.
  intros Ho (g & Hg%list_elem_of_In & Hb%list_elem_of_In)%list_elem_of_In%in_concat [_ Hc] Hr.
  exists (concat (recs <$> g)). split.
  - apply list_elem_of_fmap. exists g. split; [|done]. f_equal. rewrite Forall_forall in Hc. destruct (Hc r Hr) as [-> _].
    rewrite Forall_forall in Ho. specialize (Ho g Hg). destruct g as [|a g]; [by apply not_elem_of_nil in Hb|]. cbn.
    apply Ho; [done|left].
  - apply list_elem_of_In, in_concat. exists (recs b). rewrite <- !list_elem_of_In. split; [by apply list_elem_of_fmap_2|done].
Qed.

Context {S : Type} `{!ObjectStorage S} `{!ObjectStorageLaws S}.

(** The ends of a group: one stream, offsets that fit the entry. *)
Definition group_ends (g : list StreamDataBlock) : Prop :=
  ∃ a z, head g = Some a ∧ last g = Some z ∧ block_ok a ∧ block_ok z ∧ bk_stream_id a = bk_stream_id z
    ∧ bk_start_offset a < bk_end_offset z ∧ bk_end_offset z - bk_start_offset a < 2 ^ 32.

(** Groups of blocks in order make entries in order. *)
Lemma groups_sorted groups :
  Forall group_ends groups → StronglySorted before (concat groups) → total_size (group_block data <$> groups) < 2 ^ 64 →
  sorted_index (index_entries Z.of_nat 0 0 (group_block data <$> groups)).
Proof.
  intros Hends Hs Ht. rewrite Forall_forall in Hends. apply index_entries_sorted; [done|..].
  - apply Forall_fmap, Forall_forall. intros g Hin. destruct (Hends g Hin) as (a & z & Ha & Hl & Hoa & Hoz & _ & ? & ?).
    pose proof (bo_offsets _ Hoa). pose proof (bo_end_u64 _ Hoz). unfold offsets_fit, group_block. cbn. rewrite Ha, Hl. cbn. lia.
  - clear -Hs Hends. induction groups as [|g gs IH]; cbn; [constructor|].
    cbn in Hs. apply StronglySorted_app in Hs as (Hx & _ & Hs). constructor; [apply IH; [intros; apply Hends; by right|done]|].
    apply Forall_fmap, Forall_forall. intros g' Hg'. destruct (Hends g) as (a & z & Ha & Hl & _ & _ & Es & _); [left|].
    destruct (Hends g') as (a' & z' & Ha' & _); [by right|]. unfold blk_before, group_block. cbn. rewrite Ha, Hl, Ha'. cbn.
    assert (before z a') as Hb.
    { apply Hx; [by apply last_Some_elem_of|]. apply list_elem_of_In, in_concat. exists g'. rewrite <- !list_elem_of_In.
      split; [done|by apply head_Some_elem_of]. }
    unfold before in Hb. lia.
  - apply Forall_fmap, Forall_forall. intros g Hin. destruct (Hends g Hin) as (a & z & Ha & Hl & _ & _ & _ & ? & _).
    unfold group_block. cbn. by rewrite Ha, Hl.
Qed.

Lemma groups_before blocks :
  Forall block_ok blocks → sizes_match data blocks → StronglySorted before blocks →
  total blocks + len blocks * 36 + 48 < 2 ^ 64 →
  sorted_index (index_entries Z.of_nat 0 0 (group_block data <$> index_groups blocks)).
Proof.
  intros Hok Hm Hs Ht. destruct (group_limit_spec blocks Hok) as [Eg Hg]. set (groups := index_groups blocks) in *.
  apply groups_sorted; [|by rewrite Eg|rewrite groups_total, Eg; [lia|]; apply Forall_concat; by rewrite Eg].
  eapply Forall_impl; [exact Hg|]. intros g [Hne [p [Ho _ _ _ (a & z & Ha & Hl & ? & ? & ? & _ & _ & _ & ?) _ _]]].
  exists a, z. split_and!; try done. apply Ho; [by apply head_Some_elem_of|by apply last_Some_elem_of].
Qed.

(** The object of some groups reads back to their records. *)
Lemma groups_reads (s : S) now key groups :
  fits (group_block data <$> groups) → Forall (λ b, content b (data b) (recs b)) (concat groups) →
  let bytes := object_bytes (group_block data <$> groups) in
  object_reads (os_write s now key bytes) key (len bytes) (index_entries Z.of_nat 0 0 (group_block data <$> groups))
    (group_ops groups).
Proof.
  intros Hfit Hc bytes. subst bytes. split; [eexists; by apply basic_object_info_written|].
  exists (group_ops groups). split; [done|]. split; [unfold group_ops; by rewrite length_index_entries, !length_fmap|].
  intros i e He. destruct (read_block_written s now key _ i e Hfit He) as (db & Hdb & Es & ->).
  rewrite list_lookup_fmap in Hdb. destruct (groups !! i) as [g|] eqn:Eg'; [|done]. injection Hdb as <-.
  exists (concat (recs <$> g)). split; [unfold group_ops; by rewrite list_lookup_fmap, Eg'; cbn; rewrite Es|].
  cbn. apply concat_decodes. apply Forall_concat in Hc. rewrite Forall_forall in Hc.
  apply Hc. by eapply list_elem_of_lookup_2.
Qed.

(** A rewritten object reads back to the records of its blocks. *)
Lemma dw_object_reads (s : S) now id part blocks :
  Forall block_ok blocks → sizes_match data blocks → Forall (λ b, content b (data b) (recs b)) blocks →
  len blocks * 36 < 2 ^ 32 → total blocks + len blocks * 36 + 48 < 2 ^ 64 →
  ∃ bytes size index,
    dw_finish s now (dw_writes data (dw_open id part) blocks)
      = (os_write s now (object_key id) bytes, (size, os_bucket_id (os_write s now (object_key id) bytes)))
    ∧ object_reads (os_write s now (object_key id) bytes) (object_key id) size index (group_ops (index_groups blocks))
    ∧ (StronglySorted before blocks → sorted_index index).
Proof.
  intros Hok Hm Hc Hn Ht. destruct (dw_close_bytes data id part blocks Hok Hm Hn Ht) as [Ecl Hfit].
  pose proof (groups_before blocks Hok Hm) as Hsort.
  destruct (group_limit_spec blocks Hok) as [Eg Hg]. set (groups := index_groups blocks) in *.
  assert (dw_object_id (dw_writes data (dw_open id part) blocks) = id) as Eid.
  { assert (∀ w, dw_object_id (dw_writes data w blocks) = dw_object_id w) as H; [|by rewrite H].
    clear. induction blocks as [|b l IH]; intros w; [done|]. change (dw_writes data w (b :: l)) with (dw_writes data (dw_write w (mkFetched b (data b))) l). by rewrite IH. }
  exists (object_bytes (group_block data <$> groups)), (len (object_bytes (group_block data <$> groups))),
    (index_entries Z.of_nat 0 0 (group_block data <$> groups)).
  split; [|split; [|auto]].
  - unfold dw_finish. rewrite Ecl, Eid. done.
  - apply groups_reads; [done|by rewrite Eg].
Qed.

Lemma rewritten_record blocks b r :
  Forall block_ok blocks → b ∈ blocks → content b (data b) (recs b) → r ∈ recs b →
  ∃ rs, (stream_id r, rs) ∈ group_ops (index_groups blocks) ∧ r ∈ rs.
Proof.
  intros Hok Hb Hc Hr. destruct (group_limit_spec blocks Hok) as [Eg Hg].
  apply (group_ops_elem _ b r); [|by rewrite Eg|done|done].
  eapply Forall_impl; [exact Hg|]. intros g [_ [p Hp]]. by apply Hp.
Qed.
End Contents.

(** ** Properties *)

(** The compaction reader is equivalent to one range read per block: whatever the
    blocks, in any order, adjacent or not, above or below the batch size, coalescing
    adjacent blocks into one request, reading an oversized block in chunks and slicing
    the responses gives every block exactly the bytes of its own range, in input order,
    and never panics. *)
Theorem coalesced_reads_equal {S : Type} `{!ObjectStorage S} (s : S) md data max blocks :
  stored s (metadata_key md) data → len data < 2 ^ 63 → 0 ≤ max < 2 ^ 63 → Forall (in_object data) blocks →
  read_blocks s md blocks max = Some (read_each s md blocks)
  ∧ read_each s md blocks = Ok (fetched_of data <$> blocks).
Proof.
  intros Hs Hl Hmax Hin. split; [by apply (read_blocks_each s md data)|by apply (read_each_ok s md data)].
Qed.

Definition demo_md : S3ObjectMetadata :=
  {| om_object_id := 7; om_object_type := StreamSet; om_offset_ranges := []; om_object_size := 10;
     om_attributes := 0; om_committed_timestamp_ms := 0; om_data_timestamp_ms := 0 |}.
Definition demo_store : MemoryObjectStorage := os_write (ms_new 0) 0 (object_key 7) [1; 2; 3; 4; 5; 6; 7; 8; 9; 10].

Lemma coalesced_reads_equal_witness :
  read_blocks demo_store demo_md
    [sdb_new 1 0 1 7 0 2 1; sdb_new 1 1 2 7 2 5 1; sdb_new 1 2 3 7 8 2 1] 3
  = Some (Ok [mkFetched (sdb_new 1 0 1 7 0 2 1) [1; 2]; mkFetched (sdb_new 1 1 2 7 2 5 1) [3; 4; 5; 6; 7];
              mkFetched (sdb_new 1 2 3 7 8 2 1) [9; 10]]).
Proof.
  destruct (coalesced_reads_equal demo_store demo_md [1; 2; 3; 4; 5; 6; 7; 8; 9; 10] 3
    [sdb_new 1 0 1 7 0 2 1; sdb_new 1 1 2 7 2 5 1; sdb_new 1 2 3 7 8 2 1]) as [E1 E2].
  - apply stored_written.
  - vm_compute. reflexivity.
  - vm_compute. split; [discriminate|reflexivity].
  - repeat apply Forall_cons_2; [..|apply Forall_nil_2]; vm_compute; intuition discriminate.
  - rewrite E1, E2. reflexivity.
Defined.

(** Rewriting blocks keeps their records: an object written verbatim from fetched
    blocks parses with the object reader, and reading its blocks, each now several source
    blocks long, decodes to exactly the records of the source blocks under their
    streams, in order.  When the blocks come in stream and offset order, the new index is
    in the order the reader's binary search needs. *)
Theorem rewritten_object_roundtrip {S : Type} `{!ObjectStorage S} `{!ObjectStorageLaws S}
    (s : S) now id part blocks data recs :
  Forall block_ok blocks → sizes_match data blocks → Forall (λ b, content b (data b) (recs b)) blocks →
  len blocks * 36 < 2 ^ 32 → total blocks + len blocks * 36 + 48 < 2 ^ 64 →
  let '(s', (size, _)) := dw_finish s now (dw_writes data (dw_open id part) blocks) in
  let groups := group_stream_data_blocks limit_test (limit_new DATA_BLOCK_GROUP_SIZE_THRESHOLD) blocks in
  ∃ index, object_reads s' (object_key id) size index (group_ops recs groups)
    ∧ concat (group_ops recs groups).*2 = concat (recs <$> blocks)
    ∧ (StronglySorted before blocks → sorted_index index).
Proof.
  intros Hok Hm Hc Hn Ht. destruct (dw_object_reads data recs s now id part blocks Hok Hm Hc Hn Ht) as (bytes & size & index & -> & Hr & Hs).
  exists index. split; [done|]. split; [|done]. destruct (group_limit_spec blocks Hok) as [Eg _]. rewrite <- Eg at 2.
  unfold group_ops. rewrite <- list_fmap_compose. clear. induction (group_stream_data_blocks _ _ blocks) as [|g gs IH]; [done|].
  cbn. rewrite fmap_app, concat_app. by f_equal.
Qed.

Definition demo_rec (i : Z) : StreamRecordBatch := new 1 0 i 1 [i].
Definition demo_bytes (i : Z) : bytes := default [] (encode_data_block [demo_rec i]).
Definition demo_block (i : Z) : StreamDataBlock := sdb_new 1 i (i + 1) 9 (i * 100) (len (demo_bytes i)) 1.

Lemma demo_content i : 0 ≤ i < 3 → block_ok (demo_block i) ∧ content (demo_block i) (demo_bytes i) [demo_rec i].
Proof.
  intros Hi. assert (i = 0 ∨ i = 1 ∨ i = 2) as Hi' by lia. clear Hi. split.
  - destruct Hi' as [->|[->| ->]]; constructor; vm_compute; intuition discriminate.
  - split.
    + exists [[demo_rec i]], [demo_bytes i]. split; [|split; [|split]].
      * apply Forall_singleton. split; [done|]. split.
        -- apply Forall_singleton. unfold demo_rec. apply wf_new; [|vm_compute; reflexivity].
           apply Forall_singleton. unfold in_u. lia.
        -- destruct Hi' as [->|[->| ->]]; vm_compute; intuition discriminate.
      * done.
      * cbn [concat]. by rewrite app_nil_r.
      * done.
    + apply Forall_singleton. destruct Hi' as [->|[->| ->]]; vm_compute; intuition discriminate.
Qed.

Lemma rewritten_object_roundtrip_witness :
  ∃ s' size b index ops,
    dw_finish (ms_new 0) 0 (dw_writes (λ b, demo_bytes (bk_start_offset b)) (dw_open 5 0) (demo_block <$> [0; 1; 2])) = (s', (size, b))
    ∧ object_reads s' (object_key 5) size index ops ∧ concat ops.*2 = demo_rec <$> [0; 1; 2].
Proof.
  pose proof (rewritten_object_roundtrip (ms_new 0) 0 5 0 (demo_block <$> [0; 1; 2])
    (λ b, demo_bytes (bk_start_offset b)) (λ b, [demo_rec (bk_start_offset b)])) as H.
  destruct (dw_finish _ _ _) as [s' [size b]]. destruct H as (index & Hr & Ho & _).
  - apply Forall_fmap, Forall_forall. intros i Hi. apply (demo_content i). rewrite !elem_of_cons, elem_of_nil in Hi. destruct Hi as [->|[->|[->|[]]]]; split; (done || reflexivity).
  - apply Forall_fmap, Forall_forall. reflexivity.
  - apply Forall_fmap, Forall_forall. intros i Hi. apply (demo_content i). rewrite !elem_of_cons, elem_of_nil in Hi. destruct Hi as [->|[->|[->|[]]]]; split; (done || reflexivity).
  - vm_compute. reflexivity.
  - vm_compute. reflexivity.
  - eexists s', size, b, index, _. split; [done|]. split; [exact Hr|]. exact Ho.
Defined.
