(* ===== verification/Compaction.v ===== *)
(** * Stream set compaction

    Models [s3stream-core/src/compact/mod.rs]: one round over the node's stream set
    objects, that is reading their indexes, dropping trimmed blocks, splitting old objects
    into per-stream objects, rewriting the others along the plan of [CompactPlan], the
    sanity check and the commits.  The scheduler loop and the read throttle only delay.

    [running k] is what the [k]-th check of the shutdown flag observes.  [None] is a
    panic or exhausted fuel. *)
From S2P Require Import Prelude Collections Codec ObjectStore ObjectFormat ObjectIO Metadata Upload CompactPlan CompactExec.

Record CompactionConfig : Type := {
  cc_compaction_interval_min : Z;
  cc_compaction_cache_size : Z;
  cc_stream_split_size : Z;
  cc_force_split_period_min : Z;
  cc_max_object_num_to_compact : Z;
  cc_max_stream_num_per_stream_set_object : Z;
  cc_max_stream_object_num_per_commit : Z;
  cc_network_bandwidth : Z;
  cc_object_part_size : Z;
}.

Definition config_defaults : CompactionConfig :=
  {| cc_compaction_interval_min := 20; cc_compaction_cache_size := 200 * 1024 * 1024;
     cc_stream_split_size := 8 * 1024 * 1024; cc_force_split_period_min := 120;
     cc_max_object_num_to_compact := 500; cc_max_stream_num_per_stream_set_object := 100000;
     cc_max_stream_object_num_per_commit := 10000; cc_network_bandwidth := 100 * 1024 * 1024;
     cc_object_part_size := 16 * 1024 * 1024 |}.

(** The analyzer [CompactionManager::new] builds. *)
Definition analyzer_of (c : CompactionConfig) : CompactionAnalyzer :=
  mkAnalyzer (cc_compaction_cache_size c) (cc_stream_split_size c) (cc_max_stream_num_per_stream_set_object c)
    (cc_max_stream_object_num_per_commit c).

(** What compaction asks of the metadata plane besides prepare and commit. *)
Class CompactionHost (M : Type) : Type := {
  mgr_get_server_objects : M → result StreamError (list S3ObjectMetadata);
  mgr_get_streams : M → list Z → result StreamError (list StreamMetadata);
}.

#[export] Instance memory_compaction_host : CompactionHost MetadataState := {
  mgr_get_server_objects m := Ok (get_server_objects m);
  mgr_get_streams m ids := Ok (get_streams ids m);
}.

(** Keep the first object of every id. *)
Fixpoint dedup_loop (seen : gset Z) (objects : list S3ObjectMetadata) : list S3ObjectMetadata :=
  match objects with
  | [] => []
  | o :: rest =>
      if bool_decide (om_object_id o ∈ seen) then dedup_loop seen rest
      else o :: dedup_loop ({[om_object_id o]} ∪ seen) rest
  end.
Definition deduplicate_objects_by_id (objects : list S3ObjectMetadata) : list S3ObjectMetadata := dedup_loop ∅ objects.

(** [iter().map(...).collect::<HashMap>()]: later entries win. *)
Definition collect_map {V} (l : list (Z * V)) : gmap Z V := foldl (λ m p, <[p.1 := p.2]> m) ∅ l.

Definition start_offsets (streams : list StreamMetadata) : gmap Z Z :=
  collect_map ((λ s, (sm_stream_id s, sm_start_offset s)) <$> streams).

(** The block's stream exists and is not trimmed past the block. *)
Definition live (starts : gmap Z Z) (b : StreamDataBlock) : bool :=
  match starts !! bk_stream_id b with Some start => start <? bk_end_offset b | None => false end.

Definition filter_invalid_stream_data_blocks (streams : list StreamMetadata) (m : BlockMap) : BlockMap :=
  (λ blocks : list StreamDataBlock, filter (λ b, live (start_offsets streams) b = true) blocks) <$> m.

(** ** The sanity check *)

(** Sorted ranges merge when they touch; [cur] is [out.last_mut()]. *)
Fixpoint merge_sorted (cur : option (Z * Z)) (ranges : list (Z * Z)) : list (Z * Z) :=
  match ranges with
  | [] => match cur with Some r => [r] | None => [] end
  | (start, end_) :: rest =>
      match cur with
      | Some (s, last_end) =>
          if start <=? last_end then merge_sorted (Some (s, Z.max last_end end_)) rest
          else (s, last_end) :: merge_sorted (Some (start, end_)) rest
      | None => merge_sorted (Some (start, end_)) rest
      end
  end.

(** The output ranges of a request, by stream. *)
Definition output_ranges (r : CommitStreamSetObjectRequest) : list (Z * (Z * Z)) :=
  ((λ x, (or_stream_id x, (or_start_offset x, or_end_offset x))) <$> cr_stream_ranges r)
  ++ ((λ o, (so_stream_id o, (so_start_offset o, so_end_offset o))) <$> cr_stream_objects r).

Definition merged_ranges (r : CommitStreamSetObjectRequest) : gmap Z (list (Z * Z)) :=
  (λ l : list (Z * (Z * Z)), merge_sorted None (sort_by pair_le l.*2)) <$> group_by fst (output_ranges r).

Definition block_covered (stream_start : gmap Z Z) (merged : gmap Z (list (Z * Z))) (b : StreamDataBlock) : bool :=
  match stream_start !! bk_stream_id b with
  | None => true
  | Some start =>
      if bk_end_offset b <=? start then true
      else match merged !! bk_stream_id b with
           | None => false
           | Some ranges => existsb (λ r, (r.1 <=? bk_start_offset b) && (bk_end_offset b <=? r.2)) ranges
           end
  end.

Definition is_sanity_check_failed (streams : list StreamMetadata) (m : BlockMap) (r : CommitStreamSetObjectRequest)
  : bool :=
  let merged := merged_ranges r in
  negb (forallb (λ id, match m !! id with
                       | None => true
                       | Some blocks => forallb (block_covered (start_offsets streams) merged) blocks
                       end) (cr_compacted_object_ids r)).

(** [HashMap] of fetched bytes: later entries win. *)
Definition insert_fetched (data : BlockData) (fetched : list FetchedBlock) : BlockData :=
  foldl (λ d f, <[(bk_object_id (fb_block f), bk_start_position (fb_block f)) := fb_data f]> d) data fetched.

Section Rounds.
Context {S M : Type} `{!ObjectStorage S} `{!ObjectManager M} `{!CompactionHost M}.
Context (config : CompactionConfig) (now : Z).

Definition max_batch : Z := Z.min S3_OBJECT_MAX_READ_BATCH (cc_network_bandwidth config).

(** Objects whose index cannot be read are skipped. *)
Definition build_stream_data_block_map (s : S) (objects : list S3ObjectMetadata) : BlockMap :=
  foldl (λ m o, match parse_data_block_index s o with
                | Ok blocks => <[om_object_id o := blocks]> m
                | Err _ => m
                end) ∅ objects.

(** ** Force split *)

(** The groups of one batch and the rest; [first] is [batch.is_empty()]. *)
Fixpoint take_batch (first : bool) (read_size : Z) (groups : list (list StreamDataBlock))
  : option (list (list StreamDataBlock) * list (list StreamDataBlock)) :=
  match groups with
  | [] => Some ([], [])
  | group :: rest =>
      let* a := head group in
      let* z := last group in
      let span := u64 (bk_end_position z - bk_start_position a) in
      if negb first && (cc_compaction_cache_size config <? u64 (read_size + span)) then Some ([], groups)
      else
        let* (batch, rest) := take_batch false (u64 (read_size + span)) rest in
        Some (group :: batch, rest)
  end.

(** The groups of a batch, each into an object of its own, ids from [object_id]. *)
Fixpoint write_groups (s : S) (object_id : Z) (data : BlockData) (batch : list (list StreamDataBlock))
  : option (S * list StreamObject) :=
  match batch with
  | [] => Some (s, [])
  | group :: rest =>
      let* w := write_blocks data (dw_open object_id (cc_object_part_size config)) group in
      let '(s, (size, bucket_id)) := dw_finish s now w in
      let* a := head group in
      let* z := last group in
      let* (s, objects) := write_groups s (u64 (object_id + 1)) data rest in
      Some (s, {| so_object_id := object_id; so_object_size := size; so_stream_id := bk_stream_id a;
                  so_start_offset := bk_start_offset a; so_end_offset := bk_end_offset z;
                  so_attributes := attributes_new bucket_id false false |} :: objects)
  end.

Fixpoint split_loop (fuel : nat) (s : S) (m : M) (metadata : S3ObjectMetadata) (groups : list (list StreamDataBlock))
    (stream_objects : list StreamObject) : option (S * M * result StreamError (list StreamObject)) :=
  match fuel with
  | O => None
  | Datatypes.S fuel =>
      match groups with
      | [] => Some (s, m, Ok stream_objects)
      | _ =>
          let* (batch, rest) := take_batch true 0 groups in
          match batch with
          | [] => Some (s, m, Err SE_Unexpected)
          | _ =>
              match mgr_prepare_object m (len batch) with
              | (m, Err e) => Some (s, m, Err e)
              | (m, Ok object_id) =>
                  let* r := read_blocks s metadata (concat batch) max_batch in
                  match r with
                  | Err e => Some (s, m, Err e)
                  | Ok fetched =>
                      let* (s, objects) := write_groups s object_id (insert_fetched ∅ fetched) batch in
                      split_loop fuel s m metadata rest (stream_objects ++ objects)
                  end
              end
          end
      end
  end.

Definition group_and_split (s : S) (m : M) (metadata : S3ObjectMetadata) (blocks : list StreamDataBlock)
  : option (S * M * result StreamError (list StreamObject)) :=
  let groups := group_stream_data_blocks offset_test offset_new blocks in
  split_loop (Datatypes.S (length groups)) s m metadata groups [].

Definition split_request (metadata : S3ObjectMetadata) (stream_objects : list StreamObject)
  : CommitStreamSetObjectRequest :=
  {| cr_object_id := NOOP_OBJECT_ID; cr_object_size := 0; cr_attributes := 0; cr_stream_ranges := [];
     cr_stream_objects := stream_objects; cr_compacted_object_ids := [om_object_id metadata] |}.

Fixpoint force_split_objects (running : nat → bool) (streams : list StreamMetadata)
    (objects : list S3ObjectMetadata) (block_map : BlockMap) (s : S) (m : M)
  : option (S * M * result StreamError unit) :=
  match objects with
  | [] => Some (s, m, Ok tt)
  | metadata :: rest =>
      if negb (running O) then Some (s, m, Ok tt)
      else
        let running k := running (Datatypes.S k) in
        match block_map !! om_object_id metadata with
        | None => force_split_objects running streams rest block_map s m
        | Some blocks =>
            let* (s, m, r) :=
              match blocks with
              | [] => Some (s, m, Ok [])
              | _ => group_and_split s m metadata blocks
              end in
            match r with
            | Err e => Some (s, m, Err e)
            | Ok stream_objects =>
                let request := split_request metadata stream_objects in
                if is_sanity_check_failed streams block_map request
                then force_split_objects running streams rest block_map s m
                else
                  match mgr_commit m now request with
                  | (m, Err e) => Some (s, m, Err e)
                  | (m, Ok _) => force_split_objects running streams rest block_map s m
                  end
            end
        end
  end.

(** ** Compaction along the plan *)

(** The stage's reads, one reader per source object; a missing object is a panic. *)
Fixpoint stage_reads (s : S) (metadata_by_id : gmap Z S3ObjectMetadata) (sources : list (Z * list StreamDataBlock))
    (data : BlockData) : option (result StreamError BlockData) :=
  match sources with
  | [] => Some (Ok data)
  | (object_id, blocks) :: rest =>
      let* metadata := metadata_by_id !! object_id in
      let* r := read_blocks s metadata blocks max_batch in
      match r with
      | Err e => Some (Err e)
      | Ok fetched => stage_reads s metadata_by_id rest (insert_fetched data fetched)
      end
  end.

(** The uploader, the blocks of the stream set object and the split objects so far. *)
Record Progress : Type := mkProgress {
  pg_uploader : CompactionUploader;
  pg_set_blocks : list StreamDataBlock;
  pg_stream_objects : list StreamObject;
}.

Fixpoint stage_writes (data : BlockData) (objects : list CompactedObject) (p : Progress) (s : S) (m : M)
  : option (Progress * S * M * result StreamError unit) :=
  match objects with
  | [] => Some (p, s, m, Ok tt)
  | compacted :: rest =>
      match co_type compacted with
      | Compact =>
          let* (u, m, r) := write_stream_set_object (pg_uploader p) compacted data m in
          let p := mkProgress u (pg_set_blocks p ++ co_blocks compacted) (pg_stream_objects p) in
          match r with
          | Err e => Some (p, s, m, Err e)
          | Ok _ => stage_writes data rest p s m
          end
      | Split =>
          let* (s, m, r) := write_split_object (pg_uploader p) now compacted data s m in
          match r with
          | Err e => Some (p, s, m, Err e)
          | Ok so =>
              let sos := match so with Some so => [so] | None => [] end in
              stage_writes data rest (mkProgress (pg_uploader p) (pg_set_blocks p) (pg_stream_objects p ++ sos)) s m
          end
      end
  end.

(** The stages; [Ok false] when the shutdown flag stopped them. *)
Fixpoint run_stages (running : nat → bool) (metadata_by_id : gmap Z S3ObjectMetadata) (plans : list CompactionPlan)
    (p : Progress) (s : S) (m : M) : option (Progress * S * M * result StreamError bool) :=
  match plans with
  | [] => Some (p, s, m, Ok true)
  | plan :: rest =>
      if negb (running O)
      then Some (mkProgress (release (pg_uploader p)) (pg_set_blocks p) (pg_stream_objects p), s, m, Ok false)
      else
        let* r := stage_reads s metadata_by_id (entries (cp_blocks_map plan)) ∅ in
        match r with
        | Err e => Some (p, s, m, Err e)
        | Ok data =>
            let* (p, s, m, r) := stage_writes data (cp_compacted_objects plan) p s m in
            match r with
            | Err e => Some (p, s, m, Err e)
            | Ok _ => run_stages (λ k, running (Datatypes.S k)) metadata_by_id rest p s m
            end
        end
  end.

(** [if !v.contains(&x) { v.push(x) }] over a list. *)
Definition push_new (l : list Z) (x : Z) : list Z := if bool_decide (x ∈ l) then l else l ++ [x].

(** The ids of the plans' source blocks, then those of the objects left without blocks. *)
Definition compacted_ids (plans : list CompactionPlan) (to_compact : BlockMap) : list Z :=
  let from_plans :=
    foldl push_new [] (bk_object_id <$> concat ((λ p, concat (values (cp_blocks_map p))) <$> plans)) in
  foldl push_new from_plans
    (fst <$> filter (λ p : Z * list StreamDataBlock, p.2 = []) (map_to_list to_compact)).

Definition newest_first (a b : S3ObjectMetadata) : bool := om_data_timestamp_ms b <=? om_data_timestamp_ms a.

Definition id_le (a b : Z) : bool := a <=? b.

Definition compact_round (running : nat → bool) (streams : list StreamMetadata) (objects : list S3ObjectMetadata)
    (block_map : BlockMap) (s : S) (m : M) : option (S * M * result StreamError bool) :=
  match objects with
  | [] => Some (s, m, Ok false)
  | _ =>
      let objects := sort_by newest_first objects in
      let has_remaining := cc_max_object_num_to_compact config <? len objects in
      let objects := if has_remaining then takeZ (cc_max_object_num_to_compact config) objects else objects in
      let to_compact :=
        foldl (λ acc o, match block_map !! om_object_id o with
                        | Some blocks => <[om_object_id o := blocks]> acc
                        | None => acc
                        end) ∅ objects in
      let* (plans, excluded) := analyze (analyzer_of config) to_compact ∅ in
      let objects := filter (λ o, om_object_id o ∉ excluded) objects in
      let* (s, m, r) :=
        match plans with
        | [] => Some (s, m, Ok (Some (0, NOOP_OBJECT_ID, 0, [], [])))
        | _ =>
            let metadata_by_id := collect_map ((λ o, (om_object_id o, o)) <$> objects) in
            let* (p, s, m, r) :=
              run_stages running metadata_by_id plans
                (mkProgress (uploader_new (cc_object_part_size config)) [] []) s m in
            match r with
            | Err e => Some (s, m, Err e)
            | Ok false => Some (s, m, Ok None)
            | Ok true =>
                let groups := group_stream_data_blocks offset_test offset_new (pg_set_blocks p) in
                let '(s, u, size) := complete (pg_uploader p) now s in
                Some (s, m, Ok (Some (size, default NOOP_OBJECT_ID (cu_stream_set_object_id u),
                                      attributes_new (cu_bucket_id u) false false,
                                      build_object_stream_ranges_from_group groups, pg_stream_objects p)))
            end
        end in
      match r with
      | Err e => Some (s, m, Err e)
      | Ok None => Some (s, m, Ok false)
      | Ok (Some (size, id, attributes, ranges, stream_objects)) =>
          let ids := compacted_ids plans to_compact in
          match ids with
          | [] => Some (s, m, Ok has_remaining)
          | _ =>
              let request :=
                {| cr_object_id := id; cr_object_size := size; cr_attributes := attributes;
                   cr_stream_ranges := ranges; cr_stream_objects := stream_objects;
                   cr_compacted_object_ids := sort_by id_le ids |} in
              if is_sanity_check_failed streams block_map request then Some (s, m, Ok has_remaining)
              else
                match mgr_commit m now request with
                | (m, Err e) => Some (s, m, Err e)
                | (m, Ok _) => Some (s, m, Ok has_remaining)
                end
          end
      end
  end.

(** ** One round *)

(** [i64::saturating_sub] *)
Definition sat_sub_i64 (a b : Z) : Z := Z.max (- 2 ^ 63) (Z.min (2 ^ 63 - 1) (a - b)).

Definition stream_ids_of (m : BlockMap) : list Z := foldl push_new [] (bk_stream_id <$> map_blocks m).

(** [running] gives the flag's values for the splits, [running'] for the stages. *)
Definition compact_once (running running' : nat → bool) (s : S) (m : M)
  : option (S * M * result StreamError bool) :=
  match mgr_get_server_objects m with
  | Err e => Some (s, m, Err e)
  | Ok [] => Some (s, m, Ok false)
  | Ok objects =>
      let objects := deduplicate_objects_by_id objects in
      let block_map := build_stream_data_block_map s objects in
      if existsb (λ b, cc_compaction_cache_size config <? bk_size b) (map_blocks block_map)
      then Some (s, m, Err SE_Unexpected)
      else
        match mgr_get_streams m (stream_ids_of block_map) with
        | Err e => Some (s, m, Err e)
        | Ok streams =>
            let block_map := filter_invalid_stream_data_blocks streams block_map in
            let force_split_before :=
              sat_sub_i64 now (i64 (i64 (i64 (cc_force_split_period_min config) * 60) * 1000)) in
            let to_force_split := filter (λ o, om_data_timestamp_ms o ≤ force_split_before) objects in
            let to_compact := filter (λ o, ¬ (om_data_timestamp_ms o ≤ force_split_before)) objects in
            let* (s, m, r) := force_split_objects running streams to_force_split block_map s m in
            match r with
            | Err e => Some (s, m, Err e)
            | Ok _ => compact_round running' streams to_compact block_map s m
            end
        end
  end.

(** Sorting and [dedup] of the stream ids: the set in order. *)
Definition force_split_all (running : nat → bool) (s : S) (m : M) : option (S * M * result StreamError unit) :=
  match mgr_get_server_objects m with
  | Err e => Some (s, m, Err e)
  | Ok [] => Some (s, m, Ok tt)
  | Ok objects =>
      let objects := deduplicate_objects_by_id objects in
      let block_map := build_stream_data_block_map s objects in
      match mgr_get_streams m (sort_by id_le (elements (list_to_set (bk_stream_id <$> map_blocks block_map) : gset Z))) with
      | Err e => Some (s, m, Err e)
      | Ok streams =>
          force_split_objects running streams objects (filter_invalid_stream_data_blocks streams block_map) s m
      end
  end.
End Rounds.

(** ** The sanity check is sound *)

Lemma merge_sorted_sound cur ranges p x :
  p ∈ merge_sorted cur ranges → p.1 ≤ x < p.2 →
  ∃ q, (cur = Some q ∨ q ∈ ranges) ∧ q.1 ≤ x < q.2.
Proof.
  revert cur; induction ranges as [|[s e] rest IH]; intros cur Hp Hx; cbn in Hp.
  - destruct cur as [q|]; [|by apply not_elem_of_nil in Hp]. apply list_elem_of_singleton in Hp as ->. exists q. by auto.
  - destruct cur as [[s0 e0]|].
    + destruct (s <=? e0) eqn:E.
      * destruct (IH _ Hp Hx) as (q & [[= <-]|Hq] & Hin); cbn in Hin; [|exists q; split; [right; by right|done]].
        destruct (decide (x < e0)); [exists (s0, e0); split; [by left|cbn; lia]|].
        exists (s, e). split; [right; left|cbn; lia].
      * apply elem_of_cons in Hp as [->|Hp]; [exists (s0, e0); by auto|].
        destruct (IH _ Hp Hx) as (q & [[= <-]|Hq] & Hin); [exists (s, e); split; [right; left|done]|exists q; split; [right; by right|done]].
    + destruct (IH _ Hp Hx) as (q & [[= <-]|Hq] & Hin); [exists (s, e); split; [right; left|done]|exists q; split; [right; by right|done]].
Qed.

Lemma merged_ranges_sound r st ranges p x :
  merged_ranges r !! st = Some ranges → p ∈ ranges → p.1 ≤ x < p.2 →
  ∃ q, (st, q) ∈ output_ranges r ∧ q.1 ≤ x < q.2.
Proof.
  unfold merged_ranges. rewrite lookup_fmap_Some. intros (l & <- & Hl) Hp Hx. apply group_by_Some in Hl as [-> _].
  destruct (merge_sorted_sound _ _ _ _ Hp Hx) as (q & [?|Hq] & Hin); [done|]. exists q. split; [|done].
  apply elem_of_sort_by, list_elem_of_fmap in Hq as ([st' q'] & -> & Hq). by apply list_elem_of_filter in Hq as [[= ->] Hq].
Qed.

(** A compaction request that passes the sanity check loses nothing: every offset of
    every untrimmed block of a compacted object, in a stream that exists, lies in an
    output range of the request, be it of the new stream set object or of a stream
    object. *)
Theorem sanity_check_sound streams m r id blocks b start x :
  is_sanity_check_failed streams m r = false → id ∈ cr_compacted_object_ids r → m !! id = Some blocks → b ∈ blocks →
  start_offsets streams !! bk_stream_id b = Some start → start < bk_end_offset b →
  bk_start_offset b ≤ x < bk_end_offset b →
  ∃ s e, (bk_stream_id b, (s, e)) ∈ output_ranges r ∧ s ≤ x < e.
Proof.
  unfold is_sanity_check_failed. rewrite negb_false_iff, forallb_forall. intros Hc Hid%list_elem_of_In Hm Hb Hs Hlt Hx.
  specialize (Hc id Hid). rewrite Hm, forallb_forall in Hc. apply list_elem_of_In in Hb. specialize (Hc b Hb).
  unfold block_covered in Hc. rewrite Hs in Hc. destruct (_ <=? start) eqn:E; [lia|].
  destruct (merged_ranges r !! bk_stream_id b) as [ranges|] eqn:Em; [|done].
  apply existsb_exists in Hc as (p & Hp%list_elem_of_In & Hc%andb_true_iff).
  destruct (merged_ranges_sound r _ _ _ x Em Hp) as ([s e] & Hin & Hq); [lia|]. by exists s, e.
Qed.

Definition demo_request : CommitStreamSetObjectRequest :=
  {| cr_object_id := 9; cr_object_size := 0; cr_attributes := 0;
     cr_stream_ranges := [ {| or_stream_id := 1; or_epoch := 0; or_start_offset := 5; or_end_offset := 9; or_size := 0 |} ];
     cr_stream_objects := [ {| so_object_id := 8; so_object_size := 0; so_stream_id := 1; so_start_offset := 0;
                               so_end_offset := 5; so_attributes := 0 |} ];
     cr_compacted_object_ids := [3] |}.

Lemma sanity_check_sound_witness :
  ∃ s e, (1, (s, e)) ∈ output_ranges demo_request ∧ s ≤ 6 < e.
Proof.
  apply (sanity_check_sound [mkStream 1 0 2 9 StreamOpened 0] (<[3 := [sdb_new 1 2 8 3 0 10 6]]> ∅) demo_request 3
    [sdb_new 1 2 8 3 0 10 6] (sdb_new 1 2 8 3 0 10 6) 2 6).
  - vm_compute. reflexivity.
  - left.
  - reflexivity.
  - left.
  - reflexivity.
  - vm_compute. reflexivity.
  - vm_compute. split; [discriminate|reflexivity].
Defined.
