(* ===== verification/CompactionSafety.v ===== *)
(** * Compaction keeps every live record

    Proofs about one round of [Compaction] against the in-memory metadata plane: whatever
    the round does, splits, rewrites, stops at a shutdown, gives up at the sanity check,
    a record of an untrimmed block stays readable. *)
From S2P Require Import Prelude Collections Codec ObjectStore ObjectFormat ObjectIO Metadata Upload CompactPlan CompactExec Compaction StorageDurable.

(** ** Runs of blocks *)

Lemma chain_bounds g a z b :
  one_stream g → chained g → Forall block_ok g → head g = Some a → last g = Some z → b ∈ g →
  bk_stream_id b = bk_stream_id a ∧ bk_start_offset a ≤ bk_start_offset b ∧ bk_end_offset b ≤ bk_end_offset z.
Proof.
  intros Ho Hc Hok Ha Hz Hb. split; [apply Ho; [done|by apply head_Some_elem_of]|].
  assert (∀ i x j y, g !! i = Some x → g !! j = Some y → (i ≤ j)%nat →
    bk_start_offset x ≤ bk_start_offset y ∧ bk_end_offset x ≤ bk_end_offset y) as Hmono.
  { intros i x j. induction j as [|j IH]; intros y Hi Hj Hij.
    - assert (i = 0%nat) as -> by lia. rewrite Hi in Hj. injection Hj as <-. lia.
    - destruct (decide (i = S j)) as [->|Hne]; [rewrite Hi in Hj; injection Hj as <-; lia|].
      destruct (lookup_lt_is_Some_2 g j) as [w Hw]; [apply lookup_lt_Some in Hj; lia|].
      destruct (IH w Hi Hw ltac:(lia)) as [? ?].
      assert (bk_end_offset w = bk_start_offset y) as E.
      { eapply Hc; [done..|]. apply Ho; by eapply list_elem_of_lookup_2. }
      rewrite Forall_lookup in Hok. pose proof (bo_offsets _ (Hok _ _ Hj)). pose proof (bo_offsets _ (Hok _ _ Hw)). lia. }
  apply list_elem_of_lookup in Hb as [i Hi]. rewrite head_lookup in Ha. rewrite last_lookup in Hz.
  destruct (Hmono _ _ _ _ Ha Hi ltac:(lia)) as [? _].
  destruct (Hmono _ _ _ _ Hi Hz) as [_ ?]; [apply lookup_lt_Some in Hi; lia|]. lia.
Qed.

Section Safety.
Context {S : Type} `{!ObjectStorage S} `{!ObjectStorageLaws S}.
(** The bytes and records of the blocks of the round. *)
Context (data : StreamDataBlock → bytes) (recs : StreamDataBlock → list StreamRecordBatch).

(** ** Growth: new ids, new objects, nothing else *)

Record grows (s : S) (m : MetadataState) (s' : S) (m' : MetadataState) : Prop := {
  gr_set : ms_stream_set_objects m' = ms_stream_set_objects m;
  gr_objects : ms_stream_objects m' = ms_stream_objects m;
  gr_ok : manager_ok m → manager_ok m';
  gr_alloc : ms_object_id_alloc m ≤ ms_object_id_alloc m';
  gr_reads id a b : 0 ≤ id < ms_object_id_alloc m →
    os_range_read s' (object_key id) a b = os_range_read s (object_key id) a b;
}.

Lemma grows_refl s m : grows s m s m.
Proof. by constructor. Qed.

Lemma grows_trans s m s1 m1 s2 m2 : grows s m s1 m1 → grows s1 m1 s2 m2 → grows s m s2 m2.
Proof.
  intros [A1 A2 A3 A4 A5] [B1 B2 B3 B4 B5]. constructor; [congruence|congruence|auto|lia|].
  intros id a b Hid. rewrite B5 by lia. by apply A5.
Qed.

Lemma grows_prepare s m n :
  0 ≤ n → 0 ≤ ms_object_id_alloc m → ms_object_id_alloc m + n < 2 ^ 64 →
  grows s m s (prepare_object n m).1 ∧ ms_object_id_alloc (prepare_object n m).1 = ms_object_id_alloc m + n.
Proof.
  intros Hn Hm Hlt. assert (ms_object_id_alloc (prepare_object n m).1 = ms_object_id_alloc m + n) as E by (apply u64_small; int_lia).
  split; [|done]. constructor; try done; [|lia]. intros Hok. apply (mstep_ok m _ (ms_prepare m n) Hok).
Qed.

Lemma grows_write s m s' m' now id d :
  grows s m s' m' → ms_object_id_alloc m ≤ id < 2 ^ 64 → grows s m (os_write s' now (object_key id) d) m'.
Proof.
  intros [A1 A2 A3 A4 A5] Hid. constructor; try done. intros id' a b Hid'. rewrite os_write_other; [by apply A5|].
  intros E. apply object_key_inj in E; [lia|int_lia|int_lia].
Qed.

(** Reads only go through range reads. *)
Lemma basic_info_same (s s' : S) key size :
  (∀ a b, os_range_read s' key a b = os_range_read s key a b) → basic_object_info s' key size = basic_object_info s key size.
Proof.
  intros He. unfold basic_object_info. destruct (_ <? _); [done|]. rewrite He.
  destruct (os_range_read s key _ _); [|done]. destruct (negb _); [done|]. destruct (negb _); [done|]. destruct (negb _); [done|].
  by rewrite He.
Qed.

Lemma object_reads_same (s s' : S) key size index ops :
  (∀ a b, os_range_read s' key a b = os_range_read s key a b) → object_reads s key size index ops → object_reads s' key size index ops.
Proof.
  intros He [[n Hi] Hg]. split.
  - exists n. rewrite <- Hi. by apply basic_info_same.
  - unfold read_block in *. destruct Hg as (groups & Ht & Hl & Hg). exists groups. split_and!; [done|done|].
    intros i e Hi'. destruct (Hg i e Hi') as (g & Hgr & Hd). exists g. split; [done|]. by rewrite He.
Qed.

Lemma stored_same (s s' : S) key d :
  (∀ a b, os_range_read s' key a b = os_range_read s key a b) → stored s key d → stored s' key d.
Proof. intros He Hs a b Ha Hb. rewrite He. by apply Hs. Qed.

(** ** Found records *)

(** The record lies in a registered range of an object that reads back to it. *)
Definition found_in (s : S) (o : S3ObjectMetadata) (st e : Z) (r : StreamRecordBatch) : Prop :=
  st ≤ base_offset r ∧ base_offset r < last_offset r ∧ last_offset r ≤ e
  ∧ ∃ index ops rs, object_reads s (object_key (om_object_id o)) (om_object_size o) index ops
      ∧ (stream_id r, rs) ∈ ops ∧ r ∈ rs.

Definition found (s : S) (m : MetadataState) (r : StreamRecordBatch) : Prop :=
  ∃ st e o, registered m (stream_id r) st e o ∧ found_in s o st e r.

Lemma found_readable s m r : manager_ok m → found s m r → record_readable s m r.
Proof.
  intros Hm (st & e & o & Hreg & ? & ? & ? & index & ops & rs & Hr & Hin & Hrs).
  destruct (get_objects_spec m (stream_id r) (base_offset r) (last_offset r) Hm) as (l & El & _ & Hl).
  exists l, st, o, index, ops, rs. split; [done|]. split; [|done]. apply Hl. apply registered_covering with e; [done|lia|lia].
Qed.

Lemma found_in_grows s m s' m' o st e r :
  grows s m s' m' → 0 ≤ om_object_id o < ms_object_id_alloc m → found_in s o st e r → found_in s' o st e r.
Proof.
  intros Hg Hid (? & ? & ? & index & ops & rs & Hr & ? & ?). split; [done|]. split; [done|]. split; [done|].
  exists index, ops, rs. split; [|done]. eapply object_reads_same; [|exact Hr]. intros a b. by apply (gr_reads _ _ _ _ Hg).
Qed.

(** ** A new stream object *)

Definition blocks_good (l : list StreamDataBlock) : Prop :=
  Forall block_ok l ∧ sizes_match data l ∧ Forall (λ b, content b (data b) (recs b)) l.

Lemma blocks_good_sub l k : (∀ b, b ∈ k → b ∈ l) → blocks_good l → blocks_good k.
Proof. intros Hs (A & B & C). unfold blocks_good, sizes_match in *. rewrite !Forall_forall in *. auto. Qed.

(** Sizes that fit one object. *)
Definition small (l : list StreamDataBlock) : Prop := len l * 36 < 2 ^ 32 ∧ total l + len l * 36 + 48 < 2 ^ 64.

Lemma small_sub l k : k ⊆+ l → Forall sized l → small l → small k.
Proof.
  intros Hs Hf [A B]. pose proof (submseteq_length _ _ Hs). pose proof (total_submseteq _ _ Hs Hf). split; lia.
Qed.

(** [so] describes the run [g], stored under its id. *)
Record so_desc (s : S) (g : list StreamDataBlock) (so : StreamObject) : Prop := {
  sd_start : ∃ a, head g = Some a ∧ so_stream_id so = bk_stream_id a ∧ so_start_offset so = bk_start_offset a;
  sd_end : ∃ z, last g = Some z ∧ so_end_offset so = bk_end_offset z;
  sd_reads : ∃ index, object_reads s (object_key (so_object_id so)) (so_object_size so) index
               (group_ops recs (index_groups g));
}.

Lemma so_desc_same s s' g so :
  (∀ a b, os_range_read s' (object_key (so_object_id so)) a b = os_range_read s (object_key (so_object_id so)) a b) →
  so_desc s g so → so_desc s' g so.
Proof. intros He [A B [index C]]. constructor; [done..|]. exists index. by eapply object_reads_same. Qed.

(** The run's records lie in the object's range. *)
Lemma so_desc_found s g so now b r :
  blocks_good g → one_stream g → chained g → so_desc s g so → b ∈ g → r ∈ recs b →
  stream_id r = so_stream_id so ∧ found_in s (so_meta now so) (so_start_offset so) (so_end_offset so) r.
Proof.
  intros (Hok & Hm & Hc) Ho Hch [(a & Ha & Es & Est) (z & Hz & Ee) [index Hr]] Hb Hrb.
  destruct (chain_bounds g a z b Ho Hch Hok Ha Hz Hb) as (Eb & H1 & H2).
  rewrite Forall_forall in Hc. pose proof (Hc b Hb) as Hcb. pose proof Hcb as [_ Hrs]. rewrite Forall_forall in Hrs.
  destruct (Hrs r Hrb) as (Er & ? & ? & ?). split; [congruence|]. split; [lia|]. split; [done|]. split; [lia|].
  destruct (rewritten_record data recs g b r Hok Hb Hcb Hrb) as (rs & ? & ?). exists index, (group_ops recs (index_groups g)), rs. done.
Qed.

(** ** Source objects *)

Record source (s : S) (o : S3ObjectMetadata) (blocks : list StreamDataBlock) : Prop := {
  sr_ids : Forall (λ b, bk_object_id b = om_object_id o) blocks;
  sr_parse : parse_data_block_index s o = Ok blocks;
  sr_bytes : ∃ d, stored s (metadata_key o) d ∧ len d < 2 ^ 63
    ∧ Forall (λ b, in_object d b ∧ block_bytes d b = data b) blocks;
  sr_good : blocks_good blocks;
  sr_ranges b r : b ∈ blocks → r ∈ recs b →
    ∃ x, x ∈ om_offset_ranges o ∧ sr_stream_id x = stream_id r ∧ sr_start_offset x ≤ base_offset r
      ∧ last_offset r ≤ sr_end_offset x;
}.

Lemma source_same s s' o blocks :
  (∀ a b, os_range_read s' (metadata_key o) a b = os_range_read s (metadata_key o) a b) → source s o blocks → source s' o blocks.
Proof.
  intros He [A B (d & Hd & Hl & Hf) C D]. constructor; [done| |exists d; split; [by eapply stored_same|done]|done|done].
  rewrite <- B. unfold parse_data_block_index. by rewrite (basic_info_same s s').
Qed.

Lemma source_grows s m s' m' o blocks :
  grows s m s' m' → 0 ≤ om_object_id o < ms_object_id_alloc m → source s o blocks → source s' o blocks.
Proof. intros Hg Hid. apply source_same. intros a b. by apply (gr_reads _ _ _ _ Hg). Qed.

(** The reader gives each block its bytes. *)
Lemma source_reads s o blocks l max :
  source s o blocks → (∀ b, b ∈ l → b ∈ blocks) → 0 ≤ max < 2 ^ 63 →
  read_blocks s o l max = Some (Ok ((λ b, mkFetched b (data b)) <$> l)).
Proof.
  intros [_ _ (d & Hd & Hl & Hf) _ _] Hsub Hmax. rewrite Forall_forall in Hf.
  assert (Forall (in_object d) l) as Hin by (apply Forall_forall; intros b Hb; by apply Hf, Hsub).
  rewrite (read_blocks_each s o d Hd Hl max l Hmax Hin), (read_each_ok s o d Hd Hl l Hin). do 2 f_equal.
  apply list_fmap_ext. intros i b Hb%list_elem_of_lookup_2. unfold fetched_of. by rewrite (proj2 (Hf b (Hsub b Hb))).
Qed.

(** A record of a source is found in any range around it. *)
Lemma source_found_in s o blocks b r lo hi :
  source s o blocks → b ∈ blocks → r ∈ recs b → lo ≤ base_offset r → last_offset r ≤ hi → found_in s o lo hi r.
Proof.
  intros [A B (d & Hd & Hl & Hf) (Hok & Hsz & Hc) D] Hb Hr H1 H2.
  rewrite Forall_forall in Hc. pose proof (Hc b Hb) as [_ Hrs]. rewrite Forall_forall in Hrs. destruct (Hrs r Hr) as (Er & _ & Hspan & _).
  split; [done|]. split; [done|]. split; [done|].
  unfold parse_data_block_index in B. destruct (basic_object_info s (metadata_key o) (om_object_size o)) as [[n ix]|] eqn:Ei; [|done].
  cbn in B. injection B as Eb. cbn in Eb.
  exists ix, ((λ b, (bk_stream_id b, recs b)) <$> blocks), (recs b). split; [|split; [|done]].
  - split; [by exists n|]. exists ((λ b, (bk_stream_id b, recs b)) <$> blocks). split; [done|].
    split; [by rewrite <- Eb, !length_fmap|]. intros i e He.
    assert (blocks !! i = Some (mkBlock (om_object_id o) e)) as Hi by (rewrite <- Eb; apply list_lookup_fmap_Some; by exists e).
    exists (recs (mkBlock (om_object_id o) e)). split; [by rewrite list_lookup_fmap, Hi|].
    apply list_elem_of_lookup_2 in Hi. rewrite Forall_forall in Hf. destruct (Hf _ Hi) as [Hin Ed].
    unfold read_block. change (bi_end_position e) with (bk_end_position (mkBlock (om_object_id o) e)).
    rewrite (end_position d Hl) by done. change (bi_start_position e) with (bk_start_position (mkBlock (om_object_id o) e)).
    destruct Hin as (? & ? & ?). rewrite (Hd (bk_start_position (mkBlock (om_object_id o) e))) by lia.
    change (slice _ _ d) with (block_bytes d (mkBlock (om_object_id o) e)). rewrite Ed.
    pose proof (concat_decodes data recs [mkBlock (om_object_id o) e]) as Hdec. cbn in Hdec. rewrite !app_nil_r in Hdec.
    apply Hdec. apply Forall_singleton. by apply Hc.
  - rewrite Er. by apply (list_elem_of_fmap_2 (λ b, (bk_stream_id b, recs b))).
Qed.

Lemma source_found s m o blocks b r :
  source s o blocks → ms_stream_set_objects m !! om_object_id o = Some o → b ∈ blocks → r ∈ recs b → found s m r.
Proof.
  intros Hs Hm Hb Hr. destruct (sr_ranges _ _ _ Hs b r Hb Hr) as (x & Hx & Es & H1 & H2).
  exists (sr_start_offset x), (sr_end_offset x), o. split; [left; exists (om_object_id o), x; by rewrite <- Es|].
  by eapply source_found_in.
Qed.

(** ** Fetched bytes *)

(** Blocks are told apart by source object and position. *)
Definition pos_inj (l : list StreamDataBlock) : Prop :=
  ∀ b c, b ∈ l → c ∈ l → bk_object_id b = bk_object_id c → bk_start_position b = bk_start_position c → b = c.

Definition has_data (dm : BlockData) (b : StreamDataBlock) : Prop := data_of dm b = Some (data b).

Lemma insert_fetched_ok U dm l b :
  pos_inj U → (∀ c, c ∈ l → c ∈ U) → b ∈ U → has_data dm b ∨ b ∈ l →
  has_data (insert_fetched dm ((λ b, mkFetched b (data b)) <$> l)) b.
Proof.
  intros Hinj. revert dm; induction l as [|c l IH]; intros dm Hsub Hb Hor.
  { destruct Hor as [?|?%not_elem_of_nil]; done. }
  change (insert_fetched dm _) with (insert_fetched (<[(bk_object_id c, bk_start_position c) := data c]> dm) ((λ b, mkFetched b (data b)) <$> l)).
  apply IH; [intros; apply Hsub; by right|done|]. unfold has_data, data_of in *.
  destruct (decide ((bk_object_id c, bk_start_position c) = (bk_object_id b, bk_start_position b))) as [E|Hne].
  - injection E as E1 E2. assert (c = b) as -> by (apply Hinj; [apply Hsub; left|done..]). left. by rewrite lookup_insert_eq.
  - destruct Hor as [H|[->|H]%elem_of_cons]; [left; by rewrite lookup_insert_ne|done|by right].
Qed.

(** ** Writing runs *)

Lemma write_run (s : S) now part id dm g :
  blocks_good g → small g → g ≠ [] → Forall (has_data dm) g →
  ∃ w d size bucket, write_blocks dm (dw_open id part) g = Some w
    ∧ dw_finish s now w = (os_write s now (object_key id) d, (size, bucket))
    ∧ ∃ index, object_reads (os_write s now (object_key id) d) (object_key id) size index (group_ops recs (index_groups g)).
Proof.
  intros (Hok & Hm & Hc) [Hn Ht] Hne Hd.
  destruct (dw_object_reads data recs s now id part g Hok Hm Hc Hn Ht) as (d & size & index & E & Hr & _).
  eexists _, d, size, _. split; [by apply (write_blocks_ok data)|]. split; [exact E|]. by exists index.
Qed.

Definition run (g : list StreamDataBlock) : Prop := g ≠ [] ∧ one_stream g ∧ chained g.

Lemma write_groups_spec config now s m id dm batch :
  Forall run batch → Forall blocks_good batch → Forall small batch → Forall (Forall (has_data dm)) batch →
  ms_object_id_alloc m ≤ id → 0 ≤ id → id + len batch < 2 ^ 64 →
  ∃ s' sos, write_groups config now s id dm batch = Some (s', sos)
    ∧ (∀ s0 m', grows s0 m s m' → grows s0 m s' m')
    ∧ (∀ id' a b, 0 ≤ id' < id → os_range_read s' (object_key id') a b = os_range_read s (object_key id') a b)
    ∧ Forall2 (λ g so, so_desc s' g so ∧ id ≤ so_object_id so < id + len batch) batch sos.
Proof.
  intros Hrun. revert s id; induction Hrun as [|g batch Hg _ IH]; intros s id Hgood Hsm Hd Hm Hid Hlt.
  { exists s, []. split; [done|]. split; [done|]. split; [done|]. constructor. }
  apply Forall_cons in Hgood as [Hg1 Hgood], Hsm as [Hs1 Hsm], Hd as [Hd1 Hd]. cbn [length] in Hlt. cbn [write_groups].
  destruct Hg as (Hne & Ho & Hc).
  destruct (write_run s now (cc_object_part_size config) id dm g Hg1 Hs1 Hne Hd1) as (w & d & size & bucket & -> & -> & index & Hr).
  destruct (head g) as [a|] eqn:Ha; [|by destruct g]. destruct (last g) as [z|] eqn:Hz; [|by apply last_None in Hz].
  rewrite u64_small by int_lia.
  destruct (IH (os_write s now (object_key id) d) (id + 1)) as (s' & sos & -> & Hgr & Hrd & Hf); [done|done|done|lia|lia|lia|].
  eexists s', _. split; [reflexivity|]. split; [|split].
  - intros s0 m' H0. apply Hgr. apply grows_write; [done|lia].
  - intros id' x y Hid'. rewrite Hrd by lia. apply os_write_other. intros E. apply object_key_inj in E; [lia|int_lia|int_lia].
  - constructor.
    + cbn [so_object_id length]. split; [|lia]. constructor; cbn; [by exists a|by exists z|]. exists index.
      eapply object_reads_same; [|exact Hr]. intros x y. apply Hrd. lia.
    + eapply Forall2_impl; [exact Hf|]. cbn [length]. intros g' so [? ?]. split; [done|]. lia.
Qed.

(** ** Splitting one object *)

Context (config : CompactionConfig) (now : Z).
Hypothesis bandwidth_ok : 0 ≤ cc_network_bandwidth config.

Lemma max_batch_range : 0 ≤ max_batch config < 2 ^ 63.
Proof. unfold max_batch, S3_OBJECT_MAX_READ_BATCH. lia. Qed.

Lemma take_batch_spec first size groups :
  Forall (λ g, g ≠ []) groups →
  ∃ batch rest, take_batch config first size groups = Some (batch, rest) ∧ groups = batch ++ rest
    ∧ (first = true → groups ≠ [] → batch ≠ []).
Proof.
  intros Hne. revert first size; induction Hne as [|g groups Hg _ IH]; intros first size; [by exists [], []|].
  cbn [take_batch]. destruct (head g) as [a|] eqn:Ha; [|by destruct g]. destruct (last g) as [z|] eqn:Hz; [|by apply last_None in Hz].
  destruct (negb first && _) eqn:E; [exists [], (g :: groups); split; [done|]; split; [done|]; intros ->; done|].
  destruct (IH false (u64 (size + u64 (bk_end_position z - bk_start_position a)))) as (batch & rest & -> & -> & _).
  by exists (g :: batch), rest.
Qed.

Definition described (s : S) (lo hi : Z) (g : list StreamDataBlock) (so : StreamObject) : Prop :=
  so_desc s g so ∧ lo ≤ so_object_id so < hi.

Lemma described_grows s m s' m' lo g so :
  grows s m s' m' → 0 ≤ lo → described s lo (ms_object_id_alloc m) g so → described s' lo (ms_object_id_alloc m') g so.
Proof.
  intros Hg Hlo [Hd Hr]. pose proof (gr_alloc _ _ _ _ Hg). split; [|lia]. eapply so_desc_same; [|exact Hd].
  intros a b. apply (gr_reads _ _ _ _ Hg). lia.
Qed.

Lemma concat_sub {A} (l : list (list A)) g : g ∈ l → g ⊆+ concat l.
Proof.
  intros (l1 & l2 & ->)%list_elem_of_split. rewrite concat_app. cbn. apply submseteq_inserts_l, submseteq_inserts_r. done.
Qed.

Lemma split_loop_spec U fuel s m o blocks groups acc :
  pos_inj U → source s o blocks → 0 ≤ om_object_id o < ms_object_id_alloc m →
  (∀ b, b ∈ blocks → b ∈ U) → (∀ b, b ∈ concat groups → b ∈ blocks) →
  Forall run groups → Forall small groups →
  (length groups < fuel)%nat → ms_object_id_alloc m + len groups < 2 ^ 64 →
  ∃ s' m' sos, split_loop config now fuel s m o groups acc = Some (s', m', Ok (acc ++ sos))
    ∧ grows s m s' m' ∧ ms_object_id_alloc m' = ms_object_id_alloc m + len groups
    ∧ Forall2 (described s' (ms_object_id_alloc m) (ms_object_id_alloc m')) groups sos.
Proof.
  intros Hinj. revert s m groups acc; induction fuel as [|fuel IH]; intros s m groups acc Hsrc Hid HU Hsub Hrun Hsm Hf Hlt; [lia|].
  cbn [split_loop]. destruct groups as [|g0 gs0] eqn:Egs.
  { exists s, m, []. rewrite app_nil_r. split; [done|]. split; [apply grows_refl|]. split; [cbn; lia|constructor]. }
  rewrite <- Egs in *. assert (groups ≠ []) as Hgne by (by rewrite Egs). clear Egs g0 gs0.
  destruct (take_batch_spec true 0 groups) as (batch & rest & -> & Eg & Hbne).
  { eapply Forall_impl; [exact Hrun|]. by intros g (? & _). }
  specialize (Hbne eq_refl Hgne). destruct batch as [|b0 bs0] eqn:Eb; [done|]. rewrite <- Eb in *.
  assert (0 < length batch)%nat by (rewrite Eb; cbn; lia). clear Eb b0 bs0.
  rewrite Eg in Hsub, Hrun, Hsm, Hf, Hlt. rewrite length_app in Hf, Hlt. rewrite concat_app in Hsub.
  apply Forall_app in Hrun as [Hr1 Hr2], Hsm as [Hs1 Hs2].
  change (mgr_prepare_object m (len batch)) with ((prepare_object (len batch) m).1, Ok (E := StreamError) (ms_object_id_alloc m)).
  destruct (grows_prepare s m (len batch)) as [Hg1 Ha1]; [lia|lia|lia|].
  set (m1 := (prepare_object (len batch) m).1) in *. cbn iota.
  rewrite (source_reads s o blocks) by (done || apply max_batch_range || (intros b Hb; apply Hsub, elem_of_app; by left)).
  assert (∀ g, g ∈ batch → ∀ b, b ∈ g → b ∈ concat batch) as Hin.
  { intros g Hg b Hb. apply list_elem_of_In, in_concat. exists g. by rewrite <- !list_elem_of_In. }
  destruct (write_groups_spec config now s m (ms_object_id_alloc m)
    (insert_fetched ∅ ((λ b, mkFetched b (data b)) <$> concat batch)) batch) as (s1 & sos & -> & Hgr & _ & Hf1); try done.
  - apply Forall_forall. intros g Hg. eapply blocks_good_sub; [|apply Hsrc]. intros b Hb. apply Hsub, elem_of_app. left. by eapply Hin.
  - apply Forall_forall. intros g Hg. apply Forall_forall. intros b Hb. apply (insert_fetched_ok U); [done|..|right; by eapply Hin].
    + intros c Hc. apply HU, Hsub, elem_of_app. by left.
    + apply HU, Hsub, elem_of_app. left. by eapply Hin.
  - lia.
  - lia.
  - specialize (Hgr s m1 Hg1).
    destruct (IH s1 m1 rest (acc ++ sos)) as (s' & m' & sos' & -> & Hg2 & Ha2 & Hf2); try done.
    + by eapply source_grows.
    + lia.
    + intros b Hb. apply Hsub, elem_of_app. by right.
    + lia.
    + lia.
    + exists s', m', (sos ++ sos'). rewrite app_assoc. split; [done|]. split; [by eapply grows_trans|].
      split; [rewrite Ha2, Ha1, Eg, length_app; lia|]. rewrite Eg. apply Forall2_app.
      * eapply Forall2_impl; [exact Hf1|]. intros g so Hd. apply (described_grows s1 m1); [done|lia|]. by rewrite Ha1.
      * eapply Forall2_impl; [exact Hf2|]. intros g so [? ?]. split; [done|]. lia.
Qed.

Lemma group_and_split_spec U s m o blocks l :
  pos_inj U → source s o blocks → 0 ≤ om_object_id o < ms_object_id_alloc m →
  (∀ b, b ∈ blocks → b ∈ U) → (∀ b, b ∈ l → b ∈ blocks) → small l → ms_object_id_alloc m + len l < 2 ^ 64 →
  ∃ s' m' groups sos, group_and_split config now s m o l = Some (s', m', Ok sos)
    ∧ grows s m s' m' ∧ ms_object_id_alloc m' ≤ ms_object_id_alloc m + len l
    ∧ concat groups = l ∧ Forall run groups
    ∧ Forall2 (described s' (ms_object_id_alloc m) (ms_object_id_alloc m')) groups sos.
Proof.
  intros Hinj Hsrc Hid HU Hsub Hsm Hlt. pose proof (sr_good _ _ _ Hsrc) as (Hok & _).
  assert (Forall block_ok l) as Hokl by (rewrite Forall_forall in *; auto).
  destruct (group_offset_spec l Hokl) as [Eg Hg]. unfold group_and_split. set (groups := group_stream_data_blocks _ _ l) in *.
  assert (Forall run groups) as Hrun.
  { eapply Forall_impl; [exact Hg|]. intros g [? [p (? & ? & _)]]. done. }
  assert (len groups ≤ len l) as Hlen.
  { rewrite <- Eg. clear -Hrun. induction Hrun as [|g gs [Hg _] _ IH]; cbn; [done|]. rewrite length_app. destruct g; [done|]. cbn. lia. }
  destruct (split_loop_spec U (Datatypes.S (length groups)) s m o blocks groups []) as (s' & m' & sos & E & Hgr & Ha & Hf); try done.
  - by rewrite Eg.
  - apply Forall_forall. intros g Hin. eapply small_sub; [|..|exact Hsm]; [rewrite <- Eg; by apply concat_sub|].
    eapply Forall_impl; [exact Hokl|apply bo_sized].
  - lia.
  - lia.
  - exists s', m', groups, sos. split; [done|]. split; [done|]. split; [lia|]. done.
Qed.

(** ** The round's invariant *)

Context (objects : list S3ObjectMetadata) (blocks_of : S3ObjectMetadata → list StreamDataBlock) (starts : gmap Z Z).

Definition all_blocks : list StreamDataBlock := concat (blocks_of <$> objects).
Definition lives (o : S3ObjectMetadata) : list StreamDataBlock := filter (λ b, live starts b = true) (blocks_of o).
Definition block_key (b : StreamDataBlock) : Z * Z := (bk_stream_id b, bk_start_offset b).

(** The objects of the round: distinct ids, distinct positions, each offset stored once. *)
Record round_ok : Prop := {
  ro_ids : NoDup (om_object_id <$> objects);
  ro_block_ids o b : o ∈ objects → b ∈ blocks_of o → bk_object_id b = om_object_id o;
  ro_pos : pos_inj all_blocks;
  ro_keys : NoDup (block_key <$> all_blocks);
  ro_blocks : Forall block_ok all_blocks;
  ro_small : small all_blocks;
}.
Hypothesis Hround : round_ok.

Lemma all_blocks_elem o b : o ∈ objects → b ∈ blocks_of o → b ∈ all_blocks.
Proof.
  intros Ho Hb. apply list_elem_of_In, in_concat. exists (blocks_of o). rewrite <- !list_elem_of_In. split; [by apply list_elem_of_fmap_2|done].
Qed.

Lemma same_id o o' : o ∈ objects → o' ∈ objects → om_object_id o = om_object_id o' → o = o'.
Proof. apply NoDup_fmap_elem, Hround. Qed.

Lemma same_key b b' : b ∈ all_blocks → b' ∈ all_blocks → block_key b = block_key b' → b = b'.
Proof. apply NoDup_fmap_elem, Hround. Qed.

Lemma NoDup_sub {A} (l k : list A) : l ⊆+ k → NoDup k → NoDup l.
Proof. intros (j & ->)%submseteq_Permutation. by intros (? & _)%NoDup_app. Qed.

Lemma lives_sub o : o ∈ objects → lives o ⊆+ all_blocks.
Proof.
  intros Ho. etrans; [apply sublist_submseteq, filter_sublist|]. apply concat_sub. by apply list_elem_of_fmap_2.
Qed.

Lemma lives_keys o : o ∈ objects → NoDup (block_key <$> lives o).
Proof. intros Ho. eapply NoDup_sub; [|apply Hround]. by apply fmap_submseteq, lives_sub. Qed.

(** Blocks of different objects have different keys. *)
Lemma other_key o o' b b' :
  o ∈ objects → o' ∈ objects → om_object_id o ≠ om_object_id o' → b ∈ blocks_of o → b' ∈ blocks_of o' → block_key b ≠ block_key b'.
Proof.
  intros Ho Ho' Hne Hb Hb' E. apply Hne. rewrite <- (ro_block_ids Hround o b), <- (ro_block_ids Hround o' b') by done.
  f_equal. by apply same_key; [apply (all_blocks_elem o)|apply (all_blocks_elem o')|].
Qed.

(** The record sits in a stream object. *)
Definition in_stream_object (s : S) (m : MetadataState) (r : StreamRecordBatch) : Prop :=
  ∃ k e o, find_object (stream_id r) k (ms_stream_objects m) = Some o
    ∧ om_offset_ranges o = [ {| sr_stream_id := stream_id r; sr_start_offset := k; sr_end_offset := e |} ]
    ∧ 0 ≤ om_object_id o < ms_object_id_alloc m ∧ found_in s o k e r.

(** [D]: the ids compacted so far. *)
Record Inv (s : S) (m : MetadataState) (D : gset Z) : Prop := {
  iv_ok : manager_ok m;
  iv_alloc o : o ∈ objects → 0 ≤ om_object_id o < ms_object_id_alloc m;
  iv_src o : o ∈ objects → om_object_id o ∉ D →
    ms_stream_set_objects m !! om_object_id o = Some o ∧ source s o (blocks_of o);
  iv_free o b : o ∈ objects → om_object_id o ∉ D → b ∈ blocks_of o →
    find_object (bk_stream_id b) (bk_start_offset b) (ms_stream_objects m) = None;
  iv_done o b r : o ∈ objects → om_object_id o ∈ D → b ∈ lives o → r ∈ recs b → in_stream_object s m r;
}.

Lemma Inv_grows s m s' m' D : grows s m s' m' → Inv s m D → Inv s' m' D.
Proof.
  intros Hg [A B C F G]. pose proof (gr_alloc _ _ _ _ Hg). constructor.
  - by apply (gr_ok _ _ _ _ Hg).
  - intros o Ho. specialize (B o Ho). lia.
  - intros o Ho Hn. rewrite (gr_set _ _ _ _ Hg). destruct (C o Ho Hn). split; [done|]. eapply source_grows; [done|by apply B|done].
  - intros o b Ho Hn Hb. rewrite (gr_objects _ _ _ _ Hg). by eapply F.
  - intros o b r Ho Hd Hb Hr. destruct (G o b r Ho Hd Hb Hr) as (k & e & o' & ? & ? & ? & ?). exists k, e, o'.
    rewrite (gr_objects _ _ _ _ Hg). split; [done|]. split; [done|]. split; [lia|]. by eapply found_in_grows.
Qed.

Lemma in_stream_object_found s m r : in_stream_object s m r → found s m r.
Proof. intros (k & e & o & Hf & Hr & _ & Hin). exists k, e, o. split; [right; by split|done]. Qed.

Lemma Inv_found s m D o b r : Inv s m D → o ∈ objects → b ∈ lives o → r ∈ recs b → found s m r.
Proof.
  intros HI Ho Hb Hr. destruct (decide (om_object_id o ∈ D)) as [Hd|Hn].
  - apply in_stream_object_found. by eapply (iv_done _ _ _ HI).
  - destruct (iv_src _ _ _ HI o Ho Hn) as [? ?]. apply list_elem_of_filter in Hb as [_ Hb]. by eapply source_found.
Qed.

(** The keys of new stream objects are those of the first blocks of their runs. *)
Lemma described_keys s lo hi groups sos :
  Forall2 (described s lo hi) groups sos →
  (∀ so, so ∈ sos → ∃ a, a ∈ concat groups ∧ so_key so = block_key a)
  ∧ (NoDup (block_key <$> concat groups) → NoDup (so_key <$> sos)).
Proof.
  induction 1 as [|g so groups sos [[(a & Ha & E1 & E2) _ _] _] _ [IH1 IH2]]; cbn.
  { split; [by intros ? ?%not_elem_of_nil|by constructor]. }
  assert (so_key so = block_key a) as Ek by (unfold so_key, block_key; by rewrite E1, E2).
  apply head_Some_elem_of in Ha. split.
  - intros so' [->|Hso]%elem_of_cons; [exists a; split; [apply elem_of_app; by left|done]|].
    destruct (IH1 so' Hso) as (a' & ? & ?). exists a'. split; [apply elem_of_app; by right|done].
  - rewrite fmap_app. intros (_ & Hdisj & Hnd)%NoDup_app. constructor; [|by apply IH2].
    intros (so' & E & Hso)%list_elem_of_fmap. destruct (IH1 so' Hso) as (a' & Ha' & Ek').
    apply (Hdisj (block_key a)); [by apply list_elem_of_fmap_2|]. rewrite <- Ek, E, Ek'. by apply list_elem_of_fmap_2.
Qed.

(** A commit of fresh keys keeps what sits in stream objects. *)
Lemma in_stream_object_commit s m req r :
  (∀ so, so ∈ cr_stream_objects req → find_object (so_stream_id so) (so_start_offset so) (ms_stream_objects m) = None) →
  in_stream_object s m r → in_stream_object s (commit_stream_set_object now req m).1 r.
Proof.
  intros Hfree (k & e & o & Hf & Hr & Ha & Hin). exists k, e, o. destruct (commit_rest now req m) as (_ & -> & _).
  rewrite commit_alloc. split; [|done]. rewrite insert_all; [done|]. intros (so & E & Hso)%list_elem_of_fmap.
  injection E as E1 E2. specialize (Hfree so Hso). rewrite <- E1, <- E2, Hf in Hfree. done.
Qed.

(** What the runs hold ends up in stream objects. *)
Lemma described_done s m req groups sos lo b r :
  0 ≤ lo → blocks_good (concat groups) → Forall run groups → NoDup (block_key <$> concat groups) →
  Forall2 (described s lo (ms_object_id_alloc m)) groups sos → cr_stream_objects req = sos →
  b ∈ concat groups → r ∈ recs b → in_stream_object s (commit_stream_set_object now req m).1 r.
Proof.
  intros Hlo Hgood Hrun Hnd Hf Es (g & Hg%list_elem_of_In & Hb%list_elem_of_In)%list_elem_of_In%in_concat Hr.
  destruct (described_keys _ _ _ _ _ Hf) as [_ Hk]. specialize (Hk Hnd).
  apply list_elem_of_lookup in Hg as [i Hi]. destruct (Forall2_lookup_l _ _ _ _ _ Hf Hi) as (so & Hso & Hd & Hid).
  apply list_elem_of_lookup_2 in Hso. pose proof (list_elem_of_lookup_2 _ _ _ Hi) as Hg.
  rewrite Forall_forall in Hrun. destruct (Hrun g Hg) as (_ & Ho & Hc).
  assert (blocks_good g) as Hgg by (eapply blocks_good_sub; [|exact Hgood]; intros x Hx; apply list_elem_of_In, in_concat; exists g; by rewrite <- !list_elem_of_In).
  destruct (so_desc_found s g so now b r Hgg Ho Hc Hd Hb Hr) as [Er Hin].
  exists (so_start_offset so), (so_end_offset so), (so_meta now so). rewrite Er. destruct (commit_rest now req m) as (_ & -> & _).
  rewrite commit_alloc, Es. split; [by apply insert_member|]. split; [done|]. split; [cbn; lia|done].
Qed.

(** Committing the split of one object. *)
Lemma Inv_split s m D o groups sos :
  Inv s m D → o ∈ objects → om_object_id o ∉ D → concat groups = lives o → Forall run groups →
  Forall2 (described s 0 (ms_object_id_alloc m)) groups sos →
  Inv s (commit_stream_set_object now (split_request o sos) m).1 ({[om_object_id o]} ∪ D).
Proof.
  intros HI Ho Hn Eg Hrun Hf. pose proof HI as [A B C F G]. set (req := split_request o sos).
  destruct (described_keys _ _ _ _ _ Hf) as [Hkeys _].
  assert (∀ so, so ∈ sos → ∃ a, a ∈ blocks_of o ∧ so_key so = block_key a) as Hk.
  { intros so Hso. destruct (Hkeys so Hso) as (a & Ha & E). exists a. split; [|done]. rewrite Eg in Ha. by apply list_elem_of_filter in Ha as [_ Ha]. }
  assert (∀ so, so ∈ sos → find_object (so_stream_id so) (so_start_offset so) (ms_stream_objects m) = None) as Hfree.
  { intros so Hso. destruct (Hk so Hso) as (a & Ha & E). unfold so_key, block_key in E. injection E as -> ->. by eapply F. }
  destruct (commit_rest now req m) as (_ & Eo & Es).
  assert (ms_stream_set_objects (commit_stream_set_object now req m).1 = delete (om_object_id o) (ms_stream_set_objects m)) as Es'.
  { rewrite Es. cbn. by rewrite Z.eqb_refl. }
  constructor.
  - apply (mstep_ok m _ (ms_commit m now req)), A.
  - intros o' Ho'. rewrite commit_alloc. by apply B.
  - intros o' Ho' [Hne%not_elem_of_singleton Hn']%not_elem_of_union. rewrite Es', lookup_delete_ne by done. by apply C.
  - intros o' b Ho' [Hne%not_elem_of_singleton Hn']%not_elem_of_union Hb. rewrite Eo. cbn. rewrite insert_all; [by eapply F|].
    intros (so & E & Hso)%list_elem_of_fmap. destruct (Hk so Hso) as (a & Ha & Ek). rewrite Ek in E.
    by eapply (other_key o o' a b).
  - intros o' b r Ho' Hd Hb Hr. destruct (decide (om_object_id o' = om_object_id o)) as [E|Hne].
    + assert (o' = o) as -> by (by apply same_id). eapply (described_done s m req groups sos 0); [done|..|exact Hf|done|by rewrite Eg|done].
      * rewrite Eg. eapply blocks_good_sub; [|apply (C o Ho Hn)]. by intros x [_ ?]%list_elem_of_filter.
      * done.
      * rewrite Eg. by apply lives_keys.
    + apply elem_of_union in Hd as [Hd%elem_of_singleton|Hd]; [done|]. apply in_stream_object_commit; [done|]. by eapply G.
Qed.

(** ** Splitting the old objects *)

Context (streams : list StreamMetadata) (block_map : BlockMap).
Hypothesis Hstarts : start_offsets streams = starts.
Hypothesis Hmap : ∀ o, o ∈ objects → block_map !! om_object_id o = Some (lives o).

Lemma force_split_spec running todo s m D :
  (∀ o, o ∈ todo → o ∈ objects ∧ om_object_id o ∉ D) → NoDup (om_object_id <$> todo) → Inv s m D →
  0 ≤ ms_object_id_alloc m → ms_object_id_alloc m + len (concat (blocks_of <$> todo)) < 2 ^ 64 →
  ∃ s' m' D', force_split_objects config now running streams todo block_map s m = Some (s', m', Ok tt)
    ∧ Inv s' m' D' ∧ (∀ id, id ∈ D' → id ∈ D ∨ id ∈ om_object_id <$> todo)
    ∧ 0 ≤ ms_object_id_alloc m' ≤ ms_object_id_alloc m + len (concat (blocks_of <$> todo)).
Proof.
  revert running s m D; induction todo as [|o todo IH]; intros running s m D Htodo Hnd HI Ha0 Ha; cbn [force_split_objects].
  { exists s, m, D. split; [done|]. split; [done|]. split; [by left|]. cbn. lia. }
  destruct (Htodo o ltac:(left)) as [Ho Hn]. cbn in Hnd, Ha. rewrite length_app in Ha. apply NoDup_cons in Hnd as [Hno Hnd].
  destruct (running 0%nat); cbn [negb].
  2:{ exists s, m, D. split; [done|]. split; [done|]. split; [by left|]. cbn. lia. }
  rewrite (Hmap o Ho).
  assert (len (lives o) ≤ len (blocks_of o)) as Hll by (pose proof (length_filter (λ b, live starts b = true) (blocks_of o)); unfold lives; lia).
  destruct (iv_src _ _ _ HI o Ho Hn) as [_ Hsrc].
  assert (∃ s1 m1 groups sos, (match lives o with [] => Some (s, m, Ok []) | _ => group_and_split config now s m o (lives o) end)
      = Some (s1, m1, Ok sos) ∧ grows s m s1 m1 ∧ ms_object_id_alloc m1 ≤ ms_object_id_alloc m + len (lives o)
    ∧ concat groups = lives o ∧ Forall run groups
    ∧ Forall2 (described s1 (ms_object_id_alloc m) (ms_object_id_alloc m1)) groups sos) as (s1 & m1 & groups & sos & -> & Hg & Ha1 & Eg & Hrun & Hf).
  { destruct (decide (lives o = [])) as [E|Hne].
    - rewrite E. exists s, m, [], []. split; [done|]. split; [apply grows_refl|]. split; [cbn; lia|]. split; [done|]. split; constructor.
    - destruct (group_and_split_spec all_blocks s m o (blocks_of o) (lives o)) as (s1 & m1 & groups & sos & E & ?); try done.
      + apply Hround.
      + by apply (iv_alloc _ _ _ HI).
      + intros b Hb. by eapply all_blocks_elem.
      + by intros b [_ ?]%list_elem_of_filter.
      + eapply small_sub; [by apply lives_sub|..|apply Hround]. eapply Forall_impl; [apply Hround|apply bo_sized].
      + lia.
      + exists s1, m1, groups, sos. split; [|done]. by destruct (lives o). }
  pose proof (Inv_grows _ _ _ _ _ Hg HI) as HI1. pose proof (gr_alloc _ _ _ _ Hg).
  assert (∀ D' : gset Z, (∀ id, id ∈ D' → id ∈ ({[om_object_id o]} : gset Z) ∪ D) → ∀ o', o' ∈ todo → o' ∈ objects ∧ om_object_id o' ∉ D') as Htodo'.
  { intros D' HD' o' Ho'. destruct (Htodo o' ltac:(by right)) as [? ?]. split; [done|]. intros Hin%HD'%elem_of_union.
    destruct Hin as [Hin%elem_of_singleton|Hin]; [|done]. apply Hno. rewrite <- Hin. by apply list_elem_of_fmap_2. }
  destruct (is_sanity_check_failed _ _ _).
  - destruct (IH (λ k, running (Datatypes.S k)) s1 m1 D) as (s' & m' & D' & -> & HI' & HD' & Ha'); [apply (Htodo' D); intros id ?; apply elem_of_union; by right|done|done|lia|lia|].
    exists s', m', D'. split; [done|]. split; [done|]. cbn. rewrite length_app. split; [|lia].
    intros id Hid. destruct (HD' id Hid); [by left|right; by right].
  - change (mgr_commit m1 now (split_request o sos)) with ((commit_stream_set_object now (split_request o sos) m1).1, Ok (E := StreamError) tt). cbn iota.
    destruct (IH (λ k, running (Datatypes.S k)) s1 (commit_stream_set_object now (split_request o sos) m1).1 ({[om_object_id o]} ∪ D))
      as (s' & m' & D' & -> & HI' & HD' & Ha'); [by apply Htodo'|done| | | |].
    + eapply Inv_split; try done. eapply Forall2_impl; [exact Hf|]. intros g so [? ?]. split; [done|]. lia.
    + rewrite commit_alloc. lia.
    + rewrite commit_alloc. lia.
    + rewrite commit_alloc in Ha'. exists s', m', D'. split; [done|]. split; [done|]. cbn. rewrite length_app. split; [|lia].
      intros id Hid. destruct (HD' id Hid) as [[Hid'%elem_of_singleton|?]%elem_of_union|?]; [right; rewrite Hid'; left|by left|right; by right].
Qed.

(** ** The stages *)

Lemma stage_reads_spec s by_id sources dm :
  Forall (λ p : Z * list StreamDataBlock, ∃ o, by_id !! p.1 = Some o ∧ o ∈ objects ∧ source s o (blocks_of o)
    ∧ ∀ b, b ∈ p.2 → b ∈ blocks_of o) sources →
  ∃ dm', stage_reads config s by_id sources dm = Some (Ok dm')
    ∧ ∀ b, b ∈ all_blocks → has_data dm b ∨ b ∈ concat sources.*2 → has_data dm' b.
Proof.
  intros Hs. revert dm; induction Hs as [|[id l] sources (o & Hid & Ho & Hsrc & Hsub) _ IH]; intros dm; cbn [stage_reads].
  { exists dm. split; [done|]. intros b _ [?|?%not_elem_of_nil]; done. }
  cbn in Hid, Hsub. rewrite Hid, (source_reads s o (blocks_of o)) by (done || apply max_batch_range).
  destruct (IH (insert_fetched dm ((λ b, mkFetched b (data b)) <$> l))) as (dm' & -> & Hdm). exists dm'. split; [done|].
  intros b Hb Hor. apply Hdm; [done|].
  assert (has_data dm b ∨ b ∈ l → has_data (insert_fetched dm ((λ b, mkFetched b (data b)) <$> l)) b) as Hins.
  { apply (insert_fetched_ok all_blocks); [apply Hround| |done]. intros c Hc. by eapply all_blocks_elem; [|apply Hsub]. }
  destruct Hor as [?|[?|?]%elem_of_app]; [left; apply Hins; by left|left; apply Hins; by right|by right].
Qed.

(** The uploader after the set blocks [sb]. *)
Definition upl_ok (lo hi : Z) (u : CompactionUploader) (sb : list StreamDataBlock) : Prop :=
  cu_part_size u = cc_object_part_size config
  ∧ ((sb = [] ∧ cu_stream_set_writer u = None ∧ cu_stream_set_object_id u = None)
     ∨ (sb ≠ [] ∧ ∃ id, cu_stream_set_object_id u = Some id ∧ lo ≤ id < hi
        ∧ cu_stream_set_writer u = Some (dw_writes data (dw_open id (cc_object_part_size config)) sb))).

Lemma upl_ok_mono lo hi hi' u sb : hi ≤ hi' → upl_ok lo hi u sb → upl_ok lo hi' u sb.
Proof. intros ? [? [?|(? & id & ? & ? & ?)]]; (split; [done|]); [by left|right]. split; [done|]. exists id. split; [done|]. split; [lia|done]. Qed.

Record prog_ok (s : S) (m : MetadataState) (lo : Z) (p : Progress) (sb : list StreamDataBlock)
    (groups : list (list StreamDataBlock)) : Prop := {
  po_set : pg_set_blocks p = sb;
  po_uploader : upl_ok lo (ms_object_id_alloc m) (pg_uploader p) sb;
  po_split : Forall2 (described s lo (ms_object_id_alloc m)) groups (pg_stream_objects p);
  po_lo : 0 ≤ lo ≤ ms_object_id_alloc m;
  po_fresh id : cu_stream_set_object_id (pg_uploader p) = Some id → Forall (λ so, so_object_id so ≠ id) (pg_stream_objects p);
}.

Lemma prog_ok_grows s m s' m' lo p sb groups : grows s m s' m' → prog_ok s m lo p sb groups → prog_ok s' m' lo p sb groups.
Proof.
  intros Hg [A B C D E]. pose proof (gr_alloc _ _ _ _ Hg). constructor; [done|by eapply upl_ok_mono| |lia|done].
  eapply Forall2_impl; [exact C|]. intros g so Hd. eapply described_grows; [done|lia|done].
Qed.

(** The blocks of the compact and of the split objects of a stage. *)
Definition set_part (l : list CompactedObject) : list StreamDataBlock := concat (co_blocks <$> filter (λ o, co_type o = Compact) l).
Definition split_part (l : list CompactedObject) : list (list StreamDataBlock) := co_blocks <$> filter (λ o, co_type o = Split) l.

Lemma write_set_spec s m lo p sb groups c dm :
  prog_ok s m lo p sb groups → co_type c = Compact → Forall (has_data dm) (co_blocks c) →
  ms_object_id_alloc m + len (co_blocks c) < 2 ^ 64 →
  ∃ u m', write_stream_set_object (pg_uploader p) c dm m = Some (u, m', Ok tt) ∧ grows s m s m'
    ∧ ms_object_id_alloc m' ≤ ms_object_id_alloc m + len (co_blocks c)
    ∧ prog_ok s m' lo (mkProgress u (pg_set_blocks p ++ co_blocks c) (pg_stream_objects p)) (sb ++ co_blocks c) groups.
Proof.
  intros Hp Hc Hd Ha. pose proof Hp as [Eset [Eps Hu] Hf Hlo Hfr]. unfold write_stream_set_object. rewrite bool_decide_true by done. cbn [negb].
  destruct (decide (co_blocks c = [])) as [E|Hne].
  - rewrite bool_decide_true by done. exists (pg_uploader p), m. rewrite E, !app_nil_r. split; [done|]. split; [apply grows_refl|].
    split; [cbn; lia|]. by constructor.
  - rewrite bool_decide_false by done. destruct Hu as [(-> & -> & Hnone)|(Hsb & id & Eid & Hid & Ew)].
    + assert (1 ≤ len (co_blocks c)) by (destruct (co_blocks c); [done|cbn; lia]).
      change (mgr_prepare_object m 1) with ((prepare_object 1 m).1, Ok (E := StreamError) (ms_object_id_alloc m)). cbn iota beta.
      destruct (grows_prepare s m 1) as [Hg Ha']; [lia|lia|lia|]. cbn [cu_stream_set_writer cu_part_size cu_stream_set_object_id cu_bucket_id].
      set (m1 := (prepare_object 1 m).1) in *. clearbody m1. rewrite (write_blocks_ok data) by done. eexists _, m1. split; [reflexivity|]. split; [done|]. split; [lia|].
      destruct (prog_ok_grows _ _ _ _ _ _ _ _ Hg Hp) as [_ _ Hf' Hlo' _]. constructor; cbn; [by rewrite Eset| |done|done|].
      2:{ intros id [= <-]. apply Forall_forall. intros so Hso. apply list_elem_of_lookup in Hso as [i Hi].
          destruct (Forall2_lookup_r _ _ _ _ _ Hf Hi) as (g & _ & _ & ?). lia. }
      split; [done|]. right. split; [done|]. eexists. split; [done|]. split; [lia|]. by rewrite Eps.
    + rewrite Ew. cbn iota beta. rewrite Ew, (write_blocks_ok data) by done. eexists _, m. split; [reflexivity|]. split; [apply grows_refl|]. split; [lia|].
      constructor; cbn; [by rewrite Eset| |done|done|done]. split; [done|]. right. split; [by intros [? _]%app_eq_nil|].
      exists id. split; [done|]. split; [done|]. by rewrite dw_writes_app.
Qed.

Lemma write_split_spec s m lo p sb groups c dm :
  prog_ok s m lo p sb groups → co_type c = Split → run (co_blocks c) → blocks_good (co_blocks c) → small (co_blocks c) →
  Forall (has_data dm) (co_blocks c) → ms_object_id_alloc m + len (co_blocks c) < 2 ^ 64 →
  ∃ s' m' so, write_split_object (pg_uploader p) now c dm s m = Some (s', m', Ok (Some so)) ∧ grows s m s' m'
    ∧ ms_object_id_alloc m' ≤ ms_object_id_alloc m + len (co_blocks c)
    ∧ prog_ok s' m' lo (mkProgress (pg_uploader p) (pg_set_blocks p) (pg_stream_objects p ++ [so])) sb (groups ++ [co_blocks c]).
Proof.
  intros Hp Hc (Hne & Ho & Hch) Hgood Hsm Hd Ha. pose proof Hp as [_ [_ Hu] _ Hlo _].
  unfold write_split_object. rewrite bool_decide_true by done. cbn [negb].
  destruct (head (co_blocks c)) as [a|] eqn:Eh; [|by destruct (co_blocks c)].
  destruct (last (co_blocks c)) as [z|] eqn:El; [|by apply last_None in El].
  assert (1 ≤ len (co_blocks c)) by (destruct (co_blocks c); [done|cbn; lia]).
  change (mgr_prepare_object m 1) with ((prepare_object 1 m).1, Ok (E := StreamError) (ms_object_id_alloc m)). cbn iota beta.
  destruct (grows_prepare s m 1) as [Hg Ha']; [lia|lia|lia|]. set (m1 := (prepare_object 1 m).1) in *. clearbody m1.
  destruct (write_run s now (cu_part_size (pg_uploader p)) (ms_object_id_alloc m) dm (co_blocks c) Hgood Hsm Hne Hd)
    as (w & d & size & bucket & -> & -> & index & Hr).
  pose proof (grows_write s m s m1 now (ms_object_id_alloc m) d Hg ltac:(lia)) as Hg'.
  eexists _, _, _. split; [reflexivity|]. split; [done|]. split; [lia|].
  destruct (prog_ok_grows _ _ _ _ _ _ _ _ Hg' Hp) as [A B C D E]. constructor; cbn; [done..| |done|].
  2:{ intros id Hid. apply Forall_app. split; [by apply E|]. apply Forall_singleton. cbn.
      destruct Hu as [(_ & _ & ?)|(_ & id' & Eid & ? & _)]; [congruence|]. rewrite Eid in Hid. injection Hid as <-. lia. }
  apply Forall2_app; [done|]. constructor; [|constructor]. split; [|cbn; lia]. constructor; cbn; [by exists a|by exists z|by exists index].
Qed.

Lemma stage_writes_spec dm cos s m lo p sb groups :
  prog_ok s m lo p sb groups → Forall run_ok cos → Forall (has_data dm) (concat (co_blocks <$> cos)) →
  blocks_good (concat (co_blocks <$> cos)) → small (concat (co_blocks <$> cos)) →
  ms_object_id_alloc m + len (concat (co_blocks <$> cos)) < 2 ^ 64 →
  ∃ p' s' m', stage_writes now dm cos p s m = Some (p', s', m', Ok tt) ∧ grows s m s' m'
    ∧ ms_object_id_alloc m' ≤ ms_object_id_alloc m + len (concat (co_blocks <$> cos))
    ∧ prog_ok s' m' lo p' (sb ++ set_part cos) (groups ++ split_part cos).
Proof.
  intros Hp Hrun. revert s m p sb groups Hp; induction Hrun as [|c cos Hc Hrun IH]; intros s m p sb groups Hp Hd Hgood Hsm Ha; cbn [stage_writes].
  { exists p, s, m. rewrite !app_nil_r. split; [done|]. split; [apply grows_refl|]. split; [cbn; lia|done]. }
  cbn [fmap list_fmap concat] in *. rewrite length_app in Ha. apply Forall_app in Hd as [Hd1 Hd2].
  assert (Forall sized (co_blocks c ++ concat (co_blocks <$> cos))) as Hsz by (eapply Forall_impl; [exact (proj1 Hgood)|apply bo_sized]).
  assert (blocks_good (co_blocks c) ∧ blocks_good (concat (co_blocks <$> cos))) as [Hg1 Hg2].
  { split; eapply blocks_good_sub; [|exact Hgood| |exact Hgood]; intros b Hb; apply elem_of_app; auto. }
  assert (small (co_blocks c) ∧ small (concat (co_blocks <$> cos))) as [Hs1 Hs2].
  { split; eapply small_sub; [|exact Hsz|exact Hsm| |exact Hsz|exact Hsm]; [by apply submseteq_inserts_r|by apply submseteq_inserts_l]. }
  unfold set_part, split_part. rewrite !filter_cons. rewrite length_app. destruct (co_type c) eqn:Ec.
  - rewrite decide_False by done. rewrite decide_True by done. cbn [fmap list_fmap]. destruct (Hc Ec) as (Hne & Ho & Hch).
    destruct (write_split_spec s m lo p sb groups c dm) as (s1 & m1 & so & -> & Hgr & Ha1 & Hp1); [done|done|done|done|done|done|lia|].
    destruct (IH s1 m1 _ sb _ Hp1) as (p' & s' & m' & -> & Hgr' & Ha2 & Hp'); [done|done|done|lia|].
    exists p', s', m'. split; [done|]. split; [by eapply grows_trans|]. split; [lia|]. by rewrite <- app_assoc in Hp'.
  - rewrite decide_True by done. rewrite decide_False by done. cbn [fmap list_fmap concat].
    destruct (write_set_spec s m lo p sb groups c dm) as (u & m1 & -> & Hgr & Ha1 & Hp1); [done|done|done|lia|].
    destruct (IH s m1 _ _ _ Hp1) as (p' & s' & m' & -> & Hgr' & Ha2 & Hp'); [done|done|done|lia|].
    exists p', s', m'. split; [done|]. split; [by eapply grows_trans|]. split; [lia|]. by rewrite <- app_assoc in Hp'.
Qed.

(** The sources of a plan's blocks are at hand. *)
Definition plan_sources (s : S) (by_id : gmap Z S3ObjectMetadata) (p : CompactionPlan) : Prop :=
  ∀ b, b ∈ plan_blocks p → ∃ o, by_id !! bk_object_id b = Some o ∧ o ∈ objects ∧ source s o (blocks_of o) ∧ b ∈ blocks_of o.

Lemma plan_sources_grows s m s' m' by_id p :
  (∀ o, o ∈ objects → 0 ≤ om_object_id o < ms_object_id_alloc m) → grows s m s' m' → plan_sources s by_id p → plan_sources s' by_id p.
Proof.
  intros Hids Hg Hp b Hb. destruct (Hp b Hb) as (o & ? & Ho & ? & ?). exists o. split; [done|]. split; [done|]. split; [|done].
  eapply source_grows; [done|by apply Hids|done].
Qed.

Lemma run_stages_spec cache running by_id plans s m lo p sb groups :
  prog_ok s m lo p sb groups → Forall (stage_ok cache) plans → Forall (plan_sources s by_id) plans →
  (∀ o, o ∈ objects → 0 ≤ om_object_id o < ms_object_id_alloc m) →
  blocks_good (concat (plan_blocks <$> plans)) → small (concat (plan_blocks <$> plans)) →
  ms_object_id_alloc m + len (concat (plan_blocks <$> plans)) < 2 ^ 64 →
  ∃ p' s' m' b, run_stages config now running by_id plans p s m = Some (p', s', m', Ok b) ∧ grows s m s' m'
    ∧ ms_object_id_alloc m' ≤ ms_object_id_alloc m + len (concat (plan_blocks <$> plans))
    ∧ (b = true → prog_ok s' m' lo p' (sb ++ concat (set_blocks <$> plans))
                    (groups ++ concat ((λ q, split_part (cp_compacted_objects q)) <$> plans))).
Proof.
  intros Hp Hst. revert running s m p sb groups Hp; induction Hst as [|q plans Hq _ IH]; intros running s m p sb groups Hp Hsrc Hids Hgood Hsm Ha; cbn [run_stages].
  { exists p, s, m, true. rewrite !app_nil_r. split; [done|]. split; [apply grows_refl|]. split; [cbn; lia|done]. }
  destruct (running 0%nat); cbn [negb]; [|eexists _, s, m, false; split; [done|]; split; [apply grows_refl|]; split; [lia|done]].
  apply Forall_cons in Hsrc as [Hsq Hsrc]. cbn [fmap list_fmap concat] in *. rewrite length_app in *.
  destruct Hq as [_ Hruns Hrd Hall].
  destruct (stage_reads_spec s by_id (entries (cp_blocks_map q)) ∅) as (dm & -> & Hdm).
  { apply Forall_forall. intros [id l] Hl%elem_of_entries. destruct (Hrd id l Hl) as (Hne & Hl' & _). cbn.
    assert (∀ b, b ∈ l → b ∈ plan_blocks q ∧ bk_object_id b = id) as Hin.
    { intros b Hb. rewrite Hl' in Hb. by apply list_elem_of_filter in Hb as [? ?]. }
    destruct l as [|b0 l0] eqn:El; [done|]. rewrite <- El in *. assert (b0 ∈ l) as Hb0 by (rewrite El; left). clear El Hne l0.
    destruct (Hin b0 Hb0) as [Hp0 <-]. destruct (Hsq b0 Hp0) as (o & Eo & Ho & Hso & _). exists o. split; [done|]. split; [done|]. split; [done|].
    intros b Hb. destruct (Hin b Hb) as [Hpb Eb]. destruct (Hsq b Hpb) as (o' & Eo' & _ & _ & Hbo). rewrite Eb, Eo in Eo'. by injection Eo' as <-. }
  assert (Forall (has_data dm) (plan_blocks q)) as Hhas.
  { apply Forall_forall. intros b Hb. destruct (Hsq b Hb) as (o & _ & Ho & _ & Hbo). apply Hdm; [by eapply all_blocks_elem|]. right.
    destruct (Hall b Hb) as [l Hl]. destruct (Hrd _ _ Hl) as (_ & Hl' & _). apply list_elem_of_In, in_concat. exists l. rewrite <- !list_elem_of_In. split.
    - apply list_elem_of_fmap. exists (bk_object_id b, l). split; [done|]. by apply elem_of_entries.
    - rewrite Hl'. by apply list_elem_of_filter. }
  assert (Forall sized (plan_blocks q ++ concat (plan_blocks <$> plans))) as Hsz by (eapply Forall_impl; [exact (proj1 Hgood)|apply bo_sized]).
  destruct (stage_writes_spec dm (cp_compacted_objects q) s m lo p sb groups) as (p1 & s1 & m1 & -> & Hgr & Ha1 & Hp1); [done..| | | |].
  - eapply blocks_good_sub; [|exact Hgood]. intros b Hb. apply elem_of_app. by left.
  - eapply small_sub; [|exact Hsz|exact Hsm]. by apply submseteq_inserts_r.
  - unfold plan_blocks in Ha at 1. lia.
  - change (concat (co_blocks <$> cp_compacted_objects q)) with (plan_blocks q) in Ha1.
    destruct (IH (λ k, running (Datatypes.S k)) s1 m1 p1 _ _ Hp1) as (p' & s' & m' & b & -> & Hgr' & Ha2 & Hp').
    + eapply Forall_impl; [exact Hsrc|]. intros q' Hq'. by eapply plan_sources_grows.
    + intros o Ho. pose proof (gr_alloc _ _ _ _ Hgr). specialize (Hids o Ho). lia.
    + eapply blocks_good_sub; [|exact Hgood]. intros b Hb. apply elem_of_app. by right.
    + eapply small_sub; [|exact Hsz|exact Hsm]. by apply submseteq_inserts_l.
    + lia.
    + exists p', s', m', b. split; [done|]. split; [by eapply grows_trans|]. split; [lia|]. intros Hb. specialize (Hp' Hb).
      by rewrite <- !app_assoc in Hp'.
Qed.

(** ** Committing the round *)

Lemma ranges_cover sb b :
  Forall block_ok sb → b ∈ sb →
  ∃ x, x ∈ build_object_stream_ranges_from_group (group_stream_data_blocks offset_test offset_new sb)
    ∧ or_stream_id x = bk_stream_id b ∧ or_start_offset x ≤ bk_start_offset b ∧ bk_end_offset b ≤ or_end_offset x.
Proof.
  intros Hok Hb. destruct (group_offset_spec sb Hok) as [Eg Hg]. set (groups := group_stream_data_blocks _ _ sb) in *.
  assert (b ∈ concat groups) as Hb' by (by rewrite Eg).
  apply list_elem_of_In, in_concat in Hb' as (g & Hin%list_elem_of_In & Hbg%list_elem_of_In).
  rewrite Forall_forall in Hg. destruct (Hg g Hin) as [Hne [p (Ho & Hc & z & Hz & _ & _)]].
  destruct (head g) as [a|] eqn:Ha; [|by destruct g].
  assert (Forall block_ok g) as Hokg.
  { apply Forall_forall. intros x Hx. rewrite Forall_forall in Hok. apply Hok. rewrite <- Eg. apply list_elem_of_In, in_concat. exists g. by rewrite <- !list_elem_of_In. }
  destruct (chain_bounds g a z b Ho Hc Hokg Ha Hz Hbg) as (Es & ? & ?).
  eexists. split; [apply list_elem_of_omap; exists g; split; [done|]; by rewrite Ha, Hz|]. cbn. by rewrite Es.
Qed.

(** What the request's objects hold, and which objects it removes. *)
Record outcome (s : S) (m : MetadataState) (D : gset Z) (lo : Z) (req : CommitStreamSetObjectRequest)
    (sb : list StreamDataBlock) (groups : list (list StreamDataBlock)) : Prop := {
  oc_set : sb ≠ [] → lo ≤ cr_object_id req < ms_object_id_alloc m
    ∧ ∃ index, object_reads s (object_key (cr_object_id req)) (cr_object_size req) index (group_ops recs (index_groups sb));
  oc_noop : sb = [] → cr_object_id req = NOOP_OBJECT_ID;
  oc_ranges : cr_stream_ranges req
    = build_object_stream_ranges_from_group (group_stream_data_blocks offset_test offset_new sb);
  oc_split : Forall2 (described s lo (ms_object_id_alloc m)) groups (cr_stream_objects req);
  oc_runs : Forall run groups;
  oc_from b : b ∈ sb ++ concat groups → ∃ o, o ∈ objects ∧ om_object_id o ∉ D ∧ b ∈ blocks_of o;
  oc_once : NoDup (block_key <$> concat groups);
  oc_ids id : id ∈ cr_compacted_object_ids req →
    ∃ o, o ∈ objects ∧ om_object_id o = id ∧ (id ∉ D) ∧ ∀ b, b ∈ lives o → b ∈ sb ++ concat groups;
  oc_lo o : o ∈ objects → 0 ≤ om_object_id o < lo;
  oc_alloc : 0 ≤ lo ≤ ms_object_id_alloc m ∧ ms_object_id_alloc m < 2 ^ 64;
}.

Lemma outcome_good s m D lo req sb groups : Inv s m D → outcome s m D lo req sb groups → blocks_good (sb ++ concat groups).
Proof.
  intros HI Hoc. unfold blocks_good, sizes_match. rewrite !Forall_forall.
  assert (∀ b, b ∈ sb ++ concat groups → block_ok b ∧ len (data b) = bk_size b ∧ content b (data b) (recs b)) as H.
  { intros b Hb. destruct (oc_from _ _ _ _ _ _ _ Hoc b Hb) as (o & Ho & Hn & Hbo). destruct (iv_src _ _ _ HI o Ho Hn) as [_ [_ _ _ (A & B & C) _]].
    unfold sizes_match in B. rewrite Forall_forall in A, B, C. auto. }
  split_and!; intros b Hb; by destruct (H b Hb) as (? & ? & ?).
Qed.

Lemma commit_round s m D lo req sb groups o b r :
  Inv s m D → outcome s m D lo req sb groups → o ∈ objects → b ∈ lives o → r ∈ recs b →
  found s (commit_stream_set_object now req m).1 r.
Proof.
  intros HI Hoc Ho Hb Hr. pose proof (outcome_good _ _ _ _ _ _ _ HI Hoc) as Hgood. pose proof Hoc as [Hset Hnoop Hrg Hsp Hrun Hfrom Honce Hids Hlo Hal].
  destruct (described_keys _ _ _ _ _ Hsp) as [Hkeys Hnd]. specialize (Hnd Honce).
  destruct (decide (om_object_id o ∈ cr_compacted_object_ids req)) as [Hc|Hnc].
  - destruct (Hids _ Hc) as (o' & Ho' & Eid & Hn & Hall). assert (o' = o) as -> by (by apply same_id).
    specialize (Hall b Hb). apply elem_of_app in Hall as [Hsb|Hg].
    + assert (sb ≠ []) as Hne by (intros E; rewrite E in Hsb; by apply not_elem_of_nil in Hsb).
      destruct (Hset Hne) as [Hid [index Hrd]].
      assert (blocks_good sb) as (Hok & Hm & Hcon) by (eapply blocks_good_sub; [|exact Hgood]; intros x Hx; apply elem_of_app; by left).
      destruct (ranges_cover sb b Hok Hsb) as (x & Hx & Es & H1 & H2).
      rewrite Forall_forall in Hcon. pose proof (Hcon b Hsb) as Hcb. pose proof Hcb as [_ Hrs]. rewrite Forall_forall in Hrs. destruct (Hrs r Hr) as (Er & ? & ? & ?).
      destruct (rewritten_record data recs sb b r Hok Hsb Hcb Hr) as (rs & Hrs1 & Hrs2).
      exists (or_start_offset x), (or_end_offset x), (sso_metadata now req). split.
      * apply commit_registers; [done|]. left. exists x. rewrite Hrg. split; [done|]. split; [congruence|]. split; [done|]. split; [done|].
        split; [unfold NOOP_OBJECT_ID, U64_MAX; lia|]. split; [|done]. intros Hin. destruct (Hids _ Hin) as (o' & Ho'' & E & _). specialize (Hlo o' Ho''). lia.
      * split; [lia|]. split; [done|]. split; [lia|]. exists index, (group_ops recs (index_groups sb)), rs. done.
    + apply in_stream_object_found. eapply (described_done s m req groups); [apply Hal| |done|done|exact Hsp|done|exact Hg|done].
      eapply blocks_good_sub; [|exact Hgood]. intros x Hx. apply elem_of_app. by right.
  - destruct (decide (om_object_id o ∈ D)) as [Hd|Hn].
    + apply in_stream_object_found, in_stream_object_commit; [|by eapply (iv_done _ _ _ HI)].
      intros so Hso. destruct (Hkeys so Hso) as (a & Ha & Ek). destruct (Hfrom a) as (oa & Hoa & Hna & Hba); [apply elem_of_app; by right|].
      unfold so_key, block_key in Ek. injection Ek as -> ->. by eapply (iv_free _ _ _ HI).
    + destruct (iv_src _ _ _ HI o Ho Hn) as [Hs Hsrc]. apply list_elem_of_filter in Hb as [_ Hb].
      eapply source_found; [exact Hsrc| |done|done]. destruct (commit_rest now req m) as (_ & _ & ->). rewrite lookup_delete_all by done.
      destruct (decide (sb = [])) as [E|Hne]; [by rewrite (Hnoop E), Z.eqb_refl|]. destruct (Hset Hne) as [Hid _].
      rewrite (proj2 (Z.eqb_neq _ _)) by (unfold NOOP_OBJECT_ID, U64_MAX; lia). cbn [negb]. rewrite lookup_insert_ne; [done|].
      specialize (Hlo o Ho). lia.
Qed.

(** ** The objects to compact *)

Definition collect_blocks (sel : list S3ObjectMetadata) : BlockMap :=
  foldl (λ acc o, match block_map !! om_object_id o with
                  | Some blocks => <[om_object_id o := blocks]> acc
                  | None => acc
                  end) ∅ sel.

Lemma collect_blocks_spec sel :
  (∀ o, o ∈ sel → o ∈ objects) → NoDup (om_object_id <$> sel) →
  (∀ id l, collect_blocks sel !! id = Some l ↔ ∃ o, o ∈ sel ∧ om_object_id o = id ∧ l = lives o)
  ∧ map_blocks (collect_blocks sel) ≡ₚ concat (lives <$> sel).
Proof.
  induction sel as [|o sel IH] using rev_ind; intros Hsub Hnd.
  { split; [|done]. intros id l. split; [intros H; unfold collect_blocks in H; cbn in H; by rewrite lookup_empty in H|].
    intros (o & Ho & _). by apply not_elem_of_nil in Ho. }
  rewrite fmap_app in Hnd. apply NoDup_app in Hnd as (Hnd & Hdisj & _).
  destruct IH as [IH1 IH2]; [intros o' Ho'; apply Hsub, elem_of_app; by left|done|].
  assert (o ∈ objects) as Ho by (apply Hsub, elem_of_app; right; left).
  assert (collect_blocks (sel ++ [o]) = <[om_object_id o := lives o]> (collect_blocks sel)) as E.
  { unfold collect_blocks. rewrite foldl_app. cbn. by rewrite (Hmap o Ho). }
  assert (collect_blocks sel !! om_object_id o = None) as Hnone.
  { apply eq_None_not_Some. intros [l (o' & Ho' & Eo & _)%IH1]. apply (Hdisj (om_object_id o)); [rewrite <- Eo; by apply list_elem_of_fmap_2|left]. }
  split.
  - intros id l. rewrite E, lookup_insert_Some, IH1. split.
    + intros [[<- <-]|[Hne (o' & ? & ? & ?)]]; [exists o|exists o']; rewrite elem_of_app; [split; [right; left|done]|split; [by left|done]].
    + intros (o' & [Ho'|Ho'%list_elem_of_singleton]%elem_of_app & <- & ->); [|subst o'; by left]. right. split; [|by exists o'].
      intros Eo. apply (Hdisj (om_object_id o)); [rewrite Eo; by apply list_elem_of_fmap_2|left].
  - rewrite E. unfold map_blocks in *. rewrite map_to_list_insert by done. cbn. rewrite IH2, fmap_app, concat_app. cbn. rewrite app_nil_r.
    apply Permutation_app_comm.
Qed.

Lemma push_new_elem l xs x : x ∈ foldl push_new l xs ↔ x ∈ l ∨ x ∈ xs.
Proof.
  revert l; induction xs as [|y xs IH]; intros l; cbn; [rewrite elem_of_nil; tauto|]. rewrite IH, elem_of_cons. unfold push_new.
  case_bool_decide; [split; [tauto|]; intros [?|[->|?]]; tauto|]. rewrite elem_of_app, list_elem_of_singleton. tauto.
Qed.

Lemma collect_map_lookup {V} (l : list (Z * V)) k v : NoDup l.*1 → (k, v) ∈ l → collect_map l !! k = Some v.
Proof.
  unfold collect_map. induction l as [|[k' v'] l IH] using rev_ind; [by intros _ ?%not_elem_of_nil|].
  rewrite fmap_app, foldl_app. intros (Hnd & Hdisj & _)%NoDup_app [Hin|[= -> ->]%list_elem_of_singleton]%elem_of_app; cbn.
  - rewrite lookup_insert_ne; [by apply IH|]. intros ->. apply (Hdisj k); [by apply (list_elem_of_fmap_2 fst _ (k, v))|left].
  - by rewrite lookup_insert_eq.
Qed.

(** A plan's blocks go to the set object or to a split object. *)
Lemma plan_parts q b : b ∈ plan_blocks q ↔ b ∈ set_blocks q ∨ b ∈ concat (split_part (cp_compacted_objects q)).
Proof.
  unfold plan_blocks, set_blocks, split_part. induction (cp_compacted_objects q) as [|c l IH]; [cbn; rewrite elem_of_nil; tauto|].
  cbn [fmap list_fmap concat]. rewrite !filter_cons, elem_of_app, IH. destruct (co_type c) eqn:E;
    [rewrite decide_False by done; rewrite decide_True by done|rewrite decide_True by done; rewrite decide_False by done];
    cbn; rewrite elem_of_app; tauto.
Qed.

Lemma plans_parts plans b :
  b ∈ concat (plan_blocks <$> plans)
  ↔ b ∈ concat (set_blocks <$> plans) ++ concat (concat ((λ q, split_part (cp_compacted_objects q)) <$> plans)).
Proof.
  rewrite elem_of_app. induction plans as [|q plans IH]; [cbn; rewrite !elem_of_nil; tauto|].
  cbn [fmap list_fmap concat]. rewrite concat_app, !elem_of_app, IH, plan_parts. tauto.
Qed.

Lemma plan_parts_sub plans :
  concat (set_blocks <$> plans) ⊆+ concat (plan_blocks <$> plans)
  ∧ concat (concat ((λ q, split_part (cp_compacted_objects q)) <$> plans)) ⊆+ concat (plan_blocks <$> plans).
Proof.
  assert (∀ (f : CompactedObject → Prop) `{∀ x, Decision (f x)} l, concat (co_blocks <$> filter f l) ⊆+ concat (co_blocks <$> l)) as Hfil.
  { intros f ? l. induction l as [|c l IH]; [done|]. cbn [fmap list_fmap concat]. rewrite filter_cons. case_decide; cbn; [by apply submseteq_app|by apply submseteq_inserts_l]. }
  induction plans as [|q plans [IH1 IH2]]; [done|]. cbn [fmap list_fmap concat]. split.
  - apply submseteq_app; [apply Hfil|done].
  - rewrite concat_app. apply submseteq_app; [apply Hfil|done].
Qed.
Lemma compacted_ids_spec cache plans sel (removed : gset Z) id :
  (∀ o, o ∈ sel → o ∈ objects) → NoDup (om_object_id <$> sel) →
  plans = [] ∨ concat (plan_blocks <$> plans)
      ≡ₚ filter (λ b, bk_object_id b ∉ removed) (map_blocks (filter_blocks_to_compact (collect_blocks sel)))
    ∧ Forall (stage_ok cache) plans →
  id ∈ compacted_ids plans (collect_blocks sel) →
  ∃ o, o ∈ sel ∧ om_object_id o = id ∧ ∀ b, b ∈ lives o → b ∈ concat (plan_blocks <$> plans).
Proof.
  intros Hsub Hnd Hpl. destruct (collect_blocks_spec sel Hsub Hnd) as [Hcol _]. unfold compacted_ids.
  rewrite push_new_elem, push_new_elem. intros [[?%not_elem_of_nil|Hid]|Hid]; [done|..].
  - apply list_elem_of_fmap in Hid as (b & -> & Hb). destruct Hpl as [->|[Hperm Hst]]; [by apply not_elem_of_nil in Hb|].
    assert (b ∈ concat (plan_blocks <$> plans)) as Hbp.
    { apply list_elem_of_In, in_concat in Hb as (l & Hl%list_elem_of_In & Hb%list_elem_of_In).
      apply list_elem_of_fmap in Hl as (q & -> & Hq). apply list_elem_of_In, in_concat in Hb as (l & Hl%list_elem_of_In & Hb%list_elem_of_In).
      apply elem_of_values in Hl as [k Hk]. rewrite Forall_forall in Hst. destruct (sg_reads _ _ (Hst q Hq) k l Hk) as (_ & Hl & _).
      rewrite Hl in Hb. apply list_elem_of_filter in Hb as [_ Hb]. apply list_elem_of_In, in_concat. exists (plan_blocks q).
      rewrite <- !list_elem_of_In. split; [by apply list_elem_of_fmap_2|done]. }
    pose proof Hbp as Hbf. rewrite Hperm in Hbf. apply list_elem_of_filter in Hbf as [Hnr Hbf].
    apply map_blocks_elem in Hbf as (id' & l & Hl & Hbl). pose proof Hl as [(o & Ho & Eid & ->)%Hcol _]%filter_blocks_spec.
    exists o. split; [done|]. assert (∀ x, x ∈ lives o → bk_object_id x = om_object_id o) as Hoid.
    { intros x [_ Hx]%list_elem_of_filter. by apply (ro_block_ids Hround); [apply Hsub|]. }
    split; [by rewrite (Hoid b Hbl)|]. intros b' Hb'. rewrite Hperm. apply list_elem_of_filter. split.
    + by rewrite (Hoid b' Hb'), <- (Hoid b Hbl).
    + apply map_blocks_elem. by exists id', (lives o).
  - apply list_elem_of_fmap in Hid as ([k l] & -> & Hin). apply list_elem_of_filter in Hin as [Hl Hin%elem_of_map_to_list].
    cbn in Hl. subst l. apply Hcol in Hin as (o & Ho & Eid & El). exists o. split; [done|]. split; [done|].
    rewrite <- El. by intros b ?%not_elem_of_nil.
Qed.

(** ** Compaction of the other objects *)

Hypothesis split_nonneg : 0 ≤ cc_stream_split_size config.
Hypothesis cache_nonneg : 0 ≤ cc_compaction_cache_size config.
Hypothesis blocks_fit : Forall (λ b, bk_size b ≤ cc_compaction_cache_size config) all_blocks.

Lemma concat_lives_sub sel : NoDup (om_object_id <$> sel) → (∀ o, o ∈ sel → o ∈ objects) → concat (lives <$> sel) ⊆+ all_blocks.
Proof.
  intros Hnd Hsub. assert (sel ⊆+ objects) as Hs by (apply NoDup_submseteq; [by eapply NoDup_fmap_1|done]).
  etrans; [|by apply concat_submseteq, fmap_submseteq].
  clear. induction sel as [|o sel IH]; cbn; [done|]. apply submseteq_app; [apply sublist_submseteq, filter_sublist|done].
Qed.

Lemma collect_input_ok sel :
  (∀ o, o ∈ sel → o ∈ objects) → NoDup (om_object_id <$> sel) → input_ok (analyzer_of config) (collect_blocks sel).
Proof.
  intros Hsub Hnd. destruct (collect_blocks_spec sel Hsub Hnd) as [_ Hperm]. pose proof (concat_lives_sub sel Hnd Hsub) as Hs. rewrite <- Hperm in Hs.
  assert (∀ P : StreamDataBlock → Prop, Forall P all_blocks → Forall P (map_blocks (collect_blocks sel))) as Hall.
  { intros P HP. apply submseteq_Permutation in Hs as (k & E). rewrite E in HP. by apply Forall_app in HP as [? _]. }
  assert (Forall sized all_blocks) as Hsz by (eapply Forall_impl; [apply Hround|apply bo_sized]).
  constructor; [by apply Hall|by apply Hall| |].
  - pose proof (total_submseteq _ _ Hs Hsz). pose proof (ro_small Hround) as [_ ?]. lia.
  - apply Hall. eapply Forall_impl; [apply Hround|]. intros b Hb. by apply (bo_offsets _ Hb).
Qed.

(** The plan's blocks are the round's. *)
Lemma plans_from sel (removed : gset Z) plans (D : gset Z) s :
  (∀ o, o ∈ sel → o ∈ objects ∧ om_object_id o ∉ D) → NoDup (om_object_id <$> sel) →
  concat (plan_blocks <$> plans)
    ≡ₚ filter (λ b, bk_object_id b ∉ removed) (map_blocks (filter_blocks_to_compact (collect_blocks sel))) →
  (∀ o, o ∈ sel → source s o (blocks_of o)) →
  concat (plan_blocks <$> plans) ⊆+ all_blocks
  ∧ (∀ b, b ∈ concat (plan_blocks <$> plans) → ∃ o, o ∈ sel ∧ om_object_id o ∉ removed ∧ b ∈ blocks_of o ∧ bk_object_id b = om_object_id o).
Proof.
  intros Hsel Hnd Hperm Hsrc. assert (∀ o, o ∈ sel → o ∈ objects) as Hsub by (intros o Ho; by apply Hsel).
  destruct (collect_blocks_spec sel Hsub Hnd) as [Hcol Hcp]. split.
  - rewrite Hperm. etrans; [apply sublist_submseteq, filter_sublist|]. etrans; [apply map_blocks_sub, filter_blocks_sub|].
    rewrite Hcp. by apply concat_lives_sub.
  - intros b Hb. rewrite Hperm in Hb. apply list_elem_of_filter in Hb as [Hr Hb]. apply map_blocks_elem in Hb as (id & l & Hl & Hb).
    apply filter_blocks_spec in Hl as [(o & Ho & _ & ->)%Hcol _]. apply list_elem_of_filter in Hb as [_ Hb].
    pose proof (ro_block_ids Hround o b (Hsub o Ho) Hb) as E. exists o. split; [done|]. split; [by rewrite <- E|done].
Qed.

(** The round's last steps on a grown state. *)
Lemma commit_or_not s m D lo req sb groups (has : bool) s0 m0 :
  Inv s m D → grows s m s0 m0 → outcome s0 m0 D lo req sb groups →
  ∃ s' m' r, (if is_sanity_check_failed streams block_map req then Some (s0, m0, Ok (E := StreamError) has)
              else match mgr_commit m0 now req with
                   | (m, Err e) => Some (s0, m, Err e)
                   | (m, Ok _) => Some (s0, m, Ok has)
                   end) = Some (s', m', Ok r)
    ∧ manager_ok m' ∧ ∀ o b rc, o ∈ objects → b ∈ lives o → rc ∈ recs b → found s' m' rc.
Proof.
  intros HI Hg Hoc. pose proof (Inv_grows _ _ _ _ _ Hg HI) as HI0. destruct (is_sanity_check_failed _ _ _).
  - exists s0, m0, has. split; [done|]. split; [apply HI0|]. intros o b rc. by eapply Inv_found.
  - change (mgr_commit m0 now req) with ((commit_stream_set_object now req m0).1, Ok (E := StreamError) tt). cbn iota.
    exists s0, (commit_stream_set_object now req m0).1, has. split; [done|]. split.
    + apply (mstep_ok m0 _ (ms_commit m0 now req)), HI0.
    + intros o b rc. by eapply commit_round.
Qed.
(** Rounding up the stream set object. *)
Lemma complete_spec s m s1 m1 lo p sb groups :
  grows s m s1 m1 → lo = ms_object_id_alloc m → ms_object_id_alloc m1 < 2 ^ 64 →
  prog_ok s1 m1 lo p sb groups → blocks_good sb → small sb →
  ∃ s2 u size, complete (pg_uploader p) now s1 = (s2, u, size) ∧ grows s m s2 m1
    ∧ Forall2 (described s2 lo (ms_object_id_alloc m1)) groups (pg_stream_objects p)
    ∧ (sb = [] → cu_stream_set_object_id u = None)
    ∧ (sb ≠ [] → ∃ id index, cu_stream_set_object_id u = Some id ∧ lo ≤ id < ms_object_id_alloc m1
        ∧ object_reads s2 (object_key id) size index (group_ops recs (index_groups sb))).
Proof.
  intros Hg -> Ha [_ [_ Hu] Hf Hlo Hfr] (Hok & Hm & Hc) [Hn Ht]. unfold complete.
  destruct Hu as [(-> & -> & E)|(Hne & id & Eid & Hid & ->)].
  { exists s1, (pg_uploader p), 0. split; [done|]. split; [done|]. split; [done|]. by split. }
  destruct (dw_object_reads data recs s1 now id (cc_object_part_size config) sb Hok Hm Hc Hn Ht) as (d & size & index & -> & Hr & _).
  eexists _, _, size. split; [reflexivity|]. split; [apply grows_write; [done|lia]|]. split; [|split; [done|]].
  - apply Forall2_same_length_lookup. split; [by eapply Forall2_length|]. intros i g so Hgi Hso.
    destruct (Forall2_lookup_lr _ _ _ _ _ _ Hf Hgi Hso) as [Hd Hr']. split; [|done]. eapply so_desc_same; [|exact Hd].
    intros a b. apply os_write_other. intros E. apply object_key_inj in E; [|int_lia|int_lia].
    specialize (Hfr id Eid). rewrite Forall_forall in Hfr. apply (Hfr so); [by eapply list_elem_of_lookup_2|done].
  - intros _. exists id, index. done.
Qed.

Lemma split_part_runs cache plans :
  Forall (stage_ok cache) plans → Forall run (concat ((λ q, split_part (cp_compacted_objects q)) <$> plans)).
Proof.
  intros Hst. apply Forall_concat, Forall_fmap. eapply Forall_impl; [exact Hst|]. intros q [_ Hr _ _]. unfold compose, split_part.
  apply Forall_fmap, Forall_forall. intros c [Hc Hin]%list_elem_of_filter. rewrite Forall_forall in Hr. by apply (Hr c Hin).
Qed.

Lemma compact_round_spec running todo s m D :
  Inv s m D → (∀ o, o ∈ todo → o ∈ objects ∧ om_object_id o ∉ D) → NoDup (om_object_id <$> todo) →
  0 ≤ ms_object_id_alloc m → ms_object_id_alloc m + len all_blocks < 2 ^ 64 →
  ∃ s' m' r, compact_round config now running streams todo block_map s m = Some (s', m', Ok r)
    ∧ manager_ok m' ∧ ∀ o b rc, o ∈ objects → b ∈ lives o → rc ∈ recs b → found s' m' rc.
Proof.
  intros HI Htodo Hnd Ha0 Ha.
  assert (∀ s' m' D', Inv s' m' D' → manager_ok m' ∧ ∀ o b rc, o ∈ objects → b ∈ lives o → rc ∈ recs b → found s' m' rc) as Hinv.
  { intros s' m' D' HI'. split; [apply HI'|]. intros o b rc. by eapply Inv_found. }
  unfold compact_round. destruct todo as [|o0 todo0] eqn:Et; [exists s, m, false; split; [done|by eapply Hinv]|]. rewrite <- Et in *. clear Et o0 todo0.
  set (has := _ <? len _). set (sel := if has then _ else _). fold (collect_blocks sel).
  assert (sublist sel (sort_by newest_first todo)) as Hsl.
  { subst sel. destruct has; [|done]. rewrite takeZ_take. apply sublist_take. }
  assert (∀ o, o ∈ sel → o ∈ objects ∧ om_object_id o ∉ D) as Hsel.
  { intros o Ho. apply Htodo. eapply elem_of_sort_by, elem_of_submseteq; [exact Ho|by apply sublist_submseteq]. }
  assert (NoDup (om_object_id <$> sel)) as Hnds.
  { eapply NoDup_sub; [|exact Hnd]. rewrite <- (sort_by_perm newest_first todo). by apply fmap_submseteq, sublist_submseteq. }
  assert (∀ o, o ∈ sel → o ∈ objects) as Hsub by (intros o Ho; by apply Hsel). clearbody sel has.
  destruct (analyze_spec (analyzer_of config) (collect_blocks sel) ∅ split_nonneg cache_nonneg (collect_input_ok sel Hsub Hnds))
    as (plans & removed & -> & Hplans). rewrite (left_id_L ∅ (∪)).
  assert (∀ id, id ∈ compacted_ids plans (collect_blocks sel) → ∃ o, o ∈ sel ∧ om_object_id o = id ∧ ∀ b, b ∈ lives o → b ∈ concat (plan_blocks <$> plans)) as Hids.
  { intros id. eapply (compacted_ids_spec (ca_compaction_cache_size (analyzer_of config)) plans sel removed); [done|done|]. destruct Hplans as [?|(? & _ & ?)]; [by left|by right]. }
  assert (∀ o, o ∈ objects → 0 ≤ om_object_id o < ms_object_id_alloc m) as Hlo by apply (iv_alloc _ _ _ HI).
  destruct plans as [|q0 plans0] eqn:Ep.
  - destruct (compacted_ids [] (collect_blocks sel)) as [|i0 is0] eqn:Ei; [exists s, m, has; split; [done|by eapply Hinv]|]. rewrite <- Ei in *.
    apply (commit_or_not s m D (ms_object_id_alloc m) _ [] []); [done|apply grows_refl|]. constructor; cbn; try done.
    + by intros b ?%not_elem_of_nil.
    + constructor.
    + intros id Hid%elem_of_sort_by. destruct (Hids id Hid) as (o & Ho & E & Hall). exists o. destruct (Hsel o Ho). rewrite <- E. done.
    + split; lia.
  - rewrite <- Ep in *. assert (plans ≠ []) as Hpne by (by rewrite Ep). clear Ep q0 plans0. destruct Hplans as [->|(Hperm & _ & Hst)]; [done|].
    assert (∀ o, o ∈ sel → source s o (blocks_of o)) as Hsrc by (intros o Ho; destruct (Hsel o Ho); by apply (iv_src _ _ _ HI)).
    destruct (plans_from sel removed plans D s Hsel Hnds Hperm Hsrc) as [Hsubm Hfrom].
    assert (Forall sized all_blocks) as Hsz by (eapply Forall_impl; [apply Hround|apply bo_sized]).
    assert (small (concat (plan_blocks <$> plans))) as Hsm by (eapply small_sub; [done|done|apply Hround]).
    assert (blocks_good (concat (plan_blocks <$> plans))) as Hgood.
    { unfold blocks_good, sizes_match. rewrite !Forall_forall. split_and!; intros b Hb; destruct (Hfrom b Hb) as (o & Ho & _ & Hbo & _);
        destruct (Hsrc o Ho) as [_ _ _ (A & B & C) _]; unfold sizes_match in B; rewrite Forall_forall in A, B, C; auto. }
    set (kept := filter (λ o, om_object_id o ∉ removed) sel).
    set (by_id := collect_map ((λ o, (om_object_id o, o)) <$> kept)).
    assert (Forall (plan_sources s by_id) plans) as Hps.
    { apply Forall_forall. intros q Hq b Hb. destruct (Hfrom b) as (o & Ho & Hnr & Hbo & Eid).
      { apply list_elem_of_In, in_concat. exists (plan_blocks q). rewrite <- !list_elem_of_In. split; [by apply list_elem_of_fmap_2|done]. }
      exists o. split; [|split; [by apply Hsub|split; [by apply Hsrc|done]]]. rewrite Eid. apply collect_map_lookup.
      - rewrite <- list_fmap_compose. change (fst ∘ (λ o, (om_object_id o, o))) with om_object_id. eapply NoDup_sub; [|exact Hnds]. apply fmap_submseteq, sublist_submseteq, filter_sublist.
      - apply (list_elem_of_fmap_2 (λ o, (om_object_id o, o))). by apply list_elem_of_filter. }
    pose proof (submseteq_length _ _ Hsubm) as Hlen.
    destruct (run_stages_spec (ca_compaction_cache_size (analyzer_of config)) running by_id plans s m (ms_object_id_alloc m)
      (mkProgress (uploader_new (cc_object_part_size config)) [] []) [] []) as (p' & s1 & m1 & fl & E & Hg & Ha1 & Hp); try done.
    { constructor; cbn; [done| |constructor|lia|done]. split; [done|]. by left. }
    { lia. }
    rewrite E. destruct fl; [|exists s1, m1, false; split; [done|]; eapply Hinv, Inv_grows; done].
    specialize (Hp eq_refl). cbn [app] in Hp. set (sb := concat (set_blocks <$> plans)) in *.
    set (groups := concat ((λ q, split_part (cp_compacted_objects q)) <$> plans)) in *.
    destruct (plan_parts_sub plans) as [Hsub1 Hsub2]. fold sb in Hsub1. fold groups in Hsub2.
    assert (Forall sized (concat (plan_blocks <$> plans))) as Hszp by (eapply Forall_impl; [exact (proj1 Hgood)|apply bo_sized]).
    destruct (complete_spec s m s1 m1 (ms_object_id_alloc m) p' sb groups) as (s2 & u & size & Ec & Hg2 & Hf2 & Hno & Hyes); [done|done|lia|done|..].
    { eapply blocks_good_sub; [|exact Hgood]. intros b Hb. by eapply elem_of_submseteq. }
    { by eapply small_sub. }
    rewrite (po_set _ _ _ _ _ _ Hp), Ec.
    destruct (compacted_ids plans (collect_blocks sel)) as [|i0 is0] eqn:Ei; [exists s2, m1, has; split; [done|]; eapply Hinv, Inv_grows; done|]. rewrite <- Ei in *.
    apply (commit_or_not s m D (ms_object_id_alloc m) _ sb groups); [done|done|]. constructor; cbn; try done.
    + intros Hne. destruct (Hyes Hne) as (id & index & -> & ? & ?). cbn. split; [done|by exists index].
    + intros Hnil. by rewrite (Hno Hnil).
    + by eapply split_part_runs.
    + intros b Hb. destruct (Hfrom b) as (o & Ho & _ & Hbo & _); [by apply plans_parts|]. destruct (Hsel o Ho). by exists o.
    + eapply NoDup_sub; [|apply (ro_keys Hround)]. apply fmap_submseteq. by etrans.
    + intros id Hid%elem_of_sort_by. destruct (Hids id Hid) as (o & Ho & E' & Hall). exists o. destruct (Hsel o Ho). rewrite <- E'.
      split; [done|]. split; [done|]. split; [done|]. intros b Hb. by apply plans_parts, Hall.
    + split; [pose proof (gr_alloc _ _ _ _ Hg2)|]; lia.
Qed.
End Safety.

(** ** One round *)

Lemma dedup_id seen l :
  NoDup (om_object_id <$> l) → (∀ o, o ∈ l → om_object_id o ∉ seen) → dedup_loop seen l = l.
Proof.
  revert seen; induction l as [|o l IH]; intros seen Hnd Hs; cbn; [done|]. cbn in Hnd. apply NoDup_cons in Hnd as [Hn Hnd].
  rewrite bool_decide_false by (apply Hs; left). f_equal. apply IH; [done|]. intros o' Ho' [E%elem_of_singleton|Hin]%elem_of_union.
  - apply Hn. rewrite <- E. by apply list_elem_of_fmap_2.
  - eapply Hs; [by right|done].
Qed.

Lemma push_new_NoDup l xs : NoDup l → NoDup (foldl push_new l xs).
Proof.
  revert l; induction xs as [|x xs IH]; intros l Hl; cbn; [done|]. apply IH. unfold push_new. case_bool_decide; [done|].
  apply NoDup_app. split; [done|]. split; [|apply NoDup_singleton]. intros y Hy Hx%list_elem_of_singleton. by subst.
Qed.

(** The stream set objects of the node and what the blocks of each are. *)
Record compactable {S} `{!ObjectStorage S} (data : StreamDataBlock → bytes) (recs : StreamDataBlock → list StreamRecordBatch)
    (blocks_of : S3ObjectMetadata → list StreamDataBlock) (s : S) (m : MetadataState) : Prop := {
  cw_ok : manager_ok m;
  cw_ids id o : ms_stream_set_objects m !! id = Some o → om_object_id o = id ∧ 0 ≤ id < ms_object_id_alloc m;
  cw_src id o : ms_stream_set_objects m !! id = Some o → source data recs s o (blocks_of o);
  cw_round : round_ok (get_server_objects m) blocks_of;
  cw_free id o b : ms_stream_set_objects m !! id = Some o → b ∈ blocks_of o →
    find_object (bk_stream_id b) (bk_start_offset b) (ms_stream_objects m) = None;
  cw_alloc : 0 ≤ ms_object_id_alloc m
    ∧ ms_object_id_alloc m + 2 * len (all_blocks (get_server_objects m) blocks_of) < 2 ^ 64;
}.

Section Once.
Context {S : Type} `{!ObjectStorage S} `{!ObjectStorageLaws S}.
Context (data : StreamDataBlock → bytes) (recs : StreamDataBlock → list StreamRecordBatch).
Context (blocks_of : S3ObjectMetadata → list StreamDataBlock) (s : S) (m : MetadataState).
Hypothesis Hw : compactable data recs blocks_of s m.
Let objects := get_server_objects m.

Lemma server_object o : o ∈ objects ↔ ms_stream_set_objects m !! om_object_id o = Some o.
Proof.
  unfold objects, get_server_objects. rewrite elem_of_values. split; [|by eexists].
  intros [k Hk]. by destruct (cw_ids _ _ _ _ _ Hw k o Hk) as [-> _].
Qed.

Lemma block_map_lookup o : o ∈ objects → build_stream_data_block_map s objects !! om_object_id o = Some (blocks_of o).
Proof.
  intros Ho. pose proof (ro_ids _ _ (cw_round _ _ _ _ _ Hw)) as Hnd. fold objects in Hnd.
  assert (∀ o, o ∈ objects → parse_data_block_index s o = Ok (blocks_of o)) as Hp.
  { intros o' Ho'%server_object. apply (sr_parse _ _ _ _ _ (cw_src _ _ _ _ _ Hw _ _ Ho')). }
  unfold build_stream_data_block_map. revert Hnd Hp Ho. generalize objects. clear. intros l.
  induction l as [|x l IH] using rev_ind; intros Hnd Hp Ho; [by apply not_elem_of_nil in Ho|].
  rewrite foldl_app. cbn. rewrite (Hp x) by (apply elem_of_app; right; left). rewrite fmap_app in Hnd. apply NoDup_app in Hnd as (Hnd & Hd & _).
  apply elem_of_app in Ho as [Ho|Ho%list_elem_of_singleton]; [|subst x; by rewrite lookup_insert_eq].
  rewrite lookup_insert_ne; [apply IH; [done|intros; apply Hp, elem_of_app; by left|done]|].
  intros E. apply (Hd (om_object_id o)); [by apply list_elem_of_fmap_2|rewrite <- E; left].
Qed.

Lemma map_blocks_in b : b ∈ map_blocks (build_stream_data_block_map s objects) ↔ b ∈ all_blocks objects blocks_of.
Proof.
  rewrite map_blocks_elem. unfold all_blocks. rewrite list_elem_of_In, in_concat. setoid_rewrite <- list_elem_of_In. split.
  - intros (id & l & Hl & Hb).
    assert (∃ o, o ∈ objects ∧ om_object_id o = id) as (o & Ho & <-).
    { unfold build_stream_data_block_map in Hl. revert Hl. generalize objects. clear. intros k.
      induction k as [|x k IH] using rev_ind; [cbn [foldl]; intros Hl; by rewrite lookup_empty in Hl|]. rewrite foldl_app. cbn.
      destruct (parse_data_block_index s x) as [bs|]; [intros [[<- _]|[_ Hl]]%lookup_insert_Some|intros Hl].
      - exists x. split; [apply elem_of_app; right; left|done].
      - destruct (IH Hl) as (o & ? & ?). exists o. split; [apply elem_of_app; by left|done].
      - destruct (IH Hl) as (o & ? & ?). exists o. split; [apply elem_of_app; by left|done]. }
    rewrite block_map_lookup in Hl by done. injection Hl as <-. exists (blocks_of o). split; [by apply list_elem_of_fmap_2|done].
  - intros (l & Hl & Hb). apply list_elem_of_fmap in Hl as (o & -> & Ho). exists (om_object_id o), (blocks_of o).
    split; [by apply block_map_lookup|done].
Qed.

(** The trim points the round sees. *)
Lemma starts_live ids b st :
  NoDup ids → bk_stream_id b ∈ ids → ms_streams m !! bk_stream_id b = Some st → sm_start_offset st < bk_end_offset b →
  live (start_offsets (get_streams ids m)) b = true.
Proof.
  intros Hnd Hin Hst Hlt. unfold live.
  assert (start_offsets (get_streams ids m) !! bk_stream_id b = Some (sm_start_offset st)) as ->; [|lia].
  pose proof (cw_ok _ _ _ _ _ Hw) as Hok. unfold start_offsets. apply collect_map_lookup.
  - rewrite <- list_fmap_compose. unfold get_streams. clear -Hnd Hok. induction Hnd as [|x l Hx Hnd IH]; cbn; [constructor|].
    destruct (ms_streams m !! x) as [sx|] eqn:Ex; [|done]. cbn. constructor; [|done].
    intros (sy & E & Hy)%list_elem_of_fmap. apply list_elem_of_omap in Hy as (y & Hy & Ey). cbn in E.
    destruct (mo_streams _ Hok _ _ Ex) as [Ex' _]. destruct (mo_streams _ Hok _ _ Ey) as [Ey' _]. congruence.
  - apply list_elem_of_fmap. exists st. destruct (mo_streams _ Hok _ _ Hst) as [E _]. split; [by rewrite E|].
    apply list_elem_of_omap. by exists (bk_stream_id b).
Qed.

Lemma filtered_lookup ids o :
  o ∈ objects →
  filter_invalid_stream_data_blocks (get_streams ids m) (build_stream_data_block_map s objects) !! om_object_id o
  = Some (lives blocks_of (start_offsets (get_streams ids m)) o).
Proof. intros Ho. unfold filter_invalid_stream_data_blocks. by rewrite lookup_fmap, block_map_lookup. Qed.

Lemma start_inv starts : Inv data recs objects blocks_of starts s m ∅.
Proof.
  constructor.
  - apply Hw.
  - intros o Ho%server_object. by destruct (cw_ids _ _ _ _ _ Hw _ _ Ho).
  - intros o Ho%server_object _. split; [done|]. by apply (cw_src _ _ _ _ _ Hw _ _ Ho).
  - intros o b Ho%server_object _ Hb. by eapply (cw_free _ _ _ _ _ Hw).
  - by intros o b r _ ?%not_elem_of_empty.
Qed.

Lemma filter_ids (P : S3ObjectMetadata → Prop) `{∀ o, Decision (P o)} : NoDup (om_object_id <$> filter P objects).
Proof. eapply NoDup_sub; [|apply (cw_round _ _ _ _ _ Hw)]. apply fmap_submseteq, sublist_submseteq, filter_sublist. Qed.

Lemma filter_blocks_len (P : S3ObjectMetadata → Prop) `{∀ o, Decision (P o)} :
  len (concat (blocks_of <$> filter P objects)) ≤ len (all_blocks objects blocks_of).
Proof.
  apply Nat2Z.inj_le, submseteq_length, concat_submseteq, fmap_submseteq, sublist_submseteq, filter_sublist.
Qed.

(** What must stay readable. *)
Definition keeps (s' : S) (m' : MetadataState) : Prop :=
  ∀ id o b st r, ms_stream_set_objects m !! id = Some o → b ∈ blocks_of o → ms_streams m !! bk_stream_id b = Some st →
    sm_start_offset st < bk_end_offset b → r ∈ recs b → record_readable s' m' r.

Lemma found_keeps ids s' m' :
  NoDup ids → (∀ b, b ∈ all_blocks objects blocks_of → bk_stream_id b ∈ ids) → manager_ok m' →
  (∀ o b r, o ∈ objects → b ∈ lives blocks_of (start_offsets (get_streams ids m)) o → r ∈ recs b → found s' m' r) → keeps s' m'.
Proof.
  intros Hnd Hids Hok Hf id o b st r Ho Hb Hst Hlt Hr. apply found_readable; [done|].
  destruct (cw_ids _ _ _ _ _ Hw id o Ho) as [E _]. subst id. apply server_object in Ho. eapply Hf; [exact Ho| |exact Hr].
  apply list_elem_of_filter. split; [|done]. eapply starts_live; [done|apply Hids; by eapply all_blocks_elem|done|done].
Qed.

Lemma stream_ids_ok :
  NoDup (stream_ids_of (build_stream_data_block_map s objects))
  ∧ ∀ b, b ∈ all_blocks objects blocks_of → bk_stream_id b ∈ stream_ids_of (build_stream_data_block_map s objects).
Proof.
  split; [apply push_new_NoDup; constructor|]. intros b Hb. apply push_new_elem. right. apply list_elem_of_fmap_2. by apply map_blocks_in.
Qed.

Context (config : CompactionConfig) (now : Z).
Hypothesis bandwidth_ok : 0 ≤ cc_network_bandwidth config.
Hypothesis split_nonneg : 0 ≤ cc_stream_split_size config.
Hypothesis cache_nonneg : 0 ≤ cc_compaction_cache_size config.

Lemma untouched_keeps : keeps s m.
Proof.
  destruct stream_ids_ok. eapply found_keeps; [done|done|apply Hw|]. intros o b r Ho Hb Hr.
  eapply (Inv_found data recs objects blocks_of); [apply start_inv|done..].
Qed.

Lemma server_dedup : deduplicate_objects_by_id objects = objects.
Proof. apply dedup_id; [apply (cw_round _ _ _ _ _ Hw)|]. intros o _. apply not_elem_of_empty. Qed.

Lemma compact_once_keeps running running' :
  ∃ s' m' r, compact_once config now running running' s m = Some (s', m', r) ∧ keeps s' m'.
Proof.
  unfold compact_once. cbn [mgr_get_server_objects memory_compaction_host]. fold objects.
  destruct objects as [|o0 os0] eqn:Eo; [exists s, m, (Ok false); split; [done|apply untouched_keeps]|]. rewrite <- Eo in *. fold objects.
  rewrite server_dedup. destruct (existsb _ _) eqn:Ex; [exists s, m, (Err SE_Unexpected); split; [done|apply untouched_keeps]|].
  cbn [mgr_get_streams memory_compaction_host]. set (ids := stream_ids_of _). set (streams := get_streams ids m).
  set (bm := filter_invalid_stream_data_blocks streams _). set (cutoff := sat_sub_i64 now _). clearbody cutoff.
  destruct stream_ids_ok as [Hnd Hin]. fold ids in Hnd, Hin. pose proof (cw_alloc _ _ _ _ _ Hw) as [Ha0 Ha]. fold objects in Ha.
  assert (Forall (λ b, bk_size b ≤ cc_compaction_cache_size config) (all_blocks objects blocks_of)) as Hfit.
  { apply Forall_forall. intros b Hb%map_blocks_in. destruct (decide (bk_size b ≤ cc_compaction_cache_size config)) as [|Hgt]; [done|].
    exfalso. apply not_true_iff_false in Ex. apply Ex. apply existsb_exists. exists b. split; [by apply list_elem_of_In|lia]. }
  pose proof (filter_blocks_len (λ o, om_data_timestamp_ms o ≤ cutoff)) as Hlen.
  destruct (force_split_spec data recs config now bandwidth_ok objects blocks_of (start_offsets streams) (cw_round _ _ _ _ _ Hw) streams bm
    (filtered_lookup ids) running (filter (λ o, om_data_timestamp_ms o ≤ cutoff) objects) s m ∅) as (s1 & m1 & D & -> & HI & HD & Ha1).
  - intros o [_ Ho]%list_elem_of_filter. split; [done|apply not_elem_of_empty].
  - apply filter_ids.
  - apply start_inv.
  - done.
  - lia.
  - destruct (compact_round_spec data recs config now bandwidth_ok objects blocks_of (start_offsets streams) (cw_round _ _ _ _ _ Hw) streams bm
      (filtered_lookup ids) split_nonneg cache_nonneg Hfit running' (filter (λ o, ¬ om_data_timestamp_ms o ≤ cutoff) objects) s1 m1 D HI)
      as (s' & m' & r & -> & Hok & Hf).
    + intros o [Hgt Ho]%list_elem_of_filter. split; [done|]. intros [?%not_elem_of_empty|Hin']%HD; [done|].
      apply list_elem_of_fmap in Hin' as (o' & E & [Hle Ho']%list_elem_of_filter).
      assert (o = o') as -> by (eapply same_id; [apply (cw_round _ _ _ _ _ Hw)|done..]). done.
    + apply filter_ids.
    + lia.
    + lia.
    + exists s', m', (Ok r). split; [done|]. by apply (found_keeps ids).
Qed.

Lemma force_split_all_keeps running :
  ∃ s' m' r, force_split_all config now running s m = Some (s', m', r) ∧ keeps s' m'.
Proof.
  unfold force_split_all. cbn [mgr_get_server_objects memory_compaction_host]. fold objects.
  destruct objects as [|o0 os0] eqn:Eo; [exists s, m, (Ok tt); split; [done|apply untouched_keeps]|]. rewrite <- Eo in *. fold objects.
  rewrite server_dedup. cbn [mgr_get_streams memory_compaction_host]. set (ids := sort_by id_le _). set (streams := get_streams ids m).
  set (bm := filter_invalid_stream_data_blocks streams _).
  assert (NoDup ids) as Hnd by (unfold ids; rewrite sort_by_perm; apply NoDup_elements).
  assert (∀ b, b ∈ all_blocks objects blocks_of → bk_stream_id b ∈ ids) as Hin.
  { intros b Hb. unfold ids. rewrite elem_of_sort_by, elem_of_elements, elem_of_list_to_set. apply list_elem_of_fmap_2. by apply map_blocks_in. }
  pose proof (cw_alloc _ _ _ _ _ Hw) as [Ha0 Ha]. fold objects in Ha.
  destruct (force_split_spec data recs config now bandwidth_ok objects blocks_of (start_offsets streams) (cw_round _ _ _ _ _ Hw) streams bm
    (filtered_lookup ids) running objects s m ∅) as (s1 & m1 & D & -> & HI & _ & _).
  - intros o Ho. split; [done|apply not_elem_of_empty].
  - apply (cw_round _ _ _ _ _ Hw).
  - apply start_inv.
  - done.
  - change (concat (blocks_of <$> objects)) with (all_blocks objects blocks_of). lia.
  - exists s1, m1, (Ok tt). split; [done|]. apply (found_keeps ids); [done|done|apply HI|]. intros o b r. by eapply Inv_found.
Qed.
End Once.

(** ** Properties *)

(** C4: compaction loses no record.  Take any node whose stream set objects are intact,
    that is, each index parses and each block's bytes decode to its records.  A compaction
    round, whatever the flag readings, returns, whether it split objects, rewrote them
    along a plan, was shut down half way, refused an oversized block or was stopped by the
    sanity check, and afterwards every record of every block that is not trimmed, of every
    stream that exists, is found by a lookup of its offsets in an object that reads back
    to it.  The same holds for a forced split of all objects. *)
Theorem compaction_keeps_records {S : Type} `{!ObjectStorage S} `{!ObjectStorageLaws S}
    data recs blocks_of (s : S) m config now running running' :
  compactable data recs blocks_of s m →
  0 ≤ cc_network_bandwidth config → 0 ≤ cc_stream_split_size config → 0 ≤ cc_compaction_cache_size config →
  (∃ s' m' r, compact_once config now running running' s m = Some (s', m', r) ∧ keeps recs blocks_of m s' m')
  ∧ (∃ s' m' r, force_split_all config now running s m = Some (s', m', r) ∧ keeps recs blocks_of m s' m').
Proof. intros Hw Hb Hs Hc. split; [by eapply compact_once_keeps|by eapply force_split_all_keeps]. Qed.

Definition toy_out (i : Z) : bytes * Z :=
  dw_close (dw_writes (λ _, demo_bytes i) (dw_open i 0) [sdb_new 1 i (i + 1) i 0 (len (demo_bytes i)) 1]).
Definition toy_block (i : Z) : StreamDataBlock :=
  mkBlock i {| bi_block_id := 0; bi_stream_id := 1; bi_start_offset := i; bi_end_offset_delta := 1; bi_record_count := 1;
               bi_start_position := 0; bi_size := len (demo_bytes i) |}.
Definition toy_object (i : Z) : S3ObjectMetadata :=
  {| om_object_id := i; om_object_type := StreamSet;
     om_offset_ranges := [ {| sr_stream_id := 1; sr_start_offset := i; sr_end_offset := i + 1 |} ];
     om_object_size := (toy_out i).2; om_attributes := 0; om_committed_timestamp_ms := 0; om_data_timestamp_ms := 0 |}.
Definition toy_store : MemoryObjectStorage :=
  os_write (os_write (ms_new 0) 0 (object_key 1) (toy_out 1).1) 0 (object_key 2) (toy_out 2).1.
Definition toy_meta : MetadataState :=
  mkMeta {[1 := toy_object 1; 2 := toy_object 2]} ∅ {[1 := mkStream 1 0 0 3 StreamOpened 0]} 2 ∅ 0 3.
Definition toy_data (b : StreamDataBlock) : bytes := demo_bytes (bk_start_offset b).
Definition toy_recs (b : StreamDataBlock) : list StreamRecordBatch := [demo_rec (bk_start_offset b)].
Definition toy_blocks (o : S3ObjectMetadata) : list StreamDataBlock := [toy_block (om_object_id o)].

Lemma toy_source i : i = 1 ∨ i = 2 → source toy_data toy_recs toy_store (toy_object i) (toy_blocks (toy_object i)).
Proof.
  intros Hi. destruct (demo_content i ltac:(lia)) as [Hok [Hc Hrs]].
  constructor.
  - apply Forall_singleton. done.
  - destruct Hi as [->| ->]; vm_compute; reflexivity.
  - exists (toy_out i).1. split; [|split].
    + destruct Hi as [->| ->]; [|apply stored_written]. apply stored_other; [|apply stored_written]. vm_compute. discriminate.
    + destruct Hi as [->| ->]; vm_compute; reflexivity.
    + apply Forall_singleton. destruct Hi as [->| ->]; (split; [vm_compute; intuition discriminate|vm_compute; reflexivity]).
  - split; [|split]; apply Forall_singleton.
    + destruct Hi as [->| ->]; constructor; vm_compute; intuition discriminate.
    + done.
    + split; [exact Hc|]. apply Forall_singleton. destruct Hi as [->| ->]; vm_compute; intuition discriminate.
  - intros b r ->%list_elem_of_singleton ->%list_elem_of_singleton. eexists. split; [left|].
    destruct Hi as [->| ->]; vm_compute; intuition discriminate.
Qed.

Lemma toy_lookup id o : ms_stream_set_objects toy_meta !! id = Some o → (id = 1 ∨ id = 2) ∧ o = toy_object id.
Proof.
  cbn. intros [[<- <-]|[_ [<- <-]%lookup_singleton_Some]]%lookup_insert_Some; by auto.
Qed.

Lemma toy_compactable : compactable toy_data toy_recs toy_blocks toy_store toy_meta.
Proof.
  constructor.
  - constructor; cbn.
    + done.
    + intros id st [<- <-]%lookup_singleton_Some. done.
    + intros id per k o H. by rewrite lookup_empty in H.
  - intros id o [Hi ->]%toy_lookup. cbn. lia.
  - intros id o [Hi ->]%toy_lookup. by apply toy_source.
  - assert (get_server_objects toy_meta = [toy_object 1; toy_object 2]) as E by (vm_compute; reflexivity).
    assert (all_blocks (get_server_objects toy_meta) toy_blocks = [toy_block 1; toy_block 2]) as Eb by (by rewrite E).
    constructor; rewrite ?Eb, ?E.
    + apply (bool_decide_unpack _). vm_compute. exact I.
    + by intros o b Ho ->%list_elem_of_singleton.
    + intros b c Hb Hc Ei _. rewrite !elem_of_cons, elem_of_nil in Hb, Hc.
      destruct Hb as [->|[->|[]]], Hc as [->|[->|[]]]; done.
    + apply (bool_decide_unpack _). vm_compute. exact I.
    + repeat apply Forall_cons_2; [..|apply Forall_nil_2]; constructor; vm_compute; intuition discriminate.
    + split; vm_compute; reflexivity.
  - intros id o b _ _. done.
  - split; vm_compute; [discriminate|reflexivity].
Qed.

Lemma compaction_keeps_records_witness :
  ∃ s' m' r, compact_once config_defaults 0 (λ _, true) (λ _, true) toy_store toy_meta = Some (s', m', r)
    ∧ record_readable s' m' (demo_rec 1) ∧ record_readable s' m' (demo_rec 2).
Proof.
  destruct (compaction_keeps_records toy_data toy_recs toy_blocks toy_store toy_meta config_defaults 0 (λ _, true) (λ _, true))
    as [(s' & m' & r & E & Hk) _].
  - apply toy_compactable.
  - vm_compute. discriminate.
  - vm_compute. discriminate.
  - vm_compute. discriminate.
  - exists s', m', r. split; [exact E|]. split.
    + apply (Hk 1 (toy_object 1) (toy_block 1) (mkStream 1 0 0 3 StreamOpened 0)); [reflexivity|left|reflexivity|vm_compute; reflexivity|left].
    + apply (Hk 2 (toy_object 2) (toy_block 2) (mkStream 1 0 0 3 StreamOpened 0)); [reflexivity|left|reflexivity|vm_compute; reflexivity|left].
Defined.
