(* ===== verification/StreamCompactor.v ===== *)
(** * Per-stream object compaction

    Models [s3stream-core/src/compact/stream_compactor.rs]: dropping a stream's expired
    objects, and merging the small ones, physically by copying their live data into one
    object whose index is regrouped, or logically by linking them into a composite object.

    [now] is the wall clock of the registry.  [None] is a panic: an empty group, a block
    range of a composite's unit that is out of bounds. *)
From Stdlib Require Import Floats.SpecFloat.
From S2P Require Import Prelude Collections Codec ObjectStore ObjectFormat ObjectIO Composite Metadata Upload CompactPlan CompactExec Compaction StorageDurable CompactionSafety.

Definition EXPIRED_OBJECTS_CLEAN_UP_STEP : nat := 1000.
Definition MINOR_COMPACTION_SIZE_THRESHOLD : Z := 128 * 1024 * 1024.
Definition MINOR_V1_COMPACTION_SIZE_THRESHOLD : Z := 4 * 1024 * 1024.
Definition DEFAULT_DATA_BLOCK_GROUP_SIZE_THRESHOLD : Z := 1024 * 1024.
Definition MAX_DIRTY_BYTES : Z := 512 * 1024 * 1024.
Definition MAX_PART_COUNT : Z := 10000.
Definition MAX_PART_SIZE : Z := 5 * 1024 * 1024 * 1024.
Definition MAX_OBJECT_SIZE : Z := MAX_PART_COUNT * MAX_PART_SIZE.
Definition MAX_OBJECT_GROUP_COUNT : Z := 5000.

Inductive CompactionLevel : Type := Cleanup | Minor | Major | CleanupV1 | MinorV1 | MajorV1.
#[export] Instance CompactionLevel_eq_dec : EqDecision CompactionLevel.
Proof. solve_decision. Defined.

Definition skip_single_object_group (level : CompactionLevel) : bool :=
  match level with
  | Minor | Major | MinorV1 | MajorV1 => true
  | _ => false
  end.

Record StreamView : Type := {
  sv_stream_id : Z;
  sv_stream_epoch : Z;
  sv_start_offset : Z;
  sv_confirm_offset : Z;
}.

Record StreamObjectCompactor : Type := {
  sc_max_stream_object_size : Z;
  sc_data_block_group_size_threshold : Z;
  sc_minor_v1_compaction_threshold : Z;
  sc_major_v1_skip_small_object : bool;
}.

Definition compactor_new (max_stream_object_size : Z) : StreamObjectCompactor :=
  {| sc_max_stream_object_size := Z.min max_stream_object_size MAX_OBJECT_SIZE;
     sc_data_block_group_size_threshold := DEFAULT_DATA_BLOCK_GROUP_SIZE_THRESHOLD;
     sc_minor_v1_compaction_threshold := MINOR_V1_COMPACTION_SIZE_THRESHOLD;
     sc_major_v1_skip_small_object := false |}.

Definition with_major_v1_skip_small_object (skip : bool) (c : StreamObjectCompactor) : StreamObjectCompactor :=
  {| sc_max_stream_object_size := sc_max_stream_object_size c;
     sc_data_block_group_size_threshold := sc_data_block_group_size_threshold c;
     sc_minor_v1_compaction_threshold := sc_minor_v1_compaction_threshold c;
     sc_major_v1_skip_small_object := skip |}.

(** [None]: the levels that have no group size. *)
Definition max_group_size (c : StreamObjectCompactor) (level : CompactionLevel) : option Z :=
  match level with
  | Minor => Some MINOR_COMPACTION_SIZE_THRESHOLD
  | Major | MajorV1 => Some (sc_max_stream_object_size c)
  | MinorV1 => Some (sc_minor_v1_compaction_threshold c)
  | Cleanup | CleanupV1 => None
  end.

(** ** Grouping *)

Definition start_offset_of (o : S3ObjectMetadata) : Z := default 0 (sr_start_offset <$> head (om_offset_ranges o)).
Definition end_offset_of (o : S3ObjectMetadata) : Z := default 0 (sr_end_offset <$> last (om_offset_ranges o)).

Definition object_filter (level : CompactionLevel) (min_major_v1_size : Z) (o : S3ObjectMetadata) : bool :=
  let composite := is_composite (om_attributes o) in
  if negb (bool_decide (level = MajorV1)) && composite then false
  else negb (bool_decide (level = MajorV1) && negb composite && (om_object_size o <? min_major_v1_size)).

Definition div_ceil (a b : Z) : Z := (a + b - 1) / b.

(** The loop of [group0]: the pending group, its size, first offset, the offset the next
    member must start at, and its part count. *)
Fixpoint group0_loop (max_stream_object_size : Z) (level : CompactionLevel) (min_major_v1_size : Z)
    (group : list S3ObjectMetadata) (group_size group_start_offset : Z) (group_next_offset : option Z)
    (part_count : Z) (objects : list S3ObjectMetadata) : list (list S3ObjectMetadata) :=
  match objects with
  | [] => match group with [] => [] | _ => [group] end
  | object :: rest =>
      let object_part_count := div_ceil (om_object_size object) MAX_PART_SIZE in
      if negb (object_filter level min_major_v1_size object) || (MAX_PART_COUNT <=? object_part_count)
      then group0_loop max_stream_object_size level min_major_v1_size group group_size group_start_offset
             group_next_offset part_count rest
      else
        let start := start_offset_of object in
        let end_ := end_offset_of object in
        let '(group_start_offset, next_offset) :=
          match group_next_offset with
          | None => (start, start)
          | Some next => (group_start_offset, next)
          end in
        if negb (next_offset =? start)
           || ((max_stream_object_size <? u64 (group_size + om_object_size object))
               && match group with [] => false | _ => true end)
           || (MAX_OBJECT_GROUP_COUNT <=? len group)
           || (MAX_PART_COUNT <? u64 (part_count + object_part_count))
           || (I32_MAX <? u64 (end_ - group_start_offset))
        then
          match group with [] => [] | _ => [group] end
          ++ group0_loop max_stream_object_size level min_major_v1_size [object] (u64 (0 + om_object_size object))
               start (Some end_) (u64 (0 + object_part_count)) rest
        else
          group0_loop max_stream_object_size level min_major_v1_size (group ++ [object])
            (u64 (group_size + om_object_size object)) group_start_offset (Some end_)
            (u64 (part_count + object_part_count)) rest
  end.

Definition group0 (objects : list S3ObjectMetadata) (max_stream_object_size : Z) (level : CompactionLevel)
    (min_major_v1_size : Z) : list (list S3ObjectMetadata) :=
  group0_loop max_stream_object_size level min_major_v1_size [] 0 0 None 0 objects.

(** [x as f64] *)
Definition f64 (z : Z) : spec_float := binary_normalize 53 1024 z 0 false.

(** The share of the first, composite object that is trimmed, in bytes, as the code
    computes it in double precision. *)
Definition dirty_bytes (start_offset first_start first_end object_size : Z) : spec_float :=
  SFmul 53 1024 (SFdiv 53 1024 (f64 (Z.max 0 (start_offset - first_start))) (f64 (first_end - first_start)))
    (f64 object_size).

Definition cleanup_v1_groups (living : list S3ObjectMetadata) (start_offset : Z) : list (list S3ObjectMetadata) :=
  match living with
  | [] => []
  | first :: _ =>
      if negb (is_composite (om_attributes first)) then []
      else
        let first_start := start_offset_of first in
        let first_end := end_offset_of first in
        if first_end <=? first_start then []
        else if SFltb (f64 MAX_DIRTY_BYTES) (dirty_bytes start_offset first_start first_end (om_object_size first))
        then [[first]] else []
  end.

(** ** The metadata plane *)

(** What stream compaction asks of the registry besides [prepare_object]. *)
Class StreamObjectHost (M : Type) : Type := {
  mgr_get_stream_objects : M → Z → Z → Z → Z → option (result StreamError (list S3ObjectMetadata));
  mgr_compact_stream_object : M → Z → CompactStreamObjectRequest → M * result StreamError unit;
}.

#[export] Instance memory_stream_object_host : StreamObjectHost MetadataState := {
  mgr_get_stream_objects m stream_id start_offset end_offset limit :=
    let* l := get_stream_objects stream_id start_offset end_offset limit m in Some (Ok l);
  mgr_compact_stream_object m now r := (compact_stream_object now r m, Ok tt);
}.

(** A request that only removes sources. *)
Definition removal_request (stream : StreamView) (ids : list Z) (operations : list CompactOperations)
  : CompactStreamObjectRequest :=
  {| cs_object_id := NOOP_OBJECT_ID; cs_object_size := 0; cs_stream_id := sv_stream_id stream;
     cs_stream_epoch := sv_stream_epoch stream; cs_start_offset := NOOP_OFFSET; cs_end_offset := NOOP_OFFSET;
     cs_source_object_ids := ids; cs_operations := operations; cs_attributes := 0 |}.

(** [slice::chunks]; the fuel is the length. *)
Fixpoint chunks {A} (fuel n : nat) (l : list A) : list (list A) :=
  match fuel, l with
  | O, _ | _, [] => []
  | S fuel', _ => take n l :: chunks fuel' n (drop n l)
  end.

(** ** The physical merge *)

Record MergeState : Type := mkMerge {
  mg_next_block_position : Z;
  mg_compacted_start_offset : Z;
  mg_indexes : list DataBlockIndex;
  mg_group_start_offset : Z;
  mg_group_start_position : Z;
  mg_group_size : Z;
  mg_group_record_count : Z;
  mg_last_index : option DataBlockIndex;
}.

Definition merge_new (compacted_start_offset : Z) : MergeState :=
  mkMerge 0 compacted_start_offset [] 0 0 0 0 None.

(** The index entry of the pending group, after its last block. *)
Definition group_entry (stream_id : Z) (g : MergeState) (last : DataBlockIndex) : DataBlockIndex :=
  {| bi_block_id := -1; bi_stream_id := stream_id; bi_start_offset := mg_group_start_offset g;
     bi_end_offset_delta := u32 (u64 (bi_end_offset last - mg_group_start_offset g));
     bi_record_count := u32 (mg_group_record_count g); bi_start_position := mg_group_start_position g;
     bi_size := u32 (mg_group_size g) |}.

(** One block of an object's index; the second component is [valid_data_start].
    [None] is [last_index.unwrap()]. *)
Definition merge_block (threshold stream_id start_offset : Z) (g : MergeState) (valid_data_start : Z)
    (data_block : DataBlockIndex) : option (MergeState * Z) :=
  if bi_end_offset data_block <=? start_offset then
    Some (mkMerge (mg_next_block_position g) (bi_end_offset data_block) (mg_indexes g) (mg_group_start_offset g)
            (mg_group_start_position g) (mg_group_size g) (mg_group_record_count g) (mg_last_index g),
          bi_end_position data_block)
  else
    let cut :=
      (mg_group_size g =? 0)
      || (threshold <? u64 (mg_group_size g + bi_size data_block))
      || (I32_MAX <? u64 (mg_group_record_count g + bi_record_count data_block))
      || (I32_MAX <? u64 (bi_end_offset data_block - mg_group_start_offset g)) in
    let* g :=
      if cut then
        let* indexes :=
          if mg_group_size g =? 0 then Some (mg_indexes g)
          else let* last := mg_last_index g in Some (mg_indexes g ++ [group_entry stream_id g last]) in
        Some (mkMerge (mg_next_block_position g) (mg_compacted_start_offset g) indexes (bi_start_offset data_block)
                (mg_next_block_position g) 0 0 (mg_last_index g))
      else Some g in
    Some (mkMerge (u64 (mg_next_block_position g + bi_size data_block)) (mg_compacted_start_offset g) (mg_indexes g)
            (mg_group_start_offset g) (mg_group_start_position g) (u64 (mg_group_size g + bi_size data_block))
            (u64 (mg_group_record_count g + bi_record_count data_block)) (Some data_block), valid_data_start).

Fixpoint merge_blocks (threshold stream_id start_offset : Z) (g : MergeState) (valid_data_start : Z)
    (blocks : list DataBlockIndex) : option (MergeState * Z) :=
  match blocks with
  | [] => Some (g, valid_data_start)
  | b :: rest =>
      let* (g, valid_data_start) := merge_block threshold stream_id start_offset g valid_data_start b in
      merge_blocks threshold stream_id start_offset g valid_data_start rest
  end.

(** The entries once the pending group is flushed. *)
Definition merge_flush (stream_id : Z) (g : MergeState) : list DataBlockIndex :=
  match mg_last_index g with
  | Some last => if mg_group_size g =? 0 then mg_indexes g else mg_indexes g ++ [group_entry stream_id g last]
  | None => mg_indexes g
  end.

Section Compactor.
Context {S : Type} `{!ObjectStorage S} {M : Type} `{!ObjectManager M} `{!StreamObjectHost M}.
Context (c : StreamObjectCompactor) (now : Z) (stream : StreamView).

(** The state after an object: the merge, the bytes handed to the multipart writer, the
    object size so far and the merged ids. *)
Fixpoint merge_objects (s : S) (g : MergeState) (written : bytes) (object_size : Z) (ids : list Z)
    (group : list S3ObjectMetadata) : option (result StreamError (MergeState * bytes * Z * list Z)) :=
  match group with
  | [] => Some (Ok (g, written, object_size, ids))
  | object :: rest =>
      match basic_object_info s (metadata_key object) (om_object_size object) with
      | Err e => Some (Err (SE_Object e))
      | Ok info =>
          let* (g, valid_data_start) :=
            merge_blocks (sc_data_block_group_size_threshold c) (sv_stream_id stream) (sv_start_offset stream) g 0
              (boi_index_block info) in
          let data_block_size := boi_data_block_size info in
          let read :=
            if valid_data_start <? data_block_size
            then os_range_read s (metadata_key object) valid_data_start (Some data_block_size)
            else Ok [] in
          match read with
          | Err e => Some (Err (SE_Object e))
          | Ok data =>
              merge_objects s g (written ++ data) (u64 (object_size + u64 (data_block_size - valid_data_start)))
                (ids ++ [om_object_id object]) rest
          end
      end
  end.

Definition compact_by_physical_merge (group : list S3ObjectMetadata) (object_id : Z) (s : S)
  : option (S * result StreamError (option CompactStreamObjectRequest)) :=
  let* first := head group in
  let* final := last group in
  let* merged := merge_objects s (merge_new (start_offset_of first)) [] 0 [] group in
  match merged with
  | Err e => Some (s, Err e)
  | Ok (g, written, object_size, ids) =>
      let indexes := index_block_encode (merge_flush (sv_stream_id stream) g) in
      let tail := indexes ++ footer (mg_next_block_position g) (len indexes) FOOTER_MAGIC in
      let s := os_write s now (object_key object_id) (written ++ tail) in
      Some (s, Ok (Some
        {| cs_object_id := object_id; cs_object_size := u64 (object_size + len tail);
           cs_stream_id := sv_stream_id stream; cs_stream_epoch := sv_stream_epoch stream;
           cs_start_offset := mg_compacted_start_offset g; cs_end_offset := end_offset_of final;
           cs_source_object_ids := ids; cs_operations := (λ _, OpDelete) <$> ids;
           cs_attributes := attributes_new (os_bucket_id s) false false |}))
  end.

(** ** The composite merge *)

(** The metadata a linked object is added under. *)
Definition linked_metadata (linked : ObjectIndex) : S3ObjectMetadata :=
  {| om_object_id := ox_object_id linked; om_object_type := Stream; om_offset_ranges := []; om_object_size := 0;
     om_attributes := attributes_new (ox_bucket_id linked) false false; om_committed_timestamp_ms := 0;
     om_data_timestamp_ms := 0 |}.

(** The live linked objects move over, the paths of the others are collected; [None] is
    the range index [entries()[start..end]] out of bounds. *)
Fixpoint link_units (entries : list DataBlockIndex) (w : CompositeObjectWriter) (to_delete : list ObjectPath)
    (units : list ObjectIndex) : option (CompositeObjectWriter * result StreamError (list ObjectPath)) :=
  match units with
  | [] => Some (w, Ok to_delete)
  | linked :: rest =>
      if (ox_block_end_index linked <? ox_block_start_index linked) || (len entries <? ox_block_end_index linked)
      then None
      else
        let blocks := slice (ox_block_start_index linked) (ox_block_end_index linked) entries in
        if existsb (λ b, sv_start_offset stream <? bi_end_offset b) blocks then
          match add_component (linked_metadata linked) blocks w with
          | (w, Err e) => Some (w, Err (SE_Object e))
          | (w, Ok _) => link_units entries w to_delete rest
          end
        else
          link_units entries w
            (to_delete ++ [ {| op_bucket_id := ox_bucket_id linked;
                               op_key := metadata_key (linked_metadata linked) |} ]) rest
  end.

Fixpoint link_objects (s : S) (w : CompositeObjectWriter) (ids : list Z) (operations : list CompactOperations)
    (group : list S3ObjectMetadata)
  : option (S * result StreamError (CompositeObjectWriter * list Z * list CompactOperations)) :=
  match group with
  | [] => Some (s, Ok (w, ids, operations))
  | object :: rest =>
      if is_composite (om_attributes object) then
        let* info := composite_info s (metadata_key object) in
        match info with
        | Err e => Some (s, Err (SE_Object e))
        | Ok info =>
            let* (w, linked) := link_units (ci_index_block info) w [] (ci_objects info) in
            match linked with
            | Err e => Some (s, Err e)
            | Ok to_delete =>
                let s := match to_delete with [] => s | _ => os_delete s to_delete end in
                link_objects s w (ids ++ [om_object_id object]) (operations ++ [OpDelete]) rest
            end
        end
      else
        match basic_object_info s (metadata_key object) (om_object_size object) with
        | Err e => Some (s, Err (SE_Object e))
        | Ok info =>
            match add_component object (boi_index_block info) w with
            | (_, Err e) => Some (s, Err (SE_Object e))
            | (w, Ok _) => link_objects s w (ids ++ [om_object_id object]) (operations ++ [OpKeepData]) rest
            end
        end
  end.

Definition compact_by_composite_object (group : list S3ObjectMetadata) (object_id : Z) (s : S)
  : option (S * result StreamError (option CompactStreamObjectRequest)) :=
  let* (s, linked) := link_objects s (cw_new object_id) [] [] group in
  match linked with
  | Err e => Some (s, Err e)
  | Ok (w, ids, operations) =>
      match cw_stream_range w with
      | None => Some (s, Ok (Some (removal_request stream (ids ++ [object_id]) (operations ++ [OpDelete]))))
      | Some (_, range_start, range_end) =>
          let s := os_write s now (cw_storage_key w) (cw_close w) in
          Some (s, Ok (Some
            {| cs_object_id := object_id; cs_object_size := cw_retained_size w;
               cs_stream_id := sv_stream_id stream; cs_stream_epoch := sv_stream_epoch stream;
               cs_start_offset := range_start; cs_end_offset := range_end;
               cs_source_object_ids := ids; cs_operations := operations;
               cs_attributes := attributes_new (os_bucket_id s) true false |}))
      end
  end.

(** ** A pass *)

Fixpoint cleanup_chunks (chunks : list (list S3ObjectMetadata)) (m : M) : M * result StreamError unit :=
  match chunks with
  | [] => (m, Ok tt)
  | chunk :: rest =>
      let ids := om_object_id <$> chunk in
      match mgr_compact_stream_object m now (removal_request stream ids ((λ _, OpDeepDelete) <$> ids)) with
      | (m, Err e) => (m, Err e)
      | (m, Ok _) => cleanup_chunks rest m
      end
  end.

Definition cleanup_expired (expired : list S3ObjectMetadata) (m : M) : M * result StreamError unit :=
  cleanup_chunks (chunks (length expired) EXPIRED_OBJECTS_CLEAN_UP_STEP expired) m.

(** [None] for [Cleanup]: unreachable. *)
Definition compact_group (level : CompactionLevel) (group : list S3ObjectMetadata) (object_id : Z) (s : S)
  : option (S * result StreamError (option CompactStreamObjectRequest)) :=
  match level with
  | Minor | Major | MinorV1 => compact_by_physical_merge group object_id s
  | MajorV1 | CleanupV1 => compact_by_composite_object group object_id s
  | Cleanup => None
  end.

Fixpoint compact_groups (level : CompactionLevel) (groups : list (list S3ObjectMetadata)) (s : S) (m : M)
  : option (S * M * result StreamError unit) :=
  match groups with
  | [] => Some (s, m, Ok tt)
  | group :: rest =>
      if Nat.eqb (length group) 1 && skip_single_object_group level then compact_groups level rest s m
      else
        match mgr_prepare_object m 1 with
        | (m, Err e) => Some (s, m, Err e)
        | (m, Ok object_id) =>
            let* (s, request) := compact_group level group object_id s in
            match request with
            | Err e => Some (s, m, Err e)
            | Ok None => compact_groups level rest s m
            | Ok (Some request) =>
                match mgr_compact_stream_object m now request with
                | (m, Err e) => Some (s, m, Err e)
                | (m, Ok _) => compact_groups level rest s m
                end
            end
        end
  end.

(** [usize::MAX] as the limit asks for all of the stream's objects. *)
Definition compact (level : CompactionLevel) (s : S) (m : M) : option (S * M * result StreamError unit) :=
  let* objects := mgr_get_stream_objects m (sv_stream_id stream) 0 (sv_confirm_offset stream) U64_MAX in
  match objects with
  | Err e => Some (s, m, Err e)
  | Ok objects =>
      let objects := deduplicate_objects_by_id objects in
      let expired := filter (λ o, end_offset_of o ≤ sv_start_offset stream) objects in
      let living := filter (λ o, ¬ (end_offset_of o ≤ sv_start_offset stream)) objects in
      match cleanup_expired expired m with
      | (m, Err e) => Some (s, m, Err e)
      | (m, Ok _) =>
          match level with
          | Cleanup => Some (s, m, Ok tt)
          | CleanupV1 => compact_groups level (cleanup_v1_groups living (sv_start_offset stream)) s m
          | _ =>
              let* size := max_group_size c level in
              compact_groups level
                (group0 living size level
                   (if sc_major_v1_skip_small_object c then sc_minor_v1_compaction_threshold c else 0)) s m
          end
      end
  end.
End Compactor.
