(* ===== verification/StreamCompactorSafety.v ===== *)
(** * Stream compaction keeps every live record

    Proofs about [StreamCompactor]: the physically merged object reads back to the live
    records of its sources, a whole pass leaves every live record findable, and a
    composite merge links every live block to the object that holds it. *)
From S2P Require Import Prelude Collections Codec ObjectStore ObjectFormat ObjectIO Composite Metadata Upload CompactPlan CompactExec Compaction StorageDurable CompactionSafety StreamCompactor.

Lemma index_entries_snoc id p l b :
  0 ≤ p → p + total_size l < 2 ^ 64 → (∀ i, id i = -1) →
  index_entries id 0 p (l ++ [b])
  = index_entries id 0 p l
    ++ [ {| bi_block_id := -1; bi_stream_id := db_stream_id b; bi_start_offset := db_start_offset b;
            bi_end_offset_delta := u32 (u64 (db_end_offset b - db_start_offset b));
            bi_record_count := db_record_count b; bi_start_position := p + total_size l;
            bi_size := u32 (db_size b) |} ].
Proof.
  intros Hp Ht Hid. generalize 0%nat as i. revert p Hp Ht. induction l as [|a l IH]; intros p Hp Ht i; cbn.
  - rewrite Hid. do 2 f_equal. lia.
  - cbn in Ht. pose proof (total_size_nonneg l). unfold db_size in *. rewrite (u64_small (p + _)) by int_lia.
    rewrite IH by lia. f_equal. do 3 f_equal. lia.
Qed.

Section Merge.
Context (data : StreamDataBlock → bytes) (threshold sid start : Z).
Hypothesis Hthr : 0 ≤ threshold < 2 ^ 32.

Definition dead (b : StreamDataBlock) : bool := bk_end_offset b <=? start.

(** A pending or flushed group of the merge. *)
Record group_fit (g : list StreamDataBlock) : Prop := {
  gf_ok : Forall block_ok g;
  gf_stream : Forall (λ b, bk_stream_id b = sid) g;
  gf_ends : group_ends g;
  gf_total : total g < 2 ^ 32;
}.

(** Where the merge stands after the live blocks [live]: flushed groups and a pending one. *)
Record merge_inv (live : list StreamDataBlock) (g : MergeState) (done cur : list (list StreamDataBlock)) : Prop := {
  mi_live : concat done ++ concat cur = live;
  mi_pos : mg_next_block_position g = total live;
  mi_done : Forall group_fit done;
  mi_indexes : mg_indexes g = index_entries (λ _, -1) 0 0 (group_block data <$> done);
  mi_cur :
    match cur with
    | [] => mg_group_size g = 0
    | [c] => group_fit c ∧ mg_group_size g = total c ∧ mg_group_start_position g = total (concat done)
        ∧ (∃ a z, head c = Some a ∧ last c = Some z ∧ mg_group_start_offset g = bk_start_offset a
             ∧ mg_last_index g = Some (bk_index z))
        ∧ u32 (mg_group_record_count g) = foldl (λ n b, u32 (n + bi_record_count (bk_index b))) 0 c
    | _ => False
    end;
}.

Lemma group_fit_single b : block_ok b → bk_stream_id b = sid → group_fit [b].
Proof.
  intros Hb Hs. constructor; [by apply Forall_singleton|by apply Forall_singleton| |].
  - exists b, b. pose proof (bo_offsets _ Hb). pose proof (bo_end _ Hb). pose proof (bo_delta _ Hb). split_and!; try done; int_lia.
  - cbn. destruct (bo_sized _ Hb). lia.
Qed.

Lemma group_fit_pos c : group_fit c → 0 < total c.
Proof.
  intros [Hok _ (a & z & Ha & _) _]. apply total_pos; [|by destruct c].
  eapply Forall_impl; [exact Hok|]. intros b Hb. apply Hb.
Qed.

Lemma total_groups_size groups :
  Forall (sizes_match data) groups → total_size (group_block data <$> groups) = total (concat groups).
Proof. apply groups_total. Qed.

(** The entry of the pending group is the one an object writer gives its block. *)
Lemma group_entry_spec done g c :
  merge_inv (concat done ++ c) g done [c] → Forall (sizes_match data) (done ++ [c]) → total (concat done) + total c < 2 ^ 64 →
  ∀ z, mg_last_index g = Some z →
  mg_indexes g ++ [group_entry sid g z] = index_entries (λ _, -1) 0 0 (group_block data <$> done ++ [c]).
Proof.
  intros [_ _ Hd Ei (Hf & Es & Ep & (a & z' & Ha & Hz & Eo & El) & Er)] Hm Ht z Ez.
  apply Forall_app in Hm as [Hmd Hmc]. apply Forall_cons in Hmc as [Hmc _].
  assert (0 ≤ total (concat done)) as H0.
  { apply total_nonneg, Forall_concat. eapply Forall_impl; [exact Hd|]. intros x [Hx _ _ _]. eapply Forall_impl; [exact Hx|]. intros b Hb. apply Hb. }
  pose proof (group_fit_pos _ Hf).
  rewrite fmap_app. cbn. rewrite index_entries_snoc; [|lia|rewrite groups_total by done; lia|done].
  rewrite <- Ei, groups_total by done. f_equal. f_equal. rewrite El in Ez. injection Ez as <-.
  unfold group_entry, group_block. cbn. rewrite Ha, Hz, Eo, Ep, Er, Es. cbn.
  assert (sid = bk_stream_id a) as ->.
  { destruct Hf as [_ Hst _ _]. rewrite Forall_forall in Hst. symmetry. apply Hst. by apply head_Some_elem_of. }
  f_equal. f_equal. rewrite <- (group_block_size data c Hmc). done.
Qed.

Lemma merge_live_block live g done cur vds b :
  merge_inv live g done cur → Forall (sizes_match data) (done ++ cur) → total live + bk_size b < 2 ^ 64 →
  block_ok b → bk_stream_id b = sid → (∀ a, a ∈ live → bk_start_offset a ≤ bk_start_offset b) → dead b = false →
  ∃ g' done' cur', merge_block threshold sid start g vds (bk_index b) = Some (g', vds)
    ∧ mg_compacted_start_offset g' = mg_compacted_start_offset g
    ∧ merge_inv (live ++ [b]) g' done' cur'.
Proof.
  intros Hinv Hm Ht Hb Hst Hle Hdead. pose proof Hinv as [Elive Epos Hd Ei Hc].
  assert (0 ≤ total (concat done)) as H0.
  { apply total_nonneg, Forall_concat. eapply Forall_impl; [exact Hd|]. intros x [Hx _ _ _]. eapply Forall_impl; [exact Hx|]. intros y Hy. apply Hy. }
  pose proof (bo_sized _ Hb) as Hsz. unfold sized in Hsz. pose proof (bo_count _ Hb) as Hcnt.
  unfold merge_block. unfold dead, bk_end_offset in Hdead. rewrite Hdead.
  match goal with |- context [if ?x then _ else Some g] => destruct x eqn:Ecut end.
  - (* a new group opens *)
    assert (∃ idx done', (if mg_group_size g =? 0 then Some (mg_indexes g)
       else let* last := mg_last_index g in Some (mg_indexes g ++ [group_entry sid g last])) = Some idx
       ∧ idx = index_entries (λ _, -1) 0 0 (group_block data <$> done') ∧ Forall group_fit done' ∧ concat done' = live)
      as (idx & done' & -> & Eidx & Hd' & El').
    { destruct cur as [|c [|]]; [| |done].
      - rewrite Hc. exists (mg_indexes g), done. cbn in Elive. rewrite app_nil_r in Elive. done.
      - cbn in Elive. rewrite app_nil_r in Elive. subst live. rewrite total_app in Ht.
        pose proof Hc as (Hf & Es & _ & (a & z & Ha & Hz & _ & El) & _). pose proof (group_fit_pos _ Hf). rewrite Es.
        replace (total c =? 0) with false by lia. rewrite El. eexists _, (done ++ [c]). split; [reflexivity|]. split; [|split].
        + eapply group_entry_spec; [done|done|lia|done].
        + apply Forall_app. split; [done|]. by apply Forall_singleton.
        + rewrite concat_app. cbn. by rewrite app_nil_r. }
    cbn. eexists _, done', [[b]]. split; [reflexivity|]. split; [done|]. constructor; cbn; try done.
    + by rewrite El'.
    + rewrite total_app, Epos. cbn. change (bi_size (bk_index b)) with (bk_size b). rewrite u64_small; [lia|].
      rewrite <- Elive, total_app in *. assert (0 ≤ total (concat cur)); [|int_lia].
      destruct cur as [|c [|]]; [done| |done]. cbn. rewrite app_nil_r. destruct Hc as [Hf _]. pose proof (group_fit_pos _ Hf). lia.
    + split; [by apply group_fit_single|]. split; [change (bi_size (bk_index b)) with (bk_size b); rewrite u64_small; int_lia|].
      split; [by rewrite El', Epos|]. split; [by exists b, b|]. rewrite u32_u64. by rewrite Z.add_0_l.
  - rewrite !orb_false_iff in Ecut. destruct Ecut as [[[Ez Ethr] _] Edelta].
    destruct cur as [|c [|]]; [by rewrite Hc in Ez| |done]. cbn in Elive. rewrite app_nil_r in Elive.
    destruct Hc as (Hf & Es & Ep & (a & z & Ha & Hz & Eo & El) & Er). pose proof (group_fit_pos _ Hf).
    rewrite <- Elive, total_app in Ht. change (bi_size (bk_index b)) with (bk_size b) in *.
    rewrite Es, u64_small in Ethr by int_lia. rewrite Eo in Edelta. change (bi_end_offset (bk_index b)) with (bk_end_offset b) in Edelta.
    assert (bk_start_offset a ≤ bk_start_offset b) as Hab.
    { apply Hle. rewrite <- Elive. apply elem_of_app. right. by apply head_Some_elem_of. }
    pose proof Hf as [Hok Hstr Hends Htot]. assert (block_ok a) as Hoa.
    { rewrite Forall_forall in Hok. apply Hok. by apply head_Some_elem_of. }
    pose proof (bo_offsets _ Hb). pose proof (bo_end_u64 _ Hb). pose proof (bo_offsets _ Hoa).
    rewrite u64_small in Edelta by int_lia.
    cbn. eexists _, done, [c ++ [b]]. split; [reflexivity|]. split; [done|]. constructor; cbn; try done.
    + rewrite app_nil_r. by rewrite app_assoc, Elive.
    + rewrite Epos, <- Elive, !total_app. cbn. rewrite u64_small; int_lia.
    + split; [|split; [|split; [done|split]]].
      * constructor; [apply Forall_app; split; [done|by apply Forall_singleton]|apply Forall_app; split; [done|by apply Forall_singleton]| |].
        -- exists a, b. rewrite last_snoc. destruct c as [|x c]; [done|]. cbn in Ha |- *. injection Ha as ->.
           rewrite Forall_forall in Hstr. split_and!; try done; [rewrite Hst; apply Hstr; left|lia|int_lia].
        -- rewrite total_app. cbn. lia.
      * rewrite Es, total_app. cbn. rewrite u64_small; int_lia.
      * exists a, b. rewrite last_snoc. destruct c as [|x c]; [done|]. done.
      * rewrite u32_u64, foldl_app. cbn. rewrite <- Er. int_lia.
Qed.

(** After the last object the pending group is flushed. *)
Lemma merge_flush_spec live g done cur :
  merge_inv live g done cur → Forall (sizes_match data) (done ++ cur) → total live < 2 ^ 64 →
  merge_flush sid g = index_entries (λ _, -1) 0 0 (group_block data <$> done ++ cur)
  ∧ Forall group_fit (done ++ cur) ∧ concat (done ++ cur) = live.
Proof.
  intros Hinv Hm Ht. pose proof Hinv as [El _ Hd Ei Hc]. rewrite concat_app. unfold merge_flush.
  destruct cur as [|c [|]]; [| |done].
  - rewrite Hc, app_nil_r. cbn. rewrite <- Ei. split; [by destruct (mg_last_index g)|]. done.
  - cbn in El. rewrite app_nil_r in El. subst live. rewrite total_app in Ht. pose proof Hc as (Hf & Es & _ & (a & z & _ & _ & _ & Ez) & _).
    pose proof (group_fit_pos _ Hf). rewrite Ez, Es. replace (total c =? 0) with false by lia. split; [|split].
    + eapply group_entry_spec; [done|done|lia|done].
    + apply Forall_app. split; [done|]. by apply Forall_singleton.
    + cbn. by rewrite app_nil_r.
Qed.

Lemma merge_inv_sizes live g done cur :
  merge_inv live g done cur → sizes_match data live → Forall (sizes_match data) (done ++ cur).
Proof. intros [E _ _ _ _] Hm. apply Forall_concat. rewrite concat_app, E. done. Qed.

(** Expired blocks only move the cursors. *)
Lemma merge_dead l g vds :
  Forall (λ b, dead b = true) l →
  ∃ g', (∀ k, merge_blocks threshold sid start g vds ((bk_index <$> l) ++ k)
      = merge_blocks threshold sid start g' (default vds (bk_end_position <$> last l)) k)
    ∧ mg_compacted_start_offset g' = default (mg_compacted_start_offset g) (bk_end_offset <$> last l)
    ∧ ∀ live done cur, merge_inv live g done cur → merge_inv live g' done cur.
Proof.
  intros Hl. revert g vds. induction Hl as [|b l Hb _ IH]; intros g vds; [by exists g|].
  destruct (IH (mkMerge (mg_next_block_position g) (bk_end_offset b) (mg_indexes g) (mg_group_start_offset g)
    (mg_group_start_position g) (mg_group_size g) (mg_group_record_count g) (mg_last_index g)) (bk_end_position b))
    as (g' & Eg & Ec & Hi).
  exists g'. split; [|split].
  - intros k. cbn [fmap list_fmap app merge_blocks]. unfold merge_block at 1.
    change (bi_end_offset (bk_index b)) with (bk_end_offset b). unfold dead in Hb. rewrite Hb.
    cbn. rewrite Eg, last_cons. by destruct (last l).
  - rewrite Ec, last_cons. by destruct (last l).
  - intros live done cur [? ? ? ? ?]. apply Hi. by constructor.
Qed.

Lemma merge_lives l live g vds done cur :
  merge_inv live g done cur → sizes_match data (live ++ l) → total (live ++ l) < 2 ^ 64 → Forall block_ok l →
  Forall (λ b, bk_stream_id b = sid) l → Forall (λ b, dead b = false) l →
  StronglySorted (λ a b, bk_start_offset a ≤ bk_start_offset b) (live ++ l) →
  ∃ g' done' cur', merge_blocks threshold sid start g vds (bk_index <$> l) = Some (g', vds)
    ∧ mg_compacted_start_offset g' = mg_compacted_start_offset g
    ∧ merge_inv (live ++ l) g' done' cur'.
Proof.
  revert live g done cur; induction l as [|b l IH]; intros live g done cur Hinv Hm Ht Hok Hst Hd Hs.
  { exists g, done, cur. by rewrite app_nil_r. }
  apply Forall_cons in Hok as [Hb Hok], Hst as [Hsb Hst], Hd as [Hdb Hd]. pose proof (merge_inv_sizes _ _ _ _ Hinv) as Hmi.
  assert (Forall sized l) as Hsz by (eapply Forall_impl; [exact Hok|]; intros x Hx; apply Hx).
  pose proof (total_nonneg _ Hsz). unfold sizes_match in Hm. apply Forall_app in Hm as Hm'. destruct Hm' as [Hml _].
  apply StronglySorted_app in Hs as Hs'. destruct Hs' as (Hx & _ & _).
  rewrite total_app in Ht. cbn in Ht.
  destruct (merge_live_block live g done cur vds b Hinv) as (g' & done' & cur' & E & Ec & Hinv'); try done; [by apply Hmi|lia| |].
  { intros a Ha. apply Hx; [done|left]. }
  rewrite (cons_middle b live l) in *.
  destruct (IH (live ++ [b]) g' done' cur') as (g2 & done2 & cur2 & E2 & Ec2 & Hinv2); [done|by rewrite <- app_assoc|rewrite <- app_assoc, total_app; cbn; lia|done..|by rewrite <- app_assoc|].
  exists g2, done2, cur2. cbn [fmap list_fmap merge_blocks]. rewrite E. split; [done|]. split; [congruence|].
  by rewrite <- app_assoc in Hinv2.
Qed.
End Merge.

(** ** Blocks in order *)

(** The blocks of one stream, each starting where the one before ended. *)
Lemma chained_sorted sid l :
  Forall block_ok l → Forall (λ b, bk_stream_id b = sid) l → chained l → StronglySorted before l.
Proof.
  intros Hok Hst Hc. induction l as [|x l IH]; [constructor|].
  apply Forall_cons in Hok as [Hx Hok], Hst as [Hsx Hst]. assert (chained l) as Hcl by (apply (chained_drop 1 (x :: l) Hc)).
  specialize (IH Hok Hst Hcl). constructor; [done|]. destruct l as [|y l]; [done|].
  pose proof (Hc 0%nat x y eq_refl eq_refl) as Hxy. apply Forall_cons in Hst as [Hsy Hst], Hok as [Hy Hok].
  specialize (Hxy ltac:(congruence)). apply StronglySorted_cons in IH as [Hall _].
  constructor; [unfold before; right; split; [congruence|lia]|]. pose proof (bo_offsets _ Hy).
  rewrite Forall_forall in Hall |- *. intros z Hz. specialize (Hall z Hz). unfold before in *. lia.
Qed.

Lemma before_ends sid l :
  Forall block_ok l → Forall (λ b, bk_stream_id b = sid) l → StronglySorted before l →
  StronglySorted (λ a b, bk_start_offset a ≤ bk_start_offset b ∧ bk_end_offset a ≤ bk_end_offset b) l.
Proof.
  intros Hok Hst Hs. induction Hs as [|x l Hs IH Hall]; [constructor|].
  apply Forall_cons in Hok as [Hx Hok], Hst as [Hsx Hst]. constructor; [auto|].
  rewrite Forall_forall in *. intros z Hz. specialize (Hall z Hz). rewrite <- (Hst z Hz) in Hsx.
  pose proof (bo_offsets _ Hx). pose proof (bo_offsets _ (Hok z Hz)). unfold before in Hall. lia.
Qed.

Definition lives (start : Z) (l : list StreamDataBlock) : list StreamDataBlock := filter (λ b, dead start b = false) l.

(** The expired blocks come first. *)
Lemma dead_prefix start l :
  StronglySorted (λ a b, bk_start_offset a ≤ bk_start_offset b ∧ bk_end_offset a ≤ bk_end_offset b) l →
  ∃ d, l = d ++ lives start l ∧ Forall (λ b, dead start b = true) d.
Proof.
  intros Hs. induction Hs as [|x l Hs IH Hall]; [by exists []|]. unfold lives. rewrite filter_cons.
  destruct (dead start x) eqn:E; case_decide; try done.
  - destruct IH as (d & El & Hd). exists (x :: d). split; [cbn; by f_equal|by constructor].
  - exists []. split; [|done]. cbn. f_equal. symmetry. apply filter_all.
    rewrite Forall_forall in *. intros y Hy. specialize (Hall y Hy). unfold dead in *. lia.
Qed.

Lemma lives_elem start l b : b ∈ lives start l ↔ b ∈ l ∧ start < bk_end_offset b.
Proof. unfold lives. rewrite list_elem_of_filter. unfold dead. rewrite Z.leb_gt. tauto. Qed.

(** Adjacent blocks of an object are one slice of it. *)
Lemma adjacent_slice (d : bytes) p l :
  0 ≤ p → adjacent p l → Forall (in_object d) l → slice p (end_of p l) d = concat (block_bytes d <$> l).
Proof.
  intros Hp Ha Hin. revert p Hp Ha; induction Hin as [|b l Hb Hl IH]; intros p Hp Ha; cbn; [apply slice_empty|].
  destruct Ha as [Eb Ha], Hb as (? & ? & ?). rewrite <- (IH (p + bk_size b)) by (done || lia).
  unfold block_bytes. rewrite Eb. rewrite slice_join; [done|lia|by apply (end_of_ge d)].
Qed.

Lemma end_of_total p l : end_of p l = p + total l.
Proof. revert p; induction l as [|b l IH]; intros p; cbn; [lia|]. rewrite IH. lia. Qed.

(** ** The physical merge *)

Section Physical.
Context {S : Type} `{!ObjectStorage S} `{!ObjectStorageLaws S}.
Context (data : StreamDataBlock → bytes) (recs : StreamDataBlock → list StreamRecordBatch).

(** A stream object as the writers leave it: its data region is its blocks, end to end,
    and they cover the object's one offset range without a gap. *)
Record stream_source (sid : Z) (s : S) (o : S3ObjectMetadata) (blocks : list StreamDataBlock) : Prop := {
  ss_source : source data recs s o blocks;
  ss_info : basic_object_info s (metadata_key o) (om_object_size o)
    = Ok {| boi_data_block_size := end_of 0 blocks; boi_index_block := bk_index <$> blocks |};
  ss_adjacent : adjacent 0 blocks;
  ss_stream : Forall (λ b, bk_stream_id b = sid) blocks;
  ss_chained : chained blocks;
  ss_range : ∃ a z, head blocks = Some a ∧ last blocks = Some z
    ∧ om_offset_ranges o
      = [ {| sr_stream_id := sid; sr_start_offset := bk_start_offset a; sr_end_offset := bk_end_offset z |} ];
}.

Context (c : StreamObjectCompactor) (stream : StreamView) (blocks_of : S3ObjectMetadata → list StreamDataBlock).
Abbreviation sid := (sv_stream_id stream).
Abbreviation start := (sv_start_offset stream).
Abbreviation threshold := (sc_data_block_group_size_threshold c).
Hypothesis Hthr : 0 ≤ threshold < 2 ^ 32.

Definition deads (l : list StreamDataBlock) : list StreamDataBlock := filter (λ b, dead start b = true) l.
Definition group_blocks (group : list S3ObjectMetadata) : list StreamDataBlock := concat (blocks_of <$> group).

(** One object: its live data, its live blocks. *)
Lemma merge_source s o live g done cur :
  merge_inv data sid live g done cur → stream_source sid s o (blocks_of o) → sizes_match data live →
  total live + total (blocks_of o) < 2 ^ 64 → StronglySorted (λ a b, bk_start_offset a ≤ bk_start_offset b) (live ++ blocks_of o) →
  ∃ g' done' cur' vds, merge_blocks threshold sid start g 0 (bk_index <$> blocks_of o) = Some (g', vds)
    ∧ merge_inv data sid (live ++ lives start (blocks_of o)) g' done' cur'
    ∧ mg_compacted_start_offset g' = default (mg_compacted_start_offset g) (bk_end_offset <$> last (deads (blocks_of o)))
    ∧ 0 ≤ vds ∧ vds + total (lives start (blocks_of o)) = end_of 0 (blocks_of o)
    ∧ (if vds <? end_of 0 (blocks_of o) then os_range_read s (metadata_key o) vds (Some (end_of 0 (blocks_of o))) else Ok [])
      = Ok (concat (data <$> lives start (blocks_of o))).
Proof.
  intros Hinv [Hsrc _ Hadj Hst Hch _] Hm Ht Hs. destruct Hsrc as [_ _ (dd & Hd & Hl & Hf) (Hok & Hsz & _) _].
  set (bs := blocks_of o) in *.
  destruct (dead_prefix start bs) as (d & Ebs & Hdead).
  { eapply before_ends; [done..|]. by eapply chained_sorted. }
  set (l := lives start bs) in *.
  assert (Forall (λ b, dead start b = false) l) as Hlive.
  { apply Forall_forall. intros b Hb. subst l. unfold lives in Hb. by apply list_elem_of_filter in Hb as [? _]. }
  assert (deads bs = d) as Ed.
  { unfold deads. rewrite Ebs, filter_app. rewrite filter_all by (by apply Forall_forall).
    rewrite filter_none; [by rewrite app_nil_r|]. rewrite Forall_forall in Hlive. intros b Hb E. by rewrite Hlive in E. }
  rewrite Ed. clearbody l. rewrite Ebs in *. clear Ebs. rewrite Forall_app in Hok, Hst, Hf. unfold sizes_match in Hsz. rewrite Forall_app in Hsz.
  destruct Hok as [Hokd Hokl], Hst as [_ Hstl], Hsz as [Hszd Hszl], Hf as [Hfd Hfl].
  assert (Forall (in_object dd) d) as Hind by (eapply Forall_impl; [exact Hfd|]; by intros ? [? _]).
  assert (Forall (in_object dd) l) as Hinl by (eapply Forall_impl; [exact Hfl|]; by intros ? [? _]).
  assert (Forall sized l) as Hsl by (eapply Forall_impl; [exact Hokl|]; intros ? Hx; apply Hx).
  assert (Forall sized d) as Hsd by (eapply Forall_impl; [exact Hokd|]; intros ? Hx; apply Hx).
  pose proof (total_nonneg _ Hsl). pose proof (total_nonneg _ Hsd). rewrite total_app in Ht.
  destruct (merge_dead data threshold sid start d g 0 Hdead) as (g1 & E1 & Ec1 & Hi1).
  destruct (merge_lives data threshold sid start Hthr l live g1 (default 0 (bk_end_position <$> last d)) done cur)
    as (g2 & done2 & cur2 & E2 & Ec2 & Hi2); try done.
  - by apply Hi1.
  - by apply Forall_app.
  - rewrite total_app. lia.
  - rewrite app_assoc in Hs. eapply StronglySorted_sublist; [|exact Hs]. apply sublist_app; [|done].
    rewrite <- (app_nil_r live) at 1. apply sublist_app; [done|apply sublist_nil_l].
  - apply adjacent_app in Hadj as [Hadjd Hadjl].
    assert (default 0 (bk_end_position <$> last d) = end_of 0 d) as Ev.
    { destruct (last d) as [z|] eqn:Ez; [|by apply last_None in Ez as ->]. cbn. rewrite (end_of_last dd _ _ _ Ez Hadjd).
      apply (end_position dd Hl). rewrite Forall_forall in Hind. apply Hind. by apply last_Some_elem_of. }
    rewrite Ev in *. exists g2, done2, cur2, (end_of 0 d). rewrite fmap_app, E1, E2.
    assert (end_of 0 (d ++ l) = end_of 0 d + total l) as Ee by (rewrite end_of_app; apply end_of_total).
    pose proof (end_of_total 0 d). split; [done|]. split; [done|]. split; [congruence|]. split; [lia|]. split; [lia|].
    destruct (end_of 0 d <? end_of 0 (d ++ l)) eqn:Elt.
    + assert (end_of 0 (d ++ l) ≤ len dd) as Hle.
      { apply (end_of_le dd); [by apply Forall_app|by apply adjacent_app|]. intros E. rewrite E in Elt. cbn in Elt. destruct d; [|done]. cbn in E, Elt. lia. }
      rewrite Hd by lia. f_equal. rewrite end_of_app, (adjacent_slice dd _ l) by (done || lia). f_equal.
      apply list_fmap_ext. intros i b Hb%list_elem_of_lookup_2. rewrite Forall_forall in Hfl. by destruct (Hfl b Hb).
    + destruct l as [|b l]; [done|]. apply Forall_cons in Hsl as [Hb Hsl]. unfold sized in Hb. pose proof (total_nonneg _ Hsl). cbn in *. lia.
Qed.

Lemma lives_app l k : lives start (l ++ k) = lives start l ++ lives start k.
Proof. apply filter_app. Qed.

Lemma source_good s o : stream_source sid s o (blocks_of o) → blocks_good data recs (blocks_of o).
Proof. intros H. apply (sr_good _ _ _ _ _ (ss_source _ _ _ _ H)). Qed.

Lemma lives_good l : blocks_good data recs l → blocks_good data recs (lives start l).
Proof. apply blocks_good_sub. intros b Hb. by apply lives_elem in Hb as [? _]. Qed.

Lemma lives_total l : Forall sized l → total (lives start l) ≤ total l.
Proof. intros H. apply total_submseteq; [|done]. apply sublist_submseteq, filter_sublist. Qed.

(** All objects of a group, one after the other. *)
Lemma merge_objects_spec s group live g done cur w sz ids :
  merge_inv data sid live g done cur → Forall (λ o, stream_source sid s o (blocks_of o)) group → sizes_match data live →
  Forall sized live → total live + total (group_blocks group) < 2 ^ 64 → 0 ≤ sz → sz + total (group_blocks group) < 2 ^ 64 →
  StronglySorted (λ a b, bk_start_offset a ≤ bk_start_offset b) (live ++ group_blocks group) →
  ∃ g' done' cur', merge_objects c stream s g w sz ids group
      = Some (Ok (g', w ++ concat (data <$> lives start (group_blocks group)),
                  sz + total (lives start (group_blocks group)), ids ++ (om_object_id <$> group)))
    ∧ merge_inv data sid (live ++ lives start (group_blocks group)) g' done' cur'
    ∧ mg_compacted_start_offset g' = default (mg_compacted_start_offset g) (bk_end_offset <$> last (deads (group_blocks group))).
Proof.
  intros Hinv Hsrc. revert live g done cur w sz ids Hinv.
  induction Hsrc as [|o group Ho Hsrc IH]; intros live g done cur w sz ids Hinv Hm Hsl Ht Hsz Htz Hs.
  { exists g, done, cur. cbn. rewrite !app_nil_r, Z.add_0_r. done. }
  unfold group_blocks in Ht, Htz, Hs |- *. cbn [fmap list_fmap concat] in Ht, Htz, Hs |- *. fold (group_blocks group) in Ht, Htz, Hs |- *.
  destruct (source_good _ _ Ho) as (Hok & Hmo & _).
  assert (Forall sized (blocks_of o)) as Hso by (eapply Forall_impl; [exact Hok|]; intros ? Hx; apply Hx).
  assert (Forall sized (group_blocks group)) as Hsg.
  { apply Forall_concat, Forall_fmap. eapply Forall_impl; [exact Hsrc|]. intros o' [Hok' _]%source_good.
    eapply Forall_impl; [exact Hok'|]. intros ? Hx; apply Hx. }
  pose proof (total_nonneg _ Hso). pose proof (total_nonneg _ Hsg). pose proof (total_nonneg _ Hsl). pose proof (lives_total _ Hso). rewrite total_app in Ht, Htz.
  assert (0 ≤ total (lives start (blocks_of o))) as Hlo.
  { apply total_nonneg. rewrite Forall_forall in Hso |- *. intros b [Hb _]%lives_elem. by apply Hso. }
  rewrite app_assoc in Hs. apply StronglySorted_app in Hs as Hs'. destruct Hs' as (_ & Hs1 & _).
  destruct (merge_source s o live g done cur Hinv Ho Hm ltac:(lia) Hs1) as (g1 & done1 & cur1 & vds & E1 & Hi1 & Ec1 & Hv & Ev & Er).
  cbn [merge_objects]. rewrite (ss_info _ _ _ _ Ho). cbn [boi_index_block boi_data_block_size]. rewrite E1, Er.
  rewrite (u64_small (_ - _)) by int_lia. rewrite (u64_small (_ + _)) by int_lia.
  destruct (IH (live ++ lives start (blocks_of o)) g1 done1 cur1 (w ++ concat (data <$> lives start (blocks_of o)))
    (sz + (end_of 0 (blocks_of o) - vds)) (ids ++ [om_object_id o])) as (g2 & done2 & cur2 & E2 & Hi2 & Ec2).
  - done.
  - apply Forall_app. split; [done|]. unfold sizes_match in Hmo. rewrite Forall_forall in Hmo |- *. intros b [Hb _]%lives_elem. by apply Hmo.
  - apply Forall_app. split; [done|]. rewrite Forall_forall in Hso |- *. intros b [Hb _]%lives_elem. by apply Hso.
  - rewrite total_app. lia.
  - lia.
  - lia.
  - eapply StronglySorted_sublist; [|exact Hs]. apply sublist_app; [|done]. apply sublist_app; [done|apply filter_sublist].
  - exists g2, done2, cur2. rewrite E2, lives_app, fmap_app, concat_app, total_app, <- !app_assoc. split; [|split].
    + replace (sz + (end_of 0 (blocks_of o) - vds)) with (sz + total (lives start (blocks_of o))) by lia. by rewrite <- Z.add_assoc.
    + by rewrite app_assoc.
    + rewrite Ec2, Ec1. unfold deads. rewrite filter_app, last_app. by destruct (last (filter _ (group_blocks group))).
Qed.

Lemma groups_fit groups :
  Forall (group_fit sid) groups → sizes_match data (concat groups) → small (concat groups) →
  ObjectIO.fits (group_block data <$> groups) ∧ total_size (group_block data <$> groups) = total (concat groups).
Proof.
  intros Hg Hm [Hn Ht]. assert (Forall (sizes_match data) groups) as Hmg by (by apply Forall_concat).
  assert (total_size (group_block data <$> groups) = total (concat groups)) as Et by (by apply groups_total).
  assert (len groups ≤ len (concat groups)) as Hlen.
  { clear -Hg. induction Hg as [|g gs [_ _ (a & z & Ha & _) _] _ IH]; cbn; [done|]. rewrite length_app. destruct g; [done|]. cbn. lia. }
  split; [|done]. unfold ObjectIO.fits. rewrite Et, length_fmap. split; [lia|]. split; [lia|]. apply Forall_fmap, Forall_forall. intros g Hin.
  rewrite Forall_forall in Hg, Hmg. destruct (Hg g Hin) as [_ _ (a & z & Ha & _ & Hoa & _) Htot]. cbn [compose].
  rewrite (group_block_size data g (Hmg g Hin)). cbn. rewrite Ha. cbn.
  pose proof (bo_stream _ Hoa). pose proof (bo_offsets _ Hoa). pose proof (bo_end_u64 _ Hoa). split_and!; [int_lia|int_lia| |done].
  clear. induction g as [|b g IH] using rev_ind; [cbn; int_lia|]. rewrite foldl_app. cbn. apply u32_range.
Qed.

Lemma group_blocks_good s group : Forall (λ o, stream_source sid s o (blocks_of o)) group → blocks_good data recs (group_blocks group).
Proof.
  intros Hsrc. unfold blocks_good, sizes_match, group_blocks. split_and!; apply Forall_concat, Forall_fmap; (eapply Forall_impl; [exact Hsrc|]);
    intros o (A & B & C)%source_good; done.
Qed.

Lemma group_blocks_stream s group :
  Forall (λ o, stream_source sid s o (blocks_of o)) group → Forall (λ b, bk_stream_id b = sid) (group_blocks group).
Proof. intros Hsrc. apply Forall_concat, Forall_fmap. eapply Forall_impl; [exact Hsrc|]. intros o Ho. apply Ho. Qed.

(** Where the merged object starts: at its first live block. *)
Lemma compacted_start s group first a :
  Forall (λ o, stream_source sid s o (blocks_of o)) group → chained (group_blocks group) →
  head group = Some first → head (lives start (group_blocks group)) = Some a →
  default (start_offset_of first) (bk_end_offset <$> last (deads (group_blocks group))) = bk_start_offset a.
Proof.
  intros Hsrc Hch Hf Ha. destruct (group_blocks_good s group Hsrc) as (Hok & _). pose proof (group_blocks_stream s group Hsrc) as Hst.
  destruct (dead_prefix start (group_blocks group)) as (d & E & Hd).
  { eapply before_ends; [done..|]. by eapply chained_sorted. }
  set (l := lives start (group_blocks group)) in *.
  assert (deads (group_blocks group) = d) as ->.
  { unfold deads. rewrite E, filter_app, filter_all by (by apply Forall_forall). rewrite filter_none; [by rewrite app_nil_r|].
    intros b [Hx _]%list_elem_of_filter Hy. cbn in Hx. congruence. }
  destruct l as [|a' l]; [done|]. injection Ha as ->. destruct (last d) as [z|] eqn:Ez; cbn.
  - apply last_Some in Ez as [k ->]. rewrite <- app_assoc in E. cbn in E. rewrite E in Hch, Hst. rewrite !Forall_app, !Forall_cons in Hst.
    destruct Hst as (_ & Hz & Hs & _). apply (Hch (length k) z a); [by rewrite list_lookup_middle|by rewrite lookup_app_r, Nat.sub_succ_l, Nat.sub_diag by lia|congruence].
  - apply last_None in Ez as ->. cbn in E. destruct group as [|o group]; [done|]. injection Hf as ->.
    apply Forall_cons in Hsrc as [Ho _]. destruct (ss_range _ _ _ _ Ho) as (a0 & z & Ha & _ & Er). unfold start_offset_of. rewrite Er. cbn.
    unfold group_blocks in E. cbn in E. destruct (blocks_of first); [done|]. cbn in Ha, E. injection Ha as ->. injection E as -> _. done.
Qed.

(** The merged object reads back to the live records of the group, in order, through a
    sorted index, and the request says where it starts and ends and what it replaces. *)
Lemma physical_merge_spec now id s group first final a :
  Forall (λ o, stream_source sid s o (blocks_of o)) group → chained (group_blocks group) → small (group_blocks group) →
  head group = Some first → last group = Some final → head (lives start (group_blocks group)) = Some a →
  ∃ bytes req index groups,
    compact_by_physical_merge c now stream group id s = Some (os_write s now (object_key id) bytes, Ok (Some req))
    ∧ object_reads (os_write s now (object_key id) bytes) (object_key id) (cs_object_size req) index (group_ops recs groups)
    ∧ sorted_index index ∧ Forall (λ g, one_stream g) groups ∧ concat groups = lives start (group_blocks group)
    ∧ cs_object_id req = id ∧ cs_stream_id req = sid ∧ cs_start_offset req = bk_start_offset a
    ∧ cs_end_offset req = end_offset_of final ∧ cs_source_object_ids req = om_object_id <$> group.
Proof.
  intros Hsrc Hch Hsm Hf Hl Ha. pose proof (group_blocks_good s group Hsrc) as Hgood. pose proof Hgood as (Hok & Hm & _).
  pose proof (group_blocks_stream s group Hsrc) as Hst. pose proof (chained_sorted sid _ Hok Hst Hch) as Hsorted.
  pose proof (before_ends sid _ Hok Hst Hsorted) as Hends. pose proof Hsm as [Hn Ht].
  assert (Forall sized (group_blocks group)) as Hsz by (eapply Forall_impl; [exact Hok|]; intros ? Hx; apply Hx).
  destruct (merge_objects_spec s group [] (merge_new (start_offset_of first)) [] [] [] 0 []) as (g & don & cur & E & Hinv & Ec).
  - constructor; (reflexivity || constructor).
  - exact Hsrc.
  - constructor.
  - constructor.
  - change (total []) with 0. lia.
  - lia.
  - lia.
  - clear -Hends. change ([] ++ group_blocks group) with (group_blocks group). induction Hends as [|x l _ IH Hx]; [constructor|]. constructor; [done|]. eapply Forall_impl; [exact Hx|]. by intros y [? _].
  - destruct (lives_good _ Hgood) as (Hlok & Hlm & Hlc). cbn [app] in Hinv.
    assert (lives start (group_blocks group) ⊆+ group_blocks group) as Hsub by (apply sublist_submseteq, filter_sublist).
    assert (small (lives start (group_blocks group))) as Hlsm by (by eapply small_sub). pose proof (lives_total _ Hsz).
    assert (merge_flush sid g = index_entries (λ _, -1) 0 0 (group_block data <$> don ++ cur)
      ∧ Forall (group_fit sid) (don ++ cur) ∧ concat (don ++ cur) = lives start (group_blocks group)) as (Efl & Hfit & Econ).
    { eapply merge_flush_spec; [exact Hthr|exact Hinv|by eapply merge_inv_sizes|lia]. }
    destruct (groups_fit (don ++ cur) Hfit) as [Hfits Etot]; [by rewrite Econ|by rewrite Econ|]. rewrite Econ in Etot.
    assert (concat (data <$> lives start (group_blocks group)) = concat (db_encoded <$> (group_block data <$> don ++ cur))) as Ebytes.
    { rewrite <- Econ. clear. induction (don ++ cur) as [|x l IH]; [done|]. cbn. by rewrite fmap_app, concat_app, IH. }
    unfold compact_by_physical_merge. rewrite Hf, Hl, E. cbn [app fst snd]. rewrite Efl.
    rewrite (mi_pos _ _ _ _ _ _ Hinv), <- Etot.
    set (bytes := concat (data <$> lives start (group_blocks group)) ++ _).
    assert (bytes = object_bytes (group_block data <$> don ++ cur)) as Eb by (subst bytes; unfold object_bytes; by rewrite Ebytes).
    eexists bytes, _, _, (don ++ cur). split; [reflexivity|]. cbn [cs_object_size cs_object_id cs_stream_id cs_start_offset cs_end_offset cs_source_object_ids].
    split; [|split; [|split; [|split; [done|split; [done|split; [done|split; [|done]]]]]]].
    + replace (u64 _) with (len (object_bytes (group_block data <$> don ++ cur))); [rewrite Eb; apply (groups_reads data recs s now (object_key id) (don ++ cur) Hfits); by rewrite Econ|].
      rewrite len_object_bytes, Etot, !length_app, !Nat2Z.inj_add, len_index_buf, len_footer. unfold FOOTER_SIZE. destruct Hfits as (Hx & _). rewrite Etot in Hx.
      assert (0 ≤ total (lives start (group_blocks group))) by (apply total_nonneg; eapply Forall_impl; [exact Hlok|]; intros ? Hy; apply Hy).
      rewrite u64_small by int_lia. lia.
    + apply (groups_sorted data recs); [eapply Forall_impl; [exact Hfit|]; intros ? Hx; apply Hx| |rewrite Etot; lia].
      rewrite Econ. eapply StronglySorted_sublist; [apply filter_sublist|exact Hsorted].
    + eapply Forall_impl; [exact Hfit|]. intros x [_ Hx _ _] y z Hy Hz. rewrite Forall_forall in Hx. by rewrite (Hx y Hy), (Hx z Hz).
    + rewrite Ec. by eapply compacted_start.
Qed.
End Physical.

(** ** Grouping *)

(** Each object starts where the one before ends. *)
Definition linked (g : list S3ObjectMetadata) : Prop :=
  ∀ i x y, g !! i = Some x → g !! S i = Some y → end_offset_of x = start_offset_of y.

Lemma linked_snoc g o : linked g → (∀ x, last g = Some x → end_offset_of x = start_offset_of o) → linked (g ++ [o]).
Proof.
  intros Hg Hl i x y Hx Hy. apply lookup_app_Some in Hy as [Hy|[Hge Hy]].
  - rewrite lookup_app_l in Hx by (apply lookup_lt_Some in Hy; lia). by eapply Hg.
  - apply list_lookup_singleton_Some in Hy as [Hi <-]. apply Hl. rewrite last_lookup.
    rewrite lookup_app_l in Hx by lia. rewrite <- Hx. f_equal. lia.
Qed.

Lemma group0_loop_spec size level min group gs gstart next parts objects :
  linked group → Forall (λ o, object_filter level min o = true) group →
  (∀ x, last group = Some x → next = Some (end_offset_of x)) →
  let groups := group0_loop size level min group gs gstart next parts objects in
  Forall (λ g, g ≠ [] ∧ linked g ∧ Forall (λ o, object_filter level min o = true) g) groups
  ∧ concat groups `sublist_of` group ++ objects.
Proof.
  revert group gs gstart next parts; induction objects as [|o objects IH]; intros group gs gstart next parts Hl Hf Hn; cbn.
  { destruct group; cbn; [done|]. rewrite !app_nil_r. split; [by apply Forall_singleton|done]. }
  destruct (negb (object_filter level min o) || _) eqn:Eskip.
  { destruct (IH group gs gstart next parts Hl Hf Hn) as [H1 H2]. split; [done|]. etrans; [exact H2|].
    apply sublist_app; [done|]. by constructor. }
  apply orb_false_iff in Eskip as [Ef%negb_false_iff _].
  set (p := match next with None => (start_offset_of o, start_offset_of o) | Some n => (gstart, n) end).
  destruct p as [gstart' next'] eqn:Ep. subst p.
  match goal with |- context [if ?x then _ else group0_loop _ _ _ (group ++ _) _ _ _ _ _] => destruct x eqn:Ecut end.
  - destruct (IH [o] (u64 (0 + om_object_size o)) (start_offset_of o) (Some (end_offset_of o)) (u64 (0 + div_ceil (om_object_size o) MAX_PART_SIZE)))
      as [H1 H2].
    { intros i x y Hx Hy. by destruct i. }
    { by apply Forall_singleton. }
    { intros x [= <-]. done. }
    rewrite concat_app. split.
    + apply Forall_app. split; [|done]. destruct group; [constructor|]. by apply Forall_singleton.
    + apply sublist_app; [destruct group; cbn; [done|by rewrite app_nil_r]|done].
  - destruct (IH (group ++ [o]) (u64 (gs + om_object_size o)) gstart' (Some (end_offset_of o)) (u64 (parts + div_ceil (om_object_size o) MAX_PART_SIZE)))
      as [H1 H2].
    { apply linked_snoc; [done|]. intros x Hx. rewrite (Hn x Hx) in Ep. injection Ep as <- <-.
      rewrite !orb_false_iff in Ecut. destruct Ecut as ((((E & _) & _) & _) & _). apply negb_false_iff, Z.eqb_eq in E. done. }
    { apply Forall_app. split; [done|]. by apply Forall_singleton. }
    { intros x. rewrite last_snoc. by intros [= <-]. }
    split; [done|]. by rewrite <- app_assoc in H2.
Qed.

Lemma group0_spec objects size level min :
  let groups := group0 objects size level min in
  Forall (λ g, g ≠ [] ∧ linked g ∧ Forall (λ o, object_filter level min o = true) g) groups
  ∧ concat groups `sublist_of` objects.
Proof. apply (group0_loop_spec size level min [] 0 0 None 0); [by intros i x y Hx|done|done]. Qed.

Lemma chunks_concat {A} fuel n (l : list A) : (0 < n)%nat → (length l ≤ fuel)%nat → concat (chunks fuel n l) = l.
Proof.
  intros Hn. revert l; induction fuel as [|fuel IH]; intros [|x l] Hl; cbn in Hl; [done|lia|done|].
  change (chunks (S fuel) n (x :: l)) with (take n (x :: l) :: chunks fuel n (drop n (x :: l))). cbn [concat].
  rewrite IH; [apply take_drop|]. rewrite length_drop. cbn. lia.
Qed.

(** ** The registry under compaction *)

Lemma compact_find now r m id k :
  find_object id k (ms_stream_objects (compact_stream_object now r m))
  = if decide (id = cs_stream_id r) then
      if negb (cs_object_id r =? NOOP_OBJECT_ID) && (k =? cs_start_offset r)
      then Some (so_metadata now (cs_object_id r) (cs_object_size r) (cs_stream_id r) (cs_start_offset r) (cs_end_offset r) (cs_attributes r))
      else match find_object id k (ms_stream_objects m) with
           | Some o => if bool_decide (om_object_id o ∈ cs_source_object_ids r) then None else Some o
           | None => None
           end
    else find_object id k (ms_stream_objects m).
Proof.
  unfold find_object, compact_stream_object. cbn. case_decide as E; [subst id|by rewrite lookup_insert_ne].
  rewrite lookup_insert_eq. cbn.
  assert (filter (λ p : Z * S3ObjectMetadata, om_object_id p.2 ∉ cs_source_object_ids r) (default ∅ (ms_stream_objects m !! cs_stream_id r)) !! k
    = match ms_stream_objects m !! cs_stream_id r ≫= (λ per : gmap Z S3ObjectMetadata, per !! k) with
      | Some o => if bool_decide (om_object_id o ∈ cs_source_object_ids r) then None else Some o | None => None end) as Ef.
  { destruct (ms_stream_objects m !! cs_stream_id r) as [per|]; cbn; [|by rewrite map_filter_empty, lookup_empty].
    rewrite map_lookup_filter. destruct (per !! k) as [o|]; cbn; [|done]. case_bool_decide; by case_guard. }
  destruct (negb _) eqn:En; cbn; [|exact Ef]. destruct (Z.eqb_spec k (cs_start_offset r)) as [->|]; [by rewrite lookup_insert_eq|].
  by rewrite lookup_insert_ne.
Qed.

Lemma compact_rest now r m :
  ms_stream_set_objects (compact_stream_object now r m) = ms_stream_set_objects m
  ∧ ms_streams (compact_stream_object now r m) = ms_streams m
  ∧ ms_object_id_alloc (compact_stream_object now r m) = ms_object_id_alloc m.
Proof. done. Qed.

(** ** A pass *)

Section Pass.
Context {S : Type} `{!ObjectStorage S} `{!ObjectStorageLaws S}.
Context (data : StreamDataBlock → bytes) (recs : StreamDataBlock → list StreamRecordBatch).
Context (blocks_of : S3ObjectMetadata → list StreamDataBlock).
Context (c : StreamObjectCompactor) (now : Z) (stream : StreamView).

Abbreviation sid := (sv_stream_id stream).
Abbreviation start := (sv_start_offset stream).
Definition object_at (m : MetadataState) (k : Z) (o : S3ObjectMetadata) : Prop :=
  find_object sid k (ms_stream_objects m) = Some o.
Definition stream_objects (m : MetadataState) : list S3ObjectMetadata := values (default ∅ (ms_stream_objects m !! sid)).
Definition plain_objects (m : MetadataState) : list S3ObjectMetadata :=
  filter (λ o, is_composite (om_attributes o) = false) (stream_objects m).

(** A stream whose objects are intact, with ids of their own and disjoint ranges, and
    room for the new objects. *)
Record stream_compactable (s : S) (m : MetadataState) : Prop := {
  sk_ok : manager_ok m;
  sk_id k o : object_at m k o → 0 ≤ om_object_id o < ms_object_id_alloc m;
  sk_span k o : object_at m k o → 0 ≤ k < end_offset_of o;
  sk_source k o : object_at m k o → is_composite (om_attributes o) = false →
    stream_source data recs sid s o (blocks_of o);
  sk_ids k k' o o' : object_at m k o → object_at m k' o' → om_object_id o = om_object_id o' → k = k';
  sk_apart k k' o o' : object_at m k o → object_at m k' o' → k < k' → end_offset_of o ≤ k';
  sk_small : small (concat (blocks_of <$> plain_objects m));
  sk_room : ms_object_id_alloc m + len (stream_objects m) < 2 ^ 64;
}.

Lemma stream_source_same s s' o blocks :
  (∀ a b, os_range_read s' (metadata_key o) a b = os_range_read s (metadata_key o) a b) →
  stream_source data recs sid s o blocks → stream_source data recs sid s' o blocks.
Proof.
  intros He [A B C D E F]. constructor; try done; [by eapply source_same|]. rewrite <- B. by apply basic_info_same.
Qed.

Context (s0 : S) (m0 : MetadataState).
Hypothesis Hw : stream_compactable s0 m0.

(** An object filed under a key starts there. *)
Lemma object_at_start m k o : manager_ok m → object_at m k o → start_offset_of o = k.
Proof.
  intros [_ _ Ho] Hk. unfold object_at, find_object in Hk. apply bind_Some in Hk as (per & Hp & Hk).
  destruct (Ho _ _ _ _ Hp Hk) as [e Er]. unfold start_offset_of. by rewrite Er.
Qed.

Lemma stream_objects_elem m o : o ∈ stream_objects m ↔ ∃ k, object_at m k o.
Proof.
  unfold stream_objects. rewrite elem_of_values. unfold object_at, find_object.
  destruct (ms_stream_objects m !! sid); cbn; [done|]. split; intros [k Hk]; [by rewrite lookup_empty in Hk|done].
Qed.

Lemma stream_objects_NoDup : NoDup (om_object_id <$> stream_objects m0).
Proof.
  unfold stream_objects, values. rewrite entries_perm. rewrite <- list_fmap_compose. apply NoDup_fmap_2_strong; [|apply NoDup_map_to_list].
  intros [k o] [k' o'] Hk%elem_of_map_to_list Hk'%elem_of_map_to_list E. cbn in E.
  assert (∀ k o, default ∅ (ms_stream_objects m0 !! sid) !! k = Some o → object_at m0 k o) as Hat.
  { intros ? ? H. unfold object_at, find_object. destruct (ms_stream_objects m0 !! sid); cbn in *; [done|by rewrite lookup_empty in H]. }
  pose proof (sk_ids _ _ Hw k k' o o' (Hat _ _ Hk) (Hat _ _ Hk') E) as ->. rewrite Hk in Hk'. by injection Hk' as ->.
Qed.

(** The ranges of two objects share no offset. *)
Lemma ranges_apart o o' x :
  o ∈ stream_objects m0 → o' ∈ stream_objects m0 → start_offset_of o ≤ x < end_offset_of o →
  start_offset_of o' ≤ x < end_offset_of o' → o = o'.
Proof.
  intros [k Hk]%stream_objects_elem [k' Hk']%stream_objects_elem Hx Hx'.
  rewrite (object_at_start _ _ _ (sk_ok _ _ Hw) Hk) in Hx. rewrite (object_at_start _ _ _ (sk_ok _ _ Hw) Hk') in Hx'.
  destruct (Z.lt_total k k') as [Hlt|[->|Hlt]].
  - pose proof (sk_apart _ _ Hw _ _ _ _ Hk Hk' Hlt). lia.
  - unfold object_at in *. congruence.
  - pose proof (sk_apart _ _ Hw _ _ _ _ Hk' Hk Hlt). lia.
Qed.

Definition kept (m : MetadataState) (o : S3ObjectMetadata) : Prop := object_at m (start_offset_of o) o.

(** The object's live records are in a new object, filed within a merged one's range. *)
Definition merged (s : S) (m : MetadataState) (todo : list S3ObjectMetadata) (o : S3ObjectMetadata) : Prop :=
  ∃ k e n x, object_at m k n
    ∧ om_offset_ranges n = [ {| sr_stream_id := sid; sr_start_offset := k; sr_end_offset := e |} ]
    ∧ ms_object_id_alloc m0 ≤ om_object_id n < ms_object_id_alloc m
    ∧ x ∈ stream_objects m0 ∧ (x ∉ todo) ∧ start_offset_of x ≤ k < end_offset_of x
    ∧ ∀ b r, b ∈ blocks_of o → start < bk_end_offset b → r ∈ recs b → stream_id r = sid ∧ found_in s n k e r.

(** The state of the pass before the groups [todo]. *)
Record pass_inv (s : S) (m : MetadataState) (todo : list (list S3ObjectMetadata)) : Prop := {
  pi_ok : manager_ok m;
  pi_set : ms_stream_set_objects m = ms_stream_set_objects m0;
  pi_others id k : id ≠ sid → find_object id k (ms_stream_objects m) = find_object id k (ms_stream_objects m0);
  pi_alloc : ms_object_id_alloc m0 ≤ ms_object_id_alloc m ∧ ms_object_id_alloc m + len todo < 2 ^ 64;
  pi_reads id a b : 0 ≤ id < ms_object_id_alloc m0 →
    os_range_read s (object_key id) a b = os_range_read s0 (object_key id) a b;
  pi_old k o : object_at m k o → om_object_id o < ms_object_id_alloc m0 →
    object_at m0 k o ∧ (k < sv_confirm_offset stream → start < end_offset_of o);
  pi_todo o : o ∈ concat todo → kept m o;
  pi_all o : o ∈ stream_objects m0 → start < end_offset_of o →
    kept m o ∨ (is_composite (om_attributes o) = false ∧ (o ∉ concat todo) ∧ merged s m (concat todo) o);
}.

(** The groups of a pass: living objects of the stream, not composite, each once. *)
Record groups_ok (todo : list (list S3ObjectMetadata)) : Prop := {
  go_groups : Forall (λ g, g ≠ [] ∧ linked g) todo;
  go_once : NoDup (concat todo);
  go_objects o : o ∈ concat todo → o ∈ stream_objects m0 ∧ start < end_offset_of o ∧ is_composite (om_attributes o) = false;
}.

Lemma pass_skip_group s m g todo : pass_inv s m (g :: todo) → pass_inv s m todo.
Proof.
  intros [A B C D E O F G]. constructor; try done.
  - cbn in D. lia.
  - intros o Ho. apply F. cbn. apply elem_of_app. by right.
  - intros o Ho Hl. destruct (G o Ho Hl) as [?|(Hc & Hn & k & e & n & x & H1 & H2 & H3 & H4 & H5 & H6)]; [by left|right].
    cbn in Hn, H5. rewrite elem_of_app in Hn, H5. split; [done|]. split; [tauto|]. exists k, e, n, x. split_and!; try done. all: tauto.
Qed.

Lemma chained_app l k :
  chained l → chained k → (∀ x y, last l = Some x → head k = Some y → bk_end_offset x = bk_start_offset y) → chained (l ++ k).
Proof.
  intros Hl Hk Hj i x y Hx Hy Hs. destruct (decide (Datatypes.S i < length l)%nat) as [Hlt|Hge].
  - rewrite lookup_app_l in Hx, Hy by lia. by eapply Hl.
  - rewrite (lookup_app_r l k (Datatypes.S i)) in Hy by lia. destruct (decide (i < length l)%nat) as [Hi|Hi].
    + rewrite lookup_app_l in Hx by lia. apply Hj; [rewrite last_lookup, <- Hx; f_equal; lia|].
      rewrite head_lookup, <- Hy. f_equal. lia.
    + rewrite lookup_app_r in Hx by lia. eapply Hk; [exact Hx| |done]. rewrite <- Hy. f_equal. lia.
Qed.

(** Linked objects make one chain of blocks. *)
Lemma group_chained s g :
  Forall (λ o, stream_source data recs sid s o (blocks_of o)) g → linked g → chained (group_blocks blocks_of g).
Proof.
  induction 1 as [|o g Ho Hg IH]; intros Hl; [apply chained_nil|]. unfold group_blocks. cbn [fmap list_fmap concat].
  apply chained_app; [apply Ho|apply IH|].
  - intros i x y Hx Hy. apply (Hl (Datatypes.S i)); done.
  - intros x y Hx Hy. destruct g as [|o' g]; [done|]. pose proof (Hl 0%nat o o' eq_refl eq_refl) as E.
    apply Forall_cons in Hg as [Ho' _]. destruct (ss_range _ _ _ _ _ _ Ho) as (a & z & Ha & Hz & Er), (ss_range _ _ _ _ _ _ Ho') as (a' & z' & Ha' & Hz' & Er').
    unfold end_offset_of, start_offset_of in E. rewrite Er, Er' in E. cbn in E. rewrite Hz in Hx. injection Hx as <-.
    cbn in Hy. destruct (blocks_of o'); [done|]. cbn in Ha', Hy. congruence.
Qed.

Lemma plain_sized : Forall sized (concat (blocks_of <$> plain_objects m0)).
Proof.
  apply Forall_concat, Forall_fmap, Forall_forall. intros o [Hc [k Hk]%stream_objects_elem]%list_elem_of_filter.
  destruct (sr_good _ _ _ _ _ (ss_source _ _ _ _ _ _ (sk_source _ _ Hw k o Hk Hc))) as (Hok & _).
  eapply Forall_impl; [exact Hok|]. intros b Hb. apply Hb.
Qed.

Lemma group_small g : NoDup g → (∀ o, o ∈ g → o ∈ plain_objects m0) → small (group_blocks blocks_of g).
Proof.
  intros Hnd Hsub. eapply small_sub; [|apply plain_sized|apply (sk_small _ _ Hw)].
  apply concat_submseteq, fmap_submseteq. by apply NoDup_submseteq.
Qed.

(** The group's own facts: intact, in order, small, and where its live part starts and ends. *)
Lemma group_facts s g first final :
  (∀ id a b, 0 ≤ id < ms_object_id_alloc m0 → os_range_read s (object_key id) a b = os_range_read s0 (object_key id) a b) →
  NoDup g → linked g →
  (∀ o, o ∈ g → o ∈ stream_objects m0 ∧ start < end_offset_of o ∧ is_composite (om_attributes o) = false) →
  head g = Some first → last g = Some final →
  Forall (λ o, stream_source data recs sid s o (blocks_of o)) g ∧ chained (group_blocks blocks_of g)
  ∧ (∃ a, head (lives start (group_blocks blocks_of g)) = Some a ∧ a ∈ blocks_of first)
  ∧ (∃ z, last (group_blocks blocks_of g) = Some z ∧ end_offset_of final = bk_end_offset z).
Proof.
  intros Hreads Hnd Hl Hobj Hf Hfin.
  assert (Forall (λ o, stream_source data recs sid s o (blocks_of o)) g) as Hsrc.
  { apply Forall_forall. intros o Ho. destruct (Hobj o Ho) as ([k Hk]%stream_objects_elem & _ & Hc).
    apply (stream_source_same s0); [|by eapply (sk_source _ _ Hw)]. intros a b. apply Hreads. by eapply (sk_id _ _ Hw). }
  split; [done|]. split; [by eapply group_chained|]. split.
  - destruct g as [|o g]; [done|]. injection Hf as ->. apply Forall_cons in Hsrc as [Ho _]. destruct (Hobj first) as (_ & Hlive & _); [left|].
    destruct (ss_range _ _ _ _ _ _ Ho) as (a0 & z & _ & Hz & Er). unfold end_offset_of in Hlive. rewrite Er in Hlive. cbn in Hlive.
    unfold group_blocks. cbn [fmap list_fmap concat]. unfold lives. rewrite filter_app. fold (lives start (blocks_of first)).
    destruct (lives start (blocks_of first)) as [|a l] eqn:E.
    + assert (z ∈ lives start (blocks_of first)) as Hin by (apply lives_elem; split; [by apply last_Some_elem_of|done]).
      rewrite E in Hin. by apply not_elem_of_nil in Hin.
    + exists a. split; [done|]. assert (a ∈ lives start (blocks_of first)) as Hin by (rewrite E; left). by apply lives_elem in Hin as [? _].
  - apply last_Some in Hfin as [k ->]. apply Forall_app in Hsrc as [_ [Ho _]%Forall_cons].
    destruct (ss_range _ _ _ _ _ _ Ho) as (a0 & z & _ & Hz & Er). exists z. unfold group_blocks. rewrite fmap_app, concat_app. cbn. rewrite app_nil_r.
    rewrite last_app, Hz. split; [done|]. unfold end_offset_of. by rewrite Er.
Qed.

(** The records of the group's live blocks are found in the merged object. *)
Lemma group_found s' g key size index groups n k e a z :
  blocks_good data recs (group_blocks blocks_of g) → Forall (λ b, bk_stream_id b = sid) (group_blocks blocks_of g) →
  chained (group_blocks blocks_of g) → head (lives start (group_blocks blocks_of g)) = Some a →
  last (group_blocks blocks_of g) = Some z → k = bk_start_offset a → e = bk_end_offset z →
  object_reads s' key size index (group_ops recs groups) → Forall (λ g, one_stream g) groups →
  concat groups = lives start (group_blocks blocks_of g) → key = object_key (om_object_id n) → size = om_object_size n →
  ∀ o b r, o ∈ g → b ∈ blocks_of o → start < bk_end_offset b → r ∈ recs b → stream_id r = sid ∧ found_in s' n k e r.
Proof.
  intros Hgood Hst Hch Ha Hz -> -> Hr Ho Econ -> -> o b r Hog Hb Hlt Hrb. pose proof Hgood as (Hok & _ & Hc).
  assert (b ∈ group_blocks blocks_of g) as Hbg.
  { apply list_elem_of_In, in_concat. exists (blocks_of o). rewrite <- !list_elem_of_In. split; [by apply list_elem_of_fmap_2|done]. }
  assert (b ∈ lives start (group_blocks blocks_of g)) as Hbl by (by apply lives_elem).
  rewrite Forall_forall in Hc, Hst. pose proof (Hc b Hbg) as Hcb. pose proof Hcb as [_ Hrs]. rewrite Forall_forall in Hrs.
  destruct (Hrs r Hrb) as (Er & H1 & H2 & H3). rewrite (Hst b Hbg) in Er. split; [done|].
  assert (bk_start_offset a ≤ bk_start_offset b) as Hab.
  { assert (StronglySorted before (lives start (group_blocks blocks_of g))) as Hs.
    { eapply StronglySorted_sublist; [apply filter_sublist|]. eapply (chained_sorted sid); [done|by apply Forall_forall|done]. }
    destruct (lives start (group_blocks blocks_of g)) as [|a' l] eqn:El; [done|]. injection Ha as ->.
    apply elem_of_cons in Hbl as [->|Hin]; [lia|]. apply StronglySorted_cons in Hs as [Hall _]. rewrite Forall_forall in Hall.
    assert (a ∈ group_blocks blocks_of g) as Hag.
    { assert (a ∈ lives start (group_blocks blocks_of g)) as Hx by (rewrite El; left). by apply lives_elem in Hx as [? _]. }
    specialize (Hall b Hin). unfold before in Hall. rewrite (Hst a Hag), (Hst b Hbg) in Hall. rewrite Forall_forall in Hok. pose proof (bo_offsets _ (Hok a Hag)). lia. }
  assert (bk_end_offset b ≤ bk_end_offset z) as Hbz.
  { destruct (head (group_blocks blocks_of g)) as [h|] eqn:Eh; [|destruct (group_blocks blocks_of g); [by apply not_elem_of_nil in Hbg|done]].
    destruct (chain_bounds (group_blocks blocks_of g) h z b) as (_ & _ & ?); try done.
    intros x y Hx Hy. by rewrite (Hst x Hx), (Hst y Hy). }
  split; [lia|]. split; [done|]. split; [lia|].
  destruct (group_ops_elem data recs groups b r Ho) as (rs & Hin & Hrr); [by rewrite Econ|done|done|].
  by exists index, (group_ops recs groups), rs.
Qed.

(** The levels that copy data. *)
Definition physical (level : CompactionLevel) : Prop := level = Minor ∨ level = Major ∨ level = MinorV1.

(** Replacing a group by its merged object keeps the state of the pass. *)
Lemma pass_replace s m g todo bytes req n z a first :
  pass_inv s m (g :: todo) → groups_ok (g :: todo) → head g = Some first → a ∈ blocks_of first →
  stream_source data recs sid s first (blocks_of first) →
  let id := ms_object_id_alloc m in
  let s' := os_write s now (object_key id) bytes in
  let m' := compact_stream_object now req (prepare_object 1 m).1 in
  cs_object_id req = id → cs_stream_id req = sid → cs_start_offset req = bk_start_offset a → cs_end_offset req = bk_end_offset z →
  cs_source_object_ids req = om_object_id <$> g →
  n = so_metadata now (cs_object_id req) (cs_object_size req) (cs_stream_id req) (cs_start_offset req) (cs_end_offset req) (cs_attributes req) →
  (∀ o b r, o ∈ g → b ∈ blocks_of o → start < bk_end_offset b → r ∈ recs b →
     stream_id r = sid ∧ found_in s' n (bk_start_offset a) (bk_end_offset z) r) →
  pass_inv s' m' todo.
Proof.
  intros [Iok Iset Ioth Ial Ird Iold Itodo Iall] [Ggr Gonce Gobj] Hf Ha Hsrc id s' m' Eid Est Eso Eeo Esrc En Hfound.
  cbn [length] in Ial. destruct (sk_ok _ _ Hw) as [_ _ _]. assert (0 ≤ ms_object_id_alloc m0) as Hm0.
  { assert (first ∈ concat (g :: todo)) as Hin by (cbn; apply elem_of_app; left; by apply head_Some_elem_of).
    destruct (Gobj _ Hin) as ([k Hk]%stream_objects_elem & _). pose proof (sk_id _ _ Hw _ _ Hk). lia. }
  assert (ms_object_id_alloc m' = id + 1) as Eal by (cbn; apply u64_small; subst id; int_lia).
  assert (first ∈ g) as Hfg by (by apply head_Some_elem_of).
  assert (first ∈ stream_objects m0) as Hfo by (apply Gobj; cbn; apply elem_of_app; by left).
  (* the new key lies in the first object's range *)
  assert (start_offset_of first ≤ bk_start_offset a < end_offset_of first) as Hkey.
  { destruct (ss_range _ _ _ _ _ _ Hsrc) as (h & w & Hh & Hw' & Er). unfold start_offset_of, end_offset_of. rewrite Er. cbn.
    destruct (sr_good _ _ _ _ _ (ss_source _ _ _ _ _ _ Hsrc)) as (Hok & _). pose proof (ss_stream _ _ _ _ _ _ Hsrc) as Hstr.
    destruct (chain_bounds (blocks_of first) h w a) as (_ & ? & ?); try done; [|apply Hsrc|].
    - intros x y Hx Hy. rewrite Forall_forall in Hstr. by rewrite (Hstr x Hx), (Hstr y Hy).
    - rewrite Forall_forall in Hok. pose proof (bo_offsets _ (Hok a Ha)). lia. }
  assert ((cs_object_id req =? NOOP_OBJECT_ID) = false) as Enoop by (apply Z.eqb_neq; rewrite Eid; unfold NOOP_OBJECT_ID; subst id; int_lia).
  assert (∀ k, find_object sid k (ms_stream_objects m') = if k =? bk_start_offset a then Some n
    else match find_object sid k (ms_stream_objects m) with
         | Some o => if bool_decide (om_object_id o ∈ om_object_id <$> g) then None else Some o | None => None end) as Hfind.
  { intros k. subst m'. rewrite compact_find, Est, decide_True by done. rewrite Enoop, Eso, Esrc, <- Est, <- Eso, <- En. done. }
  assert (∀ o, o ∈ stream_objects m0 → o ∉ g → kept m o → kept m' o) as Hkeep.
  { intros o Ho Hng Hk. unfold kept, object_at in *. rewrite Hfind.
    destruct (Z.eqb_spec (start_offset_of o) (bk_start_offset a)) as [E|_].
    - destruct Hng. replace o with first; [done|]. apply (ranges_apart _ _ (bk_start_offset a)); [done..|]. rewrite <- E.
      apply stream_objects_elem in Ho as [k' Hk']. pose proof (sk_span _ _ Hw _ _ Hk'). rewrite (object_at_start _ _ _ (sk_ok _ _ Hw) Hk') in *. lia.
    - rewrite Hk, bool_decide_false; [done|]. intros (o' & Eo & Ho')%list_elem_of_fmap. apply Hng.
      assert (o' ∈ stream_objects m0) as Hin by (apply Gobj; cbn; apply elem_of_app; by left).
      apply stream_objects_elem in Ho as [k1 H1], Hin as [k2 H2]. pose proof (sk_ids _ _ Hw _ _ _ _ H1 H2 Eo) as ->.
      unfold object_at in *. rewrite H1 in H2. by injection H2 as ->. }
  constructor.
  - apply (mstep_ok _ _ (ms_compact _ now req)). by apply (mstep_ok m _ (ms_prepare m 1)).
  - done.
  - intros id' k Hne. subst m'. rewrite compact_find, decide_False by congruence. by apply Ioth.
  - rewrite Eal. subst id. lia.
  - intros id' x y Hid. subst s'. rewrite os_write_other; [by apply Ird|]. intros E. apply object_key_inj in E; subst id; [lia|int_lia|int_lia].
  - intros k o Hk Hid. unfold object_at in Hk. rewrite Hfind in Hk. destruct (k =? bk_start_offset a); [injection Hk as <-; rewrite En in Hid; cbn in Hid; subst id; lia|].
    destruct (find_object sid k (ms_stream_objects m)) as [o'|] eqn:Eo; [|done]. case_bool_decide; [done|]. injection Hk as ->. by apply Iold.
  - intros o Ho. cbn in Gonce. apply NoDup_app in Gonce as (_ & Hdis & _).
    apply Hkeep; [apply Gobj; cbn; apply elem_of_app; by right|intros Hg; by eapply Hdis|]. apply Itodo. cbn. apply elem_of_app. by right.
  - intros o Ho Hl. destruct (decide (o ∈ g)) as [Hg|Hng].
    + right. cbn in Gonce. apply NoDup_app in Gonce as (_ & Hdis & _). split; [apply Gobj; cbn; apply elem_of_app; by left|].
      split; [by apply Hdis|]. exists (bk_start_offset a), (bk_end_offset z), n, first. split; [unfold object_at; by rewrite Hfind, Z.eqb_refl|].
      split; [rewrite En; cbn; congruence|]. split; [rewrite Eal, En; cbn; subst id; lia|]. split; [done|]. split; [by apply Hdis|]. split; [done|].
      intros b r Hb Hlt Hr. by eapply Hfound.
    + destruct (Iall o Ho Hl) as [Hk|(Hc & Hnt & k & e & n' & x & H1 & H2 & H3 & H4 & H5 & H6 & H7)]; [left; by apply Hkeep|right].
      cbn in Hnt, H5. rewrite elem_of_app in Hnt, H5. split; [done|]. split; [tauto|]. exists k, e, n', x.
      split.
      { unfold object_at in *. rewrite Hfind, H1. destruct (Z.eqb_spec k (bk_start_offset a)) as [E|_].
        - destruct H5. left. replace x with first; [done|]. apply (ranges_apart _ _ (bk_start_offset a)); [done..|lia].
        - rewrite bool_decide_false; [done|]. intros (o' & Eo & Ho')%list_elem_of_fmap.
          assert (o' ∈ stream_objects m0) as [k2 Hk2]%stream_objects_elem by (apply Gobj; cbn; apply elem_of_app; by left).
          pose proof (sk_id _ _ Hw _ _ Hk2). lia. }
      split; [done|]. split; [rewrite Eal; subst id; lia|]. split; [done|]. split; [tauto|]. split; [done|].
      intros b r Hb Hlt Hr. destruct (H7 b r Hb Hlt Hr) as (Er & ? & ? & ? & index & ops & rs & Hor & ? & ?). split; [done|].
      split; [done|]. split; [done|]. split; [done|]. exists index, ops, rs. split; [|done]. eapply object_reads_same; [|exact Hor].
      intros p q. subst s'. apply os_write_other. intros E. apply object_key_inj in E; subst id; [lia|int_lia|int_lia].
Qed.

Hypothesis Hthr : 0 ≤ sc_data_block_group_size_threshold c < 2 ^ 32.

(** One group of the pass. *)
Lemma pass_group level s m g todo :
  physical level → pass_inv s m (g :: todo) → groups_ok (g :: todo) →
  ∃ s' m', compact_groups c now stream level (g :: todo) s m = compact_groups c now stream level todo s' m' ∧ pass_inv s' m' todo.
Proof.
  intros Hlev Hinv Hgo. pose proof Hinv as [Iok Iset Ioth Ial Ird _ Itodo Iall]. pose proof Hgo as [Ggr Gonce Gobj].
  cbn [compact_groups]. destruct (_ && _); [exists s, m; split; [done|by eapply pass_skip_group]|].
  apply Forall_cons in Ggr as [[Hne Hlink] _]. cbn [concat] in Gonce, Gobj. apply NoDup_app in Gonce as (Hnd & _ & _).
  assert (∀ o, o ∈ g → o ∈ stream_objects m0 ∧ start < end_offset_of o ∧ is_composite (om_attributes o) = false) as Hobj
    by (intros o Ho; apply Gobj, elem_of_app; by left).
  destruct (head g) as [first|] eqn:Hf; [|by destruct g]. destruct (last g) as [final|] eqn:Hl; [|by apply last_None in Hl].
  destruct (group_facts s g first final) as (Hsrc & Hch & (a & Ha & Hin) & (z & Hz & Ez)); try done.
  assert (small (group_blocks blocks_of g)) as Hsm.
  { apply group_small; [done|]. intros o Ho. apply list_elem_of_filter. destruct (Hobj o Ho) as (? & _ & ?). done. }
  set (id := ms_object_id_alloc m).
  destruct (physical_merge_spec data recs c stream blocks_of Hthr now id s g first final a Hsrc Hch Hsm Hf Hl Ha)
    as (bytes & req & index & groups & E & Hr & _ & Hone & Econ & Eid & Est & Eso & Eeo & Esrc).
  assert (compact_group c now stream level g id s = compact_by_physical_merge c now stream g id s) as Ecg by (by destruct Hlev as [->|[->| ->]]).
  change (mgr_prepare_object m 1) with ((prepare_object 1 m).1, Ok (E := StreamError) id). cbn match. rewrite Ecg, E. cbn.
  eexists _, _. split; [reflexivity|]. rewrite Ez in Eeo.
  eapply (pass_replace s m g todo bytes req _ z a first); try done.
  - rewrite Forall_forall in Hsrc. apply Hsrc. by apply head_Some_elem_of.
  - eapply group_found; try done; [by eapply group_blocks_good|by eapply group_blocks_stream|cbn; by rewrite Eid].
Qed.

Lemma groups_ok_tail g todo : groups_ok (g :: todo) → groups_ok todo.
Proof.
  intros [A B C]. apply Forall_cons in A as [_ A]. cbn in B, C. apply NoDup_app in B as (_ & _ & B).
  constructor; [done|done|]. intros o Ho. apply C, elem_of_app. by right.
Qed.

Lemma pass_groups level todo s m :
  physical level → pass_inv s m todo → groups_ok todo →
  ∃ s' m', compact_groups c now stream level todo s m = Some (s', m', Ok tt) ∧ pass_inv s' m' [].
Proof.
  intros Hlev. revert s m; induction todo as [|g todo IH]; intros s m Hinv Hgo; [by exists s, m|].
  destruct (pass_group level s m g todo Hlev Hinv Hgo) as (s1 & m1 & -> & Hinv1). apply IH; [done|by eapply groups_ok_tail].
Qed.

(** At the end every live record of a plain object is found, and a composite one is where
    it was. *)
Lemma pass_end s m k o :
  pass_inv s m [] → object_at m0 k o → start < end_offset_of o →
  (is_composite (om_attributes o) = true → object_at m k o
     ∧ ∀ a b, os_range_read s (metadata_key o) a b = os_range_read s0 (metadata_key o) a b)
  ∧ (is_composite (om_attributes o) = false → ∀ b r, b ∈ blocks_of o → start < bk_end_offset b → r ∈ recs b → record_readable s m r).
Proof.
  intros [Iok Iset Ioth Ial Ird _ _ Iall] Hk Hl. pose proof (object_at_start _ _ _ (sk_ok _ _ Hw) Hk) as Es.
  pose proof (sk_id _ _ Hw _ _ Hk) as Hid.
  destruct (Iall o) as [Hkept|(Hc & _ & k' & e & n & x & Hn & Er & _ & _ & _ & _ & Hfound)]; [by apply stream_objects_elem; exists k|done|..].
  - unfold kept in Hkept. rewrite Es in Hkept. split; [intros _; split; [done|intros a b; by apply Ird]|]. intros Hc b r Hb Hlt Hr.
    pose proof (sk_source _ _ Hw _ _ Hk Hc) as Hsrc. apply found_readable; [done|].
    assert (stream_source data recs sid s o (blocks_of o)) as Hsrc' by (eapply stream_source_same; [|exact Hsrc]; intros p q; by apply Ird).
    destruct (ss_range _ _ _ _ _ _ Hsrc) as (h & w & Hh & Hw' & Erg).
    destruct (sr_good _ _ _ _ _ (ss_source _ _ _ _ _ _ Hsrc)) as (Hok & _ & Hco). rewrite Forall_forall in Hco.
    destruct (Hco b Hb) as [_ Hrs]. rewrite Forall_forall in Hrs. destruct (Hrs r Hr) as (Esr & H1 & _ & H2).
    pose proof (ss_stream _ _ _ _ _ _ Hsrc) as Hstr. rewrite Forall_forall in Hstr. rewrite (Hstr b Hb) in Esr.
    destruct (chain_bounds (blocks_of o) h w b) as (_ & ? & ?); try done; [|apply Hsrc|].
    { intros p q Hp Hq. by rewrite (Hstr p Hp), (Hstr q Hq). }
    exists (bk_start_offset h), (bk_end_offset w), o. rewrite Esr. split.
    + right. split; [|done]. replace (bk_start_offset h) with k; [exact Hkept|]. rewrite <- Es. unfold start_offset_of. by rewrite Erg.
    + eapply (source_found_in data recs); [apply Hsrc'|done|done|lia|lia].
  - split; [congruence|]. intros _ b r Hb Hlt Hr. destruct (Hfound b r Hb Hlt Hr) as [Esr Hf]. apply found_readable; [done|].
    exists k', e, n. rewrite Esr. split; [right; by split|done].
Qed.

(** ** Expired objects *)

Lemma cleanup_chunks_spec chs m :
  manager_ok m →
  ∃ m', cleanup_chunks now stream chs m = (m', Ok tt) ∧ manager_ok m'
    ∧ ms_stream_set_objects m' = ms_stream_set_objects m ∧ ms_object_id_alloc m' = ms_object_id_alloc m
    ∧ (∀ id k, id ≠ sid → find_object id k (ms_stream_objects m') = find_object id k (ms_stream_objects m))
    ∧ ∀ k o, object_at m' k o ↔ object_at m k o ∧ om_object_id o ∉ om_object_id <$> concat chs.
Proof.
  revert m; induction chs as [|ch chs IH]; intros m Hok; cbn [cleanup_chunks].
  { exists m. split_and!; try done. intros k o. cbn. rewrite elem_of_nil. tauto. }
  set (req := removal_request stream _ _).
  change (mgr_compact_stream_object m now req) with (compact_stream_object now req m, Ok (E := StreamError) tt). cbn match.
  destruct (IH (compact_stream_object now req m)) as (m' & E & Hok' & H1 & H2 & H3 & H4).
  { apply (mstep_ok m _ (ms_compact m now req) Hok). }
  exists m'. split; [done|]. split; [done|]. split; [done|]. split; [done|]. split.
  - intros id k Hne. rewrite H3 by done. rewrite compact_find, decide_False by done. done.
  - intros k o. rewrite H4. unfold object_at. rewrite compact_find, decide_True by done. cbn [cs_object_id cs_source_object_ids req removal_request].
    rewrite Z.eqb_refl. cbn [negb andb concat]. rewrite fmap_app, elem_of_app.
    destruct (find_object sid k (ms_stream_objects m)) as [o'|]; [|split; [by intros [? _]|by intros [? _]]].
    case_bool_decide as Hin.
    + split; [by intros [? _]|]. intros [[= ->] Hn]. tauto.
    + split; intros [[= ->] Hn]; tauto.
Qed.

(** What the registry lists for the pass: objects of the stream, each once, in order. *)
Lemma listed_objects :
  ∃ l, get_stream_objects sid 0 (sv_confirm_offset stream) U64_MAX m0 = Some l ∧ l `sublist_of` stream_objects m0
    ∧ ∀ o k, object_at m0 k o → k < sv_confirm_offset stream → o ∈ l.
Proof.
  assert (∀ objs l, stream_slices 0 (sv_confirm_offset stream) objs = Some l → l.*2 `sublist_of` objs) as Hsub.
  { unfold stream_slices. intros objs. induction objs as [|o objs IH]; intros l Hl; cbn in Hl; [by injection Hl as <-|].
    destruct (head (om_offset_ranges o)); cbn in Hl; [|done]. destruct (mapM _ objs) as [rs|]; cbn in Hl; [|done].
    injection Hl as <-. specialize (IH _ eq_refl). destruct (overlaps _ _ _); cbn; by constructor. }
  destruct (stream_slices_spec sid 0 (sv_confirm_offset stream) (stream_objects m0)) as (own & Eo & Hown).
  { intros o [k Hk]%stream_objects_elem. unfold object_at, find_object in Hk. apply bind_Some in Hk as (per & Hp & Hk).
    destruct (mo_objects _ (sk_ok _ _ Hw) _ _ _ _ Hp Hk) as [e ?]. by exists k, e. }
  pose proof (Hsub _ _ Eo) as Hs. exists own.*2. unfold get_stream_objects. fold (stream_objects m0). rewrite Eo. split.
  - f_equal. rewrite takeZ_take. apply take_ge. apply sublist_length in Hs. pose proof (sk_room _ _ Hw).
    destruct (decide (stream_objects m0 = [])) as [Hn|Hn]; [rewrite Hn in Hs; cbn in Hs; lia|].
    destruct (stream_objects m0) as [|o l] eqn:El; [done|]. assert (o ∈ stream_objects m0) as [k Hk]%stream_objects_elem by (rewrite El; left).
    pose proof (sk_id _ _ Hw _ _ Hk). unfold U64_MAX. lia.
  - split; [done|]. intros o k Hk Hlt. apply list_elem_of_fmap. exists (k, o). split; [done|]. apply Hown.
    pose proof (object_at_start _ _ _ (sk_ok _ _ Hw) Hk) as Est. pose proof (sk_span _ _ Hw _ _ Hk) as Hsp.
    split; [apply stream_objects_elem; by exists k|]. unfold object_at, find_object in Hk. apply bind_Some in Hk as (per & Hp & Hk).
    destruct (mo_objects _ (sk_ok _ _ Hw) _ _ _ _ Hp Hk) as [e Er]. eexists. split; [exact Er|]. cbn.
    unfold end_offset_of in Hsp. rewrite Er in Hsp. cbn in Hsp. unfold overlaps. cbn. split; [lia|done].
Qed.

Lemma same_object o o' : o ∈ stream_objects m0 → o' ∈ stream_objects m0 → om_object_id o = om_object_id o' → o = o'.
Proof.
  intros [k Hk]%stream_objects_elem [k' Hk']%stream_objects_elem E. pose proof (sk_ids _ _ Hw _ _ _ _ Hk Hk' E) as ->.
  unfold object_at in *. congruence.
Qed.

(** Dropping the expired ones starts the pass. *)
Lemma pass_start l todo m1 :
  l `sublist_of` stream_objects m0 → (∀ o k, object_at m0 k o → k < sv_confirm_offset stream → o ∈ l) → groups_ok todo →
  cleanup_expired now stream (filter (λ o, end_offset_of o ≤ start) l) m0 = (m1, Ok tt) → pass_inv s0 m1 todo.
Proof.
  intros Hl Hall Hgo Ecl. set (expired := filter _ l) in Ecl. unfold cleanup_expired in Ecl.
  destruct (cleanup_chunks_spec (chunks (length expired) EXPIRED_OBJECTS_CLEAN_UP_STEP expired) m0 (sk_ok _ _ Hw))
    as (m1' & E & Hok & Hset & Hal & Hoth & Hat). rewrite E in Ecl. injection Ecl as ->.
  rewrite chunks_concat in Hat by (unfold EXPIRED_OBJECTS_CLEAN_UP_STEP; lia).
  assert (∀ o, o ∈ stream_objects m0 → start < end_offset_of o → kept m1 o) as Hkept.
  { intros o Ho Hlive. unfold kept. apply Hat. pose proof Ho as [k Hk]%stream_objects_elem.
    rewrite (object_at_start _ _ _ (sk_ok _ _ Hw) Hk). split; [done|]. intros (o' & Eo & [Hx Ho']%list_elem_of_filter)%list_elem_of_fmap.
    assert (o = o') as ->; [|lia]. apply same_object; [done| |done]. by eapply elem_of_sublist. }
  constructor; try done.
  - rewrite Hal. split; [lia|]. pose proof (sk_room _ _ Hw). destruct Hgo as [Gg Go Gobj].
    assert (len todo ≤ len (stream_objects m0)); [|lia].
    assert (concat todo ⊆+ stream_objects m0) as Hs%submseteq_length by (apply NoDup_submseteq; [done|]; intros o Ho; by apply Gobj).
    assert (len todo ≤ len (concat todo)); [|lia]. clear -Gg. induction Gg as [|g gs [Hg _] _ IH]; cbn; [done|].
    rewrite length_app. destruct g; [done|]. cbn. lia.
  - intros k o [Hk Hn]%Hat Hid. split; [done|]. intros Hlt. destruct (decide (end_offset_of o ≤ start)) as [Hx|]; [|lia].
    destruct Hn. apply list_elem_of_fmap_2, list_elem_of_filter. split; [done|]. by eapply Hall.
  - intros o Ho. apply Hkept; by apply (go_objects _ Hgo).
  - intros o Ho Hlive. left. by apply Hkept.
Qed.

(** The levels that link nothing. *)
Definition copying (level : CompactionLevel) : Prop := level = Cleanup ∨ physical level.

Lemma compact_keeps level :
  copying level → ∃ s m, compact c now stream level s0 m0 = Some (s, m, Ok tt) ∧ pass_inv s m [].
Proof.
  intros Hlev. destruct listed_objects as (l & El & Hl & Hall). unfold compact. cbn [mgr_get_stream_objects memory_stream_object_host]. rewrite El.
  assert (deduplicate_objects_by_id l = l) as ->.
  { apply dedup_id; [|intros o _; apply not_elem_of_empty]. eapply sublist_NoDup; [apply stream_objects_NoDup|by apply fmap_sublist]. }
  set (living := filter (λ o, ¬ (end_offset_of o ≤ start)) l).
  destruct (cleanup_chunks_spec (chunks (length (filter (λ o, end_offset_of o ≤ start) l)) EXPIRED_OBJECTS_CLEAN_UP_STEP
    (filter (λ o, end_offset_of o ≤ start) l)) m0 (sk_ok _ _ Hw)) as (m1 & E & _).
  assert (∀ todo, groups_ok todo → pass_inv s0 m1 todo) as Hstart by (intros todo Ht; by eapply pass_start).
  unfold cleanup_expired. rewrite E. destruct Hlev as [->|Hlev].
  { exists s0, m1. split; [done|]. apply Hstart. constructor; [done|constructor|]. by intros o ?%not_elem_of_nil. }
  assert (∃ size, max_group_size c level = Some size) as [size Esz] by (destruct Hlev as [->|[->| ->]]; by eexists).
  set (min := if sc_major_v1_skip_small_object c then _ else _).
  destruct (group0_spec living size level min) as [Hg Hsub]. set (todo := group0 living size level min) in *.
  assert (groups_ok todo) as Hgo.
  { constructor.
    - eapply Forall_impl; [exact Hg|]. intros g (? & ? & _). done.
    - eapply sublist_NoDup; [eapply NoDup_fmap_1, stream_objects_NoDup|]. etrans; [exact Hsub|]. etrans; [apply filter_sublist|exact Hl].
    - intros o Ho. pose proof (elem_of_sublist _ _ _ Ho Hsub) as [Hx Hol]%list_elem_of_filter. split; [by eapply elem_of_sublist|]. split; [lia|].
      apply list_elem_of_In, in_concat in Ho as (g & Hgin%list_elem_of_In & Hog%list_elem_of_In).
      rewrite Forall_forall in Hg. destruct (Hg g Hgin) as (_ & _ & Hf). rewrite Forall_forall in Hf. specialize (Hf o Hog).
      unfold object_filter in Hf. rewrite bool_decide_false in Hf by (destruct Hlev as [->|[->| ->]]; done). by destruct (is_composite _). }
  destruct (pass_groups level todo s0 m1 Hlev (Hstart _ Hgo) Hgo) as (s & m & Er & Hinv).
  exists s, m. split; [|done]. destruct Hlev as [->|[->| ->]]; cbn [max_group_size] in Esz; injection Esz as <-; exact Er.
Qed.
End Pass.

(** ** Properties *)

(** C5: a pass that cleans up or copies loses no record.  Take a stream whose objects are
    intact and disjoint.  A pass at the cleanup, minor or major level returns; every record
    of every block that reaches past the stream's start offset, whether its object was
    merged or not, is then found by a lookup of its offsets in an object that reads back to
    it; composite objects stay where they are; objects wholly below the start offset are no
    longer listed; nothing of another stream, and no stream set object, changes. *)
Theorem stream_compaction_keeps_records {S : Type} `{!ObjectStorage S} `{!ObjectStorageLaws S}
    data recs blocks_of c now stream (s : S) m level :
  stream_compactable data recs blocks_of stream s m → 0 ≤ sc_data_block_group_size_threshold c < 2 ^ 32 → copying level →
  ∃ s' m', compact c now stream level s m = Some (s', m', Ok tt)
    ∧ (∀ k o, object_at stream m k o → sv_start_offset stream < end_offset_of o →
         (is_composite (om_attributes o) = true → object_at stream m' k o
            ∧ ∀ a b, os_range_read s' (metadata_key o) a b = os_range_read s (metadata_key o) a b)
         ∧ (is_composite (om_attributes o) = false → ∀ b r, b ∈ blocks_of o → sv_start_offset stream < bk_end_offset b →
              r ∈ recs b → record_readable s' m' r))
    ∧ (∀ k o, object_at stream m k o → end_offset_of o ≤ sv_start_offset stream → k < sv_confirm_offset stream →
         ∀ k', ¬ object_at stream m' k' o)
    ∧ ms_stream_set_objects m' = ms_stream_set_objects m
    ∧ ∀ id k, id ≠ sv_stream_id stream → find_object id k (ms_stream_objects m') = find_object id k (ms_stream_objects m).
Proof.
  intros Hw Hthr Hlev. destruct (compact_keeps data recs blocks_of c now stream s m Hw Hthr level Hlev) as (s' & m' & E & Hinv).
  exists s', m'. split; [done|]. split; [|split; [|split; [apply Hinv|intros id k; apply Hinv]]].
  - intros k o Hk Hl. by eapply pass_end.
  - intros k o Hk He Hlt k' Hk'. destruct (pi_old _ _ _ _ _ _ _ _ Hinv k' o Hk' (proj2 (sk_id _ _ _ _ _ _ Hw _ _ Hk))) as [Hk0 Hx].
    assert (k' = k) as -> by (by eapply (sk_ids _ _ _ _ _ _ Hw)). specialize (Hx Hlt). lia.
Qed.

(** Two stream objects of one record each. *)
Definition line_object (i : Z) : S3ObjectMetadata := so_metadata 0 i (toy_out i).2 1 i (i + 1) 0.
Definition line_meta : MetadataState :=
  mkMeta ∅ {[1 := {[1 := line_object 1; 2 := line_object 2]}]} {[1 := mkStream 1 0 0 3 StreamOpened 0]} 2 ∅ 0 3.
Definition line_view (start : Z) : StreamView :=
  {| sv_stream_id := 1; sv_stream_epoch := 0; sv_start_offset := start; sv_confirm_offset := 3 |}.

Lemma line_at start k o : object_at (line_view start) line_meta k o ↔ (k = 1 ∨ k = 2) ∧ o = line_object k.
Proof.
  unfold object_at, find_object. cbn [ms_stream_objects line_meta sv_stream_id line_view]. rewrite lookup_singleton_eq. cbn.
  rewrite lookup_insert_Some, lookup_singleton_Some. split; [intros [[<- <-]|[? [<- <-]]]; auto|].
  intros [[->| ->] ->]; [by left|right; by split].
Qed.

Lemma line_source i : i = 1 ∨ i = 2 → stream_source toy_data toy_recs 1 toy_store (line_object i) (toy_blocks (line_object i)).
Proof.
  intros Hi. destruct (toy_source i Hi) as [A B (d & C1 & C2 & C3) D E]. constructor.
  - constructor; [exact A| |exists d; split; [|split]; [exact C1|exact C2|exact C3]|exact D|].
    + destruct Hi as [->| ->]; vm_compute; reflexivity.
    + intros b r Hb Hr. destruct (E b r Hb Hr) as (x & Hx & H). exists x. split; [exact Hx|exact H].
  - destruct Hi as [->| ->]; vm_compute; reflexivity.
  - done.
  - by apply Forall_singleton.
  - apply chained_singleton.
  - eexists _, _. split; [reflexivity|]. split; [reflexivity|]. destruct Hi as [->| ->]; reflexivity.
Qed.

Lemma line_compactable : stream_compactable toy_data toy_recs toy_blocks (line_view 0) toy_store line_meta.
Proof.
  assert (stream_objects (line_view 0) line_meta = [line_object 1; line_object 2]) as El by (vm_compute; reflexivity).
  constructor.
  - constructor; cbn; [done|..].
    + by intros id st [<- <-]%lookup_singleton_Some.
    + intros id per k o [<- <-]%lookup_singleton_Some [[<- <-]|[_ [<- <-]%lookup_singleton_Some]]%lookup_insert_Some; by eexists.
  - intros k o [[->| ->] ->]%line_at; vm_compute; intuition discriminate.
  - intros k o [[->| ->] ->]%line_at; vm_compute; intuition discriminate.
  - intros k o [Hk ->]%line_at _. by apply line_source.
  - intros k k' o o' [[->| ->] ->]%line_at [[->| ->] ->]%line_at; done.
  - intros k k' o o' [[->| ->] ->]%line_at [[->| ->] ->]%line_at; vm_compute; intuition discriminate.
  - unfold plain_objects. rewrite El. split; vm_compute; reflexivity.
  - rewrite El. vm_compute. reflexivity.
Qed.

Lemma stream_compaction_keeps_records_witness :
  ∃ s' m', compact (compactor_new 1000) 0 (line_view 0) Minor toy_store line_meta = Some (s', m', Ok tt)
    ∧ record_readable s' m' (demo_rec 1) ∧ record_readable s' m' (demo_rec 2).
Proof.
  destruct (stream_compaction_keeps_records toy_data toy_recs toy_blocks (compactor_new 1000) 0 (line_view 0) toy_store line_meta Minor)
    as (s' & m' & E & Hk & _).
  - apply line_compactable.
  - vm_compute. intuition discriminate.
  - right. by left.
  - exists s', m'. split; [exact E|].
    assert (∀ i, i = 1 ∨ i = 2 → record_readable s' m' (demo_rec i)) as H.
    { intros i Hi. destruct (Hk i (line_object i)) as [_ Hp]; [by apply line_at|destruct Hi as [->| ->]; vm_compute; reflexivity|].
      apply (Hp ltac:(destruct Hi as [->| ->]; vm_compute; reflexivity) (toy_block i) (demo_rec i)).
      - left.
      - destruct Hi as [->| ->]; vm_compute; reflexivity.
      - left. }
    split; apply H; auto.
Defined.

(** ** The composite merge *)

(** A linked object and its blocks. *)
Abbreviation component := (S3ObjectMetadata * list DataBlockIndex)%type.

Lemma zip_with_concat {A B C} (f : A → B → list C) l k x y z :
  (x, y) ∈ zip l k → z ∈ f x y → z ∈ concat (zip_with f l k).
Proof.
  revert k; induction l as [|a l IH]; intros [|b k] Hz Hin; cbn in *; try by apply not_elem_of_nil in Hz.
  apply elem_of_app. apply elem_of_cons in Hz as [[= -> ->]|Hz]; [by left|right; by apply IH].
Qed.

Section Linking.
Context {S : Type} `{!ObjectStorage S} `{!ObjectStorageLaws S}.
Context (now : Z) (stream : StreamView).
Abbreviation sid := (sv_stream_id stream).
Abbreviation start := (sv_start_offset stream).

Definition unit_live (u : component) : bool := existsb (λ b, start <? bi_end_offset b) u.2.

(** The components behind an object: itself, or what it links. *)
Definition units_of (s : S) (o : S3ObjectMetadata) (us : list component) : Prop :=
  if is_composite (om_attributes o) then
    ∃ info, composite_info s (metadata_key o) = Some (Ok info)
      ∧ Forall (λ x, ox_block_start_index x ≤ ox_block_end_index x ≤ len (ci_index_block info)) (ci_objects info)
      ∧ us = (λ x, (linked_metadata x, slice (ox_block_start_index x) (ox_block_end_index x) (ci_index_block info))) <$> ci_objects info
  else ∃ info, basic_object_info s (metadata_key o) (om_object_size o) = Ok info ∧ us = [(o, boi_index_block info)].

(** What a merge links on, and what it deletes. *)
Definition kept_units (o : S3ObjectMetadata) (us : list component) : list component :=
  if is_composite (om_attributes o) then filter (λ u, unit_live u = true) us else us.
Definition dead_units (o : S3ObjectMetadata) (us : list component) : list component :=
  if is_composite (om_attributes o) then filter (λ u, unit_live u = false) us else [].

Lemma add_components_app l k w : add_components (l ++ k) w = add_components l w ≫= add_components k.
Proof.
  revert w; induction l as [|[m ixs] l IH]; intros w; cbn; [done|]. destruct (add_component m ixs w) as [w' [?|?]]; [apply IH|done].
Qed.

Lemma link_units_spec entries units w w' td :
  let us := (λ x, (linked_metadata x, slice (ox_block_start_index x) (ox_block_end_index x) entries)) <$> units in
  Forall (λ x, ox_block_start_index x ≤ ox_block_end_index x ≤ len entries) units →
  add_components (filter (λ u, unit_live u = true) us) w = Some w' →
  ∃ paths, link_units stream entries w td units = Some (w', Ok (td ++ paths))
    ∧ op_key <$> paths = (λ u : component, metadata_key u.1) <$> filter (λ u, unit_live u = false) us.
Proof.
  intros us Hin. subst us. revert w td. induction Hin as [|x units Hx Hin IH]; intros w td Ha.
  { cbn in Ha. injection Ha as ->. exists []. cbn. by rewrite app_nil_r. }
  cbn [fmap list_fmap] in Ha. cbn [link_units fmap list_fmap]. match goal with |- context [if ?c then None else _] => assert (c = false) as -> by lia end.
  set (blocks := slice (ox_block_start_index x) (ox_block_end_index x) entries) in *.
  assert (existsb (λ b, start <? bi_end_offset b) blocks = unit_live (linked_metadata x, blocks)) as -> by done.
  rewrite filter_cons. rewrite filter_cons in Ha. destruct (unit_live (linked_metadata x, blocks)) eqn:El; repeat case_decide; try done.
  - cbn in Ha. destruct (add_component (linked_metadata x) blocks w) as [w1 [[]|]]; [|done]. destruct (IH w1 td Ha) as (paths & E & Ep).
    by exists paths.
  - destruct (IH w (td ++ [ {| op_bucket_id := ox_bucket_id x; op_key := metadata_key (linked_metadata x) |} ]) Ha) as (paths & E & Ep).
    eexists (_ :: paths). rewrite E, <- app_assoc. split; [reflexivity|]. cbn. by rewrite Ep.
Qed.

(** The members of the group, one after the other. *)
Lemma link_objects_spec s group uss w w' ids ops :
  Forall2 (units_of s) group uss →
  (∀ o us o' u, (o, us) ∈ zip group uss → o' ∈ group → u ∈ dead_units o us → metadata_key u.1 ≠ metadata_key o') →
  add_components (concat (zip_with kept_units group uss)) w = Some w' →
  ∃ s' ops', link_objects stream s w ids ops group = Some (s', Ok (w', ids ++ (om_object_id <$> group), ops ++ ops'))
    ∧ ∀ key a b, (∀ u, u ∈ concat (zip_with dead_units group uss) → metadata_key u.1 ≠ key) →
        os_range_read s' key a b = os_range_read s key a b.
Proof.
  revert s w ids ops. induction group as [|o group IH] in uss |- *; intros s w ids ops HF Hdis Ha.
  { apply Forall2_nil_inv_l in HF as ->. cbn in Ha. injection Ha as ->. exists s, []. cbn. rewrite !app_nil_r. done. }
  apply Forall2_cons_inv_l in HF as (us & uss' & Ho & HF & ->). cbn [zip_with concat] in Ha.
  rewrite add_components_app in Ha. apply bind_Some in Ha as (w1 & Ha1 & Ha2).
  cbn [link_objects]. pose proof Ho as Hu. unfold units_of in Ho. unfold kept_units in Ha1.
  destruct (is_composite (om_attributes o)) eqn:Ec.
  - destruct Ho as (info & Ei & Hin & ->). rewrite Ei.
    destruct (link_units_spec (ci_index_block info) (ci_objects info) w w1 [] Hin Ha1) as (paths & El & Ep). cbn in El. rewrite El.
    set (s1 := match paths with [] => s | _ => os_delete s paths end).
    set (us := (λ x, _) <$> ci_objects info) in *.
    assert (∀ key a b, (∀ u, u ∈ dead_units o us → metadata_key u.1 ≠ key) → os_range_read s1 key a b = os_range_read s key a b) as Hrd.
    { intros key a b Hne. subst s1. destruct paths as [|p paths]; [done|]. apply os_delete_other. rewrite Ep.
      intros (u & Ek & Hu')%list_elem_of_fmap. apply (Hne u); [|done]. unfold dead_units. by rewrite Ec. }
    destruct (IH uss' s1 w1 (ids ++ [om_object_id o]) (ops ++ [OpDelete])) as (s2 & ops' & E & Hr2).
    + clear -HF Hrd Hdis Ec. assert (∀ o', o' ∈ group → ∀ a b, os_range_read s1 (metadata_key o') a b = os_range_read s (metadata_key o') a b) as Hg.
      { intros o' Ho' a b. apply Hrd. intros u Hu. apply (Hdis o us); [left|by right|done]. }
      clear Hdis Hrd. induction HF as [|x xs g l Hx HF IH]; [constructor|]. constructor; [|apply IH; intros; apply Hg; by right].
      assert (∀ a b, os_range_read s1 (metadata_key x) a b = os_range_read s (metadata_key x) a b) as He by (apply Hg; left).
      unfold units_of in *. destruct (is_composite (om_attributes x)).
      * destruct Hx as (i & Ei & ?). exists i. split; [|done]. rewrite <- Ei. unfold composite_info. by rewrite He.
      * destruct Hx as (i & Ei & ?). exists i. split; [|done]. rewrite <- Ei. by apply basic_info_same.
    + intros o1 us1 o2 u Hz Ho2 Hu1. apply (Hdis o1 us1); [by right|by right|done].
    + done.
    + exists s2, (OpDelete :: ops'). rewrite E, <- !app_assoc. split; [done|]. intros key a b Hne. rewrite Hr2, Hrd; [done|..].
      * intros u Hd. apply Hne. cbn. apply elem_of_app. by left.
      * intros u Hd. apply Hne. cbn. apply elem_of_app. by right.
  - destruct Ho as (info & Ei & ->). rewrite Ei. cbn in Ha1. destruct (add_component o (boi_index_block info) w) as [w2 [[]|]]; [|done].
    injection Ha1 as ->. destruct (IH uss' s w1 (ids ++ [om_object_id o]) (ops ++ [OpKeepData])) as (s2 & ops' & E & Hr2); [done| |done|].
    { intros o1 us1 o2 u Hz Ho2 Hu1. apply (Hdis o1 us1); [by right|by right|done]. }
    exists s2, (OpKeepData :: ops'). rewrite E, <- !app_assoc. split; [done|]. intros key a b Hne. apply Hr2.
    intros u Hd. apply Hne. cbn. apply elem_of_app. by right.
Qed.

(** Blocks of one stream, each starting where the one before ends. *)
Fixpoint runs (st o : Z) (es : list DataBlockIndex) (o' : Z) : Prop :=
  match es with
  | [] => o = o'
  | e :: rest => bi_stream_id e = st ∧ bi_start_offset e = o ∧ runs st (bi_end_offset e) rest o'
  end.

Lemma run_on_app st o l k o' : runs st o (l ++ k) o' ↔ ∃ p, runs st o l p ∧ runs st p k o'.
Proof.
  revert o; induction l as [|e l IH]; intros o; cbn.
  - split; [intros H; by exists o|by intros (p & -> & ?)].
  - rewrite IH. split; [intros (? & ? & p & ? & ?); by exists p|]. intros (p & (? & ? & ?) & ?). split_and!; try done. by exists p.
Qed.

Lemma continue_runs st o f es o' : runs st o es o' → continue_cursor (Some (st, o, f)) es = (Some (st, o', f), Ok tt).
Proof.
  revert o; induction es as [|e es IH]; intros o; cbn; [by intros ->|]. intros (-> & -> & H). rewrite !Z.eqb_refl. cbn. by apply IH.
Qed.

(** Where the writer's cursor stands. *)
Definition cursor_at (st o f : Z) (w : CompositeObjectWriter) : Prop :=
  cw_cursor w = Some (st, o, f) ∨ (cw_cursor w = None ∧ concat (cw_components w).*2 = [] ∧ f = o).

(** The writer takes components whose blocks run on. *)
Lemma add_components_runs st o f cs o' w :
  runs st o (concat cs.*2) o' → cursor_at st o f w →
  ∃ w', add_components cs w = Some w' ∧ cursor_at st o' f w' ∧ cw_components w' = cw_components w ++ cs
    ∧ cw_storage_key w' = cw_storage_key w.
Proof.
  revert o w; induction cs as [|[m ixs] cs IH]; intros o w Hr Hc; cbn in Hr.
  { subst o'. exists w. by rewrite app_nil_r. }
  apply run_on_app in Hr as (p & Hr1 & Hr2). cbn [add_components].
  assert (∃ w1, add_component m ixs w = (w1, Ok tt) ∧ cursor_at st p f w1 ∧ cw_components w1 = cw_components w ++ [(m, ixs)]
    ∧ cw_storage_key w1 = cw_storage_key w) as (w1 & -> & Hc1 & E1 & Ek).
  { unfold add_component. destruct Hc as [Ec|(Ec & En & ->)].
    - rewrite Ec, (continue_runs st o f ixs p Hr1). eexists. split; [reflexivity|]. split; [by left|done].
    - rewrite Ec. destruct ixs as [|e ixs]; cbn [continue_cursor].
      + cbn in Hr1. subst p. eexists. split; [reflexivity|]. split; [|done]. right. cbn. rewrite fmap_app, concat_app, En. done.
      + cbn in Hr1. destruct Hr1 as (-> & -> & Hr1). rewrite (continue_runs st (bi_end_offset e) o ixs p Hr1).
        eexists. split; [reflexivity|]. split; [by left|done]. }
  destruct (IH p w1 Hr2 Hc1) as (w2 & -> & Hc2 & E2 & Ek2). exists w2. split; [done|]. split; [done|].
  rewrite E2, E1, Ek2, <- app_assoc. done.
Qed.

Lemma kept_live o us u e : u ∈ us → e ∈ u.2 → start < bi_end_offset e → u ∈ kept_units o us.
Proof.
  intros Hu He Hlt. unfold kept_units. destruct (is_composite _); [|done]. apply list_elem_of_filter. split; [|done].
  unfold unit_live. apply existsb_exists. exists e. split; [by apply list_elem_of_In|lia].
Qed.

End Linking.

(** C6: a composite merge keeps every live block readable.  Take a group of objects, plain
    ones and composites, whose live blocks run on without a gap.  The merge succeeds and
    registers the new composite for exactly their offset range; every block of the group
    that reaches past the start offset, directly stored or linked, is in the new
    composite's index, and reading it there reads the bytes the block had in its own
    object before, although the linked objects that had expired have been deleted. *)
Theorem composite_compaction_keeps_blocks {S : Type} `{!ObjectStorage S} `{!ObjectStorageLaws S}
    now stream (s : S) group uss id o o' :
  let kept := concat (zip_with (kept_units stream) group uss) in
  let dead := concat (zip_with (dead_units stream) group uss) in
  Forall2 (units_of s) group uss → runs (sv_stream_id stream) o (concat kept.*2) o' → concat kept.*2 ≠ [] → wf_components kept →
  (∀ u k, u ∈ dead → k ∈ ((λ v, om_object_id v.1) <$> kept) ++ (om_object_id <$> group) → metadata_key u.1 ≠ object_key k) →
  object_key id ∉ ((λ v, metadata_key v.1) <$> kept) →
  ∃ s' req info, compact_by_composite_object now stream group id s = Some (s', Ok (Some req))
    ∧ cs_object_id req = id ∧ cs_start_offset req = o ∧ cs_end_offset req = o'
    ∧ cs_source_object_ids req = om_object_id <$> group
    ∧ composite_info s' (object_key id) = Some (Ok info)
    ∧ ∀ x us u e, (x, us) ∈ zip group uss → u ∈ us → e ∈ u.2 → sv_start_offset stream < bi_end_offset e →
        ∃ i, ci_index_block info !! Z.to_nat i = Some (with_id i e)
          ∧ composite_read_block s' (object_key id) (with_id i e) = Some (read_block s (metadata_key u.1) e).
Proof.
  intros kept dead HF Hruns Hne Hwf Hdis Hid.
  destruct (add_components_runs (sv_stream_id stream) o o kept o' (cw_new id) Hruns) as (w & Ha & Hcur & Ecomp & Ekey); [by right|].
  cbn in Ecomp, Ekey.
  destruct (link_objects_spec stream s group uss (cw_new id) w [] [] HF) as (s1 & ops & El & Hrd); [|done|].
  { intros x us x' u Hz Hx' Hu. apply (Hdis u (om_object_id x')).
    - by eapply zip_with_concat.
    - apply elem_of_app. right. by apply list_elem_of_fmap_2. }
  cbn in El. destruct Hcur as [Ec|(_ & En & _)]; [|rewrite Ecomp in En; done].
  unfold compact_by_composite_object. rewrite El. unfold cw_stream_range. rewrite Ec, Ekey.
  set (s2 := os_write s1 now (object_key id) (cw_close w)).
  rewrite <- Ecomp in Hwf.
  assert (composite_info s2 (object_key id) = Some (Ok {| ci_objects := layout_of 0 (cw_components w);
    ci_index_block := numbered (concat (cw_components w).*2) |})) as Hinfo.
  { subst s2. unfold composite_info. pose proof (os_read_write s1 now (object_key id) (cw_close w)) as E. unfold os_read in E. rewrite E.
    by apply parse_composite_close. }
  eexists s2, _, _. split; [reflexivity|]. cbn [cs_object_id cs_start_offset cs_end_offset cs_source_object_ids].
  split; [done|]. split; [done|]. split; [done|]. split; [done|]. split; [exact Hinfo|].
  intros x us u e Hz Hu He Hlt. pose proof (zip_with_concat _ _ _ _ _ _ Hz (kept_live stream x us u e Hu He Hlt)) as Hk.
  fold kept in Hk. pose proof Hk as Hk'. rewrite <- Ecomp in Hk'. apply list_elem_of_lookup in Hk' as [c Hc]. apply list_elem_of_lookup in He as [j Hj].
  destruct u as [m ixs]. cbn [fst snd] in *.
  destruct (composite_resolves s1 now (object_key id) w c m ixs j e Hwf Hc Hj) as (info & Ei & Hix & Hread).
  fold s2 in Ei, Hread. rewrite Hinfo in Ei. injection Ei as <-. eexists. split; [exact Hix|]. rewrite Hread. f_equal.
  unfold read_block. change (metadata_key m) with (object_key (om_object_id m)). subst s2. rewrite os_write_other.
  - apply Hrd. intros v Hv. apply (Hdis v (om_object_id m)); [done|]. apply elem_of_app. left. by apply (list_elem_of_fmap_2 (λ v : component, om_object_id v.1) _ (m, ixs)).
  - intros E. apply Hid. rewrite E. by apply (list_elem_of_fmap_2 (λ v : component, metadata_key v.1) _ (m, ixs)).
Qed.

(** A composite of an expired object and object 1, followed by object 2. *)
Definition chain_block (i : Z) : DataBlockIndex := bk_index (toy_block i).
Definition chain_writer : CompositeObjectWriter :=
  default (cw_new 5) (add_components [(line_object 0, [chain_block 0]); (line_object 1, [chain_block 1])] (cw_new 5)).
Definition chain_store : MemoryObjectStorage := os_write toy_store 0 (object_key 5) (cw_close chain_writer).
Definition chain_object : S3ObjectMetadata := so_metadata 0 5 (cw_retained_size chain_writer) 1 0 2 (attributes_new 0 true false).
Definition chain_group : list S3ObjectMetadata := [chain_object; line_object 2].
Definition chain_units : list (list component) :=
  [match composite_info chain_store (object_key 5) with
   | Some (Ok info) => (λ x, (linked_metadata x, slice (ox_block_start_index x) (ox_block_end_index x) (ci_index_block info))) <$> ci_objects info
   | _ => []
   end; [(line_object 2, [chain_block 2])]].

Lemma composite_compaction_keeps_blocks_witness :
  ∃ s' req, compact_by_composite_object 0 (line_view 1) chain_group 6 chain_store = Some (s', Ok (Some req))
    ∧ cs_start_offset req = 1 ∧ cs_end_offset req = 3
    ∧ ∃ i, composite_read_block s' (object_key 6) (with_id i (chain_block 2)) = Some (read_block chain_store (object_key 2) (chain_block 2)).
Proof.
  destruct (composite_compaction_keeps_blocks 0 (line_view 1) chain_store chain_group chain_units 6 1 3) as (s' & req & info & E & _ & E1 & E2 & _ & _ & H).
  - unfold chain_group, chain_units. apply Forall2_cons. split; [|apply Forall2_cons; split; [|apply Forall2_nil; exact I]].
    + unfold units_of. change (is_composite (om_attributes chain_object)) with true. cbn iota.
      destruct (composite_info chain_store (object_key 5)) as [[info|]|] eqn:E; [|by vm_compute in E..].
      exists info. split; [exact E|]. split; [|reflexivity]. vm_compute in E. injection E as <-.
      repeat apply Forall_cons_2; [..|apply Forall_nil_2]; vm_compute; intuition discriminate.
    + unfold units_of. change (is_composite (om_attributes (line_object 2))) with false. cbn iota. eexists. split; [vm_compute; reflexivity|vm_compute; reflexivity].
  - vm_compute. intuition discriminate.
  - vm_compute. discriminate.
  - apply (bool_decide_unpack _). vm_compute. exact I.
  - intros u k Hu Hk. assert (om_object_id u.1 = 0 ∧ (k = 1 ∨ k = 2 ∨ k = 5)) as [Eu Hk'].
    { split.
      - revert u Hu. apply Forall_forall. apply (bool_decide_unpack _). vm_compute. exact I.
      - revert k Hk. apply Forall_forall. apply (bool_decide_unpack _). vm_compute. exact I. }
    unfold metadata_key. rewrite Eu. destruct Hk' as [->|[->| ->]]; vm_compute; discriminate.
  - apply (bool_decide_unpack _). vm_compute. exact I.
  - exists s', req. split; [exact E|]. split; [exact E1|]. split; [exact E2|].
    destruct (H (line_object 2) [(line_object 2, [chain_block 2])] (line_object 2, [chain_block 2]) (chain_block 2)) as (i & _ & Hi);
      [right; left|left|left|vm_compute; reflexivity|]. exists i. exact Hi.
Defined.
