(* ===== verification/RangeIndex.v ===== *)
(** * The node's sparse range index

    Models [s3stream-core/src/index.rs]: per stream a list of the ranges its stream set
    objects hold, thinned when the index outgrows its size cap, fed by every commit and
    persisted as one object per node.

    The [Mutex] around the state makes each operation one step.  The clock of the
    close-path rate limit is an argument; a flush that runs into its one second timeout
    is not modelled. *)
From S2P Require Import Prelude Collections ObjectStore ObjectFormat ObjectIO Metadata.

Definition VERSION : Z := 0.
Definition DEFAULT_COMPACT_NUM : Z := 3.
Definition DEFAULT_MAX_INDEX_SIZE : Z := 1024 * 1024.
Definition UPLOAD_ON_STREAM_CLOSE_INTERVAL : Z := 5000.

Record RangeIndex : Type := mkRange {
  ri_start_offset : Z;
  ri_end_offset : Z;
  ri_object_id : Z;
}.
Definition OBJECT_SIZE : Z := 3 * 8 + 16.

#[export] Instance RangeIndex_eq_dec : EqDecision RangeIndex.
Proof. solve_decision. Defined.

(** ** One stream *)

Record SparseRangeIndex : Type := mkSparse {
  sp_compact_num : Z;
  sp_ranges : list RangeIndex;
  sp_size : Z;
  sp_evict_index : Z;
}.

Definition with_ranges (compact_num : Z) (ranges : list RangeIndex) : SparseRangeIndex :=
  mkSparse compact_num ranges (u64 (len ranges * OBJECT_SIZE)) 0.
Definition sparse_new (compact_num : Z) : SparseRangeIndex := with_ranges compact_num [].

Definition reset (sp : SparseRangeIndex) : SparseRangeIndex := mkSparse (sp_compact_num sp) [] 0 0.

(** The result is the change in size, an [isize]. *)
Definition sparse_append (new_range : RangeIndex) (sp : SparseRangeIndex) : SparseRangeIndex * Z :=
  let outdated :=
    match last (sp_ranges sp) with
    | Some l => ri_start_offset new_range <=? ri_start_offset l
    | None => false
    end in
  let delta := if outdated then i64 (0 - i64 (sp_size sp)) else 0 in
  let sp := if outdated then reset sp else sp in
  (mkSparse (sp_compact_num sp) (sp_ranges sp ++ [new_range]) (u64 (sp_size sp + OBJECT_SIZE)) (sp_evict_index sp),
   i64 (delta + OBJECT_SIZE)).

(** The loop over the old ranges; [inserted] as in the source. *)
Fixpoint compact_ranges (new_range : option RangeIndex) (compacted : gset Z) (inserted : bool) (ranges : list RangeIndex)
  : list RangeIndex :=
  match ranges with
  | [] => match new_range with
          | Some n => if inserted then [] else [n]
          | None => []
          end
  | r :: rest =>
      if bool_decide (ri_object_id r ∈ compacted) then compact_ranges new_range compacted inserted rest
      else
        match new_range with
        | Some n =>
            if negb inserted && (ri_start_offset n <? ri_start_offset r)
            then n :: r :: compact_ranges new_range compacted true rest
            else r :: compact_ranges new_range compacted inserted rest
        | None => r :: compact_ranges new_range compacted inserted rest
        end
  end.

Definition sparse_compact (new_range : option RangeIndex) (compacted : gset Z) (sp : SparseRangeIndex)
  : SparseRangeIndex * Z :=
  if bool_decide (compacted = ∅) then
    match new_range with Some range => sparse_append range sp | None => (sp, 0) end
  else
    let ranges := compact_ranges new_range compacted false (sp_ranges sp) in
    let size := u64 (len ranges * OBJECT_SIZE) in
    (mkSparse (sp_compact_num sp) ranges size 0, i64 (i64 size - i64 (sp_size sp))).

(** [Vec::remove]; [None] is its panic. *)
Definition remove_at (i : Z) (l : list RangeIndex) : option (list RangeIndex) :=
  if (0 <=? i) && (i <? len l) then Some (takeZ i l ++ dropZ (i + 1) l) else None.

Definition evict_once (sp : SparseRangeIndex) : option (SparseRangeIndex * Z) :=
  let n := len (sp_ranges sp) in
  if n =? 0 then Some (sp, 0)
  else
    let '(i, evict_index) :=
      if n =? 1 then (0, sp_evict_index sp)
      else if n <=? u64 (1 + sp_compact_num sp) then (1, sp_evict_index sp)
      else
        let e :=
          if (sp_evict_index sp mod n =? 0) || (u64 (n - sp_compact_num sp) <=? sp_evict_index sp) then 1
          else sp_evict_index sp in
        (e, u64 (e + 1)) in
    let* ranges := remove_at i (sp_ranges sp) in
    Some (mkSparse (sp_compact_num sp) ranges (u64 (sp_size sp - OBJECT_SIZE)) evict_index, OBJECT_SIZE).

Definition compare_start (start_offset : Z) (r : RangeIndex) : comparison := (ri_start_offset r ?= start_offset).

(** The outer [None] is an out-of-bounds panic. *)
Definition binary_search_object_id (start_offset : Z) (ranges : list RangeIndex) : option (option Z) :=
  match ranges with
  | [] => Some None
  | _ =>
      let* r := binary_search_by (compare_start start_offset) ranges in
      let at_index (i : nat) :=
        let* x := ranges !! (Nat.min i (pred (length ranges))) in Some (Some (ri_object_id x)) in
      match r with
      | Ok i => at_index i
      | Err O => Some None
      | Err (S i) => at_index i
      end
  end.

(** ** The node's index *)

Record CacheState : Type := mkCacheState {
  st_streams : gmap Z SparseRangeIndex;
  st_total_size : Z;
}.

Record LocalStreamRangeIndexCache : Type := mkIndexCache {
  ic_node_id : Z;
  ic_compact_num : Z;
  ic_max_index_size : Z;
  ic_state : CacheState;
  ic_last_upload_time : option Z;
  ic_pruned : bool;
}.

Definition set_state (st : CacheState) (c : LocalStreamRangeIndexCache) : LocalStreamRangeIndexCache :=
  mkIndexCache (ic_node_id c) (ic_compact_num c) (ic_max_index_size c) st (ic_last_upload_time c) (ic_pruned c).
Definition set_last_upload (t : option Z) (c : LocalStreamRangeIndexCache) : LocalStreamRangeIndexCache :=
  mkIndexCache (ic_node_id c) (ic_compact_num c) (ic_max_index_size c) (ic_state c) t (ic_pruned c).
Definition set_pruned (c : LocalStreamRangeIndexCache) : LocalStreamRangeIndexCache :=
  mkIndexCache (ic_node_id c) (ic_compact_num c) (ic_max_index_size c) (ic_state c) (ic_last_upload_time c) true.

(** [(total_size as isize + delta) as usize] *)
Definition add_delta (total delta : Z) : Z := u64 (i64 (i64 total + delta)).

Definition clear (c : LocalStreamRangeIndexCache) : LocalStreamRangeIndexCache := set_state (mkCacheState ∅ 0) c.

Abbreviation RangeMap := (gmap Z (option RangeIndex)).

(** One entry of [append]'s loop. *)
Definition append_one (compact_num : Z) (st : CacheState) (p : Z * option RangeIndex) : CacheState :=
  match p.2 with
  | None => st
  | Some range =>
      let '(sp, delta) := sparse_append range (default (sparse_new compact_num) (st_streams st !! p.1)) in
      mkCacheState (<[p.1 := sp]> (st_streams st)) (add_delta (st_total_size st) delta)
  end.

(** One pass over the collected stream ids; the flag is [evicted]. *)
Fixpoint evict_pass (compact_num max_index_size : Z) (has_sufficient_index : bool) (ids : list Z) (evicted : bool)
    (st : CacheState) : option (CacheState * bool) :=
  match ids with
  | [] => Some (st, evicted)
  | id :: rest =>
      let* sp := st_streams st !! id in
      if (len (sp_ranges sp) <=? u64 (1 + compact_num)) && has_sufficient_index
      then evict_pass compact_num max_index_size has_sufficient_index rest evicted st
      else
        let* (sp, freed) := evict_once sp in
        let streams :=
          match sp_ranges sp with [] => delete id (st_streams st) | _ => <[id := sp]> (st_streams st) end in
        let st := mkCacheState streams (u64 (st_total_size st - freed)) in
        if st_total_size st <=? max_index_size then Some (st, true)
        else evict_pass compact_num max_index_size has_sufficient_index rest true st
  end.

Fixpoint evict_loop (fuel : nat) (compact_num max_index_size : Z) (has_sufficient_index : bool) (st : CacheState)
  : option CacheState :=
  match fuel with
  | O => None
  | S fuel =>
      if st_total_size st <=? max_index_size then Some st
      else
        let* (st, evicted) :=
          evict_pass compact_num max_index_size has_sufficient_index (keys (st_streams st)) false st in
        evict_loop fuel compact_num max_index_size (if evicted then has_sufficient_index else false) st
  end.

(** The ranges of all streams. *)
Definition all_ranges (m : gmap Z SparseRangeIndex) : list RangeIndex := concat (sp_ranges <$> (map_to_list m).*2).

(** A pass that evicts removes a range or an empty stream; one pass may only drop the
    flag; the last round finds the size in bounds. *)
Definition evict_fuel (st : CacheState) : nat :=
  (length (all_ranges (st_streams st)) + length (keys (st_streams st)) + 2)%nat.

Definition evict_if_necessary (c : LocalStreamRangeIndexCache) (st : CacheState) : option CacheState :=
  evict_loop (evict_fuel st) (ic_compact_num c) (ic_max_index_size c) true st.

Definition append (range_index_map : RangeMap) (c : LocalStreamRangeIndexCache) : option LocalStreamRangeIndexCache :=
  let st := foldl (append_one (ic_compact_num c)) (ic_state c) (entries range_index_map) in
  let* st := evict_if_necessary c st in
  Some (set_state st c).

(** The stream's entry after its list shrank by [delta]; an empty list is removed. *)
Definition replace_stream (st : CacheState) (id : Z) (sp : SparseRangeIndex) (delta : Z) : CacheState :=
  mkCacheState (match sp_ranges sp with [] => delete id (st_streams st) | _ => <[id := sp]> (st_streams st) end)
    (add_delta (st_total_size st) delta).

Definition compact_one (range_index_map : RangeMap) (compacted : gset Z) (st : CacheState) (id : Z) : option CacheState :=
  let* sp := st_streams st !! id in
  let '(sp, delta) := sparse_compact (mjoin (range_index_map !! id)) compacted sp in
  Some (replace_stream st id sp delta).

Fixpoint for_ids (step : CacheState → Z → option CacheState) (ids : list Z) (st : CacheState) : option CacheState :=
  match ids with
  | [] => Some st
  | id :: rest => let* st := step st id in for_ids step rest st
  end.

Definition compact (range_index_map : RangeMap) (compacted : gset Z) (c : LocalStreamRangeIndexCache)
  : option LocalStreamRangeIndexCache :=
  let* st := for_ids (compact_one range_index_map compacted) (keys (st_streams (ic_state c))) (ic_state c) in
  Some (set_state st c).

Definition search_object_id (stream_id start_offset : Z) (c : LocalStreamRangeIndexCache) : option (option Z) :=
  match st_streams (ic_state c) !! stream_id with
  | None => Some None
  | Some sp => binary_search_object_id start_offset (sp_ranges sp)
  end.

Definition range_index_map_from_request (r : CommitStreamSetObjectRequest) : RangeMap :=
  let new_range x :=
    if negb (cr_object_id r =? NOOP_OBJECT_ID)
    then Some (mkRange (or_start_offset x) (or_end_offset x) (cr_object_id r)) else None in
  let m := foldl (λ m x, <[or_stream_id x := new_range x]> m) ∅ (cr_stream_ranges r) in
  match cr_compacted_object_ids r with
  | [] => m
  | _ => foldl (λ m o, match m !! so_stream_id o with Some _ => m | None => <[so_stream_id o := None]> m end)
           m (cr_stream_objects r)
  end.

(** One stream of [prune]; the flag is [pruned]. *)
Definition prune_one (live : gset Z) (acc : CacheState * bool) (id : Z) : option (CacheState * bool) :=
  let* sp := st_streams acc.1 !! id in
  let invalid : gset Z := list_to_set (filter (.∉ live) (ri_object_id <$> sp_ranges sp)) in
  if bool_decide (invalid = ∅) then Some acc
  else
    let '(sp, delta) := sparse_compact None invalid sp in
    Some (replace_stream acc.1 id sp delta, true).

Fixpoint prune_loop (live : gset Z) (ids : list Z) (acc : CacheState * bool) : option (CacheState * bool) :=
  match ids with
  | [] => Some acc
  | id :: rest => let* acc := prune_one live acc id in prune_loop live rest acc
  end.

(** ** The persisted form *)

Definition put_range (r : RangeIndex) : bytes := be 8 (ri_start_offset r) ++ be 8 (ri_end_offset r) ++ be 8 (ri_object_id r).
Definition put_stream (p : Z * SparseRangeIndex) : bytes :=
  match sp_ranges p.2 with
  | [] => []
  | ranges => be 8 p.1 ++ be 4 (len ranges) ++ (ranges ≫= put_range)
  end.

Definition to_buffer (streams : gmap Z SparseRangeIndex) : bytes :=
  let stream_count := len (filter (λ p : Z * SparseRangeIndex, sp_ranges p.2 ≠ []) (entries streams)) in
  be 2 VERSION ++ be 4 stream_count ++ (entries streams ≫= put_stream).

(** The length checks before each read keep every [get_*] inside the buffer. *)
Definition get_range (buf : bytes) : RangeIndex := mkRange (read_be 0 8 buf) (read_be 8 8 buf) (read_be 16 8 buf).

Fixpoint get_ranges (n : nat) (buf : bytes) : list RangeIndex :=
  match n with
  | O => []
  | S n => get_range buf :: get_ranges n (drop 24 buf)
  end.

Fixpoint read_streams (n : nat) (buf : bytes) (streams : gmap Z (list RangeIndex))
  : result StreamError (gmap Z (list RangeIndex)) :=
  match n with
  | O => Ok streams
  | S n =>
      if len buf <? 12 then Err SE_Unexpected
      else
        let stream_id := read_be 0 8 buf in
        let range_count := u64 (i32 (read_be 8 4 buf)) in
        let buf := drop 12 buf in
        if len buf <? u64 (range_count * 24) then Err SE_Unexpected
        else
          let k := Z.to_nat range_count in
          read_streams n (drop (k * 24) buf)
            (<[stream_id := default [] (streams !! stream_id) ++ get_ranges k buf]> streams)
  end.

Definition from_buffer (data : bytes) : result StreamError (gmap Z (list RangeIndex)) :=
  if len data <? 6 then Err SE_Unexpected
  else if negb (i16 (read_be 0 2 data) =? VERSION) then Err SE_Unexpected
  else read_streams (Z.to_nat (i32 (read_be 2 4 data))) (drop 6 data) ∅.

Section Persisted.
Context {S : Type} `{!ObjectStorage S}.

(** [gen_index_key(0, node_id)], the only version the code asks for. *)
Definition index_key (node_id : Z) : bytes := default [] (gen_index_key 0 node_id).

Definition load_one (compact_num : Z) (st : CacheState) (p : Z * list RangeIndex) : CacheState :=
  mkCacheState (<[p.1 := with_ranges compact_num p.2]> (st_streams st))
    (u64 (st_total_size st + u64 (len p.2 * OBJECT_SIZE))).

(** [compact_num] and [max_index_size] come from the environment. *)
Definition init (node_id compact_num max_index_size : Z) (s : S) : LocalStreamRangeIndexCache :=
  let st :=
    match os_read s (index_key node_id) with
    | Err _ => mkCacheState ∅ 0
    | Ok data =>
        match from_buffer data with
        | Err _ => mkCacheState ∅ 0
        | Ok streams => foldl (load_one compact_num) (mkCacheState ∅ 0) (entries streams)
        end
    end in
  mkIndexCache node_id compact_num max_index_size st None false.

Definition upload (now : Z) (c : LocalStreamRangeIndexCache) (s : S) : S :=
  if bool_decide (st_streams (ic_state c) = ∅) then s
  else os_write s now (index_key (ic_node_id c)) (to_buffer (st_streams (ic_state c))).

Definition update_index_from_request (now : Z) (r : CommitStreamSetObjectRequest) (c : LocalStreamRangeIndexCache) (s : S)
  : option (LocalStreamRangeIndexCache * S) :=
  let m := range_index_map_from_request r in
  match cr_compacted_object_ids r with
  | [] => let* c := append m c in Some (c, s)
  | ids =>
      let* c := compact m (list_to_set ids) c in
      Some (c, upload now c s)
  end.

Definition prune (now : Z) (live : gset Z) (c : LocalStreamRangeIndexCache) (s : S)
  : option (LocalStreamRangeIndexCache * S) :=
  let* (st, pruned) := prune_loop live (keys (st_streams (ic_state c))) (ic_state c, false) in
  let c := set_state st c in
  Some (c, if pruned then upload now c s else s).

Definition async_prune (now : Z) (live : gset Z) (c : LocalStreamRangeIndexCache) (s : S)
  : option (LocalStreamRangeIndexCache * S) :=
  if ic_pruned c then Some (c, s) else prune now live (set_pruned c) s.

Definition upload_on_stream_close (now : Z) (c : LocalStreamRangeIndexCache) (s : S) : LocalStreamRangeIndexCache * S :=
  let limited :=
    match ic_last_upload_time c with
    | Some t => now - t <=? UPLOAD_ON_STREAM_CLOSE_INTERVAL
    | None => false
    end in
  if limited then (c, s)
  else let c := set_last_upload (Some now) c in (c, upload now c s).
End Persisted.

(** ** Sizes *)

Ltac size_lia := unfold OBJECT_SIZE in *; change (2 ^ 62) with 4611686018427387904 in *; int_lia.

Definition weight (m : gmap Z SparseRangeIndex) : nat := length (all_ranges m).

Lemma weight_empty : weight ∅ = 0%nat.
Proof. unfold weight, all_ranges. by rewrite map_to_list_empty. Qed.

Lemma weight_delete m id sp : m !! id = Some sp → weight m = (length (sp_ranges sp) + weight (delete id m))%nat.
Proof.
  intros E. rewrite <- (insert_delete_id m id sp E) at 1. unfold weight, all_ranges.
  rewrite map_to_list_insert by apply lookup_delete_eq. cbn. by rewrite length_app.
Qed.

Lemma weight_delete_none m id : m !! id = None → weight (delete id m) = weight m.
Proof. intros E. by rewrite delete_id. Qed.

Lemma weight_insert m id sp : weight (<[id := sp]> m) = (length (sp_ranges sp) + weight (delete id m))%nat.
Proof. rewrite (weight_delete _ id sp) by apply lookup_insert_eq. by rewrite delete_insert_eq. Qed.

(** The stream's list replaced, or removed when it is empty. *)
Lemma weight_replace m id sp :
  weight (match sp_ranges sp with [] => delete id m | _ => <[id := sp]> m end)
  = (length (sp_ranges sp) + weight (delete id m))%nat.
Proof. destruct (sp_ranges sp) eqn:E; [done|]. by rewrite weight_insert, E. Qed.

(** The size field is exact and the starts ascend. *)
Definition by_start (a b : RangeIndex) : Prop := ri_start_offset a ≤ ri_start_offset b.
Record sparse_ok (compact_num : Z) (sp : SparseRangeIndex) : Prop := {
  so_num : sp_compact_num sp = compact_num;
  so_size : sp_size sp = OBJECT_SIZE * len (sp_ranges sp);
  so_sorted : StronglySorted by_start (sp_ranges sp);
  so_evict : 0 ≤ sp_evict_index sp;
}.

(** Every stream's list is well formed and the total is exact and fits in memory. *)
Record state_ok (compact_num : Z) (st : CacheState) : Prop := {
  sk_streams id sp : st_streams st !! id = Some sp → sparse_ok compact_num sp;
  sk_total : st_total_size st = OBJECT_SIZE * Z.of_nat (weight (st_streams st));
  sk_fits : OBJECT_SIZE * Z.of_nat (weight (st_streams st)) < 2 ^ 63;
}.

Lemma weight_stream_le m id sp : m !! id = Some sp → (length (sp_ranges sp) ≤ weight m)%nat.
Proof. intros E. rewrite (weight_delete m id sp E). lia. Qed.

Lemma sorted_app_last l x :
  StronglySorted by_start l → (∀ y, last l = Some y → by_start y x) → StronglySorted by_start (l ++ [x]).
Proof.
  intros Hs Hl. apply StronglySorted_app. split; [|split; [done|repeat constructor]].
  intros y z Hy ->%list_elem_of_singleton.
  destruct (last l) as [w|] eqn:Ew; [|by apply last_None in Ew as ->; apply not_elem_of_nil in Hy].
  specialize (Hl w eq_refl). apply last_Some in Ew as [k ->].
  apply elem_of_app in Hy as [Hy| ->%list_elem_of_singleton]; [|done].
  apply StronglySorted_app in Hs as (Hk & _ & _). specialize (Hk y w Hy ltac:(left)).
  unfold by_start in *. lia.
Qed.

Definition appended (r : RangeIndex) (l : list RangeIndex) : list RangeIndex :=
  match last l with
  | Some y => if ri_start_offset r <=? ri_start_offset y then [r] else l ++ [r]
  | None => [r]
  end.

Lemma sparse_append_spec cn r sp :
  sparse_ok cn sp → OBJECT_SIZE * (len (sp_ranges sp) + 1) < 2 ^ 63 →
  ∃ sp', sparse_append r sp = (sp', OBJECT_SIZE * (len (sp_ranges sp') - len (sp_ranges sp)))
    ∧ sp_ranges sp' = appended r (sp_ranges sp) ∧ sparse_ok cn sp'.
Proof.
  intros [Hn Hz Hs He] Hb. exists (sparse_append r sp).1. unfold sparse_append, appended, OBJECT_SIZE in *. rewrite Hz.
  destruct (last (sp_ranges sp)) as [y|] eqn:El; [destruct (ri_start_offset r <=? ri_start_offset y) eqn:E|];
    (split; [apply injective_projections; [done|]|split]); cbn -[Z.mul Z.add].
  - int_lia.
  - done.
  - constructor; cbn -[Z.mul Z.add]; [done|vm_compute; reflexivity|repeat constructor|lia].
  - rewrite length_app. cbn. int_lia.
  - done.
  - constructor; cbn -[Z.mul Z.add]; [done|rewrite length_app; change (length [r]) with 1%nat; rewrite Hz; size_lia| |done]. apply sorted_app_last; [done|].
    intros w Hw. unfold by_start. assert (w = y) as -> by congruence. lia.
  - apply last_None in El. rewrite El in *. cbn. int_lia.
  - by apply last_None in El as ->.
  - apply last_None in El. constructor; cbn -[Z.mul Z.add]; rewrite ?El in *; [done|rewrite Hz; vm_compute; reflexivity|repeat constructor|done].
Qed.

Lemma add_delta_exact total delta :
  0 ≤ total < 2 ^ 63 → 0 ≤ total + delta < 2 ^ 63 → add_delta total delta = total + delta.
Proof. intros. unfold add_delta. int_lia. Qed.

(** ** Eviction *)

(** What eviction may do to a stream: drop ranges, never the oldest while any is left. *)
Definition thinned (l' l : list RangeIndex) : Prop := sublist l' l ∧ (l' ≠ [] → head l' = head l).

Lemma thinned_refl l : thinned l l.
Proof. by split. Qed.

Lemma thinned_trans l1 l2 l3 : thinned l1 l2 → thinned l2 l3 → thinned l1 l3.
Proof.
  intros [Hs Hh] [Hs' Hh']. split; [by etrans|]. intros Hne. rewrite Hh by done. apply Hh'. intros ->.
  by apply sublist_nil_r in Hs.
Qed.

Lemma sublist_remove {A} (l : list A) i : sublist (take i l ++ drop (S i) l) l.
Proof.
  rewrite <- (take_drop i l) at 3. apply sublist_app; [done|]. destruct (drop i l) as [|x k] eqn:E.
  - replace (drop (S i) l) with (drop 1 (drop i l)) by (rewrite drop_drop; f_equal; lia). by rewrite E.
  - replace (drop (S i) l) with (drop 1 (drop i l)) by (rewrite drop_drop; f_equal; lia). rewrite E. cbn. by apply sublist_cons.
Qed.

Lemma evict_once_spec cn sp :
  sparse_ok cn sp → 0 ≤ cn < 2 ^ 62 → 0 < len (sp_ranges sp) → OBJECT_SIZE * len (sp_ranges sp) < 2 ^ 63 →
  ∃ sp' i, evict_once sp = Some (sp', OBJECT_SIZE) ∧ sparse_ok cn sp' ∧ (i < length (sp_ranges sp))%nat
    ∧ sp_ranges sp' = take i (sp_ranges sp) ++ drop (S i) (sp_ranges sp)
    ∧ (1 < len (sp_ranges sp) → (1 ≤ i)%nat) ∧ (1 + cn < len (sp_ranges sp) → Z.of_nat i < len (sp_ranges sp) - cn).
Proof.
  intros [Hn Hz Hs He] Hcn Hl Hsz. unfold evict_once. rewrite Hn.
  set (n := len (sp_ranges sp)) in *. replace (n =? 0) with false by lia. cbv beta iota zeta.
  set (p := if n =? 1 then _ else _).
  assert (∃ i e, p = (Z.of_nat i, e) ∧ (i < length (sp_ranges sp))%nat ∧ 0 ≤ e
    ∧ (1 < n → (1 ≤ i)%nat) ∧ (1 + cn < n → Z.of_nat i < n - cn)) as (i & e & -> & Hi & He' & H1 & H2).
  { subst p. destruct (n =? 1) eqn:E1; [exists 0%nat, (sp_evict_index sp); split_and!; (done || lia)|].
    rewrite (u64_small (1 + cn)) by size_lia. destruct (n <=? 1 + cn) eqn:E2; [exists 1%nat, (sp_evict_index sp); split_and!; (done || lia)|].
    rewrite (u64_small (n - cn)) by size_lia.
    destruct ((sp_evict_index sp mod n =? 0) || (n - cn <=? sp_evict_index sp)) eqn:E3.
    - exists 1%nat, (u64 (1 + 1)). split_and!; [done|lia|done|lia|lia].
    - exists (Z.to_nat (sp_evict_index sp)), (u64 (sp_evict_index sp + 1)). rewrite Z2Nat.id by done.
      assert (sp_evict_index sp ≠ 0). { intros E0. rewrite E0, Z.mod_0_l in E3 by lia. done. }
      split_and!; [done|lia|apply u64_range|lia|lia]. }
  unfold remove_at. fold n. replace ((0 <=? Z.of_nat i) && (Z.of_nat i <? n)) with true by lia.
  exists (mkSparse cn (takeZ (Z.of_nat i) (sp_ranges sp) ++ dropZ (Z.of_nat i + 1) (sp_ranges sp))
    (u64 (sp_size sp - OBJECT_SIZE)) e), i.
  assert (takeZ (Z.of_nat i) (sp_ranges sp) ++ dropZ (Z.of_nat i + 1) (sp_ranges sp)
    = take i (sp_ranges sp) ++ drop (S i) (sp_ranges sp)) as ->.
  { rewrite takeZ_take; unfold dropZ. rewrite Nat2Z.id. by replace (Z.to_nat (Z.of_nat i + 1)) with (S i) by lia. }
  split_and!; try done. constructor; cbn [sp_compact_num sp_size sp_ranges sp_evict_index]; [done| |eapply StronglySorted_sublist; [apply sublist_remove|done]|done].
  rewrite Hz, length_app, length_take, length_drop. subst n. rewrite u64_small by size_lia. size_lia.
Qed.

Lemma thinned_remove (l : list RangeIndex) i :
  (i < length l)%nat → (1 < len l → (1 ≤ i)%nat) → thinned (take i l ++ drop (S i) l) l.
Proof.
  intros Hi H1. split; [apply sublist_remove|]. intros Hne. destruct l as [|x [|y l]]; cbn in Hi, H1; [lia| |].
  - assert (i = 0%nat) as -> by lia. done.
  - destruct i as [|i]; [lia|]. done.
Qed.

Definition streams_thinned (m' m : gmap Z SparseRangeIndex) : Prop :=
  ∀ id sp', m' !! id = Some sp' → ∃ sp, m !! id = Some sp ∧ thinned (sp_ranges sp') (sp_ranges sp).

Lemma streams_thinned_refl m : streams_thinned m m.
Proof. intros id sp' E. exists sp'. split; [done|apply thinned_refl]. Qed.

Lemma streams_thinned_trans m1 m2 m3 : streams_thinned m1 m2 → streams_thinned m2 m3 → streams_thinned m1 m3.
Proof.
  intros H1 H2 id sp' E. destruct (H1 id sp' E) as (sp & E2 & T). destruct (H2 id sp E2) as (sp0 & E3 & T').
  exists sp0. split; [done|by eapply thinned_trans].
Qed.

(** [replace_stream]'s map: one stream's list exchanged. *)
Definition put_stream_list (m : gmap Z SparseRangeIndex) (id : Z) (sp : SparseRangeIndex) : gmap Z SparseRangeIndex :=
  match sp_ranges sp with [] => delete id m | _ => <[id := sp]> m end.

Lemma put_stream_list_lookup m id sp k v :
  put_stream_list m id sp !! k = Some v → (k = id ∧ v = sp ∧ sp_ranges sp ≠ []) ∨ (k ≠ id ∧ m !! k = Some v).
Proof.
  unfold put_stream_list. destruct (sp_ranges sp) eqn:E.
  - intros [? ?]%lookup_delete_Some. by right.
  - intros [[-> ->]|[? ?]]%lookup_insert_Some; [left|right]; done.
Qed.

Lemma put_stream_list_other m id sp k : k ≠ id → put_stream_list m id sp !! k = m !! k.
Proof. intros. unfold put_stream_list. destruct (sp_ranges sp); [by rewrite lookup_delete_ne|by rewrite lookup_insert_ne]. Qed.

(** Exchanging a stream's list keeps the state well formed when the total follows. *)
Lemma state_ok_replace cn st id sp sp' total :
  state_ok cn st → st_streams st !! id = Some sp → sparse_ok cn sp' →
  total = st_total_size st + OBJECT_SIZE * (len (sp_ranges sp') - len (sp_ranges sp)) → total < 2 ^ 63 →
  state_ok cn (mkCacheState (put_stream_list (st_streams st) id sp') total).
Proof.
  intros [Hst Ht Hf] Hid Hok -> Hlt. pose proof (weight_delete _ _ _ Hid) as Hw.
  assert (weight (put_stream_list (st_streams st) id sp') = (length (sp_ranges sp') + weight (delete id (st_streams st)))%nat)
    as Ew by apply weight_replace.
  constructor; cbn [st_streams st_total_size]; rewrite ?Ew.
  - intros k v [(-> & -> & _)|[_ Hk]]%put_stream_list_lookup; [done|by eapply Hst].
  - rewrite Ht. lia.
  - lia.
Qed.

Definition measure (m : gmap Z SparseRangeIndex) : nat := (weight m + length (keys m))%nat.

Lemma length_keys_delete (m : gmap Z SparseRangeIndex) id sp :
  m !! id = Some sp → length (keys m) = S (length (keys (delete id m))).
Proof.
  intros E. unfold keys, entries. rewrite !length_fmap, !length_sort_by.
  rewrite <- (insert_delete_id m id sp E) at 1. by rewrite map_to_list_insert by apply lookup_delete_eq.
Qed.

Lemma measure_put m id sp sp' :
  m !! id = Some sp → (length (sp_ranges sp') < length (sp_ranges sp))%nat ∨ sp_ranges sp' = [] →
  (measure (put_stream_list m id sp') < measure m)%nat.
Proof.
  intros E H. pose proof (weight_replace m id sp') as Ew. fold (put_stream_list m id sp') in Ew.
  pose proof (weight_delete m id sp E). pose proof (length_keys_delete m id sp E). unfold measure. rewrite Ew.
  unfold put_stream_list. destruct (sp_ranges sp') eqn:E'; [cbn; lia|].
  rewrite (length_keys_delete _ id sp') by apply lookup_insert_eq. rewrite delete_insert_eq.
  destruct H; [cbn in *; lia|done].
Qed.

Section Evict.
Context (cn mx : Z) (Hcn : 0 ≤ cn < 2 ^ 62) (Hmx : 0 ≤ mx).

(** Evicting from one stream: what the loop's body does when it does not skip. *)
Lemma evict_stream_spec st id sp :
  state_ok cn st → st_streams st !! id = Some sp →
  ∃ sp' freed, evict_once sp = Some (sp', freed)
    ∧ state_ok cn (mkCacheState (put_stream_list (st_streams st) id sp') (u64 (st_total_size st - freed)))
    ∧ thinned (sp_ranges sp') (sp_ranges sp)
    ∧ (measure (put_stream_list (st_streams st) id sp') < measure (st_streams st))%nat.
Proof.
  intros Hok Hid. destruct (decide (sp_ranges sp = [])) as [Hnil|Hne].
  - exists sp, 0. split; [unfold evict_once; by rewrite Hnil|]. split; [|split; [apply thinned_refl|by eapply measure_put; eauto]].
    destruct Hok as [Hst Ht Hf]. eapply (state_ok_replace cn st id sp); [by constructor|done|by eapply Hst| |]; size_lia.
  - pose proof (sk_streams _ _ Hok _ _ Hid) as Hsp. pose proof (weight_stream_le _ _ _ Hid).
    pose proof (sk_total _ _ Hok) as Ht. pose proof (sk_fits _ _ Hok) as Hf.
    assert (0 < len (sp_ranges sp)) by (destruct (sp_ranges sp); [done|cbn; lia]).
    destruct (evict_once_spec cn sp Hsp Hcn) as (sp' & i & -> & Hok' & Hi & Er & H1 & _); [done|size_lia|].
    exists sp', OBJECT_SIZE. split; [done|].
    assert (length (sp_ranges sp) = S (length (sp_ranges sp')))%nat as El by (rewrite Er, length_app, length_take, length_drop; lia).
    split; [|split; [rewrite Er; by apply thinned_remove|eapply measure_put; [done|left; lia]]].
    eapply state_ok_replace; [done|done|done| |]; size_lia.
Qed.

Lemma evict_pass_keeps hs ids st st' : evict_pass cn mx hs ids true st = Some (st', false) → False.
Proof.
  revert st; induction ids as [|id ids IH]; intros st; cbn [evict_pass]; [done|].
  destruct (st_streams st !! id) as [sp|]; [|done]. destruct (_ && hs); [apply IH|].
  destruct (evict_once sp) as [[sp' freed]|]; [|done]. cbv beta iota zeta. destruct (_ <=? mx); [done|apply IH].
Qed.

Lemma evict_pass_spec hs ids ev st :
  state_ok cn st → NoDup ids → (∀ id, id ∈ ids → is_Some (st_streams st !! id)) →
  ∃ st' ev', evict_pass cn mx hs ids ev st = Some (st', ev') ∧ state_ok cn st'
    ∧ streams_thinned (st_streams st') (st_streams st)
    ∧ (measure (st_streams st') ≤ measure (st_streams st))%nat
    ∧ (ev' = true → ev = true ∨ (measure (st_streams st') < measure (st_streams st))%nat)
    ∧ (ev' = false → st' = st ∧ (hs = false → ids = [])).
Proof.
  revert ev st; induction ids as [|id ids IH]; intros ev st Hok Hnd Hin; cbn [evict_pass].
  { exists st, ev. split_and!; try done; [apply streams_thinned_refl|by left]. }
  apply NoDup_cons in Hnd as [Hnot Hnd]. destruct (Hin id ltac:(left)) as [sp Hid]. rewrite Hid. cbv beta iota.
  destruct ((len (sp_ranges sp) <=? u64 (1 + cn)) && hs) eqn:Eskip.
  { destruct (IH ev st Hok Hnd) as (st' & ev' & E & H1 & H2 & H3 & H4 & H5); [intros k Hk; apply Hin; by right|].
    exists st', ev'. split_and!; try done. intros He. destruct (H5 He) as [-> _]. split; [done|]. intros ->. lia. }
  destruct (evict_stream_spec st id sp Hok Hid) as (sp' & freed & -> & Hok' & Ht & Hm). cbv beta iota zeta.
  fold (put_stream_list (st_streams st) id sp').
  assert (streams_thinned (put_stream_list (st_streams st) id sp') (st_streams st)) as Hth.
  { intros k v [(-> & -> & _)|[_ Hk]]%put_stream_list_lookup; [by exists sp|]. exists v. split; [done|apply thinned_refl]. }
  set (st1 := mkCacheState _ _) in *. destruct (st_total_size st1 <=? mx).
  { exists st1, true. split_and!; try done; [cbn; lia|intros _; by right]. }
  destruct (IH true st1 Hok' Hnd) as (st' & ev' & E & H1 & H2 & H3 & H4 & H5).
  { intros k Hk. cbn. rewrite put_stream_list_other by (by intros ->). apply Hin. by right. }
  change (st_streams st1) with (put_stream_list (st_streams st) id sp') in *.
  exists st', ev'. split_and!; [done|done|by eapply streams_thinned_trans|lia|intros _; right; lia|].
  intros ->. by apply evict_pass_keeps in E.
Qed.

Lemma evict_loop_spec fuel (hs : bool) st :
  state_ok cn st → (measure (st_streams st) + (if hs then 1 else 0) < fuel)%nat →
  ∃ st', evict_loop fuel cn mx hs st = Some st' ∧ state_ok cn st' ∧ st_total_size st' ≤ mx
    ∧ streams_thinned (st_streams st') (st_streams st).
Proof.
  revert hs st; induction fuel as [|fuel IH]; intros hs st Hok Hf; [lia|]. cbn [evict_loop].
  destruct (st_total_size st <=? mx) eqn:E.
  { exists st. split_and!; [done|done|lia|apply streams_thinned_refl]. }
  destruct (evict_pass_spec hs (keys (st_streams st)) false st Hok (NoDup_keys _)) as (st' & ev & -> & Hok' & Hth & Hm & H1 & H2).
  { intros id. by rewrite elem_of_keys. }
  cbv beta iota. destruct ev.
  - destruct (H1 eq_refl) as [?|Hlt]; [done|].
    destruct (IH hs st' Hok' ltac:(destruct hs; lia)) as (st2 & -> & ? & ? & ?).
    exists st2. split_and!; [done|done|done|by eapply streams_thinned_trans].
  - destruct (H2 eq_refl) as [-> Hids]. destruct hs.
    + apply IH; [done|lia].
    + specialize (Hids eq_refl). pose proof (sk_total _ _ Hok) as Ht. exfalso.
      assert (st_streams st = ∅) as E0. { apply map_eq. intros k. rewrite lookup_empty. destruct (st_streams st !! k) eqn:Ek; [|done].
        assert (k ∈ keys (st_streams st)) as Hk by (apply elem_of_keys; eauto). rewrite Hids in Hk. by apply not_elem_of_nil in Hk. }
      rewrite E0, weight_empty in Ht. lia.
Qed.
End Evict.

(** ** Appending *)

Definition ranges_of (m : gmap Z SparseRangeIndex) (id : Z) : list RangeIndex :=
  match m !! id with Some sp => sp_ranges sp | None => [] end.

Lemma length_appended r l : (length (appended r l) ≤ S (length l))%nat.
Proof. unfold appended. destruct (last l) as [y|]; [destruct (_ <=? _)|]; rewrite ?length_app; cbn; lia. Qed.

Lemma sparse_new_ok cn : sparse_ok cn (sparse_new cn).
Proof. constructor; [done|vm_compute; reflexivity|constructor|done]. Qed.

Lemma weight_ranges m id : weight m = (length (ranges_of m id) + weight (delete id m))%nat.
Proof.
  unfold ranges_of. destruct (m !! id) as [sp|] eqn:E; [by apply weight_delete|]. by rewrite weight_delete_none.
Qed.

Lemma append_one_spec cn st id range :
  state_ok cn st → OBJECT_SIZE * (Z.of_nat (weight (st_streams st)) + 1) < 2 ^ 63 →
  ∃ sp, append_one cn st (id, Some range)
        = mkCacheState (<[id := sp]> (st_streams st))
            (OBJECT_SIZE * Z.of_nat (weight (<[id := sp]> (st_streams st))))
    ∧ sp_ranges sp = appended range (ranges_of (st_streams st) id)
    ∧ state_ok cn (append_one cn st (id, Some range))
    ∧ (weight (st_streams (append_one cn st (id, Some range))) ≤ S (weight (st_streams st)))%nat.
Proof.
  intros Hok Hf. pose proof (weight_ranges (st_streams st) id) as Hw.
  set (old := default (sparse_new cn) (st_streams st !! id)).
  assert (sparse_ok cn old ∧ sp_ranges old = ranges_of (st_streams st) id) as [Ho Er].
  { subst old. unfold ranges_of. destruct (st_streams st !! id) as [sp|] eqn:E; cbn; [|split; [apply sparse_new_ok|done]].
    split; [by eapply sk_streams|done]. }
  destruct (sparse_append_spec cn range old Ho) as (sp & Ea & Ers & Hsp); [rewrite Er; size_lia|].
  rewrite Er in Ers. pose proof (length_appended range (ranges_of (st_streams st) id)) as Hle. rewrite <- Ers in Hle.
  assert (append_one cn st (id, Some range) = mkCacheState (<[id := sp]> (st_streams st))
            (OBJECT_SIZE * Z.of_nat (weight (<[id := sp]> (st_streams st))))) as Eo.
  { unfold append_one. cbn [fst snd]. fold old. rewrite Ea. f_equal. rewrite (sk_total _ _ Hok), weight_insert, Hw.
    rewrite add_delta_exact by (rewrite ?Er; size_lia). rewrite Er. size_lia. }
  exists sp. rewrite Eo. cbn [st_streams]. pose proof (weight_insert (st_streams st) id sp) as Ew. split_and!; [done|done| |lia].
  constructor; cbn [st_streams st_total_size]; [|done|size_lia].
  intros k v [[<- <-]|[_ Hk]]%lookup_insert_Some; [done|by eapply sk_streams].
Qed.

(** The lists after the appends: those of the map's streams have grown, the others are as before. *)
Definition appended_streams (es : list (Z * option RangeIndex)) (m m' : gmap Z SparseRangeIndex) : Prop :=
  ∀ id, (∀ r, (id, Some r) ∈ es → ∃ sp, m' !! id = Some sp ∧ sp_ranges sp = appended r (ranges_of m id))
    ∧ ((∀ r, (id, Some r) ∉ es) → m' !! id = m !! id).

Lemma append_all_spec cn es st :
  NoDup es.*1 → state_ok cn st → OBJECT_SIZE * (Z.of_nat (weight (st_streams st)) + len es) < 2 ^ 63 →
  state_ok cn (foldl (append_one cn) st es) ∧ appended_streams es (st_streams st) (st_streams (foldl (append_one cn) st es)).
Proof.
  revert st; induction es as [|[id o] es IH]; intros st Hnd Hok Hf; cbn [foldl].
  { split; [done|]. intros id. split; [by intros r ?%not_elem_of_nil|done]. }
  apply NoDup_cons in Hnd as [Hnot Hnd]. cbn [length fst] in Hf, Hnot.
  assert (∀ r, (id, Some r) ∉ es) as Hno.
  { intros r Hr. apply Hnot. change id with (id, Some r).1. apply list_elem_of_fmap. eauto. }
  destruct o as [r|].
  - destruct (append_one_spec cn st id r Hok) as (sp & Eo & Er & Hok1 & Hw); [size_lia|].
    destruct (IH _ Hnd Hok1) as [Hok2 Ha]; [size_lia|]. split; [done|].
    set (st2 := foldl _ _ _) in *. rewrite Eo in Ha. cbn [st_streams] in Ha. intros k. destruct (Ha k) as [H1 H2]. split.
    + intros x [[= -> ->]|Hx]%elem_of_cons.
      * exists sp. split; [|done]. rewrite H2 by done. apply lookup_insert_eq.
      * destruct (H1 x Hx) as (sp2 & E2 & Er2). exists sp2. split; [done|]. rewrite Er2. unfold ranges_of.
        rewrite lookup_insert_ne; [done|]. intros ->. by eapply Hno.
    + intros Hx. rewrite H2, lookup_insert_ne; [done| |].
      * intros ->. eapply (Hx r). left.
      * intros x Hin. eapply (Hx x). by right.
  - cbn [append_one snd] in *. destruct (IH st Hnd Hok) as [Hok2 Ha]; [size_lia|]. split; [done|].
    intros k. destruct (Ha k) as [H1 H2]. split.
    + intros x [[= ]|Hx]%elem_of_cons. by apply H1.
    + intros Hx. apply H2. intros x Hin. eapply (Hx x). by right.
Qed.

Record cache_ok (c : LocalStreamRangeIndexCache) : Prop := {
  ck_state : state_ok (ic_compact_num c) (ic_state c);
  ck_num : 0 ≤ ic_compact_num c < 2 ^ 62;
  ck_max : 0 ≤ ic_max_index_size c;
}.

Abbreviation streams_of c := (st_streams (ic_state c)).

Lemma append_spec m c :
  cache_ok c → OBJECT_SIZE * (Z.of_nat (weight (streams_of c)) + len (keys m)) < 2 ^ 63 →
  ∃ c', append m c = Some c' ∧ cache_ok c' ∧ st_total_size (ic_state c') ≤ ic_max_index_size c'
    ∧ ∃ full, appended_streams (entries m) (streams_of c) full ∧ streams_thinned (streams_of c') full.
Proof.
  intros [Hs Hn Hx] Hf. unfold append, evict_if_necessary, evict_fuel.
  assert (length (keys m) = length (entries m)) as El by (unfold keys; by rewrite length_fmap).
  destruct (append_all_spec (ic_compact_num c) (entries m) (ic_state c)) as [Hok Ha]; [apply NoDup_keys|done|rewrite <- El; done|].
  set (st1 := foldl _ _ _) in *.
  destruct (evict_loop_spec (ic_compact_num c) (ic_max_index_size c) Hn Hx
    (length (all_ranges (st_streams st1)) + length (keys (st_streams st1)) + 2) true st1 Hok) as (st2 & -> & Hok2 & Hle & Hth).
  { unfold measure, weight. lia. }
  cbv beta iota. eexists. split; [done|]. split; [by constructor|]. split; [done|]. by exists (st_streams st1).
Qed.

(** ** Compacting and pruning *)

Lemma compact_ranges_elem n compacted (ins : bool) l x :
  x ∈ compact_ranges n compacted ins l → (ins = false ∧ n = Some x) ∨ (x ∈ l ∧ ri_object_id x ∉ compacted).
Proof.
  revert ins; induction l as [|r l IH]; intros ins; cbn [compact_ranges].
  { destruct n as [n|]; [destruct ins|]; rewrite ?elem_of_nil; [done| |done]. intros ->%list_elem_of_singleton. by left. }
  case_bool_decide as Hc; [intros [?|[? ?]]%IH; [by left|right; split; [by right|done]]|].
  destruct n as [n|]; [destruct (negb ins && _) eqn:E|]; rewrite ?elem_of_cons.
  - destruct ins; [done|]. intros [->|[->|[[? _]|[? ?]]%IH]]; [by left|by right; auto|done|by right; auto].
  - intros [->|[?|[? ?]]%IH]; [by right; auto|by left|by right; auto].
  - intros [->|[?|[? ?]]%IH]; [by right; auto|by left|by right; auto].
Qed.

Lemma length_compact_ranges n compacted (ins : bool) l :
  (length (compact_ranges n compacted ins l) ≤ length l + (if ins then 0 else 1))%nat.
Proof.
  revert ins; induction l as [|r l IH]; intros ins; cbn [compact_ranges].
  { destruct n as [n|]; destruct ins; cbn; lia. }
  case_bool_decide; [specialize (IH ins); cbn [length]; lia|].
  destruct n as [n|]; [destruct (negb ins && _) eqn:E|]; cbn.
  - destruct ins; [done|]. specialize (IH true). cbn in IH. lia.
  - specialize (IH ins). lia.
  - specialize (IH ins). lia.
Qed.

Lemma compact_ranges_sorted n compacted ins l :
  StronglySorted by_start l → StronglySorted by_start (compact_ranges n compacted ins l).
Proof.
  intros Hs. revert ins; induction Hs as [|r l Hs IH Hr]; intros ins; cbn [compact_ranges].
  { destruct n as [n|]; [destruct ins|]; repeat constructor. }
  case_bool_decide as Hc; [by apply IH|]. rewrite Forall_forall in Hr.
  destruct n as [n|]; [destruct (negb ins && _) eqn:E|].
  - assert (by_start n r) as Hnr by (unfold by_start; lia).
    assert (∀ y, y ∈ compact_ranges (Some n) compacted true l → by_start r y) as Hy.
    { intros y [[? _]|[? _]]%compact_ranges_elem; [done|by apply Hr]. }
    constructor; [constructor; [apply IH|by apply Forall_forall]|]. apply Forall_cons. split; [done|].
    apply Forall_forall. intros y Hin%Hy. unfold by_start in *. lia.
  - constructor; [apply IH|]. apply Forall_forall.
    intros y [[-> [= ->]]|[? _]]%compact_ranges_elem; [|by apply Hr]. cbn in E. unfold by_start. lia.
  - constructor; [apply IH|]. apply Forall_forall. intros y [[_ ?]|[? _]]%compact_ranges_elem; [done|by apply Hr].
Qed.

Lemma sparse_compact_spec cn n compacted sp :
  compacted ≠ ∅ → sparse_ok cn sp → OBJECT_SIZE * (len (sp_ranges sp) + 1) < 2 ^ 63 →
  ∃ sp', sparse_compact n compacted sp = (sp', OBJECT_SIZE * (len (sp_ranges sp') - len (sp_ranges sp)))
    ∧ sp_ranges sp' = compact_ranges n compacted false (sp_ranges sp) ∧ sparse_ok cn sp'.
Proof.
  intros Hc [Hn Hz Hs He] Hb. unfold sparse_compact. rewrite bool_decide_eq_false_2 by done. rewrite Hz, Hn.
  pose proof (length_compact_ranges n compacted false (sp_ranges sp)) as Hl. set (rs := compact_ranges _ _ _ _) in *.
  exists (mkSparse cn rs (u64 (len rs * OBJECT_SIZE)) 0). cbn [sp_ranges]. split_and!.
  - f_equal. size_lia.
  - done.
  - constructor; cbn [sp_compact_num sp_size sp_ranges sp_evict_index]; [done|size_lia|by apply compact_ranges_sorted|done].
Qed.

(** Loops over the collected stream ids that exchange each stream's list for [f id list]. *)
Definition lists_mapped (f : Z → list RangeIndex → list RangeIndex) (ids : list Z) (m m' : gmap Z SparseRangeIndex) : Prop :=
  ∀ id, (id ∈ ids → ∀ sp', m' !! id = Some sp' → ∃ sp, m !! id = Some sp ∧ sp_ranges sp' = f id (sp_ranges sp))
    ∧ (id ∉ ids → m' !! id = m !! id).

Lemma lists_mapped_cons f id ids m sp sp' m' :
  id ∉ ids → m !! id = Some sp → sp_ranges sp' = f id (sp_ranges sp) →
  lists_mapped f ids (put_stream_list m id sp') m' → lists_mapped f (id :: ids) m m'.
Proof.
  intros Hnot Hid Er H k. destruct (H k) as [H1 H2]. destruct (decide (k = id)) as [->|Hne].
  - split; [|intros Hn; exfalso; apply Hn; left]. intros _ sp2. rewrite H2 by done.
    intros [(_ & -> & _)|[? _]]%put_stream_list_lookup; [by exists sp|done].
  - rewrite put_stream_list_other in H2 by done. split.
    + intros [?|Hk]%elem_of_cons sp2 E2; [done|]. destruct (H1 Hk sp2 E2) as (sp0 & E0 & E).
      rewrite put_stream_list_other in E0 by done. by exists sp0.
    + intros Hk. apply H2. intros ?. apply Hk. by right.
Qed.

Lemma compact_one_spec cn m compacted st id sp :
  compacted ≠ ∅ → state_ok cn st → st_streams st !! id = Some sp →
  OBJECT_SIZE * (Z.of_nat (weight (st_streams st)) + 1) < 2 ^ 63 →
  ∃ sp' st', compact_one m compacted st id = Some st' ∧ st_streams st' = put_stream_list (st_streams st) id sp'
    ∧ sp_ranges sp' = compact_ranges (mjoin (m !! id)) compacted false (sp_ranges sp) ∧ state_ok cn st'
    ∧ (weight (st_streams st') ≤ S (weight (st_streams st)))%nat.
Proof.
  intros Hc Hok Hid Hf. unfold compact_one. rewrite Hid. cbv beta iota.
  pose proof (weight_delete _ _ _ Hid) as Hw. pose proof (sk_total _ _ Hok) as Ht. pose proof (sk_streams _ _ Hok _ _ Hid) as Hsp.
  destruct (sparse_compact_spec cn (mjoin (m !! id)) compacted sp Hc Hsp) as (sp' & -> & Er & Hsp'); [size_lia|].
  pose proof (length_compact_ranges (mjoin (m !! id)) compacted false (sp_ranges sp)) as Hl. rewrite <- Er in Hl.
  pose proof (weight_replace (st_streams st) id sp') as Ew.
  exists sp', (replace_stream st id sp' (OBJECT_SIZE * (len (sp_ranges sp') - len (sp_ranges sp)))).
  split; [done|]. split; [done|]. split; [done|]. split; [|unfold replace_stream; cbn [st_streams]; lia].
  unfold replace_stream. eapply state_ok_replace; [done|done|done| |]; rewrite add_delta_exact; size_lia.
Qed.

Lemma compact_all_spec cn m compacted ids st :
  compacted ≠ ∅ → NoDup ids → state_ok cn st → (∀ id, id ∈ ids → is_Some (st_streams st !! id)) →
  OBJECT_SIZE * (Z.of_nat (weight (st_streams st)) + len ids) < 2 ^ 63 →
  ∃ st', for_ids (compact_one m compacted) ids st = Some st' ∧ state_ok cn st'
    ∧ lists_mapped (λ id, compact_ranges (mjoin (m !! id)) compacted false) ids (st_streams st) (st_streams st').
Proof.
  intros Hc Hnd. revert st; induction Hnd as [|id ids Hnot Hnd IH]; intros st Hok Hin Hf; cbn [for_ids].
  { exists st. split; [done|]. split; [done|]. intros id. split; [by intros ?%not_elem_of_nil|done]. }
  destruct (Hin id ltac:(left)) as [sp Hid]. cbn [length] in Hf.
  destruct (compact_one_spec cn m compacted st id sp Hc Hok Hid) as (sp' & st1 & -> & Es & Er & Hok1 & Hw); [size_lia|].
  destruct (IH st1 Hok1) as (st' & -> & Hok' & Hm); [|size_lia|].
  { intros k Hk. rewrite Es, put_stream_list_other by (by intros ->). apply Hin. by right. }
  exists st'. split; [done|]. split; [done|]. rewrite Es in Hm. by eapply lists_mapped_cons.
Qed.

Lemma compact_spec m compacted c :
  compacted ≠ ∅ → cache_ok c → OBJECT_SIZE * (Z.of_nat (weight (streams_of c)) + len (keys (streams_of c))) < 2 ^ 63 →
  ∃ c', compact m compacted c = Some c' ∧ cache_ok c'
    ∧ ∀ id sp' x, streams_of c' !! id = Some sp' → x ∈ sp_ranges sp' →
        mjoin (m !! id) = Some x ∨ ∃ sp, streams_of c !! id = Some sp ∧ x ∈ sp_ranges sp ∧ ri_object_id x ∉ compacted.
Proof.
  intros Hc [Hs Hn Hx] Hf. unfold compact.
  destruct (compact_all_spec (ic_compact_num c) m compacted (keys (streams_of c)) (ic_state c) Hc (NoDup_keys _) Hs)
    as (st' & -> & Hok & Hm); [intros id; by rewrite elem_of_keys|done|].
  eexists. split; [done|]. split; [by constructor|]. cbn [set_state ic_state]. intros id sp' x Hid Hin.
  destruct (Hm id) as [H1 H2]. destruct (decide (id ∈ keys (streams_of c))) as [Hk|Hk].
  - destruct (H1 Hk sp' Hid) as (sp & E & Er). rewrite Er in Hin.
    apply compact_ranges_elem in Hin as [[_ ?]|[? ?]]; [by left|right; by exists sp].
  - rewrite H2 in Hid by done. exfalso. apply Hk. apply elem_of_keys. eauto.
Qed.

(** ** The index follows the metadata plane *)

Lemma request_ranges_elem (f : ObjectStreamRange → option RangeIndex) rs (m : RangeMap) id x :
  foldl (λ m y, <[or_stream_id y := f y]> m) m rs !! id = Some (Some x) →
  m !! id = Some (Some x) ∨ ∃ y, y ∈ rs ∧ or_stream_id y = id ∧ f y = Some x.
Proof.
  revert m; induction rs as [|y rs IH]; intros m; cbn [foldl]; [by left|].
  intros [Hm|(z & Hz & ? & ?)]%IH; [|right; exists z; split; [by right|done]].
  apply lookup_insert_Some in Hm as [[<- E]|[_ Hm]]; [right; exists y; split; [left|done]|by left].
Qed.

Lemma request_objects_elem os (m : RangeMap) id x :
  foldl (λ m o, match m !! so_stream_id o with Some _ => m | None => <[so_stream_id o := None]> m end) m os !! id = Some (Some x) →
  m !! id = Some (Some x).
Proof.
  revert m; induction os as [|o os IH]; intros m; cbn [foldl]; [done|]. intros Hm%IH.
  destruct (m !! so_stream_id o); [done|]. by apply lookup_insert_Some in Hm as [[_ ?]|[_ ?]].
Qed.

(** A range the request brings is one of its stream set object. *)
Lemma request_map_elem r id x :
  range_index_map_from_request r !! id = Some (Some x) →
  cr_object_id r ≠ NOOP_OBJECT_ID ∧ ∃ y, y ∈ cr_stream_ranges r ∧ or_stream_id y = id
    ∧ x = mkRange (or_start_offset y) (or_end_offset y) (cr_object_id r).
Proof.
  unfold range_index_map_from_request. intros H.
  assert (foldl (λ m y, <[or_stream_id y := if negb (cr_object_id r =? NOOP_OBJECT_ID)
    then Some (mkRange (or_start_offset y) (or_end_offset y) (cr_object_id r)) else None]> m) (∅ : RangeMap) (cr_stream_ranges r) !! id
    = Some (Some x)) as Hm by (destruct (cr_compacted_object_ids r); [done|by eapply request_objects_elem]).
  apply request_ranges_elem in Hm as [E|(y & Hy & Ei & Ex)]; [by rewrite lookup_empty in E|].
  destruct (cr_object_id r =? NOOP_OBJECT_ID) eqn:E; cbn in Ex; [done|]. injection Ex as <-. split; [lia|by exists y].
Qed.

(** Every range of the index is one of a live stream set object. *)
Definition index_sound (m : MetadataState) (c : LocalStreamRangeIndexCache) : Prop :=
  ∀ id sp x, streams_of c !! id = Some sp → x ∈ sp_ranges sp →
    ∃ o, ms_stream_set_objects m !! ri_object_id x = Some o
      ∧ {| sr_stream_id := id; sr_start_offset := ri_start_offset x; sr_end_offset := ri_end_offset x |} ∈ om_offset_ranges o.

Lemma foldl_delete_lookup (ids : list Z) (m : gmap Z S3ObjectMetadata) k :
  k ∉ ids → foldl (λ o id, delete id o) m ids !! k = m !! k.
Proof.
  revert m; induction ids as [|i ids IH]; intros m Hk; cbn [foldl]; [done|]. apply not_elem_of_cons in Hk as [? ?].
  by rewrite IH, lookup_delete_ne.
Qed.

Lemma commit_registry now r m :
  ms_stream_set_objects (commit_stream_set_object now r m).1
  = foldl (λ o id, delete id o)
      (if negb (cr_object_id r =? NOOP_OBJECT_ID) then <[cr_object_id r := sso_metadata now r]> (ms_stream_set_objects m)
       else ms_stream_set_objects m) (cr_compacted_object_ids r).
Proof. unfold commit_stream_set_object. by destruct (advance _ _ _). Qed.

Lemma commit_keeps_object now r m k o :
  ms_stream_set_objects m !! k = Some o → k ∉ cr_compacted_object_ids r → ms_stream_set_objects m !! cr_object_id r = None →
  ms_stream_set_objects (commit_stream_set_object now r m).1 !! k = Some o.
Proof.
  intros Hk Hnot Hfree. rewrite commit_registry, foldl_delete_lookup by done. destruct (negb _); [|done].
  rewrite lookup_insert_ne; [done|]. intros E. rewrite E in Hfree. congruence.
Qed.

Lemma commit_new_range now r m id x :
  cr_object_id r ∉ cr_compacted_object_ids r → range_index_map_from_request r !! id = Some (Some x) →
  ∃ o, ms_stream_set_objects (commit_stream_set_object now r m).1 !! ri_object_id x = Some o
    ∧ {| sr_stream_id := id; sr_start_offset := ri_start_offset x; sr_end_offset := ri_end_offset x |} ∈ om_offset_ranges o.
Proof.
  intros Hnot (Hne & y & Hy & <- & ->)%request_map_elem. exists (sso_metadata now r). cbn [ri_object_id ri_start_offset ri_end_offset].
  rewrite commit_registry, foldl_delete_lookup by done. replace (cr_object_id r =? NOOP_OBJECT_ID) with false by lia. cbn [negb].
  rewrite lookup_insert_eq. split; [done|]. cbn. apply list_elem_of_fmap. by exists y.
Qed.

Lemma appended_elem r l x : x ∈ appended r l → x = r ∨ x ∈ l.
Proof.
  unfold appended. destruct (last l) as [y|]; [destruct (_ <=? _)|]; rewrite ?elem_of_app, ?list_elem_of_singleton; tauto.
Qed.

Lemma appended_streams_elem m m0 full c' id sp' x :
  appended_streams (entries m) m0 full → streams_thinned c' full → c' !! id = Some sp' → x ∈ sp_ranges sp' →
  m !! id = Some (Some x) ∨ ∃ sp, m0 !! id = Some sp ∧ x ∈ sp_ranges sp.
Proof.
  intros Ha Ht Hid Hx. destruct (Ht id sp' Hid) as (sp1 & E1 & Hsub & _).
  pose proof (elem_of_submseteq _ _ _ Hx (sublist_submseteq _ _ Hsub)) as Hx1.
  destruct (Ha id) as [H1 H2]. destruct (m !! id) as [[r|]|] eqn:Em.
  - destruct (H1 r) as (sp & E & Er); [by apply elem_of_entries|]. assert (sp1 = sp) as -> by congruence. rewrite Er in Hx1.
    apply appended_elem in Hx1 as [->|Hin]; [by left|right]. unfold ranges_of in Hin.
    destruct (m0 !! id) as [sp0|]; [by exists sp0|by apply not_elem_of_nil in Hin].
  - right. rewrite H2 in E1; [by exists sp1|]. intros r Hr%elem_of_entries. congruence.
  - right. rewrite H2 in E1; [by exists sp1|]. intros r Hr%elem_of_entries. congruence.
Qed.

Section Follow.
Context {S : Type} `{!ObjectStorage S}.

(** C30: the index keeps up with the metadata plane.  Feeding a commit to it always returns,
    keeps the lists sorted and the size accounting exact, leaves the index within its cap
    after an append, and if before the commit every indexed range was one of a live stream
    set object, then so it is after: compacted objects are forgotten, the new object's
    ranges are its own. *)
Theorem range_index_tracks_commits now r c m (s : S) :
  cache_ok c → index_sound m c →
  ms_stream_set_objects m !! cr_object_id r = None → cr_object_id r ∉ cr_compacted_object_ids r →
  OBJECT_SIZE * (Z.of_nat (weight (streams_of c)) + len (keys (streams_of c)) + len (keys (range_index_map_from_request r))) < 2 ^ 63 →
  ∃ c' s', update_index_from_request now r c s = Some (c', s') ∧ cache_ok c'
    ∧ index_sound (commit_stream_set_object now r m).1 c'
    ∧ (cr_compacted_object_ids r = [] → st_total_size (ic_state c') ≤ ic_max_index_size c').
Proof.
  intros Hc Hs Hfree Hnot Hf. unfold update_index_from_request.
  destruct (cr_compacted_object_ids r) as [|i ids] eqn:Ei.
  - destruct (append_spec (range_index_map_from_request r) c Hc) as (c' & -> & Hc' & Hle & full & Ha & Ht); [size_lia|].
    exists c', s. split_and!; [done|done| |done]. intros id sp' x Hid Hx.
    destruct (appended_streams_elem _ _ _ _ _ _ _ Ha Ht Hid Hx) as [Hm|(sp & Hsp & Hx0)].
    + apply commit_new_range; [by rewrite Ei|done].
    + destruct (Hs id sp x Hsp Hx0) as (o & Ho & Hin). exists o. split; [|done].
      apply commit_keeps_object; [done|rewrite Ei; apply not_elem_of_nil|done].
  - destruct (compact_spec (range_index_map_from_request r) (list_to_set (i :: ids)) c) as (c' & -> & Hc' & Hel); [set_solver|done|size_lia|].
    eexists _, _. split_and!; [done|done| |done]. intros id sp' x Hid Hx.
    destruct (Hel id sp' x Hid Hx) as [Hm|(sp & Hsp & Hx0 & Hni)].
    + apply commit_new_range; [by rewrite Ei|]. revert Hm. destruct (range_index_map_from_request r !! id) as [[y|]|]; cbn; congruence.
    + destruct (Hs id sp x Hsp Hx0) as (o & Ho & Hin). exists o. split; [|done].
      apply commit_keeps_object; [done| |done]. rewrite Ei. by rewrite elem_of_list_to_set in Hni.
Qed.
End Follow.

(** ** Searching *)

Lemma sorted_cut off l :
  StronglySorted by_start l →
  cut_at (compare_start off) l (length (filter (λ r, ri_start_offset r ≤ off) l))
  ∧ filter (λ r, ri_start_offset r ≤ off) l = take (length (filter (λ r, ri_start_offset r ≤ off) l)) l.
Proof.
  intros Hs. induction Hs as [|r l Hs [[IHk IHc] IHt] Hr]; [by split; [split; [done|]|done]|].
  rewrite filter_cons. destruct (decide (ri_start_offset r ≤ off)) as [Hle|Hgt].
  - cbn [length take]. split; [|by rewrite <- IHt]. split; [cbn; lia|]. intros [|i] x Hx; cbn in Hx.
    + injection Hx as <-. unfold compare_start. split; [lia|]. intros _ E. apply Z.compare_gt_iff in E. lia.
    + rewrite (IHc i x Hx). lia.
  - rewrite Forall_forall in Hr. rewrite filter_none by (intros y Hy%Hr; unfold by_start in Hy; lia).
    split; [|done]. split; [cbn; lia|]. intros i x Hx. cbn [length]. split; [|lia]. intros E. exfalso. apply E.
    unfold compare_start. apply Z.compare_gt_iff. apply list_elem_of_lookup_2, elem_of_cons in Hx as [->|Hx%Hr]; [lia|].
    unfold by_start in Hx. lia.
Qed.

Lemma binary_search_exact off l :
  StronglySorted by_start l →
  binary_search_object_id off l = Some (ri_object_id <$> last (filter (λ r, ri_start_offset r ≤ off) l)).
Proof.
  intros Hs. destruct (sorted_cut off l Hs) as [Hcut Ht]. destruct Hcut as [Hk Hc].
  set (k := length _) in *. rewrite Ht. clearbody k. unfold binary_search_object_id. destruct l as [|a l'] eqn:El; [by rewrite take_nil|].
  rewrite <- El in *. rewrite (binary_search_by_spec _ l k) by done. cbv beta iota.
  assert (0 < length l)%nat by (rewrite El; cbn; lia).
  destruct k as [|k]; [by destruct (l !! pred 0)|]. cbn [pred Nat.ltb Nat.leb].
  destruct (lookup_lt_is_Some_2 l k) as [x Hx]; [lia|]. rewrite Hx, (take_S_r _ _ _ Hx), last_snoc.
  assert (l !! Nat.min k (pred (length l)) = Some x) as Hm by (by replace (Nat.min k (pred (length l))) with k by lia).
  destruct (compare_start off x); by rewrite Hm.
Qed.

(** The lookup agrees with its specification: the binary search over the sorted ranges
    of a stream finds the object of the last range that starts at or before the offset,
    and nothing when there is none. *)
Theorem range_index_search_exact c stream off :
  cache_ok c →
  search_object_id stream off c
  = Some (ri_object_id <$> last (filter (λ r, ri_start_offset r ≤ off) (ranges_of (streams_of c) stream))).
Proof.
  intros [Hs _ _]. unfold search_object_id, ranges_of. destruct (streams_of c !! stream) as [sp|] eqn:E; [|done].
  apply binary_search_exact. by eapply so_sorted, sk_streams.
Qed.

(** ** Persisting *)

Record range_fits (r : RangeIndex) : Prop := {
  rf_start : is_u64 (ri_start_offset r);
  rf_end : is_u64 (ri_end_offset r);
  rf_id : is_u64 (ri_object_id r);
}.

Lemma length_put_range r : length (put_range r) = 24%nat.
Proof. unfold put_range. by rewrite !length_app, !length_be. Qed.

Lemma length_put_ranges rs : length (rs ≫= put_range) = (length rs * 24)%nat.
Proof.
  induction rs as [|r rs IH]; [done|]. rewrite bind_cons, length_app, length_put_range, IH. cbn [length]. lia.
Qed.

Lemma get_range_put r rest : range_fits r → get_range (put_range r ++ rest) = r.
Proof.
  intros [H1 H2 H3]. destruct r as [a b i]. unfold get_range, put_range. cbn [ri_start_offset ri_end_offset ri_object_id] in *.
  rewrite <- !app_assoc. read_fields. by rewrite !u64_small.
Qed.

Lemma get_ranges_put rs rest : Forall range_fits rs → get_ranges (length rs) ((rs ≫= put_range) ++ rest) = rs.
Proof.
  induction 1 as [|r rs Hr _ IH]; [done|]. cbn [length get_ranges]. rewrite bind_cons, <- app_assoc, get_range_put by done.
  rewrite drop_app_length' by (by rewrite length_put_range). by rewrite IH.
Qed.

(** A stream entry that survives the casts. *)
Record entry_fits (p : Z * SparseRangeIndex) : Prop := {
  ef_id : is_u64 p.1;
  ef_ranges : Forall range_fits (sp_ranges p.2);
  ef_len : len (sp_ranges p.2) < 2 ^ 31;
}.

Abbreviation insert_lists := (foldl (λ (m : gmap Z (list RangeIndex)) (p : Z * SparseRangeIndex), <[p.1 := sp_ranges p.2]> m)).

Lemma read_streams_put es acc :
  Forall entry_fits es → Forall (λ p, sp_ranges p.2 ≠ []) es → NoDup es.*1 → Forall (λ p, acc !! p.1 = None) es →
  read_streams (length es) (es ≫= put_stream) acc = Ok (insert_lists acc es).
Proof.
  intros Hfit. revert acc; induction Hfit as [|[id sp] es [Hid Hrs Hlen] Hes IH]; intros acc Hne Hnd Hacc; [done|].
  apply Forall_cons in Hne as [Hn Hne]. apply Forall_cons in Hacc as [Ha Hacc]. cbn [fst snd fmap list_fmap] in *.
  apply NoDup_cons in Hnd as [Hnot Hnd].
  assert (put_stream (id, sp) = be 8 id ++ be 4 (len (sp_ranges sp)) ++ (sp_ranges sp ≫= put_range)) as Ep.
  { unfold put_stream. cbn [fst snd]. by destruct (sp_ranges sp). }
  rewrite bind_cons, Ep, <- !app_assoc. cbn [length read_streams].
  assert (drop 12 (be 8 id ++ be 4 (len (sp_ranges sp)) ++ (sp_ranges sp ≫= put_range) ++ (es ≫= put_stream))
    = (sp_ranges sp ≫= put_range) ++ (es ≫= put_stream)) as Ed.
  { rewrite app_assoc. apply drop_app_length'. by rewrite length_app, !length_be. }
  rewrite Ed. read_fields. rewrite i32_u32, i32_small by int_lia. rewrite (u64_small id) by done.
  rewrite (u64_small (len (sp_ranges sp))) by int_lia. rewrite u64_small by int_lia.
  rewrite !length_app, !length_be, length_put_ranges. if_false. if_false. rewrite Nat2Z.id.
  rewrite drop_app_length' by (by rewrite length_put_ranges). rewrite get_ranges_put, Ha by done. cbn [default app].
  cbn [foldl fst snd]. apply IH; [done|done|]. eapply Forall_impl; [apply Forall_and; split; [exact Hacc|]|].
  - apply Forall_forall. intros p Hp. instantiate (1 := λ p, p.1 ≠ id). cbn. intros E. apply Hnot. rewrite <- E.
    apply list_elem_of_fmap. by exists p.
  - intros p [H1 H2]. by rewrite lookup_insert_ne by done.
Qed.

Lemma foldl_insert_in {V W} (g : V → W) (es : list (Z * V)) (acc : gmap Z W) id v :
  NoDup es.*1 → (id, v) ∈ es → foldl (λ m p, <[p.1 := g p.2]> m) acc es !! id = Some (g v).
Proof.
  revert acc; induction es as [|[k w] es IH]; intros acc Hnd Hin; [by apply not_elem_of_nil in Hin|].
  apply NoDup_cons in Hnd as [Hnot Hnd]. apply elem_of_cons in Hin as [[= -> ->]|Hin]; [|by apply IH].
  cbn [foldl fst snd]. clear IH. cut ((<[k := g w]> acc : gmap Z W) !! k = Some (g w)); [|apply lookup_insert_eq].
  generalize (<[k := g w]> acc : gmap Z W) as m. induction es as [|[k' w'] es IH]; intros m Hm; [done|]. cbn [foldl fst snd].
  cbn in Hnot, Hnd. apply not_elem_of_cons in Hnot as [? ?]. apply NoDup_cons in Hnd as [_ ?]. apply IH; [done|done|].
  by rewrite lookup_insert_ne.
Qed.

Lemma foldl_insert_out {V W} (g : V → W) (es : list (Z * V)) (acc : gmap Z W) id :
  id ∉ es.*1 → foldl (λ m p, <[p.1 := g p.2]> m) acc es !! id = acc !! id.
Proof.
  revert acc; induction es as [|[k w] es IH]; intros acc Hn; [done|]. cbn in *. apply not_elem_of_cons in Hn as [? ?].
  by rewrite IH, lookup_insert_ne.
Qed.

Lemma keys_filter (P : Z * SparseRangeIndex → Prop) `{∀ p, Decision (P p)} (es : list (Z * SparseRangeIndex)) :
  NoDup es.*1 → NoDup (filter P es).*1.
Proof.
  induction es as [|p es IH]; intros Hnd; [done|]. rewrite filter_cons. apply NoDup_cons in Hnd as [Hnot Hnd].
  destruct (decide (P p)); [|by apply IH]. cbn. apply NoDup_cons. split; [|by apply IH].
  intros (q & E & [_ Hq]%list_elem_of_filter)%list_elem_of_fmap. apply Hnot. rewrite E. apply list_elem_of_fmap. by exists q.
Qed.

Lemma put_streams_filter es :
  es ≫= put_stream = filter (λ p : Z * SparseRangeIndex, sp_ranges p.2 ≠ []) es ≫= put_stream.
Proof.
  induction es as [|p es IH]; [done|]. rewrite bind_cons, filter_cons. case_decide as Hd; rewrite ?bind_cons, IH; [done|].
  assert (put_stream p = []) as ->; [|done]. unfold put_stream. by rewrite Hd.
Qed.

Abbreviation non_empty := (filter (λ p : Z * SparseRangeIndex, sp_ranges p.2 ≠ [])).

Lemma from_to_buffer m :
  Forall entry_fits (entries m) → len (keys m) < 2 ^ 31 →
  from_buffer (to_buffer m) = Ok (insert_lists ∅ (non_empty (entries m))).
Proof.
  intros Hf Hl. unfold to_buffer, from_buffer. rewrite put_streams_filter.
  set (es := non_empty (entries m)).
  assert (len es < 2 ^ 31) as Hle.
  { unfold es. pose proof (sublist_length _ _ (filter_sublist (λ p : Z * SparseRangeIndex, sp_ranges p.2 ≠ []) (entries m))).
    unfold keys in Hl. rewrite length_fmap in Hl. lia. }
  rewrite !length_app, !length_be. if_false. read_fields. rewrite i16_u16, i32_u32, i32_small by int_lia.
  change (negb (i16 VERSION =? VERSION)) with false. cbv iota. rewrite Nat2Z.id.
  rewrite app_assoc, drop_app_length' by (by rewrite length_app, !length_be).
  apply read_streams_put.
  - apply Forall_forall. intros p [_ Hp]%list_elem_of_filter. rewrite Forall_forall in Hf. by apply Hf.
  - apply Forall_forall. by intros p [Hp _]%list_elem_of_filter.
  - apply keys_filter, NoDup_keys.
  - apply Forall_forall. intros p _. apply lookup_empty.
Qed.

Section Reload.
Context (cn : Z).

Lemma load_all_streams es st :
  st_streams (foldl (load_one cn) st es) = foldl (λ m p, <[p.1 := with_ranges cn p.2]> m) (st_streams st) es.
Proof. revert st; induction es as [|p es IH]; intros st; [done|]. cbn [foldl]. by rewrite IH. Qed.

Lemma load_all_total es st :
  NoDup es.*1 → Forall (λ p, st_streams st !! p.1 = None) es →
  st_total_size st = u64 (OBJECT_SIZE * Z.of_nat (weight (st_streams st))) →
  st_total_size (foldl (load_one cn) st es) = u64 (OBJECT_SIZE * Z.of_nat (weight (st_streams (foldl (load_one cn) st es)))).
Proof.
  revert st; induction es as [|[id rs] es IH]; intros st Hnd Hn Ht; [done|]. cbn [foldl].
  apply NoDup_cons in Hnd as [Hnot Hnd]. apply Forall_cons in Hn as [Hid Hn]. cbn [fst snd] in *. apply IH; [done| |].
  - apply Forall_forall. intros p Hp. rewrite Forall_forall in Hn. cbn. rewrite lookup_insert_ne; [by apply Hn|].
    intros ->. apply Hnot. apply list_elem_of_fmap. by exists p.
  - cbn [load_one st_total_size st_streams fst snd]. rewrite weight_insert, Ht. rewrite delete_id by done. cbn [with_ranges sp_ranges].
    size_lia.
Qed.
End Reload.

Lemma weight_nil m : (∀ id, ranges_of m id = []) → weight m = 0%nat.
Proof.
  induction m as [|i x m Hi IH] using map_ind; intros H; [apply weight_empty|].
  rewrite weight_insert, delete_id by done. pose proof (H i) as Hx. unfold ranges_of in Hx. rewrite lookup_insert_eq in Hx.
  rewrite Hx, IH; [done|]. intros id. specialize (H id). unfold ranges_of in *. destruct (decide (id = i)) as [->|Hne]; [by rewrite Hi|].
  by rewrite lookup_insert_ne in H.
Qed.

Lemma weight_ext m m' : (∀ id, ranges_of m id = ranges_of m' id) → weight m = weight m'.
Proof.
  revert m'; induction m as [|i x m Hi IH] using map_ind; intros m' H.
  - rewrite weight_empty. symmetry. apply weight_nil. intros id. by rewrite <- H.
  - rewrite weight_insert, delete_id, (weight_ranges m' i), <- (H i) by done. f_equal.
    + unfold ranges_of. by rewrite lookup_insert_eq.
    + apply IH. intros id. specialize (H id). unfold ranges_of in *. destruct (decide (id = i)) as [->|Hne].
      * by rewrite Hi, lookup_delete_eq.
      * by rewrite lookup_insert_ne, lookup_delete_ne in * by done.
Qed.

Abbreviation load_lists cn := (foldl (λ (m : gmap Z SparseRangeIndex) (p : Z * list RangeIndex), <[p.1 := with_ranges cn p.2]> m) ∅).

(** The streams a restart loads: the non-empty lists, with fresh eviction cursors. *)
Lemma loaded_lookup cn m id :
  load_lists cn (entries (insert_lists ∅ (non_empty (entries m)))) !! id
  = match m !! id with
    | Some sp => if bool_decide (sp_ranges sp = []) then None else Some (with_ranges cn (sp_ranges sp))
    | None => None
    end.
Proof.
  set (m1 := insert_lists ∅ (non_empty (entries m))).
  assert (NoDup (non_empty (entries m)).*1) as Hnd by apply keys_filter, NoDup_keys.
  assert (∀ sp, m !! id = Some sp → sp_ranges sp ≠ [] → m1 !! id = Some (sp_ranges sp)) as Hin.
  { intros sp Hsp Hne. unfold m1. rewrite (foldl_insert_in sp_ranges _ _ id sp Hnd); [done|].
    apply list_elem_of_filter. split; [done|]. by apply elem_of_entries. }
  assert ((∀ sp, m !! id = Some sp → sp_ranges sp = []) → m1 !! id = None) as Hout.
  { intros Hno. unfold m1. rewrite (foldl_insert_out sp_ranges); [apply lookup_empty|].
    intros ([k sp] & -> & [Hne Hp%elem_of_entries]%list_elem_of_filter)%list_elem_of_fmap. by apply Hne, Hno. }
  assert (∀ rs, m1 !! id = Some rs →
    load_lists cn (entries m1) !! id = Some (with_ranges cn rs)) as Hm1.
  { intros rs Hrs. rewrite (foldl_insert_in (with_ranges cn) _ _ id rs); [done|apply NoDup_keys|by apply elem_of_entries]. }
  assert (m1 !! id = None → load_lists cn (entries m1) !! id = None) as Hm0.
  { intros Hno. rewrite (foldl_insert_out (with_ranges cn)); [apply lookup_empty|].
    change (id ∉ keys m1). rewrite elem_of_keys, Hno. by intros [? ?]. }
  clearbody m1. destruct (m !! id) as [sp|]; [|apply Hm0, Hout; done].
  case_bool_decide as Hd; [apply Hm0, Hout; by intros ? [= <-]|]. by apply Hm1, Hin.
Qed.

Section Restart.
Context {S : Type} `{!ObjectStorage S} `{!ObjectStorageLaws S}.

(** The index survives a restart.  Reading back the object a flush wrote gives the same
    ranges for every stream, the same size, and the same answer to every lookup; only
    the eviction cursors start over. *)
Theorem range_index_persist_roundtrip now c (s : S) :
  cache_ok c → streams_of c ≠ ∅ → Forall entry_fits (entries (streams_of c)) → len (keys (streams_of c)) < 2 ^ 31 →
  let c' := init (ic_node_id c) (ic_compact_num c) (ic_max_index_size c) (upload now c s) in
  cache_ok c' ∧ st_total_size (ic_state c') = st_total_size (ic_state c)
  ∧ (∀ id, ranges_of (streams_of c') id = ranges_of (streams_of c) id)
  ∧ ∀ id off, search_object_id id off c' = search_object_id id off c.
Proof.
  intros [Hs Hn Hx] Hne Hfit Hl. cbv zeta. unfold init, upload. rewrite bool_decide_eq_false_2 by done.
  rewrite os_read_write, from_to_buffer by done. cbv beta iota zeta. set (m := streams_of c) in *.
  set (st' := foldl (load_one (ic_compact_num c)) _ _).
  assert (∀ id, st_streams st' !! id = match m !! id with
    | Some sp => if bool_decide (sp_ranges sp = []) then None else Some (with_ranges (ic_compact_num c) (sp_ranges sp))
    | None => None end) as Hlook by (intros id; unfold st'; rewrite load_all_streams; apply loaded_lookup).
  assert (∀ id, ranges_of (st_streams st') id = ranges_of m id) as Hr.
  { intros id. unfold ranges_of. rewrite Hlook. destruct (m !! id) as [sp|]; [|done]. by case_bool_decide. }
  pose proof (weight_ext _ _ Hr) as Ew. pose proof (sk_fits _ _ Hs) as Hf. pose proof (sk_total _ _ Hs) as Ht. fold m in Hf, Ht.
  assert (st_total_size st' = OBJECT_SIZE * Z.of_nat (weight (st_streams st'))) as Ht'.
  { unfold st' at 1. rewrite load_all_total; [fold st'; rewrite Ew; size_lia|apply NoDup_keys| |].
    - apply Forall_forall. intros p _. apply lookup_empty.
    - cbn [st_streams st_total_size]. rewrite weight_empty. done. }
  cbn [ic_state]. split; [|split; [|split]].
  - constructor; [|done|done]. constructor; [|done|cbn; lia]. cbn [ic_state ic_compact_num]. intros id sp'. rewrite Hlook.
    destruct (m !! id) as [sp|] eqn:E; [|done]. case_bool_decide; [done|]. intros [= <-].
    pose proof (sk_streams _ _ Hs _ _ E) as [_ _ Hso _]. pose proof (weight_stream_le _ _ _ E).
    constructor; cbn [with_ranges sp_compact_num sp_size sp_ranges sp_evict_index]; [done|size_lia|done|done].
  - lia.
  - done.
  - intros id off. unfold search_object_id. cbn [ic_state]. fold m. rewrite Hlook. destruct (m !! id) as [sp|]; [|done].
    case_bool_decide as Hd; [by rewrite Hd|done].
Qed.
End Restart.

(** ** Witnesses *)

Definition demo_index : LocalStreamRangeIndexCache :=
  mkIndexCache 7 3 1000 (mkCacheState {[1 := with_ranges 3 [mkRange 0 10 4; mkRange 10 20 5]]} 80) None false.

Lemma demo_index_lookup id sp :
  streams_of demo_index !! id = Some sp → id = 1 ∧ sp = with_ranges 3 [mkRange 0 10 4; mkRange 10 20 5].
Proof. cbn [demo_index ic_state st_streams]. by intros [<- <-]%lookup_singleton_Some. Qed.

Lemma demo_index_ok : cache_ok demo_index.
Proof.
  constructor; [|vm_compute; intuition discriminate|vm_compute; discriminate].
  constructor; [|vm_compute; reflexivity|vm_compute; reflexivity].
  intros id sp [-> ->]%demo_index_lookup. constructor; [done|vm_compute; reflexivity| |done].
  repeat constructor. vm_compute. discriminate.
Qed.

Definition demo_commit : CommitStreamSetObjectRequest :=
  {| cr_object_id := 9; cr_object_size := 0; cr_attributes := 0;
     cr_stream_ranges := [ {| or_stream_id := 1; or_epoch := 0; or_start_offset := 0; or_end_offset := 20; or_size := 0 |} ];
     cr_stream_objects := []; cr_compacted_object_ids := [4; 5] |}.
Definition demo_object (id s e : Z) : S3ObjectMetadata :=
  {| om_object_id := id; om_object_type := StreamSet;
     om_offset_ranges := [ {| sr_stream_id := 1; sr_start_offset := s; sr_end_offset := e |} ];
     om_object_size := 0; om_attributes := 0; om_committed_timestamp_ms := 0; om_data_timestamp_ms := 0 |}.
Definition demo_metadata : MetadataState :=
  mkMeta {[4 := demo_object 4 0 10; 5 := demo_object 5 10 20]} ∅ ∅ 2 ∅ 0 10.

Lemma range_index_tracks_commits_witness :
  ∃ c' s', update_index_from_request 0 demo_commit demo_index (ms_new 0) = Some (c', s') ∧ cache_ok c'
    ∧ index_sound (commit_stream_set_object 0 demo_commit demo_metadata).1 c'.
Proof.
  destruct (range_index_tracks_commits 0 demo_commit demo_index demo_metadata (ms_new 0)) as (c' & s' & E & Hok & Hs & _).
  - apply demo_index_ok.
  - intros id sp x [-> ->]%demo_index_lookup Hx. cbn [with_ranges sp_ranges] in Hx.
    apply elem_of_cons in Hx as [->|Hx]; [exists (demo_object 4 0 10); split; [reflexivity|left]|].
    apply list_elem_of_singleton in Hx as ->. exists (demo_object 5 10 20). split; [reflexivity|left].
  - reflexivity.
  - apply (bool_decide_unpack _). vm_compute. exact I.
  - vm_compute. reflexivity.
  - by exists c', s'.
Defined.

Lemma range_index_search_exact_witness : search_object_id 1 15 demo_index = Some (Some 5).
Proof. rewrite (range_index_search_exact demo_index 1 15 demo_index_ok). vm_compute. reflexivity. Defined.

Lemma range_index_persist_roundtrip_witness :
  search_object_id 1 15 (init 7 3 1000 (upload 0 demo_index (ms_new 0))) = Some (Some 5).
Proof.
  destruct (range_index_persist_roundtrip 0 demo_index (ms_new 0)) as (_ & _ & _ & H).
  - apply demo_index_ok.
  - intros E. apply (f_equal (λ m : gmap Z SparseRangeIndex, m !! 1)) in E. discriminate E.
  - assert (entries (streams_of demo_index) = [(1, with_ranges 3 [mkRange 0 10 4; mkRange 10 20 5])]) as -> by (vm_compute; reflexivity).
    apply Forall_singleton. constructor; [vm_compute; intuition discriminate| |vm_compute; reflexivity].
    repeat constructor; vm_compute; intuition discriminate.
  - vm_compute. reflexivity.
  - etrans; [exact (H 1 15)|]. vm_compute. reflexivity.
Defined.
