(* ===== verification/Stream.v ===== *)
(** * The stream facade

    Models [s3stream-core/src/stream.rs]: the offsets, status marks and guards of one
    stream over [Storage] and [StreamManager].

    The methods are given as the atomic steps between their suspension points, and
    [exec] interleaves the steps of any number of concurrent calls.  The answers of the
    storage and of the metadata plane, and the expiry of the fetch wait, are inputs of
    the events; the calls made to them are recorded.  [exec] is [None] for an event that
    cannot happen, such as passing a wait that is not over. *)
From S2P Require Import Prelude Collections Codec WalFormat ObjectStore Metadata LogCache LogCacheProofs StorageRecovery Storage StorageSafety CrashSafety.

Definition CLOSED_MARK : Z := 1.
Definition FENCED_MARK : Z := Z.shiftl 1 1.
Definition DESTROY_MARK : Z := Z.shiftl 1 2.
Definition SNAPSHOT_FAKE_OFFSET : Z := U64_MAX.

(** The fields of [RecordBatch] the engine looks at. *)
Record RecordBatch : Type := mkRecordBatch { rb_count : Z; rb_payload : bytes }.

(** [InflightTracker]: the number of guards alive. *)
Abbreviation InflightTracker := Z (only parsing).
Definition begin_ (t : InflightTracker) : InflightTracker := u64 (t + 1).
Definition drop_guard (t : InflightTracker) : InflightTracker := u64 (t - 1).
Definition idle (t : InflightTracker) : bool := t =? 0.

Record S3Stream : Type := mkS3Stream {
  ss_stream_id : Z;
  ss_epoch : Z;
  ss_start_offset : Z;
  ss_next_offset : Z;
  ss_confirm_offset : Z;
  ss_status : Z;
  ss_pending_appends : InflightTracker;
  ss_pending_fetches : InflightTracker;
  ss_close_result : option (result StreamError unit);
  ss_snapshot_read : bool;
  ss_listener_handle : option Z;
}.

Definition stream_new (stream_id epoch start_offset next_offset : Z) (snapshot_read : bool) : S3Stream :=
  mkS3Stream stream_id epoch start_offset next_offset next_offset 0 0 0 None snapshot_read None.

Section Setters.
Context (s : S3Stream).
Definition set_start (v : Z) : S3Stream :=
  mkS3Stream (ss_stream_id s) (ss_epoch s) v (ss_next_offset s) (ss_confirm_offset s) (ss_status s) (ss_pending_appends s)
    (ss_pending_fetches s) (ss_close_result s) (ss_snapshot_read s) (ss_listener_handle s).
Definition set_next (v : Z) : S3Stream :=
  mkS3Stream (ss_stream_id s) (ss_epoch s) (ss_start_offset s) v (ss_confirm_offset s) (ss_status s) (ss_pending_appends s)
    (ss_pending_fetches s) (ss_close_result s) (ss_snapshot_read s) (ss_listener_handle s).
Definition set_confirm (v : Z) : S3Stream :=
  mkS3Stream (ss_stream_id s) (ss_epoch s) (ss_start_offset s) (ss_next_offset s) v (ss_status s) (ss_pending_appends s)
    (ss_pending_fetches s) (ss_close_result s) (ss_snapshot_read s) (ss_listener_handle s).
Definition set_status (v : Z) : S3Stream :=
  mkS3Stream (ss_stream_id s) (ss_epoch s) (ss_start_offset s) (ss_next_offset s) (ss_confirm_offset s) v (ss_pending_appends s)
    (ss_pending_fetches s) (ss_close_result s) (ss_snapshot_read s) (ss_listener_handle s).
Definition set_pending_appends (v : Z) : S3Stream :=
  mkS3Stream (ss_stream_id s) (ss_epoch s) (ss_start_offset s) (ss_next_offset s) (ss_confirm_offset s) (ss_status s) v
    (ss_pending_fetches s) (ss_close_result s) (ss_snapshot_read s) (ss_listener_handle s).
Definition set_pending_fetches (v : Z) : S3Stream :=
  mkS3Stream (ss_stream_id s) (ss_epoch s) (ss_start_offset s) (ss_next_offset s) (ss_confirm_offset s) (ss_status s)
    (ss_pending_appends s) v (ss_close_result s) (ss_snapshot_read s) (ss_listener_handle s).
Definition set_close_result (v : option (result StreamError unit)) : S3Stream :=
  mkS3Stream (ss_stream_id s) (ss_epoch s) (ss_start_offset s) (ss_next_offset s) (ss_confirm_offset s) (ss_status s)
    (ss_pending_appends s) (ss_pending_fetches s) v (ss_snapshot_read s) (ss_listener_handle s).
Definition set_listener (v : option Z) : S3Stream :=
  mkS3Stream (ss_stream_id s) (ss_epoch s) (ss_start_offset s) (ss_next_offset s) (ss_confirm_offset s) (ss_status s)
    (ss_pending_appends s) (ss_pending_fetches s) (ss_close_result s) (ss_snapshot_read s) v.
End Setters.

(** The stream [S3StreamClient::open_stream0] builds: a snapshot stream knows nothing yet,
    the others start from what the metadata plane answered. *)
Definition opened_stream (stream_id epoch : Z) (snapshot_read : bool) (metadata : StreamMetadata) : S3Stream :=
  if snapshot_read then stream_new stream_id epoch SNAPSHOT_FAKE_OFFSET SNAPSHOT_FAKE_OFFSET true
  else stream_new stream_id (sm_epoch metadata) (sm_start_offset metadata) (sm_end_offset metadata) false.

Definition attach_metadata_listener (handle : Z) (s : S3Stream) : S3Stream :=
  if negb (ss_snapshot_read s) then s else set_listener s (Some handle).

Definition is_closed (s : S3Stream) : bool := negb (Z.land (ss_status s) CLOSED_MARK =? 0).
Definition is_operable (s : S3Stream) : bool := ss_status s =? 0.
Definition mark (mask : Z) (s : S3Stream) : S3Stream := set_status s (Z.lor (ss_status s) mask).

Definition update_confirm_offset (new_offset : Z) (s : S3Stream) : S3Stream :=
  set_confirm s (Z.max (ss_confirm_offset s) new_offset).

Definition update_snapshot_read_confirm_offset (new_offset : Z) (s : S3Stream) : S3Stream :=
  let s := if i64 (ss_confirm_offset s) <? i64 new_offset then set_confirm s new_offset else s in
  set_next s (ss_confirm_offset s).

(** ** Appending *)

(** Under the append lock: reserve the offsets and submit the record. *)
Definition reserve (batch : RecordBatch) (s : S3Stream) : S3Stream * (Z * Z * StreamRecordBatch) :=
  let count := rb_count batch in
  let offset := ss_next_offset s in
  (set_next s (u64 (offset + count)),
   (offset, count, new (ss_stream_id s) (ss_epoch s) offset (i32 count) (rb_payload batch))).

(** The record is the one passed to [storage.submit]. *)
Definition admit_append (batch : RecordBatch) (s : S3Stream) : S3Stream * result StreamError (Z * Z * StreamRecordBatch) :=
  if negb (is_operable s) then (s, Err (SE_Closed (ss_stream_id s)))
  else let '(s, r) := reserve batch s in (s, Ok r).

Definition complete_append (offset count : Z) (r : result StreamError unit) (s : S3Stream)
  : S3Stream * result StreamError Z :=
  match r with
  | Ok _ => (update_confirm_offset (u64 (offset + count)) s, Ok offset)
  | Err e => (mark FENCED_MARK s, Err e)
  end.

(** [append0] when nothing else runs: [durable] is what the storage answers. *)
Definition append0 (batch : RecordBatch) (durable : result StreamError unit) (s : S3Stream) : S3Stream * result StreamError Z :=
  match admit_append batch s with
  | (s, Err e) => (s, Err e)
  | (s, Ok (offset, count, _)) => complete_append offset count durable s
  end.

(** ** Fetching *)

Record RecordBatchWithContext : Type := {
  rc_stream_id : Z;
  rc_base_offset : Z;
  rc_last_offset : Z;
  rc_count : Z;
  rc_payload : bytes;
}.
Record FetchResult : Type := mkFetchResult { fr_records : list RecordBatchWithContext; fr_cache_access : CacheAccessType }.

(** The checks of [fetch0]: an error, a result without a read, or [Ok None] to go on. *)
Definition fetch_check (start_offset end_offset : Z) (s : S3Stream) : result StreamError (option FetchResult) :=
  if negb (is_operable s) then Err (SE_Closed (ss_stream_id s))
  else
    let confirm_offset := ss_confirm_offset s in
    let stream_start := ss_start_offset s in
    if (i64 start_offset <? i64 stream_start) || (i64 confirm_offset <? i64 end_offset)
    then Err (SE_OffsetOutOfRange (ss_stream_id s) start_offset end_offset stream_start confirm_offset)
    else if end_offset <? start_offset then Err SE_Unexpected
    else if start_offset =? end_offset then Ok (Some (mkFetchResult [] DeltaWalCacheHit))
    else Ok None.

Definition fetched (s : S3Stream) (block : ReadDataBlock) : FetchResult :=
  mkFetchResult
    ((λ r, {| rc_stream_id := ss_stream_id s; rc_base_offset := base_offset r; rc_last_offset := last_offset r;
              rc_count := u32 (count r); rc_payload := payload r |}) <$> rd_records block)
    (rd_cache_access block).

(** [storage.read] is the parameter. *)
Definition fetch0 (read : FetchContext → Z → Z → Z → Z → result StreamError ReadDataBlock) (context : FetchContext)
    (start_offset end_offset max_bytes_hint : Z) (s : S3Stream) : result StreamError FetchResult :=
  match fetch_check start_offset end_offset s with
  | Err e => Err e
  | Ok (Some r) => Ok r
  | Ok None =>
      match read context (ss_stream_id s) start_offset end_offset max_bytes_hint with
      | Err e => Err e
      | Ok block => Ok (fetched s block)
      end
  end.

Definition fetch_context (context : FetchContext) (s : S3Stream) : FetchContext :=
  if ss_snapshot_read s then {| fc_snapshot_read := true; fc_fast_read := fc_fast_read context |} else context.

(** ** Snapshot streams *)

Definition confirm_offset_set (offset : Z) (s : S3Stream) : S3Stream * result StreamError unit :=
  if negb (ss_snapshot_read s) then (s, Err SE_Unexpected)
  else (update_snapshot_read_confirm_offset offset s, Ok tt).

Definition on_new_stream_metadata (metadata : StreamMetadata) (s : S3Stream) : S3Stream :=
  set_start (update_snapshot_read_confirm_offset (sm_end_offset metadata) s) (sm_start_offset metadata).

(** ** Concurrent calls *)

(** Where a call stands. [AWaiting k]: its record is the [k]-th submitted one. *)
Inductive AppendTask : Type :=
| ABegun (batch : RecordBatch)
| AChecked (batch : RecordBatch)
| AWaiting (k : nat) (offset count : Z).

Inductive FetchTask : Type :=
| FBegun (start_offset end_offset : Z)
| FReading (start_offset end_offset : Z).

Inductive TrimTask : Type :=
| TWaiting (new_start_offset : Z)
| TDraining (new_start_offset : Z)
| TCalling (new_start_offset : Z).

Inductive CloseTask : Type :=
| CMarked (force : bool)
| CDrained
| CReady (force : bool)
| CUploading (force : bool)
| CClosing (force : bool).

Record System : Type := mkSystem {
  sy_stream : S3Stream;
  sy_appends : gmap nat AppendTask;
  sy_fetches : gmap nat FetchTask;
  sy_trims : gmap nat TrimTask;
  sy_closes : gmap nat CloseTask;
  sy_trim_lock : option nat;
  sy_close_lock : option nat;
  sy_submitted : list StreamRecordBatch;
  sy_answers : gmap nat (result StreamError unit);
  sy_trim_calls : list Z;
  sy_close_calls : nat;
  sy_delete_calls : nat;
}.

Definition system_new (s : S3Stream) : System := mkSystem s ∅ ∅ ∅ ∅ None None [] ∅ [] 0 0.

Section Updates.
Context (y : System).
Definition with_stream (s : S3Stream) : System :=
  mkSystem s (sy_appends y) (sy_fetches y) (sy_trims y) (sy_closes y) (sy_trim_lock y) (sy_close_lock y) (sy_submitted y)
    (sy_answers y) (sy_trim_calls y) (sy_close_calls y) (sy_delete_calls y).
Definition with_append (t : nat) (a : option AppendTask) : System :=
  mkSystem (sy_stream y) (partial_alter (λ _, a) t (sy_appends y)) (sy_fetches y) (sy_trims y) (sy_closes y) (sy_trim_lock y)
    (sy_close_lock y) (sy_submitted y) (sy_answers y) (sy_trim_calls y) (sy_close_calls y) (sy_delete_calls y).
Definition with_fetch (t : nat) (f : option FetchTask) : System :=
  mkSystem (sy_stream y) (sy_appends y) (partial_alter (λ _, f) t (sy_fetches y)) (sy_trims y) (sy_closes y) (sy_trim_lock y)
    (sy_close_lock y) (sy_submitted y) (sy_answers y) (sy_trim_calls y) (sy_close_calls y) (sy_delete_calls y).
Definition with_trim (t : nat) (r : option TrimTask) (lock : option nat) : System :=
  mkSystem (sy_stream y) (sy_appends y) (sy_fetches y) (partial_alter (λ _, r) t (sy_trims y)) (sy_closes y) lock
    (sy_close_lock y) (sy_submitted y) (sy_answers y) (sy_trim_calls y) (sy_close_calls y) (sy_delete_calls y).
Definition with_close (t : nat) (c : option CloseTask) (lock : option nat) : System :=
  mkSystem (sy_stream y) (sy_appends y) (sy_fetches y) (sy_trims y) (partial_alter (λ _, c) t (sy_closes y)) (sy_trim_lock y)
    lock (sy_submitted y) (sy_answers y) (sy_trim_calls y) (sy_close_calls y) (sy_delete_calls y).
Definition with_submitted (r : StreamRecordBatch) : System :=
  mkSystem (sy_stream y) (sy_appends y) (sy_fetches y) (sy_trims y) (sy_closes y) (sy_trim_lock y) (sy_close_lock y)
    (sy_submitted y ++ [r]) (sy_answers y) (sy_trim_calls y) (sy_close_calls y) (sy_delete_calls y).
Definition with_answer (k : nat) (r : result StreamError unit) : System :=
  mkSystem (sy_stream y) (sy_appends y) (sy_fetches y) (sy_trims y) (sy_closes y) (sy_trim_lock y) (sy_close_lock y)
    (sy_submitted y) (<[k := r]> (sy_answers y)) (sy_trim_calls y) (sy_close_calls y) (sy_delete_calls y).
Definition with_trim_call (o : Z) : System :=
  mkSystem (sy_stream y) (sy_appends y) (sy_fetches y) (sy_trims y) (sy_closes y) (sy_trim_lock y) (sy_close_lock y)
    (sy_submitted y) (sy_answers y) (sy_trim_calls y ++ [o]) (sy_close_calls y) (sy_delete_calls y).
Definition with_close_call : System :=
  mkSystem (sy_stream y) (sy_appends y) (sy_fetches y) (sy_trims y) (sy_closes y) (sy_trim_lock y) (sy_close_lock y)
    (sy_submitted y) (sy_answers y) (sy_trim_calls y) (S (sy_close_calls y)) (sy_delete_calls y).
Definition with_delete_call : System :=
  mkSystem (sy_stream y) (sy_appends y) (sy_fetches y) (sy_trims y) (sy_closes y) (sy_trim_lock y) (sy_close_lock y)
    (sy_submitted y) (sy_answers y) (sy_trim_calls y) (sy_close_calls y) (S (sy_delete_calls y)).
End Updates.

(** [append] and [submit_append]: the guard, the check, the submit, and the completion once the storage has answered. *)
Definition append_begin (t : nat) (batch : RecordBatch) (y : System) : System :=
  if ss_snapshot_read (sy_stream y) then y
  else
    with_append (with_stream y (set_pending_appends (sy_stream y) (begin_ (ss_pending_appends (sy_stream y))))) t
      (Some (ABegun batch)).

Definition append_end (t : nat) (s : S3Stream) (y : System) : System :=
  with_append (with_stream y (set_pending_appends s (drop_guard (ss_pending_appends s)))) t None.

Definition append_step (t : nat) (y : System) : option System :=
  let* a := sy_appends y !! t in
  match a with
  | ABegun batch =>
      Some (if is_operable (sy_stream y) then with_append y t (Some (AChecked batch)) else append_end t (sy_stream y) y)
  | AChecked batch =>
      let '(s, (offset, count, record)) := reserve batch (sy_stream y) in
      Some (with_append (with_submitted (with_stream y s) record) t (Some (AWaiting (length (sy_submitted y)) offset count)))
  | AWaiting k offset count =>
      let* r := sy_answers y !! k in
      Some (append_end t (complete_append offset count r (sy_stream y)).1 y)
  end.

(** The storage resolves the future of its [k]-th submitted record. *)
Definition storage_answers (k : nat) (r : result StreamError unit) (y : System) : option System :=
  if bool_decide (k < length (sy_submitted y))%nat && bool_decide (sy_answers y !! k = None)
  then Some (with_answer y k r) else None.

Definition fetch_begin (t : nat) (start_offset end_offset : Z) (y : System) : System :=
  with_fetch (with_stream y (set_pending_fetches (sy_stream y) (begin_ (ss_pending_fetches (sy_stream y))))) t
    (Some (FBegun start_offset end_offset)).

Definition fetch_end (t : nat) (y : System) : System :=
  with_fetch (with_stream y (set_pending_fetches (sy_stream y) (drop_guard (ss_pending_fetches (sy_stream y))))) t None.

Definition fetch_step (t : nat) (y : System) : option System :=
  let* f := sy_fetches y !! t in
  match f with
  | FBegun start_offset end_offset =>
      match fetch_check start_offset end_offset (sy_stream y) with
      | Ok None => Some (with_fetch y t (Some (FReading start_offset end_offset)))
      | _ => Some (fetch_end t y)
      end
  | FReading _ _ => Some (fetch_end t y)
  end.

Definition trim_begin (t : nat) (new_start_offset : Z) (y : System) : System :=
  if ss_snapshot_read (sy_stream y) then y else with_trim y t (Some (TWaiting new_start_offset)) (sy_trim_lock y).

Definition trim_step (t : nat) (y : System) : option System :=
  let* r := sy_trims y !! t in
  match r with
  | TWaiting new_start_offset =>
      match sy_trim_lock y with
      | Some _ => None
      | None =>
          Some (if new_start_offset <? ss_start_offset (sy_stream y) then with_trim y t None None
                else with_trim (with_stream y (set_start (sy_stream y) new_start_offset)) t
                       (Some (TDraining new_start_offset)) (Some t))
      end
  | TDraining new_start_offset =>
      if idle (ss_pending_fetches (sy_stream y))
      then Some (with_trim (with_trim_call y new_start_offset) t (Some (TCalling new_start_offset)) (sy_trim_lock y))
      else None
  | TCalling _ => Some (with_trim y t None None)
  end.

(** [close_with]; a snapshot stream only drops its listener. *)
Definition close_begin (t : nat) (force : bool) (y : System) : System :=
  if ss_snapshot_read (sy_stream y) then with_stream y (set_listener (sy_stream y) None)
  else with_close (with_stream y (mark CLOSED_MARK (sy_stream y))) t (Some (CMarked force)) (sy_close_lock y).

(** The outcome is remembered and the lock released. *)
Definition close_end (t : nat) (r : result StreamError unit) (y : System) : System :=
  with_close (with_stream y (set_close_result (sy_stream y) (Some r))) t None None.

(** [expired]: the fetch wait ran into its timeout; [r]: the answer awaited in this step. *)
Definition close_step (t : nat) (expired : bool) (r : result StreamError unit) (y : System) : option System :=
  let* c := sy_closes y !! t in
  match c with
  | CMarked true => Some (with_close y t (Some (CReady true)) (sy_close_lock y))
  | CMarked false =>
      if idle (ss_pending_appends (sy_stream y)) then Some (with_close y t (Some CDrained) (sy_close_lock y)) else None
  | CDrained =>
      if expired || idle (ss_pending_fetches (sy_stream y))
      then Some (with_close y t (Some (CReady false)) (sy_close_lock y)) else None
  | CReady force =>
      match sy_close_lock y with
      | Some _ => None
      | None =>
          Some (match ss_close_result (sy_stream y) with
                | Some _ => with_close y t None None
                | None => with_close y t (Some (CUploading force)) (Some t)
                end)
      end
  | CUploading force =>
      Some (match r with
            | Err _ => close_end t r y
            | Ok _ => with_close (with_close_call y) t (Some (CClosing force)) (sy_close_lock y)
            end)
  | CClosing _ => Some (close_end t r y)
  end.

(** The end of [destroy], after its close succeeded. *)
Definition destroy_end (y : System) : option System :=
  if ss_snapshot_read (sy_stream y) then None
  else
    match ss_close_result (sy_stream y) with
    | Some (Ok _) =>
        let s := mark DESTROY_MARK (sy_stream y) in
        Some (with_delete_call (with_stream y (set_start s (ss_confirm_offset s))))
    | _ => None
    end.

Inductive Event : Type :=
| EAppend (t : nat) (batch : RecordBatch)
| EAppendStep (t : nat)
| EAnswer (k : nat) (r : result StreamError unit)
| EFetch (t : nat) (start_offset end_offset : Z)
| EFetchStep (t : nat)
| ETrim (t : nat) (new_start_offset : Z)
| ETrimStep (t : nat)
| EClose (t : nat) (force : bool)
| ECloseStep (t : nat) (expired : bool) (r : result StreamError unit)
| EDestroyEnd
| EMetadata (metadata : StreamMetadata)
| EConfirmSet (offset : Z).

(** A new call has a name of its own; listeners exist on snapshot streams only. *)
Definition exec (e : Event) (y : System) : option System :=
  match e with
  | EAppend t batch => if bool_decide (sy_appends y !! t = None) then Some (append_begin t batch y) else None
  | EAppendStep t => append_step t y
  | EAnswer k r => storage_answers k r y
  | EFetch t s e => if bool_decide (sy_fetches y !! t = None) then Some (fetch_begin t s e y) else None
  | EFetchStep t => fetch_step t y
  | ETrim t o => if bool_decide (sy_trims y !! t = None) then Some (trim_begin t o y) else None
  | ETrimStep t => trim_step t y
  | EClose t force => if bool_decide (sy_closes y !! t = None) then Some (close_begin t force y) else None
  | ECloseStep t expired r => close_step t expired r y
  | EDestroyEnd => destroy_end y
  | EMetadata m =>
      if ss_snapshot_read (sy_stream y) then Some (with_stream y (on_new_stream_metadata m (sy_stream y))) else None
  | EConfirmSet o => Some (with_stream y (confirm_offset_set o (sy_stream y)).1)
  end.

Fixpoint exec_all (es : list Event) (y : System) : option System :=
  match es with
  | [] => Some y
  | e :: rest => let* y := exec e y in exec_all rest y
  end.

(** ** The steps of a read-write stream *)

(** What the argument types promise, batches of at least one and less than [2^31] records,
    and trim offsets that are offsets (fetch bounds compare as [i64]). *)
Definition event_ok (e : Event) : Prop :=
  match e with
  | EAppend _ batch => 0 < rb_count batch < 2 ^ 31
  | EFetch _ s e => is_u64 s ∧ is_u64 e
  | ETrim _ o => 0 ≤ o < 2 ^ 63
  | _ => True
  end.

Inductive step (y : System) : System → Prop :=
| step_append_begin t batch :
    sy_appends y !! t = None → 0 < rb_count batch < 2 ^ 31 →
    step y (with_append (with_stream y (set_pending_appends (sy_stream y) (begin_ (ss_pending_appends (sy_stream y))))) t (Some (ABegun batch)))
| step_append_checked t batch :
    sy_appends y !! t = Some (ABegun batch) → ss_status (sy_stream y) = 0 →
    step y (with_append y t (Some (AChecked batch)))
| step_append_refused t batch :
    sy_appends y !! t = Some (ABegun batch) → ss_status (sy_stream y) ≠ 0 → step y (append_end t (sy_stream y) y)
| step_append_submit t batch :
    sy_appends y !! t = Some (AChecked batch) →
    step y (with_append
              (with_submitted (with_stream y (set_next (sy_stream y) (u64 (ss_next_offset (sy_stream y) + rb_count batch))))
                 (new (ss_stream_id (sy_stream y)) (ss_epoch (sy_stream y)) (ss_next_offset (sy_stream y)) (i32 (rb_count batch)) (rb_payload batch)))
              t (Some (AWaiting (length (sy_submitted y)) (ss_next_offset (sy_stream y)) (rb_count batch))))
| step_append_done t k offset count r :
    sy_appends y !! t = Some (AWaiting k offset count) → sy_answers y !! k = Some r →
    step y (append_end t (complete_append offset count r (sy_stream y)).1 y)
| step_answer k r :
    (k < length (sy_submitted y))%nat → sy_answers y !! k = None → step y (with_answer y k r)
| step_fetch_begin t s e : sy_fetches y !! t = None → is_u64 s → step y (fetch_begin t s e y)
| step_fetch_checked t s e :
    sy_fetches y !! t = Some (FBegun s e) → ss_status (sy_stream y) = 0 → i64 (ss_start_offset (sy_stream y)) ≤ i64 s →
    i64 e ≤ i64 (ss_confirm_offset (sy_stream y)) → s < e → step y (with_fetch y t (Some (FReading s e)))
| step_fetch_end t f : sy_fetches y !! t = Some f → step y (fetch_end t y)
| step_trim_begin t o : sy_trims y !! t = None → 0 ≤ o < 2 ^ 63 → step y (with_trim y t (Some (TWaiting o)) (sy_trim_lock y))
| step_trim_late t o : sy_trims y !! t = Some (TWaiting o) → step y (with_trim y t None None)
| step_trim_store t o :
    sy_trims y !! t = Some (TWaiting o) → ss_start_offset (sy_stream y) ≤ o →
    step y (with_trim (with_stream y (set_start (sy_stream y) o)) t (Some (TDraining o)) (Some t))
| step_trim_call t o :
    sy_trims y !! t = Some (TDraining o) → ss_pending_fetches (sy_stream y) = 0 →
    step y (with_trim (with_trim_call y o) t (Some (TCalling o)) (sy_trim_lock y))
| step_trim_done t o : sy_trims y !! t = Some (TCalling o) → step y (with_trim y t None None)
| step_close_begin t force :
    sy_closes y !! t = None →
    step y (with_close (with_stream y (mark CLOSED_MARK (sy_stream y))) t (Some (CMarked force)) (sy_close_lock y))
| step_close_forced t : sy_closes y !! t = Some (CMarked true) → step y (with_close y t (Some (CReady true)) (sy_close_lock y))
| step_close_drained t :
    sy_closes y !! t = Some (CMarked false) → ss_pending_appends (sy_stream y) = 0 →
    step y (with_close y t (Some CDrained) (sy_close_lock y))
| step_close_ready t : sy_closes y !! t = Some CDrained → step y (with_close y t (Some (CReady false)) (sy_close_lock y))
| step_close_again t force :
    sy_closes y !! t = Some (CReady force) → sy_close_lock y = None → is_Some (ss_close_result (sy_stream y)) →
    step y (with_close y t None None)
| step_close_upload t force :
    sy_closes y !! t = Some (CReady force) → sy_close_lock y = None → ss_close_result (sy_stream y) = None →
    step y (with_close y t (Some (CUploading force)) (Some t))
| step_close_upload_failed t force r :
    sy_closes y !! t = Some (CUploading force) → step y (close_end t r y)
| step_close_uploaded t force :
    sy_closes y !! t = Some (CUploading force) →
    step y (with_close (with_close_call y) t (Some (CClosing force)) (sy_close_lock y))
| step_close_done t force r : sy_closes y !! t = Some (CClosing force) → step y (close_end t r y)
| step_destroy u :
    ss_close_result (sy_stream y) = Some (Ok u) →
    step y (with_delete_call (with_stream y (set_start (mark DESTROY_MARK (sy_stream y)) (ss_confirm_offset (sy_stream y)))))
| step_none : step y y.

Lemma exec_step e y y' :
  event_ok e → ss_snapshot_read (sy_stream y) = false → exec e y = Some y' → step y y'.
Proof.
  intros Hok Hsn. destruct e as [t batch|t|k r|t s e|t|t o|t|t force|t expired r| |m|o]; cbn [exec event_ok] in *.
  - case_bool_decide as Ht; [|done]. intros [= <-]. unfold append_begin. rewrite Hsn. by constructor.
  - unfold append_step. destruct (sy_appends y !! t) as [[batch|batch|k o c]|] eqn:Et; [..|done].
    + intros [= <-]. unfold is_operable. destruct (_ =? 0) eqn:E; [by econstructor; [|lia]|by eapply step_append_refused; [|lia]].
    + intros [= <-]. by eapply step_append_submit.
    + destruct (sy_answers y !! k) as [r|] eqn:Er; [|done]. intros [= <-]. by eapply step_append_done.
  - unfold storage_answers. case_bool_decide; [|done]. case_bool_decide; [|done]. intros [= <-]. by constructor.
  - case_bool_decide as Ht; [|done]. intros [= <-]. destruct Hok. by constructor.
  - unfold fetch_step. destruct (sy_fetches y !! t) as [[s e|s e]|] eqn:Et; [|intros [= <-]; by eapply step_fetch_end|done].
    unfold fetch_check, is_operable. destruct (_ =? 0) eqn:E0; cbn [negb]; [|intros [= <-]; by eapply step_fetch_end].
    destruct ((_ <? _) || _) eqn:E1; [intros [= <-]; by eapply step_fetch_end|].
    destruct (e <? s) eqn:E2; [intros [= <-]; by eapply step_fetch_end|].
    destruct (s =? e) eqn:E3; [intros [= <-]; by eapply step_fetch_end|]. intros [= <-]. apply step_fetch_checked; (done || lia).
  - case_bool_decide as Ht; [|done]. intros [= <-]. unfold trim_begin. rewrite Hsn. by constructor.
  - unfold trim_step. destruct (sy_trims y !! t) as [[o|o|o]|] eqn:Et; [..|done].
    + destruct (sy_trim_lock y) eqn:El; [done|]. intros [= <-]. destruct (_ <? _) eqn:E; [by eapply step_trim_late|].
      eapply step_trim_store; [done|lia].
    + unfold idle. destruct (_ =? 0) eqn:E; [|done]. intros [= <-]. eapply step_trim_call; [done|lia].
    + intros [= <-]. by eapply step_trim_done.
  - case_bool_decide as Ht; [|done]. intros [= <-]. unfold close_begin. rewrite Hsn. by constructor.
  - unfold close_step. destruct (sy_closes y !! t) as [[[]| |force|force|force]|] eqn:Et; [..|done].
    + intros [= <-]. by eapply step_close_forced.
    + unfold idle. destruct (_ =? 0) eqn:E; [|done]. intros [= <-]. eapply step_close_drained; [done|lia].
    + destruct (expired || _); [|done]. intros [= <-]. by eapply step_close_ready.
    + destruct (sy_close_lock y) eqn:El; [done|]. intros [= <-]. destruct (ss_close_result (sy_stream y)) eqn:Er.
      * eapply step_close_again; [done|done|by eexists].
      * by eapply step_close_upload.
    + intros [= <-]. destruct r; [by eapply step_close_uploaded|by eapply step_close_upload_failed].
    + intros [= <-]. by eapply step_close_done.
  - unfold destroy_end. rewrite Hsn. destruct (ss_close_result (sy_stream y)) as [[u|]|] eqn:Er; [|done..]. intros [= <-].
    by eapply step_destroy.
  - by rewrite Hsn.
  - intros [= <-]. unfold confirm_offset_set. rewrite Hsn. cbn. destruct y. apply step_none.
Qed.

(** Runs preserve what every step preserves; the number of events bounds the rest. *)
Lemma exec_all_ind (P : nat → System → Prop) es n y y' :
  (∀ n y y', P n y → ss_snapshot_read (sy_stream y) = false → step y y' → P (S n) y') →
  Forall event_ok es → ss_snapshot_read (sy_stream y) = false → P n y → exec_all es y = Some y' →
  P (n + length es)%nat y' ∧ ss_snapshot_read (sy_stream y') = false.
Proof.
  intros HP Hes. revert n y; induction Hes as [|e es He Hes IH]; intros n y Hsn Hy; cbn [exec_all length].
  { intros [= <-]. by rewrite Nat.add_0_r. }
  destruct (exec e y) as [y1|] eqn:E; [|done]. intros Hrun. apply (exec_step e y y1 He Hsn) in E.
  replace (n + S (length es))%nat with (S n + length es)%nat by lia. apply (IH (S n) y1); [|by eapply HP|done].
  destruct E; try done. cbn. unfold complete_append. by destruct r.
Qed.

(** ** Appends run without gaps and the confirm offset is durable *)

Section Appends.
Context (id n0 : Z) (Hid : is_u64 id) (Hn0 : 0 ≤ n0).

Record append_inv (n : nat) (appends : gmap nat AppendTask) (submitted : list StreamRecordBatch)
    (answers : gmap nat (result StreamError unit)) (next confirm : Z) : Prop := {
  ai_runs : runs n0 submitted next;
  ai_next : next ≤ n0 + 2 ^ 31 * Z.of_nat n;
  ai_tasks t a : appends !! t = Some a →
    match a with
    | ABegun b | AChecked b => 0 < rb_count b < 2 ^ 31
    | AWaiting k o c => ∃ r, submitted !! k = Some r ∧ base_offset r = o ∧ last_offset r = o + c
    end;
  ai_confirm : confirm = n0 ∨ ∃ k r, submitted !! k = Some r ∧ answers !! k = Some (Ok tt) ∧ last_offset r = confirm;
  ai_ids : Forall (λ r, stream_id r = id) submitted;
}.

Definition appends_ok (n : nat) (y : System) : Prop :=
  ss_stream_id (sy_stream y) = id
  ∧ append_inv n (sy_appends y) (sy_submitted y) (sy_answers y) (ss_next_offset (sy_stream y)) (ss_confirm_offset (sy_stream y)).

Lemma append_inv_tasks n ap sub ans next conf t a :
  append_inv n ap sub ans next conf →
  (∀ a', a = Some a' → match a' with
    | ABegun b | AChecked b => 0 < rb_count b < 2 ^ 31
    | AWaiting k o c => ∃ r, sub !! k = Some r ∧ base_offset r = o ∧ last_offset r = o + c
    end) →
  append_inv n (partial_alter (λ _, a) t ap) sub ans next conf.
Proof.
  intros [H1 H2 H3 H4 H5] Ha. constructor; try done. intros t' a'. destruct (decide (t' = t)) as [->|Hne].
  - rewrite lookup_partial_alter_eq. intros ->. by apply Ha.
  - rewrite lookup_partial_alter_ne by done. apply H3.
Qed.

Lemma submitted_record epoch offset batch :
  is_u64 offset → 0 < rb_count batch < 2 ^ 31 → offset + rb_count batch < 2 ^ 64 →
  let r := new id epoch offset (i32 (rb_count batch)) (rb_payload batch) in
  stream_id r = id ∧ base_offset r = offset ∧ last_offset r = offset + rb_count batch.
Proof.
  intros Ho Hc Hb r. unfold r. rewrite stream_id_new, base_offset_new. split; [by apply u64_small|]. split; [by apply u64_small|].
  unfold last_offset. rewrite count_new, base_offset_new, !i32_small by int_lia. rewrite (u64_small offset) by done.
  if_true. rewrite u64_i64. int_lia.
Qed.

Lemma append_inv_submit n ap sub ans next conf t epoch batch :
  append_inv n ap sub ans next conf → ap !! t = Some (AChecked batch) → n0 + 2 ^ 31 * Z.of_nat (S n) < 2 ^ 64 →
  append_inv (S n) (partial_alter (λ _, Some (AWaiting (length sub) next (rb_count batch))) t ap)
    (sub ++ [new id epoch next (i32 (rb_count batch)) (rb_payload batch)]) ans (u64 (next + rb_count batch)) conf.
Proof.
  intros [H1 H2 H3 H4 H5] Ht Hb. pose proof (H3 _ _ Ht) as Hc. cbn in Hc. pose proof (runs_le _ _ _ H1).
  destruct (submitted_record epoch next batch) as (Es & Eb & El); [int_lia|done|int_lia|]. set (r := new _ _ _ _ _) in *.
  rewrite u64_small by int_lia. constructor.
  - apply runs_app. exists next. split; [done|]. cbn. lia.
  - lia.
  - intros t' a'. destruct (decide (t' = t)) as [->|Hne].
    + rewrite lookup_partial_alter_eq. intros [= <-]. exists r. by rewrite list_lookup_middle.
    + rewrite lookup_partial_alter_ne by done. intros Ha. specialize (H3 _ _ Ha). destruct a'; [done|done|].
      destruct H3 as (q & Hq & ? & ?). exists q. split; [|done]. by apply lookup_app_l_Some.
  - destruct H4 as [?|(k & q & Hq & ? & ?)]; [by left|right]. exists k, q. split; [|done]. by apply lookup_app_l_Some.
  - apply Forall_app. split; [done|]. by constructor.
Qed.

Lemma append_inv_complete n ap sub ans next conf t k o c r :
  append_inv n ap sub ans next conf → ap !! t = Some (AWaiting k o c) → ans !! k = Some (Ok r) → n0 + 2 ^ 31 * Z.of_nat n < 2 ^ 64 →
  append_inv n (partial_alter (λ _, None) t ap) sub ans next (Z.max conf (u64 (o + c))).
Proof.
  intros Hi Ht Hk Hb. pose proof Hi as [H1 H2 H3 H4 H5]. destruct (H3 _ _ Ht) as (q & Hq & Eo & El). destruct r.
  destruct (runs_at _ _ _ _ _ H1 Hq) as (Ha & Hd & Hlt). pose proof (runs_le _ _ _ Ha). pose proof (runs_le _ _ _ Hd).
  assert (last_offset q ≤ next).
  { rewrite (drop_S _ _ _ Hq) in Hd. destruct Hd as (_ & _ & Hd). by apply runs_le in Hd. }
  rewrite u64_small by int_lia.
  apply (append_inv_tasks _ _ _ _ _ _ t None) in Hi; [|done]. destruct Hi as [? ? ? _ ?]. constructor; try done.
  destruct (Z.max_spec conf (o + c)) as [[_ ->]|[_ ->]]; [|done]. right. by exists k, q.
Qed.

Lemma step_appends_ok n y y' :
  n0 + 2 ^ 31 * Z.of_nat (S n) < 2 ^ 64 → appends_ok n y → step y y' → appends_ok (S n) y'.
Proof.
  intros Hb [Eid Hi] Hs. assert (appends_ok (S n) y) as Hy.
  { split; [done|]. destruct Hi as [? ? ? ? ?]. constructor; try done. lia. }
  destruct Hs; try exact Hy.
  - split; [done|]. apply append_inv_tasks; [apply Hy|]. by intros a' [= <-].
  - split; [done|]. apply append_inv_tasks; [apply Hy|]. intros a' [= <-]. pose proof (ai_tasks _ _ _ _ _ _ (proj2 Hy) _ _ H). done.
  - split; [done|]. apply append_inv_tasks; [apply Hy|]. by intros a' [= <-].
  - split; [done|]. cbn. rewrite Eid. by apply append_inv_submit.
  - unfold append_end, complete_append. destruct r as [u|e]; (split; [done|]); cbn.
    + eapply append_inv_complete; [apply Hy|done|done|done].
    + apply append_inv_tasks; [apply Hy|done].
  - split; [done|]. cbn. destruct Hy as [_ [H1 H2 H3 H4 H5]]. constructor; try done.
    destruct H4 as [?|(k' & q & Hq & Ha & ?)]; [by left|right]. exists k', q. split; [done|]. split; [|done].
    rewrite lookup_insert_ne; [done|congruence].
Qed.

Lemma appends_run es epoch start y :
  Forall event_ok es → n0 + 2 ^ 31 * len es < 2 ^ 64 →
  exec_all es (system_new (stream_new id epoch start n0 false)) = Some y → appends_ok (length es) y.
Proof.
  intros Hes Hb Hrun.
  destruct (exec_all_ind (λ n y, n0 + 2 ^ 31 * Z.of_nat n < 2 ^ 64 → appends_ok n y) es 0
    (system_new (stream_new id epoch start n0 false)) y) as [H _]; [|done|done| |done|].
  - intros n x x' IH _ Hs Hn. eapply step_appends_ok; [done| |done]. apply IH. lia.
  - intros _. split; [done|]. constructor; cbn; [done|lia|by intros t a ?%lookup_empty_Some|by left|constructor].
  - by apply H.
Qed.
End Appends.

(** ** Trims wait for the fetches they would cut *)

Lemma map_size_partial_alter_Some {A} (m : gmap nat A) t a :
  m !! t = None → base.size (partial_alter (λ _, Some a) t m) = S (base.size m).
Proof. intros. change (partial_alter (λ _, Some a) t m) with (<[t := a]> m). by apply map_size_insert_None. Qed.

Lemma map_size_replace {A} (m : gmap nat A) t a b :
  m !! t = Some b → base.size (partial_alter (λ _, Some a) t m) = base.size m.
Proof. intros Hb. change (partial_alter (λ _, Some a) t m) with (<[t := a]> m). apply map_size_insert_Some. by eexists. Qed.

Lemma map_size_partial_alter_None {A} (m : gmap nat A) t b :
  m !! t = Some b → S (base.size (partial_alter (λ _, None) t m)) = base.size m.
Proof.
  intros Hb. change (partial_alter (λ _, None) t m) with (delete t m). rewrite map_size_delete_Some by (by eexists).
  assert (base.size m ≠ 0%nat) as Hne; [|lia]. intros ->%map_size_empty_iff. by rewrite lookup_empty in Hb.
Qed.

Lemma mark_nonzero mask s : ss_status (mark mask s) = 0 → ss_status s = 0.
Proof. cbn. by intros [? _]%Z.lor_eq_0_iff. Qed.

Record trim_inv (n : nat) (fetches : gmap nat FetchTask) (trims : gmap nat TrimTask) (calls : list Z)
    (start status pending : Z) : Prop := {
  ti_pending : pending = Z.of_nat (base.size fetches);
  ti_size : (base.size fetches ≤ n)%nat;
  ti_open : status = 0 → 0 ≤ start < 2 ^ 63 ∧ Forall (λ o, o ≤ start) calls
    ∧ ∀ t o, trims !! t = Some (TDraining o) → o ≤ start;
  ti_trims t r : trims !! t = Some r → match r with TWaiting o | TDraining o | TCalling o => 0 ≤ o < 2 ^ 63 end;
  ti_calls : Forall (λ o, 0 ≤ o) calls;
  ti_fetches t f : fetches !! t = Some f →
    match f with FBegun s _ => is_u64 s | FReading s _ => is_u64 s ∧ Forall (λ o, o ≤ s) calls end;
}.

Definition trims_ok (n : nat) (y : System) : Prop :=
  trim_inv n (sy_fetches y) (sy_trims y) (sy_trim_calls y) (ss_start_offset (sy_stream y)) (ss_status (sy_stream y))
    (ss_pending_fetches (sy_stream y)).

Lemma trim_inv_start n f tr calls start st p start' st' :
  trim_inv n f tr calls start st p → (st' = 0 → st = 0 ∧ start' = start) → trim_inv n f tr calls start' st' p.
Proof. intros [H1 H2 H3 H4 H5 H6] H. constructor; try done. intros E. destruct (H E) as [? ->]. by apply H3. Qed.

Lemma trim_inv_trim n f tr calls start st p t r :
  trim_inv n f tr calls start st p →
  (∀ o, r = Some (TWaiting o) ∨ r = Some (TDraining o) ∨ r = Some (TCalling o) → 0 ≤ o < 2 ^ 63) →
  (st = 0 → ∀ o, r = Some (TDraining o) → o ≤ start) →
  trim_inv n f (partial_alter (λ _, r) t tr) calls start st p.
Proof.
  intros [H1 H2 H3 H4 H5 H6] Hr Hd. constructor; try done.
  - intros E. destruct (H3 E) as (? & ? & H). split; [done|]. split; [done|]. intros t' o. destruct (decide (t' = t)) as [->|Hne].
    + rewrite lookup_partial_alter_eq. by apply Hd.
    + rewrite lookup_partial_alter_ne by done. apply H.
  - intros t' r'. destruct (decide (t' = t)) as [->|Hne].
    + rewrite lookup_partial_alter_eq. intros ->. destruct r'; apply Hr; auto.
    + rewrite lookup_partial_alter_ne by done. apply H4.
Qed.

Lemma trim_inv_fetch n f tr calls start st p t x p' :
  trim_inv n f tr calls start st p →
  p' = Z.of_nat (base.size (partial_alter (λ _, x) t f)) → (base.size (partial_alter (λ _, x) t f) ≤ n)%nat →
  (∀ f', x = Some f' → match f' with FBegun s _ => is_u64 s | FReading s _ => is_u64 s ∧ Forall (λ o, o ≤ s) calls end) →
  trim_inv n (partial_alter (λ _, x) t f) tr calls start st p'.
Proof.
  intros [H1 H2 H3 H4 H5 H6] Hp Hn Hx. constructor; try done. intros t' f'. destruct (decide (t' = t)) as [->|Hne].
  - rewrite lookup_partial_alter_eq. apply Hx.
  - rewrite lookup_partial_alter_ne by done. apply H6.
Qed.

Lemma trim_inv_call n tr calls start st p t o :
  trim_inv n ∅ tr calls start st p → tr !! t = Some (TDraining o) →
  trim_inv n ∅ (partial_alter (λ _, Some (TCalling o)) t tr) (calls ++ [o]) start st p.
Proof.
  intros Hi Ht. pose proof (ti_trims _ _ _ _ _ _ _ Hi _ _ Ht) as Ho. cbn in Ho.
  pose proof (ti_open _ _ _ _ _ _ _ Hi) as Hopen.
  apply (trim_inv_trim _ _ _ _ _ _ _ t (Some (TCalling o))) in Hi; [|naive_solver|done].
  destruct Hi as [H1 H2 H3 H4 H5 H6]. constructor; try done.
  - intros E. destruct (H3 E) as (? & ? & ?). split; [done|]. split; [|done]. apply Forall_app. split; [done|]. constructor; [|done].
    destruct (Hopen E) as (_ & _ & Hd). by eapply Hd.
  - apply Forall_app. split; [done|]. constructor; [lia|done].
Qed.

Lemma step_trims_ok n y y' : Z.of_nat (S n) < 2 ^ 64 → trims_ok n y → step y y' → trims_ok (S n) y'.
Proof.
  intros Hb Hi Hs. assert (trims_ok (S n) y) as Hy by (destruct Hi as [? ? ? ? ? ?]; constructor; try done; lia).
  destruct Hs; try exact Hy.
  - (* a completed append may only mark the stream *)
    unfold append_end, complete_append. destruct r; [exact Hy|]. eapply trim_inv_start; [exact Hy|]. intros E%mark_nonzero. done.
  - pose proof (ti_pending _ _ _ _ _ _ _ Hi) as Ep. pose proof (ti_size _ _ _ _ _ _ _ Hi). eapply trim_inv_fetch; [exact Hy|..].
    + rewrite map_size_partial_alter_Some by done. cbn. unfold begin_. rewrite Ep. int_lia.
    + rewrite map_size_partial_alter_Some by done. cbn [with_stream sy_fetches]. lia.
    + by intros f' [= <-].
  - pose proof (ti_pending _ _ _ _ _ _ _ Hy) as Ep. pose proof (ti_size _ _ _ _ _ _ _ Hy).
    pose proof (ti_fetches _ _ _ _ _ _ _ Hy _ _ H) as Hu. cbn in Hu. eapply trim_inv_fetch; [exact Hy|..].
    + by erewrite map_size_replace.
    + by erewrite map_size_replace.
    + intros f' [= <-]. split; [done|]. destruct (ti_open _ _ _ _ _ _ _ Hy H0) as (Hr & Hc & _).
      eapply Forall_impl; [exact Hc|]. cbn. intros o Ho. rewrite (i64_small (ss_start_offset _)) in H1 by int_lia.
      assert (s < 2 ^ 63) by int_lia. rewrite i64_small in H1 by int_lia. lia.
  - pose proof (ti_pending _ _ _ _ _ _ _ Hy) as Ep. pose proof (ti_size _ _ _ _ _ _ _ Hy).
    pose proof (map_size_partial_alter_None _ _ _ H) as Ez. eapply trim_inv_fetch; [exact Hy|..].
    + cbn. unfold drop_guard. rewrite Ep, <- Ez. int_lia.
    + cbn [with_stream sy_fetches]. lia.
    + done.
  - apply trim_inv_trim; [exact Hy|naive_solver|naive_solver].
  - apply trim_inv_trim; [exact Hy|naive_solver|naive_solver].
  - pose proof (ti_trims _ _ _ _ _ _ _ Hy _ _ H) as Ho. cbn in Ho.
    apply trim_inv_trim; [|naive_solver|by intros _ o' [= ->]; cbn].
    destruct Hy as [G1 G2 G3 G4 G5 G6]. constructor; try done. cbn. intros E. destruct (G3 E) as (? & Gc & Gd). split; [done|]. split.
    + eapply Forall_impl; [exact Gc|]. cbn. lia.
    + intros t' o' Ht'. specialize (Gd _ _ Ht'). lia.
  - assert (sy_fetches y = ∅) as E.
    { apply map_size_empty_iff. pose proof (ti_pending _ _ _ _ _ _ _ Hy). lia. }
    unfold trims_ok in *. cbn. rewrite E in *. by apply trim_inv_call.
  - apply trim_inv_trim; [exact Hy|naive_solver|naive_solver].
  - eapply trim_inv_start; [exact Hy|]. by intros E%mark_nonzero.
  - eapply trim_inv_start; [exact Hy|]. cbn. intros [_ E]%Z.lor_eq_0_iff. done.
Qed.

Lemma trims_run es id epoch start next y :
  Forall event_ok es → 0 ≤ start < 2 ^ 63 → len es < 2 ^ 64 →
  exec_all es (system_new (stream_new id epoch start next false)) = Some y → trims_ok (length es) y.
Proof.
  intros Hes Hst Hb Hrun.
  destruct (exec_all_ind (λ n y, Z.of_nat n < 2 ^ 64 → trims_ok n y) es 0
    (system_new (stream_new id epoch start next false)) y) as [H _]; [|done|done| |done|].
  - intros n x x' IH _ Hs Hn. eapply step_trims_ok; [done| |done]. apply IH. lia.
  - intros _. constructor; cbn; [by rewrite map_size_empty|by rewrite map_size_empty| | |constructor|].
    + intros _. split; [done|]. split; [constructor|]. by intros t o ?%lookup_empty_Some.
    + by intros t r ?%lookup_empty_Some.
    + by intros t f ?%lookup_empty_Some.
  - by apply H.
Qed.

(** ** A graceful close drains the appends *)

(** A closer that has seen the appends drained. *)
Definition graceful (c : CloseTask) : bool :=
  match c with CDrained | CReady false | CUploading false | CClosing false => true | _ => false end.
Definition busy (c : CloseTask) : bool := match c with CUploading _ | CClosing _ => true | _ => false end.
Definition closing (c : CloseTask) : bool := match c with CClosing _ => true | _ => false end.

(** No append is past its check. *)
Definition quiet (appends : gmap nat AppendTask) : Prop := ∀ t a, appends !! t = Some a → ∃ b, a = ABegun b.

Record close_inv (n : nat) (appends : gmap nat AppendTask) (closes : gmap nat CloseTask) (submitted : list StreamRecordBatch)
    (answers : gmap nat (result StreamError unit)) (status pending : Z) : Prop := {
  ci_pending : pending = Z.of_nat (base.size appends);
  ci_size : (base.size appends ≤ n)%nat;
  ci_marked t c : closes !! t = Some c → status ≠ 0;
  ci_quiet t c : closes !! t = Some c → graceful c = true → quiet appends;
  ci_waiting k : (k < length submitted)%nat → answers !! k = None → ∃ t o c, appends !! t = Some (AWaiting k o c);
}.

Record once_inv (closes : gmap nat CloseTask) (lock : option nat) (res : option (result StreamError unit)) (calls : nat) : Prop := {
  oi_busy t c : closes !! t = Some c → busy c = true → lock = Some t ∧ res = None;
  oi_calls : (calls = 0%nat ∧ ∀ t c, closes !! t = Some c → closing c = false)
    ∨ (calls = 1%nat ∧ ((∃ t c, closes !! t = Some c ∧ closing c = true) ∨ is_Some res));
}.

Definition closes_ok (n : nat) (y : System) : Prop :=
  close_inv n (sy_appends y) (sy_closes y) (sy_submitted y) (sy_answers y) (ss_status (sy_stream y)) (ss_pending_appends (sy_stream y))
  ∧ once_inv (sy_closes y) (sy_close_lock y) (ss_close_result (sy_stream y)) (sy_close_calls y).

Lemma quiet_begun ap t b : quiet ap → quiet (partial_alter (λ _, Some (ABegun b)) t ap).
Proof.
  intros H t' a. destruct (decide (t' = t)) as [->|Hne]; [rewrite lookup_partial_alter_eq; intros [= <-]; eauto|].
  rewrite lookup_partial_alter_ne by done. apply H.
Qed.

Lemma quiet_end ap t : quiet ap → quiet (partial_alter (λ _, None) t ap).
Proof.
  intros H t' a. destruct (decide (t' = t)) as [->|Hne]; [by rewrite lookup_partial_alter_eq|].
  rewrite lookup_partial_alter_ne by done. apply H.
Qed.

(** An append task changes: it keeps quiet, or nobody has closed. *)
Lemma close_inv_append n ap cl sub ans st p t a p' :
  close_inv n ap cl sub ans st p →
  p' = Z.of_nat (base.size (partial_alter (λ _, a) t ap)) → (base.size (partial_alter (λ _, a) t ap) ≤ n)%nat →
  (quiet ap → st ≠ 0 → quiet (partial_alter (λ _, a) t ap)) →
  (∀ k o c, ap !! t = Some (AWaiting k o c) → ans !! k = None → ∃ o' c', a = Some (AWaiting k o' c')) →
  close_inv n (partial_alter (λ _, a) t ap) cl sub ans st p'.
Proof.
  intros [H1 H2 H3 H4 H5] Hp Hn Hq Hw. constructor; try done.
  - intros t' c Hc Hg. apply Hq; [by eapply H4|by eapply H3].
  - intros k Hk Ha. destruct (H5 k Hk Ha) as (t' & o & c & Ht'). destruct (decide (t' = t)) as [->|Hne].
    + destruct (Hw _ _ _ Ht' Ha) as (o' & c' & ->). exists t, o', c'. by rewrite lookup_partial_alter_eq.
    + exists t', o, c. by rewrite lookup_partial_alter_ne.
Qed.

(** A close task changes on a marked stream. *)
Lemma close_inv_close n ap cl sub ans st st' p t c :
  close_inv n ap cl sub ans st p → (st ≠ 0 → st' ≠ 0) → (c ≠ None → st' ≠ 0) →
  (∀ c', c = Some c' → graceful c' = true → quiet ap) →
  close_inv n ap (partial_alter (λ _, c) t cl) sub ans st' p.
Proof.
  intros [H1 H2 H3 H4 H5] Hs Hc Hg. constructor; try done.
  - intros t' c'. destruct (decide (t' = t)) as [->|Hne].
    + rewrite lookup_partial_alter_eq. intros ->. by apply Hc.
    + rewrite lookup_partial_alter_ne by done. intros H. apply Hs. by eapply H3.
  - intros t' c'. destruct (decide (t' = t)) as [->|Hne].
    + rewrite lookup_partial_alter_eq. intros ->. by apply Hg.
    + rewrite lookup_partial_alter_ne by done. apply H4.
Qed.

Lemma once_inv_idle cl lock res calls t c :
  once_inv cl lock res calls → (∀ x, cl !! t = Some x → busy x = false) →
  (∀ c', c = Some c' → busy c' = false) → once_inv (partial_alter (λ _, c) t cl) lock res calls.
Proof.
  intros [H1 H2] Hold Hnew. constructor.
  - intros t' c'. destruct (decide (t' = t)) as [->|Hne].
    + rewrite lookup_partial_alter_eq. intros -> Hb. specialize (Hnew _ eq_refl). congruence.
    + rewrite lookup_partial_alter_ne by done. apply H1.
  - destruct H2 as [[E H]|[E H]]; [left|right]; (split; [done|]).
    + intros t' c'. destruct (decide (t' = t)) as [->|Hne].
      * rewrite lookup_partial_alter_eq. intros ->. specialize (Hnew _ eq_refl). by destruct c'.
      * rewrite lookup_partial_alter_ne by done. apply H.
    + destruct H as [(t' & c' & Ht & Hc)|H]; [left|by right]. exists t', c'. split; [|done].
      rewrite lookup_partial_alter_ne; [done|]. intros <-. specialize (Hold _ Ht). by destruct c'.
Qed.

(** The lock holder moves on; nobody else is busy. *)
Lemma once_inv_upload cl res calls t force :
  once_inv cl None res calls → res = None →
  once_inv (partial_alter (λ _, Some (CUploading force)) t cl) (Some t) res calls.
Proof.
  intros [H1 H2] ->. assert (∀ t c, cl !! t = Some c → busy c = false) as Hn.
  { intros t' c Hc. destruct (busy c) eqn:E; [|done]. by destruct (H1 _ _ Hc E). }
  constructor.
  - intros t' c'. destruct (decide (t' = t)) as [->|Hne]; [done|]. rewrite lookup_partial_alter_ne by done.
    intros Hc Hb. specialize (Hn _ _ Hc). congruence.
  - destruct H2 as [[E _]|[_ [(t' & c' & Ht & Hc)|[? ?]]]]; [|specialize (Hn _ _ Ht); by destruct c'|done].
    left. split; [done|]. intros t' c'. destruct (decide (t' = t)) as [->|Hne].
    + rewrite lookup_partial_alter_eq. by intros [= <-].
    + rewrite lookup_partial_alter_ne by done. intros Hc%Hn. by destruct c'.
Qed.

Lemma once_inv_uploaded cl lock res calls t force :
  once_inv cl lock res calls → cl !! t = Some (CUploading force) →
  once_inv (partial_alter (λ _, Some (CClosing force)) t cl) lock res (S calls).
Proof.
  intros [H1 H2] Ht. destruct (H1 _ _ Ht eq_refl) as [-> ->]. constructor.
  - intros t' c'. destruct (decide (t' = t)) as [->|Hne]; [done|]. rewrite lookup_partial_alter_ne by done. apply H1.
  - destruct H2 as [[-> _]|[_ [(t' & c' & Ht' & Hc)|[? ?]]]]; [| |done].
    + right. split; [done|]. left. exists t, (CClosing force). by rewrite lookup_partial_alter_eq.
    + destruct (H1 _ _ Ht') as [[= ->] _]; [by destruct c'|]. rewrite Ht in Ht'. injection Ht' as <-. done.
Qed.

Lemma once_inv_end cl lock res calls t c r :
  once_inv cl lock res calls → cl !! t = Some c → busy c = true →
  once_inv (partial_alter (λ _, None) t cl) None (Some r) calls.
Proof.
  intros [H1 H2] Ht Hb. destruct (H1 _ _ Ht Hb) as [-> ->].
  assert (∀ t' c', partial_alter (λ _, None) t cl !! t' = Some c' → busy c' = false) as Hn.
  { intros t' c'. destruct (decide (t' = t)) as [->|Hne]; [by rewrite lookup_partial_alter_eq|].
    rewrite lookup_partial_alter_ne by done. intros Hc. destruct (busy c') eqn:E; [|done].
    destruct (H1 _ _ Hc E) as [[= ->] _]. done. }
  constructor.
  - intros t' c' Hc Hb'. specialize (Hn _ _ Hc). congruence.
  - destruct H2 as [[-> _]|[-> _]]; [left|right; split; [done|right; by eexists]]. split; [done|]. intros t' c' Hc%Hn. by destruct c'.
Qed.

Lemma closes_idle_step n y t c c0 :
  closes_ok n y → sy_closes y !! t = Some c0 → busy c0 = false → (∀ c', c = Some c' → busy c' = false) →
  (∀ c', c = Some c' → graceful c' = true → quiet (sy_appends y)) →
  closes_ok n (with_close y t c (sy_close_lock y)).
Proof.
  intros [Hc Ho] Ht Hb Hn Hg. pose proof (ci_marked _ _ _ _ _ _ _ Hc _ _ Ht) as Hm. split.
  - eapply close_inv_close; [exact Hc|done|done|done].
  - eapply once_inv_idle; [exact Ho| |done]. intros x Hx. congruence.
Qed.

Lemma step_closes_ok n y y' : Z.of_nat (S n) < 2 ^ 64 → closes_ok n y → step y y' → closes_ok (S n) y'.
Proof.
  intros Hb Hi Hs. assert (closes_ok (S n) y) as Hy.
  { destruct Hi as [[? ? ? ? ?] ?]. split; [|done]. constructor; try done. lia. }
  pose proof (ci_pending _ _ _ _ _ _ _ (proj1 Hi)) as Ep. pose proof (ci_size _ _ _ _ _ _ _ (proj1 Hi)) as Hsz.
  destruct Hy as [Hc Ho]. destruct Hs; try (split; [exact Hc|exact Ho]).
  - split; [|exact Ho]. eapply close_inv_append; [exact Hc|..].
    + rewrite map_size_partial_alter_Some by done. cbn. unfold begin_. rewrite Ep. int_lia.
    + rewrite map_size_partial_alter_Some by done. cbn [with_stream sy_appends]. lia.
    + intros Hq _. by apply quiet_begun.
    + cbn. intros k o c E. congruence.
  - split; [|exact Ho]. eapply close_inv_append; [exact Hc|..]; rewrite ?(map_size_replace _ _ _ _ H); [done|lia|done|].
    intros k o c E. congruence.
  - pose proof (map_size_partial_alter_None _ _ _ H) as Ez. split; [|exact Ho]. eapply close_inv_append; [exact Hc|..].
    + cbn. unfold drop_guard. rewrite Ep, <- Ez. int_lia.
    + cbn [with_stream sy_appends]. lia.
    + intros Hq _. by apply quiet_end.
    + cbn. intros k o c E. congruence.
  - (* the new record is waited for *)
    split; [|exact Ho]. cbn. destruct Hc as [H1 H2 H3 H4 H5]. constructor.
    + by rewrite (map_size_replace _ _ _ _ H).
    + rewrite (map_size_replace _ _ _ _ H). lia.
    + exact H3.
    + intros t' c Hc Hg. destruct (H4 _ _ Hc Hg _ _ H). done.
    + intros k Hk Ha. destruct (decide (k = length (sy_submitted y))) as [->|Hne].
      * eexists t, _, _. by rewrite lookup_partial_alter_eq.
      * rewrite length_app in Hk. cbn in Hk. destruct (H5 k ltac:(lia) Ha) as (t' & o & c & Ht').
        exists t', o, c. rewrite lookup_partial_alter_ne; [done|]. intros <-. congruence.
  - (* completion *)
    pose proof (map_size_partial_alter_None _ _ _ H) as Ez.
    assert (∀ st', (ss_status (sy_stream y) ≠ 0 → st' ≠ 0) →
      close_inv (S n) (partial_alter (λ _, None) t (sy_appends y)) (sy_closes y) (sy_submitted y) (sy_answers y)
        st' (drop_guard (ss_pending_appends (sy_stream y)))) as Hfin.
    { intros st' Hst'. assert (close_inv (S n) (sy_appends y) (sy_closes y) (sy_submitted y) (sy_answers y) st'
        (ss_pending_appends (sy_stream y))) as Hc' by (destruct Hc as [? ? G3 ? ?]; constructor; try done; intros; apply Hst'; by eapply G3).
      eapply close_inv_append; [exact Hc'|..].
      - unfold drop_guard. rewrite Ep, <- Ez. int_lia.
      - lia.
      - intros Hq _. by apply quiet_end.
      - intros k' o c E Hk'. exfalso. congruence. }
    unfold append_end, complete_append. destruct r; (split; [|exact Ho]); cbn; apply Hfin; [done|].
    intros Hne E. apply Hne. by apply Z.lor_eq_0_iff in E as [? _].
  - split; [|exact Ho]. destruct Hc as [G1 G2 G3 G4 G5]. constructor; try done. cbn. intros k' Hk' Ha.
    apply lookup_insert_None in Ha as [Ha _]. by apply G5.
  - split; cbn.
    + eapply close_inv_close; [exact Hc| | |by intros c' [= <-]].
      * intros Hne E. by apply Z.lor_eq_0_iff in E as [? _].
      * intros _ E. by apply Z.lor_eq_0_iff in E as [_ ?].
    + eapply once_inv_idle; [exact Ho|intros x Hx; congruence|by intros c' [= <-]].
  - by eapply closes_idle_step; [split; [exact Hc|exact Ho]|..]; try done; intros c' [= <-].
  - eapply closes_idle_step; [split; [exact Hc|exact Ho]|done|done|by intros c' [= <-]|].
    intros c' _ _. assert (sy_appends y = ∅) as -> by (apply map_size_empty_iff; lia). by intros t' a ?%lookup_empty_Some.
  - eapply closes_idle_step; [split; [exact Hc|exact Ho]|done|done|by intros c' [= <-]|].
    intros c' _ _. by eapply ci_quiet.
  - rewrite <- H0. by eapply closes_idle_step; [split; [exact Hc|exact Ho]|..].
  - split; cbn.
    + eapply close_inv_close; [exact Hc|done|intros _; by eapply ci_marked|]. intros c' [= <-] Hg. eapply ci_quiet; [exact Hc|done|].
      by destruct force.
    + apply once_inv_upload; [by rewrite H0 in Ho|done].
  - split; cbn.
    + by eapply close_inv_close; [exact Hc|..].
    + by eapply once_inv_end.
  - split; cbn.
    + eapply close_inv_close; [exact Hc|done|intros _; by eapply ci_marked|]. intros c' [= <-] Hg. eapply ci_quiet; [exact Hc|done|].
      by destruct force.
    + by apply once_inv_uploaded.
  - split; cbn.
    + by eapply close_inv_close; [exact Hc|..].
    + by eapply once_inv_end.
  - split; [|exact Ho]. cbn. destruct Hc as [G1 G2 G3 G4 G5]. constructor; try done. intros t c Ht E. eapply G3; [done|].
    by apply Z.lor_eq_0_iff in E as [? _].
Qed.

Lemma closes_run es id epoch start next y :
  Forall event_ok es → len es < 2 ^ 64 →
  exec_all es (system_new (stream_new id epoch start next false)) = Some y → closes_ok (length es) y.
Proof.
  intros Hes Hb Hrun.
  destruct (exec_all_ind (λ n y, Z.of_nat n < 2 ^ 64 → closes_ok n y) es 0
    (system_new (stream_new id epoch start next false)) y) as [H _]; [|done|done| |done|].
  - intros n x x' IH _ Hs Hn. eapply step_closes_ok; [done| |done]. apply IH. lia.
  - intros _. split; constructor; cbn; try done; try (by intros t c ?%lookup_empty_Some); try (by rewrite map_size_empty).
    + intros k Hk. lia.
    + left. split; [done|]. by intros t c ?%lookup_empty_Some.
  - by apply H.
Qed.

(** A drained, marked stream takes no further record. *)
Lemma quiet_step y y' :
  ss_status (sy_stream y) ≠ 0 ∧ quiet (sy_appends y) → step y y' →
  (ss_status (sy_stream y') ≠ 0 ∧ quiet (sy_appends y')) ∧ sy_submitted y' = sy_submitted y.
Proof.
  intros [Hst Hq] Hs. destruct Hs; try done.
  - split; [|done]. split; [done|]. by apply quiet_begun.
  - split; [|done]. split; [done|]. by apply quiet_end.
  - by destruct (Hq _ _ H).
  - split; [|by destruct r]. unfold append_end, complete_append. destruct r; (split; [|by apply quiet_end]); cbn; [done|].
    by intros [? _]%Z.lor_eq_0_iff.
  - split; [|done]. split; [|done]. cbn. by intros [? _]%Z.lor_eq_0_iff.
  - split; [|done]. split; [|done]. cbn. by intros [? _]%Z.lor_eq_0_iff.
Qed.

(** ** Properties *)

(** The storage acknowledges the records of a stream in the order they were submitted. *)
Definition acked_in_order (y : System) : Prop :=
  ∀ j k, (j < k)%nat → sy_answers y !! k = Some (Ok tt) → sy_answers y !! j = Some (Ok tt).

(** C26: whatever calls run concurrently on a stream, the records it submits follow each
    other without gap or overlap from the offset it was opened at, the next offset is
    where they end, and the confirm offset lies between; and when the storage
    acknowledges in submission order, every record below the confirm offset has been
    acknowledged, even though the completions themselves may run in any order. *)
Theorem stream_offsets_exact es id epoch start n0 y :
  is_u64 id → 0 ≤ n0 → n0 + 2 ^ 31 * len es < 2 ^ 64 → Forall event_ok es →
  exec_all es (system_new (stream_new id epoch start n0 false)) = Some y →
  runs n0 (sy_submitted y) (ss_next_offset (sy_stream y)) ∧ Forall (λ r, stream_id r = id) (sy_submitted y)
  ∧ n0 ≤ ss_confirm_offset (sy_stream y) ≤ ss_next_offset (sy_stream y)
  ∧ (acked_in_order y → ∀ k r, sy_submitted y !! k = Some r → last_offset r ≤ ss_confirm_offset (sy_stream y) →
       sy_answers y !! k = Some (Ok tt)).
Proof.
  intros Hid Hn0 Hb Hes Hrun. destruct (appends_run id n0 Hid Hn0 es epoch start y Hes Hb Hrun) as [_ [H1 _ _ H4 H5]].
  split; [done|]. split; [done|]. pose proof (runs_le _ _ _ H1) as Hle. destruct H4 as [E|(k & q & Hq & Ha & El)].
  - rewrite E. split; [lia|]. intros _ k r Hr Hlast. destruct (runs_at _ _ _ _ _ H1 Hr) as (Hlo%runs_le & _ & ?). lia.
  - destruct (runs_at _ _ _ _ _ H1 Hq) as (Hlo%runs_le & Hd & Hlt).
    rewrite (drop_S _ _ _ Hq) in Hd. destruct Hd as (_ & _ & Hhi%runs_le). split; [lia|].
    intros Ho j r Hr Hlast. destruct (decide (j < k)%nat) as [Hj|Hj]; [by eapply Ho|].
    destruct (decide (j = k)) as [->|Hne]; [congruence|].
    pose proof (runs_mono _ _ _ k j q r H1 Hq Hr ltac:(lia)). destruct (runs_at _ _ _ _ _ H1 Hr) as (_ & _ & ?). lia.
Qed.

(** C28: a trim never cuts a read short.  Whenever the stream has asked the metadata plane
    to trim to an offset, no read that is still running started below it: reads that
    passed the bounds check earlier have finished, later ones were checked against the
    new start. *)
Theorem trim_waits_for_fetches es id epoch start n0 y t s e :
  0 ≤ start < 2 ^ 63 → len es < 2 ^ 64 → Forall event_ok es →
  exec_all es (system_new (stream_new id epoch start n0 false)) = Some y →
  sy_fetches y !! t = Some (FReading s e) → Forall (λ o, o ≤ s) (sy_trim_calls y).
Proof.
  intros Hst Hb Hes Hrun Ht. destruct (trims_run es id epoch start n0 y Hes Hst Hb Hrun) as [_ _ _ _ _ H].
  by destruct (H _ _ Ht).
Qed.

(** C27: a graceful close is clean.  When a close that was not forced goes on to upload and
    close the stream, every record the stream ever submitted has been answered by the
    storage and no append is under way; whatever is called afterwards, nothing more is
    submitted; and [close_stream] is called at most once however many closes run. *)
Theorem graceful_close_drains es es' id epoch start n0 y y' t c :
  len (es ++ es') < 2 ^ 64 → Forall event_ok (es ++ es') →
  exec_all es (system_new (stream_new id epoch start n0 false)) = Some y →
  sy_closes y !! t = Some c → graceful c = true → exec_all es' y = Some y' →
  (∀ k, (k < length (sy_submitted y))%nat → is_Some (sy_answers y !! k))
  ∧ quiet (sy_appends y) ∧ sy_submitted y' = sy_submitted y ∧ (sy_close_calls y' ≤ 1)%nat.
Proof.
  rewrite length_app. intros Hb [Hes Hes']%Forall_app Hrun Hc Hg Hrun'.
  destruct (closes_run es id epoch start n0 y Hes ltac:(lia) Hrun) as [Hi Ho].
  pose proof (ci_quiet _ _ _ _ _ _ _ Hi _ _ Hc Hg) as Hq. pose proof (ci_marked _ _ _ _ _ _ _ Hi _ _ Hc) as Hm.
  destruct (exec_all_ind (λ _ _, True) es 0 (system_new (stream_new id epoch start n0 false)) y (λ _ _ _ _ _ _, I) Hes eq_refl I Hrun) as [_ Hsn].
  split; [|split; [done|split]].
  - intros k Hk. destruct (sy_answers y !! k) as [r|] eqn:E; [by eexists|].
    destruct (ci_waiting _ _ _ _ _ _ _ Hi k Hk E) as (t' & o & c' & Ht'). by destruct (Hq _ _ Ht').
  - destruct (exec_all_ind (λ _ x, (ss_status (sy_stream x) ≠ 0 ∧ quiet (sy_appends x)) ∧ sy_submitted x = sy_submitted y)
      es' 0 y y') as [[_ H] _]; try done.
    intros n x x' [Hx E] _ Hs. destruct (quiet_step _ _ Hx Hs) as [? E']. split; [done|]. by rewrite E'.
  - destruct (exec_all_ind (λ n x, Z.of_nat n < 2 ^ 64 → closes_ok n x) es' (length es) y y') as [H _]; try done.
    { intros n x x' IH _ Hs Hn. eapply step_closes_ok; [done| |done]. apply IH. lia. }
    destruct H as [_ [_ [[-> _]|[-> _]]]]; lia.
Qed.

(** What the stream with id [st] handed to the storage since it was opened from [m0]. *)
Definition fed_by_facade (m0 : MetadataState) (st : Z) (l : list StreamRecordBatch) : Prop :=
  ∃ x es y, ms_streams m0 !! st = Some x ∧ sm_state x = StreamOpened ∧ is_u64 st ∧ 0 ≤ sm_end_offset x
    ∧ sm_end_offset x + 2 ^ 31 * len es < 2 ^ 64 ∧ Forall event_ok es
    ∧ exec_all es (system_new (opened_stream st 0 false x)) = Some y ∧ l `prefix_of` sy_submitted y.

(** C29: the history a crash is recovered from has no gaps.  If what the log confirmed of
    each stream is a prefix of what that stream's facade submitted since it was opened
    from the registry, under any interleaving of calls, then the history is continuous,
    the assumption under which recovery loses nothing. *)
Theorem facade_history_continuous m0 hist :
  (∀ st, of_stream st hist.*1 ≠ [] → fed_by_facade m0 st (of_stream st hist.*1)) → continuous m0 hist.
Proof.
  intros H st Hne. destruct (H st Hne) as (x & es & y & Hx & Ho & Hst & H0 & Hb & Hes & Hrun & [k Hk]).
  destruct (appends_run st (sm_end_offset x) Hst H0 es _ _ y Hes Hb Hrun) as [_ [Hr _ _ _ _]].
  rewrite Hk in Hr. apply runs_app in Hr as (e & Hr & _). by exists x, e.
Qed.

(** ** Witnesses *)

Definition demo_events : list Event :=
  [EAppend 0 (mkRecordBatch 2 [7]); EAppend 1 (mkRecordBatch 3 [8]); EAppendStep 0; EAppendStep 1; EAppendStep 1; EAppendStep 0;
   EAnswer 0 (Ok tt); EAnswer 1 (Ok tt); EAppendStep 0; EFetch 0 10 12; EFetchStep 0; EFetchStep 0; ETrim 0 12; ETrimStep 0; ETrimStep 0;
   EFetch 1 12 13; EFetchStep 1; EAppendStep 1].

Definition demo_close : list Event := [EClose 0 false; ECloseStep 0 false (Ok tt)].
Definition demo_after : list Event :=
  [EAppend 2 (mkRecordBatch 1 [9]); EAppendStep 2; EFetchStep 1; ECloseStep 0 false (Ok tt); ECloseStep 0 false (Ok tt);
   ECloseStep 0 false (Ok tt); ECloseStep 0 false (Ok tt)].

Definition demo_system : System := system_new (stream_new 5 1 10 10 false).
Definition demo_run (es : list Event) : System := default demo_system (exec_all es demo_system).

Lemma demo_events_ok : Forall event_ok (demo_events ++ demo_close ++ demo_after).
Proof. repeat (apply Forall_cons_2; [cbn; try (split; [lia|]); try lia; try done; int_lia|]). apply Forall_nil_2. Qed.

Lemma demo_acked : acked_in_order (demo_run demo_events).
Proof.
  assert (sy_answers (demo_run demo_events) = <[1%nat := Ok tt]> (<[0%nat := Ok tt]> ∅)) as E by (vm_compute; reflexivity).
  intros j k Hj. rewrite E. intros [[<- _]|[_ [[<- _]|[_ Hk]]%lookup_insert_Some]]%lookup_insert_Some; [|lia|by rewrite lookup_empty in Hk].
  assert (j = 0%nat) as -> by lia. reflexivity.
Qed.

Lemma stream_offsets_exact_witness :
  runs 10 (sy_submitted (demo_run demo_events)) 15 ∧ sy_answers (demo_run demo_events) !! 0%nat = Some (Ok tt).
Proof.
  destruct (stream_offsets_exact demo_events 5 1 10 10 (demo_run demo_events)) as (H1 & _ & _ & H4).
  - vm_compute. intuition discriminate.
  - lia.
  - vm_compute. reflexivity.
  - exact (proj1 (proj1 (Forall_app _ _ _) demo_events_ok)).
  - vm_compute. reflexivity.
  - split; [exact H1|].
    apply (H4 demo_acked 0%nat (new 5 1 10 3 [8])); vm_compute; [reflexivity|discriminate].
Defined.

Lemma trim_waits_for_fetches_witness :
  sy_trim_calls (demo_run demo_events) = [12] ∧ Forall (λ o, o ≤ 12) (sy_trim_calls (demo_run demo_events)).
Proof.
  split; [vm_compute; reflexivity|].
  apply (trim_waits_for_fetches demo_events 5 1 10 10 (demo_run demo_events) 1 12 13).
  - lia.
  - vm_compute. reflexivity.
  - exact (proj1 (proj1 (Forall_app _ _ _) demo_events_ok)).
  - vm_compute. reflexivity.
  - vm_compute. reflexivity.
Defined.

Lemma graceful_close_drains_witness :
  sy_submitted (demo_run (demo_events ++ demo_close ++ demo_after)) = sy_submitted (demo_run (demo_events ++ demo_close))
  ∧ sy_close_calls (demo_run (demo_events ++ demo_close ++ demo_after)) = 1%nat.
Proof.
  destruct (graceful_close_drains (demo_events ++ demo_close) demo_after 5 1 10 10 (demo_run (demo_events ++ demo_close))
    (demo_run (demo_events ++ demo_close ++ demo_after)) 0 CDrained) as (_ & _ & H & _).
  - vm_compute. reflexivity.
  - rewrite <- app_assoc. apply demo_events_ok.
  - vm_compute. reflexivity.
  - vm_compute. reflexivity.
  - reflexivity.
  - vm_compute. reflexivity.
  - split; [exact H|vm_compute; reflexivity].
Defined.

Definition demo_registry : MetadataState := mkMeta ∅ ∅ {[5 := mkStream 5 1 10 10 StreamOpened 0]} 6 ∅ 0 1.
Definition demo_offset : RecordOffset := {| ro_epoch := 0; ro_offset := 0; ro_size := 0 |}.
Definition demo_history : History := [(new 5 1 10 3 [8], demo_offset)].

Lemma facade_history_continuous_witness : continuous demo_registry demo_history.
Proof.
  apply facade_history_continuous. intros st Hne.
  destruct (decide (st = 5)) as [->|Hn].
  - exists (mkStream 5 1 10 10 StreamOpened 0), demo_events, (demo_run demo_events).
    split; [reflexivity|]. split; [reflexivity|]. split; [vm_compute; intuition discriminate|]. split; [vm_compute; discriminate|].
    split; [vm_compute; reflexivity|]. split; [exact (proj1 (proj1 (Forall_app _ _ _) demo_events_ok))|].
    split; [vm_compute; reflexivity|]. exists [new 5 1 13 2 [7]]. vm_compute. reflexivity.
  - exfalso. apply Hne. unfold demo_history, of_stream. cbn [fmap list_fmap fst]. rewrite filter_cons_False; [done|].
    replace (stream_id (new 5 1 10 3 [8])) with 5 by (vm_compute; reflexivity). congruence.
Defined.
