(* ===== verification/StreamClient.v ===== *)
(** * The stream client

    Models [s3stream-core/src/stream_client.rs]: the registry of open streams, opening,
    compaction of the open streams, and the two ways to close them all.  Every stream is a
    [System] of the stream facade, in an arena; an [Arc] of a stream is its position.  What
    the stream manager answers, the clock, and the steps of the streams themselves are
    events. *)
From S2P Require Import Prelude Collections Codec ObjectStore ObjectFormat Metadata Stream StreamCompactor.

(** Milliseconds. *)
Definition COMPACTION_COOLDOWN_AFTER_OPEN : Z := 60 * 1000.
Definition MINOR_V1_COMPACTION_INTERVAL : Z := 10 * 60 * 1000.
Definition MAJOR_V1_COMPACTION_INTERVAL : Z := 60 * 60 * 1000.

Record OpenedStream : Type := mkOpened { op_stream : nat; op_opened_at : Z }.

(** A call to open a stream: waiting for the new stream's id, or for its metadata. *)
Inductive OpenTask : Type :=
| OCreating (epoch : Z)
| OOpening (stream_id : Z).

(** A loop that closes streams one after the other; [started]: the close of the first is
    under way. *)
Record SweepTask : Type := mkSweep { sw_force : bool; sw_streams : list nat; sw_started : bool }.

Record S3StreamClient : Type := mkClient {
  cl_streams : list System;
  cl_opened : gmap Z OpenedStream;
  cl_shutdown : bool;
  cl_ticks : option Z;
  cl_opens : gmap nat OpenTask;
  cl_sweeps : gmap nat SweepTask;
  cl_compactions : list (StreamView * CompactionLevel);
}.

Definition client_new (compaction_enabled : bool) : S3StreamClient :=
  mkClient [] ∅ false (if compaction_enabled then Some 0 else None) ∅ ∅ [].

Definition with_streams (f : list System → list System) (c : S3StreamClient) : S3StreamClient :=
  mkClient (f (cl_streams c)) (cl_opened c) (cl_shutdown c) (cl_ticks c) (cl_opens c) (cl_sweeps c) (cl_compactions c).
Definition with_opened (f : gmap Z OpenedStream → gmap Z OpenedStream) (c : S3StreamClient) : S3StreamClient :=
  mkClient (cl_streams c) (f (cl_opened c)) (cl_shutdown c) (cl_ticks c) (cl_opens c) (cl_sweeps c) (cl_compactions c).
Definition with_opens (f : gmap nat OpenTask → gmap nat OpenTask) (c : S3StreamClient) : S3StreamClient :=
  mkClient (cl_streams c) (cl_opened c) (cl_shutdown c) (cl_ticks c) (f (cl_opens c)) (cl_sweeps c) (cl_compactions c).
Definition with_sweeps (f : gmap nat SweepTask → gmap nat SweepTask) (c : S3StreamClient) : S3StreamClient :=
  mkClient (cl_streams c) (cl_opened c) (cl_shutdown c) (cl_ticks c) (cl_opens c) (f (cl_sweeps c)) (cl_compactions c).
Definition with_ticks (ticks : option Z) (c : S3StreamClient) : S3StreamClient :=
  mkClient (cl_streams c) (cl_opened c) (cl_shutdown c) ticks (cl_opens c) (cl_sweeps c) (cl_compactions c).
Definition set_shutdown (c : S3StreamClient) : S3StreamClient :=
  mkClient (cl_streams c) (cl_opened c) true (cl_ticks c) (cl_opens c) (cl_sweeps c) (cl_compactions c).
Definition request_compactions (l : list (StreamView * CompactionLevel)) (c : S3StreamClient) : S3StreamClient :=
  mkClient (cl_streams c) (cl_opened c) (cl_shutdown c) (cl_ticks c) (cl_opens c) (cl_sweeps c) (cl_compactions c ++ l).

Definition check_state (c : S3StreamClient) : result StreamError unit := if cl_shutdown c then Err SE_Unexpected else Ok tt.

(** ** Opening *)

Definition add_stream (s : S3Stream) : S3StreamClient → S3StreamClient := with_streams (λ l, l ++ [system_new s]).

(** [open_stream0] up to the metadata; [handle] names the metadata listener of a snapshot stream. *)
Definition open_begin (t : nat) (stream_id epoch : Z) (snapshot_read : bool) (handle : Z) (c : S3StreamClient) : S3StreamClient * result StreamError unit :=
  match check_state c with
  | Err e => (c, Err e)
  | Ok _ =>
      if snapshot_read
      then (add_stream (attach_metadata_listener handle (stream_new stream_id epoch SNAPSHOT_FAKE_OFFSET SNAPSHOT_FAKE_OFFSET true)) c, Ok tt)
      else (with_opens (<[t := OOpening stream_id]>) c, Ok tt)
  end.

(** The rest of [open_stream0]. *)
Definition open_end (t : nat) (now : Z) (answer : result StreamError StreamMetadata) (c : S3StreamClient) : option S3StreamClient :=
  let* task := cl_opens c !! t in
  match task with
  | OOpening stream_id =>
      let c := with_opens (delete t) c in
      match answer with
      | Err _ => Some c
      | Ok metadata =>
          let h := length (cl_streams c) in
          let s := stream_new stream_id (sm_epoch metadata) (sm_start_offset metadata) (sm_end_offset metadata) false in
          Some (with_opened (<[stream_id := mkOpened h now]>) (add_stream s c))
      end
  | OCreating _ => None
  end.

(** [create_and_open_stream]: the check, the new id, and [open_stream0]. *)
Definition create_begin (t : nat) (epoch : Z) (c : S3StreamClient) : S3StreamClient * result StreamError unit :=
  match check_state c with
  | Err e => (c, Err e)
  | Ok _ => (with_opens (<[t := OCreating epoch]>) c, Ok tt)
  end.
Definition create_end (t : nat) (answer : result StreamError Z) (c : S3StreamClient) : option S3StreamClient :=
  let* task := cl_opens c !! t in
  match task with
  | OCreating epoch =>
      let c := with_opens (delete t) c in
      match answer with
      | Err _ => Some c
      | Ok stream_id => Some (open_begin t stream_id epoch false 0 c).1
      end
  | OOpening _ => None
  end.

Definition get_stream (stream_id : Z) (c : S3StreamClient) : option System :=
  let* o := cl_opened c !! stream_id in cl_streams c !! op_stream o.

(** ** Compacting *)

Definition view_of (s : S3Stream) : StreamView := Build_StreamView (ss_stream_id s) (ss_epoch s) (ss_start_offset s) (ss_confirm_offset s).

Definition compact_stream_object (stream_id : Z) (level : CompactionLevel) (c : S3StreamClient) : S3StreamClient :=
  match get_stream stream_id c with
  | None => c
  | Some y =>
      let s := sy_stream y in
      request_compactions [(Build_StreamView stream_id (ss_epoch s) (ss_start_offset s) (ss_confirm_offset s), level)] c
  end.

Definition major_every : Z := Z.max (MAJOR_V1_COMPACTION_INTERVAL / 1000 / (MINOR_V1_COMPACTION_INTERVAL / 1000)) 1.

(** The streams a tick compacts. *)
Definition due_streams (now : Z) (c : S3StreamClient) : list S3Stream :=
  omap (λ o, if COMPACTION_COOLDOWN_AFTER_OPEN <=? sat_sub now (op_opened_at o)
             then let* y := cl_streams c !! op_stream o in if is_closed (sy_stream y) then None else Some (sy_stream y)
             else None) (values (cl_opened c)).

(** One tick of [compaction_scheduler], which ends at the first tick after the shutdown. *)
Definition scheduler_tick (now : Z) (c : S3StreamClient) : option S3StreamClient :=
  let* ticks := cl_ticks c in
  if cl_shutdown c then Some (with_ticks None c)
  else
    let ticks := u64 (ticks + 1) in
    let level := if ticks mod major_every =? 0 then MajorV1 else MinorV1 in
    Some (request_compactions ((λ s, (view_of s, level)) <$> due_streams now c) (with_ticks (Some ticks) c)).

(** ** Closing *)

Definition shutdown (t : nat) (c : S3StreamClient) : S3StreamClient :=
  let c := with_ticks None (set_shutdown c) in
  let streams := op_stream <$> values (cl_opened c) in
  with_sweeps (<[t := mkSweep false streams false]>) (with_opened (λ _, ∅) c).

Definition force_close (t : nat) (c : S3StreamClient) : S3StreamClient :=
  let c := set_shutdown c in
  let streams := op_stream <$> values (cl_opened c) in
  with_sweeps (<[t := mkSweep true streams false]>) c.

(** The loops of both: begin the close of the next stream, or go on when it is over; a forced
    close then takes the stream off the registry. *)
Definition sweep_step (t : nat) (c : S3StreamClient) : option S3StreamClient :=
  let* w := cl_sweeps c !! t in
  match sw_streams w with
  | [] => Some (with_sweeps (delete t) c)
  | h :: rest =>
      let* y := cl_streams c !! h in
      if sw_started w then
        match sy_closes y !! t with
        | Some _ => None
        | None =>
            let c := if sw_force w then with_opened (delete (ss_stream_id (sy_stream y))) c else c in
            Some (with_sweeps (<[t := mkSweep (sw_force w) rest false]>) c)
        end
      else
        let* y' := exec (EClose t (sw_force w)) y in
        Some (with_sweeps (<[t := mkSweep (sw_force w) (h :: rest) true]>) (with_streams (<[h := y']>) c))
  end.

(** ** Runs *)

(** A new call has a name of its own. *)
Inductive ClientEvent : Type :=
| CCreate (t : nat) (epoch : Z)
| CCreated (t : nat) (answer : result StreamError Z)
| COpen (t : nat) (stream_id epoch : Z) (snapshot_read : bool) (handle : Z)
| COpened (t : nat) (now : Z) (answer : result StreamError StreamMetadata)
| CCompact (stream_id : Z) (level : CompactionLevel)
| CTick (now : Z)
| CShutdown (t : nat)
| CForceClose (t : nat)
| CSweep (t : nat)
| CStream (h : nat) (e : Event).

Definition client_step (e : ClientEvent) (c : S3StreamClient) : option S3StreamClient :=
  match e with
  | CCreate t epoch => if bool_decide (cl_opens c !! t = None) then Some (create_begin t epoch c).1 else None
  | CCreated t answer => create_end t answer c
  | COpen t stream_id epoch snapshot_read handle => if bool_decide (cl_opens c !! t = None) then Some (open_begin t stream_id epoch snapshot_read handle c).1 else None
  | COpened t now answer => open_end t now answer c
  | CCompact stream_id level => Some (compact_stream_object stream_id level c)
  | CTick now => scheduler_tick now c
  | CShutdown t => if bool_decide (cl_sweeps c !! t = None) then Some (shutdown t c) else None
  | CForceClose t => if bool_decide (cl_sweeps c !! t = None) then Some (force_close t c) else None
  | CSweep t => sweep_step t c
  | CStream h e => let* y := cl_streams c !! h in let* y := exec e y in Some (with_streams (<[h := y]>) c)
  end.
Fixpoint client_run (es : list ClientEvent) (c : S3StreamClient) : option S3StreamClient :=
  match es with
  | [] => Some c
  | e :: es => let* c := client_step e c in client_run es c
  end.

(** ** What the steps of a stream keep *)

(** A stream keeps its identity, and its marks. *)
Definition goes_on (s s' : S3Stream) : Prop :=
  ss_stream_id s' = ss_stream_id s ∧ ss_snapshot_read s' = ss_snapshot_read s ∧ ∃ m, ss_status s' = Z.lor (ss_status s) m.

Lemma goes_on_refl s : goes_on s s.
Proof. split_and!; [done..|]. exists 0. by rewrite Z.lor_0_r. Qed.

Lemma goes_on_mark mask s : goes_on s (mark mask s).
Proof. split_and!; [done..|]. by exists mask. Qed.

Lemma exec_goes_on e y y' : exec e y = Some y' → goes_on (sy_stream y) (sy_stream y').
Proof.
  pose proof (goes_on_refl (sy_stream y)) as Hr. destruct e as [t b|t|k r|t s e|t|t o|t|t f|t x r| |m|o]; cbn [exec].
  - destruct (bool_decide _); [|done]. intros [= <-]. unfold append_begin. by destruct (ss_snapshot_read _).
  - unfold append_step. destruct (sy_appends y !! t) as [[b|b|k o c]|]; [..|done].
    + intros [= <-]. by destruct (is_operable _).
    + by intros [= <-].
    + destruct (sy_answers y !! k) as [[u|e]|]; [..|done]; intros [= <-]; [done|]. apply (goes_on_mark FENCED_MARK).
  - unfold storage_answers. destruct (_ && _); [|done]. by intros [= <-].
  - destruct (bool_decide _); [|done]. by intros [= <-].
  - unfold fetch_step. destruct (sy_fetches y !! t) as [[s e|s e]|]; [..|done]; [|by intros [= <-]]. destruct (fetch_check _ _ _) as [[r|]|e']; by intros [= <-].
  - destruct (bool_decide _); [|done]. intros [= <-]. unfold trim_begin. by destruct (ss_snapshot_read _).
  - unfold trim_step. destruct (sy_trims y !! t) as [[o|o|o]|]; [..|done].
    + destruct (sy_trim_lock y); [done|]. intros [= <-]. by destruct (_ <? _).
    + destruct (idle _); [|done]. by intros [= <-].
    + by intros [= <-].
  - destruct (bool_decide _); [|done]. intros [= <-]. unfold close_begin. destruct (ss_snapshot_read _); [done|]. apply (goes_on_mark CLOSED_MARK).
  - unfold close_step. destruct (sy_closes y !! t) as [[[]| |f|f|f]|]; [..|done].
    + by intros [= <-].
    + destruct (idle _); [|done]. by intros [= <-].
    + destruct (_ || _); [|done]. by intros [= <-].
    + destruct (sy_close_lock y); [done|]. intros [= <-]. by destruct (ss_close_result _).
    + intros [= <-]. by destruct r.
    + by intros [= <-].
  - unfold destroy_end. destruct (ss_snapshot_read _); [done|]. destruct (ss_close_result _) as [[]|]; [|done..]. intros [= <-]. apply (goes_on_mark DESTROY_MARK).
  - destruct (ss_snapshot_read (sy_stream y)) eqn:Es; [|done]. intros [= <-]. cbn. unfold on_new_stream_metadata, update_snapshot_read_confirm_offset. by destruct (_ <? _).
  - intros [= <-]. unfold confirm_offset_set. destruct (negb _); [done|]. cbn. unfold update_snapshot_read_confirm_offset. by destruct (_ <? _).
Qed.

Lemma goes_on_closed s s' : goes_on s s' → is_closed s = true → is_closed s' = true.
Proof.
  intros (_ & _ & m & Em). unfold is_closed. rewrite Em, Z.land_lor_distr_l. rewrite !negb_true_iff, !Z.eqb_neq. intros Hs Hz. apply Hs. by apply Z.lor_eq_0_iff in Hz as [? _].
Qed.

Lemma close_marks t force y y' : exec (EClose t force) y = Some y' → ss_snapshot_read (sy_stream y) = false → is_closed (sy_stream y') = true.
Proof.
  cbn. destruct (bool_decide _); [|done]. intros [= <-] Es. unfold close_begin. rewrite Es. cbn. unfold is_closed, mark. cbn [ss_status set_status]. rewrite Z.land_lor_distr_l.
  rewrite negb_true_iff, Z.eqb_neq. intros [_ H]%Z.lor_eq_0_iff. done.
Qed.

(** ** The registry *)

(** Open streams are known under their own id. *)
Definition registered (c : S3StreamClient) : Prop :=
  ∀ id o, cl_opened c !! id = Some o → ∃ y, cl_streams c !! op_stream o = Some y ∧ ss_stream_id (sy_stream y) = id ∧ ss_snapshot_read (sy_stream y) = false.

(** Streams are only added, and go on. *)
Definition streams_go_on (c c' : S3StreamClient) : Prop :=
  ∀ h y, cl_streams c !! h = Some y → ∃ y', cl_streams c' !! h = Some y' ∧ goes_on (sy_stream y) (sy_stream y').

Lemma streams_same c c' : cl_streams c' = cl_streams c → streams_go_on c c'.
Proof. intros E h y Hy. exists y. rewrite E. split; [done|apply goes_on_refl]. Qed.

Lemma streams_added s c c' : cl_streams c' = cl_streams c ++ [s] → streams_go_on c c'.
Proof. intros E h y Hy. exists y. rewrite E. split; [by apply lookup_app_l_Some|apply goes_on_refl]. Qed.

Lemma streams_stepped h y y' e c c' : cl_streams c !! h = Some y → exec e y = Some y' → cl_streams c' = <[h := y']> (cl_streams c) → streams_go_on c c'.
Proof.
  intros Hy He E h' x Hx. rewrite E. destruct (decide (h' = h)) as [->|].
  - rewrite Hy in Hx. injection Hx as <-. exists y'. split; [apply list_lookup_insert_eq; by eapply lookup_lt_Some|by eapply exec_goes_on].
  - exists x. rewrite list_lookup_insert_ne by done. split; [done|apply goes_on_refl].
Qed.

Lemma step_streams e c c' : client_step e c = Some c' → streams_go_on c c'.
Proof.
  destruct e as [t epoch|t answer|t id epoch sr handle|t now answer|id level|now|t|t|t|h e]; cbn [client_step].
  - destruct (bool_decide _); [|done]. intros [= <-]. apply streams_same. unfold create_begin, check_state. by destruct (cl_shutdown c).
  - unfold create_end. destruct (cl_opens c !! t) as [[]|]; [|done..]. destruct answer; intros [= <-]; apply streams_same; [|done]. unfold open_begin, check_state. cbn. by destruct (cl_shutdown c).
  - destruct (bool_decide _); [|done]. intros [= <-]. unfold open_begin, check_state. destruct (cl_shutdown c); [by apply streams_same|]. destruct sr; [by eapply streams_added|by apply streams_same].
  - unfold open_end. destruct (cl_opens c !! t) as [[]|]; [done| |done]. destruct answer; intros [= <-]; [by eapply streams_added|by apply streams_same].
  - intros [= <-]. apply streams_same. unfold compact_stream_object. by destruct (get_stream id c).
  - unfold scheduler_tick. destruct (cl_ticks c); [|done]. destruct (cl_shutdown c); intros [= <-]; by apply streams_same.
  - destruct (bool_decide _); [|done]. intros [= <-]. by apply streams_same.
  - destruct (bool_decide _); [|done]. intros [= <-]. by apply streams_same.
  - unfold sweep_step. destruct (cl_sweeps c !! t) as [[force l started]|]; [|done]. destruct l as [|h l]; cbn [sw_streams sw_started sw_force]; [intros [= <-]; by apply streams_same|].
    destruct (cl_streams c !! h) as [y|] eqn:Ey; [|done]. destruct started.
    + destruct (sy_closes y !! t); [done|]. intros [= <-]. apply streams_same. by destruct force.
    + destruct (exec _ y) as [y'|] eqn:Ee; [|done]. intros [= <-]. by eapply streams_stepped.
  - destruct (cl_streams c !! h) as [y|] eqn:Ey; [|done]. destruct (exec e y) as [y'|] eqn:Ee; [|done]. intros [= <-]. by eapply streams_stepped.
Qed.

Lemma step_opened e c c' id o :
  client_step e c = Some c' → cl_opened c' !! id = Some o →
  cl_opened c !! id = Some o ∨ ∃ y, cl_streams c' !! op_stream o = Some y ∧ ss_stream_id (sy_stream y) = id ∧ ss_snapshot_read (sy_stream y) = false.
Proof.
  destruct e as [t epoch|t answer|t sid epoch sr handle|t now answer|sid level|now|t|t|t|h e]; cbn [client_step].
  - destruct (bool_decide _); [|done]. intros [= <-]. unfold create_begin, check_state. destruct (cl_shutdown c); by left.
  - unfold create_end. destruct (cl_opens c !! t) as [[]|]; [|done..]. destruct answer; intros [= <-]; [|by left]. unfold open_begin, check_state. cbn. destruct (cl_shutdown c); by left.
  - destruct (bool_decide _); [|done]. intros [= <-]. unfold open_begin, check_state. destruct (cl_shutdown c), sr; by left.
  - unfold open_end. destruct (cl_opens c !! t) as [[|sid]|]; [done| |done]. destruct answer as [m|]; intros [= <-]; [|by left]. cbn [with_opened cl_opened].
    destruct (decide (id = sid)) as [->|]; [rewrite lookup_insert_eq|rewrite lookup_insert_ne by done; by left]. intros [= <-]. right. cbn. rewrite lookup_app_r, Nat.sub_diag by done. by eexists.
  - intros [= <-]. unfold compact_stream_object. destruct (get_stream sid c); by left.
  - unfold scheduler_tick. destruct (cl_ticks c); [|done]. destruct (cl_shutdown c); intros [= <-]; by left.
  - destruct (bool_decide _); [|done]. intros [= <-]. cbn. by rewrite lookup_empty.
  - destruct (bool_decide _); [|done]. intros [= <-]. by left.
  - unfold sweep_step. destruct (cl_sweeps c !! t) as [[force l started]|]; [|done]. destruct l as [|h l]; cbn [sw_streams sw_started sw_force]; [intros [= <-]; by left|].
    destruct (cl_streams c !! h) as [y|]; [|done]. destruct started.
    + destruct (sy_closes y !! t); [done|]. intros [= <-]. destruct force; [|by left]. cbn. intros [_ H]%lookup_delete_Some. by left.
    + destruct (exec _ y); [|done]. intros [= <-]. by left.
  - destruct (cl_streams c !! h) as [y|]; [|done]. destruct (exec e y); [|done]. intros [= <-]. by left.
Qed.

Lemma goes_on_known id s s' : goes_on s s' → ss_stream_id s = id ∧ ss_snapshot_read s = false → ss_stream_id s' = id ∧ ss_snapshot_read s' = false.
Proof. intros (-> & -> & _). done. Qed.

Lemma step_registered e c c' : registered c → client_step e c = Some c' → registered c'.
Proof.
  intros Hr E id o Ho. destruct (step_opened e c c' id o E Ho) as [Ho'|H]; [|done]. destruct (Hr id o Ho') as (y & Hy & Hid).
  destruct (step_streams e c c' E _ _ Hy) as (y' & Hy' & Hg). exists y'. split; [done|]. by eapply goes_on_known.
Qed.

Lemma run_registered es c c' : registered c → client_run es c = Some c' → registered c'.
Proof.
  revert c; induction es as [|e es IH]; intros c Hr; cbn [client_run]; [by intros [= <-]|]. destruct (client_step e c) as [c1|] eqn:E; [|done]. intros H. eapply IH; [by eapply step_registered|done].
Qed.

Lemma new_registered enabled : registered (client_new enabled).
Proof. intros id o H. cbn in H. by rewrite lookup_empty in H. Qed.

(** A tick compacts exactly the streams that are registered, not closed, and past the
    cooldown, each as it stands, and every sixth tick is a major one. *)
Lemma tick_compacts c now ticks :
  registered c → cl_ticks c = Some ticks → cl_shutdown c = false →
  ∃ l, scheduler_tick now c = Some (request_compactions l (with_ticks (Some (u64 (ticks + 1))) c))
    ∧ ∀ v level, (v, level) ∈ l ↔ level = (if u64 (ticks + 1) mod 6 =? 0 then MajorV1 else MinorV1)
        ∧ ∃ o y, cl_opened c !! sv_stream_id v = Some o ∧ cl_streams c !! op_stream o = Some y ∧ COMPACTION_COOLDOWN_AFTER_OPEN ≤ sat_sub now (op_opened_at o)
          ∧ is_closed (sy_stream y) = false ∧ v = view_of (sy_stream y).
Proof.
  intros Hr Ht Hs. unfold scheduler_tick. rewrite Ht, Hs. change major_every with 6. eexists. split; [reflexivity|]. intros v level. rewrite list_elem_of_fmap. split.
  - intros (s & [= -> ->] & (o & ([id o'] & -> & Hin)%list_elem_of_fmap & Ho)%list_elem_of_omap). split; [done|]. apply elem_of_entries in Hin. cbn in Ho.
    destruct (Z.leb_spec COMPACTION_COOLDOWN_AFTER_OPEN (sat_sub now (op_opened_at o'))); [|done]. destruct (cl_streams c !! op_stream o') as [y|] eqn:Hy; [|done].
    destruct (is_closed (sy_stream y)) eqn:Hc; [done|]. injection Ho as <-. exists o', y. destruct (Hr id o' Hin) as (y1 & Hy1 & Hid & _). rewrite Hy in Hy1. injection Hy1 as <-. cbn. by rewrite Hid.
  - intros (-> & o & y & Ho & Hy & Hcool & Hc & ->). exists (sy_stream y). split; [done|]. apply list_elem_of_omap. exists o. split; [apply list_elem_of_fmap; eexists (_, o); split; [done|by apply elem_of_entries]|].
    rewrite (proj2 (Z.leb_le _ _)) by done. by rewrite Hy, Hc.
Qed.

(** ** After a shutdown *)

(** Nothing is open, nothing is being opened, nobody compacts, and of the streams [drained] the
    ones that are not closed are still in the loop [t]. *)
Record shut (t : nat) (drained : list nat) (compactions : list (StreamView * CompactionLevel)) (c : S3StreamClient) : Prop := {
  sh_shutdown : cl_shutdown c = true;
  sh_opened : cl_opened c = ∅;
  sh_opens : cl_opens c = ∅;
  sh_ticks : cl_ticks c = None;
  sh_compactions : cl_compactions c = compactions;
  sh_drained h : h ∈ drained → ∃ y, cl_streams c !! h = Some y ∧ (is_closed (sy_stream y) = true ∨ ∃ w, cl_sweeps c !! t = Some w ∧ h ∈ sw_streams w);
  sh_sweep w h : cl_sweeps c !! t = Some w → h ∈ sw_streams w → ∃ y, cl_streams c !! h = Some y ∧ ss_snapshot_read (sy_stream y) = false;
  sh_started w h rest : cl_sweeps c !! t = Some w → sw_started w = true → sw_streams w = h :: rest → ∃ y, cl_streams c !! h = Some y ∧ is_closed (sy_stream y) = true;
}.

(** A step that leaves the loop alone. *)
Lemma shut_other t drained k c c' :
  shut t drained k c → streams_go_on c c' → cl_shutdown c' = true → cl_opened c' = ∅ → cl_opens c' = ∅ → cl_ticks c' = None → cl_compactions c' = k →
  cl_sweeps c' !! t = cl_sweeps c !! t → shut t drained k c'.
Proof.
  intros [S1 S2 S3 S4 S5 S6 S7 S8] Hg E1 E2 E3 E4 E5 E6. constructor; try done.
  - intros h Hh. destruct (S6 h Hh) as (y & Hy & Hc). destruct (Hg h y Hy) as (y' & Hy' & Hyy). exists y'. split; [done|]. rewrite E6. destruct Hc as [Hc|Hc]; [left; by eapply goes_on_closed|by right].
  - intros w h. rewrite E6. intros Hw Hh. destruct (S7 w h Hw Hh) as (y & Hy & Hs). destruct (Hg h y Hy) as (y' & Hy' & Hyy). exists y'. split; [done|]. destruct Hyy as (_ & -> & _). done.
  - intros w h rest. rewrite E6. intros Hw Hst El. destruct (S8 w h rest Hw Hst El) as (y & Hy & Hs). destruct (Hg h y Hy) as (y' & Hy' & Hyy). exists y'. split; [done|]. by eapply goes_on_closed.
Qed.

(** The loop goes on to the next stream once the close of the last is over. *)
Lemma shut_popped t drained k force h rest c :
  shut t drained k c → cl_sweeps c !! t = Some (mkSweep force (h :: rest) true) → shut t drained k (with_sweeps (<[t := mkSweep force rest false]>) c).
Proof.
  intros [S1 S2 S3 S4 S5 S6 S7 S8] Hw. constructor; cbn [with_sweeps cl_shutdown cl_opened cl_opens cl_ticks cl_compactions cl_streams cl_sweeps]; rewrite ?lookup_insert_eq; try done.
  - intros h' Hh'. destruct (S6 h' Hh') as (y & Hy & [Hc|(w & Hw' & Hin)]); [by eauto|]. rewrite Hw in Hw'. injection Hw' as <-. cbn in Hin.
    apply elem_of_cons in Hin as [->|Hin]; [destruct (S8 _ h rest Hw eq_refl eq_refl) as (y2 & Hy2 & Hc); rewrite Hy in Hy2; injection Hy2 as <-; by eauto|]. exists y. split; [done|]. right. by eexists.
  - intros w h' [= <-] Hin. cbn in Hin. eapply S7; [exact Hw|]. cbn. by right.
  - by intros w h' rest' [= <-].
Qed.

(** The loop begins to close the next stream. *)
Lemma shut_begun t drained k force h rest y y' c :
  shut t drained k c → cl_sweeps c !! t = Some (mkSweep force (h :: rest) false) → cl_streams c !! h = Some y → exec (EClose t force) y = Some y' →
  shut t drained k (with_sweeps (<[t := mkSweep force (h :: rest) true]>) (with_streams (<[h := y']>) c)).
Proof.
  intros Hs Hw Hy He. set (c' := with_sweeps _ _). pose proof (streams_stepped h y y' _ c c' Hy He eq_refl) as Hg. destruct Hs as [S1 S2 S3 S4 S5 S6 S7 S8].
  assert (cl_sweeps c' !! t = Some (mkSweep force (h :: rest) true)) as Hw' by apply lookup_insert_eq. destruct (S7 _ h Hw ltac:(left)) as (y0 & Hy0 & Hsn). rewrite Hy in Hy0. injection Hy0 as <-.
  constructor; try done.
  - intros h' Hh'. destruct (S6 h' Hh') as (x & Hx & Hc). destruct (Hg h' x Hx) as (x' & Hx' & Hxx). exists x'. split; [done|]. destruct Hc as [Hc|(w & Hw2 & Hin)]; [left; by eapply goes_on_closed|].
    right. rewrite Hw in Hw2. injection Hw2 as <-. by eexists.
  - intros w h'. rewrite Hw'. intros [= <-] Hin. destruct (S7 _ h' Hw Hin) as (x & Hx & Hxs). destruct (Hg h' x Hx) as (x' & Hx' & (_ & Hr & _)). exists x'. split; [done|]. by rewrite Hr.
  - intros w h' rest'. rewrite Hw'. intros [= <-] _ [= <- <-]. exists y'. split; [apply list_lookup_insert_eq; by eapply lookup_lt_Some|by eapply close_marks].
Qed.

(** A loop over nothing, in place of one that is over. *)
Lemma shut_nothing t drained k force c :
  shut t drained k c → cl_sweeps c !! t = None → shut t drained k (with_sweeps (<[t := mkSweep force [] false]>) c).
Proof.
  intros [S1 S2 S3 S4 S5 S6 S7 S8] Hw. constructor; cbn [with_sweeps cl_shutdown cl_opened cl_opens cl_ticks cl_compactions cl_streams cl_sweeps]; rewrite ?lookup_insert_eq; try done.
  - intros h Hh. destruct (S6 h Hh) as (y & Hy & [Hc|(w & Hw' & _)]); [by eauto|]. congruence.
  - intros w h [= <-] Hin. by apply not_elem_of_nil in Hin.
  - by intros w h rest [= <-].
Qed.

Lemma shut_over t drained k force started c :
  shut t drained k c → cl_sweeps c !! t = Some (mkSweep force [] started) → shut t drained k (with_sweeps (delete t) c).
Proof.
  intros [S1 S2 S3 S4 S5 S6 S7 S8] Hw. constructor; cbn [with_sweeps cl_shutdown cl_opened cl_opens cl_ticks cl_compactions cl_streams cl_sweeps]; rewrite ?lookup_delete_eq; try done.
  intros h Hh. destruct (S6 h Hh) as (y & Hy & [Hc|(w & Hw' & Hin)]); [by eauto|]. rewrite Hw in Hw'. injection Hw' as <-. by apply not_elem_of_nil in Hin.
Qed.

Lemma open_nothing c : cl_opened c = ∅ → op_stream <$> values (cl_opened c) = [].
Proof. intros ->. unfold values, entries. by rewrite map_to_list_empty. Qed.

Lemma shut_sweep t drained k t' c c' : shut t drained k c → sweep_step t' c = Some c' → shut t drained k c'.
Proof.
  intros Hs E. pose proof (step_streams (CSweep t') c c' E) as Hg. unfold sweep_step in E. destruct (cl_sweeps c !! t') as [[force l started]|] eqn:Hw; [|done].
  destruct l as [|h l]; cbn [sw_streams sw_started sw_force] in E.
  - injection E as <-. destruct (decide (t' = t)) as [->|]; [by eapply shut_over|]. destruct Hs as [S1 S2 S3 S4 S5 S6 S7 S8]. eapply shut_other; [by constructor|done..|]. by apply lookup_delete_ne.
  - destruct (cl_streams c !! h) as [y|] eqn:Hy; [|done]. destruct started.
    + destruct (sy_closes y !! t'); [done|]. injection E as <-.
      set (c1 := if force then with_opened (delete (ss_stream_id (sy_stream y))) c else c).
      assert (shut t drained k c1 ∧ cl_sweeps c1 = cl_sweeps c) as [Hs1 Ew].
      { subst c1. destruct force; [|done]. split; [|done]. destruct Hs as [S1 S2 S3 S4 S5 S6 S7 S8]. eapply shut_other; [by constructor|by apply streams_same|done| |done..]. cbn. by rewrite S2, delete_empty. }
      clearbody c1. destruct (decide (t' = t)) as [->|]; [apply (shut_popped t drained k force h); [done|by rewrite Ew]|].
      destruct Hs1 as [S1 S2 S3 S4 S5 S6 S7 S8]. eapply shut_other; [by constructor|by apply streams_same|done..|]. by apply lookup_insert_ne.
    + destruct (exec _ y) as [y'|] eqn:Ee; [|done]. injection E as <-. destruct (decide (t' = t)) as [->|]; [by eapply shut_begun|].
      destruct Hs as [S1 S2 S3 S4 S5 S6 S7 S8]. eapply shut_other; [by constructor|done..|]. by apply lookup_insert_ne.
Qed.

Lemma shut_step t drained k e c c' : shut t drained k c → client_step e c = Some c' → shut t drained k c'.
Proof.
  intros Hs E. pose proof (step_streams e c c' E) as Hg. pose proof Hs as [S1 S2 S3 S4 S5 S6 S7 S8].
  destruct e as [t' epoch|t' answer|t' sid epoch sr handle|t' now answer|sid level|now|t'|t'|t'|h e]; cbn [client_step] in E.
  - destruct (bool_decide _); [|done]. injection E as <-. unfold create_begin, check_state. by rewrite S1.
  - unfold create_end in E. by rewrite S3, lookup_empty in E.
  - destruct (bool_decide _); [|done]. injection E as <-. unfold open_begin, check_state. by rewrite S1.
  - unfold open_end in E. by rewrite S3, lookup_empty in E.
  - injection E as <-. unfold compact_stream_object, get_stream. by rewrite S2, lookup_empty.
  - unfold scheduler_tick in E. by rewrite S4 in E.
  - destruct (bool_decide (cl_sweeps c !! t' = None)) eqn:Hb; [|done]. apply bool_decide_eq_true in Hb. injection E as <-.
    unfold shutdown. cbn [with_ticks set_shutdown cl_opened]. rewrite open_nothing by done.
    set (c1 := with_opened _ _). assert (shut t drained k c1) as Hs1 by (eapply shut_other; [exact Hs|by apply streams_same|done..]).
    destruct (decide (t' = t)) as [->|]; [by apply shut_nothing|]. eapply shut_other; [exact Hs1|by apply streams_same|done..|]. by apply lookup_insert_ne.
  - destruct (bool_decide (cl_sweeps c !! t' = None)) eqn:Hb; [|done]. apply bool_decide_eq_true in Hb. injection E as <-.
    unfold force_close. cbn [set_shutdown cl_opened]. rewrite open_nothing by done.
    set (c1 := set_shutdown c). assert (shut t drained k c1) as Hs1 by (eapply shut_other; [exact Hs|by apply streams_same|done..]).
    destruct (decide (t' = t)) as [->|]; [by apply shut_nothing|]. eapply shut_other; [exact Hs1|by apply streams_same|done..|]. by apply lookup_insert_ne.
  - by eapply shut_sweep.
  - destruct (cl_streams c !! h) as [y|]; [|done]. destruct (exec e y); [|done]. injection E as <-. by eapply shut_other.
Qed.

Lemma shut_run t drained k es c c' : shut t drained k c → client_run es c = Some c' → shut t drained k c'.
Proof.
  revert c; induction es as [|e es IH]; intros c Hs; cbn [client_run]; [by intros [= <-]|]. destruct (client_step e c) as [c1|] eqn:E; [|done]. intros H. eapply IH; [by eapply shut_step|done].
Qed.

Lemma shutdown_shut t c : registered c → cl_opens c = ∅ → shut t (op_stream <$> values (cl_opened c)) (cl_compactions c) (shutdown t c).
Proof.
  intros Hr Ho. assert (∀ h, h ∈ op_stream <$> values (cl_opened c) → ∃ y, cl_streams c !! h = Some y ∧ ss_snapshot_read (sy_stream y) = false) as Hh.
  { intros h (o & -> & ([id o'] & -> & Hin)%list_elem_of_fmap)%list_elem_of_fmap. apply elem_of_entries in Hin. destruct (Hr id o' Hin) as (y & Hy & _ & Hsn). by exists y. }
  constructor; try done.
  - intros h Hin. destruct (Hh h Hin) as (y & Hy & _). exists y. split; [done|]. right. eexists. split; [apply lookup_insert_eq|done].
  - intros w h Hw. cbn in Hw. rewrite lookup_insert_eq in Hw. injection Hw as <-. apply Hh.
  - intros w h rest Hw. cbn in Hw. rewrite lookup_insert_eq in Hw. by injection Hw as <-.
Qed.

(** C16: a shutdown is final when no stream is being opened: whatever happens afterwards, no
    stream is registered, opened or compacted any more, and once the shutdown's own loop is
    over every stream that was open has been closed. *)
Theorem client_shutdown_final enabled es0 c0 t es c :
  client_run es0 (client_new enabled) = Some c0 → cl_opens c0 = ∅ → client_run es (shutdown t c0) = Some c →
  cl_opened c = ∅ ∧ cl_opens c = ∅ ∧ cl_compactions c = cl_compactions c0 ∧ (∀ id, get_stream id c = None)
  ∧ (cl_sweeps c !! t = None → ∀ id y0, get_stream id c0 = Some y0 →
       ∃ h y, cl_streams c0 !! h = Some y0 ∧ cl_streams c !! h = Some y ∧ ss_stream_id (sy_stream y0) = id ∧ is_closed (sy_stream y) = true).
Proof.
  intros H0 Ho Hrun. pose proof (run_registered _ _ _ (new_registered enabled) H0) as Hr. destruct (shut_run _ _ _ _ _ _ (shutdown_shut t c0 Hr Ho) Hrun) as [S1 S2 S3 S4 S5 S6 S7 S8].
  split_and!; [done..| |].
  - intros id. unfold get_stream. by rewrite S2, lookup_empty.
  - intros Hw id y0. unfold get_stream. destruct (cl_opened c0 !! id) as [o|] eqn:Eo; [|done]. intros Hy0. exists (op_stream o).
    destruct (S6 (op_stream o)) as (y & Hy & [Hc|(w & Hw' & _)]); [| |congruence].
    + apply list_elem_of_fmap. exists o. split; [done|]. apply list_elem_of_fmap. exists (id, o). split; [done|]. by apply elem_of_entries.
    + exists y. split_and!; [done..| |done]. destruct (Hr id o Eo) as (y1 & Hy1 & Hid & _). rewrite Hy0 in Hy1. by injection Hy1 as <-.
Qed.

(** ** Instances *)

Definition opening : list ClientEvent := [CCreate 0 1; CCreated 0 (Ok 5)].
Definition demo_metadata : StreamMetadata := mkStream 5 1 10 10 StreamOpened 0.
Definition closed_down : list ClientEvent := [CSweep 9; CStream 0 (ECloseStep 9 false (Ok tt)); CStream 0 (ECloseStep 9 false (Ok tt));
  CStream 0 (ECloseStep 9 false (Ok tt)); CStream 0 (ECloseStep 9 false (Ok tt)); CStream 0 (ECloseStep 9 false (Ok tt)); CSweep 9; CSweep 9].

Lemma client_shutdown_final_witness :
  ∃ c0 c, client_run (opening ++ [COpened 0 100 (Ok demo_metadata)]) (client_new true) = Some c0 ∧ is_Some (get_stream 5 c0)
    ∧ client_run closed_down (shutdown 9 c0) = Some c ∧ cl_opened c = ∅ ∧ ∃ h y, cl_streams c !! h = Some y ∧ is_closed (sy_stream y) = true.
Proof.
  destruct (client_run (opening ++ [COpened 0 100 (Ok demo_metadata)]) (client_new true)) as [c0|] eqn:E0; [|vm_compute in E0; done].
  destruct (client_run closed_down (shutdown 9 c0)) as [c|] eqn:E; [|exfalso; vm_compute in E0; injection E0 as <-; vm_compute in E; done].
  assert (cl_opens c0 = ∅) as Ho by (vm_compute in E0; injection E0 as <-; vm_compute; done).
  destruct (client_shutdown_final true _ c0 9 closed_down c E0 Ho E) as (H1 & _ & _ & _ & H2).
  assert (∃ y0, get_stream 5 c0 = Some y0) as [y0 Hy0] by (vm_compute in E0; injection E0 as <-; vm_compute; eexists; reflexivity).
  assert (cl_sweeps c !! 9%nat = None) as Hw by (vm_compute in E0; injection E0 as <-; vm_compute in E; injection E as <-; reflexivity).
  destruct (H2 Hw 5 y0 Hy0) as (h & y & _ & Hy & _ & Hc). exists c0, c. split_and!; [done|by exists y0|done|done|]. by exists h, y.
Defined.

(** ** Openings that a shutdown does not wait for *)

Lemma mark_closed mask s : Z.land mask CLOSED_MARK = 0 → is_closed (mark mask s) = is_closed s.
Proof. intros Hm. unfold is_closed, mark. cbn [ss_status set_status]. by rewrite Z.land_lor_distr_l, Hm, Z.lor_0_r. Qed.

(** Only a close closes a stream. *)
Lemma exec_open e y y' :
  exec e y = Some y' → (∀ t force, e ≠ EClose t force) → is_closed (sy_stream y) = false → is_closed (sy_stream y') = false.
Proof.
  intros E Hne Hc. destruct e as [t b|t|k r|t s e|t|t o|t|t f|t x r| |m|o]; cbn [exec] in E; [..|by destruct (Hne t f)| | | |].
  - destruct (bool_decide _); [|done]. injection E as <-. unfold append_begin. by destruct (ss_snapshot_read _).
  - unfold append_step in E. destruct (sy_appends y !! t) as [[b|b|k o c]|]; [..|done].
    + injection E as <-. by destruct (is_operable _).
    + by injection E as <-.
    + destruct (sy_answers y !! k) as [[u|e]|]; [..|done]; injection E as <-; [done|]. exact (eq_trans (mark_closed FENCED_MARK (sy_stream y) eq_refl) Hc).
  - unfold storage_answers in E. destruct (_ && _); [|done]. by injection E as <-.
  - destruct (bool_decide _); [|done]. by injection E as <-.
  - unfold fetch_step in E. destruct (sy_fetches y !! t) as [[s e|s e]|]; [..|done]; [|by injection E as <-]. destruct (fetch_check _ _ _) as [[r|]|e']; by injection E as <-.
  - destruct (bool_decide _); [|done]. injection E as <-. unfold trim_begin. by destruct (ss_snapshot_read _).
  - unfold trim_step in E. destruct (sy_trims y !! t) as [[o|o|o]|]; [..|done].
    + destruct (sy_trim_lock y); [done|]. injection E as <-. by destruct (_ <? _).
    + destruct (idle _); [|done]. by injection E as <-.
    + by injection E as <-.
  - unfold close_step in E. destruct (sy_closes y !! t) as [[[]| |f|f|f]|]; [..|done].
    + by injection E as <-.
    + destruct (idle _); [|done]. by injection E as <-.
    + destruct (_ || _); [|done]. by injection E as <-.
    + destruct (sy_close_lock y); [done|]. injection E as <-. by destruct (ss_close_result _).
    + injection E as <-. by destruct r.
    + by injection E as <-.
  - unfold destroy_end in E. destruct (ss_snapshot_read _); [done|]. destruct (ss_close_result _) as [[]|]; [|done..]. injection E as <-. exact (eq_trans (mark_closed DESTROY_MARK (sy_stream y) eq_refl) Hc).
  - destruct (ss_snapshot_read (sy_stream y)) eqn:Es; [|done]. injection E as <-. cbn. unfold on_new_stream_metadata, update_snapshot_read_confirm_offset. by destruct (_ <? _).
  - injection E as <-. unfold confirm_offset_set. destruct (negb _); [done|]. cbn. unfold update_snapshot_read_confirm_offset. by destruct (_ <? _).
Qed.

(** The loops close streams that exist. *)
Definition sweeps_known (c : S3StreamClient) : Prop :=
  ∀ t w h, cl_sweeps c !! t = Some w → h ∈ sw_streams w → (h < length (cl_streams c))%nat.

Lemma streams_grow e c c' : client_step e c = Some c' → (length (cl_streams c) ≤ length (cl_streams c'))%nat.
Proof.
  intros E. destruct (decide (length (cl_streams c) ≤ length (cl_streams c'))%nat) as [|Hn]; [done|].
  destruct (lookup_lt_is_Some_2 (cl_streams c) (length (cl_streams c'))) as [y Hy]; [lia|].
  destruct (step_streams e c c' E _ _ Hy) as (y' & Hy'%lookup_lt_Some & _). lia.
Qed.

(** A loop takes streams from the registry, or goes on with fewer. *)
Lemma step_sweeps e c c' t w h :
  client_step e c = Some c' → cl_sweeps c' !! t = Some w → h ∈ sw_streams w →
  (∃ w0, cl_sweeps c !! t = Some w0 ∧ h ∈ sw_streams w0)
  ∨ (∃ id o, cl_opened c !! id = Some o ∧ op_stream o = h) ∧ (e = CShutdown t ∨ e = CForceClose t).
Proof.
  destruct e as [t' epoch|t' answer|t' sid epoch sr handle|t' now answer|sid level|now|t'|t'|t'|x e]; cbn [client_step].
  - destruct (bool_decide _); [|done]. intros [= <-]. unfold create_begin, check_state. destruct (cl_shutdown c); eauto.
  - unfold create_end. destruct (cl_opens c !! t') as [[]|]; [|done..]. destruct answer; intros [= <-]; [|eauto]. unfold open_begin, check_state. cbn. destruct (cl_shutdown c); eauto.
  - destruct (bool_decide _); [|done]. intros [= <-]. unfold open_begin, check_state. destruct (cl_shutdown c), sr; eauto.
  - unfold open_end. destruct (cl_opens c !! t') as [[|id]|]; [done| |done]. destruct answer; intros [= <-]; eauto.
  - intros [= <-]. unfold compact_stream_object. destruct (get_stream sid c); eauto.
  - unfold scheduler_tick. destruct (cl_ticks c); [|done]. destruct (cl_shutdown c); intros [= <-]; eauto.
  - destruct (bool_decide _); [|done]. intros [= <-]. cbn. intros [[-> <-]|[_ Hw]]%lookup_insert_Some; [|by eauto]. cbn.
    intros (o & -> & ([id o'] & -> & Hin)%list_elem_of_fmap)%list_elem_of_fmap. apply elem_of_entries in Hin. right. split; [by exists id, o'|by left].
  - destruct (bool_decide _); [|done]. intros [= <-]. cbn. intros [[-> <-]|[_ Hw]]%lookup_insert_Some; [|by eauto]. cbn.
    intros (o & -> & ([id o'] & -> & Hin)%list_elem_of_fmap)%list_elem_of_fmap. apply elem_of_entries in Hin. right. split; [by exists id, o'|by right].
  - unfold sweep_step. destruct (cl_sweeps c !! t') as [[force l started]|] eqn:Ew; [|done]. destruct l as [|x l]; cbn [sw_streams sw_started sw_force].
    { intros [= <-]. cbn. intros [_ Hw]%lookup_delete_Some. eauto. }
    destruct (cl_streams c !! x) as [y|]; [|done]. destruct started.
    + destruct (sy_closes y !! t'); [done|]. intros [= <-]. assert (cl_sweeps (if force then with_opened (delete (ss_stream_id (sy_stream y))) c else c) = cl_sweeps c) as Es by (by destruct force).
      cbn. rewrite Es. intros [[-> <-]|[_ Hw]]%lookup_insert_Some; [|by eauto]. cbn. intros Hh. left. eexists. split; [exact Ew|by right].
    + destruct (exec _ y); [|done]. intros [= <-]. cbn. intros [[-> <-]|[_ Hw]]%lookup_insert_Some; [|by eauto]. intros Hh. left. eexists. by split; [exact Ew|].
  - destruct (cl_streams c !! x) as [y|]; [|done]. destruct (exec e y); [|done]. intros [= <-]. eauto.
Qed.

Lemma run_sweeps_known es c c' : registered c → sweeps_known c → client_run es c = Some c' → sweeps_known c'.
Proof.
  revert c; induction es as [|e es IH]; intros c Hr Hs; cbn [client_run]; [by intros [= <-]|]. destruct (client_step e c) as [c1|] eqn:E; [|done].
  apply IH; [by eapply step_registered|]. intros t w h Hw Hh. eapply Nat.lt_le_trans; [|by eapply streams_grow].
  destruct (step_sweeps e c c1 t w h E Hw Hh) as [(w0 & Hw0 & Hh0)|[(id & o & Ho & <-) _]]; [by eapply Hs|].
  destruct (Hr id o Ho) as (y & Hy & _). by eapply lookup_lt_Some.
Qed.

(** A stream that is open and in no loop. *)
Definition missed (h : nat) (c : S3StreamClient) : Prop :=
  (∃ y, cl_streams c !! h = Some y ∧ is_closed (sy_stream y) = false) ∧ ∀ t w, cl_sweeps c !! t = Some w → h ∉ sw_streams w.

(** Nobody closes all streams once more, or this one. *)
Definition leaves_open (h : nat) (e : ClientEvent) : Prop :=
  match e with CShutdown _ | CForceClose _ => False | CStream x (EClose _ _) => x ≠ h | _ => True end.

Lemma missed_step h e c c' : missed h c → leaves_open h e → client_step e c = Some c' → missed h c'.
Proof.
  intros [(y & Hy & Hc) Hs] Hl E. split.
  2: { intros t w Hw Hh. destruct (step_sweeps e c c' t w h E Hw Hh) as [(w0 & Hw0 & Hh0)|[_ [->| ->]]]; [by eapply Hs|done..]. }
  assert (∀ x z z' e0, cl_streams c !! x = Some z → exec e0 z = Some z' → (x = h → ∀ t f, e0 ≠ EClose t f) →
    ∃ y', <[x := z']> (cl_streams c) !! h = Some y' ∧ is_closed (sy_stream y') = false) as Hstep.
  { intros x z z' e0 Hz He Hne. destruct (decide (x = h)) as [->|]; [|exists y; by rewrite list_lookup_insert_ne].
    rewrite Hy in Hz. injection Hz as <-. exists z'. rewrite list_lookup_insert_eq by (by eapply lookup_lt_Some). split; [done|]. eapply exec_open; [exact He|by apply Hne|done]. }
  destruct e as [t epoch|t answer|t id epoch sr handle|t now answer|id level|now|t|t|t|x e]; cbn [client_step] in E; try done.
  - destruct (bool_decide _); [|done]. injection E as <-. exists y. unfold create_begin, check_state. by destruct (cl_shutdown c).
  - unfold create_end in E. destruct (cl_opens c !! t) as [[]|]; [|done..]. exists y. destruct answer; injection E as <-; [|done]. unfold open_begin, check_state. cbn. by destruct (cl_shutdown c).
  - destruct (bool_decide _); [|done]. injection E as <-. exists y. unfold open_begin, check_state. destruct (cl_shutdown c); [done|]. destruct sr; [|done]. split; [|done]. by apply lookup_app_l_Some.
  - unfold open_end in E. destruct (cl_opens c !! t) as [[]|]; [done| |done]. exists y. destruct answer; injection E as <-; [|done]. split; [|done]. by apply lookup_app_l_Some.
  - injection E as <-. exists y. unfold compact_stream_object. by destruct (get_stream id c).
  - unfold scheduler_tick in E. destruct (cl_ticks c); [|done]. exists y. destruct (cl_shutdown c); by injection E as <-.
  - unfold sweep_step in E. destruct (cl_sweeps c !! t) as [[force l started]|] eqn:Ew; [|done]. destruct l as [|x l]; cbn [sw_streams sw_started sw_force] in E.
    { injection E as <-. by exists y. }
    destruct (cl_streams c !! x) as [z|] eqn:Ez; [|done]. destruct started.
    + destruct (sy_closes z !! t); [done|]. injection E as <-. exists y. by destruct force.
    + destruct (exec _ z) as [z'|] eqn:Ee; [|done]. injection E as <-. eapply Hstep; [exact Ez|exact Ee|]. intros ->. exfalso. eapply Hs; [exact Ew|]. left.
  - destruct (cl_streams c !! x) as [z|] eqn:Ez; [|done]. destruct (exec e z) as [z'|] eqn:Ee; [|done]. injection E as <-.
    eapply Hstep; [exact Ez|exact Ee|]. intros -> t f ->. by cbn in Hl.
Qed.

Lemma missed_run h es c c' : missed h c → Forall (leaves_open h) es → client_run es c = Some c' → missed h c'.
Proof.
  intros Hm Hl. revert c Hm; induction Hl as [|e es He _ IH]; intros c Hm; cbn [client_run]; [by intros [= <-]|].
  destruct (client_step e c) as [c1|] eqn:E; [|done]. intros H. eapply IH; [by eapply missed_step|done].
Qed.

(** C37: a stream whose metadata arrives after a shutdown escapes it.  In any run of the
    client, when a call to open a stream is under way while the client is already shut down
    and the answer comes, the stream is registered and open in a client that is shut down, no
    loop that closes streams has it, and however the run goes on it stays so, unless somebody
    closes that stream itself or asks the client a second time to close all streams. *)
Theorem shutdown_misses_opening enabled es0 c0 t id now metadata :
  client_run es0 (client_new enabled) = Some c0 → cl_shutdown c0 = true → cl_opens c0 !! t = Some (OOpening id) →
  let h := length (cl_streams c0) in
  ∃ c1 y, client_step (COpened t now (Ok metadata)) c0 = Some c1 ∧ cl_shutdown c1 = true
    ∧ get_stream id c1 = Some y ∧ cl_streams c1 !! h = Some y ∧ is_operable (sy_stream y) = true
    ∧ ∀ es c, client_run es c1 = Some c → Forall (leaves_open h) es →
        (∃ y', cl_streams c !! h = Some y' ∧ ss_stream_id (sy_stream y') = id ∧ is_closed (sy_stream y') = false)
        ∧ ∀ t' w, cl_sweeps c !! t' = Some w → h ∉ sw_streams w.
Proof.
  intros Hrun Hsd Ht h. cbn [client_step]. unfold open_end. rewrite Ht. set (c1 := with_opened _ _).
  set (y := system_new (stream_new id (sm_epoch metadata) (sm_start_offset metadata) (sm_end_offset metadata) false)).
  assert (cl_streams c1 !! h = Some y) as Hy by (cbn; by apply list_lookup_middle).
  exists c1, y. split; [done|]. split; [done|]. split; [unfold get_stream; cbn; by rewrite lookup_insert_eq|]. split; [done|]. split; [done|].
  intros es c Hr Hl.
  assert (sweeps_known c0) as Hk.
  { eapply run_sweeps_known; [apply new_registered| |exact Hrun]. intros t' w x Hw. cbn in Hw. by rewrite lookup_empty in Hw. }
  assert (missed h c1) as Hm.
  { split; [by exists y|]. intros t' w Hw Hh. pose proof (Hk t' w h Hw Hh) as Hlt. unfold h in Hlt. lia. }
  destruct (missed_run h es c1 c Hm Hl Hr) as [(y' & Hy' & Hc') Hs]. split; [|done]. exists y'. split; [done|]. split; [|done].
  clear -Hr Hy Hy'. assert (∀ es c1 y, client_run es c1 = Some c → cl_streams c1 !! h = Some y → ss_stream_id (sy_stream y') = ss_stream_id (sy_stream y)) as Hid.
  { intros es0. induction es0 as [|e es0 IH]; intros c2 z; cbn [client_run]; [intros [= ->]; congruence|]. destruct (client_step e c2) as [c3|] eqn:E; [|done].
    intros H Hz. destruct (step_streams e c2 c3 E h z Hz) as (z' & Hz' & (E1 & _)). rewrite <- E1. by apply (IH c3). }
  by rewrite (Hid es c1 y Hr Hy).
Qed.

Lemma shutdown_misses_opening_witness :
  ∃ c0 c1 c y, client_run (opening ++ [CShutdown 9]) (client_new true) = Some c0
    ∧ client_step (COpened 0 100 (Ok demo_metadata)) c0 = Some c1 ∧ client_run [CSweep 9] c1 = Some c
    ∧ cl_sweeps c = ∅ ∧ cl_streams c !! 0%nat = Some y ∧ is_closed (sy_stream y) = false.
Proof.
  destruct (client_run (opening ++ [CShutdown 9]) (client_new true)) as [c0|] eqn:E0; [|vm_compute in E0; discriminate].
  assert (cl_shutdown c0 = true ∧ cl_opens c0 !! 0%nat = Some (OOpening 5) ∧ length (cl_streams c0) = 0%nat) as (H1 & H2 & H3)
    by (vm_compute in E0; injection E0 as <-; by vm_compute).
  destruct (shutdown_misses_opening true (opening ++ [CShutdown 9]) c0 0 5 100 demo_metadata E0 H1 H2) as (c1 & y & E1 & _ & _ & _ & _ & H).
  rewrite H3 in H. destruct (client_run [CSweep 9] c1) as [c|] eqn:E2.
  - destruct (H [CSweep 9] c E2) as [(y' & Hy' & _ & Hc') _]; [repeat constructor|].
    exists c0, c1, c, y'. split_and!; [done|exact E1|done| |done|done].
    vm_compute in E0. injection E0 as <-. vm_compute in E1. injection E1 as <-. vm_compute in E2. injection E2 as <-. reflexivity.
  - exfalso. vm_compute in E0. injection E0 as <-. vm_compute in E1. injection E1 as <-. vm_compute in E2. discriminate.
Defined.
