(* ===== verification/Throttle.v ===== *)
(** * Network bandwidth throttling

    Models the token bucket of [s3stream-core/src/throttle.rs]: acquisition with priority
    tiers, the refill tick that drains the queue, and what the storage decorator debits.
    A grant is the oneshot message that wakes the waiting caller.  [None] is exhausted
    fuel, which [drain_fuel] rules out.

    Not modelled: the metrics wrapper, and the floating point computation of the token
    size from the configured bandwidth. *)
From S2P Require Import Prelude Collections ObjectStore.

Definition MAX_TOKEN_PART_SIZE : Z := 1024 * 1024.

Record BucketItem : Type := mkItem {
  it_priority : Z;
  it_seq : Z;
  it_remaining : Z;
}.

(** [Ord for BucketItem] reversed: the heap's greatest item is the least here. *)
Definition item_le (a b : BucketItem) : bool :=
  (it_priority a <? it_priority b) || ((it_priority a =? it_priority b) && (it_seq a <=? it_seq b)).

(** The heap as the list of its items in popping order. *)
Definition push (i : BucketItem) (q : list BucketItem) : list BucketItem := insert_by item_le i q.

Record Limiter : Type := mkLimiter {
  lm_available_tokens : Z;
  lm_token_size : Z;
  lm_max_tokens : Z;
  lm_queued : list BucketItem;
  lm_next_seq : Z;
}.

(** [None] is the assertion on the token size. *)
Definition with_max_tokens (token_size max_tokens : Z) : option Limiter :=
  if 0 <? token_size then Some (mkLimiter (i64 token_size) (i64 token_size) (i64 max_tokens) [] 0) else None.
Definition limiter_new (token_size : Z) : option Limiter := with_max_tokens token_size token_size.

Definition set_tokens (v : Z) (l : Limiter) : Limiter :=
  mkLimiter v (lm_token_size l) (lm_max_tokens l) (lm_queued l) (lm_next_seq l).
Definition set_queued (q : list BucketItem) (l : Limiter) : Limiter :=
  mkLimiter (lm_available_tokens l) (lm_token_size l) (lm_max_tokens l) q (lm_next_seq l).

Definition reduce_token (n : Z) (l : Limiter) : Limiter :=
  set_tokens (Z.max (i64 (lm_available_tokens l - n)) (i64 (- lm_max_tokens l))) l.

(** [Some seq]: the caller waits for the grant of its item. *)
Definition acquire (strategy : ThrottleStrategy) (n : Z) (l : Limiter) : Limiter * option Z :=
  let n := i64 n in
  if bool_decide (strategy = Bypass) then (reduce_token n l, None)
  else
    if (lm_available_tokens l <=? 0) || negb (bool_decide (lm_queued l = []))
    then
      let seq := lm_next_seq l in
      (mkLimiter (lm_available_tokens l) (lm_token_size l) (lm_max_tokens l)
         (push (mkItem (priority strategy) seq n) (lm_queued l)) (u64 (seq + 1)), Some seq)
    else (reduce_token n l, None).

(** The drain loop, with the sequence numbers it grants. *)
Fixpoint drain (fuel : nat) (l : Limiter) : option (Limiter * list Z) :=
  match fuel with
  | O => None
  | S fuel =>
      if 0 <? lm_available_tokens l then
        match lm_queued l with
        | [] => Some (l, [])
        | head :: rest =>
            let chunk := Z.min (it_remaining head) MAX_TOKEN_PART_SIZE in
            let l := reduce_token chunk (set_queued rest l) in
            let remaining := i64 (it_remaining head - chunk) in
            if remaining <=? 0 then
              let* (l, granted) := drain fuel l in
              Some (l, it_seq head :: granted)
            else drain fuel (set_queued (push (mkItem (it_priority head) (it_seq head) remaining) (lm_queued l)) l)
        end
      else Some (l, [])
  end.

(** An item takes one round per chunk. *)
Definition rounds (i : BucketItem) : nat := (Z.to_nat (it_remaining i / MAX_TOKEN_PART_SIZE) + 2)%nat.
Definition drain_fuel (q : list BucketItem) : nat := S (sum_list (rounds <$> q)).

Definition refill_and_drain (l : Limiter) : option (Limiter * list Z) :=
  let l := set_tokens (Z.min (i64 (lm_available_tokens l + lm_token_size l)) (lm_max_tokens l)) l in
  drain (drain_fuel (lm_queued l)) l.

Definition shutdown (l : Limiter) : Limiter * list Z := (set_queued [] l, it_seq <$> lm_queued l).

(** ** What the storage decorator debits *)

(** The debits of a read, in order; [Ok data] is what the inner storage returned. *)
Definition read_debits (throttle : ThrottleStrategy) (start : Z) (end_ : option Z) (data : result ObjectError bytes)
  : list (ThrottleStrategy * Z) :=
  if bool_decide (end_ = Some start) then []
  else
    match end_ with
    | Some e => [(throttle, u64 (e - start))]
    | None =>
        (throttle, 1)
        :: match data with
           | Ok d => if 1 <? len d then [(Bypass, len d - 1)] else []
           | Err _ => []
           end
    end.
Definition write_debits (throttle : ThrottleStrategy) (data : bytes) : list (ThrottleStrategy * Z) := [(throttle, len data)].

(** ** Runs *)

Inductive LimiterEvent : Type :=
| EAcquire (strategy : ThrottleStrategy) (n : Z)
| ETick.

Definition limiter_step (e : LimiterEvent) (x : Limiter * list Z) : option (Limiter * list Z) :=
  match e with
  | EAcquire strategy n => Some ((acquire strategy n x.1).1, x.2)
  | ETick => let* (l, granted) := refill_and_drain x.1 in Some (l, x.2 ++ granted)
  end.

Fixpoint limiter_run (es : list LimiterEvent) (x : Limiter * list Z) : option (Limiter * list Z) :=
  match es with
  | [] => Some x
  | e :: rest => let* x := limiter_step e x in limiter_run rest x
  end.

(** ** The queue *)

Lemma item_le_total a b : item_le a b = true ∨ item_le b a = true.
Proof. unfold item_le. lia. Qed.
Lemma item_le_trans a b c : item_le a b = true → item_le b c = true → item_le a c = true.
Proof. unfold item_le. lia. Qed.

Definition in_order (q : list BucketItem) : Prop := StronglySorted (λ a b, item_le a b = true) q.

Lemma push_in_order i q : in_order q → in_order (push i q).
Proof. apply insert_by_sorted; [apply item_le_total|apply item_le_trans]. Qed.

(** A head that is put back with less to pay is the head again. *)
Lemma push_head h q r :
  in_order (h :: q) → push (mkItem (it_priority h) (it_seq h) r) q = mkItem (it_priority h) (it_seq h) r :: q.
Proof.
  intros [Hh _]%StronglySorted_cons. destruct q as [|a q]; [done|]. apply Forall_cons in Hh as [Hh _].
  unfold push. cbn [insert_by]. replace (item_le _ a) with (item_le h a) by done. by rewrite Hh.
Qed.

(** What has to be paid before the item [sq] is granted. *)
Fixpoint owed (sq : Z) (q : list BucketItem) : Z :=
  match q with
  | [] => 0
  | i :: rest => it_remaining i + (if it_seq i =? sq then 0 else owed sq rest)
  end.

Definition seqs (q : list BucketItem) : list Z := it_seq <$> q.

Lemma owed_nonneg sq q : Forall (λ i, 0 ≤ it_remaining i) q → 0 ≤ owed sq q.
Proof. induction 1 as [|i q Hi _ IH]; cbn; [lia|]. destruct (_ =? sq); lia. Qed.

(** A later arrival of the same or a lower tier does not add to what [sq] waits for. *)
Lemma owed_push sq i q :
  in_order q → sq ∈ seqs q → (∀ x, x ∈ q → it_seq x = sq → item_le i x = false) → owed sq (push i q) = owed sq q.
Proof.
  induction q as [|a q IH]; intros Hs Hin Hx; [by apply not_elem_of_nil in Hin|]. apply StronglySorted_cons in Hs as [Ha Hs].
  unfold push in *. cbn [insert_by]. destruct (item_le i a) eqn:E.
  - exfalso. apply list_elem_of_fmap in Hin as (x & Ex & Hin). specialize (Hx x Hin (eq_sym Ex)).
    apply elem_of_cons in Hin as [->|Hin]; [congruence|]. rewrite Forall_forall in Ha. specialize (Ha x Hin).
    pose proof (item_le_trans _ _ _ E Ha). congruence.
  - cbn [owed]. destruct (it_seq a =? sq) eqn:Ea; [done|]. rewrite IH; [done|done| |].
    + apply elem_of_cons in Hin as [E'|Hin]; [lia|done].
    + intros x Hx'. apply Hx. by right.
Qed.

(** ** Draining *)

Record base_ok (l : Limiter) : Prop := {
  bo_size : 0 < lm_token_size l ≤ lm_max_tokens l;
  bo_max : lm_max_tokens l < 2 ^ 62;
  bo_tokens : - lm_max_tokens l ≤ lm_available_tokens l ≤ lm_max_tokens l;
  bo_order : in_order (lm_queued l);
  bo_seqs : NoDup (seqs (lm_queued l));
  bo_remaining : Forall (λ i, 0 ≤ it_remaining i < 2 ^ 62) (lm_queued l);
  bo_next : Forall (λ i, it_seq i < lm_next_seq l) (lm_queued l);
}.

Ltac tok_lia := change (2 ^ 62) with 4611686018427387904 in *; int_lia.

Lemma reduce_token_spec n l :
  - lm_max_tokens l ≤ lm_available_tokens l ≤ lm_max_tokens l → 0 < lm_max_tokens l < 2 ^ 62 → 0 ≤ n < 2 ^ 62 →
  lm_available_tokens (reduce_token n l) = Z.max (lm_available_tokens l - n) (- lm_max_tokens l).
Proof. intros. unfold reduce_token, set_tokens. cbn [lm_available_tokens]. tok_lia. Qed.

(** What a drain does: it grants a prefix of the queue, ends out of tokens or with an empty
    queue, and nobody left is further from its grant. *)
Record drained (l : Limiter) (granted : list Z) (l' : Limiter) : Prop := {
  dr_ok : base_ok l';
  dr_frame : lm_token_size l' = lm_token_size l ∧ lm_max_tokens l' = lm_max_tokens l ∧ lm_next_seq l' = lm_next_seq l;
  dr_end : lm_queued l' = [] ∨ lm_available_tokens l' ≤ 0;
  dr_prefix : seqs (lm_queued l) = granted ++ seqs (lm_queued l');
  dr_keys : (λ i, (it_priority i, it_seq i)) <$> lm_queued l'
            = drop (length granted) ((λ i, (it_priority i, it_seq i)) <$> lm_queued l);
  dr_owed sq : sq ∈ seqs (lm_queued l') →
    owed sq (lm_queued l') - lm_available_tokens l' ≤ owed sq (lm_queued l) - lm_available_tokens l;
}.

Lemma rounds_split i r :
  0 ≤ it_remaining i → MAX_TOKEN_PART_SIZE < it_remaining i → r = it_remaining i - MAX_TOKEN_PART_SIZE →
  (rounds (mkItem (it_priority i) (it_seq i) r) < rounds i)%nat.
Proof.
  intros H0 H1 ->. unfold rounds, MAX_TOKEN_PART_SIZE in *. cbn [it_remaining].
  assert ((it_remaining i - 1024 * 1024) / (1024 * 1024) = it_remaining i / (1024 * 1024) - 1) as -> by (Z.div_mod_to_equations; lia).
  assert (1 ≤ it_remaining i / (1024 * 1024)) by (Z.div_mod_to_equations; lia). lia.
Qed.

Lemma drain_loop_ok fuel l :
  base_ok l → (sum_list (rounds <$> lm_queued l) < fuel)%nat → ∃ l' granted, drain fuel l = Some (l', granted) ∧ drained l granted l'.
Proof.
  revert l; induction fuel as [|fuel IH]; intros l Hok Hf; [lia|]. cbn [drain].
  assert (∀ e, lm_queued l = [] ∨ lm_available_tokens l ≤ 0 → e = @nil Z → drained l e l) as Hstop.
  { intros e He ->. constructor; try done. }
  destruct (0 <? lm_available_tokens l) eqn:Ea; [|exists l, []; split; [done|apply Hstop; [right; lia|done]]].
  destruct (lm_queued l) as [|h rest] eqn:Eq; [exists l, []; split; [done|apply Hstop; [by left|done]]|].
  destruct Hok as [B1 B2 B3 B4 B5 B6 B7]. rewrite Eq in *. cbn [seqs fmap list_fmap] in *.
  apply Forall_cons in B6 as [Hr B6]. apply Forall_cons in B7 as [Hn B7]. apply NoDup_cons in B5 as [Hnot B5].
  set (chunk := Z.min (it_remaining h) MAX_TOKEN_PART_SIZE).
  assert (0 ≤ chunk < 2 ^ 62) as Hc by (unfold chunk, MAX_TOKEN_PART_SIZE; tok_lia).
  assert (lm_available_tokens (reduce_token chunk (set_queued rest l)) = Z.max (lm_available_tokens l - chunk) (- lm_max_tokens l)) as Er.
  { rewrite reduce_token_spec; cbn [set_queued lm_available_tokens lm_max_tokens]; (done || lia). }
  rewrite (i64_small (it_remaining h - chunk)) by (unfold chunk, MAX_TOKEN_PART_SIZE; tok_lia).
  set (l1 := reduce_token chunk (set_queued rest l)) in *.
  assert (base_ok l1) as Hok1.
  { constructor; try done; [rewrite Er; cbn; lia|]. by apply StronglySorted_cons in B4 as [_ ?]. }
  change (rounds h + sum_list (rounds <$> rest) < S fuel)%nat in Hf.
  assert (2 ≤ rounds h)%nat as H2 by (unfold rounds; lia). destruct (it_remaining h - chunk <=? 0) eqn:E.
  - assert (chunk = it_remaining h) as Ec by (unfold chunk in *; lia).
    destruct (IH l1 Hok1) as (l' & g & -> & [D1 D2 D3 D4 D5 D6]); [change (lm_queued l1) with rest; lia|].
    exists l', (it_seq h :: g). split; [done|]. constructor; try done.
    + rewrite Eq. cbn. f_equal. done.
    + rewrite Eq. done.
    + intros sq Hsq. rewrite Eq. specialize (D6 sq Hsq). cbn [owed].
      replace (it_seq h =? sq) with false; [cbn [l1 reduce_token set_tokens set_queued lm_queued] in D6; lia|].
      symmetry. apply Z.eqb_neq. intros <-. apply Hnot. change (it_seq <$> rest) with (seqs (lm_queued l1)). rewrite D4.
      apply elem_of_app. by right.
  - assert (chunk = MAX_TOKEN_PART_SIZE) as Ec by (unfold chunk in *; lia).
    set (h' := mkItem (it_priority h) (it_seq h) (it_remaining h - chunk)).
    change (lm_queued l1) with rest. unfold h' in *. rewrite push_head by done. fold h'. set (l2 := set_queued (h' :: rest) l1).
    assert (base_ok l2) as Hok2.
    { destruct Hok1 as [C1 C2 C3 C4 C5 C6 C7]. constructor; try done; cbn [l2 set_queued lm_queued lm_next_seq].
      - apply StronglySorted_cons in B4 as [Bh ?]. by constructor.
      - by constructor.
      - constructor; [cbn; lia|done].
      - by constructor. }
    assert (rounds h' < rounds h)%nat by (apply rounds_split; unfold chunk in *; lia).
    destruct (IH l2 Hok2) as (l' & g & -> & [D1 D2 D3 D4 D5 D6]); [change (rounds h' + sum_list (rounds <$> rest) < fuel)%nat; lia|].
    exists l', g. split; [done|]. constructor; try done.
    + by rewrite Eq.
    + by rewrite Eq.
    + intros sq Hsq. rewrite Eq. specialize (D6 sq Hsq). cbn [l2 set_queued lm_queued lm_available_tokens owed it_seq it_remaining h'] in *.
      destruct (it_seq h =? sq); lia.
Qed.

(** ** Acquiring and ticking *)

(** Whoever is queued waits for tokens. *)
Definition limiter_ok (l : Limiter) : Prop := base_ok l ∧ (lm_queued l ≠ [] → lm_available_tokens l ≤ 0).

Lemma reduce_ok n l : limiter_ok l → 0 ≤ n < 2 ^ 62 → limiter_ok (reduce_token n l).
Proof.
  intros [[B1 B2 B3 B4 B5 B6 B7] Hq] Hn. pose proof (reduce_token_spec n l B3 ltac:(lia) Hn) as E.
  split; [constructor; try done; rewrite E; cbn; lia|]. intros Hne. specialize (Hq Hne). rewrite E. lia.
Qed.

Lemma push_seqs i q : seqs (push i q) ≡ₚ it_seq i :: seqs q.
Proof. unfold seqs, push. by rewrite insert_by_perm. Qed.

Lemma acquire_ok s n l :
  limiter_ok l → 0 ≤ n < 2 ^ 62 → 0 ≤ lm_next_seq l → lm_next_seq l + 1 < 2 ^ 64 →
  limiter_ok (acquire s n l).1 ∧ lm_next_seq l ≤ lm_next_seq (acquire s n l).1 ≤ lm_next_seq l + 1.
Proof.
  intros Hok Hn H0 H1. unfold acquire. rewrite (i64_small n) by tok_lia. case_bool_decide.
  { split; [by apply reduce_ok|cbn; lia]. }
  destruct ((_ <=? 0) || _) eqn:E; [|split; [by apply reduce_ok|cbn; lia]].
  destruct Hok as [[B1 B2 B3 B4 B5 B6 B7] Hq]. cbn [fst]. split; [split|].
  - constructor; cbn [lm_token_size lm_max_tokens lm_available_tokens lm_queued lm_next_seq]; try done.
    + by apply push_in_order.
    + rewrite push_seqs. constructor; [|done]. cbn. intros (x & Ex & Hx)%list_elem_of_fmap. rewrite Forall_forall in B7.
      specialize (B7 x Hx). lia.
    + unfold push. rewrite insert_by_perm. constructor; [done|done].
    + unfold push. rewrite insert_by_perm. rewrite u64_small by int_lia. constructor; [cbn; lia|].
      eapply Forall_impl; [exact B7|]. cbn. lia.
  - intros _. cbn. destruct (lm_available_tokens l <=? 0) eqn:Ea; [lia|]. apply Hq. by case_bool_decide.
  - cbn. rewrite u64_small by int_lia. lia.
Qed.

Lemma tick_ok l :
  limiter_ok l → ∃ l' granted, refill_and_drain l = Some (l', granted) ∧ limiter_ok l'
    ∧ drained (set_tokens (Z.min (lm_available_tokens l + lm_token_size l) (lm_max_tokens l)) l) granted l'.
Proof.
  intros [[B1 B2 B3 B4 B5 B6 B7] Hq]. unfold refill_and_drain. rewrite i64_small by tok_lia.
  set (l0 := set_tokens _ l). assert (base_ok l0) as H0 by (constructor; try done; cbn; lia).
  destruct (drain_loop_ok (drain_fuel (lm_queued l0)) l0 H0) as (l' & g & -> & Hd); [unfold drain_fuel; lia|].
  exists l', g. split; [done|]. split; [|done]. split; [apply Hd|]. intros Hne. by destruct (dr_end _ _ _ Hd).
Qed.

Definition levent_ok (e : LimiterEvent) : Prop := match e with EAcquire _ n => 0 ≤ n < 2 ^ 62 | ETick => True end.

Lemma limiter_run_ok es x :
  Forall levent_ok es → limiter_ok x.1 → 0 ≤ lm_next_seq x.1 → lm_next_seq x.1 + len es < 2 ^ 64 →
  ∃ x', limiter_run es x = Some x' ∧ limiter_ok x'.1.
Proof.
  intros Hes. revert x; induction Hes as [|e es He Hes IH]; intros x Hok H0 Hn; cbn [limiter_run length] in *; [by exists x|].
  destruct e as [s n|]; cbn [limiter_step].
  - destruct (acquire_ok s n x.1 Hok He H0 ltac:(lia)) as [Hok' Hn']. apply IH; cbn [fst]; [done|lia|lia].
  - destruct (tick_ok x.1 Hok) as (l' & g & -> & Hok' & Hd). destruct (dr_frame _ _ _ Hd) as (_ & _ & En). cbn in En.
    apply IH; cbn [fst]; [done|lia|lia].
Qed.

(** ** Nobody starves within a tier *)

#[export] Instance LimiterEvent_eq_dec : EqDecision LimiterEvent.
Proof. solve_decision. Defined.

(** The other requests: never [Bypass], and of the item's tier or a lower one. *)
Definition yields (p : Z) (e : LimiterEvent) : Prop :=
  match e with EAcquire s _ => s ≠ Bypass ∧ p ≤ priority s | ETick => True end.

Definition ticks (es : list LimiterEvent) : Z := len (filter (λ e, e = ETick) es).

Definition queued_as (p sq : Z) (q : list BucketItem) : Prop := ∃ i, i ∈ q ∧ it_seq i = sq ∧ it_priority i = p.

Lemma queued_keys p sq q : queued_as p sq q ↔ (p, sq) ∈ (λ i, (it_priority i, it_seq i)) <$> q.
Proof.
  rewrite list_elem_of_fmap. split; [intros (i & ? & <- & <-); by exists i|intros (i & [= -> ->] & ?); by exists i].
Qed.

(** While the item is queued, what it waits for less the tokens goes down with every tick. *)
Lemma step_owed p sq e x x' :
  levent_ok e → yields p e → limiter_ok x.1 → 0 ≤ lm_next_seq x.1 → lm_next_seq x.1 + 1 < 2 ^ 64 →
  queued_as p sq (lm_queued x.1) → limiter_step e x = Some x' →
  sq ∈ x'.2 ∨ (queued_as p sq (lm_queued x'.1) ∧ lm_token_size x'.1 = lm_token_size x.1
    ∧ owed sq (lm_queued x'.1) - lm_available_tokens x'.1
      ≤ owed sq (lm_queued x.1) - lm_available_tokens x.1 - (if decide (e = ETick) then lm_token_size x.1 else 0)).
Proof.
  intros He Hy Hok H0 Hn Hi Hs. destruct Hi as (i & Hin & <- & <-). destruct Hok as [Hb Hq].
  assert (lm_queued x.1 ≠ []) as Hne by (intros E; rewrite E in Hin; by apply not_elem_of_nil in Hin).
  specialize (Hq Hne). destruct e as [s n|]; cbn [limiter_step] in Hs.
  - right. injection Hs as <-. destruct Hy as [Hs Hp]. unfold acquire. rewrite bool_decide_eq_false_2 by done.
    destruct ((_ <=? 0) || _) eqn:E; [|lia]. cbn [fst snd lm_queued lm_available_tokens lm_token_size].
    rewrite decide_False by done. split; [|split; [done|]].
    + exists i. split; [|done]. unfold push. rewrite insert_by_perm. by right.
    + rewrite owed_push; [lia|apply Hb|apply list_elem_of_fmap; by exists i|]. intros y Hy Ey.
      assert (y = i) as ->. { eapply NoDup_fmap_elem; [apply Hb|done|done|done]. }
      pose proof (bo_next _ Hb) as Hx. rewrite Forall_forall in Hx. specialize (Hx i Hin). unfold item_le. cbn. lia.
  - destruct (tick_ok x.1 (conj Hb (λ _, Hq))) as (l' & g & E & Hok' & [D1 D2 D3 D4 D5 D6]). rewrite E in Hs. injection Hs as <-.
    cbn [fst snd]. set (l0 := set_tokens _ _) in *. change (lm_queued l0) with (lm_queued x.1) in *.
    assert (it_seq i ∈ seqs (lm_queued x.1)) as Hsq by (apply list_elem_of_fmap; by exists i).
    rewrite D4 in Hsq. apply elem_of_app in Hsq as [Hg|Hsq]; [left; apply elem_of_app; by right|right].
    split; [|split; [by destruct D2|]].
    + apply list_elem_of_fmap in Hsq as (j & Ej & Hj). exists j. split; [done|]. split; [done|].
      assert ((it_priority j, it_seq j) ∈ (λ i, (it_priority i, it_seq i)) <$> lm_queued x.1) as Hk.
      { eapply elem_of_submseteq; [|apply sublist_submseteq, (sublist_drop _ (length g))]. rewrite <- D5. apply list_elem_of_fmap. by exists j. }
      apply list_elem_of_fmap in Hk as (k & [= Ep Es] & Hk). rewrite Ep.
      assert (k = i) as ->; [|done]. eapply NoDup_fmap_elem; [apply (bo_seqs _ Hb)|done|done|congruence].
    + specialize (D6 _ Hsq). rewrite decide_True by done.
      destruct Hb as [B1 B2 B3 _ _ _ _]. cbn [l0 set_tokens lm_available_tokens lm_queued] in D6. lia.
Qed.

Lemma run_keeps es x x' sq : limiter_run es x = Some x' → sq ∈ x.2 → sq ∈ x'.2.
Proof.
  revert x; induction es as [|e es IH]; intros x; cbn [limiter_run]; [by intros [= <-]|].
  destruct (limiter_step e x) as [x1|] eqn:E; [|done]. intros Hrun Hin. apply (IH x1 Hrun). destruct e; cbn [limiter_step] in E; [by injection E as <-|].
  destruct (refill_and_drain x.1) as [[l g]|]; [|done]. injection E as <-. cbn. apply elem_of_app. by left.
Qed.

Lemma run_grants p sq es x x' :
  Forall levent_ok es → Forall (yields p) es → limiter_ok x.1 → 0 ≤ lm_next_seq x.1 → lm_next_seq x.1 + len es < 2 ^ 64 →
  queued_as p sq (lm_queued x.1) →
  owed sq (lm_queued x.1) - lm_available_tokens x.1 < ticks es * lm_token_size x.1 →
  limiter_run es x = Some x' → sq ∈ x'.2.
Proof.
  intros Hes. revert x; induction Hes as [|e es He Hes IH]; intros x Hy Hok H0 Hn Hi Ht; cbn [limiter_run length] in *.
  { exfalso. destruct Hok as [Hb Hq]. destruct Hi as (i & Hi & _ & _).
    assert (lm_available_tokens x.1 ≤ 0) by (apply Hq; intros E; rewrite E in Hi; by apply not_elem_of_nil in Hi).
    assert (0 ≤ owed sq (lm_queued x.1)) by (apply owed_nonneg; eapply Forall_impl; [apply (bo_remaining _ Hb)|cbn; lia]).
    unfold ticks in Ht. cbn in Ht. lia. }
  apply Forall_cons in Hy as [Hye Hy]. destruct (limiter_step e x) as [x1|] eqn:E; [|done]. intros Hrun.
  destruct (step_owed p sq e x x1 He Hye Hok H0 ltac:(lia) Hi E) as [Hg|(Hi' & Et & Ho)]; [by eapply run_keeps|].
  assert (limiter_ok x1.1 ∧ lm_next_seq x.1 ≤ lm_next_seq x1.1 ≤ lm_next_seq x.1 + 1) as [Hok1 Hn1].
  { destruct e as [s n|]; cbn [limiter_step] in E.
    - injection E as <-. apply acquire_ok; (done || lia).
    - destruct (tick_ok x.1 Hok) as (l' & g & E' & Hok' & Hd). rewrite E' in E. injection E as <-.
      destruct (dr_frame _ _ _ Hd) as (_ & _ & En). cbn in En. split; [done|]. cbn. lia. }
  apply (IH x1); [done|done|lia|lia|done| |done]. rewrite Et. unfold ticks in *. rewrite filter_cons in Ht.
  destruct (decide (e = ETick)); cbn [length] in Ht; lia.
Qed.

(** C34: no request starves behind later traffic of its own or lower tiers.  A request that is
    queued is granted once enough ticks have passed to pay for what is queued up to and
    including it plus the deepest debt, whatever other requests of its tier or of lower
    tiers arrive meanwhile. *)
Theorem limiter_no_starvation p sq es l :
  limiter_ok l → 0 ≤ lm_next_seq l → lm_next_seq l + len es < 2 ^ 64 →
  Forall levent_ok es → Forall (yields p) es → queued_as p sq (lm_queued l) →
  owed sq (lm_queued l) + lm_max_tokens l < ticks es * lm_token_size l →
  ∃ x, limiter_run es (l, []) = Some x ∧ sq ∈ x.2.
Proof.
  intros Hok H0 Hn Hes Hy Hi Ht. destruct (limiter_run_ok es (l, []) Hes Hok H0 Hn) as (x & Hrun & _). exists x. split; [done|].
  eapply (run_grants p sq es (l, [])); [done..| |done]. pose proof (bo_tokens _ (proj1 Hok)). cbn [fst]. lia.
Qed.

(** The bucket stays within its bounds.  Whatever is acquired, forced past the queue or
    not, and however often it is refilled, the balance stays between minus and plus the
    cap, everybody queued waits for tokens, each drain returns, and the queue stays
    ordered by tier and arrival. *)
Theorem limiter_bounded es l :
  limiter_ok l → 0 ≤ lm_next_seq l → lm_next_seq l + len es < 2 ^ 64 → Forall levent_ok es →
  ∃ x, limiter_run es (l, []) = Some x ∧ - lm_max_tokens x.1 ≤ lm_available_tokens x.1 ≤ lm_max_tokens x.1
    ∧ (lm_queued x.1 ≠ [] → lm_available_tokens x.1 ≤ 0) ∧ in_order (lm_queued x.1).
Proof.
  intros Hok H0 Hn Hes. destruct (limiter_run_ok es (l, []) Hes Hok H0 Hn) as (x & Hrun & Hb & Hq). exists x.
  split; [done|]. split; [apply Hb|]. split; [done|apply Hb].
Qed.

(** ** Witnesses *)

Definition demo_limiter : Limiter := mkLimiter (-5) 10 20 [mkItem 1 0 7; mkItem 2 1 30] 2.

Lemma demo_limiter_ok : limiter_ok demo_limiter.
Proof.
  split; [|done]. constructor; cbn [demo_limiter lm_token_size lm_max_tokens lm_available_tokens lm_queued lm_next_seq].
  - lia.
  - vm_compute. reflexivity.
  - lia.
  - repeat constructor.
  - apply (bool_decide_unpack _). vm_compute. exact I.
  - repeat apply Forall_cons_2; [..|apply Forall_nil_2]; cbn; lia.
  - repeat apply Forall_cons_2; [..|apply Forall_nil_2]; cbn; lia.
Qed.

Definition demo_traffic : list LimiterEvent := [ETick; EAcquire CatchUp 100; ETick; ETick; ETick; EAcquire Tail 3; ETick; ETick].

Lemma limiter_no_starvation_witness : ∃ x, limiter_run demo_traffic (demo_limiter, []) = Some x ∧ 1 ∈ x.2.
Proof.
  apply (limiter_no_starvation 2 1 demo_traffic demo_limiter).
  - apply demo_limiter_ok.
  - vm_compute. discriminate.
  - vm_compute. reflexivity.
  - repeat apply Forall_cons_2; [..|apply Forall_nil_2]; cbn; (done || lia).
  - repeat apply Forall_cons_2; [..|apply Forall_nil_2]; cbn; (done || lia).
  - exists (mkItem 2 1 30). split; [right; left|done].
  - vm_compute. reflexivity.
Defined.

Lemma limiter_bounded_witness :
  ∃ x, limiter_run (EAcquire Bypass 1000 :: demo_traffic) (demo_limiter, []) = Some x ∧ - lm_max_tokens x.1 ≤ lm_available_tokens x.1.
Proof.
  destruct (limiter_bounded (EAcquire Bypass 1000 :: demo_traffic) demo_limiter) as (x & E & H & _).
  - apply demo_limiter_ok.
  - vm_compute. discriminate.
  - vm_compute. reflexivity.
  - repeat apply Forall_cons_2; [..|apply Forall_nil_2]; cbn; (done || lia).
  - exists x. split; [exact E|apply H].
Defined.
