(* ===== verification/Failover.v ===== *)
(** * Failover of a dead node

    Models [Failover::failover] of [s3stream-core/src/failover.rs] and the factory steps it
    takes through [s3stream-wal/src/factory.rs]: fence the dead node's log, open it, check
    whose it is, recover it with the storage's own recovery, and shut it down again.

    The service made of a storage and a configuration is the parameter [service_new]; the
    failure handlers only log, abort the process or force-close the streams. *)
From S2P Require Import Prelude Collections Codec ObjectStore WalFormat WalFactory WalMemory Metadata LogCache LogCacheProofs StorageRecovery Upload Storage StorageSafety StorageRuns StorageDurable Startup CrashSafety.

Record WalMetadata : Type := { wm_node_id : Z; wm_epoch : Z }.

(** [WriteAheadLog::metadata] *)
Class WalIdentity (W : Type) : Type := wal_metadata : W → WalMetadata.

#[export] Instance memory_wal_identity : WalIdentity MemoryWriteAheadLog := λ w, {| wm_node_id := mw_node_id w; wm_epoch := mw_epoch w |}.

Record FailoverRequest : Type := mkRequest { fq_node_id : Z; fq_node_epoch : Z; fq_wal_config : bytes }.
Record FailoverResponse : Type := mkResponse { fp_node_id : Z; fp_node_epoch : Z }.

(** [DefaultFailoverFactory::get_wal]: acquire the permission in failover mode, whose
    reservation fences the dead node, then build the log for recovery.  [shared] is the
    storage of [with_storage]; without it [connect] opens the one the URI names. *)
Definition default_get_wal {L W : Type} `{!ObjectStorage L} (connect : L → bytes → result ObjectError L)
    (service_new : L → ObjectWalConfig → W) (cluster_id : bytes) (shared : bool) (now : Z)
    (request : FailoverRequest) (l : L) : L * result StreamError W :=
  let storage l := if shared then Some l else None in
  match acquire_permission (connect l) cluster_id (storage l) now (fq_node_id request) (fq_node_epoch request) (fq_wal_config request) true with
  | Err e => (l, Err (SE_Wal e))
  | Ok l =>
      match wal_build (connect l) cluster_id (fq_node_id request) (storage l) (fq_wal_config request)
              (mkBuildOptions (fq_node_epoch request) Recovery) with
      | Err e => (l, Err (SE_Wal e))
      | Ok (s, c) => (l, Ok (service_new s c))
      end
  end.


Section Failover.
Context {L S M W : Type} `{!WriteAheadLog W} `{!WalIdentity W}.

(** [L] is the storage of the log, [S] that of the data; the log is returned as the failover
    leaves it. *)
Definition failover (get_wal : FailoverRequest → L → L * result StreamError W)
    (recover : W → S → M → option (W * S * M * result StreamError unit))
    (request : FailoverRequest) (l : L) (s : S) (m : M) : option (L * option W * S * M * result StreamError FailoverResponse) :=
  let resp := mkResponse (fq_node_id request) (fq_node_epoch request) in
  match get_wal request l with
  | (l, Err e) => Some (l, None, s, m, Err e)
  | (l, Ok w) =>
      match wal_start w with
      | (w, Err WE_NotInitialized) => Some (l, Some w, s, m, Ok resp)
      | (w, Err e) => Some (l, Some w, s, m, Err (SE_Wal e))
      | (w, Ok _) =>
          let metadata := wal_metadata w in
          let* (w, s, m, r) :=
            if negb (fq_node_id request =? wm_node_id metadata) then Some (w, s, m, Err SE_Unexpected)
            else if fq_node_epoch request <? wm_epoch metadata then Some (w, s, m, Err SE_Unexpected)
            else recover w s m in
          let w := wal_shutdown_gracefully w in
          Some (l, Some w, s, m, let? _ := r in Ok resp)
      end
  end.

(** A log of another node or of a newer epoch is left alone: the failover fails, nothing is
    recovered, and the log is shut down. *)
Theorem failover_refuses get_wal recover request l s m l' w w1 :
  get_wal request l = (l', Ok w) → wal_start w = (w1, Ok tt) →
  fq_node_id request ≠ wm_node_id (wal_metadata w1) ∨ fq_node_epoch request < wm_epoch (wal_metadata w1) →
  failover get_wal recover request l s m = Some (l', Some (wal_shutdown_gracefully w1), s, m, Err SE_Unexpected).
Proof.
  intros Hg Hs Hbad. unfold failover. rewrite Hg, Hs. destruct (_ =? _) eqn:E; cbn [negb]; [|done].
  destruct (_ <? _) eqn:E2; [done|]. exfalso. lia.
Qed.

Lemma failover_recovers get_wal recover request l s m l' w w1 w2 s' m' :
  get_wal request l = (l', Ok w) → wal_start w = (w1, Ok tt) →
  fq_node_id request = wm_node_id (wal_metadata w1) → wm_epoch (wal_metadata w1) ≤ fq_node_epoch request →
  recover w1 s m = Some (w2, s', m', Ok tt) →
  failover get_wal recover request l s m
  = Some (l', Some (wal_shutdown_gracefully w2), s', m', Ok (mkResponse (fq_node_id request) (fq_node_epoch request))).
Proof.
  intros Hg Hs Hid He Hr. unfold failover. rewrite Hg, Hs, <- Hid, Z.eqb_refl. cbn [negb].
  replace (_ <? _) with false by lia. by rewrite Hr.
Qed.
End Failover.

Section DeadNode.
Context {L S W : Type} `{!ObjectStorage S} `{!ObjectStorageLaws S} `{!WriteAheadLog W} `{!WalIdentity W}.
Context (config : S3StorageConfig) (delay_trim_ms : Z) (m0 : MetadataState) (world0 : world_ok m0).

(** C2: failing over a dead node loses nothing it had acknowledged.  The node ran through any
    interleaving of appends, seals, uploads, commits and trims and died.  Another node
    opens, starts and finally resets its log without an error and finds its own request's
    node id and no newer epoch; the log kept every confirmed record above the storage's
    trims, in order, and after them any further records that were not confirmed yet. The
    failover then succeeds and shuts the log down; every record the dead node's log had
    confirmed is found by a lookup of its offsets in an object that reads back to it, so
    are the further records that continue their stream, and each of its open streams is
    closed, without a gap, at the end of the last of these records. *)
Theorem failover_keeps_acked get_wal request (l l' : L) (w : W) (s : S) (w0 w1 w2 : W) hist st n extra rs fuel now :
  get_wal request l = (l', Ok w) → wal_start w = (w1, Ok tt) →
  fq_node_id request = wm_node_id (wal_metadata w1) → wm_epoch (wal_metadata w1) ≤ fq_node_epoch request →
  0 < cfg_max_stream_num_per_stream_set_object config →
  rtc (sstep config delay_trim_ms) ([], storage_new config s m0 w0) (hist, st) →
  continuous m0 hist → fits config m0 (si_pipe st) →
  wal_recover w1 = Ok <$> rs → rr_record <$> rs = (drop n hist).*1 ++ extra →
  (∀ q, q ∈ take n hist → ∃ t, t ∈ pl_trims (si_pipe st) ∧ ro_offset q.2 ≤ ro_offset t) →
  wal_reset w1 = (w2, Ok tt) → Forall recoverable rs → (length rs < fuel)%nat →
  ms_object_id_alloc (pl_manager (si_pipe st)) + Z.of_nat (length rs) < 2 ^ 64 →
  ∃ s' m',
    failover get_wal (storage_recover config now fuel) request l (pl_store (si_pipe st)) (pl_manager (si_pipe st))
    = Some (l', Some (wal_shutdown_gracefully w2), s', m', Ok (mkResponse (fq_node_id request) (fq_node_epoch request)))
    ∧ (∀ r o, (r, o) ∈ hist → record_readable s' m' r)
    ∧ ∀ id x, ms_streams m0 !! id = Some x → sm_state x = StreamOpened →
        ∃ e, runs (sm_end_offset x) (survivors hist extra id x) e
          ∧ Forall (record_readable s' m') (survivors hist extra id x)
          ∧ ms_streams m' !! id = Some (closed (set_end_offset e x)).
Proof.
  intros Hg Hs Hid He Hcnt Hrun Hc Hf Hrec Hrs Htrim Hreset Hall Hfuel Halloc.
  destruct (recover_after_crash config delay_trim_ms m0 world0 s w0 w1 w2 hist st n extra rs fuel now Hcnt Hrun Hc Hf Hrec Hrs Htrim
    Hreset Hall Hfuel Halloc) as (s' & m' & E & Hread & Hend).
  exists s', m'. split; [by eapply failover_recovers|done].
Qed.
End DeadNode.

Definition demo_request : FailoverRequest := mkRequest 1 7 (str "0@mem://wal").
Definition demo_get_wal (request : FailoverRequest) (l : MemoryObjectStorage) : MemoryObjectStorage * result StreamError MemoryWriteAheadLog :=
  default_get_wal (λ _ _, Err OE_Io) (λ _ _, CrashRun.log) (str "c") true 0 request l.

Lemma failover_keeps_acked_witness :
  ∃ st l' w' s' m', rtc (sstep Runs.config (delay_trim_of Runs.config)) CrashRun.start ([(CrashRun.r1, Runs.o1); (CrashRun.r2, Runs.o2)], st)
    ∧ failover demo_get_wal (storage_recover Runs.config 5 3) demo_request (ms_new 0) (pl_store (si_pipe st)) (pl_manager (si_pipe st))
      = Some (l', w', s', m', Ok (mkResponse 1 7))
    ∧ record_readable s' m' CrashRun.r1 ∧ record_readable s' m' CrashRun.r2.
Proof.
  destruct (exec_ops_check Runs.config CrashRun.run CrashRun.start CrashRun.check)
    as ([hist st] & Hrun & Hc); [vm_compute; reflexivity|]. unfold CrashRun.check in Hc. cbn [fst snd] in Hc.
  apply andb_prop in Hc as [[[[H1%bool_decide_eq_true_1 H2%bool_decide_eq_true_1]%andb_prop H3%Z.ltb_lt]%andb_prop
    H4%bool_decide_eq_true_1]%andb_prop H5%Z.ltb_lt]. subst hist.
  destruct (failover_keeps_acked Runs.config (delay_trim_of Runs.config) CrashRun.registry CrashRun.registry_ok
    demo_get_wal demo_request (ms_new 0) (demo_get_wal demo_request (ms_new 0)).1 CrashRun.log
    (ms_new 0) (mem_start (mem_new 1 0)) (mem_start CrashRun.log) (mem_reset (mem_start CrashRun.log))
    [(CrashRun.r1, Runs.o1); (CrashRun.r2, Runs.o2)] st 1 [CrashRun.r3] CrashRun.items 3 5) as (s' & m' & E & Hr & _).
  - vm_compute. reflexivity.
  - reflexivity.
  - vm_compute. reflexivity.
  - vm_compute. discriminate.
  - done.
  - exact Hrun.
  - apply CrashRun.history_continuous.
  - split; [|done]. change (Forall (records_ok ∘ block_records) (blocks (si_pipe st))). rewrite <- Forall_fmap, H2.
    apply Forall_singleton, CrashRun.block_ok.
  - vm_compute. reflexivity.
  - reflexivity.
  - intros q ->%list_elem_of_singleton. by exists Runs.o1.
  - reflexivity.
  - apply CrashRun.items_ok.
  - cbn. lia.
  - exact H5.
  - exists st, (demo_get_wal demo_request (ms_new 0)).1, (Some (wal_shutdown_gracefully (mem_reset (mem_start CrashRun.log)))), s', m'.
    split; [done|]. split; [exact E|]. split; [apply (Hr _ Runs.o1); left|apply (Hr _ Runs.o2); right; left].
Defined.

