(* ===== verification/BlockCache.v ===== *)
(** * The cold read: reference and read-through implementation

    Models [s3stream-core/src/cache/block_cache.rs].  [wanted] says what a read of a
    stream must return: from the record that holds the start offset on, until the end
    offset or the byte budget is reached.  [DirectBlockCache] is the uncached read over the
    metadata plane and the object reader.  [None] is exhausted fuel or a panic of the
    registry. *)
From S2P Require Import Prelude Collections Codec ObjectStore ObjectFormat ObjectIO Composite Metadata Upload CompactPlan CompactExec Compaction StorageDurable CompactionSafety StreamCompactor StreamCompactorSafety Storage.

(** ** What a read returns *)

(** [next] is the offset to go on from, [remaining] the bytes left, above zero. *)
Fixpoint wanted (end_offset next remaining : Z) (records : list StreamRecordBatch) : list StreamRecordBatch :=
  match records with
  | [] => []
  | r :: rest =>
      if last_offset r <=? next then wanted end_offset next remaining rest
      else if end_offset <=? base_offset r then []
      else if sat_sub remaining (size r) =? 0 then [r]
      else r :: wanted end_offset (last_offset r) (sat_sub remaining (size r)) rest
  end.

(** ** DirectBlockCache *)

(** The metadata plane's lookup, as the read path uses it. *)
Class ObjectLookup (M : Type) : Type := {
  mgr_get_objects : M → Z → Z → Z → Z → option (result StreamError (list S3ObjectMetadata));
}.

#[export] Instance memory_object_lookup : ObjectLookup MetadataState := {
  mgr_get_objects m stream_id start_offset end_offset limit :=
    let* l := get_objects stream_id start_offset end_offset limit m in Some (Ok l);
}.

(** The loop variables, and whether ['outer] was left. *)
Record DirectState : Type := mkDirect {
  ds_records : list StreamRecordBatch;
  ds_next_start : Z;
  ds_remaining : Z;
  ds_done : bool;
}.

Section Direct.
Context {S : Type} `{!ObjectStorage S} {M : Type} `{!ObjectLookup M}.
Context (stream end_offset : Z).

Fixpoint direct_records (d : DirectState) (records : list StreamRecordBatch) : DirectState :=
  match records with
  | [] => d
  | r :: rest =>
      if negb (stream_id r =? stream) || (last_offset r <=? ds_next_start d) then direct_records d rest
      else if end_offset <=? base_offset r then mkDirect (ds_records d) (ds_next_start d) (ds_remaining d) true
      else
        let remaining := sat_sub (ds_remaining d) (size r) in
        let d := mkDirect (ds_records d ++ [r]) (last_offset r) remaining (remaining =? 0) in
        if ds_done d then d else direct_records d rest
  end.

Fixpoint direct_blocks (s : S) (key : bytes) (d : DirectState) (blocks : list DataBlockIndex)
  : result ObjectError DirectState :=
  match blocks with
  | [] => Ok d
  | index :: rest =>
      let? block := read_block s key index in
      let? records := decode_data_block block in
      let d := direct_records d records in
      if ds_done d then Ok d else direct_blocks s key d rest
  end.

Fixpoint direct_objects (s : S) (d : DirectState) (objects : list S3ObjectMetadata) : result ObjectError DirectState :=
  match objects with
  | [] => Ok d
  | o :: rest =>
      let? find := reader_find s (metadata_key o) (om_object_size o) stream (ds_next_start d) end_offset (ds_remaining d) in
      let? d := direct_blocks s (metadata_key o) d (fi_blocks find) in
      if ds_done d then Ok d
      else if end_offset <=? ds_next_start d then Ok (mkDirect (ds_records d) (ds_next_start d) (ds_remaining d) true)
      else direct_objects s d rest
  end.

(** A round that does not stop moves the cursor, so the length of the range bounds them. *)
Fixpoint direct_loop (fuel : nat) (s : S) (m : M) (d : DirectState) : option (result StreamError DirectState) :=
  match fuel with
  | O => None
  | Datatypes.S fuel' =>
      if (ds_next_start d <? end_offset) && (0 <? ds_remaining d) then
        let* objects := mgr_get_objects m stream (ds_next_start d) end_offset 4 in
        match objects with
        | Err e => Some (Err e)
        | Ok [] => Some (Ok d)
        | Ok objects =>
            match direct_objects s d objects with
            | Err e => Some (Err (SE_Object e))
            | Ok d' =>
                if ds_done d' || (ds_next_start d' =? ds_next_start d) then Some (Ok d')
                else direct_loop fuel' s m d'
            end
        end
      else Some (Ok d)
  end.
End Direct.

Definition direct_fuel (start_offset end_offset : Z) : nat := Datatypes.S (Z.to_nat (end_offset - start_offset)).

Definition direct_read {S : Type} `{!ObjectStorage S} {M : Type} `{!ObjectLookup M} (s : S) (m : M)
    (stream start_offset end_offset max_bytes : Z) : option (result StreamError ReadDataBlock) :=
  let* d := direct_loop stream end_offset (direct_fuel start_offset end_offset) s m
              (mkDirect [] start_offset max_bytes false) in
  Some (let? d := d in Ok (mkRead (ds_records d) BlockCacheMiss)).

(** A composite merge of two objects of a stream succeeds, and the read of their range,
    which returned both records before, then fails with an invalid format error: the read
    path takes the composite for a plain object. *)
Example composite_seen_as_plain :
  match compact (compactor_new 1000) 0 (line_view 0) MajorV1 toy_store line_meta with
  | Some (s', m', Ok _) =>
      direct_read toy_store line_meta 1 1 3 1000 = Some (Ok (mkRead [demo_rec 1; demo_rec 2] BlockCacheMiss))
      ∧ direct_read s' m' 1 1 3 1000 = Some (Err (SE_Object OE_InvalidFormat))
  | _ => False
  end.
Proof. vm_compute. split; reflexivity. Qed.

(** ** What the reference returns *)

(** Records of one stream, each starting where the one before ends. *)
Record record_chain (sid : Z) (records : list StreamRecordBatch) : Prop := {
  rc_stream r : r ∈ records → stream_id r = sid;
  rc_span r : r ∈ records → base_offset r < last_offset r;
  rc_next i a b : records !! i = Some a → records !! Datatypes.S i = Some b → last_offset a = base_offset b;
}.

Lemma record_chain_tail sid r l : record_chain sid (r :: l) → record_chain sid l.
Proof.
  intros [A B C]. constructor.
  - intros x Hx. apply A. by right.
  - intros x Hx. apply B. by right.
  - intros i a b Ha Hb. apply (C (Datatypes.S i)); done.
Qed.

Lemma record_chain_before sid l1 r l2 x :
  record_chain sid (l1 ++ r :: l2) → x ∈ l1 → last_offset x ≤ base_offset r.
Proof.
  revert x; induction l1 as [|y l1 IH]; intros x Hc Hx; [by apply not_elem_of_nil in Hx|]. cbn in Hc.
  assert (∀ x, x ∈ l1 → last_offset x ≤ base_offset r) as IH' by (intros w; exact (IH w (record_chain_tail _ _ _ Hc))). clear IH. apply elem_of_cons in Hx as [->|Hx]; [|by apply IH'].
  destruct l1 as [|z l1]; [by rewrite (rc_next _ _ Hc 0 y r)|].
  pose proof (rc_next _ _ Hc 0%nat y z eq_refl eq_refl). pose proof (rc_span _ _ Hc z ltac:(right; left)). specialize (IH' z ltac:(left)). lia.
Qed.

Lemma record_chain_after sid l1 r l2 x :
  record_chain sid (l1 ++ r :: l2) → x ∈ l2 → last_offset r ≤ base_offset x.
Proof.
  intros Hc (k1 & k2 & ->)%list_elem_of_split. apply (record_chain_before sid (l1 ++ r :: k1) x k2).
  - by rewrite <- app_assoc.
  - apply elem_of_app. right. left.
Qed.

Lemma wanted_skip e next rem l k : Forall (λ r, last_offset r ≤ next) l → wanted e next rem (l ++ k) = wanted e next rem k.
Proof. induction 1 as [|r l Hr _ IH]; cbn; [done|]. by replace (last_offset r <=? next) with true by lia. Qed.

Lemma wanted_ended e next rem l : Forall (λ r, e ≤ base_offset r) l → wanted e next rem l = [].
Proof. induction 1 as [|r l Hr _ IH]; cbn; [done|]. replace (e <=? base_offset r) with true by lia. by rewrite IH; case_match. Qed.

(** ** The direct read follows the reference *)

Section Exact.
Context {S : Type} `{!ObjectStorage S} {M : Type} `{!ObjectLookup M}.
Context (s : S) (m : M) (sid end_offset : Z) (G : list StreamRecordBatch).
Hypothesis HG : record_chain sid G.

(** The block's records are a stretch of the stream that fills the block's range. *)
Definition block_holds (key : bytes) (e : DataBlockIndex) : Prop :=
  ∃ rs l1 l2 a z, (let? b := read_block s key e in decode_data_block b) = Ok rs ∧ G = l1 ++ rs ++ l2
    ∧ head rs = Some a ∧ last rs = Some z ∧ base_offset a = bi_start_offset e ∧ last_offset z = bi_end_offset e.

(** An object whose blocks of the stream hold its records. *)
Definition object_holds (o : S3ObjectMetadata) (index : IndexBlock) : Prop :=
  (∃ n, basic_object_info s (metadata_key o) (om_object_size o) = Ok {| boi_data_block_size := n; boi_index_block := index |})
  ∧ sorted_index index ∧ ∀ e, e ∈ index → bi_stream_id e = sid → block_holds (metadata_key o) e.

(** The metadata plane leads from every offset to an object that has it. *)
Definition serves (start_offset : Z) : Prop :=
  ∀ x, start_offset ≤ x < end_offset →
    ∃ objects, mgr_get_objects m sid x end_offset 4 = Some (Ok objects)
      ∧ Forall (λ o, ∃ index, object_holds o index) objects
      ∧ ∃ o index e, o ∈ objects ∧ object_holds o index ∧ e ∈ index ∧ contains sid x e.

Context (result : list StreamRecordBatch).

(** The state is on its way to [result]. *)
Definition on_track (d : DirectState) : Prop :=
  if ds_done d then result = ds_records d
  else result = ds_records d ++ wanted end_offset (ds_next_start d) (ds_remaining d) G ∧ 0 < ds_remaining d
    ∧ (end_offset ≤ ds_next_start d → wanted end_offset (ds_next_start d) (ds_remaining d) G = []).

Lemma direct_records_track d rs l1 l2 :
  G = l1 ++ rs ++ l2 → Forall (λ r, last_offset r ≤ ds_next_start d) l1 → on_track d → ds_done d = false →
  let d' := direct_records sid end_offset d rs in
  on_track d' ∧ ds_next_start d ≤ ds_next_start d'
  ∧ (ds_done d' = false → ∀ z, last rs = Some z → ds_next_start d' = Z.max (ds_next_start d) (last_offset z)).
Proof.
  revert d l1; induction rs as [|r rs IH]; intros d l1 EG Hl Ht Hd; cbn; [split_and!; [done|lia|done]|].
  change ((r :: rs) ++ l2) with (r :: rs ++ l2) in EG.
  assert (r ∈ G) as Hr by (rewrite EG; apply elem_of_app; right; left).
  rewrite (rc_stream _ _ HG r Hr), Z.eqb_refl. cbn [negb orb].
  destruct (last_offset r <=? ds_next_start d) eqn:E1.
  - destruct (IH d (l1 ++ [r])) as (A & B & C); [by rewrite <- app_assoc| |done|done|].
    { apply Forall_app. split; [done|]. apply Forall_singleton. lia. }
    split_and!; [done|lia|]. intros Hn z Hz. rewrite last_cons in Hz. destruct (last rs) as [y|] eqn:Ey.
    + injection Hz as ->. by apply C.
    + apply last_None in Ey as ->. injection Hz as <-. cbn. lia.
  - unfold on_track in Ht. rewrite Hd in Ht. destruct Ht as (Er & Hrem & _).
    assert (wanted end_offset (ds_next_start d) (ds_remaining d) G
      = if end_offset <=? base_offset r then [] else if sat_sub (ds_remaining d) (size r) =? 0 then [r]
        else r :: wanted end_offset (last_offset r) (sat_sub (ds_remaining d) (size r)) (rs ++ l2)) as Ew.
    { rewrite EG, wanted_skip by done. cbn. by rewrite E1. }
    rewrite Ew in Er. destruct (end_offset <=? base_offset r) eqn:E2.
    { cbn. split_and!; [unfold on_track; cbn; by rewrite app_nil_r in Er|lia|done]. }
    destruct (sat_sub (ds_remaining d) (size r) =? 0) eqn:E3; cbn [ds_done].
    { split_and!; [exact Er|cbn; lia|done]. }
    set (rem := sat_sub (ds_remaining d) (size r)) in *.
    assert (Forall (λ x, last_offset x ≤ last_offset r) (l1 ++ [r])) as Hl'.
    { apply Forall_app. split; [|apply Forall_singleton; lia]. apply Forall_forall. intros x Hx.
      pose proof (record_chain_before sid l1 r (rs ++ l2) x) as H. rewrite <- EG in H. specialize (H HG Hx).
      pose proof (rc_span _ _ HG r Hr). lia. }
    destruct (IH (mkDirect (ds_records d ++ [r]) (last_offset r) rem false) (l1 ++ [r])) as (A & B & C); [by rewrite <- app_assoc|done| |done|].
    { assert (wanted end_offset (last_offset r) rem G = wanted end_offset (last_offset r) rem (rs ++ l2)) as Ew'.
      { rewrite EG. change (l1 ++ r :: rs ++ l2) with (l1 ++ [r] ++ rs ++ l2). by rewrite app_assoc, wanted_skip. }
      unfold on_track. cbn. rewrite Ew', <- app_assoc. split_and!; [done|unfold rem, sat_sub in *; lia|].
      intros Hge. apply wanted_ended, Forall_forall. intros x Hx.
      pose proof (record_chain_after sid l1 r (rs ++ l2) x) as H. rewrite <- EG in H. specialize (H HG Hx). lia. }
    cbn in B. split_and!; [done|lia|]. intros Hn z Hz. rewrite last_cons in Hz. destruct (last rs) as [y|] eqn:Ey.
    + injection Hz as ->. rewrite (C Hn z eq_refl). cbn.
      assert (z ∈ rs ++ l2) as Hzin by (apply elem_of_app; left; by apply last_Some_elem_of).
      pose proof (record_chain_after sid l1 r (rs ++ l2) z) as H. rewrite <- EG in H. specialize (H HG Hzin).
      assert (z ∈ G) as HzG by (rewrite EG; apply elem_of_app; right; by right). pose proof (rc_span _ _ HG z HzG). lia.
    + apply last_None in Ey as ->. injection Hz as <-. cbn. lia.
Qed.

(** Blocks that cover the stream from the cursor on. *)
Lemma direct_blocks_track key d blocks x' :
  (∀ e, e ∈ blocks → bi_stream_id e = sid → block_holds key e) → covers sid (ds_next_start d) blocks x' →
  on_track d → ds_done d = false →
  ∃ d', direct_blocks sid end_offset s key d blocks = Ok d' ∧ on_track d' ∧ ds_next_start d ≤ ds_next_start d'
    ∧ (blocks ≠ [] → ds_done d' = true ∨ ds_next_start d < ds_next_start d').
Proof.
  revert d; induction blocks as [|e blocks IH]; intros d Hb Hc Ht Hd; cbn [direct_blocks]; [by exists d; split_and!|].
  destruct Hc as [(Es & Hlo & Hhi) Hc]. destruct (Hb e ltac:(left) Es) as (rs & l1 & l2 & a & z & Er & EG & Ha & Hz & Ea & Ez).
  destruct (read_block s key e) as [b|]; [|done]. cbn in Er. rewrite Er.
  destruct (direct_records_track d rs l1 l2 EG) as (Ht1 & Hle & Hnext); [|done|done|].
  { apply Forall_forall. intros x Hx. destruct rs as [|a' rs]; [done|]. injection Ha as ->.
    pose proof (record_chain_before sid l1 a (rs ++ l2) x) as H. change (a :: rs ++ l2) with ((a :: rs) ++ l2) in H. rewrite <- EG in H.
    specialize (H HG Hx). lia. }
  set (d1 := direct_records sid end_offset d rs) in *. destruct (ds_done d1) eqn:E1; [exists d1; split_and!; auto|].
  specialize (Hnext eq_refl z Hz). rewrite Z.max_r, Ez in Hnext by lia.
  destruct (IH d1) as (d2 & -> & Ht2 & Hle2 & _); [intros e' He'; apply Hb; by right|by rewrite Hnext|done|done|].
  exists d2. split_and!; [done|done|lia|]. intros _. right. lia.
Qed.

Lemma direct_objects_track d objects :
  Forall (λ o, ∃ index, object_holds o index) objects → on_track d → ds_done d = false → ds_next_start d < end_offset →
  ∃ d', direct_objects sid end_offset s d objects = Ok d' ∧ on_track d' ∧ ds_next_start d ≤ ds_next_start d'
    ∧ (ds_done d' = false → ds_next_start d' < end_offset)
    ∧ ((∃ o index e, o ∈ objects ∧ object_holds o index ∧ e ∈ index ∧ contains sid (ds_next_start d) e) →
       ds_done d' = true ∨ ds_next_start d < ds_next_start d').
Proof.
  intros Ho. revert d; induction Ho as [|o objects (index & (n & Ei) & Hs & Hh) Ho IH]; intros d Ht Hd Hlt; cbn [direct_objects].
  { exists d. split_and!; try done. intros (o & _ & _ & H & _). by apply not_elem_of_nil in H. }
  unfold reader_find. rewrite Ei. cbn [boi_index_block]. assert (0 < ds_remaining d) as Hrem by (unfold on_track in Ht; rewrite Hd in Ht; lia).
  destruct (index_find_covers index sid (ds_next_start d) end_offset (ds_remaining d) Hs ltac:(lia)) as (Hempty & Hsub & Hcov & _).
  set (r := find index sid (ds_next_start d) end_offset (ds_remaining d)) in *.
  destruct (direct_blocks_track (metadata_key o) d (fi_blocks r) (fi_next_start_offset r)) as (d1 & -> & Ht1 & Hle1 & Hprog); [|done..|].
  { intros e He. apply Hh. by eapply elem_of_sublist. }
  destruct (ds_done d1) eqn:Ed1; [exists d1; split_and!; auto; congruence|].
  destruct (end_offset <=? ds_next_start d1) eqn:Ee.
  { eexists. split_and!; [reflexivity| |done|done|by left]. unfold on_track in *. rewrite Ed1 in Ht1. cbn. destruct Ht1 as (-> & _ & Hw).
    rewrite Hw by lia. by rewrite app_nil_r. }
  destruct (IH d1 Ht1 Ed1 ltac:(lia)) as (d2 & -> & Ht2 & Hle2 & Hlt2 & Hprog2). exists d2. split_and!; [done|done|lia|done|].
  intros (o' & index' & e & Hin & Hh' & He & Hcon).
  destruct (decide (ds_next_start d < ds_next_start d1)); [right; lia|]. assert (ds_next_start d1 = ds_next_start d) as Enext by lia.
  apply elem_of_cons in Hin as [->|Hin].
  - assert (fi_blocks r ≠ []) as Hne.
    { intros E. destruct Hh' as ((n' & Ei') & _). rewrite Ei in Ei'. injection Ei' as _ <-. by apply (proj1 Hempty E e). }
    destruct (Hprog Hne); [congruence|lia].
  - destruct Hprog2 as [?|?]; [exists o', index', e; by rewrite Enext|by left|right; lia].
Qed.

Lemma direct_loop_track fuel start d :
  serves start → start ≤ ds_next_start d → on_track d → ds_done d = false → Z.max 0 (end_offset - ds_next_start d) < Z.of_nat fuel →
  ∃ d', direct_loop sid end_offset fuel s m d = Some (Ok d') ∧ ds_records d' = result.
Proof.
  intros Hserve. revert d; induction fuel as [|fuel IH]; intros d Hst Ht Hd Hf; cbn [direct_loop].
  { lia. }
  pose proof Ht as Ht'. unfold on_track in Ht'. rewrite Hd in Ht'. destruct Ht' as (Er & Hrem & Hw).
  destruct (ds_next_start d <? end_offset) eqn:Elt; cbn [andb].
  2: { exists d. split; [done|]. rewrite Hw in Er by lia. by rewrite app_nil_r in Er. }
  replace (0 <? ds_remaining d) with true by lia.
  destruct (Hserve (ds_next_start d) ltac:(lia)) as (objects & -> & Hall & Hin).
  destruct objects as [|o objects]; [destruct Hin as (o & _ & _ & H & _); by apply not_elem_of_nil in H|].
  destruct (direct_objects_track d (o :: objects) Hall Ht Hd ltac:(lia)) as (d1 & -> & Ht1 & Hle & Hlt1 & Hprog). specialize (Hprog Hin).
  destruct (ds_done d1) eqn:Ed1; cbn [orb].
  { exists d1. split; [done|]. unfold on_track in Ht1. by rewrite Ed1 in Ht1. }
  destruct Hprog as [?|Hprog]; [congruence|]. replace (ds_next_start d1 =? ds_next_start d) with false by lia.
  apply IH; [lia|done|done|lia].
Qed.
End Exact.

(** C7: the direct read is equivalent to the reference: when the metadata plane leads from
    every offset of the range to an object that has it, and the objects' blocks hold
    stretches of the stream's records, possibly overlapping each other, the read returns,
    and returns exactly the records from the one that holds the start offset on, each once
    and in order, up to the end offset or the record that spends the byte budget. *)
Theorem direct_read_exact {S : Type} `{!ObjectStorage S} {M : Type} `{!ObjectLookup M}
    (s : S) (m : M) sid start_offset end_offset max_bytes G :
  record_chain sid G → serves s m sid end_offset G start_offset → start_offset < end_offset → 0 < max_bytes →
  direct_read s m sid start_offset end_offset max_bytes
  = Some (Ok (mkRead (wanted end_offset start_offset max_bytes G) BlockCacheMiss)).
Proof.
  intros HG Hs Hlt Hmax. unfold direct_read.
  destruct (direct_loop_track s m sid end_offset G HG (wanted end_offset start_offset max_bytes G) (direct_fuel start_offset end_offset)
    start_offset (mkDirect [] start_offset max_bytes false)) as (d & -> & Er); [done|done| |done|unfold direct_fuel; cbn; lia|].
  - unfold on_track. cbn. split_and!; [done|done|lia].
  - cbn. by rewrite Er.
Qed.

Lemma direct_read_exact_witness :
  direct_read toy_store line_meta 1 1 3 1000
  = Some (Ok (mkRead (wanted 3 1 1000 [demo_rec 1; demo_rec 2]) BlockCacheMiss)).
Proof.
  assert (∀ i, i = 1 ∨ i = 2 → object_holds toy_store 1 [demo_rec 1; demo_rec 2] (line_object i) [chain_block i]) as Hh.
  { intros i Hi. split; [eexists; by apply (ss_info _ _ _ _ _ _ (line_source i Hi))|]. split.
    - split; [by repeat constructor|]. apply Forall_singleton. destruct Hi as [->| ->]; vm_compute; reflexivity.
    - intros e ->%list_elem_of_singleton _. destruct Hi as [->| ->].
      + exists [demo_rec 1], [], [demo_rec 2], (demo_rec 1), (demo_rec 1). split; [vm_compute; reflexivity|]. done.
      + exists [demo_rec 2], [demo_rec 1], [], (demo_rec 2), (demo_rec 2). split; [vm_compute; reflexivity|]. done. }
  apply (direct_read_exact toy_store line_meta 1 1 3 1000 [demo_rec 1; demo_rec 2]); [| |done|done].
  - constructor.
    + intros r Hr. rewrite !elem_of_cons, elem_of_nil in Hr. destruct Hr as [->|[->|[]]]; vm_compute; reflexivity.
    + intros r Hr. rewrite !elem_of_cons, elem_of_nil in Hr. destruct Hr as [->|[->|[]]]; vm_compute; reflexivity.
    + intros [|[|i]] a b Ha Hb; [|done|done]. injection Ha as <-. injection Hb as <-. vm_compute. reflexivity.
  - intros x Hx. assert (x = 1 ∨ x = 2) as [->| ->] by lia.
    + exists [line_object 1; line_object 2]. split; [vm_compute; reflexivity|]. split.
      * repeat apply Forall_cons_2; [..|apply Forall_nil_2]; eexists; apply Hh; auto.
      * exists (line_object 1), [chain_block 1], (chain_block 1). split; [left|]. split; [apply Hh; auto|]. split; [left|].
        vm_compute. intuition discriminate.
    + exists [line_object 2]. split; [vm_compute; reflexivity|]. split.
      * apply Forall_singleton. eexists. apply Hh. auto.
      * exists (line_object 2), [chain_block 2], (chain_block 2). split; [left|]. split; [apply Hh; auto|]. split; [left|].
        vm_compute. intuition discriminate.
Defined.
