(* ===== verification/Tasks.v ===== *)
(** * Asynchronous tasks

    An [async] function is a tree of atomic slices over a shared world [W]: what it does
    between two suspension points is one [Step].  A slice runs when what it waits for, a
    [Q] (a lock, a load), has come about, and fails ([None]) on a panic or exhausted fuel.
    Between two slices the other tasks run: [wp] quantifies over what they may do, given as
    a relation, and asks every slice of the task to respect a relation in turn.  [run]
    executes a task against a scheduler. *)
From S2P Require Import Prelude.

Inductive Task (W Q A : Type) : Type :=
| Return (a : A)
| Step (X : Type) (q : Q) (f : W → option (W * X)) (k : X → Task W Q A).
Arguments Return {W Q A}. Arguments Step {W Q A}.

Fixpoint bind {W Q A B} (t : Task W Q A) (g : A → Task W Q B) : Task W Q B :=
  match t with
  | Return a => g a
  | Step X q f k => Step X q f (λ x, bind (k x) g)
  end.

Definition slice_when {W Q X} (q : Q) (f : W → option (W * X)) : Task W Q X := Step X q f Return.
(** A loop that ran out of fuel. *)
Definition stuck {W Q A} (q : Q) : Task W Q A := Step A q (λ _, None) Return.

Notation "'let!' x := t 'in' k" := (bind t (λ x, k))
  (at level 10, x pattern, t at level 200, k at level 200, format "'let!'  x  :=  t  'in' '//' k") : s3_scope.
Notation "'do!' t 'then' k" := (bind t (λ _, k))
  (at level 10, t at level 200, k at level 200, format "'do!'  t  'then' '//' k") : s3_scope.

Section Tasks.
Context {W Q : Type} (awaited : Q → W → bool).

(** ** Execution *)

(** [sched n q w]: what the others have done to [w] when slice [n], which waits for [q], is
    next. *)
Fixpoint run {A} (sched : nat → Q → W → W) (n : nat) (t : Task W Q A) (w : W) : option (A * W) :=
  match t with
  | Return a => Some (a, w)
  | Step X q f k =>
      let w := sched n q w in
      if awaited q w then match f w with Some (w, x) => run sched (S n) (k x) w | None => None end else None
  end.

(** ** Rely and guarantee *)

Context (possible : Q → W → Prop) (rely guarantee : W → W → Prop).

(** [total] demands that every wait can end and that no slice fails. *)
Fixpoint wp {A} (total : bool) (t : Task W Q A) (w : W) (Post : A → W → Prop) : Prop :=
  match t with
  | Return a => Post a w
  | Step X q f k => (total = true → possible q w) ∧ ∀ w1, rely w w1 → awaited q w1 = true →
      match f w1 with
      | Some (w2, x) => guarantee w1 w2 ∧ wp total (k x) w2 Post
      | None => total = false
      end
  end.

Lemma wp_mono {A} total (t : Task W Q A) w (P R : A → W → Prop) : (∀ a w, P a w → R a w) → wp total t w P → wp total t w R.
Proof.
  intros HPR. revert w; induction t as [a|X q f k IH]; intros w; cbn; [apply HPR|]. intros [Hp Hw]. split; [done|]. intros w1 Hr Hd. specialize (Hw w1 Hr Hd).
  destruct (f w1) as [[w2 x]|]; [|done]. destruct Hw as [Hg Hw]. split; [done|]. by apply IH.
Qed.

Lemma wp_bind {A B} total (t : Task W Q A) (g : A → Task W Q B) w R : wp total t w (λ a w, wp total (g a) w R) → wp total (bind t g) w R.
Proof.
  revert w; induction t as [a|X q f k IH]; intros w; cbn; [done|]. intros [Hp Hw]. split; [done|]. intros w1 Hr Hd. specialize (Hw w1 Hr Hd).
  destruct (f w1) as [[w2 x]|]; [|done]. destruct Hw as [Hg Hw]. split; [done|]. by apply IH.
Qed.

Lemma wp_slice {X} total q (f : W → option (W * X)) w R :
  (total = true → possible q w) →
  (∀ w1, rely w w1 → awaited q w1 = true → match f w1 with Some (w2, x) => guarantee w1 w2 ∧ R x w2 | None => total = false end) →
  wp total (slice_when q f) w R.
Proof. done. Qed.

(** The others respect [rely]. *)
Definition conforms (sched : nat → Q → W → W) : Prop := ∀ n q w, rely w (sched n q w).

(** Along the run of the task, a wait that can end does. *)
Fixpoint served {A} (sched : nat → Q → W → W) (n : nat) (t : Task W Q A) (w : W) : Prop :=
  match t with
  | Return _ => True
  | Step X q f k =>
      (possible q w → awaited q (sched n q w) = true)
      ∧ match f (sched n q w) with Some (w, x) => served sched (S n) (k x) w | None => True end
  end.

(** No slice of the run has to wait. *)
Fixpoint unblocked {A} (sched : nat → Q → W → W) (n : nat) (t : Task W Q A) (w : W) : bool :=
  match t with
  | Return _ => true
  | Step X q f k =>
      let w := sched n q w in
      awaited q w && match f w with Some (w, x) => unblocked sched (S n) (k x) w | None => true end
  end.

Lemma unblocked_served {A} sched n (t : Task W Q A) w : unblocked sched n t w = true → served sched n t w.
Proof.
  revert n w; induction t as [a|X q f k IH]; intros n w; cbn; [done|]. intros [Ha Hk]%andb_true_iff. split; [done|].
  destruct (f _) as [[w2 x]|]; [by apply IH|done].
Qed.

Lemma wp_run {A} total sched n (t : Task W Q A) w Post :
  wp total t w Post → conforms sched → ∀ a w', run sched n t w = Some (a, w') → Post a w'.
Proof.
  intros Hw Hc. revert n w Hw; induction t as [a|X q f k IH]; intros n w; cbn; [by intros ? ? ? [= <- <-]|].
  intros [_ Hw] a w'. specialize (Hw _ (Hc n q w)). destruct (awaited q _); [|done]. specialize (Hw eq_refl).
  destruct (f _) as [[w2 x]|]; [|done]. destruct Hw as [_ Hw]. by apply IH.
Qed.

Lemma wp_run_total {A} sched n (t : Task W Q A) w Post :
  wp true t w Post → conforms sched → served sched n t w → ∃ a w', run sched n t w = Some (a, w') ∧ Post a w'.
Proof.
  intros Hw Hc. revert n w Hw; induction t as [a|X q f k IH]; intros n w; cbn; [by eauto|].
  intros [Hp Hw] [Hs Hk]. specialize (Hs (Hp eq_refl)). specialize (Hw _ (Hc n q w) Hs). rewrite Hs.
  destruct (f _) as [[w2 x]|]; [|done]. destruct Hw as [_ Hw]. by apply IH.
Qed.
End Tasks.
