(* ===== verification/DataBlockCache.v ===== *)
(** * The data block cache

    Models [s3stream-core/src/cache/blockcache/data_block.rs], [size_limiter.rs], and the
    registry of cold reads of [mod.rs].  A block handle ([Arc<DataBlock>]) is a position in
    the list of all blocks ever created, so that two handles are the same block exactly when
    they are equal; each block carries the phase of the task that loads it.  What runs under
    one lock is one function, and a run of the cache is any sequence of such steps.  [None]
    is a step that is not enabled. *)
From S2P Require Import Prelude Collections Codec ObjectStore ObjectFormat ObjectIO Metadata.

(** ** The [lru] crate *)

(** What the code uses of [lru::LruCache]: its entries from the most to the least recently
    used, and what its operations do to them. *)
Class LruCache (C K V : Type) `{!EqDecision K} : Type := {
  lru_unbounded : C;
  lru_iter : C → list (K * V);
  lru_get : K → C → C * option V;
  lru_push : K → V → C → C;
  lru_promote : K → C → C;
  lru_pop : K → C → C;
  lru_peek_lru : C → option (K * V);
  lru_pop_lru : C → C;
}.

Definition without {K V} `{!EqDecision K} (k : K) (l : list (K * V)) : list (K * V) := filter (λ e, e.1 ≠ k) l.
Definition find_key {K V} `{!EqDecision K} (k : K) (l : list (K * V)) : option (K * V) := head (filter (λ e, e.1 = k) l).

Class LruCacheLaws (C K V : Type) `{!EqDecision K} `{!LruCache C K V} : Prop := {
  lru_iter_unbounded : lru_iter (V := V) (lru_unbounded (V := V)) = [];
  lru_iter_get k c : lru_iter (V := V) (lru_get k c).1
    = match find_key k (lru_iter c) with Some e => e :: without k (lru_iter c) | None => lru_iter c end;
  lru_get_found k c : (lru_get k c).2 = snd <$> find_key k (lru_iter c);
  lru_iter_push k v c : lru_iter (V := V) (lru_push k v c) = (k, v) :: without k (lru_iter c);
  lru_iter_promote k c : lru_iter (V := V) (lru_promote (V := V) k c)
    = match find_key k (lru_iter c) with Some e => e :: without k (lru_iter c) | None => lru_iter c end;
  lru_iter_pop k c : lru_iter (V := V) (lru_pop (V := V) k c) = without k (lru_iter c);
  lru_peek_last c : lru_peek_lru c = last (lru_iter c);
  lru_iter_pop_lru c : lru_iter (V := V) (lru_pop_lru (V := V) c) = removelast (lru_iter c);
}.

(** An instance for the examples. *)
Section ListLru.
Context {K V : Type} `{!EqDecision K}.
Definition list_touch (k : K) (l : list (K * V)) : list (K * V) :=
  match find_key k l with Some e => e :: without k l | None => l end.
#[export] Instance list_lru : LruCache (list (K * V)) K V := {
  lru_unbounded := [];
  lru_iter l := l;
  lru_get k l := (list_touch k l, snd <$> find_key k l);
  lru_push k v l := (k, v) :: without k l;
  lru_promote := list_touch;
  lru_pop := without;
  lru_peek_lru l := last l;
  lru_pop_lru l := removelast l;
}.
#[export] Instance list_lru_laws : LruCacheLaws (list (K * V)) K V.
Proof. by constructor. Qed.
End ListLru.

(** ** AsyncSizeLimiter *)

(** A queued sender is named by the block whose load waits on it. *)
Record SizeLimiter : Type := mkLimiter {
  sl_permits : Z;
  sl_waiters : list nat;
}.

Definition limiter_new (permits : Z) : SizeLimiter := mkLimiter (i64 permits) [].

(** [true] when the permits were taken; otherwise [waiter] is queued. *)
Definition limiter_try_acquire (waiter : nat) (required : Z) (l : SizeLimiter) : SizeLimiter * bool :=
  if 0 <=? sl_permits l then (mkLimiter (i64 (sl_permits l - required)) (sl_waiters l), true)
  else (mkLimiter (sl_permits l) (sl_waiters l ++ [waiter]), false).

(** Also returns the waiter it wakes. *)
Definition limiter_release (required : Z) (l : SizeLimiter) : SizeLimiter * option nat :=
  let permits := i64 (sl_permits l + required) in
  match sl_waiters l with
  | w :: rest => if 0 <? permits then (mkLimiter permits rest, Some w) else (mkLimiter permits (w :: rest), None)
  | [] => (mkLimiter permits [], None)
  end.

Definition required_release (l : SizeLimiter) : bool :=
  (sl_permits l <=? 0) || negb (bool_decide (sl_waiters l = [])).

(** ** ColdReadInflightRegistry *)

Record ColdReads : Type := mkColdReads {
  cr_inflight : gmap Z Z;
  cr_next_id : Z;
}.
Definition cold_reads_new : ColdReads := mkColdReads ∅ 0.
Definition cold_track (now : Z) (r : ColdReads) : ColdReads * Z :=
  (mkColdReads (<[cr_next_id r := now]> (cr_inflight r)) (u64 (cr_next_id r + 1)), cr_next_id r).
Definition cold_drop (id : Z) (r : ColdReads) : ColdReads := mkColdReads (delete id (cr_inflight r)) (cr_next_id r).
Definition has_pending_older_than (now threshold_ms : Z) (r : ColdReads) : bool :=
  existsb (λ start, threshold_ms <=? sat_sub now start) (values (cr_inflight r)).
Definition cold_clear (r : ColdReads) : ColdReads := mkColdReads ∅ (cr_next_id r).

(** ** Data blocks *)

Definition DATA_TTL_MS : Z := 60000.
Definition CHECK_EXPIRED_DATA_INTERVAL_MS : Z := 60000.
Definition UNREAD_INIT : Z := -1.

Definition BlockKey : Type := Z * DataBlockIndex.

#[export] Instance DataBlockIndex_countable : Countable DataBlockIndex.
Proof.
  apply (inj_countable'
    (λ e, (bi_block_id e, bi_stream_id e, bi_start_offset e, bi_end_offset_delta e, bi_record_count e, bi_start_position e, bi_size e))
    (λ '(a, b, c, d, e, f, g), {| bi_block_id := a; bi_stream_id := b; bi_start_offset := c; bi_end_offset_delta := d;
       bi_record_count := e; bi_start_position := f; bi_size := g |})).
  by intros [].
Defined.

(** Where the load task of a block stands. *)
Inductive LoadPhase : Type :=
| LoadAcquire                              (* about to try the limiter *)
| LoadQueued                               (* queued, about to evict *)
| LoadWait                                 (* waits for its turn *)
| LoadRead (tracked : option Z)            (* the read is under way *)
| LoadPush                                 (* completed, to be entered in the LRU list *)
| LoadUndecoded                            (* failed to decode, to be removed *)
| LoadUnread (e : ObjectError)             (* failed to read and removed *)
| LoadCheck                                (* to evict when the limiter asks for it *)
| LoadDone.

Definition acquired (p : LoadPhase) : bool :=
  match p with LoadAcquire | LoadQueued | LoadWait => false | _ => true end.

(** [L] is what a free listener knows. *)
Record CacheBlock (L : Type) : Type := mkCacheBlock {
  cb_object_id : Z;
  cb_index : DataBlockIndex;
  cb_unread_cnt : Z;
  cb_last_access_ms : Z;
  cb_load : option (result StreamError unit);
  cb_records : option (list StreamRecordBatch);
  cb_freed : bool;
  cb_free_listeners : list (Z * L);
  cb_next_listener_id : Z;
  (** The load task: its object, its options, its phase. *)
  cb_reader : S3ObjectMetadata;
  cb_readahead : bool;
  cb_phase : LoadPhase;
}.
Arguments mkCacheBlock {L}. Arguments cb_object_id {L}. Arguments cb_index {L}. Arguments cb_unread_cnt {L}.
Arguments cb_last_access_ms {L}. Arguments cb_load {L}. Arguments cb_records {L}. Arguments cb_freed {L}.
Arguments cb_free_listeners {L}. Arguments cb_next_listener_id {L}. Arguments cb_reader {L}. Arguments cb_readahead {L}.
Arguments cb_phase {L}.

Definition cb_key {L} (b : CacheBlock L) : BlockKey := (cb_object_id b, cb_index b).

Definition block_new {L} (now object_id : Z) (index : DataBlockIndex) (reader : S3ObjectMetadata) (readahead : bool) : CacheBlock L :=
  mkCacheBlock object_id index UNREAD_INIT now None None false [] 0 reader readahead LoadAcquire.

Definition is_loaded {L} (b : CacheBlock L) : bool := match cb_load b with Some (Ok _) => true | _ => false end.

Definition clone_shared_error (e : StreamError) : StreamError :=
  match e with
  | SE_ObjectNotExist object_id => SE_ObjectNotExist object_id
  | SE_BlockNotContinuous => SE_BlockNotContinuous
  | SE_Object (OE_NotFound key) => SE_Object (OE_NotFound key)
  | _ => SE_Unexpected
  end.

(** [None] while the load is under way. *)
Definition wait_load {L} (b : CacheBlock L) : option (result StreamError unit) :=
  match cb_load b with
  | Some (Ok _) => Some (Ok tt)
  | Some (Err e) => Some (Err (clone_shared_error e))
  | None => None
  end.

Definition set_phase {L} (p : LoadPhase) (b : CacheBlock L) : CacheBlock L :=
  mkCacheBlock (cb_object_id b) (cb_index b) (cb_unread_cnt b) (cb_last_access_ms b) (cb_load b) (cb_records b)
    (cb_freed b) (cb_free_listeners b) (cb_next_listener_id b) (cb_reader b) (cb_readahead b) p.
Definition set_unread {L} (now : option Z) (cnt : Z) (b : CacheBlock L) : CacheBlock L :=
  mkCacheBlock (cb_object_id b) (cb_index b) cnt (default (cb_last_access_ms b) now) (cb_load b) (cb_records b)
    (cb_freed b) (cb_free_listeners b) (cb_next_listener_id b) (cb_reader b) (cb_readahead b) (cb_phase b).
(** The cell is set once; a second [set] is ignored. *)
Definition set_load {L} (load : result StreamError unit) (records : option (list StreamRecordBatch)) (b : CacheBlock L) : CacheBlock L :=
  mkCacheBlock (cb_object_id b) (cb_index b) (cb_unread_cnt b) (cb_last_access_ms b) (Some load)
    (match cb_records b with Some rs => Some rs | None => records end)
    (cb_freed b) (cb_free_listeners b) (cb_next_listener_id b) (cb_reader b) (cb_readahead b) (cb_phase b).
Definition set_freed {L} (b : CacheBlock L) : CacheBlock L :=
  mkCacheBlock (cb_object_id b) (cb_index b) (cb_unread_cnt b) (cb_last_access_ms b) (cb_load b) (cb_records b)
    true [] (cb_next_listener_id b) (cb_reader b) (cb_readahead b) (cb_phase b).
Definition set_listeners {L} (listeners : list (Z * L)) (next : Z) (b : CacheBlock L) : CacheBlock L :=
  mkCacheBlock (cb_object_id b) (cb_index b) (cb_unread_cnt b) (cb_last_access_ms b) (cb_load b) (cb_records b)
    (cb_freed b) listeners next (cb_reader b) (cb_readahead b) (cb_phase b).

Definition mark_unread {L} (now : Z) (b : CacheBlock L) : CacheBlock L :=
  set_unread (Some now) (if cb_unread_cnt b =? UNREAD_INIT then 1 else i32 (cb_unread_cnt b + 1)) b.

Definition mark_read_delta {L} (b : CacheBlock L) : CacheBlock L * Z :=
  let cnt := i32 (cb_unread_cnt b - 1) in (set_unread None cnt b, cnt).

Definition is_expired {L} (expired_before_ms : Z) (b : CacheBlock L) : bool := cb_last_access_ms b <? expired_before_ms.

(** The loop of [get_records]. *)
Fixpoint records_between (start_offset end_offset remaining : Z) (all : list StreamRecordBatch) : list StreamRecordBatch :=
  match all with
  | [] => []
  | r :: rest =>
      if (base_offset r <? end_offset) && (start_offset <? last_offset r) then
        let remaining := remaining - size r in
        if remaining <=? 0 then [r] else r :: records_between start_offset end_offset remaining rest
      else if end_offset <=? base_offset r then []
      else records_between start_offset end_offset remaining rest
  end.

Definition get_records {L} (start_offset end_offset max_bytes : Z) (b : CacheBlock L) : option (list StreamRecordBatch) :=
  let* all := cb_records b in Some (records_between start_offset end_offset max_bytes all).

(** ** The cache *)

Record Shard (C : Type) : Type := mkShard {
  sh_blocks : gmap BlockKey nat;
  sh_lru : C;
  sh_last_evict_check_ms : Z;
}.
Arguments mkShard {C}. Arguments sh_blocks {C}. Arguments sh_lru {C}. Arguments sh_last_evict_check_ms {C}.

Record BlocksCache (C L : Type) : Type := mkBlocksCache {
  bc_shards : list (Shard C);
  bc_limiter : SizeLimiter;
  bc_ttl_ms : Z;
  bc_check_interval_ms : Z;
  bc_cold_reads : ColdReads;
  (** Every block ever created, the waiters that were woken and have not run yet, and the
      listeners that were fired, newest first, each with its block. *)
  bc_heap : list (CacheBlock L);
  bc_woken : list nat;
  bc_fired : list (nat * L);
}.
Arguments mkBlocksCache {C L}. Arguments bc_shards {C L}. Arguments bc_limiter {C L}. Arguments bc_ttl_ms {C L}.
Arguments bc_check_interval_ms {C L}. Arguments bc_cold_reads {C L}. Arguments bc_heap {C L}. Arguments bc_woken {C L}.
Arguments bc_fired {C L}.

Section Cache.
Context {C L : Type} `{!LruCache C BlockKey unit}.
Abbreviation cache := (BlocksCache C L).

Definition with_config (max_size concurrency ttl_ms check_interval_ms now : Z) : cache :=
  mkBlocksCache (replicate (Z.to_nat (Z.max concurrency 1)) (mkShard ∅ lru_unbounded now)) (limiter_new max_size)
    ttl_ms check_interval_ms cold_reads_new [] [] [].

Definition cache_new (max_size concurrency now : Z) : cache :=
  with_config max_size concurrency DATA_TTL_MS CHECK_EXPIRED_DATA_INTERVAL_MS now.

Definition available (c : cache) : Z := sl_permits (bc_limiter c).

Definition shard_of (stream_id : Z) (c : cache) : nat := Z.to_nat (stream_id mod Z.of_nat (length (bc_shards c))).

Definition with_heap (f : list (CacheBlock L) → list (CacheBlock L)) (c : cache) : cache :=
  mkBlocksCache (bc_shards c) (bc_limiter c) (bc_ttl_ms c) (bc_check_interval_ms c) (bc_cold_reads c) (f (bc_heap c)) (bc_woken c) (bc_fired c).
Definition with_shard (i : nat) (f : Shard C → Shard C) (c : cache) : cache :=
  mkBlocksCache (alter f i (bc_shards c)) (bc_limiter c) (bc_ttl_ms c) (bc_check_interval_ms c) (bc_cold_reads c) (bc_heap c) (bc_woken c) (bc_fired c).
Definition with_limiter (l : SizeLimiter) (c : cache) : cache :=
  mkBlocksCache (bc_shards c) l (bc_ttl_ms c) (bc_check_interval_ms c) (bc_cold_reads c) (bc_heap c) (bc_woken c) (bc_fired c).
Definition with_cold (r : ColdReads) (c : cache) : cache :=
  mkBlocksCache (bc_shards c) (bc_limiter c) (bc_ttl_ms c) (bc_check_interval_ms c) r (bc_heap c) (bc_woken c) (bc_fired c).
Definition with_woken (f : list nat → list nat) (c : cache) : cache :=
  mkBlocksCache (bc_shards c) (bc_limiter c) (bc_ttl_ms c) (bc_check_interval_ms c) (bc_cold_reads c) (bc_heap c) (f (bc_woken c)) (bc_fired c).
Definition with_fired (f : list (nat * L) → list (nat * L)) (c : cache) : cache :=
  mkBlocksCache (bc_shards c) (bc_limiter c) (bc_ttl_ms c) (bc_check_interval_ms c) (bc_cold_reads c) (bc_heap c) (bc_woken c) (f (bc_fired c)).

(** [AsyncSizeLimiter::release] on the cache's limiter: the woken waiter may run. *)
Definition release (required : Z) (c : cache) : cache :=
  let '(l, woken) := limiter_release required (bc_limiter c) in
  with_woken (λ ws, match woken with Some w => w :: ws | None => ws end) (with_limiter l c).

(** [DataBlock::free]. *)
Definition free (h : nat) (c : cache) : cache :=
  match bc_heap c !! h with
  | Some b =>
      if cb_freed b then c
      else
        with_fired (λ l, reverse ((λ e, (h, e.2)) <$> cb_free_listeners b) ++ l)
          (release (bi_size (cb_index b)) (with_heap (alter set_freed h) c))
  | None => c
  end.

(** [register_free_listener]: fires at once on a freed block. *)
Definition register_free_listener (h : nat) (listener : L) (c : cache) : cache * option (nat * Z) :=
  match bc_heap c !! h with
  | Some b =>
      if cb_freed b then (with_fired (cons (h, listener)) c, None)
      else
        let id := cb_next_listener_id b in
        (with_heap (alter (set_listeners (cb_free_listeners b ++ [(id, listener)]) (u64 (id + 1))) h) c, Some (h, id))
  | None => (c, None)
  end.

(** [FreeListenerHandle::close]. *)
Definition close_listener (handle : nat * Z) (c : cache) : cache :=
  with_heap (alter (λ b, set_listeners (filter (λ e, e.1 ≠ handle.2) (cb_free_listeners b)) (cb_next_listener_id b) b) handle.1) c.

(** [remove_if_same] in the shard of the key. *)
Definition remove_if_same (h : nat) (key : BlockKey) (c : cache) : cache * bool :=
  let i := shard_of (bi_stream_id key.2) c in
  if bool_decide (bc_shards c !! i ≫= (λ sh, sh_blocks sh !! key) = Some h) then
    (with_shard i (λ sh, mkShard (delete key (sh_blocks sh)) (lru_pop key (sh_lru sh)) (sh_last_evict_check_ms sh)) c, true)
  else (c, false).

(** The loop of [evict_shard]; a round takes an entry off the list. *)
Fixpoint evict_loop (fuel : nat) (expired_before : Z) (i : nat) (c : cache) : option cache :=
  match fuel with
  | O => None
  | S fuel' =>
      let* sh := bc_shards c !! i in
      match lru_peek_lru (sh_lru sh) with
      | None => Some c
      | Some (key, _) =>
          match sh_blocks sh !! key with
          | None =>
              evict_loop fuel' expired_before i
                (with_shard i (λ sh, mkShard (sh_blocks sh) (lru_pop_lru (sh_lru sh)) (sh_last_evict_check_ms sh)) c)
          | Some h =>
              let* b := bc_heap c !! h in
              if negb (is_expired expired_before b) && negb (required_release (bc_limiter c)) then Some c
              else
                evict_loop fuel' expired_before i
                  (free h (with_shard i (λ sh, mkShard (delete key (sh_blocks sh)) (lru_pop_lru (sh_lru sh)) (sh_last_evict_check_ms sh)) c))
          end
      end
  end.

Definition evict_shard (now : Z) (i : nat) (c : cache) : option cache :=
  let* sh := bc_shards c !! i in
  evict_loop (S (length (lru_iter (sh_lru sh)))) (sat_sub now (bc_ttl_ms c)) i c.

Definition evict_all (now : Z) (c : cache) : option cache :=
  foldl (λ oc i, let* c := oc in evict_shard now i c) (Some c) (seq 0 (length (bc_shards c))).

Definition try_evict_expired (now stream_id : Z) (c : cache) : option cache :=
  let i := shard_of stream_id c in
  let* sh := bc_shards c !! i in
  if bc_check_interval_ms c <? sat_sub now (sh_last_evict_check_ms sh) then
    evict_shard now i (with_shard i (λ sh, mkShard (sh_blocks sh) (sh_lru sh) now) c)
  else Some c.

(** [get_block_handle]: the block under the key, or a new one whose load starts. *)
Definition get_block_handle (now : Z) (readahead : bool) (reader : S3ObjectMetadata) (index : DataBlockIndex) (c : cache)
  : option (cache * nat) :=
  let key : BlockKey := (om_object_id reader, index) in
  let i := shard_of (bi_stream_id index) c in
  let* sh := bc_shards c !! i in
  let '(c, h) :=
    match sh_blocks sh !! key with
    | Some h => (with_shard i (λ sh, mkShard (sh_blocks sh) (lru_promote key (sh_lru sh)) (sh_last_evict_check_ms sh)) c, h)
    | None =>
        let h := length (bc_heap c) in
        (with_heap (λ l, l ++ [block_new now (om_object_id reader) index reader readahead])
           (with_shard i (λ sh, mkShard (<[key := h]> (sh_blocks sh)) (sh_lru sh) (sh_last_evict_check_ms sh)) c), h)
    end in
  let* c := try_evict_expired now (bi_stream_id index) c in
  Some (c, h).

(** [mark_read]: the last reader drops the block. *)
Definition mark_read (h : nat) (c : cache) : option cache :=
  let* b := bc_heap c !! h in
  let '(b', unread) := mark_read_delta b in
  let c := with_heap (alter (λ _, b') h) c in
  if 0 <? unread then Some c
  else
    let '(c, removed) := remove_if_same h (cb_key b) c in
    Some (if removed then free h c else c).

(** [complete] with what the read returned, and [fail_shared]. *)
Definition fail_shared (h : nat) (e : StreamError) (c : cache) : cache :=
  free h (with_heap (alter (set_load (Err e) None) h) c).
Definition complete (h : nat) (data : bytes) (c : cache) : cache * bool :=
  match decode_data_block data with
  | Ok records => (with_heap (alter (set_load (Ok tt) (Some records)) h) c, true)
  | Err e => (fail_shared h (SE_Object e) c, false)
  end.

Definition goto (h : nat) (p : LoadPhase) (c : cache) : cache := with_heap (alter (set_phase p) h) c.

(** The read of block [h] returned. *)
Definition load_fetched (h : nat) (r : result ObjectError bytes) (c : cache) : option cache :=
  let* b := bc_heap c !! h in
  match cb_phase b with
  | LoadRead tracked =>
      let c := match tracked with Some id => with_cold (cold_drop id (bc_cold_reads c)) c | None => c end in
      Some match r with
      | Ok data =>
          let '(c, ok) := complete h data c in
          goto h (if ok then LoadPush else LoadUndecoded) c
      | Err e => goto h (LoadUnread e) (remove_if_same h (cb_key b) c).1
      end
  | _ => None
  end.

(** The next step of the load task of block [h] other than the end of its read. *)
Definition load_step (now : Z) (h : nat) (c : cache) : option cache :=
  let* b := bc_heap c !! h in
  match cb_phase b with
  | LoadAcquire =>
      let '(l, ok) := limiter_try_acquire h (bi_size (cb_index b)) (bc_limiter c) in
      let c := with_limiter l c in
      if ok then
        if cb_readahead b then Some (goto h (LoadRead None) c)
        else let '(r, id) := cold_track now (bc_cold_reads c) in Some (goto h (LoadRead (Some id)) (with_cold r c))
      else Some (goto h LoadQueued c)
  | LoadQueued => evict_all now (goto h LoadWait c)
  | LoadWait => if bool_decide (h ∈ bc_woken c) then Some (goto h LoadAcquire (with_woken (filter (λ w, w ≠ h)) c)) else None
  | LoadPush =>
      let i := shard_of (bi_stream_id (cb_index b)) c in
      Some (goto h LoadCheck (with_shard i (λ sh, mkShard (sh_blocks sh) (lru_push (cb_key b) tt (sh_lru sh)) (sh_last_evict_check_ms sh)) c))
  | LoadUndecoded => Some (goto h LoadCheck (remove_if_same h (cb_key b) c).1)
  | LoadUnread e => Some (goto h LoadCheck (fail_shared h (SE_Object e) c))
  | LoadCheck => if required_release (bc_limiter c) then evict_all now (goto h LoadDone c) else Some (goto h LoadDone c)
  | LoadRead _ | LoadDone => None
  end.

(** ** Runs *)

Inductive CacheEvent : Type :=
| CacheGet (now : Z) (readahead : bool) (reader : S3ObjectMetadata) (index : DataBlockIndex)
| CacheLoad (now : Z) (h : nat)
| CacheFetched (h : nat) (r : result ObjectError bytes)
| CacheMarkUnread (now : Z) (h : nat)
| CacheMarkRead (h : nat)
| CacheListen (h : nat) (listener : L)
| CacheUnlisten (handle : nat * Z).

Definition cache_step (e : CacheEvent) (c : cache) : option cache :=
  match e with
  | CacheGet now readahead reader index => fst <$> get_block_handle now readahead reader index c
  | CacheLoad now h => load_step now h c
  | CacheFetched h r => load_fetched h r c
  | CacheMarkUnread now h => Some (with_heap (alter (mark_unread now) h) c)
  | CacheMarkRead h => mark_read h c
  | CacheListen h listener => Some (register_free_listener h listener c).1
  | CacheUnlisten handle => Some (close_listener handle c)
  end.

Fixpoint cache_run (es : list CacheEvent) (c : cache) : option cache :=
  match es with
  | [] => Some c
  | e :: es => let* c := cache_step e c in cache_run es c
  end.
End Cache.
Arguments CacheEvent : clear implicits.

(** ** The invariant *)

(** What a block owes the limiter. *)
Definition debt {L} (b : CacheBlock L) : Z :=
  (if acquired (cb_phase b) then bi_size (cb_index b) else 0) - (if cb_freed b then bi_size (cb_index b) else 0).
Definition total_debt {L} (heap : list (CacheBlock L)) : Z := foldr (λ b acc, debt b + acc) 0 heap.

Definition queued (p : LoadPhase) : bool := match p with LoadQueued | LoadWait => true | _ => false end.
Definition loading (p : LoadPhase) : bool :=
  match p with LoadAcquire | LoadQueued | LoadWait | LoadRead _ | LoadUnread _ => true | _ => false end.

(** A read that leaves no records. *)
Definition unusable (r : result ObjectError bytes) : Prop :=
  match r with Ok data => ∀ records, decode_data_block data ≠ Ok records | Err _ => True end.

Section Invariant.
Context {C L : Type} `{!LruCache C BlockKey unit}.
Abbreviation cache := (BlocksCache C L).
(** What a read of a block of an object may return. *)
Context (source : S3ObjectMetadata → DataBlockIndex → result ObjectError bytes → Prop).

(** A load is over exactly when its task is past the read; it then has the records of what
    was read, or has failed and been freed. *)
Record block_ok (b : CacheBlock L) : Prop := {
  bo_object : cb_object_id b = om_object_id (cb_reader b);
  bo_loading : loading (cb_phase b) = true ↔ cb_load b = None;
  bo_unloaded : cb_load b = None → cb_records b = None;
  bo_loaded : is_loaded b = true → ∃ data records, source (cb_reader b) (cb_index b) (Ok data)
    ∧ decode_data_block data = Ok records ∧ cb_records b = Some records;
  bo_failed e : cb_load b = Some (Err e) → cb_freed b = true ∧ ∃ r, source (cb_reader b) (cb_index b) r ∧ unusable r;
  bo_unread e : cb_phase b = LoadUnread e → source (cb_reader b) (cb_index b) (Err e);
  bo_push : cb_phase b = LoadPush → is_loaded b = true;
}.

Record cache_ok (max_size : Z) (c : cache) : Prop := {
  co_permits : sl_permits (bc_limiter c) = i64 (max_size - total_debt (bc_heap c));
  co_blocks h b : bc_heap c !! h = Some b → block_ok b;
  co_map i sh key h : bc_shards c !! i = Some sh → sh_blocks sh !! key = Some h → ∃ b, bc_heap c !! h = Some b ∧ cb_key b = key;
  co_nodup : NoDup (sl_waiters (bc_limiter c) ++ bc_woken c);
  co_queued h : h ∈ sl_waiters (bc_limiter c) ++ bc_woken c ↔ ∃ b, bc_heap c !! h = Some b ∧ queued (cb_phase b) = true;
}.

Lemma total_debt_app (l k : list (CacheBlock L)) : total_debt (l ++ k) = total_debt l + total_debt k.
Proof.
  induction l as [|b l IH]; [done|]. change (debt b + total_debt (l ++ k) = debt b + total_debt l + total_debt k). lia.
Qed.

Lemma total_debt_alter f h (l : list (CacheBlock L)) b :
  l !! h = Some b → total_debt (alter f h l) = total_debt l - debt b + debt (f b).
Proof.
  revert h; induction l as [|x l IH]; intros [|h] Hl; try done.
  - injection Hl as ->. change (debt (f b) + total_debt l = debt b + total_debt l - debt b + debt (f b)). lia.
  - change (debt x + total_debt (alter f h l) = debt x + total_debt l - debt b + debt (f b)). rewrite (IH h Hl). lia.
Qed.

Lemma i64_add_l a b : i64 (i64 a + b) = i64 (a + b).
Proof. int_lia. Qed.
Lemma i64_idem a : i64 (i64 a) = i64 a.
Proof. int_lia. Qed.
Lemma i64_sub_l a b : i64 (i64 a - b) = i64 (a - b).
Proof. int_lia. Qed.

Definition pending (c : cache) : list nat := sl_waiters (bc_limiter c) ++ bc_woken c.

(** One block changes, its debt is settled with the limiter, and blocks leave the maps. *)
Lemma ok_change max_size c c' h b b' :
  cache_ok max_size c → bc_heap c !! h = Some b → bc_heap c' = alter (λ _, b') h (bc_heap c) → block_ok b' → cb_key b' = cb_key b →
  (∀ i sh, bc_shards c' !! i = Some sh → ∃ sh', bc_shards c !! i = Some sh' ∧ sh_blocks sh ⊆ sh_blocks sh') →
  sl_permits (bc_limiter c') = i64 (sl_permits (bc_limiter c) + debt b - debt b') →
  NoDup (pending c') → (∀ x, x ∈ pending c' ↔ (if decide (x = h) then queued (cb_phase b') = true else x ∈ pending c)) →
  cache_ok max_size c'.
Proof.
  intros [P B M N Q] Hb Eh Hb' Ek Hsh Ep Hn Hq. constructor.
  - rewrite Ep, P, Eh, (total_debt_alter _ _ _ b Hb). replace (i64 _ + debt b - debt b') with (i64 (max_size - total_debt (bc_heap c)) + (debt b - debt b')) by lia.
    rewrite i64_add_l. f_equal. lia.
  - intros x y. rewrite Eh. destruct (decide (x = h)) as [->|Hx].
    + rewrite list_lookup_alter_eq, Hb. cbn. intros [= <-]. done.
    + rewrite list_lookup_alter_ne by done. apply B.
  - intros i sh key x Hi Hk. destruct (Hsh i sh Hi) as (sh' & Hi' & Hsub).
    destruct (M i sh' key x Hi' (lookup_weaken _ _ _ _ Hk Hsub)) as (y & Hy & Eky). rewrite Eh. destruct (decide (x = h)) as [->|Hx].
    + exists b'. rewrite list_lookup_alter_eq, Hb. split; [done|]. congruence.
    + exists y. by rewrite list_lookup_alter_ne.
  - exact Hn.
  - intros x. rewrite (Hq x), Eh. destruct (decide (x = h)) as [->|Hx].
    + rewrite list_lookup_alter_eq, Hb. cbn. split; [by eauto|]. by intros (? & [= <-] & ?).
    + rewrite list_lookup_alter_ne by done. apply Q.
Qed.

(** The block table of a shard loses entries, the LRU list changes. *)
Lemma ok_shards max_size c i f :
  cache_ok max_size c → (∀ sh, sh_blocks (f sh) ⊆ sh_blocks sh) → cache_ok max_size (with_shard i f c).
Proof.
  intros [P B M N Q] Hf. constructor; cbn; try done. intros j sh key h Hj Hk. destruct (decide (j = i)) as [->|Hne].
  - rewrite list_lookup_alter_eq in Hj. destruct (bc_shards c !! i) as [sh0|] eqn:E; [|done]. injection Hj as <-.
    apply (M i sh0 key h E). eapply lookup_weaken; [exact Hk|apply Hf].
  - rewrite list_lookup_alter_ne in Hj by done. by apply (M j sh).
Qed.

Lemma shards_kept (c : cache) i (sh : Shard C) :
  bc_shards c !! i = Some sh → ∃ sh', bc_shards c !! i = Some sh' ∧ sh_blocks sh ⊆ sh_blocks sh'.
Proof. intros H. by exists sh. Qed.

(** A block changes without touching the limiter. *)
Lemma ok_block max_size c h b b' :
  cache_ok max_size c → bc_heap c !! h = Some b → block_ok b' → cb_key b' = cb_key b → debt b' = debt b →
  queued (cb_phase b') = queued (cb_phase b) → cache_ok max_size (with_heap (alter (λ _, b') h) c).
Proof.
  intros Hc Hb Hb' Ek Ed Eq. eapply ok_change; [exact Hc|exact Hb|reflexivity|done|done|apply (shards_kept c)| |apply (co_nodup _ _ Hc)|].
  - cbn. rewrite (co_permits _ _ Hc), Ed. rewrite Z.add_simpl_r. by rewrite i64_idem.
  - intros x. case_decide; [subst x|done]. rewrite Eq. etransitivity; [apply (co_queued _ _ Hc)|]. rewrite Hb. split; [by intros (? & [= <-] & ?)|by eauto].
Qed.

Lemma alter_const {A} (f : A → A) h (l : list A) a : l !! h = Some a → alter f h l = alter (λ _, f a) h l.
Proof. intros H. by apply list_alter_ext; [|done]; intros x Hx; rewrite H in Hx; injection Hx as ->. Qed.

Lemma release_spec n (c : cache) :
  let c' := release n c in
  sl_permits (bc_limiter c') = i64 (sl_permits (bc_limiter c) + n) ∧ pending c' ≡ₚ pending c
  ∧ bc_heap c' = bc_heap c ∧ bc_shards c' = bc_shards c ∧ bc_fired c' = bc_fired c.
Proof.
  unfold release, limiter_release, pending. destruct (sl_waiters (bc_limiter c)) as [|w ws]; [done|].
  destruct (0 <? _); cbn; split_and!; try done. by rewrite Permutation_middle.
Qed.

(** A freed block; freeing it again changes nothing. *)
Definition freed_block (b : CacheBlock L) : CacheBlock L := if cb_freed b then b else set_freed b.

Lemma free_spec (c : cache) h b :
  bc_heap c !! h = Some b → i64 (sl_permits (bc_limiter c)) = sl_permits (bc_limiter c) →
  let c' := free h c in
  bc_heap c' = alter (λ _, freed_block b) h (bc_heap c) ∧ bc_shards c' = bc_shards c ∧ pending c' ≡ₚ pending c
  ∧ sl_permits (bc_limiter c') = i64 (sl_permits (bc_limiter c) + debt b - debt (freed_block b)).
Proof.
  intros Hb Hi. unfold free, freed_block, debt. rewrite Hb. destruct (cb_freed b) eqn:Ef.
  - split_and!; [|done..|].
    + apply list_eq. intros j. destruct (decide (j = h)) as [->|]; [by rewrite list_lookup_alter_eq, Hb|by rewrite list_lookup_alter_ne].
    + rewrite <- Hi at 1. f_equal. lia.
  - destruct (release_spec (bi_size (cb_index b)) (with_heap (alter set_freed h) c)) as (Ep & Epend & Eh & Es & _).
    split_and!; [|done|done|].
    + cbn. rewrite Eh. by apply alter_const.
    + cbn. rewrite Ep. cbn. f_equal. lia.
Qed.

(** The block's own view of the queue. *)
Lemma pending_self max_size c h b : cache_ok max_size c → bc_heap c !! h = Some b → h ∈ pending c ↔ queued (cb_phase b) = true.
Proof. intros Hc Hb. etransitivity; [apply (co_queued _ _ Hc)|]. rewrite Hb. split; [by intros (? & [= <-] & ?)|by eauto]. Qed.

Lemma ok_permits_i64 max_size c : cache_ok max_size c → i64 (sl_permits (bc_limiter c)) = sl_permits (bc_limiter c).
Proof. intros Hc. by rewrite (co_permits _ _ Hc), i64_idem. Qed.

(** A block is changed, freed, and moved on by its task. *)
Lemma ok_change_free max_size c h b b1 p :
  cache_ok max_size c → bc_heap c !! h = Some b → debt b1 = debt b → cb_key b1 = cb_key b → cb_freed b1 = cb_freed b →
  block_ok (set_phase p (freed_block b1)) → acquired p = acquired (cb_phase b1) →
  queued p = queued (cb_phase b) → cache_ok max_size (goto h p (free h (with_heap (alter (λ _, b1) h) c))).
Proof.
  intros Hc Hb Ed Ek Ef Hok Ea Eq. set (c1 := with_heap (alter (λ _, b1) h) c).
  assert (bc_heap c1 !! h = Some b1) as Hb1 by (cbn; by rewrite list_lookup_alter_eq, Hb).
  destruct (free_spec c1 h b1 Hb1 (ok_permits_i64 max_size c Hc)) as (Eh & Es & Ep & Epm). set (c2 := free h c1) in *.
  eapply (ok_change max_size c _ h b (set_phase p (freed_block b1)) Hc Hb).
  - cbn. rewrite Eh. cbn. apply list_eq. intros j. destruct (decide (j = h)) as [->|]; [by rewrite !list_lookup_alter_eq, Hb|by rewrite !list_lookup_alter_ne].
  - done.
  - rewrite <- Ek. unfold freed_block. by destruct (cb_freed b1).
  - cbn. rewrite Es. apply (shards_kept c).
  - cbn. rewrite Epm. cbn. rewrite Ed. f_equal. f_equal. unfold debt, freed_block. cbn. rewrite Ea. by destruct (cb_freed b1).
  - change (NoDup (pending c2)). rewrite Ep. apply (co_nodup _ _ Hc).
  - intros x. change (x ∈ pending c2 ↔ (if decide (x = h) then queued p = true else x ∈ pending c)). rewrite Ep. change (pending c1) with (pending c).
    case_decide; [subst x|done]. rewrite Eq. by eapply pending_self.
Qed.

Lemma ok_free max_size c h : cache_ok max_size c → cache_ok max_size (free h c).
Proof.
  intros Hc. destruct (bc_heap c !! h) as [b|] eqn:Hb; [|unfold free; by rewrite Hb].
  destruct (free_spec c h b Hb (ok_permits_i64 max_size c Hc)) as (Eh & Es & Ep & Epm).
  apply (ok_change max_size c _ h b (freed_block b) Hc Hb); try done.
  - pose proof (co_blocks _ _ Hc h b Hb) as Hk. unfold freed_block. destruct (cb_freed b); [exact Hk|].
    destruct Hk as [? ? ? ? Hf ? ?]. constructor; try done. intros e He. split; [done|by apply (Hf e)].
  - unfold freed_block. by destruct (cb_freed b).
  - rewrite Es. apply (shards_kept c).
  - rewrite Ep. apply (co_nodup _ _ Hc).
  - intros x. rewrite Ep. case_decide; [subst x|done]. rewrite (pending_self max_size c h b Hc Hb). unfold freed_block. by destruct (cb_freed b).
Qed.

Lemma ok_remove_if_same max_size c h key : cache_ok max_size c → cache_ok max_size (remove_if_same h key c).1.
Proof. intros Hc. unfold remove_if_same. case_bool_decide; [|done]. apply ok_shards; [done|]. intros sh. cbn. apply delete_subseteq. Qed.

Lemma ok_evict_loop max_size fuel t i c c' : cache_ok max_size c → evict_loop fuel t i c = Some c' → cache_ok max_size c'.
Proof.
  revert c; induction fuel as [|fuel IH]; intros c Hc; cbn; [done|]. destruct (bc_shards c !! i) as [sh|]; [|done].
  destruct (lru_peek_lru (sh_lru sh)) as [[key []]|]; [|by intros [= <-]]. destruct (sh_blocks sh !! key) as [h|].
  - destruct (bc_heap c !! h) as [b|]; [|done]. case_match; [by intros [= <-]|]. apply IH, ok_free, ok_shards; [done|].
    intros sh'. apply delete_subseteq.
  - apply IH, ok_shards; done.
Qed.

Lemma ok_evict_shard max_size now i c c' : cache_ok max_size c → evict_shard now i c = Some c' → cache_ok max_size c'.
Proof. intros Hc. unfold evict_shard. destruct (bc_shards c !! i); [|done]. by apply ok_evict_loop. Qed.

Lemma ok_evict_all max_size now c c' : cache_ok max_size c → evict_all now c = Some c' → cache_ok max_size c'.
Proof.
  unfold evict_all. generalize (seq 0 (length (bc_shards c))) as l. intros l. revert c; induction l as [|i l IH]; intros c Hc; cbn; [by intros [= <-]|].
  destruct (evict_shard now i c) as [c1|] eqn:E.
  - apply IH. by eapply ok_evict_shard.
  - clear. induction l; cbn; done.
Qed.

Lemma ok_try_evict_expired max_size now sid c c' : cache_ok max_size c → try_evict_expired now sid c = Some c' → cache_ok max_size c'.
Proof.
  intros Hc. unfold try_evict_expired. destruct (bc_shards c !! _); [|done]. case_match; [|by intros [= <-]].
  apply ok_evict_shard, ok_shards; done.
Qed.

Lemma ok_new_block max_size now ra reader index c sh :
  cache_ok max_size c → bc_shards c !! shard_of (bi_stream_id index) c = Some sh →
  cache_ok max_size (with_heap (λ l, l ++ [block_new now (om_object_id reader) index reader ra])
    (with_shard (shard_of (bi_stream_id index) c)
       (λ sh, mkShard (<[(om_object_id reader, index) := length (bc_heap c)]> (sh_blocks sh)) (sh_lru sh) (sh_last_evict_check_ms sh)) c)).
Proof.
  intros [P B M N Q] Esh. constructor.
  - cbn [bc_limiter bc_heap with_heap with_shard]. rewrite total_debt_app.
    change (total_debt [_]) with 0. by rewrite P, Z.add_0_r.
  - cbn. intros x y [[_ Hx]|[Hx <-]]%lookup_snoc_Some; [by apply (B x)|]. by constructor.
  - cbn. intros j sh' key x Hj Hk.
    assert (x = length (bc_heap c) ∧ key = (om_object_id reader, index) ∨ ∃ b, bc_heap c !! x = Some b ∧ cb_key b = key) as [[-> ->]|(y & Hx & Ek)].
    { destruct (decide (j = shard_of (bi_stream_id index) c)) as [->|Hne].
      - rewrite list_lookup_alter_eq, Esh in Hj. injection Hj as <-. cbn in Hk. apply lookup_insert_Some in Hk as [[<- <-]|[_ Hk]]; [by left|].
        right. by eapply M.
      - rewrite list_lookup_alter_ne in Hj by done. right. by apply (M j sh'). }
    + eexists. split; [apply lookup_snoc_Some; right; done|done].
    + exists y. split; [apply lookup_snoc_Some; left; split; [by eapply lookup_lt_Some|done]|done].
  - exact N.
  - intros x. etransitivity; [apply Q|]. cbn. split.
    + intros (b & Hb & Hq). exists b. split; [apply lookup_snoc_Some; left; split; [by eapply lookup_lt_Some|done]|done].
    + intros (b & [[_ Hb]|[_ <-]]%lookup_snoc_Some & Hq); [by eauto|done].
Qed.

Lemma ok_get max_size now ra reader index c c' h :
  cache_ok max_size c → get_block_handle now ra reader index c = Some (c', h) → cache_ok max_size c'.
Proof.
  intros Hc. unfold get_block_handle. destruct (bc_shards c !! _) as [sh|] eqn:Esh; [|done]. destruct (sh_blocks sh !! _) as [h0|];
    (match goal with |- context [try_evict_expired ?n ?i ?x] => destruct (try_evict_expired n i x) as [c1|] eqn:E end; [|done]);
    intros [= <- <-]; (eapply ok_try_evict_expired; [|exact E]).
  - by apply ok_shards.
  - by eapply ok_new_block.
Qed.

Lemma filter_ne_perm (h : nat) (l : list nat) : NoDup l → h ∈ l → l ≡ₚ h :: filter (λ w, w ≠ h) l.
Proof.
  intros Hn (l1 & l2 & ->)%list_elem_of_split. apply NoDup_app in Hn as (_ & Hd & [Hh _]%NoDup_cons).
  rewrite filter_app, filter_cons_False by naive_solver. rewrite !filter_all; [by rewrite Permutation_middle|..]; intros x Hx; intros ->; [done|].
  apply (Hd h Hx). left.
Qed.

Lemma alter_twice {A} (f g : A → A) h (l : list A) : alter f h (alter g h l) = alter (f ∘ g) h l.
Proof.
  apply list_eq. intros j. destruct (decide (j = h)) as [->|]; [|by rewrite !list_lookup_alter_ne].
  rewrite !list_lookup_alter_eq. by destruct (l !! h).
Qed.

Lemma with_heap_const f (c : cache) h b : bc_heap c !! h = Some b → with_heap (alter f h) c = with_heap (alter (λ _, f b) h) c.
Proof. intros Hb. unfold with_heap. by rewrite (alter_const f h _ b Hb). Qed.

(** Bookkeeping on a block: the reader's counters and listeners. *)
Lemma ok_bookkeeping max_size c h f :
  cache_ok max_size c →
  (∀ b, cb_key (f b) = cb_key b ∧ cb_phase (f b) = cb_phase b ∧ cb_freed (f b) = cb_freed b ∧ cb_load (f b) = cb_load b
    ∧ cb_records (f b) = cb_records b ∧ cb_reader (f b) = cb_reader b) →
  cache_ok max_size (with_heap (alter f h) c).
Proof.
  intros Hc Hf. destruct (bc_heap c !! h) as [b|] eqn:Hb.
  - rewrite (with_heap_const f c h b Hb). destruct (Hf b) as (Ek & Ep & Efr & El & Er & Erd). pose proof Ek as [= Eo Ei].
    apply (ok_block max_size c h b); [done..| |done| |by rewrite Ep].
    + destruct (co_blocks _ _ Hc h b Hb) as [A1 A2 A3 A4 A5 A6 A7]. constructor; unfold is_loaded in *; rewrite ?Eo, ?Ei, ?Ep, ?Efr, ?El, ?Er, ?Erd; done.
    + unfold debt. by rewrite Ep, Efr, Ei.
  - replace (with_heap (alter f h) c) with c; [done|]. destruct c. unfold with_heap. cbn in *. f_equal.
    apply list_eq. intros j. destruct (decide (j = h)) as [->|]; [by rewrite list_lookup_alter_eq, Hb|by rewrite list_lookup_alter_ne].
Qed.

Lemma ok_mark_read max_size c h c' : cache_ok max_size c → mark_read h c = Some c' → cache_ok max_size c'.
Proof.
  intros Hc. unfold mark_read. destruct (bc_heap c !! h) as [b|] eqn:Hb; [|done]. cbn.
  assert (cache_ok max_size (with_heap (alter (λ _, set_unread None (i32 (cb_unread_cnt b - 1)) b) h) c)) as Hc1.
  { rewrite <- (with_heap_const (λ b, set_unread None (i32 (cb_unread_cnt b - 1)) b) c h b Hb). apply ok_bookkeeping; [done|]. intros x. done. }
  case_match; [by intros [= <-]|].
  pose proof (ok_remove_if_same max_size _ h (cb_key b) Hc1) as Hc2. destruct (remove_if_same _ _ _) as [c2 rm]. cbn in Hc2.
  intros [= <-]. destruct rm; [by apply ok_free|done].
Qed.

Lemma ok_cold max_size c r : cache_ok max_size c → cache_ok max_size (with_cold r c).
Proof. intros [? ? ? ? ?]. by constructor. Qed.

Lemma block_ok_phase b p :
  block_ok b → loading p = loading (cb_phase b) → p ≠ LoadPush → (∀ e, p = LoadUnread e → source (cb_reader b) (cb_index b) (Err e)) → block_ok (set_phase p b).
Proof. intros [? Hl ? ? ? ? ?] E Hp Hu. constructor; try done. cbn. by rewrite E. Qed.

Lemma goto_with p f (c : cache) h b :
  bc_heap c !! h = Some b → goto h p (with_heap (alter f h) c) = with_heap (alter (λ _, set_phase p (f b)) h) c.
Proof. intros Hb. unfold goto, with_heap. cbn. f_equal. rewrite alter_twice. apply (alter_const (set_phase p ∘ f) h _ b Hb). Qed.

Lemma ok_goto max_size c h b p :
  cache_ok max_size c → bc_heap c !! h = Some b → loading p = loading (cb_phase b) → p ≠ LoadPush →
  (∀ e, p = LoadUnread e → source (cb_reader b) (cb_index b) (Err e)) → acquired p = acquired (cb_phase b) →
  queued p = queued (cb_phase b) → cache_ok max_size (goto h p c).
Proof.
  intros Hc Hb El Hp Hu Ea Eq. unfold goto. rewrite (with_heap_const _ c h b Hb). apply (ok_block max_size c h b); try done.
  - apply block_ok_phase; [by apply (co_blocks _ _ Hc h)|done..].
  - unfold debt. cbn. by rewrite Ea.
Qed.

Lemma heap_remove_if_same h key (c : cache) : bc_heap (remove_if_same h key c).1 = bc_heap c.
Proof. unfold remove_if_same. by case_bool_decide. Qed.

Lemma ok_load_fetched max_size c h r c' :
  cache_ok max_size c → (∀ b, bc_heap c !! h = Some b → source (cb_reader b) (cb_index b) r) →
  load_fetched h r c = Some c' → cache_ok max_size c'.
Proof.
  intros Hc Hr. unfold load_fetched. destruct (bc_heap c !! h) as [b|] eqn:Hb; [|done]. specialize (Hr b eq_refl).
  destruct (cb_phase b) as [| | |tracked| | | | |] eqn:Ep; try done.
  set (c0 := match tracked with Some id => with_cold (cold_drop id (bc_cold_reads c)) c | None => c end).
  assert (cache_ok max_size c0) as Hc0 by (destruct tracked; [by apply ok_cold|done]).
  assert (bc_heap c0 !! h = Some b) as Hb0 by (by destruct tracked). clearbody c0. intros [= <-].
  pose proof (co_blocks _ _ Hc h b Hb) as Hok. pose proof (proj1 (bo_loading _ Hok)) as Hl. rewrite Ep in Hl. specialize (Hl eq_refl).
  destruct r as [data|e].
  - unfold complete. destruct (decode_data_block data) as [records|e] eqn:Ed.
    + rewrite (goto_with _ _ c0 h b Hb0). apply (ok_block max_size c0 h b); try done.
      * destruct Hok as [A1 A2 A3 A4 A5 A6 A7]. constructor; try done. intros _. exists data, records. split; [done|]. split; [done|]. cbn. by rewrite A3.
      * unfold debt. cbn. by rewrite Ep.
      * cbn. by rewrite Ep.
    + unfold fail_shared. rewrite (with_heap_const _ c0 h b Hb0). apply (ok_change_free max_size c0 h b); try done.
      * destruct Hok as [A1 A2 A3 A4 A5 A6 A7]. unfold freed_block. cbn.
        destruct (cb_freed b) eqn:Ef; constructor; try done; intros e' _; (split; [done|]); exists (Ok data); (split; [done|]); intros records; congruence.
      * cbn. by rewrite Ep.
      * by rewrite Ep.
  - eapply ok_goto; [by apply ok_remove_if_same|by rewrite heap_remove_if_same|rewrite ?Ep..]; try done. by intros ? [= <-].
Qed.

Lemma ok_load_step max_size now c h c' : cache_ok max_size c → load_step now h c = Some c' → cache_ok max_size c'.
Proof.
  intros Hc. unfold load_step. destruct (bc_heap c !! h) as [b|] eqn:Hb; [|done]. pose proof (co_blocks _ _ Hc h b Hb) as Hok.
  pose proof (pending_self max_size c h b Hc Hb) as Hself. pose proof (co_nodup _ _ Hc) as Hnd. fold (pending c) in Hnd.
  destruct (cb_phase b) as [| | |tracked| | |e| |] eqn:Ep; try done.
  - unfold limiter_try_acquire. destruct (0 <=? _).
    + assert (∀ t, cache_ok max_size (goto h (LoadRead t) (with_limiter (mkLimiter (i64 (sl_permits (bc_limiter c) - bi_size (cb_index b))) (sl_waiters (bc_limiter c))) c))) as Hg.
      { intros t. apply (ok_change max_size c _ h b (set_phase (LoadRead t) b) Hc Hb); try done.
        - by apply alter_const.
        - apply block_ok_phase; [done|by rewrite Ep|done|done].
        - apply (shards_kept c).
        - cbn. unfold debt. cbn. rewrite Ep. cbn. f_equal. lia.
        - intros x. case_decide; [subst x|done]. by rewrite <- Hself. }
      destruct (cb_readahead b); intros [= <-]; [apply Hg|]. apply (ok_cold max_size _ (cold_track now (bc_cold_reads c)).1 (Hg (Some (cr_next_id (bc_cold_reads c))))).
    + intros [= <-].
      assert (pending (goto h LoadQueued (with_limiter (mkLimiter (sl_permits (bc_limiter c)) (sl_waiters (bc_limiter c) ++ [h])) c)) ≡ₚ h :: pending c) as Epend.
      { unfold pending. cbn. rewrite <- app_assoc. cbn. by rewrite Permutation_middle. }
      apply (ok_change max_size c _ h b (set_phase LoadQueued b) Hc Hb); try done.
      * by apply alter_const.
      * apply block_ok_phase; [done|by rewrite Ep|done|done].
      * apply (shards_kept c).
      * cbn. unfold debt. cbn. rewrite ?Ep. cbn. rewrite <- (ok_permits_i64 max_size c Hc) at 1. f_equal. lia.
      * rewrite Epend. apply NoDup_cons. split; [by rewrite Hself|done].
      * intros x. rewrite Epend, elem_of_cons. case_decide; [by intuition|by intuition].
  - apply ok_evict_all. by eapply ok_goto; [done|done|rewrite ?Ep..].
  - case_bool_decide as Hw; [|done]. intros [= <-]. cbn in Hself.
    assert (pending c ≡ₚ h :: pending (goto h LoadAcquire (with_woken (filter (λ w, w ≠ h)) c))) as Epend.
    { unfold pending in *. cbn. apply NoDup_app in Hnd as (_ & _ & Hnd2). rewrite Permutation_middle. f_equiv. by apply filter_ne_perm. }
    assert (NoDup (h :: pending (goto h LoadAcquire (with_woken (filter (λ w, w ≠ h)) c)))) as Hnd' by (by rewrite <- Epend).
    apply NoDup_cons in Hnd' as [Hnot Hnd'].
    apply (ok_change max_size c _ h b (set_phase LoadAcquire b) Hc Hb); try done.
    + by apply alter_const.
    + apply block_ok_phase; [done|by rewrite Ep|done|done].
    + apply (shards_kept c).
    + cbn. unfold debt. cbn. rewrite ?Ep. cbn. rewrite <- (ok_permits_i64 max_size c Hc) at 1. f_equal. lia.
    + intros x. case_decide; [subst x; by split|]. rewrite Epend, elem_of_cons. by intuition.
  - intros [= <-]. eapply ok_goto; [by apply ok_shards; [done|]|cbn; exact Hb|by rewrite ?Ep..].
  - intros [= <-]. eapply ok_goto; [by apply ok_remove_if_same|by rewrite heap_remove_if_same|by rewrite ?Ep..].
  - intros [= <-]. unfold fail_shared. rewrite (with_heap_const _ c h b Hb). apply (ok_change_free max_size c h b); try done.
    + destruct Hok as [A1 A2 A3 A4 A5 A6 A7]. unfold freed_block. cbn.
      destruct (cb_freed b) eqn:Ef; constructor; try done; intros e' _; (split; [done|]); exists (Err e); (split; [by apply A6|done]).
    + cbn. by rewrite Ep.
    + by rewrite Ep.
  - case_match; [apply ok_evict_all|intros [= <-]]; by eapply ok_goto; [done|done|rewrite ?Ep..].
Qed.
End Invariant.

(** ** Blocks only gain *)

(** A block keeps its key and its object, and once its load is over its outcome. *)
Record block_grows {L} (b b' : CacheBlock L) : Prop := {
  bg_key : cb_key b' = cb_key b;
  bg_reader : cb_reader b' = cb_reader b;
  bg_load r : cb_load b = Some r → cb_load b' = Some r ∧ cb_records b' = cb_records b;
}.
#[export] Instance block_grows_refl {L} : Reflexive (@block_grows L).
Proof. intros b. by constructor. Qed.
#[export] Instance block_grows_trans {L} : Transitive (@block_grows L).
Proof.
  intros x y z [A1 A2 A3] [B1 B2 B3]. constructor; [congruence..|]. intros r Hr. destruct (A3 r Hr) as [Hy Ey]. destruct (B3 r Hy). split; congruence.
Qed.

Definition heap_grows {L} (l l' : list (CacheBlock L)) : Prop := ∀ h b, l !! h = Some b → ∃ b', l' !! h = Some b' ∧ block_grows b b'.
#[export] Instance heap_grows_refl {L} : Reflexive (@heap_grows L).
Proof. intros l h b Hb. by exists b. Qed.
#[export] Instance heap_grows_trans {L} : Transitive (@heap_grows L).
Proof. intros x y z H1 H2 h b Hb. destruct (H1 h b Hb) as (b1 & Hb1 & G1). destruct (H2 h b1 Hb1) as (b2 & Hb2 & G2). exists b2. split; [done|by etransitivity]. Qed.

Lemma heap_grows_alter {L} f h (l : list (CacheBlock L)) : (∀ b, l !! h = Some b → block_grows b (f b)) → heap_grows l (alter f h l).
Proof.
  intros Hf x b Hb. destruct (decide (x = h)) as [->|].
  - exists (f b). rewrite list_lookup_alter_eq, Hb. split; [done|by apply Hf].
  - exists b. by rewrite list_lookup_alter_ne.
Qed.

Section Grows.
Context {C L : Type} `{!LruCache C BlockKey unit}.
Abbreviation cache := (BlocksCache C L).
Implicit Types c : cache.

Lemma free_grows c h : heap_grows (bc_heap c) (bc_heap (free h c)).
Proof.
  unfold free. destruct (bc_heap c !! h) as [b|] eqn:Hb; [|done]. destruct (cb_freed b); [done|].
  destruct (release_spec (bi_size (cb_index b)) (with_heap (alter set_freed h) c)) as (_ & _ & Eh & _).
  cbn. rewrite Eh. apply heap_grows_alter. intros x _. by constructor.
Qed.

Lemma goto_grows c h p : heap_grows (bc_heap c) (bc_heap (goto h p c)).
Proof. apply heap_grows_alter. intros b _. by constructor. Qed.

Lemma evict_loop_grows fuel t i c c' : evict_loop fuel t i c = Some c' → heap_grows (bc_heap c) (bc_heap c').
Proof.
  revert c; induction fuel as [|fuel IH]; intros c; cbn; [done|]. destruct (bc_shards c !! i) as [sh|]; [|done].
  destruct (lru_peek_lru (sh_lru sh)) as [[key []]|]; [|by intros [= <-]]. destruct (sh_blocks sh !! key) as [h|]; [|by intros ?%IH].
  destruct (bc_heap c !! h) as [b|]; [|done]. case_match; [by intros [= <-]|]. intros Hg%IH. etransitivity; [|exact Hg]. match goal with |- context [free h ?x] => apply (free_grows x h) end.
Qed.

Lemma evict_shard_grows now i c c' : evict_shard now i c = Some c' → heap_grows (bc_heap c) (bc_heap c').
Proof. unfold evict_shard. destruct (bc_shards c !! i); [|done]. apply evict_loop_grows. Qed.

Lemma evict_all_grows now c c' : evict_all now c = Some c' → heap_grows (bc_heap c) (bc_heap c').
Proof.
  unfold evict_all. generalize (seq 0 (length (bc_shards c))) as l. intros l. revert c; induction l as [|i l IH]; intros c; cbn; [by intros [= <-]|].
  destruct (evict_shard now i c) as [c1|] eqn:E.
  - intros H%IH. etransitivity; [by eapply evict_shard_grows|done].
  - clear. induction l; cbn; done.
Qed.

Lemma try_evict_grows now sid c c' : try_evict_expired now sid c = Some c' → heap_grows (bc_heap c) (bc_heap c').
Proof.
  unfold try_evict_expired. destruct (bc_shards c !! _); [|done]. case_match; [|by intros [= <-]]. intros Hg%evict_shard_grows. exact Hg.
Qed.

(** The handle names a block of the key, loaded from an object of that id. *)
Lemma get_block_handle_grows now ra reader index c c' h :
  get_block_handle now ra reader index c = Some (c', h) → heap_grows (bc_heap c) (bc_heap c').
Proof.
  unfold get_block_handle. destruct (bc_shards c !! _) as [sh|] eqn:Esh; [|done]. destruct (sh_blocks sh !! _) as [h0|];
    (match goal with |- context [try_evict_expired ?n ?i ?x] => destruct (try_evict_expired n i x) as [c1|] eqn:E end; [|done]);
    intros [= <- <-]; apply try_evict_grows in E; [exact E|].
  etransitivity; [|exact E]. intros x b Hb. exists b. split; [|done]. by apply lookup_app_l_Some.
Qed.

Lemma mark_read_grows h c c' : mark_read h c = Some c' → heap_grows (bc_heap c) (bc_heap c').
Proof.
  unfold mark_read. destruct (bc_heap c !! h) as [b|] eqn:Hb; [|done]. cbn.
  set (c1 := with_heap (alter (λ _, set_unread None (i32 (cb_unread_cnt b - 1)) b) h) c).
  assert (heap_grows (bc_heap c) (bc_heap c1)) as H1.
  { apply heap_grows_alter. intros x Hx. rewrite Hb in Hx. injection Hx as <-. by constructor. }
  case_match; [by intros [= <-]|].
  pose proof (heap_remove_if_same h (cb_key b) c1) as E2. destruct (remove_if_same _ _ _) as [c2 rm]. change (bc_heap c2 = bc_heap c1) in E2.
  intros [= <-]. destruct rm; [|by rewrite E2]. etransitivity; [exact H1|]. rewrite <- E2. apply free_grows.
Qed.

Lemma set_load_grows (b : CacheBlock L) r rs : cb_load b = None → block_grows b (set_load r rs b).
Proof. intros Hn. constructor; [done..|]. intros x Hx. congruence. Qed.

Lemma fail_shared_grows c h b e : bc_heap c !! h = Some b → cb_load b = None → heap_grows (bc_heap c) (bc_heap (fail_shared h e c)).
Proof.
  intros Hb Hn. etransitivity; [|apply free_grows]. apply heap_grows_alter. intros x Hx. rewrite Hb in Hx. injection Hx as <-. by apply set_load_grows.
Qed.

Context (source : S3ObjectMetadata → DataBlockIndex → result ObjectError bytes → Prop).

Lemma cache_step_grows max_size e c c' : cache_ok source max_size c → cache_step e c = Some c' → heap_grows (bc_heap c) (bc_heap c').
Proof.
  intros Hc. destruct e as [now ra reader index|now h|h r|now h|h|h listener|handle]; cbn.
  - destruct (get_block_handle _ _ _ _ _) as [[c1 h]|] eqn:E; [|done]. intros [= <-]. by eapply get_block_handle_grows.
  - unfold load_step. destruct (bc_heap c !! h) as [b|] eqn:Hb; [|done]. pose proof (co_blocks _ _ _ Hc h b Hb) as Hok.
    destruct (cb_phase b) eqn:Ep; try done.
    + destruct (limiter_try_acquire _ _ _) as [l []]; [destruct (cb_readahead b)|]; intros [= <-]; apply (goto_grows (with_limiter l c)).
    + intros H%evict_all_grows. etransitivity; [apply goto_grows|exact H].
    + case_bool_decide; [|done]. intros [= <-]. apply (goto_grows c).
    + intros [= <-]. apply (goto_grows c).
    + intros [= <-]. rewrite <- (heap_remove_if_same h (cb_key b) c). apply goto_grows.
    + intros [= <-]. etransitivity; [|apply goto_grows]. eapply fail_shared_grows; [exact Hb|]. apply (bo_loading _ _ Hok). by rewrite Ep.
    + case_match; [intros Hg%evict_all_grows|intros [= <-]]; [etransitivity; [apply goto_grows|exact Hg]|apply goto_grows].
  - unfold load_fetched. destruct (bc_heap c !! h) as [b|] eqn:Hb; [|done]. pose proof (co_blocks _ _ _ Hc h b Hb) as Hok.
    destruct (cb_phase b) as [| | |tracked| | | | |] eqn:Ep; try done.
    assert (cb_load b = None) as Hn by (apply (bo_loading _ _ Hok); by rewrite Ep).
    set (c0 := match tracked with Some id => with_cold (cold_drop id (bc_cold_reads c)) c | None => c end).
    assert (bc_heap c0 = bc_heap c) as E0 by (by destruct tracked). rewrite <- E0 in Hb |- *. clearbody c0. intros [= <-].
    destruct r as [data|e].
    + unfold complete. destruct (decode_data_block data); etransitivity; [|apply goto_grows| |apply goto_grows].
      * apply heap_grows_alter. intros x Hx. rewrite Hb in Hx. injection Hx as <-. by apply set_load_grows.
      * by eapply fail_shared_grows.
    + rewrite <- (heap_remove_if_same h (cb_key b) c0). apply goto_grows.
  - intros [= <-]. apply heap_grows_alter. intros b _. by constructor.
  - apply mark_read_grows.
  - intros [= <-]. unfold register_free_listener. destruct (bc_heap c !! h) as [b|] eqn:Hb; [|done]. destruct (cb_freed b); [done|].
    apply heap_grows_alter. intros x Hx. by constructor.
  - intros [= <-]. apply heap_grows_alter. intros b _. by constructor.
Qed.
End Grows.
