(* ===== verification/DataBlockSafety.v ===== *)
(** * The data block cache under any interleaving

    Permits balance, loaded blocks hold what their object holds, and every step the code takes
    returns.  [steady] adds what holds as long as a loaded block is entered in the LRU list
    before its last reader drops it; the last example shows what happens when it is not. *)
From S2P Require Import Prelude Collections Codec ObjectStore ObjectFormat ObjectIO Metadata DataBlockCache.

Section Runs.
Context {C L : Type} `{!LruCache C BlockKey unit} `{!LruCacheLaws C BlockKey unit}.
Abbreviation cache := (BlocksCache C L).
Implicit Types c : cache.
Context (source : S3ObjectMetadata → DataBlockIndex → result ObjectError bytes → Prop).

(** The storage answers reads with what [source] allows. *)
Definition honest (e : CacheEvent L) c : Prop :=
  match e with
  | CacheFetched h r => ∀ b, bc_heap c !! h = Some b → source (cb_reader b) (cb_index b) r
  | _ => True
  end.

(** A completed block that enters the LRU list is still in the table, only loaded blocks
    are marked read, and sizes are 32-bit. *)
Definition timely (e : CacheEvent L) c : Prop :=
  match e with
  | CacheLoad _ h => ∀ b, bc_heap c !! h = Some b → cb_phase b = LoadPush →
      bc_shards c !! shard_of (bi_stream_id (cb_index b)) c ≫= (λ sh, sh_blocks sh !! cb_key b) = Some h
  | CacheMarkRead h => ∀ b, bc_heap c !! h = Some b → cb_load b ≠ None
  | CacheGet _ _ _ index => is_u32 (bi_size index)
  | _ => True
  end.

Inductive cache_reach (allowed : CacheEvent L → cache → Prop) (c0 : cache) : cache → Prop :=
| reach_start : cache_reach allowed c0 c0
| reach_step c e c' : cache_reach allowed c0 c → allowed e c → cache_step e c = Some c' → cache_reach allowed c0 c'.

(** ** Every step keeps the invariant *)

Lemma cache_step_ok max_size e c c' : cache_ok source max_size c → honest e c → cache_step e c = Some c' → cache_ok source max_size c'.
Proof.
  intros Hc Ha. destruct e as [now ra reader index|now h|h r|now h|h|h listener|handle]; cbn.
  - destruct (get_block_handle _ _ _ _ _) as [[c1 h]|] eqn:E; [|done]. intros [= <-]. by eapply ok_get.
  - by apply ok_load_step.
  - by apply ok_load_fetched.
  - intros [= <-]. by apply ok_bookkeeping.
  - by apply ok_mark_read.
  - intros [= <-]. unfold register_free_listener. destruct (bc_heap c !! h) as [b|] eqn:Hb; [|done]. destruct (cb_freed b).
    + destruct Hc. by constructor.
    + by apply ok_bookkeeping.
  - intros [= <-]. by apply ok_bookkeeping.
Qed.

Lemma cache_new_ok max_size concurrency ttl_ms interval now : cache_ok source max_size (with_config (C := C) (L := L) max_size concurrency ttl_ms interval now).
Proof.
  constructor; cbn; [by rewrite Z.sub_0_r|done| |apply NoDup_nil_2|].
  - intros i sh key h Hi Hk. apply list_elem_of_lookup_2 in Hi. apply elem_of_replicate in Hi as [-> _]. cbn in Hk. by rewrite lookup_empty in Hk.
  - intros h. split; [by intros ?%not_elem_of_nil|]. by intros (? & ? & _).
Qed.

Lemma cache_reach_ok allowed max_size c0 c :
  (∀ e c, allowed e c → honest e c) → cache_ok source max_size c0 → cache_reach allowed c0 c → cache_ok source max_size c.
Proof. intros Ha H0. induction 1; [done|]. eapply cache_step_ok; eauto. Qed.

(** ** Evictions return *)

Lemma shards_free c h : bc_shards (free h c) = bc_shards c.
Proof.
  unfold free. destruct (bc_heap c !! h) as [b|]; [|done]. destruct (cb_freed b); [done|].
  by destruct (release_spec (bi_size (cb_index b)) (with_heap (alter set_freed h) c)) as (_ & _ & _ & Es & _).
Qed.

Lemma evict_loop_total max_size fuel t i c sh :
  cache_ok source max_size c → bc_shards c !! i = Some sh → (length (lru_iter (V := unit) (sh_lru sh)) < fuel)%nat →
  ∃ c', evict_loop fuel t i c = Some c' ∧ length (bc_shards c') = length (bc_shards c).
Proof.
  revert c sh; induction fuel as [|fuel IH]; intros c sh Hc Hsh Hf; [lia|]. cbn. rewrite Hsh, lru_peek_last.
  destruct (last (lru_iter (sh_lru sh))) as [[key []]|] eqn:El; [|by exists c].
  assert (length (lru_iter (V := unit) (lru_pop_lru (V := unit) (sh_lru sh))) < fuel)%nat as Hf'.
  { rewrite lru_iter_pop_lru, removelast_firstn_len, length_take. destruct (lru_iter (sh_lru sh)); [done|]. cbn in *. lia. }
  destruct (sh_blocks sh !! key) as [h|] eqn:Ek.
  - destruct (co_map _ _ _ Hc i sh key h Hsh Ek) as (b & -> & _). case_match; [by exists c|].
    match goal with |- context [free h ?x] => set (c1 := x) end.
    destruct (IH (free h c1) (mkShard (delete key (sh_blocks sh)) (lru_pop_lru (sh_lru sh)) (sh_last_evict_check_ms sh))) as (c' & -> & El').
    + apply ok_free, ok_shards; [done|]. intros sh'. apply delete_subseteq.
    + rewrite shards_free. cbn. by rewrite list_lookup_alter_eq, Hsh.
    + exact Hf'.
    + exists c'. split; [done|]. rewrite El', shards_free. cbn. apply length_alter.
  - match goal with |- context [evict_loop _ _ _ ?x] => set (c1 := x) end.
    destruct (IH c1 (mkShard (sh_blocks sh) (lru_pop_lru (sh_lru sh)) (sh_last_evict_check_ms sh))) as (c' & -> & El').
    + by apply ok_shards.
    + cbn. by rewrite list_lookup_alter_eq, Hsh.
    + exact Hf'.
    + exists c'. split; [done|]. rewrite El'. cbn. apply length_alter.
Qed.

Lemma evict_shard_total max_size now i c :
  cache_ok source max_size c → (i < length (bc_shards c))%nat →
  ∃ c', evict_shard now i c = Some c' ∧ length (bc_shards c') = length (bc_shards c).
Proof.
  intros Hc Hi. unfold evict_shard. destruct (lookup_lt_is_Some_2 (bc_shards c) i Hi) as [sh Hsh]. rewrite Hsh.
  eapply evict_loop_total; [done|done|lia].
Qed.

Lemma evict_all_total max_size now c :
  cache_ok source max_size c → ∃ c', evict_all now c = Some c' ∧ length (bc_shards c') = length (bc_shards c).
Proof.
  unfold evict_all. intros Hc. assert (Forall (λ i, (i < length (bc_shards c))%nat) (seq 0 (length (bc_shards c)))) as Hl.
  { apply Forall_forall. intros i Hi%elem_of_seq. lia. }
  revert Hl. generalize (seq 0 (length (bc_shards c))) as l. intros l. revert c Hc.
  induction l as [|i l IH]; intros c Hc Hl; cbn; [by exists c|]. apply Forall_cons in Hl as [Hi Hl].
  destruct (evict_shard_total max_size now i c Hc Hi) as (c1 & E & El). rewrite E.
  destruct (IH c1) as (c' & -> & El'); [by eapply ok_evict_shard|by rewrite El|]. exists c'. split; [done|lia].
Qed.

Lemma shard_of_lt c sid : 0 ≤ sid → (0 < length (bc_shards c))%nat → (shard_of sid c < length (bc_shards c))%nat.
Proof. intros. unfold shard_of. pose proof (Z.mod_pos_bound sid (Z.of_nat (length (bc_shards c)))). lia. Qed.

Lemma try_evict_total max_size now sid c :
  cache_ok source max_size c → (0 < length (bc_shards c))%nat → 0 ≤ sid →
  ∃ c', try_evict_expired now sid c = Some c' ∧ length (bc_shards c') = length (bc_shards c).
Proof.
  intros Hc Hn Hs. unfold try_evict_expired. pose proof (shard_of_lt c _ Hs Hn) as Hi.
  destruct (lookup_lt_is_Some_2 _ _ Hi) as [sh ->]. case_match; [|by exists c].
  match goal with |- context [evict_shard _ _ ?x] => destruct (evict_shard_total max_size now (shard_of sid c) x) as (c' & -> & El) end.
  - by apply ok_shards.
  - cbn. by rewrite length_alter.
  - exists c'. split; [done|]. rewrite El. apply length_alter.
Qed.

(** The handle is of a block with that key. *)
Lemma get_block_handle_key max_size now ra reader index c c' h :
  cache_ok source max_size c → get_block_handle now ra reader index c = Some (c', h) →
  ∃ b, bc_heap c' !! h = Some b ∧ cb_key b = (om_object_id reader, index).
Proof.
  intros Hc. unfold get_block_handle. destruct (bc_shards c !! _) as [sh|] eqn:Hsh; [|done].
  destruct (sh_blocks sh !! _) as [h0|] eqn:Ek;
    (match goal with |- context [try_evict_expired ?n ?i ?x] => destruct (try_evict_expired n i x) as [c1|] eqn:E end; [|done]); intros [= <- <-].
  - destruct (co_map _ _ _ Hc _ sh _ h0 Hsh Ek) as (b0 & Hb0 & Ekey). destruct (try_evict_grows _ _ _ _ E h0 b0 Hb0) as (b & Hb & [G1 _ _]).
    exists b. split; [done|by rewrite G1].
  - destruct (try_evict_grows _ _ _ _ E (length (bc_heap c)) (block_new now (om_object_id reader) index reader ra)) as (b & Hb & [G1 _ _]).
    { cbn. by apply list_lookup_middle. }
    exists b. split; [done|by rewrite G1].
Qed.

(** Asking for a block always gives a handle of a block with that key. *)
Lemma get_block_handle_total max_size now ra reader index c :
  cache_ok source max_size c → (0 < length (bc_shards c))%nat → 0 ≤ bi_stream_id index →
  ∃ c' h, get_block_handle now ra reader index c = Some (c', h) ∧ length (bc_shards c') = length (bc_shards c).
Proof.
  intros Hc Hn Hs. unfold get_block_handle. pose proof (shard_of_lt c _ Hs Hn) as Hi. destruct (lookup_lt_is_Some_2 _ _ Hi) as [sh Hsh]. rewrite Hsh.
  destruct (sh_blocks sh !! _) as [h|] eqn:Ek;
    (match goal with |- context [try_evict_expired _ _ ?x] => destruct (try_evict_total max_size now (bi_stream_id index) x) as (c' & -> & El) end;
     [..|done|eexists _, _; split; [done|rewrite El; apply length_alter]]); try (cbn; by rewrite length_alter).
  - by apply ok_shards.
  - by eapply ok_new_block.
Qed.

Lemma shards_evict_loop fuel t i c c' : evict_loop fuel t i c = Some c' → length (bc_shards c') = length (bc_shards c).
Proof.
  revert c; induction fuel as [|fuel IH]; intros c; cbn; [done|]. destruct (bc_shards c !! i) as [sh|]; [|done].
  destruct (lru_peek_lru (sh_lru sh)) as [[key []]|]; [|by intros [= <-]]. destruct (sh_blocks sh !! key) as [h|].
  - destruct (bc_heap c !! h) as [b|]; [|done]. case_match; [by intros [= <-]|]. intros Hl%IH. rewrite Hl, shards_free. apply length_alter.
  - intros Hl%IH. rewrite Hl. apply length_alter.
Qed.

Lemma shards_evict_all now c c' : evict_all now c = Some c' → length (bc_shards c') = length (bc_shards c).
Proof.
  unfold evict_all. generalize (seq 0 (length (bc_shards c))) as l. intros l. revert c; induction l as [|i l IH]; intros c; cbn; [by intros [= <-]|].
  destruct (evict_shard now i c) as [c1|] eqn:E; [|clear; induction l; cbn; done].
  intros ->%IH. unfold evict_shard in E. destruct (bc_shards c !! i); [|done]. by eapply shards_evict_loop.
Qed.

Lemma shards_remove h key c : length (bc_shards (remove_if_same h key c).1) = length (bc_shards c).
Proof. unfold remove_if_same. case_bool_decide; [apply length_alter|done]. Qed.

Lemma shards_step e c c' : cache_step e c = Some c' → length (bc_shards c') = length (bc_shards c).
Proof.
  destruct e as [now ra reader index|now h|h r|now h|h|h listener|handle]; cbn.
  - destruct (get_block_handle _ _ _ _ _) as [[c1 h]|] eqn:E; [|done]. intros [= <-]. revert E. unfold get_block_handle.
    destruct (bc_shards c !! _) as [sh|]; [|done]. destruct (sh_blocks sh !! _);
      unfold try_evict_expired, evict_shard; repeat (case_match; try done); intros [= <- <-]; simplify_eq;
      try (match goal with H : evict_loop _ _ _ _ = Some _ |- _ => apply shards_evict_loop in H as -> end); cbn; by rewrite ?length_alter.
  - unfold load_step. destruct (bc_heap c !! h) as [b|]; [|done]. destruct (cb_phase b); try done.
    + destruct (limiter_try_acquire _ _ _) as [l []]; [destruct (cb_readahead b)|]; by intros [= <-].
    + by intros ->%shards_evict_all.
    + case_bool_decide; [|done]. by intros [= <-].
    + intros [= <-]. apply length_alter.
    + intros [= <-]. apply shards_remove.
    + intros [= <-]. change (bc_shards (goto _ _ ?x)) with (bc_shards x). unfold fail_shared. by rewrite shards_free.
    + case_match; [by intros ->%shards_evict_all|by intros [= <-]].
  - unfold load_fetched. destruct (bc_heap c !! h) as [b|]; [|done]. destruct (cb_phase b) as [| | |tracked| | | | |]; try done. intros [= <-].
    destruct r as [data|e].
    + unfold complete. destruct (decode_data_block data); [by destruct tracked|]. change (bc_shards (goto _ _ ?x)) with (bc_shards x).
      unfold fail_shared. rewrite shards_free. by destruct tracked.
    + change (bc_shards (goto _ _ ?x)) with (bc_shards x). rewrite shards_remove. by destruct tracked.
  - by intros [= <-].
  - unfold mark_read. destruct (bc_heap c !! h) as [b|]; [|done]. cbn. case_match; [by intros [= <-]|].
    match goal with |- context [remove_if_same h ?k ?x] => pose proof (shards_remove h k x) as E; destruct (remove_if_same h k x) as [c2 []] end;
      intros [= <-]; [by rewrite shards_free|done].
  - intros [= <-]. unfold register_free_listener. destruct (bc_heap c !! h) as [b|]; [|done]. by destruct (cb_freed b).
  - by intros [= <-].
Qed.

(** ** Nobody waits in vain *)

(** A block that will return its permits, or a task that is about to try for them. *)
Definition holder (b : CacheBlock L) : bool := acquired (cb_phase b) && negb (cb_freed b).
Definition mover (c : cache) (h : nat) (b : CacheBlock L) : Prop := holder b = true ∨ cb_phase b = LoadAcquire ∨ h ∈ bc_woken c.

Record steady (max_size : Z) c : Prop := {
  st_lru i sh key : bc_shards c !! i = Some sh → key ∈ (lru_iter (V := unit) (sh_lru sh)).*1 →
    ∃ h b, sh_blocks sh !! key = Some h ∧ bc_heap c !! h = Some b ∧ cb_load b ≠ None;
  st_nodup i sh : bc_shards c !! i = Some sh → NoDup (lru_iter (V := unit) (sh_lru sh)).*1;
  st_freed h b : bc_heap c !! h = Some b → cb_freed b = true → cb_load b ≠ None;
  st_acquired h b : bc_heap c !! h = Some b → cb_load b ≠ None → acquired (cb_phase b) = true;
  st_size h b : bc_heap c !! h = Some b → is_u32 (bi_size (cb_index b));
  st_permits : sl_permits (bc_limiter c) = max_size - total_debt (bc_heap c);
  st_room : total_debt (bc_heap c) ≤ max_size + 2 ^ 32;
  st_pending h : h ∈ pending c → is_Some (bc_heap c !! h);
  st_wake : sl_waiters (bc_limiter c) ≠ [] → ∃ h b, bc_heap c !! h = Some b ∧ mover c h b;
}.

(** Blocks that are not freed before they are loaded. *)
Definition fair_block (b : CacheBlock L) : Prop :=
  is_u32 (bi_size (cb_index b)) ∧ (cb_freed b = true → acquired (cb_phase b) = true).

(** What such a block owes. *)
Lemma fair_debt b : fair_block b → debt b = if holder b then bi_size (cb_index b) else 0.
Proof.
  intros [_ Hf]. unfold debt, holder. destruct (cb_freed b) eqn:Ef; [|destruct (acquired _); cbn; lia].
  rewrite (Hf eq_refl). cbn. lia.
Qed.

Lemma fair_debt_nonneg l : Forall fair_block l → 0 ≤ total_debt l.
Proof.
  induction 1 as [|b l Hb _ IH]; [done|]. change (0 ≤ debt b + total_debt l). rewrite (fair_debt b Hb). destruct Hb. case_match; int_lia.
Qed.

Lemma holder_or_none (l : list (CacheBlock L)) :
  Forall fair_block l → (∃ h b, l !! h = Some b ∧ holder b = true) ∨ total_debt l = 0.
Proof.
  induction 1 as [|b l Hb _ [(h & x & Hx & Hh)|IH]]; [by right|left; by exists (S h), x|].
  destruct (holder b) eqn:E; [left; by exists 0%nat, b|right]. change (debt b + total_debt l = 0). rewrite (fair_debt b Hb), E. lia.
Qed.

(** The debt of all blocks is what the holders took. *)
Lemma holders_debt (l : list (CacheBlock L)) :
  Forall fair_block l → total_debt l = foldr (λ b acc, (if holder b then bi_size (cb_index b) else 0) + acc) 0 l.
Proof.
  induction 1 as [|b l Hb _ IH]; [done|].
  change (debt b + total_debt l = (if holder b then bi_size (cb_index b) else 0) + foldr (λ b acc, (if holder b then bi_size (cb_index b) else 0) + acc) 0 l).
  by rewrite IH, (fair_debt b Hb).
Qed.

Lemma steady_fair max_size c : steady max_size c → Forall fair_block (bc_heap c).
Proof.
  intros Hs. apply Forall_lookup. intros h b Hb. split; [by apply (st_size _ _ Hs h)|].
  intros Hf. by apply (st_acquired _ _ Hs h), (st_freed _ _ Hs h).
Qed.

(** A block changes and keeps its standing with the limiter. *)
Lemma steady_block max_size c h b b' :
  steady max_size c → bc_heap c !! h = Some b → cb_key b' = cb_key b → cb_freed b' = cb_freed b →
  acquired (cb_phase b') = acquired (cb_phase b) → (cb_load b ≠ None → cb_load b' ≠ None) → (cb_load b' ≠ None → acquired (cb_phase b') = true) →
  (cb_phase b = LoadAcquire → cb_phase b' = LoadAcquire) → steady max_size (with_heap (alter (λ _, b') h) c).
Proof.
  intros Hs Hb Ek Ef Ea Hl Hacq Hp. pose proof Ek as [= _ Ei].
  assert (debt b' = debt b) as Ed by (unfold debt; by rewrite Ea, Ef, Ei).
  assert (total_debt (alter (λ _, b') h (bc_heap c)) = total_debt (bc_heap c)) as Et by (rewrite (total_debt_alter _ _ _ b Hb); lia).
  assert (∀ x y, alter (λ _, b') h (bc_heap c) !! x = Some y → (x = h ∧ y = b') ∨ (x ≠ h ∧ bc_heap c !! x = Some y)) as Hlook.
  { intros x y. destruct (decide (x = h)) as [->|]; [|rewrite list_lookup_alter_ne by done; by right].
    rewrite list_lookup_alter_eq, Hb. intros [= <-]. by left. }
  assert (∀ x y, bc_heap c !! x = Some y → ∃ y', alter (λ _, b') h (bc_heap c) !! x = Some y' ∧ (cb_load y ≠ None → cb_load y' ≠ None)
    ∧ (mover c x y → mover (with_heap (alter (λ _, b') h) c) x y')) as Hkeep.
  { intros x y Hy. destruct (decide (x = h)) as [->|].
    - rewrite Hb in Hy. injection Hy as <-. exists b'. rewrite list_lookup_alter_eq, Hb. split_and!; [done|done|].
      unfold mover, holder. rewrite Ea, Ef. cbn. naive_solver.
    - exists y. by rewrite list_lookup_alter_ne. }
  destruct Hs as [H1 H2 H3 H4 H5 H6 H7 H8 H9]. constructor; cbn [bc_heap with_heap bc_shards bc_limiter]; rewrite ?Et; try done.
  - intros i sh key Hi Hk. destruct (H1 i sh key Hi Hk) as (x & y & Hx & Hy & Hn). destruct (Hkeep x y Hy) as (y' & Hy' & Hn' & _). exists x, y'. auto.
  - intros x y [[-> ->]|[_ Hy]]%Hlook; [|by apply (H3 x)]. rewrite Ef. intros Hf. apply Hl. by apply (H3 h).
  - intros x y [[-> ->]|[_ Hy]]%Hlook; [done|by apply (H4 x)].
  - intros x y [[-> ->]|[_ Hy]]%Hlook; [rewrite Ei; by apply (H5 h)|by apply (H5 x)].
  - intros x Hx. destruct (H8 x Hx) as [y Hy]. destruct (Hkeep x y Hy) as (y' & -> & _). done.
  - intros Hw. destruct (H9 Hw) as (x & y & Hy & Hm). destruct (Hkeep x y Hy) as (y' & Hy' & _ & Hm'). exists x, y'. auto.
Qed.

Lemma steady_shards max_size c i f :
  steady max_size c →
  (∀ sh key, bc_shards c !! i = Some sh → key ∈ (lru_iter (V := unit) (sh_lru (f sh))).*1 →
     ∃ h b, sh_blocks (f sh) !! key = Some h ∧ bc_heap c !! h = Some b ∧ cb_load b ≠ None) →
  (∀ sh, bc_shards c !! i = Some sh → NoDup (lru_iter (V := unit) (sh_lru (f sh))).*1) →
  steady max_size (with_shard i f c).
Proof.
  intros [H1 H2 H3 H4 H5 H6 H7 H8 H9] Hf Hn. constructor; try done; cbn; intros j sh.
  - intros key. destruct (decide (j = i)) as [->|]; [|rewrite list_lookup_alter_ne by done; apply H1].
    rewrite list_lookup_alter_eq. destruct (bc_shards c !! i) as [sh0|] eqn:E; [|done]. intros [= <-]. by apply Hf.
  - destruct (decide (j = i)) as [->|]; [|rewrite list_lookup_alter_ne by done; apply H2].
    rewrite list_lookup_alter_eq. destruct (bc_shards c !! i) as [sh0|] eqn:E; [|done]. intros [= <-]. by apply Hn.
Qed.

Context (max_size : Z) (Hmax : 0 < max_size < 2 ^ 62).

Lemma steady_i64 c : steady max_size c → i64 (sl_permits (bc_limiter c)) = sl_permits (bc_limiter c).
Proof.
  intros Hs. apply i64_small. rewrite (st_permits _ _ Hs). pose proof (st_room _ _ Hs). pose proof (fair_debt_nonneg _ (steady_fair _ _ Hs)). int_lia.
Qed.

(** A release that leaves permits wakes a waiter. *)
Lemma free_wakes c h b :
  bc_heap c !! h = Some b → cb_freed b = false → 0 < sl_permits (bc_limiter (free h c)) → sl_waiters (bc_limiter (free h c)) ≠ [] →
  ∃ w, w ∈ bc_woken (free h c).
Proof.
  intros Hb Ef. unfold free. rewrite Hb, Ef. unfold release, limiter_release. cbn. destruct (sl_waiters (bc_limiter c)) as [|w ws]; [done|].
  destruct (0 <? _) eqn:E; cbn; intros Hp _; [exists w; left|lia].
Qed.

(** Freeing a loaded block: when it was the last to hold permits, a waiter is woken. *)
Lemma steady_free c h b : steady max_size c → bc_heap c !! h = Some b → cb_load b ≠ None → steady max_size (free h c).
Proof.
  intros Hs Hb Hl. destruct (cb_freed b) eqn:Ef; [unfold free; by rewrite Hb, Ef|].
  destruct (free_spec c h b Hb (steady_i64 c Hs)) as (Eh & Esh & Ep & Epm).
  assert (freed_block b = set_freed b) as Efb by (unfold freed_block; by rewrite Ef). rewrite Efb in *.
  pose proof (st_acquired _ _ Hs h b Hb Hl) as Hacq. pose proof (steady_fair _ _ Hs) as Hfair.
  assert (Forall fair_block (bc_heap (free h c))) as Hfair'.
  { rewrite Eh. apply Forall_alter; [done|]. intros x Hx _. split; [exact (st_size _ _ Hs h b Hb)|done]. }
  pose proof (fair_debt_nonneg _ Hfair) as H0. pose proof (fair_debt_nonneg _ Hfair') as H0'.
  assert (debt (set_freed b) = 0) as Hd by (unfold debt; cbn; rewrite Hacq; lia).
  assert (total_debt (bc_heap (free h c)) = total_debt (bc_heap c) - debt b) as Et by (rewrite Eh, (total_debt_alter _ _ _ b Hb); lia).
  assert (0 ≤ debt b) as Hdb.
  { rewrite (fair_debt b) by (rewrite Forall_lookup in Hfair; by apply (Hfair h)). pose proof (st_size _ _ Hs h b Hb). case_match; int_lia. }
  assert (∀ x y, bc_heap (free h c) !! x = Some y → (x = h ∧ y = set_freed b) ∨ (x ≠ h ∧ bc_heap c !! x = Some y)) as Hlook.
  { intros x y. rewrite Eh. destruct (decide (x = h)) as [->|]; [|rewrite list_lookup_alter_ne by done; by right].
    rewrite list_lookup_alter_eq, Hb. intros [= <-]. by left. }
  pose proof (free_grows c h) as Hg. pose proof (st_permits _ _ Hs) as Hp. pose proof (st_room _ _ Hs) as Hr.
  assert (sl_permits (bc_limiter (free h c)) = max_size - total_debt (bc_heap (free h c))) as Hp'.
  { rewrite Epm, Et, Hp, Hd, i64_small by int_lia. lia. }
  assert (∀ x, x ∈ pending (free h c) → is_Some (bc_heap (free h c) !! x)) as Hpend.
  { intros x Hx. rewrite Ep in Hx. destruct (st_pending _ _ Hs x Hx) as [y Hy]. destruct (Hg x y Hy) as (y' & -> & _). done. }
  destruct Hs as [H1 H2 H3 H4 H5 H6 H7 H8 H9]. constructor; try done.
  - rewrite Esh. intros i sh key Hi Hk. destruct (H1 i sh key Hi Hk) as (x & y & Hx & Hy & Hn). destruct (Hg x y Hy) as (y' & Hy' & [_ _ G]).
    exists x, y'. split_and!; [done..|]. destruct (cb_load y) as [r|]; [|done]. by rewrite (proj1 (G r eq_refl)).
  - rewrite Esh. apply H2.
  - intros x y [[-> ->]|[_ Hy]]%Hlook; [done|by apply (H3 x)].
  - intros x y [[-> ->]|[_ Hy]]%Hlook; [done|by apply (H4 x)].
  - intros x y [[-> ->]|[_ Hy]]%Hlook; [exact (H5 h b Hb)|by apply (H5 x)].
  - lia.
  - intros Hw. destruct (holder_or_none _ Hfair') as [(x & y & Hy & Hh)|Hnone]; [exists x, y; split; [done|by left]|].
    rewrite Hnone in Hp'. destruct (free_wakes c h b Hb Ef) as [w Hwk]; [lia|done|].
    destruct (Hpend w) as [y Hy]; [apply elem_of_app; by right|]. exists w, y. split; [done|by right; right].
Qed.

Lemma without_keys {K V} `{!EqDecision K} (k k' : K) (l : list (K * V)) : k' ∈ (without k l).*1 → k' ∈ l.*1 ∧ k' ≠ k.
Proof. intros (e & -> & [Hne He]%list_elem_of_filter)%list_elem_of_fmap. split; [|done]. by apply list_elem_of_fmap_2. Qed.

Lemma without_nodup {K V} `{!EqDecision K} (k : K) (l : list (K * V)) : NoDup l.*1 → NoDup (without k l).*1.
Proof. intros Hn. eapply sublist_NoDup; [exact Hn|]. apply fmap_sublist, sublist_filter. Qed.

Lemma last_split {A} (l : list A) x : last l = Some x → l = removelast l ++ [x].
Proof. intros Hl. apply last_Some in Hl as [l' ->]. by rewrite removelast_last. Qed.

Lemma find_key_Some {K V} `{!EqDecision K} (k : K) (l : list (K * V)) e : find_key k l = Some e → e ∈ l ∧ e.1 = k.
Proof. unfold find_key. intros H%head_Some_elem_of. apply list_elem_of_filter in H as [? ?]. done. Qed.

Lemma steady_remove_if_same c h key : steady max_size c → steady max_size (remove_if_same h key c).1.
Proof.
  intros Hs. unfold remove_if_same. case_bool_decide; [|done]. apply steady_shards; [done|..]; cbn.
  - intros sh k Hsh. rewrite lru_iter_pop. intros [Hk Hne]%without_keys. destruct (st_lru _ _ Hs _ sh k Hsh Hk) as (x & y & Hx & Hy & Hn).
    exists x, y. by rewrite lookup_delete_ne.
  - intros sh Hsh. rewrite lru_iter_pop. by eapply without_nodup, st_nodup.
Qed.

(** An eviction takes the last entry off the list and the table, and frees its block. *)
Lemma steady_evicted c i sh key h b :
  steady max_size c → bc_shards c !! i = Some sh → lru_iter (sh_lru sh) = removelast (lru_iter (sh_lru sh)) ++ [(key, tt)] →
  bc_heap c !! h = Some b → cb_load b ≠ None →
  steady max_size (free h (with_shard i (λ sh, mkShard (delete key (sh_blocks sh)) (lru_pop_lru (sh_lru sh)) (sh_last_evict_check_ms sh)) c)).
Proof.
  intros Hs Hsh El Hb Hn. eapply steady_free; [|exact Hb|done]. pose proof (st_nodup _ _ Hs i sh Hsh) as Hnd. rewrite El, fmap_app in Hnd.
  apply NoDup_app in Hnd as (Hnd & Hdis & _). apply steady_shards; [done|..]; cbn; intros sh'; rewrite Hsh.
  - intros k [= <-]. rewrite lru_iter_pop_lru. intros Hk'. assert (k ≠ key) as Hne by (intros ->; apply (Hdis key Hk'); left).
    destruct (st_lru _ _ Hs i sh k Hsh) as (x & y & Hx & Hy & Hy'); [rewrite El, fmap_app; apply elem_of_app; by left|].
    exists x, y. by rewrite lookup_delete_ne.
  - intros [= <-]. by rewrite lru_iter_pop_lru.
Qed.

Lemma steady_evict_loop fuel t i c c' : steady max_size c → evict_loop fuel t i c = Some c' → steady max_size c'.
Proof.
  revert c; induction fuel as [|fuel IH]; intros c Hs; cbn; [done|]. destruct (bc_shards c !! i) as [sh|] eqn:Hsh; [|done].
  rewrite lru_peek_last. destruct (last (lru_iter (sh_lru sh))) as [[key []]|] eqn:El; [|by intros [= <-]].
  apply last_split in El. assert (key ∈ (lru_iter (V := unit) (sh_lru sh)).*1) as Hin by (rewrite El, fmap_app; apply elem_of_app; right; left).
  destruct (st_lru _ _ Hs i sh key Hsh Hin) as (h & b & Hk & Hb & Hn). rewrite Hk, Hb. case_match; [by intros [= <-]|]. apply IH.
  by eapply steady_evicted.
Qed.

Lemma steady_evict_shard now i c c' : steady max_size c → evict_shard now i c = Some c' → steady max_size c'.
Proof. unfold evict_shard. intros Hs. destruct (bc_shards c !! i); [|done]. by apply steady_evict_loop. Qed.

Lemma steady_evict_all now c c' : steady max_size c → evict_all now c = Some c' → steady max_size c'.
Proof.
  unfold evict_all. generalize (seq 0 (length (bc_shards c))) as l. intros l. revert c; induction l as [|i l IH]; intros c Hs; cbn; [by intros [= <-]|].
  destruct (evict_shard now i c) as [c1|] eqn:E; [by apply IH; eapply steady_evict_shard|]. clear. induction l; cbn; done.
Qed.

Lemma steady_try_evict now sid c c' : steady max_size c → try_evict_expired now sid c = Some c' → steady max_size c'.
Proof.
  unfold try_evict_expired. intros Hs. destruct (bc_shards c !! _) as [sh|] eqn:Hsh; [|done]. case_match; [|by intros [= <-]].
  apply steady_evict_shard, steady_shards; [done|..]; cbn.
  - intros sh' k Hsh'. by eapply (st_lru _ _ Hs).
  - intros sh'. by eapply (st_nodup _ _ Hs).
Qed.

Lemma steady_promote c i key :
  steady max_size c → steady max_size (with_shard i (λ sh, mkShard (sh_blocks sh) (lru_promote key (sh_lru sh)) (sh_last_evict_check_ms sh)) c).
Proof.
  intros Hs. apply steady_shards; [done|..]; cbn; intros sh'.
  - intros k Hsh'. rewrite lru_iter_promote. destruct (find_key _ _) as [e|] eqn:Ef; [|by eapply (st_lru _ _ Hs)].
    apply find_key_Some in Ef as [He Ee]. cbn. rewrite elem_of_cons. intros [->|[Hk _]%without_keys]; apply (st_lru _ _ Hs _ sh' _ Hsh'); [|done].
    by apply list_elem_of_fmap_2.
  - intros Hsh'. rewrite lru_iter_promote. pose proof (st_nodup _ _ Hs _ _ Hsh') as Hn. destruct (find_key _ _) as [e|] eqn:Ef; [|done].
    apply find_key_Some in Ef as [He Ee]. cbn. apply NoDup_cons. split; [by intros [_ ?]%without_keys|by apply without_nodup].
Qed.

Lemma steady_new_block now ra reader index c sh :
  is_u32 (bi_size index) → steady max_size c → bc_shards c !! shard_of (bi_stream_id index) c = Some sh →
  sh_blocks sh !! (om_object_id reader, index) = None →
  steady max_size (with_heap (λ l, l ++ [block_new now (om_object_id reader) index reader ra])
    (with_shard (shard_of (bi_stream_id index) c)
       (λ sh, mkShard (<[(om_object_id reader, index) := length (bc_heap c)]> (sh_blocks sh)) (sh_lru sh) (sh_last_evict_check_ms sh)) c)).
Proof.
  intros Hi [H1 H2 H3 H4 H5 H6 H7 H8 H9] Esh Ek.
  assert (∀ x y, bc_heap c !! x = Some y → (bc_heap c ++ [block_new now (om_object_id reader) index reader ra]) !! x = Some y) as Hold
    by (intros x y Hy; by apply lookup_app_l_Some).
  assert (total_debt (bc_heap c ++ [block_new now (om_object_id reader) index reader ra]) = total_debt (bc_heap c)) as Et
    by (rewrite total_debt_app; change (total_debt [_]) with 0; lia).
  constructor; cbn [bc_heap with_heap with_shard bc_shards bc_limiter]; rewrite ?Et; try done.
  - intros j sh' key Hj Hk.
    assert (∃ sh0, bc_shards c !! j = Some sh0 ∧ sh_lru sh0 = sh_lru sh' ∧ ∀ k x, sh_blocks sh0 !! k = Some x → k ∈ (lru_iter (V := unit) (sh_lru sh')).*1 → sh_blocks sh' !! k = Some x) as (sh0 & Hj0 & El & Hb0).
    { destruct (decide (j = shard_of (bi_stream_id index) c)) as [->|].
      - rewrite list_lookup_alter_eq, Esh in Hj. injection Hj as <-. exists sh. split_and!; [done..|]. intros k x Hx _. cbn. rewrite lookup_insert_ne; [done|]. intros <-. by pose proof (eq_trans (eq_sym Hx) Ek).
      - rewrite list_lookup_alter_ne in Hj by done. by exists sh'. }
    rewrite <- El in Hk. destruct (H1 j sh0 key Hj0 Hk) as (x & y & Hx & Hy & Hn). exists x, y. split_and!; [apply Hb0; [done|by rewrite <- El]|by apply Hold|done].
  - intros j sh' Hj. destruct (decide (j = shard_of (bi_stream_id index) c)) as [->|].
    + rewrite list_lookup_alter_eq, Esh in Hj. injection Hj as <-. exact (H2 _ sh Esh).
    + rewrite list_lookup_alter_ne in Hj by done. by apply (H2 j).
  - intros x y [[_ Hy]|[_ <-]]%lookup_snoc_Some; [by apply (H3 x)|done].
  - intros x y [[_ Hy]|[_ <-]]%lookup_snoc_Some; [by apply (H4 x)|done].
  - intros x y [[_ Hy]|[_ <-]]%lookup_snoc_Some; [by apply (H5 x)|done].
  - intros x Hx. destruct (H8 x Hx) as [y Hy]. by rewrite (Hold x y Hy).
  - intros Hw. destruct (H9 Hw) as (x & y & Hy & Hm). exists x, y. split; [by apply Hold|done].
Qed.

Lemma steady_get now ra reader index c c' h :
  is_u32 (bi_size index) → steady max_size c → get_block_handle now ra reader index c = Some (c', h) → steady max_size c'.
Proof.
  intros Hi Hs. unfold get_block_handle. destruct (bc_shards c !! _) as [sh|] eqn:Esh; [|done]. destruct (sh_blocks sh !! _) as [h0|] eqn:Ek;
    (match goal with |- context [try_evict_expired ?n ?i ?x] => destruct (try_evict_expired n i x) as [c1|] eqn:E end; [|done]);
    intros [= <- <-]; (eapply steady_try_evict; [|exact E]); [by apply steady_promote|by eapply steady_new_block].
Qed.

Lemma steady_goto c h b p :
  steady max_size c → bc_heap c !! h = Some b → cb_phase b ≠ LoadAcquire → acquired p = acquired (cb_phase b) → steady max_size (goto h p c).
Proof.
  intros Hs Hb Hp Ea. unfold goto. rewrite (with_heap_const _ c h b Hb). apply (steady_block max_size c h b); try done.
  intros Hl. cbn. rewrite Ea. by apply (st_acquired _ _ Hs h).
Qed.

Lemma steady_cold c r : steady max_size c → steady max_size (with_cold r c).
Proof. intros [? ? ? ? ? ? ? ? ?]. by constructor. Qed.

(** A task moves on and settles with the limiter. *)
Lemma steady_phase c c' h b p :
  steady max_size c → bc_heap c !! h = Some b → bc_shards c' = bc_shards c → bc_heap c' = alter (set_phase p) h (bc_heap c) →
  (cb_load b ≠ None → acquired p = true) → sl_permits (bc_limiter c') = max_size - total_debt (bc_heap c') →
  total_debt (bc_heap c') ≤ max_size + 2 ^ 32 → (∀ x, x ∈ pending c' → x = h ∨ x ∈ pending c) →
  (sl_waiters (bc_limiter c') ≠ [] → ∃ x y, bc_heap c' !! x = Some y ∧ mover c' x y) → steady max_size c'.
Proof.
  intros Hs Hb Esh Eh Ha Hp Hr Hpend Hw.
  assert (∀ x y, bc_heap c' !! x = Some y → (x = h ∧ y = set_phase p b) ∨ (x ≠ h ∧ bc_heap c !! x = Some y)) as Hlook.
  { intros x y. rewrite Eh. destruct (decide (x = h)) as [->|]; [|rewrite list_lookup_alter_ne by done; by right].
    rewrite list_lookup_alter_eq, Hb. intros [= <-]. by left. }
  assert (heap_grows (bc_heap c) (bc_heap c')) as Hg by (rewrite Eh; apply (goto_grows c h p)).
  destruct Hs as [H1 H2 H3 H4 H5 H6 H7 H8 H9]. constructor; try done.
  - rewrite Esh. intros i sh key Hi Hk. destruct (H1 i sh key Hi Hk) as (x & y & Hx & Hy & Hn). destruct (Hg x y Hy) as (y' & Hy' & [_ _ G]).
    exists x, y'. split_and!; [done..|]. destruct (cb_load y) as [r|]; [|done]. by rewrite (proj1 (G r eq_refl)).
  - rewrite Esh. exact H2.
  - intros x y [[-> ->]|[_ Hy]]%Hlook; [exact (H3 h b Hb)|by apply (H3 x)].
  - intros x y [[-> ->]|[_ Hy]]%Hlook; [exact Ha|by apply (H4 x)].
  - intros x y [[-> ->]|[_ Hy]]%Hlook; [exact (H5 h b Hb)|by apply (H5 x)].
  - intros x Hx. assert (is_Some (bc_heap c !! x)) as [y Hy] by (destruct (Hpend x Hx) as [->|Hx']; [by exists b|by apply H8]).
    destruct (Hg x y Hy) as (y' & -> & _). done.
Qed.

(** The permits are there: the block becomes a holder. *)
Lemma steady_acquire c h b t :
  steady max_size c → bc_heap c !! h = Some b → cb_phase b = LoadAcquire → cb_load b = None → 0 ≤ sl_permits (bc_limiter c) →
  steady max_size (goto h (LoadRead t) (with_limiter (mkLimiter (i64 (sl_permits (bc_limiter c) - bi_size (cb_index b))) (sl_waiters (bc_limiter c))) c)).
Proof.
  intros Hs Hb Hp Hl Hperm. pose proof (st_size _ _ Hs h b Hb) as Hsz. pose proof (fair_debt_nonneg _ (steady_fair _ _ Hs)) as H0.
  assert (cb_freed b = false) as Ef by (destruct (cb_freed b) eqn:E; [by destruct (st_freed _ _ Hs h b Hb E)|done]).
  assert (total_debt (alter (set_phase (LoadRead t)) h (bc_heap c)) = total_debt (bc_heap c) + bi_size (cb_index b)) as Et.
  { rewrite (total_debt_alter _ _ _ b Hb). unfold debt. cbn. rewrite Hp, Ef. cbn. lia. }
  pose proof (st_permits _ _ Hs) as Hpm. pose proof (st_room _ _ Hs) as Hr.
  eapply (steady_phase c _ h b (LoadRead t) Hs Hb); cbn [bc_heap goto with_heap with_limiter bc_limiter sl_permits]; rewrite ?Et; try done.
  - rewrite i64_small by int_lia. lia.
  - unfold in_u in Hsz. lia.
  - intros x Hx. by right.
  - intros _. exists h, (set_phase (LoadRead t) b). rewrite list_lookup_alter_eq, Hb. split; [done|]. left. unfold holder. cbn. by rewrite Ef.
Qed.

(** They are not: some block holds them. *)
Lemma steady_queue c h b :
  steady max_size c → bc_heap c !! h = Some b → cb_phase b = LoadAcquire → sl_permits (bc_limiter c) < 0 →
  steady max_size (goto h LoadQueued (with_limiter (mkLimiter (sl_permits (bc_limiter c)) (sl_waiters (bc_limiter c) ++ [h])) c)).
Proof.
  intros Hs Hb Hp Hperm. pose proof (st_permits _ _ Hs) as Hpm.
  assert (∃ x y, bc_heap c !! x = Some y ∧ holder y = true) as (x & y & Hy & Hh).
  { destruct (holder_or_none _ (steady_fair _ _ Hs)) as [?|H0]; [done|]. lia. }
  assert (x ≠ h) as Hne by (intros ->; rewrite Hb in Hy; injection Hy as <-; unfold holder in Hh; by rewrite Hp in Hh).
  assert (total_debt (alter (set_phase LoadQueued) h (bc_heap c)) = total_debt (bc_heap c)) as Et.
  { rewrite (total_debt_alter _ _ _ b Hb). unfold debt. cbn. rewrite Hp. cbn. lia. }
  eapply (steady_phase c _ h b LoadQueued Hs Hb); cbn [bc_heap goto with_heap with_limiter bc_limiter sl_permits]; rewrite ?Et; try done.
  - intros Hl. pose proof (st_acquired _ _ Hs h b Hb Hl) as Ha. by rewrite Hp in Ha.
  - apply (st_room _ _ Hs).
  - intros z Hz. unfold pending in *. cbn in Hz. rewrite !elem_of_app, list_elem_of_singleton in *. naive_solver.
  - intros _. exists x, y. rewrite list_lookup_alter_ne by done. split; [done|by left].
Qed.

(** A woken task tries again. *)
Lemma steady_woken c h b :
  steady max_size c → bc_heap c !! h = Some b → cb_phase b = LoadWait →
  steady max_size (goto h LoadAcquire (with_woken (filter (λ w, w ≠ h)) c)).
Proof.
  intros Hs Hb Hp. assert (total_debt (alter (set_phase LoadAcquire) h (bc_heap c)) = total_debt (bc_heap c)) as Et.
  { rewrite (total_debt_alter _ _ _ b Hb). unfold debt. cbn. rewrite Hp. cbn. lia. }
  eapply (steady_phase c _ h b LoadAcquire Hs Hb); cbn [bc_heap goto with_heap with_woken bc_limiter]; rewrite ?Et; try done.
  - intros Hl. pose proof (st_acquired _ _ Hs h b Hb Hl) as Ha. by rewrite Hp in Ha.
  - apply (st_permits _ _ Hs).
  - apply (st_room _ _ Hs).
  - intros x Hx. unfold pending in *. cbn in Hx. rewrite elem_of_app in *. rewrite list_elem_of_filter in Hx. naive_solver.
  - intros _. exists h, (set_phase LoadAcquire b). rewrite list_lookup_alter_eq, Hb. split; [done|]. by right; left.
Qed.

Lemma steady_fail_shared c h b e p :
  steady max_size c → bc_heap c !! h = Some b → acquired (cb_phase b) = true → acquired p = true → steady max_size (goto h p (fail_shared h e c)).
Proof.
  intros Hs Hb Ha Hp. unfold fail_shared. rewrite (with_heap_const _ c h b Hb). set (b1 := set_load (Err e) None b).
  assert (steady max_size (with_heap (alter (λ _, b1) h) c)) as Hs1.
  { apply (steady_block max_size c h b); try done. }
  assert (bc_heap (with_heap (alter (λ _, b1) h) c) !! h = Some b1) as Hb1 by (cbn; by rewrite list_lookup_alter_eq, Hb).
  destruct (free_spec _ h b1 Hb1 (steady_i64 _ Hs1)) as (Eh & _).
  eapply (steady_goto _ h (freed_block b1)); [by eapply steady_free|rewrite Eh; by rewrite list_lookup_alter_eq, Hb1|..].
  - unfold freed_block. destruct (cb_freed b1); cbn; intros E; by rewrite E in Ha.
  - unfold freed_block. destruct (cb_freed b1); cbn; by rewrite Ha, Hp.
Qed.

Lemma steady_bookkeeping c h f :
  steady max_size c → (∀ b, cb_key (f b) = cb_key b ∧ cb_phase (f b) = cb_phase b ∧ cb_freed (f b) = cb_freed b ∧ cb_load (f b) = cb_load b) →
  steady max_size (with_heap (alter f h) c).
Proof.
  intros Hs Hf. destruct (bc_heap c !! h) as [b|] eqn:Hb.
  - rewrite (with_heap_const f c h b Hb). destruct (Hf b) as (Ek & Ep & Efr & El).
    apply (steady_block max_size c h b); rewrite ?Ep, ?El; try done. by apply (st_acquired _ _ Hs h).
  - replace (with_heap (alter f h) c) with c; [done|]. destruct c. unfold with_heap. cbn in *. f_equal.
    apply list_eq. intros j. destruct (decide (j = h)) as [->|]; [by rewrite list_lookup_alter_eq, Hb|by rewrite list_lookup_alter_ne].
Qed.

Lemma cache_step_steady e c c' :
  cache_ok source max_size c → steady max_size c → timely e c → cache_step e c = Some c' → steady max_size c'.
Proof.
  intros Hc Hs Ht. destruct e as [now ra reader index|now h|h r|now h|h|h listener|handle]; cbn.
  - destruct (get_block_handle _ _ _ _ _) as [[c1 h]|] eqn:E; [|done]. intros [= <-]. by eapply steady_get.
  - unfold load_step. destruct (bc_heap c !! h) as [b|] eqn:Hb; [|done]. pose proof (co_blocks _ _ _ Hc h b Hb) as Hok. specialize (Ht b Hb).
    destruct (cb_phase b) eqn:Ep; try done.
    + unfold limiter_try_acquire. destruct (0 <=? _) eqn:E.
      * assert (cb_load b = None) as Hl by (apply (bo_loading _ _ Hok); by rewrite Ep).
        destruct (cb_readahead b); intros [= <-]; [by apply steady_acquire; [..|lia]|].
        exact (steady_cold _ (cold_track now (bc_cold_reads c)).1 (steady_acquire c h b (Some (cr_next_id (bc_cold_reads c))) Hs Hb Ep Hl ltac:(lia))).
      * intros [= <-]. apply (steady_queue c h b); [done..|lia].
    + apply steady_evict_all. eapply steady_goto; [done..|by rewrite Ep|by rewrite Ep].
    + case_bool_decide; [|done]. intros [= <-]. by eapply steady_woken.
    + intros [= <-]. eapply steady_goto; [|exact Hb|by rewrite Ep..]. specialize (Ht eq_refl). apply steady_shards; [done|..]; cbn; intros sh.
      * intros k Hsh. rewrite Hsh in Ht. cbn in Ht. rewrite lru_iter_push. cbn. rewrite elem_of_cons. intros [->|[Hk _]%without_keys]; [|by eapply st_lru].
        exists h, b. split_and!; [done..|]. intros Hn. pose proof (proj2 (bo_loading _ _ Hok) Hn) as Hx. by rewrite Ep in Hx.
      * intros Hsh. rewrite lru_iter_push. cbn. apply NoDup_cons. split; [by intros [_ ?]%without_keys|]. by eapply without_nodup, st_nodup.
    + intros [= <-]. eapply steady_goto; [by apply steady_remove_if_same|by rewrite heap_remove_if_same|by rewrite Ep..].
    + intros [= <-]. eapply steady_fail_shared; [done..|by rewrite Ep|done].
    + case_match; [apply steady_evict_all|intros [= <-]]; (eapply steady_goto; [done..|by rewrite Ep|by rewrite Ep]).
  - unfold load_fetched. destruct (bc_heap c !! h) as [b|] eqn:Hb; [|done]. destruct (cb_phase b) as [| | |tracked| | | | |] eqn:Ep; try done.
    set (c0 := match tracked with Some id => with_cold (cold_drop id (bc_cold_reads c)) c | None => c end).
    assert (steady max_size c0) as Hs0 by (destruct tracked; [by apply steady_cold|done]).
    assert (bc_heap c0 !! h = Some b) as Hb0 by (by destruct tracked). clearbody c0. intros [= <-]. destruct r as [data|e].
    + unfold complete. destruct (decode_data_block data) as [records|e].
      * rewrite (goto_with _ _ c0 h b Hb0). apply (steady_block max_size c0 h b); try done; [by rewrite Ep|by rewrite Ep].
      * eapply steady_fail_shared; [done..|by rewrite Ep|done].
    + eapply steady_goto; [by apply steady_remove_if_same|by rewrite heap_remove_if_same|by rewrite Ep..].
  - intros [= <-]. by apply steady_bookkeeping.
  - unfold mark_read. destruct (bc_heap c !! h) as [b|] eqn:Hb; [|done]. cbn. specialize (Ht b Hb).
    set (b1 := set_unread None (i32 (cb_unread_cnt b - 1)) b). set (c1 := with_heap (alter (λ _, b1) h) c).
    assert (steady max_size c1) as Hs1 by (apply (steady_block max_size c h b); try done; apply (st_acquired _ _ Hs h b Hb)).
    case_match; [by intros [= <-]|]. pose proof (steady_remove_if_same c1 h (cb_key b) Hs1) as Hs2.
    pose proof (heap_remove_if_same h (cb_key b) c1) as E2. destruct (remove_if_same _ _ _) as [c2 rm]. cbn [fst] in *.
    intros [= <-]. destruct rm; [|done]. eapply (steady_free c2 h b1); [done|rewrite E2; cbn; by rewrite list_lookup_alter_eq, Hb|done].
  - intros [= <-]. unfold register_free_listener. destruct (bc_heap c !! h) as [b|] eqn:Hb; [|done]. destruct (cb_freed b).
    + destruct Hs. by constructor.
    + by apply steady_bookkeeping.
  - intros [= <-]. by apply steady_bookkeeping.
Qed.

Lemma cache_new_steady concurrency ttl_ms interval now : steady max_size (with_config (C := C) (L := L) max_size concurrency ttl_ms interval now).
Proof.
  constructor; cbn; try done.
  - intros i sh key Hi. apply list_elem_of_lookup_2, elem_of_replicate in Hi as [-> _]. cbn. rewrite lru_iter_unbounded. by intros ?%not_elem_of_nil.
  - intros i sh Hi. apply list_elem_of_lookup_2, elem_of_replicate in Hi as [-> _]. cbn. rewrite lru_iter_unbounded. apply NoDup_nil_2.
  - rewrite Z.sub_0_r. apply i64_small. int_lia.
  - unfold total_debt. cbn. lia.
  - intros h. by intros ?%not_elem_of_nil.
Qed.
End Runs.

(** A load task that neither waits for its turn nor for its read can run. *)
Lemma load_step_enabled {C L} `{!LruCache C BlockKey unit} `{!LruCacheLaws C BlockKey unit} source max_size (c : BlocksCache C L) now h b :
  cache_ok source max_size c → bc_heap c !! h = Some b → (∀ t, cb_phase b ≠ LoadRead t) → cb_phase b ≠ LoadDone →
  (cb_phase b = LoadWait → h ∈ bc_woken c) → ∃ c', load_step now h c = Some c'.
Proof.
  intros Hc Hb Hr Hd Hw. unfold load_step. rewrite Hb. destruct (cb_phase b) eqn:Ep; try done; eauto.
  - destruct (limiter_try_acquire _ _ _) as [l []]; [destruct (cb_readahead b)|]; eauto.
  - match goal with |- context [evict_all now ?x] => destruct (evict_all_total source max_size now x) as (c' & -> & _); [|by eauto] end. by eapply ok_goto; [done|done|rewrite ?Ep..].
  - rewrite bool_decide_true by auto. eauto.
  - by destruct (Hr tracked).
  - case_match; [|eauto]. match goal with |- context [evict_all now ?x] => destruct (evict_all_total source max_size now x) as (c' & -> & _); [|by eauto] end. by eapply ok_goto; [done|done|rewrite ?Ep..].
Qed.

(** ** The theorems *)

(** C11: the block cache keeps its books under every interleaving of readers and load
    tasks: the permits are the cache size less what the loaded blocks owe (a block owes its
    size from when it took its permits until it is freed, and is owed it when it is freed
    first), a loaded block holds the decoded bytes of its own object's block, a failed
    block has been freed and a read of its object's block failed or did not decode, asking
    for a block always gives a handle of a block with that key, and every task that does not
    wait can take its next step. *)
Theorem block_cache_balanced {C L} `{!LruCache C BlockKey unit} `{!LruCacheLaws C BlockKey unit}
    source max_size concurrency ttl_ms interval now0 (c : BlocksCache C L) :
  cache_reach (honest source) (with_config max_size concurrency ttl_ms interval now0) c →
  sl_permits (bc_limiter c) = i64 (max_size - total_debt (bc_heap c))
  ∧ (∀ h b, bc_heap c !! h = Some b → is_loaded b = true →
       ∃ data records, source (cb_reader b) (cb_index b) (Ok data) ∧ decode_data_block data = Ok records ∧ cb_records b = Some records)
  ∧ (∀ h b e, bc_heap c !! h = Some b → cb_load b = Some (Err e) →
       cb_freed b = true ∧ ∃ r, source (cb_reader b) (cb_index b) r ∧ unusable r)
  ∧ (∀ now readahead reader index, 0 ≤ bi_stream_id index →
       ∃ c' h b, get_block_handle now readahead reader index c = Some (c', h) ∧ bc_heap c' !! h = Some b ∧ cb_key b = (om_object_id reader, index))
  ∧ (∀ now h b, bc_heap c !! h = Some b → (∀ t, cb_phase b ≠ LoadRead t) → cb_phase b ≠ LoadDone →
       (cb_phase b = LoadWait → h ∈ bc_woken c) → ∃ c', load_step now h c = Some c').
Proof.
  intros Hr. pose proof (cache_reach_ok source _ max_size _ _ (λ _ _ H, H) (cache_new_ok source max_size concurrency ttl_ms interval now0) Hr) as Hc.
  split_and!.
  - apply (co_permits _ _ _ Hc).
  - intros h b Hb. apply (bo_loaded _ _ (co_blocks _ _ _ Hc h b Hb)).
  - intros h b e Hb. apply (bo_failed _ _ (co_blocks _ _ _ Hc h b Hb) e).
  - intros now ra reader index Hi.
    destruct (get_block_handle_total source max_size now ra reader index c Hc) as (c' & h & E & _); [|done|].
    2: { destruct (get_block_handle_key source max_size _ _ _ _ _ _ _ Hc E) as (b & Hb & Ek). by exists c', h, b. }
    enough (length (bc_shards c) = Z.to_nat (Z.max concurrency 1)) by lia. clear -Hr.
    induction Hr as [|c e c' _ IH _ E]; [cbn; apply length_replicate|]. by rewrite (shards_step e c c' E).
  - intros now h b. by eapply load_step_enabled.
Qed.

(** ** Examples *)

(** Checks a run for [timely]. *)
Fixpoint timely_run {C L} `{!LruCache C BlockKey unit} (es : list (CacheEvent L)) (c : BlocksCache C L) : bool :=
  match es with
  | [] => true
  | e :: es =>
      match e with
      | CacheLoad _ h =>
          match bc_heap c !! h with
          | Some b => match cb_phase b with
                      | LoadPush => bool_decide (bc_shards c !! shard_of (bi_stream_id (cb_index b)) c ≫= (λ sh, sh_blocks sh !! cb_key b) = Some h)
                      | _ => true
                      end
          | None => true
          end
      | CacheMarkRead h => match bc_heap c !! h with Some b => match cb_load b with Some _ => true | None => false end | None => true end
      | CacheGet _ _ _ index => bool_decide (is_u32 (bi_size index))
      | _ => true
      end && match cache_step e c with Some c => timely_run es c | None => false end
  end.

Lemma run_reach {C L} `{!LruCache C BlockKey unit} source es (c0 c c' : BlocksCache C L) allowed :
  (∀ e c, honest source e c ∧ timely e c → allowed e c) → cache_reach allowed c0 c → (∀ h r, CacheFetched h r ∈ es → ∀ m i, source m i r) →
  timely_run es c = true → cache_run es c = Some c' → cache_reach allowed c0 c'.
Proof.
  intros Ha. revert c; induction es as [|e es IH]; intros c Hr Hs Ht; cbn in *; [by intros [= <-]|].
  apply andb_true_iff in Ht as [Ht Hrun]. destruct (cache_step e c) as [c1|] eqn:E; [|done].
  apply (IH c1); [|intros h r Hin; eapply Hs; by right|done]. eapply reach_step; [exact Hr| |exact E]. apply Ha. split.
  - destruct e; try done. intros b Hb. eapply Hs; left.
  - destruct e; try done; cbn in *.
    + by apply bool_decide_eq_true_1 in Ht.
    + intros b Hb Hp. rewrite Hb, Hp in Ht. by apply bool_decide_eq_true_1 in Ht.
    + intros b Hb. rewrite Hb in Ht. by destruct (cb_load b).
Qed.

Definition sample_object (id : Z) : S3ObjectMetadata :=
  {| om_object_id := id; om_object_type := Stream; om_offset_ranges := []; om_object_size := 1000;
     om_attributes := attributes_new 0 false false; om_committed_timestamp_ms := 0; om_data_timestamp_ms := 0 |}.
Definition sample_index (size : Z) : DataBlockIndex :=
  {| bi_block_id := 0; bi_stream_id := 1; bi_start_offset := 0; bi_end_offset_delta := 1; bi_record_count := 1; bi_start_position := 0; bi_size := size |}.
Definition sample_data : bytes := default [] (encode_data_block [new 1 0 0 1 [7]]).
Definition sample_source (m : S3ObjectMetadata) (i : DataBlockIndex) (r : result ObjectError bytes) : Prop := r = Ok sample_data.
Definition sample_cache : BlocksCache (list (BlockKey * unit)) unit := with_config 10 1 DATA_TTL_MS CHECK_EXPIRED_DATA_INTERVAL_MS 0.

(** A block too large for the cache is loaded; a second one waits behind it. *)
Definition sample_run : list (CacheEvent unit) :=
  [CacheGet 0 false (sample_object 1) (sample_index 100); CacheLoad 0 0; CacheGet 0 false (sample_object 2) (sample_index 5);
   CacheLoad 0 1; CacheLoad 0 1; CacheFetched 0 (Ok sample_data); CacheLoad 0 0].

Lemma block_cache_balanced_witness : match cache_run sample_run sample_cache with Some c => sl_permits (bc_limiter c) = i64 (10 - 100) | None => False end.
Proof.
  destruct (cache_run sample_run sample_cache) as [c|] eqn:E; [|vm_compute in E; discriminate].
  assert (cache_reach (honest sample_source) sample_cache c) as Hr.
  { eapply (run_reach sample_source sample_run); [by intros ? ? []|apply reach_start| |vm_compute; reflexivity|exact E].
    intros h r Hin m i. unfold sample_run in Hin. rewrite !elem_of_cons, elem_of_nil in Hin. unfold sample_source. naive_solver. }
  destruct (block_cache_balanced sample_source 10 1 DATA_TTL_MS CHECK_EXPIRED_DATA_INTERVAL_MS 0 c Hr) as (Hp & _). rewrite Hp.
  vm_compute in E. injection E as <-. vm_compute. reflexivity.
Defined.

(** Block 0 completes, is read and dropped, and only then enters the LRU list.  Block 2 has
    the same key and waits for the permits of block 1, block 3 waits too. *)
Definition late_run : list (CacheEvent unit) :=
  [CacheGet 0 false (sample_object 1) (sample_index 5); CacheLoad 0 0; CacheFetched 0 (Ok sample_data);
   CacheMarkUnread 0 0; CacheMarkRead 0; CacheLoad 0 0; CacheLoad 0 0;
   CacheGet 0 false (sample_object 2) (sample_index 100); CacheLoad 0 1;
   CacheGet 0 false (sample_object 1) (sample_index 5); CacheLoad 0 2; CacheLoad 0 2;
   CacheGet 0 false (sample_object 3) (sample_index 5); CacheLoad 0 3; CacheLoad 0 3;
   CacheFetched 1 (Ok sample_data); CacheLoad 0 1; CacheLoad 0 1;
   CacheLoad 0 2; CacheLoad 0 2; CacheFetched 2 (Ok sample_data); CacheLoad 0 2; CacheLoad 0 2].

(** A block that enters the LRU list after its last reader dropped it makes an eviction
    free the next block of that key while it still waits for its permits: in this run of
    four loads every other load is done, all permits are back, nobody is woken, and the
    last load waits for ever. *)
Example late_push_starves :
  match cache_run late_run sample_cache with
  | Some c => cb_phase <$> bc_heap c = [LoadDone; LoadDone; LoadDone; LoadWait] ∧ cb_freed <$> bc_heap c = [true; true; true; false]
      ∧ sl_waiters (bc_limiter c) = [3%nat] ∧ bc_woken c = [] ∧ available c = 10
  | None => False
  end.
Proof. vm_compute. split_and!; reflexivity. Qed.
