(* ===== verification/DataBlockProgress.v ===== *)
(** * The data block cache makes progress

    No load waits for permits that nobody will return, as long as a loaded block is entered
    in the LRU list before its last reader drops it.  [settled] says that a block whose load
    task has ended still can be evicted, [lively] that whenever a load waits some task can go
    on; [remaining] bounds the steps the load tasks still take. *)
From S2P Require Import Prelude Collections Codec ObjectStore ObjectFormat ObjectIO Metadata DataBlockCache DataBlockSafety.

Section Progress.
Context {C L : Type} `{!LruCache C BlockKey unit} `{!LruCacheLaws C BlockKey unit}.
Abbreviation cache := (BlocksCache C L).
Implicit Types c : cache.

(** ** Blocks whose task has ended can be evicted *)

Abbreviation lru_keys sh := ((lru_iter (V := unit) (sh_lru sh)).*1).

Definition listed c (h : nat) (b : CacheBlock L) : Prop :=
  ∃ sh, bc_shards c !! shard_of (bi_stream_id (cb_index b)) c = Some sh ∧ sh_blocks sh !! cb_key b = Some h ∧ cb_key b ∈ lru_keys sh.

Definition resting (p : LoadPhase) : bool := match p with LoadCheck | LoadDone => true | _ => false end.

Definition placed c (h : nat) (b : CacheBlock L) : Prop :=
  (cb_phase b = LoadUndecoded → cb_freed b = true) ∧ (resting (cb_phase b) = true → cb_freed b = false → listed c h b).

(** Every block but [ex]. *)
Definition settled (ex : option nat) c : Prop := ∀ h b, Some h ≠ ex → bc_heap c !! h = Some b → placed c h b.

Lemma settled_but h c : settled None c → settled (Some h) c.
Proof. intros Hs x b _. by apply Hs. Qed.

Lemma settled_shards ex c i f :
  settled ex c →
  (∀ sh key h b, bc_shards c !! i = Some sh → Some h ≠ ex → bc_heap c !! h = Some b → cb_key b = key → sh_blocks sh !! key = Some h →
     key ∈ lru_keys sh → sh_blocks (f sh) !! key = Some h ∧ key ∈ lru_keys (f sh)) →
  settled ex (with_shard i f c).
Proof.
  intros Hs Hf h b Hne Hb. destruct (Hs h b Hne Hb) as [Hu Hl]. split; [exact Hu|]. intros Hr Hfr.
  destruct (Hl Hr Hfr) as (sh & Hsh & Hk & Hin). unfold listed, shard_of. cbn. rewrite length_alter.
  fold (shard_of (bi_stream_id (cb_index b)) c). destruct (decide (i = shard_of (bi_stream_id (cb_index b)) c)) as [->|].
  - exists (f sh). rewrite list_lookup_alter_eq, Hsh. split; [done|]. by eapply Hf.
  - exists sh. by rewrite list_lookup_alter_ne.
Qed.

Lemma settled_heap c c' h b b' :
  settled (Some h) c → bc_heap c !! h = Some b → bc_heap c' = alter (λ _, b') h (bc_heap c) → bc_shards c' = bc_shards c →
  placed c h b' → settled None c'.
Proof.
  intros Hs Hb Eh Es Hp x y _ Hy. assert (∀ x y, placed c x y → placed c' x y) as Hk.
  { intros x0 y0 [H1 H2]. split; [done|]. intros Hr Hf. unfold listed, shard_of. rewrite Es. by apply H2. }
  apply Hk. rewrite Eh in Hy. destruct (decide (x = h)) as [->|Hne].
  - rewrite list_lookup_alter_eq, Hb in Hy. by injection Hy as <-.
  - rewrite list_lookup_alter_ne in Hy by done. by apply Hs; [injection 1|].
Qed.

Lemma settled_alter c h f b :
  settled (Some h) c → bc_heap c !! h = Some b → placed c h (f b) → settled None (with_heap (alter f h) c).
Proof. intros Hs Hb Hp. by apply (settled_heap c _ h b (f b)); [..|apply alter_const|done|done]. Qed.

(** A change that keeps the key, the phase and the mark. *)
Lemma settled_same c h f :
  settled None c → (∀ b, cb_key (f b) = cb_key b ∧ cb_phase (f b) = cb_phase b ∧ cb_freed (f b) = cb_freed b) → settled None (with_heap (alter f h) c).
Proof.
  intros Hs Hf. destruct (bc_heap c !! h) as [b|] eqn:Hb.
  - apply (settled_alter c h f b (settled_but h c Hs) Hb). destruct (Hs h b) as [Hu Hl]; [done..|]. destruct (Hf b) as (Ek & Ep & Ef).
    pose proof Ek as [= _ Ei]. unfold placed, listed. by rewrite Ek, Ep, Ef, Ei.
  - intros x y _. cbn. destruct (decide (x = h)) as [->|]; [by rewrite list_lookup_alter_eq, Hb|].
    rewrite list_lookup_alter_ne by done. by apply (Hs x).
Qed.

Lemma free_heap c h b : bc_heap c !! h = Some b → bc_heap (free h c) = alter (λ _, freed_block b) h (bc_heap c).
Proof.
  intros Hb. unfold free, freed_block. rewrite Hb. destruct (cb_freed b).
  - apply list_eq. intros j. destruct (decide (j = h)) as [->|]; [by rewrite list_lookup_alter_eq, Hb|by rewrite list_lookup_alter_ne].
  - destruct (release_spec (bi_size (cb_index b)) (with_heap (alter set_freed h) c)) as (_ & _ & Eh & _). cbn. rewrite Eh. by apply alter_const.
Qed.

Lemma settled_free c h b : settled (Some h) c → bc_heap c !! h = Some b → settled None (free h c).
Proof.
  intros Hs Hb. apply (settled_heap c _ h b (freed_block b) Hs Hb); [by apply free_heap|apply shards_free|].
  unfold placed, freed_block. destruct (cb_freed b) eqn:E; cbn; rewrite ?E; split; done.
Qed.

Lemma settled_remove c h key : settled None c → settled (Some h) (remove_if_same h key c).1.
Proof.
  intros Hs. unfold remove_if_same. case_bool_decide as E; [|by apply settled_but]. apply settled_shards; [by apply settled_but|].
  cbn. intros sh k x b Hsh Hne _ _ Hk Hin. rewrite Hsh in E. cbn in E.
  assert (k ≠ key) as Hkk by (intros ->; congruence). rewrite lookup_delete_ne by done. split; [done|].
  rewrite lru_iter_pop. apply list_elem_of_fmap in Hin as (e & -> & He). apply list_elem_of_fmap_2, list_elem_of_filter. by split.
Qed.

(** ** What only wakes *)

(** Tasks keep their phase, waiters leave and are woken. *)
Record wakes_only c c' : Prop := {
  wk_waiters : sl_waiters (bc_limiter c') ≠ [] → sl_waiters (bc_limiter c) ≠ [];
  wk_heap h b : bc_heap c !! h = Some b → ∃ b', bc_heap c' !! h = Some b' ∧ cb_phase b' = cb_phase b;
  wk_woken : bc_woken c ⊆ bc_woken c';
}.

#[local] Instance wakes_only_refl : Reflexive wakes_only.
Proof. intros c. constructor; [done|by eauto|done]. Qed.
#[local] Instance wakes_only_trans : Transitive wakes_only.
Proof.
  intros x y z [A1 A2 A3] [B1 B2 B3]. constructor; [tauto| |by etransitivity].
  intros h b Hb. destruct (A2 h b Hb) as (b1 & Hb1 & E1). destruct (B2 h b1 Hb1) as (b2 & Hb2 & E2). exists b2. split; [done|congruence].
Qed.

Lemma wakes_same c h f : (∀ b, cb_phase (f b) = cb_phase b) → wakes_only c (with_heap (alter f h) c).
Proof.
  intros Hf. constructor; [done| |done]. intros x b Hb. cbn. destruct (decide (x = h)) as [->|].
  - rewrite list_lookup_alter_eq, Hb. by eexists.
  - rewrite list_lookup_alter_ne by done. by exists b.
Qed.

Lemma wakes_release n c : wakes_only c (release n c).
Proof.
  unfold release, limiter_release. destruct (sl_waiters (bc_limiter c)) as [|w ws] eqn:E; [|destruct (0 <? _)]; constructor; cbn; rewrite ?E; try done; eauto.
  intros x Hx. by right.
Qed.

Lemma wakes_free h c : wakes_only c (free h c).
Proof.
  unfold free. destruct (bc_heap c !! h) as [b|]; [|done]. destruct (cb_freed b); [done|].
  transitivity (with_heap (alter set_freed h) c); [by apply wakes_same|].
  destruct (wakes_release (bi_size (cb_index b)) (with_heap (alter set_freed h) c)) as [H1 H2 H3]. by constructor.
Qed.

Lemma wakes_remove h key c : wakes_only c (remove_if_same h key c).1.
Proof. unfold remove_if_same. case_bool_decide; [|done]. constructor; [done|by eauto|done]. Qed.

(** ** Evictions *)

(** A shard without waiters left behind is evicted to the last entry. *)
Record evicts (i : nat) c c' : Prop := {
  ev_wakes : wakes_only c c';
  ev_empty sh : sl_waiters (bc_limiter c') ≠ [] → bc_shards c' !! i = Some sh → lru_iter (V := unit) (sh_lru sh) = [];
  ev_other j : j ≠ i → bc_shards c' !! j = bc_shards c !! j;
}.

Lemma evict_loop_progress max_size (Hmax : 0 < max_size < 2 ^ 62) fuel t i c c' :
  steady max_size c → settled None c → evict_loop fuel t i c = Some c' → settled None c' ∧ evicts i c c'.
Proof.
  revert c; induction fuel as [|fuel IH]; intros c Hst Hs; cbn; [done|]. destruct (bc_shards c !! i) as [sh|] eqn:Hsh; [|done].
  rewrite lru_peek_last. destruct (last (lru_iter (sh_lru sh))) as [[key []]|] eqn:El.
  2: { intros [= <-]. split; [done|]. constructor; [done| |done]. intros sh' _. rewrite Hsh. intros [= <-]. by apply last_None in El. }
  apply last_split in El. assert (key ∈ lru_keys sh) as Hin by (rewrite El, fmap_app; apply elem_of_app; right; left).
  destruct (st_lru _ _ Hst i sh key Hsh Hin) as (h & b & Hk & Hb & Hn). rewrite Hk, Hb.
  destruct (negb _ && negb _) eqn:E.
  { intros [= <-]. split; [done|]. constructor; [done| |done]. intros sh' Hw. unfold required_release in E.
    apply andb_prop in E as [_ E%negb_true_iff]. apply orb_false_iff in E as [_ E%negb_false_iff]. by apply bool_decide_eq_true_1 in E. }
  match goal with |- context [with_shard i ?g c] => set (f := g) end.
  assert (steady max_size (free h (with_shard i f c))) as Hst1 by (by eapply (steady_evicted max_size Hmax)).
  assert (settled None (free h (with_shard i f c))) as Hs1.
  { apply (settled_free _ h b); [|exact Hb]. apply settled_shards; [by apply settled_but|]. rewrite Hsh. intros sh' k x y [= <-] Hne _ _ Hx Hkx.
    assert (k ≠ key) as Hkk by (intros ->; congruence). cbn. rewrite lookup_delete_ne by done. split; [done|].
    rewrite lru_iter_pop_lru. rewrite El, fmap_app in Hkx. apply elem_of_app in Hkx as [?|?%list_elem_of_singleton]; done. }
  intros Hrun. destruct (IH _ Hst1 Hs1 Hrun) as [Hs' [W E1 E2]]. split; [done|]. constructor; [|done|].
  - etransitivity; [|exact W]. etransitivity; [|apply wakes_free]. constructor; [done|by eauto|done].
  - intros j Hj. rewrite E2, shards_free by done. cbn. by rewrite list_lookup_alter_ne.
Qed.

Lemma evict_shard_progress max_size (Hmax : 0 < max_size < 2 ^ 62) now i c c' :
  steady max_size c → settled None c → evict_shard now i c = Some c' → settled None c' ∧ evicts i c c'.
Proof. unfold evict_shard. destruct (bc_shards c !! i); [|done]. by apply evict_loop_progress. Qed.

Lemma evict_all_progress max_size (Hmax : 0 < max_size < 2 ^ 62) now c c' :
  steady max_size c → settled None c → evict_all now c = Some c' →
  settled None c' ∧ wakes_only c c'
  ∧ (sl_waiters (bc_limiter c') ≠ [] → ∀ i sh, bc_shards c' !! i = Some sh → lru_iter (V := unit) (sh_lru sh) = []).
Proof.
  intros Hst Hs E.
  assert (length (bc_shards c') = length (bc_shards c)) as El by (by eapply shards_evict_all).
  enough (settled None c' ∧ wakes_only c c' ∧ (sl_waiters (bc_limiter c') ≠ [] →
    ∀ i sh, i ∈ seq 0 (length (bc_shards c)) → bc_shards c' !! i = Some sh → lru_iter (V := unit) (sh_lru sh) = [])) as (? & ? & He).
  { split_and!; [done..|]. intros Hw i sh Hi. apply (He Hw i sh); [|done]. apply elem_of_seq. apply lookup_lt_Some in Hi. lia. }
  revert E. unfold evict_all. generalize (seq 0 (length (bc_shards c))) as l. clear El. intros l.
  assert (∀ c, steady max_size c → settled None c → foldl (λ oc i, let* x := oc in evict_shard now i x) (Some c) l = Some c' →
    settled None c' ∧ wakes_only c c' ∧ (sl_waiters (bc_limiter c') ≠ [] → ∀ i sh, bc_shards c' !! i = Some sh →
      i ∈ l ∨ (∀ sh0, bc_shards c !! i = Some sh0 → lru_iter (V := unit) (sh_lru sh0) = []) → lru_iter (V := unit) (sh_lru sh) = [])) as Hgen.
  2: { intros E. destruct (Hgen c Hst Hs E) as (? & ? & He). split_and!; [done..|]. intros Hw i sh Hi Hsh. apply (He Hw i sh Hsh). by left. }
  clear Hst Hs c. induction l as [|i l IH]; intros c Hst Hs; cbn.
  { intros [= <-]. split_and!; [done..|]. intros _ i sh Hsh [Hn|H]; [by apply not_elem_of_nil in Hn|by apply (H sh)]. }
  destruct (evict_shard now i c) as [c1|] eqn:E; [|intros Hrun; exfalso; revert Hrun; clear; induction l; cbn; done]. intros Hrun.
  destruct (evict_shard_progress max_size Hmax now i c c1 Hst Hs E) as [Hs1 [W1 E1 E2]].
  destruct (IH c1) as (Hs' & W & He); [by eapply (steady_evict_shard max_size Hmax)|done|done|].
  split_and!; [done|by etransitivity|]. intros Hw j sh Hsh Hj. apply (He Hw j sh Hsh).
  destruct (decide (j = i)) as [->|Hne].
  - right. intros sh0. apply E1. by apply (wk_waiters _ _ W).
  - destruct Hj as [[?|?]%elem_of_cons|Hj]; [done|by left|]. right. intros sh0. rewrite E2 by done. apply Hj.
Qed.

(** ** Somebody can go on *)

Definition active c (h : nat) (b : CacheBlock L) : Prop :=
  match cb_phase b with LoadDone => False | LoadWait => h ∈ bc_woken c | _ => True end.

Definition lively c : Prop := sl_waiters (bc_limiter c) ≠ [] → ∃ h b, bc_heap c !! h = Some b ∧ active c h b.

Lemma lively_wakes c c' : lively c → wakes_only c c' → lively c'.
Proof.
  intros Hl [W1 W2 W3] Hw. destruct (Hl (W1 Hw)) as (h & b & Hb & Ha). destruct (W2 h b Hb) as (b' & Hb' & Ep).
  exists h, b'. split; [done|]. unfold active in *. rewrite Ep. destruct (cb_phase b); auto.
Qed.

(** A task that moves on to a phase it can leave. *)
Lemma lively_goto c h p b : bc_heap c !! h = Some b → p ≠ LoadDone → p ≠ LoadWait → lively (goto h p c).
Proof.
  intros Hb H1 H2 _. exists h, (set_phase p b). split; [cbn; by rewrite list_lookup_alter_eq, Hb|]. unfold active. cbn. by destruct p.
Qed.

Context (source : S3ObjectMetadata → DataBlockIndex → result ObjectError bytes → Prop) (max_size : Z) (Hmax : 0 < max_size < 2 ^ 62).

(** When every block that rests is off the lists, whoever holds permits is not done. *)
Lemma evicted_lively c :
  cache_ok source max_size c → steady max_size c → settled None c →
  (sl_waiters (bc_limiter c) ≠ [] → ∀ i sh, bc_shards c !! i = Some sh → lru_iter (V := unit) (sh_lru sh) = []) → lively c.
Proof.
  intros Hc Hst Hs He Hw. destruct (st_wake _ _ Hst Hw) as (h & b & Hb & Hm). exists h, b. split; [done|].
  destruct Hm as [Hh|[Ep|Hk]]; unfold active.
  - unfold holder in Hh. apply andb_prop in Hh as [Ha Hf%negb_true_iff].
    destruct (resting (cb_phase b)) eqn:Er; [|by destruct (cb_phase b)].
    destruct (Hs h b) as [_ Hl]; [done..|]. destruct (Hl Er Hf) as (sh & Hsh & _ & Hin). rewrite (He Hw _ sh Hsh) in Hin. by apply not_elem_of_nil in Hin.
  - by rewrite Ep.
  - destruct (proj1 (co_queued _ _ _ Hc h)) as (b' & Hb' & Hq); [apply elem_of_app; by right|]. rewrite Hb in Hb'. injection Hb' as <-.
    by destruct (cb_phase b).
Qed.

Definition progress c : Prop := settled None c ∧ lively c.

Lemma settled_goto c h b p :
  settled None c → bc_heap c !! h = Some b → resting p = false → p ≠ LoadUndecoded → settled None (goto h p c).
Proof. intros Hs Hb Hr Hu. apply (settled_alter c h _ b (settled_but h c Hs) Hb). split; [done|]. cbn. by rewrite Hr. Qed.

(** The last step of a load task. *)
Lemma settled_done c h b : settled None c → bc_heap c !! h = Some b → cb_phase b = LoadCheck → settled None (goto h LoadDone c).
Proof.
  intros Hs Hb Ep. apply (settled_alter c h _ b (settled_but h c Hs) Hb). destruct (Hs h b) as [_ Hl]; [done..|].
  split; [done|]. intros _. apply Hl. by rewrite Ep.
Qed.

Lemma evict_all_lively now c c' :
  cache_ok source max_size c → steady max_size c → settled None c → evict_all now c = Some c' → progress c'.
Proof.
  intros Hc Hst Hs E. destruct (evict_all_progress max_size Hmax now c c' Hst Hs E) as (Hs' & _ & He). split; [done|].
  apply evicted_lively; [by eapply ok_evict_all|by eapply (steady_evict_all max_size Hmax)|done..].
Qed.

Lemma try_evict_progress now sid c c' :
  steady max_size c → progress c → try_evict_expired now sid c = Some c' → progress c'.
Proof.
  intros Hst [Hs Hl]. unfold try_evict_expired. destruct (bc_shards c !! _) as [sh|] eqn:Hsh; [|done]. case_match; [|by intros [= <-]].
  match goal with |- evict_shard _ ?i (with_shard _ ?f _) = _ → _ => set (c1 := with_shard i f c); intros E end.
  destruct (evict_shard_progress max_size Hmax now (shard_of sid c) c1 c') as [Hs' [W _ _]]; [| |exact E|].
  - apply steady_shards; [done|..]; cbn; intros sh'; [intros k Hsh'; by eapply (st_lru _ _ Hst)|by apply (st_nodup _ _ Hst)].
  - apply settled_shards; [done|]. by cbn.
  - split; [done|]. eapply lively_wakes; [exact Hl|]. etransitivity; [|exact W]. constructor; [done|by eauto|done].
Qed.

Lemma settled_append c b : settled None c → resting (cb_phase b) = false → cb_phase b ≠ LoadUndecoded → settled None (with_heap (λ l, l ++ [b]) c).
Proof.
  intros Hs Hr Hu h x _ [[_ Hx]|[_ <-]]%lookup_snoc_Some; [by apply (Hs h x)|]. split; [done|]. by rewrite Hr.
Qed.

Lemma promote_keys (k k' : BlockKey) (l : C) : k' ∈ (lru_iter (V := unit) l).*1 → k' ∈ (lru_iter (V := unit) (lru_promote (V := unit) k l)).*1.
Proof.
  rewrite lru_iter_promote. destruct (find_key k (lru_iter l)) as [e|] eqn:Ef; [|done]. intros (x & -> & Hx)%list_elem_of_fmap.
  apply find_key_Some in Ef as [He Ee]. cbn. destruct (decide (x.1 = k)) as [Ex|Hne]; [rewrite Ex, Ee; left|].
  right. apply list_elem_of_fmap_2, list_elem_of_filter. by split.
Qed.

Lemma get_progress now ra reader index c c' h :
  is_u32 (bi_size index) → steady max_size c → progress c →
  get_block_handle now ra reader index c = Some (c', h) → progress c'.
Proof.
  intros Hi Hst [Hs Hl].
  unfold get_block_handle. destruct (bc_shards c !! _) as [sh|] eqn:Esh; [|done]. destruct (sh_blocks sh !! _) as [h0|] eqn:Ek;
    (match goal with |- context [try_evict_expired ?n ?i ?x] => destruct (try_evict_expired n i x) as [c2|] eqn:E end; [|done]);
    intros [= -> <-].
  - eapply try_evict_progress; [by eapply steady_promote| |exact E].
    split; [|exact Hl]. apply settled_shards; [done|]. cbn. intros sh' k x b Hsh' _ _ _ Hx Hin. split; [done|by apply promote_keys].
  - eapply try_evict_progress; [by eapply steady_new_block| |exact E]. split.
    + apply settled_append; [|done..]. apply settled_shards; [done|]. cbn. rewrite Esh. intros sh' k x b [= <-] _ _ _ Hx Hin.
      split; [|done]. rewrite lookup_insert_ne; [done|]. intros <-. by pose proof (eq_trans (eq_sym Hx) Ek).
    + intros Hw. destruct (Hl Hw) as (x & b & Hb & Ha). exists x, b. split; [by apply lookup_app_l_Some|exact Ha].
Qed.
Lemma settled_fail c h b e :
  settled (Some h) c → bc_heap c !! h = Some b → settled None (fail_shared h e c) ∧ ∃ b', bc_heap (fail_shared h e c) !! h = Some b' ∧ cb_freed b' = true.
Proof.
  intros Hs Hb. unfold fail_shared. set (c1 := with_heap _ c).
  assert (bc_heap c1 !! h = Some (set_load (Err e) None b)) as Hb1 by (cbn; by rewrite list_lookup_alter_eq, Hb).
  assert (settled (Some h) c1) as Hs1.
  { intros x y Hne. cbn. rewrite list_lookup_alter_ne by congruence. intros Hy. by apply (Hs x y). }
  split; [by eapply settled_free|]. exists (freed_block (set_load (Err e) None b)). rewrite (free_heap _ _ _ Hb1), list_lookup_alter_eq, Hb1.
  split; [done|]. unfold freed_block. cbn. by destruct (cb_freed b) eqn:E; cbn; rewrite ?E.
Qed.

(** A freed block may go anywhere. *)
Lemma settled_freed c h b p : settled (Some h) c → bc_heap c !! h = Some b → cb_freed b = true → settled None (goto h p c).
Proof. intros Hs Hb Hf. apply (settled_alter c h _ b Hs Hb). split; cbn; rewrite Hf; done. Qed.

Lemma mark_read_progress h c c' : progress c → mark_read h c = Some c' → progress c'.
Proof.
  intros [Hs Hl]. unfold mark_read. destruct (bc_heap c !! h) as [b|] eqn:Hb; [|done]. cbn. set (c1 := with_heap _ c).
  assert (bc_heap c1 !! h = Some (set_unread None (i32 (cb_unread_cnt b - 1)) b)) as Hb1 by (cbn; by rewrite list_lookup_alter_eq, Hb).
  assert (settled None c1) as Hs1.
  { apply (settled_alter c h _ b (settled_but h c Hs) Hb). by apply (Hs h b). }
  assert (wakes_only c c1) as W1.
  { constructor; [done| |done]. intros x y Hy. destruct (decide (x = h)) as [->|].
    - rewrite Hb1. rewrite Hb in Hy. injection Hy as <-. by eexists.
    - exists y. cbn. by rewrite list_lookup_alter_ne. }
  case_match; [intros [= <-]; split; [done|by eapply lively_wakes]|].
  pose proof (settled_remove c1 h (cb_key b) Hs1) as Hs2. pose proof (wakes_remove h (cb_key b) c1) as W2.
  unfold remove_if_same in *. case_bool_decide; cbn [fst] in *; intros [= <-].
  - split; [eapply settled_free; [exact Hs2|exact Hb1]|]. eapply lively_wakes; [exact Hl|]. etransitivity; [exact W1|]. etransitivity; [exact W2|apply wakes_free].
  - split; [done|by eapply lively_wakes].
Qed.

Lemma load_step_progress now h c c' :
  cache_ok source max_size c → steady max_size c → timely (CacheLoad now h) c → progress c → load_step now h c = Some c' → progress c'.
Proof.
  intros Hc Hst Ht [Hs Hl]. unfold load_step. destruct (bc_heap c !! h) as [b|] eqn:Hb; [|done]. specialize (Ht b Hb).
  pose proof (Hs h b ltac:(done) Hb) as Hp. destruct (cb_phase b) as [| | |tracked| | |e| |] eqn:Ep; try done.
  - destruct (limiter_try_acquire _ _ _) as [l []]; [destruct (cb_readahead b)|]; intros [= <-]; (split; [by eapply settled_goto|by eapply lively_goto]).
  - apply evict_all_lively.
    + by eapply ok_goto; [done|done|rewrite ?Ep..].
    + by eapply steady_goto; [..|rewrite Ep|rewrite Ep].
    + by eapply settled_goto.
  - case_bool_decide; [|done]. intros [= <-]. split; [by eapply settled_goto|by eapply lively_goto].
  - intros [= <-]. split; [|by eapply lively_goto]. specialize (Ht eq_refl). eapply (settled_alter _ h _ b); [|exact Hb|].
    + apply settled_but, settled_shards; [done|]. cbn. intros sh k x y Hsh _ _ _ Hx Hin. split; [done|]. rewrite lru_iter_push. cbn.
      destruct (decide (k = cb_key b)) as [->|Hne]; [left|right]. apply list_elem_of_fmap in Hin as (z & -> & Hz). by apply list_elem_of_fmap_2, list_elem_of_filter.
    + split; [done|]. intros _ _. unfold listed, shard_of. cbn. rewrite length_alter. fold (shard_of (bi_stream_id (cb_index b)) c).
      destruct (bc_shards c !! _) as [sh|] eqn:Hsh; [|done]. eexists. rewrite list_lookup_alter_eq, Hsh. split; [done|]. split; [done|].
      cbn. rewrite lru_iter_push. left.
  - intros [= <-]. split; [|by eapply lively_goto; [by rewrite heap_remove_if_same|..]].
    eapply settled_freed; [by apply settled_remove|by rewrite heap_remove_if_same|]. by apply Hp.
  - intros [= <-]. destruct (settled_fail c h b (SE_Object e) (settled_but h c Hs) Hb) as (Hs1 & b' & Hb' & Hf).
    split; [by eapply settled_freed; [apply settled_but|..]|by eapply lively_goto].
  - destruct (required_release _) eqn:E.
    + apply evict_all_lively.
      * by eapply ok_goto; [done|done|rewrite ?Ep..].
      * by eapply steady_goto; [..|rewrite Ep|rewrite Ep].
      * by eapply settled_done.
    + intros [= <-]. split; [by eapply settled_done|]. intros Hw. unfold required_release in E. apply orb_false_iff in E as [_ E%negb_false_iff].
      by apply bool_decide_eq_true_1 in E.
Qed.

Lemma load_fetched_progress h r c c' : progress c → load_fetched h r c = Some c' → progress c'.
Proof.
  intros [Hs Hl]. unfold load_fetched. destruct (bc_heap c !! h) as [b|] eqn:Hb; [|done]. destruct (cb_phase b) as [| | |tracked| | | | |] eqn:Ep; try done.
  set (c0 := match tracked with Some id => with_cold (cold_drop id (bc_cold_reads c)) c | None => c end).
  assert (settled None c0) as Hs0 by (by destruct tracked).
  assert (bc_heap c0 !! h = Some b) as Hb0 by (by destruct tracked). clearbody c0. intros [= <-]. destruct r as [data|e].
  - unfold complete. destruct (decode_data_block data) as [records|e].
    + split; [|eapply lively_goto; [cbn; rewrite list_lookup_alter_eq, Hb0; done|done..]]. rewrite (goto_with _ _ c0 h b Hb0).
      apply (settled_alter c0 h _ b (settled_but h c0 Hs0) Hb0). by split.
    + destruct (settled_fail c0 h b (SE_Object e) (settled_but h c0 Hs0) Hb0) as (Hs1 & b' & Hb' & Hf).
      split; [by eapply settled_freed; [apply settled_but|..]|by eapply lively_goto].
  - split; [|by eapply lively_goto; [by rewrite heap_remove_if_same|..]].
    eapply (settled_alter _ h _ b); [by apply settled_remove|by rewrite heap_remove_if_same|]. by split.
Qed.

Lemma cache_step_progress e c c' :
  cache_ok source max_size c → steady max_size c → timely e c → progress c → cache_step e c = Some c' → progress c'.
Proof.
  intros Hc Hst Ht [Hs Hl]. destruct e as [now ra reader index|now h|h r|now h|h|h listener|handle]; cbn.
  - destruct (get_block_handle _ _ _ _ _) as [[c1 h]|] eqn:E; [|done]. intros [= <-]. by eapply get_progress.
  - by apply load_step_progress.
  - by apply load_fetched_progress.
  - intros [= <-]. split; [by apply settled_same|]. eapply lively_wakes; [exact Hl|by apply wakes_same].
  - by apply mark_read_progress.
  - intros [= <-]. unfold register_free_listener. destruct (bc_heap c !! h) as [b|] eqn:Hb; [|done]. destruct (cb_freed b); [done|].
    split; [by apply settled_same|]. eapply lively_wakes; [exact Hl|by apply wakes_same].
  - intros [= <-]. split; [by apply settled_same|]. eapply lively_wakes; [exact Hl|by apply wakes_same].
Qed.

(** ** Load tasks end *)

(** How many steps a task has still to take, a wake-up and the release that causes one
    included. *)
Definition phase_steps (p : LoadPhase) : nat :=
  match p with
  | LoadAcquire => 6 | LoadQueued => 5 | LoadWait => 4 | LoadRead _ => 3
  | LoadPush | LoadUndecoded | LoadUnread _ => 2 | LoadCheck => 1 | LoadDone => 0
  end.
Definition block_steps (b : CacheBlock L) : nat := phase_steps (cb_phase b) + (if cb_freed b then 0 else 4).
Definition heap_steps (l : list (CacheBlock L)) : nat := foldr (λ b n, block_steps b + n)%nat 0%nat l.
Definition remaining c : nat := heap_steps (bc_heap c) + 3 * length (bc_woken c).

Lemma heap_steps_alter f h (l : list (CacheBlock L)) b :
  l !! h = Some b → (heap_steps (alter f h l) + block_steps b = heap_steps l + block_steps (f b))%nat.
Proof.
  revert h; induction l as [|x l IH]; intros [|h] Hl; try done.
  - injection Hl as ->. change ((block_steps (f b) + heap_steps l) + block_steps b = block_steps b + heap_steps l + block_steps (f b))%nat. lia.
  - change ((block_steps x + heap_steps (alter f h l)) + block_steps b = block_steps x + heap_steps l + block_steps (f b))%nat. specialize (IH h Hl). lia.
Qed.

Lemma remaining_free h c : (remaining (free h c) ≤ remaining c)%nat.
Proof.
  unfold free. destruct (bc_heap c !! h) as [b|] eqn:Hb; [|done]. destruct (cb_freed b) eqn:Ef; [done|].
  pose proof (heap_steps_alter set_freed h _ b Hb) as E. unfold block_steps in E. cbn [set_freed cb_phase cb_freed] in E. rewrite Ef in E.
  unfold release, limiter_release, remaining. cbn [with_heap bc_limiter].
  destruct (sl_waiters (bc_limiter c)); [|destruct (0 <? _)]; cbn [bc_heap bc_woken with_fired with_woken with_limiter with_heap length]; lia.
Qed.

Lemma remaining_remove h key c : remaining (remove_if_same h key c).1 = remaining c.
Proof. unfold remove_if_same. by case_bool_decide. Qed.

Lemma remaining_evict_loop fuel t i c c' : evict_loop fuel t i c = Some c' → (remaining c' ≤ remaining c)%nat.
Proof.
  revert c; induction fuel as [|fuel IH]; intros c; cbn; [done|]. destruct (bc_shards c !! i) as [sh|]; [|done].
  destruct (lru_peek_lru (sh_lru sh)) as [[key []]|]; [|by intros [= <-]]. destruct (sh_blocks sh !! key) as [h|]; [|by intros ?%IH].
  destruct (bc_heap c !! h) as [b|]; [|done]. case_match; [by intros [= <-]|]. intros Hl%IH. etransitivity; [exact Hl|].
  match goal with |- context [free h ?x] => exact (remaining_free h x) end.
Qed.

Lemma remaining_evict_all now c c' : evict_all now c = Some c' → (remaining c' ≤ remaining c)%nat.
Proof.
  unfold evict_all. generalize (seq 0 (length (bc_shards c))) as l. intros l. revert c; induction l as [|i l IH]; intros c; cbn; [by intros [= <-]|].
  destruct (evict_shard now i c) as [c1|] eqn:E; [|clear; induction l; cbn; done]. intros Hl%IH. unfold evict_shard in E.
  destruct (bc_shards c !! i); [|done]. apply remaining_evict_loop in E. lia.
Qed.

Lemma remaining_goto h p c b : bc_heap c !! h = Some b → (remaining (goto h p c) + phase_steps (cb_phase b) = remaining c + phase_steps p)%nat.
Proof.
  intros Hb. pose proof (heap_steps_alter (set_phase p) h _ b Hb) as E. unfold block_steps in E.
  cbn [set_phase cb_phase cb_freed] in E. unfold remaining, goto. cbn [with_heap bc_heap bc_woken]. lia.
Qed.

(** What ends in a phase nearer to the end, having freed blocks on the way. *)
Lemma remaining_advance h p c c0 b b0 :
  bc_heap c !! h = Some b → bc_heap c0 !! h = Some b0 → cb_phase b0 = cb_phase b → (remaining c0 ≤ remaining c)%nat →
  (phase_steps p < phase_steps (cb_phase b))%nat → (remaining (goto h p c0) < remaining c)%nat.
Proof. intros Hb Hb0 Ep Hl Hp. pose proof (remaining_goto h p c0 b0 Hb0) as E. rewrite Ep in E. lia. Qed.

Lemma remaining_fail h e c b :
  bc_heap c !! h = Some b → (remaining (fail_shared h e c) ≤ remaining c)%nat ∧ ∃ b', bc_heap (fail_shared h e c) !! h = Some b' ∧ cb_phase b' = cb_phase b.
Proof.
  intros Hb. unfold fail_shared. set (c1 := with_heap _ c).
  assert (bc_heap c1 !! h = Some (set_load (Err e) None b)) as Hb1 by (cbn; by rewrite list_lookup_alter_eq, Hb).
  pose proof (heap_steps_alter (set_load (Err e) None) h _ b Hb) as E. unfold block_steps in E. cbn [set_load cb_phase cb_freed] in E. split.
  - etransitivity; [apply remaining_free|]. unfold remaining, c1. cbn [with_heap bc_heap bc_woken]. lia.
  - destruct (wk_heap _ _ (wakes_free h c1) h _ Hb1) as (b' & Hb' & Ep). by exists b'.
Qed.

Definition load_event (e : CacheEvent L) : Prop := match e with CacheLoad _ _ | CacheFetched _ _ => True | _ => False end.

Lemma load_event_advances e c c' : load_event e → cache_step e c = Some c' → (remaining c' < remaining c)%nat.
Proof.
  destruct e as [ | now h|h r| | | |]; try done; intros _; cbn.
  - unfold load_step. destruct (bc_heap c !! h) as [b|] eqn:Hb; [|done]. destruct (cb_phase b) as [| | |tracked| | |e| |] eqn:Ep; try done.
    + destruct (limiter_try_acquire _ _ _) as [l []]; [destruct (cb_readahead b)|]; intros [= <-];
        (eapply (remaining_advance h _ c _ b b); [done|done|done|done|rewrite Ep; cbn; lia]).
    + intros Hl%remaining_evict_all. eapply Nat.le_lt_trans; [exact Hl|]. by eapply (remaining_advance h _ c _ b b); [done|done|done|done|rewrite Ep; cbn; lia].
    + case_bool_decide as Hw; [|done]. intros [= <-]. pose proof (remaining_goto h LoadAcquire (with_woken (filter (λ w, w ≠ h)) c) b Hb) as E.
      rewrite Ep in E. cbn [phase_steps] in E. assert (length (filter (λ w, w ≠ h) (bc_woken c)) < length (bc_woken c))%nat as Hlt.
      { apply (length_filter_lt _ _ h Hw). by intros H. }
      unfold remaining in *. cbn [goto with_heap with_woken bc_heap bc_woken] in *. lia.
    + intros [= <-]. eapply (remaining_advance h _ c _ b b); [done|done|done|done|rewrite Ep; cbn; lia].
    + intros [= <-]. eapply (remaining_advance h _ c _ b b); [done|by rewrite heap_remove_if_same|done|by rewrite remaining_remove|rewrite Ep; cbn; lia].
    + intros [= <-]. destruct (remaining_fail h (SE_Object e) c b Hb) as (Hl & b' & Hb' & Ep').
      eapply (remaining_advance h _ c _ b b'); [done..|rewrite Ep; cbn; lia].
    + case_match; [intros Hl%remaining_evict_all; eapply Nat.le_lt_trans; [exact Hl|]|intros [= <-]];
        (eapply (remaining_advance h _ c _ b b); [done|done|done|done|rewrite Ep; cbn; lia]).
  - unfold load_fetched. destruct (bc_heap c !! h) as [b|] eqn:Hb; [|done]. destruct (cb_phase b) as [| | |tracked| | | | |] eqn:Ep; try done.
    set (c0 := match tracked with Some id => with_cold (cold_drop id (bc_cold_reads c)) c | None => c end).
    assert (remaining c0 = remaining c) as E0 by (by destruct tracked).
    assert (bc_heap c0 !! h = Some b) as Hb0 by (by destruct tracked). clearbody c0. intros [= <-]. rewrite <- E0. destruct r as [data|e].
    + unfold complete. destruct (decode_data_block data) as [records|e].
      * pose proof (heap_steps_alter (set_load (Ok tt) (Some records)) h _ b Hb0) as E. unfold block_steps in E. cbn [set_load cb_phase cb_freed] in E.
        eapply (remaining_advance h _ c0 _ b (set_load (Ok tt) (Some records) b)); [done|cbn; by rewrite list_lookup_alter_eq, Hb0|done| |rewrite Ep; cbn; lia].
        unfold remaining. cbn [with_heap bc_heap bc_woken]. lia.
      * destruct (remaining_fail h (SE_Object e) c0 b Hb0) as (Hl & b' & Hb' & Ep').
        eapply (remaining_advance h _ c0 _ b b'); [done..|rewrite Ep; cbn; lia].
    + eapply (remaining_advance h _ c0 _ b b); [done|by rewrite heap_remove_if_same|done|by rewrite remaining_remove|rewrite Ep; cbn; lia].
Qed.

Lemma load_events_end es c c' : Forall load_event es → cache_run es c = Some c' → (length es + remaining c' ≤ remaining c)%nat.
Proof.
  intros Hl. revert c; induction Hl as [|e es He _ IH]; intros c; cbn; [by intros [= <-]|].
  destruct (cache_step e c) as [c1|] eqn:E; [|done]. intros Hr%IH. apply load_event_advances in E; [|done]. lia.
Qed.
End Progress.

(** ** The theorem *)

(** C12: no load waits for ever.  When only loaded blocks are marked read and a loaded block
    enters the LRU list while it is still in the table, then in every reachable state the
    permits are exactly the cache size less the sizes of the blocks that hold them, never
    further below zero than one block; whenever a load waits in the limiter, some load task
    can take its next step or waits for its read to return; and however the load tasks and
    reads are scheduled from there, they take no more than [remaining] steps before new blocks
    are asked for, so that they come to rest, where by the former nobody waits. *)
Theorem block_cache_wakes {C L} `{!LruCache C BlockKey unit} `{!LruCacheLaws C BlockKey unit}
    source max_size concurrency ttl_ms interval now0 (c : BlocksCache C L) :
  0 < max_size < 2 ^ 62 →
  cache_reach (λ e c, honest source e c ∧ timely e c) (with_config max_size concurrency ttl_ms interval now0) c →
  sl_permits (bc_limiter c) = max_size - foldr (λ b acc, (if holder b then bi_size (cb_index b) else 0) + acc) 0 (bc_heap c)
  ∧ - 2 ^ 32 ≤ sl_permits (bc_limiter c) ≤ max_size
  ∧ (sl_waiters (bc_limiter c) ≠ [] → ∃ h b, bc_heap c !! h = Some b
       ∧ ((∃ tracked, cb_phase b = LoadRead tracked) ∨ ∀ now, ∃ c', load_step now h c = Some c'))
  ∧ (∀ es c', Forall load_event es → cache_run es c = Some c' → (length es ≤ remaining c)%nat).
Proof.
  intros Hmax Hr. assert (cache_ok source max_size c ∧ steady max_size c ∧ progress c) as (Hc & Hs & Hp).
  { induction Hr as [|c e c' _ (Hc & Hs & Hp) [Hh Ht] E].
    - split_and!; [apply cache_new_ok|by apply cache_new_steady|]. split; [|by intros ?]. intros h b _ Hb. by destruct h.
    - split_and!; [by eapply cache_step_ok|by eapply cache_step_steady|by eapply cache_step_progress]. }
  pose proof (steady_fair _ _ Hs) as Hf. pose proof (fair_debt_nonneg _ Hf) as H0.
  pose proof (st_permits _ _ Hs) as Hpm. pose proof (st_room _ _ Hs) as Hm. split_and!; [by rewrite Hpm, holders_debt|lia|lia|..].
  - intros Hw. destruct (proj2 Hp Hw) as (h & b & Hb & Ha). exists h, b. split; [done|]. unfold active in Ha.
    destruct (cb_phase b) as [| | |tracked| | | | |] eqn:Ep; try done; [..|left; by eexists| | | |];
      (right; intros now; eapply load_step_enabled; [exact Hc|exact Hb|by rewrite Ep..]).
  - intros es c' He E. pose proof (load_events_end es c c' He E). lia.
Qed.

Lemma block_cache_wakes_witness :
  match cache_run sample_run sample_cache with
  | Some c => sl_waiters (bc_limiter c) = [1%nat] ∧ remaining c = 13%nat
      ∧ ∃ h b, bc_heap c !! h = Some b ∧ ((∃ tracked, cb_phase b = LoadRead tracked) ∨ ∀ now, ∃ c', load_step now h c = Some c')
  | None => False
  end.
Proof.
  destruct (cache_run sample_run sample_cache) as [c|] eqn:E; [|vm_compute in E; discriminate].
  assert (cache_reach (λ e c, honest sample_source e c ∧ timely e c) sample_cache c) as Hr.
  { eapply (run_reach sample_source sample_run); [by intros ? ? ?|apply reach_start| |vm_compute; reflexivity|exact E].
    intros h r Hin m i. unfold sample_run in Hin. rewrite !elem_of_cons, elem_of_nil in Hin. unfold sample_source. naive_solver. }
  assert (sl_waiters (bc_limiter c) = [1%nat] ∧ remaining c = 13%nat) as [Ew Em] by (vm_compute in E; by injection E as <-).
  split; [exact Ew|]. split; [exact Em|].
  apply (block_cache_wakes sample_source 10 1 DATA_TTL_MS CHECK_EXPIRED_DATA_INTERVAL_MS 0 c); [vm_compute; by split|exact Hr|by rewrite Ew].
Defined.
