(* ===== verification/StreamReader.v ===== *)
(** * Stream readers: the cached cold read

    Models [s3stream-core/src/cache/blockcache/stream_reader.rs], [stream_readers.rs] and
    [object_reader_cache.rs].  The world holds the readers, the registry that hands them
    out, the block cache, the open object readers, the storage and the metadata plane; an
    [Arc] is a position in a list.  Reads, readaheads and the tasks they spawn are [Task]s
    over the world, one slice per stretch of code between suspension points, and spawned
    tasks are recorded for the scheduler to run. *)
From S2P Require Import Prelude Collections Codec ObjectStore ObjectFormat ObjectIO Metadata Tasks DataBlockCache Storage BlockCache.

Definition GET_OBJECT_STEP : Z := 4.
Definition READAHEAD_SIZE_UNIT : Z := 1024 * 1024 / 2.
Definition READAHEAD_RESET_COLD_DOWN_MS : Z := 60000.
Definition READAHEAD_AVAILABLE_BYTES_THRESHOLD : Z := 32 * 1024 * 1024.
Definition MAX_OBJECT_READER_SIZE : Z := 100 * 1024 * 1024.
Definition STREAM_READER_EXPIRED_MS : Z := 60000.
Definition STREAM_READER_EXPIRED_CHECK_INTERVAL_MS : Z := 60000.
Definition USIZE_MAX : Z := U64_MAX.
Definition I64_MAX : Z := 2 ^ 63 - 1.

(** ** Data *)

(** What a free listener captured: the reader and the offset of the slot. *)
Record FreeListener : Type := mkListener {
  fl_reader : nat;
  fl_start : Z;
}.

Record BlockSlot : Type := mkSlot {
  bs_metadata : S3ObjectMetadata;
  bs_index : DataBlockIndex;
  bs_data : option nat;
  bs_free_listener : option (nat * Z);
}.

Record ReadaheadState : Type := mkReadahead {
  ra_next_offset : Z;
  ra_next_size : Z;
  ra_mark_offset : Z;
  ra_reset_ts_ms : Z;
  ra_require_reset : bool;
  ra_inflight : bool;
  ra_cache_miss_count : Z;
}.
Definition readahead_new : ReadaheadState := mkReadahead 0 READAHEAD_SIZE_UNIT 0 0 false false 0.
Definition readahead_reset (now : Z) (r : ReadaheadState) : ReadaheadState :=
  mkReadahead (ra_next_offset r) (ra_next_size r) (ra_mark_offset r) now true (ra_inflight r) (ra_cache_miss_count r).

Record ReaderState : Type := mkReaderState {
  rs_blocks : gmap Z BlockSlot;
  rs_last_block : option (Z * Z);
  rs_loaded_end_offset : Z;
  rs_blocks_epoch : Z;
  rs_readahead : ReadaheadState;
}.

Record StreamReader : Type := mkStreamReader {
  rx_stream_id : Z;
  rx_state : ReaderState;
  (** Who holds the index load lock: a readahead or a read. *)
  rx_index_holder : option bool;
  rx_next_read_offset : Z;
  rx_last_access_ms : Z;
  rx_reading : bool;
  rx_closed : bool;
}.

Definition stream_reader_new (now stream_id next_read_offset : Z) : StreamReader :=
  mkStreamReader stream_id (mkReaderState ∅ None 0 0 readahead_new) None next_read_offset now false false.

(** One block handed to a read; [was_loaded] is sampled at the hand-out. *)
Record BlockRead : Type := mkBlockRead {
  br_index : DataBlockIndex;
  br_handle : nat;
  br_was_loaded : bool;
}.

Inductive WalkOutcome : Type := Fulfilled | NeedMore | ReadaheadDone.

(** An open object reader, its footer and index once read. *)
Record OpenReader : Type := mkOpen {
  or_metadata : S3ObjectMetadata;
  or_info : option BasicObjectInfo;
}.

Record RegistryShard : Type := mkRegistryShard {
  rg_readers : gmap (Z * Z) nat;
  rg_last_expired_check_ms : Z;
}.

(** What [tokio::spawn] was given. *)
Inductive Spawned : Type :=
| SpawnReadahead (reader : nat) (cache_miss : bool)
| SpawnAttach (reader : nat) (index : DataBlockIndex) (handle : nat).

Section World.
Context {S : Type} `{!ObjectStorage S} {M : Type} `{!ObjectLookup M}.
Context {C RC : Type} `{!LruCache C BlockKey unit} `{!LruCache RC Z nat}.

Record World : Type := mkWorld {
  w_now : Z;
  w_readers : list StreamReader;
  w_registry : list RegistryShard;
  w_expired_ms : Z;
  w_check_interval_ms : Z;
  w_cache : BlocksCache C FreeListener;
  w_open : list OpenReader;
  w_open_lru : RC;
  w_max_index_bytes : Z;
  w_store : S;
  w_meta : M;
  w_spawned : list Spawned;
}.

Definition with_readers (f : list StreamReader → list StreamReader) (w : World) : World :=
  mkWorld (w_now w) (f (w_readers w)) (w_registry w) (w_expired_ms w) (w_check_interval_ms w) (w_cache w) (w_open w) (w_open_lru w) (w_max_index_bytes w) (w_store w) (w_meta w) (w_spawned w).
Definition with_registry (f : list RegistryShard → list RegistryShard) (w : World) : World :=
  mkWorld (w_now w) (w_readers w) (f (w_registry w)) (w_expired_ms w) (w_check_interval_ms w) (w_cache w) (w_open w) (w_open_lru w) (w_max_index_bytes w) (w_store w) (w_meta w) (w_spawned w).
Definition with_cache (c : BlocksCache C FreeListener) (w : World) : World :=
  mkWorld (w_now w) (w_readers w) (w_registry w) (w_expired_ms w) (w_check_interval_ms w) c (w_open w) (w_open_lru w) (w_max_index_bytes w) (w_store w) (w_meta w) (w_spawned w).
Definition with_open (l : list OpenReader) (lru : RC) (w : World) : World :=
  mkWorld (w_now w) (w_readers w) (w_registry w) (w_expired_ms w) (w_check_interval_ms w) (w_cache w) l lru (w_max_index_bytes w) (w_store w) (w_meta w) (w_spawned w).
Definition spawn (t : Spawned) (w : World) : World :=
  mkWorld (w_now w) (w_readers w) (w_registry w) (w_expired_ms w) (w_check_interval_ms w) (w_cache w) (w_open w) (w_open_lru w) (w_max_index_bytes w) (w_store w) (w_meta w) (w_spawned w ++ [t]).

(** [StreamReaders::with_config], with the reader cache and the block cache it sets up. *)
Definition stream_readers_with_config (cache_size : Z) (m : M) (s : S) (concurrency expired_ms check_interval_ms now : Z) : World :=
  let concurrency := Z.max concurrency 1 in
  mkWorld now [] (replicate (Z.to_nat concurrency) (mkRegistryShard ∅ now)) expired_ms check_interval_ms (cache_new cache_size concurrency now)
    [] (lru_unbounded (K := Z) (V := nat)) MAX_OBJECT_READER_SIZE s m [].

Definition stream_readers_new (cache_size : Z) (m : M) (s : S) (concurrency now : Z) : World :=
  stream_readers_with_config cache_size m s concurrency STREAM_READER_EXPIRED_MS STREAM_READER_EXPIRED_CHECK_INTERVAL_MS now.

(** ** ObjectReaderCache *)

Definition cached_index_bytes (r : OpenReader) : Z :=
  match or_info r with Some info => len (boi_index_block info) * Z.of_nat BLOCK_INDEX_SIZE | None => 0 end.

Definition cached_total (readers : list OpenReader) (lru : RC) : Z :=
  foldr (λ e acc, match readers !! e.2 with Some r => cached_index_bytes r | None => 0 end + acc) 0 (lru_iter (K := Z) (V := nat) lru).

(** Evict while the cached bytes exceed the cap; the newest reader stays. *)
Fixpoint evict_readers (fuel : nat) (max_index_bytes : Z) (readers : list OpenReader) (lru : RC) : RC :=
  match fuel with
  | O => lru
  | Datatypes.S fuel' =>
      if (1 <? length (lru_iter (K := Z) (V := nat) lru))%nat then
        if cached_total readers lru <=? max_index_bytes then lru
        else evict_readers fuel' max_index_bytes readers (lru_pop_lru (K := Z) (V := nat) lru)
      else lru
  end.

(** [ObjectReaderCache::get]: the open reader of the object, or a new one. *)
Definition readers_get (metadata : S3ObjectMetadata) (w : World) : World * nat :=
  match lru_get (K := Z) (V := nat) (om_object_id metadata) (w_open_lru w) with
  | (lru, Some r) => (with_open (w_open w) lru w, r)
  | (lru, None) =>
      let r := length (w_open w) in
      let readers := w_open w ++ [mkOpen metadata None] in
      let lru := lru_push (om_object_id metadata) r lru in
      (with_open readers (evict_readers (length (lru_iter (K := Z) (V := nat) lru)) (w_max_index_bytes w) readers lru) w, r)
  end.

(** [ObjectReader::find] on an open reader: footer and index are read once. *)
Definition open_find (r : nat) (stream_id start_offset end_offset max_bytes : Z) (w : World) : option (World * result ObjectError FindIndexResult) :=
  let* o := w_open w !! r in
  match or_info o with
  | Some info => Some (w, Ok (find (boi_index_block info) stream_id start_offset end_offset max_bytes))
  | None =>
      match basic_object_info (w_store w) (metadata_key (or_metadata o)) (om_object_size (or_metadata o)) with
      | Err e => Some (w, Err e)
      | Ok info =>
          Some (with_open (alter (λ o, mkOpen (or_metadata o) (Some info)) r (w_open w)) (w_open_lru w) w,
                Ok (find (boi_index_block info) stream_id start_offset end_offset max_bytes))
      end
  end.

(** ** Waiting *)

(** A slice waits for nothing, for the reader's index lock, or for the end of a load. *)
Inductive Wait : Type :=
| NoWait
| IndexLock (reader : nat)
| LoadOver (handle : nat).

Definition awaited (q : Wait) (w : World) : bool :=
  match q with
  | NoWait => true
  | IndexLock r => match w_readers w !! r with Some x => bool_decide (rx_index_holder x = None) | None => true end
  | LoadOver h => match bc_heap (w_cache w) !! h with Some b => match cb_load b with Some _ => true | None => false end | None => true end
  end.

Abbreviation task := (Task World Wait).
Definition slice {X} (f : World → option (World * X)) : task X := slice_when NoWait f.

(** ** The window of a reader *)

Section Reader.
Context (r : nat).

Definition with_state (f : ReaderState → ReaderState) (x : StreamReader) : StreamReader :=
  mkStreamReader (rx_stream_id x) (f (rx_state x)) (rx_index_holder x) (rx_next_read_offset x) (rx_last_access_ms x) (rx_reading x) (rx_closed x).
Definition set_holder (b : option bool) (x : StreamReader) : StreamReader :=
  mkStreamReader (rx_stream_id x) (rx_state x) b (rx_next_read_offset x) (rx_last_access_ms x) (rx_reading x) (rx_closed x).
Definition set_next_read (o : Z) (x : StreamReader) : StreamReader :=
  mkStreamReader (rx_stream_id x) (rx_state x) (rx_index_holder x) o (rx_last_access_ms x) (rx_reading x) (rx_closed x).
Definition set_access (now : Z) (x : StreamReader) : StreamReader :=
  mkStreamReader (rx_stream_id x) (rx_state x) (rx_index_holder x) (rx_next_read_offset x) now (rx_reading x) (rx_closed x).
Definition set_reading (b : bool) (x : StreamReader) : StreamReader :=
  mkStreamReader (rx_stream_id x) (rx_state x) (rx_index_holder x) (rx_next_read_offset x) (rx_last_access_ms x) b (rx_closed x).
Definition set_closed (x : StreamReader) : StreamReader :=
  mkStreamReader (rx_stream_id x) (rx_state x) (rx_index_holder x) (rx_next_read_offset x) (rx_last_access_ms x) (rx_reading x) true.

Definition with_blocks (b : gmap Z BlockSlot) (s : ReaderState) : ReaderState :=
  mkReaderState b (rs_last_block s) (rs_loaded_end_offset s) (rs_blocks_epoch s) (rs_readahead s).
Definition with_readahead (f : ReadaheadState → ReadaheadState) (s : ReaderState) : ReaderState :=
  mkReaderState (rs_blocks s) (rs_last_block s) (rs_loaded_end_offset s) (rs_blocks_epoch s) (f (rs_readahead s)).

Definition put_block (next_read_offset : Z) (metadata : S3ObjectMetadata) (index : DataBlockIndex) (s : ReaderState) : option ReaderState :=
  let continuous :=
    match rs_last_block s with
    | None => (bi_start_offset index <=? next_read_offset) && (next_read_offset <? bi_end_offset index)
    | Some (_, last_end) => last_end =? bi_start_offset index
    end in
  if continuous then
    Some (mkReaderState (<[bi_start_offset index := mkSlot metadata index None None]> (rs_blocks s))
            (Some (bi_start_offset index, bi_end_offset index)) (bi_end_offset index) (rs_blocks_epoch s) (rs_readahead s))
  else None.

(** The blocks of one object; also the offset to go on from. *)
Fixpoint put_blocks (next_read_offset : Z) (metadata : S3ObjectMetadata) (blocks : list DataBlockIndex) (next_find_offset : Z) (s : ReaderState)
  : ReaderState * result StreamError Z :=
  match blocks with
  | [] => (s, Ok next_find_offset)
  | index :: rest =>
      match put_block next_read_offset metadata index s with
      | None => (s, Err SE_BlockNotContinuous)
      | Some s => put_blocks next_read_offset metadata rest (bi_end_offset index) s
      end
  end.

(** [attach_data]: the slot of the block gets the loaded handle, once. *)
Definition attach_data (index : DataBlockIndex) (handle : nat) (w : World) : option World :=
  let* x := w_readers w !! r in
  match rs_blocks (rx_state x) !! bi_start_offset index with
  | None => Some w
  | Some slot =>
      if negb (bool_decide (bs_index slot = index)) then Some w
      else if bool_decide (bs_data slot = Some handle) then Some w
      else
        let c := match bs_free_listener slot with Some l => close_listener l (w_cache w) | None => w_cache w end in
        let c := with_heap (alter (mark_unread (w_now w)) handle) c in
        let '(c, listener) := register_free_listener handle (mkListener r (bi_start_offset index)) c in
        let slot := mkSlot (bs_metadata slot) (bs_index slot) (Some handle) listener in
        Some (with_readers (alter (with_state (λ s, with_blocks (<[bi_start_offset index := slot]> (rs_blocks s)) s)) r) (with_cache c w))
  end.

Fixpoint attach_all (reads : list BlockRead) (w : World) : option World :=
  match reads with
  | [] => Some w
  | read :: rest => let* w := attach_data (br_index read) (br_handle read) w in attach_all rest w
  end.

(** [retire_slot]: the block is marked read, the listener closed. *)
Definition retire_slot (slot : BlockSlot) (c : BlocksCache C FreeListener) : option (BlocksCache C FreeListener) :=
  let* c := match bs_data slot with Some h => mark_read h c | None => Some c end in
  Some (match bs_free_listener slot with Some l => close_listener l c | None => c end).

Fixpoint retire_slots (slots : list BlockSlot) (c : BlocksCache C FreeListener) : option (BlocksCache C FreeListener) :=
  match slots with
  | [] => Some c
  | slot :: rest => let* c := retire_slot slot c in retire_slots rest c
  end.

(** [reset_blocks] and [close]. *)
Definition reset_blocks : task unit :=
  slice (λ w,
    let* x := w_readers w !! r in
    let* c := retire_slots (values (rs_blocks (rx_state x))) (w_cache w) in
    Some (with_readers (alter (with_state (λ s, mkReaderState ∅ None 0 (u64 (rs_blocks_epoch s + 1)) (rs_readahead s))) r) (with_cache c w), tt)).

Definition reader_close : task unit :=
  do! slice (λ w, Some (with_readers (alter set_closed r) w, tt)) then
  slice (λ w,
    let* x := w_readers w !! r in
    let* c := retire_slots (values (rs_blocks (rx_state x))) (w_cache w) in
    Some (with_readers (alter (with_state (with_blocks ∅)) r) (with_cache c w), tt)).

(** The task a free listener spawns when the unread block of a slot was evicted;
    [closed] is what the listener saw of the reader when it fired. *)
Definition on_freed (closed : bool) (handle : nat) (l : FreeListener) (w : World) : option World :=
  if closed then Some w
  else
    let* x := w_readers w !! fl_reader l in
    if bool_decide (rs_blocks (rx_state x) !! fl_start l ≫= bs_data = Some handle) then
      Some (with_readers (alter (with_state (with_readahead (readahead_reset (w_now w)))) (fl_reader l)) w)
    else Some w.

(** ** Walking and loading the window *)

(** The loop of [walk_window] over the slots from the floor block on. *)
Fixpoint walk_slots (cursor : Z) (end_offset : option Z) (readahead : bool) (slots : list BlockSlot) (first : bool) (remaining : Z)
    (collected : list BlockRead) (w : World) : option (World * (WalkOutcome * Z * list BlockRead)) :=
  match slots with
  | [] => Some (w, (NeedMore, remaining, collected))
  | slot :: rest =>
      let index := bs_index slot in
      let remaining := if negb first || (bi_start_offset index =? cursor) then remaining - bi_size index else remaining in
      let '(w, reader) := readers_get (bs_metadata slot) w in
      let* o := w_open w !! reader in
      let* (c, handle) := get_block_handle (w_now w) readahead (or_metadata o) index (w_cache w) in
      let w := with_cache c w in
      let* b := bc_heap c !! handle in
      let collected := collected ++ [mkBlockRead index handle (is_loaded b)] in
      let end_reached := match end_offset with Some e => e <=? bi_end_offset index | None => false end in
      if end_reached || (remaining <=? 0) then Some (w, (Fulfilled, remaining, collected))
      else walk_slots cursor end_offset readahead rest false remaining collected w
  end.

Definition walk_window (cursor : Z) (end_offset : option Z) (remaining : Z) (readahead : bool) (collected : list BlockRead) (w : World)
  : option (World * result StreamError (WalkOutcome * Z * list BlockRead)) :=
  let* x := w_readers w !! r in
  let s := rx_state x in
  match floor_entry cursor (rs_blocks s) with
  | None =>
      if bool_decide (rs_blocks s = ∅) then Some (w, Ok (NeedMore, remaining, collected))
      else if readahead then Some (w, Ok (ReadaheadDone, remaining, collected))
      else Some (w, Err SE_Unexpected)
  | Some (floor, _) =>
      if rs_loaded_end_offset s <=? cursor then Some (w, Ok (NeedMore, remaining, collected))
      else
        let* (w, out) := walk_slots cursor end_offset readahead (filter (λ p, floor <= p.1) (entries (rs_blocks s))).*2 true remaining collected w in
        Some (w, Ok out)
  end.

Definition loaded_end : task Z := slice (λ w, let* x := w_readers w !! r in Some (w, rs_loaded_end_offset (rx_state x))).

Definition unlock_index : task unit := slice (λ w, Some (with_readers (alter (set_holder None) r) w, tt)).

(** The loop of [load_more_blocks0] over the objects. *)
Fixpoint load_objects (epoch : Z) (objects : list S3ObjectMetadata) (next_find_offset : Z) : task (result StreamError unit) :=
  match objects with
  | [] => Return (Ok tt)
  | metadata :: rest =>
      let! found := slice (λ w,
        let* x := w_readers w !! r in
        let '(w, reader) := readers_get metadata w in
        open_find reader (rx_stream_id x) next_find_offset NOOP_OFFSET USIZE_MAX w) in
      match found with
      | Err e => Return (Err (SE_Object e))
      | Ok find =>
          let! next := slice (λ w,
            let* x := w_readers w !! r in
            if negb (rs_blocks_epoch (rx_state x) =? epoch) then Some (w, None)
            else
              let '(s, res) := put_blocks (rx_next_read_offset x) metadata (fi_blocks find) next_find_offset (rx_state x) in
              Some (with_readers (alter (with_state (λ _, s)) r) w, Some res)) in
          match next with
          | None => Return (Ok tt)
          | Some (Err e) => Return (Err e)
          | Some (Ok next_find_offset) => load_objects epoch rest next_find_offset
          end
      end
  end.

Definition load_more_blocks0 (readahead : bool) (end_offset : option Z) : task (result StreamError unit) :=
  do! slice_when (IndexLock r) (λ w, Some (with_readers (alter (set_holder (Some readahead)) r) w, tt)) then
  let! next := slice (λ w,
    let* x := w_readers w !! r in
    let s := rx_state x in
    if match end_offset with Some e => e <=? rs_loaded_end_offset s | None => false end then Some (w, None)
    else Some (w, Some (rs_blocks_epoch s, Z.max (match rs_last_block s with Some (_, e) => e | None => 0 end) (rx_next_read_offset x)))) in
  let! res :=
    match next with
    | None => Return (Ok tt)
    | Some (epoch, next_loading_offset) =>
        let! objects := slice (λ w,
          let* x := w_readers w !! r in
          let* objects := mgr_get_objects (w_meta w) (rx_stream_id x) next_loading_offset (default NOOP_OFFSET end_offset) GET_OBJECT_STEP in
          Some (w, objects)) in
        match objects with
        | Err e => Return (Err e)
        | Ok objects => load_objects epoch objects next_loading_offset
        end
    end in
  do! unlock_index then Return res.

Definition load_more_blocks (readahead : bool) (end_offset : option Z) : task (result StreamError bool) :=
  let! before := loaded_end in
  let! res := load_more_blocks0 readahead end_offset in
  match res with
  | Err e => Return (Err e)
  | Ok _ => let! now := loaded_end in Return (Ok (negb (now =? before)))
  end.

(** The loop of [get_blocks]; a round that does not return moves the end of the window. *)
Fixpoint get_blocks_loop (fuel : nat) (end_offset : option Z) (readahead : bool) (cursor remaining : Z) (collected : list BlockRead)
  : task (result StreamError (list BlockRead)) :=
  match fuel with
  | O => stuck NoWait
  | Datatypes.S fuel' =>
      let! outcome := slice (walk_window cursor end_offset remaining readahead collected) in
      match outcome with
      | Err e => Return (Err e)
      | Ok (Fulfilled, _, collected) | Ok (ReadaheadDone, _, collected) => Return (Ok collected)
      | Ok (NeedMore, remaining, collected) =>
          let! more := load_more_blocks readahead end_offset in
          match more with
          | Err e => Return (Err e)
          | Ok more =>
              let cursor' := match last collected with Some b => bi_end_offset (br_index b) | None => cursor end in
              if readahead then
                if more then get_blocks_loop fuel' end_offset readahead cursor' remaining collected else Return (Ok collected)
              else if more then get_blocks_loop fuel' end_offset readahead cursor' remaining collected
              else
                let! loaded := loaded_end in
                if match end_offset with Some e => loaded <? e | None => false end then Return (Err SE_Unexpected)
                else get_blocks_loop fuel' end_offset readahead cursor' remaining collected
          end
      end
  end.

Definition get_blocks (fuel : nat) (start_offset : Z) (end_offset : option Z) (max_bytes : Z) (readahead : bool)
  : task (result StreamError (list BlockRead)) :=
  get_blocks_loop fuel end_offset readahead start_offset (Z.min max_bytes I64_MAX) [].

(** ** read *)

(** Waits for every block of the batch, in order. *)
Fixpoint wait_all (reads : list BlockRead) : task (result StreamError unit) :=
  match reads with
  | [] => Return (Ok tt)
  | read :: rest =>
      let! res := slice_when (LoadOver (br_handle read)) (λ w,
        let* b := bc_heap (w_cache w) !! br_handle read in
        let* res := wait_load b in Some (w, res)) in
      match res with
      | Err e => Return (Err e)
      | Ok _ => wait_all rest
      end
  end.

(** The records of a batch: [Ok (records, next_start, remaining, fulfilled)]. *)
Fixpoint extract (end_offset : Z) (reads : list BlockRead) (records : list StreamRecordBatch) (next_start remaining : Z) (heap : list (CacheBlock FreeListener))
  : option (result StreamError (list StreamRecordBatch * Z * Z * bool)) :=
  match reads with
  | [] => Some (Ok (records, next_start, remaining, false))
  | read :: rest =>
      let index := br_index read in
      if (next_start <? bi_start_offset index) || (bi_end_offset index <=? next_start) then Some (Err SE_Unexpected)
      else
        let next_end := Z.min end_offset (bi_end_offset index) in
        let* b := heap !! br_handle read in
        let* new_records := get_records next_start next_end remaining b in
        let remaining := remaining - foldr (λ r acc, size r + acc) 0 new_records in
        let records := records ++ new_records in
        if (end_offset <=? next_end) || (remaining <=? 0) then Some (Ok (records, next_end, remaining, true))
        else extract end_offset rest records next_end remaining heap
  end.

(** The loop of [read0]; a round that does not return advances [next_start]. *)
Fixpoint read0_loop (fuel blocks_fuel : nat) (end_offset : Z) (records : list StreamRecordBatch) (access : CacheAccessType) (next_start remaining : Z)
  : task (result StreamError ReadDataBlock) :=
  match fuel with
  | O => stuck NoWait
  | Datatypes.S fuel' =>
      let! reads := get_blocks blocks_fuel next_start (Some end_offset) (Z.max remaining 0) false in
      match reads with
      | Err e => Return (Err e)
      | Ok [] => Return (Err SE_Unexpected)
      | Ok reads =>
          let access := if existsb (λ b, negb (br_was_loaded b)) reads then BlockCacheMiss else access in
          let! waited := wait_all reads in
          match waited with
          | Err e => Return (Err e)
          | Ok _ =>
              let! out := slice (λ w,
                let* w := attach_all reads w in
                let* out := extract end_offset reads records next_start remaining (bc_heap (w_cache w)) in
                Some (w, out)) in
              match out with
              | Err e => Return (Err e)
              | Ok (records, next', remaining, fulfilled) =>
                  if fulfilled then Return (Ok (mkRead records access))
                  else if next' =? next_start then Return (Err SE_Unexpected)
                  else read0_loop fuel' blocks_fuel end_offset records access next' remaining
              end
          end
      end
  end.

(** Both loops move an offset towards the end of the range. *)
Definition read_fuel (start_offset end_offset : Z) : nat := Datatypes.S (Z.to_nat (end_offset - start_offset)).

Definition read0 (start_offset end_offset max_bytes : Z) : task (result StreamError ReadDataBlock) :=
  let fuel := read_fuel start_offset end_offset in
  read0_loop fuel (Datatypes.S fuel) end_offset [] BlockCacheHit start_offset (Z.min max_bytes I64_MAX).

(** The slots before the next offset leave the window; while a read is under way only it
    moves that offset. *)
Definition after_read (result : ReadDataBlock) : task unit :=
  do! slice (λ w,
    Some (match last (rd_records result) with Some r' => with_readers (alter (set_next_read (last_offset r')) r) w | None => w end, tt)) then
  slice (λ w,
    let* x := w_readers w !! r in
    let s := rx_state x in
    let passed := take_while (λ p, bi_end_offset (bs_index p.2) <=? rx_next_read_offset x) (entries (rs_blocks s)) in
    let* c := retire_slots passed.*2 (w_cache w) in
    let w := with_readers (alter (with_state (with_blocks (foldr (λ p m, delete p.1 m) (rs_blocks s) passed))) r) (with_cache c w) in
    Some (spawn (SpawnReadahead r (match rd_cache_access result with BlockCacheMiss => true | _ => false end)) w, tt)).

Definition is_recoverable (e : StreamError) : bool :=
  match e with
  | SE_ObjectNotExist _ | SE_BlockNotContinuous => true
  | SE_Object e => is_not_found e
  | _ => false
  end.

Fixpoint read_with_retries (left_retries : nat) (start_offset end_offset max_bytes : Z) : task (result StreamError ReadDataBlock) :=
  let! res := read0 start_offset end_offset max_bytes in
  match res with
  | Ok result => do! after_read result then Return (Ok result)
  | Err e =>
      match left_retries with
      | Datatypes.S left' =>
          if is_recoverable e then do! reset_blocks then read_with_retries left' start_offset end_offset max_bytes
          else Return (Err e)
      | O => Return (Err e)
      end
  end.

Definition reader_read (start_offset end_offset max_bytes : Z) : task (result StreamError ReadDataBlock) :=
  let! ok := slice (λ w,
    let* x := w_readers w !! r in
    if negb (start_offset =? rx_next_read_offset x) then Some (w, false)
    else if rx_reading x then Some (w, false)
    else Some (with_readers (alter (λ x, set_access (w_now w) (set_reading true x)) r) w, true)) in
  if ok then
    let! res := read_with_retries 2 start_offset end_offset max_bytes in
    do! slice (λ w, Some (with_readers (alter (set_reading false) r) w, tt)) then
    Return res
  else Return (Err SE_Unexpected).

(** ** Readahead *)

(** The first slice of [try_readahead]: what to read ahead, if anything. *)
Definition plan_readahead (max_readahead_size now next_read_offset available : Z) (cache_miss : bool) (ra : ReadaheadState)
  : ReadaheadState * option (Z * Z) :=
  if sat_sub now (ra_reset_ts_ms ra) <? READAHEAD_RESET_COLD_DOWN_MS then (ra, None)
  else
    let misses := u64 (ra_cache_miss_count ra + (if cache_miss then 1 else 0)) in
    if ra_inflight ra then (mkReadahead (ra_next_offset ra) (ra_next_size ra) (ra_mark_offset ra) (ra_reset_ts_ms ra) (ra_require_reset ra) true misses, None)
    else
      let next_size := Z.min (u64 (ra_next_size ra + u64 (misses * READAHEAD_SIZE_UNIT))) max_readahead_size in
      let '(next_offset, next_size, mark_offset) :=
        if ra_require_reset ra then (0, READAHEAD_SIZE_UNIT, 0) else (ra_next_offset ra, next_size, ra_mark_offset ra) in
      let ra' next_offset mark_offset inflight := mkReadahead next_offset next_size mark_offset (ra_reset_ts_ms ra) false inflight 0 in
      if negb (next_offset <=? next_read_offset) && (next_read_offset <=? mark_offset) then (ra' next_offset mark_offset false, None)
      else
        let next_offset := if next_offset <=? next_read_offset then next_read_offset else next_offset in
        if available <? i64 (i64 next_size + READAHEAD_AVAILABLE_BYTES_THRESHOLD) then (ra' next_offset mark_offset false, None)
        else (ra' next_offset next_offset true, Some (next_offset, next_size)).

Definition try_readahead (fuel : nat) (max_readahead_size : Z) (cache_miss : bool) : task unit :=
  let! plan := slice (λ w,
    let* x := w_readers w !! r in
    let '(ra, plan) := plan_readahead max_readahead_size (w_now w) (rx_next_read_offset x) (DataBlockCache.available (w_cache w)) cache_miss (rs_readahead (rx_state x)) in
    Some (with_readers (alter (with_state (with_readahead (λ _, ra))) r) w, plan)) in
  match plan with
  | None => Return tt
  | Some (offset, size) =>
      let! result := get_blocks fuel offset None size true in
      slice (λ w,
        let blocks := match result with Ok blocks => blocks | Err _ => [] end in
        let w := foldl (λ w b, spawn (SpawnAttach r (br_index b) (br_handle b)) w) w blocks in
        Some (with_readers (alter (with_state (with_readahead (λ ra,
          mkReadahead (match last blocks with Some b => bi_end_offset (br_index b) | None => ra_next_offset ra end) (ra_next_size ra)
            (ra_mark_offset ra) (ra_reset_ts_ms ra) (ra_require_reset ra) false (ra_cache_miss_count ra)))) r) w, tt))
  end.

(** The task spawned per block of a readahead. *)
Definition attach_loaded (index : DataBlockIndex) (handle : nat) : task unit :=
  let! res := slice_when (LoadOver handle) (λ w,
    let* b := bc_heap (w_cache w) !! handle in
    let* res := wait_load b in Some (w, res)) in
  match res with
  | Ok _ => slice (λ w, let* w := attach_data index handle w in Some (w, tt))
  | Err _ => Return tt
  end.
End Reader.

(** ** StreamReaders *)

Definition registry_shard (stream_id : Z) (w : World) : nat := Z.to_nat (stream_id mod Z.of_nat (length (w_registry w))).

(** [take_expired]: the idle readers leave the shard. *)
Definition is_idle (now expired_ms : Z) (readers : list StreamReader) (r : nat) : bool :=
  match readers !! r with Some x => u64 (rx_last_access_ms x + expired_ms) <? now | None => false end.
Definition take_expired (w : World) (sh : RegistryShard) : RegistryShard * list nat :=
  let idle r := is_idle (w_now w) (w_expired_ms w) (w_readers w) r in
  (mkRegistryShard (filter (λ e, idle e.2 = false) (rg_readers sh)) (rg_last_expired_check_ms sh),
   (filter (λ e, idle e.2 = true) (map_to_list (rg_readers sh))).*2).

Fixpoint close_all (readers : list nat) : task unit :=
  match readers with
  | [] => Return tt
  | r :: rest => do! reader_close r then close_all rest
  end.

(** The sweep of one shard; [cleanup_all_expired] sweeps them in turn. *)
Fixpoint cleanup_shards (shards : list nat) : task unit :=
  match shards with
  | [] => Return tt
  | i :: rest =>
      let! expired := slice (λ w,
        let* sh := w_registry w !! i in
        let '(sh, expired) := take_expired w sh in
        Some (with_registry (<[i := sh]>) w, expired)) in
      do! close_all expired then cleanup_shards rest
  end.
Definition cleanup_all_expired (w : World) : task unit := cleanup_shards (seq 0 (length (w_registry w))).

(** The reader that stands at the offset leaves the registry; a new one when there is none. *)
Definition checkout (stream_id start_offset : Z) (w : World) : option (World * (nat * list nat)) :=
  let i := registry_shard stream_id w in
  let* sh := w_registry w !! i in
  let '(sh, expired) :=
    if u64 (rg_last_expired_check_ms sh + w_check_interval_ms w) <? w_now w
    then take_expired w (mkRegistryShard (rg_readers sh) (w_now w)) else (sh, []) in
  let set_shard sh := with_registry (<[i := sh]>) in
  match rg_readers sh !! (stream_id, start_offset) with
  | Some r =>
      Some (set_shard (mkRegistryShard (delete (stream_id, start_offset) (rg_readers sh)) (rg_last_expired_check_ms sh)) w, (r, expired))
  | None =>
      Some (set_shard sh (with_readers (λ l, l ++ [stream_reader_new (w_now w) stream_id start_offset]) w), (length (w_readers w), expired))
  end.

(** The reader comes back under its new offset; the one it displaces is closed. *)
Definition checkin (stream_id : Z) (r : nat) (w : World) : option (World * option nat) :=
  let i := registry_shard stream_id w in
  let* sh := w_registry w !! i in
  let* x := w_readers w !! r in
  let key := (stream_id, rx_next_read_offset x) in
  Some (with_registry (<[i := mkRegistryShard (<[key := r]> (rg_readers sh)) (rg_last_expired_check_ms sh)]>) w, rg_readers sh !! key).

(** [S3BlockCache::read]. *)
Definition readers_read (stream_id start_offset end_offset max_bytes : Z) : task (result StreamError ReadDataBlock) :=
  let! (r, expired) := slice (checkout stream_id start_offset) in
  do! close_all expired then
  let! result := reader_read r start_offset end_offset max_bytes in
  match result with
  | Ok _ =>
      let! displaced := slice (checkin stream_id r) in
      do! match displaced with Some old => reader_close old | None => Return tt end then
      Return result
  | Err _ => do! reader_close r then Return result
  end.
End World.
Arguments World : clear implicits.
