(* ===== verification/StreamReaderSound.v ===== *)
(** * What a cached read returns is right

    Under every interleaving of reads, readaheads, block loads, evictions and compactions,
    a read through the stream readers that succeeds returns exactly the records that
    [wanted] names. *)
From S2P Require Import Prelude Collections Codec ObjectStore ObjectFormat ObjectIO Metadata Tasks DataBlockCache DataBlockSafety Storage BlockCache StreamReader.

(** ** A block's share of the answer *)

Definition total_bytes (l : list StreamRecordBatch) : Z := foldr (λ r acc, size r + acc) 0 l.

(** From a record of the block on: what [get_records] takes is what [wanted] asks for. *)
Lemma take_block sid start e l2 rs z cur rem :
  record_chain sid (rs ++ l2) → (∀ r, r ∈ rs → start < last_offset r) → (∀ r, head rs = Some r → cur < last_offset r) → last rs = Some z →
  let out := records_between start (Z.min e (last_offset z)) rem rs in
  wanted e cur rem (rs ++ l2)
  = out ++ (if (e <=? last_offset z) || (rem - total_bytes out <=? 0) then [] else wanted e (last_offset z) (rem - total_bytes out) l2).
Proof.
  revert cur rem; induction rs as [|r rs IH]; intros cur rem Hc Hst Hcur Hz; [done|].
  pose proof (Hst r ltac:(left)) as Hs. specialize (Hcur r eq_refl). pose proof (rc_span _ _ Hc r ltac:(left)) as Hspan.
  assert (last_offset r ≤ last_offset z) as Hle.
  { rewrite last_cons in Hz. destruct (last rs) as [y|] eqn:Ey; [|injection Hz as ->; lia]. injection Hz as ->.
    apply last_Some_elem_of in Ey. pose proof (record_chain_after sid [] r (rs ++ l2) z Hc ltac:(apply elem_of_app; by left)).
    pose proof (rc_span _ _ Hc z ltac:(right; apply elem_of_app; by left)). lia. }
  cbn. replace (last_offset r <=? cur) with false by lia. destruct (e <=? base_offset r) eqn:Eb.
  { replace (base_offset r <? Z.min e (last_offset z)) with false by lia. cbn [andb]. replace (Z.min e (last_offset z) <=? base_offset r) with true by lia.
    cbn. replace (e <=? last_offset z) with true by lia. done. }
  replace (base_offset r <? Z.min e (last_offset z)) with true by lia. replace (start <? last_offset r) with true by lia. cbn [andb].
  replace (sat_sub rem (size r) =? 0) with (rem - size r <=? 0) by (unfold sat_sub; lia). destruct (rem - size r <=? 0) eqn:Er.
  { cbn. rewrite Z.add_0_r, Er, orb_true_r. done. }
  replace (sat_sub rem (size r)) with (rem - size r) by (unfold sat_sub; lia).
  set (out := records_between start (Z.min e (last_offset z)) (rem - size r) rs).
  change (r :: wanted e (last_offset r) (rem - size r) (rs ++ l2)
    = r :: out ++ (if (e <=? last_offset z) || (rem - (size r + total_bytes out) <=? 0) then [] else wanted e (last_offset z) (rem - (size r + total_bytes out)) l2)).
  f_equal. rewrite Z.sub_add_distr. destruct rs as [|r' rs].
  - injection Hz as <-. cbn in out. subst out. cbn [app total_bytes foldr]. rewrite Z.sub_0_r, Er, orb_false_r.
    destruct (e <=? last_offset r) eqn:Ee; [|done]. apply wanted_ended, Forall_forall. intros x Hx.
    pose proof (record_chain_after sid [] r l2 x Hc Hx). lia.
  - apply IH; [by eapply record_chain_tail|intros y Hy; apply Hst; by right| |by rewrite last_cons_cons in Hz].
    intros y [= <-]. pose proof (record_chain_after sid [] r (r' :: rs ++ l2) r' Hc ltac:(left)). pose proof (rc_span _ _ Hc r' ltac:(right; left)). lia.
Qed.

Lemma block_share sid G l1 rs l2 a z start e rem :
  record_chain sid G → G = l1 ++ rs ++ l2 → head rs = Some a → last rs = Some z → base_offset a ≤ start < last_offset z → start < e →
  let out := records_between start (Z.min e (last_offset z)) rem rs in
  wanted e start rem G
  = out ++ (if (e <=? last_offset z) || (rem - total_bytes out <=? 0) then [] else wanted e (last_offset z) (rem - total_bytes out) G).
Proof.
  intros Hc EG Ha Hz Hin He.
  assert (∀ x, x ∈ l1 → last_offset x ≤ start) as Hl1.
  { intros x Hx. destruct rs as [|a' rs]; [done|]. injection Ha as ->. rewrite EG in Hc. pose proof (record_chain_before sid l1 a (rs ++ l2) x Hc Hx). lia. }
  assert (record_chain sid (rs ++ l2)) as Hc2 by (rewrite EG in Hc; clear -Hc; induction l1 as [|x l1 IH]; [done|]; apply IH; by eapply record_chain_tail).
  assert (∀ x, x ∈ rs → last_offset x ≤ last_offset z) as Hrs.
  { intros x Hx. apply last_Some in Hz as [k ->]. apply elem_of_app in Hx as [Hx| ->%list_elem_of_singleton]; [|lia]. rewrite <- app_assoc in Hc2.
    pose proof (record_chain_before sid k z l2 x Hc2 Hx). pose proof (rc_span _ _ Hc2 z ltac:(apply elem_of_app; right; left)). lia. }
  assert (∀ rem', wanted e (last_offset z) rem' G = wanted e (last_offset z) rem' l2) as Hend.
  { intros rem'. rewrite EG, app_assoc. apply wanted_skip, Forall_forall. intros x [Hx|Hx]%elem_of_app; [specialize (Hl1 x Hx); lia|by apply Hrs]. }
  cbn zeta. rewrite Hend. rewrite EG, wanted_skip by (by apply Forall_forall). clear EG Hl1 Hend Ha.
  induction rs as [|r rs IH]; [done|]. destruct (decide (last_offset r ≤ start)) as [Hle|Hgt].
  - cbn. replace (last_offset r <=? start) with true by lia. replace (start <? last_offset r) with false by lia. rewrite andb_false_r.
    pose proof (rc_span _ _ Hc2 r ltac:(left)). replace (Z.min e (last_offset z) <=? base_offset r) with false by lia.
    destruct rs as [|r' rs]; [injection Hz as <-; lia|]. apply IH; [by rewrite last_cons_cons in Hz|by eapply record_chain_tail|].
    intros x Hx. apply Hrs. by right.
  - apply (take_block sid); [done| |by intros ? [= <-]; lia|done]. intros x [->|Hx]%elem_of_cons; [lia|].
    pose proof (record_chain_after sid [] r (rs ++ l2) x Hc2 ltac:(apply elem_of_app; by left)). pose proof (rc_span _ _ Hc2 x ltac:(right; apply elem_of_app; by left)).
    pose proof (rc_span _ _ Hc2 r ltac:(left)). lia.
Qed.

(** ** The invariant of the world *)

Section Sound.
Context {S : Type} `{!ObjectStorage S} {M : Type} `{!ObjectLookup M}.
Context {C RC : Type} `{!LruCache C BlockKey unit} `{!LruCache RC Z nat} `{!LruCacheLaws RC Z nat}.
Abbreviation world := (World S M C RC).
Implicit Types w : world.

(** The stream and its records; what a read of a block of an object may return; the
    objects the metadata plane lists. *)
Context (sid : Z) (G : list StreamRecordBatch) (HG : record_chain sid G).
Context (content : Z → DataBlockIndex → result ObjectError bytes → Prop) (listed : S3ObjectMetadata → Prop) (max_size : Z).

Definition source (m : S3ObjectMetadata) : DataBlockIndex → result ObjectError bytes → Prop := content (om_object_id m).

(** The records fill the block's range. *)
Definition fills (e : DataBlockIndex) (rs : list StreamRecordBatch) : Prop :=
  ∃ l1 l2 a z, G = l1 ++ rs ++ l2 ∧ head rs = Some a ∧ last rs = Some z ∧ base_offset a = bi_start_offset e ∧ last_offset z = bi_end_offset e.

(** A block of the stream holds its records, whenever it can be read. *)
Definition sound_block (object_id : Z) (e : DataBlockIndex) : Prop :=
  bi_stream_id e = sid → ∀ data rs, content object_id e (Ok data) → decode_data_block data = Ok rs → fills e rs.
Definition sound_info (object_id : Z) (info : BasicObjectInfo) : Prop := ∀ e, e ∈ boi_index_block info → sound_block object_id e.

(** The window of a reader. *)
Definition sound_reader (x : StreamReader) : Prop :=
  ∀ k slot, rs_blocks (rx_state x) !! k = Some slot →
    bi_stream_id (bs_index slot) = rx_stream_id x ∧ sound_block (om_object_id (bs_metadata slot)) (bs_index slot).

Record sound w : Prop := {
  so_cache : cache_ok source max_size (w_cache w);
  so_open r o info : w_open w !! r = Some o → or_info o = Some info → sound_info (om_object_id (or_metadata o)) info;
  so_open_listed r o : w_open w !! r = Some o → listed (or_metadata o);
  so_lru id r : (id, r) ∈ lru_iter (w_open_lru w) → ∃ o, w_open w !! r = Some o ∧ om_object_id (or_metadata o) = id;
  so_readers r x : w_readers w !! r = Some x → sound_reader x;
  so_registry i sh s o r : w_registry w !! i = Some sh → rg_readers sh !! (s, o) = Some r → ∃ x, w_readers w !! r = Some x ∧ rx_stream_id x = s;
  so_store o info : listed o → basic_object_info (w_store w) (metadata_key o) (om_object_size o) = Ok info → sound_info (om_object_id o) info;
  so_meta s a b n objects : mgr_get_objects (w_meta w) s a b n = Some (Ok objects) → Forall listed objects;
  so_slots r x k slot : w_readers w !! r = Some x → rs_blocks (rx_state x) !! k = Some slot → listed (bs_metadata slot);
}.

(** Nothing that was handed out goes away. *)
Record grows w w' : Prop := {
  gr_heap : heap_grows (bc_heap (w_cache w)) (bc_heap (w_cache w'));
  gr_readers r x : w_readers w !! r = Some x → ∃ x', w_readers w' !! r = Some x' ∧ rx_stream_id x' = rx_stream_id x;
  gr_open r o : w_open w !! r = Some o → ∃ o', w_open w' !! r = Some o' ∧ or_metadata o' = or_metadata o;
}.
#[export] Instance grows_refl : Reflexive grows.
Proof. intros w. constructor; [done|eauto|eauto]. Qed.
#[export] Instance grows_trans : Transitive grows.
Proof.
  intros x y z [A1 A2 A3] [B1 B2 B3]. constructor.
  - by etransitivity.
  - intros r a Ha. destruct (A2 r a Ha) as (b & Hb & Eb). destruct (B2 r b Hb) as (c & Hc & Ec). exists c. split; [done|congruence].
  - intros r a Ha. destruct (A3 r a Ha) as (b & Hb & Eb). destruct (B3 r b Hb) as (c & Hc & Ec). exists c. split; [done|congruence].
Qed.

Definition evolves w w' : Prop := sound w' ∧ grows w w'.

(** What any task may do, and what each task does. *)
Definition keeps_sound w w' : Prop := sound w → evolves w w'.

Definition listed_slots (x : StreamReader) : Prop := ∀ k slot, rs_blocks (rx_state x) !! k = Some slot → listed (bs_metadata slot).

(** A reader changes. *)
Lemma evolves_reader w r f :
  sound w → (∀ x, w_readers w !! r = Some x → rx_stream_id (f x) = rx_stream_id x ∧ sound_reader (f x) ∧ listed_slots (f x)) →
  evolves w (with_readers (alter f r) w).
Proof.
  intros Hs Hf.
  assert (∀ y x, w_readers w !! y = Some x → ∃ x', alter f r (w_readers w) !! y = Some x' ∧ rx_stream_id x' = rx_stream_id x) as Hkeep.
  { intros y x Hx. destruct (decide (y = r)) as [->|]; [|exists x; by rewrite list_lookup_alter_ne].
    exists (f x). rewrite list_lookup_alter_eq, Hx. split; [done|by apply Hf]. }
  assert (∀ y x, alter f r (w_readers w) !! y = Some x → sound_reader x ∧ listed_slots x) as Hall.
  { intros y x. destruct (decide (y = r)) as [->|].
    - rewrite list_lookup_alter_eq. destruct (w_readers w !! r) as [x0|] eqn:E; [|done]. intros [= <-]. by apply Hf.
    - rewrite list_lookup_alter_ne by done. intros Hx. split; [by apply (so_readers _ Hs y)|]. intros k slot. by apply (so_slots _ Hs y). }
  split; [|constructor; cbn; [done|done|eauto]]. destruct Hs as [H1 H2 H3 H4 H5 H6 H7 H8 H9]. constructor; cbn; try done.
  - intros y x Hx. by apply (Hall y).
  - intros i sh s o y Hi Hy. destruct (H6 i sh s o y Hi Hy) as (x & Hx & Ex). destruct (Hkeep y x Hx) as (x' & Hx' & Ex'). exists x'. split; [done|congruence].
  - intros y x k slot Hx. by apply (Hall y).
Qed.

(** A reader's fields other than its stream and its slots change. *)
Lemma evolves_fields w r f :
  sound w → (∀ x, rx_stream_id (f x) = rx_stream_id x ∧ rs_blocks (rx_state (f x)) = rs_blocks (rx_state x)) → evolves w (with_readers (alter f r) w).
Proof.
  intros Hs Hf. apply evolves_reader; [done|]. intros x Hx. destruct (Hf x) as [E1 E2]. split; [done|].
  pose proof (so_readers _ Hs r x Hx) as Hr. unfold sound_reader, listed_slots. rewrite E1, E2. split; [done|]. intros k slot. by apply (so_slots _ Hs r).
Qed.

Lemma evolves_cache w c : sound w → cache_ok source max_size c → heap_grows (bc_heap (w_cache w)) (bc_heap c) → evolves w (with_cache c w).
Proof. intros [? ? ? ? ? ? ? ? ?] Hc Hg. split; constructor; cbn; by eauto. Qed.

Lemma evolves_trans w1 w2 w3 : evolves w1 w2 → evolves w2 w3 → evolves w1 w3.
Proof. intros [_ G1] [S2 G2]. split; [done|by etransitivity]. Qed.

Lemma evolves_refl w : sound w → evolves w w.
Proof. by split. Qed.

Lemma evolves_spawn w t : sound w → evolves w (spawn t w).
Proof. intros [? ? ? ? ? ? ? ? ?]. split; constructor; cbn; by eauto. Qed.

(** ** Open readers *)

Lemma evict_readers_subset fuel n readers (lru : RC) e : e ∈ lru_iter (K := Z) (V := nat) (evict_readers fuel n readers lru) → e ∈ lru_iter (K := Z) (V := nat) lru.
Proof.
  revert lru; induction fuel as [|fuel IH]; intros lru; cbn [evict_readers]; [done|]. destruct (1 <? _)%nat; [|done]. destruct (_ <=? n); [done|]. intros Hin%IH.
  rewrite lru_iter_pop_lru in Hin. destruct (last (lru_iter lru)) as [x|] eqn:El.
  - apply last_split in El. rewrite El. apply elem_of_app. by left.
  - apply last_None in El. rewrite El in *. done.
Qed.

Lemma readers_get_evolves w metadata w' r :
  sound w → listed metadata → readers_get metadata w = (w', r) →
  evolves w w' ∧ (∃ o, w_open w' !! r = Some o ∧ om_object_id (or_metadata o) = om_object_id metadata)
  ∧ w_readers w' = w_readers w ∧ w_cache w' = w_cache w ∧ w_now w' = w_now w.
Proof.
  intros Hs Hl. unfold readers_get. pose proof (lru_iter_get (C := RC) (V := nat) (om_object_id metadata) (w_open_lru w)) as Ei.
  pose proof (lru_get_found (C := RC) (V := nat) (om_object_id metadata) (w_open_lru w)) as Ef.
  destruct (lru_get (om_object_id metadata) (w_open_lru w)) as [lru found]. cbn in Ei, Ef.
  assert (∀ e, e ∈ lru_iter lru → e ∈ lru_iter (w_open_lru w)) as Hsub.
  { intros e He. rewrite Ei in He. destruct (find_key _ _) as [x|] eqn:E; [|done]. apply find_key_Some in E as [Hx _].
    apply elem_of_cons in He as [->|He]; [done|]. by apply list_elem_of_filter in He as [_ He]. }
  destruct found as [r0|].
  - intros [= <- <-]. destruct (find_key _ _) as [[k v]|] eqn:E; [|done]. injection Ef as ->. apply find_key_Some in E as [Hx Ek]. cbn in Ek. subst k.
    destruct (so_lru _ Hs _ _ Hx) as (o & Ho & Eo). split_and!; try done; [|by exists o].
    destruct Hs as [H1 H2 H3 H4 H5 H6 H7 H8 H9]. split; constructor; cbn; eauto; try done.
  - intros [= <- <-]. split_and!; try done; [|eexists; split; [apply list_lookup_middle; done|done]].
    destruct Hs as [H1 H2 H3 H4 H5 H6 H7 H8 H9]. split; constructor; cbn; eauto; try done.
    + intros r o info [[_ Hr]|[_ <-]]%lookup_snoc_Some; [by apply (H2 r)|done].
    + intros r o [[_ Hr]|[_ <-]]%lookup_snoc_Some; [by apply (H3 r)|done].
    + intros id r Hin%evict_readers_subset. rewrite lru_iter_push in Hin. apply elem_of_cons in Hin as [[= -> ->]|Hin].
      * eexists. split; [by apply list_lookup_middle|done].
      * apply list_elem_of_filter in Hin as [_ Hin]. destruct (H4 id r (Hsub _ Hin)) as (o & Ho & Eo). exists o. split; [by apply lookup_app_l_Some|done].
    + intros r o Ho. exists o. split; [by apply lookup_app_l_Some|done].
Qed.

Lemma find_loop_blocks es s e_ n m b acc e :
  e ∈ fi_blocks (find_loop es s e_ n m b acc) → e ∈ acc ∨ (e ∈ es ∧ bi_stream_id e = s).
Proof.
  revert n m b acc; induction es as [|x es IH]; intros n m b acc; cbn; [by left|].
  assert (∀ l, e ∈ l ++ [x] → bi_stream_id x = s → e ∈ l ∨ (e ∈ x :: es ∧ bi_stream_id e = s)) as Hx.
  { intros l [?| ->%list_elem_of_singleton]%elem_of_app Es; [by left|right; split; [left|done]]. }
  destruct (bi_stream_id x =? s) eqn:Es.
  - repeat case_match; cbn; try (by left); try (intros Hin; by apply Hx; [done|lia]);
      intros [Hin|[Hin He]]%IH; try (right; split; [by right|done]); try (by left); apply Hx; [done|lia|done|lia].
  - case_match; [by left|]. intros [Hin|[Hin He]]%IH; [by left|right; split; [by right|done]].
Qed.

Lemma find_blocks es s a b n e : e ∈ fi_blocks (find es s a b n) → e ∈ es ∧ bi_stream_id e = s.
Proof.
  unfold find. destruct (search es s a) as [i|i]; [|by intros ?%not_elem_of_nil].
  intros [?%not_elem_of_nil|[Hin He]]%find_loop_blocks; [done|]. split; [|done]. unfold dropZ in Hin. rewrite <- (take_drop (Z.to_nat i) es); apply elem_of_app; by right.
Qed.

Lemma open_find_evolves w r s a b n w' res :
  sound w → open_find r s a b n w = Some (w', res) →
  evolves w w' ∧ w_readers w' = w_readers w
  ∧ ∀ o found, w_open w !! r = Some o → res = Ok found → ∀ e, e ∈ fi_blocks found → bi_stream_id e = s ∧ sound_block (om_object_id (or_metadata o)) e.
Proof.
  intros Hs. unfold open_find. destruct (w_open w !! r) as [o|] eqn:Ho; [|done].
  assert (∀ info, sound_info (om_object_id (or_metadata o)) info → ∀ o' found, Some o = Some o' → Ok (E := ObjectError) (find (boi_index_block info) s a b n) = Ok found →
    ∀ e, e ∈ fi_blocks found → bi_stream_id e = s ∧ sound_block (om_object_id (or_metadata o')) e) as Hf.
  { intros info Hi o' found [= <-] [= <-] e [He Es]%find_blocks. split; [done|by apply Hi]. }
  destruct (or_info o) as [info|] eqn:Ei.
  { intros [= <- <-]. split_and!; [by apply evolves_refl|done|]. apply Hf. by eapply so_open. }
  destruct (basic_object_info _ _ _) as [info|e] eqn:Eb; [|intros [= <- <-]; split_and!; [by apply evolves_refl|done|done]].
  intros [= <- <-]. pose proof (so_store _ Hs _ _ (so_open_listed _ Hs _ _ Ho) Eb) as Hi. split_and!; [|done|by apply Hf].
  assert (∀ y o', alter (λ o, mkOpen (or_metadata o) (Some info)) r (w_open w) !! y = Some o' →
    (y = r ∧ o' = mkOpen (or_metadata o) (Some info)) ∨ (y ≠ r ∧ w_open w !! y = Some o')) as Hlook.
  { intros y o'. destruct (decide (y = r)) as [->|]; [|rewrite list_lookup_alter_ne by done; by right]. rewrite list_lookup_alter_eq, Ho. intros [= <-]. by left. }
  assert (∀ y o', w_open w !! y = Some o' → ∃ o2, alter (λ o, mkOpen (or_metadata o) (Some info)) r (w_open w) !! y = Some o2 ∧ or_metadata o2 = or_metadata o') as Hkeep.
  { intros y o' Hy. destruct (decide (y = r)) as [->|]; [|exists o'; by rewrite list_lookup_alter_ne]. eexists. rewrite list_lookup_alter_eq, Hy. done. }
  destruct Hs as [H1 H2 H3 H4 H5 H6 H7 H8 H9]. split; constructor; cbn; eauto; try done.
  - intros y o' info' [[-> ->]|[_ Hy]]%Hlook; [by intros [= <-]|by apply (H2 y)].
  - intros y o' [[-> ->]|[_ Hy]]%Hlook; [by apply (H3 r o)|by apply (H3 y)].
  - intros id y Hin. destruct (H4 id y Hin) as (o' & Hy & Eo). destruct (Hkeep y o' Hy) as (o2 & Hy2 & E2). exists o2. split; [done|by rewrite E2].
Qed.

(** ** Blocks handed to a read *)

Section Stream.
(** The stream that is read. *)
Context (st : Z).

Definition good_read w (b : BlockRead) : Prop :=
  bi_stream_id (br_index b) = st ∧ ∃ blk, bc_heap (w_cache w) !! br_handle b = Some blk ∧ cb_index blk = br_index b ∧ sound_block (cb_object_id blk) (br_index b).
Definition ready_read w (b : BlockRead) : Prop :=
  good_read w b ∧ ∃ blk, bc_heap (w_cache w) !! br_handle b = Some blk ∧ is_loaded blk = true.

Lemma good_read_grows w w' b : grows w w' → good_read w b → good_read w' b.
Proof.
  intros [Hh _ _] (Es & blk & Hb & Ei & Hsb). destruct (Hh _ _ Hb) as (blk' & Hb' & [[= Eo Ei'] _ _]). split; [done|].
  exists blk'. rewrite Eo, Ei'. done.
Qed.

Lemma ready_read_grows w w' b : grows w w' → ready_read w b → ready_read w' b.
Proof.
  intros Hg [Hgood (blk & Hb & Hl)]. split; [by eapply good_read_grows|]. destruct Hg as [Hh _ _]. destruct (Hh _ _ Hb) as (blk' & Hb' & [_ _ Hload]).
  exists blk'. split; [done|]. unfold is_loaded in *. destruct (cb_load blk) as [[u|]|] eqn:E; try done. by rewrite (proj1 (Hload _ eq_refl)).
Qed.

Lemma good_reads_grow w w' l : grows w w' → Forall (good_read w) l → Forall (good_read w') l.
Proof. intros Hg Hl. eapply Forall_impl; [exact Hl|]. intros b. by apply good_read_grows. Qed.

(** ** The window *)

Lemma get_block_handle_evolves w now ra m index c h :
  sound w → get_block_handle now ra m index (w_cache w) = Some (c, h) → evolves w (with_cache c w).
Proof. intros Hs E. apply evolves_cache; [done|eapply ok_get; [apply (so_cache _ Hs)|exact E]|by eapply get_block_handle_grows]. Qed.

Definition window_slot (slot : BlockSlot) : Prop :=
  listed (bs_metadata slot) ∧ bi_stream_id (bs_index slot) = st ∧ sound_block (om_object_id (bs_metadata slot)) (bs_index slot).

Lemma walk_slots_evolves cursor e ra slots first rem collected w w' out :
  sound w → Forall window_slot slots → Forall (good_read w) collected →
  walk_slots cursor e ra slots first rem collected w = Some (w', out) →
  evolves w w' ∧ w_readers w' = w_readers w ∧ Forall (good_read w') out.2.
Proof.
  revert first rem collected w; induction slots as [|slot slots IH]; intros first rem collected w Hs Hw Hc; cbn.
  { intros [= <- <-]. split_and!; [by apply evolves_refl|done|done]. }
  apply Forall_cons in Hw as [(Hl & Est & Hsb) Hw].
  destruct (readers_get (bs_metadata slot) w) as [w1 rd] eqn:Er.
  destruct (readers_get_evolves w _ w1 rd Hs Hl Er) as (Hev1 & (o & Ho & Eo) & Erd & Ec & En). rewrite Ho.
  destruct (get_block_handle _ _ _ _ _) as [[c h]|] eqn:Eg; [|done].
  pose proof (get_block_handle_evolves w1 _ _ _ _ c h (proj1 Hev1) Eg) as Hev2.
  destruct (get_block_handle_key source max_size _ _ _ _ _ _ _ (so_cache _ (proj1 Hev1)) Eg) as (b & Hb & [= Eko Eki]). rewrite Hb.
  pose proof (evolves_trans _ _ _ Hev1 Hev2) as Hev. set (w2 := with_cache c w1) in *.
  assert (Forall (good_read w2) (collected ++ [mkBlockRead (bs_index slot) h (is_loaded b)])) as Hc2.
  { apply Forall_app. split; [by eapply good_reads_grow; [apply Hev|]|]. apply Forall_singleton. split; [done|]. exists b. split; [done|].
    split; [done|]. by rewrite Eko, Eo. }
  destruct (_ || _).
  - intros [= <- <-]. split_and!; [done|by rewrite <- Erd|done].
  - intros Hrec. destruct (IH _ _ _ _ (proj1 Hev) Hw Hc2 Hrec) as (Hev3 & Erd3 & Hout). split_and!; [by eapply evolves_trans|by rewrite Erd3, <- Erd|done].
Qed.

Lemma window_slots w r x : sound w → w_readers w !! r = Some x → rx_stream_id x = st → ∀ k slot, rs_blocks (rx_state x) !! k = Some slot → window_slot slot.
Proof.
  intros Hs Hx Ex k slot Hk. destruct (so_readers _ Hs r x Hx k slot Hk) as [E1 E2]. split_and!; [by eapply so_slots|congruence|done].
Qed.

(** The reader of the stream under way. *)
Definition stands w r : Prop := ∃ x, w_readers w !! r = Some x ∧ rx_stream_id x = st.

Lemma stands_grows w w' r : grows w w' → stands w r → stands w' r.
Proof. intros [_ Hr _] (x & Hx & Ex). destruct (Hr r x Hx) as (x' & Hx' & Ex'). exists x'. split; [done|congruence]. Qed.

Lemma walk_window_evolves r cursor e rem ra collected w w' res :
  sound w → stands w r → Forall (good_read w) collected → walk_window r cursor e rem ra collected w = Some (w', res) →
  evolves w w' ∧ ∀ o rem' out, res = Ok (o, rem', out) → Forall (good_read w') out.
Proof.
  intros Hs (x & Hx & Ex) Hc. unfold walk_window. rewrite Hx. destruct (floor_entry _ _) as [[fl ?]|].
  - case_match; [intros [= <- <-]; split; [by apply evolves_refl|by intros ? ? ? [= <- <- <-]]|].
    destruct (walk_slots _ _ _ _ _ _ _ _) as [[w1 out]|] eqn:Ew; [|done]. intros [= <- <-].
    eapply walk_slots_evolves in Ew as (Hev & _ & Hout); [|done| |done].
    2: { apply Forall_fmap, Forall_forall. intros [k slot] [_ Hk]%list_elem_of_filter. apply elem_of_entries in Hk. by eapply window_slots. }
    split; [done|]. by intros ? ? ? [= ->].
  - repeat case_match; intros [= <- <-]; (split; [by apply evolves_refl|]); by intros ? ? ? [= <- <- <-].
Qed.

Lemma put_blocks_sound n m blocks next s s' res :
  put_blocks n m blocks next s = (s', res) → listed m → (∀ e, e ∈ blocks → bi_stream_id e = st ∧ sound_block (om_object_id m) e) →
  (∀ k slot, rs_blocks s !! k = Some slot → window_slot slot) → ∀ k slot, rs_blocks s' !! k = Some slot → window_slot slot.
Proof.
  intros E Hm. revert next s E; induction blocks as [|e blocks IH]; intros next s; cbn; [by intros [= <- <-]|].
  unfold put_block. intros E He Hs. destruct (match rs_last_block s with Some _ => _ | None => _ end); [|by injection E as <- <-].
  eapply IH; [exact E|intros x Hx; apply He; by right|]. cbn. intros k slot. rewrite lookup_insert_Some. intros [[_ <-]|[_ Hk]]; [|by apply (Hs k)].
  destruct (He e ltac:(left)) as [E1 E2]. done.
Qed.

(** The window of a reader of another stream keeps its listed objects. *)
Lemma put_blocks_listed n m blocks next s s' res :
  put_blocks n m blocks next s = (s', res) → listed m → (∀ k slot, rs_blocks s !! k = Some slot → listed (bs_metadata slot)) →
  ∀ k slot, rs_blocks s' !! k = Some slot → listed (bs_metadata slot).
Proof.
  intros E Hm. revert next s E; induction blocks as [|e blocks IH]; intros next s; cbn; [by intros [= <- <-]|].
  unfold put_block. intros E Hs. destruct (match rs_last_block s with Some _ => _ | None => _ end); [|by injection E as <- <-].
  eapply IH; [exact E|]. cbn. intros k slot. rewrite lookup_insert_Some. intros [[_ <-]|[_ Hk]]; [done|by apply (Hs k)].
Qed.

(** The blocks an object's index names enter the window. *)
Lemma put_blocks_evolves w r x n m blocks next s res :
  sound w → w_readers w !! r = Some x → rx_stream_id x = st → listed m → (∀ e, e ∈ blocks → bi_stream_id e = st ∧ sound_block (om_object_id m) e) →
  put_blocks n m blocks next (rx_state x) = (s, res) → evolves w (with_readers (alter (with_state (λ _, s)) r) w).
Proof.
  intros Hs Hx Ex Hm Hfound Ep. apply evolves_reader; [done|]. intros x' Hx'. rewrite Hx in Hx'. injection Hx' as <-. split_and!; [done|..]; intros k slot Hk; cbn in Hk |- *.
  - destruct (put_blocks_sound _ _ _ _ _ _ _ Ep Hm Hfound) with (k := k) (slot := slot) as (_ & ? & ?); [|done|by rewrite Ex].
    intros k' slot' Hk'. by eapply window_slots.
  - eapply put_blocks_listed; [exact Ep|done| |exact Hk]. intros k' slot' Hk'. by eapply so_slots.
Qed.

(** ** Attaching and retiring *)

Definition cache_evolves (c c' : BlocksCache C FreeListener) : Prop := cache_ok source max_size c' ∧ heap_grows (bc_heap c) (bc_heap c').

Lemma cache_evolves_trans c1 c2 c3 : cache_evolves c1 c2 → cache_evolves c2 c3 → cache_evolves c1 c3.
Proof. intros [_ G1] [H2 G2]. split; [done|by etransitivity]. Qed.

(** A step of the cache that reads nothing. *)
Lemma cache_evolves_step e c c' :
  cache_ok source max_size c → honest source e c → cache_step e c = Some c' → cache_evolves c c'.
Proof. intros Hc Hh E. split; [by eapply cache_step_ok|by eapply cache_step_grows]. Qed.

Lemma retire_slot_evolves slot c c' : cache_ok source max_size c → retire_slot slot c = Some c' → cache_evolves c c'.
Proof.
  intros Hc. unfold retire_slot.
  destruct (match bs_data slot with Some h => mark_read h c | None => Some c end) as [c1|] eqn:E; [|done]. intros [= <-].
  assert (cache_evolves c c1) as H1.
  { destruct (bs_data slot) as [h|]; [|by injection E as <-]. by apply (cache_evolves_step (CacheMarkRead h)). }
  destruct (bs_free_listener slot) as [l|]; [|done]. eapply cache_evolves_trans; [exact H1|].
  by apply (cache_evolves_step (CacheUnlisten l)); [apply H1|..].
Qed.

Lemma retire_slots_evolves slots c c' : cache_ok source max_size c → retire_slots slots c = Some c' → cache_evolves c c'.
Proof.
  revert c; induction slots as [|slot slots IH]; intros c Hc; cbn; [by intros [= <-]|].
  destruct (retire_slot slot c) as [c1|] eqn:E; [|done]. intros Hr. pose proof (retire_slot_evolves slot c c1 Hc E) as H1.
  eapply cache_evolves_trans; [exact H1|]. apply IH; [apply H1|done].
Qed.

Lemma attach_cache_evolves c now h l listener c' res :
  cache_ok source max_size c →
  register_free_listener h l (with_heap (alter (mark_unread now) h) (match listener with Some x => close_listener x c | None => c end)) = (c', res) →
  cache_evolves c c'.
Proof.
  intros Hc E.
  assert (cache_evolves c (match listener with Some x => close_listener x c | None => c end)) as H1.
  { destruct listener as [x|]; [|by split]. by apply (cache_evolves_step (CacheUnlisten x)). }
  eapply cache_evolves_trans; [exact H1|].
  pose proof (cache_evolves_step (CacheMarkUnread now h) _ _ (proj1 H1) I eq_refl) as H2. eapply cache_evolves_trans; [exact H2|].
  apply (cache_evolves_step (CacheListen h l)); [apply H2|done|]. cbn. by rewrite E.
Qed.

(** A reader and the cache change together. *)
Lemma evolves_reader_cache w r f c :
  sound w → cache_evolves (w_cache w) c →
  (∀ x, w_readers w !! r = Some x → rx_stream_id (f x) = rx_stream_id x ∧ sound_reader (f x) ∧ listed_slots (f x)) →
  evolves w (with_readers (alter f r) (with_cache c w)).
Proof.
  intros Hs [Hc Hg] Hf. pose proof (evolves_cache w c Hs Hc Hg) as H1. eapply evolves_trans; [exact H1|]. by apply evolves_reader; [apply H1|].
Qed.

(** Fewer slots are still sound. *)
Lemma fewer_slots w r x f :
  sound w → w_readers w !! r = Some x → rx_stream_id (f x) = rx_stream_id x → rs_blocks (rx_state (f x)) ⊆ rs_blocks (rx_state x) →
  rx_stream_id (f x) = rx_stream_id x ∧ sound_reader (f x) ∧ listed_slots (f x).
Proof.
  intros Hs Hx E Hsub. split_and!; [done|..].
  - intros k slot Hk. rewrite E. eapply so_readers; [done|exact Hx|]. by eapply lookup_weaken.
  - intros k slot Hk. eapply so_slots; [done|exact Hx|]. by eapply lookup_weaken.
Qed.

Lemma attach_data_evolves r index h w w' : sound w → attach_data r index h w = Some w' → evolves w w'.
Proof.
  intros Hs. unfold attach_data. destruct (w_readers w !! r) as [x|] eqn:Hx; [|done].
  destruct (rs_blocks (rx_state x) !! bi_start_offset index) as [slot|] eqn:Hk; [|by intros [= <-]; apply evolves_refl].
  case_bool_decide as Ei; cbn [negb]; [|by intros [= <-]; apply evolves_refl]. case_bool_decide; [by intros [= <-]; apply evolves_refl|].
  destruct (register_free_listener _ _ _) as [c l] eqn:E. intros [= <-]. apply attach_cache_evolves in E; [|apply (so_cache _ Hs)].
  apply evolves_reader_cache; [done|done|]. intros x' Hx'. rewrite Hx in Hx'. injection Hx' as <-. split_and!; [done|..].
  - intros k s'. cbn. rewrite lookup_insert_Some. intros [[_ <-]|[_ Hs']]; [exact (so_readers _ Hs r x Hx _ slot Hk)|exact (so_readers _ Hs r x Hx k s' Hs')].
  - intros k s'. cbn. rewrite lookup_insert_Some. intros [[_ <-]|[_ Hs']]; [exact (so_slots _ Hs r x _ slot Hx Hk)|exact (so_slots _ Hs r x k s' Hx Hs')].
Qed.

Lemma attach_all_evolves r reads w w' : sound w → attach_all r reads w = Some w' → evolves w w'.
Proof.
  revert w; induction reads as [|b reads IH]; intros w Hs; cbn; [by intros [= <-]; apply evolves_refl|].
  destruct (attach_data r _ _ w) as [w1|] eqn:E; [|done]. intros Ha. pose proof (attach_data_evolves _ _ _ _ _ Hs E) as H1.
  eapply evolves_trans; [exact H1|]. by apply IH; [apply H1|].
Qed.

(** ** Extraction *)

Lemma extract_next e reads records next rem (heap : list (CacheBlock FreeListener)) records' next' rem' :
  next < e → extract e reads records next rem heap = Some (Ok (records', next', rem', false)) → next' < e.
Proof.
  revert records next rem; induction reads as [|b reads IH]; intros records next rem Hlt; cbn; [by intros [= <- <- <-]|].
  destruct (_ || _); [done|]. destruct (heap !! br_handle b) as [blk|]; [|done]. destruct (get_records _ _ _ _) as [new|]; [|done].
  match goal with |- context [if ?c then _ else _] => destruct c eqn:E end; [done|]. apply IH. lia.
Qed.

Lemma extract_right w e reads records next rem out :
  st = sid → sound w → Forall (ready_read w) reads → next < e → extract e reads records next rem (bc_heap (w_cache w)) = Some (Ok out) →
  let '(records', next', rem', fulfilled) := out in
  records ++ wanted e next rem G = records' ++ (if (fulfilled : bool) then [] else wanted e next' rem' G).
Proof.
  intros Est Hs Hr. destruct out as [[[records' next'] rem'] ful]. revert records next rem; induction Hr as [|b reads [(Es & blk & Hb & Ei & Hsb) (blk' & Hb' & Hl)] Hr IH]; intros records next rem Hlt; cbn.
  { by intros [= <- <- <- <-]. }
  rewrite Hb in Hb'. injection Hb' as <-. destruct (_ || _) eqn:Erange; [done|]. rewrite Hb.
  destruct (bo_loaded _ _ (co_blocks _ _ _ (so_cache _ Hs) _ _ Hb) Hl) as (data & rs & Hsrc & Hdec & Hrs).
  assert (fills (br_index b) rs) as (l1 & l2 & a & z & EG & Ha & Hz & Ea & Ez).
  { apply (Hsb (eq_trans Es Est) data); [|done]. rewrite <- Ei. unfold source in Hsrc. by rewrite (bo_object _ _ (co_blocks _ _ _ (so_cache _ Hs) _ _ Hb)). }
  unfold get_records. rewrite Hrs.
  pose proof (block_share sid G l1 rs l2 a z next e rem HG EG Ha Hz ltac:(lia) Hlt) as Hshare. rewrite Ez in Hshare. cbn zeta in Hshare.
  set (new := records_between next (Z.min e (bi_end_offset (br_index b))) rem rs) in *. fold (total_bytes new).
  replace (e <=? Z.min e (bi_end_offset (br_index b))) with (e <=? bi_end_offset (br_index b)) by lia.
  destruct ((e <=? bi_end_offset (br_index b)) || (rem - total_bytes new <=? 0)) eqn:Edone.
  - intros [= <- <- <- <-]. by rewrite Hshare, app_assoc.
  - intros Hrec. apply IH in Hrec; [|lia].
    rewrite <- Hrec, Hshare, Z.min_r by lia. by rewrite app_assoc.
Qed.

(** ** Tasks *)

(** Every slice keeps the invariant, whatever runs in between; [R] holds of the result. *)
Definition ensures {A} (t : Task world Wait A) w (R : A → world → Prop) : Prop :=
  wp awaited (λ _ _, True) keeps_sound keeps_sound false t w (λ a w', sound w' ∧ grows w w' ∧ R a w').

Lemma ensures_return {A} (a : A) w (R : A → world → Prop) : sound w → R a w → ensures (Return a) w R.
Proof. by intros. Qed.

Lemma ensures_slice {X} q (f : world → option (world * X)) w (R : X → world → Prop) :
  sound w → (∀ w1 w2 x, sound w1 → grows w w1 → awaited q w1 = true → f w1 = Some (w2, x) → evolves w1 w2 ∧ (grows w w2 → R x w2)) →
  ensures (slice_when q f) w R.
Proof.
  intros Hs Hf. apply wp_slice; [done|]. intros w1 Hrel Hq. destruct (Hrel Hs) as [Hs1 Hg1]. destruct (f w1) as [[w2 x]|] eqn:E; [|done].
  destruct (Hf w1 w2 x Hs1 Hg1 Hq E) as [Hev HR]. split; [by intros _|]. destruct Hev as [Hs2 Hg2].
  assert (grows w w2) by (by etransitivity). split_and!; [done|done|by apply HR].
Qed.

Lemma ensures_bind {A B} (t : Task world Wait A) (g : A → Task world Wait B) w (P : A → world → Prop) (R : B → world → Prop) :
  ensures t w P → (∀ a w1, sound w1 → grows w w1 → P a w1 → ensures (g a) w1 (λ b w2, grows w w2 → R b w2)) → ensures (bind t g) w R.
Proof.
  intros Ht Hg. apply wp_bind. eapply wp_mono; [|exact Ht]. intros a w1 (Hs1 & Hg1 & HP).
  eapply wp_mono; [|exact (Hg a w1 Hs1 Hg1 HP)]. intros b w2 (Hs2 & Hg2 & HR). assert (grows w w2) by (by etransitivity). split_and!; auto.
Qed.

Lemma ensures_mono {A} (t : Task world Wait A) w (P R : A → world → Prop) : (∀ a w', grows w w' → P a w' → R a w') → ensures t w P → ensures t w R.
Proof. intros H. apply wp_mono. intros a w' (? & ? & ?). split_and!; auto. Qed.

Lemma ensures_stuck {A} w (R : A → world → Prop) : ensures (stuck NoWait) w R.
Proof. done. Qed.

(** A slice that only touches fields of a reader. *)
Lemma ensures_fields {X} r (f : world → StreamReader → StreamReader) (x : X) w (R : X → world → Prop) :
  sound w → (∀ w y, rx_stream_id (f w y) = rx_stream_id y ∧ rs_blocks (rx_state (f w y)) = rs_blocks (rx_state y)) →
  (∀ w', grows w w' → R x w') → ensures (slice (λ w, Some (with_readers (alter (f w) r) w, x))) w R.
Proof.
  intros Hs Hf HR. apply ensures_slice; [done|]. intros w1 w2 x' Hs1 Hg1 _ [= <- <-]. split; [|by auto]. by apply evolves_fields.
Qed.

Section Reader.
Context (r : nat).

Lemma loaded_end_ensures w : sound w → ensures (loaded_end r) w (λ _ _, True).
Proof.
  intros Hs. apply ensures_slice; [done|]. intros w1 w2 x Hs1 Hg1 _. destruct (w_readers w1 !! r); [|done]. intros [= <- <-]. split; [by apply evolves_refl|done].
Qed.

Lemma load_objects_ensures epoch objects next w :
  sound w → stands w r → Forall listed objects → ensures (load_objects r epoch objects next) w (λ _ _, True).
Proof.
  intros Hs Hst Hl. revert next w Hs Hst; induction Hl as [|m objects Hm Hl IH]; intros next w Hs Hst; cbn [load_objects]; [by apply ensures_return|].
  eapply (ensures_bind _ _ _ (λ res w1, ∀ found, res = Ok found → ∀ e, e ∈ fi_blocks found → bi_stream_id e = st ∧ sound_block (om_object_id m) e)).
  { apply ensures_slice; [done|]. intros w1 w2 res Hs1 Hg1 _. destruct (stands_grows _ _ _ Hg1 Hst) as (x & Hx & Ex). rewrite Hx.
    destruct (readers_get m w1) as [w1' rd] eqn:Er. destruct (readers_get_evolves w1 m w1' rd Hs1 Hm Er) as (Hev1 & (o & Ho & Eo) & _). intros Hf.
    destruct (open_find_evolves w1' rd _ _ _ _ w2 res (proj1 Hev1) Hf) as (Hev2 & _ & Hfound). split; [by eapply evolves_trans|].
    intros _ found Ef e He. destruct (Hfound o found Ho Ef e He) as [E1 E2]. rewrite Ex in E1. rewrite <- Eo. done. }
  intros res w1 Hs1 Hg1 Hfound. destruct res as [found|e]; [|by apply ensures_return]. specialize (Hfound found eq_refl).
  eapply (ensures_bind _ _ _ (λ _ _, True)).
  { apply ensures_slice; [done|]. intros w2 w3 res Hs2 Hg2 _. destruct (w_readers w2 !! r) as [x|] eqn:Hx; [|done].
    destruct (negb _); [intros [= <- <-]; split; [by apply evolves_refl|done]|].
    destruct (put_blocks _ _ _ _ _) as [s res'] eqn:Ep. intros [= <- <-]. split; [|done].
    destruct (stands_grows _ _ _ Hg2 (stands_grows _ _ _ Hg1 Hst)) as (x' & Hx' & Ex). rewrite Hx in Hx'. injection Hx' as <-. by eapply put_blocks_evolves. }
  intros next' w2 Hs2 Hg2 _. destruct next' as [[next'|e]|]; [|by apply ensures_return..]. eapply ensures_mono; [done|].
  apply IH; [done|]. eapply stands_grows; [exact Hg2|]. by eapply stands_grows.
Qed.

Lemma load_more_blocks_ensures ra e w : sound w → stands w r → ensures (load_more_blocks r ra e) w (λ _ _, True).
Proof.
  intros Hs Hst. unfold load_more_blocks. eapply ensures_bind; [by apply loaded_end_ensures|]. intros before w1 Hs1 Hg1 _.
  pose proof (stands_grows _ _ _ Hg1 Hst) as Hst1. eapply (ensures_bind _ _ _ (λ _ _, True)).
  - unfold load_more_blocks0. eapply (ensures_bind _ _ _ (λ _ _, True)).
    { apply ensures_slice; [done|]. intros w2 w3 [] Hs2 Hg2 _ [= <-]. split; [by apply evolves_fields|done]. }
    intros _ w2 Hs2 Hg2 _. eapply (ensures_bind _ _ _ (λ _ _, True)).
    { apply ensures_slice; [done|]. intros w3 w4 x Hs3 Hg3 _. destruct (w_readers w3 !! r); [|done]. destruct (match e with Some _ => _ | None => _ end); intros [= <- <-];
        (split; [by apply evolves_refl|done]). }
    intros next w3 Hs3 Hg3 _. pose proof (stands_grows _ _ _ Hg3 (stands_grows _ _ _ Hg2 Hst1)) as Hst3. eapply (ensures_bind _ _ _ (λ _ _, True)).
    { destruct next as [[epoch next]|]; [|by apply ensures_return]. eapply (ensures_bind _ _ _ (λ res _, ∀ objects, res = Ok objects → Forall listed objects)).
      { apply ensures_slice; [done|]. intros w4 w5 res Hs4 Hg4 _. destruct (w_readers w4 !! r); [|done]. destruct (mgr_get_objects _ _ _ _ _) as [objs|] eqn:Eo; [|done].
        intros [= <- <-]. split; [by apply evolves_refl|]. intros _ objects ->. by eapply so_meta. }
      intros [objects|err] w4 Hs4 Hg4 Hl; [|by apply ensures_return]. eapply ensures_mono; [done|]. apply load_objects_ensures; [done|by eapply stands_grows|by apply Hl]. }
    intros res w4 Hs4 Hg4 _. eapply (ensures_bind _ _ _ (λ _ _, True)).
    { apply ensures_slice; [done|]. intros w5 w6 [] Hs5 Hg5 _ [= <-]. split; [by apply evolves_fields|done]. }
    intros _ w5 Hs5 _ _. by apply ensures_return.
  - intros [res|err] w2 Hs2 Hg2 _; [|by apply ensures_return]. eapply ensures_bind; [by apply loaded_end_ensures|]. intros now w3 Hs3 _ _. by apply ensures_return.
Qed.

(** The blocks a read or a readahead gets. *)
Lemma get_blocks_ensures fuel e ra cursor rem collected w :
  sound w → stands w r → Forall (good_read w) collected →
  ensures (get_blocks_loop r fuel e ra cursor rem collected) w (λ res w', ∀ reads, res = Ok reads → Forall (good_read w') reads).
Proof.
  revert cursor rem collected w; induction fuel as [|fuel IH]; intros cursor rem collected w Hs Hst Hc; cbn [get_blocks_loop]; [apply ensures_stuck|].
  eapply (ensures_bind _ _ _ (λ res w1, ∀ o rem' out, res = Ok (o, rem', out) → Forall (good_read w1) out)).
  { apply ensures_slice; [done|]. intros w1 w2 res Hs1 Hg1 _ Ew.
    destruct (walk_window_evolves r _ _ _ _ _ w1 w2 res Hs1 (stands_grows _ _ _ Hg1 Hst) (good_reads_grow _ _ _ Hg1 Hc) Ew) as [Hev Hout]. split; [done|]. intros _. exact Hout. }
  intros res w1 Hs1 Hg1 Hout. pose proof (stands_grows _ _ _ Hg1 Hst) as Hst1.
  destruct res as [[[o rem'] out]|err]; [|by apply ensures_return]. specialize (Hout o rem' out eq_refl).
  assert (ensures (Return (Ok out) : Task world Wait (result StreamError (list BlockRead))) w1 (λ res w', grows w w' → ∀ reads, res = Ok reads → Forall (good_read w') reads)) as Hret
    by (apply ensures_return; [done|]; intros _ reads [= <-]; done).
  destruct o; [exact Hret| |exact Hret]. eapply ensures_bind; [by apply load_more_blocks_ensures|]. intros more w2 Hs2 Hg2 _.
  pose proof (good_reads_grow _ _ _ Hg2 Hout) as Hout2. pose proof (stands_grows _ _ _ Hg2 Hst1) as Hst2.
  assert (∀ w3 cur, sound w3 → grows w2 w3 → ensures (get_blocks_loop r fuel e ra cur rem' out) w3 (λ res w', grows w2 w' → grows w1 w' → grows w w' → ∀ reads, res = Ok reads → Forall (good_read w') reads)) as Hloop.
  { intros w3 cur Hs3 Hg3. eapply ensures_mono; [|apply IH; [done|by eapply stands_grows|by eapply good_reads_grow]]. auto. }
  destruct more as [more|err]; [|by apply ensures_return].
  assert (ensures (Return (Ok out) : Task world Wait (result StreamError (list BlockRead))) w2 (λ res w', grows w1 w' → grows w w' → ∀ reads, res = Ok reads → Forall (good_read w') reads)) as Hret2
    by (apply ensures_return; [done|]; intros _ _ reads [= <-]; done).
  destruct ra, more; [eapply ensures_mono; [|by apply Hloop]; auto|exact Hret2|eapply ensures_mono; [|by apply Hloop]; auto|].
  eapply ensures_bind; [by apply loaded_end_ensures|]. intros loaded w3 Hs3 Hg3 _.
  destruct (match e with Some _ => _ | None => _ end); [by apply ensures_return|]. eapply ensures_mono; [|by apply Hloop]. auto.
Qed.

Lemma wait_all_ensures reads w :
  sound w → Forall (good_read w) reads → ensures (wait_all reads) w (λ res w', res = Ok tt → Forall (ready_read w') reads).
Proof.
  intros Hs Hr. revert w Hs Hr; induction reads as [|b reads IH]; intros w Hs Hr; cbn [wait_all]; [by apply ensures_return|].
  apply Forall_cons in Hr as [Hb Hr]. eapply (ensures_bind _ _ _ (λ res w1, res = Ok tt → ready_read w1 b)).
  { apply ensures_slice; [done|]. intros w1 w2 res Hs1 Hg1 _. destruct (bc_heap (w_cache w1) !! br_handle b) as [blk|] eqn:Hblk; [|done].
    destruct (wait_load blk) as [res'|] eqn:El; [|done]. intros [= <- <-]. split; [by apply evolves_refl|]. intros Hg2 Eres.
    split; [by eapply good_read_grows|]. exists blk. split; [done|]. unfold wait_load in El. unfold is_loaded. destruct (cb_load blk) as [[]|]; congruence. }
  intros res w1 Hs1 Hg1 Hready. destruct res as [[]|e]; [|by apply ensures_return]. specialize (Hready eq_refl).
  eapply ensures_mono; [|apply IH; [done|by eapply good_reads_grow]]. intros res w2 Hg2 Hall _ Eres. constructor; [by eapply ready_read_grows|by apply Hall].
Qed.

(** A read that returns, returns what the reference names. *)
Lemma read0_loop_ensures fuel bf e records access next rem w :
  sound w → stands w r → next < e →
  ensures (read0_loop r fuel bf e records access next rem) w (λ res _, ∀ rd, st = sid → res = Ok rd → rd_records rd = records ++ wanted e next rem G).
Proof.
  revert records access next rem w; induction fuel as [|fuel IH]; intros records access next rem w Hs Hst Hlt; cbn [read0_loop]; [apply ensures_stuck|].
  eapply ensures_bind; [by apply get_blocks_ensures; [..|constructor]|]. intros reads w1 Hs1 Hg1 Hgood. pose proof (stands_grows _ _ _ Hg1 Hst) as Hst1.
  destruct reads as [[|b reads]|err]; [by apply ensures_return| |by apply ensures_return]. specialize (Hgood _ eq_refl).
  eapply ensures_bind; [by apply wait_all_ensures|]. intros waited w2 Hs2 Hg2 Hready. destruct waited as [[]|err]; [|by apply ensures_return].
  specialize (Hready eq_refl). eapply (ensures_bind _ _ _ (λ res _, ∀ records' next' rem' ful, res = Ok (records', next', rem', ful) → (ful = false → next' < e)
    ∧ (st = sid → records ++ wanted e next rem G = records' ++ (if (ful : bool) then [] else wanted e next' rem' G)))).
  { apply ensures_slice; [done|]. intros w3 w4 res Hs3 Hg3 _. destruct (attach_all r _ w3) as [w3'|] eqn:Ea; [|done].
    destruct (extract _ _ _ _ _ _) as [out|] eqn:Ee; [|done]. intros [= <- <-]. pose proof (attach_all_evolves r _ _ _ Hs3 Ea) as Hev. split; [done|].
    intros _ records' next' rem' ful ->. split; [intros ->; by eapply extract_next|]. intros Est.
    apply (extract_right w3' e _ records next rem _ Est (proj1 Hev)) in Ee; [exact Ee| |done].
    eapply Forall_impl; [exact Hready|]. intros x Hx. eapply ready_read_grows; [apply Hev|]. by eapply ready_read_grows. }
  intros out w3 Hs3 Hg3 Hout. destruct out as [[[[records' next'] rem'] ful]|err]; [|by apply ensures_return].
  destruct (Hout _ _ _ _ eq_refl) as [Hn Heq]. destruct ful.
  { apply ensures_return; [done|]. intros _ _ _ rd Est [= <-]. cbn. by rewrite (Heq Est), app_nil_r. }
  destruct (next' =? next); [by apply ensures_return|]. eapply ensures_mono; [|apply IH; [done| |by apply Hn]].
  - intros res w4 _ Hrd _ _ _ rd Est Erd. by rewrite (Heq Est), (Hrd rd Est Erd).
  - eapply stands_grows; [exact Hg3|]. by eapply stands_grows.
Qed.

Lemma values_elem {V} (m : gmap Z V) v : v ∈ values m → ∃ k, m !! k = Some v.
Proof. unfold values. intros ([k v'] & -> & Hk)%list_elem_of_fmap. exists k. by apply elem_of_entries. Qed.

(** Retiring slots while the window shrinks. *)
Lemma ensures_retire (sel : StreamReader → list BlockSlot) (f : StreamReader → StreamReader → StreamReader) (post : world → world) w :
  sound w → (∀ x, rx_stream_id (f x x) = rx_stream_id x ∧ rs_blocks (rx_state (f x x)) ⊆ rs_blocks (rx_state x)) →
  (∀ w, sound w → evolves w (post w)) →
  ensures (slice (λ w, let* x := w_readers w !! r in let* c := retire_slots (sel x) (w_cache w) in
                       Some (post (with_readers (alter (f x) r) (with_cache c w)), tt))) w (λ _ _, True).
Proof.
  intros Hs Hf Hp. apply ensures_slice; [done|]. intros w1 w2 [] Hs1 Hg1 _. destruct (w_readers w1 !! r) as [x|] eqn:Hx; [|done].
  destruct (retire_slots _ _) as [c|] eqn:Er; [|done]. intros [= <-]. split; [|done]. apply retire_slots_evolves in Er; [|apply (so_cache _ Hs1)].
  eapply evolves_trans; [|apply Hp]; [|eapply evolves_reader_cache; [done..|]].
  - apply evolves_reader_cache; [done|done|]. intros x' Hx'. rewrite Hx in Hx'. injection Hx' as <-. destruct (Hf x). by eapply (fewer_slots w1 r x).
  - intros x' Hx'. rewrite Hx in Hx'. injection Hx' as <-. destruct (Hf x). by eapply (fewer_slots w1 r x).
Qed.

Lemma reset_blocks_ensures w : sound w → ensures (reset_blocks r) w (λ _ _, True).
Proof.
  intros Hs. apply (ensures_retire (λ x, values (rs_blocks (rx_state x)))
    (λ _, with_state (λ s, mkReaderState ∅ None 0 (u64 (rs_blocks_epoch s + 1)) (rs_readahead s))) (λ w, w)); [done| |by intros; apply evolves_refl].
  intros x. split; [done|]. apply map_empty_subseteq.
Qed.

Lemma reader_close_ensures w : sound w → ensures (reader_close r) w (λ _ _, True).
Proof.
  intros Hs. eapply (ensures_bind _ _ _ (λ _ _, True)); [by apply (ensures_fields r (λ _, set_closed))|]. intros _ w1 Hs1 _ _.
  eapply ensures_mono; [done|]. apply (ensures_retire (λ x, values (rs_blocks (rx_state x))) (λ _, with_state (with_blocks ∅)) (λ w, w)); [done| |by intros; apply evolves_refl].
  intros x. split; [done|]. apply map_empty_subseteq.
Qed.

Lemma foldr_delete_subset {V} (l : list (Z * V)) (m : gmap Z V) : foldr (λ p m, delete p.1 m) m l ⊆ m.
Proof. induction l as [|p l IH]; cbn; [done|]. etransitivity; [apply delete_subseteq|done]. Qed.

Lemma after_read_ensures result w : sound w → ensures (after_read r result) w (λ _ _, True).
Proof.
  intros Hs. eapply (ensures_bind _ _ _ (λ _ _, True)).
  { apply ensures_slice; [done|]. intros w1 w2 [] Hs1 Hg1 _. destruct (last (rd_records result)); intros [= <-]; (split; [|done]); [by apply evolves_fields|by apply evolves_refl]. }
  intros _ w1 Hs1 _ _. eapply ensures_mono; [done|].
  apply (ensures_retire (λ x, (take_while (λ p, bi_end_offset (bs_index p.2) <=? rx_next_read_offset x) (entries (rs_blocks (rx_state x)))).*2)
    (λ x, with_state (with_blocks (foldr (λ p m, delete p.1 m) (rs_blocks (rx_state x)) (take_while (λ p, bi_end_offset (bs_index p.2) <=? rx_next_read_offset x) (entries (rs_blocks (rx_state x)))))))
    (spawn (SpawnReadahead r (match rd_cache_access result with BlockCacheMiss => true | _ => false end)))); [done| |by intros; apply evolves_spawn].
  intros x. split; [done|]. apply foldr_delete_subset.
Qed.

Definition right_read (start e max_bytes : Z) (res : result StreamError ReadDataBlock) : Prop :=
  ∀ rd, st = sid → res = Ok rd → rd_records rd = wanted e start (Z.min max_bytes I64_MAX) G.

Lemma read_with_retries_ensures n start e max_bytes w :
  sound w → stands w r → start < e → ensures (read_with_retries r n start e max_bytes) w (λ res _, right_read start e max_bytes res).
Proof.
  revert w; induction n as [|n IH]; intros w Hs Hst Hlt; cbn [read_with_retries];
    (eapply ensures_bind; [by apply (read0_loop_ensures _ _ e [] BlockCacheHit start (Z.min max_bytes I64_MAX))|]); intros res w1 Hs1 Hg1 Hr;
    (assert (∀ rd, res = Ok rd → ensures (bind (after_read r rd) (λ _, Return (Ok rd))) w1 (λ res _, right_read start e max_bytes res)) as Hok;
     [intros rd ->; eapply ensures_bind; [by apply after_read_ensures|]; intros _ w2 Hs2 _ _; apply ensures_return; [done|]; intros _ rd' Est [= <-]; by rewrite (Hr rd Est eq_refl)|]);
    destruct res as [rd|err]; try (eapply ensures_mono; [|by apply Hok]; auto); try (by apply ensures_return).
  destruct (is_recoverable err); [|by apply ensures_return]. eapply ensures_bind; [by apply reset_blocks_ensures|]. intros _ w2 Hs2 Hg2 _.
  eapply ensures_mono; [|apply IH; [done| |done]]; [by auto|]. eapply stands_grows; [exact Hg2|]. by eapply stands_grows.
Qed.

Lemma reader_read_ensures start e max_bytes w :
  sound w → stands w r → start < e → ensures (reader_read r start e max_bytes) w (λ res _, right_read start e max_bytes res).
Proof.
  intros Hs Hst Hlt. eapply (ensures_bind _ _ _ (λ _ _, True)).
  { apply ensures_slice; [done|]. intros w1 w2 ok Hs1 Hg1 _. destruct (w_readers w1 !! r); [|done]. repeat case_match; intros [= <- <-]; (split; [|done]);
      try (by apply evolves_refl). by apply evolves_fields. }
  intros ok w1 Hs1 Hg1 _. destruct ok; [|by apply ensures_return]. eapply ensures_bind; [apply read_with_retries_ensures; [done|by eapply stands_grows|done]|].
  intros res w2 Hs2 _ Hr. eapply (ensures_bind _ _ _ (λ _ _, True)); [by apply (ensures_fields r (λ _, set_reading false))|]. intros _ w3 Hs3 _ _.
  apply ensures_return; [done|]. auto.
Qed.

Lemma evolves_spawns w l : sound w → evolves w (foldl (λ w b, spawn (SpawnAttach r (br_index b) (br_handle b)) w) w l).
Proof.
  revert w; induction l as [|b l IH]; intros w Hs; cbn; [by apply evolves_refl|].
  pose proof (evolves_spawn w (SpawnAttach r (br_index b) (br_handle b)) Hs) as H1. eapply evolves_trans; [exact H1|]. apply IH, H1.
Qed.

Lemma try_readahead_ensures fuel size miss w : sound w → stands w r → ensures (try_readahead r fuel size miss) w (λ _ _, True).
Proof.
  intros Hs Hst. eapply (ensures_bind _ _ _ (λ _ _, True)).
  { apply ensures_slice; [done|]. intros w1 w2 plan Hs1 Hg1 _. destruct (w_readers w1 !! r) as [x|]; [|done]. destruct (plan_readahead _ _ _ _ _ _) as [ra plan'].
    intros [= <- <-]. split; [by apply evolves_fields|done]. }
  intros [[offset size']|] w1 Hs1 Hg1 _; [|by apply ensures_return]. eapply ensures_bind; [apply get_blocks_ensures; [done|by eapply stands_grows|constructor]|].
  intros result w2 Hs2 _ _. apply ensures_slice; [done|]. intros w3 w4 [] Hs3 Hg3 _ [= <-]. split; [|done].
  match goal with |- context [foldl ?f w3 ?l] => pose proof (evolves_spawns w3 l Hs3) as H1 end.
  eapply evolves_trans; [exact H1|]. by apply evolves_fields; [apply H1|].
Qed.

Lemma attach_loaded_ensures index h w : sound w → ensures (attach_loaded r index h) w (λ _ _, True).
Proof.
  intros Hs. eapply (ensures_bind _ _ _ (λ _ _, True)).
  { apply ensures_slice; [done|]. intros w1 w2 res Hs1 Hg1 _. destruct (bc_heap _ !! h); [|done]. destruct (wait_load _); [|done]. intros [= <- <-].
    split; [by apply evolves_refl|done]. }
  intros [[]|e] w1 Hs1 _ _; [|by apply ensures_return]. apply ensures_slice; [done|]. intros w2 w3 [] Hs2 Hg2 _.
  destruct (attach_data r index h w2) as [w2'|] eqn:E; [|done]. intros [= <-]. split; [by eapply attach_data_evolves|done].
Qed.
End Reader.
End Stream.

(** ** Listeners, block loads and the registry *)

Lemma on_freed_evolves closed h l w w' : sound w → on_freed closed h l w = Some w' → evolves w w'.
Proof.
  intros Hs. unfold on_freed. destruct closed; [intros [= <-]; by apply evolves_refl|]. destruct (w_readers w !! fl_reader l) as [x|]; [|done]. repeat case_match; intros [= <-]; try (by apply evolves_refl). by apply evolves_fields.
Qed.

(** Any step of the cache whose reads return what the objects hold. *)
Lemma cache_event_evolves e w c : sound w → honest source e (w_cache w) → cache_step e (w_cache w) = Some c → evolves w (with_cache c w).
Proof. intros Hs Hh E. apply evolves_cache; [done|..]; by eapply cache_evolves_step; [apply (so_cache _ Hs)|..]. Qed.

Lemma evolves_registry w i sh :
  sound w → (∀ s o r, rg_readers sh !! (s, o) = Some r → ∃ x, w_readers w !! r = Some x ∧ rx_stream_id x = s) → evolves w (with_registry (<[i := sh]>) w).
Proof.
  intros [H1 H2 H3 H4 H5 H6 H7 H8 H9] Hsh. split; constructor; cbn; eauto; try done. intros j sh' s o r [[-> [<- _]]|[_ Hj]]%list_lookup_insert_Some Hr; [|by eapply H6].
  by apply Hsh in Hr.
Qed.

Lemma take_expired_subset w sh sh' l : take_expired w sh = (sh', l) → rg_readers sh' ⊆ rg_readers sh.
Proof. intros [= <- <-]. cbn. apply map_filter_subseteq. Qed.

Lemma close_all_ensures l w : sound w → ensures (close_all l) w (λ _ _, True).
Proof.
  revert w; induction l as [|r l IH]; intros w Hs; cbn [close_all]; [by apply ensures_return|].
  eapply ensures_bind; [by apply reader_close_ensures|]. intros _ w1 Hs1 _ _. eapply ensures_mono; [done|]. by apply IH.
Qed.

Lemma cleanup_ensures shards w : sound w → ensures (cleanup_shards shards) w (λ _ _, True).
Proof.
  revert w; induction shards as [|i l IH]; intros w Hs; cbn [cleanup_shards]; [by apply ensures_return|]. eapply (ensures_bind _ _ _ (λ _ _, True)).
  { apply ensures_slice; [done|]. intros w1 w2 x Hs1 Hg1 _. destruct (w_registry w1 !! i) as [sh|] eqn:Hi; [|done]. destruct (take_expired w1 sh) as [sh' expired] eqn:E.
    intros [= <- <-]. split; [|done]. apply evolves_registry; [done|]. intros s o r Hr. eapply so_registry; [done|exact Hi|].
    eapply lookup_weaken; [exact Hr|]. by eapply take_expired_subset. }
  intros expired w1 Hs1 _ _. eapply ensures_bind; [by apply close_all_ensures|]. intros _ w2 Hs2 _ _. eapply ensures_mono; [done|]. by apply IH.
Qed.

Lemma evolves_new_reader w x : sound w → sound_reader x → listed_slots x → evolves w (with_readers (λ l, l ++ [x]) w).
Proof.
  intros [H1 H2 H3 H4 H5 H6 H7 H8 H9] Hx Hl. split; constructor; cbn; eauto; try done.
  - intros r y [[_ Hr]|[_ <-]]%lookup_snoc_Some; [by eapply H5|done].
  - intros i sh s o r Hi Hr. destruct (H6 i sh s o r Hi Hr) as (y & Hy & Ey). exists y. split; [by apply lookup_app_l_Some|done].
  - intros r y k slot [[_ Hr]|[_ <-]]%lookup_snoc_Some; [by eapply H9|by apply Hl].
  - intros r y Hy. exists y. split; [by apply lookup_app_l_Some|done].
Qed.

Lemma checkout_evolves s start w w' r expired : sound w → checkout s start w = Some (w', (r, expired)) → evolves w w' ∧ stands s w' r.
Proof.
  intros Hs. unfold checkout. set (i := registry_shard s w). destruct (w_registry w !! i) as [sh0|] eqn:Hi; [|done].
  destruct (if _ <? _ then _ else _) as [sh exp] eqn:Ex.
  assert (rg_readers sh ⊆ rg_readers sh0) as Hsub.
  { revert Ex. case_match; [|by intros [= <- <-]]. intros E. by apply take_expired_subset in E. }
  assert (∀ s o r, rg_readers sh !! (s, o) = Some r → ∃ x, w_readers w !! r = Some x ∧ rx_stream_id x = s) as Hreg.
  { intros s' o r' Hr. eapply so_registry; [done|exact Hi|]. by eapply lookup_weaken. }
  destruct (rg_readers sh !! (s, start)) as [r0|] eqn:Er; intros [= <- <- <-].
  - destruct (Hreg s start r0 Er) as (x & Hx & Ex'). split; [|by exists x]. apply evolves_registry; [done|]. cbn. intros s' o r' Hr.
    apply lookup_delete_Some in Hr as [_ Hr]. by eapply Hreg.
  - assert (evolves w (with_readers (λ l, l ++ [stream_reader_new (w_now w) s start]) w)) as H1.
    { apply evolves_new_reader; [done|..]; intros k slot Hk; cbn in Hk; by rewrite lookup_empty in Hk. }
    split.
    + eapply evolves_trans; [exact H1|]. refine (evolves_registry _ i sh (proj1 H1) _).
      intros s' o r' Hr. destruct (Hreg s' o r' Hr) as (x & Hx & Ex'). exists x. split; [|done]. cbn. by apply lookup_app_l_Some.
    + exists (stream_reader_new (w_now w) s start). split; [|done]. cbn. by apply list_lookup_middle.
Qed.

Lemma checkin_evolves s r w w' old : sound w → stands s w r → checkin s r w = Some (w', old) → evolves w w'.
Proof.
  intros Hs (x & Hx & Ex). unfold checkin. destruct (w_registry w !! _) as [sh|] eqn:Hi; [|done]. rewrite Hx. intros [= <- <-].
  apply evolves_registry; [done|]. cbn. intros s' o r' [[[= <- <-] <-]|[_ Hr]]%lookup_insert_Some; [by exists x|]. by eapply so_registry.
Qed.

Lemma readers_read_ensures s start e max_bytes w :
  sound w → start < e → ensures (readers_read s start e max_bytes) w (λ res _, right_read s start e max_bytes res).
Proof.
  intros Hs Hlt. eapply (ensures_bind _ _ _ (λ out w1, stands s w1 out.1)).
  { apply ensures_slice; [done|]. intros w1 w2 [r expired] Hs1 Hg1 _ E. destruct (checkout_evolves s start w1 w2 r expired Hs1 E). by split. }
  intros [r expired] w1 Hs1 Hg1 Hst. cbn in Hst. eapply ensures_bind; [by apply close_all_ensures|]. intros _ w2 Hs2 Hg2 _.
  pose proof (stands_grows _ _ _ _ Hg2 Hst) as Hst2. eapply ensures_bind; [by apply reader_read_ensures|]. intros res w3 Hs3 Hg3 Hr.
  pose proof (stands_grows _ _ _ _ Hg3 Hst2) as Hst3. destruct res as [rd|err].
  - eapply (ensures_bind _ _ _ (λ _ _, True)).
    { apply ensures_slice; [done|]. intros w4 w5 old Hs4 Hg4 _ E. split; [|done]. eapply checkin_evolves; [done|by eapply stands_grows|exact E]. }
    intros old w4 Hs4 _ _. eapply (ensures_bind _ _ _ (λ _ _, True)); [by destruct old; [apply reader_close_ensures|apply ensures_return]|].
    intros _ w5 Hs5 _ _. apply ensures_return; [done|]. auto.
  - eapply ensures_bind; [by apply reader_close_ensures|]. intros _ w4 Hs4 _ _. apply ensures_return; [done|]. auto.
Qed.

(** The readers as they are set up. *)
Lemma stream_readers_sound (m : M) (s : S) concurrency expired_ms interval_ms now :
  (∀ o info, listed o → basic_object_info s (metadata_key o) (om_object_size o) = Ok info → sound_info (om_object_id o) info) →
  (∀ st a b n objects, mgr_get_objects m st a b n = Some (Ok objects) → Forall listed objects) →
  sound (stream_readers_with_config max_size m s concurrency expired_ms interval_ms now).
Proof.
  intros Hs Hm. constructor; cbn; try done.
  - apply cache_new_ok.
  - intros id r. rewrite lru_iter_unbounded. by intros ?%not_elem_of_nil.
  - intros i sh st o r [-> _]%lookup_replicate_1 Hr. cbn in Hr. by rewrite lookup_empty in Hr.
Qed.
End Sound.
