(* ===== verification/StreamReaderTotal.v ===== *)
(** * A cached read returns

    When the objects of the stream tile the range that is read, they stay in place, and
    block loads succeed, a read through a stream reader returns, with exactly the records
    that [wanted] names, however its slices interleave with block loads, evictions, other
    readers, and the readahead of the same reader, which extends the window under it. *)
From S2P Require Import Prelude Collections Codec ObjectStore ObjectFormat ObjectIO Metadata Tasks DataBlockCache DataBlockSafety Storage BlockCache StreamReader StreamReaderSound.

Section Total.
Context {S : Type} `{!ObjectStorage S} {M : Type} `{!ObjectLookup M}.
Context {C RC : Type} `{!LruCache C BlockKey unit} `{!LruCacheLaws C BlockKey unit} `{!LruCache RC Z nat} `{!LruCacheLaws RC Z nat}.
Abbreviation world := (World S M C RC).
Implicit Types w : world.
Abbreviation tile := (S3ObjectMetadata * DataBlockIndex)%type.

(** The stream, its records, the objects, and the storage and metadata they are in. *)
Context (sid : Z) (G : list StreamRecordBatch) (HG : record_chain sid G).
Context (content : Z → DataBlockIndex → result ObjectError bytes → Prop) (listed : S3ObjectMetadata → Prop) (max_size : Z) (m0 : M) (s0 : S).

(** The blocks that hold the stream, in order. *)
Context (T : list tile).

Record tiled : Prop := {
  tl_stream i p : T !! i = Some p → bi_stream_id p.2 = sid;
  tl_span i p : T !! i = Some p → 0 ≤ bi_start_offset p.2 < bi_end_offset p.2;
  tl_next i p q : T !! i = Some p → T !! Datatypes.S i = Some q → bi_end_offset p.2 = bi_start_offset q.2;
}.
Hypothesis HT : tiled.

Lemma tile_lt i j p q : (i < j)%nat → T !! i = Some p → T !! j = Some q → bi_end_offset p.2 ≤ bi_start_offset q.2.
Proof.
  intros Hij Hp. revert q; induction Hij as [|j Hij IH]; intros q Hq; [by rewrite (tl_next HT i p q)|].
  destruct (lookup_lt_is_Some_2 T j) as [x Hx]; [apply lookup_lt_Some in Hq; lia|].
  specialize (IH x Hx). pose proof (tl_span HT j x Hx). rewrite (tl_next HT j x q Hx Hq) in *. lia.
Qed.

Definition segment (a b : nat) : list tile := take (b - a) (drop a T).

Lemma segment_split a b c : (a ≤ b ≤ c)%nat → segment a c = segment a b ++ segment b c.
Proof.
  intros H. unfold segment. replace (c - a)%nat with ((b - a) + (c - b))%nat by lia. rewrite <- take_take_drop, drop_drop. do 3 f_equal. lia.
Qed.

Lemma segment_elem a b p : p ∈ segment a b ↔ ∃ i, (a ≤ i < b)%nat ∧ T !! i = Some p.
Proof.
  unfold segment. rewrite list_elem_of_lookup. split.
  - intros [i Hi]. apply lookup_take_Some in Hi as [Hi Hlt]. rewrite lookup_drop in Hi. exists (a + i)%nat. split; [lia|done].
  - intros (i & Hi & Hp). exists (i - a)%nat. apply lookup_take_Some. rewrite lookup_drop. replace (a + (i - a))%nat with i by lia. split; [done|lia].
Qed.

Lemma segment_cons a b p : T !! a = Some p → (a < b)%nat → segment a b = p :: segment (Datatypes.S a) b.
Proof.
  intros Hp Hlt. unfold segment. rewrite (drop_S _ _ _ Hp). replace (b - a)%nat with (Datatypes.S (b - Datatypes.S a)) by lia. done.
Qed.

Lemma segment_snoc a b p : T !! b = Some p → (a ≤ b)%nat → segment a (Datatypes.S b) = segment a b ++ [p].
Proof.
  intros Hp Hle. rewrite (segment_split a b (Datatypes.S b)) by lia. f_equal. rewrite (segment_cons b _ p Hp) by lia. f_equal. unfold segment.
  by rewrite Nat.sub_diag.
Qed.

Lemma segment_starts a b : StronglySorted Z.lt ((λ p : tile, bi_start_offset p.2) <$> segment a b).
Proof.
  remember (b - a)%nat as k eqn:Ek. revert a Ek; induction k as [|k IH]; intros a Ek.
  { unfold segment. rewrite <- Ek. constructor. }
  destruct (T !! a) as [p|] eqn:Hp.
  - rewrite (segment_cons a b p Hp) by lia. rewrite fmap_cons. constructor; [apply IH; lia|]. rewrite Forall_fmap, Forall_forall.
    intros q (j & Hj & Hq)%segment_elem. cbn. pose proof (tile_lt a j p q ltac:(lia) Hp Hq). pose proof (tl_span HT a p Hp). lia.
  - apply lookup_ge_None in Hp. unfold segment. rewrite drop_ge by done. rewrite take_nil. constructor.
Qed.

(** ** The window *)

Definition slot_of (p : tile) (slot : BlockSlot) : Prop := bs_metadata slot = p.1 ∧ bs_index slot = p.2.
Definition within (x : Z) (p : tile) : Prop := bi_start_offset p.2 ≤ x < bi_end_offset p.2.

(** The reader has the blocks [lo .. n) of the stream, and stands among them or, when it has
    loaded nothing yet, in the block it loads next. *)
Record window (x : StreamReader) (lo n : nat) : Prop := {
  wn_range : (lo ≤ n ≤ length T)%nat;
  wn_slots i p : (lo ≤ i < n)%nat → T !! i = Some p → ∃ slot, rs_blocks (rx_state x) !! bi_start_offset p.2 = Some slot ∧ slot_of p slot;
  wn_only k slot : rs_blocks (rx_state x) !! k = Some slot → ∃ i p, (lo ≤ i < n)%nat ∧ T !! i = Some p ∧ k = bi_start_offset p.2 ∧ slot_of p slot;
  wn_end : match rs_last_block (rx_state x) with
           | None => lo = n ∧ rs_loaded_end_offset (rx_state x) = 0
           | Some (_, e) => e = rs_loaded_end_offset (rx_state x) ∧ (0 < n)%nat ∧ ∃ p, T !! (n - 1)%nat = Some p ∧ bi_end_offset p.2 = e
           end;
  wn_low p : T !! lo = Some p → (lo < n)%nat → bi_start_offset p.2 ≤ rx_next_read_offset x;
  wn_high : rs_last_block (rx_state x) ≠ None → rx_next_read_offset x ≤ rs_loaded_end_offset (rx_state x);
  wn_fresh : rs_last_block (rx_state x) = None → ∃ p, T !! lo = Some p ∧ within (rx_next_read_offset x) p;
  wn_passed : lo = n → rs_last_block (rx_state x) ≠ None → rs_loaded_end_offset (rx_state x) ≤ rx_next_read_offset x;
}.

Definition entry_of (blocks : gmap Z BlockSlot) (p : tile) : Z * BlockSlot :=
  (bi_start_offset p.2, default (mkSlot p.1 p.2 None None) (blocks !! bi_start_offset p.2)).

Lemma window_entries x lo n : window x lo n → entries (rs_blocks (rx_state x)) = entry_of (rs_blocks (rx_state x)) <$> segment lo n.
Proof.
  intros Hw. apply entries_unique.
  - rewrite <- list_fmap_compose. apply (segment_starts lo n).
  - intros k v. rewrite list_elem_of_fmap. split.
    + intros (p & [= -> ->] & (i & Hi & Hp)%segment_elem). destruct (wn_slots _ _ _ Hw i p Hi Hp) as (slot & -> & _). done.
    + intros Hk. destruct (wn_only _ _ _ Hw k v Hk) as (i & p & Hi & Hp & -> & _). exists p. unfold entry_of. rewrite Hk. split; [done|].
      apply segment_elem. eauto.
Qed.

Lemma entries_slots x lo n a b : window x lo n → (lo ≤ a)%nat → (b ≤ n)%nat → Forall2 slot_of (segment a b) (entry_of (rs_blocks (rx_state x)) <$> segment a b).*2.
Proof.
  intros Hw Ha Hb. rewrite <- list_fmap_compose. apply Forall2_fmap_r, Forall_Forall2_diag, Forall_forall. intros p (i & Hi & Hp)%segment_elem.
  destruct (wn_slots _ _ _ Hw i p ltac:(lia) Hp) as (slot & Hs & Hof). cbn. by rewrite Hs.
Qed.

(** The slots from the block that holds the cursor on. *)
Lemma window_floor x lo n i p c :
  window x lo n → (lo ≤ i < n)%nat → T !! i = Some p → within c p →
  ∃ slot, floor_entry c (rs_blocks (rx_state x)) = Some (bi_start_offset p.2, slot)
    ∧ Forall2 slot_of (segment i n) (filter (λ e, bi_start_offset p.2 <= e.1) (entries (rs_blocks (rx_state x)))).*2.
Proof.
  intros Hw Hi Hp Hc. unfold floor_entry. rewrite (window_entries x lo n Hw). set (f := entry_of (rs_blocks (rx_state x))).
  assert (∀ j q, (j < i)%nat → T !! j = Some q → bi_start_offset q.2 < bi_start_offset p.2) as Hbefore.
  { intros j q Hj Hq. pose proof (tile_lt j i q p Hj Hq Hp). pose proof (tl_span HT j q Hq). lia. }
  assert (∀ j q, (i < j)%nat → T !! j = Some q → c < bi_start_offset q.2) as Hafter.
  { intros j q Hj Hq. pose proof (tile_lt i j p q Hj Hp Hq). destruct Hc. lia. }
  exists (f p).2. split.
  - rewrite (segment_split lo (Datatypes.S i) n) by lia. rewrite fmap_app, filter_app, filter_all, filter_none, app_nil_r.
    + rewrite (segment_snoc lo i p Hp) by lia. rewrite fmap_app. cbn [fmap list_fmap]. by rewrite last_snoc.
    + intros e (q & -> & (j & Hj & Hq)%segment_elem)%list_elem_of_fmap. cbn. specialize (Hafter j q ltac:(lia) Hq). lia.
    + intros e (q & -> & (j & Hj & Hq)%segment_elem)%list_elem_of_fmap. cbn. destruct (decide (j = i)) as [->|]; [rewrite Hp in Hq; injection Hq as <-; destruct Hc; lia|].
      specialize (Hbefore j q ltac:(lia) Hq). destruct Hc. lia.
  - rewrite (segment_split lo i n) by lia. rewrite fmap_app, filter_app, filter_none, filter_all, app_nil_l.
    + eapply entries_slots; [exact Hw|lia|lia].
    + intros e (q & -> & (j & Hj & Hq)%segment_elem)%list_elem_of_fmap. cbn. destruct (decide (j = i)) as [->|]; [rewrite Hp in Hq; injection Hq as <-; lia|].
      pose proof (tile_lt i j p q ltac:(lia) Hp Hq). pose proof (tl_span HT i p Hp). lia.
    + intros e (q & -> & (j & Hj & Hq)%segment_elem)%list_elem_of_fmap. cbn. specialize (Hbefore j q ltac:(lia) Hq). lia.
Qed.

Lemma locate x lo n c :
  window x lo n → (lo < n)%nat → rx_next_read_offset x ≤ c < rs_loaded_end_offset (rx_state x) → ∃ i p, (lo ≤ i < n)%nat ∧ T !! i = Some p ∧ within c p.
Proof.
  intros Hw Hlt Hc. destruct (wn_range _ _ _ Hw) as [_ Hn].
  destruct (lookup_lt_is_Some_2 T lo) as [p Hp]; [lia|]. pose proof (wn_low _ _ _ Hw p Hp Hlt) as Hlo.
  assert (∃ q, T !! (n - 1)%nat = Some q ∧ bi_end_offset q.2 = rs_loaded_end_offset (rx_state x)) as (q & Hq & Eq).
  { pose proof (wn_end _ _ _ Hw) as He. destruct (rs_last_block (rx_state x)) as [[? e]|]; [|lia]. destruct He as (<- & _ & ?). done. }
  assert (∀ k, (k < n - lo)%nat → (∃ i p, (lo ≤ i < n)%nat ∧ T !! i = Some p ∧ within c p) ∨ ∃ y, T !! (lo + k)%nat = Some y ∧ bi_end_offset y.2 ≤ c) as Hk.
  { induction k as [|k IH]; intros Hk.
    - rewrite Nat.add_0_r. destruct (decide (c < bi_end_offset p.2)); [left; exists lo, p; split_and!; [lia|lia|done|unfold within; lia]|].
      right. exists p. split; [done|lia].
    - destruct (IH ltac:(lia)) as [?|(y & Hy & Hle)]; [by left|]. destruct (lookup_lt_is_Some_2 T (lo + Datatypes.S k)) as [z Hz]; [lia|].
      rewrite Nat.add_succ_r in Hz. pose proof (tl_next HT _ y z Hy Hz). destruct (decide (c < bi_end_offset z.2)).
      + left. exists (Datatypes.S (lo + k)), z. split_and!; [lia|lia|done|unfold within; lia].
      + right. exists z. rewrite Nat.add_succ_r. split; [done|lia]. }
  destruct (Hk (n - lo - 1)%nat ltac:(lia)) as [?|(y & Hy & Hle)]; [done|].
  replace (lo + (n - lo - 1))%nat with (n - 1)%nat in Hy by lia. rewrite Hq in Hy. injection Hy as <-. lia.
Qed.

(** ** The world while it is calm *)

Abbreviation sound := (sound sid G content listed max_size).
Abbreviation evolves := (evolves sid G content listed max_size).

Definition info_of (o : S3ObjectMetadata) : result ObjectError BasicObjectInfo := basic_object_info s0 (metadata_key o) (om_object_size o).

Record calm w : Prop := {
  ca_sound : sound w;
  ca_meta : w_meta w = m0;
  ca_store : w_store w = s0;
  ca_open r o info : w_open w !! r = Some o → or_info o = Some info → info_of (or_metadata o) = Ok info;
  ca_shards : (0 < length (bc_shards (w_cache w)))%nat;
  ca_handles r x k slot h : w_readers w !! r = Some x → rs_blocks (rx_state x) !! k = Some slot → bs_data slot = Some h → is_Some (bc_heap (w_cache w) !! h);
}.

Lemma heap_grows_some (l l' : list (CacheBlock FreeListener)) h : heap_grows l l' → is_Some (l !! h) → is_Some (l' !! h).
Proof. intros Hg [b Hb]. destruct (Hg h b Hb) as (b' & -> & _). done. Qed.

Lemma calm_cache w c :
  calm w → cache_evolves content max_size (w_cache w) c → length (bc_shards c) = length (bc_shards (w_cache w)) → calm (with_cache c w).
Proof.
  intros Hw [Hc Hg] El. pose proof (evolves_cache sid G content listed max_size w c (ca_sound _ Hw) Hc Hg) as [Hs _].
  destruct Hw as [H1 H2 H3 H4 H5 H6]. constructor; try done; cbn; [by rewrite El|]. intros r x k slot h Hx Hk Hd. eapply heap_grows_some; [exact Hg|by eapply H6].
Qed.

Lemma calm_reader w r f :
  calm w → sound (with_readers (alter f r) w) →
  (∀ x k slot h, w_readers w !! r = Some x → rs_blocks (rx_state (f x)) !! k = Some slot → bs_data slot = Some h → is_Some (bc_heap (w_cache w) !! h)) →
  calm (with_readers (alter f r) w).
Proof.
  intros Hw Hs Hf. destruct Hw as [H1 H2 H3 H4 H5 H6]. constructor; try done. cbn. intros y x k slot h Hx. destruct (decide (y = r)) as [->|].
  - rewrite list_lookup_alter_eq in Hx. destruct (w_readers w !! r) as [x0|] eqn:E; [|done]. injection Hx as <-. by eapply Hf.
  - rewrite list_lookup_alter_ne in Hx by done. by eapply H6.
Qed.

Lemma calm_fields w r f :
  calm w → (∀ x, rx_stream_id (f x) = rx_stream_id x ∧ rs_blocks (rx_state (f x)) = rs_blocks (rx_state x)) → calm (with_readers (alter f r) w).
Proof.
  intros Hw Hf. apply calm_reader; [done|by apply evolves_fields; [apply ca_sound|]|]. intros x k slot h Hx Hk. rewrite (proj2 (Hf x)) in Hk. by eapply (ca_handles _ Hw).
Qed.

(** Listed objects of one id are one object. *)
Hypothesis Hsize : ∀ o o', listed o → listed o' → om_object_id o = om_object_id o' → om_object_size o = om_object_size o'.

Lemma info_same o o' : listed o → listed o' → om_object_id o = om_object_id o' → info_of o = info_of o'.
Proof. intros Ho Ho' E. unfold info_of, metadata_key. by rewrite E, (Hsize o o'). Qed.

Lemma readers_get_calm w m w' r :
  calm w → listed m → readers_get m w = (w', r) →
  calm w' ∧ grows w w' ∧ w_readers w' = w_readers w ∧ w_cache w' = w_cache w ∧ ∃ o, w_open w' !! r = Some o ∧ om_object_id (or_metadata o) = om_object_id m ∧ listed (or_metadata o).
Proof.
  intros Hw Hm E. destruct (readers_get_evolves sid G content listed max_size w m w' r (ca_sound _ Hw) Hm E) as ([Hs Hg] & (o & Ho & Eo) & Er & Ec & _).
  split_and!; [|done..|exists o; split_and!; [done|done|by eapply so_open_listed]]. destruct Hw as [H1 H2 H3 H4 H5 H6]. unfold readers_get in E.
  constructor; rewrite ?Er, ?Ec; try done; destruct (lru_get _ _) as [lru [r0|]]; injection E as <- <-; try done.
  cbn. intros y o' info [[_ Hy]|[_ <-]]%lookup_snoc_Some; [by eapply H4|done].
Qed.

Lemma open_find_calm w r o m s a b n info :
  calm w → w_open w !! r = Some o → listed m → om_object_id (or_metadata o) = om_object_id m → info_of m = Ok info →
  ∃ w', open_find r s a b n w = Some (w', Ok (find (boi_index_block info) s a b n)) ∧ calm w' ∧ grows w w' ∧ w_readers w' = w_readers w ∧ w_cache w' = w_cache w.
Proof.
  intros Hw Ho Hm Eid Ei. pose proof (so_open_listed _ _ _ _ _ _ (ca_sound _ Hw) r o Ho) as Hl. rewrite <- (info_same _ m Hl Hm Eid) in Ei.
  assert (∃ w', open_find r s a b n w = Some (w', Ok (find (boi_index_block info) s a b n))
    ∧ (w' = w ∨ w' = with_open (alter (λ o, mkOpen (or_metadata o) (Some info)) r (w_open w)) (w_open_lru w) w)) as (w' & E & Hw').
  { unfold open_find. rewrite Ho, (ca_store _ Hw). fold (info_of (or_metadata o)). rewrite Ei. destruct (or_info o) as [info'|] eqn:E.
    - pose proof (ca_open _ Hw r o info' Ho E) as E'. rewrite Ei in E'. injection E' as <-. exists w. eauto.
    - eexists. split; [reflexivity|by right]. }
  destruct (open_find_evolves sid G content listed max_size w r s a b n w' _ (ca_sound _ Hw) E) as ([Hs Hg] & Er & _).
  exists w'. split_and!; [done| |done|done|by destruct Hw' as [->| ->]]. destruct Hw as [H1 H2 H3 H4 H5 H6].
  destruct Hw' as [->| ->]; [done|]. constructor; try done. cbn. intros y o' info' Hy. destruct (decide (y = r)) as [->|].
  - rewrite list_lookup_alter_eq, Ho in Hy. injection Hy as <-. cbn. by intros [= <-].
  - rewrite list_lookup_alter_ne in Hy by done. by eapply H4.
Qed.

(** ** Walking *)

Hypothesis Hsid : 0 ≤ sid.

(** The blocks [a .. b) were handed to the read. *)
Definition handed w (p : tile) (rd : BlockRead) : Prop :=
  br_index rd = p.2 ∧ ∃ blk, bc_heap (w_cache w) !! br_handle rd = Some blk ∧ cb_object_id blk = om_object_id p.1.
Definition hands w (a b : nat) (reads : list BlockRead) : Prop := Forall2 (handed w) (segment a b) reads ∧ Forall (good_read sid G content sid w) reads.

Lemma handed_grows w w' p rd : grows w w' → handed w p rd → handed w' p rd.
Proof. intros [Hh _ _] (E & blk & Hb & Eo). split; [done|]. destruct (Hh _ _ Hb) as (blk' & Hb' & [[= Eo' _] _ _]). exists blk'. split; [done|congruence]. Qed.

Lemma hands_grows w w' a b reads : grows w w' → hands w a b reads → hands w' a b reads.
Proof. intros Hg [H1 H2]. split; [|by eapply good_reads_grow]. eapply Forall2_impl; [exact H1|]. intros p rd. by apply handed_grows. Qed.

(** A walk from block [i] to block [n] stops after block [j]: at the end of the range, out of
    budget, or at the end of the window. *)
Lemma walk_slots_total c e ra (slots : list BlockSlot) first rem collected w a i n :
  calm w → (a ≤ i ≤ n)%nat → (n ≤ length T)%nat → Forall2 slot_of (segment i n) slots → Forall (λ s, listed (bs_metadata s)) slots →
  Forall (window_slot sid G content listed sid) slots → hands w a i collected →
  ∃ w' out rem' j reads, walk_slots c (Some e) ra slots first rem collected w = Some (w', (out, rem', reads))
    ∧ calm w' ∧ grows w w' ∧ w_readers w' = w_readers w ∧ (i ≤ j ≤ n)%nat ∧ hands w' a j reads
    ∧ match out with
      | Fulfilled => (i < j)%nat
      | NeedMore => j = n ∧ ((i < n)%nat → ∀ p, T !! (n - 1)%nat = Some p → bi_end_offset p.2 < e)
      | ReadaheadDone => False
      end.
Proof.
  intros Hw Hai Hn Hslots Hlist Hwin Hc. remember (segment i n) as seg eqn:Eseg. revert first rem collected w i Hw Hai Eseg Hlist Hwin Hc.
  induction Hslots as [|p slot seg slots [Em Ei] Hslots IH]; intros first rem collected w i Hw Hai Eseg Hlist Hwin Hc.
  { assert (i = n) as ->.
    { destruct (decide (i = n)); [done|]. exfalso. destruct (lookup_lt_is_Some_2 T i) as [q Hq]; [lia|]. rewrite (segment_cons i n q Hq) in Eseg by lia. done. }
    exists w, NeedMore, rem, n, collected. cbn. split_and!; try done; try lia. }
  assert (i < n)%nat as Hin.
  { destruct (decide (i < n)%nat); [done|]. exfalso. unfold segment in Eseg. replace (n - i)%nat with 0%nat in Eseg by lia. done. }
  destruct (lookup_lt_is_Some_2 T i) as [q Hq]; [lia|]. rewrite (segment_cons i n q Hq) in Eseg by lia. injection Eseg as <- Eseg.
  apply Forall_cons in Hlist as [Hl Hlist]. apply Forall_cons in Hwin as [(_ & Est & Hsb) Hwin]. cbn [walk_slots].
  set (rem1 := if negb first || (bi_start_offset (bs_index slot) =? c) then rem - bi_size (bs_index slot) else rem).
  destruct (readers_get (bs_metadata slot) w) as [w1 rd] eqn:Er.
  destruct (readers_get_calm w _ w1 rd Hw Hl Er) as (Hw1 & Hg1 & Erd & Ecache & o & Ho & Eo & _). rewrite Ho.
  destruct (get_block_handle_total (source content) max_size (w_now w1) ra (or_metadata o) (bs_index slot) (w_cache w1)) as (c1 & h & Eg & El);
    [apply (so_cache _ _ _ _ _ _ (ca_sound _ Hw1))|apply (ca_shards _ Hw1)|by rewrite Est|]. rewrite Eg.
  pose proof (get_block_handle_evolves sid G content listed max_size w1 _ _ _ _ c1 h (ca_sound _ Hw1) Eg) as Hev2.
  destruct (get_block_handle_key (source content) max_size _ _ _ _ _ _ _ (so_cache _ _ _ _ _ _ (ca_sound _ Hw1)) Eg) as (b & Hb & [= Eko Eki]). rewrite Hb.
  assert (calm (with_cache c1 w1)) as Hw2.
  { apply calm_cache; [done| |done]. split; [eapply ok_get; [apply (so_cache _ _ _ _ _ _ (ca_sound _ Hw1))|exact Eg]|by eapply get_block_handle_grows]. }
  set (w2 := with_cache c1 w1) in *. assert (grows w w2) as Hg2 by (etransitivity; [exact Hg1|apply Hev2]).
  set (reads := collected ++ [mkBlockRead (bs_index slot) h (is_loaded b)]).
  assert (hands w2 a (Datatypes.S i) reads) as Hc2.
  { destruct (hands_grows _ _ _ _ _ Hg2 Hc) as [Hh1 Hh2]. split.
    - rewrite (segment_snoc a i p Hq) by lia. apply Forall2_app; [done|]. constructor; [|constructor]. split; [done|]. exists b. split; [done|]. by rewrite Eko, Eo, Em.
    - apply Forall_app. split; [done|]. apply Forall_singleton. split; [done|]. exists b. split; [done|]. split; [done|]. by rewrite Eko, Eo. }
  destruct ((e <=? bi_end_offset (bs_index slot)) || (rem1 <=? 0)) eqn:Estop.
  - exists w2, Fulfilled, rem1, (Datatypes.S i), reads. split_and!; try done; try lia.
  - destruct (IH false rem1 reads w2 (Datatypes.S i) Hw2 ltac:(lia) Eseg Hlist Hwin Hc2) as (w' & out & rem' & j & reads' & -> & Hw' & Hg' & Er' & Hj & Hh & Hout).
    exists w', out, rem', j, reads'. split_and!; try done; try lia; [by etransitivity|by rewrite Er', <- Erd|].
    destruct out; [lia| |done]. destruct Hout as [-> Hend]. split; [done|]. intros _ y Hy. destruct (decide (Datatypes.S i < n)%nat); [by apply Hend|].
    replace (n - 1)%nat with i in Hy by lia. rewrite Hq in Hy. injection Hy as <-. rewrite <- Ei. lia.
Qed.

(** ** The others *)

Context (r : nat).

(** The readahead of the reader may extend the window, unless the read holds the index lock. *)
Record reader_env (x x' : StreamReader) : Prop := {
  re_stream : rx_stream_id x' = rx_stream_id x;
  re_next : rx_next_read_offset x' = rx_next_read_offset x;
  re_epoch : rs_blocks_epoch (rx_state x') = rs_blocks_epoch (rx_state x);
  re_holder : rx_index_holder x' = Some false ↔ rx_index_holder x = Some false;
  re_reading : rx_reading x' = rx_reading x;
  re_window lo n : window x lo n → ∃ n', (n ≤ n')%nat ∧ window x' lo n' ∧ (rx_index_holder x = Some false → n' = n)
    ∧ (n' = n → rs_loaded_end_offset (rx_state x') = rs_loaded_end_offset (rx_state x));
}.

(** What the others may do while reader [r] reads. *)
Definition undisturbed w w' : Prop :=
  calm w → calm w' ∧ grows w w' ∧ ∀ x, w_readers w !! r = Some x → ∃ x', w_readers w' !! r = Some x' ∧ reader_env x x'.

(** What the read waits for can come about: the lock is not its own, the block exists. *)
Definition possible (q : Wait) w : Prop :=
  match q with
  | NoWait => True
  | IndexLock r' => r' = r ∧ ∃ x, w_readers w !! r = Some x ∧ rx_index_holder x ≠ Some false
  | LoadOver h => is_Some (bc_heap (w_cache w) !! h)
  end.

(** Where the reader stands: its window, its next offset, and whether it holds the lock. *)
Record at_pos w (x : StreamReader) (lo n : nat) (nr ep : Z) (hold : bool) : Prop := {
  ap_reader : w_readers w !! r = Some x;
  ap_window : window x lo n;
  ap_stream : rx_stream_id x = sid;
  ap_next : rx_next_read_offset x = nr;
  ap_epoch : rs_blocks_epoch (rx_state x) = ep;
  ap_holder : rx_index_holder x = Some false ↔ hold = true;
}.

(** What the others leave of a position. *)
Definition kept w w1 : Prop :=
  ∀ x lo n nr ep hold, at_pos w x lo n nr ep hold →
    ∃ x' n', (n ≤ n')%nat ∧ (hold = true → n' = n) ∧ at_pos w1 x' lo n' nr ep hold ∧ rx_reading x' = rx_reading x
      ∧ (n' = n → rs_loaded_end_offset (rx_state x') = rs_loaded_end_offset (rx_state x)).

Lemma undisturbed_kept w w1 : calm w → undisturbed w w1 → calm w1 ∧ grows w w1 ∧ kept w w1.
Proof.
  intros Hw Hu. destruct (Hu Hw) as (Hw1 & Hg & Hr). split_and!; [done..|].
  intros x lo n nr ep hold [Hx Hwin Es En Ee Eh]. destruct (Hr x Hx) as (x' & Hx' & [R1 R2 R3 R4 R5 R6]).
  destruct (R6 lo n Hwin) as (n' & Hn & Hwin' & Hlock & Hload). exists x', n'. split_and!; [done|intros ->; apply Hlock; by apply Eh| |done|done].
  constructor; [done..|congruence|congruence|congruence|]. by rewrite R4.
Qed.

Definition returns {A} (t : Task world Wait A) w (R : A → world → Prop) : Prop :=
  wp awaited possible undisturbed (λ _ _, True) true t w (λ a w', calm w' ∧ grows w w' ∧ R a w').

Lemma returns_return {A} (a : A) w (R : A → world → Prop) : calm w → R a w → returns (Return a) w R.
Proof. by intros. Qed.

Lemma returns_slice {X} q (f : world → option (world * X)) w (R : X → world → Prop) :
  calm w → possible q w →
  (∀ w1, calm w1 → grows w w1 → kept w w1 → awaited q w1 = true → ∃ w2 x, f w1 = Some (w2, x) ∧ calm w2 ∧ grows w1 w2 ∧ R x w2) →
  returns (slice_when q f) w R.
Proof.
  intros Hw Hp Hf. apply wp_slice; [done|]. intros w1 Hu Hq. destruct (undisturbed_kept w w1 Hw Hu) as (Hw1 & Hg1 & Hk).
  destruct (Hf w1 Hw1 Hg1 Hk Hq) as (w2 & x & -> & Hw2 & Hg2 & HR). split; [done|]. split_and!; [done|by etransitivity|done].
Qed.

Lemma returns_bind {A B} (t : Task world Wait A) (g : A → Task world Wait B) w (P : A → world → Prop) (R : B → world → Prop) :
  returns t w P → (∀ a w1, calm w1 → grows w w1 → P a w1 → returns (g a) w1 (λ b w2, grows w w2 → R b w2)) → returns (bind t g) w R.
Proof.
  intros Ht Hg. apply wp_bind. eapply wp_mono; [|exact Ht]. intros a w1 (Hw1 & Hg1 & HP).
  eapply wp_mono; [|exact (Hg a w1 Hw1 Hg1 HP)]. intros b w2 (Hw2 & Hg2 & HR). assert (grows w w2) by (by etransitivity). split_and!; auto.
Qed.

Lemma returns_mono {A} (t : Task world Wait A) w (P R : A → world → Prop) : (∀ a w', grows w w' → P a w' → R a w') → returns t w P → returns t w R.
Proof. intros H. apply wp_mono. intros a w' (? & ? & ?). split_and!; auto. Qed.

(** A slice that only looks at the reader. *)
Lemma returns_look {X} (f : StreamReader → X) w (R : X → world → Prop) x lo n nr ep hold :
  calm w → at_pos w x lo n nr ep hold →
  (∀ w1 x' n', grows w w1 → (n ≤ n')%nat → (hold = true → n' = n) → at_pos w1 x' lo n' nr ep hold → rx_reading x' = rx_reading x →
     (n' = n → rs_loaded_end_offset (rx_state x') = rs_loaded_end_offset (rx_state x)) → R (f x') w1) →
  returns (slice (λ w, let* x := w_readers w !! r in Some (w, f x))) w R.
Proof.
  intros Hw Hp HR. apply returns_slice; [done|done|]. intros w1 Hw1 Hg Hk _. destruct (Hk _ _ _ _ _ _ Hp) as (x' & n' & Hn & Hh & Hp1 & Er & El).
  rewrite (ap_reader _ _ _ _ _ _ _ Hp1). exists w1, (f x'). split_and!; [done|done|done|]. by eapply HR.
Qed.

(** How far the index of the window reaches. *)
Lemma loaded_lt x x' lo n n' :
  window x lo n → window x' lo n' → (n < n')%nat → rs_loaded_end_offset (rx_state x) < rs_loaded_end_offset (rx_state x').
Proof.
  intros Hw Hw' Hlt. pose proof (wn_end _ _ _ Hw) as He. pose proof (wn_end _ _ _ Hw') as He'. pose proof (wn_range _ _ _ Hw).
  destruct (rs_last_block (rx_state x')) as [[? e']|]; [|lia]. destruct He' as (E' & _ & q & Hq & Eq). pose proof (tl_span HT _ q Hq).
  destruct (rs_last_block (rx_state x)) as [[? e]|]; [|destruct He as [_ E]; lia]. destruct He as (E & Hn0 & p & Hp & Ep).
  pose proof (tile_lt (n - 1) (n' - 1) p q ltac:(lia) Hp Hq). lia.
Qed.

(** A window that reaches beyond an offset of block [i] has block [i]. *)
Lemma loaded_reaches x lo n i p c :
  window x lo n → T !! i = Some p → within c p → c < rs_loaded_end_offset (rx_state x) → (i < n)%nat.
Proof.
  intros Hw Hp Hc Hlt. pose proof (wn_end _ _ _ Hw) as He. destruct (decide (i < n)%nat); [done|]. exfalso. pose proof (tl_span HT _ p Hp). destruct Hc.
  destruct (rs_last_block (rx_state x)) as [[? e]|]; [|destruct He as [_ E]; lia]. destruct He as (E & Hn0 & q & Hq & Eq).
  pose proof (tile_lt (n - 1) i q p ltac:(lia) Hq Hp). lia.
Qed.

(** ** The walk of the window *)

(** The next block to hand out is [i], and the blocks [a .. i) have been. *)
Definition cursor (a i : nat) (c : Z) : Prop := i = a ∨ ((a < i)%nat ∧ ∃ p, T !! (i - 1)%nat = Some p ∧ c = bi_end_offset p.2).

Lemma walk_window_total c e rem collected w x a i lo n nr ep hold p :
  calm w → at_pos w x lo n nr ep hold → nr ≤ c → (lo ≤ a ≤ i)%nat → (i ≤ n)%nat → T !! i = Some p → within c p → hands w a i collected →
  ∃ w' out rem' j reads, walk_window r c (Some e) rem false collected w = Some (w', Ok (out, rem', reads))
    ∧ calm w' ∧ grows w w' ∧ at_pos w' x lo n nr ep hold ∧ (i ≤ j ≤ n)%nat ∧ hands w' a j reads
    ∧ match out with
      | Fulfilled => (i < j)%nat
      | NeedMore => j = n ∧ ((i < n)%nat → ∀ q, T !! (n - 1)%nat = Some q → bi_end_offset q.2 < e)
      | ReadaheadDone => False
      end.
Proof.
  intros Hw Hpos Hnr Ha Hi Hp Hc Hh. destruct Hpos as [Hx Hwin Es En Ee Eh]. unfold walk_window. rewrite Hx.
  destruct (decide (i < n)%nat) as [Hlt|Hge].
  - destruct (window_floor x lo n i p c Hwin ltac:(lia) Hp Hc) as (slot & -> & Hslots).
    destruct (rs_loaded_end_offset (rx_state x) <=? c) eqn:El.
    { exfalso. pose proof (wn_end _ _ _ Hwin) as He. destruct (rs_last_block (rx_state x)) as [[? e']|]; [|lia]. destruct He as (E & _ & q & Hq & Eq).
      destruct Hc. destruct (decide (i = n - 1)%nat) as [->|]; [rewrite Hp in Hq; injection Hq as <-; lia|].
      pose proof (tile_lt i (n - 1) p q ltac:(lia) Hp Hq). pose proof (tl_span HT _ q Hq). lia. }
    assert (∀ s, s ∈ (filter (λ e, bi_start_offset p.2 <= e.1) (entries (rs_blocks (rx_state x)))).*2 → ∃ k, rs_blocks (rx_state x) !! k = Some s) as Hin.
    { intros s ([k v] & -> & [_ Hk]%list_elem_of_filter)%list_elem_of_fmap. exists k. by apply elem_of_entries. }
    destruct (walk_slots_total c e false _ true rem collected w a i n Hw ltac:(lia) (proj2 (wn_range _ _ _ Hwin)) Hslots)
      as (w' & out & rem' & j & reads & -> & Hw' & Hg & Er & Hj & Hh' & Hout); [..|done|].
    { apply Forall_forall. intros s [k Hk]%Hin. eapply (so_slots _ _ _ _ _ _ (ca_sound _ Hw)); [exact Hx|exact Hk]. }
    { apply Forall_forall. intros s [k Hk]%Hin. eapply (window_slots sid G content listed max_size); [apply (ca_sound _ Hw)|exact Hx|done|exact Hk]. }
    exists w', out, rem', j, reads. split_and!; try done; try lia. constructor; try done. by rewrite Er.
  - assert (i = n) as -> by lia. assert (walk_window r c (Some e) rem false collected w = Some (w, Ok (NeedMore, rem, collected))) as E.
    { unfold walk_window. rewrite Hx. destruct (decide (lo < n)%nat) as [Hlo|Hlo].
      - destruct (lookup_lt_is_Some_2 T lo) as [p0 Hp0]; [pose proof (wn_range _ _ _ Hwin); lia|].
        destruct (floor_entry c (rs_blocks (rx_state x))) as [[fl slot]|] eqn:Ef.
        + assert (rs_loaded_end_offset (rx_state x) ≤ c) as Hle.
          { destruct (decide (c < rs_loaded_end_offset (rx_state x))) as [Hc'|]; [|lia]. pose proof (loaded_reaches x lo n n p c Hwin Hp Hc Hc'). lia. }
          by replace (rs_loaded_end_offset (rx_state x) <=? c) with true by lia.
        + exfalso. unfold floor_entry in Ef. apply last_None in Ef.
          destruct (wn_slots _ _ _ Hwin lo p0 ltac:(lia) Hp0) as (slot & Hs & _). apply elem_of_entries in Hs.
          assert ((bi_start_offset p0.2, slot) ∈ filter (λ p, p.1 <= c) (entries (rs_blocks (rx_state x)))) as Hin.
          { apply list_elem_of_filter. split; [|done]. cbn. pose proof (wn_low _ _ _ Hwin p0 Hp0 Hlo). lia. }
          rewrite Ef in Hin. by apply not_elem_of_nil in Hin.
      - assert (rs_blocks (rx_state x) = ∅) as Eb.
        { apply map_empty. intros k. destruct (rs_blocks (rx_state x) !! k) as [slot|] eqn:Ek; [|done].
          destruct (wn_only _ _ _ Hwin k slot Ek) as (j & ? & Hj & _). lia. }
        rewrite Eb. change (floor_entry c ∅) with (@None (Z * BlockSlot)). by rewrite bool_decide_true. }
    unfold walk_window in E. rewrite Hx in E. rewrite E. exists w, NeedMore, rem, n, collected. split_and!; try done; lia.
Qed.

(** ** Extending the window *)

Lemma put_block_window x lo n m e :
  window x lo n → T !! n = Some (m, e) →
  ∃ s, put_block (rx_next_read_offset x) m e (rx_state x) = Some s ∧ window (with_state (λ _, s) x) lo (Datatypes.S n) ∧ rs_blocks_epoch s = rs_blocks_epoch (rx_state x)
    ∧ rs_blocks s = <[bi_start_offset e := mkSlot m e None None]> (rs_blocks (rx_state x)).
Proof.
  intros [W1 W2 W3 W4 W5 W6 W7 W8] Hn. pose proof (tl_span HT _ _ Hn) as Hspan. cbn [snd] in Hspan.
  assert (∀ i p, (i < n)%nat → T !! i = Some p → bi_start_offset p.2 < bi_start_offset e) as Hlt.
  { intros i p Hi Hp. pose proof (tile_lt i n p _ Hi Hp Hn). pose proof (tl_span HT i p Hp). cbn [snd] in *. lia. }
  assert (∀ k a b, rs_last_block (rx_state x) = Some (k, a) → b = bi_start_offset e → a = b ∧ rs_loaded_end_offset (rx_state x) = b) as Hlast.
  { intros k a b El ->. rewrite El in W4. destruct W4 as (-> & Hn0 & q & Hq & <-). pose proof (tl_next HT (n - 1) q (m, e) Hq) as Hnext.
    replace (Datatypes.S (n - 1)) with n in Hnext by lia. by rewrite (Hnext Hn). }
  assert (rs_last_block (rx_state x) = None → within (rx_next_read_offset x) (m, e)) as Hfresh.
  { intros El. rewrite El in W4. destruct W4 as [-> _]. destruct (W7 El) as (q & Hq & ?). rewrite Hn in Hq. by injection Hq as <-. }
  eexists. unfold put_block. replace (match rs_last_block _ with None => _ | Some _ => _ end) with true.
  2: { destruct (rs_last_block (rx_state x)) as [[k a]|] eqn:El; [destruct (Hlast k a _ eq_refl eq_refl) as [-> _]; by rewrite Z.eqb_refl|].
       destruct W4 as [-> _]. destruct (Hfresh eq_refl). cbn [snd] in *. lia. }
  split; [reflexivity|]. split; [|done]. apply lookup_lt_Some in Hn as Hlen. constructor; cbn.
  - lia.
  - intros i p Hi Hp. destruct (decide (i = n)) as [->|].
    + rewrite Hn in Hp. injection Hp as <-. eexists. cbn. by rewrite lookup_insert_eq.
    + rewrite lookup_insert_ne; [apply (W2 i); [lia|done]|]. specialize (Hlt i p ltac:(lia) Hp). lia.
  - intros k slot [[<- <-]|[_ Hk]]%lookup_insert_Some; [exists n, (m, e); split_and!; [lia|lia|done..]|].
    destruct (W3 k slot Hk) as (i & p & Hi & Hp & Hk'). exists i, p. split; [lia|by split].
  - split_and!; [done|lia|]. exists (m, e). rewrite Nat.sub_0_r. done.
  - intros p Hp _. destruct (decide (lo < n)%nat) as [Hl|]; [by apply W5|]. assert (lo = n) as -> by lia. rewrite Hn in Hp. injection Hp as <-. cbn [snd].
    destruct (rs_last_block (rx_state x)) as [[k a]|] eqn:El; [|apply (Hfresh eq_refl)]. destruct (Hlast k a _ eq_refl eq_refl) as [_ E]. specialize (W8 eq_refl ltac:(done)). lia.
  - intros _. destruct (rs_last_block (rx_state x)) as [[k a]|] eqn:El.
    + destruct (Hlast k a _ eq_refl eq_refl) as [_ E]. specialize (W6 ltac:(done)). lia.
    + destruct (Hfresh eq_refl). cbn [snd] in *. lia.
  - done.
  - lia.
Qed.

(** Where a search goes on after blocks [n .. n1). *)
Definition search_from (x : Z) (n n1 : nat) : Z := match last (segment n n1) with Some p => bi_end_offset p.2 | None => x end.

Lemma put_blocks_window x lo n n1 m next :
  window x lo n → (n ≤ n1 ≤ length T)%nat → Forall (λ p, p.1 = m) (segment n n1) →
  ∃ s, put_blocks (rx_next_read_offset x) m (segment n n1).*2 next (rx_state x) = (s, Ok (search_from next n n1)) ∧ window (with_state (λ _, s) x) lo n1
    ∧ rs_blocks_epoch s = rs_blocks_epoch (rx_state x)
    ∧ ∀ k slot h, rs_blocks s !! k = Some slot → bs_data slot = Some h → rs_blocks (rx_state x) !! k = Some slot.
Proof.
  intros Hw Hn Hm. remember (n1 - n)%nat as d eqn:Ed. revert n x next Ed Hw Hn Hm; induction d as [|d IH]; intros n x next Ed Hw Hn Hm.
  { assert (n1 = n) as -> by lia. unfold search_from, segment. rewrite Nat.sub_diag. exists (rx_state x). split_and!; [done| |done|done].
    destruct x; exact Hw. }
  destruct (lookup_lt_is_Some_2 T n) as [[m' e] Hp]; [lia|]. rewrite (segment_cons n n1 _ Hp) in * by lia. apply Forall_cons in Hm as [Em Hm]. cbn in Em. subst m'.
  destruct (put_block_window x lo n m e Hw Hp) as (s1 & E1 & Hw1 & Ee1 & Eb1).
  destruct (IH (Datatypes.S n) (with_state (λ _, s1) x) (bi_end_offset e) ltac:(lia) Hw1 ltac:(lia) Hm) as (s & E & Hw' & Ee & Hd).
  exists s. cbn. rewrite E1. split_and!; [|done|by rewrite Ee|].
  - change (rx_state (with_state (λ _, s1) x)) with s1 in E. change (rx_next_read_offset (with_state (λ _, s1) x)) with (rx_next_read_offset x) in E.
    rewrite E. do 2 f_equal. unfold search_from. rewrite (segment_cons n n1 _ Hp), last_cons by lia. by destruct (last _).
  - intros k slot h Hk Hh. specialize (Hd k slot h Hk Hh). cbn in Hd. rewrite Eb1 in Hd. apply lookup_insert_Some in Hd as [[_ <-]|[_ ?]]; done.
Qed.

(** A search of the listed objects from offset [x] on finds the blocks [n .. k). *)
Fixpoint finds (x : Z) (objects : list S3ObjectMetadata) (n k : nat) : Prop :=
  match objects with
  | [] => n = k
  | m :: rest =>
      ∃ info n1, info_of m = Ok info ∧ (n ≤ n1 ≤ length T)%nat ∧ fi_blocks (find (boi_index_block info) sid x NOOP_OFFSET USIZE_MAX) = (segment n n1).*2
        ∧ Forall (λ p, p.1 = m) (segment n n1) ∧ finds (search_from x n n1) rest n1 k
  end.

Lemma finds_le x objects n k : finds x objects n k → (n ≤ k)%nat.
Proof. revert x n; induction objects as [|m l IH]; intros x n; cbn; [lia|]. intros (info & n1 & _ & Hn & _ & _ & Hf). specialize (IH _ _ Hf). lia. Qed.

Lemma at_pos_same w w' x lo n nr ep hold : w_readers w' = w_readers w → at_pos w x lo n nr ep hold → at_pos w' x lo n nr ep hold.
Proof. intros E [H1 H2 H3 H4 H5 H6]. constructor; try done. by rewrite E. Qed.

Lemma at_pos_alter w x f lo n nr ep hold lo' n' hold' :
  at_pos w x lo n nr ep hold → window (f x) lo' n' → rx_stream_id (f x) = rx_stream_id x → rx_next_read_offset (f x) = rx_next_read_offset x →
  rs_blocks_epoch (rx_state (f x)) = rs_blocks_epoch (rx_state x) → (rx_index_holder (f x) = Some false ↔ hold' = true) →
  at_pos (with_readers (alter f r) w) (f x) lo' n' nr ep hold'.
Proof. intros [H1 H2 H3 H4 H5 H6] Hw E1 E2 E3 E4. constructor; try done; [|congruence..]. cbn. by rewrite list_lookup_alter_eq, H1. Qed.

(** The window only grows, and its end with it. *)
Definition ahead (x : StreamReader) (n : nat) (x' : StreamReader) (n' : nat) : Prop :=
  (n ≤ n')%nat ∧ (n' = n → rs_loaded_end_offset (rx_state x') = rs_loaded_end_offset (rx_state x)).

Lemma ahead_trans x1 n1 x2 n2 x3 n3 : ahead x1 n1 x2 n2 → ahead x2 n2 x3 n3 → ahead x1 n1 x3 n3.
Proof. intros [A1 A2] [B1 B2]. split; [lia|]. intros ->. assert (n2 = n1) as -> by lia. by rewrite B2, A2. Qed.

Lemma ahead_loaded x n x' n' lo : window x lo n → window x' lo n' → ahead x n x' n' → rs_loaded_end_offset (rx_state x) ≤ rs_loaded_end_offset (rx_state x').
Proof. intros Hw Hw' [H1 H2]. destruct (decide (n' = n)) as [E|]; [rewrite (H2 E); lia|]. pose proof (loaded_lt x x' lo n n' Hw Hw' ltac:(lia)). lia. Qed.

Lemma kept_ahead w w1 x lo n nr ep hold :
  kept w w1 → at_pos w x lo n nr ep hold → ∃ x' n', at_pos w1 x' lo n' nr ep hold ∧ ahead x n x' n' ∧ (hold = true → n' = n).
Proof. intros Hk Hp. destruct (Hk _ _ _ _ _ _ Hp) as (x' & n' & H1 & H2 & H3 & _ & H4). exists x', n'. done. Qed.

Lemma load_objects_total objects x nfo lo n k nr ep w :
  calm w → at_pos w x lo n nr ep true → Forall listed objects → finds nfo objects n k →
  returns (load_objects r ep objects nfo) w (λ res w', res = Ok tt ∧ ∃ x', at_pos w' x' lo k nr ep true).
Proof.
  intros Hw Hpos Hl. revert x nfo n w Hw Hpos; induction Hl as [|m objects Hm Hl IH]; intros x nfo n w Hw Hpos Hf; cbn [load_objects finds] in *.
  { subst k. apply returns_return; [done|]. eauto. }
  destruct Hf as (info & n1 & Ei & Hn1 & Eblocks & Hseg & Hf).
  eapply (returns_bind _ _ _ (λ res w1, ∃ x' found, res = Ok found ∧ fi_blocks found = (segment n n1).*2
    ∧ (∀ e, e ∈ fi_blocks found → bi_stream_id e = sid ∧ sound_block sid G content (om_object_id m) e) ∧ at_pos w1 x' lo n nr ep true)).
  { apply returns_slice; [done|done|]. intros w1 Hw1 Hg1 Hk1 _. destruct (kept_ahead _ _ _ _ _ _ _ _ Hk1 Hpos) as (x1 & n' & Hpos1 & _ & Hsame). rewrite (Hsame eq_refl) in Hpos1.
    rewrite (ap_reader _ _ _ _ _ _ _ Hpos1), (ap_stream _ _ _ _ _ _ _ Hpos1). destruct (readers_get m w1) as [w2 rd] eqn:Er.
    destruct (readers_get_calm w1 m w2 rd Hw1 Hm Er) as (Hw2 & Hg2 & Erd2 & _ & o & Ho & Eo & _).
    destruct (open_find_calm w2 rd o m sid nfo NOOP_OFFSET USIZE_MAX info Hw2 Ho Hm Eo Ei) as (w3 & Ef & Hw3 & Hg3 & Erd3 & _).
    destruct (open_find_evolves sid G content listed max_size w2 rd _ _ _ _ w3 _ (ca_sound _ Hw2) Ef) as (_ & _ & Hfound). rewrite Ef.
    eexists w3, _. split_and!; [done|done|by etransitivity|]. exists x1. eexists. split_and!; [done|done| |].
    - intros e He. destruct (Hfound o _ Ho eq_refl e He) as [E1 E2]. by rewrite <- Eo.
    - eapply at_pos_same; [|exact Hpos1]. congruence. }
  intros res w1 Hw1 Hg1 (x1 & found & -> & Eb & Hsb & Hpos1). eapply (returns_bind _ _ _ (λ res w2, ∃ x', res = Some (Ok (search_from nfo n n1)) ∧ at_pos w2 x' lo n1 nr ep true)).
  { apply returns_slice; [done|done|]. intros w2 Hw2 Hg2 Hk2 _. destruct (kept_ahead _ _ _ _ _ _ _ _ Hk2 Hpos1) as (x2 & n' & Hpos2 & _ & Hsame). rewrite (Hsame eq_refl) in Hpos2.
    rewrite (ap_reader _ _ _ _ _ _ _ Hpos2), (ap_epoch _ _ _ _ _ _ _ Hpos2), Z.eqb_refl. cbn [negb].
    destruct (put_blocks_window x2 lo n n1 m nfo (ap_window _ _ _ _ _ _ _ Hpos2) Hn1 Hseg) as (s & Ep & Hwin & Ee & Hd). rewrite Eb in *. rewrite Ep.
    pose proof (put_blocks_evolves sid G content listed max_size sid w2 r x2 _ m _ nfo s _ (ca_sound _ Hw2) (ap_reader _ _ _ _ _ _ _ Hpos2) (ap_stream _ _ _ _ _ _ _ Hpos2) Hm Hsb Ep) as [Hs Hg].
    eexists _, _. split_and!; [done| |done|].
    - apply calm_reader; [done|done|]. intros x' k0 slot h Hx'. rewrite (ap_reader _ _ _ _ _ _ _ Hpos2) in Hx'. injection Hx' as <-. cbn. intros Hk0 Hh.
      eapply (ca_handles _ Hw2); [apply (ap_reader _ _ _ _ _ _ _ Hpos2)|by eapply Hd|done].
    - exists (with_state (λ _, s) x2). split; [done|]. eapply at_pos_alter; [exact Hpos2|done..|]. apply (ap_holder _ _ _ _ _ _ _ Hpos2). }
  intros next w2 Hw2 Hg2 (x2 & -> & Hpos2). eapply returns_mono; [|by eapply IH]. auto.
Qed.

(** ** Loading more of the index *)

(** The range ends in the blocks, and the metadata plane finds the block of every offset in it. *)
Context (e : Z) (z : tile) (Hz : last T = Some z) (He : e ≤ bi_end_offset z.2).
Definition listable : Prop :=
  ∀ n p x, T !! n = Some p → within x p → x < e → ∃ objects k, mgr_get_objects m0 sid x e GET_OBJECT_STEP = Some (Ok objects) ∧ finds x objects n k ∧ (n < k)%nat.
Hypothesis Hfetch : listable.

(** The block after one that ends before the range does. *)
Lemma tile_after j q : (0 < j)%nat → T !! (j - 1)%nat = Some q → bi_end_offset q.2 < e → ∃ p, T !! j = Some p ∧ within (bi_end_offset q.2) p.
Proof.
  intros Hj Hq Hlt. destruct (lookup_lt_is_Some_2 T j) as [p Hp].
  { apply lookup_lt_Some in Hq as Hl. rewrite last_lookup in Hz. destruct (decide (j = length T)) as [->|]; [|lia]. replace (pred (length T)) with (length T - 1)%nat in Hz by lia.
    rewrite Hz in Hq. injection Hq as <-. lia. }
  exists p. pose proof (tl_next HT (j - 1) q p Hq) as Hnext. replace (Datatypes.S (j - 1)) with j in Hnext by lia. specialize (Hnext Hp). pose proof (tl_span HT j p Hp).
  split; [done|]. unfold within. lia.
Qed.

(** Where the index of the window ends is where the next search begins. *)
Lemma next_search x lo n :
  window x lo n → rx_next_read_offset x < e → rs_loaded_end_offset (rx_state x) < e →
  let next := Z.max (match rs_last_block (rx_state x) with Some (_, a) => a | None => 0 end) (rx_next_read_offset x) in
  ∃ p, T !! n = Some p ∧ within next p ∧ next < e.
Proof.
  intros [W1 W2 W3 W4 W5 W6 W7 W8] Hnr Hlt. cbn zeta. destruct (rs_last_block (rx_state x)) as [[k a]|] eqn:El.
  - destruct W4 as (-> & Hn0 & q & Hq & Eq). specialize (W6 ltac:(done)). rewrite Z.max_l by lia.
    destruct (tile_after n q Hn0 Hq ltac:(lia)) as (p & Hp & Hin). exists p. rewrite <- Eq. split_and!; [done|done|lia].
  - destruct W4 as [-> _]. destruct (W7 eq_refl) as (p & Hp & Hin). pose proof (tl_span HT n p Hp). exists p. split; [done|]. unfold within in *. lia.
Qed.

Lemma window_same x x' lo n : rx_state x' = rx_state x → rx_next_read_offset x' = rx_next_read_offset x → window x lo n → window x' lo n.
Proof. intros E1 E2 [W1 W2 W3 W4 W5 W6 W7 W8]. constructor; rewrite ?E1, ?E2; done. Qed.

Lemma at_pos_holder w x lo n nr ep hold b :
  calm w → at_pos w x lo n nr ep hold →
  let w' := with_readers (alter (set_holder b) r) w in calm w' ∧ grows w w' ∧ at_pos w' (set_holder b x) lo n nr ep (bool_decide (b = Some false)).
Proof.
  intros Hw Hp. cbn zeta. split_and!; [by apply calm_fields| |].
  - apply (evolves_fields sid G content listed max_size); [apply (ca_sound _ Hw)|done].
  - eapply at_pos_alter; [exact Hp|by eapply window_same; [..|apply (ap_window _ _ _ _ _ _ _ Hp)]|done..|]. cbn. by rewrite bool_decide_eq_true.
Qed.

Lemma load_more_blocks0_total w x lo n nr ep :
  calm w → at_pos w x lo n nr ep false → nr < e →
  returns (load_more_blocks0 r false (Some e)) w (λ res w', res = Ok tt ∧ ∃ x' n', at_pos w' x' lo n' nr ep false ∧ ahead x n x' n'
    ∧ ((n < n')%nat ∨ e ≤ rs_loaded_end_offset (rx_state x'))).
Proof.
  intros Hw Hpos Hnr. unfold load_more_blocks0.
  eapply (returns_bind _ _ _ (λ _ w1, ∃ x1 n1, at_pos w1 x1 lo n1 nr ep true ∧ ahead x n x1 n1)).
  { apply returns_slice; [done| |].
    - split; [done|]. exists x. split; [apply (ap_reader _ _ _ _ _ _ _ Hpos)|]. intros E. apply (ap_holder _ _ _ _ _ _ _ Hpos) in E. done.
    - intros w1 Hw1 Hg1 Hk1 _. destruct (kept_ahead _ _ _ _ _ _ _ _ Hk1 Hpos) as (x1 & n1 & Hpos1 & Ha1 & _).
      destruct (at_pos_holder w1 x1 lo n1 nr ep false (Some false) Hw1 Hpos1) as (Hw2 & Hg2 & Hpos2). eexists _, tt. split_and!; [done..|].
      exists (set_holder (Some false) x1), n1. split; [exact Hpos2|done]. }
  intros _ w1 Hw1 Hg1 (x1 & n1 & Hpos1 & Ha1).
  eapply (returns_bind _ _ _ (λ next w2, ∃ x2, at_pos w2 x2 lo n1 nr ep true ∧ ahead x n x2 n1 ∧
    match next with
    | None => e ≤ rs_loaded_end_offset (rx_state x2)
    | Some (ep', next) => ep' = ep ∧ ∃ p, T !! n1 = Some p ∧ within next p ∧ next < e
    end)).
  { apply returns_slice; [done|done|]. intros w2 Hw2 Hg2 Hk2 _. destruct (kept_ahead _ _ _ _ _ _ _ _ Hk2 Hpos1) as (x2 & n' & Hpos2 & Ha2 & Hsame). rewrite (Hsame eq_refl) in *.
    assert (ahead x n x2 n1) as Ha by (by eapply ahead_trans). rewrite (ap_reader _ _ _ _ _ _ _ Hpos2).
    destruct (e <=? rs_loaded_end_offset (rx_state x2)) eqn:El; eexists w2, _; (split_and!; [done|done|done|]); exists x2; (split; [done|]; split; [done|]); [lia|].
    split; [apply (ap_epoch _ _ _ _ _ _ _ Hpos2)|]. apply (next_search x2 lo); [apply (ap_window _ _ _ _ _ _ _ Hpos2)|by rewrite (ap_next _ _ _ _ _ _ _ Hpos2)|lia]. }
  intros next w2 Hw2 Hg2 (x2 & Hpos2 & Ha2 & Hnext).
  eapply (returns_bind _ _ _ (λ res w3, res = Ok tt ∧ ∃ x3 n3, at_pos w3 x3 lo n3 nr ep true ∧ ahead x n x3 n3 ∧ ((n < n3)%nat ∨ e ≤ rs_loaded_end_offset (rx_state x3)))).
  { destruct next as [[ep' next]|]; [|apply returns_return; [done|]; split; [done|]; exists x2, n1; auto].
    destruct Hnext as (-> & p & Hp & Hin & Hlt). destruct (Hfetch n1 p next Hp Hin Hlt) as (objects & k & Eo & Hf & Hk).
    eapply (returns_bind _ _ _ (λ res w3, ∃ x3, res = Ok objects ∧ Forall listed objects ∧ at_pos w3 x3 lo n1 nr ep true)).
    - apply returns_slice; [done|done|]. intros w3 Hw3 Hg3 Hk3 _. destruct (kept_ahead _ _ _ _ _ _ _ _ Hk3 Hpos2) as (x3 & n' & Hpos3 & _ & Hsame). rewrite (Hsame eq_refl) in *.
      rewrite (ap_reader _ _ _ _ _ _ _ Hpos3), (ap_stream _ _ _ _ _ _ _ Hpos3), (ca_meta _ Hw3). change (default NOOP_OFFSET (Some e)) with e. rewrite Eo. eexists w3, _. split_and!; [done..|].
      exists x3. split_and!; [done| |done]. rewrite <- (ca_meta _ Hw3) in Eo. by eapply (so_meta _ _ _ _ _ _ (ca_sound _ Hw3)).
    - intros res w3 Hw3 Hg3 (x3 & -> & Hl & Hpos3). eapply returns_mono; [|by eapply load_objects_total].
      intros res w4 Hg4 (-> & x4 & Hpos4) _. split; [done|]. exists x4, k. destruct Ha2 as [Ha2 _]. split_and!; [done|split; lia|left; lia]. }
  intros res w3 Hw3 Hg3 (-> & x3 & n3 & Hpos3 & Ha3 & Hor).
  eapply (returns_bind _ _ _ (λ _ w4, ∃ x4 n4, at_pos w4 x4 lo n4 nr ep false ∧ ahead x3 n3 x4 n4)).
  { apply returns_slice; [done|done|]. intros w4 Hw4 Hg4 Hk4 _. destruct (kept_ahead _ _ _ _ _ _ _ _ Hk4 Hpos3) as (x4 & n4 & Hpos4 & Ha4 & _).
    destruct (at_pos_holder w4 x4 lo n4 nr ep true None Hw4 Hpos4) as (Hw5 & Hg5 & Hpos5). eexists _, tt. split_and!; [done..|].
    exists (set_holder None x4), n4. split; [exact Hpos5|done]. }
  intros _ w4 Hw4 Hg4 (x4 & n4 & Hpos4 & Ha4). apply returns_return; [done|]. intros _ _ _ _. split; [done|]. exists x4, n4.
  split_and!; [done|by apply (ahead_trans x n x3 n3)|].
  pose proof (ahead_loaded x3 n3 x4 n4 lo (ap_window _ _ _ _ _ _ _ Hpos3) (ap_window _ _ _ _ _ _ _ Hpos4) Ha4). destruct Ha4, Hor; [left; lia|right; lia].
Qed.

Lemma load_more_total w x lo n nr ep :
  calm w → at_pos w x lo n nr ep false → nr < e →
  returns (load_more_blocks r false (Some e)) w (λ res w', ∃ more x' n', res = Ok more ∧ at_pos w' x' lo n' nr ep false ∧ ahead x n x' n'
    ∧ ((n < n')%nat ∨ e ≤ rs_loaded_end_offset (rx_state x')) ∧ (more = false → e ≤ rs_loaded_end_offset (rx_state x'))).
Proof.
  intros Hw Hpos Hnr. unfold load_more_blocks.
  eapply (returns_bind _ _ _ (λ before w1, ∃ x1 n1, before = rs_loaded_end_offset (rx_state x1) ∧ at_pos w1 x1 lo n1 nr ep false ∧ ahead x n x1 n1)).
  { eapply returns_look; [done|exact Hpos|]. intros w1 x1 n1 _ H1 _ H2 _ H3. exists x1, n1. done. }
  intros before w1 Hw1 Hg1 (x1 & n1 & -> & Hpos1 & Ha1). eapply returns_bind; [by eapply load_more_blocks0_total|].
  intros res w2 Hw2 Hg2 (-> & x2 & n2 & Hpos2 & Ha2 & Hor).
  eapply (returns_bind _ _ _ (λ now w3, ∃ x3 n3, now = rs_loaded_end_offset (rx_state x3) ∧ at_pos w3 x3 lo n3 nr ep false ∧ ahead x2 n2 x3 n3)).
  { eapply returns_look; [done|exact Hpos2|]. intros w3 x3 n3 _ H1 _ H2 _ H3. exists x3, n3. done. }
  intros now w3 Hw3 Hg3 (x3 & n3 & -> & Hpos3 & Ha3). apply returns_return; [done|]. intros _ _ _. eexists _, x3, n3. split; [done|].
  pose proof (ap_window _ _ _ _ _ _ _ Hpos1) as Hwin1. pose proof (ap_window _ _ _ _ _ _ _ Hpos2) as Hwin2. pose proof (ap_window _ _ _ _ _ _ _ Hpos3) as Hwin3.
  pose proof (ahead_loaded x2 n2 x3 n3 lo Hwin2 Hwin3 Ha3) as Hl23. assert (ahead x1 n1 x3 n3) as Ha13 by (by eapply ahead_trans).
  split_and!; [done|by eapply (ahead_trans x n x1 n1)| |].
  - destruct Ha1, Ha3, Hor; [left; lia|right; lia].
  - intros E. destruct Hor as [Hlt|]; [|lia]. exfalso. destruct Ha3 as [Hn _]. pose proof (loaded_lt x1 x3 lo n1 n3 Hwin1 Hwin3 ltac:(lia)). lia.
Qed.

(** ** The blocks of a range *)

Lemma hands_last w a j reads :
  hands w a j reads → (j ≤ length T)%nat → ((a < j)%nat → ∃ p b, T !! (j - 1)%nat = Some p ∧ last reads = Some b ∧ br_index b = p.2) ∧ ((j ≤ a)%nat → reads = []).
Proof.
  intros [Hh _] Hj. split; intros Ha.
  - destruct (lookup_lt_is_Some_2 T (j - 1)) as [p Hp]; [lia|]. exists p. replace j with (Datatypes.S (j - 1)) in Hh by lia. rewrite (segment_snoc a (j - 1) p Hp) in Hh by lia.
    apply Forall2_app_inv_l in Hh as (l1 & l2 & _ & Hl & ->). inversion Hl as [|? b ? l [Eb _] Hnil]. subst. inversion Hnil. subst. exists b. by rewrite last_snoc.
  - unfold segment in Hh. replace (j - a)%nat with 0%nat in Hh by lia. by inversion Hh.
Qed.

(** Where a walk goes on that stopped at the end of the window. *)
Lemma walk_on w x lo n nr ep hold a i p c reads :
  at_pos w x lo n nr ep hold → (lo ≤ a ≤ i)%nat → (i ≤ n)%nat → T !! i = Some p → within c p → c < e → cursor a i c → hands w a n reads →
  ((i < n)%nat → ∀ q, T !! (n - 1)%nat = Some q → bi_end_offset q.2 < e) →
  rs_loaded_end_offset (rx_state x) < e
  ∧ ∃ p', let c' := match last reads with Some b => bi_end_offset (br_index b) | None => c end in
      T !! n = Some p' ∧ within c' p' ∧ c' < e ∧ c ≤ c' ∧ ((i < n)%nat → c < c') ∧ cursor a n c'.
Proof.
  intros [Hx Hwin Es En Ee Eh] Ha Hi Hp Hc Hce Hcur Hh Hend. destruct (wn_range _ _ _ Hwin) as [_ Hn]. destruct (hands_last w a n reads Hh Hn) as [H1 H2].
  destruct (decide (i < n)%nat) as [Hlt|Hge].
  - destruct (H1 ltac:(lia)) as (q & b & Hq & -> & Eb). specialize (Hend Hlt q Hq). cbn zeta. rewrite Eb. pose proof (wn_end _ _ _ Hwin) as Hwe.
    destruct (rs_last_block (rx_state x)) as [[k a']|]; [|lia]. destruct Hwe as (El & _ & q' & Hq' & Eq'). rewrite Hq in Hq'. injection Hq' as <-. split; [lia|].
    destruct (tile_after n q ltac:(lia) Hq ltac:(lia)) as (p' & Hp' & Hin'). exists p'. assert (c < bi_end_offset q.2) as Hcq.
    { destruct Hc. destruct (decide (i = n - 1)%nat) as [->|]; [rewrite Hp in Hq; by injection Hq as <-|].
      pose proof (tile_lt i (n - 1) p q ltac:(lia) Hp Hq). pose proof (tl_span HT _ q Hq). lia. }
    split_and!; [done|done|lia|lia|lia|]. right. split; [lia|]. exists q. done.
  - assert (i = n) as -> by lia. split.
    { destruct (decide (c < rs_loaded_end_offset (rx_state x))) as [Hc'|]; [|lia]. pose proof (loaded_reaches x lo n n p c Hwin Hp Hc Hc'). lia. }
    exists p. assert (match last reads with Some b => bi_end_offset (br_index b) | None => c end = c) as ->; [|cbn zeta; split_and!; try done; try lia; apply Hc].
    destruct Hcur as [->|(Hlt & q & Hq & ->)]; [by rewrite (H2 ltac:(lia))|]. destruct (H1 Hlt) as (q' & b & Hq' & -> & ->). rewrite Hq in Hq'. by injection Hq' as ->.
Qed.

Lemma get_blocks_total fuel c rem collected w x lo n nr ep a i p :
  calm w → at_pos w x lo n nr ep false → nr ≤ c → c < e → (lo ≤ a ≤ i)%nat → (i ≤ n)%nat → T !! i = Some p → within c p → cursor a i c → hands w a i collected →
  (if decide (i < n)%nat then 1 else 2) + (e - c) ≤ Z.of_nat fuel →
  returns (get_blocks_loop r fuel (Some e) false c rem collected) w
    (λ res w', ∃ reads x' n' j, res = Ok reads ∧ at_pos w' x' lo n' nr ep false ∧ (a < j)%nat ∧ (j ≤ n')%nat ∧ hands w' a j reads).
Proof.
  revert c rem collected w x n i p; induction fuel as [|fuel IH]; intros c rem collected w x n i p Hw Hpos Hnr Hce Ha Hi Hp Hc Hcur Hh Hfuel.
  { exfalso. destruct (decide (i < n)%nat); lia. }
  cbn [get_blocks_loop]. eapply (returns_bind _ _ _ (λ res w1, ∃ out rem' reads x1 n1 j, res = Ok (out, rem', reads) ∧ at_pos w1 x1 lo n1 nr ep false ∧ (n ≤ n1)%nat
    ∧ (i ≤ j ≤ n1)%nat ∧ hands w1 a j reads
    ∧ match out with
      | Fulfilled => (i < j)%nat
      | NeedMore => j = n1 ∧ ((i < n1)%nat → ∀ q, T !! (n1 - 1)%nat = Some q → bi_end_offset q.2 < e)
      | ReadaheadDone => False
      end)).
  { apply returns_slice; [done|done|]. intros w1 Hw1 Hg1 Hk1 _. destruct (kept_ahead _ _ _ _ _ _ _ _ Hk1 Hpos) as (x1 & n1 & Hpos1 & [Hn1 _] & _).
    destruct (walk_window_total c e rem collected w1 x1 a i lo n1 nr ep false p Hw1 Hpos1 Hnr Ha ltac:(lia) Hp Hc (hands_grows _ _ _ _ _ Hg1 Hh))
      as (w2 & out & rem' & j & reads & E & Hw2 & Hg2 & Hpos2 & Hj & Hh2 & Hout).
    eexists w2, _. split; [exact E|]. split; [done|]. split; [done|]. exists out, rem', reads, x1, n1, j. done. }
  intros res w1 Hw1 Hg1 (out & rem' & reads & x1 & n1 & j & -> & Hpos1 & Hn1 & Hj & Hh1 & Hout). destruct out; [..|done].
  { apply returns_return; [done|]. intros _. exists reads, x1, n1, j. split_and!; try done; lia. }
  destruct Hout as [-> Hend]. destruct (walk_on w1 x1 lo n1 nr ep false a i p c reads Hpos1 Ha ltac:(lia) Hp Hc Hce Hcur Hh1 Hend) as (Hle & p' & Hp' & Hc' & Hce' & Hcc & Hlt & Hcur').
  set (c' := match last reads with Some b => bi_end_offset (br_index b) | None => c end) in *.
  eapply returns_bind; [eapply load_more_total; [done|exact Hpos1|lia]|].
  intros res w2 Hw2 Hg2 (more & x2 & n2 & -> & Hpos2 & Ha2 & Hor & Hmore).
  assert (n1 < n2)%nat as Hn2. { destruct Hor as [|Hl]; [done|]. destruct Ha2 as [H1 H2]. destruct (decide (n2 = n1)) as [E|]; [|lia]. rewrite (H2 E) in Hl. lia. }
  assert (∀ w3 x3 n3, calm w3 → grows w2 w3 → at_pos w3 x3 lo n3 nr ep false → (n2 ≤ n3)%nat → returns (get_blocks_loop r fuel (Some e) false c' rem' reads) w3
    (λ res w', ∃ reads x' n' j, res = Ok reads ∧ at_pos w' x' lo n' nr ep false ∧ (a < j)%nat ∧ (j ≤ n')%nat ∧ hands w' a j reads)) as Hon.
  { intros w3 x3 n3 Hw3 Hg3 Hpos3 Hn3. eapply returns_mono; [|eapply (IH c' rem' reads w3 x3 n3 n1 p'); try done; try lia].
    - intros res w4 _ (reads' & x4 & n4 & j' & H1 & H2 & H3 & H4 & H5). exists reads', x4, n4, j'. split_and!; done.
    - eapply hands_grows; [|exact Hh1]. by etransitivity.
    - rewrite decide_True by lia. destruct (decide (i < n1)%nat) as [H|H]; [specialize (Hlt H); destruct (decide (i < n)%nat); lia|].
      rewrite decide_False in Hfuel by lia. lia. }
  destruct more; [eapply returns_mono; [|by eapply Hon]; auto|]. specialize (Hmore eq_refl).
  eapply (returns_bind _ _ _ (λ loaded w3, ∃ x3 n3, loaded = rs_loaded_end_offset (rx_state x3) ∧ at_pos w3 x3 lo n3 nr ep false ∧ ahead x2 n2 x3 n3)).
  { eapply returns_look; [done|exact Hpos2|]. intros w3 x3 n3 _ H1 _ H2 _ H3. exists x3, n3. done. }
  intros loaded w3 Hw3 Hg3 (x3 & n3 & -> & Hpos3 & Ha3).
  pose proof (ahead_loaded x2 n2 x3 n3 lo (ap_window _ _ _ _ _ _ _ Hpos2) (ap_window _ _ _ _ _ _ _ Hpos3) Ha3).
  replace (rs_loaded_end_offset (rx_state x3) <? e) with false by lia. eapply returns_mono; [|eapply Hon; [done|done|exact Hpos3|apply Ha3]]. auto.
Qed.

(** ** Reading the blocks *)

(** A read of a block of the stream returns its data. *)
Hypothesis Hload : ∀ i p res, T !! i = Some p → content (om_object_id p.1) p.2 res → ¬ unusable res.

Definition all_ready w (tiles : list tile) (reads : list BlockRead) : Prop :=
  Forall2 (handed w) tiles reads ∧ Forall (ready_read sid G content sid w) reads.

Lemma wait_all_total tiles reads w x lo n nr ep hold :
  calm w → at_pos w x lo n nr ep hold → (∀ p, p ∈ tiles → ∃ i, T !! i = Some p) → Forall2 (handed w) tiles reads → Forall (good_read sid G content sid w) reads →
  returns (wait_all reads) w (λ res w', res = Ok tt ∧ all_ready w' tiles reads ∧ ∃ x' n', at_pos w' x' lo n' nr ep hold ∧ (n ≤ n')%nat).
Proof.
  intros Hw Hpos Hin Hh Hgood. revert x n w Hw Hpos Hh Hgood; revert tiles Hin; induction reads as [|rd reads IH]; intros tiles Hin x n w Hw Hpos Hh Hgood; cbn [wait_all].
  { inversion Hh. subst. apply returns_return; [done|]. split; [done|]. split; [by split|]. exists x, n. done. }
  inversion Hh as [|p ? tiles' ? Hp Hh']. subst. apply Forall_cons in Hgood as [Hg Hgood].
  eapply (returns_bind _ _ _ (λ res w1, res = Ok tt ∧ ready_read sid G content sid w1 rd ∧ ∃ x' n', at_pos w1 x' lo n' nr ep hold ∧ (n ≤ n')%nat)).
  { apply returns_slice; [done|destruct Hp as (_ & blk & Hb & _); by eexists|]. intros w1 Hw1 Hg1 Hk1 Haw.
    destruct (kept_ahead _ _ _ _ _ _ _ _ Hk1 Hpos) as (x1 & n1 & Hpos1 & [Hn1 _] & _).
    destruct (handed_grows _ _ _ _ Hg1 Hp) as (Ei & blk & Hb & Eo). pose proof (good_read_grows sid G content sid w w1 rd Hg1 Hg) as Hgood1.
    rewrite Hb. cbn [awaited] in Haw. rewrite Hb in Haw. unfold wait_load. destruct (cb_load blk) as [[u|err]|] eqn:El; [| |done].
    - eexists w1, _. split_and!; [done..| |exists x1, n1; done]. split; [done|]. exists blk. split; [done|]. unfold is_loaded. by rewrite El.
    - exfalso. pose proof (co_blocks _ _ _ (so_cache _ _ _ _ _ _ (ca_sound _ Hw1)) _ _ Hb) as Hok. destruct (bo_failed _ _ Hok err El) as (_ & res & Hsrc & Hun).
      destruct (Hin p ltac:(left)) as [i Hi]. apply (Hload i p res Hi); [|done]. unfold source in Hsrc. rewrite <- (bo_object _ _ Hok), Eo in Hsrc.
      destruct Hgood1 as (_ & blk' & Hb' & Eix & _). rewrite Hb in Hb'. injection Hb' as <-. by rewrite <- Ei, <- Eix. }
  intros res w1 Hw1 Hg1 (-> & Hready & x1 & n1 & Hpos1 & Hn1).
  eapply returns_mono; [|eapply (IH tiles'); [intros q Hq; apply Hin; by right|done|exact Hpos1| |by eapply good_reads_grow]].
  - intros res w2 Hg2 (-> & [Hall1 Hall2] & x2 & n2 & Hpos2 & Hn2) Hg02. split; [done|]. split; [|exists x2, n2; split; [done|lia]].
    split; constructor; [by eapply handed_grows|done|eapply ready_read_grows; [exact Hg2|exact Hready]|done].
  - eapply Forall2_impl; [exact Hh'|]. intros q rd'. by apply handed_grows.
Qed.

Lemma register_total (c : BlocksCache C FreeListener) h l : ∃ c' res, register_free_listener h l c = (c', res) ∧ length (bc_shards c') = length (bc_shards c).
Proof. unfold register_free_listener. destruct (bc_heap c !! h) as [b|]; [destruct (cb_freed b)|]; eauto. Qed.

Lemma attach_data_total p rd w x lo n nr ep hold :
  calm w → at_pos w x lo n nr ep hold → handed w p rd →
  ∃ w' x', attach_data r (br_index rd) (br_handle rd) w = Some w' ∧ calm w' ∧ grows w w' ∧ at_pos w' x' lo n nr ep hold.
Proof.
  intros Hw Hpos (Ei & blk & Hb & _). pose proof (ap_reader _ _ _ _ _ _ _ Hpos) as Hx.
  pose proof (λ w', attach_data_evolves sid G content listed max_size r (br_index rd) (br_handle rd) w w' (ca_sound _ Hw)) as Hev. unfold attach_data in *. rewrite Hx in *.
  destruct (rs_blocks (rx_state x) !! bi_start_offset (br_index rd)) as [slot|] eqn:Hk; [|by exists w, x].
  case_bool_decide as Eix; cbn [negb] in *; [|by exists w, x]. case_bool_decide; [by exists w, x|].
  set (c0 := with_heap _ _) in *. destruct (register_total c0 (br_handle rd) (mkListener r (bi_start_offset (br_index rd)))) as (c & res & E & El). rewrite E in *.
  destruct (Hev _ eq_refl) as [Hs Hg].
  pose proof (attach_cache_evolves content max_size (w_cache w) (w_now w) _ _ (bs_free_listener slot) c res (so_cache _ _ _ _ _ _ (ca_sound _ Hw)) E) as Hc.
  assert (length (bc_shards c) = length (bc_shards (w_cache w))) as Els by (rewrite El; subst c0; by destruct (bs_free_listener slot)).
  set (f := with_state _) in *. exists (with_readers (alter f r) (with_cache c w)), (f x). split; [done|].
  pose proof (calm_cache w c Hw Hc Els) as Hwc. set (slot' := mkSlot (bs_metadata slot) (bs_index slot) (Some (br_handle rd)) res) in f.
  assert (at_pos (with_cache c w) x lo n nr ep hold) as Hposc by (by eapply at_pos_same; [|exact Hpos]). split_and!; [|done|].
  - apply calm_reader; [done|done|]. intros x' k s' h Hx'. cbn in Hx'. rewrite Hx in Hx'. injection Hx' as <-. cbn. rewrite lookup_insert_Some. intros [[_ <-]|[_ Hs']].
    + intros [= <-]. eapply heap_grows_some; [apply Hc|]. by rewrite Hb.
    + intros Hd. by eapply (ca_handles _ Hwc); [exact Hx|exact Hs'|].
  - eapply at_pos_alter; [exact Hposc| |done..|apply (ap_holder _ _ _ _ _ _ _ Hpos)]. destruct (ap_window _ _ _ _ _ _ _ Hpos) as [W1 W2 W3 W4 W5 W6 W7 W8]. constructor; try done; cbn.
    + intros i q Hi Hq. destruct (W2 i q Hi Hq) as (s' & Hs' & Hof). destruct (decide (bi_start_offset q.2 = bi_start_offset (br_index rd))) as [Eq|].
      * exists slot'. rewrite Eq in Hs' |- *. rewrite Hk in Hs'. injection Hs' as <-. by rewrite lookup_insert_eq.
      * exists s'. by rewrite lookup_insert_ne.
    + intros k s' [[<- <-]|[_ Hs']]%lookup_insert_Some; [exact (W3 _ slot Hk)|by apply W3].
Qed.

Lemma attach_all_total tiles reads w x lo n nr ep hold :
  calm w → at_pos w x lo n nr ep hold → Forall2 (handed w) tiles reads →
  ∃ w' x', attach_all r reads w = Some w' ∧ calm w' ∧ grows w w' ∧ at_pos w' x' lo n nr ep hold.
Proof.
  revert tiles w x; induction reads as [|rd reads IH]; intros tiles w x Hw Hpos Hh; cbn; [by exists w, x|].
  inversion Hh as [|p ? tiles' ? Hp Hh']. subst. destruct (attach_data_total p rd w x lo n nr ep hold Hw Hpos Hp) as (w1 & x1 & -> & Hw1 & Hg1 & Hpos1).
  destruct (IH tiles' w1 x1 Hw1 Hpos1) as (w2 & x2 & -> & Hw2 & Hg2 & Hpos2).
  { eapply Forall2_impl; [exact Hh'|]. intros q rd'. by apply handed_grows. }
  exists w2, x2. split_and!; [done|done|by etransitivity|done].
Qed.

Lemma records_between_elem start stop rem all (rec : StreamRecordBatch) : rec ∈ records_between start stop rem all → rec ∈ all ∧ start < last_offset rec.
Proof.
  revert rem; induction all as [|a all IH]; intros rem; cbn; [by intros ?%not_elem_of_nil|]. destruct (_ && _) eqn:E; [destruct (_ <=? 0)|destruct (_ <=? _)].
  - intros ->%list_elem_of_singleton. split; [left|lia].
  - intros [->|[? ?]%IH]%elem_of_cons; (split; [|first [done|lia]]); [left|by right].
  - by intros ?%not_elem_of_nil.
  - intros [? ?]%IH. split; [by right|done].
Qed.

(** The records of a block end within it. *)
Lemma fills_bound ix rs rec : fills G ix rs → rec ∈ rs → last_offset rec ≤ bi_end_offset ix.
Proof.
  intros (l1 & l2 & a & y & EG & Ha & Hy & Ea & Ey) Hin. apply last_Some in Hy as [k ->]. rewrite <- Ey.
  assert (G = (l1 ++ k) ++ y :: l2) as EG' by (rewrite EG, <- !app_assoc; done). rewrite EG' in HG.
  apply elem_of_app in Hin as [Hin| ->%list_elem_of_singleton]; [|lia]. pose proof (record_chain_before sid (l1 ++ k) y l2 rec HG ltac:(apply elem_of_app; by right)).
  pose proof (rc_span _ _ HG y ltac:(apply elem_of_app; right; left)). lia.
Qed.

(** The records of a batch of ready blocks from the one that holds [c] on. *)
Lemma extract_total tiles reads records c rem w i p :
  calm w → all_ready w tiles reads → tiles = segment i (i + length tiles) → tiles ≠ [] → T !! i = Some p → within c p → c < e → (i + length tiles ≤ length T)%nat →
  ∃ records' c' rem' ful q, extract e reads records c rem (bc_heap (w_cache w)) = Some (Ok (records', c', rem', ful))
    ∧ T !! (i + length tiles - 1)%nat = Some q ∧ (∀ rec, rec ∈ records' → rec ∈ records ∨ c < last_offset rec ≤ bi_end_offset q.2) ∧ (ful = false → c' = bi_end_offset q.2 ∧ c < c').
Proof.
  intros Hw. revert tiles i p records c rem; induction reads as [|rd reads IH]; intros tiles i p records c rem [Hh Hr] Et Hne Hp Hc Hce Hlen; [by inversion Hh; subst|].
  inversion Hh as [|p' ? tiles' ? Hp' Hh']. subst tiles. clear Hne. subst. cbn [length] in *. rewrite (segment_cons i _ p Hp) in Et by lia. injection Et as -> Et.
  apply Forall_cons in Hr as [[(Es & blk & Hb & Ei & Hsb) (blk' & Hb' & Hl)] Hr]. rewrite Hb in Hb'. injection Hb' as <-. destruct Hp' as (Eix & _). cbn [extract].
  rewrite Eix. destruct Hc as [Hc1 Hc2]. replace ((c <? bi_start_offset p.2) || (bi_end_offset p.2 <=? c)) with false by lia. rewrite Hb.
  destruct (bo_loaded _ _ (co_blocks _ _ _ (so_cache _ _ _ _ _ _ (ca_sound _ Hw)) _ _ Hb) Hl) as (data & rs & Hsrc & Hdec & Hrs).
  assert (fills G p.2 rs) as Hfill.
  { rewrite <- Eix. apply (Hsb Es data); [|done]. rewrite <- Ei. unfold source in Hsrc. by rewrite (bo_object _ _ (co_blocks _ _ _ (so_cache _ _ _ _ _ _ (ca_sound _ Hw)) _ _ Hb)). }
  unfold get_records. rewrite Hrs. set (new := records_between _ _ _ _).
  assert (∀ rec, rec ∈ new → c < last_offset rec ≤ bi_end_offset p.2) as Hnew.
  { intros rec [Hin Hlt]%records_between_elem. split; [done|by eapply fills_bound]. }
  assert (∀ q, T !! (i + Datatypes.S (length tiles') - 1)%nat = Some q → bi_end_offset p.2 ≤ bi_end_offset q.2) as Hend.
  { intros q Hq. destruct (decide (i = i + Datatypes.S (length tiles') - 1)%nat) as [E|]; [rewrite <- E, Hp in Hq; injection Hq as ->; lia|].
    pose proof (tile_lt i (i + Datatypes.S (length tiles') - 1) p q ltac:(lia) Hp Hq). pose proof (tl_span HT _ q Hq). lia. }
  destruct (lookup_lt_is_Some_2 T (i + Datatypes.S (length tiles') - 1)%nat) as [q Hq]; [lia|].
  set (rem1 := rem - _). destruct ((e <=? Z.min e (bi_end_offset p.2)) || (rem1 <=? 0)) eqn:Estop.
  { exists (records ++ new), (Z.min e (bi_end_offset p.2)), rem1, true, q. split_and!; [done|done| |done]. intros rec [?|Hin]%elem_of_app; [by left|]. specialize (Hnew rec Hin). specialize (Hend q Hq). lia. }
  rewrite Z.min_r by lia. destruct tiles' as [|p2 tiles'].
  { inversion Hh'. subst. exists (records ++ new), (bi_end_offset p.2), rem1, false, q. cbn [length] in *. replace (i + 1 - 1)%nat with i in Hq |- * by lia. rewrite Hp in Hq. injection Hq as <-.
    split_and!; [done|done| |done]. intros rec [?|Hin]%elem_of_app; [by left|]. right. by apply Hnew. }
  cbn [length] in *. replace (i + Datatypes.S (Datatypes.S (length tiles')))%nat with (Datatypes.S i + Datatypes.S (length tiles'))%nat in * by lia.
  destruct (lookup_lt_is_Some_2 T (Datatypes.S i)) as [p2' Hp2]; [lia|]. pose proof (tl_next HT i p p2' Hp Hp2) as Hnext. pose proof (tl_span HT _ p2' Hp2).
  destruct (IH (p2 :: tiles') (Datatypes.S i) p2' (records ++ new) (bi_end_offset p.2) rem1) as (records' & c' & rem' & ful & q' & -> & Hq' & Hrec & Hful); try done; [unfold within; lia|lia|].
  cbn [length] in Hq'. rewrite Hq in Hq'. injection Hq' as <-. exists records', c', rem', ful, q. split_and!; [done|done| |].
  - intros rec Hin. destruct (Hrec rec Hin) as [[?|Hin']%elem_of_app|?]; [by left| |lia]. specialize (Hnew rec Hin'). specialize (Hend q Hq). lia.
  - intros E. destruct (Hful E). split; [done|lia].
Qed.

Lemma segment_length a b : (b ≤ length T)%nat → length (segment a b) = (b - a)%nat.
Proof. intros Hb. unfold segment. rewrite length_take, length_drop. lia. Qed.

(** Attaching and extracting a batch. *)
Lemma batch_total reads records c rem w x lo n nr ep i j p :
  calm w → at_pos w x lo n nr ep false → all_ready w (segment i j) reads → (lo ≤ i < j)%nat → (j ≤ n)%nat → T !! i = Some p → within c p → c < e →
  ∃ w' x' records' c' rem' ful q, attach_all r reads w = Some w' ∧ extract e reads records c rem (bc_heap (w_cache w')) = Some (Ok (records', c', rem', ful))
    ∧ calm w' ∧ grows w w' ∧ at_pos w' x' lo n nr ep false ∧ T !! (j - 1)%nat = Some q
    ∧ (∀ rec, rec ∈ records' → rec ∈ records ∨ c < last_offset rec ≤ bi_end_offset q.2)
    ∧ (ful = false → c' = bi_end_offset q.2 ∧ c < c' < e) ∧ records ++ wanted e c rem G = records' ++ (if (ful : bool) then [] else wanted e c' rem' G).
Proof.
  intros Hw Hpos [Hh Hr] Hi Hj Hp Hc Hce. destruct (wn_range _ _ _ (ap_window _ _ _ _ _ _ _ Hpos)) as [_ Hn].
  destruct (attach_all_total _ _ _ _ _ _ _ _ _ Hw Hpos Hh) as (w' & x' & Ea & Hw' & Hg & Hpos').
  assert (all_ready w' (segment i j) reads) as Hready.
  { split; [eapply Forall2_impl; [exact Hh|]; intros q rd; by apply handed_grows|]. eapply Forall_impl; [exact Hr|]. intros rd. by apply ready_read_grows. }
  assert (length (segment i j) = j - i)%nat as El by (apply segment_length; lia).
  destruct (extract_total (segment i j) reads records c rem w' i p) as (records' & c' & rem' & ful & q & Ee & Hq & Hrec & Hful); try done.
  { rewrite El. by replace (i + (j - i))%nat with j by lia. }
  { intros E. rewrite E in El. cbn in El. lia. }
  { rewrite El. lia. }
  rewrite El in Hq. replace (i + (j - i) - 1)%nat with (j - 1)%nat in Hq by lia. exists w', x', records', c', rem', ful, q. split_and!; try done.
  - intros E. destruct (Hful E) as [E1 E2]. split; [done|]. split; [done|]. subst ful. by eapply extract_next.
  - apply (extract_right sid G HG content listed max_size sid w' e reads records c rem (records', c', rem', ful)); try done; [apply (ca_sound _ Hw')|apply Hready].
Qed.

Lemma read0_loop_total fuel bf records access c rem w x lo n nr ep i p :
  calm w → at_pos w x lo n nr ep false → nr ≤ c → c < e → (lo ≤ i ≤ n)%nat → T !! i = Some p → within c p → e - c ≤ Z.of_nat fuel → 2 + (e - c) ≤ Z.of_nat bf →
  (∀ rec, rec ∈ records → nr ≤ last_offset rec ≤ c) →
  returns (read0_loop r fuel bf e records access c rem) w (λ res w', ∃ rd x' n' j q, res = Ok rd ∧ rd_records rd = records ++ wanted e c rem G ∧ at_pos w' x' lo n' nr ep false
    ∧ (lo ≤ j < n')%nat ∧ T !! j = Some q ∧ ∀ rec, rec ∈ rd_records rd → nr ≤ last_offset rec ≤ bi_end_offset q.2).
Proof.
  revert records access c rem w x n i p; induction fuel as [|fuel IH]; intros records access c rem w x n i p Hw Hpos Hnr Hce Hi Hp Hc Hfuel Hbf Hrec; [lia|].
  cbn [read0_loop]. eapply returns_bind.
  { eapply (get_blocks_total bf c _ [] w x lo n nr ep i i p); try done; try lia; [by left|split; [|done]; unfold segment; rewrite Nat.sub_diag; constructor|].
    destruct (decide (i < n)%nat); lia. }
  intros res w1 Hw1 Hg1 (reads & x1 & n1 & j & -> & Hpos1 & Hj & Hjn & [Hh Hgood]). destruct (wn_range _ _ _ (ap_window _ _ _ _ _ _ _ Hpos1)) as [_ Hn1].
  destruct reads as [|rd0 reads0] eqn:Ereads; [exfalso; rewrite (segment_cons i j p Hp Hj) in Hh; inversion Hh|]. rewrite <- Ereads in *. clear Ereads rd0 reads0.
  eapply returns_bind; [eapply (wait_all_total (segment i j) reads w1 x1 lo n1 nr ep false); try done; intros q (k & _ & Hk)%segment_elem; by exists k|].
  intros res w2 Hw2 Hg2 (-> & Hready & x2 & n2 & Hpos2 & Hn2).
  eapply (returns_bind _ _ _ (λ res w3, ∃ x3 n3 records' c' rem' ful q, res = Ok (records', c', rem', ful) ∧ at_pos w3 x3 lo n3 nr ep false ∧ (n1 ≤ n3)%nat ∧ T !! (j - 1)%nat = Some q
    ∧ (∀ rec, rec ∈ records' → rec ∈ records ∨ c < last_offset rec ≤ bi_end_offset q.2)
    ∧ (ful = false → c' = bi_end_offset q.2 ∧ c < c' < e) ∧ records ++ wanted e c rem G = records' ++ (if (ful : bool) then [] else wanted e c' rem' G))).
  { apply returns_slice; [done|done|]. intros w3 Hw3 Hg3 Hk3 _. destruct (kept_ahead _ _ _ _ _ _ _ _ Hk3 Hpos2) as (x3 & n3 & Hpos3 & [Hn3 _] & _).
    assert (all_ready w3 (segment i j) reads) as Hready3.
    { destruct Hready as [H1 H2]. split; [eapply Forall2_impl; [exact H1|]; intros q rd; by apply handed_grows|]. eapply Forall_impl; [exact H2|]. intros rd. by apply ready_read_grows. }
    destruct (batch_total reads records c rem w3 x3 lo n3 nr ep i j p) as (w4 & x4 & records' & c' & rem' & ful & q & -> & -> & Hw4 & Hg4 & Hpos4 & Hrest); try done; try lia.
    eexists w4, _. split; [done|]. split; [done|]. split; [done|]. exists x4, n3, records', c', rem', ful, q. split; [done|]. split; [done|]. split; [lia|done]. }
  intros res w3 Hw3 Hg3 (x3 & n3 & records' & c' & rem' & ful & q & -> & Hpos3 & Hn3 & Hq & Hrec' & Hful & Hwant).
  assert (c < bi_end_offset q.2) as Hcq.
  { destruct Hc. destruct (decide (i = j - 1)%nat) as [->|]; [rewrite Hp in Hq; by injection Hq as <-|]. pose proof (tile_lt i (j - 1) p q ltac:(lia) Hp Hq). pose proof (tl_span HT _ q Hq). lia. }
  assert (∀ rec, rec ∈ records' → nr ≤ last_offset rec ≤ bi_end_offset q.2) as Hbound.
  { intros rec Hin. destruct (Hrec' rec Hin) as [H|]; [specialize (Hrec rec H)|]; lia. }
  destruct reads as [|rd0 reads0]; [destruct Hready as [Hh2 _]; rewrite (segment_cons i j p Hp Hj) in Hh2; inversion Hh2|]. destruct ful.
  { apply returns_return; [done|]. intros _ _ _. eexists _, x3, n3, (j - 1)%nat, q. split; [done|]. cbn [rd_records]. split; [by rewrite Hwant, app_nil_r|]. split_and!; try done; lia. }
  destruct (Hful eq_refl) as [-> Hlt]. replace (bi_end_offset q.2 =? c) with false by lia. destruct (tile_after j q ltac:(lia) Hq ltac:(lia)) as (p' & Hp' & Hin').
  eapply returns_mono; [|eapply (IH records' _ (bi_end_offset q.2) rem' w3 x3 n3 j p'); try done; try lia].
  intros res w4 _ (rd & x4 & n4 & j' & q' & -> & Erd & Hpos4 & Hj' & Hq' & Hb) _ _ _. exists rd, x4, n4, j', q'. split; [done|]. split; [by rewrite Hwant|done].
Qed.

(** ** After the read *)

Lemma retire_slots_total slots c :
  cache_ok (source content) max_size c → (∀ s h, s ∈ slots → bs_data s = Some h → is_Some (bc_heap c !! h)) →
  ∃ c', retire_slots slots c = Some c' ∧ cache_evolves content max_size c c' ∧ length (bc_shards c') = length (bc_shards c).
Proof.
  revert c; induction slots as [|s slots IH]; intros c Hc Hh; cbn; [by exists c|].
  assert (∃ c1, retire_slot s c = Some c1 ∧ length (bc_shards c1) = length (bc_shards c)) as (c1 & E1 & El1).
  { unfold retire_slot. destruct (bs_data s) as [h|] eqn:Ed; [|by destruct (bs_free_listener s); eexists]. destruct (Hh s h ltac:(left) Ed) as [b Hb].
    assert (∃ c1, mark_read h c = Some c1) as [c1 E].
    { unfold mark_read. rewrite Hb. cbn. destruct (0 <? _); [by eexists|]. destruct (remove_if_same _ _ _). by eexists. }
    rewrite E. eexists. split; [done|]. rewrite <- (shards_step (CacheMarkRead h) c c1 E). by destruct (bs_free_listener s). }
  rewrite E1. pose proof (retire_slot_evolves content max_size s c c1 Hc E1) as H1.
  destruct (IH c1 (proj1 H1)) as (c' & -> & Hc' & El').
  { intros s' h Hs' Hd. eapply heap_grows_some; [apply H1|]. apply (Hh s'); [by right|done]. }
  exists c'. split; [done|]. split; [by eapply cache_evolves_trans|congruence].
Qed.

(** Which slots are passed: those of the blocks before [lo']. *)
Lemma passed_prefix x lo n :
  window x lo n → ∃ lo', (lo ≤ lo' ≤ n)%nat
    ∧ take_while (λ p, bi_end_offset (bs_index p.2) <=? rx_next_read_offset x) (entries (rs_blocks (rx_state x))) = entry_of (rs_blocks (rx_state x)) <$> segment lo lo'
    ∧ ((lo < lo')%nat → ∀ q, T !! (lo' - 1)%nat = Some q → bi_end_offset q.2 ≤ rx_next_read_offset x).
Proof.
  intros Hw. rewrite (window_entries x lo n Hw). destruct (wn_range _ _ _ Hw) as [Hln Hn].
  assert (∀ i p, (lo ≤ i < n)%nat → T !! i = Some p → bi_end_offset (bs_index (entry_of (rs_blocks (rx_state x)) p).2) = bi_end_offset p.2) as Hidx.
  { intros i p Hi Hp. destruct (wn_slots _ _ _ Hw i p Hi Hp) as (slot & Hs & _ & Ei). unfold entry_of. cbn. rewrite Hs. cbn. by rewrite Ei. }
  remember (n - lo)%nat as d eqn:Ed. assert (∀ a, (lo ≤ a ≤ n)%nat → (n - a)%nat = d → ∃ lo', (a ≤ lo' ≤ n)%nat
    ∧ take_while (λ p, bi_end_offset (bs_index p.2) <=? rx_next_read_offset x) (entry_of (rs_blocks (rx_state x)) <$> segment a n) = entry_of (rs_blocks (rx_state x)) <$> segment a lo'
    ∧ ((a < lo')%nat → ∀ q, T !! (lo' - 1)%nat = Some q → bi_end_offset q.2 ≤ rx_next_read_offset x)) as Hgen; [|by apply Hgen; [lia|]].
  clear Ed. induction d as [|d IH]; intros a Ha Ed.
  { exists a. unfold segment. rewrite Ed, Nat.sub_diag. split_and!; [lia|lia|done|intros ?; lia]. }
  destruct (lookup_lt_is_Some_2 T a) as [p Hp]; [lia|]. rewrite (segment_cons a n p Hp) by lia. cbn [fmap list_fmap take_while].
  rewrite (Hidx a p ltac:(lia) Hp). destruct (bi_end_offset p.2 <=? rx_next_read_offset x) eqn:Ee.
  - destruct (IH (Datatypes.S a) ltac:(lia) ltac:(lia)) as (lo' & Hlo' & -> & Hpass). exists lo'. split; [lia|]. rewrite (segment_cons a lo' p Hp) by lia. split; [done|].
    intros _ q Hq. destruct (decide (Datatypes.S a < lo')%nat); [by apply Hpass|]. replace (lo' - 1)%nat with a in Hq by lia. rewrite Hp in Hq. injection Hq as <-. lia.
  - exists a. unfold segment. rewrite Nat.sub_diag. split_and!; [lia|lia|done|intros ?; lia].
Qed.

Lemma drop_passed x lo n lo' :
  window x lo n → (lo ≤ lo' ≤ n)%nat → ((lo < lo')%nat → ∀ q, T !! (lo' - 1)%nat = Some q → bi_end_offset q.2 ≤ rx_next_read_offset x) →
  window (with_state (with_blocks (foldr (λ p m, delete p.1 m) (rs_blocks (rx_state x)) (entry_of (rs_blocks (rx_state x)) <$> segment lo lo'))) x) lo' n.
Proof.
  intros [W1 W2 W3 W4 W5 W6 W7 W8] Hlo Hpass.
  assert (∀ k, k ∈ (entry_of (rs_blocks (rx_state x)) <$> segment lo lo').*1 ↔ ∃ i p, (lo ≤ i < lo')%nat ∧ T !! i = Some p ∧ k = bi_start_offset p.2) as Hkeys.
  { intros k. rewrite <- list_fmap_compose, list_elem_of_fmap. setoid_rewrite segment_elem. split; [intros (p & -> & i & ? & ?)|intros (i & p & ? & ? & ->)]; eauto. }
  assert (∀ i j p q, (i < j)%nat → T !! i = Some p → T !! j = Some q → bi_start_offset p.2 ≠ bi_start_offset q.2) as Hne.
  { intros i j p q Hij Hp Hq. pose proof (tile_lt i j p q Hij Hp Hq). pose proof (tl_span HT i p Hp). lia. }
  constructor; cbn.
  - lia.
  - intros i p Hi Hp. destruct (W2 i p ltac:(lia) Hp) as (slot & Hs & Hof). exists slot. split; [|done]. apply lookup_foldr_delete. split; [done|].
    intros (j & q & Hj & Hq & E)%Hkeys. by apply (Hne j i q p ltac:(lia) Hq Hp).
  - intros k slot [Hk Hnot]%lookup_foldr_delete. destruct (W3 k slot Hk) as (i & p & Hi & Hp & -> & Hof). exists i, p. split; [|by split_and!]. split; [|lia].
    destruct (decide (lo' ≤ i)%nat); [done|]. exfalso. apply Hnot, Hkeys. exists i, p. split_and!; [lia|lia|done..].
  - destruct (rs_last_block (rx_state x)) as [[k a]|]; [done|]. destruct W4. split; [lia|done].
  - intros p Hp Hlt. destruct (decide (lo < lo')%nat) as [H|]; [|assert (lo' = lo) as -> by lia; apply W5; [done|lia]].
    destruct (lookup_lt_is_Some_2 T (lo' - 1)) as [q Hq]; [lia|]. specialize (Hpass H q Hq). pose proof (tl_next HT (lo' - 1) q p Hq) as Hnext.
    replace (Datatypes.S (lo' - 1)) with lo' in Hnext by lia. specialize (Hnext Hp). lia.
  - done.
  - intros El. rewrite El in W4. destruct W4 as [-> _]. destruct (W7 El) as (p & Hp & Hin). exists p. split; [|done]. by replace lo' with n by lia.
  - intros -> Hlast. destruct (decide (lo < n)%nat) as [H|]; [|apply W8; [lia|done]]. destruct (rs_last_block (rx_state x)) as [[k a]|]; [|done].
    destruct W4 as (-> & _ & q & Hq & <-). by apply (Hpass H q Hq).
Qed.

Lemma moved_window x lo n j q o :
  window x lo n → (lo ≤ j < n)%nat → T !! j = Some q → rx_next_read_offset x ≤ o ≤ bi_end_offset q.2 → window (set_next_read o x) lo n.
Proof.
  intros [W1 W2 W3 W4 W5 W6 W7 W8] Hj Hq Ho. constructor; try done; cbn.
  - intros p Hp Hlt. specialize (W5 p Hp Hlt). lia.
  - intros Hlast. destruct (rs_last_block (rx_state x)) as [[k a]|]; [|done]. destruct W4 as (-> & _ & q' & Hq' & <-).
    destruct (decide (j = n - 1)%nat) as [->|]; [rewrite Hq in Hq'; injection Hq' as <-; lia|]. pose proof (tile_lt j (n - 1) q q' ltac:(lia) Hq Hq'). pose proof (tl_span HT _ q' Hq'). lia.
  - intros El. rewrite El in W4. lia.
  - lia.
Qed.

Lemma calm_spawn w t : calm w → calm (spawn t w).
Proof. intros Hw. pose proof (evolves_spawn sid G content listed max_size w t (ca_sound _ Hw)) as [Hs _]. destruct Hw as [H1 H2 H3 H4 H5 H6]. by constructor. Qed.

(** Where the reader stands after it returned these records. *)
Definition next_offset (start : Z) (records : list StreamRecordBatch) : Z := match last records with Some rec => last_offset rec | None => start end.

Lemma after_read_total rd w x lo n nr ep j q :
  calm w → at_pos w x lo n nr ep false → (lo ≤ j < n)%nat → T !! j = Some q → (∀ rec, rec ∈ rd_records rd → nr ≤ last_offset rec ≤ bi_end_offset q.2) →
  returns (after_read r rd) w (λ _ w', ∃ x' lo' n', at_pos w' x' lo' n' (next_offset nr (rd_records rd)) ep false).
Proof.
  intros Hw Hpos Hj Hq Hrec. unfold after_read.
  eapply (returns_bind _ _ _ (λ _ w1, ∃ x1 n1, at_pos w1 x1 lo n1 (next_offset nr (rd_records rd)) ep false)).
  { apply returns_slice; [done|done|]. intros w1 Hw1 Hg1 Hk1 _. destruct (kept_ahead _ _ _ _ _ _ _ _ Hk1 Hpos) as (x1 & n1 & Hpos1 & [Hn1 _] & _). unfold next_offset.
    destruct (last (rd_records rd)) as [rec|] eqn:El; [|exists w1, tt; split_and!; [done..|exists x1, n1; done]].
    apply last_Some_elem_of in El. specialize (Hrec rec El). eexists _, tt. split; [done|]. split; [by apply calm_fields|].
    split; [by apply (evolves_fields sid G content listed max_size); [apply (ca_sound _ Hw1)|]|]. exists (set_next_read (last_offset rec) x1), n1.
    destruct Hpos1 as [P1 P2 P3 P4 P5 P6]. constructor; try done; [cbn; by rewrite list_lookup_alter_eq, P1|].
    eapply (moved_window x1 lo n1 j q); [done|lia|done|]. rewrite P4. done. }
  intros _ w1 Hw1 Hg1 (x1 & n1 & Hpos1). apply returns_slice; [done|done|]. intros w2 Hw2 Hg2 Hk2 _. destruct (kept_ahead _ _ _ _ _ _ _ _ Hk2 Hpos1) as (x2 & n2 & Hpos2 & _ & _).
  pose proof (ap_reader _ _ _ _ _ _ _ Hpos2) as Hx2. rewrite Hx2. destruct (passed_prefix x2 lo n2 (ap_window _ _ _ _ _ _ _ Hpos2)) as (lo' & Hlo' & Epass & Hpass). rewrite Epass.
  set (passed := entry_of (rs_blocks (rx_state x2)) <$> segment lo lo') in *.
  destruct (retire_slots_total passed.*2 (w_cache w2)) as (c & -> & Hc & El); [apply (so_cache _ _ _ _ _ _ (ca_sound _ Hw2))| |].
  { intros s h Hs. assert (∃ k, rs_blocks (rx_state x2) !! k = Some s) as [k Hk]; [|by eapply (ca_handles _ Hw2)].
    apply list_elem_of_fmap in Hs as (e' & -> & (p & -> & (i & Hi & Hp)%segment_elem)%list_elem_of_fmap).
    destruct (wn_slots _ _ _ (ap_window _ _ _ _ _ _ _ Hpos2) i p ltac:(lia) Hp) as (slot & Hs & _). exists (bi_start_offset p.2). cbn. by rewrite Hs. }
  set (f := with_state _). pose proof (calm_cache w2 c Hw2 Hc El) as Hwc.
  assert (evolves w2 (with_readers (alter f r) (with_cache c w2))) as [Hs3 Hg3].
  { apply evolves_reader_cache; [apply (ca_sound _ Hw2)|done|]. intros x' Hx'. rewrite Hx2 in Hx'. injection Hx' as <-.
    apply (fewer_slots sid G content listed max_size w2 r x2 f); [apply (ca_sound _ Hw2)|done|done|]. apply foldr_delete_subset. }
  assert (calm (with_readers (alter f r) (with_cache c w2))) as Hw3.
  { apply calm_reader; [done|done|]. cbn. intros x' k slot h Hx'. rewrite Hx2 in Hx'. injection Hx' as <-. intros [Hk _]%lookup_foldr_delete Hd. by eapply (ca_handles _ Hwc); [exact Hx2|..]. }
  eexists _, tt. split; [done|]. split; [by apply calm_spawn|]. split; [etransitivity; [exact Hg3|apply (evolves_spawn sid G content listed max_size _ _ Hs3)]|]. intros _.
  exists (f x2), lo', n2. eapply (at_pos_same (with_readers (alter f r) (with_cache c w2))); [done|]. eapply at_pos_alter; [by eapply at_pos_same; [|exact Hpos2]| |done..|].
  - by apply (drop_passed x2 lo n2 lo' (ap_window _ _ _ _ _ _ _ Hpos2)).
  - apply (ap_holder _ _ _ _ _ _ _ Hpos2).
Qed.

(** The block a reader stands in. *)
Lemma position x lo n : window x lo n → rx_next_read_offset x < e → ∃ i p, (lo ≤ i ≤ n)%nat ∧ T !! i = Some p ∧ within (rx_next_read_offset x) p.
Proof.
  intros Hw Hlt. destruct (wn_range _ _ _ Hw) as [Hln _]. pose proof (wn_end _ _ _ Hw) as Hend. destruct (rs_last_block (rx_state x)) as [[k a]|] eqn:El.
  - destruct Hend as (Ea & Hn0 & q & Hq & Eq). pose proof (wn_high _ _ _ Hw ltac:(by rewrite El)) as Hhigh.
    destruct (decide (rx_next_read_offset x = rs_loaded_end_offset (rx_state x))) as [E|].
    + destruct (tile_after n q Hn0 Hq ltac:(lia)) as (p & Hp & Hin). exists n, p. split_and!; [lia|lia|done|]. by rewrite E, <- Ea, <- Eq.
    + assert (lo < n)%nat. { destruct (decide (lo = n)) as [E|]; [|lia]. pose proof (wn_passed _ _ _ Hw E ltac:(by rewrite El)). lia. }
      destruct (locate x lo n (rx_next_read_offset x) Hw) as (i & p & Hi & Hp & Hin); [done|lia|]. exists i, p. split_and!; [lia|lia|done|done].
  - destruct Hend as [-> _]. destruct (wn_fresh _ _ _ Hw El) as (p & Hp & Hin). exists n, p. done.
Qed.

Lemma at_pos_fields w x lo n nr ep hold f :
  calm w → at_pos w x lo n nr ep hold →
  (∀ x, rx_state (f x) = rx_state x ∧ rx_next_read_offset (f x) = rx_next_read_offset x ∧ rx_stream_id (f x) = rx_stream_id x ∧ rx_index_holder (f x) = rx_index_holder x) →
  let w' := with_readers (alter f r) w in calm w' ∧ grows w w' ∧ at_pos w' (f x) lo n nr ep hold.
Proof.
  intros Hw Hp Hf. cbn zeta. assert (∀ x, rx_stream_id (f x) = rx_stream_id x ∧ rs_blocks (rx_state (f x)) = rs_blocks (rx_state x)) as Hf'.
  { intros y. destruct (Hf y) as (E1 & _ & E2 & _). by rewrite E1. }
  destruct (Hf x) as (E1 & E2 & E3 & E4). split_and!; [by apply calm_fields|by apply (evolves_fields sid G content listed max_size); [apply (ca_sound _ Hw)|]|].
  apply (at_pos_alter w x f lo n nr ep hold lo n hold); [exact Hp|by eapply window_same; [..|apply (ap_window _ _ _ _ _ _ _ Hp)]|done|done|by rewrite E1|].
  rewrite E4. apply (ap_holder _ _ _ _ _ _ _ Hp).
Qed.

Lemma reader_read_total start max_bytes w x lo n ep :
  calm w → at_pos w x lo n start ep false → rx_reading x = false → start < e →
  returns (reader_read r start e max_bytes) w (λ res w', ∃ rd x' lo' n', res = Ok rd ∧ rd_records rd = wanted e start (Z.min max_bytes I64_MAX) G
    ∧ at_pos w' x' lo' n' (next_offset start (rd_records rd)) ep false ∧ rx_reading x' = false).
Proof.
  intros Hw Hpos Hrd Hlt. unfold reader_read. eapply (returns_bind _ _ _ (λ ok w1, ok = true ∧ ∃ x1 n1, at_pos w1 x1 lo n1 start ep false)).
  { apply returns_slice; [done|done|]. intros w1 Hw1 Hg1 Hk1 _. destruct (Hk1 _ _ _ _ _ _ Hpos) as (x1 & n1 & _ & _ & Hpos1 & Er & _).
    rewrite (ap_reader _ _ _ _ _ _ _ Hpos1), (ap_next _ _ _ _ _ _ _ Hpos1), Z.eqb_refl, Er, Hrd. cbn [negb].
    destruct (at_pos_fields w1 x1 lo n1 start ep false (λ x, set_access (w_now w1) (set_reading true x)) Hw1 Hpos1) as (Hw2 & Hg2 & Hpos2); [done|]. eexists _, _. split_and!; [done..|]. eexists _, n1. exact Hpos2. }
  intros ok w1 Hw1 Hg1 (-> & x1 & n1 & Hpos1). destruct (position x1 lo n1 (ap_window _ _ _ _ _ _ _ Hpos1)) as (i & p & Hi & Hp & Hin); [by rewrite (ap_next _ _ _ _ _ _ _ Hpos1)|].
  rewrite (ap_next _ _ _ _ _ _ _ Hpos1) in Hin.
  eapply (returns_bind _ _ _ (λ res w2, ∃ rd x2 lo2 n2, res = Ok rd ∧ rd_records rd = wanted e start (Z.min max_bytes I64_MAX) G ∧ at_pos w2 x2 lo2 n2 (next_offset start (rd_records rd)) ep false)).
  { cbn [read_with_retries]. unfold read0. eapply returns_bind.
    { eapply (read0_loop_total _ _ [] _ start _ w1 x1 lo n1 start ep i p); try done; unfold read_fuel; try lia. by intros ? ?%not_elem_of_nil. }
    intros res w2 Hw2 Hg2 (rd & x2 & n2 & j & q & -> & Erd & Hpos2 & Hj & Hq & Hb). eapply returns_bind; [by eapply after_read_total|].
    intros _ w3 Hw3 Hg3 (x3 & lo3 & n3 & Hpos3). apply returns_return; [done|]. intros _ _. exists rd, x3, lo3, n3. done. }
  intros res w2 Hw2 Hg2 (rd & x2 & lo2 & n2 & -> & Erd & Hpos2).
  eapply (returns_bind _ _ _ (λ _ w3, ∃ x3 lo3 n3, at_pos w3 x3 lo3 n3 (next_offset start (rd_records rd)) ep false ∧ rx_reading x3 = false)).
  { apply returns_slice; [done|done|]. intros w3 Hw3 Hg3 Hk3 _. destruct (kept_ahead _ _ _ _ _ _ _ _ Hk3 Hpos2) as (x3 & n3 & Hpos3 & _ & _). eexists _, tt. split; [done|].
    destruct (at_pos_fields w3 x3 lo2 n3 _ ep false (set_reading false) Hw3 Hpos3) as (Hw4 & Hg4 & Hpos4); [done|]. split_and!; [done..|]. eexists _, lo2, n3. split; [exact Hpos4|done]. }
  intros _ w3 Hw3 Hg3 (x3 & lo3 & n3 & Hpos3 & Hr3). apply returns_return; [done|]. intros _ _ _. exists rd, x3, lo3, n3. done.
Qed.

(** ** What the others may do *)

(** Block loads and evictions. *)
Lemma cache_event_undisturbed ev w c : honest (source content) ev (w_cache w) → cache_step ev (w_cache w) = Some c → undisturbed w (with_cache c w).
Proof.
  intros Hh E Hw. assert (calm (with_cache c w)) as Hw'.
  { apply calm_cache; [done| |by eapply shards_step]. eapply cache_evolves_step; [apply (so_cache _ _ _ _ _ _ (ca_sound _ Hw))|done|exact E]. }
  split_and!; [done| |].
  - eapply cache_event_evolves; [apply (ca_sound _ Hw)|done..].
  - intros x Hx. exists x. split; [done|]. constructor; try done. intros lo n Hwin. exists n. done.
Qed.

Lemma undisturbed_refl w : undisturbed w w.
Proof. intros Hw. split_and!; [done..|]. intros x Hx. exists x. split; [done|]. constructor; try done. intros lo n Hwin. exists n. done. Qed.

Lemma undisturbed_trans w1 w2 w3 : undisturbed w1 w2 → undisturbed w2 w3 → undisturbed w1 w3.
Proof.
  intros H12 H23 Hw1. destruct (H12 Hw1) as (Hw2 & G12 & R12). destruct (H23 Hw2) as (Hw3 & G23 & R23). split_and!; [done|by etransitivity|].
  intros x Hx. destruct (R12 x Hx) as (y & Hy & [A1 A2 A3 A4 A5 A6]). destruct (R23 y Hy) as (z' & Hz' & [B1 B2 B3 B4 B5 B6]). exists z'. split; [done|].
  constructor; [congruence..|by rewrite B4, A4|congruence|]. intros lo n Hwin. destruct (A6 lo n Hwin) as (n1 & Hn1 & Hwin1 & Hl1 & He1).
  destruct (B6 lo n1 Hwin1) as (n2 & Hn2 & Hwin2 & Hl2 & He2). exists n2. split_and!; [lia|done|intros Hh; rewrite Hl2, Hl1; [done..|by apply A4]|].
  intros ->. assert (n1 = n) as -> by lia. by rewrite He2, He1.
Qed.
End Total.
