(* ===== verification/CachedRead.v ===== *)
(** * The cached read path

    What reads through the stream readers guarantee: a read that succeeds returns exactly
    the records [wanted] names, whatever runs beside it, every task of the read path keeps
    what the others rely on, and on a stream whose objects stay in place a read returns. *)
From S2P Require Import Prelude Collections Codec ObjectStore ObjectFormat ObjectIO Metadata Storage CompactExec CompactionSafety StreamCompactorSafety Tasks DataBlockCache DataBlockSafety BlockCache StreamReader StreamReaderSound StreamReaderTotal.

(** C8: whatever other reads, readaheads, block loads, evictions, clean-ups and compactions
    do between its steps, as long as what they store and list keeps the stream's records, a
    read through the stream readers that succeeds returns exactly the records from the one
    that holds the start offset on, each once and in order, up to the end offset or the
    record that spends the byte budget. *)
Theorem cached_read_sound {S} `{!ObjectStorage S} {M} `{!ObjectLookup M} {C RC} `{!LruCache C BlockKey unit} `{!LruCache RC Z nat} `{!LruCacheLaws RC Z nat}
    sid G content listed max_size sched start end_offset max_bytes (w w' : World S M C RC) rd :
  record_chain sid G → sound sid G content listed max_size w → conforms (keeps_sound sid G content listed max_size) sched → start < end_offset →
  run awaited sched 0 (readers_read sid start end_offset max_bytes) w = Some (Ok rd, w') →
  rd_records rd = wanted end_offset start (Z.min max_bytes I64_MAX) G ∧ sound sid G content listed max_size w' ∧ grows w w'.
Proof.
  intros HG Hs Hc Hlt Hrun. pose proof (readers_read_ensures sid G HG content listed max_size sid start end_offset max_bytes w Hs Hlt) as Hw.
  destruct (wp_run awaited _ _ _ false sched 0 _ w _ Hw Hc _ _ Hrun) as (Hs' & Hg & Hr). split_and!; [by apply (Hr rd)|done..].
Qed.

(** C10: every task of the read path respects what the others rely on: reads of any stream,
    readaheads, the tasks they spawn, the sweep of idle readers, free listeners and every
    step of the block cache keep the invariant and nothing handed out, whatever runs in
    between. *)
Theorem read_path_keeps_sound {S} `{!ObjectStorage S} {M} `{!ObjectLookup M} {C RC} `{!LruCache C BlockKey unit} `{!LruCache RC Z nat} `{!LruCacheLaws RC Z nat}
    sid G content listed max_size (w : World S M C RC) :
  record_chain sid G → sound sid G content listed max_size w →
  (∀ st start end_offset max_bytes, start < end_offset → ensures sid G content listed max_size (readers_read st start end_offset max_bytes) w (λ _ _, True))
  ∧ (∀ r x fuel size miss, w_readers w !! r = Some x → ensures sid G content listed max_size (try_readahead r fuel size miss) w (λ _ _, True))
  ∧ (∀ r index h, ensures sid G content listed max_size (attach_loaded r index h) w (λ _ _, True))
  ∧ (∀ w0, ensures sid G content listed max_size (cleanup_all_expired w0) w (λ _ _, True))
  ∧ (∀ closed h l w', on_freed closed h l w = Some w' → evolves sid G content listed max_size w w')
  ∧ (∀ ev c, honest (source content) ev (w_cache w) → cache_step ev (w_cache w) = Some c → evolves sid G content listed max_size w (with_cache c w)).
Proof.
  intros HG Hs. split_and!.
  - intros st start e n Hlt. eapply ensures_mono; [|by apply readers_read_ensures]. done.
  - intros r x fuel size miss Hx. apply (try_readahead_ensures sid G content listed max_size (rx_stream_id x)); [done|]. by exists x.
  - intros r index h. by apply attach_loaded_ensures.
  - intros w0. by apply cleanup_ensures.
  - intros closed h l w'. by apply on_freed_evolves.
  - intros ev c Hh E. by eapply cache_event_evolves.
Qed.

(** ** Termination *)

(** The stream lies in objects that tile the range up to [end_offset], are listed, and can
    be read. *)
Record stream_stored {S} `{!ObjectStorage S} {M} `{!ObjectLookup M} (sid : Z) (G : list StreamRecordBatch)
    (content : Z → DataBlockIndex → result ObjectError bytes → Prop) (listed : S3ObjectMetadata → Prop) (m : M) (s : S)
    (T : list (S3ObjectMetadata * DataBlockIndex)) (end_offset : Z) : Prop := {
  st_chain : record_chain sid G;
  st_stream : 0 ≤ sid;
  st_tiled : tiled sid T;
  st_same o o' : listed o → listed o' → om_object_id o = om_object_id o' → om_object_size o = om_object_size o';
  st_end : ∃ z, last T = Some z ∧ end_offset ≤ bi_end_offset z.2;
  st_listable : listable sid m s T end_offset;
  st_readable i p res : T !! i = Some p → content (om_object_id p.1) p.2 res → ¬ unusable res;
}.

(** C9: when the stream's objects tile the range, stay listed and can be read, a read by a
    stream reader returns, if only the loads and the lock it waits for come about: whatever
    block loads, evictions, other readers and the reader's own readahead, which extends the
    window under it, do in between.  It returns the records asked for, and leaves the reader
    standing at the end of the last of them, ready for the next read. *)
Theorem cached_read_returns {S} `{!ObjectStorage S} {M} `{!ObjectLookup M} {C RC} `{!LruCache C BlockKey unit} `{!LruCacheLaws C BlockKey unit} `{!LruCache RC Z nat} `{!LruCacheLaws RC Z nat}
    sid G content listed max_size m s T r sched start end_offset max_bytes (w : World S M C RC) x lo n epoch :
  stream_stored sid G content listed m s T end_offset → calm sid G content listed max_size m s w →
  at_pos sid T r w x lo n start epoch false → rx_reading x = false → start < end_offset →
  conforms (undisturbed sid G content listed max_size m s T r) sched → served awaited (possible r) sched 0 (reader_read r start end_offset max_bytes) w →
  ∃ rd w' x' lo' n', run awaited sched 0 (reader_read r start end_offset max_bytes) w = Some (Ok rd, w')
    ∧ rd_records rd = wanted end_offset start (Z.min max_bytes I64_MAX) G
    ∧ calm sid G content listed max_size m s w' ∧ at_pos sid T r w' x' lo' n' (next_offset start (rd_records rd)) epoch false ∧ rx_reading x' = false.
Proof.
  intros [HG Hsid HT Hsame (z & Hz & He) Hl Hr] Hw Hpos Hrd Hlt Hc Hs.
  pose proof (reader_read_total sid G HG content listed max_size m s T HT Hsame Hsid r end_offset z Hz He Hl Hr start max_bytes w x lo n epoch Hw Hpos Hrd Hlt) as Hret.
  destruct (wp_run_total _ _ _ _ sched 0 _ w _ Hret Hc Hs) as (res & w' & Hrun & Hw' & _ & rd & x' & lo' & n' & -> & Erd & Hpos' & Hrd').
  exists rd, w', x', lo', n'. done.
Qed.

(** ** A stream of two objects *)

(** The metadata plane lists registered objects only. *)
Lemma stream_slices_elem s e objects l st o : stream_slices s e objects = Some l → (st, o) ∈ l → o ∈ objects.
Proof.
  unfold stream_slices. destruct (mapM _ objects) as [ranges|]; [|done]. intros [= <-] ([o' rg] & Hin & Ho)%list_elem_of_omap. apply elem_of_zip_l in Hin.
  cbn in Ho. destruct (overlaps s e rg); [|done]. by injection Ho as _ ->.
Qed.

Lemma get_objects_registered (m : MetadataState) st a b n objects o :
  get_objects st a b n m = Some objects → o ∈ objects → o ∈ values (ms_stream_set_objects m) ∨ o ∈ values (default ∅ (ms_stream_objects m !! st)).
Proof.
  unfold get_objects. destruct (stream_slices _ _ _) as [own|] eqn:E; [|done]. intros [= <-]. rewrite takeZ_take. intros (i & Ho & _)%elem_of_take. apply list_elem_of_lookup_2 in Ho.
  apply list_elem_of_fmap in Ho as ([x o'] & -> & Hin). apply elem_of_sort_by, elem_of_app in Hin as [Hin|Hin]; [left|right].
  - by apply elem_of_set_slices in Hin as [? _].
  - by eapply stream_slices_elem.
Qed.

Definition line_records : list StreamRecordBatch := [demo_rec 1; demo_rec 2].
Definition line_listed (o : S3ObjectMetadata) : Prop := o = line_object 1 ∨ o = line_object 2.
Definition line_content (object_id : Z) (index : DataBlockIndex) (r : result ObjectError bytes) : Prop := r = read_block toy_store (object_key object_id) index.
Definition line_tiles : list (S3ObjectMetadata * DataBlockIndex) := [(line_object 1, chain_block 1); (line_object 2, chain_block 2)].

Abbreviation line_world := (World MemoryObjectStorage MetadataState (list (BlockKey * unit)) (list (Z * nat))).
Definition line_start : line_world := stream_readers_new 1000 line_meta toy_store 1 0.
Definition line_reader : line_world := with_readers (λ l, l ++ [stream_reader_new 0 1 1]) line_start.

Lemma line_chain : record_chain 1 line_records.
Proof.
  constructor.
  - intros r Hr. unfold line_records in Hr. rewrite !elem_of_cons, elem_of_nil in Hr. destruct Hr as [->|[->|[]]]; vm_compute; reflexivity.
  - intros r Hr. unfold line_records in Hr. rewrite !elem_of_cons, elem_of_nil in Hr. destruct Hr as [->|[->|[]]]; vm_compute; reflexivity.
  - intros [|[|i]] a b Ha Hb; [|done|done]. injection Ha as <-. injection Hb as <-. vm_compute. reflexivity.
Qed.

Lemma line_block_sound i : i = 1 ∨ i = 2 → sound_block 1 line_records line_content i (chain_block i).
Proof.
  intros Hi _ data rs Hc Hd. unfold line_content in Hc. destruct Hi as [->| ->].
  - exists [], [demo_rec 2], (demo_rec 1), (demo_rec 1). assert (decode_data_block data = Ok [demo_rec 1]) as E by (vm_compute in Hc; injection Hc as ->; vm_compute; reflexivity).
    rewrite E in Hd. injection Hd as <-. repeat split; vm_compute; reflexivity.
  - exists [demo_rec 1], [], (demo_rec 2), (demo_rec 2). assert (decode_data_block data = Ok [demo_rec 2]) as E by (vm_compute in Hc; injection Hc as ->; vm_compute; reflexivity).
    rewrite E in Hd. injection Hd as <-. repeat split; vm_compute; reflexivity.
Qed.

Lemma line_start_sound : sound 1 line_records line_content line_listed 1000 line_start.
Proof.
  apply stream_readers_sound.
  - intros o info Ho Ei e He. assert (∃ i, (i = 1 ∨ i = 2) ∧ o = line_object i) as (i & Hi & ->) by (destruct Ho; eauto).
    rewrite (ss_info _ _ _ _ _ _ (line_source i Hi)) in Ei. injection Ei as <-. cbn in He. apply list_elem_of_singleton in He as ->. by apply line_block_sound.
  - intros st a b n objects E. cbn in E. destruct (get_objects _ _ _ _ _) as [l|] eqn:El; [|done]. injection E as <-. apply Forall_forall. intros o Ho.
    destruct (get_objects_registered line_meta st a b n l o El Ho) as [Hin|Hin]; [by apply not_elem_of_nil in Hin|]. apply elem_of_values in Hin as [k Hk].
    cbn [ms_stream_objects line_meta] in Hk. destruct (decide (st = 1)) as [->|]; [rewrite lookup_singleton_eq in Hk|by rewrite lookup_singleton_ne in Hk by done].
    cbn in Hk. apply lookup_insert_Some in Hk as [[_ <-]|[_ [_ <-]%lookup_singleton_Some]]; [by left|by right].
Qed.

(** The others load what the read waits for. *)
Definition try_event (ev : CacheEvent FreeListener) (w : line_world) : line_world :=
  match cache_step ev (w_cache w) with Some c => with_cache c w | None => w end.
Definition fetch_event (h : nat) (w : line_world) : CacheEvent FreeListener :=
  CacheFetched h (match bc_heap (w_cache w) !! h with Some b => read_block toy_store (object_key (om_object_id (cb_reader b))) (cb_index b) | None => Ok [] end).
Definition line_sched (_ : nat) (q : Wait) (w : line_world) : line_world :=
  match q with
  | LoadOver h => let w := try_event (CacheLoad 0 h) w in try_event (fetch_event h w) w
  | _ => w
  end.

Lemma fetch_honest h w : honest (source line_content) (fetch_event h w) (w_cache w).
Proof. intros b Hb. rewrite Hb. done. Qed.

Lemma line_sched_sound : conforms (keeps_sound 1 line_records line_content line_listed 1000) line_sched.
Proof.
  assert (∀ ev w, honest (source line_content) ev (w_cache w) → keeps_sound 1 line_records line_content line_listed 1000 w (try_event ev w)) as Hev.
  { intros ev w Hh Hs. unfold try_event. destruct (cache_step ev (w_cache w)) as [c|] eqn:E; [by eapply cache_event_evolves|by apply evolves_refl]. }
  intros n [| |h] w Hs; [by apply evolves_refl..|]. cbn. pose proof (Hev (CacheLoad 0 h) w I Hs) as H1. eapply evolves_trans; [exact H1|].
  apply Hev; [apply fetch_honest|apply H1].
Qed.

Lemma cached_read_sound_witness :
  match run awaited line_sched 0 (readers_read 1 1 3 1000) line_start with
  | Some (Ok rd, _) => rd_records rd = wanted 3 1 1000 line_records
  | _ => False
  end.
Proof.
  destruct (run awaited line_sched 0 (readers_read 1 1 3 1000) line_start) as [[[rd|e] w']|] eqn:E.
  - apply (cached_read_sound 1 line_records line_content line_listed 1000 line_sched 1 3 1000 line_start w' rd); [apply line_chain|apply line_start_sound|apply line_sched_sound|reflexivity|exact E].
  - revert E. vm_compute. discriminate.
  - revert E. vm_compute. discriminate.
Defined.

Lemma read_path_keeps_sound_witness :
  ensures 1 line_records line_content line_listed 1000 (readers_read 7 0 5 10) line_start (λ _ _, True).
Proof. apply (read_path_keeps_sound 1 line_records line_content line_listed 1000 line_start line_chain line_start_sound). reflexivity. Defined.

Lemma line_tiled : tiled 1 line_tiles.
Proof.
  constructor.
  - intros [|[|i]] p Hp; [injection Hp as <-..|done]; vm_compute; reflexivity.
  - intros [|[|i]] p Hp; [injection Hp as <-..|done]; vm_compute; intuition discriminate.
  - intros [|[|i]] p q Hp Hq; [injection Hp as <-; injection Hq as <-|done..]. vm_compute. reflexivity.
Qed.

Lemma line_finds : finds 1 toy_store line_tiles 1 [line_object 1; line_object 2] 0 2 ∧ finds 1 toy_store line_tiles 2 [line_object 2] 1 2.
Proof.
  assert (∀ i, i = 1 ∨ i = 2 → info_of toy_store (line_object i) = Ok {| boi_data_block_size := end_of 0 (toy_blocks (line_object i)); boi_index_block := [chain_block i] |}) as Hi.
  { intros i Hi. apply (ss_info _ _ _ _ _ _ (line_source i Hi)). }
  assert (finds 1 toy_store line_tiles 2 [line_object 2] 1 2) as H2.
  { eexists _, 2%nat. split; [apply Hi; auto|]. split; [cbn; lia|]. split; [vm_compute; reflexivity|]. split; [by apply Forall_singleton|done]. }
  split; [|exact H2]. eexists _, 1%nat. split; [apply Hi; auto|]. split; [cbn; lia|]. split; [vm_compute; reflexivity|]. split; [by apply Forall_singleton|].
  replace (search_from line_tiles 1 0 1) with 2 by (vm_compute; reflexivity). exact H2.
Qed.

Lemma line_stored : stream_stored 1 line_records line_content line_listed line_meta toy_store line_tiles 3.
Proof.
  constructor; [apply line_chain|lia|apply line_tiled| | | |].
  - intros o o' [->| ->] [->| ->]; try done; vm_compute; discriminate.
  - exists (line_object 2, chain_block 2). split; [done|]. vm_compute. discriminate.
  - intros [|[|i]] p x Hp [Hx1 Hx2] Hlt; [injection Hp as <-..|done].
    + assert (x = 1) as ->. { change (1 ≤ x) in Hx1. change (x < 2) in Hx2. lia. }
      exists [line_object 1; line_object 2], 2%nat. split; [vm_compute; reflexivity|]. split; [apply line_finds|lia].
    + assert (x = 2) as ->. { change (2 ≤ x) in Hx1. lia. }
      exists [line_object 2], 2%nat. split; [vm_compute; reflexivity|]. split; [apply line_finds|lia].
  - intros [|[|i]] p res Hp Hc; [injection Hp as <-; unfold line_content in Hc; subst res..|done]; vm_compute; intros H; by eapply H.
Qed.

Lemma line_reader_calm : calm 1 line_records line_content line_listed 1000 line_meta toy_store line_reader.
Proof.
  constructor; try done.
  - apply evolves_new_reader; [apply line_start_sound|..]; intros k slot Hk; cbn in Hk; by rewrite lookup_empty in Hk.
  - vm_compute. lia.
  - intros r x k slot h Hx Hk. destruct r as [|r]; [|done]. injection Hx as <-. cbn in Hk. by rewrite lookup_empty in Hk.
Qed.

Lemma line_reader_at : at_pos 1 line_tiles 0 line_reader (stream_reader_new 0 1 1) 0 0 1 0 false.
Proof.
  constructor; try done. constructor; cbn; try done; try lia.
  intros _. exists (line_object 1, chain_block 1). split; [done|]. vm_compute. intuition discriminate.
Qed.

Lemma line_sched_undisturbed : conforms (undisturbed 1 line_records line_content line_listed 1000 line_meta toy_store line_tiles 0) line_sched.
Proof.
  assert (∀ ev w, honest (source line_content) ev (w_cache w) → undisturbed 1 line_records line_content line_listed 1000 line_meta toy_store line_tiles 0 w (try_event ev w)) as Hev.
  { intros ev w Hh. unfold try_event. destruct (cache_step ev (w_cache w)) as [c|] eqn:E; [by eapply cache_event_undisturbed|by apply undisturbed_refl]. }
  intros n [| |h] w; [by apply undisturbed_refl..|]. cbn. eapply undisturbed_trans; [by apply (Hev (CacheLoad 0 h))|]. apply Hev, fetch_honest.
Qed.

Lemma cached_read_returns_witness :
  ∃ rd w', run awaited line_sched 0 (reader_read 0 1 3 1000) line_reader = Some (Ok rd, w') ∧ rd_records rd = wanted 3 1 1000 line_records.
Proof.
  destruct (cached_read_returns 1 line_records line_content line_listed 1000 line_meta toy_store line_tiles 0 line_sched 1 3 1000 line_reader (stream_reader_new 0 1 1) 0 0 0)
    as (rd & w' & x' & lo' & n' & E & Er & _); [apply line_stored|apply line_reader_calm|apply line_reader_at|reflexivity|reflexivity|apply line_sched_undisturbed| |exists rd, w'; split; [exact E|exact Er]].
  apply unblocked_served. vm_compute. reflexivity.
Defined.
