(* ===== verification/SnapshotRead.v ===== *)
(** * Snapshot reads: replaying another node's log and objects

    Models [s3stream-core/src/cache/snapshot_read.rs].  Everything done under the state lock
    is one function; the loads a replay spawns go from step to step by events, which carry
    what the log or the storage answered.  An [Arc] of a task is its position in a list,
    the result channel of a task is whether it has been completed. *)
From S2P Require Import Prelude Collections Codec WalFormat ObjectStore ObjectFormat ObjectIO Metadata LogCache.

Definition ACTIVE_EXPIRE : Z := 10 * 60 * 1000.
Definition MAX_INFLIGHT_LOAD_BYTES : Z := 100 * 1024 * 1024.
Definition TASK_WAITING_TIMEOUT : Z := 5 * 1000.
Definition MAX_WAITING_LOAD_TASK_COUNT : nat := Z.to_nat 4096.
(** The name of [cache_free_listener] among the listeners of a block. *)
Definition CACHE_FREE_LISTENER : Z := 0.

(** ** Tasks *)

(** Where the load a replay spawned stands: not spawned, loading, loaded, or over. *)
Inductive WalLoad : Type := WalQueued | WalReading | WalLoaded | WalOver.

Record WalReplayTask : Type := mkWalTask {
  wt_timestamp : Z;
  wt_node_id : Z;
  wt_start : RecordOffset;
  wt_end : RecordOffset;
  wt_wal_records : option (list StreamRecordBatch);
  wt_records : list StreamRecordBatch;
  wt_load_done : bool;
  wt_replayed : bool;
  wt_load : WalLoad;
}.

Record BlockLoad : Type := mkBlockLoad {
  bl_done : bool;
  bl_records : option (result unit (list StreamRecordBatch));
}.

(** The load of an object: its index, then the blocks still being read, then the puts into
    the cache that are left. *)
Inductive ObjectLoad : Type :=
| ObjectQueued
| ObjectIndex
| ObjectReading (unread : list nat)
| ObjectPuts (n : nat).

Record ObjectReplayTask : Type := mkObjectTask {
  ot_metadata : S3ObjectMetadata;
  ot_blocks : option (list BlockLoad);
  ot_replayed : bool;
  ot_load : ObjectLoad;
}.

Record WalReplayState : Type := mkWalReplay {
  wr_waiting : list nat;
  wr_loading : list nat;
  wr_max_inflight : nat;
}.

Record ObjectReplayState : Type := mkObjectReplay {
  or_inflight_load_bytes : Z;
  or_waiting : list nat;
  or_loading : list nat;
}.

Record State : Type := mkState {
  st_stream_next_offsets : gmap Z Z;
  st_active_streams : gmap Z Z;
  st_wal : WalReplayState;
  st_object : ObjectReplayState;
}.

(** Who put records: the confirmed appends, a log replay, or an object replay. *)
Inductive PutSource : Type := FromConfirm | FromWal (task : nat) | FromObject (task : nat).

(** The cache with its tasks, the commit requests it sent, the ranges freed blocks reported,
    and, as history, every put in order. *)
Record Snapshot : Type := mkSnapshot {
  sn_state : State;
  sn_cache : LogCache;
  sn_wal_tasks : list WalReplayTask;
  sn_object_tasks : list ObjectReplayTask;
  sn_events : list Z;
  sn_reports : list (list StreamRangeBound);
  sn_history : list (PutSource * list StreamRecordBatch);
}.

Definition snapshot_new (cache : LogCache) (parallelism : nat) : Snapshot :=
  mkSnapshot (mkState ∅ ∅ (mkWalReplay [] [] (parallelism * 4)) (mkObjectReplay 0 [] [])) cache [] [] [] [] [].

Definition with_state (f : State → State) (s : Snapshot) : Snapshot :=
  mkSnapshot (f (sn_state s)) (sn_cache s) (sn_wal_tasks s) (sn_object_tasks s) (sn_events s) (sn_reports s) (sn_history s).
Definition with_wal (f : WalReplayState → WalReplayState) : Snapshot → Snapshot :=
  with_state (λ st, mkState (st_stream_next_offsets st) (st_active_streams st) (f (st_wal st)) (st_object st)).
Definition with_object (f : ObjectReplayState → ObjectReplayState) : Snapshot → Snapshot :=
  with_state (λ st, mkState (st_stream_next_offsets st) (st_active_streams st) (st_wal st) (f (st_object st))).
Definition with_next (f : gmap Z Z → gmap Z Z) : Snapshot → Snapshot :=
  with_state (λ st, mkState (f (st_stream_next_offsets st)) (st_active_streams st) (st_wal st) (st_object st)).
Definition with_active (f : gmap Z Z → gmap Z Z) : Snapshot → Snapshot :=
  with_state (λ st, mkState (st_stream_next_offsets st) (f (st_active_streams st)) (st_wal st) (st_object st)).
Definition with_cache (c : LogCache) (s : Snapshot) : Snapshot :=
  mkSnapshot (sn_state s) c (sn_wal_tasks s) (sn_object_tasks s) (sn_events s) (sn_reports s) (sn_history s).
Definition with_wal_tasks (f : list WalReplayTask → list WalReplayTask) (s : Snapshot) : Snapshot :=
  mkSnapshot (sn_state s) (sn_cache s) (f (sn_wal_tasks s)) (sn_object_tasks s) (sn_events s) (sn_reports s) (sn_history s).
Definition with_object_tasks (f : list ObjectReplayTask → list ObjectReplayTask) (s : Snapshot) : Snapshot :=
  mkSnapshot (sn_state s) (sn_cache s) (sn_wal_tasks s) (f (sn_object_tasks s)) (sn_events s) (sn_reports s) (sn_history s).
Definition with_events (f : list Z → list Z) (s : Snapshot) : Snapshot :=
  mkSnapshot (sn_state s) (sn_cache s) (sn_wal_tasks s) (sn_object_tasks s) (f (sn_events s)) (sn_reports s) (sn_history s).
Definition report (removed : list LogCacheBlock) (s : Snapshot) : Snapshot :=
  mkSnapshot (sn_state s) (sn_cache s) (sn_wal_tasks s) (sn_object_tasks s) (sn_events s)
    (sn_reports s ++ (removed ≫= λ b, ((free_and_notify b).2).*2)) (sn_history s).
Definition record_put (src : PutSource) (records : list StreamRecordBatch) (s : Snapshot) : Snapshot :=
  mkSnapshot (sn_state s) (sn_cache s) (sn_wal_tasks s) (sn_object_tasks s) (sn_events s) (sn_reports s) (sn_history s ++ [(src, records)]).

Definition wal_waiting (s : Snapshot) : list nat := wr_waiting (st_wal (sn_state s)).
Definition wal_loading (s : Snapshot) : list nat := wr_loading (st_wal (sn_state s)).
Definition object_waiting (s : Snapshot) : list nat := or_waiting (st_object (sn_state s)).
Definition object_loading (s : Snapshot) : list nat := or_loading (st_object (sn_state s)).
Definition set_wal_waiting (l : list nat) : Snapshot → Snapshot := with_wal (λ w, mkWalReplay l (wr_loading w) (wr_max_inflight w)).
Definition set_wal_loading (l : list nat) : Snapshot → Snapshot := with_wal (λ w, mkWalReplay (wr_waiting w) l (wr_max_inflight w)).
Definition set_object_waiting (l : list nat) : Snapshot → Snapshot := with_object (λ o, mkObjectReplay (or_inflight_load_bytes o) l (or_loading o)).
Definition set_object_loading (l : list nat) : Snapshot → Snapshot := with_object (λ o, mkObjectReplay (or_inflight_load_bytes o) (or_waiting o) l).
Definition set_inflight (f : Z → Z) : Snapshot → Snapshot := with_object (λ o, mkObjectReplay (f (or_inflight_load_bytes o)) (or_waiting o) (or_loading o)).

Definition set_wal_load (l : WalLoad) (t : WalReplayTask) : WalReplayTask :=
  mkWalTask (wt_timestamp t) (wt_node_id t) (wt_start t) (wt_end t) (wt_wal_records t) (wt_records t) (wt_load_done t) (wt_replayed t) l.
Definition set_wal_records (rs : list StreamRecordBatch) (t : WalReplayTask) : WalReplayTask :=
  mkWalTask (wt_timestamp t) (wt_node_id t) (wt_start t) (wt_end t) (wt_wal_records t) rs (wt_load_done t) (wt_replayed t) (wt_load t).
Definition set_load_done (t : WalReplayTask) : WalReplayTask :=
  mkWalTask (wt_timestamp t) (wt_node_id t) (wt_start t) (wt_end t) (wt_wal_records t) (wt_records t) true (wt_replayed t) (wt_load t).
Definition set_wal_replayed (t : WalReplayTask) : WalReplayTask :=
  mkWalTask (wt_timestamp t) (wt_node_id t) (wt_start t) (wt_end t) (wt_wal_records t) (wt_records t) (wt_load_done t) true (wt_load t).
Definition set_object_load (l : ObjectLoad) (t : ObjectReplayTask) : ObjectReplayTask := mkObjectTask (ot_metadata t) (ot_blocks t) (ot_replayed t) l.
Definition set_object_blocks (b : option (list BlockLoad)) (t : ObjectReplayTask) : ObjectReplayTask := mkObjectTask (ot_metadata t) b (ot_replayed t) (ot_load t).
Definition set_object_replayed (t : ObjectReplayTask) : ObjectReplayTask := mkObjectTask (ot_metadata t) (ot_blocks t) true (ot_load t).

(** [complete_oneshot]. *)
Definition complete_wal (h : nat) : Snapshot → Snapshot := with_wal_tasks (alter set_wal_replayed h).
Definition complete_object (h : nat) : Snapshot → Snapshot := with_object_tasks (alter set_object_replayed h).

(** ** Puts *)

(** [LogCache::put] and [LogCache::mark_free], with what the blocks they free report. *)
Definition cache_put (batch : StreamRecordBatch) (s : Snapshot) : option (Snapshot * bool) :=
  let* (c, added) := put batch (sn_cache s) in
  Some (report (try_real_free (sn_cache s)).2 (with_cache c s), added).
Definition cache_mark_free (id : Z) (s : Snapshot) : Snapshot :=
  let marked := set_blocks ((λ b, if lb_block_id b =? id then set_free b else b) <$> lc_blocks (sn_cache s)) (sn_cache s) in
  report (try_real_free marked).2 (with_cache (mark_free id (sn_cache s)) s).
Definition cache_listen (id : Z) (c : LogCache) : LogCache :=
  set_blocks ((λ b, if lb_block_id b =? id then add_free_listener CACHE_FREE_LISTENER b else b) <$> lc_blocks c) c.

(** A full block is sealed and given up at once, and the record goes to the next. *)
Definition put_batch (batch : StreamRecordBatch) (s : Snapshot) : option Snapshot :=
  let* (s, added) := cache_put batch s in
  if added : bool then Some s
  else
    let* (c, block) := archive_current_block (sn_cache s) in
    let s := cache_mark_free (lb_block_id block) (with_cache (cache_listen (lb_block_id block) c) s) in
    let* (s, _) := cache_put batch s in
    Some s.

Definition active_stream (now stream_id : Z) : Snapshot → Snapshot := with_active (<[stream_id := now]>).

(** The loop of [put_locked]. *)
Fixpoint put_records (now : Z) (current : option Z) (records : list StreamRecordBatch) (s : Snapshot) : option Snapshot :=
  match records with
  | [] => Some s
  | batch :: rest =>
      let new_stream_id := stream_id batch in
      let s :=
        if bool_decide (current = Some new_stream_id) then s
        else active_stream now new_stream_id (with_next (λ m, match m !! new_stream_id with Some _ => m | None => <[new_stream_id := base_offset batch]> m end) s) in
      let* expected := st_stream_next_offsets (sn_state s) !! new_stream_id in
      if base_offset batch <? expected then put_records now (Some new_stream_id) rest s
      else
        let s := if expected <? base_offset batch then with_cache (clear_stream_records new_stream_id (sn_cache s)) s else s in
        let* s := put_batch batch s in
        put_records now (Some new_stream_id) rest (with_next (<[new_stream_id := last_offset batch]>) s)
  end.
Definition put_locked (now : Z) (src : PutSource) (records : list StreamRecordBatch) (s : Snapshot) : option Snapshot :=
  put_records now None records (record_put src records s).

Definition clear_stream (stream_id : Z) (s : Snapshot) : Snapshot :=
  with_active (delete stream_id) (with_next (delete stream_id) (with_cache (clear_stream_records stream_id (sn_cache s)) s)).

Definition sweep_expired (now : Z) (s : Snapshot) : Snapshot :=
  foldr (λ e, clear_stream e.1) s (filter (λ e, ACTIVE_EXPIRE <= sat_sub now e.2) (entries (st_active_streams (sn_state s)))).

Definition snapshot_put (now : Z) (records : list StreamRecordBatch) (s : Snapshot) : option Snapshot :=
  put_locked now FromConfirm records (sweep_expired now s).

(** ** Replaying a log *)

Definition notify_listener (node_id : Z) : Snapshot → Snapshot := with_events (λ l, l ++ [node_id]).

Definition clear_overloaded (s : Snapshot) : Snapshot :=
  let node_ids := remove_dups (omap (λ h, wt_node_id <$> sn_wal_tasks s !! h) (wal_waiting s)) in
  let s := foldl (λ s h, complete_wal h s) s (wal_waiting s) in
  foldl (λ s id, notify_listener (i32 id) s) (set_wal_waiting [] s) node_ids.

Fixpoint load_wal_tasks (now : Z) (waiting : list nat) (s : Snapshot) : option Snapshot :=
  if (wr_max_inflight (st_wal (sn_state s)) <=? length (wal_loading s))%nat then Some (set_wal_waiting waiting s)
  else
    match waiting with
    | [] => Some (set_wal_waiting [] s)
    | h :: rest =>
        let* head := sn_wal_tasks s !! h in
        if TASK_WAITING_TIMEOUT <? sat_sub now (wt_timestamp head) then Some (clear_overloaded (set_wal_waiting waiting s))
        else load_wal_tasks now rest (with_wal_tasks (alter (set_wal_load WalReading) h) (set_wal_loading (wal_loading s ++ [h]) s))
    end.
Definition try_load_wal (now : Z) (s : Snapshot) : option Snapshot := load_wal_tasks now (wal_waiting s) s.

Fixpoint put_wal_heads (now : Z) (loading : list nat) (s : Snapshot) : option Snapshot :=
  match loading with
  | [] => Some (set_wal_loading [] s)
  | h :: rest =>
      let* head := sn_wal_tasks s !! h in
      if negb (wt_load_done head) then Some (set_wal_loading loading s)
      else
        let* s := put_locked now (FromWal h) (wt_records head) (with_wal_tasks (alter (set_wal_records []) h) s) in
        put_wal_heads now rest (complete_wal h s)
  end.
Definition try_put_wal (now : Z) (s : Snapshot) : option Snapshot := put_wal_heads now (wal_loading s) s.

(** The loop that empties a full queue runs at most once. *)
Definition make_room (s : Snapshot) : Snapshot :=
  if (MAX_WAITING_LOAD_TASK_COUNT <=? length (wal_waiting s))%nat then clear_overloaded s else s.

(** [replay_wal] up to its wait. *)
Definition replay_wal (timestamp now node_id : Z) (start end_ : RecordOffset) (wal_records : option (list StreamRecordBatch)) (s : Snapshot) : option Snapshot :=
  let s := make_room s in
  let h := length (sn_wal_tasks s) in
  let s := with_wal_tasks (λ l, l ++ [mkWalTask timestamp node_id start end_ wal_records [] false false WalQueued]) s in
  try_load_wal now (set_wal_waiting (wal_waiting s ++ [h]) s).

Section Decoder.
(** What [LinkRecordDecoder::decode] returns, when a decoder is installed. *)
Context (link_decoder : option (StreamRecordBatch → option StreamRecordBatch)).

Fixpoint decode_links (decoded records : list StreamRecordBatch) : list StreamRecordBatch :=
  match records with
  | [] => decoded
  | record :: rest =>
      if 0 <=? count record then decode_links (decoded ++ [record]) rest
      else
        match link_decoder with
        | None => []
        | Some decode => match decode record with Some plain => decode_links (decoded ++ [plain]) rest | None => [] end
        end
  end.

(** [run_wal_load], with what the log returned when it is asked. *)
Definition run_wal_load {E} (h : nat) (read : result E (list StreamRecordBatch)) (s : Snapshot) : option Snapshot :=
  let* task := sn_wal_tasks s !! h in
  match wt_load task with
  | WalReading =>
      let loaded := match wt_wal_records task with Some records => Ok records | None => read end in
      let f := match loaded with Ok records => set_wal_records (decode_links [] records) | Err _ => λ t, t end in
      Some (with_wal_tasks (alter (λ t, set_wal_load WalLoaded (set_load_done (f t))) h) s)
  | _ => None
  end.

(** The rest of the spawned task. *)
Definition wal_load_over (now : Z) (h : nat) (s : Snapshot) : option Snapshot :=
  let* task := sn_wal_tasks s !! h in
  match wt_load task with
  | WalLoaded => let* s := try_put_wal now (with_wal_tasks (alter (set_wal_load WalOver) h) s) in try_load_wal now s
  | _ => None
  end.

(** ** Replaying objects *)

Fixpoint load_object_tasks (waiting : list nat) (s : Snapshot) : option Snapshot :=
  if MAX_INFLIGHT_LOAD_BYTES <=? or_inflight_load_bytes (st_object (sn_state s)) then Some (set_object_waiting waiting s)
  else
    match waiting with
    | [] => Some (set_object_waiting [] s)
    | h :: rest =>
        let* task := sn_object_tasks s !! h in
        load_object_tasks rest (with_object_tasks (alter (set_object_load ObjectIndex) h)
          (set_object_loading (object_loading s ++ [h]) (set_inflight (λ n, u64 (n + om_object_size (ot_metadata task))) s)))
    end.
Definition try_load_objects (s : Snapshot) : option Snapshot := load_object_tasks (object_waiting s) s.

(** [put_object_into_cache]: the read blocks in front, and whether none is left. *)
Fixpoint put_slots (now : Z) (h : nat) (slots : list BlockLoad) (s : Snapshot) : option (Snapshot * bool) :=
  match slots with
  | [] => Some (with_object_tasks (alter (set_object_blocks (Some [])) h) s, true)
  | slot :: rest =>
      if negb (bl_done slot) then Some (with_object_tasks (alter (set_object_blocks (Some slots)) h) s, false)
      else
        let* s := match bl_records slot with Some (Ok records) => put_locked now (FromObject h) records s | _ => Some s end in
        put_slots now h rest s
  end.
Definition put_object_into_cache (now : Z) (h : nat) (s : Snapshot) : option (Snapshot * bool) :=
  let* task := sn_object_tasks s !! h in
  match ot_blocks task with
  | None => Some (s, false)
  | Some slots => put_slots now h slots s
  end.

(** A round takes a task off the loading queue, which waiting ones may join. *)
Fixpoint put_objects (fuel : nat) (now : Z) (s : Snapshot) : option Snapshot :=
  match fuel with
  | O => None
  | S fuel' =>
      match object_loading s with
      | [] => Some s
      | h :: _ =>
          let* (s, over) := put_object_into_cache now h s in
          if negb over then Some s
          else
            let* task := sn_object_tasks s !! h in
            let s := set_inflight (λ n, sat_sub n (om_object_size (ot_metadata task))) (set_object_loading (tail (object_loading s)) s) in
            let* s := try_load_objects (complete_object h s) in
            put_objects fuel' now s
      end
  end.
Definition try_put_objects (now : Z) (s : Snapshot) : option Snapshot := put_objects (S (length (object_loading s) + length (object_waiting s))) now s.

Definition replay_objects (objects : list S3ObjectMetadata) (s : Snapshot) : option (result StreamError Snapshot) :=
  match objects with
  | [] => Some (Err SE_Unexpected)
  | _ =>
      let first := length (sn_object_tasks s) in
      let s := with_object_tasks (λ l, l ++ ((λ o, mkObjectTask o None false ObjectQueued) <$> objects)) s in
      let* s := try_load_objects (set_object_waiting (object_waiting s ++ seq first (length objects)) s) in
      Some (Ok s)
  end.

(** [run_object_load]: the index, one slot per block, then every block into its slot. *)
Definition object_index_read (h : nat) (info : result ObjectError BasicObjectInfo) (s : Snapshot) : option Snapshot :=
  let* task := sn_object_tasks s !! h in
  match ot_load task with
  | ObjectIndex =>
      match info with
      | Err _ => Some (complete_object h (with_object_tasks (alter (set_object_load (ObjectPuts 1)) h) s))
      | Ok info =>
          let n := length (boi_index_block info) in
          Some (with_object_tasks (alter (λ t, set_object_load (ObjectReading (seq 0 n)) (set_object_blocks (Some (replicate n (mkBlockLoad false None))) t)) h) s)
      end
  | _ => None
  end.

Definition block_loaded (data : result ObjectError bytes) : result unit (list StreamRecordBatch) :=
  match data with
  | Ok bytes => match decode_data_block bytes with Ok records => Ok records | Err _ => Err tt end
  | Err _ => Err tt
  end.

(** The block's slot by its index, which panics beyond the slots. *)
Definition object_block_read (h i : nat) (data : result ObjectError bytes) (s : Snapshot) : option Snapshot :=
  let* task := sn_object_tasks s !! h in
  match ot_load task with
  | ObjectReading unread =>
      if bool_decide (i ∈ unread) then
        let* slots := ot_blocks task in
        let* _ := slots !! i in
        let slots := <[i := mkBlockLoad true (Some (block_loaded data))]> slots in
        Some (with_object_tasks (alter (λ t, set_object_load (ObjectReading (filter (λ j, j ≠ i) unread)) (set_object_blocks (Some slots) t)) h) s)
      else None
  | _ => None
  end.

(** Once every block is read, and again at the end of the spawned task. *)
Definition object_load_over (now : Z) (h : nat) (s : Snapshot) : option Snapshot :=
  let* task := sn_object_tasks s !! h in
  let go n := try_put_objects now (with_object_tasks (alter (set_object_load (ObjectPuts n)) h) s) in
  match ot_load task with
  | ObjectReading [] => go 1%nat
  | ObjectPuts (S n) => go n
  | _ => None
  end.

(** ** Commit requests *)

(** [notify_commit_if_ahead] for a freed block. *)
Definition nodes_behind (bounds : list StreamRangeBound) (metas : list StreamMetadata) : list Z :=
  remove_dups (omap (λ m, let* b := head (filter (λ b, sb_stream_id b = sm_stream_id m) bounds) in
    if i64 (sm_end_offset m) <? i64 (sb_end_offset b) then Some (sm_node_id m) else None) metas).
Definition notify_commit_if_ahead (bounds : list StreamRangeBound) (metas : result StreamError (list StreamMetadata)) (s : Snapshot) : Snapshot :=
  match metas with
  | Err _ => s
  | Ok metas => foldl (λ s id, notify_listener id s) s (nodes_behind bounds metas)
  end.
End Decoder.
