(* ===== verification/SnapshotSafety.v ===== *)
(** * What a snapshot-read cache holds

    The cache refines an abstract follower, which keeps for every stream the offset it
    expects next and the records since the last gap; log replays are put in call order and
    all answered once their loads are over. *)
From S2P Require Import Prelude Collections Codec WalFormat ObjectStore ObjectFormat ObjectIO Metadata LogCache LogCacheProofs StorageSafety SnapshotRead.

(** ** The abstract follower *)

Abbreviation Followed := (gmap Z (Z * list StreamRecordBatch)).

(** A batch that is already covered is skipped, a gap starts the stream anew. *)
Definition follow (a : Followed) (batch : StreamRecordBatch) : Followed :=
  match a !! stream_id batch with
  | None => <[stream_id batch := (last_offset batch, [batch])]> a
  | Some (next, l) =>
      if base_offset batch <? next then a
      else <[stream_id batch := (last_offset batch, if next <? base_offset batch then [batch] else l ++ [batch])]> a
  end.

Definition tail_of (a : Followed) (st : Z) : list StreamRecordBatch := default [] (snd <$> a !! st).

(** ** Records that fit *)

Definition good_batch (r : StreamRecordBatch) : Prop := base_offset r < last_offset r ≤ base_offset r + I32_MAX.

Lemma runs_elem lo l hi r : runs lo l hi → r ∈ l → lo ≤ base_offset r < last_offset r ∧ last_offset r ≤ hi.
Proof.
  revert lo; induction l as [|x l IH]; intros lo; cbn; [by intros _ ?%not_elem_of_nil|].
  intros (E1 & E2 & Hl) [->|Hr]%elem_of_cons; [pose proof (runs_le _ _ _ Hl); lia|]. destruct (IH _ Hl Hr). lia.
Qed.

Lemma suffix_total k l : k `suffix_of` l → total_size k ≤ total_size l.
Proof. intros [p ->]. rewrite batches_size_app. pose proof (batches_size_nonneg p). lia. Qed.

(** A batch that goes on from what is cached of its stream. *)
Lemma tail_appendable c r lo l :
  cache_ok c → contents (stream_id r) (lc_blocks c) `suffix_of` l → runs lo l (base_offset r) → base_offset r < last_offset r →
  total_size l + size r < 2 ^ 64 → appendable r c.
Proof.
  intros Hok [k El] Hruns Hspan Hmem. destruct (cache_nonempty c Hok) as (bs & a & Eb & _).
  assert (∀ b s e, b ∈ lc_blocks c → stream_range (stream_id r) b = Some (s, e) → ∃ y, last (stream_records (stream_id r) b) = Some y ∧ last_offset y = e ∧ y ∈ l) as Hlast.
  { intros b s e Hb Hr. pose proof (co_blocks _ Hok) as Hbo. rewrite Forall_forall in Hbo.
    destruct (stream_range_spec b _ s e (Hbo b Hb) Hr) as [Hse Hrun]. destruct (last (stream_records (stream_id r) b)) as [y|] eqn:Ey.
    - exists y. split; [done|]. split; [by eapply runs_last|]. rewrite El. apply elem_of_app. right. unfold contents. apply list_elem_of_bind. exists b.
      split; [|done]. by apply last_Some_elem_of.
    - apply last_None in Ey. rewrite Ey in Hrun. cbn in Hrun. lia. }
  constructor; [done| | |].
  - intros [s e] Hp. unfold ranges_of in Hp. apply list_elem_of_omap in Hp as (b & Hb & Hr). cbn. destruct (Hlast b s e Hb Hr) as (y & _ & <- & Hy). by eapply runs_elem.
  - intros b s e Hl Hr. destruct (Hlast b s e (last_Some_elem_of _ _ Hl) Hr) as (y & Ey & <- & _).
    rewrite Eb, last_snoc in Hl. injection Hl as <-. assert (last l = Some y) as El'.
    { rewrite El, Eb, contents_app, contents_single, app_assoc. apply last_Some in Ey as [m ->]. by rewrite app_assoc, last_snoc. }
    symmetry. by eapply runs_last.
  - pose proof (suffix_total (contents (stream_id r) (lc_blocks c)) l ltac:(by exists k)). lia.
Qed.

(** ** The cache's operations *)

Record cache_fit (c : LogCache) : Prop := {
  cf_ok : cache_ok c;
  cf_ids : ∃ b, active c = Some b ∧ lb_block_id b < lc_next_id c;
  cf_size : 0 < lc_block_max_size c;
  cf_count : 0 < lc_max_stream_count c;
}.

Lemma fit_active c : cache_fit c → ∃ b, active c = Some b ∧ lb_free b = false ∧ lb_block_id b < lc_next_id c.
Proof. intros [Hok (b & Hb & Hid) _ _]. destruct (co_active _ Hok) as (b' & Hb' & Hf). unfold active in Hb. rewrite Hb in Hb'. injection Hb' as <-. eauto. Qed.

(** What a put leaves of a stream. *)
Definition put_tail (st : Z) (r : StreamRecordBatch) (l k : list StreamRecordBatch) : Prop :=
  if decide (st = stream_id r) then ∃ m, k = m ++ [r] ∧ m `suffix_of` l else k `suffix_of` l.

Lemma suffix_snoc_inv {A} (k l : list A) x : k `suffix_of` l ++ [x] → k ≠ [] → ∃ m, k = m ++ [x] ∧ m `suffix_of` l.
Proof.
  intros [p E] Hne. destruct k as [|y k] using rev_ind; [done|]. rewrite app_assoc in E. apply app_inj_tail in E as [-> ->]. exists k. split; [done|]. by exists p.
Qed.

Lemma put_fit r c :
  cache_fit c → appendable r c →
  ∃ c' added, put r c = Some (c', added) ∧ cache_fit c' ∧ ∀ st, if (added : bool) then put_tail st r (contents st (lc_blocks c)) (contents st (lc_blocks c')) else contents st (lc_blocks c') `suffix_of` contents st (lc_blocks c).
Proof.
  intros Hfit Hap. destruct (fit_active c Hfit) as (b & Hb & Hf & Hid). destruct Hfit as [Hok _ Hs Hn].
  destruct (put_spec r c Hok Hap) as (c' & added & removed & E & Hok' & _ & Hfree & Hpend & Hcont).
  destruct (put_active r c b Hb Hf) as (c2 & E2 & Ha2 & [Hc1 Hc2] & Hnext & _). rewrite E in E2. injection E2 as <- Eadded.
  exists c', added. split; [done|]. split.
  - constructor; [done| |by rewrite Hc1|by rewrite Hc2]. eexists. split; [exact Ha2|]. rewrite Hnext.
    unfold block_put. destruct (is_full b); [done|]. destruct (sc_add _ _) as [sc []]; done.
  - intros st. specialize (Hcont st). unfold added_to in Hcont. destruct added; cbn [andb] in Hcont.
    + unfold put_tail. case_decide as Est.
      * subst st. rewrite Z.eqb_refl in Hcont. apply suffix_snoc_inv; [by exists (contents (stream_id r) removed)|]. specialize (Hpend (stream_id r)). unfold added_to in Hpend.
        rewrite Z.eqb_refl in Hpend. cbn in Hpend. intros E0.
        assert (r ∈ pending (stream_id r) (lc_blocks c')) as Hin by (rewrite Hpend; apply elem_of_app; right; left).
        unfold pending, contents in Hin. apply list_elem_of_bind in Hin as (x & Hx & [_ Hx']%list_elem_of_filter).
        assert (r ∈ contents (stream_id r) (lc_blocks c')) as Hin' by (apply list_elem_of_bind; by exists x). rewrite E0 in Hin'. by apply not_elem_of_nil in Hin'.
      * replace (st =? stream_id r) with false in Hcont by lia. rewrite app_nil_r in Hcont. by exists (contents st removed).
    + rewrite app_nil_r in Hcont. by exists (contents st removed).
Qed.

(** Blocks that keep their records, their name and whether they are free. *)
Lemma fit_relabel c f :
  cache_fit c → (∀ b, lb_map (f b) = lb_map b ∧ lb_block_id (f b) = lb_block_id b ∧ lb_free (f b) = lb_free b) →
  cache_fit (set_blocks (f <$> lc_blocks c) c) ∧ ∀ st, contents st (f <$> lc_blocks c) = contents st (lc_blocks c).
Proof.
  intros [[Hb Hr Hm (a & Ha & Hfa)] (b0 & Hb0 & Hid) Hs Hn] Hf.
  assert (∀ st bs, contents st (f <$> bs) = contents st bs) as Hc.
  { intros st bs. unfold contents. induction bs as [|b bs IH]; [done|]. cbn. rewrite IH. unfold stream_records at 1. by rewrite (proj1 (Hf b)). }
  assert (∀ st bs, ranges_of st (f <$> bs) = ranges_of st bs) as Hrg.
  { intros st bs. unfold ranges_of. induction bs as [|b bs IH]; [done|]. cbn. rewrite IH. unfold stream_range. by rewrite (proj1 (Hf b)). }
  split; [|done]. constructor; [constructor| |done|done]; cbn [lc_blocks set_blocks].
  - apply Forall_fmap. eapply Forall_impl; [exact Hb|]. intros b Hbok st sc. cbn. rewrite (proj1 (Hf b)). apply Hbok.
  - intros st. unfold ranges_ok. rewrite Hrg. apply Hr.
  - intros st. rewrite Hc. apply Hm.
  - exists (f a). rewrite fmap_last, Ha. split; [done|]. by rewrite (proj2 (proj2 (Hf a))).
  - exists (f b0). unfold active in *. cbn. rewrite fmap_last, Hb0. split; [done|]. by rewrite (proj1 (proj2 (Hf b0))).
Qed.

Lemma clear_fit id c :
  cache_fit c → let c' := clear_stream_records id c in cache_fit c' ∧ ∀ st, contents st (lc_blocks c') = if decide (st = id) then [] else contents st (lc_blocks c).
Proof.
  intros [[Hb Hr Hm (a & Ha & Hfa)] (b0 & Hb0 & Hid) Hs Hn]. cbn zeta.
  assert (∀ b, lb_map (free_stream id b).1 = delete id (lb_map b) ∧ lb_block_id (free_stream id b).1 = lb_block_id b ∧ lb_free (free_stream id b).1 = lb_free b) as Hf.
  { intros b. unfold free_stream. destruct (lb_map b !! id) eqn:E; cbn; [done|]. split; [|done]. symmetry. by apply delete_id. }
  set (f := fst ∘ free_stream id).
  assert (∀ st bs, contents st (f <$> bs) = if decide (st = id) then [] else contents st bs) as Hc.
  { intros st bs. unfold contents. induction bs as [|b bs IH]; [by destruct (decide _)|]. cbn. rewrite IH. unfold stream_records at 1, f, compose. rewrite (proj1 (Hf b)).
    destruct (decide (st = id)) as [->|]; [by rewrite lookup_delete_eq|by rewrite lookup_delete_ne]. }
  assert (∀ st bs, ranges_of st (f <$> bs) = if decide (st = id) then [] else ranges_of st bs) as Hrg.
  { intros st bs. unfold ranges_of. induction bs as [|b bs IH]; [by destruct (decide _)|]. cbn. rewrite IH. unfold stream_range, f, compose. rewrite (proj1 (Hf b)).
    destruct (decide (st = id)) as [->|]; [by rewrite lookup_delete_eq|by rewrite lookup_delete_ne]. }
  split; [|intros st; cbn; apply Hc]. constructor; [constructor| |done|done]; cbn [lc_blocks set_blocks clear_stream_records set_size]; fold f.
  - apply Forall_fmap. eapply Forall_impl; [exact Hb|]. intros b Hbok st sc. unfold compose, f. cbn. rewrite (proj1 (Hf b)). intros [_ H]%lookup_delete_Some. by eapply Hbok.
  - intros st. unfold ranges_ok. rewrite Hrg. destruct (decide _); [constructor|apply Hr].
  - intros st. rewrite Hc. destruct (decide _); [cbn; lia|apply Hm].
  - exists (f a). rewrite fmap_last, Ha. split; [done|]. unfold f, compose. by rewrite (proj2 (proj2 (Hf a))).
  - exists (f b0). unfold active in *. cbn. fold f. rewrite fmap_last, Hb0. split; [done|]. unfold f, compose. by rewrite (proj1 (proj2 (Hf b0))).
Qed.

(** ** Puts *)

(** Everything but the cache and what its blocks report. *)
Definition same_books (s s' : Snapshot) : Prop :=
  sn_wal_tasks s' = sn_wal_tasks s ∧ sn_object_tasks s' = sn_object_tasks s ∧ sn_events s' = sn_events s ∧ sn_history s' = sn_history s
  ∧ st_wal (sn_state s') = st_wal (sn_state s) ∧ st_object (sn_state s') = st_object (sn_state s).

Lemma same_books_trans s1 s2 s3 : same_books s1 s2 → same_books s2 s3 → same_books s1 s3.
Proof. intros (?&?&?&?&?&?) (?&?&?&?&?&?). repeat split; congruence. Qed.

Lemma put_tail_trans st r l k m : put_tail st r k m → k `suffix_of` l → put_tail st r l m.
Proof. unfold put_tail. case_decide; [intros (x & -> & Hx) Hl; exists x; split; [done|by etrans]|intros; by etrans]. Qed.

Lemma fresh_accepts r c c' added id n m :
  active c = Some (block_new id n m) → 0 < n → 0 < m → good_batch r → put r c = Some (c', added) → added = true.
Proof.
  intros Ha Hs Hn [H1 H2] E. destruct (put_active r c _ Ha eq_refl) as (c2 & E2 & _). rewrite E in E2. injection E2 as _ ->.
  unfold block_put, is_full. cbn. rewrite map_size_empty. replace (n <=? 0) with false by lia. replace (m <=? Z.of_nat 0) with false by lia. cbn.
  unfold sc_add. rewrite lookup_empty. cbn. replace (I32_MAX <? u64 (last_offset r - base_offset r)) with false; [done|]. unfold I32_MAX in *. int_lia.
Qed.

Lemma put_batch_fit batch s lo l :
  cache_fit (sn_cache s) → contents (stream_id batch) (lc_blocks (sn_cache s)) `suffix_of` l → runs lo l (base_offset batch) → good_batch batch →
  total_size l + size batch < 2 ^ 64 →
  ∃ s', put_batch batch s = Some s' ∧ cache_fit (sn_cache s') ∧ sn_state s' = sn_state s ∧ same_books s s'
    ∧ (∃ m, contents (stream_id batch) (lc_blocks (sn_cache s')) = m ++ [batch] ∧ m `suffix_of` l)
    ∧ ∀ st, st ≠ stream_id batch → contents st (lc_blocks (sn_cache s')) `suffix_of` contents st (lc_blocks (sn_cache s)).
Proof.
  intros Hfit Hsuf Hruns Hgood Hmem. unfold put_batch, cache_put.
  destruct (put_fit batch (sn_cache s) Hfit) as (c1 & added & E1 & Hfit1 & Hc1); [by eapply tail_appendable; [apply Hfit|..]; [done|done|apply Hgood|]|].
  rewrite E1. destruct added.
  { eexists. split; [done|]. split; [done|]. split; [done|]. split; [done|]. split.
    - specialize (Hc1 (stream_id batch)). unfold put_tail in Hc1. rewrite decide_True in Hc1 by done. destruct Hc1 as (m & E & Hm). exists m. split; [done|by etrans].
    - intros st Hst. specialize (Hc1 st). unfold put_tail in Hc1. by rewrite decide_False in Hc1. }
  change (sn_cache (report (try_real_free (sn_cache s)).2 (with_cache c1 s))) with c1.
  destruct (fit_active c1 Hfit1) as (b1 & Hb1 & Hf1 & Hid1). destruct (archive_spec c1 (cf_ok _ Hfit1)) as (c2 & block & E2 & Hok2 & [Hv2 _] & _ & b1' & Hb1' & _ & Eid & _).
  unfold active in Hb1. rewrite Hb1 in Hb1'. injection Hb1' as <-. destruct (archive_active c1 b1 Hb1) as (c2' & E2' & Ha2 & [Hs2 Hn2] & Hnext2 & _).
  rewrite E2 in E2'. injection E2' as <- Eblock. rewrite E2.
  assert (cache_fit c2) as Hfit2.
  { constructor; [done| |by rewrite Hs2; apply Hfit1|by rewrite Hn2; apply Hfit1]. eexists. split; [exact Ha2|]. cbn. lia. }
  set (id := lb_block_id block) in *.
  destruct (fit_relabel c2 (λ b, if lb_block_id b =? id then add_free_listener CACHE_FREE_LISTENER b else b) Hfit2) as [Hfit3 Hc3]; [intros b; by destruct (lb_block_id b =? id)|].
  change (set_blocks _ c2) with (cache_listen id c2) in Hfit3. set (c3 := cache_listen id c2) in *. change (with_cache c3 _) with (with_cache c3 (report (try_real_free (sn_cache s)).2 (with_cache c1 s))).
  assert (active c3 = Some (block_new (lc_next_id c1) (lc_block_max_size c1) (lc_max_stream_count c1))) as Ha3.
  { unfold active, c3, cache_listen in *. cbn. rewrite fmap_last, Ha2. cbn. replace (lc_next_id c1 =? id) with false by lia. done. }
  destruct (mark_free_active id c3 _ Ha3 eq_refl) as (Ha4 & [Hs4 Hn4] & Hnext4 & _); [cbn; lia|].
  destruct (mark_free_spec id c3 (cf_ok _ Hfit3)) as (Hok4 & _ & _ & Hc4); [unfold active in Ha3; rewrite Ha3; intros b [= <-]; cbn; lia|].
  assert (cache_fit (mark_free id c3)) as Hfit4.
  { constructor; [done| |by rewrite Hs4; apply Hfit3|by rewrite Hn4; apply Hfit3]. eexists. split; [exact Ha4|]. cbn. change (lc_next_id c3) with (lc_next_id c2) in Hnext4. lia. }
  assert (∀ st, contents st (lc_blocks (mark_free id c3)) `suffix_of` contents st (lc_blocks (sn_cache s))) as Hsuf4.
  { intros st. etrans; [apply Hc4|]. change (lc_blocks c3) with ((λ b, if lb_block_id b =? id then add_free_listener CACHE_FREE_LISTENER b else b) <$> lc_blocks c2). rewrite Hc3, Hv2. apply Hc1. }
  unfold cache_mark_free. cbn [sn_cache with_cache report].
  destruct (put_fit batch (mark_free id c3) Hfit4) as (c5 & added & E5 & Hfit5 & Hc5).
  { eapply tail_appendable; [apply Hfit4| |exact Hruns|apply Hgood|done]. etrans; [apply Hsuf4|done]. }
  assert (added = true) as ->.
  { by eapply (fresh_accepts batch _ _ _ _ _ _ Ha4); [apply Hfit1|apply Hfit1|done|exact E5]. }
  rewrite E5. eexists. split; [done|]. split; [done|]. split; [done|]. split; [done|]. cbn [sn_cache with_cache report]. split.
  - specialize (Hc5 (stream_id batch)). unfold put_tail in Hc5. rewrite decide_True in Hc5 by done. destruct Hc5 as (m & E & Hm). exists m. split; [done|]. etrans; [exact Hm|]. etrans; [apply Hsuf4|done].
  - intros st Hst. specialize (Hc5 st). unfold put_tail in Hc5. rewrite decide_False in Hc5 by done. etrans; [exact Hc5|apply Hsuf4].
Qed.

(** ** The refinement *)

(** The offsets are the follower's, and of each stream the newest of its records are
    cached; [used] bounds the bytes that were put. *)
Record follows (used : Z) (s : Snapshot) (a : Followed) : Prop := {
  fo_fit : cache_fit (sn_cache s);
  fo_next st : st_stream_next_offsets (sn_state s) !! st = fst <$> a !! st;
  fo_cached st : contents st (lc_blocks (sn_cache s)) `suffix_of` tail_of a st;
  fo_runs st n l : a !! st = Some (n, l) → ∃ lo, runs lo l n;
  fo_used st : total_size (tail_of a st) ≤ used;
}.

Lemma follows_none used s a st : follows used s a → a !! st = None → contents st (lc_blocks (sn_cache s)) = [].
Proof. intros Hf E. pose proof (fo_cached _ _ _ Hf st) as [k Hk]. unfold tail_of in Hk. rewrite E in Hk. cbn in Hk. by destruct k, (contents st _). Qed.

Lemma follows_put used s s' a batch l lo :
  follows used s a → cache_fit (sn_cache s') → st_stream_next_offsets (sn_state s') = <[stream_id batch := last_offset batch]> (st_stream_next_offsets (sn_state s)) →
  runs lo l (base_offset batch) → good_batch batch → total_size l ≤ used →
  (∃ m, contents (stream_id batch) (lc_blocks (sn_cache s')) = m ++ [batch] ∧ m `suffix_of` l) →
  (∀ st, st ≠ stream_id batch → contents st (lc_blocks (sn_cache s')) `suffix_of` contents st (lc_blocks (sn_cache s))) →
  follows (used + size batch) s' (<[stream_id batch := (last_offset batch, l ++ [batch])]> a).
Proof.
  intros [F1 F2 F3 F4 F5] Hfit En Hruns Hgood Hused (m & Em & k & ->) Hother. pose proof (size_nonneg batch). constructor; [done|..].
  - intros st. rewrite En. destruct (decide (st = stream_id batch)) as [->|]; [by rewrite !lookup_insert_eq|]. rewrite !lookup_insert_ne by done. apply F2.
  - intros st. unfold tail_of. destruct (decide (st = stream_id batch)) as [->|].
    + rewrite lookup_insert_eq, Em. cbn. exists k. by rewrite app_assoc.
    + rewrite lookup_insert_ne by done. etrans; [by apply Hother|apply F3].
  - intros st n l' [[<- [= <- <-]]|[_ Hl]]%lookup_insert_Some; [|by eapply F4]. exists lo. apply runs_app. exists (base_offset batch). split; [done|]. cbn. destruct Hgood. split_and!; [done|lia|done].
  - intros st. unfold tail_of. destruct (decide (st = stream_id batch)) as [->|].
    + rewrite lookup_insert_eq. cbn. rewrite batches_size_app. cbn. lia.
    + rewrite lookup_insert_ne by done. specialize (F5 st). unfold tail_of in F5. lia.
Qed.

Lemma follows_same used s s' a :
  sn_cache s' = sn_cache s → st_stream_next_offsets (sn_state s') = st_stream_next_offsets (sn_state s) → follows used s a → follows used s' a.
Proof. intros E1 E2 [F1 F2 F3 F4 F5]. constructor; rewrite ?E1, ?E2; done. Qed.

Lemma follows_more used used' s a : follows used s a → used ≤ used' → follows used' s a.
Proof. intros [F1 F2 F3 F4 F5] Hle. constructor; try done. intros st. specialize (F5 st). lia. Qed.

(** One batch. *)
Definition put_one (batch : StreamRecordBatch) (expected : Z) (s : Snapshot) : option Snapshot :=
  let s := if expected <? base_offset batch then SnapshotRead.with_cache (clear_stream_records (stream_id batch) (sn_cache s)) s else s in
  let* s := put_batch batch s in
  Some (with_next (<[stream_id batch := last_offset batch]>) s).

Lemma put_one_follows batch used s a expected l lo :
  follows used s a → good_batch batch → used + size batch < 2 ^ 64 → expected ≤ base_offset batch →
  contents (stream_id batch) (lc_blocks (sn_cache s)) `suffix_of` l → runs lo l expected → total_size l ≤ used →
  ∃ s', put_one batch expected s = Some s' ∧ same_books s s'
    ∧ follows (used + size batch) s' (<[stream_id batch := (last_offset batch, if expected <? base_offset batch then [batch] else l ++ [batch])]> a)
    ∧ last (contents (stream_id batch) (lc_blocks (sn_cache s'))) = Some batch.
Proof.
  intros Hf Hgood Hmem Hle Hsuf Hruns Hused. unfold put_one. pose proof (fo_fit _ _ _ Hf) as Hfit. destruct (clear_fit (stream_id batch) _ Hfit) as [Hfit' Hc'].
  set (gap := expected <? base_offset batch) in *.
  set (s0 := if gap then with_cache (clear_stream_records (stream_id batch) (sn_cache s)) s else s).
  assert (∃ k lo', (if gap then [batch] else l ++ [batch]) = k ++ [batch] ∧ contents (stream_id batch) (lc_blocks (sn_cache s0)) `suffix_of` k ∧ runs lo' k (base_offset batch)
    ∧ total_size k ≤ used) as (k & lo' & Ek & Hsuf0 & Hruns0 & Hused0).
  { subst s0 gap. destruct (expected <? base_offset batch) eqn:E.
    - exists [], (base_offset batch). cbn [sn_cache SnapshotRead.with_cache]. rewrite Hc', decide_True by done. pose proof (batches_size_nonneg l). split_and!; [done|done|done|cbn; lia].
    - exists l, lo. replace (base_offset batch) with expected by lia. done. }
  assert (cache_fit (sn_cache s0) ∧ sn_state s0 = sn_state s ∧ same_books s s0) as (Hfit0 & Est0 & Hb0) by (subst s0; by destruct gap).
  assert (∀ st, st ≠ stream_id batch → contents st (lc_blocks (sn_cache s0)) = contents st (lc_blocks (sn_cache s))) as Hc0.
  { intros st Hst. subst s0. destruct gap; [|done]. cbn [sn_cache SnapshotRead.with_cache]. rewrite Hc'. by rewrite decide_False. }
  clearbody s0. destruct (put_batch_fit batch s0 lo' k Hfit0 Hsuf0 Hruns0 Hgood ltac:(lia)) as (s1 & E1 & Hfit1 & Est1 & Hb1 & Hm & Hother). rewrite E1.
  eexists. split; [done|]. split; [|split].
  - eapply same_books_trans; [exact Hb0|]. eapply same_books_trans; [exact Hb1|]. done.
  - rewrite Ek. eapply (follows_put used s); [done|done| |exact Hruns0|done|done|done|].
    + cbn. by rewrite Est1, Est0.
    + intros st Hst. cbn [sn_cache with_next SnapshotRead.with_state]. rewrite <- (Hc0 st Hst). by apply Hother.
  - cbn [sn_cache with_next SnapshotRead.with_state]. destruct Hm as (m & -> & _). by rewrite last_snoc.
Qed.

(** A stream that is not followed yet is expected at the batch. *)
Definition seeded (batch : StreamRecordBatch) (a : Followed) : Followed :=
  match a !! stream_id batch with Some _ => a | None => <[stream_id batch := (base_offset batch, [])]> a end.

Lemma follow_seeded a batch : follow (seeded batch a) batch = follow a batch.
Proof.
  unfold follow, seeded. destruct (a !! stream_id batch) as [[n l]|] eqn:E; [by rewrite E|]. rewrite lookup_insert_eq, Z.ltb_irrefl. by rewrite insert_insert_eq.
Qed.

Lemma seed_follows used s a now current batch :
  follows used s a → 0 ≤ used → (current = Some (stream_id batch) → is_Some (a !! stream_id batch)) →
  let s' := if bool_decide (current = Some (stream_id batch)) then s
            else active_stream now (stream_id batch) (with_next (λ m, match m !! stream_id batch with Some _ => m | None => <[stream_id batch := base_offset batch]> m end) s) in
  follows used s' (seeded batch a) ∧ same_books s s'.
Proof.
  intros Hf Hu Hcur. cbn zeta. case_bool_decide as Ec.
  { destruct (Hcur Ec) as [p Ep]. unfold seeded. by rewrite Ep. }
  split; [|done]. unfold seeded. pose proof (fo_next _ _ _ Hf (stream_id batch)) as En. destruct (a !! stream_id batch) as [[n l]|] eqn:Ea; cbn in En.
  - eapply follows_same; [..|exact Hf]; [done|]. cbn. by rewrite En.
  - pose proof (follows_none _ _ _ _ Hf Ea) as Ec0. destruct Hf as [F1 F2 F3 F4 F5]. constructor; [done|..]; cbn; rewrite ?En.
    + intros st. destruct (decide (st = stream_id batch)) as [->|]; [by rewrite !lookup_insert_eq|]. rewrite !lookup_insert_ne by done. apply F2.
    + intros st. unfold tail_of. destruct (decide (st = stream_id batch)) as [->|]; [|rewrite lookup_insert_ne by done; apply F3]. rewrite lookup_insert_eq. fold (contents (stream_id batch) (lc_blocks (sn_cache s))). by rewrite Ec0.
    + intros st n l [[<- [= <- <-]]|[_ Hl]]%lookup_insert_Some; [by exists (base_offset batch)|by eapply F4].
    + intros st. unfold tail_of. destruct (decide (st = stream_id batch)) as [->|]; [rewrite lookup_insert_eq; cbn; lia|rewrite lookup_insert_ne by done; apply F5].
Qed.

Lemma seeded_some batch a : is_Some (seeded batch a !! stream_id batch).
Proof. unfold seeded. destruct (a !! stream_id batch) as [p|] eqn:E; [by rewrite E|]. by rewrite lookup_insert_eq. Qed.

Lemma follow_some batch a : is_Some (follow a batch !! stream_id batch).
Proof. unfold follow. destruct (a !! stream_id batch) as [[n l]|] eqn:E; [destruct (_ <? _); [by rewrite E|]|]; by rewrite lookup_insert_eq. Qed.

Lemma put_records_follows now current records used s a :
  follows used s a → 0 ≤ used → Forall good_batch records → used + total_size records < 2 ^ 64 →
  (∀ id, current = Some id → is_Some (a !! id)) →
  ∃ s', put_records now current records s = Some s' ∧ same_books s s' ∧ follows (used + total_size records) s' (foldl follow a records)
    ∧ ∀ rs r, records = rs ++ [r] → (∀ n l, foldl follow a rs !! stream_id r = Some (n, l) → n ≤ base_offset r) → last (contents (stream_id r) (lc_blocks (sn_cache s'))) = Some r.
Proof.
  revert current used s a; induction records as [|batch records IH]; intros current used s a Hf Hu Hgood Hmem Hcur.
  { exists s. cbn. rewrite Z.add_0_r. split_and!; try done. by intros [|? ?] ? ?. }
  apply Forall_cons in Hgood as [Hg Hgood]. change (total_size (batch :: records)) with (size batch + total_size records) in *. pose proof (size_nonneg batch). pose proof (batches_size_nonneg records).
  cbn [put_records foldl]. destruct (seed_follows used s a now current batch Hf Hu (Hcur _)) as [Hf1 Hb1]. cbv zeta in Hf1, Hb1.
  set (s1 := if bool_decide (current = Some (stream_id batch)) then s else _) in *. clearbody s1. rewrite <- follow_seeded.
  destruct (seeded_some batch a) as [[n l] Ea]. rewrite (fo_next _ _ _ Hf1), Ea. cbn [fmap option_fmap option_map fst].
  destruct (base_offset batch <? n) eqn:Ecov.
  - assert (follow (seeded batch a) batch = seeded batch a) as Efol by (unfold follow; rewrite Ea; by rewrite Ecov).
    destruct (IH (Some (stream_id batch)) (used + size batch) s1 (seeded batch a)) as (s' & E' & Hb' & Hf' & Hlast); [by eapply follows_more; [exact Hf1|lia]|lia|done|lia|intros id [= <-]; by rewrite Ea|].
    exists s'. rewrite Efol. split; [exact E'|]. split; [by eapply same_books_trans|]. split; [by rewrite Z.add_assoc|]. intros rs r Er Hn. destruct rs as [|x rs].
    + injection Er as -> ->. cbn in Hn. exfalso. unfold seeded in Ea. destruct (a !! stream_id r) as [[n' l']|] eqn:Ea'; [|rewrite lookup_insert_eq in Ea; injection Ea as <- <-; lia].
      rewrite Ea' in Ea. injection Ea as -> ->. specialize (Hn n l eq_refl). lia.
    + injection Er as <- ->. apply (Hlast rs r eq_refl). intros n' l'. specialize (Hn n' l'). cbn in Hn. by rewrite <- (follow_seeded a batch), Efol in Hn.
  - destruct (fo_runs _ _ _ Hf1 _ _ _ Ea) as [lo Hruns]. pose proof (fo_cached _ _ _ Hf1 (stream_id batch)) as Hsuf. pose proof (fo_used _ _ _ Hf1 (stream_id batch)) as Hused.
    unfold tail_of in Hsuf, Hused. rewrite Ea in Hsuf, Hused. cbn in Hsuf, Hused.
    destruct (put_one_follows batch used s1 (seeded batch a) n l lo Hf1 Hg ltac:(lia) ltac:(lia) Hsuf Hruns Hused) as (s2 & E2 & Hb2 & Hf2 & Hl2).
    unfold put_one in E2. destruct (put_batch _ _) as [s2'|] eqn:Ep in E2; [|done]. injection E2 as E2. rewrite Ep, E2.
    assert (follow (seeded batch a) batch = <[stream_id batch := (last_offset batch, if n <? base_offset batch then [batch] else l ++ [batch])]> (seeded batch a)) as Efol.
    { unfold follow. by rewrite Ea, Ecov. }
    rewrite <- Efol in Hf2. destruct (IH (Some (stream_id batch)) (used + size batch) s2 (follow (seeded batch a) batch)) as (s' & E' & Hb' & Hf' & Hlast); [done|lia|done|lia|intros id [= <-]; apply follow_some|].
    exists s'. split; [exact E'|]. split; [by eapply same_books_trans; [|eapply same_books_trans]|]. split; [by rewrite Z.add_assoc|]. intros rs r Er Hn. destruct rs as [|x rs].
    + injection Er as -> ->. cbn in E'. by injection E' as <-.
    + injection Er as <- ->. apply (Hlast rs r eq_refl). intros n' l'. rewrite follow_seeded. apply Hn.
Qed.

Lemma clear_stream_follows used s a id : follows used s a → 0 ≤ used → follows used (clear_stream id s) (delete id a) ∧ same_books s (clear_stream id s).
Proof.
  intros [F1 F2 F3 F4 F5] Hu. destruct (clear_fit id _ F1) as [Hfit Hc]. split; [|done]. constructor; [done|..].
  - intros st. cbn. destruct (decide (st = id)) as [->|]; [by rewrite !lookup_delete_eq|]. rewrite !lookup_delete_ne by done. apply F2.
  - intros st. change (sn_cache (clear_stream id s)) with (clear_stream_records id (sn_cache s)). rewrite Hc. unfold tail_of. destruct (decide (st = id)) as [->|]; [by rewrite lookup_delete_eq|].
    rewrite lookup_delete_ne by done. apply F3.
  - intros st n l [_ Hl]%lookup_delete_Some. by eapply F4.
  - intros st. unfold tail_of. destruct (decide (st = id)) as [->|]; [rewrite lookup_delete_eq; cbn; lia|]. rewrite lookup_delete_ne by done. apply F5.
Qed.

(** The streams a sweep gives up. *)
Definition expired (now : Z) (s : Snapshot) : list Z := (filter (λ e, ACTIVE_EXPIRE <= sat_sub now e.2) (entries (st_active_streams (sn_state s)))).*1.

Lemma sweep_follows used s a now :
  follows used s a → 0 ≤ used → follows used (sweep_expired now s) (foldr delete a (expired now s)) ∧ same_books s (sweep_expired now s).
Proof.
  intros Hf Hu. unfold sweep_expired, expired. induction (filter _ _) as [|e l IH]; [done|]. cbn. destruct IH as [IH1 IH2].
  destruct (clear_stream_follows used _ _ e.1 IH1 Hu) as [H1 H2]. split; [done|by eapply same_books_trans].
Qed.

(** C13: the snapshot-read cache refines the abstract follower: putting records never fails,
    moves every stream as the follower does (covered batches are skipped, a gap starts the
    stream anew), leaves only followed records in the cache, the newest of each stream, with
    the last record that was accepted among them, and an expiry forgets exactly the expired
    streams. *)
Theorem snapshot_put_refines now src records used s a :
  follows used s a → 0 ≤ used → Forall good_batch records → used + total_size records < 2 ^ 64 →
  follows used (sweep_expired now s) (foldr delete a (expired now s))
  ∧ ∃ s', put_locked now src records s = Some s' ∧ follows (used + total_size records) s' (foldl follow a records)
    ∧ (∀ rs r, records = rs ++ [r] → (∀ n l, foldl follow a rs !! stream_id r = Some (n, l) → n ≤ base_offset r) →
         last (contents (stream_id r) (lc_blocks (sn_cache s'))) = Some r)
    ∧ ∀ st start end_ max_bytes, 0 ≤ max_bytes → start < end_ →
        ∃ c rs, get st start end_ max_bytes (sn_cache s') = Some (c, rs) ∧ ∀ x, x ∈ rs → x ∈ tail_of (foldl follow a records) st.
Proof.
  intros Hf Hu Hgood Hmem. split; [by apply sweep_follows|]. unfold put_locked.
  destruct (put_records_follows now None records used (record_put src records s) a) as (s' & E & _ & Hf' & Hlast); [by eapply follows_same; [..|exact Hf]|done|done|done|done|].
  exists s'. split_and!; [done|done|done|]. intros st start e m Hm Hlt. destruct (get_spec st start e m (sn_cache s')) as (c & rs & Eg & _ & _ & _ & Han); [apply Hf'|done|done|].
  exists c, rs. split; [done|]. intros x Hx. apply (an_elem _ _ _ _ _ _ Han) in Hx. destruct (fo_cached _ _ _ Hf' st) as [k ->]. apply elem_of_app. by right.
Qed.

(** ** Runs *)

Section Runs.
Context (link_decoder : option (StreamRecordBatch → option StreamRecordBatch)).

Inductive SnapshotEvent : Type :=
| EvPut (now : Z) (records : list StreamRecordBatch)
| EvReplayObjects (objects : list S3ObjectMetadata)
| EvReplayWal (timestamp now node_id : Z) (start end_ : RecordOffset) (wal_records : option (list StreamRecordBatch))
| EvReplayReturned (now : Z)
| EvWalLoaded (h : nat) (read : result WalError (list StreamRecordBatch))
| EvWalOver (now : Z) (h : nat)
| EvObjectIndex (h : nat) (info : result ObjectError BasicObjectInfo)
| EvObjectBlock (h i : nat) (data : result ObjectError bytes)
| EvObjectOver (now : Z) (h : nat)
| EvNotify (bounds : list StreamRangeBound) (metas : result StreamError (list StreamMetadata)).

Definition snapshot_step (e : SnapshotEvent) (s : Snapshot) : option Snapshot :=
  match e with
  | EvPut now records => snapshot_put now records s
  | EvReplayObjects objects => let* r := replay_objects objects s in Some (match r with Ok s => s | Err _ => s end)
  | EvReplayWal timestamp now node_id start end_ wal_records => replay_wal timestamp now node_id start end_ wal_records s
  | EvReplayReturned now => try_load_wal now s
  | EvWalLoaded h read => run_wal_load link_decoder h read s
  | EvWalOver now h => wal_load_over now h s
  | EvObjectIndex h info => object_index_read h info s
  | EvObjectBlock h i data => object_block_read h i data s
  | EvObjectOver now h => object_load_over now h s
  | EvNotify bounds metas => Some (notify_commit_if_ahead bounds metas s)
  end.
Fixpoint snapshot_run (es : list SnapshotEvent) (s : Snapshot) : option Snapshot :=
  match es with
  | [] => Some s
  | e :: es => let* s := snapshot_step e s in snapshot_run es s
  end.

(** ** The log replay of a snapshot *)

Definition wal_history (s : Snapshot) : list (nat * list StreamRecordBatch) :=
  omap (λ p, match p.1 with FromWal h => Some (h, p.2) | _ => None end) (sn_history s).
Definition wal_view (s : Snapshot) : list WalReplayTask * WalReplayState * list (nat * list StreamRecordBatch) :=
  (sn_wal_tasks s, st_wal (sn_state s), wal_history s).

Lemma put_batch_books batch s s' : put_batch batch s = Some s' → same_books s s'.
Proof.
  unfold put_batch, cache_put. destruct (put _ _) as [[c []]|]; [intros [= <-]; done| |done]. cbn.
  destruct (archive_current_block c) as [[c2 block]|]; [|done]. match goal with |- context [put batch ?x] => destruct (put batch x) as [[c3 ad]|]; [|done] end. by intros [= <-].
Qed.

Lemma put_records_books now current records s s' : put_records now current records s = Some s' → same_books s s'.
Proof.
  revert current s; induction records as [|batch records IH]; intros current s; cbn [put_records]; [by intros [= <-]|].
  set (s1 := if bool_decide _ then s else _). assert (same_books s s1) as H1 by (subst s1; by destruct (bool_decide _)). clearbody s1.
  destruct (_ !! _) as [expected|]; [|done]. destruct (_ <? expected); [intros H%IH; by eapply same_books_trans|].
  match goal with |- context [put_batch batch ?x] => destruct (put_batch batch x) as [s2|] eqn:E; [|done]; assert (same_books s1 x) as H2 by (by destruct (expected <? _)) end.
  intros H%IH. eapply same_books_trans; [exact H1|]. eapply same_books_trans; [exact H2|]. eapply same_books_trans; [by eapply put_batch_books|]. exact H.
Qed.

Lemma put_locked_books now src records s s' : put_locked now src records s = Some s' → same_books (record_put src records s) s'.
Proof. apply put_records_books. Qed.

Lemma put_view now src records s s' :
  put_locked now src records s = Some s' → (∀ h, src ≠ FromWal h) → wal_view s' = wal_view s ∧ sn_object_tasks s' = sn_object_tasks s ∧ st_object (sn_state s') = st_object (sn_state s).
Proof.
  intros (E1 & E2 & E3 & E4 & E5 & E6)%put_locked_books Hsrc. split; [|done]. unfold wal_view, wal_history. rewrite E1, E4, E5. cbn. f_equal.
  rewrite omap_app. destruct src; [|by destruct (Hsrc task)|]; cbn; by rewrite app_nil_r.
Qed.

(** Replaying objects leaves the log replay alone. *)
Lemma load_objects_view waiting s s' : load_object_tasks waiting s = Some s' → wal_view s' = wal_view s.
Proof.
  revert s; induction waiting as [|h waiting IH]; intros s; cbn [load_object_tasks]; (destruct (_ <=? _); [by intros [= <-]|]); [by intros [= <-]|].
  destruct (sn_object_tasks s !! h); [|done]. intros H%IH. exact H.
Qed.

Lemma put_slots_view now h slots s s' b : put_slots now h slots s = Some (s', b) → wal_view s' = wal_view s.
Proof.
  revert s; induction slots as [|slot slots IH]; intros s; cbn [put_slots]; [by intros [= <- <-]|]. destruct (negb _); [by intros [= <- <-]|].
  destruct (bl_records slot) as [[rs|]|]; [|apply IH..]. destruct (put_locked _ _ _ _) as [s1|] eqn:E; [|done]. intros H%IH. rewrite H. by eapply put_view.
Qed.

Lemma put_objects_view fuel now s s' : put_objects fuel now s = Some s' → wal_view s' = wal_view s.
Proof.
  revert s; induction fuel as [|fuel IH]; intros s; cbn [put_objects]; [done|]. destruct (object_loading s) as [|h l]; [by intros [= <-]|].
  unfold put_object_into_cache. destruct (sn_object_tasks s !! h) as [t|]; [|done].
  assert (∀ s1 b, match ot_blocks t with Some slots => put_slots now h slots s | None => Some (s, false) end = Some (s1, b) → wal_view s1 = wal_view s) as Hput.
  { intros s1 b. destruct (ot_blocks t); [apply put_slots_view|by intros [= <- <-]]. }
  destruct (match ot_blocks t with Some _ => _ | None => _ end) as [[s1 b]|]; [|done]. specialize (Hput s1 b eq_refl). destruct b; cbn [negb]; [|by intros [= <-]].
  destruct (sn_object_tasks s1 !! h) as [t1|]; [|done]. destruct (try_load_objects _) as [s2|] eqn:El; [|done]. intros H%IH. rewrite H. apply load_objects_view in El. rewrite El. exact Hput.
Qed.

(** A replay of objects passes every queued object at most once: the fuel it is given is
    enough, more changes nothing. *)
Definition objects_queued (s : Snapshot) : nat := length (object_loading s) + length (object_waiting s).

Lemma load_objects_queued waiting s s' : load_object_tasks waiting s = Some s' → objects_queued s' = (length (object_loading s) + length waiting)%nat.
Proof.
  revert s; induction waiting as [|h waiting IH]; intros s; cbn [load_object_tasks]; (destruct (_ <=? _); [by intros [= <-]|]); [by intros [= <-]|].
  destruct (sn_object_tasks s !! h); [|done]. intros ->%IH. cbn. rewrite length_app. cbn. lia.
Qed.

Lemma put_slots_queued now h slots s s' b : put_slots now h slots s = Some (s', b) → st_object (sn_state s') = st_object (sn_state s).
Proof.
  revert s; induction slots as [|slot slots IH]; intros s; cbn [put_slots]; [by intros [= <- <-]|]. destruct (negb _); [by intros [= <- <-]|].
  destruct (bl_records slot) as [[rs|]|]; [|apply IH..]. destruct (put_locked _ _ _ _) as [s1|] eqn:E; [|done]. intros ->%IH. by eapply put_view.
Qed.

Lemma put_objects_S fuel now s :
  put_objects (S fuel) now s =
    match object_loading s with
    | [] => Some s
    | h :: _ =>
        let* (s, over) := put_object_into_cache now h s in
        if negb over then Some s
        else
          let* task := sn_object_tasks s !! h in
          let s := set_inflight (λ n, sat_sub n (om_object_size (ot_metadata task))) (set_object_loading (tail (object_loading s)) s) in
          let* s := try_load_objects (complete_object h s) in
          put_objects fuel now s
    end.
Proof. reflexivity. Qed.

Lemma put_objects_fuel now fuel s : (objects_queued s < fuel)%nat → put_objects (S fuel) now s = put_objects fuel now s.
Proof.
  revert s; induction fuel as [|fuel IH]; intros s Hlt; [lia|]. rewrite (put_objects_S (S fuel) now s), (put_objects_S fuel now s).
  destruct (object_loading s) as [|h l] eqn:El; [done|]. destruct (put_object_into_cache now h s) as [[s1 over]|] eqn:Ep; [|done].
  assert (st_object (sn_state s1) = st_object (sn_state s)) as Eo.
  { unfold put_object_into_cache in Ep. destruct (sn_object_tasks s !! h) as [t|]; [|done]. destruct (ot_blocks t); [by eapply put_slots_queued|by injection Ep as <- <-]. }
  destruct over; cbn [negb]; [|done]. destruct (sn_object_tasks s1 !! h) as [t|]; [|done]. destruct (try_load_objects _) as [s2|] eqn:Eq; [|done]. apply IH.
  apply load_objects_queued in Eq. rewrite Eq. unfold objects_queued, object_loading, object_waiting in *. cbn. rewrite Eo. rewrite El in *. cbn in *. lia.
Qed.

Lemma notify_view l s : wal_view (foldl (λ s id, notify_listener id s) s l) = wal_view s.
Proof. revert s; induction l as [|id l IH]; intros s; cbn; [done|]. by rewrite IH. Qed.

(** The events that do not concern the log replay. *)
Definition wal_event (e : SnapshotEvent) : bool :=
  match e with EvReplayWal _ _ _ _ _ _ | EvReplayReturned _ | EvWalLoaded _ _ | EvWalOver _ _ => true | _ => false end.

Lemma other_view e s s' : snapshot_step e s = Some s' → wal_event e = false → wal_view s' = wal_view s.
Proof.
  destruct e as [now rs|objects| | | | |h info|h i data|now h|bounds metas]; cbn [snapshot_step wal_event]; try done; intros E _.
  - unfold snapshot_put in E. apply put_view in E as [E _]; [|done]. rewrite E. clear E. unfold sweep_expired. induction (filter _ _) as [|x l IH]; [done|]. cbn. exact IH.
  - destruct (replay_objects objects s) as [[s1|err]|] eqn:Er; [|by injection E as <-|done]. injection E as <-. unfold replay_objects in Er. destruct objects as [|o objects]; [done|].
    destruct (try_load_objects _) as [s2|] eqn:El in Er; [|done]. injection Er as <-. apply load_objects_view in El. exact El.
  - unfold object_index_read in E. destruct (sn_object_tasks s !! h) as [t|]; [|done]. destruct (ot_load t); try done. destruct info; injection E as <-; done.
  - unfold object_block_read in E. destruct (sn_object_tasks s !! h) as [t|]; [|done]. destruct (ot_load t) as [| |unread|]; try done. destruct (bool_decide _); [|done].
    destruct (ot_blocks t) as [slots|]; [|done]. destruct (slots !! i); [|done]. by injection E as <-.
  - unfold object_load_over in E. destruct (sn_object_tasks s !! h) as [t|]; [|done]. destruct (ot_load t) as [| |[|x unread]|[|n]]; try done; apply put_objects_view in E; exact E.
  - injection E as <-. unfold notify_commit_if_ahead. destruct metas; [apply notify_view|done].
Qed.

(** What a load leaves in its task. *)
Definition loaded_records (given : option (list StreamRecordBatch)) (read : result WalError (list StreamRecordBatch)) : list StreamRecordBatch :=
  match given, read with
  | Some records, _ | None, Ok records => decode_links link_decoder [] records
  | None, Err _ => []
  end.

Definition task_ids (w : WalReplayState) (hist : list (nat * list StreamRecordBatch)) : list nat := hist.*1 ++ wr_loading w ++ wr_waiting w.

(** The queues while the lock is held. *)
Record replaying (es : list SnapshotEvent) (tasks : list WalReplayTask) (w : WalReplayState) (hist : list (nat * list StreamRecordBatch)) : Prop := {
  re_sorted : StronglySorted lt (task_ids w hist);
  re_known h : h ∈ task_ids w hist → (h < length tasks)%nat;
  re_waiting h t : h ∈ wr_waiting w → tasks !! h = Some t → wt_load t = WalQueued ∧ wt_replayed t = false ∧ wt_records t = [] ∧ wt_load_done t = false;
  re_loading h t : h ∈ wr_loading w → tasks !! h = Some t →
    wt_load t ≠ WalQueued ∧ wt_replayed t = false ∧ (wt_load_done t = true ↔ wt_load t ≠ WalReading) ∧ (wt_load t = WalReading → wt_records t = []);
  re_rest h t : h ∉ wr_loading w → h ∉ wr_waiting w → tasks !! h = Some t → wt_replayed t = true ∧ wt_load t ≠ WalReading;
  re_loaded h t : h ∈ wr_loading w → tasks !! h = Some t → wt_load_done t = true →
    ∃ read, EvWalLoaded h read ∈ es ∧ wt_records t = loaded_records (wt_wal_records t) read;
  re_history h rs : (h, rs) ∈ hist → ∃ t read, tasks !! h = Some t ∧ EvWalLoaded h read ∈ es ∧ rs = loaded_records (wt_wal_records t) read;
  re_cap : (length (wr_loading w) ≤ wr_max_inflight w)%nat;
  re_waiting_cap : (length (wr_waiting w) ≤ MAX_WAITING_LOAD_TASK_COUNT)%nat;
  re_max : (0 < wr_max_inflight w)%nat;
}.

(** A loaded task at the front is about to be put, and tasks only wait for a free place. *)
Definition head_ok (tasks : list WalReplayTask) (w : WalReplayState) : Prop :=
  ∀ h t, head (wr_loading w) = Some h → tasks !! h = Some t → wt_load_done t = true → wt_load t = WalLoaded.
Definition full (w : WalReplayState) : Prop := wr_waiting w ≠ [] → (wr_max_inflight w ≤ length (wr_loading w))%nat.

Record wal_ok (es : list SnapshotEvent) (s : Snapshot) : Prop := {
  wo_replaying : replaying es (sn_wal_tasks s) (st_wal (sn_state s)) (wal_history s);
  wo_head : head_ok (sn_wal_tasks s) (st_wal (sn_state s));
  wo_full : full (st_wal (sn_state s));
}.

Lemma replaying_more es es' tasks w hist : es ⊆ es' → replaying es tasks w hist → replaying es' tasks w hist.
Proof.
  intros Hsub [R1 R2 R3 R4 R5 R6 R7 R8 R9 R10]. constructor; try done.
  - intros h t Hh Ht Hd. destruct (R6 h t Hh Ht Hd) as (read & Hin & E). eauto.
  - intros h rs Hin. destruct (R7 h rs Hin) as (t & read & Ht & Hr & E). eauto 6.
Qed.

(** Tasks change where nobody looks. *)
Lemma replaying_tasks es tasks tasks' w hist :
  replaying es tasks w hist → length tasks' = length tasks →
  (∀ h t', tasks' !! h = Some t' → ∃ t, tasks !! h = Some t ∧ wt_wal_records t' = wt_wal_records t
     ∧ ((h ∈ wr_loading w ∨ h ∈ wr_waiting w) → t' = t) ∧ (wt_replayed t = true → wt_replayed t' = true) ∧ (wt_load t ≠ WalReading → wt_load t' ≠ WalReading)) →
  replaying es tasks' w hist.
Proof.
  intros [R1 R2 R3 R4 R5 R6 R7 R8 R9 R10] El Hsame. constructor; try done.
  - intros h Hh. rewrite El. by apply R2.
  - intros h t' Hh Ht'. destruct (Hsame h t' Ht') as (t & Ht & _ & E & _). rewrite E by auto. by apply (R3 h).
  - intros h t' Hh Ht'. destruct (Hsame h t' Ht') as (t & Ht & _ & E & _). rewrite E by auto. by apply (R4 h).
  - intros h t' H1 H2 Ht'. destruct (Hsame h t' Ht') as (t & Ht & _ & _ & E1 & E2). destruct (R5 h t H1 H2 Ht). auto.
  - intros h t' Hh Ht' Hd. destruct (Hsame h t' Ht') as (t & Ht & _ & E & _). rewrite E in * by auto. by apply (R6 h).
  - intros h rs Hin. destruct (R7 h rs Hin) as (t & read & Ht & Hr & E). destruct (lookup_lt_is_Some_2 tasks' h) as [t' Ht']; [rewrite El; by eapply lookup_lt_Some|].
    destruct (Hsame h t' Ht') as (t2 & Ht2 & Ew & _). rewrite Ht in Ht2. injection Ht2 as <-. exists t', read. by rewrite Ew.
Qed.

Lemma sorted_disjoint (l k : list nat) h : StronglySorted lt (l ++ k) → h ∈ l → h ∉ k.
Proof. intros (H & _ & _)%StronglySorted_app Hl Hk. specialize (H h h Hl Hk). lia. Qed.

(** Dropping the waiting tasks. *)
Lemma complete_all_lookup (tasks : list WalReplayTask) l h :
  foldl (λ ts h, alter set_wal_replayed h ts) tasks l !! h = (if decide (h ∈ l) then set_wal_replayed else id) <$> tasks !! h.
Proof.
  revert tasks; induction l as [|x l IH]; intros tasks; cbn.
  { rewrite decide_False by apply not_elem_of_nil. by rewrite option_fmap_id. }
  rewrite IH. destruct (decide (h = x)) as [->|].
  - rewrite list_lookup_alter_eq, (decide_True (P := x ∈ x :: l)) by left. by destruct (tasks !! x), (decide (x ∈ l)).
  - rewrite list_lookup_alter_ne by done. rewrite (decide_ext (h ∈ x :: l) (h ∈ l)); [done|]. rewrite elem_of_cons. intuition.
Qed.

Lemma complete_all_fields l s :
  let s' := foldl (λ s h, complete_wal h s) s l in
  sn_wal_tasks s' = foldl (λ ts h, alter set_wal_replayed h ts) (sn_wal_tasks s) l ∧ st_wal (sn_state s') = st_wal (sn_state s) ∧ wal_history s' = wal_history s.
Proof. cbv zeta. revert s; induction l as [|h l IH]; intros s; cbn; [done|]. apply (IH (complete_wal h s)). Qed.

Lemma clear_overloaded_ok es s :
  replaying es (sn_wal_tasks s) (st_wal (sn_state s)) (wal_history s) →
  let s' := clear_overloaded s in
  replaying es (sn_wal_tasks s') (st_wal (sn_state s')) (wal_history s') ∧ wal_waiting s' = [] ∧ wal_loading s' = wal_loading s
  ∧ (head_ok (sn_wal_tasks s) (st_wal (sn_state s)) → head_ok (sn_wal_tasks s') (st_wal (sn_state s'))).
Proof.
  intros Hr. cbv zeta. unfold clear_overloaded. set (s1 := foldl (λ s h, complete_wal h s) s (wal_waiting s)).
  destruct (complete_all_fields (wal_waiting s) s) as (Et & Ew & Eh). fold s1 in Et, Ew, Eh.
  match goal with |- context [foldl ?f (set_wal_waiting [] s1) ?l] => set (ids := l); change (foldl f) with (foldl (λ s id, notify_listener (i32 id) s)) end.
  assert (∀ l s, wal_view (foldl (λ s id, notify_listener (i32 id) s) s l) = wal_view s) as Hn.
  { intros l. induction l as [|x l IH]; intros s0; cbn; [done|]. by rewrite IH. }
  specialize (Hn ids (set_wal_waiting [] s1)). injection Hn as En1 En2 En3. unfold wal_waiting, wal_loading. rewrite En1, En2, En3.
  change (wal_history (set_wal_waiting [] s1)) with (wal_history s1). change (sn_wal_tasks (set_wal_waiting [] s1)) with (sn_wal_tasks s1).
  change (st_wal (sn_state (set_wal_waiting [] s1))) with (mkWalReplay [] (wr_loading (st_wal (sn_state s1))) (wr_max_inflight (st_wal (sn_state s1)))). rewrite Et, Ew, Eh.
  pose proof (re_sorted _ _ _ _ Hr) as Hsort. unfold task_ids in Hsort. rewrite app_assoc in Hsort.
  assert (∀ h, h ∈ wr_loading (st_wal (sn_state s)) → h ∉ wal_waiting s) as Hdis.
  { intros h Hh. eapply sorted_disjoint; [exact Hsort|]. apply elem_of_app. by right. }
  assert (∀ h t', foldl (λ ts h, alter set_wal_replayed h ts) (sn_wal_tasks s) (wal_waiting s) !! h = Some t' →
    ∃ t, sn_wal_tasks s !! h = Some t ∧ t' = if decide (h ∈ wal_waiting s) then set_wal_replayed t else t) as Hlook.
  { intros h t'. rewrite complete_all_lookup. destruct (sn_wal_tasks s !! h) as [t|]; [|done]. cbn. intros [= <-]. exists t. split; [done|]. by destruct (decide _). }
  split_and!; [|done|done|].
  - destruct Hr as [R1 R2 R3 R4 R5 R6 R7 R8 R9 R10]. constructor; cbn [wr_waiting wr_loading wr_max_inflight]; try done.
    + unfold task_ids. cbn. rewrite app_nil_r. by apply StronglySorted_app in Hsort as (_ & H & _).
    + intros h Hh. assert (is_Some (sn_wal_tasks s !! h)) as [t Ht].
      { apply lookup_lt_is_Some. apply R2. unfold task_ids in *. cbn in Hh. rewrite app_nil_r in Hh. rewrite !elem_of_app in *. tauto. }
      apply lookup_lt_is_Some. rewrite complete_all_lookup, Ht. by eexists.
    + by intros h t ?%not_elem_of_nil.
    + intros h t' Hh (t & Ht & ->)%Hlook. rewrite decide_False by (by apply Hdis). by apply (R4 h).
    + intros h t' Hh _ (t & Ht & ->)%Hlook. destruct (decide (h ∈ wal_waiting s)) as [Hw|Hw]; [|by apply (R5 h)]. split; [done|]. cbn. by rewrite (proj1 (R3 h t Hw Ht)).
    + intros h t' Hh (t & Ht & ->)%Hlook. rewrite decide_False by (by apply Hdis). by apply (R6 h).
    + intros h rs Hin. destruct (R7 h rs Hin) as (t & read & Ht & Hrd & E). exists ((if decide (h ∈ wal_waiting s) then set_wal_replayed else id) t), read. rewrite complete_all_lookup, Ht, E. split; [done|]. split; [done|]. by destruct (decide (h ∈ wal_waiting s)).
    + cbn. lia.
  - intros Hhead h t' Hh (t & Ht & ->)%Hlook. cbn in Hh. rewrite decide_False; [by apply (Hhead h)|]. by apply Hdis, head_Some_elem_of.
Qed.

(** Starting waiting tasks. *)
Lemma start_ok es tasks loading rest max hist h t :
  replaying es tasks (mkWalReplay (h :: rest) loading max) hist → tasks !! h = Some t → (length loading < max)%nat →
  replaying es (alter (set_wal_load WalReading) h tasks) (mkWalReplay rest (loading ++ [h]) max) hist
  ∧ (head_ok tasks (mkWalReplay (h :: rest) loading max) → head_ok (alter (set_wal_load WalReading) h tasks) (mkWalReplay rest (loading ++ [h]) max)).
Proof.
  intros [R1 R2 R3 R4 R5 R6 R7 R8 R9 R10] Ht Hlt. unfold task_ids in *. cbn [wr_waiting wr_loading wr_max_inflight] in *.
  assert (hist.*1 ++ (loading ++ [h]) ++ rest = hist.*1 ++ loading ++ h :: rest) as Eids by (by rewrite <- app_assoc).
  destruct (R3 h t ltac:(left) Ht) as (Hq & Hrep & Hrec & Hdone).
  assert (h ∉ loading) as Hnl by (rewrite app_assoc in R1; intros Hin; eapply sorted_disjoint; [exact R1|apply elem_of_app; by right|left]).
  assert (h ∉ rest) as Hnr.
  { apply StronglySorted_app in R1 as (_ & _ & R1). apply StronglySorted_app in R1 as (_ & _ & R1). inversion R1 as [|? ? _ Hall]. subst. rewrite Forall_forall in Hall.
    intros Hin. specialize (Hall h Hin). lia. }
  assert (∀ x, x ≠ h → alter (set_wal_load WalReading) h tasks !! x = tasks !! x) as Hne by (intros x Hx; by rewrite list_lookup_alter_ne).
  split.
  - constructor; unfold task_ids; cbn [wr_waiting wr_loading wr_max_inflight]; rewrite ?length_alter; try done.
    + by rewrite Eids.
    + intros x. rewrite Eids. apply R2.
    + intros x t' Hx. rewrite Hne by (intros ->; done). intros Ht'. apply (R3 x); [by right|done].
    + intros x t' [Hx| ->%list_elem_of_singleton]%elem_of_app.
      * rewrite Hne by (intros ->; done). by apply R4.
      * rewrite list_lookup_alter_eq, Ht. intros [= <-]. cbn. rewrite Hdone. split_and!; done.
    + intros x t' Hx1 Hx2. destruct (decide (x = h)) as [->|Hxh]; [exfalso; apply Hx1, elem_of_app; right; left|]. rewrite Hne by done. apply R5; [|].
      * intros H. apply Hx1, elem_of_app. by left.
      * by intros [->|H]%elem_of_cons.
    + intros x t' [Hx| ->%list_elem_of_singleton]%elem_of_app.
      * rewrite Hne by (intros ->; done). by apply R6.
      * rewrite list_lookup_alter_eq, Ht. intros [= <-]. cbn. congruence.
    + intros x rs Hin. destruct (R7 x rs Hin) as (t' & read & Ht' & Hrd & E). destruct (decide (x = h)) as [->|]; [|exists t', read; by rewrite Hne].
      exfalso. eapply (sorted_disjoint hist.*1); [exact R1|by apply (list_elem_of_fmap_2 fst hist (h, rs))|apply elem_of_app; right; left].
    + rewrite length_app. cbn. lia.
    + cbn in R9. lia.
  - intros Hhead x t' Hx. destruct loading as [|y loading]; cbn in Hx; injection Hx as <-.
    + rewrite list_lookup_alter_eq, Ht. intros [= <-]. cbn. congruence.
    + rewrite Hne by (intros ->; apply Hnl; left). by apply Hhead.
Qed.

Lemma load_wal_ok es now waiting s s' :
  let w := mkWalReplay waiting (wal_loading s) (wr_max_inflight (st_wal (sn_state s))) in
  replaying es (sn_wal_tasks s) w (wal_history s) → load_wal_tasks now waiting s = Some s' →
  replaying es (sn_wal_tasks s') (st_wal (sn_state s')) (wal_history s') ∧ full (st_wal (sn_state s'))
  ∧ (head_ok (sn_wal_tasks s) w → head_ok (sn_wal_tasks s') (st_wal (sn_state s'))).
Proof.
  cbv zeta. revert s; induction waiting as [|h rest IH]; intros s Hr; cbn [load_wal_tasks]; destruct (_ <=? _)%nat eqn:Ecap.
  - intros [= <-]. split; [exact Hr|]. split; [intros _; cbn; unfold wal_loading in Ecap; lia|done].
  - intros [= <-]. split; [exact Hr|]. split; [intros H; done|done].
  - intros [= <-]. split; [exact Hr|]. split; [intros _; cbn; unfold wal_loading in Ecap; lia|done].
  - destruct (sn_wal_tasks s !! h) as [t|] eqn:Ht; [|done]. destruct (_ <? _).
    + intros [= <-]. destruct (clear_overloaded_ok es (set_wal_waiting (h :: rest) s) Hr) as (Hr' & Hw & _ & Hhead). split; [exact Hr'|]. split; [|exact Hhead].
      intros Hne. by rewrite <- Hw in Hne.
    + destruct (start_ok es _ _ _ _ _ h t Hr Ht ltac:(lia)) as [Hr' Hhead]. intros E. apply IH in E as (E1 & E2 & E3); [|exact Hr']. split; [done|]. split; [done|]. intros H. by apply E3, Hhead.
Qed.

(** Putting a loaded task. *)
Lemma pop_ok es tasks waiting h rest max hist t :
  replaying es tasks (mkWalReplay waiting (h :: rest) max) hist → tasks !! h = Some t → wt_load_done t = true →
  replaying es (alter set_wal_replayed h (alter (set_wal_records []) h tasks)) (mkWalReplay waiting rest max) (hist ++ [(h, wt_records t)]).
Proof.
  intros [R1 R2 R3 R4 R5 R6 R7 R8 R9 R10] Ht Hd. unfold task_ids in *. cbn [wr_waiting wr_loading wr_max_inflight] in *.
  assert ((hist ++ [(h, wt_records t)]).*1 ++ rest ++ waiting = hist.*1 ++ (h :: rest) ++ waiting) as Eids by (by rewrite fmap_app, <- app_assoc).
  destruct (R4 h t ltac:(left) Ht) as (_ & _ & Hl & _). apply Hl in Hd as Hload. destruct (R6 h t ltac:(left) Ht Hd) as (read0 & Hread0 & Erec).
  assert (h ∉ rest ++ waiting) as Hn.
  { apply StronglySorted_app in R1 as (_ & _ & R1). inversion R1 as [|? ? _ Hall]. subst. rewrite Forall_forall in Hall. intros Hin. specialize (Hall h Hin). lia. }
  rewrite elem_of_app in Hn. assert ((h ∉ rest) ∧ (h ∉ waiting)) as [Hnr Hnw] by tauto.
  set (tasks' := alter set_wal_replayed h (alter (set_wal_records []) h tasks)).
  assert (∀ x, x ≠ h → tasks' !! x = tasks !! x) as Hne by (intros x Hx; subst tasks'; by rewrite !list_lookup_alter_ne).
  assert (tasks' !! h = Some (set_wal_replayed (set_wal_records [] t))) as Heq by (subst tasks'; by rewrite !list_lookup_alter_eq, Ht).
  constructor; unfold task_ids; cbn [wr_waiting wr_loading wr_max_inflight]; try done.
  - by rewrite Eids.
  - intros x. rewrite Eids. subst tasks'. rewrite !length_alter. apply R2.
  - intros x t' Hx. rewrite Hne by (intros ->; done). by apply R3.
  - intros x t' Hx. rewrite Hne by (intros ->; done). apply R4. by right.
  - intros x t' Hx1 Hx2. destruct (decide (x = h)) as [->|Hxh]; [rewrite Heq; intros [= <-]; done|]. rewrite Hne by done. apply R5; [by intros [->|H]%elem_of_cons|done].
  - intros x t' Hx. rewrite Hne by (intros ->; done). apply R6. by right.
  - intros x rs [Hin|[= -> ->]%list_elem_of_singleton]%elem_of_app.
    + destruct (R7 x rs Hin) as (t' & read & Ht' & Hrd & E). destruct (decide (x = h)) as [->|]; [|exists t', read; by rewrite Hne].
      rewrite Ht in Ht'. injection Ht' as <-. eexists _, read. split; [exact Heq|]. done.
    + eexists _, read0. split; [exact Heq|]. done.
  - cbn in R8. lia.
Qed.

Lemma put_wal_ok es now loading s s' :
  replaying es (sn_wal_tasks s) (mkWalReplay (wal_waiting s) loading (wr_max_inflight (st_wal (sn_state s)))) (wal_history s) →
  put_wal_heads now loading s = Some s' →
  replaying es (sn_wal_tasks s') (st_wal (sn_state s')) (wal_history s') ∧ head_ok (sn_wal_tasks s') (st_wal (sn_state s')).
Proof.
  revert s; induction loading as [|h rest IH]; intros s Hr; cbn [put_wal_heads].
  { intros [= <-]. split; [exact Hr|]. by intros ? ? ?. }
  destruct (sn_wal_tasks s !! h) as [t|] eqn:Ht; [|done]. destruct (wt_load_done t) eqn:Hd; cbn [negb].
  - destruct (put_locked _ _ _ _) as [s1|] eqn:E; [|done]. apply put_locked_books in E as (E1 & _ & _ & E4 & E5 & _). cbn in E1, E4, E5. apply IH.
    unfold wal_waiting. cbn [complete_wal with_wal_tasks sn_wal_tasks sn_state]. rewrite E1, E5.
    assert (wal_history (complete_wal h s1) = wal_history s ++ [(h, wt_records t)]) as ->; [|by apply pop_ok].
    unfold wal_history. change (sn_history (complete_wal h s1)) with (sn_history s1). rewrite E4. cbn. by rewrite omap_app.
  - intros [= <-]. split; [exact Hr|]. intros x t' [= <-]. cbn. rewrite Ht. intros [= <-]. congruence.
Qed.

(** A load ends. *)
Lemma load_done_ok es h read tasks w hist t :
  replaying es tasks w hist → tasks !! h = Some t → wt_load t = WalReading →
  let f := match (match wt_wal_records t with Some records => Ok records | None => read end) with Ok records => set_wal_records (decode_links link_decoder [] records) | Err _ => λ t, t end in
  replaying (EvWalLoaded h read :: es) (alter (λ t, set_wal_load WalLoaded (set_load_done (f t))) h tasks) w hist
  ∧ (head_ok tasks w → head_ok (alter (λ t, set_wal_load WalLoaded (set_load_done (f t))) h tasks) w).
Proof.
  intros Hr Ht Hload. cbv zeta. pose proof (replaying_more es (EvWalLoaded h read :: es) _ _ _ (λ x H, proj2 (elem_of_cons _ _ _) (or_intror H)) Hr) as [R1 R2 R3 R4 R5 R6 R7 R8 R9 R10].
  set (f := match _ with Ok _ => _ | Err _ => _ end). set (g := λ t, set_wal_load WalLoaded (set_load_done (f t))).
  assert (h ∈ wr_loading w) as Hin.
  { destruct (decide (h ∈ wr_loading w)); [done|]. destruct (decide (h ∈ wr_waiting w)) as [Hw|Hw]; [|by destruct (R5 h t)]. destruct (R3 h t Hw Ht). congruence. }
  assert (h ∉ wr_waiting w) as Hnw.
  { unfold task_ids in R1. rewrite app_assoc in R1. eapply sorted_disjoint; [exact R1|]. apply elem_of_app. by right. }
  destruct (R4 h t Hin Ht) as (_ & Hrep & _ & Hrec). specialize (Hrec Hload).
  assert (wt_replayed (f t) = wt_replayed t ∧ wt_wal_records (f t) = wt_wal_records t ∧ wt_records (f t) = loaded_records (wt_wal_records t) read) as (Ef1 & Ef2 & Ef3).
  { subst f. unfold loaded_records. destruct (wt_wal_records t) eqn:Ew; [by rewrite <- Ew|]. destruct read; [done|]. done. }
  assert (∀ x, x ≠ h → alter g h tasks !! x = tasks !! x) as Hne by (intros x Hx; by rewrite list_lookup_alter_ne).
  assert (alter g h tasks !! h = Some (g t)) as Heq by (by rewrite list_lookup_alter_eq, Ht).
  split.
  - constructor; try done.
    + intros x Hx. rewrite length_alter. by apply R2.
    + intros x t' Hx. rewrite Hne by (intros ->; done). by apply R3.
    + intros x t' Hx. destruct (decide (x = h)) as [->|]; [|rewrite Hne by done; by apply R4]. rewrite Heq. intros [= <-]. cbn. rewrite Ef1. split_and!; done.
    + intros x t' Hx1 Hx2. rewrite Hne by (intros ->; done). by apply R5.
    + intros x t' Hx. destruct (decide (x = h)) as [->|]; [|rewrite Hne by done; by apply R6]. rewrite Heq. intros [= <-] _. exists read. split; [left|]. cbn. by rewrite Ef2.
    + intros x rs Hh. destruct (R7 x rs Hh) as (t' & rd & Ht' & Hrd & E). destruct (decide (x = h)) as [->|]; [|exists t', rd; by rewrite Hne].
      rewrite Ht in Ht'. injection Ht' as <-. exists (g t), rd. split; [done|]. split; [done|]. cbn. by rewrite Ef2.
  - intros Hhead x t' Hx. destruct (decide (x = h)) as [->|]; [rewrite Heq; by intros [= <-]|]. rewrite Hne by done. by apply Hhead.
Qed.

(** A replay call queues its task. *)
Lemma queue_ok es t tasks w hist :
  replaying es tasks w hist → (length (wr_waiting w) < MAX_WAITING_LOAD_TASK_COUNT)%nat →
  wt_load t = WalQueued → wt_replayed t = false → wt_records t = [] → wt_load_done t = false →
  let w' := mkWalReplay (wr_waiting w ++ [length tasks]) (wr_loading w) (wr_max_inflight w) in
  replaying es (tasks ++ [t]) w' hist ∧ (head_ok tasks w → head_ok (tasks ++ [t]) w').
Proof.
  intros [R1 R2 R3 R4 R5 R6 R7 R8 R9 R10] Hlen T1 T2 T3 T4. cbv zeta.
  assert (task_ids (mkWalReplay (wr_waiting w ++ [length tasks]) (wr_loading w) (wr_max_inflight w)) hist = task_ids w hist ++ [length tasks]) as Eids.
  { unfold task_ids. cbn. by rewrite !app_assoc. }
  assert (∀ h t', (h < length tasks)%nat → (tasks ++ [t]) !! h = Some t' → tasks !! h = Some t') as Hold by (intros h t' Hh; by rewrite lookup_app_l).
  assert (∀ h, h ∈ wr_loading w → (h < length tasks)%nat) as Hkl by (intros h Hh; apply R2; unfold task_ids; rewrite !elem_of_app; tauto).
  assert (∀ h, h ∈ wr_waiting w → (h < length tasks)%nat) as Hkw by (intros h Hh; apply R2; unfold task_ids; rewrite !elem_of_app; tauto).
  split; [constructor; cbn [wr_waiting wr_loading wr_max_inflight]; rewrite ?Eids; try done|].
  - apply StronglySorted_app. split_and!; [|done|repeat constructor]. intros x y Hx ->%list_elem_of_singleton. by apply R2.
  - intros h. rewrite length_app, elem_of_app, list_elem_of_singleton. cbn. intros [Hh%R2| ->]; lia.
  - intros h t' [Hh| ->%list_elem_of_singleton]%elem_of_app Ht'; [apply (R3 h); auto|]. rewrite lookup_app_r, Nat.sub_diag in Ht' by done. by injection Ht' as <-.
  - intros h t' Hh Ht'. apply (R4 h); auto.
  - intros h t' H1 [H2 H3]%not_elem_of_app Ht'. apply lookup_snoc_Some in Ht' as [[_ Ht']|[-> _]]; [by apply (R5 h)|]. exfalso. apply H3. left.
  - intros h t' Hh Ht'. apply (R6 h); auto.
  - intros h rs Hin. destruct (R7 h rs Hin) as (t' & read & Ht' & Hr & E). exists t', read. split; [|done]. by apply lookup_app_l_Some.
  - rewrite length_app. cbn. lia.
  - intros Hhead h t' Hh Ht'. apply (Hhead h); [done|]. apply Hold; [|done]. by apply Hkl, head_Some_elem_of.
Qed.

(** A load is past its last wait: its own lock scope follows at once. *)
Lemma over_ok es h tasks w hist t :
  replaying es tasks w hist → tasks !! h = Some t → wt_load t = WalLoaded → replaying es (alter (set_wal_load WalOver) h tasks) w hist.
Proof.
  intros [R1 R2 R3 R4 R5 R6 R7 R8 R9 R10] Ht Hl.
  assert (∀ x t', alter (set_wal_load WalOver) h tasks !! x = Some t' →
    ∃ t0, tasks !! x = Some t0 ∧ (t' = t0 ∨ (wt_load t0 = WalLoaded ∧ t' = set_wal_load WalOver t0))) as Hlook.
  { intros x t'. destruct (decide (x = h)) as [->|Hx]; [|rewrite list_lookup_alter_ne by done; eauto]. rewrite list_lookup_alter_eq, Ht. intros [= <-]. eauto. }
  constructor; try done.
  - intros x Hx. rewrite length_alter. by apply R2.
  - intros x t' Hx (t0 & Ht0 & [->|[Hl0 ->]])%Hlook; [by apply (R3 x)|]. destruct (R3 x t0 Hx Ht0). congruence.
  - intros x t' Hx (t0 & Ht0 & [->|[Hl0 ->]])%Hlook; [by apply (R4 x)|]. destruct (R4 x t0 Hx Ht0) as (_ & H2 & H3 & _). cbn. split_and!; try done.
    split; [done|]. intros _. apply H3. congruence.
  - intros x t' H1 H2 (t0 & Ht0 & [->|[Hl0 ->]])%Hlook; [by apply (R5 x)|]. destruct (R5 x t0 H1 H2 Ht0). done.
  - intros x t' Hx (t0 & Ht0 & [->|[Hl0 ->]])%Hlook; [by apply (R6 x)|]. by apply (R6 x t0).
  - intros x rs Hin. destruct (R7 x rs Hin) as (t0 & read & Ht0 & Hr & E). destruct (decide (x = h)) as [->|Hx].
    + rewrite Ht in Ht0. injection Ht0 as <-. exists (set_wal_load WalOver t), read. by rewrite list_lookup_alter_eq, Ht.
    + exists t0, read. by rewrite list_lookup_alter_ne.
Qed.

Lemma wal_ok_view es s s' : wal_view s' = wal_view s → wal_ok es s → wal_ok es s'.
Proof. intros [= E1 E2 E3] [H1 H2 H3]. constructor; by rewrite ?E1, ?E2, ?E3. Qed.

Lemma wal_ok_more es e s : wal_ok es s → wal_ok (e :: es) s.
Proof. intros [H1 H2 H3]. constructor; [|done..]. eapply replaying_more; [|exact H1]. by apply list_subseteq_cons. Qed.

Lemma load_wal_keeps es now s s' :
  replaying es (sn_wal_tasks s) (st_wal (sn_state s)) (wal_history s) → head_ok (sn_wal_tasks s) (st_wal (sn_state s)) → try_load_wal now s = Some s' → wal_ok es s'.
Proof.
  intros Hr Hh E. assert (st_wal (sn_state s) = mkWalReplay (wal_waiting s) (wal_loading s) (wr_max_inflight (st_wal (sn_state s)))) as Ew by (unfold wal_waiting, wal_loading; by destruct (st_wal _)).
  rewrite Ew in Hr, Hh. destruct (load_wal_ok es now _ _ _ Hr E) as (H1 & H2 & H3). constructor; auto.
Qed.

Lemma max_waiting_pos : (0 < MAX_WAITING_LOAD_TASK_COUNT)%nat.
Proof. unfold MAX_WAITING_LOAD_TASK_COUNT. lia. Qed.

Lemma make_room_ok es s :
  replaying es (sn_wal_tasks s) (st_wal (sn_state s)) (wal_history s) → head_ok (sn_wal_tasks s) (st_wal (sn_state s)) →
  replaying es (sn_wal_tasks (make_room s)) (st_wal (sn_state (make_room s))) (wal_history (make_room s))
  ∧ head_ok (sn_wal_tasks (make_room s)) (st_wal (sn_state (make_room s)))
  ∧ (length (wal_waiting (make_room s)) < MAX_WAITING_LOAD_TASK_COUNT)%nat.
Proof.
  intros Hr Hh. pose proof max_waiting_pos as Hpos. unfold make_room. generalize dependent MAX_WAITING_LOAD_TASK_COUNT. intros max Hpos.
  destruct (Nat.leb_spec max (length (wal_waiting s))) as [Hle|Hlt]; [|done].
  destruct (clear_overloaded_ok es s Hr) as (H1 & H2 & _ & H4). split_and!; [done|by apply H4|]. by rewrite H2.
Qed.

Lemma replay_wal_ok es ts now node st en given s s' : wal_ok es s → replay_wal ts now node st en given s = Some s' → wal_ok es s'.
Proof.
  intros [Hr Hh _]. unfold replay_wal. destruct (make_room_ok es s Hr Hh) as (Hr1 & Hh1 & Hlen). generalize dependent (make_room s). intros s1 Hr1 Hh1 Hlen.
  destruct (queue_ok es (mkWalTask ts node st en given [] false false WalQueued) _ _ _ Hr1 Hlen) as [Hr2 Hh2]; [done..|].
  set (s2 := set_wal_waiting _ _). intros E. refine (load_wal_keeps es now s2 s' _ _ E); [exact Hr2|exact (Hh2 Hh1)].
Qed.

Lemma wal_loaded_ok es h (read : result WalError (list StreamRecordBatch)) s s' : wal_ok es s → run_wal_load link_decoder h read s = Some s' → wal_ok (EvWalLoaded h read :: es) s'.
Proof.
  intros [Hr Hh Hf]. unfold run_wal_load. destruct (sn_wal_tasks s !! h) as [t|] eqn:Ht; [|done]. destruct (wt_load t) eqn:Hl; try done. intros [= <-].
  destruct (load_done_ok es h read _ _ _ t Hr Ht Hl) as [Hr1 Hh1]. constructor; [exact Hr1|exact (Hh1 Hh)|exact Hf].
Qed.

Lemma wal_over_ok es now h s s' : wal_ok es s → wal_load_over now h s = Some s' → wal_ok es s'.
Proof.
  intros [Hr _ _]. unfold wal_load_over. destruct (sn_wal_tasks s !! h) as [t|] eqn:Ht; [|done]. destruct (wt_load t) eqn:Hl; try done.
  pose proof (over_ok _ _ _ _ _ _ Hr Ht Hl) as Hr1. set (s0 := with_wal_tasks _ s). unfold try_put_wal. destruct (put_wal_heads now (wal_loading s0) s0) as [s1|] eqn:Ep; [|done].
  destruct (put_wal_ok es now (wal_loading s0) s0 s1) as [Hr2 Hh2]; [|exact Ep|by apply load_wal_keeps]. unfold wal_waiting, wal_loading.
  change (st_wal (sn_state s0)) with (st_wal (sn_state s)). destruct (st_wal (sn_state s)). exact Hr1.
Qed.

#[local] Opaque replay_wal.

Lemma wal_step_ok es e s s' : wal_ok es s → snapshot_step e s = Some s' → wal_ok (e :: es) s'.
Proof.
  intros Hok E. destruct (wal_event e) eqn:Ee; [|apply wal_ok_more; eapply wal_ok_view; [by eapply other_view|done]].
  destruct e as [| |ts now node st en given|now|h read|now h| | | |]; try done.
  - apply wal_ok_more. exact (replay_wal_ok es ts now node st en given s s' Hok E).
  - apply wal_ok_more. destruct Hok. by eapply load_wal_keeps.
  - by eapply wal_loaded_ok.
  - apply wal_ok_more. by eapply wal_over_ok.
Qed.

Lemma wal_run_ok es0 es s s' : wal_ok es0 s → snapshot_run es s = Some s' → wal_ok (reverse es ++ es0) s'.
Proof.
  revert es0 s; induction es as [|e es IH]; intros es0 s Hok; cbn [snapshot_run]; [by intros [= <-]|].
  destruct (snapshot_step e s) as [s1|] eqn:E; [|done]. intros H. rewrite reverse_cons, <- app_assoc. eapply IH; [|exact H]. by eapply wal_step_ok.
Qed.

Lemma wal_new_ok cache parallelism : (0 < parallelism)%nat → wal_ok [] (snapshot_new cache parallelism).
Proof.
  intros Hp. constructor; [|by intros ? ? ?|intros []; reflexivity].
  constructor; cbn [snapshot_new sn_wal_tasks sn_state st_wal wr_waiting wr_loading wr_max_inflight].
  - constructor.
  - intros h Hh. by apply not_elem_of_nil in Hh.
  - intros h t Hh. by apply not_elem_of_nil in Hh.
  - intros h t Hh. by apply not_elem_of_nil in Hh.
  - by intros h t _ _ ?.
  - intros h t Hh. by apply not_elem_of_nil in Hh.
  - intros h rs Hh. by apply not_elem_of_nil in Hh.
  - apply Nat.le_0_l.
  - apply Nat.le_0_l.
  - lia.
Qed.

(** Once no load is under way nothing waits. *)
Lemma wal_quiet es s :
  wal_ok es s → (∀ h t, sn_wal_tasks s !! h = Some t → wt_load t ≠ WalReading ∧ wt_load t ≠ WalLoaded) → wal_loading s = [] ∧ wal_waiting s = [].
Proof.
  intros [Hr Hh Hf] Hq. unfold wal_loading, wal_waiting, full, head_ok in *.
  assert (wr_loading (st_wal (sn_state s)) = []) as El.
  { destruct (wr_loading (st_wal (sn_state s))) as [|h l] eqn:El; [done|]. exfalso. assert (h ∈ wr_loading (st_wal (sn_state s))) as Hin by (rewrite El; left).
    destruct (lookup_lt_is_Some_2 (sn_wal_tasks s) h) as [t Ht]; [apply (re_known _ _ _ _ Hr); unfold task_ids; rewrite !elem_of_app; tauto|].
    destruct (re_loading _ _ _ _ Hr h t Hin Ht) as (_ & _ & Hd & _). destruct (Hq h t Ht) as [Hq1 Hq2]. apply Hq2, (Hh h); [done..|]. by apply Hd. }
  split; [done|]. pose proof (re_max _ _ _ _ Hr) as Hm. rewrite El in Hf. destruct (wr_waiting (st_wal (sn_state s))) as [|h l]; [done|]. specialize (Hf ltac:(done)). cbn in Hf. lia.
Qed.

(** C14: replays of a log reach the cache in the order they were asked for, each once and with
    what its own load returned, whatever order the loads end in; a replay is answered exactly
    when it has left the queues, the queues stay within their limits, and once no load is
    under way every replay has been answered. *)
Theorem wal_replay_in_order cache parallelism es s :
  (0 < parallelism)%nat → snapshot_run es (snapshot_new cache parallelism) = Some s →
  StronglySorted lt (wal_history s).*1
  ∧ (∀ h rs, (h, rs) ∈ wal_history s → ∃ t read, sn_wal_tasks s !! h = Some t ∧ EvWalLoaded h read ∈ es ∧ rs = loaded_records (wt_wal_records t) read)
  ∧ (∀ h t, sn_wal_tasks s !! h = Some t → (wt_replayed t = true ↔ (h ∉ wal_loading s) ∧ (h ∉ wal_waiting s)))
  ∧ (length (wal_loading s) ≤ wr_max_inflight (st_wal (sn_state s)))%nat ∧ (length (wal_waiting s) ≤ MAX_WAITING_LOAD_TASK_COUNT)%nat
  ∧ ((∀ h t, sn_wal_tasks s !! h = Some t → wt_load t ≠ WalReading ∧ wt_load t ≠ WalLoaded) → ∀ h t, sn_wal_tasks s !! h = Some t → wt_replayed t = true).
Proof.
  intros Hp E. pose proof (wal_run_ok [] es _ _ (wal_new_ok cache parallelism Hp) E) as Hok. rewrite app_nil_r in Hok. pose proof (wo_replaying _ _ Hok) as [R1 R2 R3 R4 R5 R6 R7 R8 R9 R10].
  split_and!; [|..|done|done|].
  - by apply StronglySorted_app in R1 as (_ & R1 & _).
  - intros h rs Hin. destruct (R7 h rs Hin) as (t & read & Ht & Hr & Er). exists t, read. by rewrite elem_of_reverse in Hr.
  - intros h t Ht. split; [|intros [H1 H2]; by apply (R5 h)]. intros Hrep. split; intros Hin; [destruct (R4 h t Hin Ht) as (_ & ? & _)|destruct (R3 h t Hin Ht) as (_ & ? & _)]; congruence.
  - intros Hq h t Ht. destruct (wal_quiet _ _ Hok Hq) as [E1 E2]. unfold wal_loading, wal_waiting in E1, E2. rewrite E1, E2 in R5. apply (R5 h t); [apply not_elem_of_nil..|done].
Qed.
End Runs.

(** ** Instances *)

Definition follower : Snapshot := snapshot_new (log_cache_new 1000 10000 100 0) 1.

Lemma follower_follows : follows 0 follower ∅.
Proof.
  constructor.
  - constructor; [apply new_ok|by eexists|done..].
  - intros st. by rewrite !lookup_empty.
  - intros st. by exists [].
  - intros st n l H. by rewrite lookup_empty in H.
  - intros st. unfold tail_of. rewrite lookup_empty. cbn. lia.
Qed.

(** A stream at 0, a covered batch, a gap: only the batch behind the gap is left. *)
Definition followed_batches : list StreamRecordBatch :=
  [new 7 0 0 5 []; new 7 0 2 2 []; new 8 0 0 1 []; new 7 0 9 1 []].

Lemma snapshot_put_refines_witness :
  follows 0 (sweep_expired 0 follower) ∅
  ∧ ∃ s', put_locked 0 FromConfirm followed_batches follower = Some s' ∧ contents 7 (lc_blocks (sn_cache s')) = [new 7 0 9 1 []] ∧ contents 8 (lc_blocks (sn_cache s')) = [new 8 0 0 1 []].
Proof.
  destruct (snapshot_put_refines 0 FromConfirm followed_batches 0 follower ∅ follower_follows) as (H1 & s' & E & _).
  - lia.
  - repeat constructor; vm_compute; done.
  - vm_compute. reflexivity.
  - split; [exact H1|]. exists s'. split; [exact E|]. revert E. vm_compute. intros [= <-]. done.
Defined.

(** Two replays, the second loaded and over first. *)
Definition late_first_load : list SnapshotEvent :=
  [EvReplayWal 0 0 3 (Build_RecordOffset 1 0 100) (Build_RecordOffset 1 100 100) None; EvReplayWal 1 1 3 (Build_RecordOffset 1 100 100) (Build_RecordOffset 1 200 100) (Some [new 7 0 5 1 []]); EvWalLoaded 1 (Err WE_Shutdown); EvWalOver 2 1;
   EvWalLoaded 0 (Ok [new 7 0 0 5 []]); EvWalOver 3 0].

Lemma wal_replay_in_order_witness :
  ∃ s, snapshot_run None late_first_load follower = Some s ∧ (wal_history s).*1 = [0; 1]%nat ∧ StronglySorted lt (wal_history s).*1
    ∧ contents 7 (lc_blocks (sn_cache s)) = [new 7 0 0 5 []; new 7 0 5 1 []].
Proof.
  destruct (snapshot_run None late_first_load follower) as [s|] eqn:E; [|vm_compute in E; done]. exists s. split; [done|].
  destruct (wal_replay_in_order None (log_cache_new 1000 10000 100 0) 1 late_first_load s ltac:(lia) E) as [H _].
  assert ((wal_history s).*1 = [0; 1]%nat ∧ contents 7 (lc_blocks (sn_cache s)) = [new 7 0 0 5 []; new 7 0 5 1 []]) as [H1 H2] by (revert E; vm_compute; intros [= <-]; done).
  split_and!; done.
Defined.

(** Two objects of one stream: the first of two blocks, the second of one. *)
Definition demo_object (id : Z) : S3ObjectMetadata := Build_S3ObjectMetadata id StreamSet [] 100 0 0 0.
Definition demo_block_index (start : Z) : DataBlockIndex := Build_DataBlockIndex 0 7 start 1 1 0 10.
Definition two_blocks : BasicObjectInfo := Build_BasicObjectInfo 20 [demo_block_index 0; demo_block_index 1].
Definition one_block : BasicObjectInfo := Build_BasicObjectInfo 10 [demo_block_index 2].
Definition demo_block (start : Z) : bytes := default [] (encode_data_block [new 7 0 start 1 []]).

(** The first object has read its first block when the second is over. *)
Definition second_over : list SnapshotEvent :=
  [EvReplayObjects [demo_object 1; demo_object 2]; EvObjectIndex 0 (Ok two_blocks); EvObjectIndex 1 (Ok one_block);
   EvObjectBlock 0 0 (Ok (demo_block 0)); EvObjectBlock 1 0 (Ok (demo_block 2)); EvObjectOver 0 1].

(** C35: an object being read loses a slot to another object's end: once the other object is
    over the first object's read block is put and its slot is gone, so that the read of its
    second block finds no slot of its index and the replay panics, although every read has
    succeeded. *)
Theorem object_replay_slot_shift :
  ∃ s task, snapshot_run None second_over follower = Some s
    ∧ sn_object_tasks s !! 0%nat = Some task ∧ ot_load task = ObjectReading [1%nat] ∧ length <$> ot_blocks task = Some 1%nat
    ∧ contents 7 (lc_blocks (sn_cache s)) = [new 7 0 0 1 []]
    ∧ ∀ data, object_block_read 0 1 data s = None.
Proof.
  let r := eval vm_compute in (snapshot_run None second_over follower) in match r with Some ?s => exists s end.
  eexists. split_and!; [vm_compute; reflexivity|cbn; reflexivity|reflexivity|reflexivity|vm_compute; reflexivity|]. by intros data.
Qed.

(** ** An object that fails blocks the queue *)

Definition object_history (s : Snapshot) : list (nat * list StreamRecordBatch) :=
  omap (λ p, match p.1 with FromObject h => Some (h, p.2) | _ => None end) (sn_history s).
Definition object_view (s : Snapshot) : list ObjectReplayTask * ObjectReplayState * list (nat * list StreamRecordBatch) :=
  (sn_object_tasks s, st_object (sn_state s), object_history s).

Lemma put_object_view now src records s s' :
  put_locked now src records s = Some s' → (∀ h, src ≠ FromObject h) → object_view s' = object_view s.
Proof.
  intros (E1 & E2 & E3 & E4 & E5 & E6)%put_locked_books Hsrc. unfold object_view, object_history. rewrite E2, E4, E6. cbn. f_equal.
  rewrite omap_app. destruct src; [..|by destruct (Hsrc task)]; cbn; by rewrite app_nil_r.
Qed.

Lemma notify_object_view {A} (f : A → Z) l s : object_view (foldl (λ s id, notify_listener (f id) s) s l) = object_view s.
Proof. revert s; induction l as [|id l IH]; intros s; cbn; [done|]. by rewrite IH. Qed.

Lemma clear_overloaded_object_view s : object_view (clear_overloaded s) = object_view s.
Proof.
  unfold clear_overloaded. rewrite (notify_object_view i32). change (object_view (set_wal_waiting [] ?x)) with (object_view x).
  generalize (wal_waiting s). intros l. revert s; induction l as [|h l IH]; intros s; cbn; [done|]. apply (IH (complete_wal h s)).
Qed.

Lemma load_wal_object_view now waiting s s' : load_wal_tasks now waiting s = Some s' → object_view s' = object_view s.
Proof.
  revert s; induction waiting as [|h waiting IH]; intros s; cbn [load_wal_tasks]; (destruct (_ <=? _)%nat; [by intros [= <-]|]); [by intros [= <-]|].
  destruct (sn_wal_tasks s !! h); [|done]. destruct (_ <? _); [intros [= <-]; exact (clear_overloaded_object_view (set_wal_waiting (h :: waiting) s))|]. intros H%IH. exact H.
Qed.

Lemma put_wal_object_view now loading s s' : put_wal_heads now loading s = Some s' → object_view s' = object_view s.
Proof.
  revert s; induction loading as [|h loading IH]; intros s; cbn [put_wal_heads]; [by intros [= <-]|].
  destruct (sn_wal_tasks s !! h) as [t|]; [|done]. destruct (negb _); [by intros [= <-]|].
  destruct (put_locked _ _ _ _) as [s1|] eqn:E; [|done]. apply put_object_view in E; [|done]. intros H%IH. rewrite H. exact E.
Qed.

Lemma replay_wal_object_view ts now n a b records s s' : replay_wal ts now n a b records s = Some s' → object_view s' = object_view s.
Proof.
  assert (object_view (make_room s) = object_view s) as Hm.
  { unfold make_room. generalize MAX_WAITING_LOAD_TASK_COUNT. intros m. destruct (m <=? _)%nat; [apply clear_overloaded_object_view|done]. }
  unfold replay_wal. revert Hm. generalize (make_room s). intros s0 Hm E%load_wal_object_view. rewrite E. exact Hm.
Qed.
#[local] Opaque replay_wal.

(** The events that do not concern the objects. *)
Definition object_event (e : SnapshotEvent) : bool :=
  match e with EvReplayObjects _ | EvObjectIndex _ _ | EvObjectBlock _ _ _ | EvObjectOver _ _ => true | _ => false end.

Lemma other_object_view decoder e s s' : snapshot_step decoder e s = Some s' → object_event e = false → object_view s' = object_view s.
Proof.
  destruct e as [now rs|objects|ts now n a b wrs|now|h read|now h|h info|h i data|now h|bounds metas]; cbn [snapshot_step object_event]; try done; intros E _.
  - unfold snapshot_put in E. apply put_object_view in E; [|done]. rewrite E. clear E. unfold sweep_expired. induction (filter _ _) as [|x l IH]; [done|]. cbn. exact IH.
  - by eapply replay_wal_object_view.
  - by apply load_wal_object_view in E.
  - unfold run_wal_load in E. destruct (sn_wal_tasks s !! h) as [t|]; [|done]. destruct (wt_load t); try done. by injection E as <-.
  - unfold wal_load_over in E. destruct (sn_wal_tasks s !! h) as [t|]; [|done]. destruct (wt_load t); try done.
    unfold try_put_wal in E. destruct (put_wal_heads _ _ _) as [s1|] eqn:Ep; [|done]. apply put_wal_object_view in Ep. apply load_wal_object_view in E. by rewrite E.
  - injection E as <-. unfold notify_commit_if_ahead. destruct metas; [apply (notify_object_view id)|done].
Qed.

(** The head of the loading queue has failed to read its index. *)
Record blocked (h : nat) (s : Snapshot) : Prop := {
  bk_head : head (object_loading s) = Some h;
  bk_waiting : h ∉ object_waiting s;
  bk_task : ∃ t n, sn_object_tasks s !! h = Some t ∧ ot_blocks t = None ∧ ot_load t = ObjectPuts n;
}.

Lemma blocked_put h now s : blocked h s → try_put_objects now s = Some s.
Proof.
  intros [Hh _ (t & n & Ht & Hb & _)]. unfold try_put_objects. rewrite put_objects_S. destruct (object_loading s) as [|x l]; [done|]. injection Hh as ->.
  unfold put_object_into_cache. by rewrite Ht, Hb.
Qed.

(** Who has been answered. *)
Definition answered (s : Snapshot) (x : nat) : Prop := ∃ t, sn_object_tasks s !! x = Some t ∧ ot_replayed t = true.

Lemma alter_answered f y s x :
  (∀ t, ot_replayed (f t) = ot_replayed t) → answered (with_object_tasks (alter f y) s) x → answered s x.
Proof.
  intros Hf (t & Ht & Hr). cbn in Ht. destruct (decide (x = y)) as [->|]; [|rewrite list_lookup_alter_ne in Ht by done; by exists t].
  rewrite list_lookup_alter_eq in Ht. destruct (sn_object_tasks s !! y) as [t0|] eqn:E; [|done]. injection Ht as <-. exists t0. by rewrite <- Hf.
Qed.

(** A task other than the head, or the head with its puts, changes. *)
Lemma alter_blocked h f y s :
  blocked h s → (y = h → ∀ t n, ot_blocks t = None → ot_load t = ObjectPuts n → ot_blocks (f t) = None ∧ ∃ n', ot_load (f t) = ObjectPuts n') →
  blocked h (with_object_tasks (alter f y) s).
Proof.
  intros [Hh Hw (t & n & Ht & Hb & Hl)] Hf. constructor; [done|done|]. cbn. destruct (decide (h = y)) as [->|].
  - destruct (Hf eq_refl t n Hb Hl) as (Hb' & n' & Hl'). exists (f t), n'. by rewrite list_lookup_alter_eq, Ht.
  - exists t, n. by rewrite list_lookup_alter_ne.
Qed.

Lemma load_objects_blocked h waiting s s' :
  blocked h s → h ∉ waiting → load_object_tasks waiting s = Some s' →
  blocked h s' ∧ object_history s' = object_history s ∧ ∀ x, answered s' x → answered s x.
Proof.
  revert s; induction waiting as [|y waiting IH]; intros s Hb Hn; cbn [load_object_tasks].
  { destruct (_ <=? _); intros [= <-]; (split; [|done]); destruct Hb as [Hh Hw Ht]; constructor; try done; apply not_elem_of_nil. }
  destruct (_ <=? _).
  { intros [= <-]. split; [|done]. destruct Hb as [Hh Hw Ht]. by constructor. }
  apply not_elem_of_cons in Hn as [Hne Hn]. destruct (sn_object_tasks s !! y) as [t|] eqn:Hy; [|done].
  match goal with |- load_object_tasks waiting (with_object_tasks ?g ?x) = _ → _ => set (s1 := x) end. intros E.
  assert (blocked h s1) as Hb1.
  { destruct Hb as [Hh Hw Ht]. constructor; [|done|done]. cbn. unfold object_loading in *. cbn. by destruct (or_loading _). }
  destruct (IH (with_object_tasks (alter (set_object_load ObjectIndex) y) s1)) as (H1 & H2 & H3); [|done|done|].
  - by apply alter_blocked.
  - split; [done|]. split; [done|]. intros x Hx. by apply H3, alter_answered in Hx.
Qed.

Lemma blocked_step decoder h e s s' :
  blocked h s → snapshot_step decoder e s = Some s' →
  blocked h s' ∧ object_history s' = object_history s
  ∧ ∀ x, answered s' x → answered s x ∨ ∃ err, e = EvObjectIndex x (Err err).
Proof.
  intros Hb E. destruct (object_event e) eqn:Ee.
  2: { apply other_object_view in E as [= E1 E2 E3]; [|done]. split; [|split; [done|]].
    - destruct Hb as [Hh Hw Ht]. constructor; unfold object_loading, object_waiting in *; by rewrite ?E1, ?E2.
    - intros x (t & Ht & Hr). left. exists t. by rewrite <- E1. }
  destruct e as [|objects| | | | |y info|y i data|now y|]; try done; cbn [snapshot_step] in E.
  - destruct (replay_objects objects s) as [[s1|err]|] eqn:Er; [|injection E as <-; by auto|done]. injection E as ->.
    unfold replay_objects in Er. destruct objects as [|o objects]; [done|]. set (objs := o :: objects) in *.
    match type of Er with context [set_object_waiting ?l ?x] => set (w := l) in Er; set (s2 := x) in Er end.
    destruct (try_load_objects _) as [s3|] eqn:El; [|done]. injection Er as ->.
    assert (h < length (sn_object_tasks s))%nat as Hlt by (destruct (bk_task _ _ Hb) as (t & n & Ht & _); by eapply lookup_lt_Some).
    assert (h ∉ w) as Hnw.
    { unfold w. rewrite elem_of_app, elem_of_seq. intros [Hin|?]; [by apply (bk_waiting _ _ Hb)|lia]. }
    destruct (load_objects_blocked h w (set_object_waiting w s2) s') as (H1 & H2 & H3); [|done|exact El|].
    + destruct Hb as [Hh Hw (t & n & Ht & Hr)]. constructor; [done|done|]. exists t, n. split; [|done]. cbn. by apply lookup_app_l_Some.
    + split; [done|]. split; [done|]. intros x Hx. left. destruct (H3 x Hx) as (t & Ht & Hr).
      change (sn_object_tasks (set_object_waiting w s2)) with (sn_object_tasks s ++ ((λ o, mkObjectTask o None false ObjectQueued) <$> objs)) in Ht.
      apply lookup_app_Some in Ht as [Ht|[_ Ht]]; [by exists t|]. rewrite list_lookup_fmap in Ht. destruct (objs !! _); [|done]. by injection Ht as <-.
  - unfold object_index_read in E. destruct (sn_object_tasks s !! y) as [t|] eqn:Hy; [|done]. destruct (ot_load t) eqn:El; try done.
    assert (y ≠ h) as Hne.
    { intros ->. destruct (bk_task _ _ Hb) as (t' & n & Ht' & _ & Hl). rewrite Hy in Ht'. injection Ht' as <-. congruence. }
    destruct info as [info|err]; injection E as <-; (split; [|split; [done|]]).
    + by apply alter_blocked.
    + intros x Hx. left. by apply alter_answered in Hx.
    + by do 2 (apply alter_blocked; [|done]).
    + intros x Hx. destruct (decide (x = y)) as [->|]; [right; by exists err|]. left. destruct Hx as (t' & Ht' & Hr). exists t'. cbn in Ht'.
      by rewrite !list_lookup_alter_ne in Ht'.
  - unfold object_block_read in E. destruct (sn_object_tasks s !! y) as [t|] eqn:Hy; [|done]. destruct (ot_load t) as [| |unread|] eqn:El; try done.
    destruct (bool_decide _); [|done]. destruct (ot_blocks t) as [slots|]; [|done]. destruct (slots !! i); [|done]. injection E as <-.
    assert (y ≠ h) as Hne.
    { intros ->. destruct (bk_task _ _ Hb) as (t' & n & Ht' & _ & Hl). rewrite Hy in Ht'. injection Ht' as <-. congruence. }
    split; [by apply alter_blocked|]. split; [done|]. intros x Hx. left. by apply alter_answered in Hx.
  - unfold object_load_over in E. destruct (sn_object_tasks s !! y) as [t|] eqn:Hy; [|done].
    assert (∃ n, try_put_objects now (with_object_tasks (alter (set_object_load (ObjectPuts n)) y) s) = Some s') as [n En]
      by (destruct (ot_load t) as [| |[|z unread]|[|n]]; try done; by eexists).
    assert (blocked h (with_object_tasks (alter (set_object_load (ObjectPuts n)) y) s)) as Hb'.
    { apply alter_blocked; [done|]. intros _ t' n' Hbl _. split; [exact Hbl|]. by exists n. }
    rewrite (blocked_put h now _ Hb') in En. injection En as <-. split; [done|]. split; [done|]. intros x Hx. left. by apply alter_answered in Hx.
Qed.

Lemma blocked_run decoder h es s s' :
  blocked h s → snapshot_run decoder es s = Some s' →
  blocked h s' ∧ object_history s' = object_history s
  ∧ ∀ x, answered s' x → answered s x ∨ ∃ err, EvObjectIndex x (Err err) ∈ es.
Proof.
  revert s; induction es as [|e es IH]; intros s Hb; cbn [snapshot_run]; [intros [= <-]; by auto|].
  destruct (snapshot_step decoder e s) as [s1|] eqn:E; [|done]. destruct (blocked_step decoder h e s s1 Hb E) as (Hb1 & H1 & A1).
  intros Hr. destruct (IH s1 Hb1 Hr) as (Hb2 & H2 & A2). split; [done|]. split; [congruence|].
  intros x Hx. destruct (A2 x Hx) as [[?|(err & ->)]%A1|(err & Hin)]; [by left|right; exists err; left|right; exists err; by right].
Qed.

(** C36: an object whose index cannot be read stays in front of the loading queue for good.
    From any state in which it heads the queue when the read fails, whatever happens after:
    it still heads the queue, no object is ever put into the cache again, and no further
    replay is answered but of objects whose own index cannot be read either, so that an
    object behind it that is read in full is never put and its replay never answered. *)
Theorem failed_object_blocks_replay decoder h task e es s s1 s2 :
  head (object_loading s) = Some h → h ∉ object_waiting s →
  sn_object_tasks s !! h = Some task → ot_load task = ObjectIndex → ot_blocks task = None →
  snapshot_step decoder (EvObjectIndex h (Err e)) s = Some s1 → snapshot_run decoder es s1 = Some s2 →
  head (object_loading s2) = Some h
  ∧ object_history s2 = object_history s
  ∧ ∀ x t, sn_object_tasks s2 !! x = Some t → ot_replayed t = true →
      x = h ∨ (∃ t0, sn_object_tasks s !! x = Some t0 ∧ ot_replayed t0 = true) ∨ ∃ e', EvObjectIndex x (Err e') ∈ es.
Proof.
  intros Hh Hw Ht Hl Hn E Hr. cbn [snapshot_step] in E. unfold object_index_read in E. rewrite Ht, Hl in E. injection E as E.
  assert (blocked h s1) as Hb.
  { subst s1. constructor; [done|done|]. exists (set_object_replayed (set_object_load (ObjectPuts 1) task)), 1%nat. cbn. by rewrite !list_lookup_alter_eq, Ht. }
  destruct (blocked_run decoder h es s1 s2 Hb Hr) as (Hb2 & Hh2 & Ha). split; [by apply bk_head|]. split; [by subst s1|].
  intros x t Hx Hrep. destruct (decide (x = h)) as [->|Hne]; [by left|right].
  destruct (Ha x) as [(t1 & Ht1 & Hr1)|?]; [by exists t|left|by right]. exists t1. split; [|done]. subst s1. cbn in Ht1.
  by rewrite !list_lookup_alter_ne in Ht1.
Qed.

(** The first object's index cannot be read; the second is read to its end. *)
Definition first_failed : list SnapshotEvent :=
  [EvObjectOver 0 0; EvObjectIndex 1 (Ok one_block); EvObjectBlock 1 0 (Ok (demo_block 2)); EvObjectOver 0 1; EvObjectOver 0 1].

Lemma failed_object_blocks_replay_witness :
  ∃ s s1 s2 t, snapshot_run None [EvReplayObjects [demo_object 1; demo_object 2]] follower = Some s
    ∧ snapshot_step None (EvObjectIndex 0 (Err (OE_Backend BE_Other))) s = Some s1 ∧ snapshot_run None first_failed s1 = Some s2
    ∧ sn_object_tasks s2 !! 1%nat = Some t ∧ ot_load t = ObjectPuts 0 ∧ ot_replayed t = false
    ∧ head (object_loading s2) = Some 0%nat ∧ object_history s2 = object_history s.
Proof.
  destruct (snapshot_run None [EvReplayObjects [demo_object 1; demo_object 2]] follower) as [s|] eqn:E; [|vm_compute in E; discriminate].
  destruct (snapshot_step None (EvObjectIndex 0 (Err (OE_Backend BE_Other))) s) as [s1|] eqn:E1; [|vm_compute in E; injection E as <-; vm_compute in E1; discriminate].
  destruct (snapshot_run None first_failed s1) as [s2|] eqn:E2; [|vm_compute in E; injection E as <-; vm_compute in E1; injection E1 as <-; vm_compute in E2; discriminate].
  destruct (failed_object_blocks_replay None 0 (mkObjectTask (demo_object 1) None false ObjectIndex) (OE_Backend BE_Other) first_failed s s1 s2) as (H1 & H2 & _).
  - vm_compute in E. by injection E as <-.
  - vm_compute in E. injection E as <-. apply not_elem_of_nil.
  - vm_compute in E. by injection E as <-.
  - reflexivity.
  - reflexivity.
  - exact E1.
  - exact E2.
  - exists s, s1, s2. vm_compute in E. injection E as <-. vm_compute in E1. injection E1 as <-.
    assert (∃ t, sn_object_tasks s2 !! 1%nat = Some t ∧ ot_load t = ObjectPuts 0 ∧ ot_replayed t = false) as (t & Ht & Hl & Hr).
    { vm_compute in E2. injection E2 as <-. eexists. split; [cbn; reflexivity|]. by split. }
    exists t. split_and!; [done|done|exact E2|exact Ht|exact Hl|exact Hr|exact H1|exact H2].
Defined.
